(* ===== verification/_CoqProject ===== *)
-Q . S2P
Prelude.v
Interleave.v
Order.v
OrdMap.v
Str.v
Utf8.v
TempFile.v
TempProtocol.v
Net.v
NetText.v
Crates.v
Samples.v
Identity.v
BridgeStore.v
StoreStats.v
GuardObs.v
StorePersist.v
CandidatePool.v
Warmer.v
DnsHints.v
BridgesConfig.v
FetchMerge.v
ClientAcl.v
Auth.v
AuthRun.v
Socks5Client.v
TorHealth.v
ConnHealth.v
Handler.v
Watchdog.v
StoreWriter.v
Snapshot.v
Verifier.v
DnsOverrides.v
DnsPacket.v
DnsCache.v
DnsWire.v
DnsLocal.v
Chunked.v
Http.v
DnsUpstream.v
DnsServer.v
DnsLifecycle.v
DnsStats.v
DnsStatsRun.v
DnsPrefetch.v
ConfigSections.v
ConfigLayout.v
ProbeDns.v
ProbeDnsRun.v
Probe.v
Onion.v
VanitySearch.v
OnionKeys.v
OnionLife.v
OnionServe.v
TorSetup.v
Maintenance.v
EngineSlot.v
EngineWatch.v
