(* ===== verification/Prelude.v ===== *)
(** * Verification of the tor-socks5 proxy

    The repository is a SOCKS5 proxy that tunnels its clients through Tor with
    pluggable-transport bridges.  Its parts, under [src/], and how they
    interact:

    - Bridges.  Bridge lists are fetched over HTTPS ([packages/bridge-fetcher])
      and merged into a candidate pool ([apps/socks5-proxy/src/bridges/
      candidate_pool.rs], [fetch/fetch_merge]).  Candidates are probed
      ([packages/bridge-probe]), verified by building a circuit
      ([bridges/bridge_verifier.rs], [packages/bridge-verify-core]) and kept in
      a health store ([packages/bridge-store]), which one writer actor publishes
      ([bridges/bridge_store_writer.rs]) while command-line processes change
      the same file; the warmer ([bridges/bridge_warmer.rs]) picks from it.
      The set-up ([tor/tor_setup.rs]) chooses the bridges of the Tor client
      from it, log events of the client come back as observations
      ([tor/arti_observability.rs]), and the maintenance task
      ([bridges/bridge_maintenance.rs]) keeps a working route.
    - Serving.  The accept loop and connection handler ([server/server.rs],
      [server/upstream.rs]) check the client against the access list
      ([packages/proxy-config/client-acl]), authenticate it ([packages/auth]),
      and connect through the tunnel or an upstream SOCKS5 proxy
      ([packages/socks5-proto]), counting what happens ([tor/conn_health.rs]).
      The watchdogs ([tor/tor_watchdog]) read those counters and heal or fail
      over the tunnel.
    - DNS.  A local resolver ([packages/dns-server]) answers from local policy,
      a persistent cache, configured overrides, or DNS over HTTPS through the
      tunnel.
    - Onion services.  Commands create, export, import and remove service keys,
      mining vanity addresses on demand; the server publishes the configured
      services and forwards their streams ([commands/onion]).
    - Android.  A library runs one engine, a proxy over the same packages, in a
      thread of its own; Java starts and stops it from any thread
      ([packages/android-ffi]).
    - Configuration.  The settings file and its sections, their validation and
      the migration of old layouts ([packages/proxy-config]).
    - Files.  Every state file is replaced through [packages/persist-lock]:
      temp file, fsync, rename, and an advisory lock between processes.

    ** What models what

    Foundations.  This file holds the result type, machine integers, tactics
    and shared lemmas.  [Interleave] is the semantics of processes that share a
    state, one atomic step at a time, with schedules, the rely-guarantee rule
    and a conservation law; every concurrent component is an instance of it.
    [Order] (comparisons, stable sorting, bounded heap), [OrdMap] ([BTreeMap]),
    [Str], [Utf8], [Net] and [NetText] model the parts of the Rust standard
    library the sources use.  [Crates] has the third-party crates as classes of
    operations with separate classes of documented laws; [Samples] instantiates
    them for the witnesses.

    Files.  [TempFile] (names and the save sequence) and [TempProtocol]
    (writers, cleanup and sweep racing over one directory) model
    [persist-lock/src/temp.rs].

    Bridges.  [Identity] is the bridge key of [bridge-probe]; [BridgeStore],
    [StoreStats] and [StorePersist] are [bridge-store]'s observations, rankings
    and file; [GuardObs] feeds it with what the client logs about its guards; [CandidatePool], [Warmer], [DnsHints], [BridgesConfig] and
    [FetchMerge] are the pool, the warmer's selection, the portable DNS hints,
    the bridge section of the configuration, and refresh, drain and top-up.
    [Chunked] and [Http] are the fetcher's HTTP client.  [StoreWriter] runs the
    writer actor, its clients and command-line processes interleaved.
    [Verifier] has the circuit verification of a batch, the admission decision,
    the background tick, and the ownership of child processes.  [ProbeDns],
    [ProbeDnsRun] and [Probe] are [bridge-probe]: the answer cache of its
    resolver, lookups, flushes and saves interleaved, and the probes and rounds.
    [Snapshot] is the copy of a cache directory for a trial client.  [TorSetup]
    chooses the settings of the client and [Maintenance] refreshes its routes:
    the search for authenticated channels, discovery, and the loop of the task.

    Serving.  [ClientAcl], [Auth] and [AuthRun] (logins and registry edits
    interleaved), [Socks5Client], [TorHealth], [ConnHealth], [Handler] (accept
    loop and connections interleaved with the summary task) and [Watchdog].

    DNS.  [DnsPacket] (lifetime of a packet), [DnsCache] (cache and file),
    [DnsOverrides] (host globs and the recursion guard), [DnsWire] (replies and
    frames), [DnsLocal] (local answers), [DnsUpstream] (DNS over HTTPS, plain
    and system servers), [DnsServer] (query path, listeners, admission and
    refresh interleaved) and [DnsLifecycle] (binding and the order of a stop).
    [DnsStats] and [DnsStatsRun] are the statistics of questions and their
    database, and [DnsPrefetch] the cycle that refreshes popular names.

    Configuration.  [ConfigSections] validates the sections and [ConfigLayout]
    loads, writes and migrates the files.

    Onion services.  [Onion] has addresses, key derivation and vanity targets,
    [VanitySearch] the threads of the search, [OnionKeys] the commands over the
    key store, [OnionLife] the producer, managers and the lock between server
    and commands, and [OnionServe] the circuits, permits and connection tasks.

    Android.  [EngineSlot] interleaves calls of [nativeStart] and [nativeStop]
    with the engine thread, its progress reports and its background warm-up;
    [EngineWatch] has the live circuit check, the two watchdogs, the warm-up of
    bridges and the rotation pool.

    In each file the state of a component is a record with the source's fields,
    its enums are inductive types with the source's constructors, and an
    operation keeps the name of the function it translates.  Code that waits on
    the network, the clock or the file system takes what they answer as an
    input, so that a theorem about all inputs is a theorem about every
    behaviour of the environment; what such code sends is a trace.  Integers
    are [Z] with the source's saturation, wrap-around and checks written out;
    strings are lists of scalar values; hash maps are [gmap] with their
    iteration order a parameter.

    ** What the theorems show

    - The health store refines an abstract per-bridge specification, its
      operations preserve well-formedness, selections equal stable sorting, and
      a saved file loads back.
    - Under every interleaving with failures: no mutation sent to the writer is
      lost, a close that is confirmed means published, retained updates get
      published; a temp file in use is never deleted; registry edits are not
      lost and an accepted login had a genuine account; no candidate is lost by
      a drain; permits, gauges and counters of the server balance.
    - The settings of the client name only wanted bridges that answered; a
      route is proven before it replaces another, a working one is kept, and
      the search for a fallback reaches every candidate; observations of guards
      reach exactly their bridges; a snapshot has a whole database or none.
    - The HTTP client reads a response exactly however it is fragmented, keeps
      credentials on their origin and cannot be made to smuggle a request.
    - Verification ends within its budget, its verdicts are justified, and the
      background tick starves no bridge; the watchdog heals exactly when the
      history justifies it.
    - The DNS server sends a question only where the operator allows, replies
      only to allowed clients with answers that local policy, cache or a
      validated upstream response justify, ignores forged packets, conserves
      its permits, serves nothing past its lifetime, and stops in order.
    - Grammars and formats: access lists mean what their patterns say, host
      globs are decided exactly, addresses, frames, cache and store files read
      back.
    - The resolver of the probes keeps answers to the network they were looked
      up on, asks once per name, and its saves never go back in time; the DNS
      statistics are the rolling window of the receipts, across restarts.
    - A configuration that loads is valid, is written back as it was, and a
      migration that is interrupted resumes without losing a file.
    - Onion keys change only when a command was asked to, an export can be
      imported again, a mined key has its prefix; a published service implies
      the lock, its streams reach only their configured targets, and a
      cancelled service ends.
    - At most one Android engine lives, however starts and stops interleave,
      and every call returns; the bridges it rotates over each opened a channel
      of their own, and its channels are reset only when that is justified.
    - Some theorems record where code and documentation disagree, among them a
      mutation that panics keeping the store's lock, retirements forgotten by a
      probe round, failed connects counted twice, the redirect limit,
      [onion list] failing after a refused command, and a status of the Android
      engine that stays out of date.

    ** Bounds and fuel

    Loops whose termination is not structural take fuel.  The fuel is always
    computed from the input and proved sufficient or the function proved total:
    readers of a stream get one more than its bytes, since a successful read
    delivers a byte; the glob gets one pass over the pattern per host byte; the
    CNAME chain, the redirect loop and the binding loop have the source's own
    bounds.  Limits of the sources (cache entries and bytes, permits, timeouts)
    are the source's numbers.

    ** Not modelled

    The Tor protocol, TLS, the Arti client and the pluggable transports are
    parameters: connections succeed or fail as the environment decides.  Of
    the Android library the choice of bridges before the live circuit, the
    connection handler and the bindings into the Java virtual machine are left
    out.  Service control, command line and help texts, start-up wiring and
    signals drive those libraries or the operating system.  The parsers that serde derives are
    parameters of the configuration; logging and the wording of messages are
    left out, and so are the vendored Tor crates. *)

From Stdlib Require Export ZArith Lia Bool.
From stdpp Require Export base tactics option list sorting strings gmap.

(** ** Results

    Rust's [Result<T, E>]; [let?] is the question-mark operator. *)

Inductive result (A E : Type) : Type :=
| Ok (a : A)
| Err (e : E).
Arguments Ok {A E} a.
Arguments Err {A E} e.

Declare Scope result_scope.
Delimit Scope result_scope with result.

Definition rbind {A B E} (r : result A E) (k : A → result B E) : result B E :=
  match r with
  | Ok a => k a
  | Err e => Err e
  end.

Notation "'let?' x ':=' e 'in' k" := (rbind e (fun x => k))
  (at level 10, x pattern, e at level 100, k at level 200)
  : result_scope.

Lemma rbind_Ok {A B E} (r : result A E) (k : A → result B E) b :
  rbind r k = Ok b → ∃ a, r = Ok a ∧ k a = Ok b.
Proof. destruct r as [a|]; simpl; [eauto|done]. Qed.

(** [Option::ok_or]. *)
Definition ok_or {A E} (o : option A) (e : E) : result A E :=
  match o with
  | Some a => Ok a
  | None => Err e
  end.

(** [Result::ok]. *)
Definition ok {A E} (r : result A E) : option A :=
  match r with
  | Ok a => Some a
  | Err _ => None
  end.

(** [iter().map(f).collect::<Result<Vec<_>, _>>()]: the first error wins. *)
Fixpoint collect {A B E} (f : A → result B E) (l : list A) : result (list B) E :=
  match l with
  | [] => Ok []
  | x :: l' => rbind (f x) (fun y => rbind (collect f l') (fun ys => Ok (y :: ys)))
  end.

(** ** Machine integers

    An unsigned integer of width [w] is a [Z] in the range of [w]; the
    arithmetic that can leave the range is written out where it is used. *)

Definition u8_max : Z := 2 ^ 8 - 1.
Definition u16_max : Z := 2 ^ 16 - 1.
Definition u32_max : Z := 2 ^ 32 - 1.
Definition u64_max : Z := 2 ^ 64 - 1.
Definition u128_max : Z := 2 ^ 128 - 1.

Definition in_u (mx x : Z) : Prop := (0 ≤ x ≤ mx)%Z.

Definition saturating_add (mx x y : Z) : Z := Z.min mx (x + y).
Definition saturating_sub (x y : Z) : Z := Z.max 0 (x - y).
Definition checked_add (mx x y : Z) : option Z :=
  if (x + y <=? mx)%Z then Some (x + y)%Z else None.
Definition checked_sub (x y : Z) : option Z :=
  if (y <=? x)%Z then Some (x - y)%Z else None.
Definition checked_mul (mx x y : Z) : option Z :=
  if (x * y <=? mx)%Z then Some (x * y)%Z else None.

Create HintDb tor.

Lemma saturating_add_bounds mx x y :
  in_u mx x → (0 ≤ y)%Z → in_u mx (saturating_add mx x y).
Proof. unfold in_u, saturating_add. lia. Qed.

Lemma saturating_add_pos mx x y :
  (0 < mx)%Z → (0 ≤ x)%Z → (0 < y)%Z → (0 < saturating_add mx x y)%Z.
Proof. unfold saturating_add. lia. Qed.

#[export] Hint Resolve saturating_add_bounds : tor.

(** ** Lists *)

(** Of two ways to cut a list in two, the longer front starts with the shorter. *)
Lemma prefix_split {A} (a b c d : list A) :
  a ++ c = b ++ d → (length b ≤ length a)%nat → ∃ rest, a = b ++ rest.
Proof.
  intros Heq Hle. exists (drop (length b) a). rewrite <-(take_drop (length b) a) at 1. f_equal.
  apply (f_equal (take (length b))) in Heq. by rewrite take_app_le, take_app_length in Heq.
Qed.

Lemma filter_sublist {A} (P : A → bool) l : sublist (List.filter P l) l.
Proof. induction l as [|x l IH]; simpl; [constructor|]. destruct (P x); by constructor. Qed.

(** ** Tactics *)

(** Split every [if] and [match] scrutinee of the goal, keeping equations. *)
Ltac case_goal :=
  repeat match goal with
  | |- context [match ?x with _ => _ end] =>
      lazymatch x with
      | context [match _ with _ => _ end] => fail
      | _ => destruct x eqn:?
      end
  end.

(** Split a sequence of fallible calls that succeeded into the calls. *)
Ltac unbind H :=
  repeat (let a := fresh "a" in let Ha := fresh "Ha" in apply rbind_Ok in H as (a & Ha & H)).

(** Turn boolean comparisons of hypotheses and goal into propositions. *)
Ltac boolprop :=
  repeat match goal with
  | H : _ && _ = true |- _ => apply andb_true_iff in H; destruct H
  | H : _ && _ = false |- _ => apply andb_false_iff in H
  | H : _ || _ = true |- _ => apply orb_true_iff in H
  | H : _ || _ = false |- _ => apply orb_false_iff in H; destruct H
  | H : negb _ = true |- _ => apply negb_true_iff in H
  | H : negb _ = false |- _ => apply negb_false_iff in H
  | H : bool_decide _ = true |- _ => apply bool_decide_eq_true_1 in H
  | H : bool_decide _ = false |- _ => apply bool_decide_eq_false_1 in H
  | H : (_ =? _)%Z = true |- _ => apply Z.eqb_eq in H
  | H : (_ =? _)%Z = false |- _ => apply Z.eqb_neq in H
  | H : (_ <=? _)%Z = true |- _ => apply Z.leb_le in H
  | H : (_ <=? _)%Z = false |- _ => apply Z.leb_gt in H
  | H : (_ <? _)%Z = true |- _ => apply Z.ltb_lt in H
  | H : (_ <? _)%Z = false |- _ => apply Z.ltb_ge in H
  | H : (_ =? _)%nat = true |- _ => apply Nat.eqb_eq in H
  | H : (_ =? _)%nat = false |- _ => apply Nat.eqb_neq in H
  | H : (_ <=? _)%nat = true |- _ => apply Nat.leb_le in H
  | H : (_ <=? _)%nat = false |- _ => apply Nat.leb_gt in H
  | H : (_ <? _)%nat = true |- _ => apply Nat.ltb_lt in H
  | H : (_ <? _)%nat = false |- _ => apply Nat.ltb_ge in H
  end.
