(* ===== verification/Interleave.v ===== *)
(** * Interleaved processes

    Threads and processes that share a state, one atomic step at a time.  A
    component supplies the step of a single process as an executable function;
    here are the step relation of the whole system, schedules that run it and
    the rely-guarantee rule by which the components prove their invariants. *)

From S2P Require Import Prelude.

(** ** Atomic counters

    [AtomicU64::fetch_add] and [fetch_sub] wrap. *)
Definition fetch_add (x k : Z) : Z := ((x + k) mod 2 ^ 64)%Z.

(** Equality of counters up to wrapping. *)
Definition eq64 (a b : Z) : Prop := (a mod 2 ^ 64 = b mod 2 ^ 64)%Z.

#[export] Instance eq64_equiv : Equivalence eq64.
Proof. unfold eq64. split; [done|intros ? ? ?; done|intros ? ? ? ? ?; congruence]. Qed.

Lemma eq64_add a b k : eq64 a b → eq64 (a + k) (b + k).
Proof. unfold eq64. intros He. by rewrite <-Zplus_mod_idemp_l, He, Zplus_mod_idemp_l. Qed.

Lemma fetch_add_eq64 x k : eq64 (fetch_add x k) (x + k).
Proof. unfold eq64, fetch_add. by rewrite Z.mod_mod. Qed.

Section Interleave.
(** [S] is the shared state, [P] the program counters, [E] what the
    environment decides at a step; [starts] says where a process may begin. *)
Context {S P E : Type}.
Context (step : nat → E → S → P → option (S * P)) (starts : P → Prop).

Record config : Type := mkConfig {
  shared : S;
  procs : gmap nat P;
}.

(** A process joins, or one process makes a step. *)
Inductive move : Type :=
| Spawn (i : nat) (pc : P)
| Step (i : nat) (e : E).

Definition move_step (c : config) (m : move) : option config :=
  match m with
  | Spawn i pc =>
      match procs c !! i with
      | Some _ => None
      | None => Some (mkConfig (shared c) (<[i := pc]> (procs c)))
      end
  | Step i e =>
      match procs c !! i with
      | None => None
      | Some pc =>
          match step i e (shared c) pc with
          | None => None
          | Some (s', pc') => Some (mkConfig s' (<[i := pc']> (procs c)))
          end
      end
  end.

Definition legal (m : move) : Prop :=
  match m with
  | Spawn _ pc => starts pc
  | Step _ _ => True
  end.

Inductive reach (c0 : config) : config → Prop :=
| reach_here : reach c0 c0
| reach_move c m c' : reach c0 c → legal m → move_step c m = Some c' → reach c0 c'.

Fixpoint run_schedule (c : config) (ms : list move) : option config :=
  match ms with
  | [] => Some c
  | m :: ms' =>
      match move_step c m with
      | None => None
      | Some c' => run_schedule c' ms'
      end
  end.

Lemma reach_trans c0 c1 c2 : reach c0 c1 → reach c1 c2 → reach c0 c2.
Proof. intros H01 H12. induction H12; [done|]. by econstructor. Qed.

Lemma run_reach c ms c' : Forall legal ms → run_schedule c ms = Some c' → reach c c'.
Proof.
  revert c. induction ms as [|m ms IH]; intros c Hl; simpl.
  { intros [= <-]. constructor. }
  inversion Hl; subst. destruct (move_step c m) as [c1|] eqn:Hm; [|done]. intros Hr.
  apply (reach_trans c c1); [|by apply IH]. econstructor; [constructor|done|done].
Qed.

Lemma run_step i e s p s' p' (q : gmap nat P) ms :
  q !! i = Some p → step i e s p = Some (s', p') →
  run_schedule (mkConfig s q) (Step i e :: ms) = run_schedule (mkConfig s' (<[i := p']> q)) ms.
Proof. intros Hq Hs. simpl. by rewrite Hq, Hs. Qed.

(** ** Rely-guarantee

    [G] holds of the shared state, [L i pc] is what process [i] at [pc] relies
    on.  A step establishes both for itself and leaves what the others rely
    on. *)
Context (G : S → Prop) (L : nat → P → S → Prop).

Definition holds (c : config) : Prop :=
  G (shared c) ∧ ∀ i pc, procs c !! i = Some pc → L i pc (shared c).

Context (L_start : ∀ i pc s, starts pc → G s → L i pc s).
Context (own_step : ∀ i e s pc s' pc',
  G s → L i pc s → step i e s pc = Some (s', pc') → G s' ∧ L i pc' s').
Context (other_step : ∀ i j e s pc s' pc' q,
  i ≠ j → G s → L i pc s → L j q s → step i e s pc = Some (s', pc') → L j q s').

Lemma move_holds c m c' : holds c → legal m → move_step c m = Some c' → holds c'.
Proof using L_start own_step other_step.
  intros [HG HL] Hm. destruct m as [i pc|i e]; simpl.
  - destruct (procs c !! i) eqn:Hi; [done|]. intros [= <-]. split; [done|].
    intros j q. simpl. rewrite lookup_insert_Some. intros [[-> <-]|[_ Hj]]; auto.
  - destruct (procs c !! i) as [pc|] eqn:Hi; [|done].
    destruct (step i e (shared c) pc) as [[s' pc']|] eqn:Hs; [|done]. intros [= <-].
    destruct (own_step _ _ _ _ _ _ HG (HL _ _ Hi) Hs) as [HG' HL']. split; [done|].
    intros j q. simpl. rewrite lookup_insert_Some. intros [[-> <-]|[Hne Hj]]; [done|].
    exact (other_step _ _ _ _ _ _ _ _ Hne HG (HL _ _ Hi) (HL _ _ Hj) Hs).
Qed.

Lemma reach_holds c0 c : holds c0 → reach c0 c → holds c.
Proof using L_start own_step other_step.
  intros H0 Hr. induction Hr as [|c m c' _ IH Hl Hm]; [done|]. by eapply move_holds.
Qed.
(** ** Conservation

    [weight] is what a process holds, [stock] what the shared state holds; a
    step moves from one to the other.  [R] is equality, or equality modulo the
    width of a counter. *)
Definition tally (weight : P → Z) (q : gmap nat P) : Z :=
  map_fold (fun _ p acc => (weight p + acc)%Z) 0%Z q.

Lemma tally_insert_fresh weight (q : gmap nat P) i p :
  q !! i = None → tally weight (<[i := p]> q) = (weight p + tally weight q)%Z.
Proof. intros Hi. unfold tally. rewrite map_fold_insert_L; [done|intros; lia|done]. Qed.

Lemma tally_insert weight (q : gmap nat P) i p p' :
  q !! i = Some p → tally weight (<[i := p']> q) = (tally weight q - weight p + weight p')%Z.
Proof.
  intros Hi. rewrite <-(insert_id q i p Hi) at 2. rewrite <-(insert_delete_eq q i p).
  rewrite <-(insert_delete_eq q i p'). rewrite !tally_insert_fresh by apply lookup_delete_eq. lia.
Qed.

Lemma tally_empty weight : tally weight ∅ = 0%Z.
Proof. apply map_fold_empty. Qed.

Lemma tally_nonneg weight (q : gmap nat P) : (∀ p, 0 ≤ weight p)%Z → (0 ≤ tally weight q)%Z.
Proof.
  intros Hw. induction q as [|i p q Hi IH] using map_ind; [by rewrite tally_empty|].
  rewrite tally_insert_fresh by done. specialize (Hw p). lia.
Qed.

Lemma reach_conserves (R : relation Z) `{!PreOrder R} (stock : S → Z) (weight : P → Z) c0 c :
  (∀ a b k, R a b → R (a + k)%Z (b + k)%Z) →
  (∀ p, starts p → weight p = 0%Z) →
  (∀ i e s p s' p', step i e s p = Some (s', p') → R (stock s' + weight p')%Z (stock s + weight p)%Z) →
  reach c0 c →
  R (stock (shared c) + tally weight (procs c))%Z (stock (shared c0) + tally weight (procs c0))%Z.
Proof.
  intros Hadd Hstart Hstep Hr. induction Hr as [|c m c' _ IH Hl Hm]; [done|].
  etrans; [|exact IH]. destruct m as [i p|i e]; simpl in Hl, Hm.
  - destruct (procs c !! i) eqn:Hi; [done|]. injection Hm as <-. simpl.
    by rewrite tally_insert_fresh, Hstart.
  - destruct (procs c !! i) as [p|] eqn:Hi; [|done].
    destruct (step i e (shared c) p) as [[s' p']|] eqn:Hs; [|done]. injection Hm as <-. simpl.
    rewrite (tally_insert _ _ _ _ _ Hi). specialize (Hstep _ _ _ _ _ _ Hs).
    apply (Hadd _ _ (tally weight (procs c) - weight p)%Z) in Hstep.
    replace (stock s' + (tally weight (procs c) - weight p + weight p'))%Z
      with (stock s' + weight p' + (tally weight (procs c) - weight p))%Z by lia.
    replace (stock (shared c) + tally weight (procs c))%Z
      with (stock (shared c) + weight p + (tally weight (procs c) - weight p))%Z by lia.
    done.
Qed.
End Interleave.

Arguments config : clear implicits.
Arguments move : clear implicits.
