(* ===== verification/Order.v ===== *)
(** * Comparisons, stable sorting and bounded selection

    Rust's [Ord]/[Ordering] as comparison functions with their laws, the
    combinators the sources chain ([then], [Reverse], key functions), the
    stable sort of [slice::sort_by], and [std::collections::BinaryHeap] as
    an interface stated on the multiset of a heap's items. *)

From S2P Require Import Prelude.

(** ** Comparison functions *)

(** [Ordering::then] / [then_with]. *)
Definition then_cmp (c d : comparison) : comparison :=
  match c with
  | Eq => d
  | _ => c
  end.

Declare Scope order_scope.
Delimit Scope order_scope with order.
Infix "⊳" := then_cmp (at level 60, right associativity) : order_scope.
Open Scope order_scope.

(** A comparison that ranks: reversing the arguments reverses the answer and
    "not after" is transitive.  Items that compare [Eq] may differ. *)
Class Ranking {A} (c : A → A → comparison) : Prop := {
  rank_opp : ∀ x y, c y x = CompOpp (c x y);
  rank_trans : ∀ x y z, c x y ≠ Gt → c y z ≠ Gt → c x z ≠ Gt;
}.

Arguments rank_opp {A} c {_} x y.
Arguments rank_trans {A} c {_} x y z.
#[export] Hint Mode Ranking ! ! : typeclass_instances.

(** Rust's [Ord] with the derived [Eq]: [Eq] is equality. *)
Class Ord (A : Type) : Type := {
  cmp : A → A → comparison;
  cmp_ranking :: Ranking cmp;
  cmp_eq : ∀ x y, cmp x y = Eq ↔ x = y;
}.

Section Ranking.
Context {A : Type} (c : A → A → comparison) `{!Ranking c}.

Lemma rank_refl x : c x x = Eq.
Proof. pose proof (rank_opp c x x) as H. destruct (c x x); simpl in H; congruence. Qed.

Lemma rank_gt_lt x y : c x y = Gt ↔ c y x = Lt.
Proof. rewrite (rank_opp c y x). destruct (c y x); simpl; naive_solver. Qed.

Lemma rank_eq_sym x y : c x y = Eq ↔ c y x = Eq.
Proof. rewrite (rank_opp c y x). destruct (c y x); simpl; naive_solver. Qed.

Lemma rank_lt_le_trans x y z : c x y = Lt → c y z ≠ Gt → c x z = Lt.
Proof.
  intros Hxy Hyz. destruct (c x z) eqn:Hxz; [|done|].
  - exfalso. apply (rank_trans c y z x); [done| |].
    + apply rank_eq_sym in Hxz. congruence.
    + by apply rank_gt_lt.
  - exfalso. apply (rank_trans c x y z); congruence.
Qed.

Lemma rank_le_lt_trans x y z : c x y ≠ Gt → c y z = Lt → c x z = Lt.
Proof.
  intros Hxy Hyz. destruct (c x z) eqn:Hxz; [|done|].
  - exfalso. apply (rank_trans c z x y); [|done|].
    + apply rank_eq_sym in Hxz. congruence.
    + by apply rank_gt_lt.
  - exfalso. apply (rank_trans c x y z); congruence.
Qed.

Lemma rank_lt_trans x y z : c x y = Lt → c y z = Lt → c x z = Lt.
Proof. intros ? ?. eapply rank_le_lt_trans; [|done]. congruence. Qed.

Lemma rank_eq_l x y z : c x y = Eq → c x z = c y z.
Proof.
  intros Hxy. assert (Hyx : c y x = Eq) by by apply rank_eq_sym.
  destruct (c y z) eqn:Hyz.
  - destruct (c x z) eqn:Hxz; [done| |].
    + assert (c y z = Lt) by (eapply rank_le_lt_trans; [|done]; congruence). congruence.
    + exfalso. apply (rank_trans c x y z); congruence.
  - eapply rank_le_lt_trans; [|done]. congruence.
  - apply rank_gt_lt in Hyz. apply rank_gt_lt.
    eapply rank_lt_le_trans; [done|]. congruence.
Qed.

Lemma rank_eq_r x y z : c x y = Eq → c z x = c z y.
Proof.
  intros Hxy. rewrite (rank_opp c x z), (rank_opp c y z). by rewrite (rank_eq_l x y z).
Qed.
End Ranking.

(** Comparing by a key, in reverse, and lexicographically. *)
Definition cmp_on {A B} (f : A → B) (c : B → B → comparison) : A → A → comparison :=
  fun x y => c (f x) (f y).
Definition cmp_rev {A} (c : A → A → comparison) : A → A → comparison :=
  fun x y => c y x.
Definition cmp_lex {A} (c d : A → A → comparison) : A → A → comparison :=
  fun x y => c x y ⊳ d x y.

#[global] Typeclasses Opaque cmp_on cmp_rev cmp_lex.

#[export] Instance cmp_on_ranking {A B} (f : A → B) c : Ranking c → Ranking (cmp_on f c).
Proof.
  intros Hc. split; unfold cmp_on; intros x y.
  - apply (rank_opp c).
  - intros z. apply (rank_trans c).
Qed.

#[export] Instance cmp_rev_ranking {A} (c : A → A → comparison) :
  Ranking c → Ranking (cmp_rev c).
Proof.
  intros Hc. split; unfold cmp_rev; intros x y.
  - apply (rank_opp c).
  - intros z ? ?. by apply (rank_trans c z y x).
Qed.

#[export] Instance cmp_lex_ranking {A} (c d : A → A → comparison) :
  Ranking c → Ranking d → Ranking (cmp_lex c d).
Proof.
  intros Hc Hd. split; unfold cmp_lex.
  - intros x y. rewrite (rank_opp c x y). destruct (c x y); simpl; [apply (rank_opp d)|done..].
  - intros x y z. destruct (c x y) eqn:Hxy; simpl; [|intros _|done].
    + rewrite (rank_eq_l c x y z) by done. destruct (c y z); simpl; [|done..].
      apply (rank_trans d).
    + destruct (c y z) eqn:Hyz; simpl; [| |done].
      * intros _. rewrite <-(rank_eq_r c y z x) by done. by rewrite Hxy.
      * intros _. by rewrite (rank_lt_trans c x y z).
Qed.

(** ** Orders of the standard library's types *)

Lemma Z_compare_ranking : Ranking Z.compare.
Proof.
  split; intros.
  - apply Z.compare_antisym.
  - rewrite Z.compare_ngt_iff in *. lia.
Qed.

#[export] Program Instance Z_ord : Ord Z := {| cmp := Z.compare |}.
Next Obligation. exact Z_compare_ranking. Qed.
Next Obligation. exact Z.compare_eq_iff. Qed.

#[export] Instance Nat_compare_ranking : Ranking Nat.compare.
Proof.
  split; intros.
  - apply Nat.compare_antisym.
  - rewrite Nat.compare_ngt_iff in *. lia.
Qed.

Definition bool_cmp (x y : bool) : comparison :=
  match x, y with
  | false, true => Lt
  | true, false => Gt
  | _, _ => Eq
  end.

#[export] Program Instance bool_ord : Ord bool := {| cmp := bool_cmp |}.
Next Obligation. split; intros; repeat match goal with b : bool |- _ => destruct b end; done. Qed.
Next Obligation. destruct x, y; simpl; naive_solver. Qed.

(** [None] sorts before every [Some]. *)
Definition option_cmp {A} (c : A → A → comparison) (x y : option A) : comparison :=
  match x, y with
  | None, None => Eq
  | None, Some _ => Lt
  | Some _, None => Gt
  | Some a, Some b => c a b
  end.

#[export] Instance option_cmp_ranking {A} (c : A → A → comparison) :
  Ranking c → Ranking (option_cmp c).
Proof.
  intros Hc. split.
  - intros [x|] [y|]; simpl; try done. apply (rank_opp c).
  - intros [x|] [y|] [z|]; simpl; try done. apply (rank_trans c).
Qed.

#[export] Program Instance option_ord `{Ord A} : Ord (option A) :=
  {| cmp := option_cmp cmp |}.
Next Obligation. intros A H [x|] [y|]; simpl; rewrite ?cmp_eq; naive_solver. Qed.

#[export] Program Instance prod_ord `{Ord A, Ord B} : Ord (A * B) :=
  {| cmp := cmp_lex (cmp_on fst cmp) (cmp_on snd cmp) |}.
Next Obligation.
  intros A HA B HB [a b] [a' b']. unfold cmp_lex, cmp_on; simpl.
  destruct (cmp a a') eqn:Ha; simpl; rewrite ?cmp_eq in *;
    [naive_solver|split; [done|intros [= -> ->]; by rewrite (rank_refl cmp) in Ha]..].
Qed.

(** Slices and strings compare lexicographically. *)
Fixpoint list_cmp {A} (c : A → A → comparison) (x y : list A) : comparison :=
  match x, y with
  | [], [] => Eq
  | [], _ :: _ => Lt
  | _ :: _, [] => Gt
  | a :: x', b :: y' => c a b ⊳ list_cmp c x' y'
  end.

#[export] Instance list_cmp_ranking {A} (c : A → A → comparison) :
  Ranking c → Ranking (list_cmp c).
Proof.
  intros Hc. split.
  - induction x as [|a x IH]; intros [|b y]; simpl; try done.
    rewrite (rank_opp c a b). destruct (c a b); simpl; auto.
  - induction x as [|a x IH]; intros [|b y] [|d z]; simpl; try done.
    destruct (c a b) eqn:Hab; simpl; [|intros _|done].
    + rewrite (rank_eq_l c a b d) by done. destruct (c b d); simpl; [|done..]. apply IH.
    + destruct (c b d) eqn:Hbd; simpl; [| |done]; intros _.
      * rewrite <-(rank_eq_r c b d a) by done. by rewrite Hab.
      * by rewrite (rank_lt_trans c a b d).
Qed.

#[export] Program Instance list_ord `{Ord A} : Ord (list A) :=
  {| cmp := list_cmp cmp |}.
Next Obligation.
  intros A H. induction x as [|a x IH]; intros [|b y]; simpl; [done|by split|by split|].
  destruct (cmp a b) eqn:Hab; simpl.
  - rewrite IH. rewrite cmp_eq in Hab. subst b. split; congruence.
  - split; [done|intros [= -> ->]; by rewrite (rank_refl cmp) in Hab].
  - split; [done|intros [= -> ->]; by rewrite (rank_refl cmp) in Hab].
Qed.

(** A derived [Ord] on a struct or enum: the order of its fields. *)
Program Definition ord_by {A B} `{Ord B} (f : A → B) (Hf : ∀ x y, f x = f y → x = y) : Ord A :=
  {| cmp := cmp_on f cmp |}.
Next Obligation.
  intros A B HB f Hf x y. unfold cmp_on. rewrite cmp_eq. naive_solver.
Qed.

#[local] Instance ord_eq_dec `{Ord A} : EqDecision A | 100.
Proof.
  intros x y. destruct (cmp x y) eqn:Hc.
  - left. by apply cmp_eq.
  - right. intros ->. by rewrite (rank_refl cmp) in Hc.
  - right. intros ->. by rewrite (rank_refl cmp) in Hc.
Defined.

(** ** Stable sorting *)

Section Sort.
Context {A : Type} (c : A → A → comparison).

(** Insert [x] before the first item it is not after, so [x] precedes the
    items equal to it. *)
Fixpoint sort_insert (x : A) (l : list A) : list A :=
  match l with
  | [] => [x]
  | y :: l' =>
      match c x y with
      | Gt => y :: sort_insert x l'
      | _ => x :: l
      end
  end.

(** [slice::sort_by]: a stable sort by the comparison [c]. *)
Fixpoint sort_by (l : list A) : list A :=
  match l with
  | [] => []
  | x :: l' => sort_insert x (sort_by l')
  end.

Definition sorted_by : list A → Prop := StronglySorted (fun x y => c x y ≠ Gt).

Lemma sort_insert_perm x l : sort_insert x l ≡ₚ x :: l.
Proof.
  induction l as [|y l IH]; simpl; [done|].
  destruct (c x y); [done..|]. rewrite IH. constructor.
Qed.

Lemma sort_by_perm l : sort_by l ≡ₚ l.
Proof. induction l as [|x l IH]; simpl; [done|]. by rewrite sort_insert_perm, IH. Qed.

Context `{!Ranking c}.

Lemma sort_insert_sorted x l : sorted_by l → sorted_by (sort_insert x l).
Proof.
  intros Hl. induction Hl as [|y l Hl IH Hy]; simpl; [by repeat constructor|].
  destruct (c x y) eqn:Hxy.
  - constructor; [by constructor|]. constructor; [congruence|].
    eapply Forall_impl; [exact Hy|]. intros z Hz.
    eapply (rank_trans c); [|exact Hz]. congruence.
  - constructor; [by constructor|]. constructor; [congruence|].
    eapply Forall_impl; [exact Hy|]. intros z Hz.
    eapply (rank_trans c); [|exact Hz]. congruence.
  - constructor; [done|]. rewrite sort_insert_perm. constructor; [|done].
    rewrite (rank_opp c), Hxy. done.
Qed.

Lemma sort_by_sorted l : sorted_by (sort_by l).
Proof. induction l; simpl; [constructor|by apply sort_insert_sorted]. Qed.

Lemma sort_by_id l : sorted_by l → sort_by l = l.
Proof.
  intros Hl. induction Hl as [|y l Hl IH Hy]; simpl; [done|]. rewrite IH.
  destruct l as [|z l]; [done|]. simpl.
  apply Forall_cons_1 in Hy as [Hz _]. destruct (c y z); done.
Qed.

(** Distinct items are never tied. *)
Definition untied (l : list A) : Prop := ∀ i j x y,
  l !! i = Some x → l !! j = Some y → c x y = Eq → i = j.

Lemma untied_NoDup l : untied l → NoDup l.
Proof.
  intros H. apply NoDup_alt. intros i j x Hi Hj. eapply H; eauto. apply (rank_refl c).
Qed.

Lemma untied_elem l x y : untied l → x ∈ l → y ∈ l → c x y = Eq → x = y.
Proof.
  intros H [i Hi]%list_elem_of_lookup [j Hj]%list_elem_of_lookup Heq.
  assert (i = j) by eauto. naive_solver.
Qed.

Lemma untied_alt l : untied l ↔ NoDup l ∧ ∀ x y, x ∈ l → y ∈ l → c x y = Eq → x = y.
Proof.
  split; [intros H; split; eauto using untied_NoDup, untied_elem|].
  intros [Hnd Hel] i j x y Hi Hj Heq.
  assert (x = y) by (apply Hel; eauto using list_elem_of_lookup_2). subst y.
  by eapply NoDup_lookup.
Qed.

Lemma untied_perm l k : l ≡ₚ k → untied l → untied k.
Proof. rewrite !untied_alt. intros Hp. by setoid_rewrite Hp. Qed.

Lemma sorted_untied_unique l k :
  untied l → l ≡ₚ k → sorted_by l → sorted_by k → l = k.
Proof.
  intros Hu Hp Hl. revert k Hp Hu. induction Hl as [|x l Hl IH Hx]; intros k Hp Hu Hk.
  { by apply Permutation_nil_l in Hp. }
  destruct k as [|y k]; [by apply Permutation_nil_r in Hp|].
  apply StronglySorted_inv in Hk as [Hk Hy].
  assert (x = y) as <-.
  { destruct (untied_alt (x :: l)) as [[Hnd Hel] _]; [done|].
    assert (y ∈ x :: l) as Hyl by (rewrite Hp; left).
    assert (x ∈ y :: k) as Hxk by (rewrite <-Hp; left).
    apply elem_of_cons in Hyl as [->|Hyl]; [done|].
    apply elem_of_cons in Hxk as [->|Hxk]; [done|].
    rewrite Forall_forall in Hx, Hy.
    pose proof (Hx _ Hyl) as H1. pose proof (Hy _ Hxk) as H2.
    apply Hel; [left|right; done|]. rewrite (rank_opp c x y) in H2.
    destruct (c x y); simpl in *; congruence. }
  f_equal. apply IH; [by eapply Permutation_cons_inv| |done].
  intros i j a b Hi Hj Heq.
  enough (S i = S j) by lia. eapply (Hu (S i) (S j)); eauto.
Qed.

Lemma sort_by_unique l k : untied l → k ≡ₚ l → sort_by k = sort_by l.
Proof.
  intros Hu Hp. apply sorted_untied_unique; [| |apply sort_by_sorted..].
  - eapply untied_perm; [|exact Hu]. by rewrite sort_by_perm, Hp.
  - by rewrite !sort_by_perm.
Qed.
End Sort.

(** Sorting the enumerated items with the position as the last tie-breaker
    is the stable sort of the items. *)
Section Enumerate.
Context {A : Type} (c : A → A → comparison).

(** [iter().enumerate()], counting from [n]. *)
Fixpoint enumerate_from (n : nat) (l : list A) : list (nat * A) :=
  match l with
  | [] => []
  | x :: l' => (n, x) :: enumerate_from (S n) l'
  end.

Definition enumerate : list A → list (nat * A) := enumerate_from 0.

Definition positioned : nat * A → nat * A → comparison :=
  cmp_lex (cmp_on snd c) (cmp_on fst Nat.compare).

Lemma enumerate_from_snd n l : map snd (enumerate_from n l) = l.
Proof. revert n. induction l; intros n; simpl; f_equal; auto. Qed.

Lemma enumerate_from_lookup n l i p x :
  enumerate_from n l !! i = Some (p, x) → p = n + i.
Proof.
  revert n i. induction l as [|y l IH]; intros n [|i] H; simplify_eq/=; [lia|].
  apply IH in H. lia.
Qed.

Lemma enumerate_from_ge n l p x : (p, x) ∈ enumerate_from n l → n ≤ p.
Proof. intros [i Hi]%list_elem_of_lookup. apply enumerate_from_lookup in Hi. lia. Qed.

Lemma positioned_eq p q x y : positioned (p, x) (q, y) = Eq → p = q.
Proof.
  unfold positioned, cmp_lex, cmp_on; simpl. destruct (c x y); simpl; try done.
  by intros ?%Nat.compare_eq_iff.
Qed.

Lemma enumerate_untied l : untied positioned (enumerate l).
Proof.
  intros i j [p x] [q y] Hi Hj Heq%positioned_eq.
  apply enumerate_from_lookup in Hi, Hj. lia.
Qed.

Lemma sort_insert_positioned p x l :
  Forall (fun qy => p < qy.1) l →
  map snd (sort_insert positioned (p, x) l) = sort_insert c x (map snd l).
Proof.
  intros Hl. induction Hl as [|[q y] l Hq Hl IH]; simpl in *; [done|].
  unfold positioned at 1, cmp_lex, cmp_on; simpl.
  destruct (c x y); simpl; [|done|by rewrite IH].
  by apply Nat.compare_lt_iff in Hq as ->.
Qed.

Lemma sort_enumerate n l :
  map snd (sort_by positioned (enumerate_from n l)) = sort_by c l.
Proof.
  revert n. induction l as [|x l IH]; intros n; simpl; [done|].
  rewrite sort_insert_positioned, IH; [done|].
  rewrite sort_by_perm. apply Forall_forall. intros [q y] Hq%enumerate_from_ge. simpl; lia.
Qed.
End Enumerate.

#[export] Instance positioned_ranking {A} (c : A → A → comparison) :
  Ranking c → Ranking (positioned c).
Proof. unfold positioned. apply _. Qed.

(** ** Binary heaps *)

(** What [std::collections::BinaryHeap] documents: [peek] is a greatest item,
    [pop] removes it, and [into_vec] lists the items in an arbitrary order. *)
Class MaxHeap {A} (c : A → A → comparison) (H : Type) : Type := {
  heap_new : H;
  heap_push : A → H → H;
  heap_peek : H → option A;
  heap_pop : H → H;
  heap_into_vec : H → list A;
  heap_new_vec : heap_into_vec heap_new = [];
  heap_push_vec : ∀ x h, heap_into_vec (heap_push x h) ≡ₚ x :: heap_into_vec h;
  heap_peek_none : ∀ h, heap_peek h = None → heap_into_vec h = [];
  heap_peek_max : ∀ h m y, heap_peek h = Some m → y ∈ heap_into_vec h → c y m ≠ Gt;
  heap_pop_vec : ∀ h m, heap_peek h = Some m →
    heap_into_vec h ≡ₚ m :: heap_into_vec (heap_pop h);
}.

Definition heap_len {A} {c : A → A → comparison} {H} `{!MaxHeap c H} (h : H) : nat :=
  length (heap_into_vec (c := c) h).

(** The selection loop both [take_best] functions share: keep at most [limit]
    items, a strictly better item replacing the worst one kept. *)
Section Select.
Context {A : Type} (c : A → A → comparison) `{!Ranking c} {H : Type} `{!MaxHeap c H}.

Definition keep (limit : nat) (kept : H) (item : A) : H :=
  if heap_len (c := c) kept <? limit then heap_push (c := c) item kept
  else match heap_peek (c := c) kept with
  | Some worst =>
      match c item worst with
      | Lt => heap_push (c := c) item (heap_pop (c := c) kept)
      | _ => kept
      end
  | None => kept
  end.

Definition keep_best (limit : nat) (items : list A) : H :=
  fold_left (keep limit) items (heap_new (c := c)).

Lemma sort_insert_before x z l r :
  c x z = Lt → sort_insert c x (l ++ z :: r) = sort_insert c x l ++ z :: r.
Proof.
  intros Hz. induction l as [|y l IH]; simpl; [by rewrite Hz|].
  destruct (c x y); [done..|]. by rewrite IH.
Qed.

Lemma sort_insert_after x l r :
  Forall (fun y => c x y = Gt) l → sort_insert c x (l ++ r) = l ++ sort_insert c x r.
Proof. intros Hl. induction Hl as [|y l Hy Hl IH]; simpl; [done|]. by rewrite Hy, IH. Qed.

Lemma sorted_app_inv l r x y :
  sorted_by c (l ++ r) → x ∈ l → y ∈ r → c x y ≠ Gt.
Proof. unfold sorted_by. rewrite StronglySorted_app. intros (Hlr & _) Hx Hy. eauto. Qed.

Lemma sort_snoc l x : untied c (l ++ [x]) →
  sort_by c (l ++ [x]) = sort_insert c x (sort_by c l).
Proof.
  intros Hu. change (sort_insert c x (sort_by c l)) with (sort_by c (x :: l)).
  symmetry. apply sort_by_unique; [done..|]. by rewrite Permutation_cons_append.
Qed.

(** The root of a full heap is the last of the items kept. *)
Lemma keep_worst h l z m :
  sorted_by c (l ++ [z]) → untied c (l ++ [z]) →
  heap_into_vec (c := c) h ≡ₚ l ++ [z] → heap_peek (c := c) h = Some m → m = z.
Proof.
  intros Hs Hu Hh Hm.
  assert (m ∈ l ++ [z]) as Hmin by (rewrite <-Hh, (heap_pop_vec h m Hm); left).
  assert (c z m ≠ Gt) as Hzm.
  { eapply heap_peek_max; [done|]. rewrite Hh. apply elem_of_app. right. left. }
  apply elem_of_app in Hmin as [Hmin|Hmin%list_elem_of_singleton]; [|done].
  apply (untied_elem c _ m z Hu); [apply elem_of_app; auto using list_elem_of_here..|].
  pose proof (sorted_app_inv _ _ m z Hs Hmin (list_elem_of_here _ _)) as Hmz.
  rewrite (rank_opp c m z) in Hzm. destruct (c m z); simpl in *; congruence.
Qed.

(** A full heap after one more item. *)
Lemma keep_full h l z r x :
  sorted_by c (l ++ z :: r) → untied c (x :: l ++ z :: r) →
  heap_into_vec (c := c) h ≡ₚ l ++ [z] →
  heap_into_vec (c := c) (keep (S (length l)) h x) ≡ₚ
    take (S (length l)) (sort_insert c x (l ++ z :: r)).
Proof.
  intros Hs Hu Hh. unfold keep, heap_len. rewrite Hh, length_app; simpl.
  destruct (Nat.ltb_spec (length l + 1) (S (length l))) as [?|_]; [lia|].
  assert (l ++ z :: r = (l ++ [z]) ++ r) as Hassoc by by rewrite <-app_assoc.
  assert (sorted_by c (l ++ [z])) as Hs1.
  { rewrite Hassoc in Hs. unfold sorted_by in *. rewrite StronglySorted_app in Hs. tauto. }
  assert (untied c (l ++ [z])) as Hu1.
  { intros i j a b Hi Hj Heq. rewrite Hassoc in Hu.
    enough (S i = S j) by lia.
    eapply (Hu (S i) (S j) a b); simpl; auto using lookup_app_l_Some. }
  destruct (heap_peek h) as [m|] eqn:Hm.
  2: { apply heap_peek_none in Hm. rewrite Hm in Hh.
       apply Permutation_length in Hh. rewrite length_app in Hh. simpl in Hh. lia. }
  assert (m = z) as -> by by eapply keep_worst.
  destruct (c x z) eqn:Hxz.
  - assert (x = z) as ->.
    { eapply (untied_elem c _ _ _ Hu); [left|right|done]. apply elem_of_app. right. left. }
    enough (0 = S (length l)) by lia.
    eapply (Hu 0 (S (length l)) z z); simpl; [done| |apply (rank_refl c)].
    by rewrite lookup_app_r, Nat.sub_diag by lia.
  - rewrite sort_insert_before by done.
    rewrite take_app_le, take_ge by (rewrite sort_insert_perm; simpl; lia).
    rewrite heap_push_vec, sort_insert_perm. f_equiv.
    rewrite (heap_pop_vec h z Hm), <-Permutation_cons_append in Hh.
    by apply Permutation_cons_inv in Hh.
  - rewrite Hassoc, sort_insert_after.
    + rewrite take_app_le, take_ge by (rewrite length_app; simpl; lia). done.
    + apply Forall_app. split; [|by repeat constructor].
      apply Forall_forall. intros y Hy. apply (rank_gt_lt c).
      eapply (rank_le_lt_trans c); [|by apply (rank_gt_lt c)].
      eapply sorted_app_inv; [exact Hs1|done|left].
Qed.

(** One step of the loop keeps the best [limit] items seen so far. *)
Lemma keep_step limit l x h :
  0 < limit → untied c (l ++ [x]) →
  heap_into_vec (c := c) h ≡ₚ take limit (sort_by c l) →
  heap_into_vec (c := c) (keep limit h x) ≡ₚ take limit (sort_by c (l ++ [x])).
Proof.
  intros Hlim Hu Hh. rewrite sort_snoc by done.
  pose proof (sort_by_sorted c l) as Hs.
  assert (untied c (x :: sort_by c l)) as Hu'.
  { apply (untied_perm c (l ++ [x])); [|done].
    rewrite sort_by_perm. symmetry. apply Permutation_cons_append. }
  destruct (decide (length (sort_by c l) < limit)) as [Hlt|Hge].
  - rewrite !take_ge in * by (rewrite ?sort_insert_perm; simpl; lia).
    unfold keep, heap_len. rewrite Hh.
    apply Nat.ltb_lt in Hlt as ->. by rewrite heap_push_vec, sort_insert_perm, Hh.
  - destruct (lookup_lt_is_Some_2 (sort_by c l) (limit - 1)) as [z Hz]; [lia|].
    apply list_elem_of_split_length in Hz as (l1 & r & Hl & Hlen).
    assert (limit = S (length l1)) as -> by lia.
    rewrite Hl in *. apply keep_full; [done..|].
    by rewrite Hh, (cons_middle z), app_assoc, take_app_le, take_ge
      by (rewrite length_app; simpl; lia).
Qed.

Lemma keep_best_vec limit l :
  0 < limit → untied c l →
  heap_into_vec (c := c) (keep_best limit l) ≡ₚ take limit (sort_by c l).
Proof.
  intros Hlim. unfold keep_best. induction l as [|x l IH] using rev_ind; intros Hu.
  - simpl. by rewrite heap_new_vec, take_nil.
  - rewrite fold_left_app. apply keep_step; [done..|]. apply IH.
    intros i j a b Hi Hj. apply (Hu i j); auto using lookup_app_l_Some.
Qed.

(** Selecting with the heap and sorting what is left is sorting everything
    and taking a prefix. *)
Lemma keep_best_sorted limit l :
  0 < limit → untied c l →
  sort_by c (heap_into_vec (c := c) (keep_best limit l)) = take limit (sort_by c l).
Proof.
  intros Hlim Hu. pose proof (sort_by_sorted c l) as Hs.
  rewrite <-(take_drop limit (sort_by c l)) in Hs.
  unfold sorted_by in Hs. rewrite StronglySorted_app in Hs. destruct Hs as (_ & Hs & _).
  rewrite <-(sort_by_id c (take limit (sort_by c l))) by done.
  apply sort_by_unique; [done| |by apply keep_best_vec].
  intros i j x y Hi Hj Heq. rewrite lookup_take_Some in *. destruct Hi, Hj.
  assert (untied c (sort_by c l)) as Hu'.
  { apply (untied_perm c l); [|done]. by rewrite sort_by_perm. }
  by eapply Hu'.
Qed.
End Select.

(** Lists as heaps: the executable instance. *)
Section ListHeap.
Context {A : Type} (c : A → A → comparison) `{!Ranking c}.

Fixpoint extract_max (l : list A) : option (A * list A) :=
  match l with
  | [] => None
  | x :: l' =>
      match extract_max l' with
      | None => Some (x, l')
      | Some (m, r) =>
          match c m x with
          | Lt => Some (x, l')
          | _ => Some (m, x :: r)
          end
      end
  end.

Lemma extract_max_none l : extract_max l = None → l = [].
Proof.
  destruct l as [|x l]; simpl; [done|].
  destruct (extract_max l) as [[m r]|]; [destruct (c m x)|]; done.
Qed.

Lemma extract_max_spec l m r :
  extract_max l = Some (m, r) → l ≡ₚ m :: r ∧ ∀ y, y ∈ l → c y m ≠ Gt.
Proof.
  revert m r. induction l as [|x l IH]; intros m r; simpl; [done|].
  destruct (extract_max l) as [[m' r']|] eqn:He.
  - destruct (IH _ _ eq_refl) as [Hp Hmax]. destruct (c m' x) eqn:Hc; intros [= <- <-].
    1,3: split; [by rewrite Hp, Permutation_swap|].
    1,2: intros y [->|Hy]%elem_of_cons; [rewrite (rank_opp c), Hc; done|by apply Hmax].
    split; [done|]. intros y [->|Hy]%elem_of_cons; [by rewrite (rank_refl c)|].
    apply (rank_trans c y m' x); [by apply Hmax|congruence].
  - intros [= <- <-]. apply extract_max_none in He as ->.
    split; [done|]. intros y ->%list_elem_of_singleton. by rewrite (rank_refl c).
Qed.

#[export] Program Instance list_heap : MaxHeap c (list A) := {|
  heap_new := [];
  heap_push := cons;
  heap_peek l := fst <$> extract_max l;
  heap_pop l := default [] (snd <$> extract_max l);
  heap_into_vec l := l;
|}.
Next Obligation. done. Qed.
Next Obligation. done. Qed.
Next Obligation. intros h Hh%fmap_None. by apply extract_max_none. Qed.
Next Obligation.
  intros h m y ([m' r] & He & ->)%fmap_Some Hy.
  apply extract_max_spec in He as [_ Hmax]. by apply Hmax.
Qed.
Next Obligation.
  intros h m ([m' r] & He & ->)%fmap_Some. simpl. rewrite He. simpl.
  by apply extract_max_spec in He as [? _].
Qed.
End ListHeap.
