(* ===== verification/OrdMap.v ===== *)
(** * Ordered maps and sets

    [std::collections::BTreeMap] and [BTreeSet] as association lists and lists
    in strictly increasing key order: iteration is the list itself, lookups
    compare keys with the key type's [Ord]. *)

From S2P Require Import Prelude Order.

Definition lt_by `{Ord A} (x y : A) : Prop := cmp x y = Lt.

Definition bmap (K V : Type) : Type := list (K * V).
Definition bset (A : Type) : Type := list A.

Section Sorted.
Context `{Ord A}.

Lemma cmp_refl (x : A) : cmp x x = Eq.
Proof. by apply cmp_eq. Qed.

Lemma cmp_ne (x y : A) : x ≠ y → cmp x y ≠ Eq.
Proof. by rewrite cmp_eq. Qed.

Lemma cmp_lt_ne (x y : A) : cmp x y = Lt → x ≠ y.
Proof. intros Hlt ->. by rewrite cmp_refl in Hlt. Qed.

Lemma cmp_gt_lt (x y : A) : cmp x y = Gt → cmp y x = Lt.
Proof. apply (rank_gt_lt cmp). Qed.

Lemma lt_all_trans (x y : A) l :
  cmp x y = Lt → Forall (lt_by y) l → Forall (lt_by x) l.
Proof.
  intros Hxy Hl. eapply Forall_impl; [exact Hl|]. intros z. unfold lt_by. by apply (rank_lt_trans cmp).
Qed.

(** [BTreeSet::insert]. *)
Fixpoint bs_insert (x : A) (s : bset A) : bset A :=
  match s with
  | [] => [x]
  | y :: s' =>
      match cmp x y with
      | Lt => x :: s
      | Eq => s
      | Gt => y :: bs_insert x s'
      end
  end.

Definition bs_of_list (l : list A) : bset A := foldl (flip bs_insert) [] l.

Definition bs_wf : bset A → Prop := StronglySorted lt_by.

Lemma elem_of_bs_insert x y s : y ∈ bs_insert x s ↔ y = x ∨ y ∈ s.
Proof.
  induction s as [|z s IH]; simpl; [set_solver|].
  destruct (cmp x z) eqn:Hc; [apply cmp_eq in Hc as ->|..]; set_solver.
Qed.

Lemma bs_insert_wf x s : bs_wf s → bs_wf (bs_insert x s).
Proof.
  unfold bs_wf. intros Hs. induction Hs as [|z s Hs IH Hz]; simpl; [by repeat constructor|].
  destruct (cmp x z) eqn:Hc; [by constructor|..].
  - constructor; [by constructor|]. constructor; [done|]. by eapply lt_all_trans.
  - constructor; [done|]. apply Forall_forall.
    intros y [->|Hy]%elem_of_bs_insert; [by apply cmp_gt_lt|].
    rewrite Forall_forall in Hz. by apply Hz.
Qed.

Lemma foldl_bs_insert_wf l s : bs_wf s → bs_wf (foldl (flip bs_insert) s l).
Proof. revert s. induction l; simpl; auto using bs_insert_wf. Qed.

Lemma bs_of_list_wf l : bs_wf (bs_of_list l).
Proof. apply foldl_bs_insert_wf. constructor. Qed.

Lemma elem_of_foldl_bs_insert y l s :
  y ∈ foldl (flip bs_insert) s l ↔ y ∈ l ∨ y ∈ s.
Proof.
  revert s. induction l as [|x l IH]; intros s; simpl; [set_solver|].
  rewrite IH. rewrite elem_of_bs_insert. set_solver.
Qed.

Lemma elem_of_bs_of_list y l : y ∈ bs_of_list l ↔ y ∈ l.
Proof. unfold bs_of_list. rewrite elem_of_foldl_bs_insert. set_solver. Qed.

(** Strictly increasing lists with the same elements are equal. *)
Lemma bs_ext s t : bs_wf s → bs_wf t → (∀ x, x ∈ s ↔ x ∈ t) → s = t.
Proof.
  intros Hs. revert t. induction Hs as [|x s Hs IH Hx]; intros t Ht Hext.
  { destruct t as [|y t]; [done|]. exfalso. apply (not_elem_of_nil y), Hext. left. }
  destruct Ht as [|y t Ht Hy].
  { exfalso. apply (not_elem_of_nil x), Hext. left. }
  rewrite Forall_forall in Hx, Hy.
  assert (x = y) as <-.
  { destruct (proj1 (elem_of_cons _ _ _) (proj1 (Hext x) (list_elem_of_here _ _)))
      as [|Hxt]; [done|].
    destruct (proj1 (elem_of_cons _ _ _) (proj2 (Hext y) (list_elem_of_here _ _)))
      as [|Hys]; [done|].
    pose proof (rank_lt_trans cmp _ _ _ (Hx _ Hys) (Hy _ Hxt)) as Hc.
    by rewrite cmp_refl in Hc. }
  f_equal. apply IH; [done|]. intros z. specialize (Hext z). rewrite !elem_of_cons in Hext.
  split; intros Hz.
  - destruct (proj1 Hext (or_intror Hz)) as [->|]; [|done].
    by apply Hx in Hz as ?%cmp_lt_ne.
  - destruct (proj2 Hext (or_intror Hz)) as [->|]; [|done].
    by apply Hy in Hz as ?%cmp_lt_ne.
Qed.

Lemma bs_of_list_id s : bs_wf s → bs_of_list s = s.
Proof. intros Hs. apply bs_ext; [apply bs_of_list_wf|done|]. intros x. apply elem_of_bs_of_list. Qed.
End Sorted.

Section Map.
Context `{Ord K} {V : Type}.
#[local] Existing Instance ord_eq_dec.

Definition bm_keys (m : bmap K V) : list K := map fst m.
Definition bm_values (m : bmap K V) : list V := map snd m.

Fixpoint bm_get (k : K) (m : bmap K V) : option V :=
  match m with
  | [] => None
  | (k', v) :: m' =>
      match cmp k k' with
      | Eq => Some v
      | _ => bm_get k m'
      end
  end.

Fixpoint bm_insert (k : K) (v : V) (m : bmap K V) : bmap K V :=
  match m with
  | [] => [(k, v)]
  | (k', v') :: m' =>
      match cmp k k' with
      | Lt => (k, v) :: m
      | Eq => (k, v) :: m'
      | Gt => (k', v') :: bm_insert k v m'
      end
  end.

Fixpoint bm_remove (k : K) (m : bmap K V) : bmap K V :=
  match m with
  | [] => []
  | (k', v') :: m' =>
      match cmp k k' with
      | Eq => bm_remove k m'
      | _ => (k', v') :: bm_remove k m'
      end
  end.

(** [entry(k).or_insert_with(dflt)] followed by an update in place. *)
Definition bm_upsert (k : K) (dflt : V) (f : V → V) (m : bmap K V) : bmap K V :=
  bm_insert k (f (default dflt (bm_get k m))) m.

(** [if let Some(v) = get_mut(k)] followed by an update in place. *)
Definition bm_modify (k : K) (f : V → V) (m : bmap K V) : bmap K V :=
  match bm_get k m with
  | Some v => bm_insert k (f v) m
  | None => m
  end.

Definition bm_wf (m : bmap K V) : Prop := StronglySorted lt_by (bm_keys m).

Lemma bm_get_insert_eq k v m : bm_get k (bm_insert k v m) = Some v.
Proof.
  induction m as [|[k' v'] m IH]; simpl; [by rewrite cmp_refl|].
  destruct (cmp k k') eqn:Hc; simpl; rewrite ?cmp_refl, ?Hc; done.
Qed.

Lemma bm_get_insert_ne k k' v m : k' ≠ k → bm_get k' (bm_insert k v m) = bm_get k' m.
Proof.
  intros Hne%cmp_ne. induction m as [|[k2 v2] m IH]; simpl; [by destruct (cmp k' k)|].
  destruct (cmp k k2) eqn:Hc; simpl.
  - apply cmp_eq in Hc as <-. by destruct (cmp k' k).
  - by destruct (cmp k' k).
  - by rewrite IH.
Qed.

Lemma bm_get_remove_eq k m : bm_get k (bm_remove k m) = None.
Proof.
  induction m as [|[k' v'] m IH]; simpl; [done|].
  destruct (cmp k k') eqn:Hc; simpl; rewrite ?Hc; done.
Qed.

Lemma bm_get_remove_ne k k' m : k' ≠ k → bm_get k' (bm_remove k m) = bm_get k' m.
Proof.
  intros Hne%cmp_ne. induction m as [|[k2 v2] m IH]; simpl; [done|].
  destruct (cmp k k2) eqn:Hc; simpl; [|by rewrite IH..].
  apply cmp_eq in Hc as <-. rewrite IH. by destruct (cmp k' k).
Qed.

Lemma bm_keys_insert k v m x : x ∈ bm_keys (bm_insert k v m) ↔ x = k ∨ x ∈ bm_keys m.
Proof.
  induction m as [|[k' v'] m IH]; simpl; [set_solver|].
  destruct (cmp k k') eqn:Hc; [apply cmp_eq in Hc as ->|..]; set_solver.
Qed.

Lemma bm_keys_remove k m x : x ∈ bm_keys (bm_remove k m) → x ∈ bm_keys m.
Proof.
  induction m as [|[k' v'] m IH]; simpl; [done|]. destruct (cmp k k'); set_solver.
Qed.

Lemma bm_insert_wf k v m : bm_wf m → bm_wf (bm_insert k v m).
Proof.
  unfold bm_wf. induction m as [|[k' v'] m IH]; simpl; [by repeat constructor|].
  intros [Hm Hk']%StronglySorted_inv. destruct (cmp k k') eqn:Hc; simpl.
  - apply cmp_eq in Hc as ->. by constructor.
  - constructor; [by constructor|]. constructor; [done|]. by eapply lt_all_trans.
  - constructor; [by apply IH|]. apply Forall_forall. rewrite Forall_forall in Hk'.
    intros x [->|Hx]%bm_keys_insert; [by apply cmp_gt_lt|by apply Hk'].
Qed.

Lemma bm_remove_wf k m : bm_wf m → bm_wf (bm_remove k m).
Proof.
  unfold bm_wf. induction m as [|[k' v'] m IH]; simpl; [done|].
  intros [Hm Hk']%StronglySorted_inv. destruct (cmp k k'); simpl; [by apply IH|..].
  all: constructor; [by apply IH|]; rewrite Forall_forall in *.
  all: intros x Hx; eapply Hk', bm_keys_remove, Hx.
Qed.

Lemma bm_upsert_wf k d f m : bm_wf m → bm_wf (bm_upsert k d f m).
Proof. apply bm_insert_wf. Qed.

Lemma bm_modify_wf k f m : bm_wf m → bm_wf (bm_modify k f m).
Proof. unfold bm_modify. destruct (bm_get k m); auto using bm_insert_wf. Qed.

Lemma bm_get_elem k v m : bm_get k m = Some v → (k, v) ∈ m.
Proof.
  induction m as [|[k' v'] m IH]; simpl; [done|].
  destruct (cmp k k') eqn:Hc; [|right; by apply IH..].
  apply cmp_eq in Hc as ->. intros [= ->]. left.
Qed.

Lemma bm_elem_get k v m : bm_wf m → (k, v) ∈ m → bm_get k m = Some v.
Proof.
  unfold bm_wf. induction m as [|[k' v'] m IH]; simpl; [set_solver|].
  intros [Hm Hk']%StronglySorted_inv [[= -> ->]|Hin]%elem_of_cons; [by rewrite cmp_refl|].
  rewrite Forall_forall in Hk'.
  assert (cmp k' k = Lt) as Hlt by (apply Hk', (list_elem_of_fmap_2 fst _ (k, v)), Hin).
  rewrite (rank_opp cmp k' k), Hlt. simpl. by apply IH.
Qed.

Lemma bm_get_None k m : bm_get k m = None ↔ k ∉ bm_keys m.
Proof.
  induction m as [|[k' v'] m IH]; simpl; [set_solver|].
  destruct (cmp k k') eqn:Hc.
  - apply cmp_eq in Hc as ->. set_solver.
  - apply cmp_lt_ne in Hc. set_solver.
  - apply cmp_gt_lt, cmp_lt_ne in Hc. set_solver.
Qed.

Lemma bm_keys_NoDup m : bm_wf m → NoDup (bm_keys m).
Proof.
  unfold bm_wf. intros Hm. induction Hm as [|k ks Hks IH Hk]; constructor; [|done].
  rewrite Forall_forall in Hk. by intros ?%Hk%cmp_lt_ne.
Qed.

Lemma bm_wf_NoDup m : bm_wf m → NoDup m.
Proof.
  intros Hm. by apply (NoDup_fmap_1 fst), bm_keys_NoDup.
Qed.

(** Maps with the same lookups are equal. *)
Lemma bm_ext m1 m2 :
  bm_wf m1 → bm_wf m2 → (∀ k, bm_get k m1 = bm_get k m2) → m1 = m2.
Proof.
  revert m2. induction m1 as [|[k v] m1 IH]; intros m2 H1 H2 Hext.
  { destruct m2 as [|[k v] m2]; [done|]. specialize (Hext k). simpl in Hext.
    by rewrite cmp_refl in Hext. }
  assert (bm_keys ((k, v) :: m1) = bm_keys m2) as Hk.
  { apply bs_ext; [done..|]. intros x.
    destruct (decide (x ∈ bm_keys ((k, v) :: m1))) as [Hx|Hx],
             (decide (x ∈ bm_keys m2)) as [Hy|Hy]; try tauto; exfalso.
    - apply bm_get_None in Hy. rewrite <-Hext in Hy. by apply bm_get_None in Hy.
    - apply bm_get_None in Hx. rewrite Hext in Hx. by apply bm_get_None in Hx. }
  destruct m2 as [|[k2 v2] m2]; simplify_eq/=.
  apply StronglySorted_inv in H1 as [H1 Hlt1], H2 as [H2 Hlt2].
  pose proof (Hext k2) as Hv. rewrite !cmp_refl in Hv. injection Hv as ->. f_equal.
  apply IH; [done..|]. intros x. specialize (Hext x). destruct (cmp x k2) eqn:Hc; [|done..].
  apply cmp_eq in Hc as ->. rewrite Forall_forall in Hlt1, Hlt2.
  transitivity (None (A := V)); [|symmetry]; apply bm_get_None; intros Hin.
  - by apply Hlt1, cmp_lt_ne in Hin.
  - by apply Hlt2, cmp_lt_ne in Hin.
Qed.
End Map.

(** Lookups as case distinctions on the key. *)
Section Lookup.
Context `{Ord K} `{!EqDecision K} {V : Type}.
Implicit Types (m : bmap K V).

Lemma bm_get_insert k k' v m :
  bm_get k' (bm_insert k v m) = if decide (k' = k) then Some v else bm_get k' m.
Proof. case_decide; subst; [apply bm_get_insert_eq|by apply bm_get_insert_ne]. Qed.

Lemma bm_get_remove k k' m :
  bm_get k' (bm_remove k m) = if decide (k' = k) then None else bm_get k' m.
Proof. case_decide; subst; [apply bm_get_remove_eq|by apply bm_get_remove_ne]. Qed.

Lemma bm_get_upsert k k' d f m :
  bm_get k' (bm_upsert k d f m) =
    if decide (k' = k) then Some (f (default d (bm_get k m))) else bm_get k' m.
Proof. apply bm_get_insert. Qed.

Lemma bm_get_modify k k' f m :
  bm_get k' (bm_modify k f m) =
    if decide (k' = k) then option_map f (bm_get k m) else bm_get k' m.
Proof.
  unfold bm_modify. destruct (bm_get k m) as [v|] eqn:Hk; simpl; [apply bm_get_insert|].
  case_decide; subst; done.
Qed.
End Lookup.

(** Rows kept by their key, and rows written one after another. *)
Section Rows.
Context `{Ord K} `{!EqDecision K} {V : Type}.
Implicit Types (m : bmap K V).

Lemma bm_get_filter (P : K → bool) m k :
  bm_get k (List.filter (fun kv => P kv.1) m) = if P k then bm_get k m else None.
Proof.
  induction m as [|[k' v] m IH]; [by destruct (P k)|]. simpl. destruct (P k') eqn:Hp; simpl; rewrite IH;
    destruct (cmp k k') eqn:Hc; try done; apply cmp_eq in Hc as ->; by rewrite Hp.
Qed.

Lemma bm_filter_wf (P : K * V → bool) m : bm_wf m → bm_wf (List.filter P m).
Proof.
  unfold bm_wf. induction m as [|[k v] m IH]; simpl; [done|]. intros [Hm Hk]%StronglySorted_inv.
  destruct (P (k, v)); simpl; [|auto]. constructor; [auto|]. rewrite Forall_forall in *. intros x Hx. apply Hk.
  unfold bm_keys in *.
  apply list_elem_of_fmap in Hx as ([k' v'] & -> & Hin). apply list_elem_of_fmap. exists (k', v'). split; [done|].
  apply list_elem_of_In in Hin. apply filter_In in Hin as [Hin _]. by apply list_elem_of_In.
Qed.

Lemma bm_get_cons k v m k' :
  bm_get k' ((k, v) :: m) = if decide (k' = k) then Some v else bm_get k' m.
Proof.
  simpl. destruct (cmp k' k) eqn:Hc; case_decide as Hd; try done; subst.
  - by apply cmp_eq in Hc.
  - by rewrite (proj2 (cmp_eq k k)) in Hc.
  - by rewrite (proj2 (cmp_eq k k)) in Hc.
Qed.

Lemma bm_get_head_None k v m : bm_wf ((k, v) :: m) → bm_get k m = None.
Proof.
  intros [_ Hk]%StronglySorted_inv. apply bm_get_None. intros Hin. rewrite Forall_forall in Hk.
  specialize (Hk _ Hin). unfold lt_by in Hk. by rewrite (proj2 (cmp_eq k k)) in Hk.
Qed.
End Rows.

(** Sums over the values of a map. *)
Section Sum.
Context `{Ord K} {V : Type} (f : V → nat).

Definition bm_sum (m : bmap K V) : nat := list_sum (map f (bm_values m)).

Lemma bm_sum_insert k v m :
  bm_wf m →
  (bm_sum (bm_insert k v m) + from_option f 0 (bm_get k m) = bm_sum m + f v)%nat.
Proof.
  unfold bm_wf, bm_sum. induction m as [|[k' v'] m IH]; simpl; intros Hm; [lia|].
  apply StronglySorted_inv in Hm as [Hm Hk']. destruct (cmp k k') eqn:Hc; simpl.
  - lia.
  - rewrite (proj2 (bm_get_None k m)); [simpl; lia|]. intros Hin.
    rewrite Forall_forall in Hk'. apply Hk' in Hin.
    pose proof (rank_lt_trans cmp _ _ _ Hc Hin) as Hkk. by rewrite cmp_refl in Hkk.
  - specialize (IH Hm). lia.
Qed.

Lemma bm_sum_upsert k d g m (n : nat) :
  bm_wf m → f d = 0%nat → (∀ v, f (g v) = (f v + n)%nat) →
  bm_sum (bm_upsert k d g m) = (bm_sum m + n)%nat.
Proof.
  intros Hm Hd Hg. unfold bm_upsert.
  pose proof (bm_sum_insert k (g (default d (bm_get k m))) m Hm) as Hs. rewrite Hg in Hs.
  destruct (bm_get k m) as [v|]; simpl in *; lia.
Qed.
End Sum.

(** Grouping: a loop that upserts each item under its key leaves, under every
    key, the fold over the items of that key. *)
Section Group.
Context `{Ord K} `{!EqDecision K} {A V : Type} (kf : A → K) (dflt : K → V) (upd : A → V → V).

Definition group_step (m : bmap K V) (x : A) : bmap K V :=
  bm_upsert (kf x) (dflt (kf x)) (upd x) m.

Definition group_value (k : K) (o : option V) (xs : list A) : option V :=
  match filter (fun x => kf x = k) xs with
  | [] => o
  | ys => Some (fold_left (fun v x => upd x v) ys (default (dflt k) o))
  end.

Lemma group_get xs m k :
  bm_get k (fold_left group_step xs m) = group_value k (bm_get k m) xs.
Proof.
  revert m. induction xs as [|x xs IH]; intros m; [done|].
  cbn [fold_left]. rewrite IH. unfold group_step, group_value.
  rewrite bm_get_upsert, filter_cons.
  destruct (decide (k = kf x)) as [->|Hne].
  - rewrite decide_True by done. by destruct (filter _ xs).
  - by rewrite decide_False by congruence.
Qed.

Lemma group_wf xs m : bm_wf m → bm_wf (fold_left group_step xs m).
Proof.
  revert m. induction xs as [|x xs IH]; intros m Hm; [done|].
  simpl. by apply IH, bm_upsert_wf.
Qed.
End Group.

#[export] Hint Resolve bm_insert_wf bm_remove_wf bm_upsert_wf bm_modify_wf
  bs_insert_wf bs_of_list_wf : tor.
