(* ===== verification/Str.v ===== *)
(** * Strings

    A Rust [str] is a list of Unicode scalar values; the byte-level functions
    go through its UTF-8 encoding.  The file holds the [str] methods the
    sources use (splitting, trimming, prefixes, [lines]), decimal printing and
    integer parsing, and the round trips between them. *)

From S2P Require Import Prelude Order.
Open Scope Z_scope.

Definition str : Type := list Z.

(** An ASCII literal. *)
Definition lit (s : string) : str :=
  map (fun a => Z.of_N (Ascii.N_of_ascii a)) (String.list_ascii_of_string s).

#[export] Instance str_ord : Ord str := list_ord.

Definition str_eqb (a b : str) : bool := bool_decide (a = b).

Definition is_empty {A} (s : list A) : bool :=
  match s with
  | [] => true
  | _ => false
  end.

(** [char::is_whitespace]: the Unicode [White_Space] property. *)
Definition is_whitespace (c : Z) : bool :=
  ((9 <=? c) && (c <=? 13)) || (c =? 32) || (c =? 133) || (c =? 160) || (c =? 5760)
  || ((8192 <=? c) && (c <=? 8202)) || (c =? 8232) || (c =? 8233) || (c =? 8239)
  || (c =? 8287) || (c =? 12288).

Definition is_ascii_digit (c : Z) : bool := (48 <=? c) && (c <=? 57).
Definition is_ascii_upper (c : Z) : bool := (65 <=? c) && (c <=? 90).
Definition is_ascii_lower (c : Z) : bool := (97 <=? c) && (c <=? 122).
Definition is_ascii_hexdigit (c : Z) : bool :=
  is_ascii_digit c || ((65 <=? c) && (c <=? 70)) || ((97 <=? c) && (c <=? 102)).

(** [to_ascii_lowercase] and [eq_ignore_ascii_case]. *)
Definition ascii_lower (c : Z) : Z := if is_ascii_upper c then c + 32 else c.
Definition to_ascii_lowercase (s : str) : str := map ascii_lower s.
Definition ascii_upper (c : Z) : Z := if is_ascii_lower c then c - 32 else c.
Definition to_ascii_uppercase (s : str) : str := map ascii_upper s.
Definition eq_ignore_ascii_case (a b : str) : bool :=
  str_eqb (to_ascii_lowercase a) (to_ascii_lowercase b).

(** ** Splitting *)

Fixpoint split_by (p : Z → bool) (s : str) : list str :=
  match s with
  | [] => [[]]
  | x :: s' =>
      if p x then [] :: split_by p s'
      else match split_by p s' with
           | [] => [[x]]
           | w :: ws => (x :: w) :: ws
           end
  end.

(** [str::split] by a character. *)
Definition split_on (c : Z) : str → list str := split_by (Z.eqb c).

Definition split_whitespace (s : str) : list str :=
  List.filter (fun w => negb (is_empty w)) (split_by is_whitespace s).

(** [str::split_once] and [str::rsplit_once] by a character. *)
Fixpoint split_once (c : Z) (s : str) : option (str * str) :=
  match s with
  | [] => None
  | x :: s' =>
      if x =? c then Some ([], s')
      else match split_once c s' with
           | Some (a, b) => Some (x :: a, b)
           | None => None
           end
  end.

Fixpoint rsplit_once (c : Z) (s : str) : option (str * str) :=
  match s with
  | [] => None
  | x :: s' =>
      match rsplit_once c s' with
      | Some (a, b) => Some (x :: a, b)
      | None => if x =? c then Some ([], s') else None
      end
  end.

Fixpoint strip_prefix (p s : str) : option str :=
  match p, s with
  | [], _ => Some s
  | _ :: _, [] => None
  | a :: p', b :: s' => if a =? b then strip_prefix p' s' else None
  end.

Definition starts_with (p s : str) : bool := bool_decide (is_Some (strip_prefix p s)).

Definition strip_suffix (p s : str) : option str :=
  option_map (@rev Z) (strip_prefix (rev p) (rev s)).

Definition ends_with (p s : str) : bool := bool_decide (is_Some (strip_suffix p s)).

Definition contains_char (c : Z) (s : str) : bool := existsb (Z.eqb c) s.

(** [str::contains] by a substring. *)
Fixpoint contains_str (p s : str) : bool :=
  starts_with p s ||
  match s with
  | [] => false
  | _ :: s' => contains_str p s'
  end.

(** [str::split_once] by a substring. *)
Fixpoint split_once_str (p s : str) : option (str * str) :=
  match strip_prefix p s with
  | Some r => Some ([], r)
  | None =>
      match s with
      | [] => None
      | x :: s' =>
          match split_once_str p s' with
          | Some (a, b) => Some (x :: a, b)
          | None => None
          end
      end
  end.

(** ** Trimming *)

Fixpoint trim_start_by (p : Z → bool) (s : str) : str :=
  match s with
  | [] => []
  | x :: s' => if p x then trim_start_by p s' else s
  end.

Definition trim_end_by (p : Z → bool) (s : str) : str := rev (trim_start_by p (rev s)).
Definition trim (s : str) : str := trim_end_by is_whitespace (trim_start_by is_whitespace s).

(** ** Joining and lines *)

Fixpoint join (sep : str) (l : list str) : str :=
  match l with
  | [] => []
  | [w] => w
  | w :: l' => w ++ sep ++ join sep l'
  end.

Definition strip_cr (s : str) : str := default s (strip_suffix [13] s).

Fixpoint lines_of (parts : list str) : list str :=
  match parts with
  | [] => []
  | [last] => if is_empty last then [] else [last]
  | p :: parts' => strip_cr p :: lines_of parts'
  end.

(** [str::lines]. *)
Definition lines (s : str) : list str := lines_of (split_on 10 s).

(** ** Integers *)

(** [char::to_digit]. *)
Definition to_digit (radix c : Z) : option Z :=
  let d :=
    if is_ascii_digit c then c - 48
    else if is_ascii_lower c then c - 87
    else if is_ascii_upper c then c - 55
    else radix in
  if d <? radix then Some d else None.

Fixpoint parse_digits (radix mx acc : Z) (s : str) : option Z :=
  match s with
  | [] => Some acc
  | c :: s' =>
      match to_digit radix c with
      | Some d =>
          let acc' := acc * radix + d in
          if acc' <=? mx then parse_digits radix mx acc' s' else None
      | None => None
      end
  end.

(** [from_str_radix] of an unsigned type of maximum [mx]: one leading plus
    sign is accepted, an empty digit string is not. *)
Definition from_str_radix (mx : Z) (s : str) (radix : Z) : option Z :=
  match s with
  | [] => None
  | c :: s' =>
      if (c =? 43) || (c =? 45) then
        if is_empty s' then None
        else if c =? 43 then parse_digits radix mx 0 s' else None
      else parse_digits radix mx 0 s
  end.

(** [str::parse] at an unsigned type of maximum [mx]. *)
Definition parse_uint (mx : Z) (s : str) : option Z := from_str_radix mx s 10.

Fixpoint digits_of (fuel : nat) (n : Z) (acc : str) : str :=
  match fuel with
  | O => acc
  | S fuel' =>
      if n <? 10 then (48 + n) :: acc
      else digits_of fuel' (n / 10) ((48 + n mod 10) :: acc)
  end.

(** [to_string] of an unsigned integer; a number has at most as many decimal
    digits as binary ones, which is the fuel. *)
Definition to_dec (n : Z) : str := digits_of (S (Z.to_nat (Z.log2 n))) n [].

(** ** Facts about splitting *)

Lemma split_by_word p w : Forall (fun c => p c = false) w → split_by p w = [w].
Proof. intros Hw. induction Hw as [|x w Hx Hw IH]; simpl; [done|]. by rewrite Hx, IH. Qed.

Lemma split_by_app p w x s :
  Forall (fun c => p c = false) w → p x = true →
  split_by p (w ++ x :: s) = w :: split_by p s.
Proof.
  intros Hw Hx. induction Hw as [|y w Hy Hw IH]; simpl; [by rewrite Hx|]. by rewrite Hy, IH.
Qed.

Lemma split_by_nonempty p s : split_by p s ≠ [].
Proof. destruct s as [|x s]; simpl; [done|]. by destruct (p x), (split_by p s). Qed.

Lemma split_by_parts p s w : w ∈ split_by p s → Forall (fun c => p c = false) w.
Proof.
  revert w. induction s as [|x s IH]; intros w; simpl.
  { intros ->%list_elem_of_singleton. constructor. }
  destruct (p x) eqn:Hx; [intros [->|?]%elem_of_cons; auto|].
  destruct (split_by p s) as [|v ws] eqn:Hs; [by apply split_by_nonempty in Hs|].
  intros [->|Hw]%elem_of_cons; [constructor; [done|]|]; apply IH; [left|by right].
Qed.

Definition word (w : str) : Prop := w ≠ [] ∧ Forall (fun c => is_whitespace c = false) w.

Lemma split_whitespace_word w : word w → split_whitespace w = [w].
Proof.
  intros [Hne Hw]. unfold split_whitespace. rewrite split_by_word by done. by destruct w.
Qed.

Lemma split_whitespace_cons w s :
  word w → split_whitespace (w ++ 32 :: s) = w :: split_whitespace s.
Proof.
  intros [Hne Hw]. unfold split_whitespace. rewrite split_by_app by done. by destruct w.
Qed.

Lemma split_on_join c l :
  l ≠ [] → Forall (fun w => Forall (fun x => (c =? x) = false) w) l →
  split_on c (join [c] l) = l.
Proof.
  unfold split_on. intros Hne Hl. induction Hl as [|w l Hw Hl IH]; [done|].
  destruct l as [|w' l]; [by apply split_by_word|].
  change (join [c] (w :: w' :: l)) with (w ++ c :: join [c] (w' :: l)).
  rewrite split_by_app, IH by (done || apply Z.eqb_refl). done.
Qed.

Lemma split_whitespace_join l :
  l ≠ [] → Forall word l → split_whitespace (join [32] l) = l.
Proof.
  intros Hne Hl. induction Hl as [|w l Hw Hl IH]; [done|].
  destruct l as [|w' l]; [by apply split_whitespace_word|].
  change (join [32] (w :: w' :: l)) with (w ++ 32 :: join [32] (w' :: l)).
  rewrite split_whitespace_cons, IH by done. done.
Qed.

Lemma word_app v w : v ≠ [] → Forall (fun c => is_whitespace c = false) v →
  Forall (fun c => is_whitespace c = false) w → word (v ++ w).
Proof. intros Hne Hv Hw. split; [by destruct v|]. by apply Forall_app. Qed.

Lemma join_last sep l w :
  l ≠ [] → Forall (fun v => v ≠ []) l → last l = Some w → last (join sep l) = last w.
Proof.
  intros Hne Hl. induction Hl as [|v l Hv Hl IH]; [done|].
  destruct l as [|v' l]; [by intros [= ->]|].
  change (join sep (v :: v' :: l)) with (v ++ sep ++ join sep (v' :: l)).
  intros Hlast. rewrite !last_app, IH by done.
  assert (∃ z, last w = Some z) as [z ->]; [|done].
  apply last_is_Some. change (last (v' :: l) = Some w) in Hlast.
  apply last_Some_elem_of in Hlast. rewrite Forall_forall in Hl. by apply Hl.
Qed.

Lemma strip_prefix_app p s : strip_prefix p (p ++ s) = Some s.
Proof. induction p as [|a p IH]; simpl; [by destruct s|]. by rewrite Z.eqb_refl. Qed.

Lemma strip_prefix_Some p s r : strip_prefix p s = Some r ↔ s = p ++ r.
Proof.
  split; [|intros ->; apply strip_prefix_app].
  revert s. induction p as [|a p IH]; intros [|b s]; simpl; [naive_solver..|done|].
  destruct (Z.eqb_spec a b) as [->|]; [|done]. intros Hr. f_equal. by apply IH.
Qed.

Lemma starts_with_spec p s : starts_with p s = true ↔ ∃ r, s = p ++ r.
Proof.
  unfold starts_with. rewrite bool_decide_eq_true. split.
  - intros [r Hr%strip_prefix_Some]. eauto.
  - intros [r Hr]. exists r. by apply strip_prefix_Some.
Qed.

Lemma strip_suffix_app p s : strip_suffix p (s ++ p) = Some s.
Proof.
  unfold strip_suffix. rewrite rev_app_distr, strip_prefix_app. simpl. by rewrite rev_involutive.
Qed.

Lemma strip_suffix_Some p s r : strip_suffix p s = Some r ↔ s = r ++ p.
Proof.
  split; [|intros ->; apply strip_suffix_app]. unfold strip_suffix.
  destruct (strip_prefix (rev p) (rev s)) as [q|] eqn:Hq; [|done]. intros [= <-].
  apply strip_prefix_Some, (f_equal (@rev Z)) in Hq.
  by rewrite rev_app_distr, !rev_involutive in Hq.
Qed.

Lemma split_once_Some c s a b :
  split_once c s = Some (a, b) ↔ s = a ++ c :: b ∧ c ∉ a.
Proof.
  revert a. induction s as [|x s IH]; intros a; simpl.
  { split; [done|]. intros [Hs _]. by destruct a. }
  destruct (Z.eqb_spec x c) as [->|Hx].
  { split; [intros [= <- <-]; split; [done|apply not_elem_of_nil]|].
    intros [Hs Hc]. destruct a as [|y a]; [by simplify_eq/=|].
    simplify_eq/=. by destruct Hc; left. }
  destruct (split_once c s) as [[a' b']|] eqn:Hs.
  - split.
    + intros [= <- <-]. destruct (proj1 (IH a') eq_refl) as [-> Hc].
      split; [done|]. rewrite not_elem_of_cons. auto.
    + intros [Hxs Hc]. destruct a as [|y a]; simplify_eq/=.
      apply not_elem_of_cons in Hc as [_ Hc].
      assert (Some (a', b') = Some (a, b)) as [= -> ->]; [|done]. by apply IH.
  - split; [done|]. intros [Hxs Hc]. destruct a as [|y a]; simplify_eq/=.
    apply not_elem_of_cons in Hc as [_ Hc].
    assert (None = Some (a, b)); [|done]. by apply IH.
Qed.

Lemma split_once_None c s : split_once c s = None ↔ c ∉ s.
Proof.
  induction s as [|x s IH]; simpl; [split; [by intros _ ?%not_elem_of_nil|done]|].
  destruct (Z.eqb_spec x c) as [->|Hx]; [split; [done|intros []; left]|].
  rewrite not_elem_of_cons. destruct (split_once c s) as [[a b]|]; [|naive_solver].
  split; [done|]. intros [_ Hc]. by apply IH in Hc.
Qed.

Lemma contains_char_spec c s : contains_char c s = true ↔ c ∈ s.
Proof.
  unfold contains_char. rewrite existsb_exists. split.
  - intros (x & Hx%list_elem_of_In & ->%Z.eqb_eq). done.
  - intros Hc%list_elem_of_In. exists c. by rewrite Z.eqb_refl.
Qed.

Lemma trim_start_id p x s : p x = false → trim_start_by p (x :: s) = x :: s.
Proof. simpl. by intros ->. Qed.

Lemma trim_id x s y :
  is_whitespace x = false → is_whitespace y = false → trim (x :: s ++ [y]) = x :: s ++ [y].
Proof.
  intros Hx Hy. unfold trim, trim_end_by. rewrite trim_start_id by done.
  rewrite app_comm_cons, rev_app_distr. change (rev [y]) with [y].
  change ([y] ++ rev (x :: s)) with (y :: rev (x :: s)). rewrite trim_start_id by done.
  change (rev (y :: rev (x :: s))) with (rev (rev (x :: s)) ++ [y]). by rewrite rev_involutive.
Qed.

Lemma trim_ends s x y :
  head s = Some x → last s = Some y →
  is_whitespace x = false → is_whitespace y = false → trim s = s.
Proof.
  intros Hx Hy Hwx Hwy. destruct s as [|x' s]; simplify_eq/=.
  destruct s as [|z s] using rev_ind.
  { unfold trim, trim_end_by. simpl. rewrite Hwx. simpl. by rewrite Hwx. }
  rewrite app_comm_cons, last_snoc in Hy. simplify_eq. by apply trim_id.
Qed.

Lemma trim_word w : word w → trim w = w.
Proof.
  intros [Hne Hw]. destruct w as [|x w]; [done|]. rewrite Forall_forall in Hw.
  destruct (last (x :: w)) as [y|] eqn:Hy; [|by apply last_None in Hy].
  apply (trim_ends _ x y); [done|done|apply Hw; left|]. apply Hw. by apply last_Some_elem_of.
Qed.

Lemma last_rev {A} (l : list A) : last (rev l) = head l.
Proof. destruct l as [|x l]; simpl; [done|]. apply last_snoc. Qed.

Lemma trim_start_head p s y : head (trim_start_by p s) = Some y → p y = false.
Proof.
  induction s as [|x s IH]; simpl; [done|].
  destruct (p x) eqn:Hx; [exact IH|]. by intros [= <-].
Qed.

Lemma trimmed_last s y : trim s = s → last s = Some y → is_whitespace y = false.
Proof.
  intros Ht Hy. rewrite <-Ht in Hy. unfold trim, trim_end_by in Hy.
  rewrite last_rev in Hy. by apply trim_start_head in Hy.
Qed.

Lemma strip_cr_id w : last w ≠ Some 13 → strip_cr w = w.
Proof.
  intros Hl. unfold strip_cr. destruct (strip_suffix [13] w) as [r|] eqn:Hr; [|done].
  apply strip_suffix_Some in Hr as ->. by rewrite last_snoc in Hl.
Qed.

Lemma lines_cons w s :
  Forall (fun c => (10 =? c) = false) w → strip_cr w = w → lines (w ++ 10 :: s) = w :: lines s.
Proof.
  intros Hw Hcr. unfold lines, split_on. rewrite split_by_app by done.
  pose proof (split_by_nonempty (Z.eqb 10) s) as Hne.
  destruct (split_by (Z.eqb 10) s); [done|]. simpl. by rewrite Hcr.
Qed.

(** ** Facts about integers *)

Definition dec_value (s : str) (acc : Z) : Z := foldl (fun a c => a * 10 + (c - 48)) acc s.
Definition decimal (s : str) : Prop := Forall (fun c => is_ascii_digit c = true) s.

Lemma is_ascii_digit_range c : is_ascii_digit c = true ↔ 48 ≤ c ≤ 57.
Proof. unfold is_ascii_digit. rewrite andb_true_iff, !Z.leb_le. lia. Qed.

Lemma digits_of_decimal fuel n acc :
  0 ≤ n → decimal acc → decimal (digits_of fuel n acc).
Proof.
  revert n acc. induction fuel as [|fuel IH]; intros n acc Hn Hacc; simpl; [done|].
  pose proof (Z.mod_pos_bound n 10). destruct (Z.ltb_spec n 10).
  - constructor; [apply is_ascii_digit_range; lia|done].
  - apply IH; [apply Z.div_pos; lia|]. constructor; [apply is_ascii_digit_range; lia|done].
Qed.

Lemma digits_of_value fuel n acc :
  0 ≤ n < 2 ^ Z.of_nat fuel → dec_value (digits_of fuel n acc) 0 = dec_value acc n.
Proof.
  revert n acc. induction fuel as [|fuel IH]; intros n acc Hn.
  { simpl in *. by assert (n = 0) as -> by lia. }
  cbn [digits_of]. destruct (Z.ltb_spec n 10) as [Hlt|Hge].
  - unfold dec_value; simpl. f_equal. lia.
  - rewrite Nat2Z.inj_succ, Z.pow_succ_r in Hn by lia.
    rewrite IH; [|split; [apply Z.div_pos; lia|apply Z.div_lt_upper_bound; lia]].
    unfold dec_value; simpl. f_equal. pose proof (Z.div_mod n 10). lia.
Qed.

Lemma to_dec_value n : 0 ≤ n → dec_value (to_dec n) 0 = n.
Proof.
  intros Hn. unfold to_dec. rewrite digits_of_value; [done|].
  split; [done|]. rewrite Nat2Z.inj_succ, Z2Nat.id by apply Z.log2_nonneg.
  destruct (decide (n = 0)) as [->|]; [done|]. apply Z.log2_spec. lia.
Qed.

Lemma to_dec_decimal n : 0 ≤ n → decimal (to_dec n).
Proof. intros Hn. apply digits_of_decimal; [done|constructor]. Qed.

Lemma digits_of_nonempty fuel n acc : fuel ≠ O → digits_of fuel n acc ≠ [].
Proof.
  intros Hf. assert (∀ f m a, a ≠ [] → digits_of f m a ≠ []) as Hne.
  { induction f as [|f IH]; intros m a Ha; simpl; [done|]. destruct (m <? 10); [done|]. by apply IH. }
  destruct fuel as [|fuel]; [done|]. simpl. destruct (n <? 10); [done|]. by apply Hne.
Qed.

Lemma to_dec_nonempty n : to_dec n ≠ [].
Proof. by apply digits_of_nonempty. Qed.

Lemma to_digit_10 c : is_ascii_digit c = true → to_digit 10 c = Some (c - 48).
Proof.
  intros Hc. unfold to_digit. rewrite Hc. apply is_ascii_digit_range in Hc.
  destruct (Z.ltb_spec (c - 48) 10); [done|lia].
Qed.

Lemma dec_value_ge s acc : decimal s → 0 ≤ acc → acc ≤ dec_value s acc.
Proof.
  intros Hs. revert acc. induction Hs as [|c s Hc Hs IH]; intros acc Hacc.
  { unfold dec_value; simpl; lia. }
  apply is_ascii_digit_range in Hc. unfold dec_value in *; simpl.
  specialize (IH (acc * 10 + (c - 48))). lia.
Qed.

Lemma parse_digits_10 mx s acc :
  decimal s → 0 ≤ acc → dec_value s acc ≤ mx →
  parse_digits 10 mx acc s = Some (dec_value s acc).
Proof.
  intros Hs. revert acc. induction Hs as [|c s Hc Hs IH]; intros acc Hacc Hmx; simpl; [done|].
  rewrite to_digit_10 by done. apply is_ascii_digit_range in Hc.
  assert (acc * 10 + (c - 48) ≤ mx) as Hle.
  { etransitivity; [|exact Hmx]. apply (dec_value_ge s (acc * 10 + (c - 48))); [done|lia]. }
  apply Z.leb_le in Hle as ->. apply IH; [lia|done].
Qed.

Lemma from_str_radix_digits mx s :
  s ≠ [] → decimal s → from_str_radix mx s 10 = parse_digits 10 mx 0 s.
Proof.
  intros Hne Hs. destruct Hs as [|c s Hc Hs]; [done|]. unfold from_str_radix.
  apply is_ascii_digit_range in Hc.
  destruct (Z.eqb_spec c 43), (Z.eqb_spec c 45); try lia. done.
Qed.

(** Printing an unsigned integer and parsing it back. *)
Lemma parse_to_dec mx n : 0 ≤ n ≤ mx → parse_uint mx (to_dec n) = Some n.
Proof.
  intros Hn. unfold parse_uint.
  rewrite from_str_radix_digits by (apply to_dec_nonempty || apply to_dec_decimal; lia).
  rewrite parse_digits_10; rewrite ?to_dec_value; try lia; [done|apply to_dec_decimal; lia].
Qed.

Lemma parse_digits_bounds radix mx acc s v :
  0 ≤ radix → 0 ≤ acc ≤ mx → parse_digits radix mx acc s = Some v → 0 ≤ v ≤ mx.
Proof.
  intros Hr. revert acc. induction s as [|c s IH]; intros acc Hacc; simpl; [naive_solver|].
  destruct (to_digit radix c) as [d|] eqn:Hd; [|done].
  destruct (Z.leb_spec (acc * radix + d) mx); [|done]. apply IH.
  assert (0 ≤ d); [|nia]. unfold to_digit in Hd.
  destruct (is_ascii_digit c) eqn:H1; [apply is_ascii_digit_range in H1|].
  2: destruct (is_ascii_lower c) eqn:H2; [unfold is_ascii_lower in H2; boolprop|].
  3: destruct (is_ascii_upper c) eqn:H3; [unfold is_ascii_upper in H3; boolprop|].
  all: case_match; simplify_eq; lia.
Qed.

Lemma parse_uint_bounds mx s v : 0 ≤ mx → parse_uint mx s = Some v → 0 ≤ v ≤ mx.
Proof.
  intros Hmx. unfold parse_uint, from_str_radix. destruct s as [|c s]; [done|].
  destruct ((c =? 43) || (c =? 45)); [destruct (is_empty s), (c =? 43); try done|];
    apply parse_digits_bounds; lia.
Qed.

Lemma decimal_word s : s ≠ [] → decimal s → word s.
Proof.
  intros Hne Hs. split; [done|]. eapply Forall_impl; [exact Hs|].
  intros c Hc%is_ascii_digit_range. unfold is_whitespace.
  repeat (apply orb_false_iff; split); try (apply andb_false_iff);
    rewrite ?Z.eqb_neq, ?Z.leb_gt; lia.
Qed.

Lemma to_dec_word n : 0 ≤ n → word (to_dec n).
Proof. intros Hn. apply decimal_word; [apply to_dec_nonempty|by apply to_dec_decimal]. Qed.
