(* ===== verification/Utf8.v ===== *)
(** * UTF-8

    [char::encode_utf8], the byte view of a [str], and
    [String::from_utf8_lossy] with its replacement of each maximal invalid
    sequence by U+FFFD. *)

From S2P Require Import Prelude Str.
Open Scope Z_scope.

(** Unicode scalar values: code points without the surrogates. *)
Definition is_scalar (c : Z) : bool :=
  ((0 <=? c) && (c <? 55296)) || ((57344 <=? c) && (c <? 1114112)).

Definition valid_str (s : str) : Prop := Forall (fun c => is_scalar c = true) s.

Definition encode_utf8 (c : Z) : list Z :=
  if c <? 128 then [c]
  else if c <? 2048 then [192 + c / 64; 128 + c mod 64]
  else if c <? 65536 then [224 + c / 4096; 128 + (c / 64) mod 64; 128 + c mod 64]
  else [240 + c / 262144; 128 + (c / 4096) mod 64; 128 + (c / 64) mod 64; 128 + c mod 64].

(** [str::as_bytes] and [str::len]. *)
Definition as_bytes (s : str) : list Z := flat_map encode_utf8 s.
Definition str_len (s : str) : Z := Z.of_nat (length (as_bytes s)).

(** ASCII text is one byte per character. *)
Lemma str_len_ascii s : Forall (fun c => 0 ≤ c < 128) s → str_len s = Z.of_nat (length s).
Proof.
  unfold str_len. intros Hs. f_equal. induction Hs as [|c s Hc Hs IH]; simpl; [done|].
  rewrite length_app, IH. unfold encode_utf8. destruct (Z.ltb_spec c 128); [done|lia].
Qed.

Definition in_range (lo hi b : Z) : bool := (lo <=? b) && (b <=? hi).
Definition is_cont (b : Z) : bool := in_range 128 191 b.

(** The second byte allowed after a lead byte of a three- or four-byte
    sequence (no overlong forms, surrogates or values past U+10FFFF). *)
Definition second3 (a b : Z) : bool :=
  if a =? 224 then in_range 160 191 b
  else if a =? 237 then in_range 128 159 b
  else is_cont b.
Definition second4 (a b : Z) : bool :=
  if a =? 240 then in_range 144 191 b
  else if a =? 244 then in_range 128 143 b
  else is_cont b.

Definition replacement : Z := 65533.

(** One step of decoding: the scalar (or replacement) and how many bytes it
    consumed. *)
Definition decode_step (a : Z) (rest : list Z) : Z * nat :=
  if a <? 128 then (a, 1%nat)
  else if in_range 194 223 a then
    match rest with
    | b :: _ => if is_cont b then ((a - 192) * 64 + (b - 128), 2%nat) else (replacement, 1%nat)
    | [] => (replacement, 1%nat)
    end
  else if in_range 224 239 a then
    match rest with
    | b :: rest' =>
        if second3 a b then
          match rest' with
          | c :: _ =>
              if is_cont c then ((a - 224) * 4096 + (b - 128) * 64 + (c - 128), 3%nat)
              else (replacement, 2%nat)
          | [] => (replacement, 2%nat)
          end
        else (replacement, 1%nat)
    | [] => (replacement, 1%nat)
    end
  else if in_range 240 244 a then
    match rest with
    | b :: rest' =>
        if second4 a b then
          match rest' with
          | c :: rest'' =>
              if is_cont c then
                match rest'' with
                | d :: _ =>
                    if is_cont d then
                      ((a - 240) * 262144 + (b - 128) * 4096 + (c - 128) * 64 + (d - 128), 4%nat)
                    else (replacement, 3%nat)
                | [] => (replacement, 3%nat)
                end
              else (replacement, 2%nat)
          | [] => (replacement, 2%nat)
          end
        else (replacement, 1%nat)
    | [] => (replacement, 1%nat)
    end
  else (replacement, 1%nat).

(** Every step consumes a byte, so the number of bytes is enough fuel. *)
Fixpoint lossy (fuel : nat) (bs : list Z) : str :=
  match fuel, bs with
  | _, [] => []
  | O, _ => []
  | S fuel', a :: rest =>
      let '(c, n) := decode_step a rest in
      c :: lossy fuel' (drop n bs)
  end.

Definition from_utf8_lossy (bs : list Z) : str := lossy (length bs) bs.

Lemma is_scalar_range c :
  is_scalar c = true ↔ 0 ≤ c < 55296 ∨ 57344 ≤ c < 1114112.
Proof.
  unfold is_scalar. rewrite orb_true_iff, !andb_true_iff, !Z.leb_le, !Z.ltb_lt. lia.
Qed.

Lemma in_range_true lo hi b : in_range lo hi b = true ↔ lo ≤ b ≤ hi.
Proof. unfold in_range. rewrite andb_true_iff, !Z.leb_le. lia. Qed.

Lemma in_range_false lo hi b : in_range lo hi b = false ↔ b < lo ∨ hi < b.
Proof. unfold in_range. rewrite andb_false_iff, !Z.leb_gt. lia. Qed.

(** Decoding an encoded scalar gives the scalar and consumes its bytes. *)
Lemma decode_step_encode c rest :
  is_scalar c = true →
  ∃ a bs, encode_utf8 c = a :: bs ∧
          decode_step a (bs ++ rest) = (c, length (encode_utf8 c)).
Proof.
  intros Hc%is_scalar_range. unfold encode_utf8.
  destruct (Z.ltb_spec c 128) as [H1|H1].
  { exists c, []. split; [done|]. unfold decode_step. simpl.
    by apply Z.ltb_lt in H1 as ->. }
  assert (c = 64 * (c / 64) + c mod 64) as E1 by (apply Z.div_mod; lia).
  pose proof (Z.mod_pos_bound c 64 ltac:(lia)) as M1.
  destruct (Z.ltb_spec c 2048) as [H2|H2].
  { eexists _, _. split; [done|]. unfold decode_step; simpl.
    rewrite (proj2 (Z.ltb_ge _ _)) by lia.
    rewrite (proj2 (in_range_true 194 223 _)) by lia.
    unfold is_cont. rewrite (proj2 (in_range_true 128 191 _)) by lia.
    f_equal. lia. }
  assert (c / 64 = 64 * (c / 4096) + (c / 64) mod 64) as E2.
  { rewrite (Z.div_mod (c / 64) 64) at 1 by lia. by rewrite Z.div_div by lia. }
  pose proof (Z.mod_pos_bound (c / 64) 64 ltac:(lia)) as M2.
  destruct (Z.ltb_spec c 65536) as [H3|H3].
  { eexists _, _. split; [done|]. unfold decode_step; simpl.
    rewrite (proj2 (Z.ltb_ge _ _)) by lia.
    rewrite (proj2 (in_range_false 194 223 _)) by lia.
    rewrite (proj2 (in_range_true 224 239 _)) by lia.
    assert (second3 (224 + c / 4096) (128 + (c / 64) mod 64) = true) as ->.
    { unfold second3, is_cont.
      destruct (Z.eqb_spec (224 + c / 4096) 224); [apply in_range_true; lia|].
      destruct (Z.eqb_spec (224 + c / 4096) 237); apply in_range_true; lia. }
    unfold is_cont. rewrite (proj2 (in_range_true 128 191 _)) by lia. f_equal. lia. }
  assert (c / 4096 = 64 * (c / 262144) + (c / 4096) mod 64) as E3.
  { rewrite (Z.div_mod (c / 4096) 64) at 1 by lia. by rewrite Z.div_div by lia. }
  pose proof (Z.mod_pos_bound (c / 4096) 64 ltac:(lia)) as M3.
  eexists _, _. split; [done|]. unfold decode_step; simpl.
  rewrite (proj2 (Z.ltb_ge _ _)) by lia.
  rewrite (proj2 (in_range_false 194 223 _)) by lia.
  rewrite (proj2 (in_range_false 224 239 _)) by lia.
  rewrite (proj2 (in_range_true 240 244 _)) by lia.
  assert (second4 (240 + c / 262144) (128 + (c / 4096) mod 64) = true) as ->.
  { unfold second4, is_cont.
    destruct (Z.eqb_spec (240 + c / 262144) 240); [apply in_range_true; lia|].
    destruct (Z.eqb_spec (240 + c / 262144) 244); apply in_range_true; lia. }
  unfold is_cont. rewrite !(proj2 (in_range_true 128 191 _)) by lia. f_equal. lia.
Qed.

Lemma encode_utf8_nonempty c : (1 ≤ length (encode_utf8 c))%nat.
Proof. unfold encode_utf8. repeat case_match; simpl; lia. Qed.

Lemma str_len_length s : Z.of_nat (length s) ≤ str_len s.
Proof.
  unfold str_len, as_bytes. induction s as [|c s IH]; [done|]. cbn [flat_map length]. rewrite length_app.
  pose proof (encode_utf8_nonempty c). lia.
Qed.

Lemma lossy_as_bytes s fuel :
  valid_str s → (length (as_bytes s) ≤ fuel)%nat → lossy fuel (as_bytes s) = s.
Proof.
  intros Hs. revert fuel. induction Hs as [|c s Hc Hs IH]; intros fuel Hf; [by destruct fuel|].
  destruct (decode_step_encode c (as_bytes s) Hc) as (a & bs & He & Hd).
  pose proof (encode_utf8_nonempty c) as Hlen.
  change (as_bytes (c :: s)) with (encode_utf8 c ++ as_bytes s) in *.
  rewrite length_app in Hf. destruct fuel as [|fuel]; [lia|].
  rewrite He at 1. simpl app. cbn [lossy]. rewrite Hd. f_equal.
  rewrite He in *. change (a :: bs ++ as_bytes s) with ((a :: bs) ++ as_bytes s).
  rewrite drop_app_length. apply IH. simpl in *. lia.
Qed.

(** Encoding a string and decoding it leniently gives it back. *)
Lemma from_utf8_lossy_as_bytes s : valid_str s → from_utf8_lossy (as_bytes s) = s.
Proof. intros Hs. by apply lossy_as_bytes. Qed.
