(* ===== verification/TempFile.v ===== *)
(** * Atomic file replacement

    [packages/persist-lock/src/temp.rs]: the canonical names of temp files and
    their recogniser, and the save a writer performs through its guard (create,
    write, fsync, rename onto the target, fsync of the directory). *)

From S2P Require Import Prelude Order OrdMap Str.
Open Scope Z_scope.

Module TempFile.

(** ** Names *)

Definition LOCK_SUFFIX : str := lit ".lock".
Definition TEMPLOCK_SUFFIX : str := lit ".templock".

Definition temp_file_name (target_name : str) (pid seq : Z) : str :=
  lit "." ++ target_name ++ lit "." ++ to_dec pid ++ lit "." ++ to_dec seq ++ lit ".tmp".

Definition parse_suffix (rest : str) : option (Z * Z) :=
  match split_on 46 rest with
  | pid :: seq :: ext :: more =>
      match parse_uint u32_max pid, parse_uint u64_max seq with
      | Some pid, Some seq =>
          if str_eqb ext (lit "tmp") && is_empty more then Some (pid, seq) else None
      | _, _ => None
      end
  | _ => None
  end.

Definition parse_temp_name (entry_name target_name : str) : option (Z * Z) :=
  match strip_prefix (lit ".") entry_name with
  | None => None
  | Some rest =>
      match strip_prefix target_name rest with
      | None => None
      | Some rest =>
          match strip_prefix (lit ".") rest with
          | None => None
          | Some rest => parse_suffix rest
          end
      end
  end.

(** [lock_path_for] and [templock_path_for], on file names. *)
Definition lock_path_for (temp : str) : str := temp ++ LOCK_SUFFIX.
Definition templock_path_for (target : str) : str := target ++ TEMPLOCK_SUFFIX.

(** What [cleanup_temp_files_with] makes of a directory entry. *)
Inductive entry_class : Type :=
| Companion (temp_name : str)
| Candidate
| Ignored.

Definition classify_entry (legacy_match : str → bool) (target_name file_name : str) : entry_class :=
  match strip_suffix LOCK_SUFFIX file_name with
  | Some temp_name =>
      if bool_decide (is_Some (parse_temp_name temp_name target_name))
      then Companion temp_name else Ignored
  | None =>
      if ends_with TEMPLOCK_SUFFIX file_name then Ignored
      else if bool_decide (is_Some (parse_temp_name file_name target_name)) || legacy_match file_name
      then Candidate else Ignored
  end.

(** ** Saving *)

(** Which operations of a save succeed. *)
Record save_io : Type := mkSave {
  create_ok : bool;
  write_ok : bool;
  fsync_ok : bool;
  rename_ok : bool;
  dir_sync_ok : bool;
}.

Definition all_ok : save_io := mkSave true true true true true.

Section Save.
Context {F : Type}.

(** [rename_into_target]: from the rename on the target is the new file. *)
Definition rename_into_target (io : save_io) (new old : F) : result unit unit * F :=
  if negb (rename_ok io) then (Err tt, old)
  else if negb (dir_sync_ok io) then (Err tt, new)
  else (Ok tt, new).

Definition finish (io : save_io) (new old : F) : result unit unit * F :=
  if negb (fsync_ok io) then (Err tt, old) else rename_into_target io new old.

(** The save of every writer: [create], [write_all], [finish]. *)
Definition save_file (io : save_io) (new old : F) : result unit unit * F :=
  if negb (create_ok io) then (Err tt, old)
  else if negb (write_ok io) then (Err tt, old)
  else finish io new old.

Lemma save_file_cases io new old :
  save_file io new old = (Ok tt, new) ∨
  save_file io new old = (Err tt, old) ∨
  (save_file io new old = (Err tt, new) ∧ dir_sync_ok io = false).
Proof.
  unfold save_file, finish, rename_into_target.
  destruct (create_ok io), (write_ok io), (fsync_ok io), (rename_ok io), (dir_sync_ok io); auto.
Qed.

Lemma save_file_ok io new old f : save_file io new old = (Ok tt, f) → f = new.
Proof. intros Hs. destruct (save_file_cases io new old) as [H|[H|[H _]]]; congruence. Qed.
End Save.

(** ** Facts about names *)

Lemma number_no_dot n : 0 ≤ n → Forall (fun c => (46 =? c) = false) (to_dec n).
Proof.
  intros Hn. eapply Forall_impl; [apply to_dec_decimal, Hn|].
  intros c Hc. apply is_ascii_digit_range in Hc. apply Z.eqb_neq. lia.
Qed.

Lemma parse_suffix_canonical pid seq :
  in_u u32_max pid → in_u u64_max seq →
  parse_suffix (to_dec pid ++ lit "." ++ to_dec seq ++ lit ".tmp") = Some (pid, seq).
Proof.
  intros Hp Hs. unfold parse_suffix, split_on.
  change (to_dec pid ++ lit "." ++ to_dec seq ++ lit ".tmp")
    with (to_dec pid ++ 46 :: to_dec seq ++ 46 :: lit "tmp").
  rewrite !split_by_app; try done; try (apply number_no_dot; unfold in_u in *; lia).
  rewrite split_by_word by by repeat constructor.
  unfold in_u in *. rewrite !parse_to_dec by lia. done.
Qed.

Lemma parse_canonical target pid seq :
  in_u u32_max pid → in_u u64_max seq →
  parse_temp_name (temp_file_name target pid seq) target = Some (pid, seq).
Proof.
  intros Hp Hs. unfold parse_temp_name, temp_file_name. rewrite !strip_prefix_app.
  by apply parse_suffix_canonical.
Qed.

Lemma ends_with_last p s x y :
  last p = Some x → last s = Some y → x ≠ y → strip_suffix p s = None.
Proof.
  intros Hp Hs Hne. destruct (strip_suffix p s) as [r|] eqn:Hr; [|done].
  apply strip_suffix_Some in Hr as ->. rewrite last_app, Hp in Hs. congruence.
Qed.

Lemma temp_file_name_last target pid seq : last (temp_file_name target pid seq) = Some 112.
Proof. unfold temp_file_name. by rewrite !last_app. Qed.

(** ** Properties *)

(** the recogniser and the builder of temp names agree where the cleanup
    relies on it: a writer's temp file is recognised with its own process id and
    sequence number and offered for cleanup, its companion lock is taken for
    the lock of exactly that temp file and not for a temp file, and the stable
    critical-section lock is never offered, whatever a legacy predicate says. *)
Theorem temp_names_are_recognised (legacy : str → bool) (target : str) (pid seq : Z) :
  in_u u32_max pid → in_u u64_max seq →
  let temp := temp_file_name target pid seq in
  parse_temp_name temp target = Some (pid, seq) ∧
  classify_entry legacy target temp = Candidate ∧
  classify_entry legacy target (lock_path_for temp) = Companion temp ∧
  classify_entry legacy target (templock_path_for target) = Ignored.
Proof.
  intros Hp Hs temp. pose proof (parse_canonical target pid seq Hp Hs) as Hc. fold temp in Hc.
  pose proof (temp_file_name_last target pid seq) as Hl. fold temp in Hl.
  split_and!; [done|..]; unfold classify_entry.
  - rewrite (ends_with_last _ _ 107 112) by done. unfold ends_with.
    rewrite (ends_with_last TEMPLOCK_SUFFIX _ 107 112) by done.
    by rewrite bool_decide_false, Hc by by intros [? ?].
  - unfold lock_path_for. rewrite strip_suffix_app, Hc. done.
  - unfold templock_path_for.
    assert (strip_suffix LOCK_SUFFIX (target ++ TEMPLOCK_SUFFIX) = None) as ->.
    { destruct (strip_suffix _ _) as [r|] eqn:Hr; [|done]. apply strip_suffix_Some in Hr.
      apply (f_equal (@rev Z)) in Hr. rewrite !rev_app_distr in Hr. discriminate Hr. }
    unfold ends_with. by rewrite strip_suffix_app.
Qed.

(** the recogniser accepts more than the canonical names: for every
    target there is an entry no builder call produces (signed and zero-padded
    numbers) that is recognised and offered for cleanup. *)
Theorem recogniser_is_not_exact (target : str) :
  let entry := lit "." ++ target ++ lit ".+7.007.tmp" in
  parse_temp_name entry target = Some (7, 7) ∧ entry ≠ temp_file_name target 7 7 ∧
  classify_entry (fun _ => false) target entry = Candidate.
Proof.
  intros entry. assert (parse_temp_name entry target = Some (7, 7)) as Hp.
  { unfold parse_temp_name, entry. rewrite !strip_prefix_app.
    change (lit ".+7.007.tmp") with (lit "." ++ lit "+7.007.tmp"). by rewrite strip_prefix_app. }
  split_and!; [done| |].
  - unfold entry, temp_file_name. intros He. do 2 apply app_inv_head in He. discriminate He.
  - unfold classify_entry. assert (last entry = Some 112) as Hl by (unfold entry; by rewrite !last_app).
    rewrite (ends_with_last _ _ 107 112) by done. unfold ends_with.
    rewrite (ends_with_last TEMPLOCK_SUFFIX _ 107 112) by done.
    by rewrite bool_decide_false, Hp by by intros [? ?].
Qed.

Lemma temp_names_are_recognised_witness :
  parse_temp_name (temp_file_name (lit "users.ktav") 4321 7) (lit "users.ktav") = Some (4321, 7).
Proof.
  apply (temp_names_are_recognised (fun _ => true) (lit "users.ktav") 4321 7);
    unfold in_u, u32_max, u64_max; lia.
Defined.
End TempFile.
