(* ===== verification/TempProtocol.v ===== *)
(** * Ownership of temp files

    [packages/persist-lock/src/temp.rs]: writers ([TempFileGuard]), reader-side
    cleanup ([remove_temp_if_unlocked]) and the sweep of orphaned companions of
    one target, as processes that share a directory and advisory locks.  Every
    system call is one step; a call may fail and a process may die anywhere, at
    which the kernel releases its locks. *)

From S2P Require Import Prelude Interleave Order OrdMap Str TempFile.
Open Scope Z_scope.

Module TempProtocol.

(** ** The shared state

    Temp files are named by their directory entry, companions by the temp file
    they belong to.  [temps] says whose data a temp file holds, [companions]
    the inode behind a companion entry, [locks] who holds the advisory lock of
    an inode, [templock] who is in the critical section of the target and
    [target] whose data is published.  [named] records the names of the live
    writers: a name carries the process id and a counter of the process, so no
    two live writers are given the same one. *)
Record dir : Type := mkDir {
  temps : gmap str nat;
  companions : gmap str nat;
  locks : gmap nat nat;
  templock : option nat;
  target : option nat;
  next_inode : nat;
  named : gmap str nat;
}.

Definition empty_dir : dir := mkDir ∅ ∅ ∅ None None 0 ∅.

Definition set_temps (f : gmap str nat → gmap str nat) (s : dir) : dir :=
  mkDir (f (temps s)) (companions s) (locks s) (templock s) (target s) (next_inode s) (named s).
Definition set_companions (f : gmap str nat → gmap str nat) (s : dir) : dir :=
  mkDir (temps s) (f (companions s)) (locks s) (templock s) (target s) (next_inode s) (named s).
Definition set_locks (f : gmap nat nat → gmap nat nat) (s : dir) : dir :=
  mkDir (temps s) (companions s) (f (locks s)) (templock s) (target s) (next_inode s) (named s).
Definition set_templock (o : option nat) (s : dir) : dir :=
  mkDir (temps s) (companions s) (locks s) o (target s) (next_inode s) (named s).
Definition set_target (o : option nat) (s : dir) : dir :=
  mkDir (temps s) (companions s) (locks s) (templock s) o (next_inode s) (named s).
Definition set_named (f : gmap str nat → gmap str nat) (s : dir) : dir :=
  mkDir (temps s) (companions s) (locks s) (templock s) (target s) (next_inode s) (f (named s)).

(** A companion opened for creation: the existing inode or a fresh one. *)
Definition open_companion (t : str) (s : dir) : nat * dir :=
  match companions s !! t with
  | Some ino => (ino, s)
  | None =>
      let ino := next_inode s in
      (ino, mkDir (temps s) (<[t := ino]> (companions s)) (locks s) (templock s) (target s)
              (S ino) (named s))
  end.

(** ** Program counters *)

Inductive pc : Type :=
(* [TempFileGuard::create] *)
| WName (t : str)
| WSection (t : str)
| WOpen (t : str)
| WTryLock (t : str) (ino : nat)
| WTemp (t : str) (ino : nat)
| WUndo (t : str)
| WFail (t : str)
| WLeave (t : str) (ino : nat)
(* the owned temp file: [write_all], [fsync], [rename_into_target] *)
| WRename (t : str) (ino : nat)
| WDirSync (t : str) (ino : nat)
(* [Drop] *)
| WDrop (t : str) (ino : nat) (done : bool)
| WRemoveTemp (t : str) (ino : nat) (done section : bool)
| WRemoveLock (t : str) (ino : nat) (section : bool)
| WEndDrop (t : str) (ino : nat) (section : bool)
| WClose (t : str) (ino : nat)
(* [remove_temp_if_unlocked] *)
| CTry (t : str)
| COpen (t : str)
| CProbe (t : str) (ino : nat)
| CUnlock (t : str) (ino : nat)
| CUnlink (t : str)
| CRemove (t : str)
(* the sweep of orphaned companions *)
| OTry (t : str)
| OCheck (t : str)
| OOpen (t : str)
| OProbe (t : str) (ino : nat)
| OUnlock (t : str) (ino : nat)
| OUnlink (t : str)
(* leaving the critical section of a cleanup *)
| Leave
| Finished.

#[export] Instance pc_eq_dec : EqDecision pc.
Proof. solve_decision. Defined.

(** What becomes of the system call of a step. *)
Inductive outcome : Type := Succeeds | Fails | Dies.

Definition name_of (p : pc) : option str :=
  match p with
  | WSection t | WOpen t | WTryLock t _ | WTemp t _ | WUndo t | WFail t | WLeave t _
  | WRename t _ | WDirSync t _ | WDrop t _ _ | WRemoveTemp t _ _ _ | WRemoveLock t _ _
  | WEndDrop t _ _ | WClose t _ => Some t
  | _ => None
  end.

(** The kernel's part of a death: every lock of the process is released. *)
Definition die (i : nat) (p : pc) (s : dir) : dir :=
  let s := set_locks (filter (fun kv => kv.2 ≠ i)) s in
  let s := set_templock (if bool_decide (templock s = Some i) then None else templock s) s in
  match name_of p with
  | Some t => set_named (delete t) s
  | None => s
  end.

(** [if ok then s' else s]: a removal whose failure is ignored. *)
Definition best_effort (o : outcome) (f : dir → dir) (s : dir) : dir :=
  match o with Succeeds => f s | _ => s end.

Definition writer_step (i : nat) (o : outcome) (s : dir) (p : pc) : option (dir * pc) :=
  match p with
  | WName t =>
      match named s !! t with
      | Some _ => None
      | None => Some (set_named <[t := i]> s, WSection t)
      end
  | WSection t =>
      match o, templock s with
      | Succeeds, None => Some (set_templock (Some i) s, WOpen t)
      | Succeeds, Some _ => None
      | _, _ => Some (set_named (delete t) s, Finished)
      end
  | WOpen t =>
      match o with
      | Succeeds => let '(ino, s') := open_companion t s in Some (s', WTryLock t ino)
      | _ => Some (s, WFail t)
      end
  | WTryLock t ino =>
      match o, locks s !! ino with
      | Succeeds, None => Some (set_locks <[ino := i]> s, WTemp t ino)
      | _, _ => Some (s, WFail t)
      end
  | WTemp t ino =>
      match o with
      | Succeeds => Some (set_temps <[t := i]> s, WLeave t ino)
      | _ => Some (set_locks (delete ino) s, WUndo t)
      end
  | WUndo t => Some (best_effort o (set_companions (delete t)) s, WFail t)
  | WFail t => Some (set_named (delete t) (set_templock None s), Finished)
  | WLeave t ino => Some (set_templock None s, WRename t ino)
  | WRename t ino =>
      match o, temps s !! t with
      | Succeeds, Some data => Some (set_target (Some data) (set_temps (delete t) s), WDirSync t ino)
      | _, _ => Some (s, WDrop t ino false)
      end
  | WDirSync t ino => Some (s, WDrop t ino (match o with Succeeds => true | _ => false end))
  | WDrop t ino done =>
      match o, templock s with
      | Succeeds, None => Some (set_templock (Some i) s, WRemoveTemp t ino done true)
      | Succeeds, Some _ => None
      | _, _ => Some (s, WRemoveTemp t ino done false)
      end
  | WRemoveTemp t ino done section =>
      Some (if done then s else best_effort o (set_temps (delete t)) s, WRemoveLock t ino section)
  | WRemoveLock t ino section =>
      Some (best_effort o (set_companions (delete t)) s, WEndDrop t ino section)
  | WEndDrop t ino section =>
      Some (if section then set_templock None s else s, WClose t ino)
  | WClose t ino => Some (set_named (delete t) (set_locks (delete ino) s), Finished)
  | _ => None
  end.

Definition cleanup_step (i : nat) (o : outcome) (s : dir) (p : pc) : option (dir * pc) :=
  match p with
  | CTry t | OTry t =>
      match o, templock s with
      | Succeeds, None =>
          Some (set_templock (Some i) s, match p with CTry _ => COpen t | _ => OCheck t end)
      | _, _ => Some (s, Finished)
      end
  | COpen t =>
      match o, companions s !! t with
      | Succeeds, Some ino => Some (s, CProbe t ino)
      | Succeeds, None => Some (s, CRemove t)
      | _, _ => Some (s, Leave)
      end
  | CProbe t ino =>
      match o, locks s !! ino with
      | Succeeds, None => Some (set_locks <[ino := i]> s, CUnlock t ino)
      | _, _ => Some (s, Leave)
      end
  | CUnlock t ino => Some (set_locks (delete ino) s, CUnlink t)
  | CUnlink t => Some (best_effort o (set_companions (delete t)) s, CRemove t)
  | CRemove t => Some (best_effort o (set_temps (delete t)) s, Leave)
  | OCheck t => Some (s, if bool_decide (is_Some (temps s !! t)) then Leave else OOpen t)
  | OOpen t =>
      match o, companions s !! t with
      | Succeeds, Some ino => Some (s, OProbe t ino)
      | _, _ => Some (s, Leave)
      end
  | OProbe t ino =>
      match o, locks s !! ino with
      | Succeeds, None => Some (set_locks <[ino := i]> s, OUnlock t ino)
      | _, _ => Some (s, Leave)
      end
  | OUnlock t ino => Some (set_locks (delete ino) s, OUnlink t)
  | OUnlink t => Some (best_effort o (set_companions (delete t)) s, Leave)
  | Leave => Some (set_templock None s, Finished)
  | _ => None
  end.

Definition step (i : nat) (o : outcome) (s : dir) (p : pc) : option (dir * pc) :=
  match p, o with
  | Finished, _ => None
  | _, Dies => Some (die i p s, Finished)
  | _, _ =>
      match writer_step i o s p with
      | Some r => Some r
      | None => cleanup_step i o s p
      end
  end.

(** Writers begin by taking a name, cleanups with a directory entry. *)
Definition starts (p : pc) : Prop :=
  match p with
  | WName _ | CTry _ | OTry _ => True
  | _ => False
  end.

Definition system : Type := config dir pc.
Definition reachable : system → Prop := reach step starts (mkConfig empty_dir ∅).

(** ** The invariant *)

(** Process [i] holds the lock of the companion that stands behind [t]. *)
Definition owns (s : dir) (i : nat) (t : str) (ino : nat) : Prop :=
  companions s !! t = Some ino ∧ locks s !! ino = Some i.

Definition unowned (s : dir) (t : str) : Prop :=
  ∀ ino, companions s !! t = Some ino → locks s !! ino = None.

(** The companion of [t] is [ino] if it still exists. *)
Definition at_most (s : dir) (t : str) (ino : nat) : Prop :=
  ∀ k, companions s !! t = Some k → k = ino.

(** What process [i] at [p] knows of the shared state. *)
Definition relies (i : nat) (p : pc) (s : dir) : Prop :=
  match p with
  | WName _ | WSection _ | CTry _ | OTry _ | Finished => True
  | WOpen _ | WUndo _ | WFail _ | COpen _ | OCheck _ | OOpen _ | Leave => templock s = Some i
  | WTryLock t ino => templock s = Some i ∧ companions s !! t = Some ino
  | WTemp t ino => templock s = Some i ∧ owns s i t ino
  | WLeave t ino => templock s = Some i ∧ owns s i t ino ∧ temps s !! t = Some i
  | WRename t ino => owns s i t ino ∧ temps s !! t = Some i
  | WDirSync t ino | WDrop t ino _ => owns s i t ino
  | WRemoveTemp t ino _ section | WRemoveLock t ino section =>
      owns s i t ino ∧ (section = true → templock s = Some i)
  | WEndDrop t ino section => locks s !! ino = Some i ∧ (section = true → templock s = Some i)
  | WClose t ino => locks s !! ino = Some i
  | CProbe t ino | OProbe t ino => templock s = Some i ∧ at_most s t ino
  | CUnlock t ino | OUnlock t ino =>
      templock s = Some i ∧ at_most s t ino ∧ locks s !! ino = Some i
  | CUnlink t | CRemove t | OUnlink t => templock s = Some i ∧ unowned s t
  end.

Definition knows (i : nat) (p : pc) (s : dir) : Prop :=
  (∀ t, name_of p = Some t → named s !! t = Some i) ∧ relies i p s.

(** What a step of process [i] does to the state the others see. *)
Record guarantee (i : nat) (s s' : dir) : Prop := mkGuarantee {
  keeps_section : ∀ k, k ≠ i → templock s = Some k → templock s' = Some k;
  keeps_locks : ∀ k ino, k ≠ i → locks s !! ino = Some k → locks s' !! ino = Some k;
  keeps_names : ∀ k t, k ≠ i → named s !! t = Some k → named s' !! t = Some k;
  takes_locks : ∀ ino, locks s !! ino = None → locks s' !! ino = None ∨ templock s = Some i;
  moves_companions : ∀ t,
    companions s' !! t = companions s !! t ∨
    (companions s' !! t = None ∧
      (named s !! t = Some i ∨ (templock s = Some i ∧ unowned s t))) ∨
    (companions s !! t = None ∧ templock s = Some i);
  moves_temps : ∀ t,
    temps s' !! t = temps s !! t ∨ named s !! t = Some i ∨ unowned s t;
}.

Lemma guarantee_refl i s : guarantee i s s.
Proof. split; auto. Qed.

(** What the others know survives. *)
Lemma owns_stable i j s s' t ino :
  guarantee i s s' → j ≠ i → named s !! t = Some j → owns s j t ino → owns s' j t ino.
Proof.
  intros Hg Hne Hn [Hc Hl]. split; [|by apply (keeps_locks _ _ _ Hg)].
  destruct (moves_companions _ _ _ Hg t) as [->|[[_ [Hi|[_ Hu]]]|[? _]]]; [done|congruence| |congruence].
  apply Hu in Hc. congruence.
Qed.

Lemma temp_stable i j s s' t ino :
  guarantee i s s' → j ≠ i → named s !! t = Some j → owns s j t ino →
  temps s !! t = Some j → temps s' !! t = Some j.
Proof.
  intros Hg Hne Hn [Hc Hl] Ht. destruct (moves_temps _ _ _ Hg t) as [->|[?|Hu]]; [done|congruence|].
  apply Hu in Hc. congruence.
Qed.

Lemma at_most_stable i j s s' t ino :
  guarantee i s s' → j ≠ i → templock s = Some j → at_most s t ino → at_most s' t ino.
Proof.
  intros Hg Hne Ht Ha k. destruct (moves_companions _ _ _ Hg t) as [->|[[-> _]|[_ ?]]]; [apply Ha|done|].
  congruence.
Qed.

Lemma unowned_stable i j s s' t :
  guarantee i s s' → j ≠ i → templock s = Some j → unowned s t → unowned s' t.
Proof.
  intros Hg Hne Ht Hu k Hk. assert (companions s !! t = Some k) as Hc.
  { destruct (moves_companions _ _ _ Hg t) as [<-|[[? _]|[_ ?]]]; congruence. }
  destruct (takes_locks _ _ _ Hg k (Hu _ Hc)) as [|]; congruence.
Qed.

Lemma companion_stable i j s s' t ino :
  guarantee i s s' → j ≠ i → named s !! t = Some j → templock s = Some j →
  companions s !! t = Some ino → companions s' !! t = Some ino.
Proof.
  intros Hg Hne Hn Ht Hc.
  destruct (moves_companions _ _ _ Hg t) as [->|[[_ [?|[? _]]]|[? _]]]; congruence.
Qed.

#[local] Hint Resolve keeps_section keeps_locks keeps_names owns_stable temp_stable at_most_stable
  unowned_stable companion_stable : tor.

Lemma knows_stable i j s s' q :
  guarantee i s s' → i ≠ j → knows j q s → knows j q s'.
Proof.
  intros Hg Hne%not_eq_sym [Hn Hr]. split; [by eauto with tor|].
  destruct q; simpl in *; try (specialize (Hn _ eq_refl)); destruct_and?; split_and?; intros;
    eauto with tor.
Qed.

(** One pointwise case per updated entry, then congruence. *)
Ltac pointwise :=
  repeat match goal with
  | |- context [<[?k := _]> _ !! ?k] => rewrite lookup_insert_eq
  | |- context [delete ?k _ !! ?k] => rewrite lookup_delete_eq
  | H : context [<[?k := _]> _ !! ?k] |- _ => rewrite lookup_insert_eq in H
  | H : context [delete ?k _ !! ?k] |- _ => rewrite lookup_delete_eq in H
  | |- context [<[?k := _]> _ !! ?x] => destruct (decide (k = x)) as [<-|]; [rewrite lookup_insert_eq|rewrite lookup_insert_ne by done]
  | |- context [delete ?k _ !! ?x] => destruct (decide (k = x)) as [<-|]; [rewrite lookup_delete_eq|rewrite lookup_delete_ne by done]
  | H : context [<[?k := _]> _ !! ?x] |- _ => destruct (decide (k = x)) as [<-|]; [rewrite lookup_insert_eq in H|rewrite lookup_insert_ne in H by done]
  | H : context [delete ?k _ !! ?x] |- _ => destruct (decide (k = x)) as [<-|]; [rewrite lookup_delete_eq in H|rewrite lookup_delete_ne in H by done]
  end.

Ltac in_section :=
  repeat match goal with H : true = true → _ |- _ => specialize (H eq_refl) end.

Ltac solve_guarantee :=
  in_section; split; simpl; intros; pointwise;
  solve [auto|congruence|left; congruence|right; left; auto|right; right; auto].

Ltac solve_relies :=
  in_section; split; simpl; [try done; intros ? [= <-]; pointwise; congruence|
    split_and?; unfold owns, at_most, unowned in *; simpl; intros; pointwise;
    destruct_and?; split_and?; pointwise; try solve [auto|congruence|naive_solver]].

(** Every step keeps the promise and what the process itself knows. *)
Lemma writer_guarantee i o s p s' p' :
  knows i p s → writer_step i o s p = Some (s', p') → guarantee i s s'.
Proof.
  intros [Hn Hr]. destruct p; simpl in *; try done; try (specialize (Hn _ eq_refl));
    unfold open_companion, best_effort, owns in *; destruct_and?; destruct o; case_goal;
    intros [= <- <-]; solve_guarantee.
Qed.

Lemma cleanup_guarantee i o s p s' p' :
  knows i p s → cleanup_step i o s p = Some (s', p') → guarantee i s s'.
Proof.
  intros [Hn Hr]. destruct p; simpl in *; try done;
    unfold best_effort in *; destruct_and?; destruct o; case_goal;
    intros [= <- <-]; solve_guarantee.
Qed.

Lemma writer_knows i o s p s' p' :
  knows i p s → writer_step i o s p = Some (s', p') → knows i p' s'.
Proof.
  intros [Hn Hr]. destruct p; simpl in *; try done; try (specialize (Hn _ eq_refl));
    unfold open_companion, best_effort in *; destruct_and?; destruct o; case_goal;
    intros [= <- <-]; solve_relies.
Qed.

Lemma cleanup_knows i o s p s' p' :
  knows i p s → cleanup_step i o s p = Some (s', p') → knows i p' s'.
Proof.
  intros [Hn Hr]. destruct p; simpl in *; try done;
    unfold best_effort in *; destruct_and?; destruct o; case_goal;
    intros [= <- <-]; solve_relies.
Qed.

Lemma die_guarantee i p s : knows i p s → guarantee i s (die i p s).
Proof.
  intros [Hn _]. unfold die. destruct (name_of p) as [t|] eqn:Hp;
    [specialize (Hn _ eq_refl)|]; split; simpl; intros; auto; pointwise; try congruence.
  all: try (case_bool_decide; [congruence|done]).
  all: try (by apply map_lookup_filter_Some_2).
  all: left; apply map_lookup_filter_None; auto.
Qed.

Lemma step_cases i o s p s' p' :
  step i o s p = Some (s', p') →
  (s' = die i p s ∧ p' = Finished) ∨ writer_step i o s p = Some (s', p') ∨
  cleanup_step i o s p = Some (s', p').
Proof.
  intros Hs. assert (o ≠ Dies → p ≠ Finished → match writer_step i o s p with
    | Some r => Some r | None => cleanup_step i o s p end = Some (s', p')) as Hr.
  { intros Ho Hp. rewrite <-Hs. by destruct p, o. }
  destruct (decide (p = Finished)) as [->|Hp]; [done|].
  destruct o; [right|right|left; destruct p; simplify_eq/=; auto].
  1, 2: specialize (Hr ltac:(done) Hp); destruct (writer_step _ _ _ _); simplify_eq; auto.
Qed.

Lemma step_guarantee i o s p s' p' :
  knows i p s → step i o s p = Some (s', p') → guarantee i s s' ∧ knows i p' s'.
Proof.
  intros Hk [[-> ->]|[Hs|Hs]]%step_cases.
  - split; [by apply die_guarantee|]. by split.
  - split; [by eapply writer_guarantee|by eapply writer_knows].
  - split; [by eapply cleanup_guarantee|by eapply cleanup_knows].
Qed.

Lemma reachable_knows c i p : reachable c → procs c !! i = Some p → knows i p (shared c).
Proof.
  intros Hc. revert i p. apply (reach_holds step starts (fun _ => True) knows) with (c0 := mkConfig empty_dir ∅).
  - intros i p s Hp _. destruct p; try done; by split.
  - intros i o s p s' p' _ Hk Hs. split; [done|]. by eapply step_guarantee.
  - intros i j o s p s' p' q Hne _ Hk Hj Hs. eapply knows_stable; [|done|done]. by eapply step_guarantee.
  - split; [done|]. intros i p. simpl. by rewrite lookup_empty.
  - done.
Qed.

(** ** An undisturbed cleanup *)

Definition unownedb (s : dir) (t : str) : bool :=
  match companions s !! t with
  | Some ino => bool_decide (locks s !! ino = None)
  | None => true
  end.

Definition cleanup_moves (i : nat) (t : str) (n : nat) : list (move pc outcome) :=
  Spawn i (CTry t) :: replicate n (Step i Succeeds).

Ltac run_on lem :=
  erewrite run_step; [|apply lookup_insert_eq|cbn; rewrite ?lem; reflexivity];
  rewrite insert_insert_eq.

(** ** Properties *)

(** C7: no interleaving of writers, cleanups and orphan sweeps, with failing
    calls and deaths at any point, takes a temp file from under its writer:
    whenever a writer is about to rename, its temp file is there and holds its
    own data, and the rename publishes exactly that. *)
Theorem live_temp_is_never_lost (c : system) (i : nat) (t : str) (ino : nat) :
  reachable c → procs c !! i = Some (WRename t ino) →
  ∃ c', move_step step c (Step i Succeeds) = Some c' ∧
    target (shared c') = Some i ∧ procs c' !! i = Some (WDirSync t ino).
Proof.
  intros Hc Hi. destruct (reachable_knows c i _ Hc Hi) as [_ [_ Ht]].
  eexists. simpl. rewrite Hi. simpl. rewrite Ht. split; [done|]. simpl.
  split; [done|apply lookup_insert_eq].
Qed.

(** a cleanup that runs undisturbed removes a temp file together with its
    companion exactly when no process holds the companion's lock, leaves every
    other temp file, every lock and the published file alone, and leaves the
    critical section free. *)
Theorem cleanup_is_exact (c : system) (i : nat) (t : str) :
  procs c !! i = None → templock (shared c) = None →
  ∃ n c', run_schedule step c (cleanup_moves i t n) = Some c' ∧
    procs c' !! i = Some Finished ∧ templock (shared c') = None ∧
    target (shared c') = target (shared c) ∧ locks (shared c') = locks (shared c) ∧
    temps (shared c') = (if unownedb (shared c) t then delete t (temps (shared c)) else temps (shared c)) ∧
    companions (shared c') =
      (if unownedb (shared c) t then delete t (companions (shared c)) else companions (shared c)).
Proof.
  intros Hi Ht. destruct c as [[te co lo tl ta ni na] q]. simpl in *. subst tl.
  unfold unownedb, cleanup_moves. simpl. rewrite Hi.
  destruct (co !! t) as [ino|] eqn:Hco; [case_bool_decide as Hl|].
  - exists 7%nat. cbn [replicate]. run_on I. run_on Hco. run_on Hl. do 4 run_on I.
    eexists. split; [done|]. simpl. rewrite lookup_insert_eq, delete_insert_id by done. done.
  - exists 4%nat. cbn [replicate]. run_on I. run_on Hco.
    destruct (lo !! ino) as [k|] eqn:Hk; [|done]. run_on Hk. run_on I.
    eexists. split; [done|]. simpl. by rewrite lookup_insert_eq.
  - exists 4%nat. cbn [replicate]. run_on I. run_on Hco. do 2 run_on I.
    eexists. split; [done|]. simpl. rewrite lookup_insert_eq, (delete_id co) by done. done.
Qed.

(** A writer dies before its rename; the cleanup removes what it left. *)
Definition sample_temp : str := TempFile.temp_file_name (lit "users.ktav") 7 0.
Definition writer_moves (i k : nat) : list (move pc outcome) :=
  Spawn i (WName sample_temp) :: replicate k (Step i Succeeds).
Definition after (ms : list (move pc outcome)) : system :=
  default (mkConfig empty_dir ∅) (run_schedule step (mkConfig empty_dir ∅) ms).

(** A cleanup comes between a writer's creation and its rename. *)
Lemma live_temp_is_never_lost_witness :
  ∃ c', move_step step (after (writer_moves 0 6 ++ cleanup_moves 1 sample_temp 4)) (Step 0 Succeeds) =
      Some c' ∧ target (shared c') = Some 0%nat.
Proof.
  destruct (live_temp_is_never_lost (after (writer_moves 0 6 ++ cleanup_moves 1 sample_temp 4))
              0 sample_temp 0) as (c' & Hm & Ht & _).
  - apply (run_reach step starts _ (writer_moves 0 6 ++ cleanup_moves 1 sample_temp 4));
      [by repeat constructor|vm_compute; reflexivity].
  - vm_compute. reflexivity.
  - exists c'. split; [exact Hm|exact Ht].
Defined.

(** A writer dies before its rename; the cleanup removes what it left. *)
Lemma cleanup_is_exact_witness :
  ∃ n c', run_schedule step (after (writer_moves 0 6 ++ [Step 0%nat Dies]))
      (cleanup_moves 1 sample_temp n) = Some c' ∧ temps (shared c') = ∅ ∧ companions (shared c') = ∅.
Proof.
  destruct (cleanup_is_exact (after (writer_moves 0 6 ++ [Step 0%nat Dies])) 1 sample_temp)
    as (n & c' & Hr & _ & _ & _ & _ & Ht & Hc); [vm_compute; reflexivity..|].
  exists n, c'. split; [exact Hr|]. split; [rewrite Ht|rewrite Hc]; vm_compute; reflexivity.
Defined.
End TempProtocol.
