(* ===== verification/Net.v ===== *)
(** * Network addresses

    [std::net]: IP and socket addresses with their derived order, the text
    grammar of [FromStr] (the parser of [core::net]) and [Display].  An IPv4
    address is its 32-bit number, an IPv6 address its 128-bit number. *)

From S2P Require Import Prelude Order Str.
Open Scope Z_scope.

Inductive ip_addr : Type :=
| V4 (bits : Z)
| V6 (bits : Z).

Inductive socket_addr : Type :=
| SockV4 (ip port : Z)
| SockV6 (ip port flowinfo scope_id : Z).

#[export] Instance ip_addr_eq_dec : EqDecision ip_addr.
Proof. solve_decision. Defined.
#[export] Instance socket_addr_eq_dec : EqDecision socket_addr.
Proof. solve_decision. Defined.

Definition ip (a : socket_addr) : ip_addr :=
  match a with
  | SockV4 b _ => V4 b
  | SockV6 b _ _ _ => V6 b
  end.

Definition port (a : socket_addr) : Z :=
  match a with
  | SockV4 _ p => p
  | SockV6 _ p _ _ => p
  end.

(** [SocketAddr::new]. *)
Definition socket_new (a : ip_addr) (p : Z) : socket_addr :=
  match a with
  | V4 b => SockV4 b p
  | V6 b => SockV6 b p 0 0
  end.

Definition socket_fields (a : socket_addr) : bool * list Z :=
  match a with
  | SockV4 i p => (false, [i; p])
  | SockV6 i p f s => (true, [i; p; f; s])
  end.

Lemma socket_fields_inj a b : socket_fields a = socket_fields b → a = b.
Proof. destruct a, b; simpl; congruence. Qed.

(** V4 addresses sort before V6 ones, then by address, port, flow and scope. *)
#[export] Instance socket_addr_ord : Ord socket_addr := ord_by socket_fields socket_fields_inj.

(** ** Octets and segments *)

Definition octet (bits i : Z) : Z := Z.land (Z.shiftr bits (24 - 8 * i)) 255.
Definition octets4 (bits : Z) : list Z := map (octet bits) [0; 1; 2; 3].
Definition segment (bits i : Z) : Z := Z.land (Z.shiftr bits (112 - 16 * i)) 65535.
Definition segments (bits : Z) : list Z := map (segment bits) [0; 1; 2; 3; 4; 5; 6; 7].

(** Big-endian composition of parts of [w] bits each. *)
Definition of_parts (w : Z) (l : list Z) : Z := foldl (fun acc p => acc * 2 ^ w + p) 0 l.
Definition of_octets : list Z → Z := of_parts 8.
Definition of_segments : list Z → Z := of_parts 16.

(** [Ipv6Addr::to_ipv4_mapped]. *)
Definition to_ipv4_mapped (bits : Z) : option Z :=
  if bool_decide (take 6 (segments bits) = [0; 0; 0; 0; 0; 65535])
  then Some (Z.land bits (2 ^ 32 - 1)) else None.

Definition v4_is_loopback (bits : Z) : bool := octet bits 0 =? 127.
Definition v6_is_loopback (bits : Z) : bool := bits =? 1.

(** ** Parsing *)

Definition parser (A : Type) : Type := str → option (A * str).

Definition read_given_char (c : Z) : parser unit := fun s =>
  match s with
  | x :: s' => if x =? c then Some (tt, s') else None
  | [] => None
  end.

Fixpoint read_digits (radix : Z) (s : str) : list Z * str :=
  match s with
  | c :: s' =>
      match to_digit radix c with
      | Some d => let '(ds, r) := read_digits radix s' in (d :: ds, r)
      | None => ([], s)
      end
  | [] => ([], [])
  end.

Definition digits_value (radix : Z) (ds : list Z) : Z := foldl (fun a d => a * radix + d) 0 ds.

(** [read_number]: the digit count is bounded by [max_digits], the value by
    the target type's maximum [mx], and a leading zero is refused on request. *)
Definition read_number (mx radix : Z) (max_digits : option nat) (allow_zero_prefix : bool)
  : parser Z := fun s =>
  let '(ds, r) := read_digits radix s in
  let n := length ds in
  let v := digits_value radix ds in
  if match max_digits with Some m => (m <? n)%nat | None => false end then None
  else if (n =? 0)%nat then None
  else if negb allow_zero_prefix && (nth 0 ds 1 =? 0) && (1 <? n)%nat then None
  else if v <=? mx then Some (v, r) else None.

(** [read_separator]: before every group but the first. *)
Definition read_separator {A} (sep : Z) (index : nat) (inner : parser A) : parser A := fun s =>
  match index with
  | O => inner s
  | S _ =>
      match read_given_char sep s with
      | Some (_, s') => inner s'
      | None => None
      end
  end.

Fixpoint read_octets (n i : nat) (s : str) : option (list Z * str) :=
  match n with
  | O => Some ([], s)
  | S n' =>
      match read_separator 46 i (read_number u8_max 10 (Some 3%nat) false) s with
      | Some (o, s') =>
          match read_octets n' (S i) s' with
          | Some (os, s'') => Some (o :: os, s'')
          | None => None
          end
      | None => None
      end
  end.

Definition read_ipv4_addr : parser Z := fun s =>
  match read_octets 4 0 s with
  | Some (os, r) => Some (of_octets os, r)
  | None => None
  end.

(** [read_groups]: up to [left] more groups from index [i], the last two of
    which may be an embedded IPv4 address. *)
Fixpoint read_groups (left i : nat) (s : str) : list Z * bool * str :=
  match left with
  | O => ([], false, s)
  | S left' =>
      match (if (1 <? left)%nat then read_separator 58 i read_ipv4_addr s else None) with
      | Some (v4, s') => ([Z.shiftr v4 16; Z.land v4 65535], true, s')
      | None =>
          match read_separator 58 i (read_number u16_max 16 (Some 4%nat) true) s with
          | Some (g, s') =>
              let '(gs, b, r) := read_groups left' (S i) s' in (g :: gs, b, r)
          | None => ([], false, s)
          end
      end
  end.

Definition read_ipv6_addr : parser Z := fun s =>
  let '(head, head_ipv4, s1) := read_groups 8 0 s in
  if (length head =? 8)%nat then Some (of_segments head, s1)
  else if head_ipv4 then None
  else match read_given_char 58 s1 with
  | None => None
  | Some (_, s2) =>
      match read_given_char 58 s2 with
      | None => None
      | Some (_, s3) =>
          let '(tail, _, s4) := read_groups (8 - (length head + 1)) 0 s3 in
          Some (of_segments
                  (head ++ replicate (8 - length head - length tail) 0 ++ tail), s4)
      end
  end.

(** [parse_with]: the whole input must be consumed. *)
Definition parse_all {A} (p : parser A) (s : str) : option A :=
  match p s with
  | Some (a, []) => Some a
  | _ => None
  end.

(** [Ipv4Addr::from_str] refuses more than 15 characters outright. *)
Definition ipv4_from_str (s : str) : option Z :=
  if (15 <? length s)%nat then None else parse_all read_ipv4_addr s.
Definition ipv6_from_str : str → option Z := parse_all read_ipv6_addr.

Definition read_ip_addr : parser ip_addr := fun s =>
  match read_ipv4_addr s with
  | Some (b, r) => Some (V4 b, r)
  | None =>
      match read_ipv6_addr s with
      | Some (b, r) => Some (V6 b, r)
      | None => None
      end
  end.

Definition ip_from_str : str → option ip_addr := parse_all read_ip_addr.

Definition read_port : parser Z := fun s =>
  match read_given_char 58 s with
  | Some (_, s') => read_number u16_max 10 None true s'
  | None => None
  end.

Definition read_scope_id : parser Z := fun s =>
  match read_given_char 37 s with
  | Some (_, s') => read_number u32_max 10 None true s'
  | None => None
  end.

Definition read_socket_addr_v4 : parser socket_addr := fun s =>
  match read_ipv4_addr s with
  | Some (i, s1) =>
      match read_port s1 with
      | Some (p, r) => Some (SockV4 i p, r)
      | None => None
      end
  | None => None
  end.

Definition read_socket_addr_v6 : parser socket_addr := fun s =>
  match read_given_char 91 s with
  | Some (_, s1) =>
      match read_ipv6_addr s1 with
      | Some (i, s2) =>
          let '(scope, s3) := default (0, s2) (read_scope_id s2) in
          match read_given_char 93 s3 with
          | Some (_, s4) =>
              match read_port s4 with
              | Some (p, r) => Some (SockV6 i p 0 scope, r)
              | None => None
              end
          | None => None
          end
      | None => None
      end
  | None => None
  end.

Definition read_socket_addr : parser socket_addr := fun s =>
  match read_socket_addr_v4 s with
  | Some r => Some r
  | None => read_socket_addr_v6 s
  end.

Definition socket_from_str : str → option socket_addr := parse_all read_socket_addr.

(** ** Printing *)

Definition ipv4_to_string (bits : Z) : str := join [46] (map to_dec (octets4 bits)).

Definition hex_digit (d : Z) : Z := if d <? 10 then 48 + d else 87 + d.

(** Lower-case hexadecimal without leading zeros, of a value below 65536. *)
Definition to_hex16 (n : Z) : str :=
  let ds := [n / 4096; (n / 256) mod 16; (n / 16) mod 16; n mod 16] in
  match trim_start_by (Z.eqb 0) ds with
  | [] => [48]
  | ds' => map hex_digit ds'
  end.

(** The first longest run of zero segments: (start, length). *)
Fixpoint longest_zeros (i : nat) (l : list Z) (cur best : nat * nat) : nat * nat :=
  match l with
  | [] => best
  | x :: l' =>
      if x =? 0 then
        let cur' := ((if (cur.2 =? 0)%nat then i else cur.1), S cur.2) in
        longest_zeros (S i) l' cur' (if (best.2 <? cur'.2)%nat then cur' else best)
      else longest_zeros (S i) l' (0%nat, 0%nat) best
  end.

Definition ipv6_to_string (bits : Z) : str :=
  match to_ipv4_mapped bits with
  | Some v4 => lit "::ffff:" ++ ipv4_to_string v4
  | None =>
      let segs := segments bits in
      let '(start, len) := longest_zeros 0 segs (0%nat, 0%nat) (0%nat, 0%nat) in
      if (1 <? len)%nat then
        join [58] (map to_hex16 (take start segs)) ++ [58; 58]
          ++ join [58] (map to_hex16 (drop (start + len) segs))
      else join [58] (map to_hex16 segs)
  end.

Definition ip_to_string (a : ip_addr) : str :=
  match a with
  | V4 b => ipv4_to_string b
  | V6 b => ipv6_to_string b
  end.

Definition socket_to_string (a : socket_addr) : str :=
  match a with
  | SockV4 i p => ipv4_to_string i ++ [58] ++ to_dec p
  | SockV6 i p _ scope =>
      if scope =? 0 then [91] ++ ipv6_to_string i ++ [93; 58] ++ to_dec p
      else [91] ++ ipv6_to_string i ++ [37] ++ to_dec scope ++ [93; 58] ++ to_dec p
  end.
