(* ===== verification/NetText.v ===== *)
(** * Texts of network addresses

    The printed form of an IP or socket address reads back as the address:
    [Display] and [FromStr] of [std::net] on IPv4, IPv6 (compressed, mapped and
    plain) and socket addresses. *)

From S2P Require Import Prelude Order Str Net.
Open Scope Z_scope.

(** ** Parts *)

(** The parts of a number, from the left. *)
Definition parts_of (w : Z) (n : nat) (bits : Z) : list Z :=
  map (fun i => Z.land (Z.shiftr bits (w * Z.of_nat i)) (Z.ones w)) (rev (seq 0 n)).

Lemma parts_of_octets bits : parts_of 8 4 bits = octets4 bits.
Proof. done. Qed.

Lemma parts_of_segments bits : parts_of 16 8 bits = segments bits.
Proof. done. Qed.

Lemma segment_div bits i : 0 ≤ 112 - 16 * i → segment bits i = (bits / 2 ^ (112 - 16 * i)) mod 65536.
Proof.
  intros Hi. unfold segment. rewrite Z.shiftr_div_pow2 by done.
  by change 65535 with (Z.ones 16); rewrite Z.land_ones.
Qed.

Lemma octet_div bits i : 0 ≤ 24 - 8 * i → octet bits i = (bits / 2 ^ (24 - 8 * i)) mod 256.
Proof.
  intros Hi. unfold octet. rewrite Z.shiftr_div_pow2 by done.
  by change 255 with (Z.ones 8); rewrite Z.land_ones.
Qed.

Lemma segments_div bits :
  segments bits = map (fun d => (bits / 2 ^ d) mod 65536) [112; 96; 80; 64; 48; 32; 16; 0].
Proof. unfold segments. simpl map. by rewrite !segment_div by lia. Qed.

Lemma octets_div bits : octets4 bits = map (fun d => (bits / 2 ^ d) mod 256) [24; 16; 8; 0].
Proof. unfold octets4. simpl map. by rewrite !octet_div by lia. Qed.

Lemma parts_of_S w n bits :
  parts_of w (S n) bits = Z.land (Z.shiftr bits (w * Z.of_nat n)) (Z.ones w) :: parts_of w n bits.
Proof. unfold parts_of. rewrite seq_S, rev_app_distr. done. Qed.

Lemma of_parts_from w n bits acc :
  0 < w →
  foldl (fun acc p => acc * 2 ^ w + p) acc (parts_of w n bits) =
    acc * 2 ^ (w * Z.of_nat n) + bits mod 2 ^ (w * Z.of_nat n).
Proof.
  intros Hw. revert acc. induction n as [|n IH]; intros acc.
  { simpl. rewrite Z.mul_0_r, Z.mod_1_r. lia. }
  rewrite parts_of_S. cbn [foldl]. rewrite IH, Z.land_ones, Z.shiftr_div_pow2 by lia.
  rewrite Nat2Z.inj_succ, Z.mul_succ_r, Z.pow_add_r by lia.
  rewrite Z.rem_mul_r by (apply Z.pow_nonzero || apply Z.pow_pos_nonneg; lia). lia.
Qed.

Lemma of_octets_octets4 bits : in_u u32_max bits → of_octets (octets4 bits) = bits.
Proof.
  intros Hb. rewrite <-parts_of_octets. unfold of_octets, of_parts. rewrite of_parts_from by done.
  apply Z.mod_small. unfold in_u, u32_max in Hb. simpl. lia.
Qed.

Lemma of_segments_segments bits : in_u u128_max bits → of_segments (segments bits) = bits.
Proof.
  intros Hb. rewrite <-parts_of_segments. unfold of_segments, of_parts.
  rewrite of_parts_from by done. apply Z.mod_small. unfold in_u, u128_max in Hb. simpl. lia.
Qed.

(** ** Numbers *)

(** The text after a number does not continue it. *)
Definition stops (radix : Z) (rest : str) : Prop :=
  match rest with c :: _ => to_digit radix c = None | [] => True end.

Lemma read_digits_app radix s ds rest :
  read_digits radix s = (ds, []) → stops radix rest → read_digits radix (s ++ rest) = (ds, rest).
Proof.
  intros Hs Hr. revert ds Hs. induction s as [|c s IH]; intros ds; simpl.
  - intros [= <-]. destruct rest as [|c rest]; simpl; [done|]. simpl in Hr. by rewrite Hr.
  - destruct (to_digit radix c) as [d|]; [|done].
    destruct (read_digits radix s) as [ds' r']. intros [= <- ->]. by rewrite (IH ds' eq_refl).
Qed.

Lemma read_digits_split radix s ds r :
  read_digits radix s = (ds, r) →
  ∃ p, s = p ++ r ∧ Forall (fun c => is_Some (to_digit radix c)) p ∧ length p = length ds.
Proof.
  revert ds. induction s as [|c s IH]; intros ds; simpl.
  - intros [= <- <-]. by exists [].
  - destruct (to_digit radix c) as [d|] eqn:Hd.
    + destruct (read_digits radix s) as [ds' r'] eqn:Hs. intros [= <- ->].
      destruct (IH ds' eq_refl) as (p & -> & Hp & Hl). exists (c :: p).
      split_and!; [done|by constructor; [eexists|]|simpl; lia].
    + intros [= <- <-]. by exists [].
Qed.

Lemma read_number_app mx radix md az s v rest :
  read_number mx radix md az s = Some (v, []) → stops radix rest →
  read_number mx radix md az (s ++ rest) = Some (v, rest).
Proof.
  unfold read_number. intros Hs Hr. destruct (read_digits radix s) as [ds r] eqn:Hd.
  assert (r = []) as -> by (repeat case_match; congruence).
  rewrite (read_digits_app _ _ _ _ Hd Hr). repeat case_match; congruence.
Qed.

Lemma read_number_split mx radix md az s v r :
  read_number mx radix md az s = Some (v, r) →
  ∃ p, s = p ++ r ∧ Forall (fun c => is_Some (to_digit radix c)) p ∧ p ≠ [].
Proof.
  unfold read_number. destruct (read_digits radix s) as [ds r'] eqn:Hd.
  destruct (read_digits_split _ _ _ _ Hd) as (p & -> & Hp & Hl). intros Hv.
  exists p. assert (r' = r) as -> by (repeat case_match; congruence). split_and!; [done|done|].
  intros ->. destruct ds; [|done]. simpl in Hv. by repeat case_match.
Qed.

Lemma read_octet o rest :
  0 ≤ o < 256 → stops 10 rest →
  read_number u8_max 10 (Some 3%nat) false (to_dec o ++ rest) = Some (o, rest).
Proof.
  intros Ho Hr. apply read_number_app; [|done].
  assert (forallb (fun n => bool_decide (read_number u8_max 10 (Some 3%nat) false (to_dec (Z.of_nat n))
    = Some (Z.of_nat n, []))) (seq 0 256) = true) as Hall by (vm_compute; reflexivity).
  rewrite forallb_forall in Hall. specialize (Hall (Z.to_nat o)). rewrite in_seq in Hall.
  rewrite Z2Nat.id in Hall by lia. eapply bool_decide_eq_true_1, Hall. lia.
Qed.

Lemma read_digits_all radix s :
  Forall (fun c => is_Some (to_digit radix c)) s →
  read_digits radix s = (map (fun c => default 0 (to_digit radix c)) s, []).
Proof.
  induction 1 as [|c s [d Hd] Hs IH]; simpl; [done|]. by rewrite Hd, IH.
Qed.

Lemma digits_dec s acc :
  Forall (fun c => to_digit 10 c = Some (c - 48)) s →
  foldl (fun a d => a * 10 + d) acc (map (fun c => default 0 (to_digit 10 c)) s) = dec_value s acc.
Proof.
  intros Hs. revert acc. unfold dec_value.
  induction Hs as [|c s Hc Hs IH]; intros acc; simpl; [done|]. by rewrite Hc, IH.
Qed.

Lemma read_decimal mx n rest :
  0 ≤ n ≤ mx → stops 10 rest →
  read_number mx 10 None true (to_dec n ++ rest) = Some (n, rest).
Proof.
  intros Hn Hr. apply read_number_app; [|done]. pose proof (to_dec_decimal n ltac:(lia)) as Hd.
  assert (Forall (fun c => to_digit 10 c = Some (c - 48)) (to_dec n)) as Hds
    by (apply (Forall_impl _ _ _ Hd); intros c; apply to_digit_10).
  unfold read_number. rewrite read_digits_all by (apply (Forall_impl _ _ _ Hds); intros c ->; eauto).
  rewrite length_map. destruct (length (to_dec n)) eqn:Hl;
    [by apply nil_length_inv, to_dec_nonempty in Hl|]. cbn [Nat.eqb negb andb].
  assert (digits_value 10 (map (fun c => default 0 (to_digit 10 c)) (to_dec n)) = n) as ->.
  { rewrite <-(to_dec_value n) at 2 by lia. unfold digits_value. by apply digits_dec. }
  destruct (Z.leb_spec n mx); [done|lia].
Qed.

(** Hexadecimal groups. *)
Lemma to_digit_hex d : 0 ≤ d < 16 → to_digit 16 (hex_digit d) = Some d.
Proof.
  intros Hd. assert (forallb (fun n => bool_decide (to_digit 16 (hex_digit (Z.of_nat n)) =
    Some (Z.of_nat n))) (seq 0 16) = true) as Hall by reflexivity.
  rewrite forallb_forall in Hall. specialize (Hall (Z.to_nat d)). rewrite in_seq in Hall.
  rewrite Z2Nat.id in Hall by lia. eapply bool_decide_eq_true_1, Hall. lia.
Qed.

Lemma read_digits_hex ds :
  Forall (fun d => 0 ≤ d < 16) ds → read_digits 16 (map hex_digit ds) = (ds, []).
Proof. induction 1 as [|d ds Hd Hds IH]; simpl; [done|]. by rewrite to_digit_hex, IH. Qed.

Lemma trim_zeros_value ds :
  digits_value 16 (trim_start_by (Z.eqb 0) ds) = digits_value 16 ds.
Proof.
  unfold digits_value. induction ds as [|d ds IH]; [done|]. cbn [trim_start_by].
  destruct (Z.eqb_spec 0 d) as [<-|]; [done|done].
Qed.

Lemma trim_start_suffix p ds : ∃ l, ds = l ++ trim_start_by p ds.
Proof.
  induction ds as [|d ds [l IH]]; [by exists []|]. cbn [trim_start_by].
  destruct (p d); [|by exists []]. exists (d :: l). simpl. by f_equal.
Qed.

Lemma to_hex16_digits h :
  0 ≤ h < 65536 →
  ∃ ds, to_hex16 h = map hex_digit ds ∧ Forall (fun d => 0 ≤ d < 16) ds ∧
    (1 ≤ length ds ≤ 4)%nat ∧ digits_value 16 ds = h.
Proof.
  intros Hh. unfold to_hex16.
  set (ds := [h / 4096; (h / 256) mod 16; (h / 16) mod 16; h mod 16]).
  assert (digits_value 16 ds = h) as Hv
    by (unfold digits_value, ds; cbn [foldl]; Z.div_mod_to_equations; lia).
  assert (Forall (fun d => 0 ≤ d < 16) ds) as Hds
    by (unfold ds; repeat constructor; Z.div_mod_to_equations; lia).
  assert (length ds = 4%nat) as Hlen by done. clearbody ds.
  pose proof (trim_zeros_value ds) as Ht. destruct (trim_start_suffix (Z.eqb 0) ds) as [l Hl].
  destruct (trim_start_by (Z.eqb 0) ds) as [|d ds'].
  { exists [0]. split_and!; [done|by repeat constructor|simpl; lia..|]. by rewrite <-Hv, <-Ht. }
  rewrite Hl in Hds, Hlen. rewrite length_app in Hlen. apply Forall_app in Hds as [_ Hds].
  exists (d :: ds'). split_and!; [done|done|simpl; lia|simpl in *; lia|]. by rewrite Ht.
Qed.

Lemma read_hextet h rest :
  0 ≤ h < 65536 → stops 16 rest →
  read_number u16_max 16 (Some 4%nat) true (to_hex16 h ++ rest) = Some (h, rest).
Proof.
  intros Hh Hr. apply read_number_app; [|done].
  destruct (to_hex16_digits h Hh) as (ds & -> & Hds & Hl & Hv).
  unfold read_number. rewrite read_digits_hex, Hv by done.
  destruct (Nat.ltb_spec 4 (length ds)); [lia|]. destruct (Nat.eqb_spec (length ds) 0); [lia|].
  cbn [negb andb]. destruct (Z.leb_spec h u16_max) as [_|Hc]; [done|]. unfold u16_max in Hc. lia.
Qed.

(** ** IPv4 *)

Lemma octet_bounds bits i : 0 ≤ octet bits i < 256.
Proof.
  unfold octet. change 255 with (Z.ones 8). rewrite Z.land_ones by done. by apply Z.mod_pos_bound.
Qed.

Lemma segment_bounds bits i : 0 ≤ segment bits i < 65536.
Proof.
  unfold segment. change 65535 with (Z.ones 16). rewrite Z.land_ones by done. by apply Z.mod_pos_bound.
Qed.

Lemma read_octets_text a b c d rest :
  0 ≤ a < 256 → 0 ≤ b < 256 → 0 ≤ c < 256 → 0 ≤ d < 256 → stops 10 rest →
  read_octets 4 0 (join [46] (map to_dec [a; b; c; d]) ++ rest) = Some ([a; b; c; d], rest).
Proof.
  intros Ha Hb Hc Hd Hr. cbn [map join]. rewrite <-!app_assoc. cbn [app read_octets read_separator].
  repeat (rewrite read_octet by done; cbn [read_given_char app]; rewrite ?Z.eqb_refl).
  done.
Qed.

Lemma read_ipv4_text bits rest :
  in_u u32_max bits → stops 10 rest →
  read_ipv4_addr (ipv4_to_string bits ++ rest) = Some (bits, rest).
Proof.
  intros Hb Hr. unfold read_ipv4_addr, ipv4_to_string, octets4. cbn [map].
  pose proof (octet_bounds bits) as Ho. pose proof (read_octets_text _ _ _ _ rest
    (Ho 0) (Ho 1) (Ho 2) (Ho 3) Hr) as Hread. cbn [map] in Hread. rewrite Hread.
  pose proof (of_octets_octets4 bits Hb) as He. unfold octets4 in He. cbn [map] in He. by rewrite He.
Qed.

(** Reading an IPv4 address consumes digits and dots only. *)
Lemma read_octets_split n i s os r :
  read_octets n i s = Some (os, r) →
  ∃ p, s = p ++ r ∧ Forall (fun c => c = 46 ∨ is_Some (to_digit 10 c)) p.
Proof.
  revert i s os. induction n as [|n IH]; intros i s os; cbn [read_octets].
  { intros [= <- <-]. by exists []. }
  destruct (read_separator 46 i _ s) as [[o s']|] eqn:Ho; [|done].
  destruct (read_octets n (S i) s') as [[os' s'']|] eqn:Hs; [|done]. intros [= <- <-].
  destruct (IH _ _ _ Hs) as (p & -> & Hp).
  assert (∃ q, s = q ++ p ++ s'' ∧ Forall (fun c => c = 46 ∨ is_Some (to_digit 10 c)) q)
    as (q & -> & Hq).
  { unfold read_separator in Ho. destruct i as [|i].
    - destruct (read_number_split _ _ _ _ _ _ _ Ho) as (q & -> & Hq & _). exists q.
      split; [done|]. apply (Forall_impl _ _ _ Hq). auto.
    - destruct s as [|c s]; [done|]. simpl in Ho. destruct (Z.eqb_spec c 46) as [->|]; [|done].
      destruct (read_number_split _ _ _ _ _ _ _ Ho) as (q & -> & Hq & _). exists (46 :: q).
      split; [done|]. constructor; [by left|]. apply (Forall_impl _ _ _ Hq). auto. }
  exists (q ++ p). rewrite app_assoc. split; [done|by apply Forall_app].
Qed.

Lemma read_ipv4_no_dot s : 46 ∉ s → read_ipv4_addr s = None.
Proof.
  intros Hs. unfold read_ipv4_addr. cbn [read_octets read_separator].
  destruct (read_number _ _ _ _ s) as [[o s']|] eqn:Ho; [|done].
  destruct (read_number_split _ _ _ _ _ _ _ Ho) as (p & -> & _ & _).
  destruct s' as [|c s']; [done|]. cbn [read_given_char].
  destruct (Z.eqb_spec c 46) as [->|]; [|done]. set_solver.
Qed.

(** A successful read leaves every other character in the remainder. *)
Lemma read_ipv4_keeps s bits r c :
  read_ipv4_addr s = Some (bits, r) → c ≠ 46 → to_digit 10 c = None → c ∈ s → c ∈ r.
Proof.
  unfold read_ipv4_addr. destruct (read_octets 4 0 s) as [[os r']|] eqn:Ho; [|done].
  intros [= _ ->] Hc Hd Hin. destruct (read_octets_split _ _ _ _ _ Ho) as (p & -> & Hp).
  apply elem_of_app in Hin as [Hin|Hin]; [|done]. rewrite Forall_forall in Hp.
  destruct (Hp c Hin) as [?|[d Hd']]; congruence.
Qed.

(** ** IPv6 *)

Definition hexgroups (gs : list Z) : str := join [58] (map to_hex16 gs).

(** The groups after the first, each with its separator. *)
Definition more_groups (gs : list Z) : str := flat_map (fun g => 58 :: to_hex16 g) gs.

Lemma hexgroups_cons g gs : hexgroups (g :: gs) = to_hex16 g ++ more_groups gs.
Proof.
  unfold hexgroups, more_groups. revert g. induction gs as [|g' gs IH]; intros g.
  { simpl. by rewrite app_nil_r. }
  cbn [map flat_map]. specialize (IH g'). cbn [map] in IH. cbn [join] in *. rewrite IH. done.
Qed.

(** What may follow a list of groups: no digit, and no further group. *)
Definition group_end (rest : str) : Prop :=
  match rest with
  | [] => True
  | c :: rest' => to_digit 16 c = None ∧ (c = 58 → stops 16 rest' ∧ rest' ≠ [] )
  end.

Lemma stops_number mx radix md az rest :
  stops radix rest → read_number mx radix md az rest = None.
Proof.
  intros Hr. unfold read_number.
  assert (read_digits radix rest = ([], rest)) as ->.
  { destruct rest as [|c rest]; [done|]. simpl in *. by rewrite Hr. }
  simpl. by destruct md.
Qed.

Lemma group_end_stops rest : group_end rest → stops 16 rest.
Proof. destruct rest; [done|]. by intros [? _]. Qed.

Lemma more_groups_stops gs rest : group_end rest → stops 16 (more_groups gs ++ rest).
Proof. intros Hr. destruct gs; [by apply group_end_stops|done]. Qed.

Lemma read_groups_stop left i rest :
  group_end rest → 46 ∉ rest → (i ≠ 0)%nat → read_groups left i rest = ([], false, rest).
Proof.
  intros Hr Hdot Hi. destruct left as [|left]; [done|]. destruct i as [|i]; [done|].
  cbn [read_groups read_separator]. destruct rest as [|c rest]; cbn [read_given_char].
  { by destruct (_ <? _)%nat. }
  destruct Hr as [_ Hr]. destruct (Z.eqb_spec c 58) as [->|]; [|by destruct (_ <? _)%nat].
  destruct (Hr eq_refl) as [Hs _]. rewrite (stops_number _ _ _ _ _ Hs), read_ipv4_no_dot by set_solver.
  by destruct (_ <? _)%nat.
Qed.

Lemma to_hex16_no_dot g : 0 ≤ g < 65536 → 46 ∉ to_hex16 g.
Proof.
  intros Hg Hin. pose proof (read_hextet g [] Hg I) as Hr. rewrite app_nil_r in Hr.
  destruct (read_number_split _ _ _ _ _ _ _ Hr) as (p & Hp & Hd & _). rewrite app_nil_r in Hp.
  subst p. rewrite Forall_forall in Hd. destruct (Hd _ Hin) as [d Hd']. discriminate.
Qed.

Lemma more_groups_no_dot gs : Forall (fun g => 0 ≤ g < 65536) gs → 46 ∉ more_groups gs.
Proof.
  induction 1 as [|g gs Hg Hgs IH]; simpl; [set_solver|].
  pose proof (to_hex16_no_dot g Hg). set_solver.
Qed.

Lemma read_more_groups gs left i rest :
  Forall (fun g => 0 ≤ g < 65536) gs → (length gs ≤ left)%nat → (i ≠ 0)%nat →
  group_end rest ∨ length gs = left → stops 16 rest → 46 ∉ rest →
  read_groups left i (more_groups gs ++ rest) = (gs, false, rest).
Proof.
  intros Hgs. revert left i. induction Hgs as [|g gs Hg Hgs IH]; intros left i Hl Hi Hend Hst Hdot.
  { destruct Hend as [Hend|Hend]; [by apply read_groups_stop|]. simpl in Hend. by subst. }
  destruct left as [|left]; simpl in Hl; [lia|]. destruct i as [|i]; [done|].
  cbn [read_groups read_separator more_groups flat_map app read_given_char]. rewrite Z.eqb_refl.
  rewrite <-app_assoc. fold (more_groups gs).
  assert (46 ∉ to_hex16 g ++ more_groups gs ++ rest) as Hnd.
  { pose proof (to_hex16_no_dot g Hg). pose proof (more_groups_no_dot gs Hgs). set_solver. }
  rewrite (read_ipv4_no_dot _ Hnd), read_hextet; [|done|].
  - rewrite IH; [|lia|done| |done|done]; [by destruct (_ <? _)%nat|].
    destruct Hend as [|Hend]; [by left|right]. simpl in Hend. lia.
  - destruct gs; [done|]. done.
Qed.

Lemma read_hexgroups gs left rest :
  Forall (fun g => 0 ≤ g < 65536) gs → (length gs ≤ left)%nat →
  group_end rest → 46 ∉ rest →
  read_groups left 0 (hexgroups gs ++ rest) = (gs, false, rest).
Proof.
  intros Hgs Hl Hend Hdot. pose proof (group_end_stops _ Hend) as Hst.
  destruct Hgs as [|g gs Hg Hgs].
  - destruct left as [|left]; [done|]. cbn [hexgroups map join app read_groups read_separator].
    rewrite read_ipv4_no_dot, stops_number by done. by destruct (_ <? _)%nat.
  - destruct left as [|left]; simpl in Hl; [lia|]. rewrite hexgroups_cons, <-app_assoc.
    cbn [read_groups read_separator].
    assert (46 ∉ to_hex16 g ++ more_groups gs ++ rest) as Hnd.
    { pose proof (to_hex16_no_dot g Hg). pose proof (more_groups_no_dot gs Hgs). set_solver. }
    rewrite (read_ipv4_no_dot _ Hnd), read_hextet by (done || by apply more_groups_stops).
    rewrite read_more_groups by (done || lia || by left). by destruct (_ <? _)%nat.
Qed.

(** The run of zeros found lies within the segments. *)
Definition zero_run (segs : list Z) (r : nat * nat) : Prop :=
  (r.1 + r.2 ≤ length segs)%nat ∧ ∀ k, (r.1 ≤ k < r.1 + r.2)%nat → segs !! k = Some 0.

Lemma longest_zeros_run pre l cur best :
  zero_run (pre ++ l) cur → (cur.2 ≠ 0 → cur.1 + cur.2 = length pre)%nat →
  zero_run (pre ++ l) best →
  zero_run (pre ++ l) (longest_zeros (length pre) l cur best).
Proof.
  revert pre cur best. induction l as [|x l IH]; intros pre cur best Hc Hi Hb; simpl; [done|].
  replace (S (length pre)) with (length (pre ++ [x])) by (rewrite length_app; simpl; lia).
  replace (pre ++ x :: l) with ((pre ++ [x]) ++ l) in * by by rewrite <-app_assoc.
  destruct (Z.eqb_spec x 0) as [->|Hx].
  - set (cur' := ((if (cur.2 =? 0)%nat then length pre else cur.1), S cur.2)).
    assert (zero_run ((pre ++ [0]) ++ l) cur' ∧ (cur'.1 + cur'.2)%nat = length (pre ++ [0]))
      as [Hc' Hi'].
    { unfold cur'. destruct Hc as [Hc1 Hc2]. rewrite length_app in *. simpl in *.
      assert (((pre ++ [0]) ++ l) !! length pre = Some 0) as H0
        by (rewrite <-app_assoc; by apply list_lookup_middle).
      destruct (Nat.eqb_spec cur.2 0) as [Hz|Hz].
      - split; [split; simpl; [rewrite !length_app; simpl; lia|]|lia]. intros k Hk.
        assert (k = length pre) as -> by lia. done.
      - specialize (Hi Hz). split; [split; simpl; [rewrite !length_app; simpl; lia|]|lia].
        intros k Hk. destruct (decide (k = length pre)) as [->|Hne]; [done|]. apply Hc2. lia. }
    apply IH; [done|done|]. by destruct (_ <? _)%nat.
  - apply IH; simpl; [split; simpl; [lia|intros; lia]|done|done].
Qed.

Lemma longest_zeros_split segs start len :
  longest_zeros 0 segs (0%nat, 0%nat) (0%nat, 0%nat) = (start, len) →
  (start + len ≤ length segs)%nat ∧
  segs = take start segs ++ replicate len 0 ++ drop (start + len) segs.
Proof.
  intros Hz. assert (zero_run segs (start, len)) as [Hl Hk].
  { rewrite <-Hz. apply (longest_zeros_run [] segs); try done; split; simpl; try lia; intros; lia. }
  simpl in *. split; [done|]. rewrite <-drop_drop. rewrite <-(take_drop start segs) at 1. f_equal.
  rewrite <-(take_drop len (drop start segs)) at 1. f_equal.
  apply list_eq. intros k. destruct (decide (k < len)%nat) as [Hlt|Hge].
  - rewrite lookup_take_lt, lookup_drop, lookup_replicate_2 by done. apply Hk. lia.
  - rewrite lookup_take_ge by lia. symmetry. apply lookup_ge_None_2. rewrite length_replicate. lia.
Qed.

(** The characters that may follow a printed address. *)
Definition closes (rest : str) : Prop :=
  match rest with c :: _ => c = 93 ∨ c = 37 | [] => True end.

Lemma closes_end rest : closes rest → group_end rest.
Proof. destruct rest as [|c rest]; [done|]. by intros [-> | ->]. Qed.

Lemma closes_stops rest : closes rest → stops 10 rest.
Proof. destruct rest as [|c rest]; [done|]. by intros [-> | ->]. Qed.

Lemma segments_bounds bits : Forall (fun g => 0 ≤ g < 65536) (segments bits).
Proof. unfold segments. apply Forall_fmap, Forall_true. intros i. apply segment_bounds. Qed.

(** [::ffff:a.b.c.d]. *)
Definition mapped (v4 : Z) : Z := 0xffff * 2 ^ 32 + v4.

Lemma mapped_segments_eq v4 :
  in_u u32_max v4 → segments (mapped v4) = [0; 0; 0; 0; 0; 65535; v4 / 65536; v4 mod 65536].
Proof.
  intros Hv. unfold in_u, u32_max in Hv. rewrite segments_div. unfold mapped. simpl map.
  assert (∀ d, 2 ^ 48 ≤ d → (65535 * 2 ^ 32 + v4) / d = 0) as Hhi
    by (intros d Hd; apply Z.div_small; lia).
  rewrite !Hhi by done. rewrite Z.div_add_l, (Z.div_small v4 (2 ^ 32)), Z.div_1_r by lia.
  replace (65535 * 2 ^ 32 + v4) with (v4 + (65535 * 65536) * 65536) by lia.
  rewrite Z.mod_add, (Z.div_add v4), Z.mod_add by done.
  rewrite (Z.mod_small (v4 / 65536)); [done|]. split; [apply Z.div_pos; lia|].
  apply Z.div_lt_upper_bound; lia.
Qed.

Lemma to_ipv4_mapped_intro bits x y :
  segments bits = [0; 0; 0; 0; 0; 65535; x; y] →
  to_ipv4_mapped bits = Some (Z.land bits (2 ^ 32 - 1)).
Proof. intros Hs. unfold to_ipv4_mapped. rewrite Hs. reflexivity. Qed.

Lemma to_ipv4_mapped_mapped v4 : in_u u32_max v4 → to_ipv4_mapped (mapped v4) = Some v4.
Proof.
  intros Hv. rewrite (to_ipv4_mapped_intro _ _ _ (mapped_segments_eq v4 Hv)).
  apply (f_equal Some). change (2 ^ 32 - 1) with (Z.ones 32). rewrite Z.land_ones by done.
  unfold mapped. rewrite Z.add_comm, Z.mod_add by done. apply Z.mod_small.
  unfold in_u, u32_max in Hv. lia.
Qed.

Lemma to_ipv4_mapped_Some bits v4 :
  in_u u128_max bits → to_ipv4_mapped bits = Some v4 → bits = mapped v4 ∧ in_u u32_max v4.
Proof.
  intros Hb. unfold to_ipv4_mapped. case_bool_decide as Hs; [|done]. intros [= <-].
  change (2 ^ 32 - 1) with (Z.ones 32). rewrite Z.land_ones by done.
  pose proof (of_segments_segments bits Hb) as Hbits. pose proof (segments_bounds bits) as Hsb.
  rewrite <-(take_drop 6 (segments bits)), Hs in Hbits, Hsb.
  assert (length (drop 6 (segments bits)) = 2%nat) as Hl by done.
  destruct (drop 6 (segments bits)) as [|x [|y [|]]]; try done.
  apply Forall_app in Hsb as [_ Hsb]. inversion_clear Hsb as [|? ? Hx Hsb'].
  inversion_clear Hsb' as [|? ? Hy _].
  cbn [app of_segments of_parts foldl] in Hbits. change (2 ^ 16) with 65536 in Hbits.
  assert (bits = x * 65536 + y + 65535 * 2 ^ 32) as -> by lia.
  rewrite Z.mod_add, Z.mod_small by lia. unfold mapped, in_u, u32_max. lia.
Qed.

Lemma read_groups_none left rest :
  stops 16 rest → stops 10 rest → read_groups left 0 rest = ([], false, rest).
Proof.
  intros H16 H10. destruct left as [|left]; [done|]. cbn [read_groups read_separator].
  unfold read_ipv4_addr. cbn [read_octets read_separator]. rewrite !stops_number by done.
  by destruct (_ <? _)%nat.
Qed.

Lemma read_mapped_text v4 rest :
  in_u u32_max v4 → stops 10 rest →
  read_ipv6_addr (lit "::ffff:" ++ ipv4_to_string v4 ++ rest) = Some (mapped v4, rest).
Proof.
  intros Hv Hr. set (t := lit "ffff" ++ 58 :: ipv4_to_string v4 ++ rest).
  change (lit "::ffff:" ++ ipv4_to_string v4 ++ rest) with (58 :: 58 :: t).
  assert (read_groups 7 0 t = ([65535; Z.shiftr v4 16; Z.land v4 65535], true, rest)) as Ht.
  { subst t. cbn [read_groups read_separator].
    unfold read_ipv4_addr at 1. cbn [read_octets read_separator]. rewrite stops_number by done.
    rewrite (read_number_app u16_max 16 (Some 4%nat) true (lit "ffff") 65535) by done.
    cbn [Nat.ltb Nat.leb read_given_char]. rewrite Z.eqb_refl.
    by rewrite read_ipv4_text by done. }
  clearbody t. unfold read_ipv6_addr. rewrite read_groups_none by done.
  cbn [length Nat.eqb read_given_char]. rewrite Z.eqb_refl. cbn [read_given_char].
  rewrite Z.eqb_refl. change (8 - (0 + 1))%nat with 7%nat. rewrite Ht.
  do 2 f_equal. cbn. rewrite Z.shiftr_div_pow2 by done. change 65535 with (Z.ones 16) at 2.
  rewrite Z.land_ones by done. unfold mapped. change (2 ^ 16) with 65536.
  Z.div_mod_to_equations. lia.
Qed.

Lemma read_ipv6_text bits rest :
  in_u u128_max bits → closes rest → 46 ∉ rest →
  read_ipv6_addr (ipv6_to_string bits ++ rest) = Some (bits, rest).
Proof.
  intros Hb Hr Hdot. unfold ipv6_to_string. destruct (to_ipv4_mapped bits) as [v4|] eqn:Hm.
  { destruct (to_ipv4_mapped_Some _ _ Hb Hm) as [-> Hv]. rewrite <-app_assoc.
    apply read_mapped_text; [done|by apply closes_stops]. }
  clear Hm. pose proof (of_segments_segments bits Hb) as Hbits. pose proof (segments_bounds bits) as Hs.
  assert (length (segments bits) = 8%nat) as H8 by done.
  destruct (longest_zeros 0 (segments bits) _ _) as [start len] eqn:Hz.
  apply longest_zeros_split in Hz as [Hle Hsplit]. rewrite H8 in Hle.
  destruct (Nat.ltb_spec 1 len) as [Hlen|_].
  - fold (hexgroups (take start (segments bits))) (hexgroups (drop (start + len) (segments bits))).
    set (hd := take start (segments bits)) in *. set (tl := drop (start + len) (segments bits)) in *.
    assert (length hd = start) as Hhd by (unfold hd; rewrite length_take; lia).
    assert (length tl = 8 - (start + len))%nat as Htl by (unfold tl; rewrite length_drop; lia).
    rewrite Hsplit in Hs. apply Forall_app in Hs as [Hs1 Hs2]. apply Forall_app in Hs2 as [_ Hs2].
    rewrite <-!app_assoc. cbn [app]. unfold read_ipv6_addr.
    assert (46 ∉ hexgroups tl ++ rest) as Hnd.
    { destruct Hs2 as [|g gs Hg Hgs]; [done|]. rewrite hexgroups_cons.
      pose proof (to_hex16_no_dot g Hg). pose proof (more_groups_no_dot gs Hgs). set_solver. }
    rewrite read_hexgroups; [|done|lia|split; [done|intros _; done]|set_solver].
    destruct (Nat.eqb_spec (length hd) 8); [lia|]. do 2 (cbn [read_given_char]; rewrite Z.eqb_refl).
    rewrite read_hexgroups; [|done|lia|by apply closes_end|done].
    rewrite Hhd, Htl. replace (8 - start - (8 - (start + len)))%nat with len by lia.
    by rewrite <-Hsplit, Hbits.
  - fold (hexgroups (segments bits)). unfold read_ipv6_addr.
    rewrite read_hexgroups by (done || lia || by apply closes_end). rewrite H8. cbn [Nat.eqb].
    by rewrite Hbits.
Qed.

(** ** Addresses *)

Definition ip_ok (a : ip_addr) : Prop :=
  match a with V4 b => in_u u32_max b | V6 b => in_u u128_max b end.

Definition socket_ok (a : socket_addr) : Prop :=
  ip_ok (ip a) ∧ 0 ≤ port a ≤ u16_max ∧
  match a with SockV4 _ _ => True | SockV6 _ _ flow scope => flow = 0 ∧ 0 ≤ scope ≤ u32_max end.

Lemma hexgroups_no_dot gs : Forall (fun g => 0 ≤ g < 65536) gs → 46 ∉ hexgroups gs.
Proof.
  intros [|g gs' Hg Hgs]; [set_solver|]. rewrite hexgroups_cons.
  pose proof (to_hex16_no_dot g Hg). pose proof (more_groups_no_dot gs' Hgs). set_solver.
Qed.

Lemma stops_ipv4 s : stops 10 s → read_ipv4_addr s = None.
Proof.
  intros Hs. unfold read_ipv4_addr. cbn [read_octets read_separator]. by rewrite stops_number.
Qed.

Lemma ipv6_text_not_v4 bits rest :
  46 ∉ rest → read_ipv4_addr (ipv6_to_string bits ++ rest) = None.
Proof.
  intros Hr. unfold ipv6_to_string. destruct (to_ipv4_mapped bits) as [v4|].
  { rewrite <-app_assoc. by apply stops_ipv4. }
  apply read_ipv4_no_dot. pose proof (segments_bounds bits) as Hs.
  destruct (longest_zeros 0 (segments bits) _ _) as [start len]. destruct (_ <? _)%nat.
  - fold (hexgroups (take start (segments bits))) (hexgroups (drop (start + len) (segments bits))).
    rewrite !elem_of_app. intros [[?|[?|?]]|?]; [|set_solver| |done].
    + eapply hexgroups_no_dot; [|done]. by apply Forall_take.
    + eapply hexgroups_no_dot; [|done]. by apply Forall_drop.
  - fold (hexgroups (segments bits)). rewrite elem_of_app.
    intros [?|?]; [|done]. by eapply hexgroups_no_dot.
Qed.

Lemma ip_text_round_trip a : ip_ok a → ip_from_str (ip_to_string a) = Some a.
Proof.
  intros Ha. unfold ip_from_str, parse_all, read_ip_addr. destruct a as [b|b]; cbn [ip_ok ip_to_string] in *.
  - pose proof (read_ipv4_text b [] Ha I) as Hr. rewrite app_nil_r in Hr. by rewrite Hr.
  - assert (46 ∉ ([] : str)) as Hd by set_solver.
    pose proof (ipv6_text_not_v4 b [] Hd) as H4. pose proof (read_ipv6_text b [] Ha I Hd) as Hr.
    rewrite app_nil_r in H4, Hr. by rewrite H4, Hr.
Qed.

Lemma to_dec_no_dot n : 0 ≤ n → 46 ∉ to_dec n.
Proof.
  intros Hn Hin. pose proof (to_dec_decimal n Hn) as Hd. unfold decimal in Hd.
  rewrite Forall_forall in Hd. specialize (Hd 46 Hin). discriminate.
Qed.

Lemma read_port_text p : 0 ≤ p ≤ u16_max → read_port (58 :: to_dec p) = Some (p, []).
Proof.
  intros Hp. unfold read_port. cbn [read_given_char]. rewrite Z.eqb_refl.
  pose proof (read_decimal u16_max p [] Hp I) as Hr. by rewrite app_nil_r in Hr.
Qed.

Lemma read_v6_socket i p scope tail :
  in_u u128_max i → 0 ≤ p ≤ u16_max → closes tail → 46 ∉ tail →
  default (0, tail) (read_scope_id tail) = (scope, 93 :: 58 :: to_dec p) →
  read_socket_addr_v6 (91 :: ipv6_to_string i ++ tail) = Some (SockV6 i p 0 scope, []).
Proof.
  intros Hi Hp Hc Hd Hs. unfold read_socket_addr_v6. cbn [read_given_char]. rewrite Z.eqb_refl.
  rewrite read_ipv6_text by done. rewrite Hs. cbn [read_given_char]. rewrite Z.eqb_refl.
  by rewrite read_port_text.
Qed.

Lemma socket_text_round_trip a : socket_ok a → socket_from_str (socket_to_string a) = Some a.
Proof.
  intros (Hip & Hp & Hs). unfold socket_from_str, parse_all, read_socket_addr.
  destruct a as [i p|i p flow scope]; cbn [ip port ip_ok socket_to_string] in *.
  - unfold read_socket_addr_v4. rewrite read_ipv4_text by done. cbn [app]. by rewrite read_port_text.
  - destruct Hs as [-> Hs].
    assert (∀ s, read_socket_addr_v4 (91 :: s) = None) as H4
      by (intros s; unfold read_socket_addr_v4; by rewrite stops_ipv4).
    pose proof (to_dec_no_dot p ltac:(lia)) as Hnp. pose proof (to_dec_no_dot scope ltac:(lia)) as Hns.
    destruct (Z.eqb_spec scope 0) as [->|Hz]; cbn [app]; rewrite H4.
    + rewrite (read_v6_socket i p 0); [done|done|done|by left| |done].
      by rewrite !not_elem_of_cons.
    + rewrite (read_v6_socket i p scope); [done|done|done|by right| |].
      * rewrite not_elem_of_cons, not_elem_of_app, !not_elem_of_cons. done.
      * unfold read_scope_id. cbn [read_given_char]. rewrite Z.eqb_refl.
        by rewrite read_decimal by done.
Qed.

(** ** What a reader leaves

    A character that no address uses stays in the remainder, so a text with
    one is never an address. *)

Definition foreign (c : Z) : Prop := c ≠ 46 ∧ c ≠ 58 ∧ to_digit 16 c = None.

Lemma to_digit_10_16 c : to_digit 16 c = None → to_digit 10 c = None.
Proof. unfold to_digit. repeat case_match; boolprop; try done; try lia. Qed.

Lemma read_number_keeps mx radix md az s v r c :
  to_digit radix c = None → read_number mx radix md az s = Some (v, r) → c ∈ s → c ∈ r.
Proof.
  intros Hc Hr Hin. destruct (read_number_split _ _ _ _ _ _ _ Hr) as (p & -> & Hp & _).
  apply elem_of_app in Hin as [Hin|]; [|done]. rewrite Forall_forall in Hp.
  destruct (Hp c Hin). congruence.
Qed.

Lemma separator_keeps {A} (inner : parser A) i s a r c :
  (∀ s a r, inner s = Some (a, r) → c ∈ s → c ∈ r) → c ≠ 58 →
  read_separator 58 i inner s = Some (a, r) → c ∈ s → c ∈ r.
Proof.
  intros Hinner Hc. destruct i; simpl; [apply Hinner|]. destruct s as [|x s]; [done|]. simpl.
  destruct (Z.eqb_spec x 58) as [->|]; [|done]. intros Hr Hin. eapply Hinner; [done|].
  by apply elem_of_cons in Hin as [?|].
Qed.

Lemma read_groups_keeps left i s gs b r c :
  foreign c → read_groups left i s = (gs, b, r) → c ∈ s → c ∈ r.
Proof.
  intros (H46 & H58 & H16). revert i s gs b. induction left as [|left IH]; intros i s gs b;
    cbn [read_groups]; [by intros [= _ _ <-]|].
  destruct (if (1 <? S left)%nat then read_separator 58 i read_ipv4_addr s else None)
    as [[v4 s']|] eqn:H4.
  - intros [= _ _ <-]. destruct (1 <? S left)%nat; [|done].
    eapply separator_keeps; [|done|exact H4]. intros ??? Hr.
    apply (read_ipv4_keeps _ _ _ _ Hr); [done|by apply to_digit_10_16].
  - clear H4. destruct (read_separator 58 i _ s) as [[g s']|] eqn:Hg; [|by intros [= _ _ <-]].
    destruct (read_groups left (S i) s') as [[gs' b'] r'] eqn:Hgs. intros [= _ _ <-] Hin.
    eapply IH; [exact Hgs|]. eapply separator_keeps; [|done|exact Hg|done].
    intros ??? Hr. by apply (read_number_keeps _ _ _ _ _ _ _ _ H16 Hr).
Qed.

Lemma read_ipv6_keeps s bits r c :
  foreign c → read_ipv6_addr s = Some (bits, r) → c ∈ s → c ∈ r.
Proof.
  intros Hc. unfold read_ipv6_addr. destruct (read_groups 8 0 s) as [[hd b4] s1] eqn:Hg.
  intros Hr Hin. pose proof (read_groups_keeps _ _ _ _ _ _ _ Hc Hg Hin) as H1.
  destruct (length hd =? 8)%nat; [by simplify_eq|]. destruct b4; [done|].
  destruct Hc as (H46 & H58 & H16).
  destruct s1 as [|x s1]; simpl in Hr; [done|]. destruct (Z.eqb_spec x 58) as [->|]; [|done].
  destruct s1 as [|y s1]; simpl in Hr; [done|]. destruct (Z.eqb_spec y 58) as [->|]; [|done].
  destruct (read_groups _ 0 s1) as [[tl b'] s2] eqn:Ht. simplify_eq.
  eapply read_groups_keeps; [done|exact Ht|]. set_solver.
Qed.

Lemma ip_from_str_foreign s c : foreign c → c ∈ s → ip_from_str s = None.
Proof.
  intros Hc Hin. unfold ip_from_str, parse_all, read_ip_addr.
  destruct (read_ipv4_addr s) as [[b [|x r]]|] eqn:H4; [|done|].
  - destruct Hc as (H46 & _ & H16). eapply read_ipv4_keeps in H4; [|done|by apply to_digit_10_16|done].
    by apply elem_of_nil in H4.
  - destruct (read_ipv6_addr s) as [[b [|x r]]|] eqn:H6; [|done|done].
    eapply read_ipv6_keeps in H6; [|done|done]. by apply elem_of_nil in H6.
Qed.

(** ** The characters of a printed address *)

Lemma to_hex16_chars g c : 0 ≤ g < 65536 → c ∈ to_hex16 g → is_Some (to_digit 16 c).
Proof.
  intros Hg Hin. pose proof (read_hextet g [] Hg I) as Hr. rewrite app_nil_r in Hr.
  destruct (read_number_split _ _ _ _ _ _ _ Hr) as (p & Hp & Hd & _). rewrite app_nil_r in Hp.
  subst p. rewrite Forall_forall in Hd. auto.
Qed.

Lemma hexgroups_chars gs c :
  Forall (fun g => 0 ≤ g < 65536) gs → c ∈ hexgroups gs → c = 58 ∨ is_Some (to_digit 16 c).
Proof.
  intros Hgs. destruct Hgs as [|g gs Hg Hgs]; [by intros ?%elem_of_nil|].
  rewrite hexgroups_cons. intros [Hin|Hin]%elem_of_app; [right; by eapply to_hex16_chars|].
  induction Hgs as [|g' gs Hg' Hgs IH]; [by apply elem_of_nil in Hin|]. simpl in Hin.
  apply elem_of_cons in Hin as [->|Hin]; [by left|].
  apply elem_of_app in Hin as [Hin|Hin]; [right; by eapply to_hex16_chars|auto].
Qed.

Lemma to_dec_chars n c : 0 ≤ n → c ∈ to_dec n → 48 ≤ c ≤ 57.
Proof.
  intros Hn Hin. pose proof (to_dec_decimal n Hn) as Hd. unfold decimal in Hd.
  rewrite Forall_forall in Hd. by apply is_ascii_digit_range, Hd.
Qed.

Lemma elem_of_join sep l c : c ∈ join [sep] l → c = sep ∨ ∃ w, w ∈ l ∧ c ∈ w.
Proof.
  induction l as [|w l IH]; [by intros ?%elem_of_nil|]. destruct l as [|w' l].
  - intros Hin. right. exists w. split; [left|done].
  - change (join [sep] (w :: w' :: l)) with (w ++ sep :: join [sep] (w' :: l)).
    rewrite elem_of_app, elem_of_cons. intros [Hin|[->|Hin]]; [|by left|].
    + right. exists w. split; [left|done].
    + destruct (IH Hin) as [->|(v & Hv & Hc)]; [by left|]. right. exists v. split; [by right|done].
Qed.

Lemma ipv4_chars bits c : c ∈ ipv4_to_string bits → c = 46 ∨ 48 ≤ c ≤ 57.
Proof.
  intros [->|(w & Hw & Hc)]%elem_of_join; [by left|right].
  apply list_elem_of_fmap in Hw as (o & -> & Ho). apply list_elem_of_fmap in Ho as (i & -> & _).
  eapply to_dec_chars; [|exact Hc]. apply octet_bounds.
Qed.

(** Hexadecimal digits, dots, colons, brackets and the percent sign. *)
Definition address_char (c : Z) : Prop :=
  is_Some (to_digit 16 c) ∨ c ∈ [46; 58; 91; 93; 37].

Lemma digit_hex c : 48 ≤ c ≤ 57 → is_Some (to_digit 16 c).
Proof.
  intros Hc. unfold to_digit. rewrite (proj2 (is_ascii_digit_range c) Hc).
  destruct (Z.ltb_spec (c - 48) 16); [by eexists|lia].
Qed.

Lemma dec_address_char n c : 0 ≤ n → c ∈ to_dec n → address_char c.
Proof. intros Hn Hin. left. by eapply digit_hex, to_dec_chars. Qed.

Lemma ipv4_address_char bits c : c ∈ ipv4_to_string bits → address_char c.
Proof. intros [->|Hc]%ipv4_chars; [right; left|left; by apply digit_hex]. Qed.

Lemma hexgroups_address_char gs c :
  Forall (fun g => 0 ≤ g < 65536) gs → c ∈ hexgroups gs → address_char c.
Proof. intros Hgs [->|Hc]%hexgroups_chars; [right; right; left|by left|done]. Qed.

Lemma ipv6_address_char bits c : c ∈ ipv6_to_string bits → address_char c.
Proof.
  unfold ipv6_to_string. destruct (to_ipv4_mapped bits) as [v4|].
  { intros [Hin|Hin]%elem_of_app; [|by eapply ipv4_address_char].
    change (lit "::ffff:") with [58; 58; 102; 102; 102; 102; 58] in Hin.
    repeat (apply elem_of_cons in Hin as [->|Hin]; [first [by left; eexists|right; right; left]|]).
    by apply elem_of_nil in Hin. }
  pose proof (segments_bounds bits) as Hs.
  destruct (longest_zeros 0 (segments bits) _ _) as [start len]. destruct (_ <? _)%nat.
  - intros [Hin|[Hin|Hin]%elem_of_app]%elem_of_app.
    + eapply hexgroups_address_char; [|exact Hin]. by apply Forall_take.
    + right. right. apply elem_of_cons in Hin as [->|Hin]; [left|].
      apply list_elem_of_singleton in Hin as ->. left.
    + eapply hexgroups_address_char; [|exact Hin]. by apply Forall_drop.
  - intros Hin. by eapply hexgroups_address_char.
Qed.

Lemma punct_address_char l c :
  c ∈ l → forallb (fun x => bool_decide (x ∈ [46; 58; 91; 93; 37])) l = true → address_char c.
Proof.
  intros Hin Hl. right. rewrite forallb_forall in Hl.
  eapply bool_decide_eq_true_1, Hl, list_elem_of_In, Hin.
Qed.

Lemma socket_address_char a c : socket_ok a → c ∈ socket_to_string a → address_char c.
Proof.
  intros (_ & Hp & Hs).
  destruct a as [i p|i p flow scope]; cbn [port socket_to_string] in *.
  - rewrite !elem_of_app. intros [Hin|[Hin|Hin]].
    + by eapply ipv4_address_char.
    + eapply punct_address_char; [exact Hin|reflexivity].
    + eapply dec_address_char; [|exact Hin]. lia.
  - destruct (scope =? 0); rewrite !elem_of_app.
    + intros [Hin|[Hin|[Hin|Hin]]]; try (eapply punct_address_char; [exact Hin|reflexivity]).
      * by eapply ipv6_address_char.
      * eapply dec_address_char; [|exact Hin]. lia.
    + intros [Hin|[Hin|[Hin|[Hin|[Hin|Hin]]]]]; try (eapply punct_address_char; [exact Hin|reflexivity]).
      * by eapply ipv6_address_char.
      * eapply dec_address_char; [|exact Hin]. lia.
      * eapply dec_address_char; [|exact Hin]. lia.
Qed.

Lemma address_char_range c :
  address_char c → 37 ≤ c ≤ 102 ∧ c ≠ 44 ∧ is_whitespace c = false.
Proof.
  intros Hc. assert (37 ≤ c ≤ 102 ∧ c ≠ 44) as Hr.
  { destruct Hc as [[d Hd]|Hc].
    - unfold to_digit, is_ascii_digit, is_ascii_lower, is_ascii_upper in Hd.
      destruct ((48 <=? c) && (c <=? 57)) eqn:H1; [boolprop; lia|].
      destruct ((97 <=? c) && (c <=? 122)) eqn:H2.
      { destruct (c - 87 <? 16) eqn:H3; [|done]. boolprop; lia. }
      destruct ((65 <=? c) && (c <=? 90)) eqn:H3; [boolprop; lia|done].
    - repeat (apply elem_of_cons in Hc as [->|Hc]; [lia|]). by apply elem_of_nil in Hc. }
  split_and!; try lia. unfold is_whitespace.
  repeat (apply orb_false_iff; split); try (apply andb_false_iff);
    rewrite ?Z.eqb_neq, ?Z.leb_gt; lia.
Qed.

Lemma ip_address_char a c : c ∈ ip_to_string a → address_char c.
Proof. destruct a; [apply ipv4_address_char|apply ipv6_address_char]. Qed.

Lemma ip_text_word a : ip_ok a → word (ip_to_string a).
Proof.
  intros Ha. split.
  - intros He. pose proof (ip_text_round_trip a Ha) as Hr. by rewrite He in Hr.
  - apply Forall_forall. intros c Hc. by apply address_char_range, (ip_address_char a).
Qed.

(** ** Parsed addresses are in range *)

Lemma of_parts_bounds w l :
  0 < w → Forall (fun p => 0 ≤ p < 2 ^ w) l → 0 ≤ of_parts w l < 2 ^ (w * Z.of_nat (length l)).
Proof.
  intros Hw Hl. unfold of_parts. induction l as [|p l IH] using rev_ind.
  { simpl. rewrite Z.mul_0_r. simpl. lia. }
  apply Forall_app in Hl as [Hl Hp]. inversion_clear Hp as [|? ? Hp' _]. specialize (IH Hl).
  rewrite foldl_app, length_app, Nat2Z.inj_add, Z.mul_add_distr_l, Z.pow_add_r by lia. simpl.
  rewrite Z.mul_1_r. nia.
Qed.

Lemma to_digit_nonneg radix c d : 0 ≤ radix → to_digit radix c = Some d → 0 ≤ d.
Proof.
  intros Hr. unfold to_digit, is_ascii_digit, is_ascii_lower, is_ascii_upper.
  destruct (_ <? radix) eqn:Hlt; [|done]. intros [= <-]. repeat case_match; boolprop; lia.
Qed.

Lemma read_digits_nonneg radix s ds r :
  0 ≤ radix → read_digits radix s = (ds, r) → Forall (fun d => 0 ≤ d) ds.
Proof.
  intros Hr. revert ds. induction s as [|c s IH]; intros ds; simpl; [intros [= <- _]; constructor|].
  destruct (to_digit radix c) as [d|] eqn:Hd; [|intros [= <- _]; constructor].
  destruct (read_digits radix s) as [ds' r']. intros [= <- ->]. constructor; [|by apply IH].
  by eapply to_digit_nonneg.
Qed.

Lemma read_number_bounds mx radix md az s v r :
  0 ≤ radix → read_number mx radix md az s = Some (v, r) → 0 ≤ v ≤ mx.
Proof.
  intros Hr. unfold read_number. destruct (read_digits radix s) as [ds r'] eqn:Hd.
  apply read_digits_nonneg in Hd; [|done]. assert (0 ≤ digits_value radix ds) as Hv.
  { unfold digits_value. assert (∀ a, 0 ≤ a → 0 ≤ foldl (fun a d => a * radix + d) a ds) as Hf; [|by apply Hf].
    induction Hd as [|d ds Hd0 _ IH]; intros a Ha; simpl; [done|]. apply IH. nia. }
  repeat case_match; intros; simplify_eq; boolprop; lia.
Qed.

Lemma read_separator_bounds {A} sep i (inner : parser A) (Q : A → Prop) s v r :
  (∀ s v r, inner s = Some (v, r) → Q v) → read_separator sep i inner s = Some (v, r) → Q v.
Proof. intros Hi. unfold read_separator. repeat case_match; naive_solver. Qed.

Lemma read_octets_bounds n i s os r :
  read_octets n i s = Some (os, r) → length os = n ∧ Forall (fun o => 0 ≤ o < 2 ^ 8) os.
Proof.
  revert i s os. induction n as [|n IH]; intros i s os; simpl; [intros [= <- _]; by split|].
  destruct (read_separator _ _ _ _) as [[o s']|] eqn:Ho; [|done].
  destruct (read_octets n (S i) s') as [[os' s'']|] eqn:Hos; [|done]. intros [= <- <-].
  destruct (IH _ _ _ Hos) as [Hl Hb]. split; [simpl; lia|]. constructor; [|done].
  revert Ho. apply (read_separator_bounds _ _ _ (fun o => 0 ≤ o < 2 ^ 8)).
  intros ? ? ? Hn%read_number_bounds; [|done]. unfold u8_max in Hn. lia.
Qed.

Lemma read_ipv4_bounds s v r : read_ipv4_addr s = Some (v, r) → in_u u32_max v.
Proof.
  unfold read_ipv4_addr. destruct (read_octets 4 0 s) as [[os r']|] eqn:Ho; [|done]. intros [= <- _].
  apply read_octets_bounds in Ho as [Hl Hb]. pose proof (of_parts_bounds 8 os ltac:(lia) Hb) as Hp.
  rewrite Hl in Hp. unfold in_u, of_octets, u32_max. simpl in Hp. lia.
Qed.

Lemma read_groups_bounds left i s gs b r :
  read_groups left i s = (gs, b, r) → (length gs ≤ left)%nat ∧ Forall (fun g => 0 ≤ g < 2 ^ 16) gs.
Proof.
  revert i s gs b. induction left as [|left IH]; intros i s gs b; cbn [read_groups]; [intros ?; simplify_eq; by split|].
  destruct (if (1 <? S left)%nat then _ else _) as [[v4 s']|] eqn:H4.
  - destruct (1 <? S left)%nat eqn:Hlt; [|done]. boolprop. intros ?; simplify_eq.
    apply (read_separator_bounds _ _ _ (in_u u32_max)) in H4; [|intros ? ? ? Hv; by apply read_ipv4_bounds in Hv].
    unfold in_u, u32_max in H4. split; [simpl; lia|]. repeat constructor.
    + rewrite Z.shiftr_div_pow2 by lia. apply Z.div_pos; lia.
    + rewrite Z.shiftr_div_pow2 by lia. apply Z.div_lt_upper_bound; lia.
    + change 65535 with (Z.ones 16). rewrite Z.land_ones by lia. apply Z.mod_pos_bound. lia.
    + change 65535 with (Z.ones 16). rewrite Z.land_ones by lia. apply Z.mod_pos_bound. lia.
  - clear H4. destruct (read_separator _ _ _ _) as [[g s']|] eqn:Hg; [|intros ?; simplify_eq; simpl; split; [lia|done]].
    destruct (read_groups left (S i) s') as [[gs' b'] r'] eqn:Hgs. intros ?; simplify_eq.
    destruct (IH _ _ _ _ Hgs) as [Hl Hb]. split; [simpl; lia|]. constructor; [|done].
    revert Hg. apply (read_separator_bounds _ _ _ (fun g => 0 ≤ g < 2 ^ 16)).
    intros ? ? ? Hn%read_number_bounds; [|done]. unfold u16_max in Hn. lia.
Qed.

Lemma read_ipv6_bounds s v r : read_ipv6_addr s = Some (v, r) → in_u u128_max v.
Proof.
  assert (∀ l, length l = 8%nat → Forall (fun g => 0 ≤ g < 2 ^ 16) l → in_u u128_max (of_segments l)) as Hall.
  { intros l Hl Hb. pose proof (of_parts_bounds 16 l ltac:(lia) Hb) as Hp. rewrite Hl in Hp.
    unfold in_u, of_segments, u128_max. simpl in Hp. lia. }
  unfold read_ipv6_addr. destruct (read_groups 8 0 s) as [[head hb] s1] eqn:Hh.
  apply read_groups_bounds in Hh as [Hl Hb].
  destruct (Nat.eqb_spec (length head) 8) as [H8|H8]; [intros [= <- _]; by apply Hall|].
  destruct hb; [done|]. destruct (read_given_char 58 s1) as [[_ s2]|]; [|done].
  destruct (read_given_char 58 s2) as [[_ s3]|]; [|done].
  destruct (read_groups _ 0 s3) as [[tail tb] s4] eqn:Ht. apply read_groups_bounds in Ht as [Htl Htb].
  intros [= <- _]. apply Hall.
  - rewrite !length_app, length_replicate. lia.
  - rewrite !Forall_app. split_and!; [done| |done]. apply Forall_replicate. lia.
Qed.

Lemma ip_from_str_ok s a : ip_from_str s = Some a → ip_ok a.
Proof.
  unfold ip_from_str, parse_all, read_ip_addr.
  destruct (read_ipv4_addr s) as [[b r]|] eqn:H4.
  - destruct r; [|done]. intros [= <-]. by apply read_ipv4_bounds in H4.
  - destruct (read_ipv6_addr s) as [[b r]|] eqn:H6; [|done]. destruct r; [|done]. intros [= <-].
    by apply read_ipv6_bounds in H6.
Qed.

Lemma read_port_bounds s p r : read_port s = Some (p, r) → 0 ≤ p ≤ u16_max.
Proof. unfold read_port. destruct (read_given_char 58 s) as [[??]|]; [|done]. by apply read_number_bounds. Qed.

Lemma read_scope_bounds s p r : read_scope_id s = Some (p, r) → 0 ≤ p ≤ u32_max.
Proof. unfold read_scope_id. destruct (read_given_char 37 s) as [[??]|]; [|done]. by apply read_number_bounds. Qed.

Lemma read_socket_ok s a r : read_socket_addr s = Some (a, r) → socket_ok a.
Proof.
  unfold read_socket_addr. destruct (read_socket_addr_v4 s) as [[b r']|] eqn:H4.
  - intros [= -> ->]. unfold read_socket_addr_v4 in H4. destruct (read_ipv4_addr s) as [[i s1]|] eqn:Hi; [|done].
    destruct (read_port s1) as [[p r']|] eqn:Hp; [|done]. simplify_eq.
    apply read_ipv4_bounds in Hi. apply read_port_bounds in Hp. done.
  - clear H4. unfold read_socket_addr_v6. destruct (read_given_char 91 s) as [[_ s1]|]; [|done].
    destruct (read_ipv6_addr s1) as [[i s2]|] eqn:Hi; [|done]. apply read_ipv6_bounds in Hi.
    destruct (default (0, s2) (read_scope_id s2)) as [scope s3] eqn:Hs.
    destruct (read_given_char 93 s3) as [[_ s4]|]; [|done]. destruct (read_port s4) as [[p r']|] eqn:Hp; [|done].
    apply read_port_bounds in Hp. intros [= <- <-]. split; [done|]. split; [done|]. split; [done|].
    destruct (read_scope_id s2) as [[sc ?]|] eqn:Hsc; simpl in Hs; simplify_eq; [|done].
    by apply read_scope_bounds in Hsc.
Qed.

Lemma socket_from_str_ok s a : socket_from_str s = Some a → socket_ok a.
Proof.
  unfold socket_from_str, parse_all. destruct (read_socket_addr s) as [[b r]|] eqn:Hr; [|done].
  destruct r; [|done]. intros [= <-]. by eapply read_socket_ok.
Qed.
