(* ===== verification/Crates.v ===== *)
(** * Interfaces of third-party crates

    The sources call crates that are not part of the repository.  Each is a
    class of the operations the sources use; what a theorem needs to know of
    an operation is a separate class of laws stating its documentation. *)

From S2P Require Import Prelude Order OrdMap Str Net.
Open Scope Z_scope.

(** ** [bridge_line] (package ptrs-gesher-bridge-line) *)

(** The parsed bridge line, by its public fields. *)
Record BridgeLine : Type := mkBridgeLine {
  transport : option str;
  addr : socket_addr;
  fingerprint : option str;
  params : bmap str str;
}.

#[export] Instance bridge_line_eq_dec : EqDecision BridgeLine.
Proof. solve_decision. Defined.

Class BridgeLineCrate : Type := {
  bridge_parse : str → option BridgeLine;
  bridge_to_string : BridgeLine → str;
}.

(** A displayed bridge line is one non-empty line without surrounding blanks,
    does not look like a comment and parses back. *)
Class BridgeLineLaws `{BridgeLineCrate} (valid : BridgeLine → Prop) : Prop := {
  bridge_parse_print : ∀ b, valid b → bridge_parse (bridge_to_string b) = Some b;
  bridge_print_trim : ∀ b, valid b → trim (bridge_to_string b) = bridge_to_string b;
  bridge_print_head : ∀ b, valid b → ∃ c s, bridge_to_string b = c :: s ∧ c ≠ 35;
  bridge_print_line : ∀ b, valid b → Forall (fun c => (10 =? c) = false) (bridge_to_string b);
}.

(** ** [url] *)

Inductive url_parse_error : Type :=
| RelativeUrlWithoutBase
| OtherUrlError (message : str).

Class UrlCrate : Type := {
  Url : Type;
  url_parse : str → result Url url_parse_error;
  url_scheme : Url → str;
  url_host_str : Url → option str;
  url_port : Url → option Z;
  url_port_or_known_default : Url → option Z;
  url_path : Url → str;
  url_query : Url → option str;
}.

(** ** [rustls::pki_types] *)

(** Whether [ServerName::try_from] accepts a name. *)
Class TlsCrate : Type := { server_name_ok : str → bool }.

(** ** [time] *)

Class TimeCrate : Type := {
  OffsetDateTime : Type;
  odt_nanos : OffsetDateTime → Z;
  odt_date : OffsetDateTime → Z;
  odt_epoch : OffsetDateTime;
  iso_parse : str → option OffsetDateTime;
  iso_format : OffsetDateTime → option str;
}.

(** The ISO 8601 rendering of a representable time is a blank-free token,
    never the dash that stands for a missing time, and parses back. *)
Class TimeLaws `{TimeCrate} (valid : OffsetDateTime → Prop) : Prop := {
  iso_round_trip : ∀ t, valid t →
    ∃ s, iso_format t = Some s ∧ iso_parse s = Some t ∧ word s ∧ s ≠ [45];
}.

(** Times compare by the instant they denote. *)
Definition odt_cmp `{TimeCrate} : OffsetDateTime → OffsetDateTime → comparison :=
  cmp_on odt_nanos Z.compare.

#[export] Instance odt_cmp_ranking `{TimeCrate} : Ranking odt_cmp.
Proof. unfold odt_cmp. apply cmp_on_ranking, Z_compare_ranking. Qed.

(** [now - then], a signed duration in nanoseconds. *)
Definition odt_sub `{TimeCrate} (a b : OffsetDateTime) : Z := odt_nanos a - odt_nanos b.

(** ** Durations of the standard library, in nanoseconds *)

Definition from_millis (ms : Z) : Z := ms * 1000000.
Definition from_secs (s : Z) : Z := s * 1000000000.
Definition as_millis (d : Z) : Z := d / 1000000.
