(* ===== verification/Samples.v ===== *)
(** * Concrete crates and data

    Executable instances of the third-party interfaces and a few bridges, on
    which the witnesses evaluate the definitions. *)

From S2P Require Import Prelude Order OrdMap Str Net Crates.
Open Scope Z_scope.

(** A URL is kept as text: scheme, host up to the first slash, then the path. *)
Definition sample_url : UrlCrate := {|
  Url := str;
  url_parse s := if contains_str (lit "://") s then Ok s else Err RelativeUrlWithoutBase;
  url_scheme u := match split_once_str (lit "://") u with Some (a, _) => a | None => [] end;
  url_host_str u :=
    match split_once_str (lit "://") u with
    | Some (_, r) => match split_once 47 r with Some (h, _) => Some h | None => Some r end
    | None => None
    end;
  url_port _ := None;
  url_port_or_known_default u := if starts_with (lit "https") u then Some 443 else Some 80;
  url_path u :=
    match split_once_str (lit "://") u with
    | Some (_, r) => match split_once 47 r with Some (_, p) => 47 :: p | None => [] end
    | None => []
    end;
  url_query _ := None;
|}.

Definition sample_tls : TlsCrate := {|
  server_name_ok s := negb (is_empty s) && forallb (fun c => (33 <=? c) && (c <=? 126)) s
|}.

(** Times are nanoseconds since the epoch, printed as a tagged decimal. *)
Definition sample_time : TimeCrate := {|
  OffsetDateTime := Z;
  odt_nanos t := t;
  odt_date t := t / 86400000000000;
  odt_epoch := 0;
  iso_parse s :=
    match strip_prefix (lit "T") s with
    | Some r => parse_uint u128_max r
    | None => None
    end;
  iso_format t := Some (lit "T" ++ to_dec t);
|}.

Lemma sample_time_laws :
  @TimeLaws sample_time (fun t => 0 ≤ @odt_nanos sample_time t ≤ u128_max).
Proof.
  split. intros t Ht. simpl in t, Ht. exists (lit "T" ++ to_dec t). split; [done|]. split.
  - unfold iso_parse, sample_time. rewrite strip_prefix_app. by apply parse_to_dec.
  - destruct (to_dec_word t) as [_ Hw]; [lia|]. split; [split; [done|]|done].
    by constructor.
Qed.

(** ** Bridges *)

Definition plain_bridge : BridgeLine :=
  mkBridgeLine None (SockV4 0x01020304 443) None [].
Definition obfs4_bridge : BridgeLine :=
  mkBridgeLine (Some (lit "obfs4")) (SockV4 0x05060708 9001) (Some (lit "ABCD"))
    [(lit "cert", lit "xyz")].
Definition webtunnel_bridge : BridgeLine :=
  mkBridgeLine (Some (lit "webtunnel")) (SockV6 (0x20010db8 * 2 ^ 96 + 1) 443 0 0) (Some (lit "EF"))
    [(lit "url", lit "https://example.com/secret")].

(** A printer and parser of the sample bridges. *)
Definition sample_lines : BridgeLineCrate := {|
  bridge_to_string b :=
    if bool_decide (transport b = Some (lit "obfs4")) then lit "obfs4 5.6.7.8:9001 ABCD cert=xyz"
    else if bool_decide (transport b = Some (lit "webtunnel"))
    then lit "webtunnel [2001:db8::1]:443 EF url=https://example.com/secret"
    else lit "1.2.3.4:443";
  bridge_parse s :=
    if str_eqb s (lit "obfs4 5.6.7.8:9001 ABCD cert=xyz") then Some obfs4_bridge
    else if str_eqb s (lit "webtunnel [2001:db8::1]:443 EF url=https://example.com/secret")
    then Some webtunnel_bridge
    else if str_eqb s (lit "1.2.3.4:443") then Some plain_bridge
    else None;
|}.

Lemma sample_lines_laws :
  @BridgeLineLaws sample_lines (fun b => b ∈ [plain_bridge; obfs4_bridge; webtunnel_bridge]).
Proof.
  split; intros b Hb; repeat (apply elem_of_cons in Hb as [->|Hb]);
    try (by apply not_elem_of_nil in Hb); try (vm_compute; reflexivity);
    try (vm_compute; eexists _, _; split; [reflexivity|lia]);
    by (vm_compute; repeat constructor).
Qed.
