(* ===== verification/Identity.v ===== *)
(** * Bridge identity and probe targets

    [packages/bridge-probe/src/probe/mod.rs]: the policy on bridge addresses,
    the connection plan of a webtunnel bridge, and the identity every
    bridge-list consumer uses as its key. *)

From S2P Require Import Prelude Order OrdMap Str Net Crates Samples.
Open Scope Z_scope.

Module Identity.

Record PreparedTarget : Type := mkPreparedTarget {
  dial_host : str;
  dial_port : Z;
  sni : str;
  host_header : str;
  request_target : str;
  use_tls : bool;
}.

Record WebtunnelEndpointIdentity : Type := mkWebtunnelEndpointIdentity {
  w_dial_host : str;
  w_dial_port : Z;
  w_sni : str;
  w_host_header : str;
  w_request_target : str;
  w_use_tls : bool;
}.

Record BridgeIdentity : Type := mkBridgeIdentity {
  id_transport : option str;
  id_addr : socket_addr;
  id_fingerprint : option str;
  id_webtunnel : option WebtunnelEndpointIdentity;
  id_cert : option str;
}.

#[export] Instance webtunnel_eq_dec : EqDecision WebtunnelEndpointIdentity.
Proof. solve_decision. Defined.
#[export] Instance identity_eq_dec : EqDecision BridgeIdentity.
Proof. solve_decision. Defined.

(** The derived orders compare the fields in declaration order. *)
Definition webtunnel_fields (w : WebtunnelEndpointIdentity) :=
  (w_dial_host w, (w_dial_port w, (w_sni w, (w_host_header w, (w_request_target w, w_use_tls w))))).
Definition identity_fields `{!Ord WebtunnelEndpointIdentity} (i : BridgeIdentity) :=
  (id_transport i, (id_addr i, (id_fingerprint i, (id_webtunnel i, id_cert i)))).

Lemma webtunnel_fields_inj a b : webtunnel_fields a = webtunnel_fields b → a = b.
Proof. destruct a, b; unfold webtunnel_fields; simpl; congruence. Qed.

#[export] Instance webtunnel_ord : Ord WebtunnelEndpointIdentity :=
  ord_by webtunnel_fields webtunnel_fields_inj.

Lemma identity_fields_inj a b : identity_fields a = identity_fields b → a = b.
Proof. destruct a, b; unfold identity_fields; simpl; congruence. Qed.

#[export] Instance identity_ord : Ord BridgeIdentity :=
  ord_by identity_fields identity_fields_inj.

(** Identities are hashable: sets of them are finite sets. *)
Definition socket_of_fields (x : bool * list Z) : socket_addr :=
  match x with
  | (false, [i; p]) => SockV4 i p
  | (true, [i; p; f; s]) => SockV6 i p f s
  | _ => SockV4 0 0
  end.

#[export] Instance socket_addr_countable : Countable socket_addr.
Proof.
  apply (inj_countable' socket_fields socket_of_fields). by intros [].
Defined.

#[export] Instance webtunnel_countable : Countable WebtunnelEndpointIdentity.
Proof.
  apply (inj_countable' webtunnel_fields
           (fun '(h, (p, (s, (hh, (r, t))))) => mkWebtunnelEndpointIdentity h p s hh r t)).
  by intros [].
Defined.

#[export] Instance identity_countable : Countable BridgeIdentity.
Proof.
  apply (inj_countable' identity_fields
           (fun '(t, (a, (f, (w, c)))) => mkBridgeIdentity t a f w c)).
  by intros [].
Defined.

(** Why a plan could not be built, one constructor per error of the source. *)
Inductive target_error : Type :=
| MissingUrl
| InvalidUrl (url : str)
| InvalidUrlEvenAsHttps (url : str)
| UnsupportedScheme (scheme : str)
| NoHost
| InvalidServername (name : str)
| AddrMissingColon (a : str)
| AddrBadHost (a host : str)
| AddrBadPort (a p : str)
| NoPort.

(** [Outcome]: what one probe learned of a bridge; latencies in nanoseconds. *)
Inductive Outcome : Type :=
| Reachable (latency : Z)
| Unreachable (reason : str)
| Unmeasured (reason : str).

(** [usable_for_tor]. *)
Definition usable_for_tor (bridge : BridgeLine) : bool :=
  if bool_decide (transport bridge = Some (lit "webtunnel")) then
    bool_decide (is_Some (bm_get (lit "url") (params bridge)))
    || bool_decide (is_Some (bm_get (lit "addr") (params bridge)))
  else match ip (addr bridge) with
  | V4 _ => true
  | V6 bits => negb (Z.shiftr bits 96 =? 0x20010db8)
  end.

Definition trim_brackets (s : str) : str :=
  trim_end_by (Z.eqb 93) (trim_start_by (Z.eqb 91) s).

Section Targets.
Context `{UrlCrate, TlsCrate}.

(** [parse_webtunnel_url]: a bare host is read as https. *)
Definition parse_webtunnel_url (url_str : str) : result Url target_error :=
  match url_parse url_str with
  | Ok u => Ok u
  | Err RelativeUrlWithoutBase =>
      match url_parse (lit "https://" ++ url_str) with
      | Ok u => Ok u
      | Err _ => Err (InvalidUrlEvenAsHttps url_str)
      end
  | Err _ => Err (InvalidUrl url_str)
  end.

Definition is_http (u : Url) : bool := eq_ignore_ascii_case (url_scheme u) (lit "http").
Definition is_https (u : Url) : bool := eq_ignore_ascii_case (url_scheme u) (lit "https").

(** The dial target of an [addr=] parameter. *)
Definition addr_target (a : str) : result (str * Z) target_error :=
  match socket_from_str a with
  | Some socket => Ok (ip_to_string (ip socket), port socket)
  | None =>
      match rsplit_once 58 a with
      | None => Err (AddrMissingColon a)
      | Some (host, p) =>
          if is_empty host || existsb (fun c => (c =? 58) || (c =? 91) || (c =? 93)) host
          then Err (AddrBadHost a host)
          else match parse_uint u16_max p with
               | None => Err (AddrBadPort a p)
               | Some n => Ok (host, n)
               end
      end
  end.

(** The dial target of the URL itself. *)
Definition url_target (u : Url) : result (str * Z) target_error :=
  match url_host_str u with
  | None => Err NoHost
  | Some host =>
      match url_port_or_known_default u with
      | None => Err NoPort
      | Some p => Ok (trim_brackets host, p)
      end
  end.

(** [PreparedTarget::new], the checks in the order of the source. *)
Definition prepare (ps : bmap str str) : result PreparedTarget target_error :=
  match bm_get (lit "url") ps with
  | None => Err MissingUrl
  | Some url_str =>
  match parse_webtunnel_url url_str with
  | Err e => Err e
  | Ok parsed =>
  if negb (is_http parsed) && negb (is_https parsed)
  then Err (UnsupportedScheme (url_scheme parsed))
  else
  match match bm_get (lit "servername") ps with
        | Some s => Ok (trim_brackets s)
        | None => ok_or (option_map trim_brackets (url_host_str parsed)) NoHost
        end with
  | Err e => Err e
  | Ok name =>
  if negb (server_name_ok name) then Err (InvalidServername name)
  else
  match match bm_get (lit "addr") ps with
        | Some a => addr_target a
        | None => url_target parsed
        end with
  | Err e => Err e
  | Ok (host, p) =>
      let path := if is_empty (url_path parsed) then [47] else url_path parsed in
      let request := match url_query parsed with
                     | Some q => if is_empty q then path else path ++ [63] ++ q
                     | None => path
                     end in
      let header := match ipv6_from_str name with
                    | Some _ => [91] ++ name ++ [93]
                    | None => name
                    end in
      let header := match url_port parsed with
                    | Some explicit_port => header ++ [58] ++ to_dec explicit_port
                    | None => header
                    end in
      Ok (mkPreparedTarget host p name header request (is_https parsed))
  end end end end.

(** [webtunnel_endpoint_identity]. *)
Definition webtunnel_endpoint_identity (bridge : BridgeLine) : option WebtunnelEndpointIdentity :=
  if bool_decide (transport bridge ≠ Some (lit "webtunnel")) then None
  else match prepare (params bridge) with
  | Ok t => Some (mkWebtunnelEndpointIdentity (dial_host t) (dial_port t) (sni t)
                    (host_header t) (request_target t) (use_tls t))
  | Err _ => None
  end.

(** [bridge_identity]. *)
Definition bridge_identity (bridge : BridgeLine) : BridgeIdentity :=
  mkBridgeIdentity (transport bridge) (addr bridge) (fingerprint bridge)
    (webtunnel_endpoint_identity bridge) (bm_get (lit "cert") (params bridge)).

(** [webtunnel_probe_target] and [resolve_probe_target]. *)
Definition webtunnel_probe_target (ps : bmap str str) : result (str * Z) target_error :=
  match prepare ps with
  | Ok t => Ok (dial_host t, dial_port t)
  | Err e => Err e
  end.

Definition resolve_probe_target (bridge : BridgeLine) : result (str * Z) target_error :=
  if bool_decide (transport bridge = Some (lit "webtunnel"))
  then webtunnel_probe_target (params bridge)
  else Ok (ip_to_string (ip (addr bridge)), port (addr bridge)).

(** two bridges of one identity are one connection: they resolve to the
    same probe target, or neither does, and a webtunnel bridge's whole plan
    (dial address, server name, host header, request target, TLS) is the same,
    so deduplication never discards a distinct configuration. *)
Theorem same_identity_same_connection (b1 b2 : BridgeLine) :
  bridge_identity b1 = bridge_identity b2 →
  ok (resolve_probe_target b1) = ok (resolve_probe_target b2) ∧
  (transport b1 = Some (lit "webtunnel") →
     transport b2 = Some (lit "webtunnel") ∧ ok (prepare (params b1)) = ok (prepare (params b2))).
Proof.
  intros Hid. injection Hid as Ht Ha Hf Hw Hc.
  assert (transport b1 = Some (lit "webtunnel") → ok (prepare (params b1)) = ok (prepare (params b2)))
    as Hplan.
  { intros Hwt. rewrite Hwt in Ht. unfold webtunnel_endpoint_identity in Hw.
    rewrite <-Ht, Hwt, bool_decide_false in Hw by tauto.
    destruct (prepare (params b1)) as [t1|], (prepare (params b2)) as [t2|]; try done.
    injection Hw as H1 H2 H3 H4 H5 H6. destruct t1, t2; simpl in *. by subst. }
  split; [|intros Hwt; rewrite <-Ht; auto].
  unfold resolve_probe_target, webtunnel_probe_target. rewrite <-Ht, <-Ha.
  destruct (decide (transport b1 = Some (lit "webtunnel"))) as [Hwt|Hwt].
  - specialize (Hplan Hwt). rewrite bool_decide_true by done.
    by destruct (prepare (params b1)), (prepare (params b2)); simplify_eq/=.
  - by rewrite bool_decide_false.
Qed.
End Targets.

Section Witnesses.
#[local] Existing Instance sample_url.
#[local] Existing Instance sample_tls.

(** The same carrier with one more parameter. *)
Definition webtunnel_variant : BridgeLine :=
  mkBridgeLine (Some (lit "webtunnel")) (addr webtunnel_bridge) (Some (lit "EF"))
    [(lit "url", lit "https://example.com/secret"); (lit "ver", lit "1")].

Lemma same_identity_same_connection_witness :
  ok (resolve_probe_target webtunnel_bridge) = ok (resolve_probe_target webtunnel_variant) ∧
  ok (prepare (params webtunnel_bridge)) = ok (prepare (params webtunnel_variant)).
Proof.
  destruct (same_identity_same_connection webtunnel_bridge webtunnel_variant) as [H1 H2];
    [reflexivity|]. split; [exact H1|]. apply H2. reflexivity.
Defined.
End Witnesses.
End Identity.
