(* ===== verification/BridgeStore.v ===== *)
(** * The bridge health store: observations

    [packages/bridge-store/src/lib.rs] and [observe.rs]: the per-bridge health
    record, the store keyed by bridge identity, and every operation that
    records an observation or prunes. *)

From S2P Require Import Prelude Order OrdMap Str Net Crates Samples Identity.
Import Identity.
Open Scope Z_scope.

Module Store.
Section Store.
Context `{UrlCrate, TlsCrate, TimeCrate}.

Record Entry : Type := mkEntry {
  bridge : BridgeLine;
  last_ok : option OffsetDateTime;
  last_attempt : OffsetDateTime;
  last_latency : Z;
  fails : Z;
  ok_count : Z;
  channel_ok_count : Z;
  last_channel_ok : option OffsetDateTime;
  verified_count : Z;
  last_verified : option OffsetDateTime;
  last_verification_attempt : option OffsetDateTime;
  circuit_fails : Z;
  last_circuit_observation : OffsetDateTime;
  sources : bset str;
}.

Definition RETIRED_CIRCUIT_FAILS : Z := u32_max.

Definition Key : Type := BridgeIdentity.
Definition key_of (b : BridgeLine) : Key := bridge_identity b.

Record BridgeStore : Type := mkStore {
  path : str;
  entries : bmap Key Entry;
}.

Definition len (s : BridgeStore) : nat := length (entries s).
Definition is_empty_store (s : BridgeStore) : bool := is_empty (entries s).

Definition with_entries (s : BridgeStore) (m : bmap Key Entry) : BridgeStore :=
  mkStore (path s) m.

(** [Entry::is_retired] and [Entry::is_proven_alive]. *)
Definition entry_is_retired (e : Entry) : bool := circuit_fails e =? RETIRED_CIRCUIT_FAILS.
Definition is_proven_alive (e : Entry) : bool :=
  (fails e =? 0) && (0 <? ok_count e) && negb (entry_is_retired e).

(** The entry inserted for a bridge the store has not seen. *)
Definition fresh_entry (b : BridgeLine) (now : OffsetDateTime) (latency f cf : Z) : Entry :=
  mkEntry b None now latency f 0 0 None 0 None None cf now [].

(** The assignments of [record_at] to an entry. *)
Definition stamp_ok (b : BridgeLine) (latency : Z) (now : OffsetDateTime) (e : Entry) : Entry :=
  mkEntry b (Some now) now latency 0 (saturating_add u32_max (ok_count e) 1)
    (channel_ok_count e) (last_channel_ok e) (verified_count e) (last_verified e)
    (last_verification_attempt e) (circuit_fails e) (last_circuit_observation e) (sources e).

Definition record_at (s : BridgeStore) (b : BridgeLine) (latency : Z) (now : OffsetDateTime)
  : BridgeStore :=
  with_entries s (bm_upsert (key_of b) (fresh_entry b now latency 0 0)
                    (stamp_ok b latency now) (entries s)).

(** The assignments of [note_failure_at]. *)
Definition bump_fails (now : OffsetDateTime) (e : Entry) : Entry :=
  mkEntry (bridge e) (last_ok e) now (last_latency e) (saturating_add u32_max (fails e) 1)
    (ok_count e) (channel_ok_count e) (last_channel_ok e) (verified_count e) (last_verified e)
    (last_verification_attempt e) (circuit_fails e) (last_circuit_observation e) (sources e).

Definition note_failure_at (s : BridgeStore) (b : BridgeLine) (now : OffsetDateTime) (window : Z)
  : BridgeStore * bool :=
  let key := key_of b in
  match bm_get key (entries s) with
  | Some e =>
      if window <=? odt_sub now (last_attempt e)
      then (with_entries s (bm_insert key (bump_fails now e) (entries s)), true)
      else (s, false)
  | None => (with_entries s (bm_insert key (fresh_entry b now 0 1 0) (entries s)), true)
  end.

Definition set_circuit (f : Z → Z) (now : OffsetDateTime) (e : Entry) : Entry :=
  mkEntry (bridge e) (last_ok e) (last_attempt e) (last_latency e) (fails e)
    (ok_count e) (channel_ok_count e) (last_channel_ok e) (verified_count e) (last_verified e)
    (last_verification_attempt e) (f (circuit_fails e)) now (sources e).

Definition note_circuit_failure_at (s : BridgeStore) (b : BridgeLine) (now : OffsetDateTime)
  (window : Z) : BridgeStore * bool :=
  let key := key_of b in
  match bm_get key (entries s) with
  | Some e =>
      if window <=? odt_sub now (last_circuit_observation e)
      then (with_entries s (bm_insert key
              (set_circuit (fun n => saturating_add u32_max n 1) now e) (entries s)), true)
      else (s, false)
  | None => (with_entries s (bm_insert key (fresh_entry b now 0 0 1) (entries s)), true)
  end.

Definition note_permanent_failure_at (s : BridgeStore) (b : BridgeLine) (now : OffsetDateTime)
  : BridgeStore :=
  with_entries s (bm_upsert (key_of b) (fresh_entry b now 0 0 0)
                    (set_circuit (fun _ => RETIRED_CIRCUIT_FAILS) now) (entries s)).

Definition add_source (source : str) (e : Entry) : Entry :=
  mkEntry (bridge e) (last_ok e) (last_attempt e) (last_latency e) (fails e)
    (ok_count e) (channel_ok_count e) (last_channel_ok e) (verified_count e) (last_verified e)
    (last_verification_attempt e) (circuit_fails e) (last_circuit_observation e)
    (bs_insert source (sources e)).

Definition note_source_at (s : BridgeStore) (b : BridgeLine) (source : str) (now : OffsetDateTime)
  : BridgeStore :=
  with_entries s (bm_upsert (key_of b) (fresh_entry b now 0 0 0) (add_source source) (entries s)).

Definition is_retired (s : BridgeStore) (b : BridgeLine) : bool :=
  match bm_get (key_of b) (entries s) with
  | Some e => entry_is_retired e
  | None => false
  end.

Definition failed_today (s : BridgeStore) (b : BridgeLine) (today : OffsetDateTime) : bool :=
  match bm_get (key_of b) (entries s) with
  | Some e => (0 <? fails e) && (odt_date (last_attempt e) =? odt_date today)
  | None => false
  end.

Definition note_circuit_success_at (s : BridgeStore) (b : BridgeLine) (now : OffsetDateTime)
  : BridgeStore :=
  with_entries s (bm_modify (key_of b) (set_circuit (fun _ => 0) now) (entries s)).

Definition bump_channel (now : OffsetDateTime) (e : Entry) : Entry :=
  mkEntry (bridge e) (last_ok e) (last_attempt e) (last_latency e) (fails e)
    (ok_count e) (saturating_add u32_max (channel_ok_count e) 1) (Some now) (verified_count e)
    (last_verified e) (last_verification_attempt e) (circuit_fails e)
    (last_circuit_observation e) (sources e).

Definition note_channel_success_at (s : BridgeStore) (b : BridgeLine) (now : OffsetDateTime)
  : BridgeStore :=
  with_entries s (bm_modify (key_of b) (bump_channel now) (entries s)).

Definition bump_verified (now : OffsetDateTime) (e : Entry) : Entry :=
  mkEntry (bridge e) (last_ok e) (last_attempt e) (last_latency e) (fails e)
    (ok_count e) (channel_ok_count e) (last_channel_ok e)
    (saturating_add u32_max (verified_count e) 1) (Some now) (Some now) (circuit_fails e)
    (last_circuit_observation e) (sources e).

Definition note_circuit_verified_at (s : BridgeStore) (b : BridgeLine) (now : OffsetDateTime)
  : BridgeStore :=
  with_entries s (bm_modify (key_of b) (bump_verified now) (entries s)).

Definition stamp_verification_attempt (now : OffsetDateTime) (e : Entry) : Entry :=
  mkEntry (bridge e) (last_ok e) (last_attempt e) (last_latency e) (fails e)
    (ok_count e) (channel_ok_count e) (last_channel_ok e) (verified_count e) (last_verified e)
    (Some now) (circuit_fails e) (last_circuit_observation e) (sources e).

Definition note_verification_attempt_at (s : BridgeStore) (b : BridgeLine) (now : OffsetDateTime)
  : BridgeStore :=
  with_entries s (bm_modify (key_of b) (stamp_verification_attempt now) (entries s)).

(** The entries [prune] removes. *)
Definition is_dead (max_fails max_circuit_fails : Z) (e : Entry) : bool :=
  (max_fails <=? fails e) || (max_circuit_fails <=? circuit_fails e).

(** The second pass of [prune]: remove the listed keys one by one, collecting
    the bridges of those that were present. *)
Fixpoint remove_each (ks : list Key) (m : bmap Key Entry) : bmap Key Entry * list BridgeLine :=
  match ks with
  | [] => (m, [])
  | k :: ks' =>
      let '(m', bs) := remove_each ks' (bm_remove k m) in
      match bm_get k m with
      | Some e => (m', bridge e :: bs)
      | None => (m', bs)
      end
  end.

Definition prune (s : BridgeStore) (max_fails max_circuit_fails : Z)
  : BridgeStore * list BridgeLine :=
  let dead := map fst (List.filter (fun ke => is_dead max_fails max_circuit_fails ke.2) (entries s)) in
  let '(m, bs) := remove_each dead (entries s) in
  (with_entries s m, bs).

(** The two loops of [note_probe_round]. *)
Definition record_alive (alive : list (BridgeLine * Z)) (now : OffsetDateTime) (s : BridgeStore)
  : BridgeStore := fold_left (fun s bl => record_at s bl.1 bl.2 now) alive s.

Definition note_failures (probed : list BridgeLine) (alive_keys : list Key) (now : OffsetDateTime)
  (window : Z) (s : BridgeStore) : BridgeStore :=
  fold_left (fun s b =>
    if bool_decide (key_of b ∈ alive_keys) then s else (note_failure_at s b now window).1) probed s.

Definition note_probe_round (s : BridgeStore) (probed : list BridgeLine)
  (alive : list (BridgeLine * Z)) (now : OffsetDateTime) (fail_window max_fails max_circuit_fails : Z)
  : BridgeStore * list BridgeLine :=
  let alive_keys := map (fun bl => key_of bl.1) alive in
  let s := record_alive alive now s in
  let s := note_failures probed alive_keys now fail_window s in
  prune s max_fails max_circuit_fails.

(** The public mutations of the store as events, in the order a process
    performs them. *)
Inductive event : Type :=
| ProbeRound (probed : list BridgeLine) (alive : list (BridgeLine * Z)) (now : OffsetDateTime)
    (fail_window max_fails max_circuit_fails : Z)
| CircuitFailure (b : BridgeLine) (now : OffsetDateTime) (window : Z)
| PermanentFailure (b : BridgeLine) (now : OffsetDateTime)
| SourceSeen (b : BridgeLine) (source : str) (now : OffsetDateTime)
| CircuitSuccess (b : BridgeLine) (now : OffsetDateTime)
| ChannelSuccess (b : BridgeLine) (now : OffsetDateTime)
| CircuitVerified (b : BridgeLine) (now : OffsetDateTime)
| VerificationAttempt (b : BridgeLine) (now : OffsetDateTime).

Definition apply_event (s : BridgeStore) (ev : event) : BridgeStore :=
  match ev with
  | ProbeRound probed alive now w mf mcf => (note_probe_round s probed alive now w mf mcf).1
  | CircuitFailure b now w => (note_circuit_failure_at s b now w).1
  | PermanentFailure b now => note_permanent_failure_at s b now
  | SourceSeen b source now => note_source_at s b source now
  | CircuitSuccess b now => note_circuit_success_at s b now
  | ChannelSuccess b now => note_channel_success_at s b now
  | CircuitVerified b now => note_circuit_verified_at s b now
  | VerificationAttempt b now => note_verification_attempt_at s b now
  end.

Definition run (s : BridgeStore) (evs : list event) : BridgeStore :=
  fold_left apply_event evs s.

(** A [std::time::Duration] is never negative and thresholds are [u32]. *)
Definition event_ok (ev : event) : Prop :=
  match ev with
  | ProbeRound _ alive _ w mf mcf =>
      Forall (fun bl => 0 ≤ bl.2) alive ∧ 0 ≤ w ∧ in_u u32_max mf ∧ in_u u32_max mcf
  | CircuitFailure _ _ w => 0 ≤ w
  | _ => True
  end.

(** ** The store invariant *)

Record entry_wf (k : Key) (e : Entry) : Prop := mkEntryWf {
  wf_key : key_of (bridge e) = k;
  wf_fails : in_u u32_max (fails e);
  wf_ok_count : in_u u32_max (ok_count e);
  wf_channel : in_u u32_max (channel_ok_count e);
  wf_verified : in_u u32_max (verified_count e);
  wf_circuit : in_u u32_max (circuit_fails e);
  wf_latency : 0 ≤ last_latency e;
  wf_sources : bs_wf (sources e);
}.

Definition map_wf (m : bmap Key Entry) : Prop :=
  bm_wf m ∧ ∀ k e, bm_get k m = Some e → entry_wf k e.
Definition store_wf (s : BridgeStore) : Prop := map_wf (entries s).

Lemma u32_0 : in_u u32_max 0. Proof. unfold in_u, u32_max; lia. Qed.
Lemma u32_1 : in_u u32_max 1. Proof. unfold in_u, u32_max; lia. Qed.
Lemma u32_retired : in_u u32_max RETIRED_CIRCUIT_FAILS.
Proof. unfold in_u, RETIRED_CIRCUIT_FAILS, u32_max; lia. Qed.
Lemma u32_succ n : in_u u32_max n → in_u u32_max (saturating_add u32_max n 1).
Proof. intros. apply saturating_add_bounds; [done|lia]. Qed.
#[local] Hint Resolve u32_0 u32_1 u32_retired u32_succ : tor.

Lemma map_wf_insert k e m : map_wf m → entry_wf k e → map_wf (bm_insert k e m).
Proof.
  intros [Hm He] Hk. split; [by apply bm_insert_wf|]. intros k' e'.
  rewrite bm_get_insert. case_decide; [intros [= <-]; by subst|apply He].
Qed.

Lemma map_wf_remove k m : map_wf m → map_wf (bm_remove k m).
Proof.
  intros [Hm He]. split; [by apply bm_remove_wf|]. intros k' e'.
  rewrite bm_get_remove. case_decide; [done|apply He].
Qed.

Lemma map_wf_upsert k d f m :
  map_wf m → entry_wf k d → (∀ e, entry_wf k e → entry_wf k (f e)) → map_wf (bm_upsert k d f m).
Proof.
  intros Hm Hd Hf. apply map_wf_insert; [done|]. apply Hf.
  destruct (bm_get k m) as [e|] eqn:Hk; simpl; [by apply Hm|done].
Qed.

Lemma map_wf_modify k f m :
  map_wf m → (∀ e, entry_wf k e → entry_wf k (f e)) → map_wf (bm_modify k f m).
Proof.
  intros Hm Hf. unfold bm_modify. destruct (bm_get k m) as [e|] eqn:Hk; [|done].
  apply map_wf_insert; [done|]. by apply Hf, Hm.
Qed.

(** Build an [entry_wf] field by field. *)
Ltac entry_wf_tac :=
  intros; repeat match goal with Hwf : entry_wf _ _ |- _ => destruct Hwf end;
  constructor; simpl in *;
  first [done | by auto with tor | by apply bs_insert_wf | by constructor | lia].

Lemma fresh_entry_wf b now l f cf :
  0 ≤ l → in_u u32_max f → in_u u32_max cf → entry_wf (key_of b) (fresh_entry b now l f cf).
Proof. entry_wf_tac. Qed.

Lemma stamp_ok_wf b l now e :
  0 ≤ l → entry_wf (key_of b) e → entry_wf (key_of b) (stamp_ok b l now e).
Proof. entry_wf_tac. Qed.

Lemma bump_fails_wf k now e : entry_wf k e → entry_wf k (bump_fails now e).
Proof. entry_wf_tac. Qed.

Lemma set_circuit_wf k f now e :
  (∀ n, in_u u32_max n → in_u u32_max (f n)) → entry_wf k e → entry_wf k (set_circuit f now e).
Proof. entry_wf_tac. Qed.

Lemma add_source_wf k src e : entry_wf k e → entry_wf k (add_source src e).
Proof. entry_wf_tac. Qed.

Lemma bump_channel_wf k now e : entry_wf k e → entry_wf k (bump_channel now e).
Proof. entry_wf_tac. Qed.

Lemma bump_verified_wf k now e : entry_wf k e → entry_wf k (bump_verified now e).
Proof. entry_wf_tac. Qed.

Lemma stamp_verification_attempt_wf k now e :
  entry_wf k e → entry_wf k (stamp_verification_attempt now e).
Proof. entry_wf_tac. Qed.

#[local] Hint Resolve fresh_entry_wf stamp_ok_wf bump_fails_wf set_circuit_wf add_source_wf
  bump_channel_wf bump_verified_wf stamp_verification_attempt_wf
  map_wf_insert map_wf_remove map_wf_upsert map_wf_modify : tor.

Lemma record_at_wf s b l now : 0 ≤ l → store_wf s → store_wf (record_at s b l now).
Proof. intros. unfold store_wf; simpl. auto with tor lia. Qed.

Lemma note_failure_at_wf s b now w : store_wf s → store_wf (note_failure_at s b now w).1.
Proof.
  intros Hs. unfold note_failure_at. destruct (bm_get _ _) as [e|] eqn:Hk; [case_match|]; simpl;
    [..|unfold store_wf; simpl; auto with tor lia]; [|done].
  apply map_wf_insert; [done|]. by apply bump_fails_wf, Hs.
Qed.

Lemma note_circuit_failure_at_wf s b now w :
  store_wf s → store_wf (note_circuit_failure_at s b now w).1.
Proof.
  intros Hs. unfold note_circuit_failure_at.
  destruct (bm_get _ _) as [e|] eqn:Hk; [case_match|]; simpl;
    [..|unfold store_wf; simpl; auto with tor lia]; [|done].
  apply map_wf_insert; [done|]. apply set_circuit_wf; [auto with tor|by apply Hs].
Qed.

Lemma remove_each_wf ks m : map_wf m → map_wf (remove_each ks m).1.
Proof.
  revert m. induction ks as [|k ks IH]; intros m Hm; simpl; [done|].
  specialize (IH (bm_remove k m) (map_wf_remove _ _ Hm)).
  destruct (remove_each ks (bm_remove k m)) as [m' bs]. by destruct (bm_get k m).
Qed.

Lemma prune_wf s mf mcf : store_wf s → store_wf (prune s mf mcf).1.
Proof.
  intros Hs. unfold prune. set (ks := map _ _).
  pose proof (remove_each_wf ks (entries s) Hs). by destruct (remove_each ks (entries s)).
Qed.

Lemma record_alive_wf alive now s :
  Forall (fun bl => 0 ≤ bl.2) alive → store_wf s → store_wf (record_alive alive now s).
Proof.
  unfold record_alive. intros Ha. revert s.
  induction Ha as [|bl alive Hbl Ha IH]; intros s Hs; simpl; [done|].
  apply IH. by apply record_at_wf.
Qed.

Lemma note_failures_wf probed ks now w s :
  store_wf s → store_wf (note_failures probed ks now w s).
Proof.
  unfold note_failures. revert s. induction probed as [|b probed IH]; intros s Hs; simpl; [done|].
  apply IH. case_match; [done|]. by apply note_failure_at_wf.
Qed.

Lemma apply_event_wf s ev : event_ok ev → store_wf s → store_wf (apply_event s ev).
Proof.
  intros Hev Hs. destruct ev; simpl in *.
  - destruct Hev as (Ha & _). by apply prune_wf, note_failures_wf, record_alive_wf.
  - by apply note_circuit_failure_at_wf.
  - unfold store_wf; simpl. auto 8 with tor lia.
  - unfold store_wf; simpl. auto 8 with tor lia.
  - unfold store_wf; simpl. auto 8 with tor lia.
  - unfold store_wf; simpl. auto 8 with tor lia.
  - unfold store_wf; simpl. auto 8 with tor lia.
  - unfold store_wf; simpl. auto 8 with tor lia.
Qed.

Lemma run_wf s evs : Forall event_ok evs → store_wf s → store_wf (run s evs).
Proof.
  unfold run. intros Hevs. revert s. induction Hevs as [|ev evs Hev Hevs IH]; intros s Hs; simpl;
    [done|]. apply IH. by apply apply_event_wf.
Qed.

(** ** Pruning *)

Lemma remove_each_get ks m k :
  bm_get k (remove_each ks m).1 = if decide (k ∈ ks) then None else bm_get k m.
Proof.
  revert m. induction ks as [|k' ks IH]; intros m; simpl.
  { by destruct (decide (k ∈ [])) as [?%not_elem_of_nil|]. }
  specialize (IH (bm_remove k' m)). destruct (remove_each ks (bm_remove k' m)) as [m' bs].
  assert (∀ r : list BridgeLine, (match bm_get k' m with
    | Some e => (m', bridge e :: r) | None => (m', r) end).1 = m') as -> by (by destruct (bm_get k' m)).
  simpl in IH. rewrite IH, bm_get_remove.
  destruct (decide (k ∈ ks)), (decide (k = k')), (decide (k ∈ k' :: ks)); set_solver.
Qed.

Lemma remove_each_bridges l m :
  NoDup l.*1 → (∀ k e, (k, e) ∈ l → bm_get k m = Some e) →
  (remove_each (map fst l) m).2 = map (fun ke => bridge ke.2) l.
Proof.
  revert m. induction l as [|[k e] l IH]; intros m Hnd Hl; simpl; [done|].
  apply NoDup_cons in Hnd as [Hk Hnd].
  specialize (IH (bm_remove k m) Hnd).
  destruct (remove_each (map fst l) (bm_remove k m)) as [m' bs].
  rewrite (Hl k e) by left. simpl in *. f_equal. apply IH.
  intros k' e' Hin. rewrite bm_get_remove_ne; [apply Hl; by right|].
  intros ->. by apply Hk, (list_elem_of_fmap_2' fst _ (k, e')).
Qed.

Lemma filter_keys_NoDup (P : Key * Entry → bool) m : bm_wf m → NoDup (List.filter P m).*1.
Proof.
  intros Hm. pose proof (bm_keys_NoDup m Hm) as Hk. change (bm_keys m) with (m.*1) in Hk.
  clear Hm. induction m as [|[k e] m IH]; simpl in *; [constructor|].
  apply NoDup_cons in Hk as [Hk Hnd]. destruct (P (k, e)); simpl; [|by apply IH].
  constructor; [|by apply IH]. intros ([k' e'] & -> & Hin)%list_elem_of_fmap. apply Hk.
  apply (list_elem_of_fmap_2' fst _ (k', e')); [|done].
  apply list_elem_of_In, filter_In in Hin as [Hin _]. by apply list_elem_of_In.
Qed.

Lemma prune_get s mf mcf k :
  store_wf s →
  bm_get k (entries (prune s mf mcf).1) =
    match bm_get k (entries s) with
    | Some e => if is_dead mf mcf e then None else Some e
    | None => None
    end.
Proof.
  intros [Hwf _]. unfold prune. set (ks := map fst _).
  pose proof (remove_each_get ks (entries s) k) as Hr.
  destruct (remove_each ks (entries s)) as [m bs]. simpl in *. rewrite Hr. clear Hr.
  assert (k ∈ ks ↔ ∃ e, bm_get k (entries s) = Some e ∧ is_dead mf mcf e = true) as Hks.
  { subst ks. rewrite list_elem_of_In, in_map_iff. split.
    - intros ([k' e] & <- & [Hin Hd]%filter_In). exists e.
      split; [by apply bm_elem_get, list_elem_of_In|done].
    - intros (e & Hg & Hd). exists (k, e). split; [done|]. apply filter_In.
      split; [by apply list_elem_of_In, bm_get_elem|done]. }
  destruct (decide (k ∈ ks)) as [Hin|Hout].
  - apply Hks in Hin as (e & -> & ->). done.
  - destruct (bm_get k (entries s)) as [e|] eqn:Hg; [|done].
    destruct (is_dead mf mcf e) eqn:Hd; [|done]. destruct Hout. apply Hks. eauto.
Qed.

Lemma prune_bridges s mf mcf :
  store_wf s →
  (prune s mf mcf).2 = map bridge (List.filter (is_dead mf mcf) (bm_values (entries s))).
Proof.
  intros [Hwf _]. unfold prune.
  set (l := List.filter (fun ke => is_dead mf mcf ke.2) (entries s)).
  pose proof (remove_each_bridges l (entries s)) as Hr.
  destruct (remove_each (map fst l) (entries s)) as [m bs]. simpl in *. rewrite Hr.
  - subst l. clear Hr. unfold bm_values. clear Hwf m bs.
    induction (entries s) as [|[k e] m IH]; simpl; [done|].
    destruct (is_dead mf mcf e); simpl; by rewrite IH.
  - by apply filter_keys_NoDup.
  - intros k e Hin. apply bm_elem_get; [done|].
    by apply list_elem_of_In, filter_In, proj1, list_elem_of_In in Hin.
Qed.

(** ** One probe round, seen from one bridge *)

(** What a successful probe does to the entry of a bridge. *)
Definition probed_ok (now : OffsetDateTime) (o : option Entry) (bl : BridgeLine * Z) : option Entry :=
  Some (stamp_ok bl.1 bl.2 now (default (fresh_entry bl.1 now bl.2 0 0) o)).

(** What a failed probe does to the entry of a bridge. *)
Definition probed_failed (now : OffsetDateTime) (window : Z) (o : option Entry) (b : BridgeLine)
  : option Entry :=
  match o with
  | Some e => if window <=? odt_sub now (last_attempt e) then Some (bump_fails now e) else Some e
  | None => Some (fresh_entry b now 0 1 0)
  end.


Lemma record_alive_get alive now s k :
  bm_get k (entries (record_alive alive now s)) =
    fold_left (probed_ok now) (filter (fun bl => key_of bl.1 = k) alive) (bm_get k (entries s)).
Proof.
  unfold record_alive. revert s. induction alive as [|bl alive IH]; intros s; [done|].
  cbn [fold_left]. rewrite IH. unfold record_at at 1; simpl. rewrite bm_get_upsert.
  rewrite filter_cons. destruct (decide (k = key_of bl.1)) as [->|Hne].
  - rewrite decide_True by done. done.
  - by rewrite decide_False by congruence.
Qed.

Lemma note_failure_at_get s b now w k :
  bm_get k (entries (note_failure_at s b now w).1) =
    if decide (k = key_of b) then probed_failed now w (bm_get k (entries s)) b
    else bm_get k (entries s).
Proof.
  unfold note_failure_at, probed_failed. destruct (bm_get (key_of b) (entries s)) as [e|] eqn:He.
  - destruct (w <=? _) eqn:Hw; simpl; [rewrite bm_get_insert|];
      case_decide; subst; rewrite ?He, ?Hw; done.
  - simpl. rewrite bm_get_insert. case_decide; subst; by rewrite ?He.
Qed.

Lemma note_failures_get probed ks now w s k :
  bm_get k (entries (note_failures probed ks now w s)) =
    if decide (k ∈ ks) then bm_get k (entries s)
    else fold_left (probed_failed now w) (filter (fun b => key_of b = k) probed)
           (bm_get k (entries s)).
Proof.
  unfold note_failures. revert s. induction probed as [|b probed IH]; intros s.
  { simpl. by destruct (decide (k ∈ ks)). }
  cbn [fold_left]. rewrite IH, filter_cons.
  destruct (decide (key_of b = k)) as [Hk|Hk].
  - rewrite Hk. destruct (decide (k ∈ ks)) as [Hin|Hin].
    + by rewrite bool_decide_true by done.
    + rewrite bool_decide_false by done. rewrite note_failure_at_get.
      by destruct (decide (k = key_of b)); [|congruence].
  - case_bool_decide; [done|]. rewrite note_failure_at_get.
    by destruct (decide (k = key_of b)); [congruence|].
Qed.

(** The entry of [k] after both loops of a round. *)
Lemma round_loops_get probed alive now w s k :
  bm_get k (entries (note_failures probed (map (fun bl => key_of bl.1) alive) now w
                       (record_alive alive now s))) =
    match filter (fun bl => key_of bl.1 = k) alive with
    | [] => fold_left (probed_failed now w) (filter (fun b => key_of b = k) probed)
              (bm_get k (entries s))
    | oks => fold_left (probed_ok now) oks (bm_get k (entries s))
    end.
Proof.
  rewrite note_failures_get, record_alive_get.
  destruct (decide (k ∈ map (fun bl => key_of bl.1) alive)) as [Hin|Hout].
  - destruct (filter _ alive) eqn:Hf; [|done]. exfalso.
    apply list_elem_of_fmap in Hin as (bl & -> & Hin).
    assert (bl ∈ filter (fun bl' : BridgeLine * Z => key_of bl'.1 = key_of bl.1) alive) as Hbl
      by by apply list_elem_of_filter.
    rewrite Hf in Hbl. by apply not_elem_of_nil in Hbl.
  - destruct (filter _ alive) as [|bl oks] eqn:Hf; [done|]. exfalso. apply Hout.
    assert (bl ∈ bl :: oks) as Hbl by left. rewrite <-Hf in Hbl.
    apply list_elem_of_filter in Hbl as [<- Hbl]. by apply (list_elem_of_fmap_2 (fun bl => key_of bl.1)).
Qed.

Lemma round_loops_wf probed alive now w s :
  Forall (fun bl => 0 ≤ bl.2) alive → store_wf s →
  store_wf (note_failures probed (map (fun bl => key_of bl.1) alive) now w
              (record_alive alive now s)).
Proof. intros. by apply note_failures_wf, record_alive_wf. Qed.

Lemma fold_probed_failed_some now w l o :
  is_Some (fold_left (probed_failed now w) l o) ↔ is_Some o ∨ l ≠ [].
Proof.
  revert o. induction l as [|b l IH]; intros o; simpl; [naive_solver|]. rewrite IH.
  unfold probed_failed. split; [by right|]. intros _. left. destruct o as [e|]; [case_match|]; eauto.
Qed.

Lemma fold_probed_ok_some now l o :
  is_Some (fold_left (probed_ok now) l o) ↔ is_Some o ∨ l ≠ [].
Proof.
  revert o. induction l as [|bl l IH]; intros o; simpl; [naive_solver|]. rewrite IH.
  unfold probed_ok. split; [by right|]. eauto.
Qed.

(** A bridge has an entry after the loops when it had one or was probed. *)
Lemma round_loops_some probed alive now w s k :
  is_Some (bm_get k (entries (note_failures probed (map (fun bl => key_of bl.1) alive) now w
                                (record_alive alive now s)))) ↔
  is_Some (bm_get k (entries s)) ∨ k ∈ map key_of probed ∨ k ∈ map (fun bl => key_of bl.1) alive.
Proof.
  rewrite round_loops_get.
  assert (∀ A (f : A → Key) l, k ∈ map f l ↔ filter (fun x => f x = k) l ≠ []) as Hfil.
  { intros A f l. change (map f l) with (f <$> l). rewrite list_elem_of_fmap. split.
    - intros (x & -> & Hx) Hf. assert (x ∈ filter (fun y => f y = f x) l) as Hin
        by by apply list_elem_of_filter. rewrite Hf in Hin. by apply not_elem_of_nil in Hin.
    - intros Hf. destruct (filter _ l) as [|x r] eqn:Hr; [done|].
      assert (x ∈ x :: r) as Hin by left. rewrite <-Hr in Hin.
      apply list_elem_of_filter in Hin as [<- Hin]. eauto. }
  rewrite !Hfil. destruct (filter (fun bl : BridgeLine * Z => key_of bl.1 = k) alive) as [|bl oks].
  - rewrite fold_probed_failed_some. naive_solver.
  - rewrite fold_probed_ok_some. naive_solver.
Qed.

(** ** Rate limiting *)

(** Circuit failures of one bridge observed at the given times, with the
    number of times the counter was bumped. *)
Fixpoint observe_circuit_failures (s : BridgeStore) (b : BridgeLine) (window : Z)
  (times : list OffsetDateTime) : BridgeStore * nat :=
  match times with
  | [] => (s, 0%nat)
  | t :: times' =>
      let '(s1, bumped) := note_circuit_failure_at s b t window in
      let '(s2, n) := observe_circuit_failures s1 b window times' in
      (s2, if bumped then S n else n)
  end.

Definition circuit_count (s : BridgeStore) (b : BridgeLine) : Z :=
  match bm_get (key_of b) (entries s) with
  | Some e => circuit_fails e
  | None => 0
  end.

Lemma saturating_add_assoc mx x a b :
  0 ≤ a → 0 ≤ b → saturating_add mx (saturating_add mx x a) b = saturating_add mx x (a + b).
Proof. unfold saturating_add. lia. Qed.

(** From a known entry, every bump needs a further window. *)
Lemma observe_circuit_failures_known times : ∀ s b window e last,
  0 ≤ window → in_u u32_max (circuit_fails e) →
  bm_get (key_of b) (entries s) = Some e →
  Forall (fun t => odt_nanos t ≤ last) times →
  let '(s', n) := observe_circuit_failures s b window times in
  (n = 0%nat ∨ Z.of_nat n * window ≤ last - odt_nanos (last_circuit_observation e)) ∧
  circuit_count s' b = saturating_add u32_max (circuit_fails e) (Z.of_nat n).
Proof.
  induction times as [|t times IH]; intros s b window e last Hw Hu He Hl; simpl.
  { split; [by left|]. unfold circuit_count. rewrite He. unfold saturating_add, in_u in *. lia. }
  apply Forall_cons in Hl as [Ht Hl]. unfold note_circuit_failure_at. rewrite He.
  destruct (Z.leb_spec window (odt_sub t (last_circuit_observation e))) as [Hle|Hgt]; simpl.
  - set (e' := set_circuit _ t e). set (s1 := with_entries _ _).
    assert (bm_get (key_of b) (entries s1) = Some e') as He' by (simpl; apply bm_get_insert_eq).
    specialize (IH s1 b window e' last Hw (u32_succ _ Hu) He' Hl).
    destruct (observe_circuit_failures s1 b window times) as [s2 n].
    unfold odt_sub in Hle. destruct IH as [Hn Hc]. rewrite Hc. simpl in Hn. split; [right; lia|].
    simpl. rewrite saturating_add_assoc by lia. f_equal. lia.
  - specialize (IH s b window e last Hw Hu He Hl).
    by destruct (observe_circuit_failures s b window times) as [s2 n].
Qed.

(** The keys of the bridges [prune] returns. *)
Lemma dropped_keys s mf mcf :
  store_wf s →
  map key_of (map bridge (List.filter (is_dead mf mcf) (bm_values (entries s)))) =
    (List.filter (fun ke => is_dead mf mcf ke.2) (entries s)).*1.
Proof.
  intros [Hwf He]. assert (∀ k e, (k, e) ∈ entries s → key_of (bridge e) = k) as Hk.
  { intros k e Hin. apply wf_key, He. by apply bm_elem_get. }
  clear Hwf He. unfold bm_values. induction (entries s) as [|[k e] m IH]; [done|]. simpl.
  assert (key_of (bridge e) = k) as Hke by (apply Hk; left).
  destruct (is_dead mf mcf e); simpl; [f_equal; [done|]|]; apply IH; intros k' e' ?;
    apply Hk; by right.
Qed.

Lemma elem_of_dead_keys s mf mcf k :
  store_wf s →
  k ∈ (List.filter (fun ke => is_dead mf mcf ke.2) (entries s)).*1 ↔
    ∃ e, bm_get k (entries s) = Some e ∧ is_dead mf mcf e = true.
Proof.
  intros [Hwf _]. rewrite list_elem_of_In. unfold fmap. rewrite in_map_iff. split.
  - intros ([k' e] & <- & [Hin Hd]%filter_In). exists e.
    split; [by apply bm_elem_get, list_elem_of_In|done].
  - intros (e & Hg & Hd). exists (k, e). split; [done|]. apply filter_In.
    split; [by apply list_elem_of_In, bm_get_elem|done].
Qed.

Lemma observe_from_known s b window first last times e :
  store_wf s → 0 ≤ window → first ≤ last →
  Forall (fun t => first ≤ odt_nanos t ≤ last) times →
  bm_get (key_of b) (entries s) = Some e →
  let '(s', n) := observe_circuit_failures s b window times in
  (Z.of_nat n - 1) * window ≤ last - first ∧
  circuit_count s' b = saturating_add u32_max (circuit_count s b) (Z.of_nat n).
Proof.
  intros [_ Hwf] Hw Hfl Hts He. pose proof (wf_circuit _ _ (Hwf _ _ He)) as Hu. clear Hwf.
  assert (circuit_count s b = circuit_fails e) as -> by (unfold circuit_count; by rewrite He).
  revert s e Hu He. induction Hts as [|t times Ht Hts IH]; intros s e Hu He; simpl.
  { split; [nia|]. unfold circuit_count. rewrite He. unfold saturating_add, in_u in *. lia. }
  unfold note_circuit_failure_at. rewrite He.
  destruct (window <=? odt_sub t (last_circuit_observation e)); simpl.
  2: { specialize (IH s e Hu He). by destruct (observe_circuit_failures s b window times). }
  set (e' := set_circuit _ t e). set (s1 := with_entries _ _).
  assert (bm_get (key_of b) (entries s1) = Some e') as He' by (simpl; apply bm_get_insert_eq).
  assert (Forall (fun t => odt_nanos t ≤ last) times) as Hl
    by (eapply Forall_impl; [exact Hts|simpl; lia]).
  pose proof (observe_circuit_failures_known times s1 b window e' last Hw (u32_succ _ Hu) He' Hl) as IHk.
  destruct (observe_circuit_failures s1 b window times) as [s2 n]. simpl in IHk.
  destruct IHk as [Hn ->]. split; [destruct Hn as [->|Hn]; lia|].
  rewrite saturating_add_assoc by lia. f_equal. lia.
Qed.

Lemma observe_from_unknown s b window first last times :
  0 ≤ window → first ≤ last →
  Forall (fun t => first ≤ odt_nanos t ≤ last) times →
  bm_get (key_of b) (entries s) = None →
  let '(s', n) := observe_circuit_failures s b window times in
  (Z.of_nat n - 1) * window ≤ last - first ∧
  circuit_count s' b = saturating_add u32_max (circuit_count s b) (Z.of_nat n).
Proof.
  intros Hw Hfl Hts He.
  assert (circuit_count s b = 0) as -> by (unfold circuit_count; by rewrite He).
  destruct Hts as [|t times Ht Hts]; simpl.
  { split; [nia|]. unfold circuit_count. by rewrite He. }
  unfold note_circuit_failure_at. rewrite He. simpl.
  set (e' := fresh_entry b t 0 0 1). set (s1 := with_entries _ _).
  assert (bm_get (key_of b) (entries s1) = Some e') as He' by (simpl; apply bm_get_insert_eq).
  assert (Forall (fun t => odt_nanos t ≤ last) times) as Hl
    by (eapply Forall_impl; [exact Hts|simpl; lia]).
  pose proof (observe_circuit_failures_known times s1 b window e' last Hw u32_1 He' Hl) as IHk.
  destruct (observe_circuit_failures s1 b window times) as [s2 n]. simpl in IHk.
  destruct IHk as [Hn ->]. split; [destruct Hn as [->|Hn]; lia|].
  change 1 with (saturating_add u32_max 0 1) at 1.
  rewrite saturating_add_assoc by lia. f_equal. lia.
Qed.

Lemma note_circuit_failure_at_get s b now w k :
  bm_get k (entries (note_circuit_failure_at s b now w).1) =
    if decide (k = key_of b) then
      match bm_get k (entries s) with
      | Some e => if w <=? odt_sub now (last_circuit_observation e)
                  then Some (set_circuit (fun n => saturating_add u32_max n 1) now e) else Some e
      | None => Some (fresh_entry b now 0 0 1)
      end
    else bm_get k (entries s).
Proof.
  unfold note_circuit_failure_at. destruct (bm_get (key_of b) (entries s)) as [e|] eqn:He.
  - destruct (w <=? _) eqn:Hw; simpl; [rewrite bm_get_insert|];
      case_decide; subst; rewrite ?He, ?Hw; done.
  - simpl. rewrite bm_get_insert. case_decide; subst; by rewrite ?He.
Qed.

Lemma retired_saturates now e :
  entry_is_retired e = true →
  entry_is_retired (set_circuit (fun n => saturating_add u32_max n 1) now e) = true.
Proof.
  unfold entry_is_retired, RETIRED_CIRCUIT_FAILS, saturating_add. simpl.
  rewrite !Z.eqb_eq. intros ->. lia.
Qed.

(** starting from an empty store, every sequence of observations yields a
    store whose map is strictly ordered by bridge identity, in which each entry
    sits under the identity of its own bridge line, every counter is a [u32],
    latencies are not negative and the source set is ordered and free of
    duplicates. *)
Theorem reachable_store_wf (p : str) (evs : list event) :
  Forall event_ok evs → store_wf (run (mkStore p []) evs).
Proof.
  intros Hevs. apply run_wf; [done|]. split; [constructor|]. intros k e He. done.
Qed.


(** the bridges a probe round returns are exactly the identities that were
    known or probed and are no longer in the store, each returned once, so the
    caller can drop precisely them from the configuration. *)
Theorem note_probe_round_returns (s : BridgeStore) probed alive now window mf mcf :
  store_wf s → Forall (fun bl => 0 ≤ bl.2) alive →
  let '(s', dropped) := note_probe_round s probed alive now window mf mcf in
  NoDup (map key_of dropped) ∧
  ∀ k, k ∈ map key_of dropped ↔
    (is_Some (bm_get k (entries s)) ∨ k ∈ map key_of probed ∨ k ∈ map (fun bl => key_of bl.1) alive)
    ∧ bm_get k (entries s') = None.
Proof.
  intros Hs Ha. unfold note_probe_round.
  pose proof (round_loops_wf probed alive now window s Ha Hs) as Hwf.
  pose proof (fun k => round_loops_some probed alive now window s k) as Hsome.
  set (s1 := note_failures _ _ _ _ _) in *.
  pose proof (fun k => prune_get s1 mf mcf k Hwf) as Hget.
  pose proof (prune_bridges s1 mf mcf Hwf) as Hret.
  destruct (prune s1 mf mcf) as [s2 dropped]. simpl in Hget, Hret. subst dropped.
  rewrite (dropped_keys s1 mf mcf Hwf). split.
  { apply filter_keys_NoDup, Hwf. }
  intros k. rewrite <-Hsome, Hget, (elem_of_dead_keys s1 mf mcf k Hwf).
  destruct (bm_get k (entries s1)) as [e|].
  - destruct (is_dead mf mcf e) eqn:Hd; split; [eauto|intros _; eauto|intros (e' & [= <-] & ?); congruence|].
    intros [_ ?]; congruence.
  - split; [intros (e & ? & _); congruence|intros [[e ?] _]; congruence].
Qed.

(** circuit failures are rate limited: observations of a bridge between the
    instants [first] and [last] bump its counter at most once per window (one
    bump, plus one for every full window that fits), and the counter ends at
    its old value plus the number of bumps, saturating at [u32::MAX]. *)
Theorem circuit_failures_rate_limited (s : BridgeStore) b window first last times :
  store_wf s → 0 ≤ window → first ≤ last →
  Forall (fun t => first ≤ odt_nanos t ≤ last) times →
  let '(s', n) := observe_circuit_failures s b window times in
  (Z.of_nat n - 1) * window ≤ last - first ∧
  circuit_count s' b = saturating_add u32_max (circuit_count s b) (Z.of_nat n).
Proof.
  intros Hs Hw Hfl Hts.
  assert (Forall (fun t => odt_nanos t ≤ last) times) as Hl
    by (eapply Forall_impl; [exact Hts|simpl; lia]).
  destruct (bm_get (key_of b) (entries s)) as [e|] eqn:He.
  - exact (observe_from_known _ _ _ _ _ _ _ Hs Hw Hfl Hts He).
  - exact (observe_from_unknown _ _ _ _ _ _ Hw Hfl Hts He).
Qed.

(** a bridge marked permanently unusable stays retired under every other
    observation except a circuit success of that bridge and a probe round:
    further failures, source credits, channel successes and verifications keep
    the mark. *)
Theorem retirement_is_kept (s : BridgeStore) (b : BridgeLine) (ev : event) :
  is_retired s b = true →
  (match ev with
   | ProbeRound _ _ _ _ _ _ => False
   | CircuitSuccess b' _ => key_of b' ≠ key_of b
   | _ => True
   end) →
  is_retired (apply_event s ev) b = true.
Proof.
  unfold is_retired. destruct (bm_get (key_of b) (entries s)) as [e|] eqn:He; [|done].
  intros Hr Hev. destruct ev; simpl in *; try done.
  - rewrite note_circuit_failure_at_get, He. case_decide; simpl; [|done].
    destruct (window <=? _); [|done]. by apply retired_saturates.
  - rewrite bm_get_upsert. case_decide as Hk; [|by rewrite He]. done.
  - rewrite bm_get_upsert. case_decide as Hk; [|by rewrite He]. by rewrite <-Hk, He.
  - rewrite bm_get_modify, He, decide_False by congruence. done.
  - rewrite bm_get_modify. case_decide as Hk; [|by rewrite He]. by rewrite <-Hk, He.
  - rewrite bm_get_modify. case_decide as Hk; [|by rewrite He]. by rewrite <-Hk, He.
  - rewrite bm_get_modify. case_decide as Hk; [|by rewrite He]. by rewrite <-Hk, He.
Qed.

(** every probe round forgets every retirement.  The mark is the largest
    [u32], so an entry that carries it is over any circuit-failure threshold,
    also over [u32::MAX], which two callers pass to mean that nothing is to be
    pruned; after the round no bridge is reported as retired. *)
Theorem probe_round_forgets_retirements (s : BridgeStore) probed alive now window mf mcf b :
  store_wf s → Forall (fun bl => 0 ≤ bl.2) alive → in_u u32_max mcf →
  is_retired (note_probe_round s probed alive now window mf mcf).1 b = false.
Proof.
  intros Hs Ha Hmcf. unfold note_probe_round, is_retired.
  rewrite prune_get by by apply round_loops_wf.
  destruct (bm_get _ _) as [e|]; [|done]. destruct (is_dead mf mcf e) eqn:Hd; [done|].
  unfold is_dead in Hd. boolprop. unfold entry_is_retired, RETIRED_CIRCUIT_FAILS, in_u in *.
  apply Z.eqb_neq. lia.
Qed.
End Store.

(** ** Witnesses *)

Section Witnesses.
#[local] Existing Instance sample_url.
#[local] Existing Instance sample_tls.
#[local] Existing Instance sample_time.

Definition sample_events : list event :=
  [ SourceSeen plain_bridge (lit "collector") 5;
    ProbeRound [plain_bridge; obfs4_bridge] [(obfs4_bridge, 7)] 10 3 4 4;
    PermanentFailure webtunnel_bridge 12 ].
Definition sample_store : BridgeStore := run (mkStore [] []) sample_events.

Lemma sample_events_ok : Forall event_ok sample_events.
Proof.
  repeat (apply Forall_cons; split); try apply Forall_nil_2; simpl; try done.
  split; [repeat constructor; simpl; lia|]. unfold in_u, u32_max. lia.
Qed.

Lemma sample_store_wf : store_wf sample_store.
Proof.
  apply run_wf; [apply sample_events_ok|]. split; [constructor|]. done.
Qed.

Lemma reachable_store_wf_witness :
  store_wf (run (mkStore [] []) sample_events) ∧ len (run (mkStore [] []) sample_events) = 3%nat.
Proof.
  split; [|vm_compute; reflexivity]. apply reachable_store_wf. exact sample_events_ok.
Defined.


Lemma note_probe_round_returns_witness :
  let '(s', dropped) := note_probe_round sample_store [plain_bridge] [(obfs4_bridge, 1)] 20 3 2 9 in
  NoDup (map key_of dropped) ∧
  (key_of plain_bridge ∈ map key_of dropped ↔
    (is_Some (bm_get (key_of plain_bridge) (entries sample_store)) ∨
     key_of plain_bridge ∈ map key_of [plain_bridge] ∨
     key_of plain_bridge ∈ map (fun bl => key_of bl.1) [(obfs4_bridge, 1)])
    ∧ bm_get (key_of plain_bridge) (entries s') = None).
Proof.
  pose proof (note_probe_round_returns sample_store [plain_bridge] [(obfs4_bridge, 1)] 20 3 2 9
                sample_store_wf) as Hr.
  destruct (note_probe_round _ _ _ _ _ _ _) as [s' dropped].
  destruct Hr as [Hnd Hk]; [repeat constructor; simpl; lia|]. split; [exact Hnd|apply Hk].
Defined.

Lemma circuit_failures_rate_limited_witness :
  let '(s', n) := observe_circuit_failures sample_store plain_bridge 5 [20; 22; 26; 31] in
  (Z.of_nat n - 1) * 5 ≤ 31 - 20 ∧
  circuit_count s' plain_bridge =
    saturating_add u32_max (circuit_count sample_store plain_bridge) (Z.of_nat n).
Proof.
  apply (circuit_failures_rate_limited sample_store plain_bridge 5 20 31 [20; 22; 26; 31]);
    [exact sample_store_wf|lia|lia|].
  repeat (apply Forall_cons; split); try apply Forall_nil_2; simpl; lia.
Defined.

Definition sample_failure : event := CircuitFailure webtunnel_bridge 40 1.

Lemma retirement_is_kept_witness :
  is_retired (apply_event sample_store sample_failure) webtunnel_bridge = true.
Proof.
  apply (retirement_is_kept sample_store webtunnel_bridge sample_failure);
    [vm_compute; reflexivity|exact I].
Defined.

(** The retired bridge is lost although both thresholds are [u32::MAX]. *)
Lemma probe_round_forgets_retirements_witness :
  is_retired sample_store webtunnel_bridge = true ∧
  is_retired (note_probe_round sample_store [plain_bridge] [(plain_bridge, 1)] 50 0 u32_max u32_max).1
    webtunnel_bridge = false.
Proof.
  split; [vm_compute; reflexivity|].
  apply (probe_round_forgets_retirements sample_store [plain_bridge] [(plain_bridge, 1)] 50 0
           u32_max u32_max webtunnel_bridge sample_store_wf).
  - repeat constructor; simpl; lia.
  - unfold in_u, u32_max. lia.
Defined.
End Witnesses.
End Store.
