(* ===== verification/StoreStats.v ===== *)
(** * The bridge health store: queries and ranking

    [packages/bridge-store/src/stats.rs]: summaries by source and transport,
    per-bridge getters, and the health-ranked selections built on the bounded
    heap [take_best]. *)

From S2P Require Import Prelude Order OrdMap Str Net Crates Samples Identity BridgeStore.
Import Identity Store.
Open Scope Z_scope.

Module Stats.

(** [take_best]: the [limit] best items, through a heap that never holds more
    than [limit]. *)
Definition take_best {A} (c : A → A → comparison) {H} `{!MaxHeap c H} (items : list A) (limit : nat)
  : list A :=
  if (limit =? 0)%nat then []
  else sort_by c (heap_into_vec (c := c) (keep_best c limit items)).

Section Stats.
Context `{UrlCrate, TlsCrate, TimeCrate}.

(** ** Rankings *)

Definition rank_cmp (a b : Entry) : comparison :=
  cmp (verified_count b) (verified_count a)
  ⊳ option_cmp odt_cmp (last_verified b) (last_verified a)
  ⊳ cmp (channel_ok_count b) (channel_ok_count a)
  ⊳ option_cmp odt_cmp (last_channel_ok b) (last_channel_ok a)
  ⊳ cmp (ok_count b) (ok_count a)
  ⊳ cmp (last_latency a) (last_latency b).

Definition channel_proven_cmp (a b : Entry) : comparison :=
  option_cmp odt_cmp (last_channel_ok b) (last_channel_ok a)
  ⊳ cmp (channel_ok_count b) (channel_ok_count a).

(** When an entry was last tried: the attempt, else the verification. *)
Definition due (e : Entry) : option OffsetDateTime :=
  match last_verification_attempt e with
  | Some t => Some t
  | None => last_verified e
  end.

Definition due_cmp (a b : Entry) : comparison := option_cmp odt_cmp (due a) (due b).

(** The heap items of the source ([Ranked], [DueForVerification],
    [ChannelProven]) pair an entry with its position and break ties by it. *)
Definition Ranked : nat * Entry → nat * Entry → comparison := positioned rank_cmp.
Definition DueForVerification : nat * Entry → nat * Entry → comparison := positioned due_cmp.
Definition ChannelProven : nat * Entry → nat * Entry → comparison := positioned channel_proven_cmp.

#[export] Instance rank_cmp_ranking : Ranking rank_cmp.
Proof.
  change (Ranking (cmp_lex (cmp_rev (cmp_on verified_count cmp))
    (cmp_lex (cmp_rev (cmp_on last_verified (option_cmp odt_cmp)))
    (cmp_lex (cmp_rev (cmp_on channel_ok_count cmp))
    (cmp_lex (cmp_rev (cmp_on last_channel_ok (option_cmp odt_cmp)))
    (cmp_lex (cmp_rev (cmp_on ok_count cmp)) (cmp_on last_latency cmp))))))).
  apply _.
Qed.

#[export] Instance channel_proven_cmp_ranking : Ranking channel_proven_cmp.
Proof.
  change (Ranking (cmp_lex (cmp_rev (cmp_on last_channel_ok (option_cmp odt_cmp)))
    (cmp_rev (cmp_on channel_ok_count cmp)))). apply _.
Qed.

#[export] Instance due_cmp_ranking : Ranking due_cmp.
Proof. change (Ranking (cmp_on due (option_cmp odt_cmp))). apply _. Qed.

#[local] Instance ranked_ranking : Ranking Ranked.
Proof. apply positioned_ranking, _. Qed.
#[local] Instance due_ranking : Ranking DueForVerification.
Proof. apply positioned_ranking, _. Qed.
#[local] Instance channel_ranking : Ranking ChannelProven.
Proof. apply positioned_ranking, _. Qed.

(** ** Selections *)

Definition is_channel_proven (e : Entry) : bool :=
  (0 <? channel_ok_count e) && negb (entry_is_retired e).

Definition channel_proven_bridges (s : BridgeStore) (limit : nat) : list BridgeLine :=
  map (fun r => bridge r.2)
    (take_best ChannelProven
       (enumerate (List.filter is_channel_proven (bm_values (entries s)))) limit).

Definition is_due (now : OffsetDateTime) (max_age : Z) (e : Entry) : bool :=
  match last_verified e with
  | None => true
  | Some t => max_age <=? odt_sub now t
  end.

Definition needing_circuit_verification (s : BridgeStore) (now : OffsetDateTime) (max_age : Z)
  (limit : nat) (filter : BridgeLine → bool) : list BridgeLine :=
  map (fun d => bridge d.2)
    (take_best DueForVerification
       (enumerate
          (List.filter (fun e => filter (bridge e))
             (List.filter (is_due now max_age)
                (List.filter is_channel_proven (bm_values (entries s)))))) limit).

Definition rank_and_take (healthy : list Entry) (limit : nat) : list BridgeLine :=
  map (fun r => bridge r.2) (take_best Ranked (enumerate healthy) limit).

Definition healthiest_bridges (s : BridgeStore) (limit : nat) : list BridgeLine :=
  rank_and_take (List.filter is_proven_alive (bm_values (entries s))) limit.

Definition healthiest_among (s : BridgeStore) (candidates : list BridgeLine) (limit : nat)
  : list BridgeLine :=
  let allowed := map key_of candidates in
  rank_and_take
    (map snd (List.filter (fun ke => is_proven_alive ke.2 && bool_decide (ke.1 ∈ allowed)) (entries s)))
    limit.

(** The cached sort key of [rank_probe_round]. *)
Definition probe_rank_key (s : BridgeStore) (bl : BridgeLine * Z) : Z * Z * Z :=
  let entry := bm_get (key_of bl.1) (entries s) in
  (from_option channel_ok_count 0 entry, from_option ok_count 0 entry, bl.2).

Definition probe_rank_cmp (s : BridgeStore) (x y : BridgeLine * Z) : comparison :=
  let '(cx, ox, lx) := probe_rank_key s x in
  let '(cy, oy, ly) := probe_rank_key s y in
  cmp cy cx ⊳ cmp oy ox ⊳ cmp lx ly.

Definition rank_probe_round (s : BridgeStore) (alive : list (BridgeLine * Z))
  : list (BridgeLine * Z) := sort_by (probe_rank_cmp s) alive.

(** ** Getters *)

Definition getter {A} (d : A) (f : Entry → A) (s : BridgeStore) (b : BridgeLine) : A :=
  match bm_get (key_of b) (entries s) with
  | Some e => f e
  | None => d
  end.

Definition sources_of : BridgeStore → BridgeLine → list str := getter [] sources.
Definition get_ok_count : BridgeStore → BridgeLine → Z := getter 0 ok_count.
Definition get_circuit_fails : BridgeStore → BridgeLine → Z := getter 0 circuit_fails.
Definition get_last_circuit_observation : BridgeStore → BridgeLine → option OffsetDateTime :=
  getter None (fun e => Some (last_circuit_observation e)).
Definition get_channel_ok_count : BridgeStore → BridgeLine → Z := getter 0 channel_ok_count.
Definition get_verified_count : BridgeStore → BridgeLine → Z := getter 0 verified_count.
Definition get_last_verified : BridgeStore → BridgeLine → option OffsetDateTime :=
  getter None last_verified.
Definition tcp_fails : BridgeStore → BridgeLine → Z := getter 0 fails.

Definition alive_count (s : BridgeStore) : nat :=
  length (List.filter is_proven_alive (bm_values (entries s))).

Record HealthSnapshot : Type := mkHealthSnapshot {
  hs_tcp_fails : Z;
  hs_circuit_fails : Z;
  hs_verified_count : Z;
  hs_ok_count : Z;
  hs_last_circuit_observation : option OffsetDateTime;
}.

Definition health_snapshot (s : BridgeStore) (b : BridgeLine) : option HealthSnapshot :=
  match bm_get (key_of b) (entries s) with
  | Some e => Some (mkHealthSnapshot (fails e) (circuit_fails e) (verified_count e) (ok_count e)
                      (Some (last_circuit_observation e)))
  | None => None
  end.

(** ** Summaries *)

Record SourceStats : Type := mkSourceStats {
  label : str;
  offered : nat;
  src_alive : nat;
  src_channel_proven : nat;
  src_retired : nat;
}.

Definition is_barren (st : SourceStats) (min_sample : nat) : bool :=
  (min_sample <=? offered st)%nat && (src_alive st =? 0)%nat.

Definition reachable_entry (e : Entry) : bool := (fails e =? 0) && (0 <? ok_count e).
Definition proven_entry (e : Entry) : bool := 0 <? channel_ok_count e.

Definition count_if (b : bool) (n : nat) : nat := if b then S n else n.

(** The loop body of [source_summary] on the row of one label. *)
Definition source_row (e : Entry) (st : SourceStats) : SourceStats :=
  if entry_is_retired e
  then mkSourceStats (label st) (S (offered st)) (src_alive st) (src_channel_proven st)
         (S (src_retired st))
  else mkSourceStats (label st) (S (offered st))
         (count_if (reachable_entry e) (src_alive st))
         (count_if (proven_entry e) (src_channel_proven st)) (src_retired st).

Definition empty_source_row (l : str) : SourceStats := mkSourceStats l 0 0 0 0.

Definition source_summary (s : BridgeStore) : list SourceStats :=
  bm_values (fold_left (fun m e =>
    fold_left (fun m l => bm_upsert l (empty_source_row l) (source_row e) m) (sources e) m)
    (bm_values (entries s)) []).

Record TransportStats : Type := mkTransportStats {
  ts_transport : str;
  known : nat;
  ts_alive : nat;
  ts_channel_proven : nat;
  ts_retired : nat;
  last_probe_ok : option OffsetDateTime;
  ts_last_channel_ok : option OffsetDateTime;
}.

(** [Ord::max] on optional times: the second argument when they are equal. *)
Definition option_max (a b : option OffsetDateTime) : option OffsetDateTime :=
  match option_cmp odt_cmp b a with
  | Lt => a
  | _ => b
  end.

Definition transport_row (e : Entry) (st : TransportStats) : TransportStats :=
  if entry_is_retired e
  then mkTransportStats (ts_transport st) (S (known st)) (ts_alive st) (ts_channel_proven st)
         (S (ts_retired st)) (last_probe_ok st) (ts_last_channel_ok st)
  else mkTransportStats (ts_transport st) (S (known st))
         (count_if (reachable_entry e) (ts_alive st))
         (count_if (proven_entry e) (ts_channel_proven st)) (ts_retired st)
         (match last_ok e with
          | Some t => option_max (last_probe_ok st) (Some t)
          | None => last_probe_ok st
          end)
         (option_max (ts_last_channel_ok st) (last_channel_ok e)).

Definition empty_transport_row (n : str) : TransportStats := mkTransportStats n 0 0 0 0 None None.

Definition transport_name (e : Entry) : str := default (lit "plain") (transport (bridge e)).

Definition transport_map (s : BridgeStore) : bmap str TransportStats :=
  fold_left (fun m e => bm_upsert (transport_name e) (empty_transport_row (transport_name e))
                          (transport_row e) m) (bm_values (entries s)) [].

Definition transport_summary (s : BridgeStore) : list TransportStats := bm_values (transport_map s).

(** ** Selections are prefixes of stable sorts *)

Lemma select_positioned (c : Entry → Entry → comparison) `{!Ranking c} l limit :
  map snd (take_best (positioned c) (enumerate l) limit) = take limit (sort_by c l).
Proof.
  unfold take_best. destruct (Nat.eqb_spec limit 0) as [->|Hl]; [done|].
  rewrite (keep_best_sorted (positioned c)) by (lia || apply enumerate_untied).
  rewrite <-(sort_enumerate c 0 l). unfold enumerate. by rewrite fmap_take.
Qed.

Lemma select_bridges (c : Entry → Entry → comparison) `{!Ranking c} l limit :
  map (fun r => bridge r.2) (take_best (positioned c) (enumerate l) limit) =
    map bridge (take limit (sort_by c l)).
Proof. rewrite <-(select_positioned c l limit), map_map. done. Qed.

Lemma rank_and_take_sorted l limit :
  rank_and_take l limit = map bridge (take limit (sort_by rank_cmp l)).
Proof. apply (select_bridges rank_cmp). Qed.

Lemma values_elem s e :
  store_wf s → e ∈ bm_values (entries s) ↔ bm_get (key_of (bridge e)) (entries s) = Some e.
Proof.
  intros [Hwf He]. unfold bm_values. rewrite list_elem_of_fmap. split.
  - intros ([k e'] & -> & Hin). pose proof (bm_elem_get _ _ _ Hwf Hin) as Hg.
    simpl. by rewrite (wf_key _ _ (He _ _ Hg)).
  - intros Hg%bm_get_elem. by eexists (_, e).
Qed.

(** ** Counting *)

Definition count (p : Entry → bool) (l : list Entry) : nat := length (List.filter p l).

Lemma count_cons p e l : count p (e :: l) = count_if (p e) (count p l).
Proof. unfold count. simpl. by destruct (p e). Qed.

Lemma alive_split e :
  is_proven_alive e = negb (entry_is_retired e) && reachable_entry e.
Proof. unfold is_proven_alive, reachable_entry. apply andb_comm. Qed.

Lemma proven_split e :
  is_channel_proven e = negb (entry_is_retired e) && proven_entry e.
Proof. unfold is_channel_proven, proven_entry. apply andb_comm. Qed.

Lemma source_rows_fold l st :
  let st' := fold_left (fun st e => source_row e st) l st in
  label st' = label st ∧
  offered st' = (offered st + length l)%nat ∧
  src_alive st' = (src_alive st + count is_proven_alive l)%nat ∧
  src_channel_proven st' = (src_channel_proven st + count is_channel_proven l)%nat ∧
  src_retired st' = (src_retired st + count entry_is_retired l)%nat.
Proof.
  revert st. induction l as [|e l IH]; intros st; simpl.
  { unfold count; simpl. rewrite !Nat.add_0_r. done. }
  destruct (IH (source_row e st)) as (-> & -> & -> & -> & ->).
  rewrite !count_cons, alive_split, proven_split. unfold source_row.
  destruct (entry_is_retired e); simpl.
  - repeat split; lia.
  - destruct (reachable_entry e), (proven_entry e); simpl; repeat split; lia.
Qed.

Lemma transport_rows_fold l st :
  let st' := fold_left (fun st e => transport_row e st) l st in
  ts_transport st' = ts_transport st ∧
  known st' = (known st + length l)%nat ∧
  ts_alive st' = (ts_alive st + count is_proven_alive l)%nat ∧
  ts_channel_proven st' = (ts_channel_proven st + count is_channel_proven l)%nat ∧
  ts_retired st' = (ts_retired st + count entry_is_retired l)%nat.
Proof.
  revert st. induction l as [|e l IH]; intros st; simpl.
  { unfold count; simpl. rewrite !Nat.add_0_r. done. }
  destruct (IH (transport_row e st)) as (-> & -> & -> & -> & ->).
  rewrite !count_cons, alive_split, proven_split. unfold transport_row.
  destruct (entry_is_retired e); simpl.
  - repeat split; lia.
  - destruct (reachable_entry e), (proven_entry e); simpl; repeat split; lia.
Qed.

(** The (label, entry) pairs [source_summary] visits, in order. *)
Definition source_pairs (s : BridgeStore) : list (str * Entry) :=
  flat_map (fun e => map (fun l => (l, e)) (sources e)) (bm_values (entries s)).

Definition source_map (s : BridgeStore) : bmap str SourceStats :=
  fold_left (group_step fst empty_source_row (fun le => source_row le.2)) (source_pairs s) [].

Lemma source_summary_map s : source_summary s = bm_values (source_map s).
Proof.
  unfold source_summary, source_map, source_pairs. f_equal.
  generalize (@nil (str * SourceStats)). induction (bm_values (entries s)) as [|e l IH]; intros m;
    simpl; [done|]. rewrite fold_left_app, <-IH. f_equal.
  clear IH l. revert m. induction (sources e) as [|x l IH]; intros m; simpl; [done|]. apply IH.
Qed.

Lemma bs_wf_NoDup (l : bset str) : bs_wf l → NoDup l.
Proof.
  intros Hl. induction Hl as [|x l Hl IH Hx]; constructor; [|done].
  rewrite Forall_forall in Hx. by intros ?%Hx%cmp_lt_ne.
Qed.

(** Each entry that carries a label is visited once for it. *)
Lemma source_pairs_label s l :
  store_wf s →
  map snd (filter (fun le : str * Entry => le.1 = l) (source_pairs s)) =
    List.filter (fun e => bool_decide (l ∈ sources e)) (bm_values (entries s)).
Proof.
  intros Hs. unfold source_pairs.
  assert (∀ e, e ∈ bm_values (entries s) → NoDup (sources e)) as Hnd.
  { intros e Hin%values_elem; [|done]. apply bs_wf_NoDup. by eapply wf_sources, Hs. }
  induction (bm_values (entries s)) as [|e es IH]; simpl; [done|].
  rewrite filter_app, map_app, IH by (intros; apply Hnd; by right).
  assert (NoDup (sources e)) as He by (apply Hnd; left).
  assert (map snd (filter (fun le : str * Entry => le.1 = l) (map (fun x => (x, e)) (sources e)))
          = if bool_decide (l ∈ sources e) then [e] else []) as ->; [|by case_bool_decide].
  clear Hnd IH. induction He as [|x xs Hx He IH]; [done|].
  simpl. rewrite filter_cons. simpl. destruct (decide (x = l)) as [->|Hne].
  - simpl. rewrite IH, bool_decide_false, bool_decide_true by (done || left). done.
  - rewrite IH. rewrite (bool_decide_ext (l ∈ xs) (l ∈ x :: xs)); [done|]. set_solver.
Qed.

Lemma source_map_get s l :
  store_wf s →
  bm_get l (source_map s) =
    match List.filter (fun e => bool_decide (l ∈ sources e)) (bm_values (entries s)) with
    | [] => None
    | es => Some (fold_left (fun st e => source_row e st) es (empty_source_row l))
    end.
Proof.
  intros Hs. unfold source_map. rewrite group_get. unfold group_value.
  rewrite <-(source_pairs_label s l Hs). simpl.
  destruct (filter _ (source_pairs s)) as [|le les]; [done|]. simpl. f_equal.
  generalize (source_row le.2 (empty_source_row l)). clear.
  induction les as [|le les IH]; intros st; simpl; [done|]. apply IH.
Qed.

Lemma source_map_label s l st :
  store_wf s → bm_get l (source_map s) = Some st → label st = l.
Proof.
  intros Hs. rewrite source_map_get by done. destruct (List.filter _ _) as [|e es]; [done|].
  intros [= <-]. apply (source_rows_fold (e :: es) (empty_source_row l)).
Qed.

Lemma source_row_of s st :
  store_wf s → st ∈ source_summary s → bm_get (label st) (source_map s) = Some st.
Proof.
  intros Hs. rewrite source_summary_map. intros ([l st'] & -> & Hin)%list_elem_of_fmap.
  assert (bm_wf (source_map s)) as Hwf by (apply group_wf; constructor).
  pose proof (bm_elem_get _ _ _ Hwf Hin) as Hg. simpl. by rewrite (source_map_label s l st').
Qed.

Lemma transport_map_wf s : bm_wf (transport_map s).
Proof.
  apply (group_wf transport_name empty_transport_row transport_row). constructor.
Qed.

Lemma transport_sum (f : TransportStats → nat) (p : Entry → bool) s :
  (∀ n, f (empty_transport_row n) = 0%nat) →
  (∀ e st, f (transport_row e st) = (f st + if p e then 1 else 0)%nat) →
  list_sum (map f (transport_summary s)) = count p (bm_values (entries s)).
Proof.
  intros Hd Hr. unfold transport_summary, transport_map.
  assert (∀ m, bm_wf m → bm_sum f (fold_left (group_step transport_name empty_transport_row
    transport_row) (bm_values (entries s)) m) = (bm_sum f m + count p (bm_values (entries s)))%nat) as Hall.
  { induction (bm_values (entries s)) as [|e l IH]; intros m Hm; [unfold count; simpl; lia|].
    cbn [fold_left]. rewrite IH by by apply bm_upsert_wf. unfold group_step at 1.
    rewrite (bm_sum_upsert f _ _ _ _ (if p e then 1 else 0)%nat) by auto.
    rewrite count_cons. unfold count_if. destruct (p e); lia. }
  specialize (Hall [] (SSorted_nil _)). exact Hall.
Qed.

Lemma among_eligible s candidates :
  store_wf s →
  map snd (List.filter (fun ke => is_proven_alive ke.2 && bool_decide (ke.1 ∈ map key_of candidates))
             (entries s)) =
  List.filter (fun e => is_proven_alive e && bool_decide (key_of (bridge e) ∈ map key_of candidates))
    (bm_values (entries s)).
Proof.
  intros [Hwf He]. unfold bm_values.
  assert (∀ k e, (k, e) ∈ entries s → key_of (bridge e) = k) as Hk.
  { intros k e Hin. apply wf_key, He. by apply bm_elem_get. }
  clear Hwf He. induction (entries s) as [|[k e] m IH]; [done|]. simpl.
  rewrite (Hk k e) by left. rewrite <-IH by (intros; apply Hk; by right).
  by destruct (is_proven_alive e && _).
Qed.

Lemma elem_of_take_inv {A} (x : A) n l : x ∈ take n l → x ∈ l.
Proof. rewrite <-(take_drop n l) at 2. rewrite elem_of_app. auto. Qed.

Lemma filter_true {A} (l : list A) : List.filter (fun _ => true) l = l.
Proof. induction l; simpl; congruence. Qed.

(** The labels of the rows are the keys of the map they are grouped in. *)
Lemma source_labels s :
  store_wf s → map label (source_summary s) = bm_keys (source_map s).
Proof.
  intros Hs. rewrite source_summary_map. unfold bm_values, bm_keys. rewrite map_map.
  apply map_ext_in. intros [l st] Hin%list_elem_of_In. simpl.
  assert (bm_wf (source_map s)) as Hwf by (apply group_wf; constructor).
  apply (source_map_label s); [done|]. by apply bm_elem_get.
Qed.

Lemma source_label_iff s l :
  store_wf s →
  l ∈ bm_keys (source_map s) ↔ ∃ e, e ∈ bm_values (entries s) ∧ l ∈ sources e.
Proof.
  intros Hs. pose proof (source_map_get s l Hs) as Hg.
  assert (l ∈ bm_keys (source_map s) ↔ bm_get l (source_map s) ≠ None) as ->.
  { rewrite bm_get_None. split; [tauto|apply dec_stable]. }
  rewrite Hg. destruct (List.filter _ _) as [|e es] eqn:Hf; split.
  - done.
  - intros (e & Hin & Hl). assert (In e []) as []. rewrite <-Hf. apply filter_In.
    split; [by apply list_elem_of_In|by apply bool_decide_eq_true_2].
  - intros _. exists e. assert (In e (e :: es)) as Hin by by left. rewrite <-Hf in Hin.
    apply filter_In in Hin as [Hin Hl%bool_decide_eq_true_1]. split; [by apply list_elem_of_In|done].
  - done.
Qed.

(** ** Properties *)

(** whatever heap implementation is used, keeping at most [limit] items and
    replacing the worst one kept by a strictly better item selects exactly the
    first [limit] items of the sorted input, in order, when no two items are
    tied. *)
Theorem take_best_selects {A} (c : A → A → comparison) (Hc : Ranking c) {Hp} (heap : MaxHeap c Hp)
  (items : list A) (limit : nat) :
  untied c items → take_best c items limit = take limit (sort_by c items).
Proof.
  intros Hu. unfold take_best. destruct (Nat.eqb_spec limit 0) as [->|Hl]; [done|].
  apply keep_best_sorted; [done|lia|done].
Qed.

(** the bounded-heap selections equal the stable sort by the ranking
    followed by [take(limit)], ties in map order: the healthiest bridges, the
    channel-proven bridges and the bridges due for verification. *)
Theorem selections_are_stable_prefixes (s : BridgeStore) (limit : nat) (now : OffsetDateTime)
  (max_age : Z) (wanted : BridgeLine → bool) :
  healthiest_bridges s limit =
    map bridge (take limit (sort_by rank_cmp (List.filter is_proven_alive (bm_values (entries s))))) ∧
  channel_proven_bridges s limit =
    map bridge (take limit (sort_by channel_proven_cmp
      (List.filter is_channel_proven (bm_values (entries s))))) ∧
  needing_circuit_verification s now max_age limit wanted =
    map bridge (take limit (sort_by due_cmp
      (List.filter (fun e => wanted (bridge e)) (List.filter (is_due now max_age)
        (List.filter is_channel_proven (bm_values (entries s))))))).
Proof.
  split; [|split].
  - apply rank_and_take_sorted.
  - apply (select_bridges channel_proven_cmp).
  - apply (select_bridges due_cmp).
Qed.

Lemma healthiest_among_elem s candidates limit b :
  store_wf s → b ∈ healthiest_among s candidates limit →
  key_of b ∈ map key_of candidates ∧ is_retired s b = false ∧ tcp_fails s b = 0 ∧ 0 < get_ok_count s b.
Proof.
  intros Hs. unfold healthiest_among. rewrite (among_eligible s candidates Hs), rank_and_take_sorted.
  intros (e & -> & He%elem_of_take_inv)%list_elem_of_fmap. rewrite sort_by_perm in He.
  apply list_elem_of_In, filter_In in He as [Hin [Ha Hk]%andb_true_iff].
  apply bool_decide_eq_true_1 in Hk. split; [done|].
  apply list_elem_of_In, values_elem in Hin; [|done].
  unfold is_retired, tcp_fails, get_ok_count, getter. rewrite Hin.
  unfold is_proven_alive in Ha. boolprop. auto.
Qed.

(** [healthiest_among] returns only bridges of the candidate set that are
    proven alive, and as many of them as the limit allows: a small candidate
    set is never crowded out by other entries of the store. *)
Theorem healthiest_among_complete (s : BridgeStore) (candidates : list BridgeLine) (limit : nat) :
  store_wf s →
  let eligible := List.filter (fun e => is_proven_alive e && bool_decide (key_of (bridge e) ∈ map key_of candidates))
                    (bm_values (entries s)) in
  length (healthiest_among s candidates limit) = Nat.min limit (length eligible) ∧
  ∀ b, b ∈ healthiest_among s candidates limit →
    key_of b ∈ map key_of candidates ∧ is_retired s b = false ∧ tcp_fails s b = 0 ∧
    0 < get_ok_count s b.
Proof.
  intros Hs eligible. split; [|intros b; by apply healthiest_among_elem]. unfold healthiest_among.
  rewrite (among_eligible s candidates Hs), rank_and_take_sorted. fold eligible. by rewrite length_map, length_take, sort_by_perm.
Qed.

(** the source summary lists each credited label once, in order, and its
    row counts exactly the entries credited to the label: all of them as
    offered, the proven-alive, channel-proven and retired ones among them. *)
Theorem source_summary_counts (s : BridgeStore) :
  store_wf s →
  let of_label l := List.filter (fun e => bool_decide (l ∈ sources e)) (bm_values (entries s)) in
  bs_wf (map label (source_summary s)) ∧
  (∀ l, l ∈ map label (source_summary s) ↔ ∃ e, e ∈ bm_values (entries s) ∧ l ∈ sources e) ∧
  (∀ st, st ∈ source_summary s →
    offered st = length (of_label (label st)) ∧
    src_alive st = count is_proven_alive (of_label (label st)) ∧
    src_channel_proven st = count is_channel_proven (of_label (label st)) ∧
    src_retired st = count entry_is_retired (of_label (label st))).
Proof.
  intros Hs of_label.
  assert (map label (source_summary s) = bm_keys (source_map s)) as Hlabels
    by by apply source_labels.
  rewrite Hlabels. split; [|split].
  - apply (group_wf fst empty_source_row (fun le => source_row le.2)). constructor.
  - intros l. apply source_label_iff. done.
  - intros st Hst. apply source_row_of in Hst; [|done]. rewrite source_map_get in Hst by done.
    fold (of_label (label st)) in Hst. destruct (of_label (label st)) as [|e es] eqn:Hf; [done|].
    injection Hst as Hst. destruct (source_rows_fold (e :: es) (empty_source_row (label st)))
      as (_ & Ho & Ha & Hc & Hr). simpl fold_left in Ho, Ha, Hc, Hr. rewrite Hst in *. auto.
Qed.

(** The transport summary partitions the store: over its rows the known
    bridges add up to the number of entries, the alive ones to [alive_count]
    and the retired ones to the retired entries, and each transport has one
    row. *)
Theorem transport_summary_partition (s : BridgeStore) :
  bs_wf (bm_keys (transport_map s)) ∧
  list_sum (map known (transport_summary s)) = len s ∧
  list_sum (map ts_alive (transport_summary s)) = alive_count s ∧
  list_sum (map ts_retired (transport_summary s)) = count entry_is_retired (bm_values (entries s)).
Proof.
  split; [apply transport_map_wf|]. split; [|split].
  - rewrite (transport_sum known (fun _ => true)); [|done|].
    + unfold count, len, bm_values. by rewrite filter_true, length_map.
    + intros e st. unfold transport_row. case_match; simpl; lia.
  - apply transport_sum; [done|]. intros e st. rewrite alive_split. unfold transport_row.
    destruct (entry_is_retired e), (reachable_entry e); simpl; lia.
  - apply transport_sum; [done|]. intros e st. unfold transport_row.
    destruct (entry_is_retired e); simpl; lia.
Qed.
End Stats.

(** ** Witnesses *)

Section Witnesses.
#[local] Existing Instance sample_url.
#[local] Existing Instance sample_tls.
#[local] Existing Instance sample_time.
#[local] Existing Instance Z_compare_ranking.

Lemma take_best_selects_witness :
  take_best Z.compare [5; 3; 9; 1; 4] 3 = take 3 (sort_by Z.compare [5; 3; 9; 1; 4]).
Proof.
  apply (take_best_selects (A := Z) Z.compare Z_compare_ranking (list_heap Z.compare)).
  apply (untied_alt Z.compare). split.
  - compute_done.
  - intros x y _ _ Hxy. by apply Z.compare_eq.
Defined.

Lemma healthiest_among_complete_witness :
  length (healthiest_among sample_store [obfs4_bridge; plain_bridge] 5) = 1%nat ∧
  is_retired sample_store obfs4_bridge = false.
Proof.
  destruct (healthiest_among_complete sample_store [obfs4_bridge; plain_bridge] 5 sample_store_wf)
    as [Hl Hb].
  split; [rewrite Hl; vm_compute; reflexivity|].
  apply (Hb obfs4_bridge). apply list_elem_of_In. left. reflexivity.
Defined.

Lemma source_summary_counts_witness :
  map label (source_summary sample_store) = [lit "collector"] ∧
  (lit "collector" ∈ map label (source_summary sample_store) ↔
    ∃ e, e ∈ bm_values (entries sample_store) ∧ lit "collector" ∈ sources e).
Proof.
  split; [vm_compute; reflexivity|].
  apply (source_summary_counts sample_store sample_store_wf).
Defined.
End Witnesses.
End Stats.
