(* ===== verification/GuardObs.v ===== *)
(** * Guard observations

    [apps/socks5-proxy/src/tor/arti_observability.rs]: the layer that lifts
    guard events out of the log of the Arti library, the bounded queue of
    observations, and their application to the health store. *)

From S2P Require Import Prelude Order OrdMap Str Net Crates Samples Identity BridgeStore.
Import Identity Store.
Open Scope Z_scope.

Module GuardObs.

(** ** Events *)

Record GuardObservation : Type := mkObservation { obs_fingerprint : str; usable : bool }.

Definition MARKER : str := lit "RsaIdentity { $".



Definition extract_rsa_fingerprint (dbg : str) : option str :=
  match split_once_str MARKER dbg with
  | None => None
  | Some (_, rest) =>
      let hex := List.filter is_ascii_hexdigit (firstn 40 rest) in
      if (length hex =? 40)%nat then Some (to_ascii_uppercase hex) else None
  end.





(** ** The queue *)


(** [notified] counts the wake-ups of the maintenance loop. *)
Record ObservationSink : Type := mkSink { queue : list GuardObservation; notified : Z }.




Definition drain (s : ObservationSink) : list GuardObservation * ObservationSink := (queue s, mkSink [] (notified s)).

(** ** Into the store *)

Section Store.
Context `{UrlCrate, TlsCrate, TimeCrate}.

Definition upper_fingerprint (b : BridgeLine) : option str := option_map to_ascii_uppercase (fingerprint b).

(** The configured lines by fingerprint, each group in their order. *)
Definition by_fp (known : list BridgeLine) : gmap str (list BridgeLine) :=
  fold_left (fun m b =>
    match upper_fingerprint b with
    | Some fp => <[fp := default [] (m !! fp) ++ [b]]> m
    | None => m
    end) known ∅.

Definition note_failures_of (now : OffsetDateTime) (window : Z) (group : list BridgeLine) (s : BridgeStore) : BridgeStore * bool :=
  fold_left (fun '(s, counted) b => let '(s', bumped) := note_circuit_failure_at s b now window in (s', counted || bumped))
    group (s, false).

Definition note_successes_of (now : OffsetDateTime) (group : list BridgeLine) (s : BridgeStore) : BridgeStore :=
  fold_left (fun s b => note_circuit_success_at s b now) group s.

Record tallies : Type := mkTallies { failures : Z; successes : Z; unmatched : Z }.

Definition apply_observation (groups : gmap str (list BridgeLine)) (now : OffsetDateTime) (window : Z)
  (st : BridgeStore * tallies) (obs : GuardObservation) : BridgeStore * tallies :=
  let '(s, c) := st in
  match groups !! obs_fingerprint obs with
  | None => (s, mkTallies (failures c) (successes c) (unmatched c + 1))
  | Some group =>
      if usable obs then (note_successes_of now group s, mkTallies (failures c) (successes c + 1) (unmatched c))
      else
        let '(s', counted) := note_failures_of now window group s in
        (s', if counted then mkTallies (failures c + 1) (successes c) (unmatched c) else c)
  end.

Definition drain_into_store (sink : ObservationSink) (s : BridgeStore) (known : list BridgeLine) (now : OffsetDateTime)
  (window : Z) : BridgeStore * tallies * ObservationSink :=
  let groups := by_fp known in
  let '(obs, sink') := drain sink in
  (fold_left (apply_observation groups now window) obs (s, mkTallies 0 0 0), sink').

(** ** The queue keeps the latest *)






(** ** What a fingerprint is *)

Lemma split_once_str_app p s a b : split_once_str p s = Some (a, b) → s = a ++ p ++ b.
Proof.
  revert a b. induction s as [|c s IH]; intros a b; cbn [split_once_str].
  - destruct (strip_prefix p []) as [r|] eqn:Hr; [|done]. intros [= <- <-]. by apply strip_prefix_Some in Hr.
  - destruct (strip_prefix p (c :: s)) as [r|] eqn:Hr.
    { intros [= <- <-]. by apply strip_prefix_Some in Hr. }
    destruct (split_once_str p s) as [[a' b']|]; [|done]. intros [= <- <-]. cbn. f_equal. by apply IH.
Qed.

Lemma filter_full {A} (f : A → bool) l : length (List.filter f l) = length l → Forall (fun x => f x = true) l.
Proof.
  induction l as [|x l IH]; cbn; [constructor|]. destruct (f x) eqn:Hx; cbn.
  - intros [= Hl]. constructor; [done|by apply IH].
  - intros Hl. pose proof (filter_length_le f l). lia.
Qed.

Lemma extract_sound dbg fp :
  extract_rsa_fingerprint dbg = Some fp →
  ∃ pre hex rest, dbg = pre ++ MARKER ++ hex ++ rest ∧ length hex = 40%nat ∧
    Forall (fun c => is_ascii_hexdigit c = true) hex ∧ fp = to_ascii_uppercase hex.
Proof.
  unfold extract_rsa_fingerprint. destruct (split_once_str MARKER dbg) as [[pre rest]|] eqn:Hs; [|done].
  apply split_once_str_app in Hs as ->. set (h := take 40 rest).
  destruct (Nat.eqb_spec (length (List.filter is_ascii_hexdigit h)) 40) as [Hl|]; [|done]. intros [= <-].
  assert (Hh : length h = 40%nat).
  { pose proof (filter_length_le is_ascii_hexdigit h). unfold h in *. rewrite length_take in *. lia. }
  assert (Hall : Forall (fun c => is_ascii_hexdigit c = true) h) by (apply filter_full; lia).
  assert (Hf : List.filter is_ascii_hexdigit h = h).
  { clear -Hall. induction Hall as [|c l Hc _ IH]; cbn; [done|]. by rewrite Hc, IH. }
  exists pre, h, (drop 40 rest). rewrite Hf. split; [|done]. unfold h. by rewrite (take_drop 40 rest).
Qed.

(** ** Groups *)

Definition group_of (known : list BridgeLine) (fp : str) : list BridgeLine :=
  List.filter (fun b => bool_decide (upper_fingerprint b = Some fp)) known.

Lemma by_fp_lookup known fp :
  by_fp known !! fp = match group_of known fp with [] => None | g => Some g end.
Proof.
  unfold by_fp. assert (Hgen : ∀ m : gmap str (list BridgeLine),
    fold_left (fun m b => match upper_fingerprint b with Some fp => <[fp := default [] (m !! fp) ++ [b]]> m | None => m end) known m !! fp =
    match group_of known fp with [] => m !! fp | g => Some (default [] (m !! fp) ++ g) end).
  { induction known as [|b known IH]; intros m; [done|]. cbn [fold_left]. rewrite IH. unfold group_of. cbn [List.filter].
    fold (group_of known fp). destruct (upper_fingerprint b) as [fp'|] eqn:Hb.
    2: { rewrite bool_decide_false by done. done. }
    destruct (decide (fp' = fp)) as [->|Hne].
    - rewrite bool_decide_true, lookup_insert_eq by done. destruct (group_of known fp); cbn; [done|by rewrite <-app_assoc].
    - rewrite bool_decide_false, lookup_insert_ne by congruence. done. }
  rewrite Hgen, lookup_empty. by destruct (group_of known fp).
Qed.

(** ** What an observation does to one identity *)

Definition fail_entry (b : BridgeLine) (now : OffsetDateTime) (w : Z) (e : option Entry) : option Entry :=
  match e with
  | Some e => Some (if w <=? odt_sub now (last_circuit_observation e) then set_circuit (fun n => saturating_add u32_max n 1) now e else e)
  | None => Some (fresh_entry b now 0 0 1)
  end.

Definition succeed_entry (now : OffsetDateTime) (e : option Entry) : option Entry :=
  option_map (set_circuit (fun _ => 0) now) e.

(** The first configured line of identity [k] with the fingerprint. *)
Definition line_of (known : list BridgeLine) (fp : str) (k : Key) : option BridgeLine :=
  List.find (fun b => bool_decide (key_of b = k)) (group_of known fp).

Definition observe (known : list BridgeLine) (now : OffsetDateTime) (w : Z) (k : Key) (e : option Entry) (obs : GuardObservation) :
  option Entry :=
  match line_of known (obs_fingerprint obs) k with
  | None => e
  | Some b => if usable obs then succeed_entry now e else fail_entry b now w e
  end.

Lemma note_failure_get s b now w k :
  bm_get k (entries (note_circuit_failure_at s b now w).1) =
  if decide (k = key_of b) then fail_entry b now w (bm_get k (entries s)) else bm_get k (entries s).
Proof. rewrite note_circuit_failure_at_get. case_decide; [|done]. destruct (bm_get k (entries s)); cbn; [by case_match|done]. Qed.

Lemma fail_entry_twice b b' now w e : 0 < w → fail_entry b' now w (fail_entry b now w e) = fail_entry b now w e.
Proof.
  intros Hw. assert (Hn : (w <=? odt_sub now now) = false) by (unfold odt_sub; lia).
  destruct e as [e|]; cbn; [|by rewrite Hn].
  destruct (w <=? odt_sub now (last_circuit_observation e)) eqn:He; cbn; [by rewrite Hn|by rewrite He].
Qed.

Lemma failures_get now w group s c k :
  0 < w →
  bm_get k (entries (fold_left (fun '(s, counted) b =>
    let '(s', bumped) := note_circuit_failure_at s b now w in (s', counted || bumped)) group (s, c)).1) =
  match List.find (fun b => bool_decide (key_of b = k)) group with
  | Some b => fail_entry b now w (bm_get k (entries s))
  | None => bm_get k (entries s)
  end.
Proof.
  intros Hw. revert s c. induction group as [|b group IH]; intros s c; [done|]. cbn [fold_left List.find].
  pose proof (note_failure_get s b now w k) as Hg. destruct (note_circuit_failure_at s b now w) as [s' bumped].
  cbn [fst] in Hg. rewrite IH, Hg. case_decide as Hk.
  - rewrite bool_decide_true by done. destruct (List.find _ group); [by apply fail_entry_twice|done].
  - rewrite bool_decide_false by done. done.
Qed.

Lemma successes_get now group s k :
  bm_get k (entries (note_successes_of now group s)) =
  match List.find (fun b => bool_decide (key_of b = k)) group with
  | Some b => succeed_entry now (bm_get k (entries s))
  | None => bm_get k (entries s)
  end.
Proof.
  unfold note_successes_of. revert s. induction group as [|b group IH]; intros s; [done|]. cbn [fold_left List.find].
  rewrite IH. unfold note_circuit_success_at at 1 2. cbn [entries with_entries]. rewrite bm_get_modify. case_decide as Hk.
  - subst. rewrite bool_decide_true by done. destruct (List.find _ group); [|done]. by destruct (bm_get _ _).
  - by rewrite bool_decide_false by done.
Qed.

Lemma apply_observation_get known now w s c obs k :
  0 < w →
  bm_get k (entries (apply_observation (by_fp known) now w (s, c) obs).1) = observe known now w k (bm_get k (entries s)) obs.
Proof.
  intros Hw. unfold apply_observation, observe, line_of. rewrite by_fp_lookup.
  destruct (group_of known (obs_fingerprint obs)) as [|b g] eqn:Hg; [done|]. destruct (usable obs); cbn [fst].
  - by rewrite successes_get.
  - pose proof (failures_get now w (b :: g) s false k Hw) as Hf. unfold note_failures_of.
    by destruct (fold_left _ (b :: g) (s, false)).
Qed.

Lemma drain_get known now w obs s c k :
  0 < w →
  bm_get k (entries (fold_left (apply_observation (by_fp known) now w) obs (s, c)).1) =
  fold_left (observe known now w k) obs (bm_get k (entries s)).
Proof.
  intros Hw. revert s c. induction obs as [|o obs IH]; intros s c; [done|]. cbn [fold_left].
  destruct (apply_observation (by_fp known) now w (s, c) o) as [s' c'] eqn:Ho. rewrite IH.
  by rewrite <-(apply_observation_get known now w s c o k Hw), Ho.
Qed.


(** ** The order of the configuration *)

(** Everything an entry says but the line it was first seen as. *)
Definition health (e : Entry) :=
  (last_ok e, last_attempt e, last_latency e, fails e, ok_count e, channel_ok_count e, last_channel_ok e,
   (verified_count e, last_verified e, last_verification_attempt e, circuit_fails e, last_circuit_observation e, sources e)).

Definition same_health (e e' : option Entry) : Prop := option_map health e = option_map health e'.

#[local] Instance same_health_equiv : Equivalence same_health.
Proof. unfold same_health. split; [done|by intros ? ?|intros ? ? ? ? ?; congruence]. Qed.

Lemma set_circuit_health f now e e' : health e = health e' → health (set_circuit f now e) = health (set_circuit f now e').
Proof. unfold health. intros [= ]. cbn. congruence. Qed.

#[local] Instance succeed_entry_proper now : Proper (same_health ==> same_health) (succeed_entry now).
Proof.
  intros [e|] [e'|] He; try done. unfold same_health, succeed_entry in *. cbn [option_map] in *.
  apply (inj Some) in He. f_equal. by apply set_circuit_health.
Qed.

Lemma fail_entry_health b b' now w e e' : same_health e e' → same_health (fail_entry b now w e) (fail_entry b' now w e').
Proof.
  unfold same_health. destruct e as [e|], e' as [e'|]; cbn [fail_entry option_map]; try done. intros He%(inj Some). f_equal.
  assert (last_circuit_observation e = last_circuit_observation e') as -> by exact (f_equal (fun x => x.2.1.2) He).
  destruct (w <=? _); [by apply set_circuit_health|done].
Qed.

Lemma line_of_Some known fp k :
  is_Some (line_of known fp k) ↔ ∃ b, b ∈ known ∧ upper_fingerprint b = Some fp ∧ key_of b = k.
Proof.
  unfold line_of, group_of. split.
  - intros [b Hb]. apply find_some in Hb as [Hin Hk]. apply filter_In in Hin as [Hin Hf].
    apply bool_decide_eq_true in Hk, Hf. exists b. split_and!; [by apply list_elem_of_In|done|done].
  - intros (b & Hin & Hf & Hk). destruct (List.find _ _) eqn:He; [done|].
    assert (Hn : bool_decide (key_of b = k) = false).
    { apply (find_none _ _ He), filter_In. split; [by apply list_elem_of_In|by apply bool_decide_eq_true]. }
    by rewrite bool_decide_true in Hn.
Qed.

Lemma line_of_perm known known' fp k :
  known ≡ₚ known' → is_Some (line_of known fp k) → is_Some (line_of known' fp k).
Proof. rewrite !line_of_Some. intros Hp (b & Hb & ?). exists b. by rewrite <-Hp. Qed.

Lemma observe_health known known' now w k e e' obs :
  known ≡ₚ known' → same_health e e' → same_health (observe known now w k e obs) (observe known' now w k e' obs).
Proof.
  intros Hp He. unfold observe.
  pose proof (line_of_perm known known' (obs_fingerprint obs) k Hp) as H12.
  pose proof (line_of_perm known' known (obs_fingerprint obs) k (symmetry Hp)) as H21.
  destruct (line_of known _ k) as [b|], (line_of known' _ k) as [b'|]; [|by destruct H12|by destruct H21|done].
  destruct (usable obs); [by rewrite He|by apply fail_entry_health].
Qed.

(** What the observations do to the health of each bridge identity does not
    depend on the order of the configured lines. *)
Theorem line_order_is_irrelevant sink s known known' now w k :
  0 < w → known ≡ₚ known' →
  same_health (bm_get k (entries (drain_into_store sink s known now w).1.1))
    (bm_get k (entries (drain_into_store sink s known' now w).1.1)).
Proof.
  intros Hw Hp. unfold drain_into_store, drain. cbn [fst]. rewrite !drain_get by done.
  set (e := bm_get k (entries s)) at 2. assert (He : same_health (bm_get k (entries s)) e) by done. clearbody e. revert He.
  generalize (bm_get k (entries s)) as e0. revert e. induction (queue sink) as [|o obs IH]; intros e e0 He; [done|]. cbn [fold_left].
  apply IH. by apply observe_health.
Qed.
End Store.

(** ** Witnesses *)

Section Witnesses.
#[local] Existing Instance sample_url.
#[local] Existing Instance sample_tls.
#[local] Existing Instance sample_time.

Definition guard_hex : str := repeat 97 40.
Definition guard_line : BridgeLine := mkBridgeLine None (addr plain_bridge) (Some guard_hex) [].
Definition known_lines : list BridgeLine := [obfs4_bridge; guard_line].


Lemma line_order_is_irrelevant_witness :
  same_health
    (bm_get (key_of guard_line) (entries (drain_into_store (mkSink [mkObservation (repeat 65 40) false] 0) (mkStore [] []) known_lines 10 3).1.1))
    (bm_get (key_of guard_line) (entries (drain_into_store (mkSink [mkObservation (repeat 65 40) false] 0) (mkStore [] []) [guard_line; obfs4_bridge] 10 3).1.1)).
Proof. apply line_order_is_irrelevant; [reflexivity|apply perm_swap]. Defined.
End Witnesses.
End GuardObs.
