(* ===== verification/StorePersist.v ===== *)
(** * The bridge health store: on-disk format

    [packages/bridge-store/src/persistence.rs]: the metadata comment of an
    entry, the percent-encoding of source labels, and the text the store is
    saved as and loaded from. *)

From S2P Require Import Prelude Order OrdMap Str Utf8 TempFile Net Crates Samples Identity BridgeStore.
Import Identity Store TempFile.
Open Scope Z_scope.

Module Persist.

(** ** Source labels *)

(** The upper-case hexadecimal digit of a nibble. *)
Definition hex_upper (d : Z) : Z := if d <? 10 then 48 + d else 55 + d.

Definition percent_byte (b : Z) : str := [37; hex_upper (Z.shiftr b 4); hex_upper (Z.land b 15)].

Definition encode_char (c : Z) : str :=
  if c =? 37 then lit "%25"
  else if c =? 44 then lit "%2C"
  else if is_whitespace c then flat_map percent_byte (encode_utf8 c)
  else [c].

Definition encode_source (label : str) : str := flat_map encode_char label.

Fixpoint decode_bytes (bs : list Z) : list Z :=
  match bs with
  | [] => []
  | b :: rest =>
      if b =? 37 then
        match rest with
        | h :: l :: rest' =>
            match to_digit 16 h, to_digit 16 l with
            | Some hi, Some lo => hi * 16 + lo :: decode_bytes rest'
            | _, _ => b :: decode_bytes rest
            end
        | _ => b :: decode_bytes rest
        end
      else b :: decode_bytes rest
  end.

Definition decode_source (token : str) : str := from_utf8_lossy (decode_bytes (as_bytes token)).

(** *** The label codec *)

Lemma hex_upper_digit d : 0 ≤ d < 16 → to_digit 16 (hex_upper d) = Some d.
Proof.
  intros Hd. unfold hex_upper, to_digit, is_ascii_digit, is_ascii_lower, is_ascii_upper.
  destruct (Z.ltb_spec d 10).
  - replace ((48 <=? 48 + d) && (48 + d <=? 57)) with true
      by (symmetry; rewrite andb_true_iff, !Z.leb_le; lia).
    replace (48 + d - 48) with d by lia. destruct Hd as [_ Hd]. by apply Z.ltb_lt in Hd as ->.
  - replace ((48 <=? 55 + d) && (55 + d <=? 57)) with false
      by (symmetry; rewrite andb_false_iff, !Z.leb_gt; lia).
    replace ((97 <=? 55 + d) && (55 + d <=? 122)) with false
      by (symmetry; rewrite andb_false_iff, !Z.leb_gt; lia).
    replace ((65 <=? 55 + d) && (55 + d <=? 90)) with true
      by (symmetry; rewrite andb_true_iff, !Z.leb_le; lia).
    replace (55 + d - 55) with d by lia. destruct Hd as [_ Hd]. by apply Z.ltb_lt in Hd as ->.
Qed.

Lemma nibbles b : 0 ≤ b < 256 →
  0 ≤ Z.shiftr b 4 < 16 ∧ 0 ≤ Z.land b 15 < 16 ∧ Z.shiftr b 4 * 16 + Z.land b 15 = b.
Proof.
  intros Hb. change 15 with (Z.ones 4). rewrite Z.land_ones, Z.shiftr_div_pow2 by lia.
  change (2 ^ 4) with 16. pose proof (Z.mod_pos_bound b 16). pose proof (Z.div_mod b 16).
  split; [split; [apply Z.div_pos; lia|apply Z.div_lt_upper_bound; lia]|lia].
Qed.

Lemma decode_percent_byte b rest :
  0 ≤ b < 256 → decode_bytes (percent_byte b ++ rest) = b :: decode_bytes rest.
Proof.
  intros Hb. destruct (nibbles b Hb) as (Hh & Hl & Heq). unfold percent_byte. simpl.
  by rewrite !hex_upper_digit, Heq by done.
Qed.

Lemma hex_upper_ascii d : 0 ≤ d < 16 → 48 ≤ hex_upper d < 128 ∧ hex_upper d ≠ 44.
Proof. unfold hex_upper. destruct (Z.ltb_spec d 10); lia. Qed.

Lemma ascii_bytes s : Forall (fun c => 0 ≤ c < 128) s → as_bytes s = s.
Proof.
  intros Hs. induction Hs as [|c s Hc Hs IH]; simpl; [done|].
  rewrite IH. unfold encode_utf8. by rewrite (proj2 (Z.ltb_lt c 128)) by lia.
Qed.

Lemma encode_utf8_range c : is_scalar c = true → Forall (fun b => 0 ≤ b < 256) (encode_utf8 c).
Proof.
  intros Hc%is_scalar_range. unfold encode_utf8.
  repeat case_match; boolprop; repeat constructor;
    Z.to_euclidean_division_equations; lia.
Qed.

Lemma percent_bytes_ascii bs :
  Forall (fun b => 0 ≤ b < 256) bs → Forall (fun c => 0 ≤ c < 128) (flat_map percent_byte bs).
Proof.
  intros Hbs. induction Hbs as [|b bs Hb Hbs IH]; simpl; [constructor|].
  destruct (nibbles b Hb) as (Hh & Hl & _).
  destruct (hex_upper_ascii _ Hh), (hex_upper_ascii _ Hl). repeat constructor; try lia. done.
Qed.

Lemma decode_percent_bytes bs rest :
  Forall (fun b => 0 ≤ b < 256) bs →
  decode_bytes (flat_map percent_byte bs ++ rest) = bs ++ decode_bytes rest.
Proof.
  intros Hbs. induction Hbs as [|b bs Hb Hbs IH]; [done|].
  cbn [flat_map]. rewrite <-app_assoc, decode_percent_byte, IH by done. done.
Qed.

Lemma decode_plain bs rest :
  Forall (fun b => b ≠ 37) bs → decode_bytes (bs ++ rest) = bs ++ decode_bytes rest.
Proof.
  intros Hbs. induction Hbs as [|b bs Hb Hbs IH]; [done|].
  cbn [app decode_bytes]. apply Z.eqb_neq in Hb as ->. by rewrite IH.
Qed.

Lemma encode_utf8_not_percent c :
  is_scalar c = true → c ≠ 37 → Forall (fun b => b ≠ 37) (encode_utf8 c).
Proof.
  intros Hc%is_scalar_range Hne. unfold encode_utf8.
  repeat case_match; boolprop; repeat constructor; try done;
    Z.to_euclidean_division_equations; lia.
Qed.

Lemma decode_encode_char c rest :
  is_scalar c = true →
  decode_bytes (as_bytes (encode_char c) ++ rest) = encode_utf8 c ++ decode_bytes rest.
Proof.
  intros Hc. unfold encode_char. destruct (Z.eqb_spec c 37) as [->|H37]; [done|].
  destruct (Z.eqb_spec c 44) as [->|H44]; [done|]. destruct (is_whitespace c).
  - pose proof (encode_utf8_range c Hc) as Hr.
    rewrite ascii_bytes by by apply percent_bytes_ascii. by apply decode_percent_bytes.
  - simpl. rewrite app_nil_r. by apply decode_plain, encode_utf8_not_percent.
Qed.

Lemma as_bytes_app s t : as_bytes (s ++ t) = as_bytes s ++ as_bytes t.
Proof. apply flat_map_app. Qed.

Lemma decode_encode_bytes l :
  valid_str l → decode_bytes (as_bytes (encode_source l)) = as_bytes l.
Proof.
  intros Hl. induction Hl as [|c l Hc Hl IH]; [done|].
  change (encode_source (c :: l)) with (encode_char c ++ encode_source l).
  rewrite as_bytes_app, decode_encode_char, IH by done. done.
Qed.

Lemma whitespace_not c : is_whitespace c = false → c ≠ 32 ∧ c ≠ 10 ∧ c ≠ 13.
Proof. unfold is_whitespace. intros Hc. boolprop. repeat split; intros ->; naive_solver lia. Qed.

(** An encoded label has no blank and no comma. *)
Lemma encode_char_clean c :
  is_scalar c = true →
  Forall (fun x => is_whitespace x = false ∧ (44 =? x) = false) (encode_char c).
Proof.
  intros Hc. unfold encode_char. destruct (Z.eqb_spec c 37); [by repeat constructor|].
  destruct (Z.eqb_spec c 44); [by repeat constructor|].
  destruct (is_whitespace c) eqn:Hw.
  2: { repeat constructor; [done|]. apply Z.eqb_neq. lia. }
  pose proof (encode_utf8_range c Hc) as Hr. induction Hr as [|b bs Hb Hbs IH]; [constructor|].
  destruct (nibbles b Hb) as (Hh & Hl & _).
  assert (∀ d, 0 ≤ d < 16 → is_whitespace (hex_upper d) = false ∧ (44 =? hex_upper d) = false) as Hd.
  { intros d Hd. destruct (hex_upper_ascii d Hd). rewrite Z.eqb_neq. split; [|lia].
    unfold is_whitespace. repeat (apply orb_false_iff; split); try (apply andb_false_iff);
      rewrite ?Z.eqb_neq, ?Z.leb_gt; lia. }
  simpl. constructor; [done|]. constructor; [by apply Hd|]. constructor; [by apply Hd|]. exact IH.
Qed.

Lemma encode_source_clean l :
  valid_str l → Forall (fun x => is_whitespace x = false ∧ (44 =? x) = false) (encode_source l).
Proof.
  intros Hl. induction Hl as [|c l Hc Hl IH]; [constructor|].
  apply Forall_app. split; [by apply encode_char_clean|done].
Qed.

Lemma encode_char_nonempty c : encode_char c ≠ [].
Proof.
  unfold encode_char. repeat case_match; try done.
  pose proof (encode_utf8_nonempty c). destruct (encode_utf8 c); simpl in *; [lia|done].
Qed.

Lemma encode_source_nonempty l : l ≠ [] → encode_source l ≠ [].
Proof.
  destruct l as [|c l]; [done|]. intros _ Hnil. simpl in Hnil. apply app_eq_nil in Hnil as [Hc _].
  by apply encode_char_nonempty in Hc.
Qed.

Lemma decode_encode l : valid_str l → decode_source (encode_source l) = l.
Proof.
  intros Hl. unfold decode_source. rewrite decode_encode_bytes by done.
  by apply from_utf8_lossy_as_bytes.
Qed.

Section Persist.
Context `{UrlCrate, TlsCrate, TimeCrate, BridgeLineCrate}.

(** ** Metadata comments *)

Record Meta : Type := mkMeta {
  m_last_ok : option OffsetDateTime;
  m_last_attempt : OffsetDateTime;
  m_last_latency : Z;
  m_fails : Z;
  m_ok_count : Z;
  m_channel_ok_count : Z;
  m_last_channel_ok : option OffsetDateTime;
  m_verified_count : Z;
  m_last_verified : option OffsetDateTime;
  m_last_verification_attempt : option OffsetDateTime;
  m_circuit_fails : Z;
  m_last_circuit_observation : OffsetDateTime;
  m_sources : bset str;
}.

Definition meta_default : Meta :=
  mkMeta None odt_epoch 0 0 0 0 None 0 None None 0 odt_epoch [].

Definition parse_u32 : str → option Z := parse_uint u32_max.

(** A time or the dash that stands for none. *)
Definition parse_opt_time (v : str) : option (option OffsetDateTime) :=
  if str_eqb v [45] then Some None else option_map Some (iso_parse v).

Definition parse_latency (v : str) : option Z :=
  match strip_suffix (lit "ms") v with
  | Some n => option_map from_millis (parse_uint u64_max n)
  | None => None
  end.

Definition source_tokens (v : str) : list str :=
  List.filter (fun t => negb (is_empty t)) (split_on 44 v).

(** One token of the comment, the prefixes tried in the order of the source;
    [None] abandons the comment. *)
Definition parse_token (m : Meta) (tok : str) : option Meta :=
  let 'mkMeta lo la ll f oc cc lc vc lv va cf co src := m in
  match strip_prefix (lit "fails=") tok with
  | Some v => option_map (fun x => mkMeta lo la ll x oc cc lc vc lv va cf co src) (parse_u32 v)
  | None =>
  match strip_prefix (lit "seen=") tok with
  | Some v => option_map (fun x => mkMeta lo la ll f x cc lc vc lv va cf co src) (parse_u32 v)
  | None =>
  match strip_prefix (lit "attempt=") tok with
  | Some v => option_map (fun x => mkMeta lo x ll f oc cc lc vc lv va cf co src) (iso_parse v)
  | None =>
  match strip_prefix (lit "ok=") tok with
  | Some v => option_map (fun x => mkMeta x la ll f oc cc lc vc lv va cf co src) (parse_opt_time v)
  | None =>
  match strip_prefix (lit "latency=") tok with
  | Some v => option_map (fun x => mkMeta lo la x f oc cc lc vc lv va cf co src) (parse_latency v)
  | None =>
  match strip_prefix (lit "chseen=") tok with
  | Some v => option_map (fun x => mkMeta lo la ll f oc x lc vc lv va cf co src) (parse_u32 v)
  | None =>
  match strip_prefix (lit "chok=") tok with
  | Some v => option_map (fun x => mkMeta lo la ll f oc cc x vc lv va cf co src) (parse_opt_time v)
  | None =>
  match strip_prefix (lit "evseen=") tok with
  | Some v => option_map (fun x => mkMeta lo la ll f oc cc lc x lv va cf co src) (parse_u32 v)
  | None =>
  match strip_prefix (lit "evok=") tok with
  | Some v => option_map (fun x => mkMeta lo la ll f oc cc lc vc x va cf co src) (parse_opt_time v)
  | None =>
  match strip_prefix (lit "evtry=") tok with
  | Some v => option_map (fun x => mkMeta lo la ll f oc cc lc vc lv (Some x) cf co src) (iso_parse v)
  | None =>
  match strip_prefix (lit "cfails=") tok with
  | Some v => option_map (fun x => mkMeta lo la ll f oc cc lc vc lv va x co src) (parse_u32 v)
  | None =>
  match strip_prefix (lit "cobs=") tok with
  | Some v => option_map (fun x => mkMeta lo la ll f oc cc lc vc lv va cf x src) (iso_parse v)
  | None =>
  match strip_prefix (lit "srcenc=") tok with
  | Some v =>
      Some (mkMeta lo la ll f oc cc lc vc lv va cf co
              (bs_of_list (map decode_source (source_tokens v))))
  | None =>
  match strip_prefix (lit "src=") tok with
  | Some v => Some (mkMeta lo la ll f oc cc lc vc lv va cf co (bs_of_list (source_tokens v)))
  | None => Some m
  end end end end end end end end end end end end end end.

Fixpoint parse_tokens (m : Meta) (toks : list str) : option Meta :=
  match toks with
  | [] => Some m
  | t :: toks' =>
      match parse_token m t with
      | Some m' => parse_tokens m' toks'
      | None => None
      end
  end.

(** The format before the failure counter existed: a time and a latency. *)
Definition parse_legacy (s : str) : option Meta :=
  match split_once 32 s with
  | None => None
  | Some (when_part, rest) =>
  match iso_parse when_part with
  | None => None
  | Some t =>
  match strip_prefix (lit "latency=") (trim rest) with
  | None => None
  | Some v =>
  match parse_latency v with
  | None => None
  | Some l => Some (mkMeta (Some t) t l 0 1 0 None 0 None None 0 t [])
  end end end end.

Definition parse_meta_comment (s : str) : option Meta :=
  if starts_with (lit "fails=") s
  then parse_tokens meta_default (split_whitespace s)
  else parse_legacy s.

Definition format_iso (t : OffsetDateTime) : str :=
  default (lit "0000-00-00T00:00:00Z") (iso_format t).

(** ** Loading *)

(** What reading the store file gives. *)
Inductive read_outcome : Type :=
| FileText (text : str)
| FileNotFound
| ReadFailed.

Definition entry_of_meta (b : BridgeLine) (m : Meta) : Entry :=
  mkEntry b (m_last_ok m) (m_last_attempt m) (m_last_latency m) (m_fails m) (m_ok_count m)
    (m_channel_ok_count m) (m_last_channel_ok m) (m_verified_count m) (m_last_verified m)
    (m_last_verification_attempt m) (m_circuit_fails m) (m_last_circuit_observation m) (m_sources m).

Definition load_state : Type := bmap Key Entry * option Meta.

(** The body of the loop of [load] on one raw line. *)
Definition load_line (st : load_state) (raw : str) : load_state :=
  let '(m, pending) := st in
  let line := trim raw in
  if is_empty line then (m, pending)
  else match strip_prefix (lit "# ") line with
  | Some rest =>
      match parse_meta_comment rest with
      | Some meta => (m, Some meta)
      | None => (m, pending)
      end
  | None =>
      if starts_with (lit "#") line then (m, pending)
      else match bridge_parse line with
      | Some b =>
          if usable_for_tor b then
            let e := entry_of_meta b (default meta_default pending) in
            (bm_insert (key_of (bridge e)) e m, None)
          else (m, None)
      | None => (m, None)
      end
  end.

Definition load_text (text : str) : bmap Key Entry :=
  (fold_left load_line (lines text) ([], None)).1.

Definition load (p : str) (file : read_outcome) : result BridgeStore unit :=
  match file with
  | FileNotFound => Ok (mkStore p [])
  | ReadFailed => Err tt
  | FileText text => Ok (mkStore p (load_text text))
  end.

(** ** Saving *)

Definition save_cmp (a b : Entry) : comparison :=
  cmp (fails a) (fails b) ⊳ option_cmp odt_cmp (last_ok b) (last_ok a).

Definition opt_iso (o : option OffsetDateTime) : str :=
  match o with
  | Some t => format_iso t
  | None => [45]
  end.

Definition meta_line (e : Entry) : str :=
  lit "# fails=" ++ to_dec (fails e) ++
  lit " seen=" ++ to_dec (ok_count e) ++
  lit " attempt=" ++ format_iso (last_attempt e) ++
  lit " ok=" ++ opt_iso (last_ok e) ++
  lit " latency=" ++ to_dec (as_millis (last_latency e)) ++
  lit "ms chseen=" ++ to_dec (channel_ok_count e) ++
  lit " chok=" ++ opt_iso (last_channel_ok e) ++
  lit " evseen=" ++ to_dec (verified_count e) ++
  lit " evok=" ++ opt_iso (last_verified e) ++
  match last_verification_attempt e with
  | Some t => lit " evtry=" ++ format_iso t
  | None => []
  end ++
  lit " cfails=" ++ to_dec (circuit_fails e) ++
  lit " cobs=" ++ format_iso (last_circuit_observation e) ++
  if is_empty (sources e) then []
  else lit " srcenc=" ++ join (lit ",") (map encode_source (sources e)).

Definition entry_text (e : Entry) : str :=
  meta_line e ++ [10] ++ bridge_to_string (bridge e) ++ [10] ++ [10].

Definition HEADER_LINE1 : str :=
  lit "# Auto-generated by tor-socks5. Bridge reachability health.".
Definition HEADER_LINE2_PREFIX : str := lit "# Last updated at ".

(** The text [save] writes at the instant [now]. *)
Definition save_text (now : OffsetDateTime) (s : BridgeStore) : str :=
  HEADER_LINE1 ++ [10] ++ HEADER_LINE2_PREFIX ++ format_iso now ++ [46] ++ [10] ++ [10] ++
  flat_map entry_text (sort_by save_cmp (bm_values (entries s))).

(** [save]: the text replaces the file through a temp file. *)
Definition save (io : save_io) (now : OffsetDateTime) (s : BridgeStore) (file : read_outcome)
  : result unit unit * read_outcome :=
  save_file io (FileText (save_text now s)) file.

(** ** Round trip *)

(** What the format keeps of an entry: latencies in whole milliseconds. *)
Definition truncate_latency (e : Entry) : Entry :=
  mkEntry (bridge e) (last_ok e) (last_attempt e) (from_millis (as_millis (last_latency e)))
    (fails e) (ok_count e) (channel_ok_count e) (last_channel_ok e) (verified_count e)
    (last_verified e) (last_verification_attempt e) (circuit_fails e) (last_circuit_observation e)
    (sources e).

Definition meta_of (e : Entry) : Meta :=
  mkMeta (last_ok e) (last_attempt e) (last_latency e) (fails e) (ok_count e)
    (channel_ok_count e) (last_channel_ok e) (verified_count e) (last_verified e)
    (last_verification_attempt e) (circuit_fails e) (last_circuit_observation e) (sources e).

(** The tokens of a metadata line. *)
Definition meta_tokens (e : Entry) : list str :=
  [ lit "fails=" ++ to_dec (fails e);
    lit "seen=" ++ to_dec (ok_count e);
    lit "attempt=" ++ format_iso (last_attempt e);
    lit "ok=" ++ opt_iso (last_ok e);
    lit "latency=" ++ to_dec (as_millis (last_latency e)) ++ lit "ms";
    lit "chseen=" ++ to_dec (channel_ok_count e);
    lit "chok=" ++ opt_iso (last_channel_ok e);
    lit "evseen=" ++ to_dec (verified_count e);
    lit "evok=" ++ opt_iso (last_verified e) ] ++
  match last_verification_attempt e with
  | Some t => [lit "evtry=" ++ format_iso t]
  | None => []
  end ++
  [ lit "cfails=" ++ to_dec (circuit_fails e);
    lit "cobs=" ++ format_iso (last_circuit_observation e) ] ++
  if is_empty (sources e) then []
  else [lit "srcenc=" ++ join (lit ",") (map encode_source (sources e))].

Lemma meta_line_tokens e : meta_line e = lit "# " ++ join [32] (meta_tokens e).
Proof.
  unfold meta_line, meta_tokens.
  destruct (last_verification_attempt e), (is_empty (sources e)); simpl join;
    rewrite <-?app_assoc, ?app_nil_r; reflexivity.
Qed.

Section RoundTrip.
Context (validb : BridgeLine → Prop) (validt : OffsetDateTime → Prop)
  `{!BridgeLineLaws validb, !TimeLaws validt}.

Definition valid_opt (o : option OffsetDateTime) : Prop :=
  match o with
  | Some t => validt t
  | None => True
  end.

(** An entry the format can represent. *)
Record saveable (e : Entry) : Prop := mkSaveable {
  sv_bridge : validb (bridge e);
  sv_usable : usable_for_tor (bridge e) = true;
  sv_last_ok : valid_opt (last_ok e);
  sv_last_attempt : validt (last_attempt e);
  sv_last_channel_ok : valid_opt (last_channel_ok e);
  sv_last_verified : valid_opt (last_verified e);
  sv_last_verification_attempt : valid_opt (last_verification_attempt e);
  sv_last_circuit_observation : validt (last_circuit_observation e);
  sv_latency : as_millis (last_latency e) ≤ u64_max;
  sv_sources : Forall (fun l => l ≠ [] ∧ valid_str l) (sources e);
}.

Lemma format_iso_ok t :
  validt t → word (format_iso t) ∧ iso_parse (format_iso t) = Some t ∧ format_iso t ≠ [45].
Proof.
  intros Ht. unfold format_iso. destruct (iso_round_trip t Ht) as (s & -> & Hp & Hw & Hd). done.
Qed.

Lemma opt_iso_ok o : valid_opt o → word (opt_iso o) ∧ parse_opt_time (opt_iso o) = Some o.
Proof.
  destruct o as [t|]; simpl; [|intros _; split; [|done]; split; [done|by repeat constructor]].
  intros Ht. destruct (format_iso_ok t Ht) as (Hw & Hp & Hd). split; [done|].
  unfold parse_opt_time, str_eqb. by rewrite bool_decide_false, Hp.
Qed.

Lemma parse_u32_ok n : in_u u32_max n → parse_u32 (to_dec n) = Some n.
Proof. apply parse_to_dec. Qed.

Lemma parse_latency_ok l :
  0 ≤ l → as_millis l ≤ u64_max →
  parse_latency (to_dec (as_millis l) ++ lit "ms") = Some (from_millis (as_millis l)).
Proof.
  intros Hl Hm. unfold parse_latency. rewrite strip_suffix_app, parse_to_dec; [done|].
  split; [apply Z.div_pos; lia|done].
Qed.

Lemma source_tokens_ok ls :
  ls ≠ [] → bs_wf ls → Forall (fun l => l ≠ [] ∧ valid_str l) ls →
  bs_of_list (map decode_source (source_tokens (join (lit ",") (map encode_source ls)))) = ls.
Proof.
  intros Hne Hwf Hls. unfold source_tokens. change (lit ",") with [44]. rewrite split_on_join.
  - assert (List.filter (fun t => negb (is_empty t)) (map encode_source ls) = map encode_source ls) as ->.
    { clear Hne Hwf. induction Hls as [|l ls [Hl _] Hls IH]; [done|]. simpl. rewrite IH.
      apply encode_source_nonempty in Hl. by destruct (encode_source l). }
    rewrite map_map. rewrite (map_ext_in _ id), map_id; [by apply bs_of_list_id|].
    intros l Hl%list_elem_of_In. rewrite Forall_forall in Hls. apply decode_encode, Hls, Hl.
  - by destruct ls.
  - apply Forall_fmap. eapply Forall_impl; [exact Hls|]. intros l [_ Hv]. simpl.
    eapply Forall_impl; [by apply encode_source_clean|]. naive_solver.
Qed.

Lemma parse_tokens_app m ts us :
  parse_tokens m (ts ++ us) =
    match parse_tokens m ts with Some m' => parse_tokens m' us | None => None end.
Proof.
  revert m. induction ts as [|t ts IH]; intros m; simpl; [done|].
  destruct (parse_token m t); [apply IH|done].
Qed.

(** Evaluate the prefix tests of one token. *)
Ltac token_step :=
  cbn [parse_tokens]; unfold parse_token at 1;
  repeat match goal with
  | |- context [strip_prefix (lit ?a) (lit ?b ++ ?v)] =>
      first [ rewrite (strip_prefix_app (lit a) v)
            | change (strip_prefix (lit a) (lit b ++ v)) with (@None str) ];
      cbn iota
  end.

Lemma parse_meta_tokens k e :
  entry_wf k e → saveable e →
  parse_tokens meta_default (meta_tokens e) = Some (meta_of (truncate_latency e)).
Proof.
  intros [] []. unfold meta_tokens, meta_default. cbn [app].
  token_step. rewrite parse_u32_ok by done. cbn [option_map].
  token_step. rewrite parse_u32_ok by done. cbn [option_map].
  token_step. rewrite (proj1 (proj2 (format_iso_ok _ sv_last_attempt0))). cbn [option_map].
  token_step. rewrite (proj2 (opt_iso_ok _ sv_last_ok0)). cbn [option_map].
  token_step. rewrite parse_latency_ok by done. cbn [option_map].
  token_step. rewrite parse_u32_ok by done. cbn [option_map].
  token_step. rewrite (proj2 (opt_iso_ok _ sv_last_channel_ok0)). cbn [option_map].
  token_step. rewrite parse_u32_ok by done. cbn [option_map].
  token_step. rewrite (proj2 (opt_iso_ok _ sv_last_verified0)). cbn [option_map].
  assert (meta_of (truncate_latency e) = mkMeta (last_ok e) (last_attempt e)
    (from_millis (as_millis (last_latency e))) (fails e) (ok_count e) (channel_ok_count e)
    (last_channel_ok e) (verified_count e) (last_verified e) (last_verification_attempt e)
    (circuit_fails e) (last_circuit_observation e) (sources e)) as -> by done.
  destruct (last_verification_attempt e) as [t|]; cbn [app].
  - token_step. rewrite (proj1 (proj2 (format_iso_ok t sv_last_verification_attempt0))).
    cbn [option_map].
    token_step. rewrite parse_u32_ok by done. cbn [option_map].
    token_step. rewrite (proj1 (proj2 (format_iso_ok _ sv_last_circuit_observation0))).
    cbn [option_map]. destruct (sources e) as [|l ls] eqn:Hs; [done|]. cbn [is_empty].
    token_step. rewrite <-Hs in *. rewrite source_tokens_ok by (done || by rewrite Hs). done.
  - token_step. rewrite parse_u32_ok by done. cbn [option_map].
    token_step. rewrite (proj1 (proj2 (format_iso_ok _ sv_last_circuit_observation0))).
    cbn [option_map]. destruct (sources e) as [|l ls] eqn:Hs; [done|]. cbn [is_empty].
    token_step. rewrite <-Hs in *. rewrite source_tokens_ok by (done || by rewrite Hs). done.
Qed.

Lemma join_clean P sep ls :
  Forall P sep → Forall (Forall P) ls → Forall P (join sep ls).
Proof.
  intros Hsep Hls. induction Hls as [|w ls Hw Hls IH]; [constructor|].
  destruct ls as [|w' ls]; [done|].
  change (join sep (w :: w' :: ls)) with (w ++ sep ++ join sep (w' :: ls)).
  rewrite !Forall_app. done.
Qed.

Lemma lit_word_app (p : string) w :
  negb (is_empty (lit p)) && forallb (fun c => negb (is_whitespace c)) (lit p) = true →
  Forall (fun c => is_whitespace c = false) w → word (lit p ++ w).
Proof.
  intros [Hne Hp]%andb_true_iff Hw. apply word_app; [by destruct (lit p)| |done].
  apply Forall_forall. intros c Hc%list_elem_of_In.
  rewrite forallb_forall in Hp. apply Hp in Hc. by apply negb_true_iff.
Qed.

(** Split a literal list of tokens and solve the literal prefixes. *)
Ltac forall_words :=
  repeat (apply Forall_cons; split); try apply Forall_nil_2; apply lit_word_app; auto.

Lemma meta_tokens_words k e : entry_wf k e → saveable e → Forall word (meta_tokens e).
Proof.
  intros [] []. assert (∀ n, in_u u32_max n → Forall (fun c => is_whitespace c = false) (to_dec n)) as Hn.
  { intros n [Hn _]. apply to_dec_word, Hn. }
  assert (∀ t, validt t → Forall (fun c => is_whitespace c = false) (format_iso t)) as Ht.
  { intros t Ht. apply format_iso_ok, Ht. }
  assert (∀ o, valid_opt o → Forall (fun c => is_whitespace c = false) (opt_iso o)) as Ho.
  { intros o Ho. apply opt_iso_ok, Ho. }
  unfold meta_tokens. rewrite !Forall_app. repeat split.
  - forall_words.
    apply Forall_app. split; [apply to_dec_word, Z.div_pos; lia|by repeat constructor].
  - destruct (last_verification_attempt e); [|constructor].
    forall_words.
  - forall_words.
  - destruct (is_empty (sources e)); [constructor|]. constructor; [|constructor].
    apply lit_word_app; [done|]. apply join_clean; [by repeat constructor|].
    apply Forall_fmap. eapply Forall_impl; [exact sv_sources0|]. intros l [_ Hl]. simpl.
    eapply Forall_impl; [by apply encode_source_clean|]. naive_solver.
Qed.

Definition no_newline : str → Prop := Forall (fun c => (10 =? c) = false).

Lemma word_no_newline w : Forall (fun c => is_whitespace c = false) w → no_newline w.
Proof.
  intros Hw. eapply Forall_impl; [exact Hw|]. intros c Hc%whitespace_not. apply Z.eqb_neq. lia.
Qed.

Lemma word_last w : word w → ∃ y, last w = Some y ∧ is_whitespace y = false.
Proof.
  intros [Hne Hw]. destruct (last w) as [y|] eqn:Hy; [|by apply last_None in Hy].
  exists y. split; [done|]. apply last_Some_elem_of in Hy. rewrite Forall_forall in Hw. by apply Hw.
Qed.

Lemma meta_line_shape k e :
  entry_wf k e → saveable e →
  ∃ y, last (meta_line e) = Some y ∧ is_whitespace y = false ∧ no_newline (meta_line e).
Proof.
  intros Hwf Hs. pose proof (meta_tokens_words k e Hwf Hs) as Hw.
  destruct (last (meta_tokens e)) as [w|] eqn:Hlast; [|by apply last_None in Hlast].
  assert (word w) as Hww by (apply last_Some_elem_of in Hlast; rewrite Forall_forall in Hw; by apply Hw).
  destruct (word_last w Hww) as (y & Hy & Hyw). exists y. rewrite meta_line_tokens.
  rewrite last_app, (join_last _ _ w), Hy; [|done| |done].
  2: { eapply Forall_impl; [exact Hw|]. by intros ? []. }
  split; [done|]. split; [done|]. apply Forall_app. split; [by repeat constructor|].
  apply join_clean; [by repeat constructor|]. eapply Forall_impl; [exact Hw|].
  intros v [_ Hv]. by apply word_no_newline.
Qed.

Lemma load_meta_line m p k e :
  entry_wf k e → saveable e →
  load_line (m, p) (meta_line e) = (m, Some (meta_of (truncate_latency e))).
Proof.
  intros Hwf Hs. destruct (meta_line_shape k e Hwf Hs) as (y & Hy & Hyw & _).
  unfold load_line. rewrite (trim_ends _ 35 y) by done.
  rewrite meta_line_tokens, strip_prefix_app.
  change (is_empty (lit "# " ++ join [32] (meta_tokens e))) with false. cbn iota.
  unfold parse_meta_comment.
  assert (starts_with (lit "fails=") (join [32] (meta_tokens e)) = true) as ->.
  { apply starts_with_spec. eexists. unfold meta_tokens. cbn [app join].
    rewrite <-app_assoc. reflexivity. }
  rewrite split_whitespace_join by (done || by eapply meta_tokens_words).
  by rewrite (parse_meta_tokens k) by done.
Qed.

Lemma load_bridge_line m meta b :
  validb b → usable_for_tor b = true →
  load_line (m, Some meta) (bridge_to_string b) = (bm_insert (key_of b) (entry_of_meta b meta) m, None).
Proof.
  intros Hv Hu. unfold load_line. rewrite bridge_print_trim by done.
  pose proof (bridge_parse_print b Hv) as Hp.
  destruct (bridge_print_head b Hv) as (c & s & Hs & Hc). rewrite Hs in *. cbn [is_empty].
  assert (∀ r, strip_prefix (35 :: r) (c :: s) = None) as Hnone.
  { intros r. cbn [strip_prefix]. by rewrite (proj2 (Z.eqb_neq 35 c)) by lia. }
  change (lit "# ") with [35; 32]. rewrite Hnone.
  assert (starts_with (lit "#") (c :: s) = false) as ->.
  { unfold starts_with. change (lit "#") with [35]. rewrite Hnone. done. }
  rewrite Hp, Hu. done.
Qed.

Lemma bridge_line_shape b : validb b → strip_cr (bridge_to_string b) = bridge_to_string b.
Proof.
  intros Hv. apply strip_cr_id. intros Hl.
  by apply (trimmed_last _ 13 (bridge_print_trim b Hv)) in Hl.
Qed.

(** The lines of one saved entry. *)
Lemma entry_text_lines k e rest :
  entry_wf k e → saveable e →
  lines (entry_text e ++ rest) = meta_line e :: bridge_to_string (bridge e) :: [] :: lines rest.
Proof.
  intros Hwf Hs. destruct (meta_line_shape k e Hwf Hs) as (y & Hy & Hyw & Hnl).
  pose proof (sv_bridge e Hs) as Hb. unfold entry_text. rewrite <-!app_assoc. cbn [app].
  rewrite lines_cons; [|done|].
  2: { apply strip_cr_id. rewrite Hy. intros [= ->]. done. }
  rewrite lines_cons; [|by apply bridge_print_line|by apply bridge_line_shape].
  change (10 :: rest) with ([] ++ 10 :: rest). by rewrite lines_cons by done.
Qed.

Definition insert_truncated (m : bmap Key Entry) (e : Entry) : bmap Key Entry :=
  bm_insert (key_of (bridge e)) (truncate_latency e) m.

Lemma load_entries es m :
  Forall (fun e => (∃ k, entry_wf k e) ∧ saveable e) es →
  fold_left load_line (lines (flat_map entry_text es)) (m, None) =
    (fold_left insert_truncated es m, None).
Proof.
  intros Hes. revert m. induction Hes as [|e es [[k Hwf] Hs] Hes IH]; intros m; [done|].
  cbn [flat_map]. rewrite (entry_text_lines k) by done. cbn [fold_left].
  rewrite (load_meta_line _ _ k), load_bridge_line by (done || apply Hs).
  rewrite <-IH. done.
Qed.

(** Comments other than metadata leave the state alone. *)
Lemma load_header1 st : load_line st HEADER_LINE1 = st.
Proof.
  destruct st as [m p]. unfold load_line.
  assert (trim HEADER_LINE1 = HEADER_LINE1) as -> by (vm_compute; reflexivity).
  change (is_empty HEADER_LINE1) with false. cbn iota.
  change (strip_prefix (lit "# ") HEADER_LINE1) with (Some (drop 2 HEADER_LINE1)). cbn iota.
  assert (parse_meta_comment (drop 2 HEADER_LINE1) = None) as ->; [|done].
  change (parse_meta_comment (drop 2 HEADER_LINE1)) with (parse_legacy (drop 2 HEADER_LINE1)).
  unfold parse_legacy.
  change (split_once 32 (drop 2 HEADER_LINE1)) with (Some (lit "Auto-generated", drop 17 HEADER_LINE1)).
  cbn iota beta. destruct (iso_parse _); done.
Qed.

Lemma load_header2 st now :
  validt now → load_line st (HEADER_LINE2_PREFIX ++ format_iso now ++ [46]) = st.
Proof.
  intros Hnow. destruct st as [m p]. unfold load_line.
  rewrite (trim_ends _ 35 46) by (rewrite ?app_assoc, ?last_snoc; done).
  change (is_empty (HEADER_LINE2_PREFIX ++ format_iso now ++ [46])) with false. cbn iota.
  change (strip_prefix (lit "# ") (HEADER_LINE2_PREFIX ++ format_iso now ++ [46]))
    with (Some (lit "Last updated at " ++ format_iso now ++ [46])). cbn iota.
  assert (parse_meta_comment (lit "Last updated at " ++ format_iso now ++ [46]) = None) as ->; [|done].
  change (parse_meta_comment (lit "Last updated at " ++ format_iso now ++ [46]))
    with (parse_legacy (lit "Last updated at " ++ format_iso now ++ [46])).
  unfold parse_legacy.
  change (split_once 32 (lit "Last updated at " ++ format_iso now ++ [46]))
    with (Some (lit "Last", lit "updated at " ++ format_iso now ++ [46])).
  cbn iota beta. destruct (iso_parse _); [|done].
  rewrite (trim_ends _ 117 46) by (rewrite ?app_assoc, ?last_snoc; done). done.
Qed.

Lemma save_text_lines now s :
  validt now →
  lines (save_text now s) =
    HEADER_LINE1 :: (HEADER_LINE2_PREFIX ++ format_iso now ++ [46]) :: [] ::
    lines (flat_map entry_text (sort_by save_cmp (bm_values (entries s)))).
Proof.
  intros Hnow. unfold save_text. generalize (flat_map entry_text (sort_by save_cmp (bm_values (entries s)))).
  intros rest. cbn [app]. rewrite lines_cons; [|by repeat constructor|done].
  assert (HEADER_LINE2_PREFIX ++ format_iso now ++ 46 :: 10 :: 10 :: rest =
    (HEADER_LINE2_PREFIX ++ format_iso now ++ [46]) ++ 10 :: [] ++ 10 :: rest) as ->
    by (by rewrite <-!app_assoc).
  rewrite lines_cons; [by rewrite lines_cons| |].
  - rewrite !Forall_app. split; [by repeat constructor|]. split; [|by repeat constructor].
    apply word_no_newline, format_iso_ok, Hnow.
  - apply strip_cr_id. by rewrite app_assoc, last_snoc.
Qed.

Lemma insert_truncated_get es m k :
  NoDup (map (fun e => key_of (bridge e)) es) →
  bm_get k (fold_left insert_truncated es m) =
    match List.find (fun e => bool_decide (key_of (bridge e) = k)) es with
    | Some e => Some (truncate_latency e)
    | None => bm_get k m
    end.
Proof.
  revert m. induction es as [|e es IH]; intros m Hnd; [done|].
  cbn [map] in Hnd. apply NoDup_cons in Hnd as [Hne Hnd]. cbn [fold_left]. rewrite IH by done.
  cbn [List.find]. unfold insert_truncated. rewrite bm_get_insert.
  case_bool_decide as Hk.
  - rewrite decide_True by done. destruct (List.find _ es) as [e'|] eqn:Hf; [|done].
    apply find_some in Hf as [Hin Hk'%bool_decide_eq_true_1]. destruct Hne.
    rewrite Hk, <-Hk'. by apply (list_elem_of_fmap_2 (fun e => key_of (bridge e))), list_elem_of_In.
  - by rewrite decide_False by congruence.
Qed.

Lemma insert_truncated_wf es m : bm_wf m → bm_wf (fold_left insert_truncated es m).
Proof.
  revert m. induction es as [|e es IH]; intros m Hm; [done|]. simpl. by apply IH, bm_insert_wf.
Qed.

Definition truncate_all (m : bmap Key Entry) : bmap Key Entry :=
  map (fun ke => (ke.1, truncate_latency ke.2)) m.

Lemma truncate_all_get m k : bm_get k (truncate_all m) = option_map truncate_latency (bm_get k m).
Proof.
  induction m as [|[k' e] m IH]; [done|].
  cbn [truncate_all map bm_get fst snd]. by destruct (cmp k k').
Qed.

Lemma truncate_all_wf m : bm_wf m → bm_wf (truncate_all m).
Proof. unfold bm_wf, bm_keys, truncate_all. by rewrite map_map. Qed.

(** Inserting the entries in any order rebuilds the map. *)
Lemma rebuild_entries s es :
  store_wf s → es ≡ₚ bm_values (entries s) →
  fold_left insert_truncated es [] = truncate_all (entries s).
Proof.
  intros [Hwf He] Hp.
  assert (map (fun e => key_of (bridge e)) (bm_values (entries s)) = bm_keys (entries s)) as Hkeys.
  { unfold bm_values, bm_keys. rewrite map_map. apply map_ext_in. intros [k e] Hin%list_elem_of_In.
    simpl. apply wf_key, He. by apply bm_elem_get. }
  assert (NoDup (map (fun e => key_of (bridge e)) es)) as Hnd.
  { rewrite Hp, Hkeys. apply bm_keys_NoDup, Hwf. }
  apply bm_ext; [apply insert_truncated_wf; constructor|by apply truncate_all_wf|].
  intros k. rewrite insert_truncated_get, truncate_all_get by done.
  destruct (List.find _ es) as [e|] eqn:Hf.
  - apply find_some in Hf as [Hin%list_elem_of_In Hk%bool_decide_eq_true_1].
    rewrite Hp in Hin. apply list_elem_of_fmap in Hin as ([k' e'] & -> & Hin). simpl in *.
    pose proof (bm_elem_get _ _ _ Hwf Hin) as Hg.
    rewrite (wf_key _ _ (He _ _ Hg)) in Hk. subst k'. by rewrite Hg.
  - destruct (bm_get k (entries s)) as [e|] eqn:Hg; [|done]. exfalso.
    assert (e ∈ es) as Hin by (rewrite Hp; apply bm_get_elem in Hg; by apply (list_elem_of_fmap_2 snd _ (k, e))).
    apply list_elem_of_In in Hin. pose proof (find_none _ _ Hf _ Hin) as Hk.
    simpl in Hk. apply bool_decide_eq_false_1 in Hk. apply Hk, wf_key, He, Hg.
Qed.
End RoundTrip.

Lemma load_saved_text (validb : BridgeLine → Prop) (validt : OffsetDateTime → Prop)
  {Hb : BridgeLineLaws validb} {Ht : TimeLaws validt} (s : BridgeStore) (now : OffsetDateTime) :
  store_wf s → validt now → Forall (saveable validb validt) (bm_values (entries s)) →
  load (path s) (FileText (save_text now s)) = Ok (mkStore (path s) (truncate_all (entries s))).
Proof.
  intros Hwf Hnow Hs. unfold load, load_text. do 2 f_equal.
  rewrite (save_text_lines validt) by done. cbn [fold_left].
  rewrite load_header1, (load_header2 validt) by done.
  change (load_line ([], None) []) with (@nil (Key * Entry), @None Meta).
  rewrite (load_entries validb validt).
  - apply rebuild_entries; [done|]. apply sort_by_perm.
  - rewrite sort_by_perm. apply Forall_forall. intros e He. rewrite Forall_forall in Hs.
    split; [|by apply Hs]. apply list_elem_of_fmap in He as ([k e'] & -> & Hin).
    exists k. destruct Hwf as [Hm He']. by apply He', bm_elem_get.
Qed.

(** ** Properties *)

(** percent-encoding a source label and decoding it gives the label back,
    whatever commas, blanks, percent signs or non-ASCII characters it holds,
    and the encoded form has no blank or comma that the metadata format would
    split. *)
Theorem source_label_round_trip (l : str) :
  valid_str l →
  decode_source (encode_source l) = l ∧
  Forall (fun c => is_whitespace c = false ∧ (44 =? c) = false) (encode_source l).
Proof. intros Hl. split; [by apply decode_encode|by apply encode_source_clean]. Qed.

(** C12: a well-formed store that saves successfully loads back as the same
    store, entry by entry, except that latencies are cut to whole milliseconds;
    and a save that fails leaves the file as it was or already replaced by one
    that loads back.  For entries whose bridge line, times and non-empty source
    labels the format can represent. *)
Theorem save_load_round_trip (validb : BridgeLine → Prop) (validt : OffsetDateTime → Prop)
  (Hb : BridgeLineLaws validb) (Ht : TimeLaws validt) (io : save_io) (s : BridgeStore)
  (now : OffsetDateTime) (file : read_outcome) :
  store_wf s → validt now → Forall (saveable validb validt) (bm_values (entries s)) →
  let kept := Ok (mkStore (path s) (truncate_all (entries s))) in
  match save io now s file with
  | (Ok _, file') => load (path s) file' = kept
  | (Err _, file') => file' = file ∨ load (path s) file' = kept
  end.
Proof.
  intros Hwf Hnow Hs kept. pose proof (load_saved_text validb validt s now Hwf Hnow Hs) as Hl.
  unfold save. destruct (save_file_cases io (FileText (save_text now s)) file) as [Hc|[Hc|[Hc _]]];
    rewrite Hc; auto.
Qed.
End Persist.

(** ** Witnesses *)

Section Witnesses.
#[local] Existing Instance sample_url.
#[local] Existing Instance sample_tls.
#[local] Existing Instance sample_time.
#[local] Existing Instance sample_lines.

Lemma source_label_round_trip_witness :
  decode_source (encode_source (lit "50%, new  list")) = lit "50%, new  list".
Proof.
  apply (source_label_round_trip (lit "50%, new  list")).
  apply Forall_forall. intros c Hc. vm_compute in Hc.
  repeat (apply elem_of_cons in Hc as [->|Hc]; [reflexivity|]). by apply not_elem_of_nil in Hc.
Defined.

Definition saved_store : BridgeStore :=
  run (mkStore (lit "store.log") []) [SourceSeen plain_bridge (lit "a, b") 5].

Lemma save_load_round_trip_witness :
  let kept := Ok (mkStore (path saved_store) (truncate_all (entries saved_store))) in
  match save (mkSave true true true true false) 9 saved_store FileNotFound with
  | (Ok _, file') => load (path saved_store) file' = kept
  | (Err _, file') => file' = FileNotFound ∨ load (path saved_store) file' = kept
  end.
Proof.
  apply (save_load_round_trip (fun b => b ∈ [plain_bridge; obfs4_bridge; webtunnel_bridge])
           (fun t : OffsetDateTime => 0 ≤ odt_nanos t ≤ u128_max) sample_lines_laws sample_time_laws
           (mkSave true true true true false) saved_store 9 FileNotFound).
  - apply run_wf; [by repeat constructor|]. split; [constructor|]. done.
  - unfold u128_max. simpl. lia.
  - change (bm_values (entries saved_store))
      with [add_source (lit "a, b") (fresh_entry plain_bridge 5 0 0 0)].
    apply Forall_cons. split; [|apply Forall_nil_2].
    constructor; simpl; try done; try (unfold u128_max, u64_max, as_millis; simpl; lia); [left|].
    apply Forall_cons. split; [|apply Forall_nil_2]. split; [done|].
    by repeat constructor.
Defined.
End Witnesses.
End Persist.
