(* ===== verification/CandidatePool.v ===== *)
(** * The candidate pool

    [apps/socks5-proxy/src/bridges/candidate_pool.rs]: the queue of unverified
    bridges, deduplicated by identity, with its merge, take, priority, removal
    and rotation operations and its file format. *)

From S2P Require Import Prelude Order OrdMap Str TempFile Net Crates Samples Identity.
Import TempFile.
Import Identity.
Open Scope Z_scope.

Module Pool.
Section Pool.
Context `{UrlCrate, TlsCrate, BridgeLineCrate}.

Definition key_of (b : BridgeLine) : BridgeIdentity := bridge_identity b.

Record CandidatePool : Type := mkPool {
  path : str;
  bridges : list BridgeLine;
  keys : gset BridgeIdentity;
}.

Definition push_unique (p : CandidatePool) (b : BridgeLine) : CandidatePool * bool :=
  let key := key_of b in
  if bool_decide (key ∈ keys p) then (p, false)
  else (mkPool (path p) (bridges p ++ [b]) ({[ key ]} ∪ keys p), true).

Fixpoint merge (p : CandidatePool) (fetched : list BridgeLine) (exclude : gset BridgeIdentity)
  : CandidatePool * nat :=
  match fetched with
  | [] => (p, 0%nat)
  | b :: fetched' =>
      if bool_decide (key_of b ∈ exclude) then merge p fetched' exclude
      else
        let '(p1, fresh) := push_unique p b in
        let '(p2, added) := merge p1 fetched' exclude in
        (p2, if fresh then S added else added)
  end.

(** The keys left after removing those of [taken] one by one. *)
Definition remove_keys (ks : gset BridgeIdentity) (taken : list BridgeLine) : gset BridgeIdentity :=
  fold_left (fun ks b => ks ∖ {[ key_of b ]}) taken ks.

Definition take_front (p : CandidatePool) (n : nat) : CandidatePool * list BridgeLine :=
  let n := Nat.min n (length (bridges p)) in
  let taken := take n (bridges p) in
  (mkPool (path p) (drop n (bridges p)) (remove_keys (keys p) taken), taken).

Definition has_transport (t : str) (b : BridgeLine) : bool := bool_decide (transport b = Some t).

(** The single pass of [take_transport]: the first [n] matches are moved out
    and the scan stops once they are found. *)
Fixpoint scan_transport (t : str) (n : nat) (l : list BridgeLine)
  : list BridgeLine * list BridgeLine :=
  match n, l with
  | O, _ => ([], l)
  | _, [] => ([], [])
  | S n', b :: l' =>
      if has_transport t b
      then let '(taken, kept) := scan_transport t n' l' in (b :: taken, kept)
      else let '(taken, kept) := scan_transport t n l' in (taken, b :: kept)
  end.

Definition take_transport (p : CandidatePool) (n : nat) (transport : option str)
  : CandidatePool * list BridgeLine :=
  match transport with
  | None => take_front p n
  | Some t =>
      if (n =? 0)%nat || is_empty (bridges p) then (p, [])
      else
        let '(taken, kept) := scan_transport t n (bridges p) in
        (mkPool (path p) kept (remove_keys (keys p) taken), taken)
  end.

Definition prioritize (p : CandidatePool) (fresh : list BridgeLine) (transport : option str)
  : CandidatePool :=
  let fresh_keys : list BridgeIdentity :=
    map key_of (List.filter (fun b => match transport with
                                      | None => true
                                      | Some t => has_transport t b
                                      end) fresh) in
  mkPool (path p)
    (sort_by (cmp_on (fun b => negb (bool_decide (key_of b ∈ fresh_keys))) cmp) (bridges p))
    (keys p).

(** [remove_all]: the keys actually removed, and how many. *)
Fixpoint remove_present (ks : gset BridgeIdentity) (bs : list BridgeLine) : gset BridgeIdentity * gset BridgeIdentity * nat :=
  match bs with
  | [] => (ks, ∅, 0%nat)
  | b :: bs' =>
      let key := key_of b in
      if bool_decide (key ∈ ks) then
        let '(ks', doomed, n) := remove_present (ks ∖ {[ key ]}) bs' in
        (ks', {[ key ]} ∪ doomed, S n)
      else remove_present ks bs'
  end.

Definition remove_all (p : CandidatePool) (bs : list BridgeLine) : CandidatePool * nat :=
  let '(ks, doomed, removed) := remove_present (keys p) bs in
  if (0 <? removed)%nat
  then (mkPool (path p)
          (List.filter (fun b => negb (bool_decide (key_of b ∈ doomed))) (bridges p)) ks, removed)
  else (mkPool (path p) (bridges p) ks, removed).

Definition rotate_to_back (p : CandidatePool) (bs : list BridgeLine) : CandidatePool * nat :=
  let requested : gset BridgeIdentity := list_to_set (map key_of bs) in
  let rotated := List.filter (fun b => bool_decide (key_of b ∈ requested)) (bridges p) in
  let kept := List.filter (fun b => negb (bool_decide (key_of b ∈ requested))) (bridges p) in
  (mkPool (path p) (kept ++ rotated) (keys p), length rotated).

Definition len (p : CandidatePool) : nat := length (bridges p).

(** ** File format *)

Definition HEADER : str := lit "# Auto-generated by tor-socks5. Unverified bridge candidate pool.".

Definition load_line (p : CandidatePool) (raw : str) : CandidatePool :=
  let line := trim raw in
  if is_empty line || starts_with (lit "#") line then p
  else match bridge_parse line with
  | Some b => (push_unique p b).1
  | None => p
  end.

Definition load_text (path : str) (text : str) : CandidatePool :=
  fold_left load_line (lines text) (mkPool path [] ∅).

Definition save_text (p : CandidatePool) : str :=
  HEADER ++ [10] ++ [10] ++ flat_map (fun b => bridge_to_string b ++ [10]) (bridges p).

(** The pool file: missing, unreadable or its text. *)
Inductive pool_file : Type :=
| PoolMissing
| PoolUnreadable
| PoolText (text : str).

Definition load (path : str) (file : pool_file) : result CandidatePool unit :=
  match file with
  | PoolMissing => Ok (mkPool path [] ∅)
  | PoolUnreadable => Err tt
  | PoolText text => Ok (load_text path text)
  end.

(** [transaction]: under the lock, load, mutate and publish the result; the
    lock may not be obtained and the save may fail, before or after the new
    file is in place. *)
Definition transaction {T} (path : str) (locked : bool) (save : save_io) (file : pool_file)
  (f : CandidatePool → CandidatePool * T) : result T unit * pool_file :=
  if negb locked then (Err tt, file)
  else match load path file with
  | Err e => (Err e, file)
  | Ok p =>
      let '(p', out) := f p in
      match save_file save (PoolText (save_text p')) file with
      | (Ok _, file') => (Ok out, file')
      | (Err e, file') => (Err e, file')
      end
  end.

(** The mutations of a pool, for sequences of operations. *)
Inductive pool_op : Type :=
| OpMerge (fetched : list BridgeLine) (exclude : gset BridgeIdentity)
| OpTake (n : nat) (transport : option str)
| OpPrioritize (fresh : list BridgeLine) (transport : option str)
| OpRemove (bs : list BridgeLine)
| OpRotate (bs : list BridgeLine).

Definition apply_op (p : CandidatePool) (op : pool_op) : CandidatePool :=
  match op with
  | OpMerge fetched exclude => (merge p fetched exclude).1
  | OpTake n t => (take_transport p n t).1
  | OpPrioritize fresh t => prioritize p fresh t
  | OpRemove bs => (remove_all p bs).1
  | OpRotate bs => (rotate_to_back p bs).1
  end.

(** ** Invariant *)

Definition pool_wf (p : CandidatePool) : Prop :=
  NoDup (map key_of (bridges p)) ∧ keys p = list_to_set (map key_of (bridges p)).

Lemma pool_wf_keys p b : pool_wf p → key_of b ∈ keys p ↔ key_of b ∈ map key_of (bridges p).
Proof. intros [_ ->]. by rewrite elem_of_list_to_set. Qed.

Lemma push_unique_wf p b : pool_wf p → pool_wf (push_unique p b).1.
Proof.
  intros [Hnd Hk]. unfold push_unique. case_bool_decide as Hin; [done|].
  split; simpl; rewrite map_app; simpl.
  - apply NoDup_app. split; [done|]. split; [|apply NoDup_singleton].
    intros k Hk' ->%list_elem_of_singleton. apply Hin. rewrite Hk. by apply elem_of_list_to_set.
  - rewrite Hk, list_to_set_app_L. set_solver.
Qed.

Lemma merge_wf p fetched exclude : pool_wf p → pool_wf (merge p fetched exclude).1.
Proof.
  revert p. induction fetched as [|b fetched IH]; intros p Hp; simpl; [done|].
  case_bool_decide; [by apply IH|]. pose proof (push_unique_wf p b Hp) as Hp1.
  destruct (push_unique p b) as [p1 fresh]. specialize (IH p1 Hp1).
  by destruct (merge p1 fetched exclude).
Qed.

Lemma remove_keys_spec ks taken :
  remove_keys ks taken = ks ∖ list_to_set (map key_of taken).
Proof.
  unfold remove_keys. revert ks. induction taken as [|b taken IH]; intros ks; simpl; [set_solver|].
  rewrite IH. set_solver.
Qed.

(** Splitting the queue into taken and kept keeps the invariant. *)
Lemma split_wf p taken kept :
  pool_wf p → taken ++ kept ≡ₚ bridges p →
  pool_wf (mkPool (path p) kept (remove_keys (keys p) taken)).
Proof.
  intros [Hnd Hk] Hp. rewrite <-Hp, map_app in Hnd. apply NoDup_app in Hnd as (_ & Hdis & Hnd).
  split; simpl; [done|]. rewrite remove_keys_spec, Hk.
  apply leibniz_equiv. intros k. rewrite elem_of_difference, !elem_of_list_to_set.
  rewrite <-Hp, map_app, elem_of_app. naive_solver.
Qed.

Lemma reorder_wf p l : pool_wf p → l ≡ₚ bridges p → pool_wf (mkPool (path p) l (keys p)).
Proof.
  intros [Hnd Hk] Hp. split; simpl; [by rewrite Hp|]. rewrite Hk.
  apply leibniz_equiv. intros k. by rewrite !elem_of_list_to_set, Hp.
Qed.

Lemma filter_split_perm {A} (f : A → bool) l :
  List.filter f l ++ List.filter (fun x => negb (f x)) l ≡ₚ l.
Proof.
  induction l as [|x l IH]; simpl; [done|]. destruct (f x); simpl; [by rewrite IH|].
  rewrite <-Permutation_middle. by rewrite IH.
Qed.

Lemma scan_transport_perm t n l :
  let '(taken, kept) := scan_transport t n l in taken ++ kept ≡ₚ l.
Proof.
  revert n. induction l as [|b l IH]; intros [|n]; simpl; try done.
  destruct (has_transport t b).
  - specialize (IH n). destruct (scan_transport t n l). simpl. by rewrite IH.
  - specialize (IH (S n)). destruct (scan_transport t (S n) l).
    rewrite <-Permutation_middle. by rewrite IH.
Qed.

Lemma scan_transport_taken t n l :
  (scan_transport t n l).1 = take n (List.filter (has_transport t) l).
Proof.
  revert n. induction l as [|b l IH]; intros [|n]; simpl; try done.
  destruct (has_transport t b); simpl.
  - specialize (IH n). destruct (scan_transport t n l). simpl in *. by rewrite IH.
  - specialize (IH (S n)). by destruct (scan_transport t (S n) l).
Qed.

Lemma scan_transport_kept t n l :
  List.filter (has_transport t) (scan_transport t n l).2 = drop n (List.filter (has_transport t) l) ∧
  List.filter (fun b => negb (has_transport t b)) (scan_transport t n l).2 =
    List.filter (fun b => negb (has_transport t b)) l.
Proof.
  revert n. induction l as [|b l IH]; intros [|n]; simpl; try done.
  destruct (has_transport t b) eqn:Hb; simpl.
  - specialize (IH n). destruct (scan_transport t n l). simpl in *. done.
  - specialize (IH (S n)). destruct (scan_transport t (S n) l). simpl in *.
    rewrite Hb. simpl. destruct IH as [-> ->]. done.
Qed.

Lemma take_transport_perm p n t :
  (take_transport p n t).2 ++ bridges (take_transport p n t).1 ≡ₚ bridges p.
Proof.
  unfold take_transport, take_front. destruct t as [t|]; simpl; [|by rewrite take_drop].
  destruct ((n =? 0)%nat || is_empty (bridges p)); [done|].
  pose proof (scan_transport_perm t n (bridges p)). by destruct (scan_transport t n (bridges p)).
Qed.

Lemma take_transport_wf p n t : pool_wf p → pool_wf (take_transport p n t).1.
Proof.
  intros Hp. unfold take_transport, take_front. destruct t as [t|]; simpl.
  - destruct ((n =? 0)%nat || is_empty (bridges p)); [done|].
    pose proof (scan_transport_perm t n (bridges p)). destruct (scan_transport t n (bridges p)).
    by apply split_wf.
  - apply split_wf; [done|]. by rewrite take_drop.
Qed.

Lemma remove_present_spec ks bs :
  let '(ks', doomed, n) := remove_present ks bs in
  doomed = ks ∩ list_to_set (map key_of bs) ∧ ks' = ks ∖ list_to_set (map key_of bs) ∧
  n = size doomed.
Proof.
  revert ks. induction bs as [|b bs IH]; intros ks; cbn [remove_present map].
  { split; [set_solver|]. split; [set_solver|]. by rewrite size_empty. }
  rewrite list_to_set_cons.
  case_bool_decide as Hin.
  - specialize (IH (ks ∖ {[ key_of b ]})).
    destruct (remove_present (ks ∖ {[ key_of b ]}) bs) as [[ks' doomed] n].
    destruct IH as (-> & -> & ->). split; [|split].
    + apply leibniz_equiv. intros k. destruct (decide (k = key_of b)); set_solver.
    + apply leibniz_equiv. set_solver.
    + rewrite (size_union {[ key_of b ]}), size_singleton by set_solver. done.
  - specialize (IH ks). destruct (remove_present ks bs) as [[ks' doomed] n].
    destruct IH as (-> & -> & ->). split; [set_solver|]. split; [|done].
    apply leibniz_equiv. intros k. destruct (decide (k = key_of b)); set_solver.
Qed.

Lemma filter_ext_elem {A} (f g : A → bool) l :
  (∀ x, x ∈ l → f x = g x) → List.filter f l = List.filter g l.
Proof.
  intros Hfg. apply filter_ext_in. intros x Hx. by apply Hfg, list_elem_of_In.
Qed.

(** [remove_all] keeps exactly the bridges whose identity was not listed. *)
Lemma remove_all_bridges p bs :
  pool_wf p →
  bridges (remove_all p bs).1 =
    List.filter (fun b => negb (bool_decide (key_of b ∈ map key_of bs))) (bridges p) ∧
  keys (remove_all p bs).1 = keys p ∖ list_to_set (map key_of bs) ∧
  path (remove_all p bs).1 = path p ∧
  (remove_all p bs).2 = size (keys p ∩ list_to_set (map key_of bs)).
Proof.
  intros Hwf. unfold remove_all. pose proof (remove_present_spec (keys p) bs) as Hr.
  destruct (remove_present (keys p) bs) as [[ks doomed] n]. destruct Hr as (Hd & -> & Hn).
  assert (∀ b, b ∈ bridges p → key_of b ∈ keys p) as Hin.
  { intros b Hb. apply pool_wf_keys; [done|]. by apply list_elem_of_fmap_2. }
  destruct (Nat.ltb_spec 0 n) as [Hpos|Hzero]; simpl; (split; [|by subst]).
  - apply filter_ext_elem. intros b Hb. f_equal. apply bool_decide_ext.
    subst doomed. rewrite elem_of_intersection, elem_of_list_to_set. naive_solver.
  - assert (doomed = ∅) as Hemp by (apply leibniz_equiv, size_empty_iff; lia).
    symmetry. apply forallb_filter_id. apply forallb_forall. intros b Hb%list_elem_of_In.
    apply negb_true_iff, bool_decide_eq_false_2. intros Hk.
    apply (not_elem_of_empty (C := gset BridgeIdentity) (key_of b)). rewrite <-Hemp, Hd.
    apply elem_of_intersection. split; [by apply Hin|]. by apply elem_of_list_to_set.
Qed.

Lemma remove_all_wf p bs : pool_wf p → pool_wf (remove_all p bs).1.
Proof.
  intros Hwf. destruct (remove_all_bridges p bs Hwf) as (Hb & Hk & _ & _).
  destruct Hwf as [Hnd Hks]. split.
  - rewrite Hb. pose proof (filter_split_perm (fun b => bool_decide (key_of b ∈ map key_of bs)) (bridges p)) as Hp.
    rewrite <-Hp, map_app in Hnd. by apply NoDup_app in Hnd as (_ & _ & ?).
  - rewrite Hb, Hk, Hks. apply leibniz_equiv. intros k.
    rewrite elem_of_difference, !elem_of_list_to_set, !list_elem_of_fmap. split.
    + intros [(b & -> & Hin) Hout]. exists b. split; [done|]. apply list_elem_of_In, filter_In.
      split; [by apply list_elem_of_In|]. apply negb_true_iff, bool_decide_eq_false_2.
      intros Hk'. by apply Hout, list_elem_of_fmap.
    + intros (b & -> & [Hin Hf]%list_elem_of_In%filter_In).
      apply negb_true_iff, bool_decide_eq_false_1 in Hf. split.
      * exists b. split; [done|]. by apply list_elem_of_In.
      * intros Hk'. by apply Hf, list_elem_of_fmap.
Qed.

Lemma rotate_to_back_perm p bs : bridges (rotate_to_back p bs).1 ≡ₚ bridges p.
Proof. simpl. rewrite Permutation_app_comm. apply filter_split_perm. Qed.

Lemma apply_op_wf p op : pool_wf p → pool_wf (apply_op p op).
Proof.
  intros Hp. destruct op; simpl.
  - by apply merge_wf.
  - by apply take_transport_wf.
  - apply reorder_wf; [done|]. apply sort_by_perm.
  - by apply remove_all_wf.
  - apply reorder_wf; [done|]. apply rotate_to_back_perm.
Qed.

Lemma empty_wf path : pool_wf (mkPool path [] ∅).
Proof. split; [constructor|done]. Qed.

Lemma load_text_wf path text : pool_wf (load_text path text).
Proof.
  unfold load_text. generalize (empty_wf path). generalize (mkPool path [] ∅).
  induction (lines text) as [|raw ls IH]; intros p Hp; simpl; [done|].
  apply IH. unfold load_line. destruct (is_empty _ || _); [done|].
  destruct (bridge_parse _); [by apply push_unique_wf|done].
Qed.

Lemma load_path root file p : load root file = Ok p → path p = root.
Proof.
  destruct file as [| |text]; simpl; try done; [by intros [= <-]|]. intros [= <-]. unfold load_text.
  change root with (path (mkPool root [] ∅)) at 2. generalize (mkPool root [] ∅).
  induction (lines text) as [|raw ls IH]; intros p'; simpl; [done|]. rewrite IH.
  unfold load_line, push_unique. destruct (is_empty _ || _); [done|].
  destruct (bridge_parse _); [|done]. by case_bool_decide.
Qed.

Lemma load_wf path file p : load path file = Ok p → pool_wf p.
Proof.
  destruct file; simpl; try done; intros [= <-]; [apply empty_wf|apply load_text_wf].
Qed.

Lemma push_unique_appends p b :
  let '(p', fresh) := push_unique p b in
  bridges p' = bridges p ++ (if fresh : bool then [b] else []) ∧
  path p' = path p ∧ keys p' = {[ key_of b ]} ∪ keys p ∧
  (fresh = true ↔ key_of b ∉ keys p).
Proof.
  unfold push_unique. case_bool_decide as Hin; simpl.
  - rewrite app_nil_r. repeat split; [|done|done]. apply leibniz_equiv. set_solver.
  - repeat split; done.
Qed.

Lemma merge_appends p fetched exclude :
  let '(p', added) := merge p fetched exclude in
  ∃ new, bridges p' = bridges p ++ new ∧ length new = added ∧ sublist new fetched ∧
    Forall (fun b => (key_of b ∉ exclude) ∧ (key_of b ∉ keys p)) new ∧
    keys p ⊆ keys p' ∧ Forall (fun b => key_of b ∈ exclude ∨ key_of b ∈ keys p') fetched.
Proof.
  revert p. induction fetched as [|b fetched IH]; intros p; simpl.
  { exists []. rewrite app_nil_r. by split_and!. }
  case_bool_decide as Hex.
  - specialize (IH p). destruct (merge p fetched exclude) as [p' added].
    destruct IH as (new & -> & <- & Hsub & Hnew & Hk & Hall). exists new.
    split_and!; try done; [by apply sublist_cons|]. constructor; [by left|done].
  - pose proof (push_unique_appends p b) as Hpush. destruct (push_unique p b) as [p1 fresh].
    destruct Hpush as (Hb & _ & Hk1 & Hfresh). specialize (IH p1).
    destruct (merge p1 fetched exclude) as [p' added].
    destruct IH as (new & Hb' & Hlen & Hsub & Hnew & Hk & Hall).
    exists ((if fresh then [b] else []) ++ new). rewrite Hb', Hb, app_assoc.
    assert (key_of b ∈ keys p') by (apply Hk; rewrite Hk1; set_solver).
    split_and!; [done|..].
    + destruct fresh; simpl; congruence.
    + destruct fresh; [by apply sublist_skip|by apply sublist_cons].
    + apply Forall_app. split.
      * destruct fresh; [|constructor]. repeat constructor; [done|]. by apply Hfresh.
      * eapply Forall_impl; [exact Hnew|]. intros b' [He Hn]. split; [done|].
        intros Hin. apply Hn. rewrite Hk1. set_solver.
    + intros k Hin. apply Hk. rewrite Hk1. set_solver.
    + constructor; [by right|done].
Qed.

(** A stable sort by a boolean key is a partition. *)
Lemma sort_by_bool {A} (f : A → bool) l :
  sort_by (cmp_on (fun x => negb (f x)) cmp) l =
    List.filter f l ++ List.filter (fun x => negb (f x)) l.
Proof.
  set (c := cmp_on (fun x => negb (f x)) cmp).
  assert (∀ x y, c x y = bool_cmp (negb (f x)) (negb (f y))) as Hc by done.
  induction l as [|x l IH]; [done|]. cbn [sort_by]. rewrite IH. simpl.
  destruct (f x) eqn:Hx; simpl.
  - destruct (List.filter f l ++ _) as [|y r] eqn:Hr; [done|].
    simpl. rewrite Hc, Hx. simpl. by destruct (f y).
  - clear IH. set (r := List.filter (fun x0 => negb (f x0)) l).
    assert (Forall (fun y => f y = false) r) as Hr.
    { apply Forall_forall. intros y [_ Hy]%list_elem_of_In%filter_In. by apply negb_true_iff. }
    assert (Forall (fun y => f y = true) (List.filter f l)) as Hl.
    { apply Forall_forall. by intros y [_ Hy]%list_elem_of_In%filter_In. }
    rewrite sort_insert_after.
    + f_equal. destruct Hr as [|y r' Hy _]; simpl; [done|]. by rewrite Hc, Hx, Hy.
    + eapply Forall_impl; [exact Hl|]. intros y Hy. by rewrite Hc, Hx, Hy.
Qed.

(** ** Round trip *)

Lemma push_all p bs :
  NoDup (map key_of bs) → (∀ b, b ∈ bs → key_of b ∉ keys p) →
  fold_left (fun p b => (push_unique p b).1) bs p =
    mkPool (path p) (bridges p ++ bs) (list_to_set (map key_of bs) ∪ keys p).
Proof.
  revert p. induction bs as [|b bs IH]; intros p Hnd Hk.
  { simpl. rewrite app_nil_r. destruct p. simpl. f_equal. apply leibniz_equiv. set_solver. }
  cbn [map] in Hnd. apply NoDup_cons in Hnd as [Hb Hnd]. cbn [fold_left].
  pose proof (push_unique_appends p b) as Hpush. destruct (push_unique p b) as [p1 fresh].
  destruct Hpush as (Hb1 & Hp1 & Hk1 & Hfresh). simpl.
  assert (fresh = true) as -> by (apply Hfresh, Hk; left).
  rewrite IH, Hb1, Hp1, Hk1; [|done|].
  - f_equal; [by rewrite <-app_assoc|]. apply leibniz_equiv. set_solver.
  - intros b' Hb'. rewrite Hk1. intros [Heq%elem_of_singleton|Hin]%elem_of_union.
    + apply Hb. rewrite <-Heq. by apply list_elem_of_fmap_2.
    + by apply (Hk b'); [right|].
Qed.
Section RoundTrip.
Context (validb : BridgeLine → Prop) `{!BridgeLineLaws validb}.

Lemma load_saved_line p b :
  validb b → load_line p (bridge_to_string b) = (push_unique p b).1.
Proof.
  intros Hv. unfold load_line. rewrite bridge_print_trim by done.
  pose proof (bridge_parse_print b Hv) as Hp.
  destruct (bridge_print_head b Hv) as (c & s & Hs & Hc). rewrite Hs in *. cbn [is_empty orb].
  assert (starts_with (lit "#") (c :: s) = false) as ->; [|by rewrite Hp].
  unfold starts_with. change (lit "#") with [35]. cbn [strip_prefix].
  by rewrite (proj2 (Z.eqb_neq 35 c)) by lia.
Qed.

Lemma saved_lines bs :
  Forall validb bs →
  lines (flat_map (fun b => bridge_to_string b ++ [10]) bs) = map bridge_to_string bs.
Proof.
  intros Hbs. induction Hbs as [|b bs Hb Hbs IH]; [done|].
  cbn [flat_map map]. rewrite <-app_assoc. cbn [app].
  rewrite lines_cons, IH; [done|by apply bridge_print_line|].
  apply strip_cr_id. intros Hl. by apply (trimmed_last _ 13 (bridge_print_trim b Hb)) in Hl.
Qed.

Lemma load_saved_pool p :
  pool_wf p → Forall validb (bridges p) → load (path p) (PoolText (save_text p)) = Ok p.
Proof.
  intros [Hnd Hk] Hv. unfold load, load_text, save_text. f_equal.
  change (HEADER ++ [10] ++ [10] ++ ?t) with (HEADER ++ 10 :: [] ++ 10 :: t).
  rewrite lines_cons, (lines_cons []), saved_lines
    by first [done | by repeat constructor | vm_compute; reflexivity].
  cbn [fold_left].
  assert (∀ q, load_line q HEADER = q) as Hh by done.
  assert (∀ q, load_line q [] = q) as He by done. rewrite Hh, He.
  transitivity (fold_left (fun p b => (push_unique p b).1) (bridges p) (mkPool (path p) [] ∅)).
  - generalize (mkPool (path p) [] ∅). clear Hnd Hk.
    induction Hv as [|b bs Hvb Hv IH]; intros q; [done|]. cbn [map fold_left].
    rewrite load_saved_line by done. apply IH.
  - rewrite push_all; [|done|set_solver]. simpl. destruct p. simpl in *. f_equal.
    rewrite Hk. apply leibniz_equiv. set_solver.
Qed.
End RoundTrip.

(** ** Properties *)

(** every sequence of pool operations on a loaded pool file keeps the pool
    deduplicated: no two queued bridges share an identity and the key set is
    exactly the set of their identities. *)
Theorem pool_stays_deduplicated (path text : str) (ops : list pool_op) :
  pool_wf (fold_left apply_op ops (load_text path text)).
Proof.
  generalize (load_text_wf path text). generalize (load_text path text).
  induction ops as [|op ops IH]; intros p Hp; simpl; [done|]. by apply IH, apply_op_wf.
Qed.

(** a merge appends newcomers in fetch order and nothing else: each is
    outside the excluded working set and was not pooled, the returned count is
    their number, and every fetched bridge ends up excluded or pooled. *)
Theorem merge_adds_newcomers (p : CandidatePool) (fetched : list BridgeLine)
  (exclude : gset BridgeIdentity) :
  let '(p', added) := merge p fetched exclude in
  ∃ new, bridges p' = bridges p ++ new ∧ length new = added ∧ sublist new fetched ∧
    Forall (fun b => (key_of b ∉ exclude) ∧ (key_of b ∉ keys p)) new ∧
    Forall (fun b => key_of b ∈ exclude ∨ key_of b ∈ keys p') fetched.
Proof.
  pose proof (merge_appends p fetched exclude) as Hm.
  destruct (merge p fetched exclude) as [p' added].
  destruct Hm as (new & Hb & Hl & Hsub & Hnew & _ & Hall). eauto 6.
Qed.

(** taking [n] candidates of one transport takes the first [n] of that
    transport in queue order and loses nothing: the rest of that transport and
    every bridge of another transport stay queued in their order. *)
Theorem take_transport_spec (p : CandidatePool) (n : nat) (t : str) :
  let '(p', taken) := take_transport p n (Some t) in
  taken = take n (List.filter (has_transport t) (bridges p)) ∧
  List.filter (has_transport t) (bridges p') = drop n (List.filter (has_transport t) (bridges p)) ∧
  List.filter (fun b => negb (has_transport t b)) (bridges p') =
    List.filter (fun b => negb (has_transport t b)) (bridges p) ∧
  taken ++ bridges p' ≡ₚ bridges p.
Proof.
  pose proof (take_transport_perm p n (Some t)) as Hperm. unfold take_transport in *.
  destruct ((n =? 0)%nat || is_empty (bridges p)) eqn:Hz.
  - apply orb_true_iff in Hz as [->%Nat.eqb_eq|He]; [done|].
    destruct (bridges p) eqn:Hb; [|done]. simpl. by rewrite take_nil, drop_nil.
  - pose proof (scan_transport_taken t n (bridges p)) as Ht.
    pose proof (scan_transport_kept t n (bridges p)) as Hk.
    destruct (scan_transport t n (bridges p)) as [taken kept]. simpl in *. naive_solver.
Qed.

(** confirming a drain removes exactly the listed identities from the
    queue, keeps every other candidate in order and counts the removals. *)
Theorem remove_all_spec (p : CandidatePool) (bs : list BridgeLine) :
  pool_wf p →
  bridges (remove_all p bs).1 =
    List.filter (fun b => negb (bool_decide (key_of b ∈ map key_of bs))) (bridges p) ∧
  (remove_all p bs).2 = (len p - len (remove_all p bs).1)%nat ∧
  pool_wf (remove_all p bs).1.
Proof.
  intros Hwf. pose proof (remove_all_wf p bs Hwf) as Hwf'.
  destruct (remove_all_bridges p bs Hwf) as (Hb & Hk & _ & Hn). split; [done|]. split; [|done].
  assert (∀ q, pool_wf q → len q = size (keys q)) as Hsize.
  { intros q [Hnd ->]. by rewrite size_list_to_set, length_map. }
  rewrite (Hsize p), (Hsize (remove_all p bs).1), Hk, Hn by done.
  set (ks := list_to_set (map key_of bs) : gset BridgeIdentity).
  assert (size (keys p ∖ ks) = size (keys p) - size (keys p ∩ ks))%nat as ->
    by apply size_difference_alt.
  assert (size (keys p ∩ ks) ≤ size (keys p))%nat by (apply subseteq_size; set_solver). lia.
Qed.

(** rotating a deferred batch and prioritising fresh candidates only
    reorder the queue: rotation moves the requested candidates behind all
    others, priority moves the fresh ones of the transport before all others,
    both keeping relative order, and neither adds nor drops a candidate. *)
Theorem reordering_spec (p : CandidatePool) (bs : list BridgeLine) (t : option str) :
  let asked b := bool_decide (key_of b ∈ map key_of bs) in
  let fresh b := bool_decide (key_of b ∈ map key_of
    (List.filter (fun b => match t with None => true | Some n => has_transport n b end) bs)) in
  bridges (rotate_to_back p bs).1 =
    List.filter (fun b => negb (asked b)) (bridges p) ++ List.filter asked (bridges p) ∧
  (rotate_to_back p bs).2 = length (List.filter asked (bridges p)) ∧
  bridges (prioritize p bs t) =
    List.filter fresh (bridges p) ++ List.filter (fun b => negb (fresh b)) (bridges p) ∧
  keys (rotate_to_back p bs).1 = keys p ∧ keys (prioritize p bs t) = keys p.
Proof.
  intros asked fresh.
  assert (∀ b, bool_decide (key_of b ∈ (list_to_set (map key_of bs) : gset BridgeIdentity)) = asked b) as Ha.
  { intros b. apply bool_decide_ext. apply elem_of_list_to_set. }
  unfold rotate_to_back. cbn [fst snd bridges keys].
  rewrite (filter_ext _ _ Ha), (filter_ext _ (fun b => negb (asked b))) by (intros b; by rewrite Ha).
  repeat split. unfold prioritize. cbn [bridges]. apply (sort_by_bool fresh).
Qed.

(** a pool transaction is atomic: when it reports success the file loads
    as exactly the mutated pool, and when it fails the file is either untouched
    or loads as the mutated pool; for a mutation that keeps the pool
    deduplicated and at its path. *)
Theorem transaction_is_atomic {T} (validb : BridgeLine → Prop) (Hb : BridgeLineLaws validb)
  (pool_path : str) (locked : bool) (save : save_io) (file : pool_file) (p : CandidatePool)
  (f : CandidatePool → CandidatePool * T) :
  load pool_path file = Ok p →
  pool_wf (f p).1 → path (f p).1 = path p → Forall validb (bridges (f p).1) →
  let '(r, file') := transaction pool_path locked save file f in
  match r with
  | Ok out => out = (f p).2 ∧ load pool_path file' = Ok (f p).1
  | Err _ => file' = file ∨ load pool_path file' = Ok (f p).1
  end.
Proof.
  intros Hl Hwf Hp Hv. unfold transaction. rewrite Hl. destruct locked; simpl; [|by left].
  destruct (f p) as [p' out]. cbn [fst snd] in *.
  assert (load pool_path (PoolText (save_text p')) = Ok p') as Hsaved.
  { rewrite <-(load_path _ _ _ Hl), <-Hp. by apply (load_saved_pool validb). }
  destruct (save_file_cases save (PoolText (save_text p')) file) as [Hs|[Hs|[Hs _]]]; rewrite Hs; auto.
Qed.
End Pool.

(** ** Witnesses *)

Section Witnesses.
#[local] Existing Instance sample_url.
#[local] Existing Instance sample_tls.
#[local] Existing Instance sample_lines.

Definition sample_queue : list BridgeLine := [plain_bridge; obfs4_bridge; webtunnel_bridge].
Definition sample_pool : CandidatePool :=
  mkPool [] sample_queue (list_to_set (map key_of sample_queue)).

Lemma sample_pool_wf : pool_wf sample_pool.
Proof.
  split; [|reflexivity]. unfold sample_pool, sample_queue. cbn [bridges map].
  repeat (apply NoDup_cons; split); [..|apply NoDup_nil_2];
    rewrite ?not_elem_of_cons; split_and?; try apply not_elem_of_nil; done.
Qed.

Lemma remove_all_spec_witness :
  bridges (remove_all sample_pool [obfs4_bridge; obfs4_bridge]).1 = [plain_bridge; webtunnel_bridge] ∧
  (remove_all sample_pool [obfs4_bridge; obfs4_bridge]).2 =
    (len sample_pool - len (remove_all sample_pool [obfs4_bridge; obfs4_bridge]).1)%nat.
Proof.
  destruct (remove_all_spec sample_pool [obfs4_bridge; obfs4_bridge] sample_pool_wf)
    as (Hb & Hn & _).
  split; [rewrite Hb; reflexivity|exact Hn].
Defined.

Lemma transaction_is_atomic_witness :
  let '(r, file') :=
    transaction (path sample_pool) true (mkSave true true true true false)
      (PoolText (save_text sample_pool)) (fun p => (p, tt)) in
  match r with
  | Ok out => out = tt ∧ load (path sample_pool) file' = Ok sample_pool
  | Err _ => file' = PoolText (save_text sample_pool) ∨ load (path sample_pool) file' = Ok sample_pool
  end.
Proof.
  assert (Forall (fun b => b ∈ [plain_bridge; obfs4_bridge; webtunnel_bridge]) (bridges sample_pool)) as Hv.
  { apply Forall_forall. intros b Hb. exact Hb. }
  apply (transaction_is_atomic _ sample_lines_laws (path sample_pool) true
           (mkSave true true true true false) (PoolText (save_text sample_pool)) sample_pool
           (fun p => (p, tt))); [|exact sample_pool_wf|reflexivity|exact Hv].
  exact (load_saved_pool _ (BridgeLineLaws0 := sample_lines_laws) sample_pool sample_pool_wf Hv).
Defined.
End Witnesses.
End Pool.
