(* ===== verification/Warmer.v ===== *)
(** * Choosing bridges to warm

    [apps/socks5-proxy/src/bridges/bridge_warmer.rs]: the health snapshot of a
    configured bridge and the bounded-heap selection of the candidates whose
    channels are kept warm. *)

From S2P Require Import Prelude Order OrdMap Str Net Crates Samples Identity BridgeStore StoreStats.
Import Identity Store Stats.
Open Scope Z_scope.

Module Warmer.
Section Warmer.
Context `{UrlCrate, TlsCrate, TimeCrate}.

Record Health : Type := mkHealth {
  h_tcp_fails : Z;
  h_circuit_fails : Z;
  h_verified_count : Z;
  h_ok_count : Z;
  h_cobs : option OffsetDateTime;
}.

Definition health_default : Health := mkHealth 0 0 0 0 None.

Definition warming_rank (a b : Health) : comparison :=
  cmp (h_circuit_fails a) (h_circuit_fails b)
  ⊳ cmp (h_verified_count b) (h_verified_count a)
  ⊳ cmp (h_ok_count b) (h_ok_count a).

(** The rank of a candidate pair. *)
Definition candidate_rank : BridgeLine * Health → BridgeLine * Health → comparison :=
  cmp_on snd warming_rank.

(** [RankedCandidate]: the rank, then the position in the input. *)
Definition RankedCandidate : nat * (BridgeLine * Health) → nat * (BridgeLine * Health) → comparison :=
  positioned candidate_rank.

#[export] Instance warming_rank_ranking : Ranking warming_rank.
Proof.
  change (Ranking (cmp_lex (cmp_on h_circuit_fails cmp)
    (cmp_lex (cmp_rev (cmp_on h_verified_count cmp)) (cmp_rev (cmp_on h_ok_count cmp))))).
  apply _.
Qed.

#[export] Instance candidate_rank_ranking : Ranking candidate_rank.
Proof. unfold candidate_rank. apply _. Qed.

#[local] Instance ranked_candidate_ranking : Ranking RankedCandidate.
Proof. apply positioned_ranking, _. Qed.

(** This module's own [take_best], with the short cut for small inputs. *)
Definition take_best_vec {A} (c : A → A → comparison) {H} `{!MaxHeap c H} (items : list A)
  (limit : nat) : list A :=
  if (limit =? 0)%nat then []
  else if (length items <=? limit)%nat then sort_by c items
  else sort_by c (heap_into_vec (c := c) (keep_best c limit items)).

Definition tcp_healthy (bh : BridgeLine * Health) : bool := h_tcp_fails bh.2 =? 0.

Definition select_top_n (candidates : list (BridgeLine * Health)) (n : nat) : list BridgeLine :=
  map (fun c => c.2.1)
    (take_best_vec RankedCandidate
       (List.filter (fun c => tcp_healthy c.2) (enumerate candidates)) n).

Definition health_of (snapshot : option HealthSnapshot) : Health :=
  match snapshot with
  | Some hs => mkHealth (hs_tcp_fails hs) (hs_circuit_fails hs) (hs_verified_count hs)
                 (hs_ok_count hs) (hs_last_circuit_observation hs)
  | None => health_default
  end.

(** [candidates_with_health]: the configured bridges (or a parse failure) and
    the store (or a load failure). *)
Definition candidates_with_health (parsed : option (list BridgeLine)) (store : option BridgeStore)
  : list (BridgeLine * Health) :=
  match parsed with
  | None => []
  | Some bs =>
      map (fun b => (b, match store with
                        | Some s => health_of (health_snapshot s b)
                        | None => health_default
                        end)) bs
  end.

(** ** Selection *)

Lemma filter_enumerate_untied (f : nat * (BridgeLine * Health) → bool) l :
  untied RankedCandidate (List.filter f (enumerate l)).
Proof.
  apply (untied_alt RankedCandidate). split.
  - apply NoDup_ListNoDup, List.NoDup_filter, NoDup_ListNoDup.
    apply (untied_NoDup RankedCandidate), enumerate_untied.
  - intros x y [Hx _]%list_elem_of_In%filter_In [Hy _]%list_elem_of_In%filter_In.
    apply (untied_elem RankedCandidate (enumerate l)); [apply enumerate_untied|..];
      by apply list_elem_of_In.
Qed.

(** Inserting in position order after a filter is the stable sort. *)
Lemma sort_filter_enumerate n (f : BridgeLine * Health → bool) l :
  map snd (sort_by RankedCandidate (List.filter (fun c => f c.2) (enumerate_from n l))) =
    sort_by candidate_rank (List.filter f l).
Proof.
  revert n. induction l as [|x l IH]; intros n; [done|]. cbn [enumerate_from List.filter snd].
  destruct (f x); [|apply IH]. cbn [sort_by]. unfold RankedCandidate at 1.
  rewrite sort_insert_positioned; [by f_equal; apply IH|].
  rewrite sort_by_perm. apply Forall_forall.
  intros [q y] [Hq%list_elem_of_In%enumerate_from_ge _]%list_elem_of_In%filter_In. simpl. lia.
Qed.

Lemma take_best_vec_sorted {A} (c : A → A → comparison) `{!Ranking c} {Hp} `{!MaxHeap c Hp} items limit :
  untied c items → take_best_vec c items limit = take limit (sort_by c items).
Proof.
  intros Hu. unfold take_best_vec. destruct (Nat.eqb_spec limit 0) as [->|Hl]; [done|].
  destruct (Nat.leb_spec (length items) limit).
  - rewrite take_ge; [done|]. by rewrite sort_by_perm.
  - apply (keep_best_sorted c); [lia|done].
Qed.

(** warming selects the first [n] of the TCP-healthy candidates in the
    stable order of the warming rank (fewest circuit failures, then most
    verifications, then most successful probes, then input order), and a bridge
    whose last probe failed is never selected. *)
Theorem select_top_n_spec (candidates : list (BridgeLine * Health)) (n : nat) :
  select_top_n candidates n =
    map fst (take n (sort_by candidate_rank (List.filter tcp_healthy candidates))) ∧
  ∀ b, b ∈ select_top_n candidates n → ∃ h, (b, h) ∈ candidates ∧ h_tcp_fails h = 0.
Proof.
  assert (select_top_n candidates n =
    map fst (take n (sort_by candidate_rank (List.filter tcp_healthy candidates)))) as Heq.
  { unfold select_top_n. rewrite (take_best_vec_sorted RankedCandidate) by apply filter_enumerate_untied.
    rewrite <-(sort_filter_enumerate 0), <-fmap_take. unfold fmap. by rewrite map_map. }
  split; [done|]. intros b. rewrite Heq.
  intros ([b' h] & -> & Hin%elem_of_take_inv)%list_elem_of_fmap. rewrite sort_by_perm in Hin.
  apply list_elem_of_In, filter_In in Hin as [Hin Hh%Z.eqb_eq]. exists h.
  split; [by apply list_elem_of_In|done].
Qed.
End Warmer.
End Warmer.
