(* ===== verification/DnsHints.v ===== *)
(** * Portable DNS hints and the fallback store

    [packages/bridge-probe/src/dns_hint.rs] and the persisted half of
    [dns.rs]: the hint directive line, the persisted line, and the
    last-write-wins store both feed.  The wall clock is an argument. *)

From S2P Require Import Prelude Order OrdMap Str Net NetText Crates Samples Identity.
Import Identity.
Open Scope Z_scope.

Module DnsHints.

Record DnsHint : Type := mkDnsHint {
  host : str;
  addrs : list ip_addr;
  resolved_at_unix : Z;
}.

Record PersistedAnswer : Type := mkPersisted {
  p_addrs : list ip_addr;
  p_resolved_at_unix : Z;
}.

Definition DNS_HINT_PREFIX : str := lit "# xorbot:dns ".
Definition DNS_TIMESTAMP_FUTURE_TOLERANCE : Z := 300.

Definition stamp_beyond_future_tolerance (now stamp : Z) : bool :=
  DNS_TIMESTAMP_FUTURE_TOLERANCE <? saturating_sub stamp now.

Definition format_dns_hint_line (h : DnsHint) : str :=
  DNS_HINT_PREFIX ++ host h ++ [32] ++ join (lit ",") (map ip_to_string (addrs h)) ++ [32]
  ++ to_dec (resolved_at_unix h).

(** The addresses of a comma-separated list; malformed ones are skipped. *)
Definition parse_addrs (s : str) : list ip_addr :=
  omap ip_from_str (List.filter (fun t => negb (is_empty t)) (split_on 44 s)).

Definition parse_dns_hint_line (now : Z) (line : str) : option DnsHint :=
  match strip_prefix DNS_HINT_PREFIX line with
  | None => None
  | Some rest =>
      match split_whitespace rest with
      | h :: a :: t :: _ =>
          match parse_uint u64_max t with
          | None => None
          | Some stamp =>
              if is_empty (parse_addrs a) || stamp_beyond_future_tolerance now stamp then None
              else Some (mkDnsHint h (parse_addrs a) stamp)
          end
      | _ => None
      end
  end.

Definition format_persisted_line (h : str) (e : PersistedAnswer) : str :=
  h ++ [9] ++ join (lit ",") (map ip_to_string (p_addrs e)) ++ [9] ++ to_dec (p_resolved_at_unix e).

(** [splitn(3, TAB)]: the third part is the rest of the line. *)
Definition parse_persisted_line (now : Z) (line : str) : option (str * PersistedAnswer) :=
  match split_once 9 line with
  | None => None
  | Some (h, rest) =>
      match split_once 9 rest with
      | None => None
      | Some (a, t) =>
          match parse_uint u64_max (trim t) with
          | None => None
          | Some stamp =>
              if is_empty (parse_addrs a) || stamp_beyond_future_tolerance now stamp then None
              else Some (h, mkPersisted (parse_addrs a) stamp)
          end
      end
  end.

(** The fallback store maps a host name to its last known answer. *)
Abbreviation fallback := (gmap str PersistedAnswer).

Definition merge_disk_fallback_entry (store : fallback) (h : str) (e : PersistedAnswer) : fallback :=
  match store !! h with
  | Some existing =>
      if p_resolved_at_unix e <=? p_resolved_at_unix existing then store else <[h := e]> store
  | None => <[h := e]> store
  end.

Definition seed_disk_fallback (store : fallback) (hints : list DnsHint) : fallback :=
  fold_left (fun st h =>
    merge_disk_fallback_entry st (host h) (mkPersisted (addrs h) (resolved_at_unix h))) hints store.

Definition load_persisted (now : Z) (store : fallback) (data : str) : fallback :=
  fold_left (fun st line =>
    match parse_persisted_line now line with
    | Some (h, e) => merge_disk_fallback_entry st h e
    | None => st
    end) (lines data) store.

Definition DNS_STALE_FALLBACK_WINDOW : Z := 24 * 60 * 60.

(** The second tier of [best_known_answer]: the stored answer if it is inside
    the fallback window. *)
Definition fallback_answer (store : fallback) (now : Z) (h : str) : option DnsHint :=
  match store !! h with
  | None => None
  | Some e =>
      if DNS_STALE_FALLBACK_WINDOW <? saturating_sub now (p_resolved_at_unix e) then None
      else Some (mkDnsHint h (p_addrs e) (p_resolved_at_unix e))
  end.

Section Hosts.
Context `{UrlCrate, TlsCrate}.

Definition dns_hostname_of (b : BridgeLine) : option str :=
  match resolve_probe_target b with
  | Err _ => None
  | Ok (h, _) =>
      match ip_from_str h with
      | Some _ => None
      | None => Some h
      end
  end.
End Hosts.

(** ** The recency merge *)

Definition entries_of (l : list (str * PersistedAnswer)) (store : fallback) : fallback :=
  fold_left (fun st he => merge_disk_fallback_entry st he.1 he.2) l store.

Lemma merge_get store h e k :
  merge_disk_fallback_entry store h e !! k =
    if decide (k = h) then
      match store !! h with
      | Some x => if p_resolved_at_unix e <=? p_resolved_at_unix x then Some x else Some e
      | None => Some e
      end
    else store !! k.
Proof.
  unfold merge_disk_fallback_entry. destruct (store !! h) as [x|] eqn:Hx; [destruct (_ <=? _)|];
    rewrite ?lookup_insert; repeat case_decide; congruence.
Qed.

Lemma entries_newest (l : list (str * PersistedAnswer)) (store : fallback) (k : str) :
  (∀ e, (store !! k = Some e ∨ (k, e) ∈ l) →
    ∃ x, entries_of l store !! k = Some x ∧ p_resolved_at_unix e ≤ p_resolved_at_unix x) ∧
  (∀ x, entries_of l store !! k = Some x → store !! k = Some x ∨ (k, x) ∈ l).
Proof.
  unfold entries_of. revert store. induction l as [|[h e'] l IH]; intros store.
  { simpl. split; [|by left]. intros e [He|He%not_elem_of_nil]; [|done]. exists e. split; [done|lia]. }
  simpl. specialize (IH (merge_disk_fallback_entry store h e')). rewrite merge_get in IH.
  destruct IH as [Hge Hin]. split.
  - intros e [He|[[= -> ->]|He]%elem_of_cons]; [..|apply Hge; by right].
    + destruct (decide (k = h)) as [->|]; [|apply Hge; by left]. rewrite He in Hge.
      destruct (Z.leb_spec (p_resolved_at_unix e') (p_resolved_at_unix e)); [apply Hge; by left|].
      destruct (Hge e') as (x & Hx & Hle); [by left|]. exists x. split; [done|lia].
    + rewrite decide_True in Hge by done. destruct (store !! h) as [x|]; [|apply Hge; by left].
      destruct (Z.leb_spec (p_resolved_at_unix e') (p_resolved_at_unix x)); [|apply Hge; by left].
      destruct (Hge x) as (y & Hy & Hle); [by left|]. exists y. split; [done|lia].
  - intros x Hx. destruct (Hin x Hx) as [Hs|Hl]; [|right; by right].
    destruct (decide (k = h)) as [->|]; [|by left].
    destruct (store !! h) as [y|]; [destruct (_ <=? _)|]; simplify_eq; auto; right; left.
Qed.

(** Both writers are sequences of merges. *)
Definition hint_entry (h : DnsHint) : str * PersistedAnswer :=
  (host h, mkPersisted (addrs h) (resolved_at_unix h)).

Definition persisted_entries (now : Z) (data : str) : list (str * PersistedAnswer) :=
  omap (parse_persisted_line now) (lines data).

Lemma seed_entries store hints : seed_disk_fallback store hints = entries_of (map hint_entry hints) store.
Proof.
  unfold seed_disk_fallback, entries_of. revert store.
  induction hints as [|h hints IH]; intros store; simpl; [done|]. apply IH.
Qed.

Lemma load_body_entries now store data :
  load_persisted now store data = entries_of (persisted_entries now data) store.
Proof.
  unfold load_persisted, entries_of, persisted_entries. revert store.
  induction (lines data) as [|line ls IH]; intros store; simpl; [done|].
  rewrite IH. by destruct (parse_persisted_line now line) as [[h e]|].
Qed.

Lemma entries_app l1 l2 store : entries_of (l1 ++ l2) store = entries_of l2 (entries_of l1 store).
Proof. apply fold_left_app. Qed.

Lemma entries_permute (l1 l2 : list (str * PersistedAnswer)) :
  l1 ≡ₚ l2 →
  (∀ h e e', (h, e) ∈ l1 → (h, e') ∈ l1 → p_resolved_at_unix e = p_resolved_at_unix e' → e = e') →
  entries_of l1 ∅ = entries_of l2 ∅.
Proof.
  intros Hp Hd. apply map_eq. intros k.
  destruct (entries_newest l1 ∅ k) as [Hge1 Hin1].
  destruct (entries_newest l2 ∅ k) as [Hge2 Hin2].
  destruct (entries_of l1 ∅ !! k) as [x|] eqn:H1.
  - destruct (Hin1 x eq_refl) as [?%lookup_empty_Some|Hx]; [done|].
    destruct (Hge2 x) as (y & Hy & Hle); [right; by rewrite <-Hp|]. rewrite Hy.
    destruct (Hin2 y Hy) as [?%lookup_empty_Some|Hyin]; [done|]. rewrite <-Hp in Hyin.
    destruct (Hge1 y) as (x' & [= <-] & Hle'); [by right|].
    f_equal. apply (Hd k); [done|done|lia].
  - destruct (entries_of l2 ∅ !! k) as [y|] eqn:H2; [|done].
    destruct (Hin2 y eq_refl) as [?%lookup_empty_Some|Hy]; [done|]. rewrite <-Hp in Hy.
    destruct (Hge1 y) as (x & ? & _); [by right|]. done.
Qed.

(** ** The texts *)

Lemma parse_addrs_print l :
  l ≠ [] → Forall ip_ok l → parse_addrs (join (lit ",") (map ip_to_string l)) = l.
Proof.
  intros Hne Hl. unfold parse_addrs. change (lit ",") with [44].
  rewrite split_on_join; [|by destruct l|].
  - induction Hl as [|a l Ha Hl IH]; [done|]. simpl. destruct (ip_text_word a Ha) as [Hw _].
    destruct (ip_to_string a) as [|c w] eqn:Ht; [done|]. simpl. rewrite <-Ht.
    rewrite ip_text_round_trip by done. f_equal. destruct l as [|a' l]; [done|]. by apply IH.
  - apply Forall_fmap, Forall_forall. intros a _. apply Forall_forall. intros c Hc.
    apply ip_address_char, address_char_range in Hc. apply Z.eqb_neq. lia.
Qed.

Lemma addrs_text_word l :
  l ≠ [] → Forall ip_ok l → word (join (lit ",") (map ip_to_string l)).
Proof.
  intros Hne Hl. split.
  - intros He. pose proof (parse_addrs_print l Hne Hl) as Hp. rewrite He in Hp. by subst.
  - apply Forall_forall. intros c [->|(w & Hw & Hc)]%elem_of_join; [done|].
    apply list_elem_of_fmap in Hw as (a & -> & _).
    apply ip_address_char, address_char_range in Hc. tauto.
Qed.

Lemma word_no_tab w : word w → 9 ∉ w.
Proof. intros [_ Hw] Hin. rewrite Forall_forall in Hw. by specialize (Hw 9 Hin). Qed.

Lemma split_once_tab a b : word a → split_once 9 (a ++ 9 :: b) = Some (a, b).
Proof.
  intros Ha%word_no_tab. induction a as [|x a IH]; simpl; [done|].
  apply not_elem_of_cons in Ha as [Hx Ha]. rewrite IH by done.
  destruct (Z.eqb_spec x 9); [congruence|done].
Qed.

(** ** Properties *)

(** after the persisted file is loaded and hints are imported, the store
    holds for each host an answer one of them offered, at least as recent as
    every answer offered for the host, so neither replaces a newer one. *)
Theorem fallback_keeps_newest (now : Z) (data : str) (hints : list DnsHint) (k : str) :
  let offered := persisted_entries now data ++ map hint_entry hints in
  let store := seed_disk_fallback (load_persisted now ∅ data) hints in
  (∀ e, (k, e) ∈ offered → ∃ x, store !! k = Some x ∧ p_resolved_at_unix e ≤ p_resolved_at_unix x) ∧
  (∀ x, store !! k = Some x → (k, x) ∈ offered).
Proof.
  intros offered store. unfold store. rewrite seed_entries, load_body_entries, <-entries_app.
  fold offered. destruct (entries_newest offered ∅ k) as [Hge Hin]. split.
  - intros e He. apply Hge. by right.
  - intros x Hx. by destruct (Hin x Hx) as [?%lookup_empty_Some|].
Qed.

(** when no two answers for a host carry the same time stamp, loading the
    file before or after importing the hints leaves the same store. *)
Theorem fallback_order_irrelevant (now : Z) (data : str) (hints : list DnsHint) :
  let offered := persisted_entries now data ++ map hint_entry hints in
  (∀ h e e', (h, e) ∈ offered → (h, e') ∈ offered →
     p_resolved_at_unix e = p_resolved_at_unix e' → e = e') →
  seed_disk_fallback (load_persisted now ∅ data) hints =
  load_persisted now (seed_disk_fallback ∅ hints) data.
Proof.
  intros offered Hd. rewrite !seed_entries, !load_body_entries, <-!entries_app.
  apply entries_permute; [apply Permutation_app_comm|exact Hd].
Qed.

(** on equal time stamps the first answer stays: a second answer for the
    host with the same stamp is ignored, so there the order decides. *)
Theorem fallback_tie_keeps_first (store : fallback) (h : str) (e e' : PersistedAnswer) :
  store !! h = None → p_resolved_at_unix e = p_resolved_at_unix e' →
  merge_disk_fallback_entry (merge_disk_fallback_entry store h e) h e' !! h = Some e.
Proof.
  intros Hh Ht. rewrite !merge_get, !decide_True, Hh by done. by rewrite Ht, Z.leb_refl.
Qed.

(** the hint line and the persisted line of an answer whose host is a
    blank-free name, whose addresses are valid and whose stamp is not in the
    future beyond the tolerance parse back to the answer. *)
Theorem dns_lines_round_trip (now : Z) (h : str) (l : list ip_addr) (stamp : Z) :
  word h → l ≠ [] → Forall ip_ok l → in_u u64_max stamp →
  stamp_beyond_future_tolerance now stamp = false →
  parse_dns_hint_line now (format_dns_hint_line (mkDnsHint h l stamp)) = Some (mkDnsHint h l stamp) ∧
  parse_persisted_line now (format_persisted_line h (mkPersisted l stamp)) =
    Some (h, mkPersisted l stamp).
Proof.
  intros Hh Hne Hl Hs Ht. pose proof (addrs_text_word l Hne Hl) as Hw.
  pose proof (to_dec_word stamp ltac:(unfold in_u in Hs; lia)) as Hd.
  assert (is_empty l = false) as Hemp by by destruct l.
  unfold parse_dns_hint_line, format_dns_hint_line, parse_persisted_line, format_persisted_line.
  cbn [host addrs resolved_at_unix p_addrs p_resolved_at_unix]. split.
  - rewrite strip_prefix_app. cbn [app].
    rewrite !split_whitespace_cons, split_whitespace_word by done.
    by rewrite parse_to_dec, parse_addrs_print, Hemp, Ht by done.
  - cbn [app]. rewrite !split_once_tab, trim_word by done.
    by rewrite parse_to_dec, parse_addrs_print, Hemp, Ht by done.
Qed.

(** ** Witnesses *)

Definition answer_a : PersistedAnswer := mkPersisted [V4 0x01020304] 10.
Definition answer_c : PersistedAnswer := mkPersisted [V4 3] 10.
Definition hint_b : DnsHint := mkDnsHint (lit "h") [V4 2] 20.

Definition sample_file : str := format_persisted_line (lit "h") answer_a ++ [10].

Lemma fallback_order_irrelevant_witness :
  seed_disk_fallback (load_persisted 30 ∅ sample_file) [hint_b] =
  load_persisted 30 (seed_disk_fallback ∅ [hint_b]) sample_file.
Proof.
  apply fallback_order_irrelevant.
  assert (persisted_entries 30 sample_file = [(lit "h", answer_a)]) as -> by (vm_compute; reflexivity).
  intros h e e' He He' Ht. cbn [app map hint_entry] in He, He'.
  repeat (apply elem_of_cons in He as [[= -> ->]|He]); try (by apply not_elem_of_nil in He);
    repeat (apply elem_of_cons in He' as [[= ->]|He']); try (by apply not_elem_of_nil in He');
    done.
Defined.

Lemma fallback_tie_keeps_first_witness :
  merge_disk_fallback_entry (merge_disk_fallback_entry ∅ (lit "h") answer_a) (lit "h") answer_c
    !! lit "h" = Some answer_a.
Proof. apply (fallback_tie_keeps_first ∅ (lit "h")); first [apply lookup_empty | reflexivity]. Defined.

Lemma dns_lines_round_trip_witness :
  parse_dns_hint_line 30 (lit "# xorbot:dns h 0.0.0.2,::1 20") = Some (mkDnsHint (lit "h") [V4 2; V6 1] 20).
Proof.
  refine (proj1 (dns_lines_round_trip 30 (lit "h") [V4 2; V6 1] 20 _ _ _ _ _)).
  - by split; [|repeat constructor].
  - done.
  - repeat constructor; unfold ip_ok, in_u, u32_max, u128_max; lia.
  - unfold in_u, u64_max. lia.
  - reflexivity.
Defined.
End DnsHints.
