(* ===== verification/BridgesConfig.v ===== *)
(** * The bridge section of the configuration

    [packages/proxy-config/src/lib.rs]: the transport preference, the obfs4
    override and the parsing of the configured bridge lines with their DNS
    hints. *)

From S2P Require Import Prelude Order OrdMap Str Net Crates Samples Identity DnsHints.
Import Identity DnsHints.
Open Scope Z_scope.

Module BridgesConfig.

(** [BridgesConfig::iat_mode_override]. *)
Definition iat_mode_override (iat_mode : Z) : option Z :=
  if (iat_mode =? 1) || (iat_mode =? 2) then Some iat_mode else None.

(** [BridgesConfig::preferred_transport]. *)
Definition preferred_transport (transport : str) : option str :=
  let t := to_ascii_lowercase (trim transport) in
  if str_eqb t (lit "obfs4") then Some (lit "obfs4")
  else if str_eqb t (lit "webtunnel") then Some (lit "webtunnel")
  else None.

Section Parsed.
Context `{UrlCrate, TlsCrate, BridgeLineCrate}.

Record ParsedBridges : Type := mkParsed {
  bridges : list BridgeLine;
  duplicates : nat;
  rejected : nat;
  dns_hints : list DnsHint;
}.

(** The state of the loop over the lines. *)
Record parse_state : Type := mkParseState {
  ps_bridges : list BridgeLine;
  ps_hints : list str;
  ps_seen : gset BridgeIdentity;
  ps_duplicates : nat;
  ps_rejected : nat;
}.

(** One line: a hint directive, an error that abandons the whole parse (with
    the index of the line), a rejected address, a duplicate or a new bridge. *)
Definition parse_line (st : parse_state) (idx : nat) (line : str) : result parse_state nat :=
  let 'mkParseState bs hs seen d r := st in
  if starts_with DNS_HINT_PREFIX line then Ok (mkParseState bs (hs ++ [line]) seen d r)
  else match bridge_parse line with
  | None => Err idx
  | Some b =>
      if negb (usable_for_tor b) then Ok (mkParseState bs hs seen d (S r))
      else if bool_decide (bridge_identity b ∈ seen) then Ok (mkParseState bs hs seen (S d) r)
      else Ok (mkParseState (bs ++ [b]) hs ({[ bridge_identity b ]} ∪ seen) d r)
  end.

Fixpoint parse_lines (st : parse_state) (idx : nat) (ls : list str) : result parse_state nat :=
  match ls with
  | [] => Ok st
  | l :: ls' => rbind (parse_line st idx l) (fun st' => parse_lines st' (S idx) ls')
  end.

(** [BridgesConfig::parsed] at the wall-clock second [now]: a hint survives
    only for a host name one of the parsed bridges needs resolved. *)
Definition parsed (now : Z) (ls : list str) : result ParsedBridges nat :=
  rbind (parse_lines (mkParseState [] [] ∅ 0 0) 0 ls) (fun st =>
    let known_hosts := omap dns_hostname_of (ps_bridges st) in
    let hints := List.filter (fun h => bool_decide (host h ∈ known_hosts))
                   (omap (parse_dns_hint_line now) (ps_hints st)) in
    Ok (mkParsed (ps_bridges st) (ps_duplicates st) (ps_rejected st) hints)).

(** ** What the loop keeps true *)

Record state_ok (ls : list str) (st : parse_state) : Prop := mkStateOk {
  so_nodup : NoDup (map bridge_identity (ps_bridges st));
  so_seen : ps_seen st = list_to_set (map bridge_identity (ps_bridges st));
  so_usable : Forall (fun b => usable_for_tor b = true) (ps_bridges st);
  so_source : Forall (fun b => ∃ l, l ∈ ls ∧ bridge_parse l = Some b) (ps_bridges st);
  so_hints : Forall (fun h => h ∈ ls ∧ starts_with DNS_HINT_PREFIX h = true) (ps_hints st);
  so_count : (length ls = length (ps_bridges st) + length (ps_hints st)
              + ps_duplicates st + ps_rejected st)%nat;
}.

Lemma Forall_source_mono ls l (P : BridgeLine → str → Prop) bs :
  Forall (fun b => ∃ x, x ∈ ls ∧ P b x) bs → Forall (fun b => ∃ x, x ∈ ls ++ [l] ∧ P b x) bs.
Proof.
  intros Hbs. eapply Forall_impl; [exact Hbs|]. intros b (x & Hx & Hp). exists x.
  split; [apply elem_of_app; by left|done].
Qed.

Lemma parse_line_ok ls st idx l st' :
  state_ok ls st → parse_line st idx l = Ok st' → state_ok (ls ++ [l]) st'.
Proof.
  intros [Hnd Hseen Hus Hsrc Hh Hc] Hl. destruct st as [bs hs seen d r]. simpl in *.
  assert (Forall (fun h => h ∈ ls ++ [l] ∧ starts_with DNS_HINT_PREFIX h = true) hs) as Hh'.
  { eapply Forall_impl; [exact Hh|]. intros h [Hin ?]. split; [apply elem_of_app; by left|done]. }
  pose proof (Forall_source_mono ls l _ bs Hsrc) as Hsrc'.
  destruct (starts_with DNS_HINT_PREFIX l) eqn:Hp.
  { injection Hl as <-. split; simpl; try done.
    - apply Forall_app. split; [done|]. repeat constructor; [|done]. apply elem_of_app. right. left.
    - rewrite !length_app. simpl. lia. }
  destruct (bridge_parse l) as [b|] eqn:Hb; [|done].
  destruct (usable_for_tor b) eqn:Hu; simpl in Hl.
  2: { injection Hl as <-. split; simpl; try done. rewrite length_app. simpl. lia. }
  case_bool_decide as Hin; injection Hl as <-; split; simpl; try done.
  - rewrite length_app. simpl. lia.
  - rewrite map_app. apply NoDup_app. split; [done|]. split; [|apply NoDup_singleton].
    intros k Hk ->%list_elem_of_singleton. apply Hin. rewrite Hseen. by apply elem_of_list_to_set.
  - rewrite Hseen, map_app, list_to_set_app_L. set_solver.
  - apply Forall_app. split; [done|]. by repeat constructor.
  - apply Forall_app. split; [done|]. repeat constructor. exists l. split; [|done].
    apply elem_of_app. right. left.
  - rewrite !length_app. simpl. lia.
Qed.

Lemma parse_lines_ok done_ls st idx ls st' :
  state_ok done_ls st → parse_lines st idx ls = Ok st' → state_ok (done_ls ++ ls) st'.
Proof.
  revert done_ls st idx. induction ls as [|l ls IH]; intros done_ls st idx Hst Hp; simpl in Hp.
  { injection Hp as <-. by rewrite app_nil_r. }
  destruct (parse_line st idx l) as [st1|] eqn:Hl; [|done]. simpl in Hp.
  rewrite cons_middle, app_assoc. eapply IH; [|exact Hp]. by eapply parse_line_ok.
Qed.

Lemma parse_lines_err st idx ls i :
  parse_lines st idx ls = Err i →
  ∃ l, ls !! (i - idx)%nat = Some l ∧ (idx ≤ i)%nat ∧ bridge_parse l = None ∧
       starts_with DNS_HINT_PREFIX l = false.
Proof.
  revert st idx. induction ls as [|l ls IH]; intros st idx; simpl; [done|].
  destruct (parse_line st idx l) as [st1|e] eqn:Hl; simpl.
  - intros (l' & Hl' & Hi & Hp)%IH. exists l'.
    replace (i - idx)%nat with (S (i - S idx)) by lia. split; [done|]. split; [lia|done].
  - intros [= ->]. exists l. unfold parse_line in Hl. destruct st as [bs hs seen d r].
    destruct (starts_with DNS_HINT_PREFIX l); [done|].
    destruct (bridge_parse l) as [b|]; [|by injection Hl as <-; rewrite Nat.sub_diag].
    destruct (negb (usable_for_tor b)); [done|]. by case_bool_decide.
Qed.

Lemma state_ok_init ls : ls = [] → state_ok ls (mkParseState [] [] ∅ 0 0).
Proof. intros ->. split; simpl; try constructor. Qed.

Lemma parse_lines_hints st idx ls st' :
  parse_lines st idx ls = Ok st' →
  (length (ps_hints st') =
    length (ps_hints st) + length (List.filter (starts_with DNS_HINT_PREFIX) ls))%nat.
Proof.
  revert st idx. induction ls as [|l ls IH]; intros st idx; simpl; [intros [= <-]; lia|].
  destruct (parse_line st idx l) as [st1|e] eqn:Hl; simpl; [|done]. intros Hp%IH. rewrite Hp.
  unfold parse_line in Hl. destruct st as [bs hs seen d r]. simpl in *.
  destruct (starts_with DNS_HINT_PREFIX l); [injection Hl as <-; simpl; rewrite length_app; simpl; lia|].
  destruct (bridge_parse l) as [b|]; [|done]. destruct (negb (usable_for_tor b)); [by injection Hl as <-|].
  case_bool_decide; by injection Hl as <-.
Qed.

Lemma hint_line_sound now l h :
  parse_dns_hint_line now l = Some h →
  addrs h ≠ [] ∧ resolved_at_unix h - now ≤ DNS_TIMESTAMP_FUTURE_TOLERANCE.
Proof.
  unfold parse_dns_hint_line. destruct (strip_prefix DNS_HINT_PREFIX l) as [rest|]; [|done].
  destruct (split_whitespace rest) as [|x [|a [|t ts]]]; try done.
  destruct (parse_uint u64_max t) as [stamp|]; [|done].
  destruct (is_empty (parse_addrs a) || stamp_beyond_future_tolerance now stamp) eqn:Hb; [done|].
  intros [= <-]. simpl. boolprop. split; [by destruct (parse_addrs a)|].
  unfold stamp_beyond_future_tolerance, saturating_sub in *. boolprop. lia.
Qed.

(** parsing the configured lines classifies every line: the bridges are
    usable, pairwise of different identity and each parsed from a configured
    line, and the counts of bridges, hint directives, duplicates and rejected
    addresses add up to the number of lines; a failure names a line that is
    neither a hint nor a bridge. *)
Theorem parsed_classifies (now : Z) (ls : list str) :
  match parsed now ls with
  | Ok p =>
      NoDup (map bridge_identity (bridges p)) ∧
      Forall (fun b => usable_for_tor b = true ∧ ∃ l, l ∈ ls ∧ bridge_parse l = Some b) (bridges p) ∧
      length ls = (length (bridges p)
                   + length (List.filter (starts_with DNS_HINT_PREFIX) ls)
                   + duplicates p + rejected p)%nat
  | Err i => ∃ l, ls !! i = Some l ∧ bridge_parse l = None ∧ starts_with DNS_HINT_PREFIX l = false
  end.
Proof.
  unfold parsed. destruct (parse_lines _ 0 ls) as [st|i] eqn:Hp; simpl.
  - pose proof (parse_lines_hints _ _ _ _ Hp) as Hhints. simpl in Hhints.
    destruct (parse_lines_ok [] _ _ _ _ (state_ok_init [] eq_refl) Hp) as [Hnd _ Hus Hsrc _ Hc].
    split; [done|]. split; [by apply Forall_and|]. simpl in Hc. rewrite <-Hhints. lia.
  - apply parse_lines_err in Hp as (l & Hl & _ & Hb & Hh). rewrite Nat.sub_0_r in Hl. eauto.
Qed.

(** a DNS hint carried with the lines survives only when its host name is
    the one some parsed bridge has to resolve, so a hint list from an untrusted
    source cannot plant an address for any other host. *)
Theorem hints_are_scoped (now : Z) (ls : list str) (p : ParsedBridges) :
  parsed now ls = Ok p →
  ∀ h, h ∈ dns_hints p →
    (∃ b, b ∈ bridges p ∧ dns_hostname_of b = Some (host h)) ∧
    addrs h ≠ [] ∧ resolved_at_unix h - now ≤ DNS_TIMESTAMP_FUTURE_TOLERANCE.
Proof.
  unfold parsed. destruct (parse_lines _ 0 ls) as [st|i]; simpl; [|done]. intros [= <-] h.
  simpl. intros [Hin Hk%bool_decide_eq_true_1]%list_elem_of_In%filter_In.
  apply list_elem_of_omap in Hk as (b & Hb & Hhost). split; [eauto|].
  apply list_elem_of_In, list_elem_of_omap in Hin as (l & _ & Hl). by eapply hint_line_sound.
Qed.
End Parsed.

(** ** Witnesses *)

Section Witnesses.
#[local] Existing Instance sample_url.
#[local] Existing Instance sample_tls.
#[local] Existing Instance sample_lines.

Definition sample_config_lines : list str :=
  [ lit "# xorbot:dns example.com 1.2.3.4 100";
    lit "# xorbot:dns elsewhere.org 6.6.6.6 100";
    bridge_to_string webtunnel_bridge ].
Definition sample_hint : DnsHint := mkDnsHint (lit "example.com") [V4 0x01020304] 100.

Lemma hints_are_scoped_witness :
  parsed 100 sample_config_lines = Ok (mkParsed [webtunnel_bridge] 0 0 [sample_hint]) ∧
  addrs sample_hint ≠ [].
Proof.
  assert (parsed 100 sample_config_lines = Ok (mkParsed [webtunnel_bridge] 0 0 [sample_hint])) as Hp
    by reflexivity.
  split; [exact Hp|].
  apply (hints_are_scoped 100 sample_config_lines _ Hp sample_hint). left.
Defined.
End Witnesses.
End BridgesConfig.
