(* ===== verification/FetchMerge.v ===== *)
(** * Refreshing and draining the candidate pool

    [apps/socks5-proxy/src/fetch/fetch_merge/fetch_merge.rs] and
    [packages/bridge-fetcher/src/fetch/dedup.rs]: source migration, the shuffle
    of a drain batch, the refresh transaction, the probe walk of a drain with
    its two-phase commit, and the top-up that combines them.  Network results,
    lock and disk outcomes and the changes of concurrent processes are
    arguments. *)

From S2P Require Import Prelude Order OrdMap Str TempFile Net Crates Samples Identity BridgeStore CandidatePool.
Import Identity TempFile.
Open Scope Z_scope.

Module FetchMerge.

Definition MAX_DRAIN_ATTEMPTS : nat := 12.

(** ** Sources *)

Record BridgeSource : Type := mkSource {
  label : str;
  url : str;
  headers : list str;
  cookies : list str;
  allow_credentials_cross_origin : bool;
}.

Definition legacy_webtunnel : str :=
  lit "https://raw.githubusercontent.com/scriptzteam/Tor-Bridges-Collector/main/bridges-webtunnel".
Definition legacy_obfs4 : str :=
  lit "https://raw.githubusercontent.com/scriptzteam/Tor-Bridges-Collector/main/bridges-obfs4".
Definition moved_webtunnel : str :=
  lit "https://raw.githubusercontent.com/scriptzteam/Tor-Bridges-Collector-v2/main/bridges/webtunnel_tested.txt".
Definition moved_obfs4 : str :=
  lit "https://raw.githubusercontent.com/scriptzteam/Tor-Bridges-Collector-v2/main/bridges/obfs4.txt".
Definition retired_obfs4 : str :=
  lit "https://gitlab.torproject.org/tpo/applications/tor-browser/-/raw/main/projects/common/bridges_list.obfs4.txt".
Definition retired_webtunnel : str :=
  lit "https://gitlab.torproject.org/tpo/applications/tor-browser/-/raw/main/projects/common/bridges_list.webtunnel.txt".

Definition current_source_url (u : str) : str :=
  if str_eqb u legacy_webtunnel then moved_webtunnel
  else if str_eqb u legacy_obfs4 then moved_obfs4
  else u.

Definition retired_source (u : str) : bool := str_eqb u retired_obfs4 || str_eqb u retired_webtunnel.

Definition with_current_url (s : BridgeSource) : BridgeSource :=
  mkSource (label s) (current_source_url (url s)) (headers s) (cookies s)
    (allow_credentials_cross_origin s).

(** The sources [fetch_sources] asks the fetcher for, and what
    [migrate_legacy_source] leaves in the configuration. *)
Definition request_sources (ss : list BridgeSource) : list BridgeSource :=
  map with_current_url (List.filter (fun s => negb (retired_source (url s))) ss).

Definition migrate_legacy_source (ss : list BridgeSource) : list BridgeSource :=
  map with_current_url (List.filter (fun s => negb (retired_source (url s))) ss).

(** ** The shuffle *)

Definition xorshift (s : Z) : Z :=
  let s := Z.lxor s (Z.land (Z.shiftl s 13) u64_max) in
  let s := Z.lxor s (Z.shiftr s 7) in
  Z.lxor s (Z.land (Z.shiftl s 17) u64_max).

(** [slice::swap]; both indices are in range where it is called. *)
Definition swap {A} (v : list A) (i j : nat) : list A :=
  match v !! i, v !! j with
  | Some x, Some y => <[i := y]> (<[j := x]> v)
  | _, _ => v
  end.

Fixpoint shuffle_from {A} (i : nat) (state : Z) (v : list A) : list A :=
  match i with
  | O => v
  | S i' =>
      let state := xorshift state in
      let j := Z.to_nat (state mod (Z.of_nat i + 1)) in
      shuffle_from i' state (swap v i j)
  end.

(** The seed is what [getrandom] supplies, or its failure. *)
Definition shuffle {A} (seed : option Z) (v : list A) : list A :=
  if (length v <? 2)%nat then v
  else match seed with
  | None => v
  | Some s => shuffle_from (length v - 1) (Z.lor s 1) v
  end.

Lemma delete_insert_same {A} (l : list A) i x : delete i (<[i := x]> l) = delete i l.
Proof. revert i. induction l as [|y l IH]; intros [|i]; simpl; try done. by f_equal. Qed.

Lemma insert_Permutation {A} (l : list A) i x :
  (i < length l)%nat → <[i := x]> l ≡ₚ x :: delete i l.
Proof.
  intros Hi. rewrite (delete_Permutation (<[i := x]> l) i x) by by apply list_lookup_insert_eq.
  by rewrite delete_insert_same.
Qed.

Lemma swap_perm {A} (v : list A) i j : swap v i j ≡ₚ v.
Proof.
  unfold swap. destruct (v !! i) as [x|] eqn:Hi; [|done]. destruct (v !! j) as [y|] eqn:Hj; [|done].
  pose proof (lookup_lt_Some _ _ _ Hi) as Hli. pose proof (lookup_lt_Some _ _ _ Hj) as Hlj.
  assert (<[j := x]> v !! i = Some x) as Hx.
  { destruct (decide (i = j)) as [->|Hne]; [by apply list_lookup_insert_eq|].
    by rewrite list_lookup_insert_ne by done. }
  rewrite insert_Permutation by by rewrite length_insert.
  rewrite (delete_Permutation v j y Hj) at 2. constructor.
  apply (Permutation_cons_inv (a := x)). rewrite <-(delete_Permutation _ _ _ Hx).
  by apply insert_Permutation.
Qed.

Lemma shuffle_from_perm {A} i state (v : list A) : shuffle_from i state v ≡ₚ v.
Proof.
  revert state v. induction i as [|i IH]; intros state v; cbn [shuffle_from]; [done|].
  rewrite IH. apply swap_perm.
Qed.

Lemma shuffle_perm {A} seed (v : list A) : shuffle seed v ≡ₚ v.
Proof.
  unfold shuffle. destruct (_ <? _)%nat; [done|]. destruct seed; [|done]. apply shuffle_from_perm.
Qed.

Lemma current_not_retired u : retired_source u = false → retired_source (current_source_url u) = false.
Proof. unfold current_source_url. by repeat destruct (str_eqb u _). Qed.

Lemma current_idempotent u : current_source_url (current_source_url u) = current_source_url u.
Proof.
  unfold current_source_url at 2 3. destruct (str_eqb u legacy_webtunnel) eqn:H1; [done|].
  destruct (str_eqb u legacy_obfs4) eqn:H2; [done|]. unfold current_source_url. by rewrite H1, H2.
Qed.

(** The sources a migration leaves are neither retired nor moved. *)
Definition current (s : BridgeSource) : Prop :=
  retired_source (url s) = false ∧ current_source_url (url s) = url s.

Lemma migrate_current ss : Forall current (migrate_legacy_source ss).
Proof.
  unfold migrate_legacy_source. induction ss as [|s ss IH]; simpl; [constructor|].
  destruct (retired_source (url s)) eqn:Hr; simpl; [done|]. constructor; [|done].
  split; [by apply current_not_retired|apply current_idempotent].
Qed.

(** Nothing to migrate: every source is current already. *)
Lemma not_stale_current ss :
  existsb (fun s => negb (str_eqb (current_source_url (url s)) (url s))) ss ||
    existsb (fun s => retired_source (url s)) ss = false → Forall current ss.
Proof.
  induction ss as [|s ss IH]; simpl; [constructor|]. intros Hs. boolprop.
  constructor; [split; [done|by eapply bool_decide_eq_true_1]|]. apply IH.
  by match goal with H1 : existsb _ _ = false, H2 : existsb _ _ = false |- _ => rewrite H1, H2 end.
Qed.

Section FetchMerge.
Context `{UrlCrate, TlsCrate, TimeCrate, BridgeLineCrate}.

(** [dedup_bridges]: first occurrence of each identity, and how many were
    dropped. *)
Fixpoint dedup_from (seen : gset BridgeIdentity) (bs : list BridgeLine) : list BridgeLine * nat :=
  match bs with
  | [] => ([], 0%nat)
  | b :: bs' =>
      if bool_decide (bridge_identity b ∈ seen)
      then let '(u, d) := dedup_from seen bs' in (u, S d)
      else let '(u, d) := dedup_from ({[ bridge_identity b ]} ∪ seen) bs' in (b :: u, d)
  end.

Definition dedup_bridges (bs : list BridgeLine) : list BridgeLine * nat := dedup_from ∅ bs.

(** [working_keys]: the identities of the working configuration, none when it
    does not parse. *)
Definition working_keys (parsed : option (list BridgeLine)) : gset BridgeIdentity :=
  match parsed with
  | Some bs => list_to_set (map Pool.key_of bs)
  | None => ∅
  end.

(** The state on disk the flows share: the pool file, the bridges file of the
    configuration (its lines and sources) and the bridge store. *)
Record world : Type := mkWorld {
  pool_file : Pool.pool_file;
  config_lines : list str;
  config_sources : list BridgeSource;
  store : Store.BridgeStore;
}.

(** The outcomes of a locked update: whether the lock is obtained and the file
    read, and how the save fares. *)
Record io : Type := mkIo { lock_ok : bool; save : save_io }.

(** [fetch_sources]: [fetch_all] stands for the network. *)
Definition fetch_sources (fetch_all : list BridgeSource → list BridgeLine)
  (sources : list BridgeSource) : list BridgeLine :=
  let requested := request_sources sources in
  if is_empty requested then [] else (dedup_bridges (fetch_all requested)).1.

(** [refresh_candidate_pool] with the loaded configuration's sources, preferred
    transport and working bridges. *)
Definition refresh_candidate_pool (fetch_all : list BridgeSource → list BridgeLine)
  (sources : list BridgeSource) (preferred : option str) (working : option (list BridgeLine))
  (pool_path : str) (has_config_path : bool) (pool_io config_io : io) (w : world)
  : result nat unit * world :=
  let fetched := fetch_sources fetch_all sources in
  if is_empty fetched then (Ok 0%nat, w)
  else
    let exclude := working_keys working in
    let migration := existsb (fun s => negb (str_eqb (current_source_url (url s)) (url s))) sources in
    let config_stale := migration || existsb (fun s => retired_source (url s)) sources in
    let update p :=
      let '(p1, added) := Pool.merge p fetched exclude in
      (if migration then Pool.prioritize p1 fetched preferred else p1, added) in
    let '(r, file) := Pool.transaction pool_path (lock_ok pool_io) (save pool_io)
                        (pool_file w) update in
    let w1 := mkWorld file (config_lines w) (config_sources w) (store w) in
    match r with
    | Err e => (Err e, w1)
    | Ok added =>
        if config_stale && has_config_path then
          if negb (lock_ok config_io) then (Err tt, w1)
          else
            let '(saved, sources) :=
              save_file (save config_io) (migrate_legacy_source (config_sources w))
                (config_sources w) in
            let w2 := mkWorld file (config_lines w) sources (store w) in
            match saved with
            | Ok _ => (Ok added, w2)
            | Err e => (Err e, w2)
            end
        else (Ok added, w1)
    end.

(** ** The drain *)

(** What the drain observes when it reaches a candidate: whether the deadline
    still lies ahead, the probe (none when it hits the deadline) and the
    channel check within the remaining budget. *)
Record observation : Type := mkObs {
  in_time : bool;
  probe : option Outcome;
  channel_check : bool;
}.

(** [admits_candidate]: [channel] is absent on a cold start. *)
Definition admits_candidate (tcp_latency : option Z) (channel : option bool) : bool :=
  match tcp_latency with
  | None => false
  | Some _ => match channel with Some verified => verified | None => true end
  end.

Record drain_state : Type := mkDrain {
  promoted : list BridgeLine;
  channel_ok : list BridgeLine;
  dead : list BridgeLine;
  deferred : list BridgeLine;
  reachable : list (BridgeLine * Z);
  attempts : nat;
}.

Definition drain_empty : drain_state := mkDrain [] [] [] [] [] 0.

(** The decision on a probed candidate. *)
Definition settle (has_checker : bool) (st : drain_state) (b : BridgeLine) (latency : option Z)
  (checked : bool) : drain_state :=
  let 'mkDrain pr ch de df re n := st in
  if admits_candidate latency (if has_checker then Some checked else None) then
    mkDrain (pr ++ [b])
      (if bool_decide (is_Some latency) && has_checker then ch ++ [b] else ch) de df
      (match latency with Some l => re ++ [(b, l)] | None => re end) n
  else if bool_decide (is_Some latency) then mkDrain pr ch de (df ++ [b]) re n
  else mkDrain pr ch (de ++ [b]) df re n.

Definition defer (st : drain_state) (b : BridgeLine) : drain_state :=
  let 'mkDrain pr ch de df re n := st in mkDrain pr ch de (df ++ [b]) re n.

Definition count_attempt (st : drain_state) : drain_state :=
  let 'mkDrain pr ch de df re n := st in mkDrain pr ch de df re (S n).

(** The body of the walk over the batch. *)
Definition drain_step (target max_attempts : nat) (has_checker : bool) (st : drain_state)
  (bo : BridgeLine * observation) : drain_state :=
  let '(b, o) := bo in
  if (target <=? length (promoted st))%nat || (max_attempts <=? attempts st)%nat || negb (in_time o)
  then st
  else
    let st := count_attempt st in
    match probe o with
    | None => defer st b
    | Some (Unmeasured _) => defer st b
    | Some (Unreachable _) => settle has_checker st b None (channel_check o)
    | Some (Reachable l) => settle has_checker st b (Some l) (channel_check o)
    end.

Definition drain_walk (target max_attempts : nat) (has_checker : bool)
  (batch : list (BridgeLine * observation)) : drain_state :=
  fold_left (drain_step target max_attempts has_checker) batch drain_empty.

(** What the drain hands to the store writer: nothing unless some channel was
    verified. *)
Definition record_drain (st : drain_state) (now : OffsetDateTime) (s : Store.BridgeStore)
  : Store.BridgeStore :=
  if is_empty (channel_ok st) then s
  else
  let s := (Store.note_probe_round s (promoted st) (reachable st) now 0 u32_max u32_max).1 in
  fold_left (fun s b =>
    let s := Store.note_channel_success_at s b now in
    if bool_decide (transport b = Some (lit "webtunnel"))
    then Store.note_circuit_success_at (Store.note_circuit_verified_at s b now) b now
    else s) (channel_ok st) s.

(** [promote_bridges_in_config]: lines already present are not added again and
    the file is only written when something is new. *)
Definition promote_lines (lines : list str) (bs : list BridgeLine) : list str :=
  fold_left (fun ls b => let line := bridge_to_string b in
                         if bool_decide (line ∈ ls) then ls else ls ++ [line]) bs lines.

Definition promote_bridges_in_config (lines : list str) (bs : list BridgeLine) (cio : io)
  : result nat unit * list str :=
  if negb (lock_ok cio) then (Err tt, lines)
  else
    let latest := promote_lines lines bs in
    let added := (length latest - length lines)%nat in
    if (0 <? added)%nat then
      match save_file (save cio) latest lines with
      | (Ok _, ls) => (Ok added, ls)
      | (Err e, ls) => (Err e, ls)
      end
    else (Ok added, lines).

(** The confirm transaction: shed the durable outcomes, rotate the deferred. *)
Definition confirm (pool_path : str) (pio : io) (file : Pool.pool_file)
  (shed deferred : list BridgeLine) : result unit unit * Pool.pool_file :=
  if is_empty shed && is_empty deferred then (Ok tt, file)
  else Pool.transaction pool_path (lock_ok pio) (save pio) file (fun p =>
    let p := (Pool.remove_all p shed).1 in
    let p := (Pool.rotate_to_back p deferred).1 in
    (p, tt)).

(** What surrounds one drain: the configuration file (no path, unreadable, or
    its preferred transport), the admission checker, the random seed, what is
    observed at each place of the batch, the outcomes of locks and writes, the
    time, and what other processes do to the files while the walk runs. *)
Record drain_env : Type := mkEnv {
  config : option (result (option str) unit);
  has_checker : bool;
  seed : option Z;
  observe : nat → observation;
  batch_lock : bool;
  store_ok : bool;
  config_io : io;
  pool_io : io;
  now : OffsetDateTime;
  others : world → world;
}.

(** The dead always, the promoted once the configuration holds them. *)
Definition discard (promotion : result nat unit) (st : drain_state) : list BridgeLine :=
  match promotion with
  | Ok _ => dead st ++ promoted st
  | Err _ => dead st
  end.

(** The second half of [drain_pool_with]: record, promote, then confirm on
    whatever the files hold by then. *)
Definition drain_commit (e : drain_env) (pool_path : str) (st : drain_state) (w : world)
  : result nat unit * world :=
  let store' := if store_ok e then record_drain st (now e) (store w) else store w in
  let '(promotion, lines) :=
    if is_empty (promoted st) then (Ok 0%nat, config_lines w)
    else promote_bridges_in_config (config_lines w) (promoted st) (config_io e) in
  let '(_, file) := confirm pool_path (pool_io e) (pool_file w) (discard promotion st) (deferred st) in
  (promotion, mkWorld file lines (config_sources w) store').

Definition drain_max_attempts (target : nat) : nat := Nat.min (target * 50) MAX_DRAIN_ATTEMPTS.

(** The batch a drain walks, with what it observes of each bridge. *)
Definition drain_batch (e : drain_env) (target : nat) (preferred : option str)
  (p : Pool.CandidatePool) : list (BridgeLine * observation) :=
  let batch_size := Nat.min (drain_max_attempts target) (Pool.len p) in
  imap (fun i b => (b, observe e i))
    (shuffle (seed e) (Pool.take_transport p batch_size preferred).2).

Definition drain_pool_with (e : drain_env) (pool_path : str) (target : nat) (w : world)
  : result nat unit * world :=
  if (target =? 0)%nat then (Ok 0%nat, w)
  else match config e with
  | None => (Ok 0%nat, w)
  | Some (Err x) => (Err x, w)
  | Some (Ok preferred) =>
      if negb (batch_lock e) then (Err tt, w)
      else match Pool.load pool_path (pool_file w) with
      | Err x => (Err x, w)
      | Ok p =>
          if is_empty (Pool.bridges p) then (Ok 0%nat, w)
          else
            let st := drain_walk target (drain_max_attempts target) (has_checker e)
                        (drain_batch e target preferred p) in
            drain_commit e pool_path st (others e w)
      end
  end.

(** [drain_pool]: the probe policy is read from the configuration first. *)
Definition drain_pool (e : drain_env) (policy_loads : bool) (pool_path : str) (target : nat)
  (w : world) : result nat unit * world :=
  if policy_loads then drain_pool_with e pool_path target w else (Err tt, w).

(** [top_up_working]: drain, and refresh then drain again when short. *)
Definition top_up_working (e1 e2 : drain_env) (policy1 policy2 : bool)
  (fetch_all : list BridgeSource → list BridgeLine)
  (sources : list BridgeSource) (preferred : option str) (working : option (list BridgeLine))
  (pool_path : str) (has_config_path : bool) (refresh_pool_io refresh_config_io : io)
  (target : nat) (w : world) : result nat unit * world :=
  if (target =? 0)%nat then (Ok 0%nat, w)
  else match drain_pool e1 policy1 pool_path target w with
  | (Err x, w1) => (Err x, w1)
  | (Ok n, w1) =>
      if (n <? target)%nat && negb (is_empty sources) then
        match refresh_candidate_pool fetch_all sources preferred working pool_path
                has_config_path refresh_pool_io refresh_config_io w1 with
        | (Err x, w2) => (Err x, w2)
        | (Ok _, w2) =>
            match drain_pool e2 policy2 pool_path (target - n) w2 with
            | (Err x, w3) => (Err x, w3)
            | (Ok m, w3) => (Ok (n + m)%nat, w3)
            end
        end
      else (Ok n, w1)
  end.

(** ** The walk *)

(** What a probe says about admission, and about death. *)
Definition admitted (chk : bool) (o : observation) : Prop :=
  (∃ l, probe o = Some (Reachable l)) ∧ (chk = true → channel_check o = true).

Definition dead_evidence (o : observation) : Prop := ∃ r, probe o = Some (Unreachable r).

Record walk_inv (target max_attempts : nat) (chk : bool) (seen : list (BridgeLine * observation))
  (st : drain_state) : Prop := {
  walk_split : ∃ skipped, promoted st ++ dead st ++ deferred st ++ skipped ≡ₚ seen.*1;
  walk_attempts : attempts st = (length (promoted st) + length (dead st) + length (deferred st))%nat;
  walk_target : (length (promoted st) ≤ target)%nat;
  walk_bound : (attempts st ≤ max_attempts)%nat;
  walk_reachable : (reachable st).*1 = promoted st;
  walk_channel : channel_ok st = if chk then promoted st else [];
  walk_promoted : Forall (fun b => ∃ o, (b, o) ∈ seen ∧ admitted chk o) (promoted st);
  walk_dead : Forall (fun b => ∃ o, (b, o) ∈ seen ∧ dead_evidence o) (dead st);
}.

Lemma evidence_mono (P : observation → Prop) seen bo bs :
  Forall (fun b => ∃ o : observation, (b, o) ∈ seen ∧ P o) bs →
  Forall (fun b : BridgeLine => ∃ o, (b, o) ∈ seen ++ [bo] ∧ P o) bs.
Proof. intros Hbs. apply (Forall_impl _ _ _ Hbs). intros b (o & Hin & HP). exists o. set_solver. Qed.

Lemma evidence_snoc (P : observation → Prop) seen b o bs :
  Forall (fun b => ∃ o : observation, (b, o) ∈ seen ∧ P o) bs → P o →
  Forall (fun c : BridgeLine => ∃ o', (c, o') ∈ seen ++ [(b, o)] ∧ P o') (bs ++ [b]).
Proof.
  intros Hbs HP. apply Forall_app. split; [by apply evidence_mono|].
  constructor; [|constructor]. exists o. set_solver.
Qed.

#[local] Hint Resolve evidence_mono evidence_snoc : tor.

Lemma split_grow (l1 l2 l3 l1' l2' l3' skipped : list BridgeLine) b :
  l1' ++ l2' ++ l3' ≡ₚ b :: l1 ++ l2 ++ l3 →
  l1' ++ l2' ++ l3' ++ skipped ≡ₚ (l1 ++ l2 ++ l3 ++ skipped) ++ [b].
Proof.
  intros Hl. rewrite (app_assoc l2' l3'), (app_assoc l1'), Hl.
  rewrite <-Permutation_cons_append. simpl. by rewrite <-!app_assoc.
Qed.

Lemma drain_step_inv target max_attempts chk seen st b o :
  walk_inv target max_attempts chk seen st →
  walk_inv target max_attempts chk (seen ++ [(b, o)])
    (drain_step target max_attempts chk st (b, o)).
Proof.
  intros [[skipped Hs] Ha Ht Hm Hr Hc Hp Hd]. unfold drain_step.
  destruct ((target <=? length (promoted st))%nat || _ || _) eqn:Hstop.
  { split; auto with tor. exists (skipped ++ [b]). rewrite fmap_app, <-Hs, !app_assoc. done. }
  boolprop. destruct st as [pr ch de df re n]. simpl in *.
  assert (∀ l1 l2 l3, l1 ++ l2 ++ l3 ≡ₚ b :: pr ++ de ++ df →
    ∃ skipped', l1 ++ l2 ++ l3 ++ skipped' ≡ₚ seen.*1 ++ [b]) as Hsplit.
  { intros l1 l2 l3 Hl. exists skipped. rewrite <-Hs. by apply split_grow. }
  destruct (probe o) as [[l|r|r]|] eqn:Ho; simpl.
  - destruct chk; [destruct (channel_check o) eqn:Hch|]; simpl; split; simpl; auto with tor;
      rewrite ?length_app, ?fmap_app; simpl; try lia; try (by subst).
    all: try (apply evidence_snoc; [done|]; split; [by eexists|done]).
    all: apply Hsplit; solve_Permutation.
  - split; simpl; auto with tor; rewrite ?length_app, ?fmap_app; simpl; try lia.
    + apply Hsplit. solve_Permutation.
    + apply evidence_snoc; [done|]. by eexists.
  - split; simpl; auto with tor; rewrite ?length_app, ?fmap_app; simpl; try lia. apply Hsplit. solve_Permutation.
  - split; simpl; auto with tor; rewrite ?length_app, ?fmap_app; simpl; try lia. apply Hsplit. solve_Permutation.
Qed.

Lemma drain_walk_inv target max_attempts chk batch :
  walk_inv target max_attempts chk batch (drain_walk target max_attempts chk batch).
Proof.
  unfold drain_walk. induction batch as [|[b o] batch IH] using rev_ind.
  - split; simpl; try done; try lia; [by exists []|by destruct chk].
  - rewrite fold_left_app. by apply drain_step_inv.
Qed.

(** ** Promotion *)

Lemma promote_lines_spec ls bs :
  ∃ new, promote_lines ls bs = ls ++ new ∧ (length new ≤ length bs)%nat ∧ NoDup new ∧
    (∀ x, x ∈ new → (x ∉ ls) ∧ x ∈ map bridge_to_string bs) ∧
    (∀ b, b ∈ bs → bridge_to_string b ∈ ls ++ new).
Proof.
  unfold promote_lines. revert ls. induction bs as [|b bs IH]; intros ls; cbn [fold_left].
  { exists []. rewrite app_nil_r. split_and!; [done|simpl; lia|constructor|set_solver|set_solver]. }
  case_bool_decide as Hin.
  - destruct (IH ls) as (new & -> & Hl & Hnd & Hnew & Hall). exists new.
    split_and!; simpl; [done|lia|done|set_solver|]. intros c [->|Hc]%elem_of_cons; [set_solver|auto].
  - destruct (IH (ls ++ [bridge_to_string b])) as (new & -> & Hl & Hnd & Hnew & Hall).
    exists (bridge_to_string b :: new). rewrite <-app_assoc in *. simpl in *.
    split_and!; [done|simpl; lia| |set_solver|set_solver].
    constructor; [|done]. intros Hb. destruct (Hnew _ Hb). set_solver.
Qed.

Lemma promote_lines_present ls bs :
  (∀ b, b ∈ bs → bridge_to_string b ∈ ls) → promote_lines ls bs = ls.
Proof.
  unfold promote_lines. induction bs as [|b bs IH]; intros Hbs; simpl; [done|].
  rewrite bool_decide_true by (apply Hbs; set_solver). apply IH. intros c Hc. apply Hbs. set_solver.
Qed.

Lemma promote_result ls bs cio n ls' :
  promote_bridges_in_config ls bs cio = (Ok n, ls') →
  ls' = promote_lines ls bs ∧ n = (length ls' - length ls)%nat.
Proof.
  unfold promote_bridges_in_config. destruct (lock_ok cio); simpl; [|done].
  destruct (promote_lines_spec ls bs) as (new & Hp & _). rewrite Hp, length_app.
  destruct (_ <? _)%nat eqn:Hn; boolprop.
  - destruct (save_file _ _ _) as [[[]|] f] eqn:Hs; [|done]. apply save_file_ok in Hs as ->.
    intros [= <- <-]. by rewrite length_app.
  - intros [= <- <-]. assert (new = []) as -> by (apply nil_length_inv; lia). rewrite app_nil_r.
    simpl. split; [done|]. lia.
Qed.

(** ** The confirm transaction *)

Section Confirm.
Context (validb : BridgeLine → Prop) `{!BridgeLineLaws validb}.

Lemma confirm_spec pool_path pio file discard deferred p r file' :
  Pool.load pool_path file = Ok p → Forall validb (Pool.bridges p) →
  confirm pool_path pio file discard deferred = (r, file') →
  (file' = file ∧ (r = Ok tt → discard = [] ∧ deferred = [])) ∨
  Pool.load pool_path file' = Ok (Pool.rotate_to_back (Pool.remove_all p discard).1 deferred).1.
Proof.
  intros Hl Hv. unfold confirm. destruct (is_empty discard && is_empty deferred) eqn:He.
  { intros [= <- <-]. left. boolprop. by destruct discard, deferred. }
  unfold Pool.transaction. rewrite Hl. destruct (lock_ok pio); simpl; [|intros [= <- <-]; by left].
  match goal with |- context [Pool.PoolText (Pool.save_text ?q)] => set (p2 := q) end.
  assert (Pool.load pool_path (Pool.PoolText (Pool.save_text p2)) = Ok p2) as Hsaved.
  2: { destruct (save_file_cases (save pio) (Pool.PoolText (Pool.save_text p2)) file)
         as [Hs|[Hs|[Hs _]]]; rewrite Hs; intros [= <- <-]; auto. by left. }
  pose proof (Pool.load_path _ _ _ Hl) as Hpath. pose proof (Pool.load_wf _ _ _ Hl) as Hwf.
  destruct (Pool.remove_all_bridges p discard Hwf) as (Hb & Hk & Hpa & _).
  replace pool_path with (Pool.path p2) by (simpl; congruence).
  apply (Pool.load_saved_pool validb).
  - apply (Pool.apply_op_wf _ (Pool.OpRotate deferred)). by apply Pool.remove_all_wf.
  - assert (Pool.bridges p2 ≡ₚ Pool.bridges (Pool.remove_all p discard).1) as ->
      by apply (Pool.rotate_to_back_perm (Pool.remove_all p discard).1 deferred).
    rewrite Hb. rewrite Forall_forall in Hv |- *.
    intros b [Hin _]%list_elem_of_In%filter_In. by apply Hv, list_elem_of_In.
Qed.

Lemma confirmed_bridges p discard deferred b :
  Pool.pool_wf p →
  b ∈ Pool.bridges (Pool.rotate_to_back (Pool.remove_all p discard).1 deferred).1 ↔
  b ∈ Pool.bridges p ∧ (Pool.key_of b ∉ map Pool.key_of discard).
Proof.
  intros Hwf. rewrite Pool.rotate_to_back_perm.
  destruct (Pool.remove_all_bridges p discard Hwf) as (-> & _).
  rewrite list_elem_of_In, filter_In, <-list_elem_of_In, negb_true_iff, bool_decide_eq_false. done.
Qed.
End Confirm.

(** ** Outcomes of a drain *)

Lemma commit_promotes e pool_path st w r w' :
  drain_commit e pool_path st w = (r, w') →
  match r with
  | Ok n => config_lines w' = promote_lines (config_lines w) (promoted st) ∧
            n = (length (config_lines w') - length (config_lines w))%nat
  | Err _ => True
  end.
Proof.
  unfold drain_commit. destruct (promoted st) as [|b bs] eqn:Hp; cbn [is_empty].
  - destruct (confirm _ _ _ _ _). intros [= <- <-]. simpl. split; [done|]. lia.
  - destruct (promote_bridges_in_config _ _ _) as [r0 ls] eqn:Hr. destruct (confirm _ _ _ _ _).
    intros [= -> <-]. simpl. destruct r; [by apply promote_result in Hr|done].
Qed.

Lemma promote_lines_count ls bs : (length (promote_lines ls bs) - length ls ≤ length bs)%nat.
Proof. destruct (promote_lines_spec ls bs) as (new & -> & Hl & _). rewrite length_app. lia. Qed.

Lemma drain_pool_with_bound e pool_path target w n w' :
  drain_pool_with e pool_path target w = (Ok n, w') → (n ≤ target)%nat.
Proof.
  unfold drain_pool_with. destruct (target =? 0)%nat; [intros [= <- _]; lia|].
  destruct (config e) as [[preferred|]|]; [| |intros [= <- _]; lia]; [|done].
  destruct (batch_lock e); simpl; [|done].
  destruct (Pool.load _ _) as [p|]; [|done]. destruct (is_empty _); [intros [= <- _]; lia|].
  intros [Hl ->]%commit_promotes. rewrite Hl. etransitivity; [apply promote_lines_count|].
  eapply walk_target, drain_walk_inv.
Qed.

Lemma commit_file e pool_path st w r w' :
  drain_commit e pool_path st w = (r, w') →
  ∃ c, confirm pool_path (pool_io e) (pool_file w) (discard r st) (deferred st) = (c, pool_file w').
Proof.
  unfold drain_commit.
  destruct (if is_empty (promoted st) then _ else _) as [r0 ls].
  destruct (confirm _ _ _ _ _) as [c file] eqn:Hc. intros [= -> <-]. by exists c.
Qed.

Lemma evidence_key (P : observation → Prop) (batch : list (BridgeLine * observation)) bs k :
  Forall (fun b => ∃ o : observation, (b, o) ∈ batch ∧ P o) bs → k ∈ map Pool.key_of bs →
  ∃ d o, d ∈ bs ∧ (d, o) ∈ batch ∧ Pool.key_of d = k ∧ P o.
Proof.
  rewrite Forall_forall. intros Hbs (d & -> & Hd)%list_elem_of_fmap.
  destruct (Hbs d Hd) as (o & Hin & HP). eauto 6.
Qed.

(** A candidate in the discard list was found dead or is now configured. *)
Lemma discarded_evidence e target max_attempts batch pool_path w r w' k :
  let st := drain_walk target max_attempts (has_checker e) batch in
  drain_commit e pool_path st w = (r, w') →
  k ∈ map Pool.key_of (discard r st) →
  ∃ d o, (d, o) ∈ batch ∧ Pool.key_of d = k ∧
    (dead_evidence o ∨
     (admitted (has_checker e) o ∧ bridge_to_string d ∈ config_lines w')).
Proof.
  intros st Hc Hk. pose proof (drain_walk_inv target max_attempts (has_checker e) batch) as Hinv.
  fold st in Hinv. apply commit_promotes in Hc.
  assert (k ∈ map Pool.key_of (dead st) ∨
          (k ∈ map Pool.key_of (promoted st) ∧
           config_lines w' = promote_lines (config_lines w) (promoted st))) as [Hd|[Hp Hl]].
  { unfold discard in Hk. destruct r; [|by left]. rewrite map_app, elem_of_app in Hk. destruct Hc, Hk; auto. }
  - destruct (evidence_key _ _ _ _ (walk_dead _ _ _ _ _ Hinv) Hd) as (d & o & _ & ? & ? & ?).
    exists d, o. auto.
  - destruct (evidence_key _ _ _ _ (walk_promoted _ _ _ _ _ Hinv) Hp) as (d & o & Hin & ? & ? & ?).
    exists d, o. split_and!; [done|done|]. right. split; [done|]. rewrite Hl.
    destruct (promote_lines_spec (config_lines w) (promoted st)) as (new & -> & _ & _ & _ & Hall).
    auto.
Qed.

(** ** Deduplication and refresh *)

Lemma dedup_from_spec seen bs :
  let '(u, d) := dedup_from seen bs in
  sublist u bs ∧ NoDup (map bridge_identity u) ∧ (length u + d = length bs)%nat ∧
  (∀ b, b ∈ u → bridge_identity b ∉ seen) ∧
  (∀ b, b ∈ bs → bridge_identity b ∈ seen ∨ bridge_identity b ∈ map bridge_identity u).
Proof.
  revert seen. induction bs as [|b bs IH]; intros seen; simpl.
  { split_and!; [constructor|constructor|done|set_solver|set_solver]. }
  case_bool_decide as Hb.
  - specialize (IH seen). destruct (dedup_from seen bs) as [u d].
    destruct IH as (Hs & Hnd & Hn & Hu & Hall). split_and!; [by constructor|done|lia|done|].
    intros c [->|Hc]%elem_of_cons; auto.
  - specialize (IH ({[ bridge_identity b ]} ∪ seen)).
    destruct (dedup_from ({[ bridge_identity b ]} ∪ seen) bs) as [u d].
    destruct IH as (Hs & Hnd & Hn & Hu & Hall). split_and!; [by constructor| |simpl; lia| |].
    + simpl. constructor; [|done]. intros (c & Heq & Hc)%list_elem_of_fmap.
      apply (Hu c Hc), elem_of_union_l, elem_of_singleton. done.
    + intros c [->|Hc]%elem_of_cons; [done|]. intros Hin. by apply (Hu c Hc), elem_of_union_r.
    + intros c [->|Hc]%elem_of_cons; simpl; rewrite elem_of_cons; [by auto|].
      destruct (Hall c Hc) as [[->%elem_of_singleton|Hin]%elem_of_union|Hin]; auto.
Qed.

(** The pool update a refresh runs in its transaction. *)
Lemma refresh_update_spec p fetched exclude (migration : bool) preferred :
  let p' := (Pool.merge p fetched exclude).1 in
  let q := if migration then Pool.prioritize p' fetched preferred else p' in
  Pool.bridges q ≡ₚ Pool.bridges p' ∧ Pool.keys q = Pool.keys p' ∧ Pool.path q = Pool.path p.
Proof.
  intros p' q. assert (Pool.path p' = Pool.path p) as Hp.
  { unfold p'. clear. revert p. induction fetched as [|b bs IH]; intros p; simpl; [done|].
    case_bool_decide; [apply IH|]. pose proof (Pool.push_unique_appends p b) as Hpu.
    destruct (Pool.push_unique p b) as [p1 fresh]. destruct Hpu as (_ & <- & _).
    specialize (IH p1). by destruct (Pool.merge p1 bs exclude). }
  unfold q. destruct migration; [|done]. split_and!; [apply sort_by_perm|done|done].
Qed.

Lemma refresh_transaction (validb : BridgeLine → Prop) `{!BridgeLineLaws validb} pool_path io1 file
    p fetched exclude (migration : bool) preferred added file' :
  Pool.load pool_path file = Ok p → Forall validb (Pool.bridges p ++ fetched) →
  Pool.transaction pool_path (lock_ok io1) (save io1) file
    (fun p => let '(p1, added) := Pool.merge p fetched exclude in
              (if migration then Pool.prioritize p1 fetched preferred else p1, added)) =
    (Ok added, file') →
  ∃ p' new, Pool.load pool_path file' = Ok p' ∧
    Pool.bridges p' ≡ₚ Pool.bridges p ++ new ∧ length new = added ∧ sublist new fetched ∧
    ∀ b, b ∈ fetched → Pool.key_of b ∈ exclude ∨ Pool.key_of b ∈ Pool.keys p'.
Proof.
  intros Hl Hv. unfold Pool.transaction. rewrite Hl. destruct (lock_ok io1); [|done]. cbn [negb].
  pose proof (Pool.merge_appends p fetched exclude) as Hm.
  pose proof (refresh_update_spec p fetched exclude migration preferred) as Hq.
  pose proof (Pool.merge_wf p fetched exclude (Pool.load_wf _ _ _ Hl)) as Hwf.
  destruct (Pool.merge p fetched exclude) as [p1 k]. simpl in Hq, Hwf.
  set (q := if migration then _ else _) in *.
  destruct (save_file _ _ _) as [[[]|] f] eqn:Hsv; [|done]. apply save_file_ok in Hsv as ->.
  intros [= <- <-].
  destruct Hm as (new & Hb & Hn & Hs & _ & _ & Hall). destruct Hq as (Hp & Hk & Hpath).
  exists q, new. split_and!; [|by rewrite Hp, Hb|done|done|].
  - rewrite <-(Pool.load_path _ _ _ Hl), <-Hpath. apply (Pool.load_saved_pool validb).
    + unfold q. destruct migration; [|done]. by apply (Pool.apply_op_wf _ (Pool.OpPrioritize _ _)).
    + rewrite Hp, Hb. apply Forall_app in Hv as [Hv1 Hv2]. apply Forall_app. split; [done|].
      rewrite Forall_forall in Hv2 |- *. intros b Hin. apply Hv2. by eapply elem_of_sublist.
  - intros b Hin. rewrite Hk. rewrite Forall_forall in Hall. by apply Hall.
Qed.

(** ** Properties *)

(** the probe walk of a drain accounts for every candidate of its batch: it
    is promoted, dead, deferred or left alone, exactly once; at most [target]
    are promoted and at most [max_attempts] probed; only bridges whose probe
    succeeded, and whose channel was verified when a checker exists, are
    promoted, only bridges whose probe failed are dead, and the store is told
    of exactly the promoted ones. *)
Theorem drain_walk_accounts (target max_attempts : nat) (chk : bool)
  (batch : list (BridgeLine * observation)) :
  let st := drain_walk target max_attempts chk batch in
  (∃ skipped, promoted st ++ dead st ++ deferred st ++ skipped ≡ₚ batch.*1) ∧
  (length (promoted st) ≤ target)%nat ∧
  (length (promoted st) + length (dead st) + length (deferred st) ≤ max_attempts)%nat ∧
  (reachable st).*1 = promoted st ∧
  channel_ok st = (if chk then promoted st else []) ∧
  Forall (fun b => ∃ o, (b, o) ∈ batch ∧ admitted chk o) (promoted st) ∧
  Forall (fun b => ∃ o, (b, o) ∈ batch ∧ dead_evidence o) (dead st).
Proof.
  intros st. destruct (drain_walk_inv target max_attempts chk batch) as [Hs Ha Ht Hm Hr Hc Hp Hd].
  fold st in Hs, Ha, Ht, Hm, Hr, Hc, Hp, Hd. rewrite <-Ha. by split_and!.
Qed.

(** C39: a drain loses no candidate, whatever concurrent writers published and
    whichever lock or write fails: every bridge pooled when the drain commits
    is still pooled afterwards unless a bridge of its identity was probed and
    found dead, or was admitted and its line is now in the configuration; and
    the drain pools nothing new. *)
Theorem drain_loses_no_candidate (validb : BridgeLine → Prop) (Hb : BridgeLineLaws validb)
  (e : drain_env) (pool_path : str) (target : nat) (preferred : option str) (w w' : world)
  (p0 p1 : Pool.CandidatePool) (r : result nat unit) :
  config e = Some (Ok preferred) → batch_lock e = true → (0 < target)%nat →
  Pool.load pool_path (pool_file w) = Ok p0 → Pool.bridges p0 ≠ [] →
  Pool.load pool_path (pool_file (others e w)) = Ok p1 → Forall validb (Pool.bridges p1) →
  drain_pool_with e pool_path target w = (r, w') →
  ∃ p2, Pool.load pool_path (pool_file w') = Ok p2 ∧
    (∀ b, b ∈ Pool.bridges p2 → b ∈ Pool.bridges p1) ∧
    ∀ b, b ∈ Pool.bridges p1 → b ∈ Pool.bridges p2 ∨
      ∃ d o, (d, o) ∈ drain_batch e target preferred p0 ∧ Pool.key_of d = Pool.key_of b ∧
        (dead_evidence o ∨
         (admitted (has_checker e) o ∧ bridge_to_string d ∈ config_lines w')).
Proof.
  intros Hcfg Hlock Ht Hl0 Hne Hl1 Hv. unfold drain_pool_with.
  destruct (Nat.eqb_spec target 0) as [|_]; [lia|]. rewrite Hcfg, Hlock, Hl0. simpl.
  destruct (Pool.bridges p0) as [|b0 bs0] eqn:Hb0; [done|]. cbn [is_empty]. intros Hd.
  pose proof (commit_file _ _ _ _ _ _ Hd) as [c Hc].
  destruct (confirm_spec validb _ _ _ _ _ _ _ _ Hl1 Hv Hc) as [[Hf _]|Hf].
  - exists p1. rewrite Hf. auto.
  - eexists. split; [exact Hf|]. pose proof (Pool.load_wf _ _ _ Hl1) as Hwf. split.
    + intros b. rewrite confirmed_bridges by done. by intros [? _].
    + intros b Hin. rewrite confirmed_bridges by done.
      destruct (decide (Pool.key_of b ∈ map Pool.key_of (discard r (drain_walk target
        (drain_max_attempts target) (has_checker e) (drain_batch e target preferred p0)))))
        as [Hk|Hk]; [right; by eapply discarded_evidence|by left].
Qed.

(** topping up never adds more bridges to the configuration than asked
    for, over both drains. *)
Theorem top_up_is_bounded (e1 e2 : drain_env) (policy1 policy2 : bool)
  (fetch_all : list BridgeSource → list BridgeLine) (sources : list BridgeSource)
  (preferred : option str) (working : option (list BridgeLine)) (pool_path : str)
  (has_config_path : bool) (io1 io2 : io) (target : nat) (w : world) :
  match (top_up_working e1 e2 policy1 policy2 fetch_all sources preferred working pool_path
           has_config_path io1 io2 target w).1 with
  | Ok n => (n ≤ target)%nat
  | Err _ => True
  end.
Proof.
  unfold top_up_working, drain_pool. destruct (Nat.eqb_spec target 0) as [|_]; [simpl; lia|].
  destruct policy1; [|done].
  destruct (drain_pool_with e1 _ _ _) as [[n|] w1] eqn:H1'; [|done].
  apply drain_pool_with_bound in H1'. destruct (_ && _) eqn:Hn; [|done]. boolprop.
  destruct (refresh_candidate_pool _ _ _ _ _ _ _ _ _) as [[k|] w2]; [|done].
  destruct policy2; [|done].
  destruct (drain_pool_with e2 _ _ _) as [[m|] w3] eqn:H2'; [|done].
  apply drain_pool_with_bound in H2'. simpl. lia.
Qed.

(** Deduplication keeps, in order, one bridge of every identity and
    reports how many it dropped. *)
Theorem dedup_keeps_one_each (bs : list BridgeLine) :
  let '(unique, dups) := dedup_bridges bs in
  sublist unique bs ∧ NoDup (map bridge_identity unique) ∧
  (∀ b, b ∈ bs → bridge_identity b ∈ map bridge_identity unique) ∧
  (length unique + dups = length bs)%nat.
Proof.
  unfold dedup_bridges. pose proof (dedup_from_spec ∅ bs) as Hd.
  destruct (dedup_from ∅ bs) as [u d]. destruct Hd as (Hs & Hnd & Hn & _ & Hall).
  split_and!; [done|done| |done]. intros b Hb. by destruct (Hall b Hb) as [?%elem_of_empty|].
Qed.

(** a refresh that fetched something and succeeds adds to the pool file
    exactly the reported number of fetched bridges, keeps every pooled one,
    leaves no fetched bridge out that is neither pooled nor configured, and
    leaves no moved or retired source in the configuration it migrates. *)
Theorem refresh_is_complete (validb : BridgeLine → Prop) (Hb : BridgeLineLaws validb)
  (fetch_all : list BridgeSource → list BridgeLine) (preferred : option str)
  (working : option (list BridgeLine)) (pool_path : str) (io1 io2 : io) (w w' : world)
  (p : Pool.CandidatePool) (n : nat) :
  let fetched := fetch_sources fetch_all (config_sources w) in
  fetched ≠ [] → Pool.load pool_path (pool_file w) = Ok p →
  Forall validb (Pool.bridges p ++ fetched) →
  refresh_candidate_pool fetch_all (config_sources w) preferred working pool_path true io1 io2 w =
    (Ok n, w') →
  (∃ p' new, Pool.load pool_path (pool_file w') = Ok p' ∧
     Pool.bridges p' ≡ₚ Pool.bridges p ++ new ∧ length new = n ∧ sublist new fetched ∧
     ∀ b, b ∈ fetched → Pool.key_of b ∈ working_keys working ∨ Pool.key_of b ∈ Pool.keys p') ∧
  Forall current (config_sources w').
Proof.
  intros fetched Hne Hl Hv. unfold refresh_candidate_pool. fold fetched.
  destruct fetched as [|b0 bs0] eqn:Hf; [done|]. cbn [is_empty]. rewrite <-Hf in *. clear Hne.
  set (stale := existsb _ _ || existsb _ _).
  destruct (Pool.transaction _ _ _ _ _) as [r file] eqn:Ht. destruct r as [added|]; [|done].
  intros Hw. assert (n = added ∧ pool_file w' = file ∧ Forall current (config_sources w')) as
    (-> & -> & Hcur).
  { rewrite andb_true_r in Hw. destruct stale eqn:Hs.
    - destruct (lock_ok io2); [|done]. cbn [negb] in Hw.
      destruct (save_file _ _ _) as [[[]|] f] eqn:Hsv; [|done]. apply save_file_ok in Hsv as ->.
      injection Hw as <- <-. split_and!; [done..|apply migrate_current].
    - injection Hw as <- <-. split_and!; [done..|by apply not_stale_current]. }
  split; [|done]. clear Hw Hcur.
  eapply refresh_transaction; eauto.
Qed.

(** promotion is idempotent and adds exactly what is missing: the new
    configuration keeps its lines in order, gains distinct new ones until every
    promoted bridge is listed, reports their number, and promoting the same
    bridges again changes nothing. *)
Theorem promotion_is_idempotent (ls ls' : list str) (bs : list BridgeLine) (cio cio' : io) (n : nat) :
  promote_bridges_in_config ls bs cio = (Ok n, ls') → lock_ok cio' = true →
  (∃ new, ls' = ls ++ new ∧ length new = n ∧ NoDup new ∧ (∀ x, x ∈ new → x ∉ ls)) ∧
  (∀ b, b ∈ bs → bridge_to_string b ∈ ls') ∧
  promote_bridges_in_config ls' bs cio' = (Ok 0%nat, ls').
Proof.
  intros [Hls ->]%promote_result Hlock.
  destruct (promote_lines_spec ls bs) as (new & Hp & _ & Hnd & Hnew & Hall).
  rewrite Hls, Hp in *. rewrite length_app. split_and!; [|done|].
  - exists new. split_and!; [done|lia|done|]. intros x Hx. by destruct (Hnew x Hx).
  - unfold promote_bridges_in_config. rewrite Hlock, promote_lines_present by done. simpl.
    by rewrite Nat.sub_diag.
Qed.

(** a configuration whose every source is retired keeps them: the refresh
    has nothing to fetch and returns before the migration. *)
Theorem retired_sources_are_kept (fetch_all : list BridgeSource → list BridgeLine)
  (sources : list BridgeSource) (preferred : option str) (working : option (list BridgeLine))
  (pool_path : str) (has_config_path : bool) (io1 io2 : io) (w : world) :
  forallb (fun s => retired_source (url s)) sources = true →
  refresh_candidate_pool fetch_all sources preferred working pool_path has_config_path io1 io2 w =
    (Ok 0%nat, w).
Proof.
  intros Hr. unfold refresh_candidate_pool, fetch_sources, request_sources.
  assert (List.filter (fun s => negb (retired_source (url s))) sources = []) as ->; [|done].
  induction sources as [|s ss IH]; simpl in *; [done|]. boolprop.
  match goal with H : retired_source _ = true |- _ => rewrite H end. simpl. auto.
Qed.
End FetchMerge.

(** ** Witnesses *)

Section Witnesses.
#[local] Existing Instance sample_url.
#[local] Existing Instance sample_tls.
#[local] Existing Instance sample_time.
#[local] Existing Instance sample_lines.

Definition sample_source : BridgeSource := mkSource (lit "moved") legacy_obfs4 [] [] false.
Definition retired_only : list BridgeSource := [mkSource (lit "old") retired_obfs4 [] [] false].

Definition sample_world : world :=
  mkWorld (Pool.PoolText (Pool.save_text Pool.sample_pool)) [] [sample_source] (Store.mkStore [] []).

(** The second place of the batch times out, the others answer; the
    rename of the configuration fails and the sync of the pool's directory too. *)
Definition sample_env : drain_env :=
  mkEnv (Some (Ok None)) true (Some 7)
    (fun i => if (i =? 1)%nat then mkObs true None false else mkObs true (Some (Reachable 5)) true)
    true true (mkIo true (mkSave true true true false true)) (mkIo true (mkSave true true true true false))
    0 (fun w => w).

Lemma sample_world_loads : Pool.load [] (pool_file sample_world) = Ok Pool.sample_pool.
Proof.
  apply (Pool.load_saved_pool _ (BridgeLineLaws0 := sample_lines_laws) Pool.sample_pool
           Pool.sample_pool_wf).
  apply Forall_forall. intros b Hb. exact Hb.
Qed.

Lemma drain_loses_no_candidate_witness :
  let '(r, w') := drain_pool_with sample_env [] 2 sample_world in
  ∃ p2, Pool.load [] (pool_file w') = Ok p2 ∧
    (∀ b, b ∈ Pool.bridges p2 → b ∈ Pool.bridges Pool.sample_pool) ∧
    ∀ b, b ∈ Pool.bridges Pool.sample_pool → b ∈ Pool.bridges p2 ∨
      ∃ d o, (d, o) ∈ drain_batch sample_env 2 None Pool.sample_pool ∧
        Pool.key_of d = Pool.key_of b ∧
        (dead_evidence o ∨ (admitted true o ∧ bridge_to_string d ∈ config_lines w')).
Proof.
  destruct (drain_pool_with sample_env [] 2 sample_world) as [r w'] eqn:Hd.
  apply (drain_loses_no_candidate _ sample_lines_laws sample_env [] 2 None sample_world w'
           Pool.sample_pool Pool.sample_pool r eq_refl eq_refl);
    [lia|exact sample_world_loads|discriminate|exact sample_world_loads| |exact Hd].
  apply Forall_forall. intros b Hb. exact Hb.
Defined.

Definition sample_fetch (ss : list BridgeSource) : list BridgeLine := [obfs4_bridge].

Lemma refresh_is_complete_witness :
  match refresh_candidate_pool sample_fetch (config_sources sample_world) None None [] true
          (mkIo true all_ok) (mkIo true all_ok) sample_world with
  | (Ok n, w') => Forall current (config_sources w')
  | (Err _, _) => False
  end.
Proof.
  destruct (refresh_candidate_pool _ _ _ _ _ _ _ _ _) as [[n|] w'] eqn:Hr.
  - apply (refresh_is_complete _ sample_lines_laws sample_fetch None None [] (mkIo true all_ok)
             (mkIo true all_ok) sample_world w' Pool.sample_pool n); [|exact sample_world_loads| |exact Hr].
    + discriminate.
    + apply Forall_forall. intros b [Hb|Hb]%elem_of_app; [exact Hb|].
      apply list_elem_of_singleton in Hb as ->. right. left.
  - unfold refresh_candidate_pool, Pool.transaction in Hr. rewrite sample_world_loads in Hr.
    simpl in Hr. destruct (Pool.merge _ _ _). discriminate Hr.
Defined.

Lemma promotion_is_idempotent_witness :
  promote_bridges_in_config [bridge_to_string obfs4_bridge; bridge_to_string plain_bridge]
    [obfs4_bridge; plain_bridge] (mkIo true (mkSave true false true true true)) =
    (Ok 0%nat, [bridge_to_string obfs4_bridge; bridge_to_string plain_bridge]).
Proof.
  refine (proj2 (proj2 (promotion_is_idempotent [bridge_to_string obfs4_bridge] _
    [obfs4_bridge; plain_bridge] (mkIo true all_ok) (mkIo true (mkSave true false true true true)) 1 _ eq_refl))).
  reflexivity.
Defined.

Lemma retired_sources_are_kept_witness :
  refresh_candidate_pool sample_fetch retired_only None None [] true (mkIo true all_ok)
    (mkIo true all_ok) sample_world = (Ok 0%nat, sample_world).
Proof. apply retired_sources_are_kept. reflexivity. Defined.
End Witnesses.
End FetchMerge.
