(* ===== verification/ClientAcl.v ===== *)
(** * Client access lists and upstream endpoints

    [packages/proxy-config/client-acl]: the [allowed_clients] grammar
    ([parser.rs]), its compiled rules and matching ([matcher.rs]), the
    validated list ([lib.rs]) and the SOCKS5 endpoint setting
    ([socks5.rs]). *)

From S2P Require Import Prelude Order Str Utf8 Net NetText.
Open Scope Z_scope.

Module ClientAcl.
Open Scope result_scope.

(** ** Rules *)

Inductive Rule : Type :=
| Any
| Loopback
| RuleV4 (network mask : Z)
| RuleV6 (network mask : Z).

Definition normalize_peer (ip : ip_addr) : ip_addr :=
  match ip with
  | V4 _ => ip
  | V6 v6 => match to_ipv4_mapped v6 with Some v4 => V4 v4 | None => V6 v6 end
  end.

Definition matches (rule : Rule) (peer : ip_addr) : bool :=
  match rule, peer with
  | Any, _ => true
  | Loopback, V4 v4 => v4_is_loopback v4
  | Loopback, V6 v6 => v6_is_loopback v6
  | RuleV4 network mask, V4 bits => Z.land bits mask =? Z.land network mask
  | RuleV4 _ _, V6 _ => false
  | RuleV6 network mask, V6 bits => Z.land bits mask =? Z.land network mask
  | RuleV6 _ _, V4 _ => false
  end.

Definition allows (rules : list Rule) (ip : ip_addr) : bool :=
  let peer := normalize_peer ip in
  existsb (fun rule => matches rule peer) rules.

(** One slot of the two compilation loops: part [i] of [n] parts of [w] bits,
    none for a wildcard. *)
Definition add_slot (w ones top : Z) (acc : Z * Z) (islot : nat * option Z) : Z * Z :=
  let '(network, mask) := acc in
  let '(i, slot) := islot in
  let shift := top - w * Z.of_nat i in
  match slot with
  | Some part => (Z.lor network (Z.shiftl part shift), Z.lor mask (Z.shiftl ones shift))
  | None => (network, mask)
  end.

Definition enumerate {A} (l : list A) : list (nat * A) := zip (seq 0 (length l)) l.

Definition rule_from_v4_slots (slots : list (option Z)) : Rule :=
  let '(network, mask) := fold_left (add_slot 8 0xff 24) (enumerate slots) (0, 0) in
  RuleV4 network mask.

Definition rule_from_v6_slots (slots : list (option Z)) : Rule :=
  let '(network, mask) := fold_left (add_slot 16 0xffff 112) (enumerate slots) (0, 0) in
  RuleV6 network mask.

(** The two octets of a hextet slot. *)
Definition to_octets (h : option Z) : list (option Z) :=
  match h with
  | None => [None; None]
  | Some v => [Some (Z.land (Z.shiftr v 8) 255); Some (Z.land v 255)]
  end.

Definition fixed_prefix : list (option Z) :=
  [Some 0; Some 0; Some 0; Some 0; Some 0; Some 0xffff].

Definition split_mapped_v4 (slots : list (option Z)) : option (list (option Z)) :=
  if negb (bool_decide (take 6 slots = fixed_prefix)) then None
  else match drop 6 slots with
  | [hi; lo] => Some (to_octets hi ++ to_octets lo)
  | _ => None
  end.

(** ** Parsing *)

(** The refusals, one constructor per message. *)
Inductive Reason : Type :=
| ListEmpty
| EmptyToken
| NotARule
| TooManyOctets
| ShorthandV4
| BadOctet
| TripleColon
| BadPrefix
| NotMappedPrefix
| TooManyHextets
| ShorthandV6
| BadHextet
| BadCompression.

Record AllowedClientsError : Type := mkAclError { token : str; reason : Reason }.

Definition star : str := lit "*".

Definition parse_v4_octet (component : str) : option Z :=
  if is_empty component || (3 <? str_len component) then None
  else if (1 <? str_len component) && starts_with (lit "0") component then None
  else if negb (forallb is_ascii_digit component) then None
  else parse_uint u8_max component.

Definition octet_slot (token component : str) : result (option Z) AllowedClientsError :=
  if str_eqb component star then Ok None
  else match parse_v4_octet component with
  | Some octet => Ok (Some octet)
  | None => Err (mkAclError token BadOctet)
  end.

Definition parse_ipv4_wildcard (token : str) : result Rule AllowedClientsError :=
  let components := split_on 46 token in
  if (4 <? length components)%nat then Err (mkAclError token TooManyOctets)
  else if (length components <? 4)%nat && negb (str_eqb (default [] (last components)) star)
  then Err (mkAclError token ShorthandV4)
  else
    let? slots := collect (octet_slot token) components in
    Ok (rule_from_v4_slots (slots ++ replicate (4 - length components) None)).

Definition parse_v6_hextet (group : str) : option (option Z) :=
  if str_eqb group star then Some None
  else if is_empty group || (4 <? str_len group) || negb (forallb is_ascii_hexdigit group) then None
  else match from_str_radix u16_max group 16 with
  | Some v => Some (Some v)
  | None => None
  end.

Definition hextet_slot (token group : str) : result (option Z) AllowedClientsError :=
  ok_or (parse_v6_hextet group) (mkAclError token BadHextet).

(** [<[T]>::copy_within] and the fill loop that follows it. *)
Definition copy_within {A} (l : list A) (from until dest : nat) : list A :=
  take dest l ++ take (until - from) (drop from l) ++ drop (dest + (until - from)) l.

Definition fill {A} (l : list A) (from until : nat) (x : A) : list A :=
  take from l ++ replicate (until - from) x ++ drop until l.

Definition groups_of (s : str) : list str := if is_empty s then [] else split_on 58 s.

(** The eight slots of an IPv6 mask. *)
Definition v6_slots (token : str) : result (list (option Z)) AllowedClientsError :=
  match split_once_str (lit "::") token with
  | None =>
      let groups := split_on 58 token in
      if (8 <? length groups)%nat then Err (mkAclError token TooManyHextets)
      else if (length groups <? 8)%nat && negb (str_eqb (default [] (last groups)) star)
      then Err (mkAclError token ShorthandV6)
      else
        let? slots := collect (hextet_slot token) groups in
        Ok (slots ++ replicate (8 - length groups) None)
  | Some (l, r) =>
      let left_groups := groups_of l in
      let right_groups := groups_of r in
      let fixed := (length left_groups + length right_groups)%nat in
      if (8 <=? fixed)%nat then Err (mkAclError token BadCompression)
      else
        let? parts := collect (hextet_slot token) (left_groups ++ right_groups) in
        let slots := parts ++ replicate (8 - fixed) None in
        let right_len := length right_groups in
        let fixed_end := (fixed - right_len)%nat in
        let slots := copy_within slots fixed_end fixed (8 - right_len) in
        Ok (fill slots fixed_end (8 - right_len) (Some 0))
  end.

Definition mapped_segments : list Z := [0; 0; 0; 0; 0; 0xffff; 0; 0].

Definition compile_v6 (token : str) : result Rule AllowedClientsError :=
  let? slots := v6_slots token in
  match split_mapped_v4 slots with
  | Some v4_slots => Ok (rule_from_v4_slots v4_slots)
  | None => Ok (rule_from_v6_slots slots)
  end.

Definition parse_ipv6_wildcard (token : str) : result Rule AllowedClientsError :=
  if contains_str (lit ":::") token then Err (mkAclError token TripleColon)
  else match rsplit_once 58 token with
  | Some (head, tail) =>
      if contains_char 46 tail then
        match ipv6_from_str (head ++ [58] ++ lit "0:0") with
        | None => Err (mkAclError token BadPrefix)
        | Some v6 =>
            if negb (bool_decide (segments v6 = mapped_segments))
            then Err (mkAclError token NotMappedPrefix)
            else parse_ipv4_wildcard tail
        end
      else compile_v6 token
  | None => compile_v6 token
  end.

(** The rule of an exact address; a mapped one becomes its IPv4 rule. *)
Definition exact_rule (ip : ip_addr) : Rule :=
  match ip with
  | V4 v4 => RuleV4 v4 u32_max
  | V6 v6 =>
      match to_ipv4_mapped v6 with
      | Some v4 => RuleV4 v4 u32_max
      | None => RuleV6 v6 u128_max
      end
  end.

Definition parse_token (token : str) : result Rule AllowedClientsError :=
  if is_empty token then Err (mkAclError token EmptyToken)
  else if str_eqb token star then Ok Any
  else if str_eqb token (lit "loopback") then Ok Loopback
  else match ip_from_str token with
  | Some ip => Ok (exact_rule ip)
  | None =>
      if contains_char 58 token then parse_ipv6_wildcard token
      else if contains_char 46 token then parse_ipv4_wildcard token
      else Err (mkAclError token NotARule)
  end.

Definition parse (source : str) : result (list Rule) AllowedClientsError :=
  let tokens := map trim (split_on 44 source) in
  if (length tokens =? 1)%nat && is_empty (default [] (head tokens))
  then Err (mkAclError (trim source) ListEmpty)
  else collect parse_token tokens.

(** ** The validated list *)

Record AllowedClients : Type := mkAllowed { source : str; rules : list Rule }.

Definition allowed_default : AllowedClients := mkAllowed (lit "*") [Any].

Definition allowed_from_str (s : str) : result AllowedClients AllowedClientsError :=
  let? rs := parse s in Ok (mkAllowed s rs).

Definition as_str (a : AllowedClients) : str := source a.
Definition allows_client (a : AllowedClients) (ip : ip_addr) : bool := allows (rules a) ip.

(** ** Endpoints *)

Record Socks5Endpoint : Type := mkEndpoint {
  address : socket_addr;
  username : option str;
  password : option str;
}.

Definition credentials (e : Socks5Endpoint) : option (str * str) :=
  match username e, password e with
  | Some u, Some p => Some (u, p)
  | _, _ => None
  end.

Inductive EndpointError : Type :=
| EmptyOrNone
| BadAddress
| ZeroPort
| NotUserPassword
| BadCredentials.

Definition bad_credentials (u p : str) : bool :=
  contains_char 58 u || contains_char 58 p || contains_char 124 u || contains_char 124 p
  || is_empty u || is_empty p || (255 <? str_len u) || (255 <? str_len p).

Definition endpoint_from_str (value : str) : result Socks5Endpoint EndpointError :=
  let '(addr, creds) := match split_once 124 value with
                        | Some (a, c) => (a, Some c)
                        | None => (value, None)
                        end in
  if str_eqb value (lit "none") || is_empty value then Err EmptyOrNone
  else match socket_from_str addr with
  | None => Err BadAddress
  | Some a =>
      if port a =? 0 then Err ZeroPort
      else match creds with
      | None => Ok (mkEndpoint a None None)
      | Some c =>
          match split_once 58 c with
          | None => Err NotUserPassword
          | Some (u, p) =>
              if bad_credentials u p then Err BadCredentials
              else Ok (mkEndpoint a (Some u) (Some p))
          end
      end
  end.

Definition endpoint_to_string (e : Socks5Endpoint) : str :=
  let addr := socket_to_string (address e) in
  match username e, password e with
  | Some u, Some p => addr ++ [124] ++ u ++ [58] ++ p
  | _, _ => addr
  end.

Inductive EndpointOverride : Type :=
| Disabled
| Endpoint (e : Socks5Endpoint).

Definition resolve_endpoint (global account : option EndpointOverride) : option Socks5Endpoint :=
  match (match account with Some _ => account | None => global end) with
  | Some (Endpoint e) => Some e
  | Some Disabled | None => None
  end.

Definition override_to_string (o : EndpointOverride) : str :=
  match o with
  | Disabled => lit "none"
  | Endpoint e => endpoint_to_string e
  end.

(** [visit_str] of the override's deserializer. *)
Definition override_from_str (value : str) : result EndpointOverride EndpointError :=
  if str_eqb value (lit "none") then Ok Disabled
  else if is_empty value then Err EmptyOrNone
  else let? e := endpoint_from_str value in Ok (Endpoint e).

(** [endpoint_field::serialize] and [endpoint_field::deserialize]. *)
Definition field_to_string (v : option EndpointOverride) : str :=
  match v with
  | None => lit "inherit"
  | Some o => override_to_string o
  end.

Definition field_from_str (value : str) : result (option EndpointOverride) EndpointError :=
  let? o := override_from_str value in Ok (Some o).

(** ** Masks

    The network and mask a compilation loop builds, part by part from the
    left; [bits_rec] is what the remaining parts contribute. *)

Fixpoint bits_rec (w : Z) (ones : Z) (slots : list (option Z)) : Z * Z :=
  match slots with
  | [] => (0, 0)
  | slot :: slots' =>
      let '(network, mask) := bits_rec w ones slots' in
      let shift := w * Z.of_nat (length slots') in
      match slot with
      | Some part => (Z.lor (Z.shiftl part shift) network, Z.lor (Z.shiftl ones shift) mask)
      | None => (network, mask)
      end
  end.

Lemma fold_slots w ones top slots i network mask :
  top = w * Z.of_nat (i + length slots) - w →
  fold_left (add_slot w ones top) (zip (seq i (length slots)) slots) (network, mask) =
    (Z.lor network (bits_rec w ones slots).1, Z.lor mask (bits_rec w ones slots).2).
Proof.
  revert i network mask. induction slots as [|slot slots IH]; intros i network mask Htop.
  { simpl. by rewrite !Z.lor_0_r. }
  cbn [length seq zip zip_with fold_left add_slot bits_rec] in *.
  assert (top - w * Z.of_nat i = w * Z.of_nat (length slots)) as -> by lia.
  destruct slot as [part|]; rewrite IH by lia; destruct (bits_rec w ones slots); simpl;
    by rewrite ?Z.lor_assoc.
Qed.

Lemma testbit_high n s k : 0 ≤ n < 2 ^ s → s ≤ k → Z.testbit n k = false.
Proof.
  intros Hn Hk. destruct (Z.le_gt_cases 0 s) as [Hs|Hs]; [|rewrite Z.pow_neg_r in Hn; lia].
  rewrite <-(Z.mod_small n (2 ^ s)) by done. by apply Z.mod_pow2_bits_high.
Qed.

(** Comparing under a mask with one more part on top. *)
Lemma land_part bits part ones s network mask :
  0 ≤ s → 0 ≤ network < 2 ^ s → 0 ≤ mask < 2 ^ s → Z.land part ones = part →
  Z.land bits (Z.lor (Z.shiftl ones s) mask) =
    Z.land (Z.lor (Z.shiftl part s) network) (Z.lor (Z.shiftl ones s) mask) ↔
  Z.land (Z.shiftr bits s) ones = part ∧ Z.land bits mask = Z.land network mask.
Proof.
  intros Hs Hn Hm Hp. split.
  - intros Heq. split; apply Z.bits_inj'; intros k Hk.
    + apply (f_equal (fun z => Z.testbit z (k + s))) in Heq.
      rewrite !Z.land_spec, !Z.lor_spec, !Z.shiftl_spec, (testbit_high mask s), (testbit_high network s),
        !Z.add_simpl_r, !orb_false_r, <-Z.land_spec, Hp in Heq by lia.
      by rewrite Z.land_spec, Z.shiftr_spec by lia.
    + apply (f_equal (fun z => Z.testbit z k)) in Heq. rewrite !Z.land_spec, !Z.lor_spec in Heq.
      rewrite !Z.land_spec. destruct (Z.lt_ge_cases k s) as [Hlt|Hge].
      * by rewrite !Z.shiftl_spec_low in Heq by lia.
      * by rewrite (testbit_high mask s), !andb_false_r by lia.
  - intros [Hhi Hlo]. apply Z.bits_inj'. intros k Hk. rewrite !Z.land_spec, !Z.lor_spec.
    destruct (Z.lt_ge_cases k s) as [Hlt|Hge].
    + rewrite !Z.shiftl_spec_low by lia. apply (f_equal (fun z => Z.testbit z k)) in Hlo.
      by rewrite !Z.land_spec in Hlo.
    + rewrite !Z.shiftl_spec, (testbit_high mask s), (testbit_high network s), !orb_false_r by lia.
      apply (f_equal (fun z => Z.testbit z (k - s))) in Hhi.
      rewrite Z.land_spec, Z.shiftr_spec, Z.sub_add in Hhi by lia.
      by rewrite Hhi, <-Z.land_spec, Hp.
Qed.

(** Every part of the address that a slot fixes has the slot's value. *)
Fixpoint slots_match (slots : list (option Z)) (parts : list Z) : bool :=
  match slots, parts with
  | [], [] => true
  | slot :: slots', part :: parts' =>
      match slot with Some v => part =? v | None => true end && slots_match slots' parts'
  | _, _ => false
  end.

Definition slots_ok (w : Z) (slots : list (option Z)) : Prop :=
  Forall (fun slot => match slot with Some v => 0 ≤ v < 2 ^ w | None => True end) slots.

Lemma lor_part v x s : 0 ≤ s → 0 ≤ x < 2 ^ s → Z.lor (Z.shiftl v s) x = v * 2 ^ s + x.
Proof.
  intros Hs Hx. assert (Z.land (Z.shiftl v s) x = 0) as Hz.
  { apply Z.bits_inj'. intros k Hk. rewrite Z.land_spec, Z.bits_0.
    destruct (Z.lt_ge_cases k s) as [Hlt|Hge]; [by rewrite Z.shiftl_spec_low by lia|].
    by rewrite (testbit_high x s), andb_false_r by lia. }
  by rewrite <-Z.lxor_lor, <-Z.add_nocarry_lxor, Z.shiftl_mul_pow2 by done.
Qed.

Lemma bits_rec_bounds w slots :
  0 < w → slots_ok w slots →
  0 ≤ (bits_rec w (Z.ones w) slots).1 < 2 ^ (w * Z.of_nat (length slots)) ∧
  0 ≤ (bits_rec w (Z.ones w) slots).2 < 2 ^ (w * Z.of_nat (length slots)).
Proof.
  intros Hw Hs. induction Hs as [|slot slots Hslot Hs IH].
  { simpl. rewrite Z.mul_0_r. lia. }
  cbn [bits_rec length]. destruct (bits_rec w (Z.ones w) slots) as [network mask]. simpl in IH.
  rewrite Nat2Z.inj_succ, Z.mul_succ_r, Z.pow_add_r by lia.
  pose proof (Z.pow_pos_nonneg 2 (w * Z.of_nat (length slots)) eq_refl ltac:(lia)) as Hpow.
  destruct IH as [Hn Hm]. destruct slot as [v|]; simpl.
  - rewrite !lor_part, Z.ones_equiv by lia. pose proof (Z.pow_pos_nonneg 2 w eq_refl). nia.
  - pose proof (Z.pow_pos_nonneg 2 w eq_refl). nia.
Qed.

Lemma masked_match w slots bits :
  0 < w → slots_ok w slots →
  (Z.land bits (bits_rec w (Z.ones w) slots).2 =?
   Z.land (bits_rec w (Z.ones w) slots).1 (bits_rec w (Z.ones w) slots).2) =
  slots_match slots (parts_of w (length slots) bits).
Proof.
  intros Hw Hs. induction Hs as [|slot slots Hslot Hs IH]; [simpl; by rewrite Z.land_0_r|].
  pose proof (bits_rec_bounds w slots Hw Hs) as [Hn Hm].
  unfold parts_of in *. cbn [length]. rewrite seq_S, rev_app_distr. cbn [rev app map slots_match bits_rec Nat.add].
  destruct (bits_rec w (Z.ones w) slots) as [network mask]. simpl in IH, Hn, Hm.
  destruct slot as [v|]; simpl; [|done]. rewrite <-IH. apply eq_bool_prop_intro.
  rewrite andb_True, !Is_true_true, !Z.eqb_eq. apply land_part; [lia|done|done|].
  rewrite Z.land_ones, Z.mod_small by lia. done.
Qed.

Lemma v4_rule_matches slots bits :
  length slots = 4%nat → slots_ok 8 slots →
  matches (rule_from_v4_slots slots) (V4 bits) = slots_match slots (octets4 bits).
Proof.
  intros Hl Hs. unfold rule_from_v4_slots, enumerate.
  rewrite fold_slots by (rewrite Hl; done). rewrite !Z.lor_0_l. simpl matches.
  change 0xff with (Z.ones 8). rewrite masked_match by done.
  by rewrite Hl, parts_of_octets.
Qed.

Lemma v4_rule_not_v6 slots bits : matches (rule_from_v4_slots slots) (V6 bits) = false.
Proof. unfold rule_from_v4_slots. by destruct (fold_left _ _ _). Qed.

Lemma v6_rule_not_v4 slots bits : matches (rule_from_v6_slots slots) (V4 bits) = false.
Proof. unfold rule_from_v6_slots. by destruct (fold_left _ _ _). Qed.

Lemma v6_rule_matches slots bits :
  length slots = 8%nat → slots_ok 16 slots →
  matches (rule_from_v6_slots slots) (V6 bits) = slots_match slots (segments bits).
Proof.
  intros Hl Hs. unfold rule_from_v6_slots, enumerate.
  rewrite fold_slots by (rewrite Hl; done). rewrite !Z.lor_0_l. simpl matches.
  change 0xffff with (Z.ones 16). rewrite masked_match by done.
  by rewrite Hl, parts_of_segments.
Qed.

(** ** Mapped addresses *)

Lemma normalize_mapped v4 : in_u u32_max v4 → normalize_peer (V6 (mapped v4)) = V4 v4.
Proof. intros Hv. unfold normalize_peer. by rewrite to_ipv4_mapped_mapped. Qed.

Lemma normalize_ok peer :
  ip_ok peer →
  match normalize_peer peer with V4 v => in_u u32_max v | V6 b => to_ipv4_mapped b = None end.
Proof.
  intros Hp. destruct peer as [v|b]; [exact Hp|]. unfold normalize_peer.
  destruct (to_ipv4_mapped b) as [v|] eqn:Hb; [|exact Hb].
  by apply to_ipv4_mapped_Some in Hb as [_ ?].
Qed.

Lemma hextet_octets h x y :
  match h with Some v => 0 ≤ v < 2 ^ 16 | None => True end →
  0 ≤ x < 256 → 0 ≤ y < 256 → 
  slots_match (to_octets h) [x; y] = match h with Some v => x * 256 + y =? v | None => true end.
Proof.
  intros Hh Hx Hy. destruct h as [v|]; [|done]. cbn [to_octets slots_match].
  change 255 with (Z.ones 8). rewrite !Z.land_ones, Z.shiftr_div_pow2, andb_true_r by lia.
  apply eq_bool_prop_intro. rewrite andb_True, !Is_true_true, !Z.eqb_eq.
  change (2 ^ 8) with 256. change (2 ^ 16) with 65536 in Hh. Z.div_mod_to_equations; lia.
Qed.

Lemma slots_match_app s1 s2 p1 p2 :
  length s1 = length p1 →
  slots_match (s1 ++ s2) (p1 ++ p2) = slots_match s1 p1 && slots_match s2 p2.
Proof.
  revert p1. induction s1 as [|x s1 IH]; intros [|y p1]; simpl; try done.
  intros [= Hl]. by rewrite IH, andb_assoc.
Qed.

Lemma split_mapped_spec slots s4 :
  split_mapped_v4 slots = Some s4 →
  ∃ hi lo, slots = fixed_prefix ++ [hi; lo] ∧ s4 = to_octets hi ++ to_octets lo.
Proof.
  unfold split_mapped_v4. case_bool_decide as Hp; [|done]. simpl.
  destruct (drop 6 slots) as [|hi [|lo [|]]] eqn:Hd; try done. intros [= <-].
  exists hi, lo. split; [|done]. rewrite <-(take_drop 6 slots), Hp, Hd. done.
Qed.

Lemma to_octets_ok h :
  match h with Some v => 0 ≤ v < 2 ^ 16 | None => True end → slots_ok 8 (to_octets h).
Proof.
  intros Hh. destruct h as [v|]; repeat constructor; change 255 with (Z.ones 8);
    rewrite Z.land_ones by done; apply Z.mod_pos_bound; lia.
Qed.

Lemma split_mapped_ok slots s4 :
  split_mapped_v4 slots = Some s4 → slots_ok 16 slots → slots_ok 8 s4.
Proof.
  intros (hi & lo & -> & ->)%split_mapped_spec Hok. apply Forall_app in Hok as [_ Hok].
  inversion_clear Hok as [|? ? Hhi Hok']. inversion_clear Hok' as [|? ? Hlo _].
  apply Forall_app. split; by apply to_octets_ok.
Qed.

Lemma split_mapped_match slots s4 v4 :
  split_mapped_v4 slots = Some s4 → slots_ok 16 slots → in_u u32_max v4 →
  slots_match s4 (octets4 v4) = slots_match slots (segments (mapped v4)).
Proof.
  intros (hi & lo & -> & ->)%split_mapped_spec Hok Hv. rewrite mapped_segments_eq by done.
  apply Forall_app in Hok as [_ Hok]. inversion_clear Hok as [|? ? Hhi Hok'].
  inversion_clear Hok' as [|? ? Hlo _].
  change [0; 0; 0; 0; 0; 65535; v4 / 65536; v4 mod 65536]
    with ([0; 0; 0; 0; 0; 65535] ++ [v4 / 65536; v4 mod 65536]).
  rewrite slots_match_app by done. rewrite octets_div.
  change (map (fun d => (v4 / 2 ^ d) mod 256) [24; 16; 8; 0])
    with ([(v4 / 16777216) mod 256; (v4 / 65536) mod 256]
          ++ [(v4 / 256) mod 256; (v4 / 1) mod 256]).
  rewrite slots_match_app by by destruct hi. rewrite !hextet_octets by (done || by apply Z.mod_pos_bound).
  simpl slots_match. unfold in_u, u32_max in Hv. rewrite andb_true_r.
  assert ((v4 / 16777216) mod 256 * 256 + (v4 / 65536) mod 256 = v4 / 65536) as ->
    by (Z.div_mod_to_equations; lia).
  assert ((v4 / 256) mod 256 * 256 + (v4 / 1) mod 256 = v4 mod 65536) as ->
    by (Z.div_mod_to_equations; lia).
  by destruct hi, lo.
Qed.

(** ** The text of a pattern *)

Definition print_octet (slot : option Z) : str :=
  match slot with Some o => to_dec o | None => star end.
Definition print_v4 (slots : list (option Z)) : str := join [46] (map print_octet slots).

Definition print_hextet (slot : option Z) : str :=
  match slot with Some h => to_hex16 h | None => star end.
Definition print_v6 (slots : list (option Z)) : str := join [58] (map print_hextet slots).

Lemma collect_map {A B E} (f : A → result B E) (g : B → A) l :
  (∀ x, x ∈ l → f (g x) = Ok x) → collect f (map g l) = Ok l.
Proof.
  induction l as [|x l IH]; intros Hf; simpl; [done|].
  rewrite Hf by left. simpl. rewrite IH; [done|]. intros y Hy. apply Hf. by right.
Qed.

Lemma parse_v4_octet_print o : 0 ≤ o < 256 → parse_v4_octet (to_dec o) = Some o ∧ to_dec o ≠ star.
Proof.
  intros Ho. assert (forallb (fun n => bool_decide (parse_v4_octet (to_dec (Z.of_nat n)) = Some (Z.of_nat n))
    && negb (str_eqb (to_dec (Z.of_nat n)) star)) (seq 0 256) = true) as Hall
    by (vm_compute; reflexivity).
  rewrite forallb_forall in Hall. specialize (Hall (Z.to_nat o)). rewrite in_seq in Hall.
  rewrite Z2Nat.id in Hall by lia. specialize (Hall ltac:(lia)). boolprop. split; [done|].
  match goal with H : str_eqb _ _ = false |- _ => by apply bool_decide_eq_false_1 in H end.
Qed.

Lemma octet_slot_print token slot :
  match slot with Some v => 0 ≤ v < 2 ^ 8 | None => True end →
  octet_slot token (print_octet slot) = Ok slot.
Proof.
  intros Hs. unfold octet_slot. destruct slot as [o|]; [|done]. simpl.
  destruct (parse_v4_octet_print o Hs) as [-> Hne]. unfold str_eqb. by rewrite bool_decide_false.
Qed.

Lemma print_octet_chars slot c :
  match slot with Some v => 0 ≤ v < 2 ^ 8 | None => True end →
  c ∈ print_octet slot → c = 42 ∨ 48 ≤ c ≤ 57.
Proof.
  intros Hs Hin. destruct slot as [o|]; [right; eapply to_dec_chars; [|exact Hin]; lia|].
  apply list_elem_of_singleton in Hin as ->. by left.
Qed.

Lemma print_v4_chars slots c :
  slots_ok 8 slots → c ∈ print_v4 slots → c = 46 ∨ c = 42 ∨ 48 ≤ c ≤ 57.
Proof.
  intros Hs [->|(w & Hw & Hc)]%elem_of_join; [by left|right].
  apply list_elem_of_fmap in Hw as (slot & -> & Hslot). unfold slots_ok in Hs.
  rewrite Forall_forall in Hs. exact (print_octet_chars slot c (Hs _ Hslot) Hc).
Qed.

(** The slots a pattern stands for: a shorthand is padded with wildcards. *)
Definition pad4 (slots : list (option Z)) : list (option Z) :=
  slots ++ replicate (4 - length slots) None.

Definition v4_pattern (slots : list (option Z)) : Prop :=
  (2 ≤ length slots ≤ 4)%nat ∧ slots_ok 8 slots ∧
  ((length slots < 4)%nat → last slots = Some None).

Lemma split_print_v4 slots :
  slots ≠ [] → slots_ok 8 slots → split_on 46 (print_v4 slots) = map print_octet slots.
Proof.
  intros Hne Hs. apply split_on_join; [by destruct slots|]. apply Forall_forall.
  intros w (slot & -> & Hslot)%list_elem_of_fmap. apply Forall_forall. intros c Hc.
  unfold slots_ok in Hs. rewrite Forall_forall in Hs.
  destruct (print_octet_chars slot c (Hs _ Hslot) Hc); apply Z.eqb_neq; lia.
Qed.

Lemma parse_ipv4_wildcard_print slots :
  v4_pattern slots → parse_ipv4_wildcard (print_v4 slots) = Ok (rule_from_v4_slots (pad4 slots)).
Proof.
  intros (Hl & Hs & Hlast). unfold parse_ipv4_wildcard.
  rewrite split_print_v4 by (done || (destruct slots; simpl in *; [lia|done])). rewrite length_map.
  destruct (Nat.ltb_spec 4 (length slots)); [lia|].
  change (map print_octet slots) with (print_octet <$> slots). rewrite fmap_last.
  change (print_octet <$> slots) with (map print_octet slots). assert ((length slots <? 4)%nat &&
    negb (str_eqb (default [] (print_octet <$> last slots)) star) = false) as ->.
  { destruct (Nat.ltb_spec (length slots) 4) as [Hlt|]; [|done]. by rewrite Hlast. }
  rewrite collect_map; [done|]. intros slot Hslot. unfold slots_ok in Hs.
  rewrite Forall_forall in Hs. by apply octet_slot_print, Hs.
Qed.

Lemma elem_of_join_2 sep l w c : w ∈ l → c ∈ w → c ∈ join [sep] l.
Proof.
  induction l as [|v l IH]; [by intros ?%elem_of_nil|]. intros Hw Hc. destruct l as [|v' l].
  { apply list_elem_of_singleton in Hw as ->. done. }
  change (join [sep] (v :: v' :: l)) with (v ++ sep :: join [sep] (v' :: l)).
  rewrite elem_of_app, elem_of_cons. apply elem_of_cons in Hw as [->|Hw]; auto.
Qed.

Lemma print_v4_dot slots : (2 ≤ length slots)%nat → 46 ∈ print_v4 slots.
Proof.
  destruct slots as [|a [|b slots]]; simpl; [lia|lia|intros _]. unfold print_v4.
  change (join [46] (map print_octet (a :: b :: slots)))
    with (print_octet a ++ 46 :: join [46] (map print_octet (b :: slots))).
  apply elem_of_app. right. left.
Qed.

Lemma print_v4_star slots : None ∈ slots → 42 ∈ print_v4 slots.
Proof.
  intros Hn. apply (elem_of_join_2 46 _ star); [|left]. exact (list_elem_of_fmap_2 print_octet slots None Hn).
Qed.

Lemma print_v4_no_colon slots : slots_ok 8 slots → 58 ∉ print_v4 slots.
Proof. intros Hs Hin. destruct (print_v4_chars slots 58 Hs Hin) as [|[|]]; lia. Qed.

Lemma star_foreign : foreign 42.
Proof. done. Qed.

Lemma rsplit_once_app c a b : c ∉ b → rsplit_once c (a ++ c :: b) = Some (a, b).
Proof.
  intros Hc. assert (rsplit_once c b = None) as Hb.
  { induction b as [|x b IH]; simpl; [done|]. apply not_elem_of_cons in Hc as [Hx Hc].
    rewrite IH by done. destruct (Z.eqb_spec x c); [congruence|done]. }
  induction a as [|x a IH]; simpl; [by rewrite Hb, Z.eqb_refl|by rewrite IH].
Qed.

Lemma no_triple_colon t : 58 ∉ t → contains_str (lit ":::") t = false.
Proof.
  intros Ht. change (lit ":::") with [58; 58; 58]. induction t as [|x t IH]; [done|].
  cbn [contains_str]. apply not_elem_of_cons in Ht as Ht'. rewrite IH by apply Ht'. unfold starts_with. cbn [strip_prefix].
  destruct (Z.eqb_spec 58 x) as [<-|]; [|done]. exfalso. apply Ht. left.
Qed.

Lemma mapped_no_triple t : 58 ∉ t → contains_str (lit ":::") (lit "::ffff:" ++ t) = false.
Proof.
  intros Ht. pose proof (no_triple_colon t Ht) as Hn.
  change (lit "::ffff:" ++ t) with (58 :: 58 :: 102 :: 102 :: 102 :: 102 :: 58 :: t).
  change (lit ":::") with [58; 58; 58] in *.
  cbn [contains_str]. rewrite Hn. destruct t as [|x t]; [done|].
  unfold starts_with. cbn [strip_prefix]. destruct (Z.eqb_spec 58 x) as [<-|]; [|done]. exfalso. apply Ht. left.
Qed.

(** Tokens with a dot are none of the keywords. *)
Lemma parse_token_address token :
  46 ∈ token →
  parse_token token =
    match ip_from_str token with
    | Some ip => Ok (exact_rule ip)
    | None => if contains_char 58 token then parse_ipv6_wildcard token else parse_ipv4_wildcard token
    end.
Proof.
  intros Hd%contains_char_spec. unfold parse_token. rewrite Hd.
  destruct token as [|c token]; [done|]. cbn [is_empty]. unfold str_eqb.
  rewrite !bool_decide_false; [done| |]; intros Heq; rewrite Heq in Hd; discriminate.
Qed.

Lemma parse_token_v4_pattern slots :
  v4_pattern slots → None ∈ slots →
  parse_token (print_v4 slots) = Ok (rule_from_v4_slots (pad4 slots)) ∧
  parse_token (lit "::ffff:" ++ print_v4 slots) = Ok (rule_from_v4_slots (pad4 slots)).
Proof.
  intros Hp Hn. pose proof Hp as (Hl & Hs & _).
  pose proof (print_v4_dot slots ltac:(lia)) as Hdot. pose proof (print_v4_star slots Hn) as Hstar.
  pose proof (print_v4_no_colon slots Hs) as Hcol.
  rewrite !parse_token_address by (rewrite ?elem_of_app; auto).
  rewrite !(ip_from_str_foreign _ 42) by (rewrite ?elem_of_app; auto using star_foreign).
  assert (contains_char 58 (print_v4 slots) = false) as ->.
  { apply not_true_is_false. by rewrite contains_char_spec. }
  assert (contains_char 58 (lit "::ffff:" ++ print_v4 slots) = true) as -> by done.
  rewrite parse_ipv4_wildcard_print by done. split; [done|].
  unfold parse_ipv6_wildcard. rewrite mapped_no_triple by done.
  change (lit "::ffff:" ++ print_v4 slots) with (lit "::ffff" ++ 58 :: print_v4 slots).
  rewrite rsplit_once_app by done. rewrite (proj2 (contains_char_spec 46 _) Hdot).
  assert (ipv6_from_str (lit "::ffff" ++ [58] ++ lit "0:0") = Some (0xffff * 2 ^ 32)) as ->
    by (vm_compute; reflexivity).
  assert (segments (0xffff * 2 ^ 32) = mapped_segments) as -> by (vm_compute; reflexivity).
  rewrite bool_decide_true by done. simpl. by apply parse_ipv4_wildcard_print.
Qed.

Lemma exact_v4_match v bits :
  in_u u32_max v → in_u u32_max bits →
  matches (RuleV4 v u32_max) (V4 bits) = slots_match (map Some (octets4 v)) (octets4 bits).
Proof.
  intros Hv Hb. assert (∀ x, in_u u32_max x → Z.land x u32_max = x) as Hland.
  { intros x Hx. change u32_max with (Z.ones 32). rewrite Z.land_ones by done.
    apply Z.mod_small. unfold in_u, u32_max in Hx. lia. }
  cbn [matches]. rewrite !Hland by done. apply eq_bool_prop_intro. rewrite !Is_true_true, Z.eqb_eq.
  assert (∀ a b, length a = length b → slots_match (map Some a) b = true ↔ b = a) as Hm.
  { induction a as [|x a IH]; intros [|y b]; simpl; try done. intros [= Hl].
    rewrite andb_true_iff, Z.eqb_eq, IH by done. split; [by intros [-> ->]|by intros [= -> ->]]. }
  rewrite Hm by done. split; [by intros ->|].
  intros Ho. by rewrite <-(of_octets_octets4 bits Hb), Ho, of_octets_octets4.
Qed.

(** A full pattern without wildcards is the text of an address. *)
Lemma exact_v4_pattern slots :
  v4_pattern slots → None ∉ slots →
  ∃ v, in_u u32_max v ∧ map Some (octets4 v) = pad4 slots ∧ print_v4 slots = ipv4_to_string v.
Proof.
  intros (Hl & Hs & Hlast) Hn. destruct (decide (length slots < 4)%nat) as [Hlt|Hge].
  { exfalso. apply Hn. specialize (Hlast Hlt). by apply last_Some_elem_of. }
  destruct slots as [|[a|] [|[b|] [|[c|] [|[d|] [|]]]]]; simpl in Hl, Hge; try lia;
    try (exfalso; apply Hn; rewrite !elem_of_cons; tauto).
  inversion_clear Hs as [|? ? Ha Hs1]. inversion_clear Hs1 as [|? ? Hb Hs2].
  inversion_clear Hs2 as [|? ? Hc Hs3]. inversion_clear Hs3 as [|? ? Hd _].
  change (2 ^ 8) with 256 in *. set (v := ((a * 256 + b) * 256 + c) * 256 + d).
  assert (octets4 v = [a; b; c; d]) as Ho.
  { rewrite octets_div. unfold v. simpl map.
    repeat (apply (f_equal2 (@cons Z)); [Z.div_mod_to_equations; lia|]). done. }
  exists v. unfold ipv4_to_string. rewrite Ho. split_and!; [|done|done].
  unfold in_u, u32_max, v. lia.
Qed.

Lemma exact_token v : in_u u32_max v → parse_token (ipv4_to_string v) = Ok (RuleV4 v u32_max).
Proof.
  intros Hv. rewrite parse_token_address.
  - pose proof (ip_text_round_trip (V4 v) Hv) as Hr. cbn [ip_to_string] in Hr. by rewrite Hr.
  - unfold ipv4_to_string, octets4. cbn [map join]. apply elem_of_app. right. left.
Qed.

Lemma exact_mapped_token v :
  in_u u32_max v → parse_token (lit "::ffff:" ++ ipv4_to_string v) = Ok (RuleV4 v u32_max).
Proof.
  intros Hv. rewrite parse_token_address.
  - unfold ip_from_str, parse_all, read_ip_addr.
    rewrite stops_ipv4 by done. pose proof (read_mapped_text v [] Hv I) as Hr.
    rewrite app_nil_r in Hr. rewrite Hr. unfold exact_rule. by rewrite to_ipv4_mapped_mapped.
  - apply elem_of_app. right. unfold ipv4_to_string, octets4. cbn [map join].
    apply elem_of_app. right. left.
Qed.

(** ** Compressed IPv6 masks *)

Lemma hex_digit_ascii d :
  0 ≤ d < 16 → 0 ≤ hex_digit d < 128 ∧ is_ascii_hexdigit (hex_digit d) = true ∧
    hex_digit d ≠ 42 ∧ hex_digit d ≠ 43 ∧ hex_digit d ≠ 45 ∧ hex_digit d ≠ 58.
Proof.
  intros Hd. unfold is_ascii_hexdigit, is_ascii_digit, hex_digit.
  destruct (Z.ltb_spec d 10); split_and!; lia.
Qed.

Lemma parse_hex_digits ds acc mx :
  Forall (fun d => 0 ≤ d < 16) ds → 0 ≤ acc →
  foldl (fun a d => a * 16 + d) acc ds ≤ mx →
  acc ≤ foldl (fun a d => a * 16 + d) acc ds ∧
  parse_digits 16 mx acc (map hex_digit ds) = Some (foldl (fun a d => a * 16 + d) acc ds).
Proof.
  intros Hds. revert acc. induction Hds as [|d ds Hd Hds IH]; intros acc Hacc Hmx; simpl in *; [done|].
  destruct (IH (acc * 16 + d) ltac:(lia) Hmx) as [Hge Hp]. rewrite to_digit_hex by done.
  destruct (Z.leb_spec (acc * 16 + d) mx); [|lia]. split; [lia|done].
Qed.

Lemma parse_v6_hextet_print h : 0 ≤ h < 65536 → parse_v6_hextet (to_hex16 h) = Some (Some h).
Proof.
  intros Hh. destruct (to_hex16_digits h Hh) as (ds & -> & Hds & Hl & Hv).
  destruct ds as [|d ds]; [simpl in Hl; lia|]. pose proof Hds as Hds'.
  inversion_clear Hds' as [|? ? Hd Hds'']. destruct (hex_digit_ascii d Hd) as (_ & _ & H42 & H43 & H45 & _).
  unfold parse_v6_hextet, str_eqb. rewrite bool_decide_false by (simpl; by intros [= ? _]).
  rewrite str_len_ascii, length_map.
  2: { apply Forall_fmap. apply (Forall_impl _ _ _ Hds). intros x Hx. by apply hex_digit_ascii. }
  assert (forallb is_ascii_hexdigit (map hex_digit (d :: ds)) = true) as ->.
  { apply forallb_forall. intros c (x & <- & Hx)%in_map_iff. rewrite Forall_forall in Hds.
    apply hex_digit_ascii, Hds, list_elem_of_In, Hx. }
  destruct (Z.ltb_spec 4 (Z.of_nat (length (d :: ds)))); [lia|]. cbn [is_empty map orb negb].
  unfold from_str_radix. destruct (Z.eqb_spec (hex_digit d) 43), (Z.eqb_spec (hex_digit d) 45);
    try done. cbn [orb]. change (hex_digit d :: map hex_digit ds) with (map hex_digit (d :: ds)).
  unfold digits_value in Hv.
  destruct (parse_hex_digits (d :: ds) 0 u16_max Hds) as [_ ->]; [lia|unfold u16_max; lia|].
  by rewrite Hv.
Qed.

Definition hextet_ok (slot : option Z) : Prop :=
  match slot with Some v => 0 ≤ v < 2 ^ 16 | None => True end.

Lemma hextet_slot_print token slot :
  hextet_ok slot → hextet_slot token (print_hextet slot) = Ok slot.
Proof.
  intros Hs. unfold hextet_slot. destruct slot as [h|]; [|done]. simpl print_hextet.
  by rewrite parse_v6_hextet_print.
Qed.

Lemma print_hextet_word slot :
  hextet_ok slot → print_hextet slot ≠ [] ∧ 58 ∉ print_hextet slot.
Proof.
  intros Hs. destruct slot as [h|]; [|split; [done|set_solver]].
  destruct (to_hex16_digits h Hs) as (ds & Heq & Hds & Hl & _). simpl print_hextet. rewrite Heq.
  split; [destruct ds; simpl in *; [lia|done]|].
  intros (d & Hc & Hd)%list_elem_of_fmap. rewrite Forall_forall in Hds.
  destruct (hex_digit_ascii d (Hds d Hd)) as (_ & _ & _ & _ & _ & H58). congruence.
Qed.

Lemma split_once_word w s :
  58 ∉ w →
  split_once_str (lit "::") (w ++ s) =
    match split_once_str (lit "::") s with Some (a, b) => Some (w ++ a, b) | None => None end.
Proof.
  intros Hw. change (lit "::") with [58; 58]. induction w as [|x w IH]; simpl app.
  { by destruct (split_once_str _ s) as [[]|]. }
  apply not_elem_of_cons in Hw as [Hx Hw]. cbn [split_once_str strip_prefix].
  destruct (Z.eqb_spec 58 x); [done|]. rewrite IH by done.
  by destruct (split_once_str [58; 58] s) as [[]|].
Qed.

(** The first double colon of a text of words is the one after them. *)
Lemma split_once_join ws r :
  Forall (fun w => w ≠ [] ∧ 58 ∉ w) ws →
  split_once_str (lit "::") (join [58] ws ++ 58 :: 58 :: r) = Some (join [58] ws, r).
Proof.
  assert (split_once_str (lit "::") (58 :: 58 :: r) = Some ([], r)) as Hend by done.
  intros Hws. induction Hws as [|w ws [Hne Hw] Hws IH]; [done|]. destruct ws as [|w' ws].
  { simpl join. rewrite split_once_word, Hend by done. by rewrite app_nil_r. }
  change (join [58] (w :: w' :: ws)) with (w ++ 58 :: join [58] (w' :: ws)).
  rewrite <-app_assoc, split_once_word by done. cbn [app].
  assert (∃ x t, join [58] (w' :: ws) ++ 58 :: 58 :: r = x :: t ∧ x ≠ 58) as (x & t & Hx & H58).
  { inversion_clear Hws as [|? ? [Hne' Hw'] _]. destruct w' as [|x w']; [done|].
    apply not_elem_of_cons in Hw' as [Hx _]. destruct ws; simpl; eauto. }
  change (lit "::") with [58; 58] in *. cbn [split_once_str].
  rewrite IH, Hx. cbn [strip_prefix]. rewrite Z.eqb_refl.
  by destruct (Z.eqb_spec 58 x); [congruence|].
Qed.

Lemma groups_of_print slots :
  Forall hextet_ok slots → groups_of (print_v6 slots) = map print_hextet slots.
Proof.
  intros Hs. unfold groups_of. destruct slots as [|slot slots]; [done|].
  assert (Forall (fun w => w ≠ [] ∧ 58 ∉ w) (map print_hextet (slot :: slots))) as Hw
    by (apply Forall_fmap; apply (Forall_impl _ _ _ Hs); intros x; apply print_hextet_word).
  assert (is_empty (print_v6 (slot :: slots)) = false) as ->.
  { inversion_clear Hw as [|? ? [Hne _] _]. unfold print_v6. simpl map.
    destruct (print_hextet slot) as [|c w]; [done|]. by destruct slots. }
  apply split_on_join; [done|]. apply (Forall_impl _ _ _ Hw). intros w [_ Hw58].
  apply Forall_forall. intros c Hc. apply Z.eqb_neq. by intros <-.
Qed.

(** The two array moves put the zeros between the two sides. *)
Lemma expand_slots {A} (l r : list A) (none zero : A) :
  (length l + length r ≤ 7)%nat →
  let n := (length l + length r)%nat in
  let slots := (l ++ r) ++ replicate (8 - n) none in
  fill (copy_within slots (n - length r) n (8 - length r)) (n - length r) (8 - length r) zero =
    l ++ replicate (8 - n) zero ++ r.
Proof.
  intros Hn n slots. unfold fill, copy_within.
  replace (n - length r)%nat with (length l) by (unfold n; lia).
  assert (length slots = 8%nat) as H8
    by (unfold slots; rewrite !length_app, length_replicate; unfold n; lia).
  assert (take (n - length l) (drop (length l) slots) = r) as ->.
  { unfold slots. rewrite <-app_assoc, drop_app_length.
    replace (n - length l)%nat with (length r) by (unfold n; lia). apply take_app_length. }
  assert (drop (8 - length r + (n - length l)) slots = []) as ->
    by (apply drop_ge; rewrite H8; unfold n; lia).
  rewrite app_nil_r. f_equal; [|f_equal].
  - rewrite take_app_le by (rewrite length_take, H8; lia).
    rewrite take_take, Nat.min_l by lia. unfold slots. by rewrite <-app_assoc, take_app_length.
  - f_equal. unfold n. lia.
  - rewrite drop_app_ge; rewrite length_take, H8, Nat.min_l by lia; [|done]. by rewrite Nat.sub_diag.
Qed.

Lemma v6_slots_compressed l r :
  (length l + length r ≤ 7)%nat → Forall hextet_ok (l ++ r) →
  v6_slots (print_v6 l ++ lit "::" ++ print_v6 r) =
    Ok (l ++ replicate (8 - (length l + length r)) (Some 0) ++ r).
Proof.
  intros Hn Hok. pose proof Hok as [Hl Hr]%Forall_app. unfold v6_slots.
  change (lit "::" ++ print_v6 r) with (58 :: 58 :: print_v6 r). unfold print_v6 at 1.
  rewrite split_once_join
    by (apply Forall_fmap; apply (Forall_impl _ _ _ Hl); intros x; apply print_hextet_word).
  fold (print_v6 l). rewrite !groups_of_print by done. rewrite !length_map.
  destruct (Nat.leb_spec 8 (length l + length r)); [lia|]. rewrite <-map_app, collect_map.
  - simpl rbind. by rewrite (expand_slots l r None (Some 0)).
  - intros slot Hin. rewrite Forall_forall in Hok. by apply hextet_slot_print, Hok.
Qed.

(** What a compiled IPv6 mask admits: other IPv6 peers by their segments, IPv4
    peers (mapped ones included) only when the mask spells the mapped prefix. *)
Definition v6_mask_admits (slots : list (option Z)) (peer : ip_addr) : bool :=
  match peer with
  | V6 b => slots_match slots (segments b)
  | V4 v => bool_decide (take 6 slots = fixed_prefix) && slots_match slots (segments (mapped v))
  end.

Lemma fixed_prefix_match l parts :
  slots_match (fixed_prefix ++ l) parts = true → take 6 parts = [0; 0; 0; 0; 0; 65535].
Proof.
  intros Hm. unfold fixed_prefix in Hm.
  do 6 (destruct parts as [|? parts]; [simpl in Hm; by rewrite ?andb_false_r in Hm|]).
  simpl in Hm. boolprop. by subst.
Qed.

Lemma compile_v6_admits token slots :
  v6_slots token = Ok slots → length slots = 8%nat → slots_ok 16 slots →
  ∃ rule, compile_v6 token = Ok rule ∧
    ∀ peer, ip_ok peer → matches rule (normalize_peer peer) = v6_mask_admits slots (normalize_peer peer).
Proof.
  intros Hv Hl Hok. unfold compile_v6. rewrite Hv. simpl.
  destruct (split_mapped_v4 slots) as [s4|] eqn:Hs4; eexists; (split; [done|]);
    intros peer Hp; pose proof (normalize_ok peer Hp) as Hnorm; destruct (normalize_peer peer) as [v|b]; simpl v6_mask_admits.
  - pose proof (split_mapped_spec _ _ Hs4) as (hi & lo & Hslots & ->).
    rewrite v4_rule_matches, (split_mapped_match slots) by
      (done || (by destruct hi, lo) || eapply split_mapped_ok; eauto).
    rewrite bool_decide_true; [done|]. by rewrite Hslots.
  - pose proof (split_mapped_spec _ _ Hs4) as (hi & lo & -> & ->). rewrite v4_rule_not_v6. symmetry.
    apply not_true_is_false. intros Hm%fixed_prefix_match. unfold to_ipv4_mapped in Hnorm.
    by rewrite bool_decide_true in Hnorm.
  - rewrite v6_rule_not_v4. unfold split_mapped_v4 in Hs4.
    case_bool_decide as Hpre; [|done]. simpl in Hs4. exfalso.
    assert (length (drop 6 slots) = 2%nat) as Hd by (rewrite length_drop; lia).
    by destruct (drop 6 slots) as [|? [|? [|]]].
  - by apply v6_rule_matches.
Qed.

(** ** Endpoints *)

Definition endpoint_ok (e : Socks5Endpoint) : Prop :=
  socket_ok (address e) ∧ port (address e) ≠ 0 ∧
  match username e, password e with
  | None, None => True
  | Some u, Some p => bad_credentials u p = false
  | _, _ => False
  end.

Lemma bar_not_in_address a : socket_ok a → 124 ∉ socket_to_string a.
Proof.
  intros Ha Hin. destruct (socket_address_char a 124 Ha Hin) as [[d Hd]|Hp]; [done|].
  by repeat (apply elem_of_cons in Hp as [?|Hp]; [done|]); apply elem_of_nil in Hp.
Qed.

Lemma socket_text_not_keyword a s :
  socket_ok a → socket_to_string a ++ s ≠ lit "none" ∧ socket_to_string a ++ s ≠ [].
Proof.
  intros Ha. assert (∃ c t, socket_to_string a = c :: t ∧ c ≠ 110) as (c & t & -> & Hc).
  { destruct (socket_to_string a) as [|c t] eqn:Ht.
    - pose proof (socket_text_round_trip a Ha) as Hr. by rewrite Ht in Hr.
    - exists c, t. split; [done|]. intros ->.
      assert (110 ∈ socket_to_string a) as Hin by (rewrite Ht; left).
      destruct (socket_address_char a 110 Ha Hin) as [[d Hd]|Hp]; [done|].
      by repeat (apply elem_of_cons in Hp as [?|Hp]; [done|]); apply elem_of_nil in Hp. }
  split; [|done]. intros [= -> _]. done.
Qed.

Lemma split_once_app c a b : c ∉ a → split_once c (a ++ c :: b) = Some (a, b).
Proof.
  induction a as [|x a IH]; intros Ha; simpl; [by rewrite Z.eqb_refl|].
  apply not_elem_of_cons in Ha as [Hx Ha]. rewrite IH by done.
  destruct (Z.eqb_spec x c); [congruence|done].
Qed.

Lemma endpoint_round_trip_str e : endpoint_ok e → endpoint_from_str (endpoint_to_string e) = Ok e.
Proof.
  intros (Ha & Hport & Hc). destruct e as [a u p]. simpl in *. unfold endpoint_to_string. simpl.
  pose proof (bar_not_in_address a Ha) as Hbar.
  destruct u as [u|], p as [p|]; try done; unfold endpoint_from_str.
  - destruct (socket_text_not_keyword a ([124] ++ u ++ [58] ++ p) Ha) as [Hn He].
    cbn [app] in *. rewrite split_once_app by done. unfold str_eqb. rewrite bool_decide_false by done.
    destruct (socket_to_string a ++ 124 :: u ++ 58 :: p) eqn:Ht; [done|]. cbn [is_empty orb].
    rewrite socket_text_round_trip by done. destruct (Z.eqb_spec (port a) 0); [done|].
    assert (58 ∉ u) as Hu.
    { intros Hin%contains_char_spec. unfold bad_credentials in Hc. by rewrite Hin in Hc. }
    by rewrite split_once_app, Hc by done.
  - destruct (socket_text_not_keyword a [] Ha) as [Hn He]. rewrite app_nil_r in Hn, He.
    rewrite (proj2 (split_once_None 124 _) Hbar). unfold str_eqb. rewrite bool_decide_false by done.
    destruct (socket_to_string a) eqn:Ht; [done|]. cbn [is_empty orb]. rewrite <-Ht.
    rewrite socket_text_round_trip by done. by destruct (Z.eqb_spec (port a) 0).
Qed.

(** What an endpoint setting must be to be written. *)
Definition override_ok (o : EndpointOverride) : Prop :=
  match o with Disabled => True | Endpoint e => endpoint_ok e end.

Lemma override_round_trip o : override_ok o → override_from_str (override_to_string o) = Ok o.
Proof.
  destruct o as [|e]; [done|]. intros He. unfold override_from_str. cbn [override_to_string].
  assert (endpoint_to_string e ≠ lit "none" ∧ endpoint_to_string e ≠ []) as [Hn Hne].
  { destruct He as [Ha _]. unfold endpoint_to_string.
    destruct (socket_text_not_keyword (address e) [] Ha) as [Hn He].
    rewrite app_nil_r in Hn, He. destruct (username e), (password e); try done.
    by apply socket_text_not_keyword. }
  unfold str_eqb. rewrite bool_decide_false by done.
  destruct (endpoint_to_string e) eqn:Ht; [done|]. cbn [is_empty]. rewrite <-Ht.
  by rewrite endpoint_round_trip_str.
Qed.

Lemma endpoint_from_str_ok v e : endpoint_from_str v = Ok e → endpoint_ok e.
Proof.
  unfold endpoint_from_str. destruct (match split_once 124 v with Some _ => _ | None => _ end) as [addr creds].
  destruct (_ || _); [done|]. destruct (socket_from_str addr) as [a|] eqn:Ha; [|done].
  apply socket_from_str_ok in Ha. destruct (Z.eqb_spec (port a) 0); [done|].
  destruct creds as [c|]; [|by intros [= <-]]. destruct (split_once 58 c) as [[u p]|]; [|done].
  destruct (bad_credentials u p) eqn:Hb; [done|]. by intros [= <-].
Qed.

Lemma override_from_str_ok v o : override_from_str v = Ok o → override_ok o.
Proof.
  unfold override_from_str. destruct (str_eqb _ _); [by intros [= <-]|]. destruct (is_empty v); [done|].
  intros Ho. unbind Ho. injection Ho as <-. by apply endpoint_from_str_ok in Ha.
Qed.

(** ** Properties *)

(** an IPv4 pattern of decimal octets and whole-octet wildcards, short or
    not and with or without the mapped prefix, compiles to one rule, and that
    rule admits exactly the peers (mapped IPv6 peers included) whose octets
    agree with every fixed octet of the pattern. *)
Theorem v4_patterns_mean_octets (slots : list (option Z)) :
  v4_pattern slots →
  ∃ rule, parse_token (print_v4 slots) = Ok rule ∧
    parse_token (lit "::ffff:" ++ print_v4 slots) = Ok rule ∧
    ∀ peer, ip_ok peer →
      allows [rule] peer = match normalize_peer peer with
                           | V4 bits => slots_match (pad4 slots) (octets4 bits)
                           | V6 _ => false
                           end.
Proof.
  intros Hp. pose proof Hp as (Hl & Hs & Hlast). destruct (decide (None ∈ slots)) as [Hn|Hn].
  - destruct (parse_token_v4_pattern slots Hp Hn) as [H4 H6]. eexists. split_and!; [exact H4|exact H6|].
    intros peer _. unfold allows. cbn [existsb]. rewrite orb_false_r.
    destruct (normalize_peer peer) as [bits|bits]; [|apply v4_rule_not_v6].
    apply v4_rule_matches; unfold pad4; [rewrite length_app, length_replicate; lia|].
    apply Forall_app. split; [done|]. by apply Forall_replicate.
  - destruct (exact_v4_pattern slots Hp Hn) as (v & Hv & Hslots & Htext).
    exists (RuleV4 v u32_max). rewrite Htext. split_and!; [by apply exact_token|by apply exact_mapped_token|].
    intros peer Hpeer. unfold allows. cbn [existsb]. rewrite orb_false_r.
    pose proof (normalize_ok peer Hpeer) as Hnorm.
    destruct (normalize_peer peer) as [bits|bits]; [|reflexivity].
    rewrite <-Hslots. by apply exact_v4_match.
Qed.

(** a compressed IPv6 mask expands to exact zero hextets between its two
    sides, never to wildcards, and its rule admits an IPv6 peer exactly when
    the peer's segments agree with the expansion, and an IPv4 peer only when
    the expansion spells the mapped prefix and the mapped address agrees. *)
Theorem compressed_masks_expand_to_zeros (l r : list (option Z)) :
  (length l + length r ≤ 7)%nat → Forall hextet_ok (l ++ r) →
  let token := print_v6 l ++ lit "::" ++ print_v6 r in
  let slots := l ++ replicate (8 - (length l + length r)) (Some 0) ++ r in
  ∃ rule, compile_v6 token = Ok rule ∧
    ∀ peer, ip_ok peer → allows [rule] peer = v6_mask_admits slots (normalize_peer peer).
Proof.
  intros Hn Hok token slots. pose proof Hok as [Hl Hr]%Forall_app.
  destruct (compile_v6_admits token slots) as (rule & Hc & Hm).
  - by apply v6_slots_compressed.
  - unfold slots. rewrite !length_app, length_replicate. lia.
  - unfold slots, slots_ok. apply Forall_app. split; [done|]. apply Forall_app. split; [|done].
    by apply Forall_replicate.
  - exists rule. split; [done|]. intros peer Hp. unfold allows. cbn [existsb].
    rewrite orb_false_r. by apply Hm.
Qed.

(** parsing validates every token of the list: it succeeds with one rule
    per token, in order and never with an empty list, exactly when every
    token is a rule; otherwise it reports the first token that is not, or
    that the whole list is blank. *)
Theorem parse_validates_every_token (source : str) :
  let tokens := map trim (split_on 44 source) in
  match parse source with
  | Ok rules => rules ≠ [] ∧ Forall2 (fun t rule => parse_token t = Ok rule) tokens rules
  | Err e =>
      (tokens = [[]] ∧ e = mkAclError (trim source) ListEmpty) ∨
      ∃ pre t post, tokens = pre ++ t :: post ∧ parse_token t = Err e ∧
        Forall (fun t => ∃ rule, parse_token t = Ok rule) pre
  end.
Proof.
  intros tokens. unfold parse. fold tokens.
  assert (tokens ≠ []) as Hne.
  { unfold tokens. pose proof (split_by_nonempty (Z.eqb 44) source) as Hs.
    unfold split_on. by destruct (split_by (Z.eqb 44) source). }
  clearbody tokens. destruct ((length tokens =? 1)%nat && _) eqn:He.
  { boolprop. destruct tokens as [|[|] [|]]; try done. by left. }
  clear He. assert (match collect parse_token tokens with
    | Ok rules => Forall2 (fun t rule => parse_token t = Ok rule) tokens rules
    | Err e => ∃ pre t post, tokens = pre ++ t :: post ∧ parse_token t = Err e ∧
        Forall (fun t => ∃ rule, parse_token t = Ok rule) pre end) as Hc.
  { clear. induction tokens as [|t ts IH]; simpl; [constructor|].
    destruct (parse_token t) as [rule|e] eqn:Ht; simpl; [|exists [], t, ts; auto].
    destruct (collect parse_token ts) as [rules|e]; simpl; [by constructor|].
    destruct IH as (pre & t' & post & -> & Ht' & Hpre). exists (t :: pre), t', post.
    split_and!; [done|done|]. constructor; [by eexists|done]. }
  destruct (collect parse_token tokens) as [rules|e]; [|by right].
  split; [|done]. destruct Hc; done.
Qed.

(** an endpoint setting survives its text: the printed form of a disabled
    setting, or of an endpoint with a valid address and credentials, parses
    back to the same setting. *)
Theorem endpoint_setting_round_trip (o : EndpointOverride) :
  match o with Disabled => True | Endpoint e => endpoint_ok e end →
  override_from_str (override_to_string o) = Ok o.
Proof. apply override_round_trip. Qed.

(** ** Witnesses *)

Lemma v4_patterns_mean_octets_witness :
  ∃ rule, parse_token (lit "192.168.*") = Ok rule ∧
    allows [rule] (V4 0xc0a80107) = true ∧ allows [rule] (V4 0xc0a90107) = false.
Proof.
  destruct (v4_patterns_mean_octets [Some 192; Some 168; None]) as (rule & H1 & _ & H2).
  - split_and!; [simpl; lia|simpl; lia|by repeat constructor|done].
  - exists rule. split; [exact H1|].
    rewrite !H2 by (unfold ip_ok, in_u, u32_max; lia). split; reflexivity.
Defined.

Lemma compressed_masks_expand_to_zeros_witness :
  ∃ rule, compile_v6 (lit "2001:db8::*") = Ok rule ∧
    allows [rule] (V6 (0x20010db8 * 2 ^ 96 + 7)) = true ∧
    allows [rule] (V6 (0x20010db8 * 2 ^ 96 + 0x10007)) = false.
Proof.
  destruct (compressed_masks_expand_to_zeros [Some 0x2001; Some 0xdb8] [None]) as (rule & H1 & H2).
  - simpl. lia.
  - by repeat constructor.
  - exists rule. split; [exact H1|].
    rewrite !H2 by (unfold ip_ok, in_u, u128_max; lia). split; vm_compute; reflexivity.
Defined.

Lemma endpoint_setting_round_trip_witness :
  override_from_str (lit "[2001:db8::1]:1080|alice:secret") =
    Ok (Endpoint (mkEndpoint (SockV6 (0x20010db8 * 2 ^ 96 + 1) 1080 0 0)
          (Some (lit "alice")) (Some (lit "secret")))).
Proof.
  refine (endpoint_setting_round_trip (Endpoint (mkEndpoint
    (SockV6 (0x20010db8 * 2 ^ 96 + 1) 1080 0 0) (Some (lit "alice")) (Some (lit "secret")))) _).
  split_and!; [unfold socket_ok, ip_ok, in_u, u128_max, u16_max, u32_max; simpl; lia|done|reflexivity].
Defined.
End ClientAcl.
