(* ===== verification/Auth.v ===== *)
(** * User accounts

    [packages/auth/src/{user,users_config,compute_hash,state}.rs] and
    [apps/socks5-proxy/src/commands/users_cli/mod.rs]: the account registry and
    its file, password hashing, the lookups of the authenticator, and the
    changes the command line makes to the registry. *)

From S2P Require Import Prelude Order OrdMap Str Utf8 TempFile Net ClientAcl.
Import TempFile.
Open Scope Z_scope.

Module Auth.

(** ** The registry *)

Record User : Type := mkUser {
  name : str;
  hash : str;
  is_enabled : bool;
  allowed_onion : bool;
  allowed_clients : option ClientAcl.AllowedClients;
  pre_socks5 : option ClientAcl.EndpointOverride;
  post_socks5 : option ClientAcl.EndpointOverride;
}.

Definition UsersConfig : Type := list User.

Definition INIT_SENTINEL : str := lit "init".

(** [find]: the first record of the name. *)
Definition find (n : str) (cfg : UsersConfig) : option User :=
  List.find (fun u => str_eqb (name u) n) cfg.

(** [find_mut] followed by an assignment: the first record changes. *)
Fixpoint update_first (n : str) (f : User → User) (cfg : UsersConfig) : UsersConfig :=
  match cfg with
  | [] => []
  | u :: us => if str_eqb (name u) n then f u :: us else u :: update_first n f us
  end.

Definition set_hash (h : str) (u : User) : User :=
  mkUser (name u) h (is_enabled u) (allowed_onion u) (allowed_clients u) (pre_socks5 u) (post_socks5 u).
Definition set_enabled (b : bool) (u : User) : User :=
  mkUser (name u) (hash u) b (allowed_onion u) (allowed_clients u) (pre_socks5 u) (post_socks5 u).
Definition set_onion (b : bool) (u : User) : User :=
  mkUser (name u) (hash u) (is_enabled u) b (allowed_clients u) (pre_socks5 u) (post_socks5 u).
Definition set_pre (o : option ClientAcl.EndpointOverride) (u : User) : User :=
  mkUser (name u) (hash u) (is_enabled u) (allowed_onion u) (allowed_clients u) o (post_socks5 u).
Definition set_post (o : option ClientAcl.EndpointOverride) (u : User) : User :=
  mkUser (name u) (hash u) (is_enabled u) (allowed_onion u) (allowed_clients u) (pre_socks5 u) o.

(** ** Third-party code *)

(** [ktav], for the registry. *)
Class KtavCrate : Type := {
  ktav_from_str : str → option UsersConfig;
  ktav_to_string : UsersConfig → option str;
}.

(** A serialised registry reads back. *)
Class KtavLaws `{KtavCrate} : Prop := {
  ktav_round_trip : ∀ cfg s, ktav_to_string cfg = Some s → ktav_from_str s = Some cfg;
}.

(** [argon2]: hashing with a salt into a PHC string, parsing one, and checking
    a password against it ([None] is an error other than a mismatch). *)
Class Argon2Crate : Type := {
  PasswordHash : Type;
  argon_hash : list Z → list Z → option str;
  phc_parse : str → option PasswordHash;
  argon_verify : list Z → PasswordHash → option bool;
}.

(** A computed hash is an Argon2id PHC string that verifies its password. *)
Class Argon2Laws `{Argon2Crate} : Prop := {
  argon_hash_prefix : ∀ pw salt h, argon_hash pw salt = Some h → starts_with (lit "$argon2id$") h = true;
  argon_hash_verifies : ∀ pw salt h, argon_hash pw salt = Some h →
    ∃ p, phc_parse h = Some p ∧ argon_verify pw p = Some true;
}.

(** [hmac] over SHA-256. *)
Class HmacCrate : Type := { hmac_sha256 : list Z → list Z → list Z }.

Section Auth.
Context `{KtavCrate, Argon2Crate, HmacCrate}.

(** ** Password hashing *)

(** The salt is what the random generator supplies, or its failure. *)
Definition compute_hash (salt : option (list Z)) (password : str) : result str unit :=
  match salt with
  | None => Err tt
  | Some salt => ok_or (argon_hash (as_bytes password) salt) tt
  end.

Definition verify_hash (stored_phc password : str) : result bool unit :=
  match phc_parse stored_phc with
  | None => Err tt
  | Some parsed => ok_or (argon_verify (as_bytes password) parsed) tt
  end.

(** ** The registry file *)

Inductive users_file : Type :=
| UsersMissing
| UsersText (text : str).

(** [load]: a missing file is an empty registry. *)
Definition load (readable : bool) (file : users_file) : result UsersConfig unit :=
  if negb readable then Err tt
  else match file with
  | UsersMissing => Ok []
  | UsersText text => ok_or (ktav_from_str text) tt
  end.

Definition save (io : save_io) (cfg : UsersConfig) (file : users_file) : result unit unit * users_file :=
  match ktav_to_string cfg with
  | None => (Err tt, file)
  | Some body => save_file io (UsersText body) file
  end.

(** ** The authenticator's lookups *)

Definition require_auth (users : UsersConfig) : bool := negb (is_empty users).

Definition onion_allowed (users : UsersConfig) (n : str) : bool :=
  match find n users with
  | Some u => is_enabled u && allowed_onion u
  | None => false
  end.

Definition client_allowed (users : UsersConfig) (n : str) (peer : ip_addr) : bool :=
  match find n users with
  | Some u =>
      if is_enabled u then
        match allowed_clients u with
        | Some policy => ClientAcl.allows_client policy peer
        | None => true
        end
      else false
  | None => false
  end.

(** What [verify] decides under the read lock. *)
Inductive Decision : Type :=
| Reject
| Verify (hash : str)
| Tofu.

Definition decide_login (users : UsersConfig) (n : str) : Decision :=
  match find n users with
  | None => Reject
  | Some u =>
      if negb (is_enabled u) then Reject
      else if str_eqb (hash u) INIT_SENTINEL then Tofu
      else Verify (hash u)
  end.

(** ** The success cache *)

Record CacheEntry : Type := mkCacheEntry {
  hash_snapshot : str;
  hmac : list Z;
}.

Definition message (n password : str) : list Z := as_bytes n ++ [0] ++ as_bytes password.
Definition tag (secret : list Z) (n password : str) : list Z := hmac_sha256 secret (message n password).

Definition cache_hit (secret : list Z) (cache : gmap str CacheEntry) (n password h : str) : bool :=
  match cache !! n with
  | Some entry =>
      str_eqb (hash_snapshot entry) h && bool_decide (hmac entry = tag secret n password)
  | None => false
  end.

Definition cache_insert (secret : list Z) (n password h : str) (cache : gmap str CacheEntry)
  : gmap str CacheEntry := <[n := mkCacheEntry h (tag secret n password)]> cache.

(** ** The command line *)

Inductive UsersAction : Type :=
| Add (n : str) (init allow_onion : bool) (pre post : option str)
| Remove (n : str)
| SetPassword (n : str)
| SetSocks5 (n hop value : str)
| Enable (n : str)
| Disable (n : str)
| SetOnion (n : str) (allowed : bool).

(** The change an action makes once its input is in hand. *)
Inductive edit : Type :=
| AddUser (u : User)
| RemoveUser (n : str)
| ChangeHash (n password new_hash : str)
| ChangeHop (n hop : str) (setting : option ClientAcl.EndpointOverride)
| ChangeEnabled (n : str) (b : bool)
| ChangeOnion (n : str) (b : bool).

Definition parse_user_endpoint (value : option str) : result (option ClientAcl.EndpointOverride) unit :=
  match value with
  | None => Ok None
  | Some v =>
      if str_eqb v (lit "inherit") then Ok None
      else if str_eqb v (lit "none") then Ok (Some ClientAcl.Disabled)
      else match ClientAcl.endpoint_from_str v with
      | Ok e => Ok (Some (ClientAcl.Endpoint e))
      | Err _ => Err tt
      end
  end.

(** [read_and_confirm]: [None] is a failure of the prompt. *)
Definition read_and_confirm (prompt confirm : option str) : result str unit :=
  match prompt with
  | None => Err tt
  | Some pw =>
      if is_empty pw then Err tt
      else match confirm with
      | None => Err tt
      | Some again => if str_eqb pw again then Ok pw else Err tt
      end
  end.

#[local] Open Scope result_scope.

(** What an action does before it takes the registry lock. *)
Definition prepare (salt : option (list Z)) (prompt confirm : option str) (readable : bool)
  (file : users_file) (a : UsersAction) : result edit unit :=
  match a with
  | Add n init allow pre post =>
      let? pre := parse_user_endpoint pre in
      let? post := parse_user_endpoint post in
      if init then Ok (AddUser (mkUser n INIT_SENTINEL true allow None pre post))
      else
        let? users := load readable file in
        if bool_decide (is_Some (find n users)) then Err tt
        else
          let? pw := read_and_confirm prompt confirm in
          let? h := compute_hash salt pw in
          Ok (AddUser (mkUser n h true allow None pre post))
  | Remove n => Ok (RemoveUser n)
  | SetPassword n =>
      let? users := load readable file in
      if bool_decide (is_Some (find n users)) then
        let? pw := read_and_confirm prompt confirm in
        let? h := compute_hash salt pw in
        Ok (ChangeHash n pw h)
      else Err tt
  | SetSocks5 n hop value =>
      if str_eqb hop (lit "pre") || str_eqb hop (lit "post") then
        let? setting := parse_user_endpoint (Some value) in
        Ok (ChangeHop n hop setting)
      else Err tt
  | Enable n => Ok (ChangeEnabled n true)
  | Disable n => Ok (ChangeEnabled n false)
  | SetOnion n b => Ok (ChangeOnion n b)
  end.

Definition update_known (n : str) (f : User → User) (cfg : UsersConfig) : option UsersConfig :=
  if bool_decide (is_Some (find n cfg)) then Some (update_first n f cfg) else None.

(** The change to the registry loaded under the lock; [None] bails out. *)
Definition apply_edit (e : edit) (cfg : UsersConfig) : option UsersConfig :=
  match e with
  | AddUser u => if bool_decide (is_Some (find (name u) cfg)) then None else Some (cfg ++ [u])
  | RemoveUser n =>
      let cfg' := List.filter (fun u => negb (str_eqb (name u) n)) cfg in
      if (length cfg' =? length cfg)%nat then None else Some cfg'
  | ChangeHash n _ h => update_known n (set_hash h) cfg
  | ChangeHop n hop setting =>
      update_known n (if str_eqb hop (lit "pre") then set_pre setting else set_post setting) cfg
  | ChangeEnabled n b => update_known n (set_enabled b) cfg
  | ChangeOnion n b => update_known n (set_onion b) cfg
  end.

(** What the command reports after its save: [set-password] still checks the
    new password against the hash it replaced. *)
Definition report (e : edit) (before : UsersConfig) : bool :=
  match e with
  | ChangeHash n pw _ =>
      match find n before with
      | Some u =>
          if str_eqb (hash u) INIT_SENTINEL then true
          else match verify_hash (hash u) pw with
          | Ok still_works => negb still_works
          | Err _ => false
          end
      | None => true
      end
  | _ => true
  end.

(** ** Facts *)

Lemma compute_hash_verifies `{!Argon2Laws} salt pw h :
  compute_hash salt pw = Ok h → verify_hash h pw = Ok true.
Proof.
  unfold compute_hash, verify_hash. destruct salt as [salt|]; [|done].
  destruct (argon_hash _ _) as [h'|] eqn:Hh; [|done]. intros [= ->].
  by destruct (argon_hash_verifies _ _ _ Hh) as (p & -> & ->).
Qed.

Lemma compute_hash_not_init `{!Argon2Laws} salt pw h :
  compute_hash salt pw = Ok h → h ≠ INIT_SENTINEL.
Proof.
  unfold compute_hash. destruct salt as [salt|]; [|done].
  destruct (argon_hash _ _) as [h'|] eqn:Hh; [|done]. intros [= ->] ->.
  apply argon_hash_prefix in Hh. by vm_compute in Hh.
Qed.

Lemma load_readable readable file cfg : load readable file = Ok cfg → load true file = Ok cfg.
Proof. by destruct readable. Qed.

Lemma load_saved `{!KtavLaws} io cfg file r file' :
  save io cfg file = (r, file') → file' = file ∨ load true file' = Ok cfg.
Proof.
  unfold save. destruct (ktav_to_string cfg) as [body|] eqn:Hb; [|intros [= _ <-]; by left].
  pose proof (ktav_round_trip _ _ Hb) as Hr.
  destruct (save_file_cases io (UsersText body) file) as [Hs|[Hs|[Hs _]]]; rewrite Hs;
    intros [= <- <-]; [right|by left|right]; unfold load; simpl; by rewrite Hr.
Qed.

Lemma find_update n (f : User → User) cfg u :
  (∀ v, name (f v) = name v) → find n cfg = Some u → find n (update_first n f cfg) = Some (f u).
Proof.
  intros Hf. induction cfg as [|v cfg IH]; simpl; [done|].
  destruct (str_eqb (name v) n) eqn:Hv; simpl; [rewrite Hf, Hv; by intros [= ->]|].
  rewrite Hv. exact IH.
Qed.

Lemma find_update_ne n m (f : User → User) cfg :
  (∀ v, name (f v) = name v) → m ≠ n → find m (update_first n f cfg) = find m cfg.
Proof.
  intros Hf Hne. induction cfg as [|v cfg IH]; simpl; [done|].
  destruct (str_eqb (name v) n) eqn:Hv; simpl; rewrite ?Hf; [|by rewrite IH].
  apply bool_decide_eq_true_1 in Hv. unfold str_eqb. by rewrite Hv, !bool_decide_false.
Qed.

(** ** Changing a password to itself *)

(** Setting the password an account already has changes the registry and is
    then reported as a failure: the check after the save compares the new
    password with the hash it replaced. *)
Theorem same_password_is_reported_as_failure `{!Argon2Laws} cfg n u salt salt' pw h' :
  find n cfg = Some u → compute_hash salt pw = Ok (hash u) → compute_hash salt' pw = Ok h' →
  apply_edit (ChangeHash n pw h') cfg = Some (update_first n (set_hash h') cfg) ∧
  report (ChangeHash n pw h') cfg = false.
Proof.
  intros Hf Hh Hh'. pose proof (compute_hash_not_init _ _ _ Hh) as Hne. simpl.
  unfold update_known. rewrite Hf, (compute_hash_verifies _ _ _ Hh). split; [done|].
  unfold str_eqb. by rewrite bool_decide_false.
Qed.
End Auth.
End Auth.
