(* ===== verification/AuthRun.v ===== *)
(** * Concurrent logins and registry edits

    [AuthState::verify] of [packages/auth/src/state.rs] run by any number of
    threads, and the [users] commands run by other processes, as processes that
    share the registry file, its transaction lock, the registry in memory, its
    write lock and the success cache.  Every access to shared state is one
    step. *)

From S2P Require Import Prelude Interleave Order OrdMap Str Utf8 TempFile Net ClientAcl Auth.
Import TempFile Auth.
Open Scope Z_scope.

Module AuthRun.

(** ** The shared state

    [disk] is the registry file, [users] the registry in memory, [file_lock]
    and [users_lock] the holders of the transaction lock and of the write
    guard.  [history] is not part of the program: it collects every registry
    the memory has held, the latest first. *)
Record shared_state : Type := mkShared {
  disk : users_file;
  users : UsersConfig;
  cache : gmap str CacheEntry;
  file_lock : option nat;
  users_lock : option nat;
  history : list UsersConfig;
}.

Definition set_disk (f : users_file) (s : shared_state) : shared_state :=
  mkShared f (users s) (cache s) (file_lock s) (users_lock s) (history s).
Definition set_users (cfg : UsersConfig) (s : shared_state) : shared_state :=
  mkShared (disk s) cfg (cache s) (file_lock s) (users_lock s) (cfg :: history s).
Definition set_cache (c : gmap str CacheEntry) (s : shared_state) : shared_state :=
  mkShared (disk s) (users s) c (file_lock s) (users_lock s) (history s).
Definition set_file_lock (o : option nat) (s : shared_state) : shared_state :=
  mkShared (disk s) (users s) (cache s) o (users_lock s) (history s).
Definition set_users_lock (o : option nat) (s : shared_state) : shared_state :=
  mkShared (disk s) (users s) (cache s) (file_lock s) o (history s).

(** ** Program counters *)

(** Where [resolve_init] goes once its locks are released. *)
Inductive after : Type :=
| ThenRefuse
| ThenVerify (h : str)
| ThenStore (h : str).

Inductive pc : Type :=
(* [verify] and [verify_with_cache] *)
| Start (n pw : str)
| Lookup (n pw h : str)
| Check (n pw h : str)
| Publish (n pw h : str)
(* [resolve_init] *)
| Resolve (n pw : str)
| LockFile (n pw new : str)
| LockUsers (n pw new : str)
| Reload (n pw new : str)
| Save (n pw new : str) (current : UsersConfig)
| Commit (n pw new : str) (current : UsersConfig)
| DropUsers (n pw : str) (k : after)
| DropFile (n pw : str) (k : after)
| Store (n pw new : str)
(* the answer, with the hash the password was accepted against *)
| Answer (n pw : str) (accepted : option str)
(* a [users] command *)
| CliPrepare (a : UsersAction)
| CliLock (e : edit)
| CliLoad (e : edit)
| CliSave (e : edit) (before current : UsersConfig)
| CliUnlock (success : bool)
| CliDone (success : bool).

(** What the environment answers: the random salt, the prompts, whether locks
    and reads succeed, how a save fares, and whether a command is killed. *)
Record answers : Type := mkAnswers {
  salt : option (list Z);
  prompt : option str;
  confirm : option str;
  io_ok : bool;
  saving : save_io;
  killed : bool;
}.

Section AuthRun.
Context `{KtavCrate, Argon2Crate, HmacCrate}.
(** The per-process secret, and whether the authenticator owns a file. *)
Context (secret : list Z) (persistent : bool).

Definition resume (n pw : str) (k : after) : pc :=
  match k with
  | ThenRefuse => Answer n pw None
  | ThenVerify h => Lookup n pw h
  | ThenStore h => Store n pw h
  end.

(** [resolve_init] holding both locks, with the registry it re-read. *)
Definition reloaded (n pw new : str) (r : result UsersConfig unit) (s : shared_state)
  : shared_state * pc :=
  match r with
  | Err _ => (s, DropUsers n pw ThenRefuse)
  | Ok current =>
      match find n current with
      | None => (s, DropUsers n pw ThenRefuse)
      | Some u =>
          if negb (is_enabled u) then (s, DropUsers n pw ThenRefuse)
          else if negb (str_eqb (hash u) INIT_SENTINEL)
          then (set_users current s, DropUsers n pw (ThenVerify (hash u)))
          else (s, Save n pw new (update_first n (set_hash new) current))
      end
  end.

Definition login_step (i : nat) (e : answers) (s : shared_state) (p : pc) : option (shared_state * pc) :=
  match p with
  | Start n pw =>
      match users_lock s with
      | Some _ => None
      | None =>
          match decide_login (users s) n with
          | Reject => Some (s, Answer n pw None)
          | Verify h => Some (s, Lookup n pw h)
          | Tofu => Some (s, Resolve n pw)
          end
      end
  | Lookup n pw h =>
      Some (s, if cache_hit secret (cache s) n pw h then Answer n pw (Some h) else Check n pw h)
  | Check n pw h =>
      match verify_hash h pw with
      | Ok true => Some (s, Publish n pw h)
      | _ => Some (s, Answer n pw None)
      end
  | Publish n pw h => Some (set_cache (cache_insert secret n pw h (cache s)) s, Answer n pw (Some h))
  | Resolve n pw =>
      if is_empty pw then Some (s, Answer n pw None)
      else match compute_hash (salt e) pw with
      | Err _ => Some (s, Answer n pw None)
      | Ok new => Some (s, if persistent then LockFile n pw new else LockUsers n pw new)
      end
  | LockFile n pw new =>
      if negb (io_ok e) then Some (s, Answer n pw None)
      else match file_lock s with
      | Some _ => None
      | None => Some (set_file_lock (Some i) s, LockUsers n pw new)
      end
  | LockUsers n pw new =>
      match users_lock s with
      | Some _ => None
      | None => Some (set_users_lock (Some i) s, Reload n pw new)
      end
  | Reload n pw new =>
      Some (reloaded n pw new (if persistent then load (io_ok e) (disk s) else Ok (users s)) s)
  | Save n pw new current =>
      if persistent then
        match save (saving e) current (disk s) with
        | (Ok _, f) => Some (set_disk f s, Commit n pw new current)
        | (Err _, f) => Some (set_disk f s, DropUsers n pw ThenRefuse)
        end
      else Some (s, Commit n pw new current)
  | Commit n pw new current => Some (set_users current s, DropUsers n pw (ThenStore new))
  | DropUsers n pw k => Some (set_users_lock None s, DropFile n pw k)
  | DropFile n pw k => Some (if persistent then set_file_lock None s else s, resume n pw k)
  | Store n pw new => Some (set_cache (cache_insert secret n pw new (cache s)) s, Answer n pw (Some new))
  | _ => None
  end.

(** A killed command gives up its lock; so does every early return. *)
Definition cli_step (i : nat) (e : answers) (s : shared_state) (p : pc) : option (shared_state * pc) :=
  match p with
  | CliPrepare a =>
      match prepare (salt e) (prompt e) (confirm e) (io_ok e) (disk s) a with
      | Ok ed => Some (s, CliLock ed)
      | Err _ => Some (s, CliDone false)
      end
  | CliLock ed =>
      match file_lock s with
      | None => if io_ok e then Some (set_file_lock (Some i) s, CliLoad ed) else Some (s, CliDone false)
      | Some _ => Some (s, CliDone false)
      end
  | CliLoad ed =>
      if killed e then Some (set_file_lock None s, CliDone false)
      else match load (io_ok e) (disk s) with
      | Err _ => Some (s, CliUnlock false)
      | Ok cfg =>
          match apply_edit ed cfg with
          | None => Some (s, CliUnlock false)
          | Some cfg' => Some (s, CliSave ed cfg cfg')
          end
      end
  | CliSave ed before current =>
      if killed e then Some (set_file_lock None s, CliDone false)
      else match save (saving e) current (disk s) with
      | (Ok _, f) => Some (set_disk f s, CliUnlock (report ed before))
      | (Err _, f) => Some (set_disk f s, CliUnlock false)
      end
  | CliUnlock ok => Some (set_file_lock None s, CliDone ok)
  | _ => None
  end.

Definition step (i : nat) (e : answers) (s : shared_state) (p : pc) : option (shared_state * pc) :=
  match login_step i e s p with
  | Some r => Some r
  | None => cli_step i e s p
  end.

(** Logins present text; a command starts with its preparation. *)
Definition starts (p : pc) : Prop :=
  match p with
  | Start n pw => valid_str n ∧ valid_str pw
  | CliPrepare _ => True
  | _ => False
  end.

Definition system : Type := config shared_state pc.

(** The authenticator built from a registry, beside a registry file. *)
Definition initial (f : users_file) (cfg : UsersConfig) : system :=
  mkConfig (mkShared f cfg ∅ None None [cfg]) ∅.

Definition reachable (f : users_file) (cfg : UsersConfig) : system → Prop :=
  reach step starts (initial f cfg).

(** ** The invariant *)

Definition verifies (h pw : str) : Prop := verify_hash h pw = Ok true.

(** An enabled record of [n] with hash [h] has been in memory. *)
Definition known (s : shared_state) (n h : str) : Prop :=
  ∃ cfg u, cfg ∈ history s ∧ find n cfg = Some u ∧ is_enabled u = true ∧ hash u = h.

(** [pw] was accepted against [h]: it verifies, or it has the tag of a
    password that does. *)
Definition accepts (n pw h : str) : Prop :=
  ∃ p, valid_str p ∧ verifies h p ∧ tag secret n p = tag secret n pw.

Definition on_disk (s : shared_state) (cfg : UsersConfig) : Prop := load true (disk s) = Ok cfg.

(** The registry a login is about to publish: the one on disk (or in memory)
    with the hash of an enabled account changed from the sentinel. *)
Definition provisions (n new : str) (base current : UsersConfig) : Prop :=
  current = update_first n (set_hash new) base ∧
  ∃ u, find n base = Some u ∧ is_enabled u = true ∧ hash u = INIT_SENTINEL.

Definition base_of (s : shared_state) (base : UsersConfig) : Prop :=
  if persistent then on_disk s base else base = users s.

Definition holds_file (i : nat) (s : shared_state) : Prop := persistent = true → file_lock s = Some i.
Definition holds_users (i : nat) (s : shared_state) : Prop := users_lock s = Some i.

(** What process [i] at [p] knows of the shared state. *)
Definition relies (i : nat) (p : pc) (s : shared_state) : Prop :=
  match p with
  | Start _ _ | Resolve _ _ => True
  | Lookup n _ h | Check n _ h => known s n h
  | Publish n pw h => known s n h ∧ verifies h pw
  | LockFile _ pw new => verifies new pw ∧ persistent = true
  | LockUsers _ pw new => verifies new pw ∧ holds_file i s
  | Reload _ pw new => verifies new pw ∧ holds_file i s ∧ holds_users i s
  | Save n pw new current =>
      verifies new pw ∧ holds_file i s ∧ holds_users i s ∧
      ∃ base, base_of s base ∧ provisions n new base current
  | Commit n pw new current =>
      verifies new pw ∧ holds_file i s ∧ holds_users i s ∧ ∃ base, provisions n new base current
  | DropUsers n pw k =>
      holds_file i s ∧ holds_users i s ∧
      match k with
      | ThenRefuse => True
      | ThenVerify h => known s n h
      | ThenStore h => known s n h ∧ verifies h pw
      end
  | DropFile n pw k =>
      holds_file i s ∧
      match k with
      | ThenRefuse => True
      | ThenVerify h => known s n h
      | ThenStore h => known s n h ∧ verifies h pw
      end
  | Store n pw new => known s n new ∧ verifies new pw
  | Answer n pw (Some h) => known s n h ∧ accepts n pw h
  | Answer _ _ None => True
  | CliPrepare _ | CliLock _ | CliDone _ => True
  | CliLoad _ | CliUnlock _ => file_lock s = Some i
  | CliSave ed before current =>
      file_lock s = Some i ∧ on_disk s before ∧ apply_edit ed before = Some current
  end.

(** The password a login presents. *)
Definition presents (p : pc) : option str :=
  match p with
  | Start _ pw | Lookup _ pw _ | Check _ pw _ | Publish _ pw _ | Resolve _ pw | LockFile _ pw _
  | LockUsers _ pw _ | Reload _ pw _ | Save _ pw _ _ | Commit _ pw _ _ | DropUsers _ pw _
  | DropFile _ pw _ | Store _ pw _ | Answer _ pw _ => Some pw
  | _ => None
  end.

Definition knows (i : nat) (p : pc) (s : shared_state) : Prop :=
  (∀ pw, presents p = Some pw → valid_str pw) ∧ relies i p s.

(** The cache holds only tags of passwords that verified, and the registry in
    memory is part of its history. *)
Definition sound (s : shared_state) : Prop :=
  (∀ n e, cache s !! n = Some e →
     ∃ p, valid_str p ∧ verifies (hash_snapshot e) p ∧ hmac e = tag secret n p) ∧
  users s ∈ history s.

(** What a step of process [i] leaves to the others. *)
Record guarantee (i : nat) (s s' : shared_state) : Prop := mkGuarantee {
  keeps_file_lock : ∀ k, k ≠ i → file_lock s = Some k → file_lock s' = Some k;
  keeps_users_lock : ∀ k, k ≠ i → users_lock s = Some k → users_lock s' = Some k;
  writes_disk : disk s' = disk s ∨ file_lock s = Some i;
  writes_users : users s' = users s ∨ users_lock s = Some i;
  keeps_history : ∀ cfg, cfg ∈ history s → cfg ∈ history s';
}.

Lemma known_stable i s s' n h : guarantee i s s' → known s n h → known s' n h.
Proof. intros Hg (cfg & u & Hc & Hu). exists cfg, u. split; [by apply (keeps_history _ _ _ Hg)|done]. Qed.

Lemma holds_file_stable i j s s' : guarantee i s s' → j ≠ i → holds_file j s → holds_file j s'.
Proof. intros Hg Hne Hf Hp. apply (keeps_file_lock _ _ _ Hg); auto. Qed.

Lemma holds_users_stable i j s s' : guarantee i s s' → j ≠ i → holds_users j s → holds_users j s'.
Proof. intros Hg Hne Hf. by apply (keeps_users_lock _ _ _ Hg). Qed.

Lemma on_disk_stable i j s s' cfg :
  guarantee i s s' → j ≠ i → file_lock s = Some j → on_disk s cfg → on_disk s' cfg.
Proof.
  intros Hg Hne Hl Hd. unfold on_disk. destruct (writes_disk _ _ _ Hg) as [->|]; [done|congruence].
Qed.

Lemma base_of_stable i j s s' cfg :
  guarantee i s s' → j ≠ i → holds_file j s → holds_users j s → base_of s cfg → base_of s' cfg.
Proof.
  unfold base_of, holds_file, holds_users. intros Hg Hne Hf Hu. destruct persistent.
  - eauto using on_disk_stable.
  - intros ->. destruct (writes_users _ _ _ Hg) as [->|]; [done|congruence].
Qed.

#[local] Hint Resolve known_stable holds_file_stable holds_users_stable on_disk_stable
  base_of_stable keeps_file_lock : tor.

Lemma login_knows_stable i j s s' q :
  guarantee i s s' → i ≠ j → knows j q s → knows j q s'.
Proof.
  intros Hg Hne%not_eq_sym [Hv Hr]. split; [done|]. clear Hv.
  destruct q as [| | | | | | | |????|????|?? k|?? k| |?? [h|]| | | | | |]; simpl in *;
    try (destruct k); destruct_and?; split_and?; eauto with tor.
  match goal with H : ∃ base, base_of _ base ∧ _ |- _ => destruct H as (base & ? & ?) end.
  eauto with tor.
Qed.

(** ** Single steps *)

Context `{!KtavLaws, !Argon2Laws}.

Lemma decide_known s n h : sound s → decide_login (users s) n = Verify h → known s n h.
Proof.
  intros [_ Hu]. unfold decide_login. destruct (find n (users s)) as [u|] eqn:Hf; [|done].
  destruct (is_enabled u) eqn:He; [|done]. simpl. destruct (str_eqb _ _); [done|]. intros [= <-].
  by exists (users s), u.
Qed.

Lemma cache_hit_accepts s n pw h : sound s → cache_hit secret (cache s) n pw h = true → accepts n pw h.
Proof.
  intros [Hc _]. unfold cache_hit. destruct (cache s !! n) as [e|] eqn:He; [|done].
  intros [Hs Ht]%andb_true_iff. apply bool_decide_eq_true_1 in Hs, Ht.
  destruct (Hc n e He) as (p & Hp & Hv & Hm). exists p. split_and!; [done|by rewrite <-Hs|congruence].
Qed.

Lemma cache_insert_sound s n pw h :
  sound s → valid_str pw → verifies h pw → sound (set_cache (cache_insert secret n pw h (cache s)) s).
Proof.
  intros [Hc Hu] Hpw Hv. split; [|done]. intros m e. simpl. unfold cache_insert.
  rewrite lookup_insert_Some. intros [[<- <-]|[_ Hm]]; [|by eapply Hc]. exists pw. auto.
Qed.

Lemma unchanged_guarantee i s : guarantee i s s.
Proof. split; auto. Qed.

Lemma set_users_guarantee i cfg s : holds_users i s → guarantee i s (set_users cfg s).
Proof. intros Hu. split; simpl; auto. intros c Hc. by right. Qed.

Lemma set_users_known cfg s n u :
  find n cfg = Some u → is_enabled u = true → known (set_users cfg s) n (hash u).
Proof. intros Hf He. exists cfg, u. split_and!; [left|done..]. Qed.

Lemma set_users_sound cfg s : sound s → sound (set_users cfg s).
Proof. intros [Hc Hu]. split; [done|left]. Qed.

Lemma reload_step i n pw new r s s' p' :
  sound s → knows i (Reload n pw new) s → (∀ cfg, r = Ok cfg → base_of s cfg) →
  reloaded n pw new r s = (s', p') → guarantee i s s' ∧ sound s' ∧ knows i p' s'.
Proof.
  intros Hs [Hp (Hv & Hf & Hu)] Hr. specialize (Hp pw eq_refl). unfold reloaded.
  assert (guarantee i s s ∧ sound s ∧ knows i (DropUsers n pw ThenRefuse) s) as Hrefuse.
  { split_and!; [apply unchanged_guarantee|done|]. split; [by intros ? [= <-]|done]. }
  destruct r as [current|]; [|by intros [= <- <-]]. specialize (Hr current eq_refl).
  destruct (find n current) as [u|] eqn:Hfu; [|by intros [= <- <-]].
  destruct (is_enabled u) eqn:He; simpl; [|by intros [= <- <-]].
  destruct (str_eqb (hash u) INIT_SENTINEL) eqn:Hi; simpl; intros [= <- <-].
  - apply bool_decide_eq_true_1 in Hi. split_and!; [apply unchanged_guarantee|done|].
    split; [by intros ? [= <-]|]. simpl. split_and!; [done..|]. exists current. split; [done|].
    split; [done|]. by exists u.
  - split_and!; [by apply set_users_guarantee|by apply set_users_sound|].
    split; [by intros ? [= <-]|]. simpl. split_and!; [done|done|]. by apply set_users_known.
Qed.

(** A step that only moves between locks and program counters. *)
Ltac quiet_step :=
  split_and!; [split; simpl; auto; unfold holds_file, holds_users in *; intros; congruence|done|
    split; [by intros ? [= <-]|simpl; split_and?; unfold holds_file, holds_users in *; simpl in *; auto]].

Lemma save_step i n pw new current io s r f :
  sound s → knows i (Save n pw new current) s → persistent = true → save io current (disk s) = (r, f) →
  guarantee i s (set_disk f s) ∧ sound (set_disk f s) ∧
  knows i (match r with Ok _ => Commit n pw new current | Err _ => DropUsers n pw ThenRefuse end)
    (set_disk f s).
Proof.
  intros Hs [Hp (Hv & Hf & Hu & base & _ & Hb)] Hper _. specialize (Hp pw eq_refl).
  split_and!; [split; simpl; auto|done|]. destruct r; (split; [by intros ? [= <-]|]); simpl;
    split_and?; auto. by exists base.
Qed.

Lemma commit_step i n pw new current s :
  sound s → knows i (Commit n pw new current) s →
  guarantee i s (set_users current s) ∧ sound (set_users current s) ∧
  knows i (DropUsers n pw (ThenStore new)) (set_users current s).
Proof.
  intros Hs [Hp (Hv & Hf & Hu & base & Hb & u & Hfu & He & _)]. specialize (Hp pw eq_refl).
  split_and!; [by apply set_users_guarantee|by apply set_users_sound|].
  split; [by intros ? [= <-]|]. simpl. split_and!; try done.
  apply (set_users_known current s n (set_hash new u)); [|done]. rewrite Hb. by apply find_update.
Qed.

Lemma publish_step i n pw h s :
  sound s → valid_str pw → known s n h → verifies h pw →
  let s' := set_cache (cache_insert secret n pw h (cache s)) s in
  guarantee i s s' ∧ sound s' ∧ knows i (Answer n pw (Some h)) s'.
Proof.
  intros Hs Hp Hk Hv s'. split_and!; [split; simpl; auto|by apply cache_insert_sound|].
  split; [by intros ? [= <-]|]. simpl. split; [done|]. by exists pw.
Qed.

Lemma drop_file_step i n pw k s :
  sound s → knows i (DropFile n pw k) s →
  let s' := if persistent then set_file_lock None s else s in
  guarantee i s s' ∧ sound s' ∧ knows i (resume n pw k) s'.
Proof.
  intros Hs [Hp [Hf Hk]] s'. specialize (Hp pw eq_refl).
  split_and!.
  - unfold s', holds_file in *. destruct persistent; [|apply unchanged_guarantee].
    split; simpl; auto. intros; specialize (Hf eq_refl); congruence.
  - unfold s'. by destruct persistent.
  - split; [by destruct k; intros ? [= <-]|].
    unfold s'. destruct k, persistent; simpl; auto.
Qed.

Lemma login_step_ok i e s p s' p' :
  sound s → knows i p s → login_step i e s p = Some (s', p') →
  guarantee i s s' ∧ sound s' ∧ knows i p' s'.
Proof.
  intros Hs Hk. destruct p; simpl; try done; pose proof Hk as [Hp Hr]; specialize (Hp _ eq_refl); simpl in Hr.
  - destruct (users_lock s); [done|]. destruct (decide_login _ _) eqn:Hd; intros [= <- <-]; quiet_step.
    by apply decide_known.
  - intros [= <- <-]. destruct (cache_hit _ _ _ _ _) eqn:Hh; quiet_step. by apply cache_hit_accepts in Hh.
  - destruct (verify_hash h pw) as [[]|] eqn:Hv; intros [= <- <-]; quiet_step.
  - intros [= <- <-]. destruct Hr. by apply publish_step.
  - destruct (is_empty pw); [intros [= <- <-]; quiet_step|].
    destruct (compute_hash _ _) as [new|] eqn:Hh; intros [= <- <-]; [|quiet_step].
    apply compute_hash_verifies in Hh. destruct persistent eqn:?; quiet_step; congruence.
  - destruct Hr. destruct (io_ok e); simpl; [|intros [= <- <-]; quiet_step].
    destruct (file_lock s) eqn:Hl; intros [= <- <-]. quiet_step.
  - destruct Hr. destruct (users_lock s) eqn:Hl; intros [= <- <-]. quiet_step.
  - intros Hre. apply Some_inj in Hre. eapply reload_step; [done|done| |exact Hre].
    unfold base_of, on_disk. intros cfg. destruct persistent; [apply load_readable|congruence].
  - destruct persistent eqn:Hper.
    + destruct (save _ _ _) as [r f] eqn:Hsv. pose proof (save_step i _ _ _ _ _ _ _ _ Hs Hk Hper Hsv) as Hst.
      destruct r; intros [= <- <-]; exact Hst.
    + intros [= <- <-]. destruct Hr as (? & ? & ? & base & ? & ?). quiet_step. by exists base.
  - intros [= <- <-]. by apply commit_step.
  - intros [= <- <-]. destruct Hr as (? & ? & ?). quiet_step.
  - intros [= <- <-]. by apply drop_file_step.
  - intros [= <- <-]. destruct Hr. by apply publish_step.
Qed.

Lemma cli_step_ok i e s p s' p' :
  sound s → knows i p s → cli_step i e s p = Some (s', p') →
  guarantee i s s' ∧ sound s' ∧ knows i p' s'.
Proof.
  intros Hs [Hp Hr]. destruct p; simpl; try done; simpl in Hr.
  - destruct (prepare _ _ _ _ _ _); intros [= <- <-]; quiet_step.
  - destruct (file_lock s) eqn:Hl; [|destruct (io_ok e)]; intros [= <- <-]; quiet_step.
  - destruct (killed e); [intros [= <- <-]; quiet_step|].
    destruct (load _ _) as [cfg|] eqn:Hl; [|intros [= <- <-]; quiet_step].
    apply load_readable in Hl. destruct (apply_edit _ _) eqn:Ha; intros [= <- <-]; quiet_step.
  - destruct Hr as (Hf & _ & _). destruct (killed e); [intros [= <- <-]; quiet_step|].
    destruct (save _ _ _) as [[] f]; intros [= <- <-]; quiet_step.
  - intros [= <- <-]. quiet_step.
Qed.

Lemma auth_step_ok i e s p s' p' :
  sound s → knows i p s → step i e s p = Some (s', p') → guarantee i s s' ∧ sound s' ∧ knows i p' s'.
Proof.
  intros Hs Hk. unfold step. destruct (login_step i e s p) as [[s1 p1]|] eqn:Hl.
  - intros [= <- <-]. by apply (login_step_ok i e s p).
  - by apply cli_step_ok.
Qed.

Lemma reachable_holds f cfg c : reachable f cfg c → holds sound knows c.
Proof.
  apply reach_holds.
  - intros i p s Hp _. destruct p; try done; simpl in Hp. split; [|done].
    intros ? [= <-]. apply Hp.
  - intros i e s p s' p' Hs Hk Hst. by apply (auth_step_ok i e s p).
  - intros i j e s p s' p' q Hne Hs Hk Hj Hst. eapply login_knows_stable; [|done|done].
    by eapply auth_step_ok.
  - split; [split|]; simpl; [intros n e; by rewrite lookup_empty|left|].
    intros i p. by rewrite lookup_empty.
Qed.

(** ** Locks and their holders *)

Definition in_file_section (p : pc) : bool :=
  match p with
  | LockUsers _ _ _ | Reload _ _ _ | Save _ _ _ _ | Commit _ _ _ _ | DropUsers _ _ _ | DropFile _ _ _ =>
      persistent
  | CliLoad _ | CliSave _ _ _ | CliUnlock _ => true
  | _ => false
  end.

Definition in_users_section (p : pc) : bool :=
  match p with
  | Reload _ _ _ | Save _ _ _ _ | Commit _ _ _ _ | DropUsers _ _ _ => true
  | _ => false
  end.

(** A held lock is held by a process inside its section. *)
Definition held (c : system) : Prop :=
  (∀ k, file_lock (shared c) = Some k → ∃ p, procs c !! k = Some p ∧ in_file_section p = true) ∧
  (∀ k, users_lock (shared c) = Some k → ∃ p, procs c !! k = Some p ∧ in_users_section p = true).

(** How one step moves the locks. *)
Lemma step_file_lock i e s p s' p' :
  knows i p s → step i e s p = Some (s', p') →
  (file_lock s' = file_lock s ∧ (in_file_section p = true → in_file_section p' = true)) ∨
  (file_lock s' = Some i ∧ in_file_section p' = true) ∨ file_lock s' = None.
Proof.
  intros [_ Hr]. unfold step. destruct p; simpl in *; unfold reloaded; intros Hst; repeat case_match;
    simplify_eq/=; naive_solver.
Qed.

Lemma step_users_lock i e s p s' p' :
  step i e s p = Some (s', p') →
  (users_lock s' = users_lock s ∧ (in_users_section p = true → in_users_section p' = true)) ∨
  (users_lock s' = Some i ∧ in_users_section p' = true) ∨ users_lock s' = None.
Proof.
  unfold step. destruct p; simpl; unfold reloaded; intros Hst; repeat case_match; simplify_eq/=;
    naive_solver.
Qed.

Lemma reachable_held f cfg c : reachable f cfg c → held c.
Proof.
  intros Hc. induction Hc as [|c m c' Hc IH Hm Hstep].
  { by split. }
  apply reachable_holds in Hc as [_ HL]. destruct IH as [IHf IHu].
  destruct m as [i p|i e]; simpl in Hstep.
  - destruct (procs c !! i) eqn:Hi; [done|]. injection Hstep as <-.
    split; simpl; intros k Hk; [destruct (IHf k Hk) as (q & Hq & ?)|destruct (IHu k Hk) as (q & Hq & ?)];
      exists q; (split; [|done]); rewrite lookup_insert_ne; congruence.
  - destruct (procs c !! i) as [p|] eqn:Hi; [|done].
    destruct (step i e (shared c) p) as [[s' p']|] eqn:Hst; [|done]. injection Hstep as <-.
    split; simpl; intros k Hk; destruct (decide (i = k)) as [<-|Hne].
    + exists p'. split; [apply lookup_insert_eq|].
      destruct (step_file_lock _ _ _ _ _ _ (HL _ _ Hi) Hst) as [[He Hin]|[[_ ?]|?]]; [|done|congruence].
      apply Hin. rewrite He in Hk. destruct (IHf i Hk) as (q & Hq & ?). congruence.
    + rewrite lookup_insert_ne by done. apply IHf.
      destruct (step_file_lock _ _ _ _ _ _ (HL _ _ Hi) Hst) as [[He Hin]|[[? _]|?]]; congruence.
    + exists p'. split; [apply lookup_insert_eq|].
      destruct (step_users_lock _ _ _ _ _ _ Hst) as [[He Hin]|[[_ ?]|?]]; [|done|congruence].
      apply Hin. rewrite He in Hk. destruct (IHu i Hk) as (q & Hq & ?). congruence.
    + rewrite lookup_insert_ne by done. apply IHu.
      destruct (step_users_lock _ _ _ _ _ _ Hst) as [[He Hin]|[[? _]|?]]; congruence.
Qed.

(** ** Progress and termination *)

Definition finished (p : pc) : bool :=
  match p with
  | Answer _ _ _ | CliDone _ => true
  | _ => false
  end.

(** How many steps a process has left at most. *)
Definition rank (p : pc) : nat :=
  match p with
  | Start _ _ => 13
  | Resolve _ _ => 12
  | LockFile _ _ _ => 11
  | LockUsers _ _ _ => 10
  | Reload _ _ _ => 9
  | Save _ _ _ _ => 8
  | Commit _ _ _ _ => 7
  | DropUsers _ _ _ => 5
  | DropFile _ _ _ => 4
  | Lookup _ _ _ | CliLoad _ => 3
  | Check _ _ _ | CliSave _ _ _ => 2
  | Publish _ _ _ | Store _ _ _ | CliUnlock _ => 1
  | CliPrepare _ => 5
  | CliLock _ => 4
  | Answer _ _ _ | CliDone _ => 0
  end.

Lemma step_rank i e s p s' p' : step i e s p = Some (s', p') → (rank p' < rank p)%nat.
Proof.
  unfold step. destruct p; simpl; unfold reloaded; intros Hst; repeat case_match; simplify_eq/=; try lia;
    destruct k; simpl; lia.
Qed.

(** The environment at its best. *)
Definition willing : answers := mkAnswers (Some []) None None true all_ok false.

(** Only three program counters wait for anything. *)
Lemma step_enabled i s p :
  finished p = false →
  (∀ n pw, p = Start n pw → users_lock s = None) →
  (∀ n pw new, p = LockFile n pw new → file_lock s = None) →
  (∀ n pw new, p = LockUsers n pw new → users_lock s = None) →
  ∃ s' p', step i willing s p = Some (s', p').
Proof.
  intros Hf HS HF HU. destruct (step i willing s p) as [[s' p']|] eqn:Hst; [eauto|]. exfalso.
  unfold step in Hst. destruct p; try discriminate Hf; simpl in Hst;
    try specialize (HS _ _ eq_refl); try specialize (HF _ _ _ eq_refl); try specialize (HU _ _ _ eq_refl);
    rewrite ?HS, ?HF, ?HU in Hst; repeat case_match; simplify_eq/=.
Qed.

Lemma users_section_runs i s p : in_users_section p = true → ∃ s' p', step i willing s p = Some (s', p').
Proof. intros Hp. apply step_enabled; by destruct p. Qed.

Lemma file_section_runs f cfg c k p :
  reachable f cfg c → procs c !! k = Some p → in_file_section p = true →
  ∃ j q s' q', procs c !! j = Some q ∧ step j willing (shared c) q = Some (s', q').
Proof.
  intros Hc Hk Hp. destruct (reachable_held _ _ _ Hc) as [_ Hu].
  destruct (users_lock (shared c)) as [m|] eqn:Hm.
  - destruct (Hu m eq_refl) as (q & Hq & Hs).
    destruct (users_section_runs m (shared c) q Hs) as (s' & q' & Hst). eauto 6.
  - destruct (step_enabled k (shared c) p) as (s' & q' & Hst); [by destruct p..|]. eauto 6.
Qed.

Lemma some_process_runs f cfg c i p :
  reachable f cfg c → procs c !! i = Some p → finished p = false →
  ∃ j q s' q', procs c !! j = Some q ∧ step j willing (shared c) q = Some (s', q').
Proof.
  intros Hc Hi Hf. destruct (reachable_held _ _ _ Hc) as [HF HU].
  destruct (users_lock (shared c)) as [m|] eqn:Hm.
  { destruct (HU m eq_refl) as (q & Hq & Hs).
    destruct (users_section_runs m (shared c) q Hs) as (s' & q' & Hst). eauto 6. }
  destruct (file_lock (shared c)) as [k|] eqn:Hk.
  { destruct (HF k eq_refl) as (q & Hq & Hs). by eapply file_section_runs. }
  destruct (step_enabled i (shared c) p) as (s' & q' & Hst); [done..|]. eauto 6.
Qed.

Definition steps_left (c : system) : nat := sum_list_with (fun kp => rank kp.2) (map_to_list (procs c)).

Lemma steps_left_insert i p p' q s (m : gmap nat pc) :
  m !! i = Some p → (rank p' < rank p)%nat →
  (steps_left (mkConfig q (<[i := p']> m)) < steps_left (mkConfig s m))%nat.
Proof.
  intros Hi Hr. unfold steps_left. simpl.
  rewrite <-(insert_delete_id m i p Hi) at 2. rewrite <-insert_delete_eq.
  rewrite !map_to_list_insert by apply lookup_delete_eq. simpl. lia.
Qed.

Lemma step_move_left c i e c' : move_step step c (Step i e) = Some c' → (steps_left c' < steps_left c)%nat.
Proof.
  simpl. destruct (procs c !! i) as [p|] eqn:Hi; [|done].
  destruct (step i e (shared c) p) as [[s' p']|] eqn:Hst; [|done]. intros [= <-].
  destruct c as [s m]. apply steps_left_insert with p; [done|]. by eapply step_rank.
Qed.

Definition is_step (m : move pc answers) : Prop := match m with Step _ _ => True | Spawn _ _ => False end.

Lemma schedule_bounded c ms c' :
  Forall is_step ms → run_schedule step c ms = Some c' → (length ms + steps_left c' ≤ steps_left c)%nat.
Proof.
  revert c. induction ms as [|m ms IH]; intros c Hms; simpl; [intros [= <-]; lia|].
  inversion Hms as [|? ? Hm Hms']; subst. destruct m as [|i e]; [done|].
  destruct (move_step step c (Step i e)) as [c1|] eqn:Hc1; [|done]. intros Hr.
  apply step_move_left in Hc1. specialize (IH c1 Hms' Hr). lia.
Qed.

Lemma all_finish f cfg c :
  reachable f cfg c →
  ∃ ms c', Forall is_step ms ∧ run_schedule step c ms = Some c' ∧
    ∀ i p, procs c' !! i = Some p → finished p = true.
Proof.
  remember (steps_left c) as n eqn:Hn. revert c Hn.
  induction (lt_wf n) as [n _ IH]; intros c -> Hc.
  destruct (decide (map_Forall (fun _ p => finished p = true) (procs c))) as [Hall|Hnot].
  { exists [], c. split_and!; [constructor|done|]. exact Hall. }
  apply map_not_Forall in Hnot as (i & p & Hi & Hf%not_true_is_false); [|apply _].
  destruct (some_process_runs _ _ _ _ _ Hc Hi Hf) as (j & q & s' & q' & Hj & Hst).
  assert (move_step step c (Step j willing) = Some (mkConfig s' (<[j := q']> (procs c)))) as Hm.
  { simpl. by rewrite Hj, Hst. }
  destruct (IH _ (step_move_left _ _ _ _ Hm) _ eq_refl) as (ms & c' & Hms & Hr & Hfin).
  { exact (reach_move step starts _ c (Step j willing) _ Hc I Hm). }
  exists (Step j willing :: ms), c'. split_and!; [by constructor| |done]. cbn [run_schedule]. by rewrite Hm.
Qed.

(** ** Publications *)

Lemma message_inj n p q : valid_str p → valid_str q → message n p = message n q → p = q.
Proof.
  intros Hp Hq Hm. unfold message in Hm. apply app_inv_head in Hm. injection Hm as Hb.
  rewrite <-(from_utf8_lossy_as_bytes p Hp), Hb. by apply from_utf8_lossy_as_bytes.
Qed.


(** ** Properties *)

(** C4: whatever logins and registry commands interleave, a login is only
    accepted against a hash that an enabled account of that name really had,
    and its password verifies against that hash, unless the keyed hash of the
    success cache collides on two different messages. *)
Theorem accepted_logins_are_genuine (f : users_file) (cfg : UsersConfig) (c : system) (i : nat)
  (n pw h : str) :
  reachable f cfg c → procs c !! i = Some (Answer n pw (Some h)) →
  (∃ past u, past ∈ history (shared c) ∧ find n past = Some u ∧ is_enabled u = true ∧ hash u = h) ∧
  (verify_hash h pw = Ok true ∨
   ∃ p, verify_hash h p = Ok true ∧ message n p ≠ message n pw ∧
     hmac_sha256 secret (message n p) = hmac_sha256 secret (message n pw)).
Proof.
  intros Hc Hi. apply reachable_holds in Hc as [_ HL].
  destruct (HL _ _ Hi) as [Hp [Hk (p & Hvp & Hv & Ht)]]. specialize (Hp pw eq_refl).
  split; [exact Hk|]. destruct (decide (message n p = message n pw)) as [Hm|Hm].
  - left. by rewrite <-(message_inj n p pw Hvp Hp Hm).
  - right. by exists p.
Qed.


(** logins and commands neither deadlock nor run forever: from every
    reachable state the pending ones can all be run to their answers, and no
    schedule, however the environment behaves, takes more steps than the
    processes have left between them. *)
Theorem every_login_is_answered (f : users_file) (cfg : UsersConfig) (c : system) :
  reachable f cfg c →
  (∃ ms c', Forall is_step ms ∧ run_schedule step c ms = Some c' ∧
     ∀ i p, procs c' !! i = Some p → finished p = true) ∧
  (∀ ms c', Forall is_step ms → run_schedule step c ms = Some c' → (length ms ≤ steps_left c)%nat).
Proof.
  intros Hc. split; [by eapply all_finish|]. intros ms c' Hms Hr.
  pose proof (schedule_bounded c ms c' Hms Hr). lia.
Qed.

(** A login of an account without a password, alone, whose save loses only the
    sync of the directory. *)
Definition unsynced (salt : list Z) : answers :=
  mkAnswers (Some salt) None None true (mkSave true true true true false) false.
Definition unsynced_login (n pw : str) (salt : list Z) : list (move pc answers) :=
  Spawn 0 (Start n pw) :: replicate 8 (Step 0%nat (unsynced salt)).

Ltac run_on rewrites :=
  erewrite run_step; [|apply lookup_insert_eq|unfold step; cbn -[load save decide_login]; rewrites; reflexivity];
  rewrite insert_insert_eq.

(** a refused first login can take the account all the same: when the
    directory cannot be synced after the rename, the login is refused and the
    memory keeps the sentinel, yet the registry file already holds the hash of
    the refused password. *)
Theorem refused_login_may_claim_the_account (f : users_file) (cfg : UsersConfig) (n pw h body : str)
  (salt : list Z) (u : User) :
  persistent = true → load true f = Ok cfg → find n cfg = Some u → is_enabled u = true →
  hash u = INIT_SENTINEL → pw ≠ [] → argon_hash (as_bytes pw) salt = Some h →
  ktav_to_string (update_first n (set_hash h) cfg) = Some body →
  ∃ c' current, run_schedule step (initial f cfg) (unsynced_login n pw salt) = Some c' ∧
    procs c' !! 0%nat = Some (Answer n pw None) ∧ users (shared c') = cfg ∧
    load true (disk (shared c')) = Ok current ∧ find n current = Some (set_hash h u).
Proof.
  intros Hper Hl Hf He Hh Hpw Ha Hb.
  assert (load true (UsersText body) = Ok (update_first n (set_hash h) cfg)) as Hload.
  { unfold load. simpl. by rewrite (ktav_round_trip _ _ Hb). }
  assert (str_eqb (hash u) INIT_SENTINEL = true) as Hs by by apply bool_decide_eq_true_2.
  assert (is_empty pw = false) as Hne by by destruct pw.
  unfold unsynced_login, initial. remember (replicate 8 _) as ms eqn:Hms. simpl.
  rewrite lookup_empty. rewrite Hms. clear Hms ms. cbn [replicate].
  run_on ltac:(unfold decide_login; rewrite Hf, He, Hs).
  run_on ltac:(rewrite Hne, Ha, Hper).
  do 2 run_on idtac.
  run_on ltac:(rewrite Hper, Hl; unfold reloaded; rewrite Hf, He, Hs).
  run_on ltac:(rewrite Hper; unfold save; rewrite Hb).
  run_on idtac. run_on ltac:(rewrite Hper).
  eexists _, _. split; [reflexivity|]. split_and!; [apply lookup_insert_eq|done|exact Hload|].
  by apply find_update.
Qed.
End AuthRun.

(** ** Witnesses *)

Section Witnesses.
(** Passwords are kept readable behind the Argon2id prefix, and a message is
    its own tag. *)
Definition sample_argon : Argon2Crate := {|
  PasswordHash := list Z;
  argon_hash pw salt := Some (lit "$argon2id$" ++ pw);
  phc_parse s := strip_prefix (lit "$argon2id$") s;
  argon_verify pw p := Some (bool_decide (pw = p));
|}.
Definition sample_hmac : HmacCrate := {| hmac_sha256 key m := m |}.

#[local] Existing Instance sample_argon.
#[local] Existing Instance sample_hmac.

Definition alice : User := mkUser (lit "alice") INIT_SENTINEL true false None None None.
Definition alice_set : User := set_hash (lit "$argon2id$" ++ lit "pw") alice.
Definition bob : User := mkUser (lit "bob") (lit "$argon2id$" ++ lit "hunter2") true true None None None.
Definition sample_users : UsersConfig := [alice; bob].

(** Two registries and how they are written. *)
Definition sample_ktav : KtavCrate := {|
  ktav_from_str s :=
    if str_eqb s (lit "1") then Some sample_users
    else if str_eqb s (lit "2") then Some [alice_set; bob] else None;
  ktav_to_string cfg :=
    match cfg with
    | [mkUser _ h true false None None None; mkUser _ h' true true None None None] =>
        if str_eqb h' (hash bob) then
          if str_eqb h INIT_SENTINEL && bool_decide (map name cfg = map name sample_users) then Some (lit "1")
          else if str_eqb h (hash alice_set) && bool_decide (map name cfg = map name sample_users)
          then Some (lit "2") else None
        else None
    | _ => None
    end;
|}.
#[local] Existing Instance sample_ktav.

#[local] Instance sample_argon_laws : Argon2Laws.
Proof.
  split; intros pw salt h [= <-].
  - apply starts_with_spec. by exists pw.
  - exists pw. split; [apply (strip_prefix_app (lit "$argon2id$"))|]. simpl. by rewrite bool_decide_true.
Qed.

#[local] Instance sample_ktav_laws : KtavLaws.
Proof.
  split. intros cfg s. simpl.
  destruct cfg as [|[n h [] [] [] [] []] [|[n' h' [] [] [] [] []] []]]; try done.
  destruct (str_eqb h' _) eqn:H1; [|done]. apply bool_decide_eq_true_1 in H1 as ->.
  destruct (str_eqb h INIT_SENTINEL && _) eqn:H2.
  - boolprop. apply bool_decide_eq_true_1 in H as ->. simplify_eq/=. by intros [= <-].
  - clear H2. destruct (str_eqb h _ && _) eqn:H3; [|done]. boolprop.
    apply bool_decide_eq_true_1 in H as ->. simplify_eq/=. by intros [= <-].
Qed.

Definition calm : answers := mkAnswers (Some []) None None true all_ok false.
Definition login (i : nat) (n pw : str) (k : nat) : list (move pc answers) :=
  Spawn i (Start n pw) :: replicate k (Step i calm).
Definition after_run (ms : list (move pc answers)) : system :=
  default (initial (UsersText (lit "1")) sample_users)
    (run_schedule (step [] true) (initial (UsersText (lit "1")) sample_users) ms).

Lemma sample_valid : Forall (legal starts) (login 0 (lit "bob") (lit "hunter2") 4) ∧
  Forall (legal starts) (login 1 (lit "bob") (lit "hunter2") 2).
Proof. split; repeat constructor. Qed.

(** The second login of the same user is answered from the cache. *)
Lemma accepted_logins_are_genuine_witness :
  verify_hash (hash bob) (lit "hunter2") = Ok true.
Proof.
  destruct (accepted_logins_are_genuine [] true (UsersText (lit "1")) sample_users
    (after_run (login 0 (lit "bob") (lit "hunter2") 4 ++ login 1 (lit "bob") (lit "hunter2") 2))
    1 (lit "bob") (lit "hunter2") (hash bob)) as [_ [Hv|(p & _ & Hne & He)]].
  - apply (run_reach (step [] true) starts _
      (login 0 (lit "bob") (lit "hunter2") 4 ++ login 1 (lit "bob") (lit "hunter2") 2)).
    + apply Forall_app. exact sample_valid.
    + vm_compute. reflexivity.
  - vm_compute. reflexivity.
  - exact Hv.
  - destruct (Hne He).
Defined.

(** The first password of an account is about to be saved. *)
Definition before_save : list (move pc answers) := login 0 (lit "alice") (lit "pw") 5.

Lemma before_save_reachable :
  reachable [] true (UsersText (lit "1")) sample_users (after_run before_save).
Proof.
  apply (run_reach (step [] true) starts _ before_save); [by repeat constructor|].
  vm_compute. reflexivity.
Qed.


Lemma every_login_is_answered_witness :
  ∃ ms c', run_schedule (step [] true) (after_run before_save) ms = Some c' ∧
    ∀ i p, procs c' !! i = Some p → finished p = true.
Proof.
  destruct (every_login_is_answered [] true (UsersText (lit "1")) sample_users (after_run before_save)
    before_save_reachable) as [(ms & c' & _ & Hr & Hf) _].
  exists ms, c'. split; [exact Hr|exact Hf].
Defined.

Lemma refused_login_may_claim_the_account_witness :
  ∃ c' current,
    run_schedule (step [] true) (initial (UsersText (lit "1")) sample_users)
      (unsynced_login (lit "alice") (lit "pw") []) = Some c' ∧
    procs c' !! 0%nat = Some (Answer (lit "alice") (lit "pw") None) ∧
    users (shared c') = sample_users ∧ load true (disk (shared c')) = Ok current ∧
    find (lit "alice") current = Some alice_set.
Proof.
  apply (refused_login_may_claim_the_account [] true (UsersText (lit "1")) sample_users (lit "alice")
    (lit "pw") (hash alice_set) (lit "2") [] alice); reflexivity || discriminate.
Defined.
End Witnesses.
End AuthRun.
