(* ===== verification/Socks5Client.v ===== *)
(** * The SOCKS5 client handshake

    [packages/socks5-proto/src/client.rs]: CONNECT over a stream that is
    already open, with optional username and password, and the routing
    predicate [is_onion] of [packages/socks5-proto/src/lib.rs].  The bytes the
    peer sends and the fate of every read and write are inputs. *)

From S2P Require Import Prelude Order OrdMap Str Utf8 Net NetText.
Open Scope Z_scope.

Module Socks5Client.

(** ** Credentials *)

Record Credentials : Type := mkCredentials { username : str; password : str }.

Inductive Error : Type := InvalidInput | Io | Timeout | Protocol.

Definition credentials_new (u p : str) : result Credentials Error :=
  if is_empty u || is_empty p || (u8_max <? str_len u) || (u8_max <? str_len p)
  then Err InvalidInput else Ok (mkCredentials u p).

(** ** The stream

    [inbound] is what the peer sends before it closes, [outbound] what was
    written; [fates] decide the reads and writes in order, all well once they
    run out.  A write that fails or is overtaken by the deadline may have
    written part of its bytes. *)
Inductive fate : Type :=
| Done
| Broken (wrote : nat)
| Late (wrote : nat).

Record wire : Type := mkWire {
  inbound : list Z;
  outbound : list Z;
  fates : list fate;
}.

Definition io (A : Type) : Type := wire → result A Error * wire.

Definition ret {A} (x : A) : io A := fun w => (Ok x, w).
Definition fail {A} (e : Error) : io A := fun w => (Err e, w).
Definition bind {A B} (m : io A) (k : A → io B) : io B := fun w =>
  match m w with
  | (Ok x, w') => k x w'
  | (Err e, w') => (Err e, w')
  end.

Declare Scope socks_scope.
Delimit Scope socks_scope with socks.
Notation "'let!' x ':=' m 'in' k" := (bind m (fun x => k))
  (at level 10, x pattern, m at level 100, k at level 200) : socks_scope.
#[local] Open Scope socks_scope.

Definition next_fate (w : wire) : fate * list fate :=
  match fates w with
  | [] => (Done, [])
  | f :: fs => (f, fs)
  end.

Definition write_all (bs : list Z) : io unit := fun w =>
  let '(f, fs) := next_fate w in
  match f with
  | Done => (Ok tt, mkWire (inbound w) (outbound w ++ bs) fs)
  | Broken n => (Err Io, mkWire (inbound w) (outbound w ++ take n bs) fs)
  | Late n => (Err Timeout, mkWire (inbound w) (outbound w ++ take n bs) fs)
  end.

Definition read_exact (n : nat) : io (list Z) := fun w =>
  let '(f, fs) := next_fate w in
  match f with
  | Done =>
      if (length (inbound w) <? n)%nat then (Err Io, mkWire [] (outbound w) fs)
      else (Ok (take n (inbound w)), mkWire (drop n (inbound w)) (outbound w) fs)
  | Broken _ => (Err Io, mkWire (inbound w) (outbound w) fs)
  | Late _ => (Err Timeout, mkWire (inbound w) (outbound w) fs)
  end.

(** ** The handshake *)

Definition octets16 (bits : Z) : list Z := parts_of 8 16 bits.

(** [port.to_be_bytes()]. *)
Definition be_bytes (p : Z) : list Z := [p / 256; p mod 256].

(** The CONNECT request for a host. *)
Definition request (host : str) (port : Z) : list Z :=
  [5; 1; 0] ++
  match ip_from_str host with
  | Some (V4 b) => 1 :: octets4 b
  | Some (V6 b) => 4 :: octets16 b
  | None => 3 :: str_len host :: as_bytes host
  end ++ be_bytes port.

Definition auth_message (c : Credentials) : list Z :=
  [1; str_len (username c) mod 256] ++ as_bytes (username c) ++
  [str_len (password c) mod 256] ++ as_bytes (password c).

Definition authenticate (credentials : option Credentials) : io unit :=
  match credentials with
  | None => fail Protocol
  | Some c =>
      let! _ := write_all (auth_message c) in
      let! result := read_exact 2 in
      if bool_decide (result = [1; 0]) then ret tt else fail Protocol
  end.

(** The length of the bound address in the reply. *)
Definition tail_length (atyp : Z) : io nat :=
  if atyp =? 1 then ret 4%nat
  else if atyp =? 4 then ret 16%nat
  else if atyp =? 3 then
    let! n := read_exact 1 in
    if nth 0 n 0 =? 0 then fail Protocol else ret (Z.to_nat (nth 0 n 0))
  else fail Protocol.

(** The request and its reply. *)
Definition finish (host : str) (port : Z) : io unit :=
  let! _ := write_all (request host port) in
  let! header := read_exact 4 in
  if negb (nth 0 header 0 =? 5) || negb (nth 2 header 0 =? 0) then fail Protocol
  else
    let! n := tail_length (nth 3 header 0) in
    let! _ := read_exact (n + 2) in
    if nth 1 header 0 =? 0 then ret tt else fail Protocol.

Definition exchange (host : str) (port : Z) (credentials : option Credentials) : io unit :=
  let methods := if bool_decide (is_Some credentials) then [2] else [0] in
  let! _ := write_all [5; Z.of_nat (length methods)] in
  let! _ := write_all methods in
  let! choice := read_exact 2 in
  if negb (nth 0 choice 0 =? 5) || negb (nth 1 choice 0 =? nth 0 methods 0) then fail Protocol
  else
    let! _ := (if nth 1 choice 0 =? 2 then authenticate credentials else ret tt) in
    finish host port.

Definition connect (host : str) (port : Z) (credentials : option Credentials) : io unit :=
  if is_empty host || (u8_max <? str_len host) || contains_char 0 (as_bytes host)
  then fail InvalidInput
  else exchange host port credentials.

(** ** Routing *)

(** [is_onion]: the last label, without trailing dots, is [onion]. *)
Definition is_onion (host : str) : bool :=
  match rsplit_once 46 (trim_end_by (Z.eqb 46) host) with
  | Some (_, tld) => eq_ignore_ascii_case tld (lit "onion")
  | None => false
  end.

(** ** Reference definitions *)

(** What a server reads from a CONNECT request (RFC 1928). *)
Inductive destination : Type :=
| ToAddress (a : ip_addr)
| ToName (bytes : list Z).

Definition decode_port (bs : list Z) : option (Z * list Z) :=
  match bs with
  | a :: b :: rest => Some (a * 256 + b, rest)
  | _ => None
  end.

Definition decode_after (d : list Z → destination) (n : nat) (bs : list Z)
  : option (destination * Z * list Z) :=
  if (length bs <? n)%nat then None
  else match decode_port (drop n bs) with
  | Some (p, rest) => Some (d (take n bs), p, rest)
  | None => None
  end.

Definition decode_request (bs : list Z) : option (destination * Z * list Z) :=
  match bs with
  | 5 :: 1 :: 0 :: 1 :: bs => decode_after (fun b => ToAddress (V4 (of_octets b))) 4 bs
  | 5 :: 1 :: 0 :: 4 :: bs => decode_after (fun b => ToAddress (V6 (of_octets b))) 16 bs
  | 5 :: 1 :: 0 :: 3 :: n :: bs => decode_after ToName (Z.to_nat n) bs
  | _ => None
  end.

Definition destination_of (host : str) : destination :=
  match ip_from_str host with
  | Some a => ToAddress a
  | None => ToName (as_bytes host)
  end.

(** What a server reads from the username and password message (RFC 1929). *)
Definition decode_counted (bs : list Z) : option (list Z * list Z) :=
  match bs with
  | n :: bs => if (length bs <? Z.to_nat n)%nat then None
               else Some (take (Z.to_nat n) bs, drop (Z.to_nat n) bs)
  | [] => None
  end.

Definition decode_auth (bs : list Z) : option (list Z * list Z * list Z) :=
  match bs with
  | 1 :: bs =>
      match decode_counted bs with
      | Some (u, bs) =>
          match decode_counted bs with
          | Some (p, rest) => Some (u, p, rest)
          | None => None
          end
      | None => None
      end
  | _ => None
  end.

(** Everything the client has to say, and a granting reply. *)
Definition dialogue (host : str) (port : Z) (credentials : option Credentials) : list (list Z) :=
  match credentials with
  | None => [[5; 1; 0]; request host port]
  | Some c => [[5; 1; 2]; auth_message c; request host port]
  end.

Definition method (credentials : option Credentials) : Z :=
  match credentials with None => 0 | Some _ => 2 end.

Definition granting (bound : list Z) : Prop :=
  (∃ a, length a = 6%nat ∧ bound = [5; 0; 0; 1] ++ a) ∨
  (∃ a, length a = 18%nat ∧ bound = [5; 0; 0; 4] ++ a) ∨
  (∃ n a, n ≠ 0 ∧ length a = (Z.to_nat n + 2)%nat ∧ bound = [5; 0; 0; 3; n] ++ a).

Definition answers (credentials : option Credentials) (bound : list Z) : list Z :=
  match credentials with
  | None => [5; 0] ++ bound
  | Some _ => [5; 2] ++ [1; 0] ++ bound
  end.

(** What the peer must have said before each message but the first. *)
Definition prompts (credentials : option Credentials) : list (list Z) :=
  match credentials with
  | None => [[5; 0]]
  | Some _ => [[5; 2]; [1; 0]]
  end.

Lemma concat_dialogue host port credentials :
  concat (dialogue host port credentials) =
  [5; 1] ++ [method credentials] ++ from_option auth_message [] credentials ++ request host port.
Proof. destruct credentials; cbn [dialogue concat method from_option]; by rewrite app_nil_r, <-?app_assoc. Qed.

(** ** The stream operations *)

Lemma bind_Ok {A B} (m : io A) (k : A → io B) w y w' :
  bind m k w = (Ok y, w') → ∃ x w1, m w = (Ok x, w1) ∧ k x w1 = (Ok y, w').
Proof. unfold bind. destruct (m w) as [[x|] w1]; [|done]. eauto. Qed.

Lemma write_all_Ok bs w x w' :
  write_all bs w = (Ok x, w') → inbound w' = inbound w ∧ outbound w' = outbound w ++ bs.
Proof. unfold write_all. destruct (next_fate w) as [[| |] fs]; intros [= _ <-]. done. Qed.

Lemma read_exact_Ok n w bs w' :
  read_exact n w = (Ok bs, w') →
  length bs = n ∧ inbound w = bs ++ inbound w' ∧ outbound w' = outbound w.
Proof.
  unfold read_exact. destruct (next_fate w) as [[| |] fs]; try done.
  destruct (Nat.ltb_spec (length (inbound w)) n); [done|]. intros [= <- <-]. simpl.
  rewrite length_take, take_drop. split_and!; [lia|done|done].
Qed.

Lemma write_all_done bs i o : write_all bs (mkWire i o []) = (Ok tt, mkWire i (o ++ bs) []).
Proof. done. Qed.

Lemma read_exact_done bs i o : read_exact (length bs) (mkWire (bs ++ i) o []) = (Ok bs, mkWire i o []).
Proof.
  unfold read_exact. simpl. rewrite length_app.
  destruct (Nat.ltb_spec (length bs + length i) (length bs)); [lia|].
  by rewrite take_app_length, drop_app_length.
Qed.

Ltac invert_io :=
  repeat match goal with
  | H : bind _ _ _ = (Ok _, _) |- _ => apply bind_Ok in H as (? & ? & ? & ?)
  | H : write_all _ _ = (Ok _, _) |- _ => apply write_all_Ok in H as [? ?]
  | H : read_exact _ _ = (Ok _, _) |- _ => apply read_exact_Ok in H as (? & ? & ?)
  | H : ret _ _ = (Ok _, _) |- _ => injection H as ? ?; subst
  | H : fail _ _ = (Ok _, _) |- _ => discriminate H
  end.

Lemma length_2 (l : list Z) : length l = 2%nat → ∃ a b, l = [a; b].
Proof. destruct l as [|a [|b []]]; try done. eauto. Qed.

Lemma tail_length_Ok t w n w' :
  tail_length t w = (Ok n, w') →
  outbound w' = outbound w ∧
  ((t = 1 ∧ n = 4%nat ∧ inbound w' = inbound w) ∨ (t = 4 ∧ n = 16%nat ∧ inbound w' = inbound w) ∨
   (t = 3 ∧ ∃ k, k ≠ 0 ∧ n = Z.to_nat k ∧ inbound w = k :: inbound w')).
Proof.
  unfold tail_length. destruct (Z.eqb_spec t 1) as [->|]; [intros; invert_io; by eauto 8|].
  destruct (Z.eqb_spec t 4) as [->|]; [intros; invert_io; by eauto 8|].
  destruct (Z.eqb_spec t 3) as [->|]; [|done]. intros Hb. apply bind_Ok in Hb as (bs & w1 & Hr & Hk).
  apply read_exact_Ok in Hr as (Hl & Hi & Ho). destruct bs as [|k []]; try done. simpl in Hk.
  destruct (Z.eqb_spec k 0); [done|]. invert_io. split; [done|]. right. right. eauto.
Qed.

Lemma authenticate_Ok c w x w' :
  authenticate (Some c) w = (Ok x, w') →
  inbound w = [1; 0] ++ inbound w' ∧ outbound w' = outbound w ++ auth_message c.
Proof.
  unfold authenticate. intros Ha. apply bind_Ok in Ha as (? & w1 & Hw & Ha).
  apply bind_Ok in Ha as (bs & w2 & Hr & Ha). invert_io. case_bool_decide; [|done]. invert_io.
  split; congruence.
Qed.

Lemma finish_Ok host port w x w' :
  finish host port w = (Ok x, w') →
  outbound w' = outbound w ++ request host port ∧
  ∃ bound, granting bound ∧ inbound w = bound ++ inbound w'.
Proof.
  unfold finish. intros Hf. apply bind_Ok in Hf as (? & w1 & Hw & Hf).
  apply write_all_Ok in Hw as [Hi1 Ho1]. apply bind_Ok in Hf as (hd & w2 & Hr & Hf).
  apply read_exact_Ok in Hr as (Hl & Hi2 & Ho2). destruct hd as [|a [|b [|c [|d []]]]]; try done.
  simpl in Hf. destruct (Z.eqb_spec a 5) as [->|]; [|done]. destruct (Z.eqb_spec c 0) as [->|]; [|done].
  simpl in Hf. apply bind_Ok in Hf as (n & w3 & Ht & Hf). apply tail_length_Ok in Ht as [Ho3 Ht].
  apply bind_Ok in Hf as (bs & w4 & Hr & Hf). apply read_exact_Ok in Hr as (Hlb & Hi4 & Ho4).
  destruct (Z.eqb_spec b 0) as [->|]; [|done]. invert_io. split; [congruence|].
  rewrite <-Hi1, Hi2. destruct Ht as [(-> & -> & Hi3)|[(-> & -> & Hi3)|(-> & k & Hk & -> & Hi3)]].
  - exists ([5; 0; 0; 1] ++ bs). split; [left; by exists bs|]. by rewrite <-Hi3, Hi4.
  - exists ([5; 0; 0; 4] ++ bs). split; [right; left; by exists bs|]. by rewrite <-Hi3, Hi4.
  - exists ([5; 0; 0; 3; k] ++ bs). split; [right; right; by exists k, bs|]. by rewrite Hi3, Hi4.
Qed.

Lemma exchange_Ok host port credentials w x w' :
  exchange host port credentials w = (Ok x, w') →
  outbound w' = outbound w ++ concat (dialogue host port credentials) ∧
  ∃ bound, granting bound ∧ inbound w = answers credentials bound ++ inbound w'.
Proof.
  unfold exchange. intros He. apply bind_Ok in He as (? & w1 & Hw & He). apply write_all_Ok in Hw as [Hi1 Ho1].
  apply bind_Ok in He as (? & w2 & Hw & He). apply write_all_Ok in Hw as [Hi2 Ho2].
  apply bind_Ok in He as (ch & w3 & Hr & He). apply read_exact_Ok in Hr as (Hl & Hi3 & Ho3).
  destruct (length_2 ch Hl) as (a & b & ->). simpl in He.
  destruct (Z.eqb_spec a 5) as [->|]; [|done]. simpl in He.
  rewrite concat_dialogue. destruct credentials as [c|]; cbn [method from_option] in *; simpl in He, Ho1, Ho2, Hi3.
  - destruct (Z.eqb_spec b 2) as [->|]; [|done]. simpl in He.
    apply bind_Ok in He as (? & w4 & Ha & He). apply authenticate_Ok in Ha as [Hi4 Ho4].
    apply finish_Ok in He as (Ho5 & bound & Hb & Hi5). split.
    + by rewrite Ho5, Ho4, Ho3, Ho2, Ho1, <-!app_assoc.
    + exists bound. split; [done|]. by rewrite <-Hi1, <-Hi2, Hi3, Hi4, Hi5.
  - destruct (Z.eqb_spec b 0) as [->|]; [|done]. simpl in He.
    apply bind_Ok in He as (? & w4 & Ha & He). injection Ha as _ <-.
    apply finish_Ok in He as (Ho5 & bound & Hb & Hi5). split.
    + by rewrite Ho5, Ho3, Ho2, Ho1, <-!app_assoc.
    + exists bound. split; [done|]. by rewrite <-Hi1, <-Hi2, Hi3, Hi5.
Qed.

(** ** A peer that grants the request *)

Lemma finish_done host port bound i o :
  granting bound →
  finish host port (mkWire (bound ++ i) o []) = (Ok tt, mkWire i (o ++ request host port) []).
Proof.
  unfold finish, bind. rewrite write_all_done.
  intros [(a & Hl & ->)|[(a & Hl & ->)|(n & a & Hn & Hl & ->)]]; rewrite <-app_assoc.
  - rewrite (read_exact_done [5; 0; 0; 1]). cbn -[read_exact app].
    rewrite <-Hl, (read_exact_done a). done.
  - rewrite (read_exact_done [5; 0; 0; 4]). cbn -[read_exact app].
    rewrite <-Hl, (read_exact_done a). done.
  - change ([5; 0; 0; 3; n] ++ a ++ i) with ([5; 0; 0; 3] ++ [n] ++ a ++ i).
    rewrite (read_exact_done [5; 0; 0; 3]). cbn -[read_exact app tail_length].
    unfold tail_length, bind. simpl (_ =? _). cbv iota beta. rewrite (read_exact_done [n]). cbn -[read_exact app Z.to_nat].
    destruct (Z.eqb_spec n 0); [done|]. cbn -[read_exact app Z.to_nat].
    rewrite <-Hl, (read_exact_done a). done.
Qed.

Lemma exchange_done host port credentials bound i o :
  granting bound →
  exchange host port credentials (mkWire (answers credentials bound ++ i) o []) =
  (Ok tt, mkWire i (o ++ concat (dialogue host port credentials)) []).
Proof.
  intros Hb. unfold exchange. destruct credentials as [c|]; cbn -[read_exact write_all app dialogue finish].
  - unfold bind. rewrite !write_all_done. rewrite <-!app_assoc, (read_exact_done [5; 2]).
    cbn -[read_exact write_all app dialogue finish]. unfold authenticate, bind. rewrite write_all_done.
    rewrite (read_exact_done [1; 0]), bool_decide_eq_true_2 by done. cbn -[read_exact write_all app dialogue finish].
    rewrite finish_done by done.
    by rewrite concat_dialogue, <-!app_assoc.
  - unfold bind. rewrite !write_all_done. rewrite <-!app_assoc, (read_exact_done [5; 0]).
    cbn -[read_exact write_all app dialogue finish].
    rewrite finish_done by done.
    by rewrite concat_dialogue, <-!app_assoc.
Qed.

Definition host_ok (host : str) : Prop :=
  host ≠ [] ∧ str_len host ≤ 255 ∧ contains_char 0 (as_bytes host) = false.

Lemma connect_valid host port credentials w :
  host_ok host → connect host port credentials w = exchange host port credentials w.
Proof.
  intros (Hn & Hl & Hc). unfold connect. rewrite Hc. destruct host; [done|].
  destruct (Z.ltb_spec u8_max (str_len (z :: host))) as [Hu|]; [unfold u8_max in Hu; lia|]. done.
Qed.

(** a handshake with a valid host succeeds over a stream that works
    exactly when the peer's bytes begin with the choice of the one offered
    method, the acceptance of the credentials where there are any, and a
    granting reply of one of the three address types; the client then wrote
    its whole side of the dialogue and left the bytes after the reply unread. *)
Theorem handshake_succeeds_iff host port credentials i o w' :
  host_ok host →
  connect host port credentials (mkWire i o []) = (Ok tt, w') ↔
  ∃ bound, granting bound ∧ i = answers credentials bound ++ inbound w' ∧
    outbound w' = o ++ concat (dialogue host port credentials) ∧ fates w' = [].
Proof.
  intros Hh. rewrite connect_valid by done. split.
  - intros He. pose proof (exchange_Ok _ _ _ _ _ _ He) as (Ho & bound & Hb & Hi). exists bound.
    split_and!; [done..|]. simpl in Hi. rewrite Hi, exchange_done in He by done.
    injection He as <-. done.
  - intros (bound & Hb & -> & Ho & Hf). rewrite exchange_done by done. destruct w'; simpl in *. congruence.
Qed.

(** ** What the client says, and when *)

(** Nothing but a prefix of [bs] was written. *)
Definition said {A} (m : io A) (bs : list Z) : Prop :=
  ∀ w, ∃ p, p `prefix_of` bs ∧ outbound (m w).2 = outbound w ++ p.

Lemma said_mono {A} (m : io A) bs bs' : said m bs → bs `prefix_of` bs' → said m bs'.
Proof. intros Hm Hp w. destruct (Hm w) as (p & ? & ?). exists p. split; [by etrans|done]. Qed.

Lemma said_write bs : said (write_all bs) bs.
Proof.
  intros w. unfold write_all. destruct (next_fate w) as [[|n|n] fs]; simpl.
  - by exists bs.
  - exists (take n bs). split; [apply prefix_take|done].
  - exists (take n bs). split; [apply prefix_take|done].
Qed.

Lemma said_read n : said (read_exact n) [].
Proof.
  intros w. exists []. unfold read_exact. rewrite app_nil_r. split; [done|].
  destruct (next_fate w) as [[|?|?] fs]; try done. by destruct (_ <? _)%nat.
Qed.

Lemma said_ret {A} (x : A) : said (ret x) [].
Proof. intros w. exists []. by rewrite app_nil_r. Qed.

Lemma said_fail {A} e : said (@fail A e) [].
Proof. intros w. exists []. by rewrite app_nil_r. Qed.

Lemma said_after_read {A B} (m : io A) (k : A → io B) bs :
  said m [] → (∀ x, said (k x) bs) → said (bind m k) bs.
Proof.
  intros Hm Hk w. destruct (Hm w) as (p & Hp & Ho). apply prefix_nil_inv in Hp as ->.
  unfold bind. destruct (m w) as [[x|e] w1]; simpl in *; rewrite app_nil_r in Ho.
  - destruct (Hk x w1) as (q & Hq & Hw). exists q. split; [done|]. congruence.
  - exists []. split; [apply prefix_nil|]. by rewrite app_nil_r.
Qed.

Lemma said_after_write {B} (k : unit → io B) bs bs' :
  (∀ x, said (k x) bs') → said (bind (write_all bs) k) (bs ++ bs').
Proof.
  intros Hk w. unfold bind. destruct (write_all bs w) as [[x|e] w1] eqn:Hw.
  - apply write_all_Ok in Hw as [_ Ho]. destruct (Hk x w1) as (q & Hq & Hw). exists (bs ++ q).
    split; [by apply prefix_app|]. by rewrite Hw, Ho, app_assoc.
  - destruct (said_write bs w) as (p & Hp & Ho). exists p. rewrite Hw in Ho.
    split; [by apply prefix_app_r|done].
Qed.

Lemma said_if {A} (b : bool) (m1 m2 : io A) bs : said m1 bs → said m2 bs → said (if b then m1 else m2) bs.
Proof. by destruct b. Qed.

Create HintDb said discriminated.
#[local] Hint Resolve said_read said_ret said_fail said_if said_after_read : said.
#[local] Hint Constants Opaque : said.

Lemma said_tail_length t : said (tail_length t) [].
Proof. unfold tail_length. auto 8 with said. Qed.

Lemma said_finish host port : said (finish host port) (request host port).
Proof.
  rewrite <-(app_nil_r (request host port)). apply said_after_write. intros _.
  pose proof said_tail_length. auto 10 with said.
Qed.

Lemma said_authenticate c : said (authenticate (Some c)) (auth_message c).
Proof.
  rewrite <-(app_nil_r (auth_message c)). apply said_after_write. intros _. auto 10 with said.
Qed.

(** [partial] of message [k] was written after [k] whole ones, each message
    but the first after the peer's prompt. *)
Definition spoken (messages heard : list (list Z)) (w w' : wire) : Prop :=
  ∃ k partial,
    outbound w' = outbound w ++ concat (take k messages) ++ partial ∧
    partial `prefix_of` nth k messages [] ∧
    concat (take (if bool_decide (partial = []) then k - 1 else k)%nat heard) `prefix_of` inbound w.

Lemma concat_take_prefix (l : list (list Z)) j k :
  (j ≤ k)%nat → concat (take j l) `prefix_of` concat (take k l).
Proof.
  intros Hj. replace (take j l) with (take j (take k l)) by (rewrite take_take; f_equal; lia).
  exists (concat (drop j (take k l))). by rewrite <-concat_app, take_drop.
Qed.

Lemma spoken_part messages heard k p w w' :
  outbound w' = outbound w ++ concat (take k messages) ++ p →
  p `prefix_of` nth k messages [] → concat (take k heard) `prefix_of` inbound w →
  spoken messages heard w w'.
Proof.
  intros Ho Hp Hh. exists k, p. split_and!; [done..|]. etrans; [|done]. apply concat_take_prefix.
  case_bool_decide; lia.
Qed.

Lemma spoken_whole messages heard k w w' :
  outbound w' = outbound w ++ concat (take k messages) →
  concat (take (k - 1) heard) `prefix_of` inbound w → spoken messages heard w w'.
Proof.
  intros Ho Hh. exists k, []. split_and!; [by rewrite app_nil_r|apply prefix_nil|].
  by rewrite bool_decide_eq_true_2.
Qed.

(** The rest of the exchange, once the greeting is out. *)
Definition after_greeting (host : str) (port : Z) (credentials : option Credentials) : io unit :=
  let! choice := read_exact 2 in
  if negb (nth 0 choice 0 =? 5) || negb (nth 1 choice 0 =? method credentials) then fail Protocol
  else
    let! _ := (if nth 1 choice 0 =? 2 then authenticate credentials else ret tt) in
    finish host port.

Lemma spoken_after_greeting host port credentials w w1 :
  inbound w1 = inbound w → outbound w1 = outbound w ++ [5; 1] ++ [method credentials] →
  spoken (dialogue host port credentials) (prompts credentials) w
    (after_greeting host port credentials w1).2.
Proof.
  intros Hi Ho. unfold after_greeting, bind at 1. destruct (said_read 2 w1) as (p & Hp & Hr).
  apply prefix_nil_inv in Hp as ->. rewrite app_nil_r in Hr.
  assert (Hg : outbound (read_exact 2 w1).2 = outbound w ++ concat (take 1 (dialogue host port credentials)))
    by (rewrite Hr, Ho; by destruct credentials).
  destruct (read_exact 2 w1) as [[ch|e] w2] eqn:Hread; simpl in Hg;
    [|apply (spoken_whole _ _ 1); [done|apply prefix_nil]].
  apply read_exact_Ok in Hread as (Hl & Hin & _). destruct (length_2 ch Hl) as (a & b & ->).
  rewrite Hi in Hin. change (nth 0 [a; b] 0) with a. change (nth 1 [a; b] 0) with b.
  destruct (Z.eqb_spec a 5) as [->|]; [|by apply (spoken_whole _ _ 1); [|apply prefix_nil]].
  destruct (Z.eqb_spec b (method credentials)) as [->|];
    [|by apply (spoken_whole _ _ 1); [|apply prefix_nil]].
  cbn [negb orb]. destruct credentials as [c|]; unfold method in *.
  - change (2 =? 2) with true. unfold bind. cbv iota beta. destruct (said_authenticate c w2) as (p & Hp & Ha).
    destruct (authenticate (Some c) w2) as [[x|e] w3] eqn:Hauth.
    + apply authenticate_Ok in Hauth as [Hi3 Ho3]. destruct (said_finish host port w3) as (q & Hq & Hf).
      apply (spoken_part _ _ 2 q); [|done|].
      * etrans; [exact Hf|]. rewrite Ho3, Hg. cbn [dialogue take concat]. by rewrite !app_nil_r, <-!app_assoc.
      * exists (inbound w3). by rewrite Hin, Hi3.
    + apply (spoken_part _ _ 1 p); [|done|by exists (inbound w2)]. etrans; [exact Ha|]. by rewrite Hg, <-app_assoc.
  - change (0 =? 2) with false. unfold bind, ret. cbv iota beta. destruct (said_finish host port w2) as (q & Hq & Hf).
    apply (spoken_part _ _ 1 q); [|done|by exists (inbound w2)]. etrans; [exact Hf|]. by rewrite Hg, <-app_assoc.
Qed.

Lemma spoken_exchange host port credentials w :
  spoken (dialogue host port credentials) (prompts credentials) w (exchange host port credentials w).2.
Proof.
  assert (Hm : nth 0 (dialogue host port credentials) [] = [5; 1] ++ [method credentials])
    by (by destruct credentials).
  replace (exchange host port credentials) with
    (let! _ := write_all [5; 1] in let! _ := write_all [method credentials] in
     after_greeting host port credentials) by (by destruct credentials).
  unfold bind. destruct (said_write [5; 1] w) as (p & Hp & Hw).
  destruct (write_all [5; 1] w) as [[x|e] w1] eqn:H1;
    [|apply (spoken_part _ _ 0 p); [done|rewrite Hm; by apply prefix_app_r|apply prefix_nil]].
  apply write_all_Ok in H1 as [Hi1 Ho1]. destruct (said_write [method credentials] w1) as (q & Hq & Hw1).
  destruct (write_all [method credentials] w1) as [[x'|e] w2] eqn:H2;
    [|apply (spoken_part _ _ 0 ([5; 1] ++ q));
      [by rewrite Hw1, Ho1, <-app_assoc|rewrite Hm; by apply prefix_app|apply prefix_nil]].
  apply write_all_Ok in H2 as [Hi2 Ho2]. apply spoken_after_greeting; [congruence|].
  by rewrite Ho2, Ho1, <-app_assoc.
Qed.

(** whatever the peer sends and wherever the stream breaks or the deadline
    strikes, the client's output is an initial part of its dialogue, and it
    never begins a message before the peer agreed to the one before it: no
    credential leaves before the peer chose authentication, and no
    destination before it chose the method and accepted the credentials. *)
Theorem nothing_is_said_too_early host port credentials w :
  spoken (dialogue host port credentials) (prompts credentials) w (connect host port credentials w).2.
Proof.
  unfold connect. destruct (_ || _); [|apply spoken_exchange].
  apply (spoken_whole _ _ 0); [by rewrite app_nil_r|apply prefix_nil].
Qed.

(** ** The messages decode *)

Lemma be_bytes_decode p rest : decode_port (be_bytes p ++ rest) = Some (p, rest).
Proof. simpl. do 2 f_equal. pose proof (Z.div_mod p 256 ltac:(lia)). lia. Qed.

Lemma decode_after_app d bs p rest :
  decode_after d (length bs) (bs ++ be_bytes p ++ rest) = Some (d bs, p, rest).
Proof.
  unfold decode_after. rewrite length_app.
  destruct (Nat.ltb_spec (length bs + length (be_bytes p ++ rest)) (length bs)); [lia|].
  by rewrite drop_app_length, take_app_length, be_bytes_decode.
Qed.

Lemma of_octets_octets16 bits : in_u u128_max bits → of_octets (octets16 bits) = bits.
Proof.
  intros Hb. unfold octets16, of_octets, of_parts. rewrite of_parts_from by done.
  apply Z.mod_small. unfold in_u, u128_max in Hb. simpl. lia.
Qed.

Lemma decode_counted_app s rest :
  0 ≤ str_len s ≤ 255 →
  decode_counted ((str_len s mod 256 :: as_bytes s) ++ rest) = Some (as_bytes s, rest).
Proof.
  intros Hs. simpl. rewrite Z.mod_small by lia. unfold str_len in *. rewrite Nat2Z.id.
  rewrite length_app. destruct (Nat.ltb_spec (length (as_bytes s) + length rest) (length (as_bytes s))); [lia|].
  by rewrite drop_app_length, take_app_length.
Qed.

(** a server that reads the request back gets the destination the caller
    named, the address itself where the text is one and the bytes of the name
    otherwise, and the port, with nothing left over; and the credentials the
    constructor accepted come back whole from the authentication message. *)
Theorem requests_decode host port u p c rest :
  host_ok host → credentials_new u p = Ok c →
  decode_request (request host port ++ rest) = Some (destination_of host, port, rest) ∧
  decode_auth (auth_message c ++ rest) = Some (as_bytes u, as_bytes p, rest).
Proof.
  intros (Hn & Hl & _) Hc. split.
  - unfold request, destination_of. destruct (ip_from_str host) as [[b|b]|] eqn:Hip.
    + pose proof (ip_from_str_ok _ _ Hip) as Hb. simpl in Hb. rewrite <-!app_assoc.
      etrans; [apply (decode_after_app _ (octets4 b))|]. cbv beta. by rewrite of_octets_octets4.
    + pose proof (ip_from_str_ok _ _ Hip) as Hb. simpl in Hb. rewrite <-!app_assoc.
      etrans; [apply (decode_after_app _ (octets16 b))|]. cbv beta. by rewrite of_octets_octets16.
    + rewrite <-!app_assoc. cbn [app decode_request]. unfold str_len. rewrite Nat2Z.id.
      apply decode_after_app.
  - unfold credentials_new in Hc. destruct (_ || _) eqn:Hg; [done|]. injection Hc as <-.
    unfold auth_message. simpl username. simpl password.
    rewrite !orb_false_iff, !Z.ltb_ge in Hg. unfold u8_max in Hg. simpl in Hg.
    rewrite <-!app_assoc. cbn [app decode_auth].
    pose proof (decode_counted_app u) as Hu. pose proof (decode_counted_app p rest) as Hp.
    simpl app in Hu, Hp. unfold str_len in *. rewrite Hu by lia. by rewrite Hp by lia.
Qed.

(** ** Witnesses *)

Definition alice : Credentials := mkCredentials (lit "alice") (lit "secret").

Definition reply : list Z := [5; 0; 0; 1] ++ [0; 0; 0; 0; 0; 0].

Lemma handshake_succeeds_iff_witness :
  host_ok (lit "example.com") ∧
  connect (lit "example.com") 443 (Some alice) (mkWire (answers (Some alice) reply ++ [7]) [] []) =
  (Ok tt, mkWire [7] (concat (dialogue (lit "example.com") 443 (Some alice))) []).
Proof.
  assert (Hh : host_ok (lit "example.com")) by (split_and!; vm_compute; done).
  split; [done|]. apply (handshake_succeeds_iff _ _ _ _ _ _ Hh). exists reply.
  split_and!; [|done..]. left. by exists [0; 0; 0; 0; 0; 0].
Defined.

Lemma requests_decode_witness :
  decode_request (request (lit "::1") 443 ++ []) = Some (ToAddress (V6 1), 443, []) ∧
  decode_auth (auth_message alice ++ []) = Some (as_bytes (lit "alice"), as_bytes (lit "secret"), []).
Proof.
  apply (requests_decode (lit "::1") 443 (lit "alice") (lit "secret") alice []);
    [split_and!; vm_compute; done|vm_compute; done].
Defined.
End Socks5Client.
