(* ===== verification/TorHealth.v ===== *)
(** * Tor connection health

    [apps/socks5-proxy/src/tor/tor_watchdog/tor_watchdog_health.rs]: the
    counters the connection handler keeps for the watchdog, the active bridge
    set with its settling time, and the refresh and recovery notifications;
    with the errors of [packages/arti-wrapper/src/lib.rs] they classify. *)

From S2P Require Import Prelude Interleave Order OrdMap Str Net Crates Identity.
Import Identity.
Open Scope Z_scope.

Module TorHealth.

(** A duration or an instant, in nanoseconds. *)
Definition from_secs (n : Z) : Z := n * 10 ^ 9.

(** [elapsed] saturates. *)
Definition elapsed (now since : Z) : Z := saturating_sub now since.

(** The kinds of [tor_error::ErrorKind] the code names. *)
Inductive ErrorKind : Type :=
| RemoteNetworkTimeout
| TorAccessFailed
| TorNetworkTimeout
| TorProtocolViolation
| OtherErrorKind.

Inductive TorError : Type :=
| Bootstrap (source : ErrorKind)
| Reconfigure (source : ErrorKind)
| Connect (host : str) (port : Z) (source : ErrorKind)
| PostSocks
| PostSocksTimeout
| InvalidBridge (line : str)
| InvalidPt (why : str)
| BuildConfig (why : str)
| ChanMgrUnavailable (source : ErrorKind)
| Warm (bridge : str)
| SignalFailure (bridge : str) (source : ErrorKind)
| BridgeCheckBootstrapTimeout (budget : Z)
| BridgeCheckProbeTimeout (budget : Z).

(** ** Counters *)

Record TorHealth : Type := mkTorHealth {
  last_success : Z;
  last_success_instant : option Z;
  attempts : Z;
  last_success_target : option (str * Z);
  remote_timeout_count : Z;
  access_failed_count : Z;
  net_timeout_count : Z;
}.

Definition health_default : TorHealth := mkTorHealth 0 None 0 None 0 0 0.

Definition record_attempt (h : TorHealth) : TorHealth :=
  mkTorHealth (last_success h) (last_success_instant h) (fetch_add (attempts h) 1)
    (last_success_target h) (remote_timeout_count h) (access_failed_count h) (net_timeout_count h).

(** [record_success]: wall clock in seconds, and the monotonic instant. *)
Definition record_success (unix now : Z) (h : TorHealth) : TorHealth :=
  mkTorHealth unix (Some now) (attempts h)
    (last_success_target h) (remote_timeout_count h) (access_failed_count h) (net_timeout_count h).

Definition record_success_target (host : str) (port : Z) (h : TorHealth) : TorHealth :=
  mkTorHealth (last_success h) (last_success_instant h) (attempts h)
    (Some (host, port)) (remote_timeout_count h) (access_failed_count h) (net_timeout_count h).

Definition record_remote_timeout (h : TorHealth) : TorHealth :=
  mkTorHealth (last_success h) (last_success_instant h) (attempts h) (last_success_target h)
    (fetch_add (remote_timeout_count h) 1) (access_failed_count h) (net_timeout_count h).
Definition record_access_failed (h : TorHealth) : TorHealth :=
  mkTorHealth (last_success h) (last_success_instant h) (attempts h) (last_success_target h)
    (remote_timeout_count h) (fetch_add (access_failed_count h) 1) (net_timeout_count h).
Definition record_net_timeout (h : TorHealth) : TorHealth :=
  mkTorHealth (last_success h) (last_success_instant h) (attempts h) (last_success_target h)
    (remote_timeout_count h) (access_failed_count h) (fetch_add (net_timeout_count h) 1).

Definition successful_within (now window : Z) (h : TorHealth) : bool :=
  match last_success_instant h with
  | Some last => elapsed now last <? window
  | None => false
  end.

Definition classify_and_record (e : TorError) (h : TorHealth) : TorHealth :=
  match e with
  | Connect _ _ RemoteNetworkTimeout => record_remote_timeout h
  | Connect _ _ TorAccessFailed => record_access_failed h
  | Connect _ _ TorNetworkTimeout => record_net_timeout h
  | _ => h
  end.

(** ** The active bridges *)

Record ActiveBridges : Type := mkActive {
  bridges : list BridgeLine;
  activated : option Z;
}.

Definition active_default : ActiveBridges := mkActive [] None.

Definition update (now : Z) (bs : list BridgeLine) (a : ActiveBridges) : ActiveBridges :=
  if bool_decide (bridges a = bs) then a else mkActive bs (Some now).

(** [route_is_settling] asks with the last success of the health record. *)
Definition settling (now : Z) (success : option Z) (a : ActiveBridges) : bool :=
  match activated a with
  | None => false
  | Some t =>
      negb (is_empty (bridges a)) && (elapsed now t <? from_secs 45) &&
      match success with None => true | Some s => s <? t end
  end.

(** ** Notifications

    A [Notify] holds at most one permit. *)
Record BridgeRefresh : Type := mkRefresh {
  needed : bool;
  notify : bool;
  recovery : bool;
}.

Definition refresh_default : BridgeRefresh := mkRefresh false false false.

Definition set_needed (b : bool) (r : BridgeRefresh) : BridgeRefresh :=
  mkRefresh b (notify r) (recovery r).

Definition request (r : BridgeRefresh) : BridgeRefresh :=
  if needed r then mkRefresh (needed r) true (recovery r) else r.

Definition notify_recovery (r : BridgeRefresh) : BridgeRefresh :=
  mkRefresh (needed r) (notify r) true.

(** [notified]: completes when there is a permit, and takes it. *)
Definition notified (r : BridgeRefresh) : option BridgeRefresh :=
  if notify r then Some (mkRefresh (needed r) false (recovery r)) else None.

Definition wants_recovery (e : TorError) : bool :=
  match e with
  | Connect _ _ (TorAccessFailed | TorNetworkTimeout | TorProtocolViolation) => true
  | _ => false
  end.

Definition request_after_failure (e : TorError) (r : BridgeRefresh) : BridgeRefresh :=
  if wants_recovery e then notify_recovery r else r.

(** ** Settling *)

(** The selections made over time, each at its instant. *)
Definition select_all (selections : list (Z * list BridgeLine)) (a : ActiveBridges) : ActiveBridges :=
  foldl (fun a tb => update tb.1 tb.2 a) a selections.

(** A route settles for at most 45 seconds after the set last changed, however
    often the same set is selected again, and stops at the first success. *)
Theorem settling_is_bounded now t bs times success a :
  bridges a ≠ bs →
  settling now success (select_all (map (fun u => (u, bs)) times) (update t bs a)) = true ↔
  bs ≠ [] ∧ now < t + from_secs 45 ∧ (∀ s, success = Some s → s < t).
Proof.
  intros Hne.
  assert (He : select_all (map (fun u => (u, bs)) times) (update t bs a) = mkActive bs (Some t)).
  { unfold update at 1. rewrite bool_decide_eq_false_2 by done.
    induction times as [|u times IH]; [done|]. etrans; [|exact IH].
    unfold select_all. simpl. f_equal. unfold update. simpl. by rewrite bool_decide_eq_true_2. }
  rewrite He. unfold settling. simpl. rewrite !andb_true_iff, negb_true_iff, Z.ltb_lt.
  unfold elapsed, saturating_sub. destruct bs; simpl.
  - split; [intros [[? _] _]; done|intros [? _]; done].
  - unfold from_secs. split.
    + intros [[_ Ht] Hs]. split_and!; [done|lia|]. intros s ->. by apply Z.ltb_lt.
    + intros (_ & Ht & Hs). split; [split; [done|lia]|]. destruct success as [s|]; [|done].
      apply Z.ltb_lt. auto.
Qed.
End TorHealth.
