(* ===== verification/ConnHealth.v ===== *)
(** * Connection counters

    [apps/socks5-proxy/src/tor/conn_health.rs] and the stages and kinds of
    [apps/socks5-proxy/src/server/server.rs]: the counters every connection
    bumps, the periodic snapshot that drains them and its success rate. *)

From S2P Require Import Prelude Interleave.
Open Scope Z_scope.

Module ConnHealth.

Inductive ConnErrorKind : Type := ClientKind | TorKind | RelayKind | OtherKind.

Inductive ConnStage : Type := Handshake | Connect | Relay | OtherStage.

(** The counters by name. *)
Inductive counter : Type :=
| Started | Pending | ConnectOk | ConnectFailed | RelayClosed | RelayErrors
| ClientErrors | TorErrors | OtherErrors.

#[export] Instance counter_eq_dec : EqDecision counter.
Proof. solve_decision. Defined.

#[export] Instance stage_eq_dec : EqDecision ConnStage.
Proof. solve_decision. Defined.

(** The values, of the live counters and of a snapshot. *)
Record ConnHealthCounters : Type := mkCounters {
  started : Z;
  pending : Z;
  connect_ok : Z;
  connect_failed : Z;
  relay_closed : Z;
  relay_errors : Z;
  client_errors : Z;
  tor_errors : Z;
  other_errors : Z;
}.

Definition counters_default : ConnHealthCounters := mkCounters 0 0 0 0 0 0 0 0 0.

Definition load (k : counter) (c : ConnHealthCounters) : Z :=
  match k with
  | Started => started c
  | Pending => pending c
  | ConnectOk => connect_ok c
  | ConnectFailed => connect_failed c
  | RelayClosed => relay_closed c
  | RelayErrors => relay_errors c
  | ClientErrors => client_errors c
  | TorErrors => tor_errors c
  | OtherErrors => other_errors c
  end.

Definition store (k : counter) (v : Z) (c : ConnHealthCounters) : ConnHealthCounters :=
  let 'mkCounters st pe ok fa rc re ce te oe := c in
  match k with
  | Started => mkCounters v pe ok fa rc re ce te oe
  | Pending => mkCounters st v ok fa rc re ce te oe
  | ConnectOk => mkCounters st pe v fa rc re ce te oe
  | ConnectFailed => mkCounters st pe ok v rc re ce te oe
  | RelayClosed => mkCounters st pe ok fa v re ce te oe
  | RelayErrors => mkCounters st pe ok fa rc v ce te oe
  | ClientErrors => mkCounters st pe ok fa rc re v te oe
  | TorErrors => mkCounters st pe ok fa rc re ce v oe
  | OtherErrors => mkCounters st pe ok fa rc re ce te v
  end.

(** [fetch_add] on one counter; [fetch_sub] is a negative amount. *)
Definition bump (k : counter) (by_ : Z) (c : ConnHealthCounters) : ConnHealthCounters :=
  store k (fetch_add (load k c) by_) c.

(** ** The recording operations, as the counters they bump in order *)

Definition record_started : list counter := [Started; Pending].

Definition record_error (kind : ConnErrorKind) : list counter :=
  match kind with
  | ClientKind => [ClientErrors]
  | TorKind => [TorErrors]
  | RelayKind => [RelayErrors]
  | OtherKind => [OtherErrors]
  end.

Definition record_failure (stage : ConnStage) (kind : ConnErrorKind) : list counter :=
  record_error kind ++ match stage with Connect => [ConnectFailed] | _ => [] end.

(** ** The snapshot *)

(** [snapshot_and_reset] swaps these one after the other, then loads
    [pending]. *)
Definition windowed : list counter :=
  [Started; ConnectOk; ConnectFailed; RelayClosed; RelayErrors; ClientErrors; TorErrors; OtherErrors].

Definition snapshot_is_empty (s : ConnHealthCounters) : bool :=
  forallb (fun k => load k s =? 0) windowed.

(** [connect_success_rate_pct]. *)
Definition connect_success_rate_pct (s : ConnHealthCounters) : option Z :=
  match checked_add u64_max (connect_ok s) (connect_failed s) with
  | None => None
  | Some completed =>
      if completed =? 0 then None
      else Some (Z.min (connect_ok s * 100 / completed) 100 mod 256)
  end.

(** ** Lemmas *)

Lemma load_store k k' v c : load k' (store k v c) = if decide (k = k') then v else load k' c.
Proof. destruct c, k, k'; reflexivity. Qed.

Lemma bump_load k k' n c : load k' (bump k n c) = if decide (k = k') then fetch_add (load k c) n else load k' c.
Proof. apply load_store. Qed.

(** A success rate is the percentage of the completed connects that succeeded,
    rounded down; it is 100 exactly when nothing failed. *)
Theorem success_rate_is_a_percentage s p :
  0 ≤ connect_ok s → 0 ≤ connect_failed s →
  connect_success_rate_pct s = Some p →
  0 ≤ p ≤ 100 ∧
  p * (connect_ok s + connect_failed s) ≤ connect_ok s * 100 < (p + 1) * (connect_ok s + connect_failed s) ∧
  (p = 100 ↔ connect_failed s = 0).
Proof.
  intros Ho Hf. unfold connect_success_rate_pct, checked_add. destruct (_ <=? _); [|done].
  destruct (Z.eqb_spec (connect_ok s + connect_failed s) 0) as [|Hne]; [done|]. intros [= <-].
  set (n := connect_ok s + connect_failed s) in *. set (q := connect_ok s * 100 / n).
  assert (Hq : n * q ≤ connect_ok s * 100 < n * (q + 1)).
  { unfold q. pose proof (Z.div_mod (connect_ok s * 100) n Hne) as Hd.
    pose proof (Z.mod_pos_bound (connect_ok s * 100) n ltac:(lia)). nia. }
  assert (0 ≤ q) by (apply Z.div_pos; lia). assert (q ≤ 100) by nia.
  rewrite Z.min_l, Z.mod_small by lia. split_and!; [lia|lia|lia|lia|]. split; intros; nia.
Qed.
End ConnHealth.
