(* ===== verification/Handler.v ===== *)
(** * The connection handler

    [apps/socks5-proxy/src/server/server.rs]: the accept loop with its ingress
    list, permits and connection numbers, [handle_client] with its gates and
    its two ways out, the classification of failures, and the choice of the
    upstream proxy in [apps/socks5-proxy/src/server/upstream.rs].

    What the handler does to the world is a list of actions; what the world
    answers is the [session].  Many connections and the summary task run
    interleaved over the shared counters, one atomic action at a time. *)

From S2P Require Import Prelude Interleave Order OrdMap Str Utf8 Net NetText ClientAcl TempFile Auth.
From S2P Require Import Socks5Client TorHealth ConnHealth.
Open Scope Z_scope.

Module Handler.
Import ConnHealth.

(** ** Errors *)

(** The kinds of [std::io::ErrorKind] the code names. *)
Inductive io_kind : Type :=
| ConnectionReset | ConnectionAborted | BrokenPipe | UnexpectedEof | OtherIo.

(** One link of an error chain: its text and what it downcasts to. *)
Inductive payload : Type :=
| Plain
| IoError (k : io_kind)
| TorErr (e : TorHealth.TorError).

Record cause : Type := mkCause { display : str; what : payload }.

(** [anyhow::Error], as its chain from the outside in. *)
Definition chain : Type := list cause.

Definition anyhow (message : str) : chain := [mkCause message Plain].
Definition context (tag : str) (e : chain) : chain := mkCause tag Plain :: e.

Definition STAGE_HANDSHAKE : str := lit "SOCKS5 handshake".
Definition STAGE_CONNECT_TOR : str := lit "tor connect".
Definition STAGE_CONNECT_UPSTREAM : str := lit "upstream connect".
Definition STAGE_RELAY : str := lit "relay".

Definition tagged (tag : str) (e : chain) : bool := existsb (fun c => str_eqb (display c) tag) e.

Definition is_dropish (c : cause) : bool :=
  match what c with
  | IoError (ConnectionReset | ConnectionAborted | BrokenPipe | UnexpectedEof) => true
  | _ => false
  end.

Definition is_tor_connect (c : cause) : bool :=
  match what c with
  | TorErr (TorHealth.Connect _ _ _) => true
  | _ => false
  end.

Definition classify_conn_failure (e : chain) : ConnStage * ConnErrorKind :=
  let stage :=
    if tagged STAGE_RELAY e then Relay
    else if tagged STAGE_HANDSHAKE e then Handshake
    else if tagged STAGE_CONNECT_TOR e || tagged STAGE_CONNECT_UPSTREAM e then Connect
    else OtherStage in
  let is_dropish_io := existsb is_dropish e in
  if existsb is_tor_connect e then (stage, TorKind)
  else
    let kind :=
      match stage with
      | Handshake => ClientKind
      | Relay => if is_dropish_io then RelayKind else OtherKind
      | Connect => OtherKind
      | OtherStage => if is_dropish_io then ClientKind else OtherKind
      end in
    (stage, kind).

(** A failed read or write: the [io::Error] and what it wraps. *)
Record io_failure : Type := mkIoFailure { kind : io_kind; text : str; sources : chain }.

Definition io_chain (f : io_failure) : chain := mkCause (text f) (IoError (kind f)) :: sources f.

(** A failed [TorTunnel::connect]. *)
Record tor_failure : Type := mkTorFailure {
  error : TorHealth.TorError;
  error_text : str;
  error_sources : chain;
}.

Definition tor_chain (f : tor_failure) : chain :=
  mkCause (error_text f) (TorErr (error f)) :: error_sources f.

(** ** One connection *)

Inductive Reply : Type := Established | Forbidden | GeneralFailure.

(** What [socks5_proto::accept] returns. *)
Record IncomingRequest : Type := mkRequest {
  target : str;
  username : option str;
  pipeline : list Z;
}.

(** The way out, with what it answers.  [ticks] counts the recovery requests
    sent while the Tor connect was running. *)
Inductive egress : Type :=
| EgressTor (tunnel : bool) (ticks : nat) (connected : result unit tor_failure)
| EgressUpstream (connected : result unit chain).

(** Everything outside the handler that a connection meets.  The registry is
    read twice, and may change in between. *)
Record session : Type := mkSession {
  peer : ip_addr;
  accepted : result IncomingRequest chain;
  block_onion : bool;
  auth_at_onion_gate : option Auth.UsersConfig;
  auth_at_client_gate : option Auth.UsersConfig;
  peer_addr : option ip_addr;
  way_out : egress;
  established_reply : result unit chain;
  prefix_write : result unit io_failure;
  relay : result unit io_failure;
}.

Inductive action : Type :=
| Bump (k : counter)
| Unpend
| Send (r : Reply)
| RequestRefresh
| RequestRecovery
| RecordAttempt
| RecordSuccess
| RecordTarget (host : str) (port : Z)
| ClassifyAndRecord (e : TorHealth.TorError)
| RequestAfterFailure (e : TorHealth.TorError)
| DialTor (host : str) (port : Z)
| DialUpstream (host : str) (port : Z)
| Forward (prefix : list Z)
| CopyBidirectional
| ReleasePermit.

Definition onion_permitted (auth : option Auth.UsersConfig) (authed_user : option str) : bool :=
  match auth, authed_user with
  | None, _ => true
  | Some users, Some name => Auth.onion_allowed users name
  | Some _, None => false
  end.

Definition user_allowed (auth : option Auth.UsersConfig) (authed_user : option str)
  (peer_ip : option ip_addr) : bool :=
  match auth, authed_user, peer_ip with
  | Some users, Some name, Some peer => Auth.client_allowed users name peer
  | Some _, _, _ => false
  | None, _, _ => true
  end.

(** The reply, the pipelined prefix and the relay, once connected. *)
Definition relay_stage (sess : session) (req : IncomingRequest) : list action * result unit chain :=
  match established_reply sess with
  | Err e => ([Send Established], Err e)
  | Ok _ =>
      match prefix_write sess with
      | Err io => ([Send Established; Forward (pipeline req)], Err (context STAGE_RELAY (io_chain io)))
      | Ok _ =>
          match relay sess with
          | Ok _ => ([Send Established; Forward (pipeline req); CopyBidirectional; Bump RelayClosed], Ok tt)
          | Err io => ([Send Established; Forward (pipeline req); CopyBidirectional],
                       Err (context STAGE_RELAY (io_chain io)))
          end
      end
  end.

Definition prepend (acts : list action) (r : list action * result unit chain)
  : list action * result unit chain := (acts ++ r.1, r.2).

Definition connect_stage (sess : session) (req : IncomingRequest) (host : str) (port : Z)
  : list action * result unit chain :=
  match way_out sess with
  | EgressTor tunnel ticks connected =>
      prepend [RequestRefresh]
        (if tunnel then
           prepend ([RecordAttempt; DialTor host port] ++ repeat RequestRecovery ticks)
             (match connected with
              | Ok _ =>
                  prepend [RecordSuccess; RecordTarget host port; Bump ConnectOk] (relay_stage sess req)
              | Err f =>
                  ([ClassifyAndRecord (error f); RequestAfterFailure (error f); Send GeneralFailure;
                    Bump ConnectFailed],
                   Err (context STAGE_CONNECT_TOR (tor_chain f)))
              end)
         else
           ([Send GeneralFailure; Bump ConnectFailed],
            Err (context STAGE_CONNECT_TOR (anyhow (lit "tor tunnel unavailable (shutting down?)")))))
  | EgressUpstream connected =>
      prepend [DialUpstream host port]
        (match connected with
         | Ok _ => prepend [Bump ConnectOk] (relay_stage sess req)
         | Err ch => ([Send GeneralFailure; Bump ConnectFailed], Err (context STAGE_CONNECT_UPSTREAM ch))
         end)
  end.

Section Handle.
(** [HostPort::parse] of the protocol library. *)
Context (host_port_parse : str → option (str * Z)).

Definition handle_client (sess : session) : list action * result unit chain :=
  match accepted sess with
  | Err e => ([], Err (context STAGE_HANDSHAKE e))
  | Ok req =>
      match host_port_parse (target req) with
      | None => ([], Err (context STAGE_HANDSHAKE (anyhow (lit "SDK returned an invalid target authority"))))
      | Some (host, port) =>
          if block_onion sess && Socks5Client.is_onion host then ([Send Forbidden], Ok tt)
          else if Socks5Client.is_onion host
                  && negb (onion_permitted (auth_at_onion_gate sess) (username req))
          then ([Send Forbidden], Ok tt)
          else if negb (user_allowed (auth_at_client_gate sess) (username req) (peer_addr sess))
          then ([Send Forbidden], Ok tt)
          else connect_stage sess req host port
      end
  end.

(** The task the accept loop spawns. *)
Definition connection_task (sess : session) : list action :=
  map Bump record_started ++
  (let '(acts, r) := handle_client sess in
   acts ++
   match r with
   | Ok _ => []
   | Err e => let '(stage, kind) := classify_conn_failure e in map Bump (record_failure stage kind)
   end) ++
  [ReleasePermit; Unpend].

(** ** Many connections *)

Definition MAX_CONCURRENT_CONNECTIONS : Z := 256.

Record server : Type := mkServer {
  counters : ConnHealthCounters;
  tor_health : TorHealth.TorHealth;
  refresh : TorHealth.BridgeRefresh;
  permits : Z;
  next_conn_id : Z;
  logged : list ConnHealthCounters;
}.

Definition server_start : server :=
  mkServer counters_default TorHealth.health_default TorHealth.refresh_default
    MAX_CONCURRENT_CONNECTIONS 1 [].

Definition with_counters (f : ConnHealthCounters → ConnHealthCounters) (s : server) : server :=
  mkServer (f (counters s)) (tor_health s) (refresh s) (permits s) (next_conn_id s) (logged s).
Definition with_health (f : TorHealth.TorHealth → TorHealth.TorHealth) (s : server) : server :=
  mkServer (counters s) (f (tor_health s)) (refresh s) (permits s) (next_conn_id s) (logged s).
Definition with_refresh (f : TorHealth.BridgeRefresh → TorHealth.BridgeRefresh) (s : server) : server :=
  mkServer (counters s) (tor_health s) (f (refresh s)) (permits s) (next_conn_id s) (logged s).
Definition with_permits (f : Z → Z) (s : server) : server :=
  mkServer (counters s) (tor_health s) (refresh s) (f (permits s)) (next_conn_id s) (logged s).

(** The clocks an action reads: seconds of the wall clock, and the instant. *)
Definition clocks : Type := Z * Z.

Definition perform (t : clocks) (a : action) (s : server) : server :=
  match a with
  | Bump k => with_counters (bump k 1) s
  | Unpend => with_counters (bump Pending (-1)) s
  | RequestRefresh => with_refresh TorHealth.request s
  | RequestRecovery => with_refresh TorHealth.notify_recovery s
  | RecordAttempt => with_health TorHealth.record_attempt s
  | RecordSuccess => with_health (TorHealth.record_success t.1 t.2) s
  | RecordTarget host port => with_health (TorHealth.record_success_target host port) s
  | ClassifyAndRecord e => with_health (TorHealth.classify_and_record e) s
  | RequestAfterFailure e => with_refresh (TorHealth.request_after_failure e) s
  | ReleasePermit => with_permits Z.succ s
  | Send _ | DialTor _ _ | DialUpstream _ _ | Forward _ | CopyBidirectional => s
  end.

(** A socket the listener returned, from the ingress list to the end of its
    task; and the summary task in the middle of a snapshot. *)
Inductive process : Type :=
| Arrived (sess : session)
| Refused
| Waiting (conn_id : Z) (sess : session)
| Serving (done todo : list action)
| Summary (partial : ConnHealthCounters) (swapped : nat).

Definition begins (p : process) : Prop :=
  (∃ sess, p = Arrived sess) ∨ p = Summary counters_default 0.

Definition server_step (allowed : ClientAcl.AllowedClients) (_ : nat) (t : clocks) (s : server)
  (p : process) : option (server * process) :=
  match p with
  | Arrived sess =>
      if ClientAcl.allows_client allowed (peer sess) then
        Some (mkServer (counters s) (tor_health s) (refresh s) (permits s)
                (fetch_add (next_conn_id s) 1) (logged s), Waiting (next_conn_id s) sess)
      else Some (s, Refused)
  | Refused => None
  | Waiting _ sess =>
      if 0 <? permits s then Some (with_permits Z.pred s, Serving [] (connection_task sess)) else None
  | Serving done (a :: todo) => Some (perform t a s, Serving (done ++ [a]) todo)
  | Serving _ [] => None
  | Summary partial n =>
      match windowed !! n with
      | Some k =>
          Some (with_counters (store k 0) s, Summary (store k (load k (counters s)) partial) (S n))
      | None =>
          Some (mkServer (counters s) (tor_health s) (refresh s) (permits s) (next_conn_id s)
                  (store Pending (pending (counters s)) partial :: logged s),
                Summary counters_default 0)
      end
  end.

(** ** The gates *)

(** When authentication is on, the request names an enabled account for which
    [ok] holds; without authentication there is nothing to ask. *)
Definition account_grants (auth : option Auth.UsersConfig) (user : option str)
  (ok : Auth.User → Prop) : Prop :=
  ∀ users, auth = Some users →
    ∃ name u, user = Some name ∧ Auth.find name users = Some u ∧ Auth.is_enabled u = true ∧ ok u.

(** The peer is known, and in the account's client list when it has one. *)
Definition client_listed (peer : option ip_addr) (u : Auth.User) : Prop :=
  ∃ ip, peer = Some ip ∧
    ∀ policy, Auth.allowed_clients u = Some policy → ClientAcl.allows_client policy ip = true.

(** Everything that must hold before anything is dialled. *)
Definition admitted (sess : session) (host : str) (port : Z) : Prop :=
  ∃ req, accepted sess = Ok req ∧ host_port_parse (target req) = Some (host, port) ∧
    (Socks5Client.is_onion host = true →
       block_onion sess = false ∧
       account_grants (auth_at_onion_gate sess) (username req) (fun u => Auth.allowed_onion u = true)) ∧
    account_grants (auth_at_client_gate sess) (username req) (client_listed (peer_addr sess)).

Lemma onion_permitted_spec auth user :
  onion_permitted auth user = true ↔ account_grants auth user (fun u => Auth.allowed_onion u = true).
Proof.
  unfold onion_permitted, account_grants, Auth.onion_allowed. destruct auth as [users|]; [|done].
  split.
  - intros H ? [= <-]. destruct user as [name|]; [|done]. destruct (Auth.find name users) as [u|] eqn:Hf; [|done].
    apply andb_true_iff in H as [? ?]. eauto 6.
  - intros H. destruct (H _ eq_refl) as (name & u & -> & -> & -> & ->). done.
Qed.

Lemma user_allowed_spec auth user peer :
  user_allowed auth user peer = true ↔ account_grants auth user (client_listed peer).
Proof.
  unfold user_allowed, account_grants, client_listed, Auth.client_allowed. destruct auth as [users|]; [|done].
  split.
  - intros H ? [= <-]. destruct user as [name|], peer as [ip|]; try done.
    destruct (Auth.find name users) as [u|] eqn:Hf; [|done]. destruct (Auth.is_enabled u) eqn:He; [|done].
    exists name, u. split_and!; [done..|]. exists ip. split; [done|]. intros policy Hp. by rewrite Hp in H.
  - intros H. destruct (H _ eq_refl) as (name & u & -> & -> & -> & ip & -> & Hp).
    destruct (Auth.allowed_clients u); auto.
Qed.

Definition is_dial (a : action) : bool :=
  match a with DialTor _ _ | DialUpstream _ _ => true | _ => false end.

Definition dials (acts : list action) : list action := List.filter is_dial acts.

(** The dial of the way out. *)
Definition dial_of (sess : session) (host : str) (port : Z) : list action :=
  match way_out sess with
  | EgressTor tunnel _ _ => if tunnel then [DialTor host port] else []
  | EgressUpstream _ => [DialUpstream host port]
  end.

Definition is_send (a : action) : bool := match a with Send _ => true | _ => false end.
Definition replies (acts : list action) : list action := List.filter is_send acts.

Lemma handle_client_cases sess :
  (∃ host port req, admitted sess host port ∧ accepted sess = Ok req ∧
     handle_client sess = connect_stage sess req host port) ∨
  ((∀ host port, ¬ admitted sess host port) ∧
   ((∃ req, accepted sess = Ok req ∧ handle_client sess = ([Send Forbidden], Ok tt)) ∨
    ∃ ch, (accepted sess = Err ch ∨ ch = anyhow (lit "SDK returned an invalid target authority")) ∧
      handle_client sess = ([], Err (context STAGE_HANDSHAKE ch)))).
Proof.
  unfold handle_client, admitted. destruct (accepted sess) as [req|ch];
    [|right; split; [intros ? ? (? & ? & _); done|right; exists ch; auto]].
  destruct (host_port_parse (target req)) as [[host port]|] eqn:Hp.
  2: { right; split; [intros ? ? (? & [= <-] & ? & _); congruence|right; eauto]. }
  destruct (block_onion sess && Socks5Client.is_onion host) eqn:H1.
  { apply andb_true_iff in H1 as [Hb Ho]. right. split; [|eauto].
    intros ? ? (? & [= <-] & Hp' & Hon & _). rewrite Hp in Hp'. injection Hp' as <- <-.
    apply Hon in Ho as [? _]. congruence. }
  destruct (Socks5Client.is_onion host && negb _) eqn:H2.
  { apply andb_true_iff in H2 as [Ho Hn]. apply negb_true_iff in Hn. right. split; [|eauto].
    intros ? ? (? & [= <-] & Hp' & Hon & _). rewrite Hp in Hp'. injection Hp' as <- <-.
    apply Hon in Ho as [_ ?%onion_permitted_spec]. congruence. }
  destruct (user_allowed _ _ _) eqn:H3; simpl.
  - left. exists host, port, req. split; [|done]. exists req.
    split_and!; [done|done| |by apply user_allowed_spec].
    intros Ho. rewrite Ho in H1, H2. rewrite andb_true_r in H1. simpl in H2.
    split; [done|]. by apply onion_permitted_spec, negb_false_iff.
  - right. split; [|eauto]. intros ? ? (? & [= <-] & _ & _ & ?%user_allowed_spec). congruence.
Qed.

Definition connected (sess : session) : bool :=
  match way_out sess with
  | EgressTor tunnel _ (Ok _) => tunnel
  | EgressUpstream (Ok _) => true
  | _ => false
  end.

Lemma dials_app a b : dials (a ++ b) = dials a ++ dials b.
Proof. apply List.filter_app. Qed.

Lemma replies_app a b : replies (a ++ b) = replies a ++ replies b.
Proof. apply List.filter_app. Qed.

Lemma filter_recovery f n : f RequestRecovery = false → List.filter f (repeat RequestRecovery n) = [].
Proof. intros Hf. induction n as [|n IH]; [done|]. simpl. by rewrite Hf. Qed.

Lemma relay_stage_acts sess req :
  dials (relay_stage sess req).1 = [] ∧ replies (relay_stage sess req).1 = [Send Established].
Proof.
  unfold relay_stage. destruct (established_reply sess), (prefix_write sess), (relay sess); done.
Qed.

Lemma connect_stage_acts sess req host port :
  dials (connect_stage sess req host port).1 = dial_of sess host port ∧
  replies (connect_stage sess req host port).1 =
    [Send (if connected sess then Established else GeneralFailure)].
Proof.
  destruct (relay_stage_acts sess req) as [Hd Hr]. unfold connect_stage, dial_of, connected.
  destruct (way_out sess) as [[] n [[]|f]|[[]|ch]]; cbn [prepend fst snd];
    rewrite ?dials_app, ?replies_app, ?Hd, ?Hr; try done;
    unfold dials, replies; by rewrite !filter_recovery.
Qed.

(** C13: a connection is dialled once, to the requested target, when its
    handshake was accepted and neither the global onion switch, the account's
    onion permission nor the account's client list refuses it, and never
    otherwise; every request that named a target gets exactly one reply:
    forbidden when a gate refuses it, established when the dial succeeded and
    general failure when it did not. *)
Theorem egress_is_gated sess :
  let acts := (handle_client sess).1 in
  (∀ host port, admitted sess host port →
     dials acts = dial_of sess host port ∧
     replies acts = [Send (if connected sess then Established else GeneralFailure)]) ∧
  ((∀ host port, ¬ admitted sess host port) →
     dials acts = [] ∧
     ∀ req hp, accepted sess = Ok req → host_port_parse (target req) = Some hp →
       replies acts = [Send Forbidden]).
Proof.
  destruct (handle_client_cases sess) as [(host & port & req & Ha & Hok & He)|[Hn Hc]]; simpl.
  - split; [|intros Hn; by destruct (Hn host port)]. intros host' port' Ha'.
    destruct Ha as (r & Hr & Hp & _), Ha' as (r' & Hr' & Hp' & _). rewrite Hr in Hr'. injection Hr' as <-.
    rewrite Hp in Hp'. injection Hp' as <- <-. rewrite He. apply connect_stage_acts.
  - split; [intros host port Ha; by destruct (Hn host port)|]. intros _.
    destruct Hc as [(req & Hok & He)|(ch & Hch & He)]; rewrite He; [done|]. split; [done|].
    intros req hp Hok Hp. exfalso. unfold handle_client in He. rewrite Hok, Hp in He.
    destruct hp. repeat (destruct (_ && _); [done|]). destruct (negb _); [done|].
    pose proof (connect_stage_acts sess req s z) as [_ Hr]. rewrite He in Hr. done.
Qed.

(** ** The classification of failures *)

Definition tags : list str := [STAGE_RELAY; STAGE_HANDSHAKE; STAGE_CONNECT_TOR; STAGE_CONNECT_UPSTREAM].

(** No text of the chain happens to be one of the tags. *)
Definition untagged (e : chain) : Prop := ∀ tag, tag ∈ tags → tagged tag e = false.

Lemma untagged_check e : forallb (fun tag => negb (tagged tag e)) tags = true → untagged e.
Proof.
  intros He tag Ht. rewrite forallb_forall in He. apply negb_true_iff, He. by apply list_elem_of_In.
Qed.

(** The texts that come from outside the handler. *)
Definition foreign_errors (sess : session) : list chain :=
  match accepted sess with Err e => [e] | Ok _ => [] end ++
  match way_out sess with
  | EgressTor _ _ (Err f) => [tor_chain f]
  | EgressUpstream (Err e) => [e]
  | _ => []
  end ++
  match established_reply sess with Err e => [e] | Ok _ => [] end ++
  match prefix_write sess with Err f => [io_chain f] | Ok _ => [] end ++
  match relay sess with Err f => [io_chain f] | Ok _ => [] end.

(** How far the connection came, from what was done. *)
Definition stage_reached (acts : list action) : ConnStage :=
  if existsb (fun a => match a with Forward _ => true | _ => false end) acts then Relay
  else if existsb (fun a => match a with Send Established => true | _ => false end) acts then OtherStage
  else if existsb (fun a => match a with Send GeneralFailure => true | _ => false end) acts then Connect
  else Handshake.

Ltac each_tag H :=
  unfold tags in H; rewrite !elem_of_cons in H; destruct H as [->|[->|[->|[->|H]]]];
  [..|by apply elem_of_nil in H].

Lemma classify_stage e :
  (classify_conn_failure e).1 =
    if tagged STAGE_RELAY e then Relay
    else if tagged STAGE_HANDSHAKE e then Handshake
    else if tagged STAGE_CONNECT_TOR e || tagged STAGE_CONNECT_UPSTREAM e then Connect
    else OtherStage.
Proof. unfold classify_conn_failure. by destruct (existsb is_tor_connect e). Qed.

Lemma classify_tagged tag e :
  untagged e → tag ∈ tags →
  (classify_conn_failure (context tag e)).1 =
    if str_eqb tag STAGE_RELAY then Relay else if str_eqb tag STAGE_HANDSHAKE then Handshake else Connect.
Proof.
  intros Hu Ht. rewrite classify_stage.
  assert (Hc : ∀ t, tagged t (context tag e) = str_eqb tag t || tagged t e) by done.
  rewrite !Hc, !Hu, !orb_false_r by (unfold tags; set_solver). each_tag Ht; vm_compute; reflexivity.
Qed.

Lemma classify_untagged e : untagged e → (classify_conn_failure e).1 = OtherStage.
Proof.
  intros Hu. rewrite classify_stage. by rewrite !Hu by (unfold tags; set_solver).
Qed.

Lemma classify_relay e : untagged e → (classify_conn_failure (context STAGE_RELAY e)).1 = Relay.
Proof. intros Hu. by rewrite classify_tagged by (done || unfold tags; set_solver). Qed.

Lemma classify_handshake e : untagged e → (classify_conn_failure (context STAGE_HANDSHAKE e)).1 = Handshake.
Proof. intros Hu. by rewrite classify_tagged by (done || unfold tags; set_solver). Qed.

Lemma classify_connect_tor e : untagged e → (classify_conn_failure (context STAGE_CONNECT_TOR e)).1 = Connect.
Proof. intros Hu. by rewrite classify_tagged by (done || unfold tags; set_solver). Qed.

Lemma classify_connect_upstream e :
  untagged e → (classify_conn_failure (context STAGE_CONNECT_UPSTREAM e)).1 = Connect.
Proof. intros Hu. by rewrite classify_tagged by (done || unfold tags; set_solver). Qed.

Lemma untagged_messages :
  untagged (anyhow (lit "tor tunnel unavailable (shutting down?)")) ∧
  untagged (anyhow (lit "SDK returned an invalid target authority")).
Proof. split; intros tag Ht; each_tag Ht; vm_compute; reflexivity. Qed.

#[local] Opaque classify_conn_failure.

Lemma existsb_prepend f acts r : existsb f (prepend acts r).1 = existsb f acts || existsb f r.1.
Proof. apply existsb_app. Qed.

Lemma existsb_recovery f n : f RequestRecovery = false → existsb f (repeat RequestRecovery n) = false.
Proof. intros Hf. induction n as [|n IH]; [done|]. simpl. by rewrite Hf. Qed.

Lemma relay_stage_classified sess req e :
  Forall untagged (foreign_errors sess) → (relay_stage sess req).2 = Err e →
  (classify_conn_failure e).1 = stage_reached (relay_stage sess req).1 ∧
  (stage_reached (relay_stage sess req).1 = Relay ∨ stage_reached (relay_stage sess req).1 = OtherStage).
Proof.
  unfold foreign_errors, relay_stage. rewrite !Forall_app. intros (_ & _ & He & Hp & Hr).
  destruct (established_reply sess) as [|ch]; [|intros [= <-]; rewrite Forall_singleton in He; split; [etrans; [by apply classify_untagged|reflexivity]|by right]].
  destruct (prefix_write sess) as [|f]; [|intros [= <-]; rewrite Forall_singleton in Hp; split; [etrans; [by apply classify_relay|reflexivity]|by left]].
  destruct (relay sess) as [|g]; [intros ?; done|]. intros [= <-]. rewrite Forall_singleton in Hr. split; [etrans; [by apply classify_relay|reflexivity]|by left].
Qed.

Definition shows_stage (a : action) : bool := match a with Forward _ | Send _ => true | _ => false end.

Lemma stage_prepend acts r :
  existsb shows_stage acts = false → stage_reached (prepend acts r).1 = stage_reached r.1.
Proof.
  intros Ha. unfold stage_reached. rewrite !existsb_prepend.
  assert (Hn : ∀ f : action → bool, (∀ a, f a = true → shows_stage a = true) → existsb f acts = false).
  { intros f Hf. destruct (existsb f acts) eqn:Hx; [|done]. apply existsb_exists in Hx as (a & Hin & Hfa).
    rewrite <-Ha. symmetry. apply existsb_exists. eauto. }
  by rewrite !Hn by (by intros []).
Qed.

Lemma connect_stage_classified sess req host port e :
  Forall untagged (foreign_errors sess) → (connect_stage sess req host port).2 = Err e →
  (classify_conn_failure e).1 = stage_reached (connect_stage sess req host port).1 ∧
  (stage_reached (connect_stage sess req host port).1 = Connect ↔ connected sess = false).
Proof.
  intros Hf. pose proof Hf as Hall. unfold foreign_errors in Hf. rewrite !Forall_app in Hf.
  destruct Hf as (_ & Hw & _). unfold connect_stage, connected.
  pose proof (relay_stage_classified sess req e Hall) as Hr.
  destruct (way_out sess) as [[] n [[]|f]|[[]|ch]]; rewrite !stage_prepend
    by (rewrite ?existsb_app, ?existsb_recovery; done).
  - intros He. destruct (Hr He) as [Hc Hs]. split; [done|]. destruct Hs as [->| ->]; done.
  - intros [= <-]. rewrite Forall_singleton in Hw. split; [etrans; [by apply classify_connect_tor|reflexivity]|done].
  - intros [= <-]. split; [|done]. etrans; [apply classify_connect_tor|reflexivity]. apply untagged_messages.
  - intros [= <-]. split; [|done]. etrans; [apply classify_connect_tor|reflexivity]. apply untagged_messages.
  - intros He. destruct (Hr He) as [Hc Hs]. split; [done|]. destruct Hs as [->| ->]; done.
  - intros [= <-]. rewrite Forall_singleton in Hw. split; [etrans; [by apply classify_connect_upstream|reflexivity]|done].
Qed.

(** as long as no foreign error text equals one of the four tags, a
    failed connection is attributed to the stage it had reached: handshake
    before any reply, connect once a general failure was sent, relay once the
    client's first bytes were forwarded, other between the two. *)
Theorem failures_are_attributed sess e :
  Forall untagged (foreign_errors sess) → (handle_client sess).2 = Err e →
  (classify_conn_failure e).1 = stage_reached (handle_client sess).1.
Proof.
  intros Hf. destruct (handle_client_cases sess) as [(h & p & req & _ & _ & ->)|[_ [(req & _ & ->)|(ch & Hch & ->)]]].
  - intros He. by apply connect_stage_classified.
  - done.
  - intros [= <-]. etrans; [apply classify_handshake|reflexivity]. destruct Hch as [Hch| ->]; [|apply untagged_messages].
    unfold foreign_errors in Hf. rewrite Hch in Hf. by inversion Hf.
Qed.

(** ** What a connection adds to the counters *)

Definition is_bump (k : counter) (a : action) : bool :=
  match a with Bump k' => bool_decide (k' = k) | _ => false end.
Definition is_unpend (a : action) : bool := match a with Unpend => true | _ => false end.
Definition is_release (a : action) : bool := match a with ReleasePermit => true | _ => false end.

(** How many actions of a kind. *)
Definition count (f : action → bool) (acts : list action) : Z := Z.of_nat (length (List.filter f acts)).

Lemma count_nil f : count f [] = 0.
Proof. done. Qed.

Lemma count_app f a b : count f (a ++ b) = count f a + count f b.
Proof. unfold count. rewrite List.filter_app, length_app. lia. Qed.

Lemma conn_count_cons f a acts : count f (a :: acts) = (if f a then 1 else 0) + count f acts.
Proof. unfold count. simpl. destruct (f a); cbn [length]; lia. Qed.

Lemma count_recovery f n : f RequestRecovery = false → count f (repeat RequestRecovery n) = 0.
Proof. intros Hf. unfold count. by rewrite filter_recovery. Qed.

(** Neither stage holds the actions of the accept loop. *)
Definition outer (a : action) : bool :=
  match a with Unpend | ReleasePermit | Bump (Started | Pending) => true | _ => false end.

Lemma relay_stage_inner sess req : count outer (relay_stage sess req).1 = 0.
Proof. unfold relay_stage. by destruct (established_reply sess), (prefix_write sess), (relay sess). Qed.

Lemma handle_client_inner sess : count outer (handle_client sess).1 = 0.
Proof.
  destruct (handle_client_cases sess) as [(h & p & req & _ & _ & ->)|[_ [(req & _ & ->)|(ch & Hch & ->)]]];
    [|done..].
  unfold connect_stage. pose proof (relay_stage_inner sess req) as Hr.
  destruct (way_out sess) as [[] n [[]|f]|[[]|ch]]; cbn [prepend fst snd];
    rewrite ?count_app, ?count_recovery, ?Hr by done; done.
Qed.

Lemma count_le f g acts : (∀ a, f a = true → g a = true) → count f acts ≤ count g acts.
Proof.
  intros Hf. induction acts as [|a acts IH]; [done|]. rewrite !conn_count_cons.
  destruct (f a) eqn:Ha; [rewrite (Hf a Ha)|destruct (g a)]; lia.
Qed.

Lemma count_nonneg f acts : 0 ≤ count f acts.
Proof. unfold count. lia. Qed.

Lemma count_inner f sess : (∀ a, f a = true → outer a = true) → count f (handle_client sess).1 = 0.
Proof.
  intros Hf. pose proof (count_le f outer (handle_client sess).1 Hf). rewrite handle_client_inner in *.
  pose proof (count_nonneg f (handle_client sess).1). lia.
Qed.

(** The counters of the failure that ended the task. *)
Definition failure_bumps (r : result unit chain) : list action :=
  match r with
  | Ok _ => []
  | Err e => map Bump (record_failure (classify_conn_failure e).1 (classify_conn_failure e).2)
  end.

Lemma connection_task_eq sess :
  connection_task sess =
  [Bump Started; Bump Pending] ++ (handle_client sess).1 ++ failure_bumps (handle_client sess).2 ++
  [ReleasePermit; Unpend].
Proof.
  unfold connection_task, failure_bumps. destruct (handle_client sess) as [acts [|e]]; cbn [fst snd];
    [|destruct (classify_conn_failure e) as [stage kind]; cbn [fst snd]]; by rewrite <-app_assoc.
Qed.

Lemma failure_bumps_outer f r : (∀ a, f a = true → outer a = true) → count f (failure_bumps r) = 0.
Proof.
  intros Hf. assert (Ho : count outer (failure_bumps r) = 0).
  { destruct r as [|e]; [done|]. simpl. destruct (classify_conn_failure e) as [[] []]; done. }
  pose proof (count_le f outer _ Hf : count f (failure_bumps r) ≤ _). pose proof (count_nonneg f (failure_bumps r)). lia.
Qed.

Lemma relay_stage_connects sess req :
  count (is_bump ConnectOk) (relay_stage sess req).1 = 0 ∧
  count (is_bump ConnectFailed) (relay_stage sess req).1 = 0.
Proof. unfold relay_stage. by destruct (established_reply sess), (prefix_write sess), (relay sess). Qed.

Lemma connect_stage_connects sess req host port :
  count (is_bump ConnectOk) (connect_stage sess req host port).1 = (if connected sess then 1 else 0) ∧
  count (is_bump ConnectFailed) (connect_stage sess req host port).1 = (if connected sess then 0 else 1).
Proof.
  unfold connect_stage, connected. pose proof (relay_stage_connects sess req) as [Ho Hf].
  destruct (way_out sess) as [[] n [[]|f]|[[]|ch]]; cbn [prepend fst snd];
    rewrite ?count_app, ?count_recovery, ?Ho, ?Hf by done; done.
Qed.

Lemma failure_bumps_connects r :
  count (is_bump ConnectOk) (failure_bumps r) = 0 ∧
  count (is_bump ConnectFailed) (failure_bumps r) =
    match r with Err e => if decide ((classify_conn_failure e).1 = Connect) then 1 else 0 | Ok _ => 0 end.
Proof. destruct r as [|e]; [done|]. simpl. destruct (classify_conn_failure e) as [[] []]; done. Qed.

(** a connection whose dial succeeds adds one to [connect_ok] and nothing
    to [connect_failed]; one whose dial fails adds two to [connect_failed],
    once in the handler and once when the accept loop records the failure, so
    the success rate of a window with one success and one failure is 33. *)
Theorem failed_connects_count_twice sess host port :
  Forall untagged (foreign_errors sess) → admitted sess host port →
  count (is_bump ConnectOk) (connection_task sess) = (if connected sess then 1 else 0) ∧
  count (is_bump ConnectFailed) (connection_task sess) = (if connected sess then 0 else 2).
Proof.
  intros Hf Ha. destruct (handle_client_cases sess) as [(h & p & req & _ & _ & He)|[Hn _]];
    [|by destruct (Hn host port)].
  rewrite connection_task_eq, He, !count_app.
  destruct (connect_stage_connects sess req h p) as [-> ->].
  destruct (failure_bumps_connects (connect_stage sess req h p).2) as [-> ->].
  pose proof (connect_stage_classified sess req h p) as Hc.
  assert (Hr : connected sess = false → ∃ e, (connect_stage sess req h p).2 = Err e).
  { unfold connected, connect_stage. destruct (way_out sess) as [[] n [[]|f]|[[]|ch]]; simpl; eauto; done. }
  destruct ((connect_stage sess req h p).2) as [[]|e] eqn:Hres.
  - destruct (connected sess); [done|]. destruct (Hr eq_refl) as [? ?]. done.
  - destruct (Hc e Hf eq_refl) as [Hs Hiff]. rewrite Hs. case_decide as Hd; destruct (connected sess) eqn:Hcon; try done.
    + apply Hiff in Hd. done.
    + exfalso. apply Hd. by apply Hiff.
Qed.

(** ** Many connections at once *)

Context (allowed : ClientAcl.AllowedClients).
Abbreviation step := (server_step allowed).
Abbreviation reachable := (reach step begins (mkConfig server_start ∅)).

(** The index at which the summary swaps a counter. *)
Definition swap_index (k : counter) : nat :=
  match k with
  | Started => 0 | ConnectOk => 1 | ConnectFailed => 2 | RelayClosed => 3 | RelayErrors => 4
  | ClientErrors => 5 | TorErrors => 6 | OtherErrors => 7 | Pending => 8
  end.

(** What a snapshot in progress has taken, and what a task has added so far. *)
Definition taken (k : counter) (p : process) : Z :=
  match p with
  | Summary partial n => if (swap_index k <? n)%nat then load k partial else 0
  | _ => 0
  end.
Definition added (k : counter) (p : process) : Z :=
  match p with Serving done _ => count (is_bump k) done | _ => 0 end.

Definition logged_sum (k : counter) (s : server) : Z :=
  foldr (fun snap acc => load k snap + acc) 0 (logged s).

Lemma perform_load t a s k :
  k ≠ Pending →
  eq64 (load k (counters (perform t a s))) (load k (counters s) + (if is_bump k a then 1 else 0)) ∧
  logged (perform t a s) = logged s.
Proof.
  intros Hk. split; [|by destruct a].
  destruct a; simpl; rewrite ?Z.add_0_r; try done; rewrite bump_load.
  - case_decide as Hd; [rewrite bool_decide_eq_true_2 by done; subst; apply fetch_add_eq64|].
    rewrite bool_decide_eq_false_2 by done. by rewrite Z.add_0_r.
  - case_decide; [congruence|done].
Qed.

Lemma summary_conserves k n partial s s' p' :
  k ≠ Pending → server_step allowed 0 (0, 0) s (Summary partial n) = Some (s', p') →
  load k (counters s') + logged_sum k s' + taken k p' =
  load k (counters s) + logged_sum k s + taken k (Summary partial n).
Proof.
  intros Hk. simpl. destruct (windowed !! n) as [k'|] eqn:Hn.
  - intros [= <- <-]. unfold logged_sum. simpl. rewrite !load_store.
    assert (Hi : swap_index k' = n).
    { do 8 (destruct n as [|n]; [by injection Hn as <-|]). done. }
    case_decide as Hd; subst.
    + rewrite (proj2 (Nat.ltb_lt _ _)) by lia. rewrite (proj2 (Nat.ltb_ge _ _)) by lia. lia.
    + assert (swap_index k ≠ swap_index k') by (destruct k, k'; done).
      destruct (Nat.ltb_spec (swap_index k) (S (swap_index k'))), (Nat.ltb_spec (swap_index k) (swap_index k')); lia.
  - intros [= <- <-]. unfold logged_sum. simpl. rewrite load_store, decide_False by congruence.
    apply lookup_ge_None_1 in Hn. simpl in Hn.
    rewrite (proj2 (Nat.ltb_lt _ _)); [lia|]. destruct k; simpl; (lia || done).
Qed.

Lemma eq64_of_eq a b : a = b → eq64 a b.
Proof. by intros ->. Qed.

Lemma step_conserves_events k i t s p s' p' :
  k ≠ Pending → step i t s p = Some (s', p') →
  eq64 (load k (counters s') + logged_sum k s' + (taken k p' - added k p'))
       (load k (counters s) + logged_sum k s + (taken k p - added k p)).
Proof.
  intros Hk Hst. destruct p as [sess| |id sess|done todo|partial n].
  - simpl in Hst. destruct (ClientAcl.allows_client _ _); by injection Hst as <- <-.
  - done.
  - simpl in Hst. destruct (0 <? permits s); [|done]. by injection Hst as <- <-.
  - destruct todo as [|a todo]; [done|]. injection Hst as <- <-.
    destruct (perform_load t a s k Hk) as [Hl Hlog]. unfold logged_sum. rewrite Hlog. simpl.
    rewrite count_app, conn_count_cons, count_nil.
    set (l := foldr _ _ _). set (d := count _ done). set (b := if is_bump k a then 1 else 0) in *.
    apply (eq64_add _ _ (l - (d + (b + 0)))) in Hl.
    replace (load k (counters (perform t a s)) + l + (0 - (d + (b + 0))))
      with (load k (counters (perform t a s)) + (l - (d + (b + 0)))) by lia.
    etrans; [exact Hl|]. apply eq64_of_eq. lia.
  - pose proof (summary_conserves k n partial s s' p' Hk Hst) as He. apply eq64_of_eq.
    assert (added k p' = 0) as ->; [|simpl in *; lia].
    simpl in Hst. destruct (windowed !! n); by injection Hst as <- <-.
Qed.

Lemma tally_sub (f g : process → Z) q : tally (fun p => f p - g p) q = tally f q - tally g q.
Proof.
  induction q as [|i p q Hi IH] using map_ind; [done|]. rewrite !tally_insert_fresh by done. lia.
Qed.

(** C27: however connections and summaries interleave, no event is lost or
    counted in two windows: the current value of a windowed counter, the
    logged snapshots and the snapshots in progress add up, modulo the width of
    the counters, to the events of all connections so far. *)
Theorem events_are_conserved c k :
  reachable c → k ≠ Pending →
  eq64 (load k (counters (shared c)) + logged_sum k (shared c) + tally (taken k) (procs c))
       (tally (added k) (procs c)).
Proof.
  intros Hr Hk.
  assert (H0 : ∀ p, begins p → taken k p - added k p = 0).
  { intros p [[sess ->]| ->]; [done|]. simpl. by destruct k. }
  pose proof (reach_conserves step begins eq64 (fun s => load k (counters s) + logged_sum k s)
    (fun p => taken k p - added k p) (mkConfig server_start ∅) c eq64_add H0
    (fun i t s p s' p' => step_conserves_events k i t s p s' p' Hk) Hr) as Hc.
  simpl in Hc. rewrite tally_empty, tally_sub in Hc.
  apply (eq64_add _ _ (tally (added k) (procs c))) in Hc.
  etrans; [|etrans; [exact Hc|]]; apply eq64_of_eq; [lia|]. by destruct k.
Qed.

(** ** The gauge and the permits *)

(** A task holds its permit until it releases it, and is pending from its
    second action to its last. *)
Definition holding (p : process) : Z :=
  match p with Serving _ todo => count is_release todo | _ => 0 end.

Definition unbalanced (p : process) : Z :=
  match p with Serving _ todo => count is_unpend todo - count (is_bump Pending) todo | _ => 0 end.

Definition in_flight (p : process) : Z :=
  match p with
  | Serving _ todo => if existsb is_unpend todo && negb (existsb (is_bump Pending) todo) then 1 else 0
  | _ => 0
  end.

Lemma task_balance sess :
  count is_release (connection_task sess) = 1 ∧ count is_unpend (connection_task sess) = 1 ∧
  count (is_bump Pending) (connection_task sess) = 1.
Proof.
  rewrite connection_task_eq, !count_app.
  rewrite !(count_inner _ sess), !(failure_bumps_outer _ (handle_client sess).2)
    by (intros [[]| | | | | | | | | | | | | | ]; done). done.
Qed.

(** Every task in progress is a task of some session, and permits are never
    overdrawn. *)
Definition task_of (p : process) : Prop :=
  match p with Serving done todo => ∃ sess, done ++ todo = connection_task sess | _ => True end.

Lemma reachable_tasks c :
  reachable c → 0 ≤ permits (shared c) ∧ ∀ i p, procs c !! i = Some p → task_of p.
Proof.
  intros Hr. apply (reach_holds step begins (fun s => 0 ≤ permits s) (fun _ p _ => task_of p)) in Hr; [exact Hr|..].
  - intros _ p s [[sess ->]| ->] _; done.
  - intros i t s p s' p' HG HL. destruct p as [sess| |id sess|done todo|partial n]; simpl.
    + destruct (ClientAcl.allows_client _ _); by intros [= <- <-].
    + done.
    + destruct (Z.ltb_spec 0 (permits s)); [|done]. intros [= <- <-]. simpl. split; [lia|by exists sess].
    + destruct todo as [|a todo]; [done|]. intros [= <- <-]. destruct HL as [sess HL]. split.
      * destruct a; simpl; lia.
      * exists sess. by rewrite <-app_assoc.
    + destruct (windowed !! n); by intros [= <- <-].
  - done.
  - split; [done|]. intros i p. simpl. by rewrite lookup_empty.
Qed.

Lemma step_conserves_permits i t s p s' p' :
  step i t s p = Some (s', p') → permits s' + holding p' = permits s + holding p.
Proof.
  destruct p as [sess| |id sess|done todo|partial n]; simpl.
  - destruct (ClientAcl.allows_client _ _); by intros [= <- <-].
  - done.
  - destruct (0 <? permits s); [|done]. intros [= <- <-]. simpl.
    destruct (task_balance sess) as (-> & _ & _). lia.
  - destruct todo as [|a todo]; [done|]. intros [= <- <-]. simpl. rewrite conn_count_cons. destruct a; simpl; lia.
  - destruct (windowed !! n); by intros [= <- <-].
Qed.

Lemma perform_pending t a s :
  eq64 (pending (counters (perform t a s)))
    (pending (counters s) + ((if is_bump Pending a then 1 else 0) - (if is_unpend a then 1 else 0))).
Proof.
  destruct a; simpl; rewrite ?Z.add_0_r; try done.
  - change (pending (bump k 1 (counters s))) with (load Pending (bump k 1 (counters s))). rewrite bump_load.
    case_decide as Hd; [rewrite bool_decide_eq_true_2 by done; subst; apply fetch_add_eq64|].
    rewrite bool_decide_eq_false_2 by done. by rewrite Z.add_0_r.
  - change (pending (bump Pending (-1) (counters s))) with (load Pending (bump Pending (-1) (counters s))).
    rewrite bump_load, decide_True by done. apply fetch_add_eq64.
Qed.

Lemma step_conserves_pending i t s p s' p' :
  step i t s p = Some (s', p') →
  eq64 (pending (counters s') + (0 - unbalanced p')) (pending (counters s) + (0 - unbalanced p)).
Proof.
  destruct p as [sess| |id sess|done todo|partial n]; simpl.
  - destruct (ClientAcl.allows_client _ _); by intros [= <- <-].
  - done.
  - destruct (0 <? permits s); [|done]. intros [= <- <-]. simpl.
    by destruct (task_balance sess) as (_ & -> & ->).
  - destruct todo as [|a todo]; [done|]. intros [= <- <-]. simpl. rewrite !conn_count_cons.
    pose proof (perform_pending t a s) as Hp.
    set (u := count is_unpend todo). set (b := count (is_bump Pending) todo).
    apply (eq64_add _ _ (0 - (u - b))) in Hp. etrans; [exact Hp|]. apply eq64_of_eq. lia.
  - destruct (windowed !! n) as [k|] eqn:Hn; intros [= <- <-]; [|done]. simpl.
    assert (Hk : k ≠ Pending) by (do 8 (destruct n as [|n]; [by injection Hn as <-|]); done).
    by destruct k, (counters s).
Qed.

Lemma count_split f done todo sess n :
  done ++ todo = connection_task sess → count f (connection_task sess) = n →
  count f done + count f todo = n.
Proof. intros <- <-. by rewrite count_app. Qed.

Lemma count_existsb f acts : existsb f acts = false ↔ count f acts = 0.
Proof.
  induction acts as [|a acts IH]; [done|]. rewrite conn_count_cons. simpl. pose proof (count_nonneg f acts).
  destruct (f a); simpl; [split; [done|lia]|]. rewrite IH. lia.
Qed.

Lemma task_in_flight p : task_of p → unbalanced p = in_flight p.
Proof.
  destruct p as [s| |id s|done todo|pa n]; try (intros _; reflexivity). intros [sess Ht]. simpl.
  destruct (task_balance sess) as (_ & Hu & Hb).
  pose proof (count_split _ _ _ _ _ Ht Hu) as Hu'. pose proof (count_split _ _ _ _ _ Ht Hb) as Hb'.
  pose proof (count_nonneg is_unpend done). pose proof (count_nonneg (is_bump Pending) done).
  pose proof (count_nonneg is_unpend todo). pose proof (count_nonneg (is_bump Pending) todo).
  assert (Hlast : todo = [] ∨ count is_unpend todo = 1).
  { destruct todo as [|x init _] using rev_ind; [by left|right].
    rewrite connection_task_eq in Ht. rewrite !app_assoc in Ht.
    change [ReleasePermit; Unpend] with ([ReleasePermit] ++ [Unpend]) in Ht.
    rewrite !app_assoc in Ht. apply app_inj_tail in Ht as [_ ->]. rewrite count_app in *.
    change (count is_unpend [Unpend]) with 1 in *. pose proof (count_nonneg is_unpend init). lia. }
  destruct Hlast as [->|Hone]; [done|].
  destruct (existsb is_unpend todo) eqn:Eu; [|apply count_existsb in Eu; lia].
  destruct (existsb (is_bump Pending) todo) eqn:Eb; simpl.
  - assert (count (is_bump Pending) todo ≠ 0) by (rewrite <-count_existsb; congruence). lia.
  - apply count_existsb in Eb. lia.
Qed.

Lemma tally_ext (f g : process → Z) (q : gmap nat process) :
  (∀ i p, q !! i = Some p → f p = g p) → tally f q = tally g q.
Proof.
  induction q as [|i p q Hi IH] using map_ind; [done|]. intros Hfg. rewrite !tally_insert_fresh by done.
  rewrite (Hfg i p), IH; [done| |apply lookup_insert_eq].
  intros j r Hj. apply (Hfg j). rewrite lookup_insert_ne by congruence. done.
Qed.

(** C30: at every moment the tasks that hold a permit and the free permits
    are 256 together, so at most 256 connections are served at once, and the
    [pending] gauge is the number of tasks between their start and their end,
    whichever way they end. *)
Theorem permits_and_gauge_are_exact c :
  reachable c →
  0 ≤ permits (shared c) ∧
  permits (shared c) + tally holding (procs c) = MAX_CONCURRENT_CONNECTIONS ∧
  eq64 (pending (counters (shared c))) (tally in_flight (procs c)).
Proof.
  intros Hr. destruct (reachable_tasks c Hr) as [Hp Ht]. split; [done|split].
  - assert (Ha : ∀ a b k : Z, a = b → a + k = b + k) by lia.
    assert (Hb : ∀ p, begins p → holding p = 0) by (by intros p [[sess ->]| ->]).
    pose proof (reach_conserves step begins eq permits holding (mkConfig server_start ∅) c Ha Hb
      step_conserves_permits Hr) as Hc.
    etrans; [exact Hc|]. simpl. by rewrite tally_empty.
  - assert (Hb : ∀ p, begins p → 0 - unbalanced p = 0) by (by intros p [[sess ->]| ->]).
    pose proof (reach_conserves step begins eq64 (fun s => pending (counters s)) (fun p => 0 - unbalanced p)
      (mkConfig server_start ∅) c eq64_add Hb step_conserves_pending Hr) as Hc.
    simpl in Hc. rewrite tally_empty, tally_sub in Hc.
    rewrite (tally_ext in_flight unbalanced) by (intros i p Hi; symmetry; eauto using task_in_flight).
    apply (eq64_add _ _ (tally unbalanced (procs c))) in Hc.
    assert (H0 : tally (fun _ : process => 0) (procs c) = 0).
    { generalize (procs c). intros q. induction q as [|i p q Hi IH] using map_ind; [done|].
      rewrite tally_insert_fresh by done. lia. }
    rewrite H0 in Hc. etrans; [|etrans; [exact Hc|]]; apply eq64_of_eq; lia.
Qed.
End Handle.

(** ** Upstream selection *)

Record UpstreamConfig : Type := mkUpstreamConfig {
  enabled : bool;
  address : str;
  config_username : str;
  config_password : str;
}.

Record Upstream : Type := mkUpstream {
  up_address : str;
  credentials : option (str * str);
  proxy : option (str * Z);
}.

Section Upstream.
Context (host_port_parse : str → option (str * Z)).

Definition upstream_new (a : str) (creds : option (str * str)) : Upstream :=
  mkUpstream a creds (host_port_parse a).

Definition non_empty (s : str) : option str := if is_empty s then None else Some s.

Inductive upstream_error : Type := NoAddress | NotHostPort.

Definition pick_upstream (cfg : UpstreamConfig) (cli_address cli_user cli_pass : option str)
  (no_upstream : bool) : result (option Upstream) upstream_error :=
  if no_upstream then Ok None
  else if negb (bool_decide (is_Some cli_address) || enabled cfg) then Ok None
  else
    let a := default (address cfg) cli_address in
    if is_empty (trim a) then Err NoAddress
    else
      let user := match cli_user with Some u => Some u | None => non_empty (config_username cfg) end in
      let pass := match cli_pass with Some p => Some p | None => non_empty (config_password cfg) end in
      let creds := match user with Some u => Some (u, default [] pass) | None => None end in
      let up := upstream_new a creds in
      match proxy up with
      | None => Err NotHostPort
      | Some _ => Ok (Some up)
      end.

(** An upstream that is picked has a parsed address, the command line's where
    it gives one, and asks for a password exactly when a user name is known. *)
Theorem picked_upstream_is_valid cfg cli_address cli_user cli_pass no_upstream up :
  pick_upstream cfg cli_address cli_user cli_pass no_upstream = Ok (Some up) →
  no_upstream = false ∧ (cli_address ≠ None ∨ enabled cfg = true) ∧
  up_address up = default (address cfg) cli_address ∧
  (∃ hp, host_port_parse (up_address up) = Some hp ∧ proxy up = Some hp) ∧
  (credentials up = None ↔ cli_user = None ∧ config_username cfg = []).
Proof.
  unfold pick_upstream. destruct no_upstream; [done|].
  destruct (bool_decide (is_Some cli_address) || enabled cfg) eqn:He; simpl; [|done].
  destruct (is_empty (trim _)); [done|]. unfold upstream_new. simpl.
  destruct (host_port_parse _) as [hp|] eqn:Hp; [|done]. intros [= <-]. simpl. split_and!; [done| |done|eauto|].
  - apply orb_true_iff in He as [Hb|]; [|auto]. apply bool_decide_eq_true in Hb as [a ->]. by left.
  - destruct cli_user, (config_username cfg) eqn:Hu; simpl; try rewrite Hu; split; naive_solver.
Qed.
End Upstream.

(** ** Witnesses *)

(** A client of a proxy without accounts, to a host behind Tor whose exit does
    not answer, and one that is answered. *)
Definition sample_parse (t : str) : option (str * Z) := Some (t, 443).
Definition sample_request : IncomingRequest := mkRequest (lit "example.com") None [].
Definition sample_failure : tor_failure :=
  mkTorFailure (TorHealth.Connect (lit "example.com") 443 TorHealth.RemoteNetworkTimeout) (lit "timeout") [].
Definition sample_session (r : result unit tor_failure) : session :=
  mkSession (V4 0) (Ok sample_request) true None None None (EgressTor true 0 r) (Ok tt) (Ok tt) (Ok tt).

Lemma failures_are_attributed_witness :
  (classify_conn_failure (context STAGE_CONNECT_TOR (tor_chain sample_failure))).1 =
  stage_reached (handle_client sample_parse (sample_session (Err sample_failure))).1.
Proof.
  apply (failures_are_attributed sample_parse (sample_session (Err sample_failure))); [|vm_compute; done].
  apply Forall_singleton, untagged_check. vm_compute. reflexivity.
Defined.

Lemma failed_connects_count_twice_witness :
  count (is_bump ConnectFailed) (connection_task sample_parse (sample_session (Err sample_failure))) = 2 ∧
  connect_success_rate_pct (mkCounters 2 0 1 2 1 0 0 1 0) = Some 33.
Proof.
  split; [|vm_compute; done].
  apply (failed_connects_count_twice sample_parse (sample_session (Err sample_failure)) (lit "example.com") 443).
  - apply Forall_singleton, untagged_check. vm_compute. reflexivity.
  - exists sample_request. split_and!; [reflexivity|reflexivity| |intros users Hu; discriminate Hu].
    intros Ho. vm_compute in Ho. discriminate Ho.
Defined.

(** Two connections, one of which fails, and a summary that starts after the
    first counters and ends before the last. *)
Definition sample_schedule : list (move process clocks) :=
  [Spawn 0 (Arrived (sample_session (Err sample_failure))); Spawn 1 (Arrived (sample_session (Ok tt)));
   Spawn 2 (Summary counters_default 0)] ++
  repeat (Step 0 (0, 0)) 4 ++ repeat (Step 1 (0, 0)) 5 ++ repeat (Step 2 (0, 0)) 4 ++
  repeat (Step 0 (0, 0)) 10 ++ repeat (Step 2 (0, 0)) 5.

Definition sample_run : option (config server process) :=
  run_schedule (server_step sample_parse ClientAcl.allowed_default) (mkConfig server_start ∅) sample_schedule.

Definition sample_end : config server process := default (mkConfig server_start ∅) sample_run.

Lemma sample_legal : Forall (legal begins) sample_schedule.
Proof.
  apply Forall_cons; split; [left; by eexists|]. apply Forall_cons; split; [left; by eexists|].
  apply Forall_cons; split; [by right|]. repeat constructor.
Qed.

Lemma sample_reachable :
  reach (server_step sample_parse ClientAcl.allowed_default) begins (mkConfig server_start ∅) sample_end.
Proof. apply (run_reach _ _ _ sample_schedule); [apply sample_legal|]. vm_compute. reflexivity. Qed.

Lemma events_are_conserved_witness :
  length (logged (shared sample_end)) = 1%nat ∧
  eq64 (load ConnectFailed (counters (shared sample_end)) + logged_sum ConnectFailed (shared sample_end) +
        tally (taken ConnectFailed) (procs sample_end)) (tally (added ConnectFailed) (procs sample_end)).
Proof.
  split; [vm_compute; reflexivity|].
  apply (events_are_conserved sample_parse ClientAcl.allowed_default sample_end ConnectFailed);
    [apply sample_reachable|done].
Defined.

Lemma permits_and_gauge_are_exact_witness :
  permits (shared sample_end) + tally holding (procs sample_end) = 256 ∧
  eq64 (pending (counters (shared sample_end))) (tally in_flight (procs sample_end)).
Proof.
  apply (permits_and_gauge_are_exact sample_parse ClientAcl.allowed_default sample_end). apply sample_reachable.
Defined.
End Handler.
