(* ===== verification/Watchdog.v ===== *)
(** * The Tor watchdogs

    [apps/socks5-proxy/src/tor/tor_watchdog/tor_watchdog_runtime.rs]: the
    stale-channel watchdog, which terminates the channels of a client that
    makes no progress, and the soft-failover watchdog, which signals a guard
    failure for a degraded bridge.  A tick is a function of what it observes;
    the theorems relate what a tick does to the whole history. *)

From S2P Require Import Prelude Interleave Order OrdMap Str Net Crates Samples Identity BridgeStore StoreStats.
From S2P Require Import Warmer TorHealth.
Import Identity Store Stats Warmer.
Open Scope Z_scope.

Module Watchdog.

Record WatchdogConfig : Type := mkWatchdogConfig {
  stale_after_secs : Z;
  rebuild_cooldown_secs : Z;
  failover_min_circuit_fails : Z;
  failover_min_margin : Z;
  failover_signal_cooldown_secs : Z;
}.

Definition MIN_ATTEMPTS_TO_TRIGGER : Z := 3.
Definition CONSECUTIVE_FAILURES_BEFORE_BACKOFF : Z := 3.
Definition EXTENDED_REBUILD_COOLDOWN : Z := TorHealth.from_secs (30 * 60).
Definition GATED_TICKS_BEFORE_OVERRIDE : Z := 2.

Definition next_cooldown (consecutive_failures normal : Z) : Z :=
  if CONSECUTIVE_FAILURES_BEFORE_BACKOFF <=? consecutive_failures then EXTENDED_REBUILD_COOLDOWN else normal.

Definition should_decline_rebuild (new_remote new_access new_net : Z) : bool :=
  if (new_remote =? 0) && (new_access =? 0) && (new_net =? 0) then false
  else
    let net_is_strict_max := (new_remote <? new_net) && (new_access <? new_net) in
    negb net_is_strict_max && ((0 <? new_remote) || (0 <? new_access)).

Definition should_override_decline (gated_ticks : Z) : bool := GATED_TICKS_BEFORE_OVERRIDE <=? gated_ticks.

Definition step_gated_ticks (gated_ticks : Z) (gate_declined : bool) : Z :=
  if gate_declined then saturating_add u32_max gated_ticks 1 else gated_ticks.

Definition reset_gated_ticks_on_success (gated_ticks : Z) (success_since_prev_tick : bool) : Z :=
  if success_since_prev_tick then 0 else gated_ticks.

(** ** The stale-channel watchdog *)

Section Stale.
Context `{TimeCrate}.

(** What one tick reads, in the order it may read it: the counters and the
    clock, the store on disk, the instant of the cooldown check, the tunnel
    and the last good target, the outcome of terminating the channels and of
    the canary, and the instant after the heal. *)
Record observation : Type := mkObservation {
  health : TorHealth.TorHealth;
  now_secs : Z;
  store : option BridgeStore;
  now : Z;
  tunnel : bool;
  target : option (str * Z);
  terminated : bool;
  canary : bool;
  after : Z;
}.

Definition live_bridge_count (s : option BridgeStore) : nat :=
  match s with Some s => alive_count s | None => 0 end.

Inductive HealResult : Type := Healed | StillUnhealthy | TerminateFailed.

Definition verify_usable (canary_target : option (str * Z)) (connects : bool) : bool :=
  match canary_target with None => true | Some _ => connects end.

Definition heal (o : observation) : HealResult :=
  if terminated o then if verify_usable (target o) (canary o) then Healed else StillUnhealthy
  else TerminateFailed.

(** The variables of the loop. *)
Record watch : Type := mkWatch {
  prev_attempts : Z;
  prev_last_success : Z;
  gated_ticks : Z;
  prev_remote_timeout : Z;
  prev_access_failed : Z;
  prev_net_timeout : Z;
  last_rebuild : option Z;
  consecutive_failures : Z;
}.

(** Why a tick did nothing, or what its heal gave. *)
Inductive verdict : Type :=
| Fresh
| Quiet
| NoBridges
| Declined
| Cooling
| Drained
| Attempted (r : HealResult).

(** The new baselines. *)
Definition advance (h : TorHealth.TorHealth) (gated : Z) (rebuilt : option Z) (failures : Z) : watch :=
  mkWatch (TorHealth.attempts h) (TorHealth.last_success h) gated (TorHealth.remote_timeout_count h)
    (TorHealth.access_failed_count h) (TorHealth.net_timeout_count h) rebuilt failures.

Definition watch_start (h : TorHealth.TorHealth) : watch :=
  advance h 0 None 0.

Definition tick (cfg : WatchdogConfig) (started_secs : Z) (w : watch) (o : observation) : watch * verdict :=
  let h := health o in
  let gated := reset_gated_ticks_on_success (gated_ticks w)
                 (negb (TorHealth.last_success h =? prev_last_success w)) in
  let new_attempts := saturating_sub (TorHealth.attempts h) (prev_attempts w) in
  let new_remote := saturating_sub (TorHealth.remote_timeout_count h) (prev_remote_timeout w) in
  let new_access := saturating_sub (TorHealth.access_failed_count h) (prev_access_failed w) in
  let new_net := saturating_sub (TorHealth.net_timeout_count h) (prev_net_timeout w) in
  let skip gated v := (advance h gated (last_rebuild w) (consecutive_failures w), v) in
  let anchor := if TorHealth.last_success h =? 0 then started_secs else TorHealth.last_success h in
  let since_anchor := saturating_sub (now_secs o) anchor in
  if since_anchor <? stale_after_secs cfg then skip gated Fresh
  else if new_attempts <? MIN_ATTEMPTS_TO_TRIGGER then skip gated Quiet
  else if (live_bridge_count (store o) =? 0)%nat then skip gated NoBridges
  else
    let gate_declined := should_decline_rebuild new_remote new_access new_net in
    let gated := step_gated_ticks gated gate_declined in
    if gate_declined && negb (should_override_decline gated) then skip gated Declined
    else
      let effective_cooldown :=
        next_cooldown (consecutive_failures w) (TorHealth.from_secs (rebuild_cooldown_secs cfg)) in
      if match last_rebuild w with
         | Some last => TorHealth.elapsed (now o) last <? effective_cooldown
         | None => false
         end then skip gated Cooling
      else if negb (tunnel o) then skip gated Drained
      else
        let r := heal o in
        let failures :=
          match r with
          | Healed => 0
          | _ => saturating_add u32_max (consecutive_failures w) 1
          end in
        (advance h 0 (Some (after o)) failures, Attempted r).

(** ** The history

    Newest first: what each tick observed and decided. *)
Definition history : Type := list (observation * verdict).

Fixpoint run (cfg : WatchdogConfig) (started : Z) (w : watch) (os : list observation) : watch * history :=
  match os with
  | [] => (w, [])
  | o :: older =>
      let '(w1, h) := run cfg started w older in
      let '(w2, v) := tick cfg started w1 o in (w2, (o, v) :: h)
  end.

(** The counters one tick earlier, or at the start. *)
Definition earlier (base : TorHealth.TorHealth) (h : history) : TorHealth.TorHealth :=
  match h with [] => base | (o, _) :: _ => health o end.

Definition gained (f : TorHealth.TorHealth → Z) (base : TorHealth.TorHealth) (h : history)
  (o : observation) : Z := saturating_sub (f (health o)) (f (earlier base h)).

(** No success for the stale time, at least three attempts since the tick
    before, and a bridge known to be alive. *)
Definition outage (cfg : WatchdogConfig) (started : Z) (base : TorHealth.TorHealth) (h : history)
  (o : observation) : bool :=
  (stale_after_secs cfg <=?
     saturating_sub (now_secs o)
       (if TorHealth.last_success (health o) =? 0 then started else TorHealth.last_success (health o))) &&
  (MIN_ATTEMPTS_TO_TRIGGER <=? gained TorHealth.attempts base h o) &&
  (1 <=? live_bridge_count (store o))%nat.

(** The failures of the tick do not look like stale channels. *)
Definition wrong_signature (base : TorHealth.TorHealth) (h : history) (o : observation) : bool :=
  should_decline_rebuild (gained TorHealth.remote_timeout_count base h o)
    (gained TorHealth.access_failed_count base h o) (gained TorHealth.net_timeout_count base h o).

(** The outage ticks of the wrong signature since the last success or heal. *)
Fixpoint declines (cfg : WatchdogConfig) (started : Z) (base : TorHealth.TorHealth) (h : history) : Z :=
  match h with
  | [] => 0
  | (o, v) :: older =>
      match v with
      | Attempted _ => 0
      | _ =>
          (if TorHealth.last_success (health o) =? TorHealth.last_success (earlier base older)
           then declines cfg started base older else 0) +
          (if outage cfg started base older o && wrong_signature base older o then 1 else 0)
      end
  end.

(** The heals that failed since the last that succeeded. *)
Fixpoint failed_heals (h : history) : Z :=
  match h with
  | [] => 0
  | (_, Attempted Healed) :: _ => 0
  | (_, Attempted _) :: older => 1 + failed_heals older
  | _ :: older => failed_heals older
  end.

(** When the last heal ended. *)
Fixpoint last_heal (h : history) : option Z :=
  match h with
  | [] => None
  | (o, Attempted _) :: _ => Some (after o)
  | _ :: older => last_heal older
  end.







Section Tick.
Context (cfg : WatchdogConfig) (started : Z) (base : TorHealth.TorHealth) (h : history) (o : observation).

Let w := advance (earlier base h) (Z.min u32_max (declines cfg started base h)) (last_heal h)
  (Z.min u32_max (failed_heals h)).








End Tick.


End Stale.

(** ** The soft-failover watchdog *)

Definition MAX_SIGNALS_PER_BRIDGE : Z := 3.

Definition should_signal_failover (current best_alternative threshold min_margin : Z) : bool :=
  if current <? threshold then false else min_margin <=? saturating_sub current best_alternative.

Definition signal_budget_available (signals_sent : Z) : bool := signals_sent <? MAX_SIGNALS_PER_BRIDGE.

Record SignalRecord : Type := mkRecord {
  last : option Z;
  count : Z;
  exhausted_logged : bool;
}.

Definition record_default : SignalRecord := mkRecord None 0 false.

Section Failover.
Context `{TimeCrate, BridgeLineCrate}.

Definition evidence_is_fresh (cobs : option OffsetDateTime) (task_start : OffsetDateTime) : bool :=
  match cobs with
  | Some t => match odt_cmp t task_start with Gt => true | _ => false end
  | None => false
  end.

Definition healthiest (candidates : list (BridgeLine * Health)) : option Health :=
  match select_top_n candidates 1 with
  | [] => None
  | winner :: _ =>
      option_map snd (List.find (fun c => str_eqb (bridge_to_string c.1) (bridge_to_string winner)) candidates)
  end.

(** One guard failure reported to arti, with the evidence for it. *)
Record signal : Type := mkSignal {
  key : str;
  checked_at : Z;
  sent_at : Z;
  evidence : Health;
  alternative : Health;
  limits : WatchdogConfig;
}.

(** What a check meets: the thresholds of the reloaded configuration, and per
    candidate the instants of the cooldown check and of the stamp, and whether
    arti took the signal. *)
Record check : Type := mkCheck {
  thresholds : WatchdogConfig;
  clock : nat → Z * Z;
  accepts : nat → bool;
}.

Definition signals : Type := gmap str SignalRecord * list signal.

(** The body of the loop over the candidates. *)
Definition consider (signal_cooldown : Z) (task_start : OffsetDateTime) (c : check)
  (candidates : list (BridgeLine * Health)) (st : signals) (ib : nat * (BridgeLine * Health)) : signals :=
  let '(signalled, sent) := st in
  let '(idx, (bridge, hl)) := ib in
  if h_circuit_fails hl <? failover_min_circuit_fails (thresholds c) then st
  else if negb (evidence_is_fresh (h_cobs hl) task_start) then st
  else
    match healthiest (map snd (List.filter (fun o => negb (o.1 =? idx)%nat) (enumerate candidates))) with
    | None => st
    | Some best =>
        if negb (should_signal_failover (h_circuit_fails hl) (h_circuit_fails best)
                   (failover_min_circuit_fails (thresholds c)) (failover_min_margin (thresholds c))) then st
        else
          let k := bridge_to_string bridge in
          let record := default record_default (signalled !! k) in
          let put r := <[k := r]> signalled in
          if match last record with
             | Some l => TorHealth.elapsed (clock c idx).1 l <? signal_cooldown
             | None => false
             end then (put record, sent)
          else if negb (signal_budget_available (count record)) then
            (put (mkRecord (last record) (count record) true), sent)
          else if accepts c idx then
            (put (mkRecord (Some (clock c idx).2) (count record + 1) (exhausted_logged record)),
             mkSignal k (clock c idx).1 (clock c idx).2 hl best (thresholds c) :: sent)
          else (put record, sent)
    end.

(** One tick: nothing without a tunnel, without a configuration or with fewer
    than two active candidates. *)
Definition failover_tick (signal_cooldown : Z) (task_start : OffsetDateTime) (st : signals)
  (tick : option (check * list BridgeLine * list (BridgeLine * Health))) : signals :=
  match tick with
  | None => st
  | Some (c, active, configured) =>
      let candidates := List.filter (fun b => bool_decide (b.1 ∈ active)) configured in
      if (length candidates <? 2)%nat then st
      else foldl (consider signal_cooldown task_start c candidates) st (enumerate candidates)
  end.

Definition failover_run (signal_cooldown : Z) (task_start : OffsetDateTime)
  (ticks : list (option (check * list BridgeLine * list (BridgeLine * Health)))) : signals :=
  foldl (failover_tick signal_cooldown task_start) (∅, []) ticks.

(** ** The signals of a whole run *)

Definition about (k : str) (s : signal) : bool := str_eqb (key s) k.

Definition sent_for (k : str) (log : list signal) : Z := Z.of_nat (length (List.filter (about k) log)).

(** Each signal came at least the cooldown after the one before for the same
    bridge. *)
Fixpoint spaced (cooldown : Z) (log : list signal) : Prop :=
  match log with
  | [] => True
  | s :: older =>
      (∀ p, List.find (about (key s)) older = Some p →
         cooldown ≤ TorHealth.elapsed (checked_at s) (sent_at p)) ∧ spaced cooldown older
  end.

(** Fresh evidence of enough failures, by a margin more than the best
    alternative has. *)
Definition earned (task_start : OffsetDateTime) (s : signal) : Prop :=
  evidence_is_fresh (h_cobs (evidence s)) task_start = true ∧
  failover_min_circuit_fails (limits s) ≤ h_circuit_fails (evidence s) ∧
  failover_min_margin (limits s) ≤ saturating_sub (h_circuit_fails (evidence s)) (h_circuit_fails (alternative s)).

(** The record of a bridge is what the log says of it. *)
Definition recorded (st : signals) : Prop :=
  ∀ k, count (default record_default (st.1 !! k)) = sent_for k st.2 ∧
    last (default record_default (st.1 !! k)) = option_map sent_at (List.find (about k) st.2).

Definition in_bounds (cooldown : Z) (task_start : OffsetDateTime) (st : signals) : Prop :=
  recorded st ∧ spaced cooldown st.2 ∧ Forall (earned task_start) st.2 ∧
  ∀ k, sent_for k st.2 ≤ MAX_SIGNALS_PER_BRIDGE.

Lemma recorded_insert st k r :
  recorded st → count r = count (default record_default (st.1 !! k)) →
  last r = last (default record_default (st.1 !! k)) → recorded (<[k := r]> st.1, st.2).
Proof.
  intros Hr Hc Hl k'. simpl. destruct (decide (k = k')) as [->|Hne].
  - rewrite lookup_insert_eq. simpl. rewrite Hc, Hl. apply Hr.
  - rewrite lookup_insert_ne by done. apply Hr.
Qed.

Lemma consider_in_bounds cooldown task_start c candidates st ib :
  in_bounds cooldown task_start st → in_bounds cooldown task_start (consider cooldown task_start c candidates st ib).
Proof.
  intros (Hr & Hs & He & Hb). destruct st as [signalled sent], ib as [idx [bridge hl]]. unfold consider.
  destruct (Z.ltb_spec (h_circuit_fails hl) (failover_min_circuit_fails (thresholds c))) as [|Hmin]; [done|].
  destruct (evidence_is_fresh (h_cobs hl) task_start) eqn:Hfresh; cbn [negb]; [|done].
  destruct (healthiest _) as [best|]; [|done].
  destruct (should_signal_failover _ _ _ _) eqn:Hmargin; cbn [negb]; [|done].
  set (k := bridge_to_string bridge). set (rec := default record_default (signalled !! k)).
  assert (Hkeep : ∀ r, count r = count rec → last r = last rec → in_bounds cooldown task_start (<[k := r]> signalled, sent)).
  { intros r Hc Hl. split; [|done]. by apply (recorded_insert (signalled, sent)). }
  destruct (match last rec with Some _ => _ | None => _ end) eqn:Hcool; [by apply Hkeep|].
  destruct (signal_budget_available (count rec)) eqn:Hbud; cbn [negb]; [|by apply Hkeep].
  destruct (accepts c idx); [|by apply Hkeep].
  destruct (Hr k) as [Hc Hl]. simpl in Hc, Hl. fold rec in Hc, Hl. apply Z.ltb_lt in Hbud.
  assert (Hown : str_eqb k k = true) by (by apply bool_decide_eq_true).
  split; [|split; [|split]].
  - intros k'. simpl. unfold sent_for, about. simpl. destruct (decide (k = k')) as [<-|Hne].
    + rewrite lookup_insert_eq, Hown. simpl. split; [|done]. unfold sent_for, about in Hc. rewrite Hc. lia.
    + rewrite lookup_insert_ne by done. assert (str_eqb k k' = false) as ->.
      { by apply bool_decide_eq_false. }
      apply Hr.
  - simpl. split; [|done]. intros p Hp. rewrite Hp in Hl. simpl in Hl. rewrite Hl in Hcool.
    by apply Z.ltb_ge in Hcool.
  - simpl. constructor; [|done]. split_and!; [done|done|]. unfold should_signal_failover in Hmargin.
    destruct (_ <? _); [done|]. by apply Z.leb_le.
  - intros k'. simpl. unfold sent_for, about. simpl. destruct (str_eqb k k') eqn:Hk; [|apply Hb].
    apply bool_decide_eq_true in Hk as <-. unfold sent_for, about in Hc. cbn [length]. unfold MAX_SIGNALS_PER_BRIDGE in *. lia.
Qed.

Lemma foldl_in_bounds {A} cooldown task_start (f : signals → A → signals) (l : list A) st :
  (∀ st x, in_bounds cooldown task_start st → in_bounds cooldown task_start (f st x)) →
  in_bounds cooldown task_start st → in_bounds cooldown task_start (foldl f st l).
Proof. intros Hf. revert st. induction l as [|x l IH]; intros st Hst; [done|]. simpl. auto. Qed.

(** over the whole life of the process, and whatever the configuration
    reloads and arti's answers, no bridge is signalled more than three times,
    never again before the cooldown has passed since its last signal, and only
    on circuit failures seen since the task started that reach the threshold
    and exceed those of the best alternative by the margin. *)
Theorem failover_signals_are_bounded cooldown task_start ticks :
  spaced cooldown (failover_run cooldown task_start ticks).2 ∧
  Forall (earned task_start) (failover_run cooldown task_start ticks).2 ∧
  ∀ k, sent_for k (failover_run cooldown task_start ticks).2 ≤ MAX_SIGNALS_PER_BRIDGE.
Proof.
  assert (Hb : in_bounds cooldown task_start (failover_run cooldown task_start ticks)).
  { apply foldl_in_bounds; [|split; [done|split; [done|split; [constructor|intros k; done]]]].
    intros st [[[c active] configured]|] Hst; [|done]. simpl. destruct (_ <? 2)%nat; [done|].
    apply foldl_in_bounds; [|done]. intros. by apply consider_in_bounds. }
  by destruct Hb as (_ & ? & ? & ?).
Qed.
End Failover.

(** ** A run *)

Section Run.
#[local] Existing Instance sample_url.
#[local] Existing Instance sample_tls.
#[local] Existing Instance sample_time.

Definition sample_observation (attempts remote secs : Z) : observation :=
  mkObservation (TorHealth.mkTorHealth 0 None attempts None remote 0 0) secs (Some sample_store)
    (TorHealth.from_secs secs) true None true true (TorHealth.from_secs secs + 1).

(** The declined ticks that override the signature need not follow each other:
    here a tick without traffic lies between them. *)
Theorem override_spans_quiet_ticks :
  map snd (run (mkWatchdogConfig 180 300 3 2 300) 0 (watch_start TorHealth.health_default)
    [sample_observation 6 6 1090; sample_observation 3 3 1045; sample_observation 3 3 1000]).2 =
  [Attempted Healed; Quiet; Declined].
Proof. vm_compute. reflexivity. Qed.
End Run.
End Watchdog.
