(* ===== verification/StoreWriter.v ===== *)
(** * The bridge store writer

    [apps/socks5-proxy/src/bridges/bridge_store_writer.rs] with the advisory
    lock of [packages/persist-lock/src/path_lock.rs]: the actor that owns every
    publish of the health store, the tasks that send it mutations, the
    coalesced publishes with their back-off, the shutdown flush, and the
    command-line processes that change the same file under the same lock.

    The writer only loads, mutates and publishes a store, so a store is
    represented by the mutations it has absorbed, oldest first, each named by
    the process it came from.  Every process is a small state machine; the
    environment decides the schedule, the clock and every failure. *)

From S2P Require Import Prelude Interleave TempFile.
From stdpp Require Import gmap.
Open Scope Z_scope.

Module StoreWriter.

(** ** Retry bookkeeping *)

(** Durations and instants in milliseconds. *)
Definition INITIAL_BACKOFF : Z := 1000.
Definition MAX_BACKOFF : Z := 30000.

Record RetryState : Type := mkRetry {
  dirty : bool;
  failed_attempts : Z;
  retry_at : option Z;
  backoff : Z;
}.

Definition retry_new (initial_backoff : Z) : RetryState := mkRetry false 0 None initial_backoff.

Definition record_success (_ : RetryState) : RetryState := mkRetry false 0 None INITIAL_BACKOFF.

Definition record_failure (now : Z) (r : RetryState) : RetryState :=
  mkRetry true (failed_attempts r + 1) (Some (now + backoff r)) (Z.min (backoff r * 2) MAX_BACKOFF).

Definition set_dirty (r : RetryState) : RetryState :=
  mkRetry true (failed_attempts r) (retry_at r) (backoff r).

(** ** The shared state *)

Definition contents : Type := list nat.

Inductive Op : Type :=
| Mutate (id : nat)
| Close (id : nat).

Definition CHANNEL : nat := 64.

(** [lock] is the holder of the sibling lock file, [outcome] what the actor's
    task returned, [handle] whether its join handle is still to be taken. *)
Record world : Type := mkWorld {
  file : contents;
  lock : option nat;
  queue : list Op;
  acks : list (nat * bool);
  replies : list (nat * bool);
  outcome : option bool;
  handle : bool;
}.

(** The receiver is gone once the task has an outcome. *)
Definition closed (w : world) : bool := match outcome w with Some _ => true | None => false end.

(** ** The actor *)

(** A publish on the blocking pool: running on its snapshot, or done and not
    yet received. *)
Inductive job : Type :=
| Running (snapshot : contents)
| Reported (ok : bool).

(** Where the loop stands: in [select!], in the parts of a mutation, or in the
    shutdown. *)
Inductive phase : Type :=
| Select
| LoadLock (id : nat)
| LoadFile (id : nat)
| Mutating (id : nat)
| Closing
| Exited (ok : bool).

(** The actor holds the lock exactly while it has a snapshot, so its [lock]
    variable is not a field of its own. *)
Record actor : Type := mkActor {
  at_ : phase;
  store : option contents;
  publishing : option job;
  retry : RetryState;
  mutations_since_publish : nat;
  close_replies : list nat;
}.

Definition with_phase (p : phase) (a : actor) : actor :=
  mkActor p (store a) (publishing a) (retry a) (mutations_since_publish a) (close_replies a).
Definition with_job (j : option job) (a : actor) : actor :=
  mkActor (at_ a) (store a) j (retry a) (mutations_since_publish a) (close_replies a).

Definition try_start_publish (now : Z) (a : actor) : actor :=
  match publishing a, dirty (retry a), store a with
  | None, true, Some snapshot =>
      if match retry_at (retry a) with Some t => now <? t | None => false end then a
      else mkActor (at_ a) (store a) (Some (Running snapshot)) (retry a) 0 (close_replies a)
  | _, _, _ => a
  end.

(** [absorb_publish_result]; the second result says whether the lock is
    released. *)
Definition absorb_publish_result (now : Z) (ok : bool) (a : actor) : actor * bool :=
  if ok then
    if (mutations_since_publish a =? 0)%nat then
      (mkActor (at_ a) None (publishing a) (record_success (retry a)) 0 (close_replies a), true)
    else
      (mkActor (at_ a) (store a) (publishing a) (set_dirty (record_success (retry a))) 0 (close_replies a), false)
  else
    (mkActor (at_ a) (store a) (publishing a) (record_failure now (retry a)) 0 (close_replies a), false).

(** What the environment decides at a step. *)
Inductive event : Type :=
| Receive
| SendersGone
| Lock (ok : bool)
| Load (ok : bool)
| Apply (panics : bool) (now : Z)
| Job (io : TempFile.save_io)
| Report (now : Z)
| Timer (now : Z)
| Flush (io : TempFile.save_io)
| Go.

Definition set_file (f : contents) (w : world) : world :=
  mkWorld f (lock w) (queue w) (acks w) (replies w) (outcome w) (handle w).
Definition set_lock (l : option nat) (w : world) : world :=
  mkWorld (file w) l (queue w) (acks w) (replies w) (outcome w) (handle w).
Definition set_queue (q : list Op) (w : world) : world :=
  mkWorld (file w) (lock w) q (acks w) (replies w) (outcome w) (handle w).
Definition send_ack (id : nat) (ok : bool) (w : world) : world :=
  mkWorld (file w) (lock w) (queue w) ((id, ok) :: acks w) (replies w) (outcome w) (handle w).

Definition is_ok {A B} (r : result A B) : bool := match r with Ok _ => true | Err _ => false end.

(** The completion of a publish, in the loop and in the shutdown alike. *)
Definition report (me : nat) (now : Z) (ok : bool) (w : world) (a : actor) : world * actor :=
  let '(a1, release) := absorb_publish_result now ok (with_job None a) in
  (if release then set_lock None w else w, try_start_publish now a1).

(** The task has ended, and its variables with it. *)
Definition actor_gone (ok : bool) : actor :=
  mkActor (Exited ok) None None (retry_new INITIAL_BACKOFF) 0 [].

(** The end of the shutdown: the final flush if the snapshot is dirty, the
    replies, and the lock released as the task ends. *)
Definition flush (io : TempFile.save_io) (w : world) (a : actor) : world * actor :=
  let '(ok, f) :=
    match dirty (retry a), store a with
    | true, Some snapshot =>
        let '(r, f) := TempFile.save_file io snapshot (file w) in (is_ok r, f)
    | _, _ => (true, file w)
    end in
  (mkWorld f (match store a with Some _ => None | None => lock w end) [] (acks w)
     (map (fun id => (id, ok)) (close_replies a) ++ replies w) (Some ok) (handle w),
   actor_gone ok).

Definition actor_step (me : nat) (e : event) (w : world) (a : actor) : option (world * actor) :=
  match e, at_ a with
  | Receive, Select =>
      match queue w with
      | [] => None
      | Mutate id :: q =>
          Some (set_queue q w, with_phase (match store a with None => LoadLock id | Some _ => Mutating id end) a)
      | Close id :: q =>
          Some (set_queue q w,
                mkActor Closing (store a) (publishing a) (retry a) (mutations_since_publish a)
                  (close_replies a ++ [id]))
      end
  | SendersGone, Select => match queue w with [] => Some (w, with_phase Closing a) | _ => None end
  | Lock true, LoadLock id =>
      match lock w with
      | None => Some (set_lock (Some me) w, with_phase (LoadFile id) a)
      | Some _ => None
      end
  | Lock false, LoadLock id => Some (send_ack id false w, with_phase Select a)
  | Load true, LoadFile id =>
      Some (w, mkActor (Mutating id) (Some (file w)) (publishing a) (retry a)
                 (mutations_since_publish a) (close_replies a))
  | Load false, LoadFile id => Some (send_ack id false (set_lock None w), with_phase Select a)
  | Apply panics now, Mutating id =>
      if panics then Some (send_ack id false w, with_phase Select a)
      else match store a with
      | None => None
      | Some s =>
          Some (send_ack id true w,
                try_start_publish now
                  (mkActor Select (Some (s ++ [id])) (publishing a) (set_dirty (retry a))
                     (S (mutations_since_publish a)) (close_replies a)))
      end
  | Job io, _ =>
      match publishing a with
      | Some (Running snapshot) =>
          let '(r, f) := TempFile.save_file io snapshot (file w) in
          Some (set_file f w, with_job (Some (Reported (is_ok r))) a)
      | _ => None
      end
  | Report now, (Select | Closing) =>
      match publishing a with
      | Some (Reported ok) => Some (report me now ok w a)
      | _ => None
      end
  | Timer now, Select =>
      match publishing a, dirty (retry a), retry_at (retry a) with
      | None, true, Some t => if t <=? now then Some (w, try_start_publish now a) else None
      | _, _, _ => None
      end
  | Flush io, Closing =>
      match publishing a with
      | None => Some (flush io w a)
      | Some _ => None
      end
  | _, _ => None
  end.

(** ** The other processes *)

(** [StoreWriter::apply] and [close] of this process, and the locked
    transaction of a process without a writer. *)
Inductive request : Type := ToMutate | ToClose.

Definition op_of (me : nat) (r : request) : Op :=
  match r with ToMutate => Mutate me | ToClose => Close me end.

Definition answers (r : request) (w : world) : list (nat * bool) :=
  match r with ToMutate => acks w | ToClose => replies w end.

Inductive process : Type :=
| Actor (a : actor)
| Sending (r : request)
| Awaiting (r : request)
| Joining (ok : bool)
| Joined (ok : bool)
| Answered (r : request) (ok : bool)
| CliLock
| CliLoad
| CliSave (s : contents)
| CliUnlock (ok : bool)
| CliDone (ok : bool).

(** A mutation is over with its ack; a close goes on to join the task. *)
Definition answered (r : request) (ok : bool) : process :=
  match r with ToMutate => Answered r ok | ToClose => Joining ok end.

Definition take_handle (w : world) : world :=
  mkWorld (file w) (lock w) (queue w) (acks w) (replies w) (outcome w) false.

(** [Load false] also stands for a mutation that panics: either way the
    transaction ends with the lock released and the file as it was. *)
Definition client_step (me : nat) (e : event) (w : world) (p : process) : option (world * process) :=
  match p, e with
  | Sending r, Go =>
      if closed w then Some (w, match r with ToMutate => Answered r false | ToClose => Joining true end)
      else if (length (queue w) <? CHANNEL)%nat then Some (set_queue (queue w ++ [op_of me r]) w, Awaiting r)
      else None
  | Awaiting r, Go =>
      if bool_decide ((me, true) ∈ answers r w) then Some (w, answered r true)
      else if bool_decide ((me, false) ∈ answers r w) || closed w then Some (w, answered r false)
      else None
  | Joining ok, Go =>
      if handle w then Some (take_handle w, Joined ok) else Some (w, Answered ToClose ok)
  | Joined ok, Go =>
      match outcome w with
      | Some joined => Some (w, Answered ToClose (if ok then joined else ok))
      | None => None
      end
  | CliLock, Lock true =>
      match lock w with None => Some (set_lock (Some me) w, CliLoad) | Some _ => None end
  | CliLock, Lock false => Some (w, CliDone false)
  | CliLoad, Load true => Some (w, CliSave (file w ++ [me]))
  | CliLoad, Load false => Some (set_lock None w, CliDone false)
  | CliSave s, Job io =>
      let '(r, f) := TempFile.save_file io s (file w) in Some (set_file f w, CliUnlock (is_ok r))
  | CliUnlock ok, Go => Some (set_lock None w, CliDone ok)
  | _, _ => None
  end.

Definition step (me : nat) (e : event) (w : world) (p : process) : option (world * process) :=
  match p with
  | Actor a =>
      match actor_step me e w a with
      | Some (w', a') => Some (w', Actor a')
      | None => None
      end
  | _ => client_step me e w p
  end.

(** Where a process may begin; the actor is the one of the initial state. *)
Definition begins (p : process) : Prop :=
  p = Sending ToMutate ∨ p = Sending ToClose ∨ p = CliLock.

Definition actor_start : actor := mkActor Select None None (retry_new INITIAL_BACKOFF) 0 [].

Definition boot (f : contents) : config world process :=
  mkConfig (mkWorld f None [] [] [] None true) {[ 0%nat := Actor actor_start ]}.

(** ** The invariant *)

(** What the actor retains is on disk, being published or marked dirty; while
    it retains anything it holds the lock and the file is a prefix of it. *)
Definition retained_ok (me : nat) (w : world) (a : actor) : Prop :=
  match store a with
  | None => publishing a = None ∧ dirty (retry a) = false
  | Some s =>
      lock w = Some me ∧
      match publishing a with
      | None => file w `prefix_of` s ∧ (dirty (retry a) = false → file w = s)
      | Some (Running snapshot) =>
          file w `prefix_of` snapshot ∧ dirty (retry a) = true ∧
          ∃ tail, s = snapshot ++ tail ∧ length tail = mutations_since_publish a
      | Some (Reported true) =>
          dirty (retry a) = true ∧ ∃ tail, s = file w ++ tail ∧ length tail = mutations_since_publish a
      | Some (Reported false) => dirty (retry a) = true ∧ file w `prefix_of` s
      end
  end.

Definition phase_ok (me : nat) (w : world) (a : actor) : Prop :=
  match at_ a with
  | LoadLock _ => store a = None
  | LoadFile _ => store a = None ∧ lock w = Some me
  | Mutating _ => store a ≠ None
  | Exited _ => store a = None
  | _ => True
  end.

(** Where an acknowledged mutation is. *)
Definition acked_ok (w : world) (a : actor) : Prop :=
  ∀ id, (id, true) ∈ acks w →
    id ∈ file w ∨ (∃ s, store a = Some s ∧ id ∈ s) ∨ at_ a = Exited false.

Definition actor_inv (me : nat) (w : world) (a : actor) : Prop :=
  retained_ok me w a ∧ phase_ok me w a ∧ acked_ok w a.

(** Unpublished work that no publish carries has its retry armed. *)
Definition armed (a : actor) : Prop :=
  publishing a = None → dirty (retry a) = true → is_Some (retry_at (retry a)).

Definition exit_of (a : actor) : option bool :=
  match at_ a with Exited ok => Some ok | _ => None end.

(** The replies carry the outcome the task returns. *)
Definition replies_ok (w : world) (a : actor) : Prop :=
  outcome w = exit_of a ∧ ∀ id ok, (id, ok) ∈ replies w → outcome w = Some ok.

(** What each process knows. *)
Definition knows (i : nat) (p : process) (w : world) : Prop :=
  match p with
  | Actor a => i = 0%nat ∧ actor_inv i w a ∧ replies_ok w a ∧ armed a
  | CliLoad => lock w = Some i
  | CliSave s => lock w = Some i ∧ s = file w ++ [i]
  | CliUnlock ok => lock w = Some i ∧ (ok = true → i ∈ file w)
  | CliDone ok => ok = true → i ∈ file w
  | Answered ToMutate ok => ok = true → (i, true) ∈ acks w
  | _ => True
  end.

(** What a step of one process promises the others. *)
Definition guarantee (me : nat) (w w' : world) : Prop :=
  file w `prefix_of` file w' ∧ acks w `suffix_of` acks w' ∧
  ∀ k, k ≠ me → lock w = Some k → lock w' = Some k ∧ file w' = file w.

Lemma guarantee_same me w w' :
  file w' = file w → acks w `suffix_of` acks w' →
  (lock w' = lock w ∨ lock w = None ∨ lock w = Some me) → guarantee me w w'.
Proof.
  intros Hf Ha Hl. split; [by rewrite Hf|split; [done|]]. intros k Hk Hlk. split; [|done].
  destruct Hl as [Hl|[Hl|Hl]]; congruence.
Qed.

Lemma acked_mono w w' a a' :
  acked_ok w a → acks w' = acks w → file w `prefix_of` file w' →
  (∀ s, store a = Some s → (∃ s', store a' = Some s' ∧ ∀ x, x ∈ s → x ∈ s') ∨ (∀ x, x ∈ s → x ∈ file w')) →
  at_ a ≠ Exited false → acked_ok w' a'.
Proof.
  intros Ha Hacks [k Hf] Hs Hex id Hid. rewrite Hacks in Hid.
  destruct (Ha id Hid) as [Hin|[(s & Hst & Hin)|He]]; [|destruct (Hs s Hst) as [(s' & Hs' & Hsub)|Hsub]|done].
  - left. rewrite Hf. apply elem_of_app. by left.
  - right. left. eauto.
  - left. auto.
Qed.

(** A save extends the file, and a reported success means it is the new one. *)
Lemma save_file_prefix io (snapshot f : contents) r f' :
  TempFile.save_file io snapshot f = (r, f') → f `prefix_of` snapshot →
  f `prefix_of` f' ∧ f' `prefix_of` snapshot ∧ (is_ok r = true → f' = snapshot).
Proof.
  intros Hs Hp. destruct (TempFile.save_file_cases io snapshot f) as [H|[H|[H _]]]; rewrite H in Hs;
    injection Hs as <- <-; simpl; done.
Qed.

Lemma try_start_publish_store now a : store (try_start_publish now a) = store a ∧
  at_ (try_start_publish now a) = at_ a.
Proof. unfold try_start_publish. repeat case_match; done. Qed.

Lemma try_start_retained me w now a : retained_ok me w a → retained_ok me w (try_start_publish now a).
Proof.
  intros Hr. unfold try_start_publish. destruct (publishing a) eqn:Hp; [done|].
  destruct (dirty (retry a)) eqn:Hd; [|done]. destruct (store a) as [s|] eqn:Hs; [|done].
  destruct (match retry_at (retry a) with Some _ => _ | None => _ end); [done|].
  unfold retained_ok in *. rewrite Hs, Hp in Hr. simpl. destruct Hr as (Hl & Hpre & _).
  split_and!; [done|done|done|]. exists []. by rewrite app_nil_r.
Qed.

Lemma try_start_acked w now a : acked_ok w a → acked_ok w (try_start_publish now a).
Proof.
  intros Ha id Hid. destruct (try_start_publish_store now a) as [-> ->]. by apply Ha.
Qed.

Lemma report_own me now ok w a w' a' :
  actor_inv me w a → publishing a = Some (Reported ok) → (at_ a = Select ∨ at_ a = Closing) →
  report me now ok w a = (w', a') → actor_inv me w' a' ∧ guarantee me w w'.
Proof.
  intros (Hr & _ & Hk) Hp Hat. unfold report, absorb_publish_result, retained_ok in *.
  destruct (store a) as [s|] eqn:Hs; [|by destruct Hr as [? _]; congruence].
  destruct Hr as [Hl Hr]. rewrite Hp in Hr.
  assert (Hph : ∀ w1 a1, at_ a1 = at_ a → phase_ok me w1 (try_start_publish now a1)).
  { intros w1 a1 Ha1. unfold phase_ok. destruct (try_start_publish_store now a1) as [_ ->]. rewrite Ha1.
    by destruct Hat as [-> | ->]. }
  assert (Hnx : at_ a ≠ Exited false) by (destruct Hat as [-> | ->]; done).
  simpl. destruct ok.
  - destruct Hr as (Hd & tail & -> & Hlen). destruct (Nat.eqb_spec (mutations_since_publish a) 0) as [Hz|Hz]; simpl.
    + intros [= <- <-]. rewrite Hz in Hlen. destruct tail; [|done]. rewrite app_nil_r in *. split.
      * split_and!; [apply try_start_retained; done|by apply Hph|].
        apply try_start_acked. apply (acked_mono w _ a); [done|done|done| |done].
        intros s Hs'. right. intros x. rewrite Hs in Hs'. by injection Hs' as <-.
      * apply guarantee_same; [done|done|by right; right].
    + intros [= <- <-]. split; [|by apply guarantee_same; [|done|left]].
      split_and!; [|by apply Hph|].
      * apply try_start_retained. unfold retained_ok. simpl. rewrite Hs. split; [done|]. split; [by eexists|done].
      * apply try_start_acked. apply (acked_mono w _ a); [done|done|done| |done].
        intros s Hs'. left. simpl. rewrite Hs in *. eauto.
  - destruct Hr as [Hd Hpre]. intros [= <- <-]. split; [|by apply guarantee_same; [|done|left]].
    split_and!; [|by apply Hph|].
    + apply try_start_retained. unfold retained_ok. simpl. rewrite Hs. done.
    + apply try_start_acked. apply (acked_mono w _ a); [done|done|done| |done].
      intros s' Hs'. left. simpl. rewrite Hs in *. eauto.
Qed.

Lemma flush_own me io w a w' a' :
  actor_inv me w a → publishing a = None → at_ a = Closing → flush io w a = (w', a') →
  actor_inv me w' a' ∧ guarantee me w w'.
Proof.
  intros (Hr & _ & Hk) Hp Hat. unfold flush, retained_ok in *.
  destruct (store a) as [s|] eqn:Hs.
  - destruct Hr as [Hl Hr]. rewrite Hp in Hr. destruct Hr as [Hpre Hclean].
    destruct (dirty (retry a)) eqn:Hd.
    + destruct (TempFile.save_file io s (file w)) as [r f] eqn:Hsave.
      destruct (save_file_prefix _ _ _ _ _ Hsave Hpre) as (Hgrow & Hsub & Hok). intros [= <- <-]. split.
      * split_and!; [done|done|]. intros id Hid. simpl in *. destruct (Hk id Hid) as [Hin|[(s' & Hs' & Hin)|He]].
        -- left. destruct Hgrow as [k ->]. apply elem_of_app. by left.
        -- rewrite Hs in Hs'. injection Hs' as <-. destruct (is_ok r) eqn:Hr; [|by auto].
           left. by rewrite Hok.
        -- congruence.
      * split_and!; [done|done|]. intros k Hk' Hlk. congruence.
    + intros [= <- <-]. specialize (Hclean eq_refl). subst s. split.
      * split_and!; [done|done|]. intros id Hid. simpl in *. left.
        destruct (Hk id Hid) as [Hin|[(s' & Hs' & Hin)|He]]; [done| |congruence].
        rewrite Hs in Hs'. by injection Hs' as <-.
      * apply guarantee_same; simpl; [done|done|]. by right; right.
  - destruct Hr as [_ Hd]. rewrite Hd. intros [= <- <-]. split.
    + split_and!; [done|done|]. intros id Hid. simpl in *.
      destruct (Hk id Hid) as [Hin|[(s' & Hs' & Hin)|He]]; [by left|congruence|congruence].
    + apply guarantee_same; simpl; [done|done|by left].
Qed.

(** The usual case: the file and the snapshot stay. *)
Lemma acked_keep w w' a a' :
  acked_ok w a → (∀ i, (i, true) ∈ acks w' → (i, true) ∈ acks w) → file w' = file w →
  store a' = store a → at_ a ≠ Exited false → acked_ok w' a'.
Proof.
  intros Hk Hacks Hf Hs Hx i Hi. rewrite Hf, Hs.
  destruct (Hk i (Hacks i Hi)) as [?|[?|?]]; [by left|by right; left|done].
Qed.

Lemma failed_ack i id (l : list (nat * bool)) : (i, true) ∈ (id, false) :: l → (i, true) ∈ l.
Proof. by intros [?|?]%elem_of_cons. Qed.

Lemma guarantee_ack me w w' id ok :
  file w' = file w → acks w' = (id, ok) :: acks w → (lock w' = lock w ∨ lock w = None ∨ lock w = Some me) →
  guarantee me w w'.
Proof. intros Hf Ha Hl. apply guarantee_same; [done| |done]. rewrite Ha. by apply suffix_cons_r. Qed.

Section ActorOwn.
Context (me : nat) (w : world) (a : actor) (w' : world) (a' : actor).
Context (Hr : retained_ok me w a) (Hph : phase_ok me w a) (Hk : acked_ok w a).

Lemma receive_own e :
  e = Receive ∨ e = SendersGone → actor_step me e w a = Some (w', a') → actor_inv me w' a' ∧ guarantee me w w'.
Proof using Hr Hk.
  intros [-> | ->]; simpl; destruct (at_ a) eqn:Hat; try done.
  - assert (Hx : at_ a ≠ Exited false) by congruence.
    destruct (queue w) as [|[id|id] q]; [done|..]; intros [= <- <-];
      (split; [|by apply guarantee_same; [|done|left]]).
    + split_and!; [done|unfold phase_ok; simpl; by destruct (store a)|by apply (acked_keep w _ a)].
    + split_and!; [done|done|by apply (acked_keep w _ a)].
  - assert (Hx : at_ a ≠ Exited false) by congruence. destruct (queue w); [|done]. intros [= <- <-].
    split; [|by apply guarantee_same; [|done|left]].
    split_and!; [done|done|by apply (acked_keep w _ a)].
Qed.

Lemma lock_own ok :
  actor_step me (Lock ok) w a = Some (w', a') → actor_inv me w' a' ∧ guarantee me w w'.
Proof using Hr Hph Hk.
  simpl. unfold phase_ok in Hph. destruct ok, (at_ a) eqn:Hat; try done;
    assert (Hx : at_ a ≠ Exited false) by congruence.
  - destruct (lock w) as [h|] eqn:Hl; [done|]. intros [= <- <-]. unfold retained_ok in Hr. rewrite Hph in Hr.
    split; [|apply guarantee_same; [done|done|by right; left]].
    split_and!; [unfold retained_ok; simpl; by rewrite Hph|done|by apply (acked_keep w _ a)].
  - intros [= <- <-]. split; [|by apply (guarantee_ack _ _ _ id false); [| |left]].
    split_and!; [done|done|apply (acked_keep w _ a); try done; intros i; apply failed_ack].
Qed.

Lemma load_own ok :
  actor_step me (Load ok) w a = Some (w', a') → actor_inv me w' a' ∧ guarantee me w w'.
Proof using Hr Hph Hk.
  simpl. unfold phase_ok in Hph. destruct ok, (at_ a) eqn:Hat; try done; destruct Hph as [Hs Hl];
    unfold retained_ok in Hr; rewrite Hs in Hr; destruct Hr as [Hp Hd];
    assert (Hx : at_ a ≠ Exited false) by congruence.
  - intros [= <- <-]. split; [|by apply guarantee_same; [|done|left]].
    split_and!; [unfold retained_ok; simpl; by rewrite Hp|done|].
    intros i Hi. destruct (Hk i Hi) as [?|[(s & ? & ?)|?]]; [by left|congruence|done].
  - intros [= <- <-]. split; [|by apply (guarantee_ack _ _ _ id false); [| |right; right]].
    split_and!; [unfold retained_ok; simpl; by rewrite Hs|done|].
    apply (acked_keep w _ a); try done. intros i. apply failed_ack.
Qed.

Lemma apply_own panics now :
  actor_step me (Apply panics now) w a = Some (w', a') → actor_inv me w' a' ∧ guarantee me w w'.
Proof using Hr Hph Hk.
  simpl. destruct (at_ a) eqn:Hat; try done. assert (Hx : at_ a ≠ Exited false) by congruence.
  destruct panics.
  { intros [= <- <-]. split; [|by apply (guarantee_ack _ _ _ id false); [| |left]].
    split_and!; [done|done|apply (acked_keep w _ a); try done; intros i; apply failed_ack]. }
  destruct (store a) as [s|] eqn:Hs; [|done]. intros [= <- <-].
  split; [|by apply (guarantee_ack _ _ _ id true); [| |left]]. split_and!.
  - apply try_start_retained. unfold retained_ok in *. simpl. rewrite Hs in Hr. destruct Hr as [Hl Hr'].
    split; [done|]. destruct (publishing a) as [[snap|[]]|].
    + destruct Hr' as (Hpre & Hd & tail & -> & Hlen). split_and!; [done|done|]. exists (tail ++ [id]).
      rewrite app_assoc, length_app. simpl. split; [done|lia].
    + destruct Hr' as (Hd & tail & -> & Hlen). split; [done|]. exists (tail ++ [id]).
      rewrite app_assoc, length_app. simpl. split; [done|lia].
    + destruct Hr' as [Hd Hpre]. split; [done|]. by apply prefix_app_r.
    + destruct Hr' as [Hpre _]. split; [by apply prefix_app_r|done].
  - unfold phase_ok. by match goal with |- context [try_start_publish ?n ?b] =>
      destruct (try_start_publish_store n b) as [_ ->] end.
  - apply try_start_acked. intros i Hi. simpl in *. apply elem_of_cons in Hi as [[= ->]|Hi].
    + right. left. exists (s ++ [id]). split; [done|]. apply elem_of_app. right. by left.
    + destruct (Hk i Hi) as [?|[(s' & Hs' & Hin)|?]]; [by left| |done].
      right. left. exists (s ++ [id]). split; [done|]. apply elem_of_app. left. by simplify_eq.
Qed.

Lemma job_own io :
  actor_step me (Job io) w a = Some (w', a') → actor_inv me w' a' ∧ guarantee me w w'.
Proof using Hr Hph Hk.
  simpl. destruct (publishing a) as [[snap|]|] eqn:Hp; [|done..].
  destruct (TempFile.save_file io snap (file w)) as [r f] eqn:Hsave. intros [= <- <-].
  unfold retained_ok in Hr. destruct (store a) as [s|] eqn:Hs; [|by destruct Hr as [? _]; congruence].
  rewrite Hp in Hr. destruct Hr as (Hl & Hpre & Hd & tail & -> & Hlen).
  destruct (save_file_prefix _ _ _ _ _ Hsave Hpre) as (Hgrow & Hsub & Hok). split.
  - split_and!.
    + unfold retained_ok. simpl. rewrite Hs. split; [done|]. destruct (is_ok r).
      * split; [done|]. rewrite (Hok eq_refl). by eexists.
      * split; [done|]. by apply prefix_app_r.
    + unfold phase_ok in *. simpl. destruct (at_ a); try done; simpl; congruence.
    + intros i Hi. simpl in *. destruct (Hk i Hi) as [Hin|[?|?]]; [|by right; left|by right; right].
      left. destruct Hgrow as [k ->]. apply elem_of_app. by left.
  - split_and!; [done|done|]. intros k Hne Hlk. simpl. congruence.
Qed.

Lemma timer_own now :
  actor_step me (Timer now) w a = Some (w', a') → actor_inv me w' a' ∧ guarantee me w w'.
Proof using Hr Hph Hk.
  simpl. destruct (at_ a) eqn:Hat; try done. destruct (publishing a) eqn:Hp; [done|].
  destruct (dirty (retry a)); [|done]. destruct (retry_at (retry a)) as [t|]; [|done].
  destruct (t <=? now); [|done]. intros [= <- <-]. split; [|by apply guarantee_same; [|done|left]].
  split_and!; [by apply try_start_retained| |by apply try_start_acked].
  unfold phase_ok in *. destruct (try_start_publish_store now a) as [-> ->]. by rewrite Hat.
Qed.
End ActorOwn.

Lemma actor_own me e w a w' a' :
  actor_inv me w a → actor_step me e w a = Some (w', a') → actor_inv me w' a' ∧ guarantee me w w'.
Proof.
  intros Hinv. pose proof Hinv as (Hr & Hph & Hk).
  destruct e; eauto using receive_own, lock_own, load_own, apply_own, job_own, timer_own.
  - simpl. destruct (at_ a) eqn:Hat; try done; destruct (publishing a) as [[snap|ok]|] eqn:Hp; try done;
      intros [= Hrep]; eapply report_own; eauto.
  - simpl. destruct (at_ a) eqn:Hat; try done. destruct (publishing a) eqn:Hp; [done|]. intros [= Hfl].
    eapply flush_own; eauto.
  - simpl. by destruct (at_ a).
Qed.

Lemma flush_gone io w a w' a' : flush io w a = (w', a') → ∃ ok, a' = actor_gone ok.
Proof. unfold flush. case_match. intros [= _ <-]. eauto. Qed.

Lemma flush_replies io w a w' a' :
  outcome w = None → (∀ id ok, (id, ok) ∈ replies w → outcome w = Some ok) → flush io w a = (w', a') →
  replies_ok w' a'.
Proof.
  intros Ho Hr. unfold flush. destruct (match dirty (retry a) with true => _ | false => _ end) as [ok f].
  intros [= <- <-]. split; [done|]. intros id ok' Hin. simpl in *. apply elem_of_app in Hin as [Hin|Hin].
  - apply list_elem_of_fmap in Hin as (x & [= _ ->] & _). done.
  - specialize (Hr _ _ Hin). congruence.
Qed.

Lemma actor_replies me e w a w' a' :
  replies_ok w a → actor_step me e w a = Some (w', a') → replies_ok w' a'.
Proof.
  intros [Ho Hr].
  assert (Hkeep : ∀ w1 a1, outcome w1 = outcome w → replies w1 = replies w → exit_of a1 = exit_of a → replies_ok w1 a1).
  { intros w1 a1 H1 H2 H3. unfold replies_ok. by rewrite H1, H2, H3. }
  assert (Htry : ∀ now b, exit_of (try_start_publish now b) = exit_of b).
  { intros now b. unfold exit_of. by destruct (try_start_publish_store now b) as [_ ->]. }
  unfold actor_step, report, absorb_publish_result. unfold exit_of in Ho, Hkeep at 2.
  destruct e, (at_ a) eqn:Hat; intros Hs; repeat (case_match; try done); simplify_eq/=;
    try (apply Hkeep; rewrite ?Htry; unfold exit_of; simpl; rewrite ?Hat; done).
  by apply (flush_replies io w a).
Qed.

(** ** The other processes keep out of the way *)

Lemma client_own i e w p w' p' :
  (∀ a, p ≠ Actor a) → knows i p w → client_step i e w p = Some (w', p') →
  knows i p' w' ∧ guarantee i w w' ∧ (acks w' = acks w ∧ outcome w' = outcome w ∧ replies w' = replies w).
Proof.
  intros Hna Hk.
  destruct p as [a|r|r|ok|ok|r ok| | |s|ok|ok]; [by destruct (Hna a)|..]; destruct e; simpl in Hk |- *; try done.
  - destruct (closed w); [|destruct (_ <? _)%nat; [|done]]; intros [= <- <-];
      (split_and!; [by destruct r|by apply guarantee_same; [|done|left]|done..]).
  - case_bool_decide as Ha; [|case_match; [|done]]; intros [= <- <-];
      (split_and!; [by destruct r; simpl|by apply guarantee_same; [|done|left]|done..]).
  - destruct (handle w); intros [= <- <-]; (split_and!; [done|by apply guarantee_same; [|done|left]|done..]).
  - destruct (outcome w) eqn:Ho; [|done]. intros [= <- <-].
    split_and!; [done|by apply guarantee_same; [|done|left]|done..].
  - destruct ok; [destruct (lock w) eqn:Hl; [done|]|]; intros [= <- <-].
    + split_and!; [done|apply guarantee_same; [done|done|by right; left]|done..].
    + split_and!; [done|by apply guarantee_same; [|done|left]|done..].
  - destruct ok; intros [= <- <-].
    + split_and!; [done|by apply guarantee_same; [|done|left]|done..].
    + split_and!; [done|apply guarantee_same; [done|done|by right; right]|done..].
  - destruct Hk as [Hl Hs]. destruct (TempFile.save_file io s (file w)) as [r f] eqn:Hsave.
    intros [= <- <-]. rewrite Hs in Hsave. destruct (save_file_prefix _ _ _ _ _ Hsave) as (Hgrow & _ & Hok); [by apply prefix_app_r|].
    split_and!; [split; [done|]|split_and!; [done|done|]|done..].
    + intros Hr. simpl. rewrite (Hok Hr). apply elem_of_app. right. by left.
    + intros k Hne Hlk. congruence.
  - destruct Hk as [Hl Hok]. intros [= <- <-].
    split_and!; [done|apply guarantee_same; [done|done|by right; right]|done..].
Qed.

Lemma client_stays_client i e w p w' p' :
  (∀ a, p ≠ Actor a) → client_step i e w p = Some (w', p') → ∀ a, p' ≠ Actor a.
Proof.
  intros Hna Hs a ->. destruct p as [b|r|[]|ok|ok|r ok| | |s|ok|ok], e; simpl in Hs; try done;
    repeat (case_match; try done); simplify_eq.
Qed.

Lemma actor_stable me i w w' a :
  i ≠ me → actor_inv me w a → guarantee i w w' → acks w' = acks w → actor_inv me w' a.
Proof.
  intros Hne (Hr & Hph & Hk) (Hf & _ & Hl) Ha.
  assert (Hlock : lock w = Some me → lock w' = Some me ∧ file w' = file w) by (by apply Hl).
  split_and!.
  - unfold retained_ok in *. destruct (store a) as [s|]; [|done]. destruct Hr as [Hme Hr].
    destruct (Hlock Hme) as [-> ->]. done.
  - unfold phase_ok in *. destruct (at_ a); try done. destruct Hph as [? Hme]. by destruct (Hlock Hme).
  - intros id Hid. rewrite Ha in Hid. destruct (Hk id Hid) as [Hin|[?|?]]; [|by right; left|by right; right].
    left. destruct Hf as [k ->]. apply elem_of_app. by left.
Qed.

Lemma client_stable i j w w' p :
  i ≠ j → (∀ a, p ≠ Actor a) → knows j p w → guarantee i w w' → knows j p w'.
Proof.
  intros Hne Hna Hk (Hf & Ha & Hl).
  assert (Hin : ∀ x, x ∈ file w → x ∈ file w').
  { intros x Hx. destruct Hf as [k ->]. apply elem_of_app. by left. }
  destruct p as [a|r|r|ok|ok|[] ok| | |s|ok|ok]; simpl in *; try done.
  - by destruct (Hna a).
  - intros Hok. destruct Ha as [k ->]. apply elem_of_app. right. auto.
  - by apply Hl.
  - destruct Hk as [Hme ->]. by destruct (Hl j ltac:(done) Hme) as [-> ->].
  - destruct Hk as [Hme Hok]. destruct (Hl j ltac:(done) Hme) as [-> ->]. done.
  - auto.
Qed.

Lemma try_start_armed me w now b :
  retained_ok me w (try_start_publish now b) → armed (try_start_publish now b).
Proof.
  intros Hr. destruct (store b) eqn:Hsb.
  - unfold try_start_publish. rewrite Hsb. destruct (publishing b) eqn:Hp; [intros ?; congruence|].
    destruct (dirty (retry b)) eqn:Hd; [|intros ? ?; congruence].
    destruct (retry_at (retry b)) as [t|] eqn:Ht; [|done]. destruct (now <? t); [|done].
    intros _ _. rewrite Ht. eauto.
  - unfold retained_ok in Hr. rewrite (proj1 (try_start_publish_store now b)), Hsb in Hr.
    destruct Hr as [_ Hd]. intros _ Hd'. congruence.
Qed.

Lemma actor_armed me e w a w' a' :
  actor_inv me w' a' → armed a → actor_step me e w a = Some (w', a') → armed a'.
Proof.
  intros (Hr & _ & _) Ha Hs. unfold actor_step, report in Hs.
  destruct e, (at_ a); repeat (case_match; try done); simplify_eq/=;
    try (by eapply try_start_armed); try (by intros ?); try done.
  by match goal with H : flush _ _ _ = _ |- _ => destruct (flush_gone _ _ _ _ _ H) as [? ->] end.
Qed.

(** ** The system *)

Lemma initial_holds (G : world → Prop) f :
  G (mkWorld f None [] [] [] None true) → holds G knows (boot f).
Proof.
  intros HG. split; [done|]. intros i p. simpl. rewrite lookup_singleton_Some. intros [<- <-].
  split; [done|]. split; [split_and!; [done|done|]|split; [split; [done|]|done]].
  - intros j Hj. by apply elem_of_nil in Hj.
  - intros j ok Hj. by apply elem_of_nil in Hj.
Qed.

Lemma actor_or_client p : (∃ a, p = Actor a) ∨ ∀ a, p ≠ Actor a.
Proof. destruct p; eauto. Qed.

Lemma step_client i e w p : (∀ a, p ≠ Actor a) → step i e w p = client_step i e w p.
Proof. intros Hna. destruct p as [a| | | | | | | | | |]; [by destruct (Hna a)|done..]. Qed.

Lemma own_step f i e w p w' p' :
  f `prefix_of` file w → knows i p w → step i e w p = Some (w', p') →
  f `prefix_of` file w' ∧ knows i p' w'.
Proof.
  intros Hf Hk. destruct (actor_or_client p) as [[a ->]|Hna].
  - destruct Hk as (-> & Hinv & Hrep & Har). simpl.
    destruct (actor_step 0 e w a) as [[w1 a1]|] eqn:Has; [|done]. intros [= <- <-].
    destruct (actor_own _ _ _ _ _ _ Hinv Has) as [Hinv' (Hg & _)].
    split; [by trans (file w)|]. split; [done|]. split; [done|].
    split; [by eapply actor_replies|by eapply actor_armed].
  - rewrite (step_client _ _ _ _ Hna). intros Hc.
    destruct (client_own _ _ _ _ _ _ Hna Hk Hc) as (Hk' & (Hg & _) & _). split; [by trans (file w)|done].
Qed.

Lemma other_step i j e w p w' p' q :
  i ≠ j → knows i p w → knows j q w → step i e w p = Some (w', p') → knows j q w'.
Proof.
  intros Hne Hp Hq. destruct (actor_or_client p) as [[a ->]|Hna].
  - destruct Hp as (-> & Hinv & _). simpl. destruct (actor_step 0 e w a) as [[w1 a1]|] eqn:Has; [|done].
    intros [= <- <-]. destruct (actor_own _ _ _ _ _ _ Hinv Has) as [_ Hg].
    apply (client_stable 0 j w); [done| |done|done]. intros b ->. by destruct Hq as [-> _].
  - rewrite (step_client _ _ _ _ Hna). intros Hc.
    destruct (client_own _ _ _ _ _ _ Hna Hp Hc) as (_ & Hg & Ha & Ho & Hr).
    destruct (actor_or_client q) as [[b ->]|Hnb]; [|by apply (client_stable i j w)].
    destruct Hq as (-> & Hinv & Hrep & Har). split; [done|]. split; [by eapply actor_stable|].
    split; [|done]. unfold replies_ok in *. by rewrite Ho, Hr.
Qed.

Definition writer_reach : config world process → config world process → Prop := reach step begins.

Lemma writer_holds f c0 c :
  holds (fun w => f `prefix_of` file w) knows c0 → writer_reach c0 c →
  holds (fun w => f `prefix_of` file w) knows c.
Proof.
  apply reach_holds; [|by intros; eapply own_step|by intros; eapply other_step].
  by intros i p w [-> | [-> | ->]] _.
Qed.

Lemma system_knows f c i p :
  writer_reach (boot f) c → procs c !! i = Some p → knows i p (shared c).
Proof.
  intros Hr. destruct (writer_holds f (boot f) c) as [_ Hk]; [by apply initial_holds|done|]. apply Hk.
Qed.

Lemma writer_grows f c c' :
  writer_reach (boot f) c → writer_reach c c' → file (shared c) `prefix_of` file (shared c').
Proof.
  intros Hr Hr'. destruct (writer_holds (file (shared c)) c c') as [Hg _]; [|done|done].
  split; [done|]. intros i p. by apply (system_knows f).
Qed.

Lemma actor_stays f c : writer_reach (boot f) c → ∃ a, procs c !! 0%nat = Some (Actor a).
Proof.
  intros Hr. induction Hr as [|c m c' _ [a Ha] _ Hm]; [by eexists|]. destruct m as [i p|i e]; simpl in Hm.
  - destruct (procs c !! i) eqn:Hi; [done|]. injection Hm as <-. simpl.
    rewrite lookup_insert_ne; [eauto|congruence].
  - destruct (procs c !! i) as [p|] eqn:Hi; [|done]. destruct (step i e (shared c) p) as [[w' p']|] eqn:Hs; [|done].
    injection Hm as <-. simpl. destruct (decide (i = 0%nat)) as [->|Hne]; [|rewrite lookup_insert_ne by done; eauto].
    rewrite lookup_insert_eq. replace p with (Actor a) in Hs by congruence. simpl in Hs.
    destruct (actor_step 0 e (shared c) a) as [[w1 a1]|]; [|done]. injection Hs as _ <-. eauto.
Qed.

(** Where an acknowledged mutation is, in the terms of a caller. *)
Lemma acknowledged_is_kept f c i a :
  writer_reach (boot f) c → procs c !! i = Some (Answered ToMutate true) → procs c !! 0%nat = Some (Actor a) →
  i ∈ file (shared c) ∨
  (lock (shared c) = Some 0%nat ∧ dirty (retry a) = true ∧
   ∃ s, store a = Some s ∧ file (shared c) `prefix_of` s ∧ i ∈ s) ∨
  at_ a = Exited false.
Proof.
  intros Hr Hi H0. pose proof (system_knows _ _ _ _ Hr Hi eq_refl) as Hack.
  destruct (system_knows _ _ _ _ Hr H0) as (_ & (Hret & _ & Hacked) & _).
  destruct (Hacked _ Hack) as [Hin|[(s & Hs & Hin)|Hex]]; [by left| |by right; right].
  unfold retained_ok in Hret. rewrite Hs in Hret. destruct Hret as [Hl Hret].
  destruct (publishing a) as [[snap|[]]|].
  - destruct Hret as (Hpre & Hd & tail & -> & _). right. left. split_and!; [done|done|].
    exists (snap ++ tail). split_and!; [done|by apply prefix_app_r|done].
  - destruct Hret as (Hd & tail & -> & _). right. left. split_and!; [done|done|].
    exists (file (shared c) ++ tail). split_and!; [done|by apply prefix_app_r|done].
  - destruct Hret as [Hd Hpre]. right. left. split_and!; [done|done|]. by exists s.
  - destruct Hret as [Hpre Hclean]. destruct (dirty (retry a)); [|left; by rewrite Hclean].
    right. left. split_and!; [done|done|]. by exists s.
Qed.

(** ** Progress *)

Fixpoint actor_run (me : nat) (es : list event) (w : world) (a : actor) : option (world * actor) :=
  match es with
  | [] => Some (w, a)
  | e :: es' =>
      match actor_step me e w a with
      | Some (w', a') => actor_run me es' w' a'
      | None => None
      end
  end.

Lemma actor_run_app me es es' w a w1 a1 :
  actor_run me es w a = Some (w1, a1) → actor_run me (es ++ es') w a = actor_run me es' w1 a1.
Proof.
  revert w a. induction es as [|e es IH]; intros w a; simpl; [by intros [= -> ->]|].
  destruct (actor_step me e w a) as [[w2 a2]|]; [|done]. apply IH.
Qed.










(** ** Theorems *)

(** C2: however the actor, its callers and other processes interleave and
    whichever loads, mutations and publishes fail, the published store only
    ever grows; a transaction of another process that reported success is in
    it; and a mutation the actor acknowledged is in it, or in the dirty
    snapshot that extends it and that the actor keeps under the lock, unless
    the actor has exited with a failed flush. *)
Theorem no_mutation_is_lost f c c' i a :
  writer_reach (boot f) c → writer_reach c c' →
  file (shared c) `prefix_of` file (shared c') ∧
  (procs c' !! i = Some (CliDone true) → i ∈ file (shared c')) ∧
  (procs c' !! i = Some (Answered ToMutate true) → procs c' !! 0%nat = Some (Actor a) →
   i ∈ file (shared c') ∨
   (lock (shared c') = Some 0%nat ∧ dirty (retry a) = true ∧
    ∃ s, store a = Some s ∧ file (shared c') `prefix_of` s ∧ i ∈ s) ∨
   at_ a = Exited false).
Proof.
  intros Hr Hr'. assert (Hr'' : writer_reach (boot f) c') by (by eapply reach_trans).
  split; [by eapply writer_grows|split].
  - intros Hi. by apply (system_knows _ _ _ _ Hr'' Hi).
  - intros Hi H0. by eapply acknowledged_is_kept.
Qed.

(** C28: a [close] that the actor answered with success means that every
    mutation it ever acknowledged is in the published file, then and in every
    later state. *)
Theorem close_means_published f c c' i j :
  writer_reach (boot f) c → (j, true) ∈ replies (shared c) →
  procs c !! i = Some (Answered ToMutate true) → writer_reach c c' → i ∈ file (shared c').
Proof.
  intros Hr Hj Hi Hr'. destruct (actor_stays f c Hr) as [a Ha].
  destruct (system_knows _ _ _ _ Hr Ha) as (_ & (_ & Hph & Hk) & (Hout & Hrep) & _).
  pose proof (system_knows _ _ _ _ Hr Hi eq_refl) as Hack. rewrite (Hrep _ _ Hj) in Hout.
  unfold exit_of, phase_ok in *. destruct (at_ a) as [| | | | |ok] eqn:Hat; try done. injection Hout as <-.
  destruct (writer_grows f c c' Hr Hr') as [k ->]. apply elem_of_app. left.
  destruct (Hk _ Hack) as [?|[(s & Hs & _)|?]]; [done|congruence|congruence].
Qed.


(** after [k] publishes have failed in a row the next attempt is
    [min (2^(k-1) s, 30 s)] away, and until then neither a mutation nor the
    end of anything else starts one. *)
Theorem retries_back_off (failures : list Z) (last now : Z) a :
  let r := record_failure last (fold_left (fun r at_ => record_failure at_ r) failures (retry_new INITIAL_BACKOFF)) in
  let pause := Z.min (INITIAL_BACKOFF * 2 ^ Z.of_nat (length failures)) MAX_BACKOFF in
  retry a = r → now < last + pause → retry_at r = Some (last + pause) ∧ try_start_publish now a = a.
Proof.
  assert (Hb : ∀ l r, 0 < backoff r ≤ MAX_BACKOFF →
    backoff (fold_left (fun r at_ => record_failure at_ r) l r) = Z.min (backoff r * 2 ^ Z.of_nat (length l)) MAX_BACKOFF).
  { induction l as [|x l IH]; intros r Hr; cbn [fold_left length]; [simpl; lia|].
    rewrite IH by (simpl; unfold MAX_BACKOFF in *; lia).
    rewrite Nat2Z.inj_succ, Z.pow_succ_r by lia. cbn [backoff record_failure].
    pose proof (Z.pow_pos_nonneg 2 (Z.of_nat (length l))). unfold MAX_BACKOFF in *. nia. }
  intros r pause Ha Hnow. assert (Hat : retry_at r = Some (last + pause)).
  { unfold r. simpl. rewrite Hb by (simpl; unfold INITIAL_BACKOFF, MAX_BACKOFF; lia). done. }
  split; [done|]. unfold try_start_publish. rewrite Ha, Hat.
  rewrite (proj2 (Z.ltb_lt now (last + pause))) by done. by destruct (publishing a), (dirty r), (store a).
Qed.

(** ** Runs *)

(** Two callers, a failed and a successful publish, another process and a
    shutdown. *)
Definition demo_moves : list (move process event) :=
  [ Spawn 1%nat (Sending ToMutate); Spawn 2%nat (Sending ToMutate); Spawn 3%nat CliLock; Spawn 4%nat (Sending ToClose);
    Step 1%nat Go; Step 0%nat Receive; Step 0%nat (Lock true); Step 0%nat (Load true);
    Step 0%nat (Apply false 0); Step 1%nat Go; Step 0%nat (Job (TempFile.mkSave true true false true true));
    Step 0%nat (Report 5);
    (* 12 moves so far: one update retained, the file untouched *)
    Step 0%nat (Timer 1005); Step 2%nat Go; Step 0%nat Receive; Step 0%nat (Apply false 1006); Step 2%nat Go;
    Step 0%nat (Job TempFile.all_ok); Step 0%nat (Report 1007); Step 0%nat (Job TempFile.all_ok);
    Step 0%nat (Report 1008);
    (* 21 moves: both updates published and the lock free *)
    Step 3%nat (Lock true); Step 3%nat (Load true); Step 3%nat (Job TempFile.all_ok); Step 3%nat Go;
    Step 4%nat Go; Step 0%nat Receive; Step 0%nat (Flush TempFile.all_ok); Step 4%nat Go ].

Definition demo (n : nat) : config world process :=
  match run_schedule step (boot [9%nat]) (take n demo_moves) with Some c => c | None => boot [] end.

Local Ltac solve_legal :=
  repeat (apply Forall_cons; split; [simpl; unfold begins; auto|]); apply Forall_nil_2.

Lemma demo_legal : Forall (legal begins) demo_moves.
Proof. unfold demo_moves. solve_legal. Qed.

Lemma demo_reach n : run_schedule step (boot [9%nat]) (take n demo_moves) ≠ None → writer_reach (boot [9%nat]) (demo n).
Proof.
  unfold demo. destruct (run_schedule step (boot [9%nat]) (take n demo_moves)) as [c|] eqn:Hc; [|done]. intros _.
  apply (run_reach _ _ _ (take n demo_moves)); [|done]. apply Forall_take, demo_legal.
Qed.

Lemma no_mutation_is_lost_witness :
  procs (demo 25) !! 3%nat = Some (CliDone true) ∧ file (shared (demo 12)) = [9%nat] ∧
  file (shared (demo 12)) `prefix_of` file (shared (demo 25)) ∧ 3%nat ∈ file (shared (demo 25)).
Proof.
  assert (Hr : writer_reach (boot [9%nat]) (demo 12)) by (apply demo_reach; by vm_compute).
  assert (Hr' : writer_reach (demo 12) (demo 25)).
  { apply (run_reach _ _ _ (drop 12 (take 25 demo_moves))); [apply Forall_drop, Forall_take, demo_legal|].
    by vm_compute. }
  assert (Hc : procs (demo 25) !! 3%nat = Some (CliDone true)) by (by vm_compute).
  split; [done|]. split; [by vm_compute|].
  destruct (no_mutation_is_lost [9%nat] (demo 12) (demo 25) 3%nat actor_start Hr Hr') as (Hg & Hcli & _).
  split; [done|]. exact (Hcli Hc).
Defined.

Lemma close_means_published_witness :
  (4%nat, true) ∈ replies (shared (demo 28)) ∧ 2%nat ∈ file (shared (demo 28)).
Proof.
  assert (Hj : (4%nat, true) ∈ replies (shared (demo 28))) by (vm_compute; by left).
  split; [done|]. apply (close_means_published [9%nat] (demo 28) (demo 28) 2%nat 4%nat); [|done| |].
  - apply demo_reach. by vm_compute.
  - by vm_compute.
  - constructor.
Defined.



Lemma retries_back_off_witness :
  let a := mkActor Select (Some [1%nat]) None (record_failure 5000 (fold_left (fun r t => record_failure t r) [0; 1000; 3000] (retry_new INITIAL_BACKOFF))) 1 [] in
  retry_at (retry a) = Some 13000 ∧ try_start_publish 12999 a = a.
Proof. intros a. apply (retries_back_off [0; 1000; 3000] 5000 12999 a); [done|by vm_compute]. Defined.


End StoreWriter.
