(* ===== verification/Snapshot.v ===== *)
(** * Snapshots of a directory cache

    [packages/bridge-verify-core/src/snapshot.rs]: a trial client gets the
    SQLite database of the live client through the backup interface and the
    other files by copying, within a deadline. *)

From S2P Require Import Prelude Str.
Open Scope Z_scope.

Module Snapshot.

(** ** Files and outcomes *)

(** A path under the destination, and the files there. *)
Abbreviation path := (list str).
Abbreviation tree := (gmap path (list Z)).

Definition SNAPSHOT_BACKUP_DEADLINE : Z := 15000.
Definition DB_NAME : str := lit "dir.sqlite3".
Definition SIDECAR_NAMES : list str := [lit "dir.sqlite3-journal"; lit "dir.sqlite3-wal"; lit "dir.sqlite3-shm"].
Definition REST_COPY_SKIP : list str := DB_NAME :: SIDECAR_NAMES ++ [lit "dir.lock"].

(** One step of the online backup, with what the destination then holds. *)
Inductive StepResult : Type :=
| Done (db : list Z)
| More (db : list Z)
| Busy
| Locked
| StepError.

(** What copying a file does: the content it had, or what a failure leaves. *)
Inductive copied : Type :=
| CopyOk (content : list Z)
| CopyFailed (left_over : option (list Z)).

(** The source as the copy finds it: of a directory, whether its destination
    can be created and whether it can be read, and its entries with the time of
    the deadline check before each. *)
Inductive source : Type :=
| SrcDir (created listed : bool) (es : entries)
| SrcFile (c : copied)
| SrcUnknown
with entries : Type :=
| NoMore
| Unreadable (es : entries)
| Entry (now : Z) (name : str) (child : source) (es : entries).

Scheme source_mut := Induction for source Sort Prop
with entries_mut := Induction for entries Sort Prop.
Combined Scheme source_entries_ind from source_mut, entries_mut.

(** What the system answers during one snapshot; the clock is in
    milliseconds. *)
Record io : Type := mkIo {
  create_ok : bool;
  remove_db_ok : bool;
  remove_sidecar_ok : str → bool;
  src_db_exists : bool;
  open_src_ok : bool;
  open_dest_ok : bool;
  backup_ok : bool;
  started : Z;
  steps : list (Z * StepResult);
  cleanup_ok : str → bool;
  rest : source;
}.

(** ** The snapshot *)

(** [remove_file], where a missing file is no failure. *)
Definition remove_if_exists (ok : bool) (p : path) (dest : tree) : bool * tree :=
  match dest !! p with
  | None => (true, dest)
  | Some _ => if ok then (true, delete p dest) else (false, dest)
  end.

Fixpoint remove_each (ok : str → bool) (names : list str) (dest : tree) : bool * tree :=
  match names with
  | [] => (true, dest)
  | n :: names' =>
      let '(a, dest) := remove_if_exists (ok n) [n] dest in
      let '(b, dest) := remove_each ok names' dest in
      (a && b, dest)
  end.

Definition remove_db_and_sidecars (e : io) (dest : tree) : bool * tree :=
  remove_each (cleanup_ok e) (DB_NAME :: SIDECAR_NAMES) dest.

Definition copy_deadline_passed (deadline : option Z) (now : Z) : bool :=
  match deadline with Some d => d <=? now | None => false end.

Definition copy_file (c : copied) (p : path) (dest : tree) : tree :=
  match c with
  | CopyOk content => <[p := content]> dest
  | CopyFailed (Some part) => <[p := part]> dest
  | CopyFailed None => dest
  end.

Fixpoint copy_rest_recursive (deadline : option Z) (here : path) (src : source) (dest : tree) {struct src} : tree :=
  match src with
  | SrcDir created listed es =>
      if negb created then dest else if negb listed then dest else copy_entries deadline here es dest
  | SrcFile c => copy_file c here dest
  | SrcUnknown => dest
  end
with copy_entries (deadline : option Z) (here : path) (es : entries) (dest : tree) {struct es} : tree :=
  match es with
  | NoMore => dest
  | Unreadable es' => copy_entries deadline here es' dest
  | Entry now name child es' =>
      if bool_decide (name ∈ REST_COPY_SKIP) then copy_entries deadline here es' dest
      else if copy_deadline_passed deadline now then dest
      else copy_entries deadline here es' (copy_rest_recursive deadline (here ++ [name]) child dest)
  end.

(** The backup loop; [None] while it still runs. *)
Fixpoint backup_loop (deadline : Z) (l : list (Z * StepResult)) (db : list Z) : option (bool * list Z) :=
  match l with
  | [] => None
  | (now, r) :: l' =>
      if deadline <=? now then Some (false, db)
      else match r with
      | Done db' => Some (true, db')
      | More db' => backup_loop deadline l' db'
      | Busy | Locked => backup_loop deadline l' db
      | StepError => Some (false, db)
      end
  end.

Definition backup_deadline (e : io) (deadline : option Z) : Z :=
  match deadline with
  | Some shared => Z.min (started e + SNAPSHOT_BACKUP_DEADLINE) shared
  | None => started e + SNAPSHOT_BACKUP_DEADLINE
  end.

(** The destination database is created empty, then filled. *)
Definition backup (e : io) (deadline : option Z) (dest : tree) : option (bool * tree) :=
  if negb (open_dest_ok e) then Some (false, dest)
  else
    let dest := <[[DB_NAME] := []]> dest in
    if negb (backup_ok e) then Some (false, dest)
    else match backup_loop (backup_deadline e deadline) (steps e) [] with
    | None => None
    | Some (ok, db) => Some (ok, <[[DB_NAME] := db]> dest)
    end.

Definition snapshot_cache_dir (e : io) (deadline : option Z) (dest : tree) : option (bool * tree) :=
  if negb (create_ok e) then Some (false, dest)
  else
    let '(ok, dest) := remove_if_exists (remove_db_ok e) [DB_NAME] dest in
    if negb ok then Some (false, dest)
    else
      let '(_, dest) := remove_each (remove_sidecar_ok e) SIDECAR_NAMES dest in
      if negb (src_db_exists e) then Some (true, dest)
      else if negb (open_src_ok e) then Some (remove_db_and_sidecars e dest)
      else match backup e deadline dest with
      | None => None
      | Some (false, dest) => Some (remove_db_and_sidecars e dest)
      | Some (true, dest) => Some (true, copy_rest_recursive deadline [] (rest e) dest)
      end.

(** ** What the copy writes *)

(** A file of the source below [here], not under a skipped name, and what
    copying it does. *)
Inductive found : path → source → path → copied → Prop :=
| found_file here c : found here (SrcFile c) here c
| found_dir here es p c : found_in here es p c → found here (SrcDir true true es) p c
with found_in : path → entries → path → copied → Prop :=
| found_unreadable here es p c : found_in here es p c → found_in here (Unreadable es) p c
| found_here here now name child es p c :
    name ∉ REST_COPY_SKIP → found (here ++ [name]) child p c → found_in here (Entry now name child es) p c
| found_later here now name child es p c : found_in here es p c → found_in here (Entry now name child es) p c.

Lemma copy_file_lookup c p dest q :
  copy_file c p dest !! q ≠ dest !! q → q = p ∧
    match c with CopyOk x => copy_file c p dest !! q = Some x | CopyFailed l => copy_file c p dest !! q = l end.
Proof.
  destruct c as [x|[x|]]; cbn; [..|done]; (destruct (decide (q = p)) as [->|]; [|by rewrite lookup_insert_ne]);
    rewrite lookup_insert_eq; done.
Qed.

(** What a path then holds, if it changed, is what copying one of the files
    left there. *)
Definition left_by (c : copied) : option (list Z) := match c with CopyOk x => Some x | CopyFailed l => l end.

Lemma copy_writes deadline :
  (∀ src here dest q, copy_rest_recursive deadline here src dest !! q ≠ dest !! q →
     ∃ c, found here src q c ∧ copy_rest_recursive deadline here src dest !! q = left_by c) ∧
  (∀ es here dest q, copy_entries deadline here es dest !! q ≠ dest !! q →
     ∃ c, found_in here es q c ∧ copy_entries deadline here es dest !! q = left_by c).
Proof.
  apply source_entries_ind.
  - intros created listed es IH here dest q. cbn [copy_rest_recursive]. destruct created, listed; cbn [negb]; try done.
    intros (c & Hc & Hl)%IH. exists c. split; [by constructor|done].
  - intros c here dest q. cbn [copy_rest_recursive]. intros [-> Hl]%copy_file_lookup. exists c. split; [constructor|].
    by destruct c.
  - done.
  - done.
  - intros es IH here dest q. cbn [copy_entries]. intros (c & Hc & Hl)%IH. exists c. split; [by constructor|done].
  - intros now name child IHc es IH here dest q. cbn [copy_entries]. case_bool_decide as Hs.
    { intros (c & Hc & Hl)%IH. exists c. split; [by apply found_later|done]. }
    destruct (copy_deadline_passed deadline now); [done|].
    set (dest' := copy_rest_recursive deadline (here ++ [name]) child dest). intros Hq.
    destruct (decide (copy_entries deadline here es dest' !! q = dest' !! q)) as [He|Hne].
    + rewrite He in *. apply IHc in Hq as (c & Hc & Hl). exists c. split; [by apply found_here|done].
    + apply IH in Hne as (c & Hc & Hl). exists c. split; [by apply found_later|done].
Qed.

(** Below the directory every name on the way is free of the skipped ones. *)
Lemma found_names :
  (∀ src here q c, found here src q c → ∃ r, q = here ++ r ∧ Forall (fun n => n ∉ REST_COPY_SKIP) r) ∧
  (∀ es here q c, found_in here es q c → ∃ r, r ≠ [] ∧ q = here ++ r ∧ Forall (fun n => n ∉ REST_COPY_SKIP) r).
Proof.
  apply source_entries_ind.
  - intros created listed es IH here q c Hf. inversion Hf as [|? ? ? ? Hin]; subst.
    destruct (IH _ _ _ Hin) as (r & _ & -> & Hr). by exists r.
  - intros c here q c' Hf. inversion Hf; subst. exists []. by rewrite app_nil_r.
  - intros here q c Hf. inversion Hf.
  - intros here q c Hf. inversion Hf.
  - intros es IH here q c Hf. inversion Hf as [? ? ? ? Hin| |]; subst. exact (IH _ _ _ Hin).
  - intros now name child IHc es IH here q c Hf.
    inversion Hf as [|? ? ? ? ? ? ? Hn Hin|? ? ? ? ? ? ? Hin]; subst; [|exact (IH _ _ _ Hin)].
    destruct (IHc _ _ _ Hin) as (r & -> & Hr). exists (name :: r). split; [done|]. rewrite <-app_assoc. split; [done|].
    by constructor.
Qed.

(** ** The backup *)

Lemma backup_loop_spec deadline l db ok db' :
  backup_loop deadline l db = Some (ok, db') →
  ok = true → ∃ now, (now, Done db') ∈ l ∧ now < deadline.
Proof.
  revert db. induction l as [|[now r] l IH]; intros db; cbn [backup_loop]; [done|].
  destruct (Z.leb_spec deadline now) as [|Hlt]; [by intros [= <- _]|]. destruct r as [x|x| | |].
  - intros [= <- <-] _. exists now. split; [left|done].
  - intros Hb Hok. destruct (IH _ Hb Hok) as (n & Hn & Hd). exists n. split; [by right|done].
  - intros Hb Hok. destruct (IH _ Hb Hok) as (n & Hn & Hd). exists n. split; [by right|done].
  - intros Hb Hok. destruct (IH _ Hb Hok) as (n & Hn & Hd). exists n. split; [by right|done].
  - by intros [= <- _].
Qed.

(** A clock that gets to the deadline ends the loop. *)
Lemma backup_loop_ends deadline l db :
  Exists (fun x => deadline ≤ x.1) l → is_Some (backup_loop deadline l db).
Proof.
  intros He. revert db. induction He as [[now r] l Hd|[now r] l He IH]; intros db; cbn [backup_loop].
  - cbn in Hd. destruct (Z.leb_spec deadline now); [done|lia].
  - destruct (deadline <=? now); [done|]. destruct r; auto.
Qed.

Lemma remove_if_exists_spec ok p dest b dest' :
  remove_if_exists ok p dest = (b, dest') →
  (∀ q, dest' !! q = dest !! q ∨ q = p ∧ dest' !! q = None) ∧ (b = true → dest' !! p = None).
Proof.
  unfold remove_if_exists. destruct (dest !! p) eqn:Hp; [destruct ok|]; intros [= <- <-]; [|by split; [left|]..].
  split; [|intros _; apply lookup_delete_eq]. intros q. destruct (decide (q = p)) as [->|]; [right|left; by apply lookup_delete_ne].
  split; [done|apply lookup_delete_eq].
Qed.

Lemma remove_each_spec ok names dest b dest' :
  remove_each ok names dest = (b, dest') →
  (∀ q, dest' !! q = dest !! q ∨ (∃ n, n ∈ names ∧ q = [n]) ∧ dest' !! q = None) ∧
  (b = true → ∀ n, n ∈ names → dest' !! [n] = None).
Proof.
  revert dest b dest'. induction names as [|n names IH]; intros dest b dest'; cbn [remove_each].
  { intros [= <- <-]. split; [auto|]. by intros _ n ?%not_elem_of_nil. }
  destruct (remove_if_exists (ok n) [n] dest) as [a d1] eqn:H1. destruct (remove_each ok names d1) as [b2 d2] eqn:H2.
  intros [= <- <-]. apply remove_if_exists_spec in H1 as [H1o H1n]. apply IH in H2 as [H2o H2n]. split.
  - intros q. destruct (H2o q) as [->|[(m & Hm & ->) Hq]]; [|right; split; [exists m; split; [by right|done]|done]].
    destruct (H1o q) as [->|[-> Hq]]; [by left|right]. split; [exists n; split; [left|done]|done].
  - intros [Ha Hb]%andb_true_iff m [->|Hm]%elem_of_cons; [|by apply H2n].
    destruct (H2o [n]) as [->|[_ Hq]]; [by apply H1n|done].
Qed.

(** ** The whole snapshot *)

Lemma copy_skips deadline src dest n : n ∈ REST_COPY_SKIP → copy_rest_recursive deadline [] src dest !! [n] = dest !! [n].
Proof.
  intros Hn. apply dec_stable. intros (c & Hc & _)%(proj1 (copy_writes deadline)).
  apply (proj1 found_names) in Hc as (r & Hr & Hall). cbn in Hr. subst r. by apply Forall_cons in Hall as [? _].
Qed.

Lemma sidecars_skipped n : n ∈ SIDECAR_NAMES → n ∈ REST_COPY_SKIP.
Proof. intros Hn. right. apply elem_of_app. by left. Qed.

(** What a path may have become. *)
Definition accounted (src : source) (dest dest' : tree) (q : path) : Prop :=
  q = [DB_NAME] ∨ (∃ n, n ∈ SIDECAR_NAMES ∧ q = [n] ∧ dest' !! q = None) ∨
  (Forall (fun n => n ∉ REST_COPY_SKIP) q ∧ ∃ c, found [] src q c ∧ dest' !! q = left_by c).

Definition whole_or_absent (e : io) (deadline : option Z) (dest' : tree) : Prop :=
  dest' !! [DB_NAME] = None ∨
  ∃ now db, (now, Done db) ∈ steps e ∧ now < backup_deadline e deadline ∧ dest' !! [DB_NAME] = Some db.

Lemma removed_accounted src ok names dest b dest' q :
  remove_each ok names dest = (b, dest') → (∀ n, n ∈ names → n = DB_NAME ∨ n ∈ SIDECAR_NAMES) →
  dest' !! q = dest !! q ∨ accounted src dest dest' q.
Proof.
  intros Hr Hn. destruct (proj1 (remove_each_spec _ _ _ _ _ Hr) q) as [|[(n & Hin & ->) Hq]]; [by left|right].
  destruct (Hn _ Hin) as [->|]; [by left|right; left]. by exists n.
Qed.

Lemma backup_spec e deadline dest ok dest' :
  backup e deadline dest = Some (ok, dest') →
  (∀ q, q ≠ [DB_NAME] → dest' !! q = dest !! q) ∧ (ok = true → whole_or_absent e deadline dest').
Proof.
  unfold backup. destruct (open_dest_ok e); cbn [negb]; [|by intros [= <- <-]].
  destruct (backup_ok e); cbn [negb].
  2: { intros [= <- <-]. split; [|done]. intros q Hq. by rewrite lookup_insert_ne. }
  destruct (backup_loop _ _ _) as [[b db]|] eqn:Hb; [|done]. intros [= <- <-]. split.
  - intros q Hq. by rewrite !lookup_insert_ne.
  - intros Hok. destruct (backup_loop_spec _ _ _ _ _ Hb Hok) as (now & Hin & Hlt). right. exists now, db.
    split; [done|]. split; [done|]. apply lookup_insert_eq.
Qed.

(** C19: A snapshot that is reported usable is sound whatever the system does:
    its database is absent or is the complete result of a backup that finished
    within its budget, never a part of one nor a copied file; every other
    path it changed is a sidecar it removed or a file that was copied from the
    same place in the source and lies under no skipped name. *)
Theorem snapshot_is_whole_or_empty e deadline dest dest' :
  snapshot_cache_dir e deadline dest = Some (true, dest') →
  whole_or_absent e deadline dest' ∧ ∀ q, dest' !! q ≠ dest !! q → accounted (rest e) dest dest' q.
Proof.
  unfold snapshot_cache_dir. destruct (create_ok e); cbn [negb]; [|done].
  destruct (remove_if_exists _ _ dest) as [ok d1] eqn:H1. destruct ok; cbn [negb]; [|done].
  apply remove_if_exists_spec in H1 as [H1o H1n]. specialize (H1n eq_refl).
  destruct (remove_each _ SIDECAR_NAMES d1) as [b2 d2] eqn:H2.
  assert (Hdb : d2 !! [DB_NAME] = None).
  { by destruct (proj1 (remove_each_spec _ _ _ _ _ H2) [DB_NAME]) as [->|[_ ?]]. }
  assert (Hacc2 : ∀ q, d2 !! q = dest !! q ∨ q = [DB_NAME] ∨ ∃ n, n ∈ SIDECAR_NAMES ∧ q = [n] ∧ d2 !! q = None).
  { intros q. destruct (proj1 (remove_each_spec _ _ _ _ _ H2) q) as [->|[(n & Hn & ->) Hq]]; [|by right; right; exists n].
    destruct (H1o q) as [->|[-> _]]; auto. }
  destruct (src_db_exists e); cbn [negb].
  2: { intros [= <-]. split; [by left|]. intros q Hq. by destruct (Hacc2 q) as [|[|]]; [|left|right; left]. }
  assert (Hclean : ∀ d, (∀ q, q ≠ [DB_NAME] → d !! q = d2 !! q) → remove_db_and_sidecars e d = (true, dest') →
    whole_or_absent e deadline dest' ∧ ∀ q, dest' !! q ≠ dest !! q → accounted (rest e) dest dest' q).
  { intros d Hd Hr. apply remove_each_spec in Hr as [Hro Hrn]. split; [left; by apply Hrn; [|left]|]. intros q Hq.
    destruct (decide (q = [DB_NAME])) as [|Hne]; [by left|right; left].
    destruct (Hro q) as [He|[(n & [->|Hn]%elem_of_cons & ->) Hnone]]; [|done|by exists n].
    rewrite He, Hd in Hq by done. destruct (Hacc2 q) as [|[|(n & Hn & -> & Hnone)]]; [done..|]. exists n.
    split; [done|]. split; [done|]. by rewrite He, Hd. }
  destruct (open_src_ok e); cbn [negb]; [|intros [= Hr]; by apply (Hclean d2)].
  destruct (backup e deadline d2) as [[[] d3]|] eqn:Hb; [| |done]; apply backup_spec in Hb as [Hbo Hbk].
  2: { intros [= Hr]. by apply (Hclean d3). }
  specialize (Hbk eq_refl). intros [= <-]. split.
  - unfold whole_or_absent in *. by rewrite copy_skips by left.
  - intros q Hq. destruct (decide (q = [DB_NAME])) as [|Hne]; [by left|right].
    destruct (decide (copy_rest_recursive deadline [] (rest e) d3 !! q = d3 !! q)) as [He|Hw].
    + left. rewrite He, Hbo in Hq by done. destruct (Hacc2 q) as [|[|(n & Hn & -> & Hnone)]]; [done..|]. exists n.
      split; [done|]. split; [done|]. by rewrite He, Hbo.
    + right. apply (proj1 (copy_writes deadline)) in Hw as (c & Hc & Hl). split; [|by exists c].
      by apply (proj1 found_names) in Hc as (r & -> & Hall).
Qed.

(** A snapshot always comes to an end: once the clock of the backup reaches
    the shorter of its own budget and the shared deadline, the function
    returns. *)
Theorem snapshot_ends e deadline dest :
  Exists (fun x => backup_deadline e deadline ≤ x.1) (steps e) → is_Some (snapshot_cache_dir e deadline dest).
Proof.
  intros He. unfold snapshot_cache_dir. destruct (create_ok e); cbn [negb]; [|done].
  destruct (remove_if_exists _ _ dest) as [[] d1]; cbn [negb]; [|done]. destruct (remove_each _ SIDECAR_NAMES d1) as [b d2].
  destruct (src_db_exists e); cbn [negb]; [|done]. destruct (open_src_ok e); cbn [negb]; [|done].
  assert (Hb : is_Some (backup e deadline d2)); [|destruct Hb as [[[] d3] ->]; done].
  unfold backup. destruct (open_dest_ok e); cbn [negb]; [|done]. destruct (backup_ok e); cbn [negb]; [|done].
  destruct (backup_loop_ends _ _ [] He) as [[ok db] ->]. done.
Qed.

(** ** A complete copy *)

Lemma copy_complete q x :
  (∀ src here dest, found here src q (CopyOk x) → (∀ c, found here src q c → c = CopyOk x) →
     copy_rest_recursive None here src dest !! q = Some x) ∧
  (∀ es here dest, found_in here es q (CopyOk x) → (∀ c, found_in here es q c → c = CopyOk x) →
     copy_entries None here es dest !! q = Some x).
Proof.
  apply source_entries_ind.
  - intros created listed es IH here dest Hf Hu. inversion Hf as [|? ? ? ? Hin]; subst. cbn [copy_rest_recursive negb].
    apply IH; [done|]. intros c Hc. apply Hu. by constructor.
  - intros c here dest Hf Hu. inversion Hf; subst. cbn. apply lookup_insert_eq.
  - intros here dest Hf. inversion Hf.
  - intros here dest Hf. inversion Hf.
  - intros es IH here dest Hf Hu. inversion Hf as [? ? ? ? Hin| |]; subst. cbn [copy_entries]. apply IH; [done|].
    intros c Hc. apply Hu. by constructor.
  - intros now name child IHc es IH here dest Hf Hu. cbn [copy_entries copy_deadline_passed].
    assert (Hlater : ∀ d, found_in here es q (CopyOk x) → copy_entries None here es d !! q = Some x).
    { intros d Hin. apply IH; [done|]. intros c Hc. apply Hu. by apply found_later. }
    case_bool_decide as Hs; [inversion Hf as [|? ? ? ? ? ? ? Hn Hin|? ? ? ? ? ? ? Hin]; subst; [done|by apply Hlater]|].
    inversion Hf as [|? ? ? ? ? ? ? Hn Hin|? ? ? ? ? ? ? Hin]; subst; [|by apply Hlater].
    set (d := copy_rest_recursive None (here ++ [name]) child dest).
    assert (Hd : d !! q = Some x). { apply IHc; [done|]. intros c Hc. apply Hu. by apply found_here. }
    destruct (decide (copy_entries None here es d !! q = d !! q)) as [->|Hw]; [done|].
    apply (proj2 (copy_writes None)) in Hw as (c & Hc & ->). assert (c = CopyOk x) as -> by (apply Hu; by apply found_later). done.
Qed.

(** Without a deadline and without failures a snapshot is complete: it is
    usable, its database is the result of the backup, and every file of the
    source that lies under no skipped name is there with the content that was
    read. *)
Theorem snapshot_is_complete e dest db l now :
  create_ok e = true → remove_db_ok e = true → src_db_exists e = true → open_src_ok e = true → open_dest_ok e = true →
  backup_ok e = true → steps e = (now, Done db) :: l → now < started e + SNAPSHOT_BACKUP_DEADLINE →
  ∃ dest', snapshot_cache_dir e None dest = Some (true, dest') ∧ dest' !! [DB_NAME] = Some db ∧
    ∀ q x, found [] (rest e) q (CopyOk x) → (∀ c, found [] (rest e) q c → c = CopyOk x) → dest' !! q = Some x.
Proof.
  intros Hc Hr Hs Ho Hd Hb Hst Hn. unfold snapshot_cache_dir. rewrite Hc, Hs, Ho, Hr. cbn [negb].
  assert (Hfst : (remove_if_exists true [DB_NAME] dest).1 = true) by (unfold remove_if_exists; by case_match).
  destruct (remove_if_exists true [DB_NAME] dest) as [ok d1]. cbn in Hfst. subst ok. cbn [negb].
  destruct (remove_each _ SIDECAR_NAMES d1) as [b d2]. unfold backup. rewrite Hd, Hb, Hst. cbn [negb backup_loop backup_deadline].
  destruct (Z.leb_spec (started e + SNAPSHOT_BACKUP_DEADLINE) now); [lia|]. eexists. split; [done|]. split.
  - rewrite copy_skips by left. apply lookup_insert_eq.
  - intros q x Hf Hu. by apply (proj1 (copy_complete q x)).
Qed.

(** ** What may stay behind *)

Lemma remove_each_keeps ok names dest n c :
  ok n = false → dest !! [n] = Some c → (remove_each ok names dest).2 !! [n] = Some c.
Proof.
  intros Hn. revert dest. induction names as [|m names IH]; intros dest Hd; [done|]. cbn [remove_each].
  assert (H1 : (remove_if_exists (ok m) [m] dest).2 !! [n] = Some c).
  { unfold remove_if_exists. destruct (decide (m = n)) as [->|Hne]; [by rewrite Hd, Hn|].
    repeat case_match; try done. cbn. rewrite lookup_delete_ne; [done|congruence]. }
  destruct (remove_if_exists (ok m) [m] dest) as [a d1]. cbn [snd] in H1. apply IH in H1. destruct (remove_each ok names d1). exact H1.
Qed.

(** An old sidecar that cannot be removed stays beside a fresh database, and a
    snapshot of a client without a database keeps the other files of an
    earlier one: both are reported as usable. *)
Theorem stale_files_may_stay e dest n c :
  create_ok e = true → remove_db_ok e = true → n ∈ SIDECAR_NAMES → dest !! [n] = Some c → remove_sidecar_ok e n = false →
  (src_db_exists e = false → ∃ dest', snapshot_cache_dir e None dest = Some (true, dest') ∧
     dest' !! [n] = Some c ∧ ∀ q, q ≠ [DB_NAME] → (∀ m, m ∈ SIDECAR_NAMES → q ≠ [m]) → dest' !! q = dest !! q) ∧
  (∀ now db l, src_db_exists e = true → open_src_ok e = true → open_dest_ok e = true → backup_ok e = true →
     steps e = (now, Done db) :: l → now < started e + SNAPSHOT_BACKUP_DEADLINE →
     ∃ dest', snapshot_cache_dir e None dest = Some (true, dest') ∧ dest' !! [DB_NAME] = Some db ∧ dest' !! [n] = Some c).
Proof.
  intros Hc Hr Hn Hd Hs. unfold snapshot_cache_dir. rewrite Hc, Hr. cbn [negb].
  assert (Hne : [DB_NAME] ≠ [n]).
  { intros [= <-]. apply list_elem_of_In in Hn. vm_compute in Hn. naive_solver. }
  assert (Hfst : (remove_if_exists true [DB_NAME] dest).1 = true) by (unfold remove_if_exists; by case_match).
  destruct (remove_if_exists true [DB_NAME] dest) as [ok d1] eqn:H1. cbn in Hfst. subst ok. cbn [negb].
  apply remove_if_exists_spec in H1 as [H1o _]. assert (Hd1 : d1 !! [n] = Some c).
  { destruct (H1o [n]) as [->|[Heq _]]; [done|by destruct Hne]. }
  pose proof (remove_each_keeps (remove_sidecar_ok e) SIDECAR_NAMES d1 n c Hs Hd1) as Hd2.
  destruct (remove_each (remove_sidecar_ok e) SIDECAR_NAMES d1) as [b d2] eqn:H2. cbn [snd] in Hd2.
  apply remove_each_spec in H2 as [H2o _]. split.
  - intros ->. cbn [negb]. exists d2. split; [done|]. split; [done|]. intros q Hq Hm.
    destruct (H2o q) as [->|[(m & Hm' & ->) _]]; [|by destruct (Hm m)]. by destruct (H1o q) as [|[? _]].
  - intros now db l -> -> Hdo Hb Hst Hlt. unfold backup. rewrite Hdo, Hb, Hst. cbn [negb backup_loop backup_deadline].
    destruct (Z.leb_spec (started e + SNAPSHOT_BACKUP_DEADLINE) now); [lia|]. eexists. split; [done|].
    rewrite !copy_skips by (by left || by apply sidecars_skipped). rewrite lookup_insert_eq. split; [done|].
    by rewrite !lookup_insert_ne.
Qed.

(** ** Witnesses *)

Section Witnesses.
Definition sample_source : source :=
  SrcDir true true (Entry 5 (lit "dir.lock") (SrcFile (CopyOk [9]))
    (Entry 6 (lit "dir_blobs") (SrcDir true true (Entry 7 (lit "con") (SrcFile (CopyOk [1; 2])) NoMore)) NoMore)).

Definition sample_io : io :=
  mkIo true true (fun _ => true) true true true true 0 [(1, Busy); (2, More [3]); (3, Done [3; 4]); (20000, Busy)]
    (fun _ => true) sample_source.

Definition straight_io : io :=
  mkIo true true (fun _ => true) true true true true 0 [(3, Done [3; 4])] (fun _ => true) sample_source.

Lemma snapshot_is_whole_or_empty_witness :
  ∃ dest', snapshot_cache_dir sample_io None ∅ = Some (true, dest') ∧ whole_or_absent sample_io None dest'.
Proof.
  assert (Hok : match snapshot_cache_dir sample_io None ∅ with Some (b, _) => b | None => false end = true)
    by (vm_compute; reflexivity).
  destruct (snapshot_cache_dir sample_io None ∅) as [[[] dest']|] eqn:Hs; [|discriminate Hok..].
  exists dest'. split; [reflexivity|]. exact (proj1 (snapshot_is_whole_or_empty sample_io None ∅ dest' Hs)).
Defined.

Lemma snapshot_ends_witness : is_Some (snapshot_cache_dir sample_io (Some 100) ∅).
Proof.
  apply snapshot_ends. apply Exists_exists. exists (20000, Busy). split; [|vm_compute; discriminate].
  apply list_elem_of_In. cbn. auto.
Defined.

Lemma snapshot_is_complete_witness :
  ∃ dest', snapshot_cache_dir straight_io None ∅ = Some (true, dest') ∧ dest' !! [DB_NAME] = Some [3; 4].
Proof.
  destruct (snapshot_is_complete straight_io ∅ [3; 4] [] 3) as (dest' & Hs & Hd & _); try reflexivity.
  exists dest'. split; [exact Hs|exact Hd].
Defined.

Lemma stale_files_may_stay_witness :
  let e := mkIo true true (fun _ => false) false true true true 0 [] (fun _ => true) SrcUnknown in
  let dest := {[ [lit "dir.sqlite3-wal"] := [1] ]} : tree in
  ∃ dest', snapshot_cache_dir e None dest = Some (true, dest') ∧ dest' !! [lit "dir.sqlite3-wal"] = Some [1].
Proof.
  intros e dest. destruct (stale_files_may_stay e dest (lit "dir.sqlite3-wal") [1]) as [Hw _];
    [reflexivity|reflexivity|right; left|reflexivity|reflexivity|].
  destruct (Hw eq_refl) as (dest' & Hs & Hd & _). exists dest'. split; [exact Hs|exact Hd].
Defined.
End Witnesses.
End Snapshot.
