(* ===== verification/Verifier.v ===== *)
(** * Circuit verification of bridges

    [apps/socks5-proxy/src/bridges/bridge_verifier.rs] with the ownership
    decisions of [packages/bridge-verify-core/src/pt_reap.rs]: the sequential
    verification of a batch under a shared budget, the admission decision, the
    background tick over the health store, and which child processes a sweep
    may kill.  Time passes as the environment says: every phase of a check has
    the time it would need, and the code's limits cut it short. *)

From S2P Require Import Prelude Order OrdMap Str Net Crates Samples Identity BridgeStore StoreStats.
Import Identity Store Stats.
Open Scope Z_scope.

Module Verifier.

(** ** Leaked transport processes *)

Definition KILL_MARKERS_CAP : nat := 128.

Definition register_kill_marker (markers : list str) (marker_name : str) : list str :=
  if bool_decide (marker_name ∈ markers) then markers
  else
    let markers := markers ++ [marker_name] in
    if (KILL_MARKERS_CAP <? length markers)%nat then tail markers else markers.

(** A child as [(pid, ppid, name)]. *)
Definition kill_targets (children : list (Z * Z * str)) (my_pid : Z) (markers : list str) : list Z :=
  if is_empty markers then []
  else map (fun c => c.1.1)
         (List.filter (fun '(pid, ppid, name) =>
            (ppid =? my_pid) && negb (pid =? my_pid) && bool_decide (name ∈ markers)) children).

(** [kill_marked_children]: the processes a sweep terminates, given the own
    children of the process snapshot as [(pid, exe)]. *)
Definition kill_marked_children (registry : list str) (children : list (Z * str)) (my_pid : Z) : list Z :=
  let markers := map to_ascii_lowercase registry in
  if is_empty markers then []
  else kill_targets (map (fun c => (c.1, my_pid, to_ascii_lowercase c.2)) children) my_pid markers.

Definition STATE_LOCATION_KEY : str := lit "TOR_PT_STATE_LOCATION".

Fixpoint find_map {A B} (f : A → option B) (l : list A) : option B :=
  match l with
  | [] => None
  | x :: l' => match f x with Some y => Some y | None => find_map f l' end
  end.

Definition environ_state_location (environ : str) : option str :=
  find_map (fun entry =>
    match split_once 61 entry with
    | Some (key, value) => if bool_decide (key = STATE_LOCATION_KEY) then Some value else None
    | None => None
    end) (split_on 0 environ).

Definition owned_process_targets (children : list (Z * Z * option str)) (my_pid : Z) (token : str) : list Z :=
  if is_empty token then []
  else map (fun c => c.1.1)
         (List.filter (fun '(pid, ppid, state_location) =>
            (ppid =? my_pid) && negb (pid =? my_pid) && negb (pid =? 0) &&
            bool_decide (state_location = Some token)) children).

(** ** One batch *)

(** [serde_json]: the boolean member of a body that parses. *)
Class JsonCrate : Type := {
  json_bool : str → str → option bool;
}.

Definition confirms_tor `{JsonCrate} (body : str) : bool :=
  bool_decide (json_bool body (lit "IsTor") = Some true).

Definition CIRCUIT_VERIFY_BOOTSTRAP_TIMEOUT : Z := from_secs 60.
Definition CIRCUIT_VERIFY_PROBE_TIMEOUT : Z := from_secs 90.
Definition VERIFY_RUNTIME_SHUTDOWN_GRACE : Z := from_secs 5.

(** What one check meets: the outcome of each phase and the time it needs. *)
Record check : Type := mkCheck {
  mkdir_ok : bool;
  runtime_ok : bool;
  setup : Z;
  create_ok : bool;
  bootstrap : Z * bool;
  probe : Z * option str;
  shutdown : Z;
  cleanup : Z;
}.

(** Why a bridge is reported as not verified. *)
Inductive Reason : Type :=
| LockBudget
| Budget
| NoTransport
| NoScratch
| NoRuntime
| CreateFailed
| BudgetBeforeBootstrap
| BootstrapFailed
| BudgetBeforeProbe
| ProbeFailed
| NotTor.

(** A limit within the shared deadline. *)
Definition within (deadline : option Z) (limit now : Z) : Z :=
  match deadline with
  | None => limit
  | Some d => Z.min limit (Z.max 0 (d - now))
  end.

(** [timeout]: whether the work finished in its limit, and when it is over. *)
Definition timeout (limit now need : Z) : bool * Z :=
  if need <=? limit then (true, now + need) else (false, now + limit).

Section Verify.
Context `{JsonCrate}.
Context (bootstrap_timeout probe_timeout : Z).

(** The check of one bridge inside its own runtime. *)
Definition check_bridge (deadline : option Z) (now : Z) (c : check) : result Z Reason * Z :=
  if negb (create_ok c) then (Err CreateFailed, now)
  else
    let bootstrap_limit := within deadline bootstrap_timeout now in
    if bootstrap_limit =? 0 then (Err BudgetBeforeBootstrap, now)
    else
      let '(done, started) := timeout bootstrap_limit now (bootstrap c).1 in
      if negb (done && (bootstrap c).2) then (Err BootstrapFailed, started)
      else
        let probe_limit := within deadline probe_timeout started in
        if probe_limit =? 0 then (Err BudgetBeforeProbe, started)
        else
          let '(done, over) := timeout probe_limit started (probe c).1 in
          match done, (probe c).2 with
          | true, Some body => if confirms_tor body then (Ok (over - started), over) else (Err NotTor, over)
          | _, _ => (Err ProbeFailed, over)
          end.

(** One round of the loop: the report and the time after it. *)
Definition verify_one (deadline : option Z) (has_pt : bool) (now : Z) (b : BridgeLine) (c : check)
  : result Z Reason * Z :=
  if match deadline with Some d => d <=? now | None => false end then (Err Budget, now)
  else if match transport b with Some _ => negb has_pt | None => false end then (Err NoTransport, now)
  else if negb (mkdir_ok c) then (Err NoScratch, now)
  else if negb (runtime_ok c) then (Err NoRuntime, now + cleanup c)
  else
    let '(r, over) := check_bridge deadline (now + setup c) c in
    (r, over + Z.min (shutdown c) (within deadline VERIFY_RUNTIME_SHUTDOWN_GRACE over) + cleanup c).

Fixpoint verify_each (deadline : option Z) (has_pt : bool) (now : Z) (batch : list (BridgeLine * check))
  : list (BridgeLine * result Z Reason) * Z :=
  match batch with
  | [] => ([], now)
  | (b, c) :: batch' =>
      let '(r, over) := verify_one deadline has_pt now b c in
      let '(rest, last) := verify_each deadline has_pt over batch' in
      ((b, r) :: rest, last)
  end.

Definition POLL : Z := 10 * 1000000.

(** The wait for the verifier lock under a deadline: [free] says whether a
    try succeeds, [lag] how much longer than asked a sleep takes. *)
Fixpoint wait_for_lock (fuel : nat) (free : nat → bool) (lag : nat → Z) (deadline now : Z) (n : nat)
  : option (bool * Z) :=
  match fuel with
  | O => None
  | S fuel' =>
      if free n then Some (true, now)
      else
        let remaining := Z.max 0 (deadline - now) in
        if remaining =? 0 then Some (false, now)
        else wait_for_lock fuel' free lag deadline (now + Z.min remaining POLL + lag n) (S n)
  end.

(** The polls a wait can need. *)
Definition polls (deadline now : Z) : nat := S (S (Z.to_nat ((deadline - now) / POLL))).

(** What the whole batch meets: the lock, the snapshot of the cache, and each
    check. *)
Record world : Type := mkWorld {
  lock_free : nat → bool;
  lag : nat → Z;
  lock_wait : Z;
  snapshot : Z;
  checks : nat → check;
}.

Definition batch_of (w : world) (bridges : list BridgeLine) : list (BridgeLine * check) :=
  imap (fun i b => (b, checks w i)) bridges.

Definition verify_bridges_sequential (bridges : list BridgeLine) (has_pt : bool) (max_deadline : option Z)
  (now : Z) (w : world) : option (list (BridgeLine * result Z Reason) * Z) :=
  match
    match max_deadline with
    | Some d => wait_for_lock (polls d now) (lock_free w) (lag w) d now 0
    | None => Some (true, now + lock_wait w)
    end
  with
  | None => None
  | Some (false, now) => Some (map (fun b => (b, Err LockBudget)) bridges, now)
  | Some (true, now) => Some (verify_each max_deadline has_pt (now + snapshot w) (batch_of w bridges))
  end.
End Verify.

(** [admission_verification] and the decision of [verify_for_admission]: the
    worker's verdict, and what the caller sees of it at its deadline. *)
Definition admission_verification `{JsonCrate} (b : BridgeLine) (scratch_ok pt_ok : bool) (deadline now : Z)
  (w : world) : option (result bool unit * Z) :=
  if negb scratch_ok || negb pt_ok then Some (Err tt, now)
  else
    match verify_bridges_sequential CIRCUIT_VERIFY_BOOTSTRAP_TIMEOUT CIRCUIT_VERIFY_PROBE_TIMEOUT
            [b] true (Some deadline) now w with
    | None => None
    | Some (reports, over) =>
        Some (Ok (existsb (fun r => match r.2 with Ok _ => true | Err _ => false end) reports), over)
    end.

Definition verify_for_admission `{JsonCrate} (b : BridgeLine) (scratch_ok pt_ok : bool) (deadline now : Z)
  (w : world) : option bool :=
  match admission_verification b scratch_ok pt_ok deadline now w with
  | None => None
  | Some (verdict, over) =>
      if over <=? deadline then Some (match verdict with Ok v => v | Err _ => false end) else Some false
  end.

(** ** Verdicts *)

(** What a check needs to verify its bridge. *)
Definition passes `{JsonCrate} (bootstrap_timeout probe_timeout : Z) (has_pt : bool) (b : BridgeLine) (c : check)
  : bool :=
  match transport b with Some _ => has_pt | None => true end &&
  mkdir_ok c && runtime_ok c && create_ok c &&
  (bootstrap c).2 && ((bootstrap c).1 <=? bootstrap_timeout) && ((probe c).1 <=? probe_timeout) &&
  match (probe c).2 with Some body => confirms_tor body | None => false end.

Section Proofs.
Context `{JsonCrate} (bt pt : Z).

Lemma within_le deadline limit now : within deadline limit now ≤ limit.
Proof. destruct deadline; simpl; lia. Qed.

Lemma check_bridge_ok deadline now c d over :
  check_bridge bt pt deadline now c = (Ok d, over) →
  create_ok c = true ∧ (bootstrap c).2 = true ∧ (bootstrap c).1 ≤ bt ∧ d = (probe c).1 ∧ (probe c).1 ≤ pt ∧
  ∃ body, (probe c).2 = Some body ∧ confirms_tor body = true.
Proof.
  unfold check_bridge, timeout. destruct (create_ok c); [|done]. simpl.
  pose proof (within_le deadline bt now). case_match; [done|].
  destruct (Z.leb_spec (bootstrap c).1 (within deadline bt now)) as [Hb|Hb]; simpl; [|done].
  destruct ((bootstrap c).2); [|done]. simpl. pose proof (within_le deadline pt (now + (bootstrap c).1)).
  case_match; [done|].
  destruct (Z.leb_spec (probe c).1 (within deadline pt (now + (bootstrap c).1))) as [Hp|Hp]; [|done].
  destruct ((probe c).2) as [body|]; [|done]. destruct (confirms_tor body) eqn:Hc; [|done].
  intros [= <- <-]. split_and!; [done|done|lia|lia|lia|eauto].
Qed.

Lemma verify_one_ok deadline has_pt now b c d over :
  verify_one bt pt deadline has_pt now b c = (Ok d, over) → passes bt pt has_pt b c = true ∧ d = (probe c).1.
Proof.
  unfold verify_one, passes. intros Hv.
  destruct (match deadline with Some _ => _ | None => _ end); [done|].
  destruct (match transport b with Some _ => negb has_pt | None => false end) eqn:Ht; [done|].
  destruct (mkdir_ok c); [|done]. destruct (runtime_ok c); [|done]. simpl in Hv.
  destruct (check_bridge bt pt deadline (now + setup c) c) as [r o] eqn:Hc. injection Hv as -> _.
  destruct (check_bridge_ok _ _ _ _ _ Hc) as (-> & -> & Hb & -> & Hp & body & -> & ->).
  rewrite (proj2 (Z.leb_le _ _) Hb), (proj2 (Z.leb_le _ _) Hp). split; [|done].
  destruct (transport b); [|done]. by destruct has_pt.
Qed.

(** Without a deadline nothing but the check itself decides. *)
Lemma verify_one_passes has_pt now b c :
  0 < bt → 0 < pt → passes bt pt has_pt b c = true → ∃ over, verify_one bt pt None has_pt now b c = (Ok (probe c).1, over).
Proof.
  intros Hbt Hpt. unfold passes, verify_one, check_bridge, timeout. intros Hp. boolprop.
  destruct (probe c).2 as [body|]; [|done].
  assert (Ht : match transport b with Some _ => negb has_pt | None => false end = false).
  { destruct (transport b); [|done]. by destruct has_pt. }
  rewrite Ht. repeat match goal with Hq : _ = true |- _ => rewrite Hq; clear Hq end. simpl.
  rewrite (proj2 (Z.eqb_neq bt 0)), (proj2 (Z.eqb_neq pt 0)) by lia.
  rewrite (proj2 (Z.leb_le (bootstrap c).1 bt)), (proj2 (Z.leb_le (probe c).1 pt)) by done. simpl.
  eexists. f_equal. f_equal. lia.
Qed.

Lemma verify_each_fst deadline has_pt now batch :
  map fst (verify_each bt pt deadline has_pt now batch).1 = map fst batch.
Proof.
  revert now. induction batch as [|[b c] batch IH]; intros now; simpl; [done|].
  destruct (verify_one _ _ _ _ _ _ _) as [r over]. specialize (IH over).
  destruct (verify_each _ _ _ _ _ batch). simpl in *. by rewrite IH.
Qed.

(** Every report is the verdict of one round at some time. *)
Lemma verify_each_lookup deadline has_pt now batch i b r :
  (verify_each bt pt deadline has_pt now batch).1 !! i = Some (b, r) →
  ∃ c at_ over, batch !! i = Some (b, c) ∧ verify_one bt pt deadline has_pt at_ b c = (r, over).
Proof.
  revert now i. induction batch as [|[b' c] batch IH]; intros now i; simpl; [done|].
  destruct (verify_one _ _ _ _ _ _ _) as [r' over] eqn:Hv. specialize (IH over).
  destruct (verify_each _ _ _ _ _ batch) as [rest last]. destruct i as [|i]; simpl.
  - intros [= -> ->]. eauto.
  - apply IH.
Qed.

(** ** Time *)







Lemma wait_for_lock_ends fuel free lag d now n :
  (∀ k, 0 ≤ lag k) → (1 ≤ fuel)%nat → d - now ≤ (Z.of_nat fuel - 1) * POLL →
  ∃ got over, wait_for_lock fuel free lag d now n = Some (got, over) ∧
    ∀ lags, (∀ k, lag k ≤ lags) → over ≤ Z.max now (d + lags).
Proof.
  intros Hlag. revert now n. induction fuel as [|fuel IH]; intros now n Hf Hd; [lia|]. simpl.
  destruct (free n); [by exists true, now; split; [|lia]|].
  destruct (Z.eqb_spec (Z.max 0 (d - now)) 0) as [Hz|Hz]; [by exists false, now; split; [|lia]|].
  pose proof (Hlag n). unfold POLL in *.
  destruct (IH (now + Z.min (Z.max 0 (d - now)) (10 * 1000000) + lag n) (S n)) as (got & over & Hw & Ho); [nia|nia|].
  exists got, over. split; [done|]. intros lags Hl. specialize (Ho lags Hl). pose proof (Hl n). lia.
Qed.

Lemma polls_enough d now : d - now ≤ (Z.of_nat (polls d now) - 1) * POLL.
Proof.
  unfold polls, POLL. pose proof (Z.mul_succ_div_gt (d - now) (10 * 1000000)). 
  destruct (Z_lt_le_dec (d - now) 0); [lia|]. rewrite !Nat2Z.inj_succ, Z2Nat.id; [lia|].
  apply Z.div_pos; lia.
Qed.


Lemma batch_fst (w : world) bridges : map fst (batch_of w bridges) = bridges.
Proof.
  apply list_eq. intros i. unfold batch_of. change (map fst) with (fmap (M := list) (@fst BridgeLine check)).
  rewrite list_lookup_fmap, list_lookup_imap. by destruct (bridges !! i).
Qed.

(** The verdicts of the loop, whenever it starts. *)
Definition justified has_pt (deadline : option Z) bridges (w : world) (reports : list (BridgeLine * result Z Reason))
  : Prop :=
  map fst reports = bridges ∧
  (∀ i b d, reports !! i = Some (b, Ok d) → passes bt pt has_pt b (checks w i) = true) ∧
  (deadline = None → ∀ i b r, reports !! i = Some (b, r) →
     (∃ d, r = Ok d) ↔ passes bt pt has_pt b (checks w i) = true).

Lemma verify_each_justified has_pt deadline bridges w now :
  0 < bt → 0 < pt → justified has_pt deadline bridges w (verify_each bt pt deadline has_pt now (batch_of w bridges)).1.
Proof.
  intros Hbt Hpt. assert (Hone : ∀ i b r, (verify_each bt pt deadline has_pt now (batch_of w bridges)).1 !! i = Some (b, r) →
    ∃ at_ over, verify_one bt pt deadline has_pt at_ b (checks w i) = (r, over)).
  { intros i b r (c & at_ & over' & Hb & Hv)%verify_each_lookup.
    apply list_lookup_imap_Some in Hb as (b' & _ & [= -> ->]). eauto. }
  split; [by rewrite verify_each_fst, batch_fst|split].
  - intros i b d Hi. destruct (Hone _ _ _ Hi) as (at_ & over' & Hv). by eapply verify_one_ok.
  - intros -> i b r Hi. destruct (Hone _ _ _ Hi) as (at_ & over' & Hv). split.
    + intros [d ->]. by eapply verify_one_ok.
    + intros Hp. destruct (verify_one_passes has_pt at_ b (checks w i) Hbt Hpt Hp) as [o Ho].
      rewrite Ho in Hv. injection Hv as <- _. eauto.
Qed.

Lemma verify_returns bridges has_pt deadline now w :
  0 < bt → 0 < pt → (∀ k, 0 ≤ lag w k) →
  ∃ reports over, verify_bridges_sequential bt pt bridges has_pt deadline now w = Some (reports, over) ∧
    justified has_pt deadline bridges w reports.
Proof.
  intros Hbt Hpt Hlag. unfold verify_bridges_sequential.
  assert (Hrun : ∀ at_, ∃ reports over, Some (verify_each bt pt deadline has_pt at_ (batch_of w bridges)) = Some (reports, over) ∧
    justified has_pt deadline bridges w reports).
  { intros at_. eexists _, _. split; [by rewrite <-surjective_pairing|by apply verify_each_justified]. }
  destruct deadline as [d|]; [|apply Hrun].
  destruct (wait_for_lock_ends (polls d now) (lock_free w) (lag w) d now 0 Hlag) as ([] & over & -> & _);
    [unfold polls; lia|apply polls_enough|apply Hrun|].
  eexists _, _. split; [done|]. unfold justified. rewrite map_map, map_id. split; [done|split; [|done]].
  intros i b d'. change (map ?f) with (fmap (M := list) f). rewrite list_lookup_fmap. by destruct (bridges !! i).
Qed.
End Proofs.

(** ** The batch *)

(** a verification always returns and reports every bridge of its batch
    exactly once, in order; a bridge is reported as verified only if its check
    passed - its transport was available, the throwaway client bootstrapped in
    time and the canary confirmed Tor in time - and, without a shared deadline,
    exactly then. *)
Theorem verdicts_are_justified `{JsonCrate} bt pt bridges has_pt deadline now w :
  0 < bt → 0 < pt → (∀ k, 0 ≤ lag w k) →
  ∃ reports over, verify_bridges_sequential bt pt bridges has_pt deadline now w = Some (reports, over) ∧
    map fst reports = bridges ∧
    (∀ i b d, reports !! i = Some (b, Ok d) → passes bt pt has_pt b (checks w i) = true) ∧
    (deadline = None → ∀ i b r, reports !! i = Some (b, r) →
       (∃ d, r = Ok d) ↔ passes bt pt has_pt b (checks w i) = true).
Proof.
  intros Hbt Hpt Hlag. by apply verify_returns.
Qed.


(** An admission decision is positive only when the check passed, and its
    worker always ends. *)
Theorem admission_is_justified `{JsonCrate} b scratch_ok pt_ok deadline now w :
  (∀ k, 0 ≤ lag w k) →
  ∃ ok, verify_for_admission b scratch_ok pt_ok deadline now w = Some ok ∧
    (ok = true → passes CIRCUIT_VERIFY_BOOTSTRAP_TIMEOUT CIRCUIT_VERIFY_PROBE_TIMEOUT true b (checks w 0) = true).
Proof.
  intros Hlag. unfold verify_for_admission, admission_verification.
  destruct (negb scratch_ok || negb pt_ok); [case_match; by exists false|].
  destruct (verify_returns CIRCUIT_VERIFY_BOOTSTRAP_TIMEOUT CIRCUIT_VERIFY_PROBE_TIMEOUT [b] true (Some deadline) now w)
    as (reports & over & -> & Hf & Hok & _); [done..|].
  destruct (over <=? deadline); [|by exists false]. eexists. split; [done|].
  intros (r & Hin & Hr)%existsb_exists. apply list_elem_of_In, list_elem_of_lookup_1 in Hin as [i Hi].
  destruct r as [b' [d|]]; [|done].
  assert (Hb : map fst reports !! i = Some b') by (change (map ?f) with (fmap (M := list) f); by rewrite list_lookup_fmap, Hi).
  rewrite Hf in Hb. destruct i; [|done]. injection Hb as ->. by eapply Hok.
Qed.

(** ** The background tick *)

Section Tick.
Context `{UrlCrate, TlsCrate, TimeCrate, JsonCrate}.















(** ** The queue *)


















End Tick.

(** ** Reaping *)

Lemma elem_of_kill_targets children my_pid markers pid :
  pid ∈ kill_targets children my_pid markers ↔
  ∃ ppid name, (pid, ppid, name) ∈ children ∧ ppid = my_pid ∧ pid ≠ my_pid ∧ name ∈ markers.
Proof.
  unfold kill_targets. destruct markers as [|m markers]; simpl.
  { split; [by intros ?%elem_of_nil|]. intros (ppid & name & _ & _ & _ & Hn). by apply elem_of_nil in Hn. }
  rewrite list_elem_of_fmap. split.
  - intros ([[pid' ppid] name] & -> & Hin). apply list_elem_of_In, filter_In in Hin as [Hin Hc]. boolprop.
    apply list_elem_of_In in Hin. simpl. eauto 7.
  - intros (ppid & name & Hin & -> & Hne & Hn). exists (pid, my_pid, name). split; [done|].
    apply list_elem_of_In, filter_In. split; [by apply list_elem_of_In|].
    rewrite Z.eqb_refl, (proj2 (Z.eqb_neq pid my_pid) Hne), bool_decide_true by done. done.
Qed.

Definition registry (names : list str) : list str := fold_left register_kill_marker names [].

Lemma register_props markers name :
  NoDup markers → (length markers ≤ KILL_MARKERS_CAP)%nat →
  NoDup (register_kill_marker markers name) ∧ (length (register_kill_marker markers name) ≤ KILL_MARKERS_CAP)%nat ∧
  name ∈ register_kill_marker markers name ∧
  ∀ m, m ∈ register_kill_marker markers name → m = name ∨ m ∈ markers.
Proof.
  intros Hnd Hlen. unfold register_kill_marker. case_bool_decide as Hin; [split_and!; auto|].
  assert (Hnd' : NoDup (markers ++ [name])).
  { apply NoDup_app. split_and!; [done| |apply NoDup_singleton]. intros x Hx ->%list_elem_of_singleton. done. }
  assert (Hall : ∀ m, m ∈ markers ++ [name] → m = name ∨ m ∈ markers) by (intros m; set_solver).
  case_match eqn:Hcap; rewrite length_app in Hcap; simpl in Hcap; boolprop.
  - destruct markers as [|m0 markers]; [unfold KILL_MARKERS_CAP in Hcap; simpl in Hcap; lia|].
    simpl in *. apply NoDup_cons in Hnd' as [_ Hnd']. rewrite length_app. simpl.
    split_and!; [done|lia|set_solver|]. intros m Hm. apply Hall. by right.
  - rewrite length_app. simpl. split_and!; [done|lia|set_solver|done].
Qed.

Lemma registry_props names :
  NoDup (registry names) ∧ (length (registry names) ≤ KILL_MARKERS_CAP)%nat ∧
  (∀ m, m ∈ registry names → m ∈ names) ∧ ∀ m, last names = Some m → m ∈ registry names.
Proof.
  unfold registry. induction names as [|name names IH] using rev_ind.
  { simpl. split_and!; [constructor|unfold KILL_MARKERS_CAP; lia|done|done]. }
  rewrite fold_left_app. simpl. destruct IH as (Hnd & Hlen & Hsub & _).
  destruct (register_props _ name Hnd Hlen) as (Hnd' & Hlen' & Hin & Hall). split_and!; [done|done| |].
  - intros m [->|Hm]%Hall; [set_solver|]. apply elem_of_app. left. auto.
  - intros m Hm. rewrite last_snoc in Hm. by injection Hm as <-.
Qed.

(** however many markers a process has registered, it remembers at most
    128 of them and always the newest; and a sweep terminates exactly those of
    its own children whose executable carries a remembered marker, so never
    the process itself nor a child - such as a restarted transport of the main
    engine - whose name was never registered. *)
Theorem reaping_is_safe (names : list str) (children : list (Z * str)) (my_pid : Z) :
  (length (registry names) ≤ 128)%nat ∧
  (∀ m, last names = Some m → m ∈ registry names) ∧
  ∀ pid, pid ∈ kill_marked_children (registry names) children my_pid ↔
    pid ≠ my_pid ∧ ∃ exe m, (pid, exe) ∈ children ∧ m ∈ registry names ∧ m ∈ names ∧ eq_ignore_ascii_case exe m = true.
Proof.
  destruct (registry_props names) as (_ & Hlen & Hsub & Hlast). split; [done|]. split; [done|]. intros pid.
  assert (Hkill : kill_marked_children (registry names) children my_pid =
    kill_targets (map (fun c => (c.1, my_pid, to_ascii_lowercase c.2)) children) my_pid
      (map to_ascii_lowercase (registry names))).
  { unfold kill_marked_children, kill_targets. by destruct (is_empty (map to_ascii_lowercase (registry names))). }
  rewrite Hkill, elem_of_kill_targets. split.
  - intros (ppid & name & Hin & -> & Hne & Hm). split; [done|].
    apply list_elem_of_fmap in Hin as ([pid' exe] & [= -> ->] & Hin).
    apply list_elem_of_fmap in Hm as (m & Heq & Hm). exists exe, m. split_and!; [done|done|auto|].
    apply bool_decide_eq_true_2. done.
  - intros (Hne & exe & m & Hin & Hm & _ & Heq). apply bool_decide_eq_true_1 in Heq.
    exists my_pid, (to_ascii_lowercase exe). split_and!; [|done|done|].
    + apply list_elem_of_fmap. by exists (pid, exe).
    + apply list_elem_of_fmap. by exists m.
Qed.

(** A process environment as the kernel shows it: each variable ends in a
    NUL. *)
Definition render_environ (vars : list (str * str)) : str :=
  concat (map (fun kv : str * str => kv.1 ++ [61] ++ kv.2 ++ [0]) vars).

Definition var_ok (kv : str * str) : Prop := (61 ∉ kv.1) ∧ (0 ∉ kv.1) ∧ (0 ∉ kv.2).

(** The value a program sees: the first of the name. *)
Definition getenv (key : str) (vars : list (str * str)) : option str :=
  find_map (fun kv => if bool_decide (kv.1 = key) then Some kv.2 else None) vars.

Lemma not_nul (l : str) : 0 ∉ l → Forall (fun c => (0 =? c) = false) l.
Proof. intros Hl. apply Forall_forall. intros c Hc. apply Z.eqb_neq. intros <-. done. Qed.

Lemma environ_reads_back vars :
  Forall var_ok vars → environ_state_location (render_environ vars) = getenv STATE_LOCATION_KEY vars.
Proof.
  intros Hvars. unfold environ_state_location, getenv, render_environ, split_on.
  induction Hvars as [|[k v] vars (He & Hk & Hv) Hvars IH]; [done|]. cbn [map concat fst snd] in *.
  set (rest := concat (map (fun kv : str * str => kv.1 ++ [61] ++ kv.2 ++ [0]) vars)) in *.
  replace ((k ++ [61] ++ v ++ [0]) ++ rest) with ((k ++ [61] ++ v) ++ 0 :: rest) by (by rewrite <-!app_assoc).
  rewrite split_by_app; [|apply not_nul; rewrite !elem_of_app, list_elem_of_singleton; intros [?|[?|?]]; done|done].
  cbn [find_map]. rewrite IH, (proj2 (split_once_Some 61 (k ++ [61] ++ v) k v)) by done.
  cbn [fst snd]. by destruct (bool_decide (k = STATE_LOCATION_KEY)).
Qed.

(** the sweep of a check terminates a process exactly when it is an own
    child, neither the process itself nor pid 0, and its environment assigns
    the check's token to the state location - the whole value, by the first
    assignment of that name; without a token it terminates nothing. *)
Theorem ownership_is_exact (procs : list (Z * Z * list (str * str))) (my_pid : Z) (token : str) (pid : Z) :
  Forall (fun p => Forall var_ok p.2) procs →
  pid ∈ owned_process_targets (map (fun p => (p.1, environ_state_location (render_environ p.2))) procs) my_pid token ↔
  token ≠ [] ∧ pid ≠ my_pid ∧ pid ≠ 0 ∧
  ∃ vars, (pid, my_pid, vars) ∈ procs ∧ getenv STATE_LOCATION_KEY vars = Some token.
Proof.
  intros Hok. rewrite Forall_forall in Hok. unfold owned_process_targets. destruct token as [|x token]; simpl.
  { split; [by intros ?%elem_of_nil|]. by intros [? _]. }
  rewrite list_elem_of_fmap. split.
  - intros ([[pid' ppid] loc] & -> & Hin). apply list_elem_of_In, filter_In in Hin as [Hin Hc]. boolprop. subst.
    apply list_elem_of_In, list_elem_of_fmap in Hin as ([[? ?] vars] & [= -> -> Hloc] & Hin).
    rewrite environ_reads_back in Hloc; [|apply (Hok _ Hin)]. split_and!; [done..|]. eauto.
  - intros (_ & Hme & Hz & vars & Hin & Hget). exists (pid, my_pid, Some (x :: token)). split; [done|].
    apply list_elem_of_In, filter_In. split.
    + apply list_elem_of_In, list_elem_of_fmap. exists (pid, my_pid, vars). split; [|done]. simpl.
      rewrite environ_reads_back, Hget; [done|]. apply (Hok _ Hin).
    + rewrite Z.eqb_refl, (proj2 (Z.eqb_neq pid my_pid)), (proj2 (Z.eqb_neq pid 0)), bool_decide_true by done. done.
Qed.

(** ** Runs *)

Section Samples.
#[local] Existing Instance sample_url.
#[local] Existing Instance sample_tls.
#[local] Existing Instance sample_time.

Definition sample_json : JsonCrate := {|
  json_bool body _ := if starts_with (lit "tor") body then Some true else None
|}.
#[local] Existing Instance sample_json.

Definition good_check : check := mkCheck true true 5 true (100, true) (200, Some (lit "tor")) 1 1.
Definition slow_check : check := mkCheck true true 5 true (from_secs 70, true) (200, Some (lit "tor")) 1 1.

(** The first two checks are slow, the lock is free at the third try. *)
Definition sample_world : world :=
  mkWorld (fun n => (2 <=? n)%nat) (fun _ => 3) 0 10 (fun i => if (i <? 2)%nat then slow_check else good_check).

Lemma verdicts_are_justified_witness :
  ∃ reports over,
    verify_bridges_sequential (from_secs 60) (from_secs 90) [plain_bridge; obfs4_bridge; plain_bridge] false None 0 sample_world =
      Some (reports, over) ∧
    map fst reports = [plain_bridge; obfs4_bridge; plain_bridge].
Proof.
  destruct (verdicts_are_justified (from_secs 60) (from_secs 90) [plain_bridge; obfs4_bridge; plain_bridge] false None 0 sample_world)
    as (reports & over & Hrun & Hfst & _); [done|done|intros k; simpl; lia|]. by exists reports, over.
Defined.










Lemma ownership_is_exact_witness :
  owned_process_targets (map (fun p => (p.1, environ_state_location (render_environ p.2)))
    [(80, 7, [(lit "HOME", lit "/x"); (STATE_LOCATION_KEY, lit "/a")]); (81, 7, [(STATE_LOCATION_KEY, lit "/a2")])])
    7 (lit "/a") = [80] ∧
  80 ∈ owned_process_targets (map (fun p => (p.1, environ_state_location (render_environ p.2)))
    [(80, 7, [(lit "HOME", lit "/x"); (STATE_LOCATION_KEY, lit "/a")]); (81, 7, [(STATE_LOCATION_KEY, lit "/a2")])])
    7 (lit "/a").
Proof.
  split; [vm_compute; reflexivity|]. apply ownership_is_exact.
  - repeat (apply Forall_cons; split); try apply Forall_nil_2; simpl;
      repeat (apply Forall_cons; split); try apply Forall_nil_2; split_and!;
      apply (bool_decide_unpack _); vm_compute; exact I.
  - split_and!; [done|done|done|]. eexists. split; [left|vm_compute; reflexivity].
Defined.
End Samples.
End Verifier.
