(* ===== verification/DnsOverrides.v ===== *)
(** * DNS overrides

    [packages/dns-server/src/overrides/overrides.rs]: the host-name glob, the
    first-match lookup of an override and the guard that keeps an override
    from pointing at the server's own listeners. *)

From S2P Require Import Prelude Order Str Utf8 Net NetText.
Open Scope Z_scope.

Module DnsOverrides.

Inductive OverrideResolver : Type :=
| System
| Dns (server : socket_addr).

Record DnsOverride : Type := mkOverride {
  pattern : str;
  resolver : OverrideResolver;
}.

(** ** The glob *)

(** The final loop: skip the stars left in the pattern. *)
Fixpoint skip_stars (fuel : nat) (p : list Z) (pi : nat) : nat :=
  match fuel with
  | O => pi
  | S fuel' =>
      match p !! pi with
      | Some c => if c =? 42 then skip_stars fuel' p (S pi) else pi
      | None => pi
      end
  end.

(** The main loop over pattern and host bytes; [None] when the fuel is
    exhausted. *)
Fixpoint match_loop (fuel : nat) (p h : list Z) (pi hi : nat) (star : option nat) (start : nat)
  : option bool :=
  match fuel with
  | O => None
  | S fuel' =>
      match h !! hi with
      | None => Some (skip_stars (length p) p pi =? length p)%nat
      | Some x =>
          let mismatch :=
            match star with
            | Some s => match_loop fuel' p h (S s) (S start) star (S start)
            | None => Some false
            end in
          match p !! pi with
          | Some c =>
              if c =? 42 then match_loop fuel' p h (S pi) hi (Some pi) hi
              else if c =? x then match_loop fuel' p h (S pi) (S hi) star start
              else mismatch
          | None => mismatch
          end
      end
  end.

(** Iterations of the main loop: per star of the pattern and per host byte the
    star is extended over, at most one pass over the pattern. *)
Definition match_fuel (p h : list Z) : nat := (length p + 2) * (length h + 1) * (length p + 1).

Definition folded (s : str) : list Z := as_bytes (to_ascii_lowercase s).

Definition matches (pattern host : str) : option bool :=
  match_loop (match_fuel (folded pattern) (folded host)) (folded pattern) (folded host) 0 0 None 0.

Definition matchesb (pattern host : str) : bool := default false (matches pattern host).

Definition find_override (overrides : list DnsOverride) (host : str) : option DnsOverride :=
  List.find (fun o => matchesb (pattern o) host) overrides.

(** ** The recursion guard *)

Definition canonical_ip (a : ip_addr) : ip_addr :=
  match a with
  | V6 b => match to_ipv4_mapped b with Some v4 => V4 v4 | None => a end
  | V4 _ => a
  end.

Definition is_unspecified (a : ip_addr) : bool :=
  match a with V4 b => b =? 0 | V6 b => b =? 0 end.
Definition is_loopback (a : ip_addr) : bool :=
  match a with V4 b => v4_is_loopback b | V6 b => v6_is_loopback b end.
Definition is_ipv4 (a : ip_addr) : bool := match a with V4 _ => true | V6 _ => false end.

Definition self_reference (server : socket_addr) (listeners : list socket_addr)
  (route_local : ip_addr) : bool :=
  let target := canonical_ip (ip server) in
  let local := canonical_ip route_local in
  existsb (fun listener =>
    if negb (port listener =? port server) then false
    else
      let bound := canonical_ip (ip listener) in
      bool_decide (bound = target)
      || (is_unspecified bound
          && (is_unspecified target || is_loopback target || bool_decide (target = local))
          && eqb (is_ipv4 bound) (is_ipv4 target))) listeners.

(** ** Specification of the glob *)

Inductive glob : list Z → list Z → Prop :=
| glob_nil : glob [] []
| glob_char c p h : c ≠ 42 → glob p h → glob (c :: p) (c :: h)
| glob_star_none p h : glob p h → glob (42 :: p) h
| glob_star_one p x h : glob (42 :: p) h → glob (42 :: p) (x :: h).

Lemma glob_star_app p u h : glob (42 :: p) h → glob (42 :: p) (u ++ h).
Proof. intros Hg. induction u; simpl; [done|by constructor]. Qed.

Lemma glob_star_inv p h : glob (42 :: p) h → ∃ u t, h = u ++ t ∧ glob p t.
Proof.
  intros Hg. remember (42 :: p) as q eqn:Hq. induction Hg as [|c q h Hc Hg IH|q h Hg IH|q x h Hg IH].
  - done.
  - by simplify_eq.
  - simplify_eq. by exists [], h.
  - destruct (IH Hq) as (u & t & -> & Ht). by exists (x :: u), t.
Qed.

Lemma glob_literal seg q h :
  Forall (fun c => c ≠ 42) seg → glob (seg ++ q) h → ∃ t, h = seg ++ t ∧ glob q t.
Proof.
  intros Hseg. revert h. induction Hseg as [|c seg Hc Hseg IH]; intros h Hg; [by exists h|].
  simpl in Hg. inversion Hg; subst; try done.
  match goal with H : glob (seg ++ q) _ |- _ => destruct (IH _ H) as (t & -> & Ht) end.
  by exists t.
Qed.

Lemma glob_literal_2 seg q t :
  Forall (fun c => c ≠ 42) seg → glob q t → glob (seg ++ q) (seg ++ t).
Proof. intros Hseg Ht. induction Hseg; simpl; [done|by constructor]. Qed.

(** After its literal text matched, a star can be forgotten at the next one:
    the earliest place of the text leaves most to the stars that follow. *)
Lemma glob_forget_star seg q t :
  Forall (fun c => c ≠ 42) seg →
  glob (42 :: seg ++ 42 :: q) (seg ++ t) ↔ glob (42 :: q) t.
Proof.
  intros Hseg. split.
  - intros (u & t' & Heq & Hg)%glob_star_inv.
    destruct (glob_literal _ _ _ Hseg Hg) as (t2 & -> & Hg2).
    assert (∃ w, t = w ++ t2) as [w ->]; [|by apply glob_star_app].
    exists (drop (length seg) (u ++ seg)). apply (f_equal (drop (length seg))) in Heq.
    rewrite drop_app_length in Heq. rewrite Heq, app_assoc, drop_app_le by (rewrite length_app; lia).
    done.
  - intros Hg. apply glob_star_none. by apply glob_literal_2.
Qed.

Lemma glob_end_star seg q :
  Forall (fun c => c ≠ 42) seg → glob (42 :: seg ++ q) seg ↔ glob q [].
Proof.
  intros Hseg. split.
  - intros (u & t & Heq & Hg)%glob_star_inv.
    destruct (glob_literal _ _ _ Hseg Hg) as (t2 & -> & Hg2).
    apply (f_equal length) in Heq. rewrite !length_app in Heq.
    assert (t2 = []) as -> by (apply nil_length_inv; lia). done.
  - intros Hg. apply glob_star_none. rewrite <-(app_nil_r seg) at 2. by apply glob_literal_2.
Qed.

Lemma glob_nil_stars q : glob q [] ↔ Forall (fun c => c = 42) q.
Proof.
  split.
  - intros Hg. remember [] as h eqn:Hh. induction Hg; simplify_eq; constructor; auto.
  - induction 1; [constructor|subst; by constructor].
Qed.

Lemma glob_char_inv c p x h : c ≠ 42 → glob (c :: p) (x :: h) ↔ c = x ∧ glob p h.
Proof.
  intros Hc. split; [intros Hg; by inversion Hg; subst|]. intros [<- Hg]. by constructor.
Qed.

(** The pattern cannot take the next host byte without a star. *)
Definition stuck (q : list Z) (x : Z) : Prop :=
  match q with [] => True | c :: _ => c ≠ 42 ∧ c ≠ x end.

Lemma stuck_glob q x h : stuck q x → ¬ glob q (x :: h).
Proof.
  destruct q as [|c q]; simpl; [intros _ Hg; by inversion Hg|].
  intros [Hc Hx] [? _]%glob_char_inv; [|done]. congruence.
Qed.

(** Extending the star past a failed attempt. *)
Lemma glob_extend_star seg q x y h tl :
  Forall (fun c => c ≠ 42) seg → stuck q x → seg ++ x :: h = y :: tl →
  glob (42 :: seg ++ q) (seg ++ x :: h) ↔ glob (42 :: seg ++ q) tl.
Proof.
  intros Hseg Hst Heq. split; [|rewrite Heq; by constructor]. intros Hg. rewrite Heq in Hg.
  inversion Hg as [|c' p' h' Hc' Hg'|p' h' Hg'|p' x' h' Hg']; subst; [done| |done].
  rewrite <-Heq in Hg'.
  destruct (glob_literal _ _ _ Hseg Hg') as (t & Ht & Hgt). apply app_inv_head in Ht as <-.
  by apply stuck_glob in Hgt.
Qed.

Lemma skip_stars_spec n p pi :
  (length p - pi ≤ n)%nat → (pi ≤ length p)%nat →
  (skip_stars n p pi =? length p)%nat = true ↔ Forall (fun c => c = 42) (drop pi p).
Proof.
  revert pi. induction n as [|n IH]; intros pi Hn Hp; simpl.
  { rewrite drop_ge by lia. rewrite Nat.eqb_eq. split; [constructor|lia]. }
  destruct (p !! pi) as [c|] eqn:Hc.
  - pose proof (lookup_lt_Some _ _ _ Hc). rewrite (drop_S p c pi Hc), Forall_cons.
    destruct (Z.eqb_spec c 42) as [->|Hne]; [rewrite IH by lia; tauto|].
    rewrite Nat.eqb_eq. split; [lia|]. by intros [? _].
  - apply lookup_ge_None in Hc. rewrite drop_ge by lia. rewrite Nat.eqb_eq. split; [constructor|lia].
Qed.

(** ** Correctness of the loop *)

Record loop_inv (p h : list Z) (pi hi : nat) (star : option nat) (start : nat) : Prop := {
  inv_pi : (pi ≤ length p)%nat;
  inv_hi : (start ≤ hi ≤ length h)%nat;
  inv_glob :
    match star with
    | None => glob p h ↔ glob (drop pi p) (drop hi h)
    | Some s =>
        ∃ seg, Forall (fun c => c ≠ 42) seg ∧ drop (S s) p = seg ++ drop pi p ∧
          drop start h = seg ++ drop hi h ∧ (s < pi)%nat ∧
          (glob p h ↔ glob (42 :: seg ++ drop pi p) (seg ++ drop hi h))
    end;
}.

Definition measure (p h : list Z) (pi : nat) (star : option nat) (start : nat) : nat :=
  let stars := match star with None => S (length p) | Some s => (length p - s)%nat end in
  (stars * ((length h + 1) * (length p + 1)) + (length h - start) * (length p + 1) + (length p - pi))%nat.

Lemma inv_star p h pi hi star start :
  loop_inv p h pi hi star start → p !! pi = Some 42 → (hi < length h)%nat →
  loop_inv p h (S pi) hi (Some pi) hi ∧
  (measure p h (S pi) (Some pi) hi < measure p h pi star start)%nat.
Proof.
  intros [Hpi Hhi Hg] Hc Hlt. pose proof (lookup_lt_Some _ _ _ Hc) as Hp.
  pose proof (drop_S p 42 pi Hc) as Hd. split.
  - split; [lia|lia|]. exists []. split_and!; [constructor|done|done|lia|]. simpl.
    destruct star as [s|]; [|by rewrite <-Hd].
    destruct Hg as (seg & Hseg & _ & _ & _ & Hg). rewrite Hg, Hd. by apply glob_forget_star.
  - unfold measure. assert (length p - pi + 1 ≤ match star with None => S (length p) | Some s => length p - s end)%nat.
    { destruct star as [s|]; [|lia]. destruct Hg as (_ & _ & _ & _ & Hs & _). lia. }
    nia.
Qed.

Lemma inv_char p h pi hi star start x :
  loop_inv p h pi hi star start → p !! pi = Some x → x ≠ 42 → h !! hi = Some x →
  loop_inv p h (S pi) (S hi) star start ∧
  (measure p h (S pi) star start < measure p h pi star start)%nat.
Proof.
  intros [Hpi Hhi Hg] Hc Hne Hx. pose proof (lookup_lt_Some _ _ _ Hc) as Hp.
  pose proof (lookup_lt_Some _ _ _ Hx) as Hh.
  rewrite (drop_S p x pi Hc), (drop_S h x hi Hx) in Hg. split; [|unfold measure; lia].
  split; [lia|lia|]. destruct star as [s|].
  - destruct Hg as (seg & Hseg & Hd1 & Hd2 & Hs & Hg). exists (seg ++ [x]). rewrite <-!app_assoc.
    split_and!; [|done|done|lia|done]. apply Forall_app. by split; [|constructor].
  - rewrite Hg, glob_char_inv by done. tauto.
Qed.

Lemma inv_mismatch p h pi hi s start x :
  loop_inv p h pi hi (Some s) start → h !! hi = Some x → stuck (drop pi p) x →
  loop_inv p h (S s) (S start) (Some s) (S start) ∧
  (measure p h (S s) (Some s) (S start) < measure p h pi (Some s) start)%nat.
Proof.
  intros [Hpi Hhi Hg] Hx Hst. destruct Hg as (seg & Hseg & Hd1 & Hd2 & Hs & Hg).
  pose proof (lookup_lt_Some _ _ _ Hx) as Hh. pose proof (drop_S h x hi Hx) as Hdh.
  rewrite Hdh in Hd2, Hg. split; [|unfold measure; nia].
  split; [lia|lia|]. exists []. split_and!; [constructor|done|done|lia|]. simpl.
  destruct (lookup_lt_is_Some_2 h start) as [y Hy]; [lia|].
  pose proof (drop_S h y start Hy) as Hds. rewrite Hds in Hd2.
  rewrite Hg, Hd1. by apply (glob_extend_star seg _ x y).
Qed.

Lemma match_loop_correct fuel p h pi hi star start :
  loop_inv p h pi hi star start → (measure p h pi star start < fuel)%nat →
  ∃ b, match_loop fuel p h pi hi star start = Some b ∧ (b = true ↔ glob p h).
Proof.
  revert pi hi star start. induction fuel as [|fuel IH]; intros pi hi star start Hinv Hm; [lia|].
  cbn [match_loop]. pose proof Hinv as [Hpi Hhi Hg]. destruct (h !! hi) as [x|] eqn:Hx.
  - pose proof (lookup_lt_Some _ _ _ Hx) as Hlt.
    assert (stuck (drop pi p) x → ∃ b, match star with
      | Some s => match_loop fuel p h (S s) (S start) star (S start)
      | None => Some false end = Some b ∧ (b = true ↔ glob p h)) as Hmis.
    { intros Hst. destruct star as [s|].
      - destruct (inv_mismatch _ _ _ _ _ _ _ Hinv Hx Hst) as [Hinv' Hm']. apply IH; [done|lia].
      - exists false. split; [done|]. rewrite Hg, (drop_S h x hi Hx). split; [done|].
        intros Hgl. by apply stuck_glob in Hgl. }
    destruct (p !! pi) as [c|] eqn:Hc.
    + destruct (Z.eqb_spec c 42) as [->|Hne].
      { destruct (inv_star _ _ _ _ _ _ Hinv Hc Hlt) as [Hinv' Hm']. apply IH; [done|lia]. }
      destruct (Z.eqb_spec c x) as [->|Hcx].
      { destruct (inv_char _ _ _ _ _ _ _ Hinv Hc Hne Hx) as [Hinv' Hm']. apply IH; [done|lia]. }
      apply Hmis. by rewrite (drop_S p c pi Hc).
    + apply Hmis. apply lookup_ge_None in Hc. by rewrite drop_ge.
  - apply lookup_ge_None in Hx. eexists. split; [done|].
    rewrite skip_stars_spec by lia. rewrite <-glob_nil_stars.
    assert (drop hi h = []) as Hd by (apply drop_ge; lia). destruct star as [s|].
    + destruct Hg as (seg & Hseg & _ & _ & _ & Hg). rewrite Hg, Hd, app_nil_r.
      symmetry. by apply glob_end_star.
    + by rewrite Hg, Hd.
Qed.

Lemma matches_total pattern host :
  ∃ b, matches pattern host = Some b ∧ (b = true ↔ glob (folded pattern) (folded host)).
Proof.
  apply match_loop_correct; [|unfold measure, match_fuel; lia].
  split; [lia|lia|]. by rewrite !drop_0.
Qed.

(** ** Properties *)

(** host matching terminates and decides the glob: the backtracking walk
    answers exactly whether the host is the pattern with each star replaced by
    some run of bytes, without regard to ASCII case. *)
Theorem matches_decides_glob (pattern host : str) :
  ∃ b, matches pattern host = Some b ∧ (b = true ↔ glob (folded pattern) (folded host)).
Proof. apply matches_total. Qed.

Lemma matchesb_glob pattern host : matchesb pattern host = true ↔ glob (folded pattern) (folded host).
Proof. unfold matchesb. destruct (matches_total pattern host) as (b & -> & Hb). done. Qed.

(** the override of a host is the first of the list whose pattern globs
    the host, and there is none only when no pattern does. *)
Theorem find_override_is_first (overrides : list DnsOverride) (host : str) :
  match find_override overrides host with
  | Some o => ∃ pre post, overrides = pre ++ o :: post ∧
      glob (folded (pattern o)) (folded host) ∧
      Forall (fun o' => ¬ glob (folded (pattern o')) (folded host)) pre
  | None => Forall (fun o => ¬ glob (folded (pattern o)) (folded host)) overrides
  end.
Proof.
  unfold find_override. induction overrides as [|o os IH]; simpl; [constructor|].
  pose proof (matchesb_glob (pattern o) host) as Hm.
  destruct (matchesb (pattern o) host).
  - exists [], os. split_and!; [done|by apply Hm|constructor].
  - assert (¬ glob (folded (pattern o)) (folded host)) as Hn by (rewrite <-Hm; done).
    destruct (List.find _ os) as [o'|]; [|by constructor].
    destruct IH as (pre & post & -> & Hg & Hpre). exists (o :: pre), post.
    split_and!; [done|done|by constructor].
Qed.
End DnsOverrides.
