(* ===== verification/DnsPacket.v ===== *)
(** * DNS packets and their lifetime

    [packages/dns-server/src/doh/types.rs]: how long a response may be cached,
    the terminal name of its CNAME chain, and the normalisation of the SOA of
    a negative answer (RFC 2308).  Packets are those of [hickory_proto], by
    their public fields; its operations on names are parameters. *)

From S2P Require Import Prelude Str.
From stdpp Require Import countable.
Open Scope Z_scope.

(** ** [hickory_proto] *)

(** [eq_ignore_root] compares names but for the final dot, [zone_of a b] says
    that [b] is [a] or below it. *)
Class NameCrate : Type := {
  Name : Type;
  name_eq_dec :: EqDecision Name;
  name_countable :: Countable Name;
  eq_ignore_root : Name → Name → bool;
  zone_of : Name → Name → bool;
  is_fqdn : Name → bool;
  set_fqdn : Name → Name;
}.

(** Names equal but for the root form an equivalence, making a name absolute
    changes nothing else, and absolute names that are equal but for the root
    are equal. *)
Class NameLaws `{NameCrate} : Prop := {
  eq_ignore_root_equiv :: Equivalence (fun a b => eq_ignore_root a b = true);
  set_fqdn_is_fqdn : ∀ n, is_fqdn (set_fqdn n) = true;
  set_fqdn_same : ∀ n, eq_ignore_root (set_fqdn n) n = true;
  set_fqdn_id : ∀ n, is_fqdn n = true → set_fqdn n = n;
  fqdn_eq : ∀ a b, is_fqdn a = true → is_fqdn b = true → eq_ignore_root a b = true → a = b;
}.

Module DnsPacket.
Section Packet.
Context `{NameCrate}.

(** Record types and classes by their codes. *)
Definition TYPE_A : Z := 1.
Definition TYPE_AAAA : Z := 28.
Definition TYPE_PTR : Z := 12.
Definition TYPE_CNAME : Z := 5.
Definition TYPE_SOA : Z := 6.
Definition TYPE_OPT : Z := 41.
Definition TYPE_ANY : Z := 255.

Inductive RData : Type :=
| CNAME (target : Name)
| SOA (minimum : Z)
| Addr4 (bits : Z)
| Addr6 (bits : Z)
| PTR (target : Name)
| OtherData (type_code : Z) (rdata : list Z).

Record RR : Type := mkRR { rr_name : Name; dns_class : Z; ttl : Z; data : RData }.

Definition record_type (r : RR) : Z :=
  match data r with
  | CNAME _ => TYPE_CNAME
  | SOA _ => TYPE_SOA
  | Addr4 _ => TYPE_A
  | Addr6 _ => TYPE_AAAA
  | PTR _ => TYPE_PTR
  | OtherData t _ => t
  end.

Record Query : Type := mkQuery { q_name : Name; query_type : Z; query_class : Z }.

#[export] Instance query_eq_dec : EqDecision Query.
Proof. solve_decision. Defined.
#[export] Instance query_countable : Countable Query.
Proof.
  refine (inj_countable' (fun q => (q_name q, query_type q, query_class q)) (fun x => mkQuery x.1.1 x.1.2 x.2) _).
  by intros [].
Defined.

Inductive ResponseCode : Type := NoError | NXDomain | OtherCode (code : Z).

(** The header; operation codes by their numbers, [QUERY] is 0. *)
Record Metadata : Type := mkMeta {
  id : Z;
  is_response_type : bool;
  op_code : Z;
  authoritative : bool;
  truncated : bool;
  recursion_desired : bool;
  recursion_available : bool;
  authentic_data : bool;
  checking_disabled : bool;
  rcode : ResponseCode;
}.

(** [signed] and [has_edns] say whether a signature and an EDNS record are
    there; the code only ever removes them. *)
Record Message : Type := mkMessage {
  metadata : Metadata;
  signed : bool;
  has_edns : bool;
  queries : list Query;
  answers : list RR;
  authorities : list RR;
  additionals : list RR;
}.

Definition is_response (m : Message) : bool := is_response_type (metadata m).
Definition is_query_opcode (m : Message) : bool := op_code (metadata m) =? 0.
Definition truncation (m : Message) : bool := truncated (metadata m).
Definition response_code (m : Message) : ResponseCode := rcode (metadata m).

Record ResolvedAnswer : Type := mkAnswer {
  message : Message;
  answer_ttl : Z;
  resolved_at : Z;
}.

(** ** The terminal name *)

(** The requested record exists at [n]. *)
Definition answers_at (q : Query) (rrs : list RR) (n : Name) : bool :=
  existsb (fun r => eq_ignore_root (rr_name r) n && (dns_class r =? query_class q) &&
    ((record_type r =? query_type q) ||
     (query_type q =? TYPE_ANY) && negb (record_type r =? TYPE_OPT))) rrs.

(** The target of the first CNAME at [n]. *)
Fixpoint alias_of (q : Query) (rrs : list RR) (n : Name) : option Name :=
  match rrs with
  | [] => None
  | r :: rrs' =>
      if eq_ignore_root (rr_name r) n && (dns_class r =? query_class q) then
        match data r with
        | CNAME target => Some target
        | _ => alias_of q rrs' n
        end
      else alias_of q rrs' n
  end.

Fixpoint follow (fuel : nat) (q : Query) (rrs : list RR) (terminal : Name) : option (Name * bool) :=
  match fuel with
  | O => None
  | S fuel' =>
      if answers_at q rrs terminal then Some (terminal, true)
      else match alias_of q rrs terminal with
           | Some target => follow fuel' q rrs target
           | None => Some (terminal, false)
           end
  end.

(** The loop runs [0..=answers.len()] times. *)
Definition terminal_answer (q : Query) (rrs : list RR) : option (Name * bool) :=
  follow (S (length rrs)) q rrs (q_name q).

(** ** The lifetime *)

Definition same_question (a b : Query) : bool :=
  eq_ignore_root (q_name a) (q_name b) && (query_type a =? query_type b) &&
  (query_class a =? query_class b).

Fixpoint list_min (l : list Z) : option Z :=
  match l with
  | [] => None
  | x :: l' => match list_min l' with Some m => Some (Z.min x m) | None => Some x end
  end.

Definition all_records (m : Message) : list RR := answers m ++ authorities m ++ additionals m.

Definition ordinary (r : RR) : bool := negb (record_type r =? TYPE_OPT).

(** The negative lifetime a record of the authority section gives. *)
Definition soa_ttl (q : Query) (terminal : Name) (r : RR) : option Z :=
  if (dns_class r =? query_class q) && zone_of (rr_name r) terminal then
    match data r with SOA minimum => Some (Z.min (ttl r) minimum) | _ => None end
  else None.

Definition cacheable_header (q : Query) (m : Message) : bool :=
  is_response m && is_query_opcode m && negb (truncation m) && negb (signed m) &&
  match queries m with [q'] => same_question q' q | _ => false end.

(** Seconds; the code returns them as a duration. *)
Definition cache_ttl (q : Query) (m : Message) : option Z :=
  if negb (cacheable_header q m) then None
  else match response_code m with
  | OtherCode _ => None
  | rcode =>
      match terminal_answer q (answers m) with
      | None => None
      | Some (terminal, positive) =>
          if positive && match rcode with NXDomain => true | _ => false end then None
          else
            match (if positive then Some None
                   else match list_min (omap (soa_ttl q terminal) (authorities m)) with
                        | Some n => Some (Some n)
                        | None => None
                        end) with
            | None => None
            | Some negative_ttl =>
                match list_min (map ttl (List.filter ordinary (all_records m))) with
                | None => None
                | Some ordinary_ttl =>
                    let t := match negative_ttl with
                             | Some n => Z.min n ordinary_ttl
                             | None => ordinary_ttl
                             end in
                    if t =? 0 then None else Some t
                end
            end
      end
  end.

(** [normalize_negative_soa_ttl]. *)
Definition normalize_negative_soa_ttl (q : Query) (m : Message) : Message :=
  if truncation m || signed m then m
  else match response_code m with
  | OtherCode _ => m
  | _ =>
      match terminal_answer q (answers m) with
      | Some (terminal, false) =>
          mkMessage (metadata m) (signed m) (has_edns m) (queries m) (answers m)
            (map (fun r => match soa_ttl q terminal r with
                           | Some t => mkRR (rr_name r) (dns_class r) t (data r)
                           | None => r
                           end) (authorities m))
            (additionals m)
      | _ => m
      end
  end.

(** ** The chain is followed to its end *)

(** One more hop, if the chain goes on. *)
Definition hop (q : Query) (rrs : list RR) (n : Name) : option Name :=
  if answers_at q rrs n then None else alias_of q rrs n.

Fixpoint hops (k : nat) (q : Query) (rrs : list RR) (n : Name) : option Name :=
  match k with
  | O => Some n
  | S k' => match hop q rrs n with Some n' => hops k' q rrs n' | None => None end
  end.

Definition targets (rrs : list RR) : list Name :=
  omap (fun r => match data r with CNAME t => Some t | _ => None end) rrs.

Lemma hop_target q rrs n n' : hop q rrs n = Some n' → n' ∈ targets rrs.
Proof.
  unfold hop. destruct (answers_at q rrs n); [done|]. induction rrs as [|r rrs IH]; [done|].
  cbn [alias_of]. unfold targets. cbn [omap list_omap].
  destruct (eq_ignore_root (rr_name r) n && _); destruct (data r); simpl; rewrite ?elem_of_cons; auto.
  intros [= ->]. by left.
Qed.

Lemma hops_add a b q rrs n :
  hops (a + b) q rrs n = match hops a q rrs n with Some n' => hops b q rrs n' | None => None end.
Proof.
  revert n. induction a as [|a IH]; intros n; [done|]. simpl. destruct (hop q rrs n); [apply IH|done].
Qed.

Lemma follow_hops fuel q rrs n : follow fuel q rrs n = None ↔ is_Some (hops fuel q rrs n).
Proof.
  revert n. induction fuel as [|fuel IH]; intros n; simpl; [by eauto|]. unfold hop.
  destruct (answers_at q rrs n); [split; [done|by intros []]|].
  destruct (alias_of q rrs n) as [t|]; [apply IH|split; [done|by intros []]].
Qed.

Lemma hops_le a b q rrs n : (a ≤ b)%nat → is_Some (hops b q rrs n) → is_Some (hops a q rrs n).
Proof.
  intros Hab. replace b with (a + (b - a))%nat by lia. rewrite hops_add.
  destruct (hops a q rrs n); [by eauto|by intros []].
Qed.

Lemma hops_S_target k q rrs n n' : hops (S k) q rrs n = Some n' → n' ∈ targets rrs.
Proof.
  replace (S k) with (k + 1)%nat by lia. rewrite hops_add. destruct (hops k q rrs n) as [m|]; [|done].
  simpl. destruct (hop q rrs m) as [t|] eqn:Ht; [|done]. intros [= <-]. by eapply hop_target.
Qed.

Lemma targets_length rrs : (length (targets rrs) ≤ length rrs)%nat.
Proof.
  induction rrs as [|r rrs IH]; [done|]. unfold targets in *. cbn [omap list_omap length].
  destruct (data r); cbn [length]; lia.
Qed.

(** A chain that ends does not visit a target twice. *)
Lemma ending_chain_is_short q rrs n m :
  is_Some (hops m q rrs n) → hops (S m) q rrs n = None → (m ≤ length rrs)%nat.
Proof.
  intros Hm Hend.
  set (f := fun i => default n (hops i q rrs n)).
  assert (Hf : ∀ i, (i ≤ m)%nat → hops i q rrs n = Some (f i)).
  { intros i Hi. destruct (hops_le i m q rrs n Hi Hm) as [x Hx]. unfold f. by rewrite Hx. }
  assert (Hnd : NoDup (f <$> seq 1 m)).
  { apply NoDup_fmap_2_strong; [|apply NoDup_seq].
    intros a b Ha Hb Heq. apply elem_of_seq in Ha, Hb.
    assert (Hlt : ∀ a b, (1 ≤ a)%nat → (a < b ≤ m)%nat → f a ≠ f b).
    { clear a b Ha Hb Heq. intros a b Ha Hb Heq.
      assert (Hc : hops (S m) q rrs n = hops (a + (S m - b)) q rrs n).
      { replace (S m) with (b + (S m - b))%nat at 1 by lia.
        rewrite !hops_add, (Hf a), (Hf b) by lia. by rewrite Heq. }
      rewrite Hend, Hf in Hc by lia. done. }
    destruct (Nat.lt_trichotomy a b) as [?|[?|?]]; [|done|]; exfalso.
    - by apply (Hlt a b); [lia|lia|].
    - by apply (Hlt b a); [lia|lia|]. }
  pose proof (targets_length rrs). etrans; [|done].
  rewrite <-(length_seq m 1), <-(length_fmap f). apply NoDup_ListNoDup in Hnd.
  apply (List.NoDup_incl_length Hnd). intros x Hx. apply list_elem_of_In in Hx.
  apply list_elem_of_fmap in Hx as (i & -> & Hi). apply elem_of_seq in Hi.
  apply list_elem_of_In. destruct i as [|i]; [lia|]. apply (hops_S_target i q rrs n). by apply Hf; lia.
Qed.

Lemma follow_mono a b q rrs n r : (a ≤ b)%nat → follow a q rrs n = Some r → follow b q rrs n = Some r.
Proof.
  revert b n. induction a as [|a IH]; intros b n Hab; [done|]. destruct b as [|b]; [lia|]. simpl.
  destruct (answers_at q rrs n); [done|]. destruct (alias_of q rrs n); [apply IH; lia|done].
Qed.

(** the bounded loop over the CNAME chain is exact: it finds the end of
    every chain that has one, however many hops an unbounded search would
    allow, and gives up only on a chain that never ends. *)
Theorem terminal_answer_is_exact q rrs r :
  terminal_answer q rrs = Some r ↔ ∃ fuel, follow fuel q rrs (q_name q) = Some r.
Proof.
  split; [by eauto|]. intros [fuel Hf]. unfold terminal_answer.
  destruct (follow (S (length rrs)) q rrs (q_name q)) as [r'|] eqn:Hb.
  - destruct (Nat.le_ge_cases (S (length rrs)) fuel).
    + by rewrite (follow_mono _ fuel _ _ _ _ ltac:(eassumption) Hb) in Hf.
    + apply (follow_mono _ (S (length rrs))) in Hf; [|done]. congruence.
  - exfalso. apply follow_hops in Hb.
    assert (Hk : ∀ k, is_Some (hops k q rrs (q_name q))).
    { intros k. induction k as [|k IH]; [by eauto|].
      destruct (hops (S k) q rrs (q_name q)) eqn:He; [by eauto|].
      pose proof (ending_chain_is_short _ _ _ _ IH He).
      destruct (hops_le (S k) (S (length rrs)) _ _ _ ltac:(lia) Hb) as [x Hx]. congruence. }
    specialize (Hk fuel). apply follow_hops in Hk. congruence.
Qed.

(** ** The lifetime is safe *)

Lemma list_min_le l m x : list_min l = Some m → x ∈ l → m ≤ x.
Proof.
  revert m. induction l as [|y l IH]; intros m; [done|]. simpl. rewrite elem_of_cons.
  destruct (list_min l) as [m'|] eqn:Hl.
  - intros [= <-] [->|Hx]; [lia|]. specialize (IH m' eq_refl Hx). lia.
  - intros [= <-] [->|Hx]; [lia|]. destruct l; [by apply elem_of_nil in Hx|].
    simpl in Hl. by destruct (list_min l).
Qed.

Lemma list_min_elem l m : list_min l = Some m → m ∈ l.
Proof.
  revert m. induction l as [|y l IH]; intros m; [done|]. simpl.
  destruct (list_min l) as [m'|]; intros [= <-]; [|by left].
  destruct (Z.min_spec y m') as [[_ ->]|[_ ->]]; [left|right; by apply IH].
Qed.

Lemma list_min_None l x : x ∈ l → list_min l ≠ None.
Proof.
  destruct l as [|y l]; [by intros ?%elem_of_nil|]. intros _. simpl. by destruct (list_min l).
Qed.

(** Everything [cache_ttl] checked and took into account. *)
Lemma cache_ttl_inv q m t :
  cache_ttl q m = Some t →
  cacheable_header q m = true ∧ t ≠ 0 ∧
  ∃ terminal positive o, terminal_answer q (answers m) = Some (terminal, positive) ∧
    list_min (map ttl (List.filter ordinary (all_records m))) = Some o ∧
    if positive : bool then response_code m = NoError ∧ t = o
    else ∃ n, list_min (omap (soa_ttl q terminal) (authorities m)) = Some n ∧ t = Z.min n o.
Proof.
  unfold cache_ttl. destruct (cacheable_header q m); [|done]. simpl. intros Hc. split; [done|].
  destruct (response_code m) eqn:Hr; try done;
    (destruct (terminal_answer q (answers m)) as [[terminal [|]]|]; [simpl in Hc|simpl in Hc|done]);
    try done;
    try (destruct (list_min (omap (soa_ttl q terminal) (authorities m))) as [n|] eqn:Hn; [|done]);
    (destruct (list_min (map ttl _)) as [o|]; [|done]);
    (destruct (_ =? 0) eqn:Hz; [done|]); apply Z.eqb_neq in Hz; injection Hc as <-; (split; [done|]);
    eexists terminal, _, o; (split; [done|]); (split; [done|]); simpl; eauto.
Qed.

(** a response is cached for no longer than the shortest TTL of its
    ordinary records, and a negative one no longer than the SOA of a zone that
    covers the terminal name allows; never a failure, a truncated or signed
    packet, the answer to another question, or a name error that contains the
    record. *)
Theorem cache_lifetime_is_safe q m t :
  cache_ttl q m = Some t →
  cacheable_header q m = true ∧ t ≠ 0 ∧
  (∀ r, r ∈ all_records m → ordinary r = true → t ≤ ttl r) ∧
  ∃ terminal positive, terminal_answer q (answers m) = Some (terminal, positive) ∧
    if positive : bool then response_code m = NoError
    else (∃ r, r ∈ authorities m ∧ is_Some (soa_ttl q terminal r)) ∧
      ∀ r s, r ∈ authorities m → soa_ttl q terminal r = Some s → t ≤ s.
Proof.
  intros (Hh & Hne & terminal & positive & o & Ht & Ho & Hc)%cache_ttl_inv. split; [done|]. split; [done|].
  assert (Hle : t ≤ o) by (destruct positive; [lia|destruct Hc as (n & _ & ->); lia]).
  split.
  - intros r Hr Hord. etrans; [exact Hle|]. apply (list_min_le _ _ _ Ho).
    apply list_elem_of_In, in_map, filter_In. split; [by apply list_elem_of_In|done].
  - exists terminal, positive. split; [done|]. destruct positive; [by destruct Hc|].
    destruct Hc as (n & Hn & ->). split.
    + apply list_min_elem, list_elem_of_omap in Hn as (r & Hr & Hs). eauto.
    + intros r s Hr Hs. assert (n ≤ s); [|lia]. apply (list_min_le _ _ _ Hn).
      apply list_elem_of_omap. eauto.
Qed.

(** ** Normalisation *)

Definition normalize_rr (q : Query) (terminal : Name) (r : RR) : RR :=
  match soa_ttl q terminal r with
  | Some t => mkRR (rr_name r) (dns_class r) t (data r)
  | None => r
  end.

Lemma normalize_rr_soa q terminal r : soa_ttl q terminal (normalize_rr q terminal r) = soa_ttl q terminal r.
Proof.
  unfold normalize_rr. destruct (soa_ttl q terminal r) as [t|] eqn:Hs; [|done].
  unfold soa_ttl in *. simpl. destruct (_ && _); [|done]. destruct (data r); try done.
  injection Hs as <-. f_equal. lia.
Qed.

Lemma normalize_rr_ttl q terminal r :
  ttl (normalize_rr q terminal r) = ttl r ∨
  ∃ s, soa_ttl q terminal r = Some s ∧ ttl (normalize_rr q terminal r) = s ∧ s ≤ ttl r.
Proof.
  unfold normalize_rr. destruct (soa_ttl q terminal r) as [s|] eqn:Hs; [right|by left].
  exists s. split_and!; [done|done|]. unfold soa_ttl in Hs. destruct (_ && _); [|done].
  destruct (data r); try done. injection Hs as <-. lia.
Qed.

Lemma normalize_rr_ordinary q terminal r : ordinary (normalize_rr q terminal r) = ordinary r.
Proof. unfold normalize_rr. by destruct (soa_ttl q terminal r). Qed.

Lemma omap_normalize q terminal l :
  omap (soa_ttl q terminal) (map (normalize_rr q terminal) l) = omap (soa_ttl q terminal) l.
Proof.
  induction l as [|r l IH]; [done|]. cbn [map omap list_omap]. rewrite normalize_rr_soa.
  destruct (soa_ttl q terminal r); [f_equal|]; apply IH.
Qed.

(** The ordinary TTLs before and after, against the negative lifetime [n]. *)
Lemma min_normalized q terminal n (before auth after_ : list RR) o :
  list_min (omap (soa_ttl q terminal) auth) = Some n →
  list_min (map ttl (List.filter ordinary (before ++ auth ++ after_))) = Some o →
  ∃ o', list_min (map ttl (List.filter ordinary (before ++ map (normalize_rr q terminal) auth ++ after_))) = Some o'
    ∧ Z.min n o' = Z.min n o.
Proof.
  intros Hn Ho.
  assert (Hto : ∀ r, r ∈ before ++ auth ++ after_ → ordinary r = true →
    ∃ r', r' ∈ before ++ map (normalize_rr q terminal) auth ++ after_ ∧ ordinary r' = true ∧ ttl r' ≤ ttl r).
  { intros r Hr Hord. rewrite !elem_of_app in Hr. destruct Hr as [Hr|[Hr|Hr]].
    - exists r. rewrite !elem_of_app. auto with lia.
    - exists (normalize_rr q terminal r). rewrite !elem_of_app, normalize_rr_ordinary.
      split; [right; left; by apply list_elem_of_In, in_map, list_elem_of_In|]. split; [done|].
      destruct (normalize_rr_ttl q terminal r) as [->|(s & _ & -> & ?)]; lia.
    - exists r. rewrite !elem_of_app. auto with lia. }
  assert (Hof : ∀ r', r' ∈ before ++ map (normalize_rr q terminal) auth ++ after_ → ordinary r' = true →
    Z.min n o ≤ ttl r').
  { intros r' Hr Hord.
    assert (Hmin : ∀ r, r ∈ before ++ auth ++ after_ → ordinary r = true → o ≤ ttl r).
    { intros r Hin Hr'. apply (list_min_le _ _ _ Ho). apply list_elem_of_In, in_map, filter_In.
      split; [by apply list_elem_of_In|done]. }
    rewrite !elem_of_app in Hr. destruct Hr as [Hr|[Hr|Hr]].
    - specialize (Hmin r'). rewrite !elem_of_app in Hmin. specialize (Hmin (or_introl Hr) Hord). lia.
    - apply list_elem_of_fmap in Hr as (r & -> & Hr). rewrite normalize_rr_ordinary in Hord.
      destruct (normalize_rr_ttl q terminal r) as [->|(s & Hs & -> & _)].
      + specialize (Hmin r). rewrite !elem_of_app in Hmin. specialize (Hmin (or_intror (or_introl Hr)) Hord). lia.
      + assert (n ≤ s); [|lia]. apply (list_min_le _ _ _ Hn). apply list_elem_of_omap. eauto.
    - specialize (Hmin r'). rewrite !elem_of_app in Hmin. specialize (Hmin (or_intror (or_intror Hr)) Hord). lia. }
  apply list_min_elem, list_elem_of_fmap in Ho as (r & -> & Hr).
  apply list_elem_of_In, filter_In in Hr as [Hr Hord]. apply list_elem_of_In in Hr.
  destruct (Hto r Hr Hord) as (r' & Hr' & Hord' & Hle).
  assert (Hin : ttl r' ∈ map ttl (List.filter ordinary (before ++ map (normalize_rr q terminal) auth ++ after_))).
  { apply list_elem_of_In, in_map, filter_In. split; [by apply list_elem_of_In|done]. }
  destruct (list_min (map ttl (List.filter ordinary
    (before ++ map (normalize_rr q terminal) auth ++ after_)))) as [o'|] eqn:Ho'.
  - exists o'. split; [done|]. pose proof (list_min_le _ _ _ Ho' Hin).
    apply list_min_elem, list_elem_of_fmap in Ho' as (r'' & -> & Hr'').
    apply list_elem_of_In, filter_In in Hr'' as [Hr'' Hord'']. apply list_elem_of_In in Hr''.
    specialize (Hof r'' Hr'' Hord''). lia.
  - by apply list_min_None in Hin.
Qed.

(** Normalising the SOA of a negative answer does not change how long the
    response may be cached. *)
Theorem normalisation_keeps_lifetime q m :
  cache_ttl q (normalize_negative_soa_ttl q m) = cache_ttl q m.
Proof.
  unfold normalize_negative_soa_ttl. destruct (truncation m || signed m); [done|].
  destruct (response_code m) eqn:Hr; try done;
    (destruct (terminal_answer q (answers m)) as [[terminal [|]]|] eqn:Ht; try done);
    fold (normalize_rr q terminal); unfold cache_ttl, cacheable_header; simpl;
    unfold response_code, is_response, is_query_opcode, truncation in *; simpl; rewrite Hr, Ht; simpl;
    (destruct (negb _); [done|]); rewrite omap_normalize;
    (destruct (list_min (omap (soa_ttl q terminal) (authorities m))) as [n|] eqn:Hn; [|done]);
    unfold all_records; simpl.
  all: destruct (list_min (map ttl (List.filter ordinary (answers m ++ authorities m ++ additionals m)))) as [o|] eqn:Ho.
  1,3: destruct (min_normalized q terminal n _ _ _ o Hn Ho) as (o' & -> & ->); done.
  all: exfalso; apply list_min_elem, list_elem_of_omap in Hn as (r & Hin & Hs);
    assert (Hord : ordinary r = true) by
      (unfold soa_ttl in Hs; destruct (_ && _); [|done]; unfold ordinary, record_type; by destruct (data r));
    assert (Hx : ttl r ∈ map ttl (List.filter ordinary (answers m ++ authorities m ++ additionals m))) by
      (apply list_elem_of_In, in_map, filter_In; split; [|done]; apply list_elem_of_In; rewrite !elem_of_app; auto);
    by apply list_min_None in Hx.
Qed.
End Packet.

(** ** Witnesses *)

(** Names as text with the root flag; a zone is a suffix. *)
Definition sample_names : NameCrate := {|
  Name := list Z * bool;
  eq_ignore_root a b := bool_decide (a.1 = b.1);
  zone_of a b := ends_with a.1 b.1;
  is_fqdn := snd;
  set_fqdn n := (n.1, true);
|}.

Lemma sample_names_laws : @NameLaws sample_names.
Proof.
  split; simpl.
  - split; [intros a|intros a b|intros a b c]; rewrite !bool_decide_eq_true; congruence.
  - done.
  - intros n. by apply bool_decide_eq_true.
  - by intros [n []].
  - intros [a []] [b []] Ha Hb Hab%bool_decide_eq_true; simpl in *; congruence.
Qed.

Section Witnesses.
#[local] Existing Instance sample_names.

(** [www] is an alias of [a], which has no address; the zone of [a] says so. *)
Definition sample_name (s : str) : Name := (s, true).
Definition sample_question : Query := mkQuery (sample_name (lit "www")) 1 1.
Definition sample_negative : Message :=
  mkMessage (mkMeta 0 true 0 false false false false false false NXDomain) false false [sample_question]
    [mkRR (sample_name (lit "www")) 1 300 (CNAME (sample_name (lit "a")))]
    [mkRR (sample_name (lit "a")) 1 900 (SOA 60)] [].

Lemma cache_lifetime_is_safe_witness :
  cache_ttl sample_question sample_negative = Some 60 ∧
  ∀ r, r ∈ all_records sample_negative → ordinary r = true → 60 ≤ ttl r.
Proof.
  assert (Hc : cache_ttl sample_question sample_negative = Some 60) by (vm_compute; reflexivity).
  split; [exact Hc|]. apply (cache_lifetime_is_safe sample_question sample_negative 60 Hc).
Defined.
End Witnesses.
End DnsPacket.
