(* ===== verification/DnsCache.v ===== *)
(** * The DNS answer cache

    [packages/dns-server/src/cache/cache.rs] and [cache_disk.rs]: the bounded
    map from questions to packets, ageing by two clocks, eviction of the
    entries that expire soonest, and the binary file.  Encoding and decoding of
    packets are parameters, and so is the iteration order of the hash map. *)

From S2P Require Import Prelude Interleave Str Net NetText TempFile DnsPacket.
From stdpp Require Import fin_maps gmap.
Import DnsPacket.
Open Scope Z_scope.

(** [Message::from_vec], [Message::to_vec], the derived equality of messages
    (which ignores TTLs), and the TTL decrement of [hickory_proto]; the range of
    timestamps of [time]. *)
Class PacketCrate `{NameCrate} : Type := {
  from_vec : list Z → option Message;
  to_vec : Message → option (list Z);
  message_eqb : Message → Message → bool;
  decrement_ttl : Z → Z → Z;
  timestamp_ok : Z → bool;
}.

Module DnsCache.

Definition DNS_CACHE_CAP : Z := 4096.
Definition MAX_PACKET : Z := 65535.
Definition MAX_PAYLOAD : Z := 16 * 1024 * 1024.

(** The longest [Duration], in nanoseconds. *)
Definition DURATION_MAX : Z := 2 ^ 64 * 10 ^ 9 - 1.
Definition SECOND : Z := 10 ^ 9.

(** Stamps are wall-clock nanoseconds, [admitted] is a monotonic instant. *)
Record Entry : Type := mkEntry {
  packet : list Z;
  e_ttl : Z;
  e_resolved_at : Z;
  admitted : Z;
  initial_age : Z;
}.

Definition wall_age (stamp now : Z) : option Z := if now - stamp <? 0 then None else Some (now - stamp).

Definition age (e : Entry) (now instant : Z) : Z :=
  Z.max (saturating_add DURATION_MAX (initial_age e) (saturating_sub instant (admitted e)))
    (default 0 (wall_age (e_resolved_at e) now)).

Definition remaining (e : Entry) (now instant : Z) : Z := saturating_sub (e_ttl e) (age e now instant).

Definition packet_len (e : Entry) : Z := Z.of_nat (length (packet e)).

Abbreviation Entries := (gmap Query Entry).

(** The order in which the hash map iterates. *)
Class HashOrder `{NameCrate} : Type := {
  iter : Entries → list (Query * Entry);
  iter_perm : ∀ m, iter m ≡ₚ map_to_list m;
}.

Section Cache.
Context `{PacketCrate} `{!HashOrder}.

Definition admitted_query (q : Query) : Query := mkQuery (set_fqdn (q_name q)) (query_type q) (query_class q).

(** ** Admission *)

Definition total_bytes (m : Entries) : Z := map_fold (fun _ e acc => packet_len e + acc) 0 m.

(** [min_by_key]: the first of the least. *)
Fixpoint min_by_key {A} (f : A → Z) (l : list A) : option A :=
  match l with
  | [] => None
  | x :: l' =>
      match min_by_key f l' with
      | Some y => if f y <? f x then Some y else Some x
      | None => Some x
      end
  end.

Fixpoint evict (fuel : nat) (m : Entries) (bytes need now instant : Z) : Entries :=
  match fuel with
  | O => m
  | S fuel' =>
      if (DNS_CACHE_CAP <=? Z.of_nat (size m)) || (MAX_PAYLOAD <? bytes + need) then
        match min_by_key (fun ke => remaining ke.2 now instant) (iter m) with
        | None => m
        | Some (victim, _) =>
            match m !! victim with
            | Some removed => evict fuel' (delete victim m) (bytes - packet_len removed) need now instant
            | None => evict fuel' m bytes need now instant
            end
        end
      else m
  end.

Definition fresh_entries (m : Entries) (now instant : Z) : Entries :=
  filter (fun ke => remaining ke.2 now instant ≠ 0) m.

Definition admit_entry (m : Entries) (key : Query) (e : Entry) (now instant : Z) : Entries :=
  let m1 := delete key (fresh_entries m now instant) in
  <[key := e]> (evict (S (size m1)) m1 (total_bytes m1) (packet_len e) now instant).

(** ** Lookup *)

Definition age_record (seconds : Z) (r : RR) : RR :=
  if record_type r =? TYPE_OPT then r
  else mkRR (rr_name r) (dns_class r) (decrement_ttl (ttl r) seconds) (data r).

Definition age_message (seconds : Z) (m : Message) : Message :=
  mkMessage (metadata m) (signed m) (has_edns m) (queries m)
    (map (age_record seconds) (answers m)) (map (age_record seconds) (authorities m))
    (map (age_record seconds) (additionals m)).

(** The key under which a question is found. *)
Definition find_key (m : Entries) (q : Query) : option Query :=
  if is_fqdn (q_name q) then match m !! q with Some _ => Some q | None => None end
  else option_map fst (List.find (fun ke => same_question ke.1 q) (iter m)).

Definition get_at (m : Entries) (q : Query) (now instant : Z) : option ResolvedAnswer * Entries :=
  match find_key m q with
  | None => (None, m)
  | Some key =>
      match m !! key with
      | None => (None, m)
      | Some e =>
          if remaining e now instant =? 0 then
            (None, if is_fqdn (q_name q) then delete q m
                   else filter (fun ke => same_question ke.1 q = false) m)
          else
            let e' := mkEntry (packet e) (e_ttl e) (e_resolved_at e) instant (age e now instant) in
            let m' := <[key := e']> m in
            let a := age e' now instant in
            match from_vec (packet e') with
            | None => (None, m')
            | Some msg =>
                let seconds := Z.min u32_max (a / SECOND) in
                (Some (mkAnswer (age_message seconds (normalize_negative_soa_ttl q msg))
                         (saturating_sub (e_ttl e') a) now), m')
            end
      end
  end.

Definition record_ttls (m : Message) : list Z := map ttl (all_records m).

Definition insert_at (m : Entries) (q : Query) (a : ResolvedAnswer) (now instant : Z) : Entries :=
  match cache_ttl q (message a) with
  | None => m
  | Some policy_ttl =>
      let t := Z.min (answer_ttl a) (policy_ttl * SECOND) in
      match wall_age (resolved_at a) now with
      | None => m
      | Some initial =>
          if t <=? initial then m
          else match to_vec (message a) with
          | None => m
          | Some bytes =>
              if MAX_PACKET <? Z.of_nat (length bytes) then m
              else match from_vec bytes with
              | None => m
              | Some decoded =>
                  if negb (message_eqb decoded (message a)) ||
                     negb (bool_decide (record_ttls decoded = record_ttls (message a))) then m
                  else admit_entry m (admitted_query q) (mkEntry bytes t (resolved_at a) instant initial) now instant
              end
          end
      end
  end.

(** ** The file *)

(** The magic line, [TOR-DNS-PACKETS] with a zero and the version. *)
Definition MAGIC : list Z := lit "TOR-DNS-PACKETS" ++ [0; 1].
Definition FRAME_HEADER : Z := 32.
Definition MAX_FILE : Z := MAX_PAYLOAD + DNS_CACHE_CAP * FRAME_HEADER + Z.of_nat (length MAGIC).

(** [to_be_bytes] of an [n]-byte integer, two's complement when signed. *)
Definition be (n : nat) (x : Z) : list Z := parts_of 8 n (x mod 2 ^ (8 * Z.of_nat n)).

Definition from_be (bs : list Z) : Z := of_octets bs.

Definition from_be_signed (bs : list Z) : Z :=
  let x := of_octets bs in
  let w := 8 * Z.of_nat (length bs) in
  if x <? 2 ^ (w - 1) then x else x - 2 ^ w.

(** What a save writes of the entries: a lease shortened by what the monotonic
    clock saw and the wall clock did not. *)
Definition snapshot_entry (now instant : Z) (e : Entry) : Entry :=
  let wall := default 0 (wall_age (e_resolved_at e) now) in
  mkEntry (packet e) (Z.min (e_ttl e) (saturating_add DURATION_MAX (remaining e now instant) wall))
    (e_resolved_at e) (admitted e) (initial_age e).

Definition frame (e : Entry) : list Z :=
  be 16 (e_resolved_at e) ++ be 8 (e_ttl e / SECOND) ++ be 4 (e_ttl e mod SECOND) ++
  be 4 (packet_len e) ++ packet e.

Definition encode (entries : list Entry) : list Z := MAGIC ++ flat_map frame entries.

(** [save]: sweep, snapshot, and write through a temporary file. *)
Definition save (m : Entries) (now instant : Z) : list Entry * Entries :=
  let m' := fresh_entries m now instant in
  (map (fun ke => snapshot_entry now instant ke.2) (iter m'), m').

Definition take_bytes (n : nat) (data : list Z) : option (list Z * list Z) :=
  if (length data <? n)%nat then None else Some (take n data, drop n data).

(** One frame: the end of the data, or the entry if it is usable. *)
Definition read_frame (data : list Z) (now instant : Z) : option (option (Query * Entry) * list Z) :=
  match take_bytes 16 data with
  | None => None
  | Some (stamp, data) =>
  match take_bytes 8 data with
  | None => None
  | Some (seconds, data) =>
  match take_bytes 4 data with
  | None => None
  | Some (nanos, data) =>
  match take_bytes 4 data with
  | None => None
  | Some (length_, data) =>
  match take_bytes (Z.to_nat (from_be length_)) data with
  | None => None
  | Some (pkt, data) =>
      let skip := Some (None, data) in
      if MAX_PACKET <? from_be length_ then skip
      else if negb (timestamp_ok (from_be_signed stamp)) then skip
      else if 1000000000 <=? from_be nanos then skip
      else
        let t := from_be seconds * SECOND + from_be nanos in
        match wall_age (from_be_signed stamp) now with
        | None => skip
        | Some initial =>
        match from_vec pkt with
        | None => skip
        | Some msg =>
        match queries msg with
        | [] => skip
        | q :: _ =>
        match cache_ttl q msg with
        | None => skip
        | Some policy_ttl =>
            let t' := Z.min t (policy_ttl * SECOND) in
            if t' <=? initial then skip
            else Some (Some (admitted_query q, mkEntry pkt t' (from_be_signed stamp) instant initial), data)
        end end end end
  end end end end end.

Fixpoint read_frames (n : nat) (m : Entries) (data : list Z) (now instant : Z) : Entries :=
  match n with
  | O => m
  | S n' =>
      match read_frame data now instant with
      | None => m
      | Some (None, data) => read_frames n' m data now instant
      | Some (Some (q, e), data) => read_frames n' (admit_entry m q e now instant) data now instant
      end
  end.

Definition decode (data : list Z) (now instant : Z) : Entries :=
  if (MAX_FILE <? Z.of_nat (length data)) || negb (bool_decide (take (length MAGIC) data = MAGIC)) then ∅
  else read_frames (Z.to_nat DNS_CACHE_CAP) ∅ (drop (length MAGIC) data) now instant.

(** A missing or unreadable file is an empty cache. *)
Definition load (file : option (list Z)) (now instant : Z) : Entries :=
  match file with
  | None => ∅
  | Some data => if MAX_FILE <? Z.of_nat (length data) then ∅ else decode data now instant
  end.

(** ** Eviction *)

Lemma min_by_key_Some {A} (f : A → Z) l x :
  min_by_key f l = Some x → x ∈ l ∧ ∀ y, y ∈ l → f x ≤ f y.
Proof.
  revert x. induction l as [|z l IH]; intros x; [done|]. simpl.
  destruct (min_by_key f l) as [y|] eqn:Hm.
  - destruct (IH y eq_refl) as [Hin Hle]. destruct (Z.ltb_spec (f y) (f z)); intros [= <-].
    + split; [by right|]. intros w [->|Hw]%elem_of_cons; [lia|auto].
    + split; [by left|]. intros w [->|Hw]%elem_of_cons; [lia|]. specialize (Hle w Hw). lia.
  - intros [= <-]. split; [by left|]. destruct l as [|w l]; [intros w [->|?%elem_of_nil]%elem_of_cons; lia|].
    simpl in Hm. destruct (min_by_key f l) as [v|]; [by destruct (f v <? f w)|done].
Qed.

Lemma min_by_key_None {A} (f : A → Z) l : min_by_key f l = None → l = [].
Proof.
  destruct l as [|x l]; [done|]. simpl. destruct (min_by_key f l) as [y|]; [by destruct (_ <? _)|done].
Qed.

Lemma iter_lookup m k e : (k, e) ∈ iter m ↔ m !! k = Some e.
Proof. rewrite iter_perm. apply elem_of_map_to_list. Qed.

Lemma total_bytes_delete m k e :
  m !! k = Some e → total_bytes (delete k m) = total_bytes m - packet_len e.
Proof.
  intros Hk. unfold total_bytes. rewrite (map_fold_delete_L _ _ k e m); [lia|intros; lia|done].
Qed.

Lemma total_bytes_insert m k e :
  m !! k = None → total_bytes (<[k := e]> m) = packet_len e + total_bytes m.
Proof. intros Hk. unfold total_bytes. rewrite map_fold_insert_L; [done|intros; lia|done]. Qed.

Lemma total_bytes_nonneg m : 0 ≤ total_bytes m.
Proof.
  induction m as [|k e m Hk IH] using map_ind; [unfold total_bytes; by rewrite map_fold_empty|].
  rewrite total_bytes_insert by done. assert (0 ≤ packet_len e) by (unfold packet_len; lia). lia.
Qed.

Lemma total_bytes_subseteq m m' : m ⊆ m' → total_bytes m ≤ total_bytes m'.
Proof.
  revert m'. induction m as [|k e m Hk IH] using map_ind; intros m' Hsub.
  { unfold total_bytes at 1. rewrite map_fold_empty. apply total_bytes_nonneg. }
  assert (Hin : m' !! k = Some e) by (eapply lookup_weaken; [apply lookup_insert_eq|done]).
  rewrite total_bytes_insert by done. specialize (IH (delete k m')).
  rewrite (total_bytes_delete _ _ _ Hin) in IH. unshelve epose proof (IH _) as Hle; [|lia].
  apply map_subseteq_spec. intros i x Hx. rewrite lookup_delete_ne by congruence.
  eapply lookup_weaken; [|done]. rewrite lookup_insert_ne by congruence. done.
Qed.

Definition pressure (m : Entries) (need : Z) : Prop :=
  DNS_CACHE_CAP ≤ Z.of_nat (size m) ∨ MAX_PAYLOAD < total_bytes m + need.

(** What eviction leaves: entries of the map, no longer too many, none of
    which expires before one that was dropped. *)
Lemma evict_spec fuel m need now instant :
  (size m < fuel)%nat →
  let m' := evict fuel m (total_bytes m) need now instant in
  m' ⊆ m ∧ (¬ pressure m' need ∨ m' = ∅) ∧ (¬ pressure m need → m' = m) ∧
  ∀ k e k' e', m !! k = Some e → m' !! k = None → m' !! k' = Some e' →
    remaining e now instant ≤ remaining e' now instant.
Proof.
  revert m. induction fuel as [|fuel IH]; intros m Hf; [lia|]. simpl.
  destruct ((DNS_CACHE_CAP <=? Z.of_nat (size m)) || (MAX_PAYLOAD <? total_bytes m + need)) eqn:Hp.
  - rewrite orb_true_iff, Z.leb_le, Z.ltb_lt in Hp.
    destruct (min_by_key _ (iter m)) as [[victim ve]|] eqn:Hm.
    + apply min_by_key_Some in Hm as [Hin Hle]. apply iter_lookup in Hin. rewrite Hin.
      rewrite <-(total_bytes_delete _ _ _ Hin). specialize (IH (delete victim m)).
      rewrite (map_size_delete_Some victim m) in IH by eauto.
      assert (size m ≠ 0)%nat by (intros ?%map_size_empty_iff; subst; by rewrite lookup_empty in Hin).
      destruct (IH ltac:(lia)) as (Hsub & Hend & _ & Hleast).
      set (m' := evict _ _ _ _ _ _) in *. split_and!.
      * etrans; [done|]. apply delete_subseteq.
      * done.
      * intros []. done.
      * intros k e k' e' Hk Hnone Hk'. destruct (decide (k = victim)) as [->|Hne].
        -- rewrite Hin in Hk. injection Hk as <-. apply (Hle (k', e')), iter_lookup.
           eapply lookup_weaken; [|apply (delete_subseteq m victim)]. by eapply lookup_weaken.
        -- apply (Hleast k e k' e'); [by rewrite lookup_delete_ne|done|done].
    + apply min_by_key_None in Hm. assert (m = ∅) as ->.
      { apply map_to_list_empty_iff, Permutation_nil_r. by rewrite <-iter_perm, Hm. }
      split_and!; [done|by right|done|]. intros k e k' e'. by rewrite lookup_empty.
  - apply orb_false_iff in Hp as [Hc%Z.leb_gt Hb%Z.ltb_ge]. split_and!; [done|left; unfold pressure; lia|done|].
    intros k e k' e' Hk. congruence.
Qed.

(** What admission leaves in the map. *)
Lemma admit_spec m key e now instant :
  packet_len e ≤ MAX_PAYLOAD →
  let m' := admit_entry m key e now instant in
  let others := delete key (fresh_entries m now instant) in
  m' !! key = Some e ∧
  Z.of_nat (size m') ≤ DNS_CACHE_CAP ∧ total_bytes m' ≤ MAX_PAYLOAD ∧
  delete key m' ⊆ others ∧
  (¬ pressure others (packet_len e) → delete key m' = others) ∧
  ∀ k d k' s, others !! k = Some d → m' !! k = None → k' ≠ key → m' !! k' = Some s →
    remaining d now instant ≤ remaining s now instant.
Proof.
  intros He. unfold admit_entry. cbv zeta. set (others := delete key (fresh_entries m now instant)).
  destruct (evict_spec (S (size others)) others (packet_len e) now instant) as (Hsub & Hend & Hroom & Hleast); [lia|].
  set (kept := evict _ _ _ _ _ _) in *.
  assert (Hkey : kept !! key = None).
  { eapply lookup_weaken_None; [|done]. apply lookup_delete_eq. }
  assert (Hdel : delete key (<[key := e]> kept) = kept) by (by rewrite delete_insert_id).
  assert (Hb : Z.of_nat (size kept) < DNS_CACHE_CAP ∧ total_bytes kept + packet_len e ≤ MAX_PAYLOAD).
  { destruct Hend as [Hend| ->]; [unfold pressure in Hend; lia|].
    rewrite map_size_empty. unfold total_bytes. rewrite map_fold_empty. split; [done|lia]. }
  split_and!.
  - apply lookup_insert_eq.
  - rewrite map_size_insert_None by done. lia.
  - rewrite total_bytes_insert by done. lia.
  - by rewrite Hdel.
  - intros Hp. rewrite Hdel. by apply Hroom.
  - intros k d k' s Hk Hnone Hne Hk'. rewrite lookup_insert_ne in Hk' by done.
    destruct (decide (key = k)) as [<-|Hkk]; [by rewrite lookup_insert_eq in Hnone|].
    rewrite lookup_insert_ne in Hnone by done. by apply (Hleast k d k' s).
Qed.

(** admitting an entry drops what has expired and, only under pressure
    of the entry or byte limit, the entries that expire soonest; everything
    else stays, the new entry is in, and both limits hold. *)
Theorem admission_evicts_soonest m key e now instant :
  packet_len e ≤ MAX_PAYLOAD →
  let m' := admit_entry m key e now instant in
  let others := delete key (fresh_entries m now instant) in
  m' !! key = Some e ∧
  Z.of_nat (size m') ≤ DNS_CACHE_CAP ∧ total_bytes m' ≤ MAX_PAYLOAD ∧
  delete key m' ⊆ others ∧
  (¬ pressure others (packet_len e) → delete key m' = others) ∧
  ∀ k d k' s, others !! k = Some d → m' !! k = None → k' ≠ key → m' !! k' = Some s →
    remaining d now instant ≤ remaining s now instant.
Proof. apply admit_spec. Qed.

(** ** Operations over time *)

Inductive op : Type :=
| Insert (q : Query) (a : ResolvedAnswer) (now instant : Z)
| Get (q : Query) (now instant : Z)
| Save (now instant : Z).

Definition apply_op (m : Entries) (o : op) : Entries :=
  match o with
  | Insert q a now instant => insert_at m q a now instant
  | Get q now instant => (get_at m q now instant).2
  | Save now instant => (save m now instant).2
  end.

Definition run (m : Entries) (ops : list op) : Entries := foldl apply_op m ops.

(** Either an insertion changes nothing or it admits this entry. *)
Lemma insert_at_cases m q a now instant :
  insert_at m q a now instant = m ∨
  ∃ bytes t initial, insert_at m q a now instant =
      admit_entry m (admitted_query q) (mkEntry bytes t (resolved_at a) instant initial) now instant ∧
    to_vec (message a) = Some bytes ∧ Z.of_nat (length bytes) ≤ MAX_PACKET ∧
    t ≤ answer_ttl a ∧ 0 ≤ initial.
Proof.
  unfold insert_at. destruct (cache_ttl q (message a)) as [p|]; [|by left].
  destruct (wall_age (resolved_at a) now) as [initial|] eqn:Hw; [|by left].
  destruct (_ <=? initial); [by left|]. destruct (to_vec (message a)) as [bytes|]; [|by left].
  destruct (Z.ltb_spec MAX_PACKET (Z.of_nat (length bytes))); [by left|].
  destruct (from_vec bytes); [|by left]. destruct (_ || _); [by left|]. right.
  exists bytes, (Z.min (answer_ttl a) (p * SECOND)), initial. split_and!; [done|done|lia|lia|].
  unfold wall_age in Hw. destruct (Z.ltb_spec (now - resolved_at a) 0); [done|]. injection Hw as <-. lia.
Qed.

Lemma admit_lookup m key e now instant k e' :
  packet_len e ≤ MAX_PAYLOAD → admit_entry m key e now instant !! k = Some e' →
  (k = key ∧ e' = e) ∨ (k ≠ key ∧ m !! k = Some e').
Proof.
  intros He Hk. destruct (admit_spec m key e now instant He) as (Hkey & _ & _ & Hsub & _).
  destruct (decide (k = key)) as [->|Hne]; [left; split; congruence|right; split; [done|]].
  assert (Hd : delete key (admit_entry m key e now instant) !! k = Some e') by (by rewrite lookup_delete_ne).
  eapply lookup_weaken in Hd; [|exact Hsub]. rewrite lookup_delete_ne in Hd by done.
  by apply map_lookup_filter_Some in Hd as [? _].
Qed.

(** What a lookup does to the map. *)
Lemma get_at_map m q now instant :
  (get_at m q now instant).2 ⊆ m ∨
  ∃ key e, m !! key = Some e ∧ remaining e now instant ≠ 0 ∧
    (get_at m q now instant).2 =
      <[key := mkEntry (packet e) (e_ttl e) (e_resolved_at e) instant (age e now instant)]> m.
Proof.
  unfold get_at. destruct (find_key m q) as [key|]; [|by left]. destruct (m !! key) as [e|] eqn:Hk; [|by left].
  destruct (Z.eqb_spec (remaining e now instant) 0) as [|Hne].
  - left. simpl. destruct (is_fqdn (q_name q)); [apply delete_subseteq|apply map_filter_subseteq].
  - right. exists key, e. split_and!; [done|done|]. by destruct (from_vec _).
Qed.

Lemma total_bytes_replace m k e e' :
  m !! k = Some e → packet e' = packet e → total_bytes (<[k := e']> m) = total_bytes m.
Proof.
  intros Hk Hp. rewrite <-insert_delete_eq, total_bytes_insert by apply lookup_delete_eq.
  rewrite (total_bytes_delete _ _ _ Hk). unfold packet_len. rewrite Hp. lia.
Qed.

(** ** The limits *)

Definition wf (m : Entries) : Prop :=
  Z.of_nat (size m) ≤ DNS_CACHE_CAP ∧ total_bytes m ≤ MAX_PAYLOAD ∧
  ∀ k e, m !! k = Some e → packet_len e ≤ MAX_PACKET ∧ is_fqdn (q_name k) = true.

Lemma wf_subseteq m m' : m' ⊆ m → wf m → wf m'.
Proof.
  intros Hsub (Hs & Hb & Hf). pose proof (map_subseteq_size _ _ Hsub). pose proof (total_bytes_subseteq _ _ Hsub).
  split_and!; [lia|lia|]. intros k e Hk. apply (Hf k e). by eapply lookup_weaken.
Qed.

Lemma wf_empty : wf ∅.
Proof.
  split_and!; [by rewrite map_size_empty|unfold total_bytes; by rewrite map_fold_empty|].
  intros k e. by rewrite lookup_empty.
Qed.

Context `{!NameLaws}.

Lemma wf_admit m q e now instant :
  wf m → packet_len e ≤ MAX_PACKET → wf (admit_entry m (admitted_query q) e now instant).
Proof.
  intros (_ & _ & Hf) He. assert (Hp : packet_len e ≤ MAX_PAYLOAD) by (unfold MAX_PACKET, MAX_PAYLOAD in *; lia).
  destruct (admit_spec m (admitted_query q) e now instant Hp) as (_ & Hs & Hb & _).
  split_and!; [done|done|]. intros k e' Hk.
  apply admit_lookup in Hk as [[-> ->]|[_ Hk]]; [|by eauto|done]. split; [done|apply set_fqdn_is_fqdn].
Qed.

Lemma wf_apply m o : wf m → wf (apply_op m o).
Proof.
  intros Hm. destruct o as [q a now instant|q now instant|now instant]; simpl.
  - destruct (insert_at_cases m q a now instant) as [->|(bytes & t & i & -> & _ & Hl & _)]; [done|].
    by apply wf_admit.
  - destruct (get_at_map m q now instant) as [Hsub|(key & e & Hk & _ & ->)]; [by eapply wf_subseteq|].
    destruct Hm as (Hs & Hb & Hf). split_and!.
    + rewrite map_size_insert_Some by eauto. done.
    + by rewrite (total_bytes_replace _ _ e).
    + intros k e' Hk'. apply lookup_insert_Some in Hk' as [[<- <-]|[_ Hk']]; [|by eauto]. by apply (Hf key e).
  - eapply wf_subseteq; [apply map_filter_subseteq|done].
Qed.

Lemma wf_read_frames n m data now instant : wf m → wf (read_frames n m data now instant).
Proof.
  revert m data. induction n as [|n IH]; intros m data Hm; [done|]. simpl.
  destruct (read_frame data now instant) as [[[[q e]|] rest]|] eqn:Hr; [|by apply IH|done].
  apply IH. unfold read_frame, take_bytes in Hr.
  repeat (case_match; simplify_eq). apply wf_admit; [done|]. unfold packet_len. simpl.
  match goal with Hl : (MAX_PACKET <? _) = false |- _ => apply Z.ltb_ge in Hl end.
  unfold MAX_PACKET in *. rewrite length_take. lia.
Qed.

(** C37: whatever file the cache was loaded from and whatever insertions,
    lookups and saves follow, it never holds more than 4096 entries, 16 MiB of
    packets or a packet longer than 65535 bytes, and every key is absolute. *)
Theorem cache_stays_bounded file now instant ops : wf (run (load file now instant) ops).
Proof.
  assert (Hl : wf (load file now instant)).
  { unfold load, decode. destruct file as [data|]; [|apply wf_empty].
    destruct (_ <? _); [apply wf_empty|]. destruct (_ || _); [apply wf_empty|].
    apply wf_read_frames, wf_empty. }
  unfold run. revert Hl. generalize (load file now instant). induction ops as [|o ops IH]; intros m Hm; [done|].
  simpl. by apply IH, wf_apply.
Qed.

(** ** Lifetimes *)

(** The monotonic instant at which an entry would have been new. *)
Definition epoch (e : Entry) : Z := admitted e - initial_age e.

Lemma remaining_bounds e now instant :
  e_ttl e ≤ DURATION_MAX → remaining e now instant ≠ 0 →
  0 < remaining e now instant ∧
  instant - epoch e ≤ age e now instant ∧ now - e_resolved_at e ≤ age e now instant ∧
  age e now instant = e_ttl e - remaining e now instant.
Proof.
  intros Hd. unfold remaining, age, epoch, saturating_sub, saturating_add, wall_age.
  destruct (Z.ltb_spec (now - e_resolved_at e) 0); simpl; lia.
Qed.

(** A lookup does not change the age it stamps. *)
Lemma touched_age e now instant :
  e_ttl e ≤ DURATION_MAX → remaining e now instant ≠ 0 →
  age (mkEntry (packet e) (e_ttl e) (e_resolved_at e) instant (age e now instant)) now instant = age e now instant.
Proof.
  intros Hd Hne. destruct (remaining_bounds e now instant Hd Hne) as (Hpos & _ & Hw & Hage).
  assert (Hnn : 0 ≤ age e now instant).
  { unfold age, wall_age. destruct (Z.ltb_spec (now - e_resolved_at e) 0); simpl; lia. }
  unfold age at 1. simpl. unfold saturating_sub, saturating_add, wall_age. rewrite Z.sub_diag.
  destruct (Z.ltb_spec (now - e_resolved_at e) 0); simpl; lia.
Qed.

(** An entry stems from one of the insertions and outlives neither its
    lifetime on the monotonic clock nor that on the wall clock. *)
Definition stems_from (ops : list op) (k : Query) (e : Entry) : Prop :=
  ∃ q a now instant, Insert q a now instant ∈ ops ∧ k = admitted_query q ∧
    to_vec (message a) = Some (packet e) ∧ e_ttl e ≤ answer_ttl a ∧ e_resolved_at e = resolved_at a ∧
    epoch e ≤ instant ∧ e_ttl e ≤ DURATION_MAX.

Definition durations_ok (o : op) : Prop :=
  match o with Insert _ a _ _ => answer_ttl a ≤ DURATION_MAX | _ => True end.

Lemma stems_weaken ops o k e : stems_from ops k e → stems_from (ops ++ [o]) k e.
Proof. intros (q & a & n & i & Hin & ?). exists q, a, n, i. split; [apply elem_of_app; by left|done]. Qed.

Lemma run_stems ops :
  Forall durations_ok ops → ∀ k e, run ∅ ops !! k = Some e → stems_from ops k e.
Proof.
  induction ops as [|o ops IH] using rev_ind; intros Hd k e.
  { unfold run. simpl. by rewrite lookup_empty. }
  apply Forall_app in Hd as [Hd Ho]. rewrite Forall_singleton in Ho. specialize (IH Hd).
  unfold run. rewrite foldl_app. simpl. fold (run ∅ ops). intros Hk.
  destruct o as [q a now instant|q now instant|now instant]; simpl in Hk.
  - destruct (insert_at_cases (run ∅ ops) q a now instant) as [Heq|(bytes & t & i & Heq & Hv & Hl & Ht & Hi)];
      rewrite Heq in Hk; [by apply stems_weaken, IH|].
    apply admit_lookup in Hk as [[-> ->]|[_ Hk]]; [|by apply stems_weaken, IH|].
    + exists q, a, now, instant. unfold epoch. simpl in *.
      split_and!; [apply elem_of_app; right; by left|done|done|done|done|lia|lia].
    + unfold packet_len, MAX_PACKET, MAX_PAYLOAD in *. simpl. lia.
  - destruct (get_at_map (run ∅ ops) q now instant) as [Hsub|(key & e0 & Hk0 & Hne & Heq)].
    + by apply stems_weaken, IH, (lookup_weaken _ _ _ _ Hk Hsub).
    + rewrite Heq in Hk. apply lookup_insert_Some in Hk as [[<- <-]|[_ Hk]]; [|by apply stems_weaken, IH].
      destruct (IH _ _ Hk0) as (q0 & a & n & i & Hin & -> & Hv & Ht & Hr & He & Hdm).
      destruct (remaining_bounds e0 now instant Hdm Hne) as (_ & Hrem & _ & Hage).
      exists q0, a, n, i. unfold epoch at 1. simpl.
      split_and!; [apply elem_of_app; by left|done|done|done|done|lia|done].
  - apply stems_weaken, IH. by apply map_lookup_filter_Some in Hk as [? _].
Qed.

Lemma find_key_admitted m q :
  (∀ k e, m !! k = Some e → is_fqdn (q_name k) = true) →
  ∀ key, find_key m q = Some key ↔ key = admitted_query q ∧ is_Some (m !! key).
Proof.
  intros Hf key. unfold find_key, admitted_query. destruct (is_fqdn (q_name q)) eqn:Hq.
  - rewrite set_fqdn_id by done. assert (mkQuery (q_name q) (query_type q) (query_class q) = q) as ->
      by (by destruct q).
    destruct (m !! q) as [e|] eqn:Hm; split.
    + intros [= <-]. eauto.
    + by intros [-> _].
    + done.
    + intros [-> [e He]]. congruence.
  - assert (Hkey : ∀ k e, m !! k = Some e →
      same_question k q = true ↔ k = mkQuery (set_fqdn (q_name q)) (query_type q) (query_class q)).
    { intros k e Hk. unfold same_question. rewrite !andb_true_iff, !Z.eqb_eq. split.
      - intros [[Hn Ht] Hc]. destruct k as [n t c]. simpl in *. subst. f_equal.
        apply fqdn_eq; [by apply (Hf _ _ Hk)|apply set_fqdn_is_fqdn|].
        pose proof eq_ignore_root_equiv as [_ Hsym Htrans].
        apply (Htrans _ (q_name q)); [exact Hn|]. apply Hsym, set_fqdn_same.
      - intros ->. simpl. split_and!; [apply set_fqdn_same|done|done]. }
    split.
    + destruct (List.find _ (iter m)) as [[k e]|] eqn:Hfind; [|done]. intros [= <-].
      apply find_some in Hfind as [Hin Hs]. apply list_elem_of_In, iter_lookup in Hin. simpl in *.
      split; [by apply (Hkey k e)|eauto].
    + intros [-> [e He]]. destruct (List.find _ (iter m)) as [[k e']|] eqn:Hfind.
      * apply find_some in Hfind as [Hin Hs]. apply list_elem_of_In, iter_lookup in Hin. simpl in *.
        f_equal. by apply (Hkey k e').
      * exfalso. eapply List.find_none in Hfind; [|apply list_elem_of_In, iter_lookup; exact He].
        simpl in Hfind. rewrite (proj2 (Hkey _ _ He) eq_refl) in Hfind. done.
Qed.

(** C11: every answer the cache serves is the packet of an earlier insertion
    of the same question, relative or absolute, and neither the monotonic clock
    nor the wall clock has reached the end of its lifetime, whatever lookups
    and saves came between and however the wall clock jumped: its records are
    aged by at least the time that passed on either clock, and the lifetime it
    is served with ends no later. *)
Theorem served_answers_are_fresh ops q now instant ans :
  Forall durations_ok ops → (get_at (run ∅ ops) q now instant).1 = Some ans →
  ∃ q0 a now0 instant0 bytes msg x, Insert q0 a now0 instant0 ∈ ops ∧
    admitted_query q0 = admitted_query q ∧
    to_vec (message a) = Some bytes ∧ from_vec bytes = Some msg ∧
    message ans = age_message (Z.min u32_max (x / SECOND)) (normalize_negative_soa_ttl q msg) ∧
    instant - instant0 ≤ x ∧ now - resolved_at a ≤ x ∧
    0 < answer_ttl ans ∧
    instant + answer_ttl ans ≤ instant0 + answer_ttl a ∧ now + answer_ttl ans ≤ resolved_at a + answer_ttl a.
Proof.
  intros Hd. pose proof (run_stems ops Hd) as Hstem.
  assert (Hf : ∀ k e, run ∅ ops !! k = Some e → is_fqdn (q_name k) = true).
  { intros k e Hk. destruct (Hstem k e Hk) as (q0 & a & n & i & _ & -> & _). apply set_fqdn_is_fqdn. }
  unfold get_at. destruct (find_key (run ∅ ops) q) as [key|] eqn:Hkey; [|done].
  apply (find_key_admitted _ _ Hf) in Hkey as [-> _].
  destruct (run ∅ ops !! admitted_query q) as [e|] eqn:Hk; [|done].
  destruct (Z.eqb_spec (remaining e now instant) 0) as [|Hne]; [done|]. simpl.
  destruct (Hstem _ _ Hk) as (q0 & a & n & i & Hin & Hq & Hv & Ht & Hr & He & Hdm).
  destruct (remaining_bounds e now instant Hdm Hne) as (Hpos & Hi & Hw & Hage).
  rewrite touched_age by done. destruct (from_vec (packet e)) as [msg|] eqn:Hm; [|done]. intros [= <-]. simpl.
  exists q0, a, n, i, (packet e), msg, (age e now instant). fold (remaining e now instant).
  split_and!; [done|done|done|done|done|lia|lia|lia|lia|lia].
Qed.

(** ** The file reads back *)

Lemma be_length n x : length (be n x) = n.
Proof. unfold be, parts_of. by rewrite length_map, length_rev, length_seq. Qed.

Lemma from_be_be n x : 0 ≤ x < 2 ^ (8 * Z.of_nat n) → from_be (be n x) = x.
Proof.
  intros Hx. unfold from_be, be, of_octets, of_parts. rewrite of_parts_from by done.
  rewrite Z.mod_mod, Z.mod_small by lia. lia.
Qed.

Lemma from_be_signed_be n x :
  (0 < n)%nat → - 2 ^ (8 * Z.of_nat n - 1) ≤ x < 2 ^ (8 * Z.of_nat n - 1) → from_be_signed (be n x) = x.
Proof.
  intros Hn Hx. unfold from_be_signed. rewrite be_length.
  assert (Hp : 2 ^ (8 * Z.of_nat n) = 2 * 2 ^ (8 * Z.of_nat n - 1)).
  { rewrite <-Z.pow_succ_r by lia. f_equal. lia. }
  assert (Hv : of_octets (be n x) = x mod 2 ^ (8 * Z.of_nat n)).
  { unfold be, of_octets, of_parts. rewrite of_parts_from by done. rewrite Z.mod_mod; lia. }
  rewrite Hv. destruct (Z.ltb_spec x 0).
  - assert (Hm : x mod 2 ^ (8 * Z.of_nat n) = x + 2 ^ (8 * Z.of_nat n)).
    { rewrite <-(Z_mod_plus_full x 1), Z.mul_1_l. apply Z.mod_small. lia. }
    rewrite Hm. destruct (Z.ltb_spec (x + 2 ^ (8 * Z.of_nat n)) (2 ^ (8 * Z.of_nat n - 1))); lia.
  - rewrite Z.mod_small by lia. destruct (Z.ltb_spec x (2 ^ (8 * Z.of_nat n - 1))); lia.
Qed.

Lemma take_bytes_app n bs rest : length bs = n → take_bytes n (bs ++ rest) = Some (bs, rest).
Proof.
  intros <-. unfold take_bytes. rewrite length_app.
  destruct (Nat.ltb_spec (length bs + length rest) (length bs)); [lia|].
  by rewrite take_app_length, drop_app_length.
Qed.

(** An entry a frame can hold, whose packet answers the question [q] for at
    least the stored lifetime. *)
Record storable (q : Query) (e : Entry) : Prop := {
  st_stamp : - 2 ^ 127 ≤ e_resolved_at e < 2 ^ 127;
  st_range : timestamp_ok (e_resolved_at e) = true;
  st_ttl : 0 ≤ e_ttl e ≤ DURATION_MAX;
  st_packet : packet_len e ≤ MAX_PACKET;
  st_question : ∃ msg qs t, from_vec (packet e) = Some msg ∧ queries msg = q :: qs ∧
    cache_ttl q msg = Some t ∧ e_ttl e ≤ t * SECOND;
}.

(** What the load makes of it at its own time. *)
Definition reloaded (now instant : Z) (qe : Query * Entry) : option (Query * Entry) :=
  let '(q, e) := qe in
  if (now <? e_resolved_at e) || (e_ttl e <=? now - e_resolved_at e) then None
  else Some (admitted_query q,
             mkEntry (packet e) (e_ttl e) (e_resolved_at e) instant (now - e_resolved_at e)).

Lemma read_frame_frame q e rest now instant :
  storable q e → read_frame (frame e ++ rest) now instant = Some (reloaded now instant (q, e), rest).
Proof.
  intros [Hs Hr Ht Hp (msg & qs & t & Hv & Hq & Hc & Hle)]. unfold read_frame, frame.
  rewrite <-!app_assoc. rewrite !take_bytes_app by apply be_length.
  assert (Hlen : from_be (be 4 (packet_len e)) = packet_len e).
  { apply from_be_be. unfold packet_len, MAX_PACKET in *. simpl. lia. }
  rewrite Hlen, take_bytes_app by (unfold packet_len; lia).
  rewrite (proj2 (Z.ltb_ge _ _) Hp). rewrite from_be_signed_be by (simpl; lia). rewrite Hr. cbn [negb].
  assert (Hsec : from_be (be 8 (e_ttl e / SECOND)) = e_ttl e / SECOND).
  { apply from_be_be. unfold DURATION_MAX, SECOND in *. split; [apply Z.div_pos; lia|].
    apply Z.div_lt_upper_bound; [lia|]. simpl. lia. }
  pose proof (Z.mod_pos_bound (e_ttl e) SECOND ltac:(unfold SECOND; lia)) as Hmod.
  assert (Hnan : from_be (be 4 (e_ttl e mod SECOND)) = e_ttl e mod SECOND).
  { apply from_be_be. unfold SECOND in *. simpl. lia. }
  rewrite Hsec, Hnan. rewrite (proj2 (Z.leb_gt _ _)) by (unfold SECOND in *; lia).
  replace (e_ttl e / SECOND * SECOND + e_ttl e mod SECOND) with (e_ttl e)
    by (pose proof (Z.div_mod (e_ttl e) SECOND ltac:(unfold SECOND; lia)); lia).
  unfold reloaded, wall_age. rewrite Hv, Hq, Hc, Z.min_l by done.
  destruct (Z.ltb_spec (now - e_resolved_at e) 0), (Z.ltb_spec now (e_resolved_at e)); try lia; [done|].
  cbn [orb]. by destruct (e_ttl e <=? now - e_resolved_at e).
Qed.

Lemma reloaded_remaining q e k e' now instant :
  e_ttl e ≤ DURATION_MAX → reloaded now instant (q, e) = Some (k, e') → remaining e' now instant ≠ 0.
Proof.
  intros Hd. unfold reloaded. destruct (Z.ltb_spec now (e_resolved_at e)); [done|].
  destruct (Z.leb_spec (e_ttl e) (now - e_resolved_at e)); [done|]. intros [= <- <-].
  unfold remaining, age, wall_age, saturating_sub, saturating_add. simpl. rewrite Z.sub_diag.
  destruct (Z.ltb_spec (now - e_resolved_at e) 0); simpl; lia.
Qed.

Definition stored_bytes (qes : list (Query * Entry)) : Z := foldr (fun qe acc => packet_len qe.2 + acc) 0 qes.

Lemma frame_length e : Z.of_nat (length (frame e)) = FRAME_HEADER + packet_len e.
Proof. unfold frame. rewrite !length_app, !be_length. unfold packet_len, FRAME_HEADER. lia. Qed.

Lemma frames_length qes :
  Z.of_nat (length (flat_map frame (map snd qes))) = FRAME_HEADER * Z.of_nat (length qes) + stored_bytes qes.
Proof.
  induction qes as [|[q e] qes IH]; [done|]. cbn [map flat_map snd length]. rewrite length_app.
  unfold stored_bytes in *. cbn [foldr snd]. pose proof (frame_length e). lia.
Qed.

Lemma admit_room m key e now instant :
  m !! key = None → map_Forall (fun _ e' => remaining e' now instant ≠ 0) m → ¬ pressure m (packet_len e) →
  admit_entry m key e now instant = <[key := e]> m.
Proof.
  intros Hk Hf Hp. unfold admit_entry.
  assert (Hfr : fresh_entries m now instant = m).
  { unfold fresh_entries. apply map_filter_id. intros k e' Hke. by apply (Hf k e'). }
  rewrite Hfr, delete_id by done. f_equal.
  by apply (evict_spec (S (size m)) m (packet_len e) now instant ltac:(lia)).
Qed.

Lemma stored_bytes_nonneg qes : 0 ≤ stored_bytes qes.
Proof. induction qes as [|[q e] qes IH]; [done|]. simpl. unfold packet_len. lia. Qed.

Lemma read_frames_all n m qes now instant :
  Forall (fun qe => storable qe.1 qe.2) qes →
  NoDup (map (fun qe => admitted_query qe.1) qes) →
  (∀ qe, qe ∈ qes → m !! admitted_query qe.1 = None) →
  map_Forall (fun _ e => remaining e now instant ≠ 0) m →
  (length qes ≤ n)%nat → Z.of_nat (size m + length qes) ≤ DNS_CACHE_CAP →
  total_bytes m + stored_bytes qes ≤ MAX_PAYLOAD →
  read_frames n m (flat_map frame (map snd qes)) now instant =
    list_to_map (omap (reloaded now instant) qes) ∪ m.
Proof.
  revert n m. induction qes as [|[q e] qes IH]; intros n m Hst Hnd Hnew Hfr Hn Hcap Hbytes.
  { simpl. rewrite map_empty_union. destruct n; [done|]. done. }
  destruct n as [|n]; [simpl in Hn; lia|]. cbn [map flat_map snd read_frames].
  inversion Hst as [|? ? Hse Hst']; subst. inversion Hnd as [|? ? Hnotin Hnd']; subst. simpl in Hse, Hnotin.
  rewrite (read_frame_frame q) by done. cbn [stored_bytes foldr snd] in Hbytes. fold (stored_bytes qes) in Hbytes.
  pose proof (stored_bytes_nonneg qes) as Hsb. simpl in Hn, Hcap.
  assert (Hpl : 0 ≤ packet_len e) by (unfold packet_len; lia).
  cbn [omap list_omap]. destruct (reloaded now instant (q, e)) as [[k e']|] eqn:Hre.
  - pose proof (reloaded_remaining _ _ _ _ _ _ (proj2 (st_ttl _ _ Hse)) Hre) as Hrem.
    assert (k = admitted_query q ∧ packet e' = packet e) as [-> Hpk].
    { unfold reloaded in Hre. destruct (_ || _); [done|]. by injection Hre as <- <-. }
    assert (Hplen : packet_len e' = packet_len e) by (unfold packet_len; by rewrite Hpk).
    assert (Hmk : m !! admitted_query q = None) by (apply (Hnew (q, e)); by left).
    rewrite admit_room; [|done|done|unfold pressure; rewrite Hplen; lia].
    rewrite IH; [|done|done| |by apply map_Forall_insert_2|lia|rewrite map_size_insert_None by done; lia|
      rewrite total_bytes_insert by done; lia].
    + rewrite list_to_map_cons, <-insert_union_l, insert_union_r; [done|].
      apply not_elem_of_list_to_map_1. intros Hin. apply Hnotin.
      apply list_elem_of_fmap in Hin as ([k0 e0] & Hk0 & Hin). simpl in Hk0. subst k0.
      apply list_elem_of_omap in Hin as ([q0 e1] & Hin & Hr0). apply list_elem_of_fmap. exists (q0, e1).
      split; [|done]. unfold reloaded in Hr0. destruct (_ || _); [done|]. simpl. congruence.
    + intros qe Hqe. rewrite lookup_insert_ne; [by apply Hnew; right|]. intros Heq. apply Hnotin.
      rewrite Heq. apply list_elem_of_fmap. eauto.
  - apply IH; try done; [|lia|lia|lia]. intros qe Hqe. apply Hnew. by right.
Qed.

(** a saved file reads back at any later time as exactly the saved
    entries that are still alive then by the wall clock, each with its packet,
    its stamp and its lifetime, already aged. *)
Theorem saved_entries_reload qes now instant :
  Forall (fun qe => storable qe.1 qe.2) qes →
  NoDup (map (fun qe => admitted_query qe.1) qes) →
  Z.of_nat (length qes) ≤ DNS_CACHE_CAP → stored_bytes qes ≤ MAX_PAYLOAD →
  load (Some (encode (map snd qes))) now instant = list_to_map (omap (reloaded now instant) qes).
Proof.
  intros Hst Hnd Hn Hb.
  assert (Hlen : Z.of_nat (length (encode (map snd qes))) ≤ MAX_FILE).
  { unfold encode. rewrite length_app. pose proof (frames_length qes). unfold MAX_FILE, FRAME_HEADER in *. lia. }
  unfold load, decode. rewrite (proj2 (Z.ltb_ge _ _) Hlen). cbn [orb].
  unfold encode. rewrite take_app_length, drop_app_length, bool_decide_eq_true_2 by done. cbn [negb].
  rewrite read_frames_all; [by rewrite map_union_empty|done|done|intros; by rewrite lookup_empty|
    apply map_Forall_empty| | |].
  - unfold DNS_CACHE_CAP in *. lia.
  - rewrite map_size_empty. done.
  - unfold total_bytes. rewrite map_fold_empty. lia.
Qed.
End Cache.

(** ** Witnesses *)

Section Witnesses.
#[local] Existing Instance sample_names.
#[local] Existing Instance sample_names_laws.

(** A codec that knows one packet. *)
Definition sample_codec : PacketCrate := {|
  from_vec bs := if bool_decide (bs = [7]) then Some sample_negative else None;
  to_vec _ := Some [7];
  message_eqb _ _ := true;
  decrement_ttl t s := saturating_sub t s;
  timestamp_ok _ := true;
|}.
Definition sample_order : HashOrder := {| iter := map_to_list; iter_perm _ := reflexivity _ |}.
#[local] Existing Instance sample_codec.
#[local] Existing Instance sample_order.

Definition sample_entry : Entry := mkEntry [7] (60 * SECOND) 0 0 0.
Definition sample_insert : op := Insert sample_question (mkAnswer sample_negative (90 * SECOND) 0) 0 0.

Lemma admission_evicts_soonest_witness :
  admit_entry ∅ sample_question sample_entry 0 0 !! sample_question = Some sample_entry.
Proof.
  apply (admission_evicts_soonest ∅ sample_question sample_entry 0 0). vm_compute. discriminate.
Defined.

Lemma cache_stays_bounded_witness : wf (run (load None 0 0) [sample_insert]).
Proof. exact (cache_stays_bounded None 0 0 [sample_insert]). Defined.

Definition sample_served : ResolvedAnswer :=
  default (mkAnswer sample_negative 0 0) (get_at (run ∅ [sample_insert]) sample_question SECOND SECOND).1.

Lemma served_answers_are_fresh_witness :
  answer_ttl sample_served = 59 * SECOND ∧
  ∃ q0 a now0 instant0 bytes msg x, Insert q0 a now0 instant0 ∈ [sample_insert] ∧
    admitted_query q0 = admitted_query sample_question ∧
    to_vec (message a) = Some bytes ∧ from_vec bytes = Some msg ∧
    message sample_served =
      age_message (Z.min u32_max (x / SECOND)) (normalize_negative_soa_ttl sample_question msg) ∧
    SECOND - instant0 ≤ x ∧ SECOND - resolved_at a ≤ x ∧
    0 < answer_ttl sample_served ∧
    SECOND + answer_ttl sample_served ≤ instant0 + answer_ttl a ∧
    SECOND + answer_ttl sample_served ≤ resolved_at a + answer_ttl a.
Proof.
  split; [vm_compute; reflexivity|].
  apply (served_answers_are_fresh [sample_insert] sample_question SECOND SECOND sample_served).
  - constructor; [vm_compute; discriminate|constructor].
  - vm_compute. reflexivity.
Defined.

Lemma saved_entries_reload_witness :
  load (Some (encode [sample_entry])) SECOND 5 =
    list_to_map (omap (reloaded SECOND 5) [(sample_question, sample_entry)]).
Proof.
  apply (saved_entries_reload [(sample_question, sample_entry)] SECOND 5).
  - constructor; [|constructor]. split; simpl; [lia|done|vm_compute; split; discriminate|vm_compute; discriminate|].
    exists sample_negative, [], 60. split_and!; [vm_compute; reflexivity|done|vm_compute; reflexivity|done].
  - apply NoDup_singleton.
  - vm_compute. discriminate.
  - vm_compute. discriminate.
Defined.
End Witnesses.
End DnsCache.
