(* ===== verification/DnsWire.v ===== *)
(** * The DNS frontend's packets and frames

    [packages/dns-server/src/server/server_wire.rs]: the replies of the
    frontend, the UDP size limit with truncation, and the length-prefixed
    frames of TCP under one absolute read budget. *)

From S2P Require Import Prelude Order Str Net NetText DnsPacket DnsCache.
Import DnsPacket DnsCache.
Open Scope Z_scope.

(** More of [hickory_proto]: names as text, and [Message::truncate]. *)
Class FrontCrate `{NameCrate} : Type := {
  name_to_string : Name → str;
  name_from_ascii : str → option Name;
  truncate : Message → Message;
}.

(** [truncate] blindly removes the response records and the signature, and
    sets the truncation bit; [localhost.] is a name. *)
Class FrontLaws `{FrontCrate} : Prop := {
  truncate_metadata : ∀ m, metadata (truncate m) =
    mkMeta (id (metadata m)) (is_response_type (metadata m)) (op_code (metadata m)) (authoritative (metadata m))
      true (recursion_desired (metadata m)) (recursion_available (metadata m)) (authentic_data (metadata m))
      (checking_disabled (metadata m)) (rcode (metadata m));
  truncate_queries : ∀ m, queries (truncate m) = queries m;
  truncate_edns : ∀ m, has_edns (truncate m) = has_edns m;
  truncate_unsigned : ∀ m, signed (truncate m) = false;
  truncate_records : ∀ m, all_records (truncate m) = [];
  localhost_name : is_Some (name_from_ascii (lit "localhost."));
}.

Module DnsWire.

Definition FormErr : ResponseCode := OtherCode 1.
Definition ServFail : ResponseCode := OtherCode 2.
Definition NotImp : ResponseCode := OtherCode 4.
Definition TYPE_IXFR : Z := 251.
Definition TYPE_AXFR : Z := 252.

Section Replies.
Context `{FrontCrate} `{!PacketCrate}.

(** [Message::new] and [Message::error_msg]. *)
Definition message_new (i : Z) (response : bool) (op : Z) : Message :=
  mkMessage (mkMeta i response op false false false false false false NoError) false false [] [] [] [].
Definition error_msg (i op : Z) (code : ResponseCode) : Message :=
  mkMessage (mkMeta i true op false false false false false false code) false false [] [] [] [].

Definition hostname_of (q : Query) : str :=
  let host := to_ascii_lowercase (name_to_string (q_name q)) in
  if ends_with [46] host then take (length host - 1) host else host.

Definition parse_query (bytes : list Z) : option Message :=
  match from_vec bytes with
  | None => None
  | Some m => if is_response m then None else Some m
  end.

Definition build_response (request : Message) (answer : option Message) (failure : ResponseCode) : Message :=
  let reply := default (error_msg (id (metadata request)) 0 failure) answer in
  mkMessage
    (mkMeta (id (metadata request)) true (op_code (metadata request)) (authoritative (metadata reply))
       (truncated (metadata reply)) (recursion_desired (metadata request)) true false
       (checking_disabled (metadata request)) (rcode (metadata reply)))
    false false
    (match queries request with q :: _ => [q] | [] => [] end)
    (answers reply) (authorities reply) (additionals reply).

Definition is_transfer (q : Query) : bool := (query_type q =? TYPE_AXFR) || (query_type q =? TYPE_IXFR).

Definition unsupported_response (request : Message) : option Message :=
  if negb (op_code (metadata request) =? 0) || existsb is_transfer (queries request)
  then Some (build_response request None NotImp) else None.

Definition formerr (request : Message) : Message := build_response request None FormErr.

(** [response] of the server module. *)
Definition response (request : Message) (answer : option ResolvedAnswer) : Message :=
  build_response request (option_map message answer) ServFail.

Definition not_authentic (m : Message) : Message :=
  let h := metadata m in
  mkMessage (mkMeta (id h) (is_response_type h) (op_code h) (authoritative h) (truncated h) (recursion_desired h)
               (recursion_available h) false (checking_disabled h) (rcode h))
    (signed m) (has_edns m) (queries m) (answers m) (authorities m) (additionals m).

Definition UDP_LIMIT : nat := 512.

(** The packet [encode_udp_response] puts on the wire and its bytes. *)
Definition encode_udp_response (m : Message) : option (list Z) :=
  match to_vec m with
  | None => None
  | Some bytes =>
      if (length bytes <=? UDP_LIMIT)%nat then Some bytes
      else match to_vec (not_authentic (truncate m)) with
      | None => None
      | Some bytes => if (length bytes <=? UDP_LIMIT)%nat then Some bytes else None
      end
  end.

(** What every reply owes the request: its transaction, its question and its
    flags, no claim of authenticated data, no EDNS and no signature. *)
Definition echoes (request reply : Message) : Prop :=
  id (metadata reply) = id (metadata request) ∧
  is_response reply = true ∧
  op_code (metadata reply) = op_code (metadata request) ∧
  recursion_desired (metadata reply) = recursion_desired (metadata request) ∧
  checking_disabled (metadata reply) = checking_disabled (metadata request) ∧
  recursion_available (metadata reply) = true ∧
  authentic_data (metadata reply) = false ∧
  queries reply = take 1 (queries request) ∧
  has_edns reply = false ∧ signed reply = false.

Lemma build_response_echoes request answer failure : echoes request (build_response request answer failure).
Proof.
  unfold echoes, build_response. simpl. by split_and!.
Qed.

(** The datagram of a reply is the encoding of the reply itself, or of the same
    reply emptied and marked truncated. *)
Lemma udp_datagram `{!FrontLaws} request reply bytes :
  echoes request reply → encode_udp_response reply = Some bytes →
  (length bytes ≤ UDP_LIMIT)%nat ∧
  ∃ sent, to_vec sent = Some bytes ∧ echoes request sent ∧
    (sent = reply ∨ truncation sent = true ∧ all_records sent = [] ∧ response_code sent = response_code reply).
Proof.
  intros He. unfold encode_udp_response. destruct (to_vec reply) as [bs|] eqn:Hr; [|done].
  destruct (Nat.leb_spec (length bs) UDP_LIMIT) as [Hle|_].
  { intros [= <-]. split; [done|]. exists reply. auto. }
  destruct (to_vec (not_authentic (truncate reply))) as [bs'|] eqn:Ht; [|done].
  destruct (Nat.leb_spec (length bs') UDP_LIMIT) as [Hle|]; [|done]. intros [= <-]. split; [done|].
  eexists. split; [done|]. unfold echoes, not_authentic, is_response, truncation, response_code, all_records in *. simpl.
  pose proof (truncate_records reply) as Hall. unfold all_records in Hall.
  rewrite truncate_metadata, truncate_queries, truncate_edns, truncate_unsigned. simpl.
  destruct He as (?&?&?&?&?&?&?&?&?&?). split; [by split_and!|]. by right.
Qed.
End Replies.

(** ** Frames *)

Inductive io_error : Type := UnexpectedEof | InvalidData | TimedOut | ConnectionLost.

(** What a connection delivers, and when. The end of the list is a peer that
    sends nothing more and does not close. *)
Inductive arrival : Type :=
| Data (bs : list Z)
| Closed
| Lost.

Abbreviation timed_stream := (list (Z * arrival)).

(** [read_exact] of [k] more bytes before the deadline. *)
Fixpoint read_exact (now deadline : Z) (k : nat) (got : list Z) (s : timed_stream)
  : result (list Z * timed_stream * Z) io_error :=
  match k with
  | O => Ok (got, s, now)
  | _ =>
      match s with
      | [] => Err TimedOut
      | (t, e) :: s' =>
          let now := Z.max now t in
          if deadline <? now then Err TimedOut
          else match e with
          | Closed => Err UnexpectedEof
          | Lost => Err ConnectionLost
          | Data bs =>
              if (length bs <=? k)%nat then read_exact now deadline (k - length bs) (got ++ bs) s'
              else Ok (got ++ take k bs, (t, Data (drop k bs)) :: s', now)
          end
      end
  end.

(** The first read tells a close between frames from one inside a frame. *)
Definition closed_by (now deadline : Z) (s : timed_stream) : bool :=
  match s with
  | (t, Closed) :: _ => Z.max now t <=? deadline
  | _ => false
  end.

Definition read_framed_message (now budget : Z) (s : timed_stream)
  : result (option (list Z * timed_stream * Z)) io_error :=
  let deadline := now + budget in
  if closed_by now deadline s then Ok None
  else match read_exact now deadline 1 [] s with
  | Err e => Err e
  | Ok (p0, s, now) =>
      match read_exact now deadline 1 [] s with
      | Err e => Err e
      | Ok (p1, s, now) =>
          let length := of_octets (p0 ++ p1) in
          if length =? 0 then Err InvalidData
          else match read_exact now deadline (Z.to_nat length) [] s with
          | Err e => Err e
          | Ok (body, s, now) => Ok (Some (body, s, now))
          end
      end
  end.

(** The frame that is written, before any output error. *)
Definition write_framed_message (body : list Z) : result (list Z) io_error :=
  if u16_max <? Z.of_nat (length body) then Err InvalidData
  else Ok (be 2 (Z.of_nat (length body)) ++ body).

(** The bytes of a stream, up to its end. *)
Fixpoint delivered (s : timed_stream) : list Z :=
  match s with
  | (_, Data bs) :: s' => bs ++ delivered s'
  | _ => []
  end.

(** Pieces that are not empty, all of them by the deadline. *)
Definition in_time (deadline : Z) (s : timed_stream) : Prop :=
  Forall (fun te => te.1 ≤ deadline ∧ match te.2 with Data bs => bs ≠ [] | _ => True end) s.

Lemma read_exact_sound now deadline k got s r s' now' :
  read_exact now deadline k got s = Ok (r, s', now') →
  ∃ bs, r = got ++ bs ∧ length bs = k ∧ delivered s = bs ++ delivered s' ∧ now ≤ now' ∧ (now' = now ∨ now' ≤ deadline).
Proof.
  revert now k got. induction s as [|[t e] s IH]; intros now k got; destruct k as [|k].
  1,3: cbn [read_exact]; intros [= <- <- <-]; exists []; rewrite app_nil_r; split_and!; [done|done|done|lia|by left].
  1: done.
  cbn [read_exact]. destruct (Z.ltb_spec deadline (Z.max now t)) as [|Hd]; [done|].
  destruct e as [bs| |]; [|done|done]. destruct (Nat.leb_spec (length bs) (S k)) as [Hle|Hgt].
  - intros (cs & -> & Hlen & Hdel & Hnow & Hd')%IH. exists (bs ++ cs). rewrite length_app, app_assoc.
    split_and!; [done|lia|cbn [delivered]; by rewrite Hdel, app_assoc|lia|lia].
  - intros [= <- <- <-]. exists (take (S k) bs). rewrite length_take. cbn [delivered].
    split_and!; [done|lia|by rewrite app_assoc, take_drop|lia|by right].
Qed.

(** The stream ends with a close. *)
Fixpoint closes (s : timed_stream) : bool :=
  match s with
  | (_, Data _) :: s' => closes s'
  | (_, Closed) :: _ => true
  | _ => false
  end.

Lemma read_exact_complete now deadline k got s :
  in_time deadline s → now ≤ deadline → (k ≤ length (delivered s))%nat →
  ∃ s' now', read_exact now deadline k got s = Ok (got ++ take k (delivered s), s', now') ∧
    in_time deadline s' ∧ delivered s' = drop k (delivered s) ∧ now' ≤ deadline ∧ closes s' = closes s.
Proof.
  intros Hs. revert now k got. induction Hs as [|[t e] s [Ht He] Hs IH]; intros now k got Hnow Hk.
  - destruct k; [|simpl in Hk; lia]. exists [], now. cbn [read_exact delivered]. rewrite drop_nil, take_nil, app_nil_r.
    split_and!; [done|constructor|done|done|done].
  - simpl in Ht, He. destruct k as [|k].
    { exists ((t, e) :: s), now. cbn [read_exact]. rewrite take_0, app_nil_r, drop_0. split_and!; try done. by constructor. }
    cbn [read_exact]. rewrite (proj2 (Z.ltb_ge _ _)) by lia.
    destruct e as [bs| |]; [|simpl in Hk; lia|simpl in Hk; lia]. cbn [delivered] in *. rewrite length_app in Hk.
    destruct (Nat.leb_spec (length bs) (S k)) as [Hle|Hgt].
    + destruct (IH (Z.max now t) (S k - length bs)%nat (got ++ bs)) as (s' & now' & Hr & Ht' & Hd & Hn & Hc); [lia|lia|].
      exists s', now'. rewrite take_app, drop_app, take_ge, drop_ge, app_assoc by lia. split_and!; done.
    + eexists _, _. rewrite take_app_le, drop_app_le by lia. split; [done|]. split_and!; [|done|lia|done].
      constructor; [|done]. simpl. split; [done|]. intros Hd. apply (f_equal length) in Hd. rewrite length_drop in Hd.
      simpl in Hd. lia.
Qed.

Definition frame_of (body : list Z) : list Z := be 2 (Z.of_nat (length body)) ++ body.

Definition frameable (body : list Z) : Prop := body ≠ [] ∧ Z.of_nat (length body) ≤ u16_max.

Lemma prefix_value n : 0 ≤ n ≤ u16_max → ∃ p0 p1, be 2 n = [p0; p1] ∧ of_octets [p0; p1] = n.
Proof.
  unfold u16_max. intros Hn. pose proof (from_be_be 2 n ltac:(simpl; lia)) as Hv.
  destruct (be 2 n) as [|p0 [|p1 [|]]] eqn:Hbe;
    pose proof (f_equal length Hbe) as Hl; rewrite be_length in Hl; try done.
  by exists p0, p1.
Qed.

Lemma prefix_of p0 p1 : 0 ≤ p0 < 256 → 0 ≤ p1 < 256 → be 2 (of_octets [p0; p1]) = [p0; p1].
Proof.
  intros H0 H1. unfold be, of_octets, of_parts. cbn [foldl]. rewrite !parts_of_S.
  rewrite !Z.land_ones, !Z.shiftr_div_pow2 by lia. change (2 ^ (8 * Z.of_nat 2)) with 65536.
  change (2 ^ (8 * Z.of_nat 1)) with 256. change (2 ^ (8 * Z.of_nat 0)) with 1. change (2 ^ 8) with 256.
  rewrite Z.div_1_r, !(Z.mod_small _ 65536) by lia.
  replace ((0 * 256 + p0) * 256 + p1) with (p1 + p0 * 256) by lia.
  rewrite Z.div_add, (Z.div_small p1), Z.mod_add, !Z.mod_small by lia. done.
Qed.

(** One frame is read, in pieces of any size, and the rest left alone. *)
Lemma read_frame_complete now budget s body rest :
  frameable body → in_time (now + budget) s → 0 ≤ budget → delivered s = frame_of body ++ rest →
  ∃ s' now', read_framed_message now budget s = Ok (Some (body, s', now')) ∧
    in_time (now + budget) s' ∧ delivered s' = rest ∧ now' ≤ now + budget ∧ closes s' = closes s.
Proof.
  intros [Hne Hmax] Hs Hb Hd. unfold read_framed_message, frame_of in *.
  destruct (prefix_value (Z.of_nat (length body))) as (p0 & p1 & Hbe & Hval); [lia|]. rewrite Hbe in Hd. simpl in Hd.
  assert (closed_by now (now + budget) s = false) as -> by (destruct s as [|[t []] s]; done).
  destruct (read_exact_complete now (now + budget) 1 [] s) as (s1 & n1 & -> & Hs1 & Hd1 & Hn1 & Hc1);
    [done|lia|rewrite Hd; simpl; lia|].
  rewrite Hd in Hd1 |- *. simpl in Hd1 |- *.
  destruct (read_exact_complete n1 (now + budget) 1 [] s1) as (s2 & n2 & -> & Hs2 & Hd2 & Hn2 & Hc2);
    [done|lia|rewrite Hd1; simpl; lia|].
  rewrite Hd1 in Hd2 |- *. cbn [take drop app] in Hd2 |- *. rewrite drop_0 in Hd2. rewrite take_0, Hval.
  rewrite (proj2 (Z.eqb_neq _ _)) by (destruct body; [done|simpl; lia]). rewrite Nat2Z.id.
  destruct (read_exact_complete n2 (now + budget) (length body) [] s2) as (s3 & n3 & -> & Hs3 & Hd3 & Hn3 & Hc3);
    [done|lia|rewrite Hd2, length_app; lia|].
  rewrite Hd2 in Hd3 |- *. rewrite drop_app_length in Hd3. rewrite take_app_length. simpl.
  eexists _, _. split_and!; [done|done|done|done|]. by rewrite Hc3, Hc2.
Qed.

(** What is read is what was sent, within the budget. *)
Lemma read_frame_sound now budget s body s' now' :
  read_framed_message now budget s = Ok (Some (body, s', now')) → 0 ≤ budget →
  Forall (fun b => 0 ≤ b < 256) (delivered s) →
  delivered s = frame_of body ++ delivered s' ∧ frameable body ∧ now ≤ now' ≤ now + budget.
Proof.
  unfold read_framed_message. destruct (closed_by _ _ _); [done|].
  destruct (read_exact now (now + budget) 1 [] s) as [[[p0 s1] n1]|] eqn:H1; [|done].
  destruct (read_exact n1 (now + budget) 1 [] s1) as [[[p1 s2] n2]|] eqn:H2; [|done].
  destruct (Z.eqb_spec (of_octets (p0 ++ p1)) 0) as [|Hz]; [done|].
  destruct (read_exact n2 _ _ [] s2) as [[[b s3] n3]|] eqn:H3; [|done]. intros [= <- <- <-] Hb Hok.
  apply read_exact_sound in H1 as (a0 & -> & Hl0 & Hd0 & Hn0 & Hm0).
  apply read_exact_sound in H2 as (a1 & -> & Hl1 & Hd1 & Hn1 & Hm1).
  apply read_exact_sound in H3 as (bs & -> & Hl & Hd & Hn & Hm). cbn [app] in *.
  destruct a0 as [|x []]; try done. destruct a1 as [|y []]; try done. cbn [app] in *.
  rewrite Hd0, Hd1, Hd in *. cbn [app] in *. apply Forall_cons in Hok as [Hx Hok].
  apply Forall_cons in Hok as [Hy Hok].
  assert (Hv : of_octets [x; y] = x * 256 + y) by (unfold of_octets, of_parts; simpl; lia).
  assert (Hlen : Z.of_nat (length bs) = of_octets [x; y]) by lia.
  unfold frame_of, frameable, u16_max. rewrite Hlen, prefix_of by done. split; [done|]. split; [|lia].
  split; [|lia]. intros ->. simpl in Hlen. lia.
Qed.

(** ** Conversations *)

(** The reading half of [handle_tcp]: frame after frame until the peer closes
    ([true]) or something goes wrong. *)
Fixpoint read_conversation (n : nat) (now budget : Z) (s : timed_stream) : list (list Z) * bool :=
  match n with
  | O => ([], false)
  | S n' =>
      match read_framed_message now budget s with
      | Ok None => ([], true)
      | Ok (Some (body, s', now')) => let '(bs, e) := read_conversation n' now' budget s' in (body :: bs, e)
      | Err _ => ([], false)
      end
  end.

Lemma in_time_mono d d' s : d ≤ d' → in_time d s → in_time d' s.
Proof. intros Hd Hs. eapply Forall_impl; [exact Hs|]. intros [t e] [Ht He]. split; [simpl in *; lia|done]. Qed.

Lemma read_exact_now now deadline k got s r s' now' : read_exact now deadline k got s = Ok (r, s', now') → now ≤ now'.
Proof. by intros (_ & _ & _ & _ & ? & _)%read_exact_sound. Qed.

Lemma read_framed_now now budget s body s' now' :
  read_framed_message now budget s = Ok (Some (body, s', now')) → now ≤ now'.
Proof.
  unfold read_framed_message. destruct (closed_by _ _ _); [done|].
  destruct (read_exact now _ 1 [] s) as [[[p0 s1] n1]|] eqn:H1; [|done].
  destruct (read_exact n1 _ 1 [] s1) as [[[p1 s2] n2]|] eqn:H2; [|done].
  destruct (_ =? 0); [done|]. destruct (read_exact n2 _ _ [] s2) as [[[b s3] n3]|] eqn:H3; [|done].
  intros [= <- <- <-]. apply read_exact_now in H1, H2, H3. lia.
Qed.

(** messages written as frames one after the other and cut into pieces of
    any sizes by the connection are read back as exactly those messages, in
    order, and then the close; and a frame that is read was sent as such, in
    full, and within the one budget that covers prefix and body. *)
Theorem frames_round_trip bodies now budget s :
  Forall frameable bodies → in_time (now + budget) s → 0 ≤ budget → closes s = true →
  (∃ frames, Forall2 (fun b f => write_framed_message b = Ok f) bodies frames ∧ delivered s = concat frames) →
  read_conversation (S (length bodies)) now budget s = (bodies, true) ∧
  ∀ body s' now', read_framed_message now budget s = Ok (Some (body, s', now')) →
    Forall (fun b => 0 ≤ b < 256) (delivered s) →
    delivered s = frame_of body ++ delivered s' ∧ now' ≤ now + budget.
Proof.
  intros Hok Ht Hb Hcl (frames & Hfr & Hd). split.
  2: { intros body s' now' Hr Hby. destruct (read_frame_sound _ _ _ _ _ _ Hr Hb Hby) as (? & _ & ?). split; [done|lia]. }
  revert now s Ht Hcl Hd. induction Hfr as [|body frame bodies frames Hw Hfr IH]; intros now s Ht Hcl Hd.
  - simpl. destruct s as [|[t [bs| |]] s]; try done.
    + exfalso. apply Forall_cons in Ht as [[_ Hne] _]. simpl in Hd, Hne. by destruct bs.
    + apply Forall_cons in Ht as [[Htt _] _]. simpl in Htt. unfold read_framed_message, closed_by.
      by rewrite (proj2 (Z.leb_le _ _)) by lia.
  - apply Forall_cons in Hok as [Hbody Hok].
    assert (Hf : frame = frame_of body).
    { unfold write_framed_message in Hw. destruct (_ <? _); [done|]. by injection Hw as <-. }
    subst frame. simpl in Hd. cbn [length]. cbn [read_conversation].
    destruct (read_frame_complete now budget s body (concat frames)) as (s' & now' & Hr & Ht' & Hd' & Hn' & Hc');
      [done|done|done|done|]. rewrite Hr. pose proof (read_framed_now _ _ _ _ _ _ Hr).
    pose proof (IH Hok now' s') as IH'. cbn [read_conversation] in IH'. rewrite IH'; [done| |congruence|done].
    by apply (in_time_mono (now + budget)); [lia|].
Qed.

(** ** Witnesses *)

Section Witnesses.
#[local] Existing Instance sample_names.

Definition sample_front : FrontCrate := {|
  name_to_string n := n.1;
  name_from_ascii s := Some (s, true);
  truncate m :=
    let h := metadata m in
    mkMessage (mkMeta (id h) (is_response_type h) (op_code h) (authoritative h) true (recursion_desired h)
                 (recursion_available h) (authentic_data h) (checking_disabled h) (rcode h))
      false (has_edns m) (queries m) [] [] [];
|}.
#[local] Existing Instance sample_front.

Lemma sample_front_laws : FrontLaws.
Proof. by split. Qed.

(** Two messages in three pieces. *)
Definition sample_stream : timed_stream := [(1, Data [0; 2; 7]); (2, Data [8; 0]); (3, Data [1; 9]); (4, Closed)].

Lemma frames_round_trip_witness : read_conversation 3 0 10 sample_stream = ([[7; 8]; [9]], true).
Proof.
  apply (frames_round_trip [[7; 8]; [9]] 0 10 sample_stream).
  - repeat constructor; (discriminate || (vm_compute; discriminate)).
  - repeat constructor; (discriminate || (vm_compute; discriminate)).
  - done.
  - reflexivity.
  - exists [[0; 2; 7; 8]; [0; 1; 9]]. split; [|reflexivity]. repeat constructor.
Defined.
End Witnesses.
End DnsWire.
