(* ===== verification/DnsLocal.v ===== *)
(** * Local DNS answers

    [packages/dns-server/src/server/server_local.rs]: the names and reverse
    names that are answered on the spot, before cache, overrides and tunnel,
    and the payload-free route probe that recognises the machine's own
    addresses behind a wildcard listener. *)

From S2P Require Import Prelude Order Str Utf8 Net NetText DnsPacket DnsCache DnsOverrides DnsWire.
Import DnsPacket DnsCache DnsOverrides DnsWire.
Open Scope Z_scope.

Module DnsLocal.

(** Nanoseconds. *)
Definition LOCAL_PROBE_TIMEOUT : Z := 100 * 10 ^ 6.
Definition LOCAL_TTL : Z := 60.
Definition CLASS_IN : Z := 1.

Definition canonical : ip_addr → ip_addr := canonical_ip.

(** ** Reverse names *)

(** The loop over the labels from the right, [n] of them, nothing after. *)
Fixpoint read_labels (n : nat) (label_value : str → option Z) (labels : list str) : option (list Z) :=
  match n with
  | O => match labels with [] => Some [] | _ => None end
  | S n' =>
      match labels with
      | [] => None
      | l :: ls =>
          match label_value l with
          | None => None
          | Some v => match read_labels n' label_value ls with Some vs => Some (v :: vs) | None => None end
          end
      end
  end.

Definition nibble (label : str) : option Z :=
  if negb (str_len label =? 1) then None
  else match label with c :: _ => to_digit 16 c | [] => None end.

Definition rsplit_dots (s : str) : list str := rev (split_on 46 s).

Definition reverse_ip (host : str) : option ip_addr :=
  match strip_suffix (lit ".in-addr.arpa") host with
  | Some body =>
      match read_labels 4 (parse_uint 255) (rsplit_dots body) with
      | Some octets => Some (V4 (of_octets octets))
      | None => None
      end
  | None =>
      match strip_suffix (lit ".ip6.arpa") host with
      | Some body =>
          match read_labels 32 nibble (rsplit_dots body) with
          | Some digits => Some (V6 (of_parts 4 digits))
          | None => None
          end
      | None => None
      end
  end.

(** ** The answers *)

Definition is_localhost (host : str) : bool :=
  str_eqb host (lit "localhost") || ends_with (lit ".localhost") host.

Definition is_some_and {A} (p : A → bool) (o : option A) : bool :=
  match o with Some x => p x | None => false end.

Definition loopback_name (host : str) : bool :=
  is_some_and is_loopback (option_map canonical (reverse_ip host)).

Section Local.
Context `{FrontCrate}.

Definition own_name (q : Query) (host : str) (endpoints : list socket_addr) : bool :=
  (query_type q =? TYPE_PTR) &&
  is_some_and (fun a => negb (is_unspecified a) &&
    existsb (fun e => bool_decide (canonical (ip e) = a)) endpoints) (option_map canonical (reverse_ip host)).

Definition local_message (q : Query) (records : list RR) : Message :=
  let m := message_new 0 true 0 in
  mkMessage (metadata m) (signed m) (has_edns m) [q] records [] [].

Definition nodata (q : Query) (now : Z) : option ResolvedAnswer :=
  Some (mkAnswer (local_message q []) (LOCAL_TTL * SECOND) now).

(** The record of a local answer; [None] is the early return when the name
    cannot be built. *)
Definition local_record (q : Query) (localhost loopback : bool) : option (option RData) :=
  if negb (query_class q =? CLASS_IN) then Some None
  else if (query_type q =? TYPE_A) && localhost then Some (Some (Addr4 (127 * 2 ^ 24 + 1)))
  else if (query_type q =? TYPE_AAAA) && localhost then Some (Some (Addr6 1))
  else if (query_type q =? TYPE_PTR) && loopback then
    match name_from_ascii (lit "localhost.") with
    | Some n => Some (Some (PTR n))
    | None => None
    end
  else Some None.

Definition answer (q : Query) (host : str) (endpoints : list socket_addr) (explicit_override : bool) (now : Z)
  : option ResolvedAnswer :=
  let localhost := is_localhost host in
  let loopback := loopback_name host in
  let own := own_name q host endpoints in
  if negb localhost && negb loopback && (negb own || explicit_override) then None
  else match local_record q localhost loopback with
  | None => None
  | Some None => Some (mkAnswer (local_message q []) (LOCAL_TTL * SECOND) now)
  | Some (Some d) =>
      Some (mkAnswer (local_message q [mkRR (q_name q) CLASS_IN LOCAL_TTL d]) (LOCAL_TTL * SECOND) now)
  end.

(** The address whose route is probed, if any. *)
Definition probe_target (q : Query) (host : str) (endpoints : list socket_addr) (explicit_override : bool)
  : option ip_addr :=
  if explicit_override || negb (query_type q =? TYPE_PTR) then None
  else match reverse_ip host with
  | None => None
  | Some a =>
      let a := canonical a in
      if is_unspecified a || is_loopback a ||
         negb (existsb (fun e => is_unspecified (ip e) && eqb (is_ipv4 (ip e)) (is_ipv4 a)) endpoints)
      then None else Some a
  end.

(** [probe] gives the local address of a route, [None] when there is none or
    the probe takes longer than its private timeout.  Also returned: the
    addresses probed. *)
Definition preflight_with_probe (q : Query) (host : str) (endpoints : list socket_addr) (explicit_override : bool)
  (probe : ip_addr → option ip_addr) (now : Z) : option ResolvedAnswer * list ip_addr :=
  match answer q host endpoints explicit_override now with
  | Some a => (Some a, [])
  | None =>
      match probe_target q host endpoints explicit_override with
      | None => (None, [])
      | Some a =>
          (match probe a with
           | Some source => if bool_decide (canonical source = a) then nodata q now else None
           | None => None
           end, [a])
      end
  end.
End Local.

(** ** Reverse names are read back *)

Definition ptr_name (a : ip_addr) : str :=
  match a with
  | V4 bits => join [46] (rev (map to_dec (octets4 bits))) ++ lit ".in-addr.arpa"
  | V6 bits => join [46] (rev (map (fun d => [hex_digit d]) (parts_of 4 32 bits))) ++ lit ".ip6.arpa"
  end.

Lemma rsplit_join (l : list str) :
  l ≠ [] → Forall (fun w => 46 ∉ w) l → rsplit_dots (join [46] (rev l)) = l.
Proof.
  intros Hne Hl. unfold rsplit_dots. rewrite split_on_join; [by rewrite rev_involutive| |].
  - destruct l; [done|]. intros He. apply (f_equal length) in He. rewrite length_rev in He. done.
  - rewrite Forall_forall in *. intros w Hw%list_elem_of_In%in_rev%list_elem_of_In.
    apply Forall_forall. intros x Hx. apply Z.eqb_neq. intros <-. by apply (Hl w).
Qed.

Lemma read_labels_map {A} (f : A → str) (g : A → Z) label_value l :
  Forall (fun x => label_value (f x) = Some (g x)) l →
  read_labels (length l) label_value (map f l) = Some (map g l).
Proof. induction 1 as [|x l Hx Hl IH]; [done|]. simpl. by rewrite Hx, IH. Qed.

Lemma nibbles_bounds bits : Forall (fun d => 0 ≤ d < 16) (parts_of 4 32 bits).
Proof.
  apply Forall_forall. intros d (i & <- & _)%list_elem_of_In%in_map_iff. rewrite Z.land_ones by done.
  apply Z.mod_pos_bound. lia.
Qed.

Lemma octets_bounds bits : Forall (fun o => 0 ≤ o < 256) (octets4 bits).
Proof. apply Forall_forall. intros o (i & <- & _)%list_elem_of_In%in_map_iff. apply octet_bounds. Qed.

Lemma hex_digit_word d : 0 ≤ d < 16 → (46 ∉ [hex_digit d]) ∧ str_len [hex_digit d] = 1.
Proof.
  intros Hd. assert (48 ≤ hex_digit d < 128 ∧ hex_digit d ≠ 46) as [Hr Hne].
  { unfold hex_digit. destruct (Z.ltb_spec d 10); lia. }
  split; [|rewrite str_len_ascii; [done|constructor; [lia|constructor]]].
  intros [He|He%elem_of_nil]%elem_of_cons; [by rewrite <-He in Hne|done].
Qed.

(** The reverse name of an address is read back as that address. *)
Lemma reverse_ip_ptr a : ip_ok a → reverse_ip (ptr_name a) = Some a.
Proof.
  unfold reverse_ip, ptr_name. destruct a as [bits|bits]; intros Hok.
  - rewrite strip_suffix_app, rsplit_join; [|done|].
    + change 4%nat with (length (octets4 bits)). rewrite (read_labels_map to_dec (fun o => o)); [by rewrite map_id, of_octets_octets4|].
      eapply Forall_impl; [apply octets_bounds|]. intros o Ho. simpl in Ho. apply parse_to_dec. lia.
    + apply Forall_map. eapply Forall_impl; [apply octets_bounds|]. intros o Ho. simpl in Ho. apply to_dec_no_dot. lia.
  - set (ds := parts_of 4 32 bits). set (body := join [46] _).
    assert (strip_suffix (lit ".in-addr.arpa") (body ++ lit ".ip6.arpa") = None) as ->.
    { destruct (strip_suffix _ _) as [r|] eqn:Hs; [|done]. exfalso. apply strip_suffix_Some in Hs. clearbody body.
      apply (f_equal (@rev Z)) in Hs. rewrite !rev_app_distr in Hs. by vm_compute in Hs. }
    rewrite strip_suffix_app. unfold body. rewrite rsplit_join; [|done|].
    + change 32%nat with (length ds). rewrite (read_labels_map _ (fun d => d)).
      * rewrite map_id. do 2 f_equal. unfold ds, of_parts. rewrite of_parts_from by done. apply Z.mod_small.
        unfold ip_ok, in_u, u128_max in Hok. simpl. lia.
      * eapply Forall_impl; [apply nibbles_bounds|]. intros d Hd. unfold nibble.
        rewrite (proj2 (hex_digit_word d Hd)). simpl. by apply to_digit_hex.
    + apply Forall_map. eapply Forall_impl; [apply nibbles_bounds|]. intros d Hd. by apply hex_digit_word.
Qed.

(** Reverse names are not host names of the loopback. *)
Lemma ptr_name_not_localhost a : is_localhost (ptr_name a) = false.
Proof.
  unfold is_localhost, ptr_name, str_eqb, ends_with.
  assert (∃ b, ptr_name a = b ++ lit ".in-addr.arpa" ∨ ptr_name a = b ++ lit ".ip6.arpa") as [b Hb]
    by (destruct a; eauto).
  fold (ptr_name a). apply orb_false_iff. split; apply bool_decide_eq_false.
  - intros He. apply (f_equal (@rev Z)) in He. destruct Hb as [Hb|Hb]; rewrite Hb, rev_app_distr in He; by vm_compute in He.
  - intros [r Hr%strip_suffix_Some]. apply (f_equal (@rev Z)) in Hr.
    destruct Hb as [Hb|Hb]; rewrite Hb, !rev_app_distr in Hr; by vm_compute in Hr.
Qed.

Section Theorems.
Context `{FrontCrate} `{!FrontLaws}.

(** Some listener has exactly this address, or covers its whole family. *)
Definition listens_on (a : ip_addr) (endpoints : list socket_addr) : bool :=
  existsb (fun e => bool_decide (canonical (ip e) = a)) endpoints.
Definition wildcard_for (a : ip_addr) (endpoints : list socket_addr) : bool :=
  existsb (fun e => is_unspecified (ip e) && eqb (is_ipv4 (ip e)) (is_ipv4 a)) endpoints.

(** the reverse question for an address, mapped IPv4 addresses taken as
    IPv4, is settled by the address alone.  A loopback address is answered
    with [localhost], whatever overrides say and whatever listens; the address
    of a listener has no name unless an override covers the question; behind a
    wildcard listener of its family an address is probed, once and without
    payload, and has no name exactly if the route starts there; every other
    address is passed on unprobed. *)
Theorem reverse_questions_stay_local q a endpoints explicit_override probe now :
  ip_ok a → query_type q = TYPE_PTR → query_class q = CLASS_IN →
  let c := canonical a in
  preflight_with_probe q (ptr_name a) endpoints explicit_override probe now =
    if is_loopback c then
      (option_map (fun n => mkAnswer (local_message q [mkRR (q_name q) CLASS_IN LOCAL_TTL (PTR n)]) (LOCAL_TTL * SECOND) now)
         (name_from_ascii (lit "localhost.")), [])
    else if explicit_override || is_unspecified c then (None, [])
    else if listens_on c endpoints then (nodata q now, [])
    else if wildcard_for c endpoints then
      (match probe c with Some source => if bool_decide (canonical source = c) then nodata q now else None | None => None end, [c])
    else (None, []).
Proof.
  intros Hok Ht Hc c. unfold preflight_with_probe, answer, probe_target, loopback_name, own_name, local_record.
  rewrite ptr_name_not_localhost, (reverse_ip_ptr a Hok), Ht, Hc. simpl. fold c. fold (listens_on c endpoints).
  fold (wildcard_for c endpoints).
  destruct (is_loopback c) eqn:Hl; simpl; [by destruct localhost_name as [n ->]|].
  destruct explicit_override; simpl; [by rewrite orb_true_r|]. rewrite orb_false_r.
  destruct (is_unspecified c); simpl; [done|]. destruct (listens_on c endpoints); simpl; [done|].
  by destruct (wildcard_for c endpoints).
Qed.
End Theorems.

Section Witnesses.
#[local] Existing Instance sample_names.
#[local] Existing Instance sample_front.
#[local] Existing Instance sample_front_laws.

Definition ptr_question (a : ip_addr) : Query := mkQuery (ptr_name a, true) TYPE_PTR CLASS_IN.

Lemma reverse_questions_stay_local_witness :
  preflight_with_probe (ptr_question (V4 3221225480)) (ptr_name (V4 3221225480)) [SockV4 0 53] false Some 0 =
    (nodata (ptr_question (V4 3221225480)) 0, [V4 3221225480]).
Proof.
  transitivity (let c := canonical (V4 3221225480) in
    if is_loopback c then
      (option_map (fun n => mkAnswer (local_message (ptr_question c) [mkRR (q_name (ptr_question c)) CLASS_IN LOCAL_TTL (PTR n)])
         (LOCAL_TTL * SECOND) 0) (name_from_ascii (lit "localhost.")), [])
    else if false || is_unspecified c then (None, [])
    else if listens_on c [SockV4 0 53] then (nodata (ptr_question c) 0, [])
    else if wildcard_for c [SockV4 0 53] then
      (match Some c with Some source => if bool_decide (canonical source = c) then nodata (ptr_question c) 0 else None | None => None end, [c])
    else (None, [])).
  - apply (reverse_questions_stay_local (ptr_question (V4 3221225480)) (V4 3221225480) [SockV4 0 53] false Some 0);
      [vm_compute; split; discriminate|reflexivity|reflexivity].
  - vm_compute. reflexivity.
Defined.
End Witnesses.
End DnsLocal.
