(* ===== verification/Chunked.v ===== *)
(** * Chunked transfer decoding

    [packages/bridge-fetcher/src/http/framing.rs]: the incremental reader over
    a connection that delivers bytes in arbitrary pieces, and the decoder of a
    chunked body with its size limits. *)

From S2P Require Import Prelude Order Str Utf8 Net NetText.
Open Scope Z_scope.

Module Chunked.

Definition MAX_SIZE_LINE : Z := 1024.
Definition MAX_TRAILER_LINE : Z := 8192.
Definition MAX_TRAILERS_TOTAL : Z := 64 * 1024.
Definition BLOCK : Z := 4096.

Definition zlen {A} (l : list A) : Z := Z.of_nat (length l).

Inductive line_kind : Type := SizeLine | TrailerLine.

Inductive FetchError : Type :=
| IoError
| TooLarge (max_bytes : Z)
| ClosedMidChunk
| LineTooLong (what : line_kind)
| ClosedInLine (what : line_kind)
| SizeNotAscii
| InvalidSize (digits : str)
| TrailersTooLarge
| ClosedBeforeCrlf
| MissingCrlf.

(** ** The connection

    What successive reads of the connection deliver; the end of the list is
    the end of the stream.  A read of [k] bytes takes at most [k] from the
    front piece and leaves the rest of it. *)

Inductive read_event : Type :=
| Bytes (bs : list Z)
| Fail.

Definition stream_read (s : list read_event) (k : Z) : result (list Z * list read_event) FetchError :=
  match s with
  | [] => Ok ([], [])
  | Fail :: _ => Err IoError
  | Bytes bs :: s' =>
      if zlen bs <=? k then Ok (bs, s')
      else Ok (take (Z.to_nat k) bs, Bytes (drop (Z.to_nat k) bs) :: s')
  end.

(** ** The reader *)

Record ChunkedReader : Type := mkReader {
  stream : list read_event;
  pre : list Z;
  pre_pos : nat;
}.

Definition reader_new (s : list read_event) (preloaded : list Z) : ChunkedReader :=
  mkReader s preloaded 0.

Definition read_stream_block (r : ChunkedReader) (k : Z) : result (list Z * ChunkedReader) FetchError :=
  match stream_read (stream r) k with
  | Ok (bs, s') => Ok (bs, mkReader s' (pre r) (pre_pos r))
  | Err e => Err e
  end.

Definition read_some (r : ChunkedReader) (k : Z) : result (list Z * ChunkedReader) FetchError :=
  if (pre_pos r <? length (pre r))%nat then
    let avail := Z.to_nat (Z.min (zlen (pre r) - Z.of_nat (pre_pos r)) k) in
    Ok (take avail (drop (pre_pos r) (pre r)), mkReader (stream r) (pre r) (pre_pos r + avail))
  else read_stream_block r k.

(** The bytes not yet handed out. *)
Definition flat (s : list read_event) : list Z :=
  flat_map (fun e => match e with Bytes bs => bs | Fail => [] end) s.
Definition pending (r : ChunkedReader) : list Z := drop (pre_pos r) (pre r) ++ flat (stream r).

(** [read_exact_into] for [need] more bytes after [got]. *)
Fixpoint read_exact_loop (fuel : nat) (r : ChunkedReader) (need : Z) (got : list Z)
  : option (result (list Z * ChunkedReader) FetchError) :=
  if need <=? 0 then Some (Ok (got, r))
  else match fuel with
  | O => None
  | S fuel' =>
      match read_some r need with
      | Err e => Some (Err e)
      | Ok ([], _) => Some (Err ClosedMidChunk)
      | Ok (bs, r') => read_exact_loop fuel' r' (need - zlen bs) (got ++ bs)
      end
  end.

(** Every successful read hands out a byte. *)
Definition read_exact_into (r : ChunkedReader) (need : Z)
  : option (result (list Z * ChunkedReader) FetchError) :=
  read_exact_loop (S (length (pending r))) r need [].

Fixpoint position (c : Z) (l : list Z) : option nat :=
  match l with
  | [] => None
  | x :: l' => if x =? c then Some 0%nat else option_map S (position c l')
  end.

Definition pop_cr (line : list Z) : list Z := default line (strip_suffix [13] line).

Fixpoint read_line_loop (fuel : nat) (r : ChunkedReader) (mx : Z) (what : line_kind) (scan_from : nat)
  : option (result (list Z * ChunkedReader) FetchError) :=
  match fuel with
  | O => None
  | S fuel' =>
      match position 10 (drop scan_from (pre r)) with
      | Some off =>
          let nl := (scan_from + off)%nat in
          if mx <? Z.of_nat (nl - pre_pos r) then Some (Err (LineTooLong what))
          else
            let line := take (nl - pre_pos r) (drop (pre_pos r) (pre r)) in
            Some (Ok (pop_cr line, mkReader (stream r) (pre r) (nl + 1)))
      | None =>
          if mx <? Z.of_nat (length (pre r) - pre_pos r) then Some (Err (LineTooLong what))
          else
            let scan := length (pre r) in
            match stream_read (stream r) BLOCK with
            | Err e => Some (Err e)
            | Ok ([], _) => Some (Err (ClosedInLine what))
            | Ok (bs, s') =>
                let '(kept, scan, pos) :=
                  if (0 <? pre_pos r)%nat
                  then (drop (pre_pos r) (pre r), (scan - pre_pos r)%nat, 0%nat)
                  else (pre r, scan, pre_pos r) in
                read_line_loop fuel' (mkReader s' (kept ++ bs) pos) mx what scan
            end
      end
  end.

(** A line of more than [mx] bytes is refused, and every refill adds a byte. *)
Definition read_line (r : ChunkedReader) (mx : Z) (what : line_kind)
  : option (result (list Z * ChunkedReader) FetchError) :=
  let r := if (length (pre r) <=? pre_pos r)%nat then mkReader (stream r) [] 0 else r in
  read_line_loop (Z.to_nat mx + 2) r mx what (pre_pos r).

(** ** The decoder *)

(** [str::from_utf8]: a byte string is UTF-8 when it is the encoding of its
    lossy decoding. *)
Definition from_utf8 (bs : list Z) : option str :=
  let s := from_utf8_lossy bs in
  if bool_decide (as_bytes s = bs) then Some s else None.

Definition before_semicolon (line : list Z) : list Z :=
  match split_once 59 line with
  | Some (a, _) => a
  | None => line
  end.

Definition chunk_size (line : list Z) : result Z FetchError :=
  match from_utf8 (before_semicolon line) with
  | None => Err SizeNotAscii
  | Some s =>
      let digits := trim s in
      match from_str_radix u64_max digits 16 with
      | Some n => Ok n
      | None => Err (InvalidSize digits)
      end
  end.

Fixpoint drain_trailers (fuel : nat) (r : ChunkedReader) (total : Z)
  : option (result ChunkedReader FetchError) :=
  match fuel with
  | O => None
  | S fuel' =>
      match read_line r MAX_TRAILER_LINE TrailerLine with
      | None => None
      | Some (Err e) => Some (Err e)
      | Some (Ok (t, r')) =>
          let total := total + (zlen t + 2) in
          if MAX_TRAILERS_TOTAL <? total then Some (Err TrailersTooLarge)
          else if is_empty t then Some (Ok r')
          else drain_trailers fuel' r' total
      end
  end.

(** The CRLF after the data of a chunk. *)
Definition read_separator (r : ChunkedReader) : option (result ChunkedReader FetchError) :=
  match read_exact_into r 2 with
  | None => None
  | Some (Err IoError) => Some (Err IoError)
  | Some (Err _) => Some (Err ClosedBeforeCrlf)
  | Some (Ok (sep, r')) =>
      if bool_decide (sep = [13; 10]) then Some (Ok r') else Some (Err MissingCrlf)
  end.

Fixpoint decode_loop (fuel : nat) (r : ChunkedReader) (max_body_bytes : Z) (body : list Z)
  : option (result (list Z) FetchError) :=
  match fuel with
  | O => None
  | S fuel' =>
      match read_line r MAX_SIZE_LINE SizeLine with
      | None => None
      | Some (Err e) => Some (Err e)
      | Some (Ok (line, r1)) =>
          match chunk_size line with
          | Err e => Some (Err e)
          | Ok n =>
              if n =? 0 then
                match drain_trailers (S (length (pending r1))) r1 0 with
                | None => None
                | Some (Err e) => Some (Err e)
                | Some (Ok _) => Some (Ok body)
                end
              else match checked_add u64_max (zlen body) n with
              | None => Some (Err (TooLarge max_body_bytes))
              | Some total =>
                  if max_body_bytes <? total then Some (Err (TooLarge max_body_bytes))
                  else match read_exact_into r1 n with
                  | None => None
                  | Some (Err e) => Some (Err e)
                  | Some (Ok (data, r2)) =>
                      match read_separator r2 with
                      | None => None
                      | Some (Err e) => Some (Err e)
                      | Some (Ok r3) => decode_loop fuel' r3 max_body_bytes (body ++ data)
                      end
                  end
              end
          end
      end
  end.

(** Every chunk takes at least its size line off the wire. *)
Definition decode_chunked_body (s : list read_event) (preloaded : list Z) (max_body_bytes : Z)
  : option (result (list Z) FetchError) :=
  let r := reader_new s preloaded in
  decode_loop (S (length (pending r))) r max_body_bytes [].

(** ** The decoder on the whole wire

    What the decoder does to the bytes of the connection, however they are
    delivered. *)

Definition take_line (mx : Z) (what : line_kind) (w : list Z) : result (list Z * list Z) FetchError :=
  match position 10 w with
  | Some k => if mx <? Z.of_nat k then Err (LineTooLong what) else Ok (pop_cr (take k w), drop (S k) w)
  | None => if mx <? zlen w then Err (LineTooLong what) else Err (ClosedInLine what)
  end.

Definition take_exact (need : Z) (w : list Z) : result (list Z * list Z) FetchError :=
  if need <=? zlen w then Ok (take (Z.to_nat need) w, drop (Z.to_nat need) w) else Err ClosedMidChunk.

Fixpoint trailers_on (fuel : nat) (w : list Z) (total : Z) : option (result (list Z) FetchError) :=
  match fuel with
  | O => None
  | S fuel' =>
      match take_line MAX_TRAILER_LINE TrailerLine w with
      | Err e => Some (Err e)
      | Ok (t, w') =>
          let total := total + (zlen t + 2) in
          if MAX_TRAILERS_TOTAL <? total then Some (Err TrailersTooLarge)
          else if is_empty t then Some (Ok w')
          else trailers_on fuel' w' total
      end
  end.

Fixpoint decode_on (fuel : nat) (w : list Z) (mx : Z) (body : list Z)
  : option (result (list Z) FetchError) :=
  match fuel with
  | O => None
  | S fuel' =>
      match take_line MAX_SIZE_LINE SizeLine w with
      | Err e => Some (Err e)
      | Ok (line, w1) =>
          match chunk_size line with
          | Err e => Some (Err e)
          | Ok n =>
              if n =? 0 then
                match trailers_on (S (length w1)) w1 0 with
                | None => None
                | Some (Err e) => Some (Err e)
                | Some (Ok _) => Some (Ok body)
                end
              else match checked_add u64_max (zlen body) n with
              | None => Some (Err (TooLarge mx))
              | Some total =>
                  if mx <? total then Some (Err (TooLarge mx))
                  else match take_exact n w1 with
                  | Err e => Some (Err e)
                  | Ok (data, w2) =>
                      match take_exact 2 w2 with
                      | Err _ => Some (Err ClosedBeforeCrlf)
                      | Ok (sep, w3) =>
                          if bool_decide (sep = [13; 10]) then decode_on fuel' w3 mx (body ++ data)
                          else Some (Err MissingCrlf)
                      end
                  end
              end
          end
      end
  end.

(** ** The reader hands out the wire in order *)

Definition piece (e : read_event) : Prop := match e with Bytes (_ :: _) => True | _ => False end.

Definition reader_ok (r : ChunkedReader) : Prop :=
  Forall piece (stream r) ∧ (pre_pos r ≤ length (pre r))%nat.

Lemma stream_read_spec s k :
  Forall piece s → 0 < k →
  match flat s with
  | [] => stream_read s k = Ok ([], [])
  | _ :: _ => ∃ b bs s', stream_read s k = Ok (b :: bs, s') ∧ flat s = (b :: bs) ++ flat s' ∧
      Forall piece s' ∧ zlen (b :: bs) ≤ k
  end.
Proof.
  intros Hs Hk. destruct Hs as [|e s He Hs]; [done|]. destruct e as [[|b bs]|]; try done.
  cbn [flat flat_map app]. fold (flat s). unfold stream_read. destruct (Z.leb_spec (zlen (b :: bs)) k).
  - exists b, bs, s. auto.
  - destruct (Z.to_nat k) as [|k'] eqn:Hk'; [lia|].
    exists b, (take k' bs), (Bytes (drop k' bs) :: s). cbn [take drop].
    assert (k' < length bs)%nat as Hlt by (unfold zlen in *; simpl in *; lia). split_and!.
    + done.
    + cbn [flat flat_map app]. fold (flat s). by rewrite app_assoc, take_drop.
    + constructor; [|done]. destruct (drop k' bs) as [|x l] eqn:Hd; [|done].
      apply (f_equal length) in Hd. rewrite length_drop in Hd. simpl in Hd. lia.
    + unfold zlen. simpl. rewrite length_take. lia.
Qed.

Lemma read_some_spec r k :
  reader_ok r → 0 < k →
  match pending r with
  | [] => ∃ r', read_some r k = Ok ([], r')
  | _ :: _ => ∃ b bs r', read_some r k = Ok (b :: bs, r') ∧ pending r = (b :: bs) ++ pending r' ∧
      reader_ok r' ∧ zlen (b :: bs) ≤ k
  end.
Proof.
  intros [Hs Hp] Hk. unfold read_some, read_stream_block, pending.
  destruct (Nat.ltb_spec (pre_pos r) (length (pre r))) as [Hlt|Hge].
  - set (buf := drop (pre_pos r) (pre r)).
    assert (length buf = length (pre r) - pre_pos r)%nat as Hl by apply length_drop.
    set (avail := Z.to_nat (Z.min (zlen (pre r) - Z.of_nat (pre_pos r)) k)).
    assert (0 < avail ≤ length buf)%nat as Ha by (unfold avail, zlen; lia).
    assert (Z.of_nat avail ≤ k) as Hak by (unfold avail, zlen; lia).
    clearbody avail. destruct buf as [|b buf'] eqn:Hb; [simpl in Hl; lia|]. simpl app.
    destruct avail as [|a]; [lia|]. simpl in Ha.
    exists b, (take a buf'), (mkReader (stream r) (pre r) (pre_pos r + S a)). split_and!.
    + done.
    + cbn [pre pre_pos stream]. rewrite <-drop_drop. subst buf. rewrite Hb. cbn [drop app].
      by rewrite app_assoc, take_drop.
    + split; [done|]. simpl in *. lia.
    + unfold zlen. simpl. rewrite length_take. lia.
  - rewrite drop_ge by lia. simpl app. pose proof (stream_read_spec (stream r) k Hs Hk) as Hr.
    destruct (flat (stream r)) as [|x l]; [rewrite Hr; eauto|].
    destruct Hr as (b & bs & s' & -> & Hf & Hs' & Hz). exists b, bs, (mkReader s' (pre r) (pre_pos r)).
    split_and!; [done| |by split|done]. cbn [pre pre_pos stream]. by rewrite drop_ge by lia.
Qed.

Lemma read_exact_loop_spec fuel r need got :
  reader_ok r → (length (pending r) < fuel)%nat →
  match take_exact (Z.max 0 need) (pending r) with
  | Ok (bs, rest) => ∃ r', read_exact_loop fuel r need got = Some (Ok (got ++ bs, r')) ∧
      pending r' = rest ∧ reader_ok r'
  | Err e => read_exact_loop fuel r need got = Some (Err e)
  end.
Proof.
  revert r need got. induction fuel as [|fuel IH]; intros r need got Hr Hf; [lia|].
  cbn [read_exact_loop]. destruct (Z.leb_spec need 0) as [Hn|Hn].
  { rewrite Z.max_l by lia. unfold take_exact. destruct (Z.leb_spec 0 (zlen (pending r))); [|unfold zlen in *; lia].
    simpl. exists r. rewrite app_nil_r. auto. }
  rewrite Z.max_r by lia. pose proof (read_some_spec r need Hr Hn) as Hs.
  destruct (pending r) as [|x w] eqn:Hw.
  - destruct Hs as [r' ->]. unfold take_exact. destruct (Z.leb_spec need (zlen (@nil Z))); [|done].
    unfold zlen in *. simpl in *. lia.
  - destruct Hs as (b & bs & r' & -> & Heq & Hr' & Hz). rewrite Heq in *.
    specialize (IH r' (need - zlen (b :: bs)) (got ++ b :: bs) Hr').
    rewrite length_app in Hf. specialize (IH ltac:(simpl in Hf; lia)).
    rewrite Z.max_r in IH by lia. unfold take_exact in *.
    assert (zlen ((b :: bs) ++ pending r') = zlen (b :: bs) + zlen (pending r')) as Hlen
      by (unfold zlen; rewrite length_app; lia). rewrite Hlen.
    assert (Z.to_nat need = length (b :: bs) + Z.to_nat (need - zlen (b :: bs)))%nat as Hneed
      by (unfold zlen in *; lia).
    destruct (Z.leb_spec (need - zlen (b :: bs)) (zlen (pending r'))),
      (Z.leb_spec need (zlen (b :: bs) + zlen (pending r'))); try lia; [|done].
    rewrite Hneed, take_app_add, drop_app_add, app_assoc. exact IH.
Qed.

Lemma read_exact_spec r need :
  reader_ok r → 0 ≤ need →
  match take_exact need (pending r) with
  | Ok (bs, rest) => ∃ r', read_exact_into r need = Some (Ok (bs, r')) ∧ pending r' = rest ∧ reader_ok r'
  | Err e => read_exact_into r need = Some (Err e)
  end.
Proof.
  intros Hr Hn. unfold read_exact_into.
  pose proof (read_exact_loop_spec (S (length (pending r))) r need [] Hr) as Hs.
  rewrite Z.max_r in Hs by done. apply Hs. lia.
Qed.

Lemma position_app c a b :
  position c (a ++ b) =
    match position c a with
    | Some k => Some k
    | None => option_map (Nat.add (length a)) (position c b)
    end.
Proof.
  induction a as [|x a IH]; simpl; [by destruct (position c b)|]. destruct (x =? c); [done|].
  rewrite IH. destruct (position c a); simpl; [done|]. by destruct (position c b).
Qed.

Lemma position_lt c l k : position c l = Some k → (k < length l)%nat.
Proof.
  revert k. induction l as [|x l IH]; intros k; simpl; [done|].
  destruct (x =? c); [intros [= <-]; lia|]. destruct (position c l); [|done].
  intros [= <-]. specialize (IH _ eq_refl). lia.
Qed.

Lemma position_None c l : position c l = None ↔ c ∉ l.
Proof.
  induction l as [|x l IH]; simpl; [by split; [intros _ ?%elem_of_nil|]|].
  rewrite not_elem_of_cons. destruct (Z.eqb_spec x c) as [->|Hx]; [by split; [|intros [? _]]|].
  destruct (position c l); simpl; [split; [done|]|]; intuition congruence.
Qed.

(** What the reader has in its buffer. *)
Definition buffered (r : ChunkedReader) : list Z := drop (pre_pos r) (pre r).

(** The scan position relative to the unread part of the buffer: nothing
    before it is a line end. *)
Definition scanned (r : ChunkedReader) (scan_from : nat) : Prop :=
  (pre_pos r ≤ scan_from ≤ length (pre r))%nat ∧
  position 10 (take (scan_from - pre_pos r) (buffered r)) = None.

Lemma scanned_position r scan :
  scanned r scan →
  position 10 (buffered r) =
    option_map (fun off => scan + off - pre_pos r)%nat (position 10 (drop scan (pre r))).
Proof.
  intros [Hs Hp]. rewrite <-(take_drop (scan - pre_pos r) (buffered r)), position_app, Hp.
  unfold buffered. rewrite drop_drop, length_take, length_drop.
  replace (pre_pos r + (scan - pre_pos r))%nat with scan by lia.
  destruct (position 10 (drop scan (pre r))); simpl; [|done]. f_equal. lia.
Qed.

(** A refill keeps the wire and the scanned part. *)
Lemma refill_spec r b bs s' :
  reader_ok r → position 10 (buffered r) = None → flat (stream r) = (b :: bs) ++ flat s' →
  Forall piece s' →
  let '(kept, scan, pos) :=
    if (0 <? pre_pos r)%nat
    then (drop (pre_pos r) (pre r), (length (pre r) - pre_pos r)%nat, 0%nat)
    else (pre r, length (pre r), pre_pos r) in
  let r' := mkReader s' (kept ++ b :: bs) pos in
  reader_ok r' ∧ pending r' = pending r ∧ scanned r' scan ∧
  length (buffered r') = (length (buffered r) + S (length bs))%nat.
Proof.
  intros [Hs Hp] Hpos Hf Hs'. unfold buffered, pending, scanned, reader_ok in *. rewrite Hf.
  destruct (Nat.ltb_spec 0 (pre_pos r)) as [Hlt|Hge]; cbn [pre pre_pos stream].
  - rewrite !drop_0, Nat.sub_0_r, <-app_assoc, length_app. split_and!; try done; try lia.
    + rewrite length_drop. lia.
    + unfold buffered. cbn [pre pre_pos]. rewrite drop_0, <-length_drop, take_app_length. done.
  - assert (pre_pos r = 0)%nat as H0 by lia. rewrite H0 in *. rewrite !drop_0 in *.
    rewrite Nat.sub_0_r, <-app_assoc, length_app. split_and!; try done; try lia.
    unfold buffered. cbn [pre pre_pos]. by rewrite drop_0, take_app_length.
Qed.

Lemma read_line_loop_spec fuel r mx what scan :
  reader_ok r → scanned r scan → 0 ≤ mx →
  mx - zlen (buffered r) + 2 ≤ Z.of_nat fuel → (0 < fuel)%nat →
  match take_line mx what (pending r) with
  | Ok (line, rest) => ∃ r', read_line_loop fuel r mx what scan = Some (Ok (line, r')) ∧
      pending r' = rest ∧ reader_ok r'
  | Err e => read_line_loop fuel r mx what scan = Some (Err e)
  end.
Proof.
  revert r scan. induction fuel as [|fuel IH]; intros r scan Hr Hsc Hmx Hf H0; [lia|].
  cbn [read_line_loop]. cbv zeta. pose proof (scanned_position r scan Hsc) as Hpos.
  change (pending r) with (buffered r ++ flat (stream r)).
  unfold take_line. rewrite position_app, Hpos. pose proof Hr as [Hs Hp]. destruct Hsc as [Hsc _].
  destruct (position 10 (drop scan (pre r))) as [off|] eqn:Hoff; simpl option_map; cbv iota beta.
  - destruct (mx <? Z.of_nat (scan + off - pre_pos r)); [done|].
    apply position_lt in Hoff. rewrite length_drop in Hoff.
    eexists. split.
    + do 4 f_equal. unfold buffered. rewrite take_app_le; [done|]. rewrite length_drop. lia.
    + unfold pending, buffered. cbn [pre pre_pos stream]. split; [|split; simpl; [done|lia]].
      rewrite drop_app_le by (rewrite length_drop; lia). f_equal. rewrite drop_drop. f_equal. lia.
  - simpl in Hpos. assert (zlen (buffered r) = Z.of_nat (length (pre r) - pre_pos r)) as Hb
      by (unfold zlen, buffered; by rewrite length_drop). rewrite <-Hb.
    assert (zlen (buffered r ++ flat (stream r)) = zlen (buffered r) + zlen (flat (stream r))) as Hl
      by (unfold zlen; rewrite length_app; lia).
    destruct (Z.ltb_spec mx (zlen (buffered r))) as [Hlong|Hshort].
    { destruct (position 10 (flat (stream r))) as [k|]; simpl option_map; cbv iota beta.
      - destruct (Z.ltb_spec mx (Z.of_nat (length (buffered r) + k))); [done|unfold zlen in *; lia].
      - rewrite Hl. destruct (Z.ltb_spec mx (zlen (buffered r) + zlen (flat (stream r)))); [done|].
        unfold zlen in *. lia. }
    pose proof (stream_read_spec (stream r) BLOCK Hs eq_refl) as Hread.
    destruct (flat (stream r)) as [|x w] eqn:Hw.
    { rewrite Hread. simpl position. simpl option_map. cbv iota beta. rewrite Hl. unfold zlen at 2. simpl length.
      destruct (Z.ltb_spec mx (zlen (buffered r) + Z.of_nat 0)); [lia|done]. }
    destruct Hread as (b & bs & s' & -> & Hflat & Hs' & _). rewrite <-Hw in *. clear Hw.
    pose proof (refill_spec r b bs s' Hr Hpos Hflat Hs') as Hre.
    destruct (if (0 <? pre_pos r)%nat then _ else _) as [[kept scan'] pos].
    destruct Hre as (Hr' & Hpend & Hsc' & Hlen).
    specialize (IH _ _ Hr' Hsc' Hmx). rewrite Hpend in IH.
    assert (zlen (buffered (mkReader s' (kept ++ b :: bs) pos)) = zlen (buffered r) + 1 + zlen bs) as Hlen'
      by (unfold zlen; rewrite Hlen; lia).
    rewrite Hlen' in IH. specialize (IH ltac:(unfold zlen in *; lia) ltac:(unfold zlen in *; lia)).
    unfold take_line in IH. change (pending r) with (buffered r ++ flat (stream r)) in IH.
    rewrite position_app, Hpos in IH. exact IH.
Qed.

Lemma read_line_spec r mx what :
  reader_ok r → 0 ≤ mx →
  match take_line mx what (pending r) with
  | Ok (line, rest) => ∃ r', read_line r mx what = Some (Ok (line, r')) ∧
      pending r' = rest ∧ reader_ok r'
  | Err e => read_line r mx what = Some (Err e)
  end.
Proof.
  intros Hr Hmx. unfold read_line.
  set (r0 := if (length (pre r) <=? pre_pos r)%nat then mkReader (stream r) [] 0 else r).
  assert (pending r = pending r0 ∧ reader_ok r0) as [-> Hr0].
  { unfold r0. destruct (Nat.leb_spec (length (pre r)) (pre_pos r)); [|done].
    unfold pending, reader_ok. cbn [pre pre_pos stream]. rewrite drop_ge by lia.
    destruct Hr. split; [done|]. split; [done|simpl; lia]. }
  apply read_line_loop_spec; [done| |done|unfold zlen; lia|lia].
  split; [destruct Hr0; lia|]. by rewrite Nat.sub_diag.
Qed.

(** ** The decoder follows the wire *)

Lemma drain_trailers_spec fuel r total :
  reader_ok r →
  match trailers_on fuel (pending r) total with
  | None => drain_trailers fuel r total = None
  | Some (Err e) => drain_trailers fuel r total = Some (Err e)
  | Some (Ok w) => ∃ r', drain_trailers fuel r total = Some (Ok r') ∧ pending r' = w ∧ reader_ok r'
  end.
Proof.
  revert r total. induction fuel as [|fuel IH]; intros r total Hr; [done|].
  cbn [trailers_on drain_trailers]. pose proof (read_line_spec r MAX_TRAILER_LINE TrailerLine Hr) as Hl.
  specialize (Hl ltac:(done)).
  destruct (take_line _ _ (pending r)) as [[t w']|e]; [|by rewrite Hl].
  destruct Hl as (r' & -> & <- & Hr'). cbv zeta. destruct (MAX_TRAILERS_TOTAL <? _); [done|].
  destruct (is_empty t); [by exists r'|]. by apply IH.
Qed.

Lemma from_str_radix_16_nonneg s n : from_str_radix u64_max s 16 = Some n → 0 ≤ n.
Proof.
  intros Hn. assert (∀ t, parse_digits 16 u64_max 0 t = Some n → 0 ≤ n) as Hp.
  { intros t Ht. apply (parse_digits_bounds 16 u64_max 0 t); [lia|unfold u64_max; lia|done]. }
  unfold from_str_radix in Hn. destruct s as [|c s]; [done|].
  destruct ((c =? 43) || (c =? 45)); [|by eapply Hp].
  destruct (is_empty s); [done|]. destruct (c =? 43); [by eapply Hp|done].
Qed.

Lemma chunk_size_nonneg line n : chunk_size line = Ok n → 0 ≤ n.
Proof.
  unfold chunk_size. destruct (from_utf8 _) as [s|]; [|done].
  destruct (from_str_radix _ _ 16) as [m|] eqn:Hm; [|done]. intros [= <-].
  by eapply from_str_radix_16_nonneg.
Qed.

Lemma decode_loop_spec fuel r mx body :
  reader_ok r → decode_loop fuel r mx body = decode_on fuel (pending r) mx body.
Proof.
  revert r body. induction fuel as [|fuel IH]; intros r body Hr; [done|].
  cbn [decode_loop decode_on]. pose proof (read_line_spec r MAX_SIZE_LINE SizeLine Hr ltac:(done)) as Hl.
  destruct (take_line _ _ (pending r)) as [[line w1]|e]; [|by rewrite Hl].
  destruct Hl as (r1 & -> & <- & Hr1).
  destruct (chunk_size line) as [n|e] eqn:Hn; [|done]. apply chunk_size_nonneg in Hn.
  destruct (n =? 0).
  { pose proof (drain_trailers_spec (S (length (pending r1))) r1 0 Hr1) as Ht.
    destruct (trailers_on _ _ 0) as [[w|e]|]; [|by rewrite Ht..]. by destruct Ht as (r' & -> & _). }
  destruct (checked_add _ _ n) as [total|]; [|done]. destruct (mx <? total); [done|].
  pose proof (read_exact_spec r1 n Hr1 Hn) as Hx.
  destruct (take_exact n (pending r1)) as [[data w2]|e]; [|by rewrite Hx].
  destruct Hx as (r2 & -> & <- & Hr2). unfold read_separator.
  pose proof (read_exact_spec r2 2 Hr2 ltac:(done)) as Hy. unfold take_exact in *.
  destruct (2 <=? zlen (pending r2)); [|by rewrite Hy].
  destruct Hy as (r3 & -> & <- & Hr3). case_bool_decide; [by apply IH|done].
Qed.

(** ** The fuel is enough and the limit holds *)

Lemma take_line_shrinks mx what w line w' :
  take_line mx what w = Ok (line, w') → (length w' < length w)%nat.
Proof.
  unfold take_line. destruct (position 10 w) as [k|] eqn:Hk; [|by destruct (mx <? zlen w)].
  destruct (mx <? Z.of_nat k); [done|]. intros [= _ <-]. apply position_lt in Hk.
  rewrite length_drop. lia.
Qed.

Lemma take_exact_spec need w bs w' :
  0 ≤ need → take_exact need w = Ok (bs, w') → w = bs ++ w' ∧ zlen bs = need.
Proof.
  unfold take_exact, zlen. intros Hn. destruct (Z.leb_spec need (Z.of_nat (length w))); [|done].
  intros [= <- <-]. rewrite take_drop, length_take. split; [done|lia].
Qed.

Lemma trailers_on_total fuel w total : (length w < fuel)%nat → trailers_on fuel w total ≠ None.
Proof.
  revert w total. induction fuel as [|fuel IH]; intros w total Hf; [lia|]. cbn [trailers_on].
  destruct (take_line _ _ w) as [[t w']|e] eqn:Hl; [|done]. apply take_line_shrinks in Hl.
  destruct (MAX_TRAILERS_TOTAL <? _); [done|]. destruct (is_empty t); [done|]. apply IH. lia.
Qed.

Lemma decode_on_total fuel w mx body :
  (length w < fuel)%nat → zlen body ≤ mx →
  ∃ res, decode_on fuel w mx body = Some res ∧ ∀ b, res = Ok b → zlen b ≤ mx.
Proof.
  revert w body. induction fuel as [|fuel IH]; intros w body Hf Hb; [lia|]. cbn [decode_on].
  destruct (take_line _ _ w) as [[line w1]|e] eqn:Hl; [|by eexists].
  apply take_line_shrinks in Hl.
  destruct (chunk_size line) as [n|e] eqn:Hn; [|by eexists]. apply chunk_size_nonneg in Hn.
  destruct (n =? 0).
  { pose proof (trailers_on_total (S (length w1)) w1 0 ltac:(lia)) as Ht.
    destruct (trailers_on _ w1 0) as [[w2|e]|]; [|by eexists|done].
    eexists. split; [done|]. by intros b [= <-]. }
  unfold checked_add. destruct (_ <=? u64_max); [|by eexists].
  destruct (Z.ltb_spec mx (zlen body + n)); [by eexists|].
  destruct (take_exact n w1) as [[data w2]|e] eqn:Hx; [|by eexists].
  destruct (take_exact 2 w2) as [[sep w3]|e] eqn:Hy; [|by eexists].
  case_bool_decide; [|by eexists].
  apply take_exact_spec in Hx as [-> Hd]; [|done]. apply take_exact_spec in Hy as [-> _]; [|done].
  rewrite !length_app in Hl. apply IH; [lia|]. unfold zlen in *. rewrite length_app. lia.
Qed.

Lemma decode_on_wire s preloaded mx :
  Forall piece s → decode_chunked_body s preloaded mx =
    decode_on (S (length (preloaded ++ flat s))) (preloaded ++ flat s) mx [].
Proof.
  intros Hs. unfold decode_chunked_body. rewrite decode_loop_spec by (split; [done|simpl; lia]).
  done.
Qed.

(** ** Well-formed bodies *)

(** A chunk is a size line, with any extension, and its data. *)
Definition frame_ok (f : list Z * list Z) : Prop :=
  f.2 ≠ [] ∧ (10 ∉ f.1) ∧ zlen f.1 < MAX_SIZE_LINE ∧ chunk_size f.1 = Ok (zlen f.2).

Definition frame_wire (f : list Z * list Z) : list Z := f.1 ++ 13 :: 10 :: f.2 ++ [13; 10].

Definition trailer_ok (t : list Z) : Prop := t ≠ [] ∧ (10 ∉ t) ∧ zlen t < MAX_TRAILER_LINE.

Definition trailers_wire (ts : list (list Z)) : list Z := flat_map (fun t => t ++ [13; 10]) ts.

Definition trailers_size (ts : list (list Z)) : Z := foldr (fun t n => zlen t + 2 + n) 0 ts.

Definition body_wire (frames : list (list Z * list Z)) (last : list Z) (ts : list (list Z)) : list Z :=
  flat_map frame_wire frames ++ last ++ 13 :: 10 :: trailers_wire ts ++ [13; 10].

Lemma take_line_text mx what l rest :
  10 ∉ l → zlen l < mx → take_line mx what (l ++ 13 :: 10 :: rest) = Ok (l, rest).
Proof.
  intros Hl Hz. unfold take_line. rewrite position_app, (proj2 (position_None 10 l) Hl). simpl.
  unfold zlen in Hz. destruct (Z.ltb_spec mx (Z.of_nat (length l + 1))); [lia|].
  replace (l ++ 13 :: 10 :: rest) with ((l ++ [13]) ++ 10 :: rest) by by rewrite <-app_assoc.
  assert ((length l + 1)%nat = length (l ++ [13%Z])) as -> by by rewrite length_app.
  rewrite take_app_length. do 2 f_equal.
  - unfold pop_cr. by rewrite strip_suffix_app.
  - assert (S (length (l ++ [13%Z])) = (length (l ++ [13%Z]) + 1)%nat) as -> by lia. by rewrite drop_app_add.
Qed.

Lemma trailers_on_text fuel ts rest total :
  Forall trailer_ok ts → total + trailers_size ts + 2 ≤ MAX_TRAILERS_TOTAL → (length ts < fuel)%nat →
  trailers_on fuel (trailers_wire ts ++ 13 :: 10 :: rest) total = Some (Ok rest).
Proof.
  intros Hts. revert fuel total. induction Hts as [|t ts (Hne & Hnl & Hz) Hts IH];
    intros [|fuel] total Ht Hf; simpl in Hf; try lia; cbn [trailers_on].
  - change (trailers_wire [] ++ 13 :: 10 :: rest) with ([] ++ 13 :: 10 :: rest).
    rewrite take_line_text by (done || set_solver). cbn [is_empty]. simpl in Ht.
    destruct (Z.ltb_spec MAX_TRAILERS_TOTAL (total + (zlen (@nil Z) + 2))) as [Hc|]; [|done].
    unfold zlen in Hc. simpl in Hc. lia.
  - change (trailers_wire (t :: ts)) with ((t ++ [13; 10]) ++ trailers_wire ts).
    rewrite <-!app_assoc. cbn [app]. rewrite take_line_text by done. simpl in Ht.
    assert (0 ≤ trailers_size ts) as H0.
    { clear. induction ts as [|t ts IH]; simpl; [done|]. unfold zlen. lia. }
    cbv zeta. destruct (Z.ltb_spec MAX_TRAILERS_TOTAL (total + (zlen t + 2))); [lia|].
    destruct t; [done|]. cbn [is_empty]. apply IH; lia.
Qed.

Lemma take_exact_app bs rest : take_exact (zlen bs) (bs ++ rest) = Ok (bs, rest).
Proof.
  unfold take_exact, zlen. rewrite Nat2Z.id, take_app_length, drop_app_length, length_app.
  destruct (Z.leb_spec (Z.of_nat (length bs)) (Z.of_nat (length bs + length rest))); [done|lia].
Qed.

Lemma decode_on_frames fuel frames last ts extra mx body :
  Forall frame_ok frames → 10 ∉ last → zlen last < MAX_SIZE_LINE → chunk_size last = Ok 0 →
  Forall trailer_ok ts → trailers_size ts + 2 ≤ MAX_TRAILERS_TOTAL →
  zlen (body ++ flat_map snd frames) ≤ mx ≤ u64_max → (length frames < fuel)%nat →
  decode_on fuel (body_wire frames last ts ++ extra) mx body = Some (Ok (body ++ flat_map snd frames)).
Proof.
  intros Hfr Hl Hlz Hl0 Hts Htz. revert fuel body.
  induction Hfr as [|f frames (Hne & Hnl & Hz & Hcs) Hfr IH]; intros [|fuel] body Hmx Hf; simpl in Hf;
    try lia; cbn [decode_on].
  - unfold body_wire. cbn [flat_map app]. rewrite <-!app_assoc. cbn [app].
    rewrite take_line_text, Hl0, Z.eqb_refl, <-app_assoc by done. cbn [app].
    rewrite trailers_on_text; [by rewrite app_nil_r|done|lia|].
    rewrite !length_app. enough (length ts ≤ length (trailers_wire ts))%nat by lia.
    clear. induction ts as [|t ts IH]; simpl; [done|]. rewrite !length_app. simpl. lia.
  - unfold body_wire. cbn [flat_map app]. unfold frame_wire at 1. rewrite <-!app_assoc. cbn [app].
    rewrite take_line_text, Hcs by done. rewrite <-!app_assoc.
    destruct f as [line data]. cbn [fst snd] in *.
    destruct (Z.eqb_spec (zlen data) 0) as [Hd|Hd];
      [destruct data; [done|unfold zlen in Hd; simpl in Hd; lia]|].
    assert (zlen (body ++ data ++ flat_map snd frames) =
      zlen body + zlen data + zlen (flat_map snd frames)) as Hsum
      by (unfold zlen; rewrite !length_app; lia).
    cbn [flat_map snd] in Hmx. rewrite Hsum in Hmx.
    assert (0 ≤ zlen (flat_map snd frames)) as H0 by (unfold zlen; lia).
    unfold checked_add. destruct (Z.leb_spec (zlen body + zlen data) u64_max); [|lia].
    destruct (Z.ltb_spec mx (zlen body + zlen data)); [lia|].
    rewrite take_exact_app. change 2 with (zlen [13; 10]) at 1. rewrite take_exact_app.
    rewrite bool_decide_true by done. rewrite app_assoc.
    specialize (IH fuel (body ++ data)). unfold body_wire in IH. rewrite <-!app_assoc in IH.
    cbn [app] in IH. rewrite <-app_assoc in IH. rewrite <-!app_assoc. apply IH; [lia|lia].
Qed.

(** ** Properties *)

(** decoding a chunked body does not depend on how the connection splits
    the bytes: two deliveries of the same bytes give the same body or the same
    error, decoding always ends, and a decoded body is within the limit. *)
Theorem decode_ignores_fragmentation (s1 s2 : list read_event) (pre1 pre2 : list Z) (mx : Z) :
  Forall piece s1 → Forall piece s2 → pre1 ++ flat s1 = pre2 ++ flat s2 → 0 ≤ mx →
  ∃ res, decode_chunked_body s1 pre1 mx = Some res ∧ decode_chunked_body s2 pre2 mx = Some res ∧
    ∀ body, res = Ok body → zlen body ≤ mx.
Proof.
  intros H1 H2 Heq Hmx. rewrite !decode_on_wire, Heq by done.
  destruct (decode_on_total (S (length (pre2 ++ flat s2))) (pre2 ++ flat s2) mx []) as (res & -> & Hb);
    [lia|done|]. by exists res.
Qed.

(** a well-formed chunked body is decoded to the concatenation of its
    chunks, whatever extensions its size lines carry, whatever trailers follow
    and however its bytes are delivered, when the body fits the limit. *)
Theorem chunked_body_decodes (s : list read_event) (preloaded : list Z)
  (frames : list (list Z * list Z)) (last : list Z) (ts : list (list Z)) (extra : list Z) (mx : Z) :
  Forall piece s → preloaded ++ flat s = body_wire frames last ts ++ extra →
  Forall frame_ok frames → 10 ∉ last → zlen last < MAX_SIZE_LINE → chunk_size last = Ok 0 →
  Forall trailer_ok ts → trailers_size ts + 2 ≤ MAX_TRAILERS_TOTAL →
  zlen (flat_map snd frames) ≤ mx ≤ u64_max →
  decode_chunked_body s preloaded mx = Some (Ok (flat_map snd frames)).
Proof.
  intros Hs Heq Hfr Hl Hlz Hl0 Hts Htz Hmx. rewrite decode_on_wire, Heq by done.
  apply (decode_on_frames _ frames last ts extra mx []); try done.
  unfold body_wire. rewrite !length_app.
  enough (length frames ≤ length (flat_map frame_wire frames))%nat by lia.
  clear. induction frames as [|f frames IH]; simpl; [done|]. unfold frame_wire at 1.
  rewrite !length_app. simpl. lia.
Qed.

(** ** Witnesses *)

Definition sample_wire : list Z :=
  lit "3;x=1" ++ [13; 10] ++ lit "abc" ++ [13; 10] ++ lit "0" ++ [13; 10] ++ lit "T: 1" ++ [13; 10; 13; 10].

Lemma decode_ignores_fragmentation_witness :
  ∃ res, decode_chunked_body [Bytes sample_wire] [] 10 = Some res ∧
    decode_chunked_body (map (fun c => Bytes [c]) (drop 4 sample_wire)) (take 4 sample_wire) 10 = Some res.
Proof.
  destruct (decode_ignores_fragmentation [Bytes sample_wire]
    (map (fun c => Bytes [c]) (drop 4 sample_wire)) [] (take 4 sample_wire) 10) as (res & H1 & H2 & _).
  - by repeat constructor.
  - by repeat constructor.
  - reflexivity.
  - lia.
  - exists res. by split.
Defined.

Lemma chunked_body_decodes_witness :
  decode_chunked_body (map (fun c => Bytes [c]) sample_wire) [] 10 = Some (Ok (lit "abc")).
Proof.
  apply (chunked_body_decodes _ [] [(lit "3;x=1", lit "abc")] (lit "0") [lit "T: 1"] [] 10).
  - by repeat constructor.
  - reflexivity.
  - constructor; [|constructor]. split_and!; [done| |done|reflexivity].
    apply position_None. reflexivity.
  - apply position_None. reflexivity.
  - done.
  - reflexivity.
  - constructor; [|constructor]. split_and!; [done| |done]. apply position_None. reflexivity.
  - done.
  - done.
Defined.
End Chunked.
