(* ===== verification/Http.v ===== *)
(** * Fetching bridge lists over HTTPS

    [packages/bridge-fetcher/src/http.rs], [parse/url_parse.rs],
    [parse/parse.rs] and [fetch/fetch.rs]: request building, the response head
    and body readers over a fragmented stream, the redirect loop with its
    credential boundary, and the batch fetch.  The network is an input: what
    each connection attempt and write gives, and the pieces the stream
    delivers. *)

From S2P Require Import Prelude Order OrdMap Str Utf8 Net NetText Crates Samples Identity Chunked.
Open Scope Z_scope.

Module Http.

Definition MAX_REDIRECTS : nat := 3.
Definition READ_BUF_SIZE : Z := 8192.

(** The messages of an [Http] error and the phases of an [Io] error. *)
Inductive http_problem : Type :=
| NoStatusCode
| Unparseable
| ClosedInHead
| RedirectWithoutLocation
| UnsupportedRedirect (location : str)
| NotUtf8.

Inductive io_op : Type :=
| WriteRequest
| FlushRequest
| ReadHeaders
| ReadDeclared
| ReadEof
| ReadChunked.

Inductive FetchError : Type :=
| InvalidUrl
| TorConnect
| Resolve
| Tls
| Http (what : http_problem)
| Non200 (status : Z)
| TooLarge (max_bytes : Z)
| IncompleteBody (expected got : Z)
| ChunkedEncoding (what : Chunked.FetchError)
| TooManyRedirects
| Timeout
| Io (op : io_op).

(** The errors of the chunked reader as errors of the fetch. *)
Definition chunked_error (e : Chunked.FetchError) : FetchError :=
  match e with
  | Chunked.IoError => Io ReadChunked
  | Chunked.TooLarge n => TooLarge n
  | _ => ChunkedEncoding e
  end.

(** ** Requests *)

Definition CR : Z := 13.
Definition LF : Z := 10.
Definition CRLF : str := [CR; LF].

Definition sanitize_header_value (s : str) : str :=
  trim (List.filter (fun c => negb (c =? CR) && negb (c =? LF)) s).

Definition cookie_jar (cookies : list str) : list str :=
  List.filter (fun c => negb (is_empty c)) (map sanitize_header_value cookies).

Definition build_get_request (host path : str) (headers cookies : list str) : str :=
  let req := lit "GET " ++ path ++ lit " HTTP/1.1" ++ CRLF ++
             lit "Host: " ++ host ++ CRLF ++
             lit "Connection: close" ++ CRLF ++
             lit "User-Agent: tor-socks5/0.1" ++ CRLF ++
             lit "Accept: */*" ++ CRLF in
  let req := fold_left (fun req h =>
    let line := sanitize_header_value h in
    if is_empty line then req else req ++ line ++ CRLF) headers req in
  let req := if is_empty (cookie_jar cookies) then req
             else req ++ lit "Cookie: " ++ join (lit "; ") (cookie_jar cookies) ++ CRLF in
  req ++ CRLF.

(** ** Targets *)

Record UrlTarget : Type := mkTarget {
  dial_host : str;
  port : Z;
  host_header : str;
  path_and_query : str;
}.

Definition bracketed_if_ipv6 (h : str) : str :=
  match ipv6_from_str h with
  | Some v6 => [91] ++ ipv6_to_string v6 ++ [93]
  | None => h
  end.

Definition bracketed_host (t : UrlTarget) : str := bracketed_if_ipv6 (dial_host t).

Section Targets.
Context `{UrlCrate}.

Definition parse_https_url (url_str : str) : result UrlTarget FetchError :=
  match url_parse url_str with
  | Err _ => Err InvalidUrl
  | Ok parsed =>
      if negb (str_eqb (url_scheme parsed) (lit "https")) then Err InvalidUrl
      else match url_host_str parsed with
      | None => Err InvalidUrl
      | Some h =>
          let dial_host := trim_end_by (Z.eqb 93) (trim_start_by (Z.eqb 91) h) in
          match url_port_or_known_default parsed with
          | None => Err InvalidUrl
          | Some port =>
              let bracketed := bracketed_if_ipv6 dial_host in
              let host_header :=
                match url_port parsed with
                | Some p => bracketed ++ [58] ++ to_dec p
                | None => bracketed
                end in
              let path := if is_empty (url_path parsed) then [47] else url_path parsed in
              let path := match url_query parsed with Some q => path ++ [63] ++ q | None => path end in
              Ok (mkTarget dial_host port host_header path)
          end
      end
  end.
End Targets.

(** ** The response head *)

(** [httparse]: what parsing the front of a buffer finds. *)
Inductive head_status : Type :=
| Complete (header_len : nat) (code : option Z) (headers : list (str * list Z))
| Partial
| BadHead.

Class HttparseCrate : Type := { httparse : list Z → head_status }.

Record HttpResponse : Type := mkResponse {
  status : Z;
  location : option str;
  content_length : option Z;
  chunked : bool;
  header_len : nat;
}.

Definition is_chunked_coding (s : str) : bool :=
  existsb (fun c =>
    eq_ignore_ascii_case (trim (match split_on 59 c with x :: _ => x | [] => [] end)) (lit "chunked"))
    (split_on 44 s).

(** One header of the loop. *)
Definition absorb_header (r : HttpResponse) (h : str * list Z) : HttpResponse :=
  let '(name, value) := h in
  let r := if eq_ignore_ascii_case name (lit "location")
           then mkResponse (status r) (Some (from_utf8_lossy value)) (content_length r) (chunked r) (header_len r)
           else r in
  let r := if eq_ignore_ascii_case name (lit "content-length") then
             match Chunked.from_utf8 value with
             | Some s => mkResponse (status r) (location r) (parse_uint u64_max (trim s)) (chunked r) (header_len r)
             | None => r
             end
           else r in
  if eq_ignore_ascii_case name (lit "transfer-encoding") then
    match Chunked.from_utf8 value with
    | Some s => if is_chunked_coding s
                then mkResponse (status r) (location r) (content_length r) true (header_len r) else r
    | None => r
    end
  else r.

Definition response_head (len : nat) (code : Z) (headers : list (str * list Z)) : HttpResponse :=
  fold_left absorb_header headers (mkResponse code None None false len).

Definition parse_response_headers `{HttparseCrate} (buf : list Z) : result (option HttpResponse) FetchError :=
  match httparse buf with
  | Complete len (Some code) headers => Ok (Some (response_head len code headers))
  | Complete _ None _ => Err (Http NoStatusCode)
  | Partial => Ok None
  | BadHead => Err (Http Unparseable)
  end.

(** ** The response *)

Abbreviation Stream := (list Chunked.read_event).
Abbreviation zlen := Chunked.zlen.

Section Response.
Context `{HttparseCrate}.

(** The head loop: the buffer of [buf_len] bytes holds [total]; every read
    delivers a byte. *)
Fixpoint read_head (fuel : nat) (s : Stream) (buf_len : Z) (total : list Z) (max_body_bytes : Z)
  : option (result (HttpResponse * list Z * Stream) FetchError) :=
  match fuel with
  | O => None
  | S fuel' =>
      let grown := if buf_len <=? zlen total then buf_len * 2 else buf_len in
      if (buf_len <=? zlen total) && (max_body_bytes <? grown) then Some (Err (TooLarge max_body_bytes))
      else match Chunked.stream_read s (grown - zlen total) with
      | Err _ => Some (Err (Io ReadHeaders))
      | Ok ([], _) => Some (Err (Http ClosedInHead))
      | Ok (bs, s') =>
          match parse_response_headers (total ++ bs) with
          | Err e => Some (Err e)
          | Ok (Some info) => Some (Ok (info, total ++ bs, s'))
          | Ok None => read_head fuel' s' grown (total ++ bs) max_body_bytes
          end
      end
  end.

(** The body up to its declared length. *)
Fixpoint read_declared (fuel : nat) (s : Stream) (cl : Z) (body : list Z) : option (result (list Z) FetchError) :=
  if cl <=? zlen body then Some (Ok body)
  else match fuel with
  | O => None
  | S fuel' =>
      match Chunked.stream_read s (Z.min READ_BUF_SIZE (cl - zlen body)) with
      | Err _ => Some (Err (Io ReadDeclared))
      | Ok ([], _) => Some (Err (IncompleteBody cl (zlen body)))
      | Ok (bs, s') => read_declared fuel' s' cl (body ++ bs)
      end
  end.

(** The body up to the end of the stream. *)
Fixpoint read_to_eof (fuel : nat) (s : Stream) (max_body_bytes : Z) (body : list Z)
  : option (result (list Z) FetchError) :=
  match fuel with
  | O => None
  | S fuel' =>
      match Chunked.stream_read s READ_BUF_SIZE with
      | Err _ => Some (Err (Io ReadEof))
      | Ok ([], _) => Some (Ok body)
      | Ok (bs, s') =>
          if max_body_bytes <? zlen (body ++ bs) then Some (Err (TooLarge max_body_bytes))
          else read_to_eof fuel' s' max_body_bytes (body ++ bs)
      end
  end.

Definition read_body (info : HttpResponse) (rest : list Z) (s : Stream) (max_body_bytes : Z)
  : option (result (list Z) FetchError) :=
  if chunked info then
    match Chunked.decode_chunked_body s rest max_body_bytes with
    | None => None
    | Some (Err e) => Some (Err (chunked_error e))
    | Some (Ok body) => Some (Ok body)
    end
  else match content_length info with
  | Some cl =>
      if max_body_bytes <? cl then Some (Err (TooLarge max_body_bytes))
      else read_declared (S (length (Chunked.flat s))) s cl (take (Z.to_nat cl) rest)
  | None =>
      if max_body_bytes <? zlen rest then Some (Err (TooLarge max_body_bytes))
      else read_to_eof (S (length (Chunked.flat s))) s max_body_bytes rest
  end.

Inductive ResponseBody : Type :=
| BodyOk (text : str)
| Redirect (location : str).

Definition is_redirect (code : Z) : bool := (code =? 301) || (code =? 302) || (code =? 307) || (code =? 308).

Definition read_http_response (s : Stream) (max_body_bytes : Z) : option (result ResponseBody FetchError) :=
  match read_head (S (length (Chunked.flat s))) s READ_BUF_SIZE [] max_body_bytes with
  | None => None
  | Some (Err e) => Some (Err e)
  | Some (Ok (info, buf, s')) =>
      if is_redirect (status info) then
        Some (match location info with Some loc => Ok (Redirect loc) | None => Err (Http RedirectWithoutLocation) end)
      else if negb (status info =? 200) then Some (Err (Non200 (status info)))
      else match read_body info (drop (header_len info) buf) s' max_body_bytes with
      | None => None
      | Some (Err e) => Some (Err e)
      | Some (Ok body) =>
          Some (match Chunked.from_utf8 body with Some text => Ok (BodyOk text) | None => Err (Http NotUtf8) end)
      end
  end.
End Response.

(** ** The redirect loop *)

(** What the network does at one hop: the connection with its TLS handshake,
    the write, and a server free to answer what it likes. *)
Record hop : Type := mkHop {
  opened : UrlTarget → result unit FetchError;
  written : result unit FetchError;
  answer : UrlTarget → str → Stream;
}.

Record Source : Type := mkSource {
  label : str;
  url : str;
  headers : list str;
  cookies : list str;
  allow_credentials_cross_origin : bool;
}.

Definition next_url (target : UrlTarget) (loc : str) : option str :=
  if starts_with (lit "https://") loc then Some loc
  else if starts_with (lit "/") loc
  then Some (lit "https://" ++ bracketed_host target ++ [58] ++ to_dec (port target) ++ loc)
  else None.

Definition same_origin (src : Source) (origin : str * Z) (target : UrlTarget) : bool :=
  allow_credentials_cross_origin src ||
  (str_eqb (dial_host target) origin.1 && (port target =? origin.2)).

(** The request of a hop. *)
Definition hop_request (src : Source) (origin : str * Z) (target : UrlTarget) : str :=
  if same_origin src origin target
  then build_get_request (host_header target) (path_and_query target) (headers src) (cookies src)
  else build_get_request (host_header target) (path_and_query target) [] [].

Section Fetch.
Context `{UrlCrate, HttparseCrate}.

(** The loop from a hop on: its result, and the requests put on the wire with
    the target of the connection each went to. *)
Fixpoint follow (n : nat) (src : Source) (origin : str * Z) (max_body_bytes : Z) (hops : nat → hop) (i : nat)
  (current_url : str) : option (result str FetchError) * list (UrlTarget * str) :=
  match n with
  | O => (Some (Err TooManyRedirects), [])
  | S n' =>
      match parse_https_url current_url with
      | Err e => (Some (Err e), [])
      | Ok target =>
          let req := hop_request src origin target in
          match opened (hops i) target with
          | Err e => (Some (Err e), [])
          | Ok _ =>
              match written (hops i) with
              | Err e => (Some (Err e), [(target, req)])
              | Ok _ =>
                  match read_http_response (answer (hops i) target req) max_body_bytes with
                  | None => (None, [(target, req)])
                  | Some (Err e) => (Some (Err e), [(target, req)])
                  | Some (Ok (BodyOk text)) => (Some (Ok text), [(target, req)])
                  | Some (Ok (Redirect loc)) =>
                      match next_url target loc with
                      | None => (Some (Err (Http (UnsupportedRedirect loc))), [(target, req)])
                      | Some next =>
                          let '(r, sent) := follow n' src origin max_body_bytes hops (S i) next in
                          (r, (target, req) :: sent)
                      end
                  end
              end
          end
      end
  end.

Definition fetch_one_inner (src : Source) (max_body_bytes : Z) (hops : nat → hop)
  : option (result str FetchError) * list (UrlTarget * str) :=
  match parse_https_url (url src) with
  | Err e => (Some (Err e), [])
  | Ok t => follow MAX_REDIRECTS src (dial_host t, port t) max_body_bytes hops 0 (url src)
  end.

(** ** Batches *)

Context `{TlsCrate, BridgeLineCrate}.

Definition parse_bridges_from_body (body : str) : list BridgeLine :=
  List.filter Identity.usable_for_tor
    (omap (fun line => bridge_parse (trim line))
       (List.filter (fun line => negb (is_empty (trim line)) && negb (starts_with (lit "#") (trim line))) (lines body))).

Record FetchOutcome : Type := mkOutcome {
  outcome_label : str;
  bridges_extracted : nat;
  error : option FetchError;
  outcome_bridges : list BridgeLine;
}.

Definition outcome_of (l : str) (r : result str FetchError) : FetchOutcome :=
  match r with
  | Ok body =>
      let bridges := parse_bridges_from_body body in mkOutcome l (length bridges) None bridges
  | Err e => mkOutcome l 0 (Some e) []
  end.

(** A handle is a finished task, or [None] for one that panicked. *)
Fixpoint collect_fetch_results (handles : list (option (str * result str FetchError)))
  : list BridgeLine * list FetchOutcome :=
  match handles with
  | [] => ([], [])
  | h :: handles' =>
      let '(bridges, outcomes) := collect_fetch_results handles' in
      match h with
      | None => (bridges, outcomes)
      | Some (l, r) =>
          let o := outcome_of l r in (outcome_bridges o ++ bridges, o :: outcomes)
      end
  end.

(** What becomes of one source: its task may panic, and its time-out may
    pass. *)
Inductive fate : Type :=
| Panics
| TimesOut
| Runs (hops : nat → hop).

Definition fetch_one (src : Source) (max_body_bytes : Z) (f : fate) : option (option (str * result str FetchError)) :=
  match f with
  | Panics => Some None
  | TimesOut => Some (Some (label src, Err Timeout))
  | Runs hops =>
      match (fetch_one_inner src max_body_bytes hops).1 with
      | None => None
      | Some r => Some (Some (label src, r))
      end
  end.

Definition fetch_all (sources : list (Source * fate)) (max_body_bytes : Z)
  : option (list BridgeLine * list FetchOutcome) :=
  match mapM (fun sf => fetch_one sf.1 max_body_bytes sf.2) sources with
  | None => None
  | Some handles => Some (collect_fetch_results handles)
  end.
End Fetch.

(** ** The response on the whole wire *)

Definition body_of (info : HttpResponse) (body : list Z) (max_body_bytes : Z) : result (list Z) FetchError :=
  if chunked info then
    match Chunked.decode_on (S (length body)) body max_body_bytes [] with
    | Some (Ok b) => Ok b
    | Some (Err e) => Err (chunked_error e)
    | None => Err (Http Unparseable)
    end
  else match content_length info with
  | Some cl =>
      if max_body_bytes <? cl then Err (TooLarge max_body_bytes)
      else if cl <=? zlen body then Ok (take (Z.to_nat cl) body)
      else Err (IncompleteBody cl (zlen body))
  | None => if max_body_bytes <? zlen body then Err (TooLarge max_body_bytes) else Ok body
  end.

Definition response_of (info : HttpResponse) (body : list Z) (max_body_bytes : Z) : result ResponseBody FetchError :=
  if is_redirect (status info) then
    match location info with Some loc => Ok (Redirect loc) | None => Err (Http RedirectWithoutLocation) end
  else if negb (status info =? 200) then Err (Non200 (status info))
  else match body_of info body max_body_bytes with
  | Err e => Err e
  | Ok b => match Chunked.from_utf8 b with Some text => Ok (BodyOk text) | None => Err (Http NotUtf8) end
  end.

Section Wire.
Context `{HttparseCrate}.

(** [head] is a response head that parses as [info], whatever follows, and
    nothing shorter of it does. *)
Definition head_of (head : list Z) (info : HttpResponse) : Prop :=
  header_len info = length head ∧
  (∀ a b, head = a ++ b → b ≠ [] → parse_response_headers a = Ok None) ∧
  ∀ rest, parse_response_headers (head ++ rest) = Ok (Some info).

Lemma zlen_app {A} (a b : list A) : zlen (a ++ b) = zlen a + zlen b.
Proof. unfold Chunked.zlen. rewrite length_app. lia. Qed.

Lemma read_head_spec fuel s buf_len total head info body mx :
  Forall Chunked.piece s → head_of head info → total ++ Chunked.flat s = head ++ body →
  (length total < length head)%nat → zlen total ≤ buf_len → READ_BUF_SIZE ≤ buf_len →
  zlen head ≤ READ_BUF_SIZE ∨ 2 * zlen head ≤ mx → (length (Chunked.flat s) < fuel)%nat →
  ∃ buf s', read_head fuel s buf_len total mx = Some (Ok (info, buf, s')) ∧
    buf ++ Chunked.flat s' = head ++ body ∧ Forall Chunked.piece s' ∧ (length head ≤ length buf)%nat.
Proof.
  intros Hs Hh. revert s buf_len total Hs.
  induction fuel as [|fuel IH]; intros s buf_len total Hs Hw Htot Hbuf Hmin Hfit Hf; [lia|]. cbn [read_head].
  set (grown := if buf_len <=? zlen total then buf_len * 2 else buf_len).
  assert (Hgrown : zlen total < grown ∧ buf_len ≤ grown).
  { unfold grown, READ_BUF_SIZE in *. destruct (Z.leb_spec buf_len (zlen total)); lia. }
  assert (Hok : (buf_len <=? zlen total) && (mx <? grown) = false).
  { unfold grown, READ_BUF_SIZE, Chunked.zlen in *. destruct (Z.leb_spec buf_len (Z.of_nat (length total))); [|done].
    simpl. apply Z.ltb_ge. lia. }
  rewrite Hok. pose proof (Chunked.stream_read_spec s (grown - zlen total) Hs ltac:(lia)) as Hread.
  destruct (Chunked.flat s) as [|x xs] eqn:Hflat.
  { exfalso. apply (f_equal length) in Hw. rewrite !length_app in Hw. simpl in Hw. lia. }
  destruct Hread as (b & bs & s' & -> & Hsplit & Hs' & Hlen). rewrite Hsplit in Hw.
  destruct (Nat.lt_ge_cases (length (total ++ b :: bs)) (length head)) as [Hlt|Hge].
  - destruct Hh as (Hhl & Hpart & Hall).
    assert (Hpre : head = (total ++ b :: bs) ++ drop (length (total ++ b :: bs)) head).
    { rewrite <-(take_drop (length (total ++ b :: bs)) head) at 1. f_equal.
      rewrite app_assoc in Hw. apply (f_equal (take (length (total ++ b :: bs)))) in Hw.
      rewrite take_app_length, take_app_le in Hw by lia. done. }
    rewrite (Hpart _ _ Hpre); [|intros Hd; apply (f_equal length) in Hd; rewrite length_drop in Hd; simpl in Hd; lia].
    apply IH; [done|by rewrite <-app_assoc|done| | |done|].
    + rewrite zlen_app. lia.
    + lia.
    + apply (f_equal length) in Hsplit. rewrite length_app in Hsplit. simpl in Hsplit, Hf. lia.
  - assert (Hpre : total ++ b :: bs = head ++ drop (length head) (total ++ b :: bs)).
    { rewrite <-(take_drop (length head) (total ++ b :: bs)) at 1. f_equal.
      rewrite app_assoc in Hw. apply (f_equal (take (length head))) in Hw.
      rewrite take_app_length, take_app_le in Hw by lia. done. }
    destruct Hh as (Hhl & Hpart & Hall). pose proof (Hall (drop (length head) (total ++ b :: bs))) as Hp.
    rewrite <-Hpre in Hp. rewrite Hp. eexists _, _. split; [done|]. by rewrite <-app_assoc.
Qed.

Lemma read_declared_spec fuel s cl body :
  Forall Chunked.piece s → (length (Chunked.flat s) < fuel)%nat → zlen body ≤ Z.max 0 cl →
  read_declared fuel s cl body = Some
    (if cl <=? zlen (body ++ Chunked.flat s) then Ok (take (Z.to_nat cl) (body ++ Chunked.flat s))
     else Err (IncompleteBody cl (zlen (body ++ Chunked.flat s)))).
Proof.
  intros Hs. revert s body Hs. induction fuel as [|fuel IH]; intros s body Hs Hf Hb; [lia|]. cbn [read_declared].
  destruct (Z.leb_spec cl (zlen body)) as [Hle|Hgt].
  { rewrite zlen_app. unfold Chunked.zlen in *. rewrite (proj2 (Z.leb_le _ _)) by lia. rewrite take_app_le by lia.
    by rewrite take_ge by lia. }
  pose proof (Chunked.stream_read_spec s (Z.min READ_BUF_SIZE (cl - zlen body)) Hs) as Hread.
  specialize (Hread ltac:(unfold READ_BUF_SIZE; lia)).
  destruct (Chunked.flat s) as [|x xs] eqn:Hflat.
  { rewrite Hread, app_nil_r. by rewrite (proj2 (Z.leb_gt _ _)). }
  destruct Hread as (b & bs & s' & -> & Hsplit & Hs' & Hlen). rewrite Hsplit.
  rewrite IH; [by rewrite <-app_assoc|done| |].
  - apply (f_equal length) in Hsplit. rewrite length_app in Hsplit. simpl in Hsplit, Hf. lia.
  - rewrite zlen_app. lia.
Qed.

Lemma read_to_eof_spec fuel s mx body :
  Forall Chunked.piece s → (length (Chunked.flat s) < fuel)%nat → zlen body ≤ mx →
  read_to_eof fuel s mx body = Some
    (if mx <? zlen (body ++ Chunked.flat s) then Err (TooLarge mx) else Ok (body ++ Chunked.flat s)).
Proof.
  intros Hs. revert s body Hs. induction fuel as [|fuel IH]; intros s body Hs Hf Hb; [lia|]. cbn [read_to_eof].
  pose proof (Chunked.stream_read_spec s READ_BUF_SIZE Hs ltac:(done)) as Hread.
  destruct (Chunked.flat s) as [|x xs] eqn:Hflat.
  { rewrite Hread, app_nil_r. by rewrite (proj2 (Z.ltb_ge _ _)). }
  destruct Hread as (b & bs & s' & -> & Hsplit & Hs' & Hlen). rewrite Hsplit.
  destruct (Z.ltb_spec mx (zlen (body ++ b :: bs))) as [Hlt|Hge].
  { rewrite app_assoc, zlen_app. rewrite (proj2 (Z.ltb_lt _ _)); [done|].
    unfold Chunked.zlen in *. lia. }
  rewrite IH; [by rewrite <-app_assoc|done| |done].
  apply (f_equal length) in Hsplit. rewrite length_app in Hsplit. simpl in Hsplit, Hf. lia.
Qed.

Lemma read_body_spec info rest s body mx :
  Forall Chunked.piece s → rest ++ Chunked.flat s = body → 0 ≤ mx →
  read_body info rest s mx = Some (body_of info body mx).
Proof.
  intros Hs Hw Hmx. unfold read_body, body_of. destruct (chunked info).
  - rewrite (Chunked.decode_on_wire s rest mx Hs), Hw.
    destruct (Chunked.decode_on_total (S (length body)) body mx []) as (res & -> & _); [lia|done|]. by destruct res.
  - destruct (content_length info) as [cl|].
    + destruct (mx <? cl); [done|]. rewrite read_declared_spec; [|done|lia|].
      2: { unfold Chunked.zlen. rewrite length_take. lia. }
      destruct (Nat.le_gt_cases (Z.to_nat cl) (length rest)) as [Hle|Hgt].
      * assert (Hcl : cl ≤ zlen (take (Z.to_nat cl) rest)) by (unfold Chunked.zlen; rewrite length_take; lia).
        rewrite <-Hw, !zlen_app. unfold Chunked.zlen in *.
        rewrite !(proj2 (Z.leb_le _ _)) by (rewrite ?length_take in *; lia).
        rewrite !take_app_le by (rewrite ?length_take; lia). by rewrite take_take, Nat.min_id.
      * rewrite (take_ge rest) by lia. by rewrite Hw.
    + destruct (Z.ltb_spec mx (zlen rest)) as [Hlt|Hge].
      * rewrite <-Hw, zlen_app. rewrite (proj2 (Z.ltb_lt _ _)); [done|]. unfold Chunked.zlen in *. lia.
      * rewrite read_to_eof_spec; [by rewrite Hw|done|lia|done].
Qed.

Lemma body_of_bounded info body mx b : 0 ≤ mx → body_of info body mx = Ok b → zlen b ≤ mx.
Proof.
  intros Hmx. unfold body_of. destruct (chunked info).
  - destruct (Chunked.decode_on_total (S (length body)) body mx []) as (res & -> & Hb); [lia|done|].
    destruct res as [b'|]; [|done]. intros [= <-]. by apply Hb.
  - destruct (content_length info) as [cl|]; [destruct (Z.ltb_spec mx cl); [done|]|destruct (Z.ltb_spec mx (zlen body)); [done|]].
    + destruct (cl <=? zlen body); [|done]. intros [= <-]. unfold Chunked.zlen. rewrite length_take. lia.
    + by intros [= <-].
Qed.

Lemma read_http_response_spec s head info body mx :
  Forall Chunked.piece s → Chunked.flat s = head ++ body → head_of head info → head ≠ [] →
  zlen head ≤ READ_BUF_SIZE ∨ 2 * zlen head ≤ mx → 0 ≤ mx →
  read_http_response s mx = Some (response_of info body mx).
Proof.
  intros Hs Hw Hh Hne Hfit Hmx. unfold read_http_response, response_of.
  destruct (read_head_spec (S (length (Chunked.flat s))) s READ_BUF_SIZE [] head info body mx)
    as (buf & s' & -> & Hw' & Hs' & Hlen); [done|done|done|by destruct head; [|simpl; lia]|done|done|done|lia|].
  destruct (is_redirect (status info)); [done|]. destruct (negb (status info =? 200)); [done|].
  rewrite (read_body_spec info (drop (header_len info) buf) s' body mx); [by destruct (body_of info body mx)|done| |done].
  destruct Hh as (-> & _). apply (f_equal (drop (length head))) in Hw'.
  by rewrite drop_app_length, drop_app_le in Hw' by done.
Qed.
End Wire.

(** a response is read exactly, however the connection cuts it into
    pieces: with a head of up to 8 KiB, or of half the body limit, the result
    is that of the head and the whole of what follows it - a redirect, a
    refused status, the chunked body, the declared number of bytes or an error
    naming how many came, or everything up to the end - and the text of a
    successful response is never longer than the limit. *)
Theorem responses_are_read_exactly `{HttparseCrate} s head info body mx :
  Forall Chunked.piece s → Chunked.flat s = head ++ body → head_of head info → head ≠ [] →
  zlen head ≤ READ_BUF_SIZE ∨ 2 * zlen head ≤ mx → 0 ≤ mx →
  read_http_response s mx = Some (response_of info body mx) ∧
  ∀ text, response_of info body mx = Ok (BodyOk text) → str_len text ≤ mx.
Proof.
  intros Hs Hw Hh Hne Hfit Hmx. split; [by eapply read_http_response_spec|]. intros text. unfold response_of.
  destruct (is_redirect (status info)); [by destruct (location info)|]. destruct (negb (status info =? 200)); [done|].
  destruct (body_of info body mx) as [b|] eqn:Hb; [|done]. unfold Chunked.from_utf8.
  case_bool_decide as Heq; [|done]. intros [= <-]. unfold str_len. rewrite Heq. by eapply body_of_bounded.
Qed.

(** ** Credentials *)

Lemma follow_sent `{UrlCrate, HttparseCrate} n src origin mx hops i current r sent :
  follow n src origin mx hops i current = (r, sent) →
  (length sent ≤ n)%nat ∧
  Forall (fun tr => tr.2 = hop_request src origin tr.1 ∧ ∃ u, parse_https_url u = Ok tr.1) sent.
Proof.
  revert i current r sent. induction n as [|n IH]; intros i current r sent; cbn [follow]; [intros [= <- <-]; by split; [simpl; lia|]|].
  destruct (parse_https_url current) as [t|] eqn:Ht; [|intros [= <- <-]; split; [simpl; lia|done]].
  assert (Hone : Forall (fun tr : UrlTarget * str => tr.2 = hop_request src origin tr.1 ∧ ∃ u, parse_https_url u = Ok tr.1)
    [(t, hop_request src origin t)]) by (apply Forall_singleton; simpl; eauto).
  destruct (opened (hops i) t); [|intros [= <- <-]; split; [simpl; lia|done]].
  destruct (written (hops i)); [|intros [= <- <-]; split; [simpl; lia|done]].
  destruct (read_http_response _ mx) as [[[text|loc]|e]|]; try (intros [= <- <-]; split; [simpl; lia|done]).
  destruct (next_url t loc) as [next|]; [|intros [= <- <-]; split; [simpl; lia|done]].
  destruct (follow n src origin mx hops (S i) next) as [r' sent'] eqn:Hf. destruct (IH _ _ _ _ Hf) as [Hlen Hall].
  intros [= <- <-]. split; [simpl; lia|]. apply Forall_cons. split; [|done]. simpl. eauto.
Qed.

(** C9: whatever servers answer and wherever they redirect, a fetch sends at
    most three requests, each to the target of an [https] URL; the headers and
    cookies of a source go only to the origin of the URL it was configured
    with, unless it opts out, and a request to any other origin carries
    none of them. *)
Theorem credentials_stay_home `{UrlCrate, HttparseCrate} src mx hops r sent home :
  parse_https_url (url src) = Ok home → fetch_one_inner src mx hops = (r, sent) →
  (length sent ≤ 3)%nat ∧
  ∀ t req, (t, req) ∈ sent → (∃ u, parse_https_url u = Ok t) ∧
    ((allow_credentials_cross_origin src = true ∨ (dial_host t = dial_host home ∧ port t = port home)) ∧
       req = build_get_request (host_header t) (path_and_query t) (headers src) (cookies src) ∨
     (allow_credentials_cross_origin src = false ∧ (dial_host t ≠ dial_host home ∨ port t ≠ port home)) ∧
       req = build_get_request (host_header t) (path_and_query t) [] []).
Proof.
  intros Hhome Hf. unfold fetch_one_inner in Hf. rewrite Hhome in Hf.
  destruct (follow_sent _ _ _ _ _ _ _ _ _ Hf) as [Hlen Hall]. split; [done|]. intros t req Hin.
  rewrite Forall_forall in Hall. destruct (Hall _ Hin) as [Hreq Hu]. simpl in Hreq, Hu. split; [done|].
  rewrite Hreq. unfold hop_request, same_origin. simpl.
  destruct (allow_credentials_cross_origin src); simpl; [left; auto|].
  unfold str_eqb. case_bool_decide as Hd; simpl; [|right; auto].
  destruct (Z.eqb_spec (port t) (port home)) as [Hp|Hp]; [left; auto|right; auto].
Qed.

(** ** Redirects *)

(** The connection and the write fail with errors of their own. *)
Definition hop_ok (h : hop) : Prop :=
  (∀ t, opened h t ≠ Err TooManyRedirects) ∧ written h ≠ Err TooManyRedirects.

Lemma parse_https_url_error `{UrlCrate} u e : parse_https_url u = Err e → e = InvalidUrl.
Proof. unfold parse_https_url. intros Hp. repeat (case_match; try congruence). Qed.

Lemma read_head_error `{HttparseCrate} fuel s buf_len total mx :
  read_head fuel s buf_len total mx ≠ Some (Err TooManyRedirects).
Proof.
  revert s buf_len total. induction fuel as [|fuel IH]; intros s buf_len total; cbn [read_head]; [done|].
  case_match; [done|]. destruct (Chunked.stream_read s _) as [[[|b bs] s']|]; [done| |done].
  unfold parse_response_headers. destruct (httparse (total ++ b :: bs)) as [len [code|] hs| |]; [done|done|apply IH|done].
Qed.

Lemma read_declared_error fuel s cl body : read_declared fuel s cl body ≠ Some (Err TooManyRedirects).
Proof.
  revert s body. induction fuel as [|fuel IH]; intros s body; cbn [read_declared]; destruct (cl <=? zlen body); try done.
  destruct (Chunked.stream_read s _) as [[[|b bs] s']|]; [done|apply IH|done].
Qed.

Lemma read_to_eof_error fuel s mx body : read_to_eof fuel s mx body ≠ Some (Err TooManyRedirects).
Proof.
  revert s body. induction fuel as [|fuel IH]; intros s body; cbn [read_to_eof]; [done|].
  destruct (Chunked.stream_read s _) as [[[|b bs] s']|]; [done| |done].
  destruct (mx <? zlen (body ++ b :: bs)); [done|apply IH].
Qed.

Lemma read_body_error info rest s mx : read_body info rest s mx ≠ Some (Err TooManyRedirects).
Proof.
  unfold read_body. destruct (chunked info); [by destruct (Chunked.decode_chunked_body s rest mx) as [[b|[]]|]|].
  destruct (content_length info) as [cl|]; [destruct (mx <? cl)|destruct (mx <? zlen rest)]; try done.
  - apply read_declared_error.
  - apply read_to_eof_error.
Qed.

Lemma read_response_error `{HttparseCrate} s mx : read_http_response s mx ≠ Some (Err TooManyRedirects).
Proof.
  unfold read_http_response. pose proof (read_head_error (S (length (Chunked.flat s))) s READ_BUF_SIZE [] mx) as Hh.
  destruct (read_head _ s READ_BUF_SIZE [] mx) as [[[[info buf] s']|e]|]; [|congruence|done].
  destruct (is_redirect (status info)); [by destruct (location info)|]. case_match; [done|].
  pose proof (read_body_error info (drop (header_len info) buf) s' mx) as Hb.
  destruct (read_body info _ s' mx) as [[b|e]|]; [|congruence|done]. by destruct (Chunked.from_utf8 b).
Qed.

Lemma follow_too_many `{UrlCrate, HttparseCrate} n src origin mx hops i current sent :
  (∀ k, hop_ok (hops k)) → follow n src origin mx hops i current = (Some (Err TooManyRedirects), sent) → length sent = n.
Proof.
  intros Hok. revert i current sent. induction n as [|n IH]; intros i current sent; cbn [follow]; [by intros [= <-]|].
  destruct (parse_https_url current) as [t|e] eqn:Ht; [|apply parse_https_url_error in Ht; congruence].
  destruct (Hok i) as [Ho Hw]. specialize (Ho t). destruct (opened (hops i) t); [|congruence].
  destruct (written (hops i)); [|congruence].
  pose proof (read_response_error (answer (hops i) t (hop_request src origin t)) mx) as Hr.
  destruct (read_http_response _ mx) as [[[text|loc]|e]|]; [congruence| |congruence|congruence].
  destruct (next_url t loc) as [next|]; [|congruence].
  destruct (follow n src origin mx hops (S i) next) as [r sent'] eqn:Hf. intros [= -> <-].
  simpl. f_equal. by eapply IH.
Qed.

(** a fetch gives up as having met too many redirects after exactly three
    requests: the third redirect answer already is one too many, so only two
    redirects are ever followed. *)
Theorem third_redirect_is_refused `{UrlCrate, HttparseCrate} src mx hops sent :
  (∀ k, hop_ok (hops k)) → fetch_one_inner src mx hops = (Some (Err TooManyRedirects), sent) → length sent = 3%nat.
Proof.
  intros Hok. unfold fetch_one_inner. destruct (parse_https_url (url src)) as [t|e] eqn:Ht.
  - by apply follow_too_many.
  - apply parse_https_url_error in Ht. congruence.
Qed.

(** ** Framing of a request *)

(** The lines a server sees: cut at each line feed, without the carriage
    return. *)
Definition crlf_lines (s : str) : list str := map strip_cr (split_on LF s).

Definition cookie_lines (cookies : list str) : list str :=
  if is_empty (cookie_jar cookies) then [] else [lit "Cookie: " ++ join (lit "; ") (cookie_jar cookies)].

Definition request_lines (host path : str) (headers cookies : list str) : list str :=
  [ lit "GET " ++ path ++ lit " HTTP/1.1"; lit "Host: " ++ host; lit "Connection: close";
    lit "User-Agent: tor-socks5/0.1"; lit "Accept: */*" ] ++
  List.filter (fun l => negb (is_empty l)) (map sanitize_header_value headers) ++ cookie_lines cookies.

Definition clean (s : str) : bool := forallb (fun c => negb (c =? CR) && negb (c =? LF)) s.

Lemma clean_app a b : clean (a ++ b) = clean a && clean b.
Proof. apply forallb_app. Qed.

Lemma trim_start_sub p s x : x ∈ trim_start_by p s → x ∈ s.
Proof. induction s as [|y s IH]; simpl; [done|]. destruct (p y); [|done]. intros Hx. right. auto. Qed.

Lemma trim_sub s x : x ∈ trim s → x ∈ s.
Proof.
  unfold trim, trim_end_by. rewrite list_elem_of_In, <-in_rev, <-list_elem_of_In.
  intros Hx%trim_start_sub. rewrite list_elem_of_In, <-in_rev, <-list_elem_of_In in Hx. by eapply trim_start_sub.
Qed.

Lemma clean_spec s : clean s = true ↔ ∀ x, x ∈ s → x ≠ CR ∧ x ≠ LF.
Proof.
  unfold clean. rewrite forallb_forall. split; intros Hs x Hx.
  - apply list_elem_of_In, Hs in Hx. by boolprop.
  - apply list_elem_of_In, Hs in Hx as [Hc Hl]. by rewrite !(proj2 (Z.eqb_neq _ _)).
Qed.

Lemma sanitize_clean s : clean (sanitize_header_value s) = true.
Proof.
  apply clean_spec. intros x Hx%trim_sub. apply list_elem_of_In, filter_In in Hx as [_ Hx]. by boolprop.
Qed.

Lemma joined_clean sep l : clean sep = true → Forall (fun w => clean w = true) l → clean (join sep l) = true.
Proof.
  intros Hsep Hl. induction Hl as [|w l Hw Hl IH]; [done|]. destruct l as [|w' l]; [done|].
  change (join sep (w :: w' :: l)) with (w ++ sep ++ join sep (w' :: l)). by rewrite !clean_app, Hw, Hsep, IH.
Qed.

Lemma kept_clean (l : list str) : Forall (fun w => clean w = true) (List.filter (fun w => negb (is_empty w)) (map sanitize_header_value l)).
Proof.
  apply Forall_forall. intros w Hw. apply list_elem_of_In, filter_In in Hw as [Hw _].
  apply list_elem_of_In, list_elem_of_fmap in Hw as (x & -> & _). apply sanitize_clean.
Qed.

Lemma request_lines_clean host path headers cookies :
  clean host = true → clean path = true → Forall (fun l => clean l = true) (request_lines host path headers cookies).
Proof.
  intros Hh Hp. unfold request_lines. apply Forall_app. split; [|apply Forall_app; split; [apply kept_clean|]].
  - repeat (apply Forall_cons; split); [..|apply Forall_nil_2]; rewrite ?clean_app, ?Hh, ?Hp; vm_compute; reflexivity.
  - unfold cookie_lines. destruct (is_empty _); [apply Forall_nil_2|]. apply Forall_singleton.
    rewrite clean_app, joined_clean; [vm_compute; reflexivity|vm_compute; reflexivity|apply kept_clean].
Qed.

Lemma build_is_lines host path headers cookies :
  build_get_request host path headers cookies =
  concat (map (fun l : str => l ++ CRLF) (request_lines host path headers cookies)) ++ CRLF.
Proof.
  unfold build_get_request, request_lines. set (start := lit "GET " ++ _).
  assert (Hfold : ∀ hs req, fold_left (fun req h => if is_empty (sanitize_header_value h) then req
      else req ++ sanitize_header_value h ++ CRLF) hs req =
    req ++ concat (map (fun l : str => l ++ CRLF) (List.filter (fun l => negb (is_empty l)) (map sanitize_header_value hs)))).
  { induction hs as [|h hs IH]; intros req; simpl; [by rewrite app_nil_r|].
    rewrite IH. destruct (is_empty (sanitize_header_value h)); simpl; [done|]. by rewrite <-!app_assoc. }
  rewrite Hfold, !map_app, !concat_app.
  assert (Hstart : start = concat (map (fun l : str => l ++ CRLF)
    [ lit "GET " ++ path ++ lit " HTTP/1.1"; lit "Host: " ++ host; lit "Connection: close";
      lit "User-Agent: tor-socks5/0.1"; lit "Accept: */*" ])).
  { unfold start. cbn [map concat]. by rewrite app_nil_r, <-!app_assoc. }
  clearbody start. rewrite Hstart. clear start Hstart. unfold cookie_lines.
  destruct (is_empty (cookie_jar cookies)).
  - cbn [map concat]. rewrite !app_nil_r, <-!app_assoc. reflexivity.
  - cbn [map concat]. rewrite !app_nil_r, <-!app_assoc. reflexivity.
Qed.

Lemma crlf_lines_concat ls :
  Forall (fun l => clean l = true) ls → crlf_lines (concat (map (fun l : str => l ++ CRLF) ls) ++ CRLF) = ls ++ [[]; []].
Proof.
  unfold crlf_lines, split_on. intros Hls. induction Hls as [|l ls Hl Hls IH]; [by vm_compute|].
  cbn [map concat].
  replace (((l ++ CRLF) ++ concat (map (fun l : str => l ++ CRLF) ls)) ++ CRLF)
    with ((l ++ [CR]) ++ LF :: (concat (map (fun l : str => l ++ CRLF) ls) ++ CRLF)) by (unfold CRLF; by rewrite <-!app_assoc).
  rewrite clean_spec in Hl. rewrite split_by_app; [|apply Forall_forall; intros x|by vm_compute].
  - cbn [map]. rewrite IH. simpl. f_equal. unfold strip_cr. by rewrite strip_suffix_app.
  - intros [Hx| ->%list_elem_of_singleton]%elem_of_app; [|done]. apply Z.eqb_neq. destruct (Hl x Hx). auto.
Qed.

(** a request has exactly the lines it is meant to have: whatever text
    the configured headers and cookies contain, a server that cuts the request
    at its line ends sees the request line, the four fixed headers, one line
    for each header that is not blank, at most one cookie line, and the blank
    line that ends the head - nothing a header or cookie brings along can add
    a line or end the head early. *)
Theorem requests_are_not_smuggled host path headers cookies :
  clean host = true → clean path = true →
  crlf_lines (build_get_request host path headers cookies) = request_lines host path headers cookies ++ [[]; []] ∧
  Forall (fun l => l ≠ []) (request_lines host path headers cookies).
Proof.
  intros Hh Hp. split; [by rewrite build_is_lines, crlf_lines_concat by (by apply request_lines_clean)|].
  unfold request_lines. apply Forall_app. split; [|apply Forall_app; split].
  - repeat (apply Forall_cons; split); [..|apply Forall_nil_2]; intros Hn; apply (f_equal length) in Hn;
      rewrite ?length_app in Hn; vm_compute in Hn; lia.
  - apply Forall_forall. intros l Hl. apply list_elem_of_In, filter_In in Hl as [_ Hl]. by destruct l.
  - unfold cookie_lines. destruct (is_empty _); [apply Forall_nil_2|]. apply Forall_singleton.
    intros Hn. apply (f_equal length) in Hn. rewrite length_app in Hn. vm_compute in Hn. lia.
Qed.

(** ** Outcomes *)

(** a batch in which no task panics has one outcome for each source, in
    order, and its bridges are those of the outcomes: usable ones only, and
    none for a source whose fetch failed. *)
Theorem outcomes_match_sources `{UrlCrate, HttparseCrate, TlsCrate, BridgeLineCrate} sources mx bridges outcomes :
  Forall (fun sf => sf.2 ≠ Panics) sources → fetch_all sources mx = Some (bridges, outcomes) →
  map outcome_label outcomes = map (fun sf => label sf.1) sources ∧
  bridges = concat (map outcome_bridges outcomes) ∧
  Forall (fun o => bridges_extracted o = length (outcome_bridges o) ∧
    Forall (fun b => Identity.usable_for_tor b = true) (outcome_bridges o) ∧
    (error o ≠ None → outcome_bridges o = [])) outcomes.
Proof.
  intros Hp. unfold fetch_all.
  destruct (mapM (fun sf => fetch_one sf.1 mx sf.2) sources) as [handles|] eqn:Hm; [|done].
  apply mapM_Some_1 in Hm. revert bridges outcomes.
  induction Hm as [|[src f] h sources handles Hh Hm IH]; intros bridges outcomes.
  { simpl. intros [= <- <-]. split_and!; [done|done|apply Forall_nil_2]. }
  apply Forall_cons in Hp as [Hf Hp]. cbn [collect_fetch_results].
  destruct (collect_fetch_results handles) as [bs os]. destruct (IH Hp bs os eq_refl) as (Hl & Hb & Ho).
  assert (Hsome : ∃ r, h = Some (label src, r)).
  { destruct f; simpl in Hh; [done|injection Hh as <-; eauto|].
    case_match; [|done]. injection Hh as <-. eauto. }
  destruct Hsome as [r ->]. intros [= <- <-]. cbn [map concat].
  split_and!; [by destruct r; simpl; rewrite Hl|by rewrite Hb|]. apply Forall_cons. split; [|done].
  destruct r as [body|e]; simpl; [|split_and!; [done|apply Forall_nil_2|done]]. split_and!; [done| |done].
  apply Forall_forall. intros b Hin. by apply list_elem_of_In, filter_In in Hin as [_ Hu].
Qed.

(** ** Runs *)

Section Samples.
#[local] Existing Instance sample_url.
#[local] Existing Instance sample_tls.
#[local] Existing Instance sample_lines.

(** A one-letter status line and a blank one: [O] is a success with three
    bytes, [R] a redirect to another host. *)
Definition sample_httparse : HttparseCrate := {|
  httparse buf :=
    if (length buf <? 2)%nat then Partial else
    match buf with
    | 79 :: 10 :: _ => Complete 2 (Some 200) [(lit "Content-Length", lit " 3")]
    | 82 :: 10 :: _ => Complete 2 (Some 302) [(lit "Location", lit "https://other.example/x")]
    | _ => BadHead
    end
|}.
#[local] Existing Instance sample_httparse.

Definition sample_info : HttpResponse := mkResponse 200 None (Some 3) false 2.

Lemma sample_head : head_of [79; 10] sample_info.
Proof.
  split; [reflexivity|split].
  - intros a b Heq Hb. destruct a as [|x [|y a]]; [reflexivity|reflexivity|].
    cbn [app] in Heq. injection Heq as _ _ Heq. destruct a; [|discriminate]. cbn [app] in Heq. congruence.
  - intros rest. transitivity (@Ok (option HttpResponse) FetchError
      (Some (response_head 2 200 [(lit "Content-Length", lit " 3")]))); [reflexivity|vm_compute; reflexivity].
Qed.

Lemma responses_are_read_exactly_witness :
  read_http_response (map (fun c => Chunked.Bytes [c]) ([79; 10] ++ lit "abcd")) 10 = Some (Ok (BodyOk (lit "abc"))) ∧
  str_len (lit "abc") ≤ 10.
Proof.
  destruct (responses_are_read_exactly (map (fun c => Chunked.Bytes [c]) ([79; 10] ++ lit "abcd")) [79; 10] sample_info
    (lit "abcd") 10) as [Hr Hl].
  - repeat constructor.
  - vm_compute. reflexivity.
  - exact sample_head.
  - discriminate.
  - left. vm_compute. discriminate.
  - lia.
  - assert (Hof : response_of sample_info (lit "abcd") 10 = Ok (BodyOk (lit "abc"))) by (vm_compute; reflexivity).
    split; [rewrite Hr, Hof; reflexivity|]. apply Hl. exact Hof.
Defined.

Definition sample_source : Source :=
  mkSource (lit "s") (lit "https://home.example/list") [lit "X-Token: 1"] [lit "session=2"] false.

(** The configured server redirects away. *)
Definition sample_hops (i : nat) : hop :=
  mkHop (fun _ => Ok tt) (Ok tt)
    (fun _ _ => if (i =? 0)%nat then [Chunked.Bytes [82; 10]] else [Chunked.Bytes ([79; 10] ++ lit "abc")]).

Definition sample_fetch := fetch_one_inner sample_source 100 sample_hops.

Lemma credentials_stay_home_witness :
  sample_fetch.1 = Some (Ok (lit "abc")) ∧ length sample_fetch.2 = 2%nat ∧ (length sample_fetch.2 ≤ 3)%nat.
Proof.
  split; [vm_compute; reflexivity|]. split; [vm_compute; reflexivity|].
  destruct (credentials_stay_home sample_source 100 sample_hops sample_fetch.1 sample_fetch.2
    (mkTarget (lit "home.example") 443 (lit "home.example") (lit "/list"))) as [Hlen _].
  - vm_compute. reflexivity.
  - unfold sample_fetch. apply surjective_pairing.
  - exact Hlen.
Defined.

Definition looping_hops (_ : nat) : hop := mkHop (fun _ => Ok tt) (Ok tt) (fun _ _ => [Chunked.Bytes [82; 10]]).

Lemma third_redirect_is_refused_witness :
  (fetch_one_inner sample_source 100 looping_hops).1 = Some (Err TooManyRedirects) ∧
  length (fetch_one_inner sample_source 100 looping_hops).2 = 3%nat.
Proof.
  assert (Hr : (fetch_one_inner sample_source 100 looping_hops).1 = Some (Err TooManyRedirects)) by (vm_compute; reflexivity).
  split; [exact Hr|]. apply (third_redirect_is_refused sample_source 100 looping_hops).
  - intros k. split; [intros t|]; discriminate.
  - rewrite <-Hr. apply surjective_pairing.
Defined.

Lemma requests_are_not_smuggled_witness :
  crlf_lines (build_get_request (lit "h") (lit "/p") [lit "A: 1" ++ [13; 10] ++ lit "Evil: 2"] [lit "c=1"]) =
  request_lines (lit "h") (lit "/p") [lit "A: 1" ++ [13; 10] ++ lit "Evil: 2"] [lit "c=1"] ++ [[]; []].
Proof. apply requests_are_not_smuggled; vm_compute; reflexivity. Defined.

Lemma outcomes_match_sources_witness :
  ∃ bridges outcomes, fetch_all [(sample_source, Runs sample_hops); (sample_source, TimesOut)] 100 = Some (bridges, outcomes) ∧
    map outcome_label outcomes = [lit "s"; lit "s"].
Proof.
  destruct (fetch_all [(sample_source, Runs sample_hops); (sample_source, TimesOut)] 100) as [[bridges outcomes]|] eqn:Hf.
  - exists bridges, outcomes. split; [reflexivity|].
    destruct (outcomes_match_sources [(sample_source, Runs sample_hops); (sample_source, TimesOut)] 100 bridges outcomes)
      as [Hl _]; [repeat constructor; discriminate|exact Hf|exact Hl].
  - vm_compute in Hf. discriminate.
Defined.
End Samples.
End Http.
