(* ===== verification/DnsUpstream.v ===== *)
(** * The DNS backends

    [packages/dns-server/src/doh/doh_client.rs] and [providers.rs], and the
    network half of [overrides/overrides.rs]: the query that is sent, the
    validation of what comes back, DNS over HTTPS through the tunnel with its
    ordered pool of providers, the plain exchange with an override server, and
    the traversal of the system's name servers.

    Texts of errors are left out.  What goes on the wire is a trace; what the
    network answers is an input. *)

From S2P Require Import Prelude Order Str Utf8 Net NetText DnsPacket DnsCache DnsOverrides DnsWire Chunked Http.
Import DnsPacket DnsCache DnsOverrides DnsWire.
Open Scope Z_scope.

Module DnsUpstream.

(** Nanoseconds. *)
Definition DOH_PROVIDER_TIMEOUT : Z := 20 * SECOND.
Definition DOH_TOTAL_TIMEOUT : Z := 30 * SECOND.
Definition PLAIN_DNS_TIMEOUT : Z := 5 * SECOND.
Definition SYSTEM_RESOLVER_TIMEOUT : Z := 10 * SECOND.
Definition MAX_DNS_RESPONSE_BYTES : Z := 64 * 1024.
Definition MAX_HEADER_BYTES : Z := 16 * 1024.
Definition DOH_PORT : Z := 443.

Inductive DnsServerError : Type :=
| TorConnect
| Tls
| DohExchange
| Wire
| CacheIo
| PlainDns
| SystemResolver
| AllProvidersFailed
| Timeout (after : Z).

Record DohProvider : Type := mkProvider { p_ip : ip_addr; hostname : str; path : str }.

(** ** The pool *)

Definition BUILTIN_DOH_PROVIDER_TUPLES : list (str * str * str) :=
  [
(lit "1.1.1.1", lit "cloudflare-dns.com", lit "/dns-query");
   (lit "1.0.0.1", lit "cloudflare-dns.com", lit "/dns-query");
   (lit "8.8.8.8", lit "dns.google", lit "/dns-query");
   (lit "8.8.4.4", lit "dns.google", lit "/dns-query");
   (lit "9.9.9.9", lit "dns.quad9.net", lit "/dns-query");
   (lit "149.112.112.112", lit "dns.quad9.net", lit "/dns-query");
   (lit "9.9.9.10", lit "dns10.quad9.net", lit "/dns-query");
   (lit "149.112.112.10", lit "dns10.quad9.net", lit "/dns-query");
   (lit "94.140.14.14", lit "dns.adguard-dns.com", lit "/dns-query");
   (lit "94.140.15.15", lit "dns.adguard-dns.com", lit "/dns-query");
   (lit "94.140.14.140", lit "unfiltered.adguard-dns.com", lit "/dns-query");
   (lit "94.140.14.141", lit "unfiltered.adguard-dns.com", lit "/dns-query");
   (lit "194.242.2.2", lit "dns.mullvad.net", lit "/dns-query");
   (lit "185.222.222.222", lit "dns.sb", lit "/dns-query");
   (lit "45.11.45.11", lit "dns.sb", lit "/dns-query");
   (lit "76.76.2.0", lit "p0.freedns.controld.com", lit "/dns-query");
   (lit "86.54.11.100", lit "unfiltered.joindns4.eu", lit "/dns-query");
   (lit "88.198.92.222", lit "doh.libredns.gr", lit "/dns-query");
   (lit "176.9.93.198", lit "dnsforge.de", lit "/dns-query");
   (lit "5.2.75.75", lit "doh.nl.ahadns.net", lit "/dns-query");
   (lit "76.76.2.11", lit "freedns.controld.com", lit "/dns-query");
   (lit "45.90.30.0", lit "anycast.dns.nextdns.io", lit "/dns-query");
   (lit "185.71.138.138", lit "wikimedia-dns.org", lit "/dns-query");
   (lit "95.215.19.53", lit "dns.njal.la", lit "/dns-query");
   (lit "103.2.57.5", lit "public.dns.iij.jp", lit "/dns-query");
   (lit "185.194.94.71", lit "dns.circl.lu", lit "/dns-query");
   (lit "178.105.16.6", lit "doh.lacontrevoie.fr", lit "/dns-query");
   (lit "5.1.66.255", lit "doh.ffmuc.net", lit "/dns-query");
   (lit "185.150.99.255", lit "doh.ffmuc.net", lit "/dns-query");
   (lit "116.202.176.26", lit "doh.libredns.gr", lit "/dns-query");
   (lit "185.250.250.61", lit "dnsbunker.org", lit "/dns-query");
   (lit "185.111.188.46", lit "dns1.dnscrypt.ca", lit "/dns-query");
   (lit "78.46.244.143", lit "doh-de.blahdns.com", lit "/dns-query");
   (lit "217.197.91.153", lit "dns.artikel10.org", lit "/dns-query");
   (lit "174.138.29.175", lit "doh.tiar.app", lit "/dns-query");
   (lit "104.21.65.60", lit "doh.tiarap.org", lit "/dns-query")].

(** [None] is the panic of [expect]. *)
Definition builtin_doh_providers : option (list DohProvider) :=
  mapM (fun '(i, h, p) => match ip_from_str i with Some a => Some (mkProvider a h p) | None => None end)
    BUILTIN_DOH_PROVIDER_TUPLES.

Definition provider_key (p : DohProvider) : ip_addr * str := (p_ip p, hostname p).

Fixpoint keep_first (seen : list (ip_addr * str)) (l : list DohProvider) : list DohProvider :=
  match l with
  | [] => []
  | p :: l' =>
      if bool_decide (provider_key p ∈ seen) then keep_first seen l'
      else p :: keep_first (provider_key p :: seen) l'
  end.

Definition provider_pool (custom : list DohProvider) (disable_builtin : bool) : option (list DohProvider) :=
  match builtin_doh_providers with
  | None => None
  | Some builtin => Some (keep_first [] ((if disable_builtin then [] else builtin) ++ custom))
  end.

Lemma keep_first_spec seen l :
  NoDup (map provider_key (keep_first seen l)) ∧
  (∀ p, p ∈ keep_first seen l → provider_key p ∉ seen) ∧
  (∀ p, p ∈ l → provider_key p ∈ seen ∨ provider_key p ∈ map provider_key (keep_first seen l)) ∧
  keep_first seen l `sublist_of` l.
Proof.
  revert seen. induction l as [|p l IH]; intros seen; simpl.
  { split_and!; [constructor|by intros ? ?%elem_of_nil|by intros ? ?%elem_of_nil|done]. }
  case_bool_decide as Hs.
  - destruct (IH seen) as (Hnd & Hout & Hall & Hsub). split_and!; [done|done| |by apply sublist_cons].
    intros p' [->|Hp]%elem_of_cons; [by left|by apply Hall].
  - destruct (IH (provider_key p :: seen)) as (Hnd & Hout & Hall & Hsub). cbn [map]. split_and!.
    + constructor; [|done]. intros (p' & Hk & Hp)%list_elem_of_In%in_map_iff. apply list_elem_of_In in Hp.
      apply (Hout p' Hp). rewrite Hk. by left.
    + intros p' [->|Hp]%elem_of_cons; [done|]. intros Hin. apply (Hout p' Hp). by right.
    + intros p' [->|Hp]%elem_of_cons; [right; by left|].
      destruct (Hall p' Hp) as [[->|?]%elem_of_cons|?]; [right; by left|by left|right; by right].
    + by apply sublist_skip.
Qed.

Lemma keep_first_app seen l1 l2 :
  NoDup (map provider_key l1) → (∀ p, p ∈ l1 → provider_key p ∉ seen) →
  keep_first seen (l1 ++ l2) = l1 ++ keep_first (rev (map provider_key l1) ++ seen) l2.
Proof.
  revert seen. induction l1 as [|p l1 IH]; intros seen Hnd Hout; [done|]. cbn [map] in Hnd. apply NoDup_cons in Hnd as [Hp Hnd].
  simpl. rewrite bool_decide_eq_false_2 by (apply Hout; by left). f_equal. rewrite IH; [by rewrite <-app_assoc|done|].
  intros p' Hp' [He|Hin]%elem_of_cons; [|by apply (Hout p'); [by right|]].
  apply Hp. rewrite <-He. apply list_elem_of_In, in_map. by apply list_elem_of_In.
Qed.

(** Every address of the built-in table parses and no two entries share
    address and host; the pool is the table, when enabled, in its order,
    followed by the custom providers in theirs, less those whose address and
    host came before. *)
Theorem provider_pool_keeps_order custom disable_builtin :
  ∃ builtin pool, builtin_doh_providers = Some builtin ∧ provider_pool custom disable_builtin = Some pool ∧
    NoDup (map provider_key pool) ∧
    (∃ extra, pool = (if disable_builtin then [] else builtin) ++ extra ∧ extra `sublist_of` custom) ∧
    ∀ p, p ∈ custom → provider_key p ∈ map provider_key pool.
Proof.
  assert (∃ builtin, builtin_doh_providers = Some builtin ∧ bool_decide (NoDup (map provider_key builtin)) = true)
    as (builtin & Hb & Hnd).
  { eexists. split; [reflexivity|]. vm_compute. reflexivity. }
  apply bool_decide_eq_true in Hnd. exists builtin. eexists. split; [done|]. unfold provider_pool. rewrite Hb. split; [done|].
  set (front := if disable_builtin then [] else builtin).
  destruct (keep_first_spec [] (front ++ custom)) as (Hpool & _ & Hall & _). split; [done|]. split.
  - rewrite keep_first_app; [|by destruct disable_builtin; [constructor|]|by intros ? _ ?%elem_of_nil].
    eexists. split; [done|]. apply keep_first_spec.
  - intros p Hp. destruct (Hall p) as [Hn|?]; [by apply elem_of_app; right|by apply elem_of_nil in Hn|done].
Qed.

(** ** Queries and responses *)

(** What leaves the machine: plain DNS datagrams and TCP messages, and, inside
    the tunnel, a dialled address and what is written to it. *)
Inductive egress : Type :=
| PlainUdp (to : socket_addr) (payload : list Z)
| PlainTcp (to : socket_addr) (payload : list Z)
| TunnelDial (host : str) (port : Z)
| TunnelData (host : str) (port : Z) (payload : list Z).

Section Upstream.
Context `{PacketCrate}.

Record DnsQuery : Type := mkDnsQuery { q_id : Z; q_bytes : list Z; question : Query }.

(** [Message::query] draws a fresh transaction id. *)
Definition query_message (fresh : Z) (q : Query) : Message :=
  mkMessage (mkMeta fresh false 0 false false true false false false NoError) false false [q] [] [] [].

Definition build_query (fresh : Z) (q : Query) : result DnsQuery DnsServerError :=
  match to_vec (query_message fresh q) with
  | Some bytes => Ok (mkDnsQuery fresh bytes q)
  | None => Err Wire
  end.

Definition validate_response (query : DnsQuery) (body : list Z) : result Message DnsServerError :=
  match from_vec body with
  | None => Err Wire
  | Some m =>
      if negb (id (metadata m) =? q_id query) || negb (is_response m) || negb (is_query_opcode m) then Err DohExchange
      else match queries m with
      | [echoed] => if same_question echoed (question query) then Ok m else Err DohExchange
      | _ => Err DohExchange
      end
  end.

(** The lifetime in nanoseconds. *)
Definition parse_response (query : DnsQuery) (body : list Z) (now : Z) : result ResolvedAnswer DnsServerError :=
  match validate_response query body with
  | Err e => Err e
  | Ok m =>
      if truncation m then Err DohExchange
      else
        let m := normalize_negative_soa_ttl (question query) m in
        Ok (mkAnswer m (default 0 (cache_ttl (question query) m) * SECOND) now)
  end.

Definition temporary_response (m : Message) : bool :=
  match response_code m with OtherCode c => c =? 2 | _ => false end.

(** ** DNS over HTTPS *)

Definition build_post_request (host p : str) (dns_body : list Z) : list Z :=
  as_bytes (lit "POST " ++ p ++ lit " HTTP/1.1" ++ Http.CRLF ++
    lit "Host: " ++ host ++ Http.CRLF ++
    lit "Accept: application/dns-message" ++ Http.CRLF ++
    lit "Content-Type: application/dns-message" ++ Http.CRLF ++
    lit "Content-Length: " ++ to_dec (Chunked.zlen dns_body) ++ Http.CRLF ++
    lit "User-Agent: tor-socks5/0.1" ++ Http.CRLF ++
    lit "Connection: close" ++ Http.CRLF ++ Http.CRLF) ++ dns_body.

Context `{Http.HttparseCrate}.

(** The loop over the head: parse, grow the buffer up to its limit, read. *)
Fixpoint read_doh_head (fuel : nat) (s : Http.Stream) (buf_len : Z) (filled : list Z)
  : option (result (Http.HttpResponse * list Z * Http.Stream) DnsServerError) :=
  match Http.parse_response_headers filled with
  | Err _ => Some (Err DohExchange)
  | Ok (Some head) => Some (Ok (head, filled, s))
  | Ok None =>
      match fuel with
      | O => None
      | S fuel' =>
          if (Chunked.zlen filled =? buf_len) && (MAX_HEADER_BYTES <=? buf_len) then Some (Err DohExchange)
          else
            let buf_len := if Chunked.zlen filled =? buf_len then buf_len * 2 else buf_len in
            match Chunked.stream_read s (buf_len - Chunked.zlen filled) with
            | Err _ | Ok ([], _) => Some (Err DohExchange)
            | Ok (bs, s') => read_doh_head fuel' s' buf_len (filled ++ bs)
            end
      end
  end.

Definition doh_error {A} (r : result A Http.FetchError) : result A DnsServerError :=
  match r with Ok a => Ok a | Err _ => Err DohExchange end.

(** The two body loops are those of the bridge fetcher, with this limit. *)
Definition read_dns_body (s : Http.Stream) : option (result (list Z) DnsServerError) :=
  match read_doh_head (S (length (Chunked.flat s))) s Http.READ_BUF_SIZE [] with
  | None => None
  | Some (Err e) => Some (Err e)
  | Some (Ok (head, buf, s')) =>
      if negb (Http.status head =? 200) then Some (Err DohExchange)
      else if Http.chunked head then Some (Err DohExchange)
      else
        let body := drop (Http.header_len head) buf in
        if MAX_DNS_RESPONSE_BYTES <? Chunked.zlen body then Some (Err DohExchange)
        else match Http.content_length head with
        | Some len =>
            if MAX_DNS_RESPONSE_BYTES <? len then Some (Err DohExchange)
            else option_map doh_error (Http.read_declared (S (length (Chunked.flat s'))) s' len (take (Z.to_nat len) body))
        | None => option_map doh_error (Http.read_to_eof (S (length (Chunked.flat s'))) s' MAX_DNS_RESPONSE_BYTES body)
        end
  end.

(** What the tunnel and the provider do in one exchange. *)
Record doh_env : Type := mkDoh {
  fresh_id : Z;
  dialled : bool;
  secured : bool;
  posted : bool;
  reply : Http.Stream;
  stamp : Z;
}.

Definition dial (p : DohProvider) : str := ip_to_string (p_ip p).

(** [exchange] with [connect_through_tor]. *)
Definition exchange (p : DohProvider) (q : DnsQuery) (env : doh_env)
  : option (result (list Z) DnsServerError) * list egress :=
  let d := TunnelDial (dial p) DOH_PORT in
  if negb (dialled env) then (Some (Err TorConnect), [d])
  else if negb (secured env) then (Some (Err Tls), [d])
  else
    let w := TunnelData (dial p) DOH_PORT (build_post_request (hostname p) (path p) (q_bytes q)) in
    if negb (posted env) then (Some (Err DohExchange), [d; w])
    else (read_dns_body (reply env), [d; w]).

Definition resolve_with_provider (q : Query) (p : DohProvider) (env : doh_env)
  : option (result ResolvedAnswer DnsServerError) * list egress :=
  match build_query (fresh_id env) q with
  | Err e => (Some (Err e), [])
  | Ok query =>
      let '(r, sent) := exchange p query env in
      (match r with
       | None => None
       | Some (Err e) => Some (Err e)
       | Some (Ok body) => Some (parse_response query body (stamp env))
       end, sent)
  end.

(** An attempt takes its time, or for ever; cut off, it has sent a part. *)
Record attempt : Type := mkAttempt { network : doh_env; takes : option Z; sent_before_cut : nat }.

(** [resolve]: one provider with its own timeout; the result and its time. *)
Definition resolve (q : Query) (p : DohProvider) (a : attempt) (now until : Z)
  : option (result ResolvedAnswer DnsServerError) * list egress * Z :=
  let deadline := Z.min (now + DOH_PROVIDER_TIMEOUT) until in
  match takes a with
  | Some d =>
      if now + d <=? deadline then (resolve_with_provider q p (network a), now + d)
      else (Some (Err (Timeout DOH_PROVIDER_TIMEOUT)), take (sent_before_cut a) (resolve_with_provider q p (network a)).2, deadline)
  | None =>
      (Some (Err (Timeout DOH_PROVIDER_TIMEOUT)), take (sent_before_cut a) (resolve_with_provider q p (network a)).2, deadline)
  end.

(** [ordered_pool] over the providers. *)
Fixpoint ordered_pool (q : Query) (pool : list (DohProvider * attempt)) (deadline now : Z)
  : option (result ResolvedAnswer DnsServerError) * list egress * Z :=
  match pool with
  | [] => (Some (Err AllProvidersFailed), [], now)
  | (p, a) :: pool' =>
      let '(r, sent, t) := resolve q p a now deadline in
      match r with
      | None => (None, sent, t)
      | Some r =>
          let next :=
            if deadline <=? t then (Some (Err (Timeout DOH_TOTAL_TIMEOUT)), sent, t)
            else let '(r', sent', t') := ordered_pool q pool' deadline t in (r', sent ++ sent', t') in
          match r with
          | Ok ans => if temporary_response (message ans) then next else (Some (Ok ans), sent, t)
          | Err _ => next
          end
      end
  end.

Definition resolve_with_pool (q : Query) (pool : list (DohProvider * attempt)) (now : Z)
  : option (result ResolvedAnswer DnsServerError) * list egress * Z :=
  ordered_pool q pool (now + DOH_TOTAL_TIMEOUT) now.

(** ** The plain exchange *)

(** What the network does with one server: whether the socket is bound and
    connected and at which local address, whether the query is sent, the
    datagrams that arrive in order ([None] is a receive error; after the last
    one the server is silent), and the bytes of the TCP retry, if it connects. *)
Record plain_env : Type := mkPlain {
  plain_id : Z;
  connected : bool;
  local_addr : option ip_addr;
  udp_sent : bool;
  datagrams : list (option (list Z));
  tcp_wire : option (list Z);
  plain_stamp : Z;
  plain_cut : option nat;
}.

Inductive ProbeError : Type := SelfReference (server : socket_addr) | Transport.

Definition unspecified_v4 : ip_addr := V4 0.

Definition canonical_server (server : socket_addr) : socket_addr :=
  match canonical_ip (ip server) with
  | V4 bits => SockV4 bits (port server)
  | V6 _ => server
  end.

Definition probe_upstream (server : socket_addr) (listeners : list socket_addr) (env : plain_env)
  : result socket_addr ProbeError :=
  if self_reference server listeners unspecified_v4 then Err (SelfReference server)
  else
    let server := canonical_server server in
    if negb (connected env) then Err Transport
    else match local_addr env with
    | None => Err Transport
    | Some local => if self_reference server listeners local then Err (SelfReference server) else Ok server
    end.

(** [tcp_exchange]: what is read of the framed reply. *)
Definition tcp_body (wire : list Z) : option (list Z) :=
  match wire with
  | p0 :: p1 :: rest =>
      let n := Z.to_nat (of_octets [p0; p1]) in
      if (n <=? length rest)%nat then Some (take n rest) else None
  | _ => None
  end.

Definition tcp_exchange (server : socket_addr) (q : DnsQuery) (env : plain_env)
  : result (list Z) DnsServerError * list egress :=
  match tcp_wire env with
  | None => (Err PlainDns, [])
  | Some wire =>
      if u16_max <? Chunked.zlen (q_bytes q) then (Err PlainDns, [])
      else
        (match tcp_body wire with Some body => Ok body | None => Err PlainDns end,
         [PlainTcp server (be 2 (Chunked.zlen (q_bytes q)) ++ q_bytes q)])
  end.

Definition plain_error {A} (r : result A DnsServerError) : result A DnsServerError :=
  match r with Err DohExchange => Err PlainDns | _ => r end.

(** The receive loop; silence lasts until the timeout of the caller. *)
Fixpoint receive (server : socket_addr) (q : DnsQuery) (env : plain_env) (arrived : list (option (list Z)))
  : result ResolvedAnswer DnsServerError * list egress :=
  match arrived with
  | [] => (Err (Timeout PLAIN_DNS_TIMEOUT), [])
  | None :: _ => (Err PlainDns, [])
  | Some bytes :: arrived' =>
      match validate_response q bytes with
      | Err _ => receive server q env arrived'
      | Ok m =>
          if truncation m then
            let '(r, sent) := tcp_exchange server q env in
            (match r with Err e => Err e | Ok body => plain_error (parse_response q body (plain_stamp env)) end, sent)
          else (plain_error (parse_response q bytes (plain_stamp env)), [])
      end
  end.

Definition resolve_with_server (q : Query) (server : socket_addr) (listeners : list socket_addr) (env : plain_env)
  : result ResolvedAnswer DnsServerError * list egress :=
  match build_query (plain_id env) q with
  | Err e => (Err e, [])
  | Ok query =>
      match probe_upstream server listeners env with
      | Err _ => (Err PlainDns, [])
      | Ok server =>
          let s := PlainUdp server (q_bytes query) in
          if negb (udp_sent env) then (Err PlainDns, [s])
          else let '(r, sent) := receive server query env (datagrams env) in (r, s :: sent)
      end
  end.

(** [resolve_via_dns_server]: cut off by the timeout, a part has been sent. *)
Definition resolve_via_dns_server (q : Query) (server : socket_addr) (listeners : list socket_addr) (env : plain_env)
  : result ResolvedAnswer DnsServerError * list egress :=
  let '(r, sent) := resolve_with_server q server listeners env in
  match plain_cut env with
  | None => (r, sent)
  | Some n => (Err (Timeout PLAIN_DNS_TIMEOUT), take n sent)
  end.

(** ** The system's name servers *)

(** The configured name servers with the connections of each, plain UDP or not. *)
Definition read_system_servers (config : list (ip_addr * list (bool * Z))) : list socket_addr :=
  fold_left (fun acc ns =>
    fold_left (fun acc c =>
      if c.1 : bool then
        let addr := socket_new ns.1 c.2 in
        if bool_decide (addr ∈ acc) then acc else acc ++ [addr]
      else acc) ns.2 acc) config [].

(** The preflight over all servers, before anything is sent: the usable ones
    and the last error; [None] when one of them is this very server. *)
Fixpoint preflight_servers (listeners : list socket_addr) (servers : list (socket_addr * plain_env * plain_env))
  (last_error : option DnsServerError) : option (list (socket_addr * plain_env) * option DnsServerError) :=
  match servers with
  | [] => Some ([], last_error)
  | (server, probe, env) :: servers' =>
      if self_reference server listeners unspecified_v4 then None
      else match probe_upstream server listeners probe with
      | Err (SelfReference _) => None
      | Err Transport => preflight_servers listeners servers' (Some PlainDns)
      | Ok _ =>
          match preflight_servers listeners servers' last_error with
          | Some (usable, e) => Some ((server, env) :: usable, e)
          | None => None
          end
      end
  end.

Fixpoint try_servers (q : Query) (listeners : list socket_addr) (usable : list (socket_addr * plain_env))
  (last_error : option DnsServerError) : result ResolvedAnswer DnsServerError * list egress :=
  match usable with
  | [] => (Err (default SystemResolver last_error), [])
  | (server, env) :: usable' =>
      let '(r, sent) := resolve_via_dns_server q server listeners env in
      let next e := let '(r', sent') := try_servers q listeners usable' (Some e) in (r', sent ++ sent') in
      match r with
      | Ok a => if temporary_response (message a) then next SystemResolver else (Ok a, sent)
      | Err e => next e
      end
  end.

(** [resolve_via_system]: [None] of the configuration is a failed read; each
    server comes with what the network does at its probe and its exchange. *)
Definition resolve_via_system (q : Query) (listeners : list socket_addr)
  (config : option (list (socket_addr * plain_env * plain_env))) (cut : option nat)
  : result ResolvedAnswer DnsServerError * list egress :=
  let '(r, sent) :=
    match config with
    | None | Some [] => (Err SystemResolver, [])
    | Some servers =>
        match preflight_servers listeners servers None with
        | None => (Err SystemResolver, [])
        | Some (usable, last_error) => try_servers q listeners usable last_error
        end
    end in
  match cut with
  | None => (r, sent)
  | Some n => (Err (Timeout SYSTEM_RESOLVER_TIMEOUT), take n sent)
  end.

(** ** Validation *)

(** [body] is a complete response to the very query that was sent. *)
Definition accepted (query : DnsQuery) (body : list Z) (a : ResolvedAnswer) : Prop :=
  ∃ m echoed, from_vec body = Some m ∧ id (metadata m) = q_id query ∧ is_response m = true ∧
    is_query_opcode m = true ∧ truncation m = false ∧ queries m = [echoed] ∧
    same_question echoed (question query) = true ∧
    message a = normalize_negative_soa_ttl (question query) m ∧
    answer_ttl a = default 0 (cache_ttl (question query) m) * SECOND.

Lemma validate_ok query body m :
  validate_response query body = Ok m ↔
  from_vec body = Some m ∧ id (metadata m) = q_id query ∧ is_response m = true ∧ is_query_opcode m = true ∧
    ∃ echoed, queries m = [echoed] ∧ same_question echoed (question query) = true.
Proof.
  unfold validate_response. split.
  - destruct (from_vec body) as [m'|]; [|done]. destruct (_ || _) eqn:Hh; [done|]. boolprop.
    destruct (queries m') as [|e []] eqn:Hq; [done| |done]. destruct (same_question e _) eqn:Hs; [|done].
    intros [= <-]. split_and!; try done. eauto.
  - intros (-> & -> & -> & -> & e & -> & ->). by rewrite Z.eqb_refl.
Qed.

Lemma parse_ok query body now a :
  parse_response query body now = Ok a → accepted query body a ∧ resolved_at a = now.
Proof.
  unfold parse_response. destruct (validate_response query body) as [m|] eqn:Hv; [|done].
  apply validate_ok in Hv as (Hf & Hi & Hr & Ho & e & Hq & Hs). destruct (truncation m) eqn:Ht; [done|].
  intros [= <-]. split; [|done]. exists m, e. simpl. rewrite normalisation_keeps_lifetime. by split_and!.
Qed.

Lemma plain_error_ok {A} (r : result A DnsServerError) a : plain_error r = Ok a → r = Ok a.
Proof. by destruct r as [|[]]. Qed.

(** ** Forged datagrams *)

(** A datagram that does not answer the query. *)
Definition forged (query : DnsQuery) (d : option (list Z)) : Prop :=
  ∃ bytes e, d = Some bytes ∧ validate_response query bytes = Err e.

Lemma receive_forged server query env pre rest :
  Forall (forged query) pre → receive server query env (pre ++ rest) = receive server query env rest.
Proof. induction 1 as [|d pre (bytes & e & -> & Hf) Hpre IH]; [done|]. simpl. by rewrite Hf. Qed.

Lemma receive_ok server query env l a sent :
  receive server query env l = (Ok a, sent) →
  ∃ pre bytes post m, l = pre ++ Some bytes :: post ∧ Forall (forged query) pre ∧ validate_response query bytes = Ok m ∧
    if truncation m then ∃ wire body, tcp_wire env = Some wire ∧ tcp_body wire = Some body ∧ accepted query body a
    else accepted query bytes a.
Proof.
  induction l as [|[bytes|] l IH]; [done| |done]. simpl.
  destruct (validate_response query bytes) as [m|e] eqn:Hv.
  - intros Hr. exists [], bytes, l, m. split_and!; [done|constructor|done|]. destruct (truncation m).
    + unfold tcp_exchange in Hr. destruct (tcp_wire env) as [wire|]; [|done]. destruct (_ <? _); [done|].
      destruct (tcp_body wire) as [body|] eqn:Hb; [|done]. injection Hr as Hr _.
      apply plain_error_ok, parse_ok in Hr as [Ha _]. eauto.
    + injection Hr as Hr _. by apply plain_error_ok, parse_ok in Hr as [Ha _].
  - intros (pre & b & post & m & -> & Hpre & Hm & Ha)%IH. exists (Some bytes :: pre), b, post, m.
    split_and!; [done| |done|done]. constructor; [by exists bytes, e|done].
Qed.

(** Everything sent goes to the server. *)
Lemma receive_sent server query env l r sent :
  receive server query env l = (r, sent) → Forall (fun e => ∃ b, e = PlainTcp server b) sent.
Proof.
  revert r sent. induction l as [|[bytes|] l IH]; intros r sent; simpl; [by intros [= <- <-]| |by intros [= <- <-]].
  destruct (validate_response query bytes) as [m|e]; [|apply IH]. destruct (truncation m); [|by intros [= <- <-]].
  unfold tcp_exchange. destruct (tcp_wire env) as [wire|]; [|by intros [= <- <-]].
  destruct (_ <? _); [by intros [= <- <-]|]. intros [= <- <-]. constructor; [eauto|constructor].
Qed.

(** ** What leaves the machine *)

(** A message to [server] itself, which is not one of the listeners. *)
Definition plain_to (listeners : list socket_addr) (server : socket_addr) (e : egress) : Prop :=
  (∃ b, e = PlainUdp (canonical_server server) b ∨ e = PlainTcp (canonical_server server) b) ∧
  self_reference server listeners unspecified_v4 = false ∧
  ∃ local, self_reference (canonical_server server) listeners local = false.

(** Traffic inside the tunnel to a provider's address and port. *)
Definition tunnelled (p : DohProvider) (e : egress) : Prop :=
  e = TunnelDial (dial p) DOH_PORT ∨ ∃ b, e = TunnelData (dial p) DOH_PORT b.

Lemma server_sent q server listeners env :
  Forall (plain_to listeners server) (resolve_with_server q server listeners env).2.
Proof.
  unfold resolve_with_server. destruct (build_query (plain_id env) q) as [query|]; [|constructor].
  unfold probe_upstream. destruct (self_reference server listeners unspecified_v4) eqn:Hs; [constructor|].
  destruct (negb (connected env)); [constructor|]. destruct (local_addr env) as [local|]; [|constructor].
  destruct (self_reference (canonical_server server) listeners local) eqn:Hl; [constructor|].
  assert (Hu : plain_to listeners server (PlainUdp (canonical_server server) (q_bytes query)))
    by (split_and!; eauto).
  destruct (negb (udp_sent env)); simpl; [by rewrite Forall_singleton|].
  destruct (receive _ _ _ _) as [r sent] eqn:Hr. simpl. constructor; [done|]. eapply Forall_impl; [by eapply receive_sent|].
  intros e [b ->]. split_and!; eauto.
Qed.

Lemma via_server_sent q server listeners env :
  Forall (plain_to listeners server) (resolve_via_dns_server q server listeners env).2.
Proof.
  unfold resolve_via_dns_server. pose proof (server_sent q server listeners env) as Hs.
  destruct (resolve_with_server q server listeners env) as [r sent]. destruct (plain_cut env); [by apply Forall_take|done].
Qed.

Lemma try_servers_sent q listeners usable last :
  Forall (fun e => ∃ s, s ∈ map fst usable ∧ plain_to listeners s e) (try_servers q listeners usable last).2.
Proof.
  revert last. induction usable as [|[server env] usable IH]; intros last; [constructor|]. simpl.
  pose proof (via_server_sent q server listeners env) as Hv.
  destruct (resolve_via_dns_server q server listeners env) as [r sent].
  assert (Hhere : Forall (fun e => ∃ s, s ∈ server :: map fst usable ∧ plain_to listeners s e) sent).
  { eapply Forall_impl; [exact Hv|]. intros e He. exists server. split; [by left|done]. }
  assert (Hnext : ∀ e, Forall (fun e => ∃ s, s ∈ server :: map fst usable ∧ plain_to listeners s e)
    (let '(r', sent') := try_servers q listeners usable (Some e) in (r', sent ++ sent')).2).
  { intros e. specialize (IH (Some e)). destruct (try_servers _ _ _ _) as [r' sent']. apply Forall_app. split; [done|].
    eapply Forall_impl; [exact IH|]. intros e' (s & Hs & He). exists s. split; [by right|done]. }
  destruct r as [a|e]; [|apply Hnext]. destruct (temporary_response (message a)); [apply Hnext|done].
Qed.

Lemma preflight_usable listeners servers last usable last' :
  preflight_servers listeners servers last = Some (usable, last') →
  ∀ s, s ∈ map fst usable → s ∈ map (fun x => x.1.1) servers.
Proof.
  revert last usable. induction servers as [|[[server probe] env] servers IH]; intros last usable; simpl.
  { by intros [= <- <-]. }
  destruct (self_reference server listeners unspecified_v4); [done|].
  destruct (probe_upstream server listeners probe) as [s'|[|]]; [|done|].
  - destruct (preflight_servers listeners servers last) as [[u e]|] eqn:Hp; [|done]. intros [= <- <-] s. simpl.
    rewrite !elem_of_cons. intros [->|Hs]; [by left|right]. by eapply IH.
  - intros Hp s Hs. right. by eapply IH.
Qed.

Lemma via_system_sent q listeners config cut :
  Forall (fun e => ∃ servers s, config = Some servers ∧ s ∈ map (fun x => x.1.1) servers ∧ plain_to listeners s e)
    (resolve_via_system q listeners config cut).2.
Proof.
  unfold resolve_via_system. destruct config as [servers|]; [|destruct cut; [rewrite take_nil|]; constructor].
  destruct servers as [|x servers]; [destruct cut; [rewrite take_nil|]; constructor|].
  destruct (preflight_servers listeners (x :: servers) None) as [[usable last]|] eqn:Hp;
    [|destruct cut; [rewrite take_nil|]; constructor].
  pose proof (try_servers_sent q listeners usable last) as Ht. destruct (try_servers q listeners usable last) as [r sent].
  assert (Hall : Forall (fun e => ∃ l s, Some (x :: servers) = Some l ∧ s ∈ map (fun x => x.1.1) l ∧ plain_to listeners s e) sent).
  { eapply Forall_impl; [exact Ht|]. intros e (s & Hs & He). exists (x :: servers), s. split_and!; [done| |done].
    by eapply preflight_usable. }
  destruct cut; [by apply Forall_take|done].
Qed.

Lemma provider_sent q p env : Forall (tunnelled p) (resolve_with_provider q p env).2.
Proof.
  unfold resolve_with_provider. destruct (build_query (fresh_id env) q) as [query|]; [|constructor].
  assert (Forall (tunnelled p) (exchange p query env).2) as Hx; [|by destruct (exchange p query env)].
  unfold exchange. case_goal; simpl; rewrite ?Forall_cons, ?Forall_nil; unfold tunnelled; by split_and?; eauto.
Qed.

Lemma resolve_sent q p a now until : Forall (tunnelled p) (resolve q p a now until).1.2.
Proof.
  unfold resolve. destruct (takes a) as [d|]; [destruct (_ <=? _)|]; simpl; try apply Forall_take;
    apply provider_sent.
Qed.

Lemma ordered_pool_sent q pool deadline now :
  Forall (fun e => ∃ p, p ∈ map fst pool ∧ tunnelled p e) (ordered_pool q pool deadline now).1.2.
Proof.
  revert now. induction pool as [|[p a] pool IH]; intros now; [constructor|]. simpl.
  pose proof (resolve_sent q p a now deadline) as Hs.
  destruct (resolve q p a now deadline) as [[r sent] t]. simpl in Hs.
  assert (Hhere : Forall (fun e => ∃ p', p' ∈ p :: map fst pool ∧ tunnelled p' e) sent).
  { eapply Forall_impl; [exact Hs|]. intros e He. exists p. split; [by left|done]. }
  destruct r as [r|]; [|done].
  assert (Hnext : Forall (fun e => ∃ p', p' ∈ p :: map fst pool ∧ tunnelled p' e)
    (if deadline <=? t then (Some (Err (Timeout DOH_TOTAL_TIMEOUT)), sent, t)
     else let '(r', sent', t') := ordered_pool q pool deadline t in (r', sent ++ sent', t')).1.2).
  { destruct (deadline <=? t); [done|]. specialize (IH t). destruct (ordered_pool q pool deadline t) as [[r' sent'] t'].
    apply Forall_app. split; [done|]. eapply Forall_impl; [exact IH|]. intros e (p' & Hp & He). exists p'.
    split; [by right|done]. }
  destruct r as [ans|]; [|done]. by destruct (temporary_response (message ans)).
Qed.

(** ** Answers on every route *)

Definition genuine (q : Query) (a : ResolvedAnswer) : Prop :=
  ∃ query body, question query = q ∧ accepted query body a.

Lemma build_query_ok fresh q query :
  build_query fresh q = Ok query → q_id query = fresh ∧ question query = q ∧ to_vec (query_message fresh q) = Some (q_bytes query).
Proof. unfold build_query. destruct (to_vec _) as [bytes|] eqn:Hv; [|done]. by intros [= <-]. Qed.

Lemma with_server_ok q server listeners env a sent :
  resolve_with_server q server listeners env = (Ok a, sent) →
  ∃ query, build_query (plain_id env) q = Ok query ∧ ∃ pre bytes post m,
    datagrams env = pre ++ Some bytes :: post ∧ Forall (forged query) pre ∧ validate_response query bytes = Ok m ∧
    if truncation m then ∃ wire body, tcp_wire env = Some wire ∧ tcp_body wire = Some body ∧ accepted query body a
    else accepted query bytes a.
Proof.
  unfold resolve_with_server. destruct (build_query (plain_id env) q) as [query|] eqn:Hb; [|done].
  destruct (probe_upstream server listeners env) as [s|]; [|done]. destruct (negb (udp_sent env)); [done|].
  destruct (receive s query env (datagrams env)) as [r sent'] eqn:Hr. intros [= -> <-]. exists query.
  split; [done|]. by eapply receive_ok.
Qed.

Lemma via_server_genuine q server listeners env a sent :
  resolve_via_dns_server q server listeners env = (Ok a, sent) → genuine q a.
Proof.
  unfold resolve_via_dns_server. destruct (resolve_with_server q server listeners env) as [r sent'] eqn:Hr.
  destruct (plain_cut env); [done|]. intros [= -> ->].
  apply with_server_ok in Hr as (query & Hb & pre & bytes & post & m & _ & _ & _ & Ha).
  apply build_query_ok in Hb as (_ & Hq & _). exists query.
  destruct (truncation m); [destruct Ha as (wire & body & _ & _ & Ha)|]; eauto.
Qed.

Lemma try_servers_genuine q listeners usable last a sent :
  try_servers q listeners usable last = (Ok a, sent) → genuine q a ∧ temporary_response (message a) = false.
Proof.
  revert last sent. induction usable as [|[server env] usable IH]; intros last sent; [done|]. simpl.
  destruct (resolve_via_dns_server q server listeners env) as [r sent'] eqn:Hr.
  assert (Hnext : ∀ e, (let '(r', sent'') := try_servers q listeners usable (Some e) in (r', sent' ++ sent'')) = (Ok a, sent) →
    genuine q a ∧ temporary_response (message a) = false).
  { intros e. destruct (try_servers q listeners usable (Some e)) as [r' s'] eqn:Ht. intros [= -> _]. by eapply IH. }
  destruct r as [a'|e]; [|apply Hnext]. destruct (temporary_response (message a')) eqn:Ht; [apply Hnext|].
  intros [= -> ->]. split; [by eapply via_server_genuine|done].
Qed.

Lemma via_system_genuine q listeners config cut a sent :
  resolve_via_system q listeners config cut = (Ok a, sent) → genuine q a.
Proof.
  unfold resolve_via_system. destruct config as [[|x servers]|]; [by destruct cut| |by destruct cut].
  destruct (preflight_servers listeners (x :: servers) None) as [[usable last]|]; [|by destruct cut].
  destruct (try_servers q listeners usable last) as [r sent'] eqn:Ht. destruct cut; [done|]. intros [= -> ->].
  by eapply try_servers_genuine.
Qed.

Lemma provider_genuine q p env a sent :
  resolve_with_provider q p env = (Some (Ok a), sent) → genuine q a.
Proof.
  unfold resolve_with_provider. destruct (build_query (fresh_id env) q) as [query|] eqn:Hb; [|done].
  apply build_query_ok in Hb as (_ & Hq & _).
  destruct (exchange p query env) as [[[body|]|] sent']; [|done|done]. intros [= Hp _].
  apply parse_ok in Hp as [Ha _]. by exists query, body.
Qed.

(** ** The response body *)

Lemma stream_read_length (s : Http.Stream) k bs s' :
  Chunked.stream_read s k = Ok (bs, s') → length (Chunked.flat s) = (length bs + length (Chunked.flat s'))%nat.
Proof.
  destruct s as [|[b|] s]; simpl; [by intros [= <- <-]| |done].
  destruct (_ <=? _); intros [= <- <-]; simpl; rewrite ?length_app; [done|].
  rewrite <-(take_drop (Z.to_nat k) b) at 1. rewrite length_app. lia.
Qed.

Lemma read_doh_head_total fuel s buf_len filled :
  (length (Chunked.flat s) < fuel)%nat → is_Some (read_doh_head fuel s buf_len filled).
Proof.
  revert s buf_len filled. induction fuel as [|fuel IH]; intros s buf_len filled Hf; [lia|]. cbn [read_doh_head].
  destruct (Http.parse_response_headers filled) as [[head|]|]; [by eauto| |by eauto].
  destruct (_ && _); [by eauto|].
  destruct (Chunked.stream_read s _) as [[[|b bs] s']|] eqn:Hr; [by eauto| |by eauto].
  apply IH. apply stream_read_length in Hr. simpl in Hr. lia.
Qed.

Lemma read_declared_total fuel s cl body :
  (length (Chunked.flat s) < fuel)%nat → is_Some (Http.read_declared fuel s cl body).
Proof.
  revert s body. induction fuel as [|fuel IH]; intros s body Hf; [lia|]. cbn [Http.read_declared].
  destruct (_ <=? _); [by eauto|]. destruct (Chunked.stream_read s _) as [[[|b bs] s']|] eqn:Hr; [by eauto| |by eauto].
  apply IH. apply stream_read_length in Hr. simpl in Hr. lia.
Qed.

Lemma read_to_eof_total fuel s mx body :
  (length (Chunked.flat s) < fuel)%nat → is_Some (Http.read_to_eof fuel s mx body).
Proof.
  revert s body. induction fuel as [|fuel IH]; intros s body Hf; [lia|]. cbn [Http.read_to_eof].
  destruct (Chunked.stream_read s _) as [[[|b bs] s']|] eqn:Hr; [by eauto| |by eauto].
  destruct (_ <? _); [by eauto|]. apply IH. apply stream_read_length in Hr. simpl in Hr. lia.
Qed.

Lemma read_dns_body_total s : is_Some (read_dns_body s).
Proof.
  unfold read_dns_body.
  destruct (read_doh_head_total (S (length (Chunked.flat s))) s Http.READ_BUF_SIZE []) as [r ->]; [lia|].
  destruct r as [[[head buf] s']|]; [|by eauto]. destruct (negb _); [by eauto|]. destruct (Http.chunked head); [by eauto|].
  destruct (_ <? _); [by eauto|]. destruct (Http.content_length head) as [len|].
  - destruct (_ <? _); [by eauto|]. apply fmap_is_Some, read_declared_total. lia.
  - apply fmap_is_Some, read_to_eof_total. lia.
Qed.

(** What the head and everything after it come to. *)
Definition dns_body_of (head : Http.HttpResponse) (body : list Z) : result (list Z) DnsServerError :=
  if negb (Http.status head =? 200) || Http.chunked head then Err DohExchange
  else match Http.content_length head with
  | Some len => if (len <=? MAX_DNS_RESPONSE_BYTES) && (len <=? Chunked.zlen body)
                then Ok (take (Z.to_nat len) body) else Err DohExchange
  | None => if Chunked.zlen body <=? MAX_DNS_RESPONSE_BYTES then Ok body else Err DohExchange
  end.

Lemma read_doh_head_spec fuel s buf_len filled head info body :
  Forall Chunked.piece s → Http.head_of head info → filled ++ Chunked.flat s = head ++ body →
  Http.READ_BUF_SIZE ≤ buf_len → Chunked.zlen filled ≤ buf_len → buf_len ≤ MAX_HEADER_BYTES →
  buf_len = Http.READ_BUF_SIZE ∨ buf_len = MAX_HEADER_BYTES →
  Chunked.zlen head ≤ MAX_HEADER_BYTES → (length (Chunked.flat s) < fuel)%nat →
  ∃ buf s', read_doh_head fuel s buf_len filled = Some (Ok (info, buf, s')) ∧
    buf ++ Chunked.flat s' = head ++ body ∧ Forall Chunked.piece s' ∧ (length head ≤ length buf)%nat ∧
    Chunked.zlen buf ≤ MAX_HEADER_BYTES.
Proof.
  intros Hs Hh. revert s buf_len filled Hs.
  induction fuel as [|fuel IH]; intros s buf_len filled Hs Hw Hmin Hfit Hmax Hbuf Hhead Hf; [lia|]. cbn [read_doh_head].
  destruct (Nat.le_gt_cases (length head) (length filled)) as [Hle|Hlt].
  { destruct (prefix_split filled head (Chunked.flat s) body Hw Hle) as [rest Hrest].
    destruct Hh as (Hlen & _ & Hall). rewrite Hrest, Hall. eexists _, s. split; [done|].
    rewrite <-Hrest. split_and!; [done|done|done|]. unfold MAX_HEADER_BYTES in *. lia. }
  pose proof Hh as (Hlen & Hpart & _).
  destruct (prefix_split head filled body (Chunked.flat s) (eq_sym Hw)) as [rest Hrest]; [lia|].
  rewrite (Hpart _ _ Hrest) by (intros ->; rewrite app_nil_r in Hrest; subst; lia).
  assert (Hfull : (Chunked.zlen filled =? buf_len) && (MAX_HEADER_BYTES <=? buf_len) = false).
  { unfold Chunked.zlen, MAX_HEADER_BYTES in *. apply andb_false_iff.
    destruct (Z.eqb_spec (Z.of_nat (length filled)) buf_len); [right|by left]. apply Z.leb_gt. lia. }
  rewrite Hfull. set (grown := if Chunked.zlen filled =? buf_len then buf_len * 2 else buf_len).
  assert (Hgrown : Chunked.zlen filled < grown ∧ grown ≤ MAX_HEADER_BYTES ∧ (grown = Http.READ_BUF_SIZE ∨ grown = MAX_HEADER_BYTES)).
  { unfold grown, Chunked.zlen, MAX_HEADER_BYTES, Http.READ_BUF_SIZE in *.
    destruct (Z.eqb_spec (Z.of_nat (length filled)) buf_len); [|lia]. simpl in Hfull. apply Z.leb_gt in Hfull. lia. }
  pose proof (Chunked.stream_read_spec s (grown - Chunked.zlen filled) Hs ltac:(lia)) as Hread.
  destruct (Chunked.flat s) as [|x xs] eqn:Hflat.
  { exfalso. apply (f_equal length) in Hw. rewrite !length_app in Hw. simpl in Hw. lia. }
  destruct Hread as (b & bs & s' & -> & Hsplit & Hs' & Hk). rewrite Hsplit in Hw.
  apply IH; [done|by rewrite <-app_assoc|unfold Http.READ_BUF_SIZE, MAX_HEADER_BYTES in *; lia| |lia|lia|done|].
  - rewrite Http.zlen_app. lia.
  - apply (f_equal length) in Hsplit. rewrite length_app in Hsplit. simpl in Hsplit, Hf. lia.
Qed.

Lemma take_declared len (front back : list Z) :
  (if len <=? Chunked.zlen (take (Z.to_nat len) front ++ back)
   then @Ok (list Z) DnsServerError (take (Z.to_nat len) (take (Z.to_nat len) front ++ back)) else Err DohExchange) =
  (if len <=? Chunked.zlen (front ++ back) then Ok (take (Z.to_nat len) (front ++ back)) else Err DohExchange).
Proof.
  destruct (Nat.le_gt_cases (Z.to_nat len) (length front)) as [Hle|Hgt]; [|by rewrite (take_ge front) by lia].
  assert (Hl : length (take (Z.to_nat len) front) = Z.to_nat len) by (rewrite length_take; lia).
  rewrite !Http.zlen_app. unfold Chunked.zlen. rewrite Hl, !(proj2 (Z.leb_le _ _)) by lia.
  rewrite <-Hl at 1. rewrite take_app_length. by rewrite take_app_le.
Qed.

(** a reply of a provider is read exactly, however the stream cuts it
    into pieces: with a head of up to 16 KiB the result is that of the head
    and all that follows - an error for another status, for chunked framing,
    for more than 64 KiB or for a body shorter than declared, and otherwise
    the declared bytes or everything up to the end - and reading always
    ends. *)
Theorem dns_bodies_are_read_exactly s head info body :
  Forall Chunked.piece s → Chunked.flat s = head ++ body → Http.head_of head info →
  Chunked.zlen head ≤ MAX_HEADER_BYTES →
  read_dns_body s = Some (dns_body_of info body).
Proof.
  intros Hs Hw Hh Hlen. unfold read_dns_body, dns_body_of.
  destruct (read_doh_head_spec (S (length (Chunked.flat s))) s Http.READ_BUF_SIZE [] head info body)
    as (buf & s' & -> & Hw' & Hs' & Hle & Hbuf); [done|done|done|done|done|done|by left|done|lia|].
  destruct (negb _); [done|]. destruct (Http.chunked info); [done|]. cbn [orb].
  destruct Hh as (-> & _).
  assert (Hrest : drop (length head) buf ++ Chunked.flat s' = body).
  { apply (f_equal (drop (length head))) in Hw'. by rewrite drop_app_length, drop_app_le in Hw'. }
  assert (Hcap : Chunked.zlen (drop (length head) buf) ≤ MAX_DNS_RESPONSE_BYTES).
  { unfold Chunked.zlen, MAX_HEADER_BYTES, MAX_DNS_RESPONSE_BYTES in *. rewrite length_drop. lia. }
  rewrite (proj2 (Z.ltb_ge _ _) Hcap). destruct (Http.content_length info) as [len|].
  - rewrite (Z.ltb_antisym len). destruct (len <=? MAX_DNS_RESPONSE_BYTES); [|done]. cbn [negb andb].
    rewrite Http.read_declared_spec; [|done|lia|unfold Chunked.zlen; rewrite length_take; lia].
    rewrite <-Hrest, <-take_declared. by destruct (len <=? _).
  - rewrite Http.read_to_eof_spec by (done || lia). rewrite Hrest, Z.ltb_antisym. by destruct (Chunked.zlen body <=? _).
Qed.

Lemma resolve_with_provider_total q p env : is_Some (resolve_with_provider q p env).1.
Proof.
  unfold resolve_with_provider. destruct (build_query (fresh_id env) q) as [query|]; [|by eauto].
  assert (is_Some (exchange p query env).1) as [r Hr].
  { unfold exchange. destruct (negb _); [by eauto|]. destruct (negb _); [by eauto|]. destruct (negb _); [by eauto|].
    apply read_dns_body_total. }
  destruct (exchange p query env) as [r' sent]. simpl in Hr. subst r'. by destruct r; eauto.
Qed.

Lemma ordered_pool_total q pool deadline now : is_Some (ordered_pool q pool deadline now).1.1.
Proof.
  revert now. induction pool as [|[p a] pool IH]; intros now; [by eauto|]. simpl.
  assert (is_Some (resolve q p a now deadline).1.1) as [r Hr].
  { unfold resolve. destruct (takes a) as [d|]; [destruct (_ <=? _)|]; simpl; try by eauto.
    apply resolve_with_provider_total. }
  destruct (resolve q p a now deadline) as [[r' sent] t]. simpl in Hr. subst r'.
  assert (Hnext : is_Some (if deadline <=? t then (Some (Err (Timeout DOH_TOTAL_TIMEOUT)), sent, t)
     else let '(r', sent', t') := ordered_pool q pool deadline t in (r', sent ++ sent', t')).1.1).
  { destruct (deadline <=? t); [by eauto|]. specialize (IH t). by destruct (ordered_pool q pool deadline t) as [[]]. }
  destruct r as [ans|]; [|done]. destruct (temporary_response (message ans)); [done|by eauto].
Qed.

(** ** The pool in time *)

(** What an attempt comes to, left to itself. *)
Definition definitive (q : Query) (p : DohProvider) (a : attempt) (ans : ResolvedAnswer) : Prop :=
  (resolve_with_provider q p (network a)).1 = Some (Ok ans) ∧ temporary_response (message ans) = false.

Lemma resolve_time q p a now until r sent t :
  resolve q p a now until = (r, sent, t) → now ≤ until → (∀ d, takes a = Some d → 0 ≤ d) → now ≤ t ≤ until.
Proof.
  unfold resolve, DOH_PROVIDER_TIMEOUT, SECOND. intros Hr Hu Hd. destruct (takes a) as [d|]; [|injection Hr; lia].
  specialize (Hd d eq_refl). destruct (Z.leb_spec (now + d) (Z.min (now + 20 * 10 ^ 9) until)); injection Hr; lia.
Qed.

Lemma resolve_definitive q p a now until ans sent t :
  resolve q p a now until = (Some (Ok ans), sent, t) → temporary_response (message ans) = false → definitive q p a ans.
Proof.
  unfold resolve, definitive. intros Hr Ht. destruct (takes a) as [d|]; [|done].
  destruct (_ <=? _); [|done]. destruct (resolve_with_provider q p (network a)) as [r s]. by injection Hr as -> _ _.
Qed.

Lemma ordered_pool_result q pool deadline now r sent t :
  ordered_pool q pool deadline now = (r, sent, t) → now ≤ deadline →
  Forall (fun pa => ∀ d, takes pa.2 = Some d → 0 ≤ d) pool →
  now ≤ t ≤ deadline ∧ ∀ ans, r = Some (Ok ans) → ∃ pre p a post, pool = pre ++ (p, a) :: post ∧ definitive q p a ans.
Proof.
  intros Hr Hd Hpool. revert now sent Hr Hd.
  induction Hpool as [|[p a] pool Ha Hpool IH]; intros now sent; [by intros [= <- <- <-]; split; [lia|]|]. simpl.
  destruct (resolve q p a now deadline) as [[r' s'] t'] eqn:Hres. intros Hr Hd. simpl in Ha.
  pose proof (resolve_time _ _ _ _ _ _ _ _ Hres Hd Ha) as Htime.
  destruct r' as [r'|]; [|injection Hr as <- <- <-; by split].
  assert (Hnext : (if deadline <=? t' then (Some (Err (Timeout DOH_TOTAL_TIMEOUT)), s', t')
     else let '(r', sent', t'') := ordered_pool q pool deadline t' in (r', s' ++ sent', t'')) = (r, sent, t) →
     now ≤ t ≤ deadline ∧ ∀ ans, r = Some (Ok ans) → ∃ pre p' a' post, (p, a) :: pool = pre ++ (p', a') :: post ∧ definitive q p' a' ans).
  { clear Hr. destruct (Z.leb_spec deadline t'); [by intros [= <- <- <-]; split; [lia|]|].
    destruct (ordered_pool q pool deadline t') as [[r2 s2] t2] eqn:Hp. intros [= -> <- ->].
    apply IH in Hp as [Ht Hans]; [|lia]. split; [lia|]. intros ans Hans'.
    destruct (Hans _ Hans') as (pre & p' & a' & post & -> & Hdef). exists ((p, a) :: pre). eauto. }
  destruct r' as [ans|]; [|by apply Hnext]. destruct (temporary_response (message ans)) eqn:Htmp; [by apply Hnext|].
  injection Hr as <- <- <-. split; [lia|]. intros ans' [= <-]. exists [], p, a, pool. split; [done|].
  by eapply resolve_definitive.
Qed.

Lemma pool_genuine q pool deadline now a sent t :
  ordered_pool q pool deadline now = (Some (Ok a), sent, t) → genuine q a.
Proof.
  revert now sent. induction pool as [|[p att] pool IH]; intros now sent; [done|]. simpl.
  destruct (resolve q p att now deadline) as [[[r|] s'] t'] eqn:Hres; [|done].
  assert (Hnext : (if deadline <=? t' then (Some (Err (Timeout DOH_TOTAL_TIMEOUT)), s', t')
     else let '(r', sent', t'') := ordered_pool q pool deadline t' in (r', s' ++ sent', t'')) = (Some (Ok a), sent, t) →
     genuine q a).
  { destruct (deadline <=? t'); [done|]. destruct (ordered_pool q pool deadline t') as [[r2 s2] t2] eqn:Hp.
    intros [= -> _ ->]. by eapply IH. }
  destruct r as [ans|]; [|done]. destruct (temporary_response (message ans)) eqn:Htmp; [done|].
  intros [= -> -> ->]. apply resolve_definitive in Hres as [Hdef _]; [|done].
  destruct (resolve_with_provider q p (network att)) as [r' s''] eqn:He. simpl in Hdef. subst r'.
  by eapply provider_genuine.
Qed.

(** An attempt that gives nothing usable after [d]. *)
Definition fails_after (q : Query) (pa : DohProvider * attempt) (d : Z) : Prop :=
  takes pa.2 = Some d ∧ 0 ≤ d ≤ DOH_PROVIDER_TIMEOUT ∧
  ∃ r, (resolve_with_provider q pa.1 (network pa.2)).1 = Some r ∧
    match r with Ok ans => temporary_response (message ans) = true | Err _ => True end.

Lemma resolve_in_time q p a d now until :
  takes a = Some d → now + d ≤ until → d ≤ DOH_PROVIDER_TIMEOUT →
  resolve q p a now until = (resolve_with_provider q p (network a), now + d).
Proof. intros Ht Hu Hd. unfold resolve. rewrite Ht, (proj2 (Z.leb_le _ _)) by lia. done. Qed.

Definition total (l : list Z) : Z := foldr Z.add 0 l.

Lemma ordered_pool_falls_through q pre ds p a d ans post deadline now :
  Forall2 (fails_after q) pre ds → definitive q p a ans → takes a = Some d → 0 < d ≤ DOH_PROVIDER_TIMEOUT →
  now + total ds + d ≤ deadline →
  ∃ sent, ordered_pool q (pre ++ (p, a) :: post) deadline now = (Some (Ok ans), sent, now + total ds + d).
Proof.
  intros Hpre [Hdef Htmp] Ht Hd. revert now. induction Hpre as [|[p' a'] d' pre ds Hf Hpre IH]; intros now Hdl; cbn [app ordered_pool].
  - simpl in *. rewrite (resolve_in_time q p a d now deadline) by (done || lia).
    destruct (resolve_with_provider q p (network a)) as [r sent]. simpl in Hdef. subst r. rewrite Htmp.
    replace (now + 0 + d) with (now + d) by lia. eauto.
  - destruct Hf as (Htk & Hd' & r & Hr & Hbad). cbn [fst snd] in *. cbn [total foldr] in Hdl |- *. fold (total ds) in *.
    assert (Hnn : 0 ≤ total ds).
    { clear -Hpre. induction Hpre as [|x y ? ? (_ & Hy & _) _ IH]; [done|]. cbn [total foldr]. unfold total in IH. lia. }
    rewrite (resolve_in_time q p' a' d' now deadline) by (done || lia).
    destruct (resolve_with_provider q p' (network a')) as [r' sent']. simpl in Hr. subst r'.
    rewrite (proj2 (Z.leb_gt _ _)) by lia.
    destruct (IH (now + d')) as [sent Hs]; [lia|]. rewrite Hs.
    replace (now + d' + total ds + d) with (now + (d' + total ds) + d) by lia.
    destruct r as [ans'|]; [rewrite Hbad|]; eauto.
Qed.

(** the ordered pool of providers ends within thirty seconds whatever the
    providers do; an answer it returns is the definitive answer of a provider
    of the pool, a genuine response to the question; and every provider that
    answers definitively is reached past those that fail or report a
    temporary failure in time. *)
Theorem pool_is_ordered_and_timely q pool now r sent t :
  resolve_with_pool q pool now = (r, sent, t) →
  Forall (fun pa => ∀ d, takes pa.2 = Some d → 0 ≤ d) pool →
  is_Some r ∧ t ≤ now + DOH_TOTAL_TIMEOUT ∧
  (∀ ans, r = Some (Ok ans) → genuine q ans ∧ ∃ pre p a post, pool = pre ++ (p, a) :: post ∧ definitive q p a ans) ∧
  (∀ pre ds p a d ans post, pool = pre ++ (p, a) :: post → Forall2 (fails_after q) pre ds → definitive q p a ans →
    takes a = Some d → 0 < d ≤ DOH_PROVIDER_TIMEOUT → total ds + d ≤ DOH_TOTAL_TIMEOUT →
    r = Some (Ok ans) ∧ t = now + total ds + d).
Proof.
  unfold resolve_with_pool. intros Hr Hpool.
  pose proof (ordered_pool_result _ _ _ _ _ _ _ Hr ltac:(unfold DOH_TOTAL_TIMEOUT, SECOND; lia) Hpool) as [Ht Hans].
  split; [pose proof (ordered_pool_total q pool (now + DOH_TOTAL_TIMEOUT) now) as Hs; by rewrite Hr in Hs|].
  split; [lia|]. split.
  - intros ans Ha. destruct (Hans ans Ha) as (pre & p & a & post & Hp & Hdef). split; [|by exists pre, p, a, post].
    destruct Hdef as [Hdef _]. destruct (resolve_with_provider q p (network a)) as [r' s'] eqn:He. simpl in Hdef. subst r'.
    by eapply provider_genuine.
  - intros pre ds p a d ans post -> Hpre Hdef Htk Hd Hsum.
    destruct (ordered_pool_falls_through q pre ds p a d ans post (now + DOH_TOTAL_TIMEOUT) now Hpre Hdef Htk Hd) as [s' Hs];
      [lia|]. rewrite Hs in Hr. by injection Hr as <- _ <-.
Qed.

(** ** Forgeries *)

Definition arriving (l : list (option (list Z))) (env : plain_env) : plain_env :=
  mkPlain (plain_id env) (connected env) (local_addr env) (udp_sent env) l (tcp_wire env) (plain_stamp env) (plain_cut env).

(** C26: forged datagrams change nothing: with any number of packets in front
    that carry another transaction id, another question, or are no response,
    the exchange has the same result and sends the same; and an answer comes
    from the first packet that matches, or, when that one is truncated, from
    the TCP retry with the same server, checked the same way. *)
Theorem forged_datagrams_change_nothing q server listeners env query :
  build_query (plain_id env) q = Ok query →
  (∀ pre, Forall (forged query) pre →
    resolve_with_server q server listeners (arriving (pre ++ datagrams env) env) =
    resolve_with_server q server listeners env) ∧
  ∀ a sent, resolve_with_server q server listeners env = (Ok a, sent) →
    ∃ pre bytes post m, datagrams env = pre ++ Some bytes :: post ∧ Forall (forged query) pre ∧
      validate_response query bytes = Ok m ∧
      if truncation m then ∃ wire body, tcp_wire env = Some wire ∧ tcp_body wire = Some body ∧ accepted query body a
      else accepted query bytes a.
Proof.
  intros Hb. split.
  - intros pre Hpre. unfold resolve_with_server. simpl. rewrite Hb.
    change (probe_upstream server listeners (arriving _ env)) with (probe_upstream server listeners env).
    destruct (probe_upstream server listeners env) as [s|]; [|done]. destruct (negb (udp_sent env)); [done|].
    rewrite receive_forged by done. assert (∀ l, receive s query (arriving (pre ++ datagrams env) env) l = receive s query env l) as ->.
    { induction l as [|[bytes|] l IH]; [done| |done]. simpl. by rewrite IH. }
    done.
  - intros a sent (query' & Hb' & Hrest)%with_server_ok. rewrite Hb in Hb'. by injection Hb' as <-.
Qed.
End Upstream.

(** ** Witnesses *)

Section Witnesses.
#[local] Existing Instance sample_names.

(** A query for an address, and its answer. *)
Definition address_question : Query := mkQuery (lit "example.org", true) TYPE_A 1.
Definition address_request : Message := query_message 7 address_question.
Definition address_answer : Message :=
  mkMessage (mkMeta 7 true 0 false false true true false false NoError) false false [address_question]
    [mkRR (lit "example.org", true) 1 0 (Addr4 16843009)] [] [].

(** A codec of those two packets, the answer also padded to three bytes. *)
Definition two_packets : PacketCrate := {|
  from_vec bs := if bool_decide (bs = [1]) then Some address_request
                 else if bool_decide (bs = [2]) || bool_decide (bs = [2; 0; 0]) then Some address_answer else None;
  to_vec m := Some (if is_response m then [2] else [1]);
  message_eqb _ _ := true;
  decrement_ttl t s := saturating_sub t s;
  timestamp_ok _ := true;
|}.
#[local] Existing Instance two_packets.
#[local] Existing Instance Http.sample_httparse.

Definition sample_resolver : socket_addr := SockV4 151587081 53.
Definition sample_plain : plain_env := mkPlain 7 true (Some (V4 167772161)) true [Some [2]] None 0 None.

Lemma forged_datagrams_change_nothing_witness :
  resolve_with_server address_question sample_resolver [] (arriving ([Some [9]; Some [1]] ++ [Some [2]]) sample_plain) =
  resolve_with_server address_question sample_resolver [] sample_plain.
Proof.
  destruct (forged_datagrams_change_nothing address_question sample_resolver [] sample_plain
    (mkDnsQuery 7 [1] address_question)) as [Hf _]; [reflexivity|].
  apply (Hf [Some [9]; Some [1]]). constructor; [exists [9], Wire; by split|].
  constructor; [exists [1], DohExchange; by split|constructor].
Defined.

Lemma dns_bodies_are_read_exactly_witness :
  read_dns_body [Chunked.Bytes [79; 10; 1]; Chunked.Bytes [2; 3; 4]] = Some (Ok [1; 2; 3]).
Proof.
  transitivity (Some (dns_body_of Http.sample_info [1; 2; 3; 4])); [|reflexivity].
  apply (dns_bodies_are_read_exactly _ [79; 10]).
  - by repeat constructor.
  - reflexivity.
  - exact Http.sample_head.
  - vm_compute. discriminate.
Defined.

(** The first provider cannot be dialled, the second answers. *)
Definition sample_provider (i : Z) : DohProvider := mkProvider (V4 i) (lit "dns.example") (lit "/dns-query").
Definition failing : attempt := mkAttempt (mkDoh 7 false false false [] 0) (Some SECOND) 0.
Definition answering : attempt :=
  mkAttempt (mkDoh 7 true true true [Chunked.Bytes [79; 10; 2; 0; 0]] 0) (Some SECOND) 0.
Definition sample_pool : list (DohProvider * attempt) := [(sample_provider 1, failing); (sample_provider 2, answering)].
Definition sample_ans : ResolvedAnswer := mkAnswer address_answer 0 0.

Lemma pool_is_ordered_and_timely_witness :
  (resolve_with_pool address_question sample_pool 0).1.1 = Some (Ok sample_ans) ∧
  (resolve_with_pool address_question sample_pool 0).2 = 2 * SECOND.
Proof.
  destruct (resolve_with_pool address_question sample_pool 0) as [[r sent] t] eqn:Hr.
  destruct (pool_is_ordered_and_timely address_question sample_pool 0 r sent t Hr) as (_ & _ & _ & Hthird).
  - constructor; [intros d [= <-]; vm_compute; discriminate|].
    constructor; [intros d [= <-]; vm_compute; discriminate|constructor].
  - destruct (Hthird [(sample_provider 1, failing)] [SECOND] (sample_provider 2) answering SECOND sample_ans []) as [-> ->].
    + reflexivity.
    + constructor; [|constructor]. split; [reflexivity|]. split; [vm_compute; split; discriminate|].
      exists (Err TorConnect). by split.
    + split; vm_compute; reflexivity.
    + reflexivity.
    + vm_compute. split; [reflexivity|discriminate].
    + vm_compute. discriminate.
    + by split.
Defined.
End Witnesses.
End DnsUpstream.
