(* ===== verification/DnsServer.v ===== *)
(** * The DNS frontend

    [packages/dns-server/src/server/server.rs] and [server_listener.rs]: the
    way of a question through local policy, cache and backends, the UDP and
    TCP loops with their admission by permits, and the background refresh of
    popular names.

    The loops, their queries and the refresh are polled by one task: what they
    do between two awaits is atomic, and a step of a process here is such a
    stretch.  A query in flight is a job of its loop and goes with it. *)

From S2P Require Import Prelude Interleave Order Str Utf8 Net NetText ClientAcl DnsPacket DnsCache DnsOverrides DnsWire.
From S2P Require Import DnsLocal Chunked Http DnsUpstream.
From stdpp Require Import gmap.
Import DnsPacket DnsCache DnsOverrides DnsWire DnsLocal DnsUpstream.
Open Scope Z_scope.

Module DnsServer.

Definition MAX_DNS_CONCURRENT_QUERIES : Z := 64.
Definition MAX_TCP_CONNECTIONS : Z := 64.
(** Nanoseconds. *)
Definition RESOLUTION_TIMEOUT : Z := 30 * SECOND.
Definition IO_TIMEOUT : Z := 30 * SECOND.

Section Server.
Context `{FrontCrate} `{!PacketCrate} `{!HashOrder} `{Http.HttparseCrate}.

(** The part of [QueryCtx] that does not change. *)
Record QueryCtx : Type := mkCtx {
  providers : list DohProvider;
  overrides : list DnsOverride;
  client_access : ClientAcl.AllowedClients;
}.

Definition explicit_override (ctx : QueryCtx) (q : Query) : bool :=
  match find_override (overrides ctx) (hostname_of q) with Some _ => true | None => false end.

(** What the environment decides while a question is looked at: the local
    address of a probed route, and both clocks. *)
Record look : Type := mkLook { probe : ip_addr → option ip_addr; now : Z; instant : Z }.

Definition inline_answer (ctx : QueryCtx) (endpoints : list socket_addr) (cache : Entries) (q : Query) (l : look)
  : option ResolvedAnswer * Entries :=
  match (preflight_with_probe q (hostname_of q) endpoints (explicit_override ctx q) (probe l) (now l)).1 with
  | Some a => (Some a, cache)
  | None => get_at cache q (now l) (instant l)
  end.

(** What tunnel, providers, servers and system do for one miss; [expired] is
    the absolute deadline, with what was sent before it. *)
Record miss_env : Type := mkMiss {
  tunnel : bool;
  attempts : nat → attempt;
  pool_start : Z;
  plain : plain_env;
  system_config : option (list (socket_addr * plain_env * plain_env));
  system_cut : option nat;
  expired : option nat;
  done_now : Z;
  done_instant : Z;
}.

(** The exchange of a miss, by the route of the question's host. *)
Definition route_miss (ctx : QueryCtx) (endpoints : list socket_addr) (q : Query) (env : miss_env)
  : option ResolvedAnswer * list egress :=
  match find_override (overrides ctx) (hostname_of q) with
  | Some entry =>
      let '(r, sent) :=
        match resolver entry with
        | Dns server => resolve_via_dns_server q server endpoints (plain env)
        | System => resolve_via_system q endpoints (system_config env) (system_cut env)
        end in
      (match r with Ok a => Some a | Err _ => None end, sent)
  | None =>
      if tunnel env then
        let '(r, sent, _) := resolve_with_pool q (imap (fun i p => (p, attempts env i)) (providers ctx)) (pool_start env) in
        (match r with Some (Ok a) => Some a | _ => None end, sent)
      else (None, [])
  end.

Definition resolve_miss (ctx : QueryCtx) (endpoints : list socket_addr) (cache : Entries) (q : Query) (env : miss_env)
  : option ResolvedAnswer * list egress * Entries :=
  let '(r, sent) := route_miss ctx endpoints q env in
  match expired env with
  | Some n => (None, take n sent, cache)
  | None =>
      match r with
      | Some a => (Some a, sent, insert_at cache q a (done_now env) (done_instant env))
      | None => (None, sent, cache)
      end
  end.

(** ** The shared state *)

(** Cache, endpoints and semaphores; and what has happened: the questions
    recorded for a client, the questions refreshed, what left the machine for
    which question with which endpoints, and the replies, by transport, with
    the peer, the request and the bytes. *)
Record world : Type := mkWorld {
  w_cache : Entries;
  endpoints : list socket_addr;
  backend : Z;
  connections : Z;
  recorded : list (ip_addr * Query);
  refreshed : list Query;
  w_sent : list (Query * list socket_addr * egress);
  replied : list (bool * ip_addr * Message * list Z);
}.

Definition set_cache (c : Entries) (w : world) : world :=
  mkWorld c (endpoints w) (backend w) (connections w) (recorded w) (refreshed w) (w_sent w) (replied w).
Definition add_endpoints (l : list socket_addr) (w : world) : world :=
  mkWorld (w_cache w) (endpoints w ++ l) (backend w) (connections w) (recorded w) (refreshed w) (w_sent w) (replied w).
Definition add_backend (n : Z) (w : world) : world :=
  mkWorld (w_cache w) (endpoints w) (backend w + n) (connections w) (recorded w) (refreshed w) (w_sent w) (replied w).
Definition add_connections (n : Z) (w : world) : world :=
  mkWorld (w_cache w) (endpoints w) (backend w) (connections w + n) (recorded w) (refreshed w) (w_sent w) (replied w).
Definition record_question (peer : ip_addr) (q : Query) (w : world) : world :=
  mkWorld (w_cache w) (endpoints w) (backend w) (connections w) ((peer, q) :: recorded w) (refreshed w) (w_sent w) (replied w).
Definition note_refresh (q : Query) (w : world) : world :=
  mkWorld (w_cache w) (endpoints w) (backend w) (connections w) (recorded w) (q :: refreshed w) (w_sent w) (replied w).
Definition note_sent (q : Query) (l : list egress) (w : world) : world :=
  mkWorld (w_cache w) (endpoints w) (backend w) (connections w) (recorded w) (refreshed w)
    (map (fun e => (q, endpoints w, e)) l ++ w_sent w) (replied w).
Definition note_reply (tcp : bool) (peer : ip_addr) (request : Message) (bytes : list Z) (w : world) : world :=
  mkWorld (w_cache w) (endpoints w) (backend w) (connections w) (recorded w) (refreshed w) (w_sent w)
    ((tcp, peer, request, bytes) :: replied w).

(** [send_udp_response]: best effort. *)
Definition send_udp (peer : ip_addr) (request reply : Message) (w : world) : world :=
  match encode_udp_response reply with
  | Some bytes => note_reply false peer request bytes w
  | None => w
  end.

(** A miss runs to its end: what it sent, the cache, and its permit back. *)
Definition finish_miss (ctx : QueryCtx) (q : Query) (env : miss_env) (w : world) : option ResolvedAnswer * world :=
  let '(a, sent, cache') := resolve_miss ctx (endpoints w) (w_cache w) q env in
  (a, add_backend 1 (set_cache cache' (note_sent q sent w))).

(** A miss is dropped: a part of its exchange is sent, the permit comes back. *)
Definition drop_miss (ctx : QueryCtx) (q : Query) (env : miss_env) (n : nat) (w : world) : world :=
  add_backend 1 (note_sent q (take n (route_miss ctx (endpoints w) q env).2) w).

(** ** A request *)

Inductive verdict : Type :=
| Reply (reply : Message)
| Miss (q : Query).

(** From the parsed request up to the admission of a miss; the same for both
    transports. *)
Definition triage (ctx : QueryCtx) (peer : ip_addr) (request : Message) (l : look) (w : world) : world * verdict :=
  match unsupported_response request with
  | Some reply => (w, Reply reply)
  | None =>
      match queries request with
      | [] => (w, Reply (formerr request))
      | q :: _ =>
          let w := record_question peer q w in
          let '(a, cache') := inline_answer ctx (endpoints w) (w_cache w) q l in
          let w := set_cache cache' w in
          match a with
          | Some a => (w, Reply (response request (Some a)))
          | None => (w, Miss q)
          end
      end
  end.

(** [try_acquire_owned]. *)
Definition try_acquire (w : world) : option world :=
  if 0 <? backend w then Some (add_backend (-1) w) else None.

(** ** UDP *)

(** A job holds its permit while it resolves, not while it sends. *)
Inductive job : Type :=
| Resolving (peer : ip_addr) (request : Message) (q : Query)
| Sending (peer : ip_addr) (request reply : Message).

Inductive udp_event : Type :=
| Datagram (peer : ip_addr) (bytes : list Z) (l : look)
| Resolved (i : nat) (env : miss_env)
| Sent (i : nat)
| UdpStop (env : nat → miss_env) (n : nat → nat).

Definition receive_datagram (ctx : QueryCtx) (peer : ip_addr) (bytes : list Z) (l : look) (w : world) (jobs : list job)
  : world * list job :=
  if negb (ClientAcl.allows_client (client_access ctx) peer) then (w, jobs)
  else match parse_query bytes with
  | None => (w, jobs)
  | Some request =>
      let '(w, v) := triage ctx peer request l w in
      match v with
      | Reply reply => (send_udp peer request reply w, jobs)
      | Miss q =>
          if MAX_DNS_CONCURRENT_QUERIES <=? Z.of_nat (length jobs) then (send_udp peer request (response request None) w, jobs)
          else match try_acquire w with
          | None => (send_udp peer request (response request None) w, jobs)
          | Some w => (w, jobs ++ [Resolving peer request q])
          end
      end
  end.

Definition drop_job (ctx : QueryCtx) (env : miss_env) (n : nat) (j : job) (w : world) : world :=
  match j with
  | Resolving _ _ q => drop_miss ctx q env n w
  | Sending _ _ _ => w
  end.

Fixpoint drop_jobs (ctx : QueryCtx) (env : nat → miss_env) (n : nat → nat) (jobs : list job) (w : world) : world :=
  match jobs with
  | [] => w
  | j :: jobs' => drop_job ctx (env (length jobs')) (n (length jobs')) j (drop_jobs ctx env n jobs' w)
  end.

Definition remove {A} (i : nat) (l : list A) : list A := take i l ++ drop (S i) l.

Definition udp_step (ctx : QueryCtx) (e : udp_event) (w : world) (jobs : list job) : option (world * list job) :=
  match e with
  | Datagram peer bytes l => Some (receive_datagram ctx peer bytes l w jobs)
  | Resolved i env =>
      match jobs !! i with
      | Some (Resolving peer request q) =>
          let '(a, w) := finish_miss ctx q env w in
          Some (w, <[i := Sending peer request (response request a)]> jobs)
      | _ => None
      end
  | Sent i =>
      match jobs !! i with
      | Some (Sending peer request reply) => Some (send_udp peer request reply w, remove i jobs)
      | _ => None
      end
  | UdpStop env n => Some (drop_jobs ctx env n jobs w, [])
  end.

(** ** TCP *)

Inductive conn_stage : Type :=
| Reading
| Waiting (request : Message) (q : Query)
| Writing (request : Message) (frame : list Z).

Record conn : Type := mkConn {
  c_peer : ip_addr;
  incoming : timed_stream;
  at_time : Z;
  stage : conn_stage;
}.

Inductive tcp_event : Type :=
| Accept (peer : ip_addr) (s : timed_stream) (t : Z)
| Read (i : nat) (l : look)
| TcpResolved (i : nat) (env : miss_env)
| Wrote (i : nat) (ok : bool) (t : Z)
| Lifetime (i : nat) (env : miss_env) (n : nat)
| TcpStop (env : nat → miss_env) (n : nat → nat).

Definition accept_connection (ctx : QueryCtx) (peer : ip_addr) (s : timed_stream) (t : Z) (w : world) (conns : list conn)
  : world * list conn :=
  if negb (ClientAcl.allows_client (client_access ctx) peer) then (w, conns)
  else if MAX_TCP_CONNECTIONS <=? Z.of_nat (length conns) then (w, conns)
  else if 0 <? connections w then (add_connections (-1) w, conns ++ [mkConn peer s t Reading])
  else (w, conns).

Definition close (i : nat) (w : world) (conns : list conn) : world * list conn :=
  (add_connections 1 w, remove i conns).

(** A reply is encoded and framed, or the connection ends. *)
Definition start_write (i : nat) (c : conn) (request reply : Message) (w : world) (conns : list conn)
  : world * list conn :=
  match to_vec reply with
  | None => close i w conns
  | Some bytes =>
      match write_framed_message bytes with
      | Err _ => close i w conns
      | Ok frame => (w, <[i := mkConn (c_peer c) (incoming c) (at_time c) (Writing request frame)]> conns)
      end
  end.

Definition read_request (ctx : QueryCtx) (i : nat) (c : conn) (l : look) (w : world) (conns : list conn)
  : world * list conn :=
  match read_framed_message (at_time c) IO_TIMEOUT (incoming c) with
  | Err _ | Ok None => close i w conns
  | Ok (Some (body, s, t)) =>
      let c := mkConn (c_peer c) s t (stage c) in
      match parse_query body with
      | None => close i w conns
      | Some request =>
          let '(w, v) := triage ctx (c_peer c) request l w in
          match v with
          | Reply reply => start_write i c request reply w conns
          | Miss q =>
              match try_acquire w with
              | Some w => (w, <[i := mkConn (c_peer c) (incoming c) (at_time c) (Waiting request q)]> conns)
              | None => start_write i c request (response request None) w conns
              end
          end
      end
  end.

Definition drop_conn (ctx : QueryCtx) (env : miss_env) (n : nat) (c : conn) (w : world) : world :=
  add_connections 1
    match stage c with
    | Waiting _ q => drop_miss ctx q env n w
    | _ => w
    end.

Fixpoint drop_conns (ctx : QueryCtx) (env : nat → miss_env) (n : nat → nat) (conns : list conn) (w : world) : world :=
  match conns with
  | [] => w
  | c :: conns' => drop_conn ctx (env (length conns')) (n (length conns')) c (drop_conns ctx env n conns' w)
  end.

Definition tcp_step (ctx : QueryCtx) (e : tcp_event) (w : world) (conns : list conn) : option (world * list conn) :=
  match e with
  | Accept peer s t => Some (accept_connection ctx peer s t w conns)
  | Read i l =>
      match conns !! i with
      | Some c => match stage c with Reading => Some (read_request ctx i c l w conns) | _ => None end
      | None => None
      end
  | TcpResolved i env =>
      match conns !! i with
      | Some c =>
          match stage c with
          | Waiting request q =>
              let '(a, w) := finish_miss ctx q env w in
              Some (start_write i c request (response request a) w conns)
          | _ => None
          end
      | None => None
      end
  | Wrote i ok t =>
      match conns !! i with
      | Some c =>
          match stage c with
          | Writing request frame =>
              if ok : bool then
                Some (note_reply true (c_peer c) request frame w, <[i := mkConn (c_peer c) (incoming c) t Reading]> conns)
              else Some (close i w conns)
          | _ => None
          end
      | None => None
      end
  | Lifetime i env n =>
      match conns !! i with
      | Some c => Some (drop_conn ctx env n c w, remove i conns)
      | None => None
      end
  | TcpStop env n => Some (drop_conns ctx env n conns w, [])
  end.

(** ** The background refresh *)

Inductive refresh : Type :=
| Idle
| Admission (q : Query)
| Running (q : Query).

Inductive refresh_event : Type :=
| Begin (q : Query) (l : look)
| Poll
| Finish (env : miss_env)
| Expire (env : miss_env) (n : nat).

(** Two slots are taken and one is given back at once. *)
Definition refresh_step (ctx : QueryCtx) (e : refresh_event) (w : world) (r : refresh) : option (world * refresh) :=
  match e, r with
  | Begin q l, Idle =>
      match (preflight_with_probe q (hostname_of q) (endpoints w) (explicit_override ctx q) (probe l) (now l)).1 with
      | Some _ => Some (w, Idle)
      | None => Some (note_refresh q w, Admission q)
      end
  | Poll, Admission q =>
      if 1 <? backend w then Some (add_backend 1 (add_backend (-2) w), Running q) else Some (w, Admission q)
  | Finish env, Running q => Some ((finish_miss ctx q env w).2, Idle)
  | Expire env n, Admission _ => Some (w, Idle)
  | Expire env n, Running q => Some (drop_miss ctx q env n w, Idle)
  | _, _ => None
  end.

(** ** The server *)

Inductive process : Type :=
| Udp (jobs : list job)
| Tcp (conns : list conn)
| Background (r : refresh)
| Recovery
| Stopped.

Inductive event : Type :=
| OnUdp (e : udp_event)
| OnTcp (e : tcp_event)
| OnRefresh (e : refresh_event)
| Recovered (endpoints : list socket_addr).

Definition step (ctx : QueryCtx) (_ : nat) (e : event) (w : world) (p : process) : option (world * process) :=
  match e, p with
  | OnUdp e, Udp jobs =>
      match udp_step ctx e w jobs with
      | Some (w, jobs) => Some (w, match e with UdpStop _ _ => Stopped | _ => Udp jobs end)
      | None => None
      end
  | OnTcp e, Tcp conns =>
      match tcp_step ctx e w conns with
      | Some (w, conns) => Some (w, match e with TcpStop _ _ => Stopped | _ => Tcp conns end)
      | None => None
      end
  | OnRefresh e, Background r =>
      match refresh_step ctx e w r with
      | Some (w, r) => Some (w, Background r)
      | None => None
      end
  | Recovered l, Recovery => Some (add_endpoints l w, Recovery)
  | _, _ => None
  end.

(** Loops start empty, the refresh idle. *)
Definition begins (p : process) : Prop :=
  match p with
  | Udp [] | Tcp [] | Background Idle | Recovery => True
  | _ => False
  end.

Definition start (cache : Entries) (eps : list socket_addr) : world :=
  mkWorld cache eps MAX_DNS_CONCURRENT_QUERIES MAX_TCP_CONNECTIONS [] [] [] [].

(** ** Permits *)

Definition resolving (j : job) : Z := match j with Resolving _ _ _ => 1 | Sending _ _ _ => 0 end.
Definition waiting (c : conn) : Z := match stage c with Waiting _ _ => 1 | _ => 0 end.
Definition sum {A} (f : A → Z) (l : list A) : Z := foldr (fun x acc => f x + acc) 0 l.

(** The misses a process has in flight, and the connections it holds. *)
Definition in_flight (p : process) : Z :=
  match p with
  | Udp jobs => sum resolving jobs
  | Tcp conns => sum waiting conns
  | Background (Running _) => 1
  | _ => 0
  end.
Definition open_conns (p : process) : Z := match p with Tcp conns => Z.of_nat (length conns) | _ => 0 end.

Lemma sum_app {A} (f : A → Z) l1 l2 : sum f (l1 ++ l2) = sum f l1 + sum f l2.
Proof. induction l1 as [|x l1 IH]; [done|]. simpl. lia. Qed.

Lemma sum_split {A} (f : A → Z) (l : list A) i x :
  l !! i = Some x → sum f l = sum f (remove i l) + f x.
Proof.
  intros Hi. rewrite <-(take_drop_middle l i x Hi) at 1. unfold remove. rewrite !sum_app. simpl. lia.
Qed.

Lemma sum_insert {A} (f : A → Z) (l : list A) i x y :
  l !! i = Some x → sum f (<[i := y]> l) = sum f l - f x + f y.
Proof.
  intros Hi. pose proof (lookup_lt_Some _ _ _ Hi) as Hlt. rewrite (sum_split f l i x Hi).
  rewrite insert_take_drop by done. unfold remove. rewrite !sum_app. simpl. lia.
Qed.

Lemma length_remove {A} (l : list A) i x : l !! i = Some x → Z.of_nat (length (remove i l)) = Z.of_nat (length l) - 1.
Proof.
  intros Hi%lookup_lt_Some. unfold remove. rewrite length_app, length_take, length_drop. lia.
Qed.

(** What triage leaves alone. *)
Lemma triage_frame ctx peer request l w w' v :
  triage ctx peer request l w = (w', v) →
  backend w' = backend w ∧ connections w' = connections w ∧ endpoints w' = endpoints w ∧
  w_sent w' = w_sent w ∧ replied w' = replied w ∧ refreshed w' = refreshed w.
Proof.
  unfold triage. destruct (unsupported_response request); [by intros [= <- <-]|].
  destruct (queries request) as [|q qs]; [by intros [= <- <-]|].
  destruct (inline_answer _ _ _ _ _) as [[a|] cache']; by intros [= <- <-].
Qed.

Lemma finish_miss_frame ctx q env w a w' :
  finish_miss ctx q env w = (a, w') →
  backend w' = backend w + 1 ∧ connections w' = connections w ∧ endpoints w' = endpoints w ∧
  replied w' = replied w ∧ recorded w' = recorded w ∧ refreshed w' = refreshed w.
Proof. unfold finish_miss. destruct (resolve_miss _ _ _ _ _) as [[a' sent] cache']. by intros [= <- <-]. Qed.

Lemma send_udp_frame peer request reply w :
  backend (send_udp peer request reply w) = backend w ∧ connections (send_udp peer request reply w) = connections w.
Proof. unfold send_udp. by destruct (encode_udp_response reply). Qed.

Lemma try_acquire_frame w w' :
  try_acquire w = Some w' → w' = add_backend (-1) w ∧ 0 < backend w.
Proof. unfold try_acquire. destruct (Z.ltb_spec 0 (backend w)); [|done]. by intros [= <-]. Qed.

(** Permits before and after a stretch of a loop with that much in flight. *)
Definition balanced (w : world) (f o : Z) (w' : world) (f' o' : Z) : Prop :=
  backend w' + f' = backend w + f ∧ connections w' + o' = connections w + o ∧
  (0 ≤ backend w → 0 ≤ backend w') ∧ (0 ≤ connections w → 0 ≤ connections w').

Lemma drop_jobs_frame ctx env n jobs w :
  let w' := drop_jobs ctx env n jobs w in
  backend w' = backend w + sum resolving jobs ∧ connections w' = connections w.
Proof.
  induction jobs as [|[peer request q|peer request reply] jobs IH]; simpl in *; [lia| |]; destruct IH as [Hb Hc].
  - unfold drop_miss. simpl. lia.
  - lia.
Qed.

Lemma sum_resolving_nonneg jobs : 0 ≤ sum resolving jobs.
Proof. induction jobs as [|[] jobs IH]; simpl; lia. Qed.
Lemma sum_waiting_nonneg conns : 0 ≤ sum waiting conns.
Proof.
  induction conns as [|c conns IH]; [done|]. assert (0 ≤ waiting c) by (unfold waiting; by destruct (stage c)).
  change (0 ≤ waiting c + sum waiting conns). lia.
Qed.

Lemma udp_balanced ctx e w jobs w' jobs' :
  udp_step ctx e w jobs = Some (w', jobs') → balanced w (sum resolving jobs) 0 w' (sum resolving jobs') 0.
Proof.
  unfold balanced. destruct e as [peer bytes l|i env|i|env n]; simpl.
  - intros [= He]. revert He. unfold receive_datagram. destruct (negb _); [intros [= <- <-]; lia|].
    destruct (parse_query bytes) as [request|]; [|intros [= <- <-]; lia].
    destruct (triage ctx peer request l w) as [w1 v] eqn:Ht. apply triage_frame in Ht as (Hb & Hc & _).
    destruct v as [reply|q]; [intros [= <- <-]; destruct (send_udp_frame peer request reply w1); lia|].
    destruct (send_udp_frame peer request (response request None) w1).
    destruct (_ <=? _); [intros [= <- <-]; lia|].
    destruct (try_acquire w1) as [w2|] eqn:Ha; [|intros [= <- <-]; lia].
    apply try_acquire_frame in Ha as [-> Hpos]. intros [= <- <-]. rewrite sum_app. simpl. lia.
  - destruct (jobs !! i) as [[peer request q|]|] eqn:Hj; [|done|done].
    destruct (finish_miss ctx q env w) as [a w1] eqn:Hf. apply finish_miss_frame in Hf as (Hb & Hc & _).
    intros [= <- <-]. rewrite (sum_insert _ _ _ _ _ Hj). simpl. lia.
  - destruct (jobs !! i) as [[|peer request reply]|] eqn:Hj; [done| |done]. intros [= <- <-].
    destruct (send_udp_frame peer request reply w). rewrite (sum_split _ _ _ _ Hj). simpl. lia.
  - intros [= <- <-]. destruct (drop_jobs_frame ctx env n jobs w) as [Hb Hc]. pose proof (sum_resolving_nonneg jobs).
    simpl in *. lia.
Qed.

Lemma drop_conn_frame ctx env n c w :
  backend (drop_conn ctx env n c w) = backend w + waiting c ∧ connections (drop_conn ctx env n c w) = connections w + 1.
Proof. unfold drop_conn, drop_miss, waiting. destruct (stage c); simpl; lia. Qed.

Lemma drop_conns_frame ctx env n conns w :
  let w' := drop_conns ctx env n conns w in
  backend w' = backend w + sum waiting conns ∧ connections w' = connections w + Z.of_nat (length conns).
Proof.
  induction conns as [|c conns IH]; [simpl; lia|]. destruct IH as [Hb Hc]. cbn [drop_conns].
  change (sum waiting (c :: conns)) with (waiting c + sum waiting conns). cbv zeta.
  destruct (drop_conn_frame ctx (env (length conns)) (n (length conns)) c (drop_conns ctx env n conns w)) as [-> ->].
  simpl length. lia.
Qed.

Ltac eval_waiting :=
  repeat match goal with
  | |- context [waiting (mkConn ?a ?b ?t ?s)] =>
      let v := eval cbv [waiting stage] in (waiting (mkConn a b t s)) in change (waiting (mkConn a b t s)) with v
  end.

(** Removing or writing on a connection that waits for [k] misses. *)
Lemma start_write_balanced i c0 c request reply w conns w' conns' :
  conns !! i = Some c0 → start_write i c request reply w conns = (w', conns') →
  balanced w (sum waiting conns) (Z.of_nat (length conns)) w' (sum waiting conns' + waiting c0) (Z.of_nat (length conns')).
Proof.
  intros Hi. unfold start_write, close, balanced. pose proof (sum_split waiting _ _ _ Hi) as Hs. pose proof (length_remove _ _ _ Hi).
  destruct (to_vec reply) as [bytes|]; [|intros [= <- <-]; simpl; lia].
  destruct (write_framed_message bytes) as [frame|]; intros [= <- <-]; simpl; [|lia].
  rewrite (sum_insert _ _ _ _ _ Hi), length_insert. eval_waiting. simpl. lia.
Qed.

Lemma tcp_balanced ctx e w conns w' conns' :
  tcp_step ctx e w conns = Some (w', conns') →
  balanced w (sum waiting conns) (Z.of_nat (length conns)) w' (sum waiting conns') (Z.of_nat (length conns')).
Proof.
  destruct e as [peer s t|i l|i env|i ok t|i env n|env n]; simpl.
  - intros [= He]. revert He. unfold accept_connection, balanced.
    destruct (negb _); [intros [= <- <-]; lia|]. destruct (_ <=? _); [intros [= <- <-]; lia|].
    destruct (Z.ltb_spec 0 (connections w)); intros [= <- <-]; [|lia]. rewrite sum_app, length_app.
    change (sum waiting [mkConn peer s t Reading]) with 0. simpl. lia.
  - destruct (conns !! i) as [c|] eqn:Hi; [|done]. destruct (stage c) eqn:Hst; try done. intros [= He]. revert He.
    assert (Hw : waiting c = 0) by (unfold waiting; by rewrite Hst).
    assert (Hclose : close i w conns = (w', conns') → balanced w (sum waiting conns) (Z.of_nat (length conns)) w' (sum waiting conns') (Z.of_nat (length conns'))).
    { unfold close, balanced. intros [= <- <-]. rewrite (sum_split _ _ _ _ Hi), (length_remove _ _ _ Hi). simpl. lia. }
    unfold read_request. destruct (read_framed_message _ _ _) as [[[[body s] t]|]|]; [|done|done].
    destruct (parse_query body) as [request|]; [|done]. cbn [c_peer].
    destruct (triage ctx (c_peer c) request l w) as [w1 v] eqn:Ht. apply triage_frame in Ht as (Hb & Hc & _).
    assert (Hsw : ∀ c' reply, start_write i c' request reply w1 conns = (w', conns') →
      balanced w (sum waiting conns) (Z.of_nat (length conns)) w' (sum waiting conns') (Z.of_nat (length conns'))).
    { intros c' reply Hs%(start_write_balanced _ c); [|done]. unfold balanced in *. lia. }
    destruct v as [reply|q]; [apply Hsw|]. destruct (try_acquire w1) as [w2|] eqn:Ha; [|apply Hsw].
    apply try_acquire_frame in Ha as [-> Hpos]. intros [= <- <-]. unfold balanced.
    rewrite (sum_insert _ _ _ _ _ Hi), length_insert, Hw. eval_waiting. simpl. lia.
  - destruct (conns !! i) as [c|] eqn:Hi; [|done]. destruct (stage c) as [|request q|] eqn:Hst; try done.
    destruct (finish_miss ctx q env w) as [a w1] eqn:Hf. apply finish_miss_frame in Hf as (Hb & Hc & _). intros [= He].
    apply (start_write_balanced _ c) in He; [|done]. assert (waiting c = 1) by (unfold waiting; by rewrite Hst). unfold balanced in *. lia.
  - destruct (conns !! i) as [c|] eqn:Hi; [|done]. destruct (stage c) as [| |request frame] eqn:Hst; try done.
    assert (Hw : waiting c = 0) by (unfold waiting; by rewrite Hst).
    destruct ok; intros [= <- <-]; unfold balanced.
    + rewrite (sum_insert _ _ _ _ _ Hi), length_insert, Hw. eval_waiting. simpl. lia.
    + rewrite (sum_split _ _ _ _ Hi), (length_remove _ _ _ Hi). simpl. lia.
  - destruct (conns !! i) as [c|] eqn:Hi; [|done]. intros [= <- <-]. unfold balanced.
    destruct (drop_conn_frame ctx env n c w) as [-> ->]. rewrite (sum_split _ _ _ _ Hi), (length_remove _ _ _ Hi).
    assert (0 ≤ waiting c) by (unfold waiting; by destruct (stage c)). lia.
  - intros [= <- <-]. destruct (drop_conns_frame ctx env n conns w) as [Hb Hc]. unfold balanced. simpl in *.
    pose proof (sum_waiting_nonneg conns). lia.
Qed.

Lemma refresh_balanced ctx e w r w' r' :
  refresh_step ctx e w r = Some (w', r') → balanced w (in_flight (Background r)) 0 w' (in_flight (Background r')) 0.
Proof.
  unfold balanced. destruct e as [q l| |env|env n], r as [|q'|q']; simpl; try done.
  - destruct (preflight_with_probe _ _ _ _ _ _).1; intros [= <- <-]; simpl; lia.
  - destruct (Z.ltb_spec 1 (backend w)); intros [= <- <-]; simpl; lia.
  - destruct (finish_miss ctx q' env w) as [a w1] eqn:Hf. apply finish_miss_frame in Hf as (Hb & Hc & _).
    intros [= <- <-]. simpl. lia.
  - intros [= <- <-]. simpl. lia.
  - intros [= <- <-]. simpl. lia.
Qed.

Lemma step_balanced ctx i e w p w' p' :
  step ctx i e w p = Some (w', p') → balanced w (in_flight p) (open_conns p) w' (in_flight p') (open_conns p').
Proof.
  destruct e as [e|e|e|l], p as [jobs|conns|r| |]; simpl; try done.
  - destruct (udp_step ctx e w jobs) as [[w1 jobs']|] eqn:Hu; [|done]. intros [= <- <-].
    pose proof (udp_balanced _ _ _ _ _ _ Hu) as Hb. destruct e; try exact Hb.
    simpl in Hu. injection Hu as <- <-. exact Hb.
  - destruct (tcp_step ctx e w conns) as [[w1 conns']|] eqn:Hu; [|done]. intros [= <- <-].
    pose proof (tcp_balanced _ _ _ _ _ _ Hu) as Hb. destruct e; try exact Hb.
    simpl in Hu. injection Hu as <- <-. exact Hb.
  - destruct (refresh_step ctx e w r) as [[w1 r']|] eqn:Hu; [|done]. intros [= <- <-]. by apply refresh_balanced in Hu.
  - intros [= <- <-]. unfold balanced. simpl. lia.
Qed.

(** C29: the admission of the DNS server conserves its permits under every
    interleaving of listeners, queries, connections, refreshes, drops and
    stops: free slots and misses in flight always add up to 64, and so do free
    connection slots and open connections, so that no more than 64 of either
    exist and none is lost; and the background refresh never takes the last
    slot. *)
Theorem dns_permits_are_conserved ctx cache eps c :
  reach (step ctx) begins (mkConfig (start cache eps) ∅) c →
  0 ≤ backend (shared c) ∧ backend (shared c) + tally in_flight (procs c) = MAX_DNS_CONCURRENT_QUERIES ∧
  0 ≤ connections (shared c) ∧ connections (shared c) + tally open_conns (procs c) = MAX_TCP_CONNECTIONS ∧
  ∀ i q w', step ctx i (OnRefresh Poll) (shared c) (Background (Admission q)) = Some (w', Background (Running q)) →
    1 ≤ backend w'.
Proof.
  intros Hr.
  assert (Hb : ∀ p, begins p → in_flight p = 0 ∧ open_conns p = 0) by (by intros [[]|[]|[]| |]).
  assert (Hnn : 0 ≤ backend (shared c) ∧ 0 ≤ connections (shared c)).
  { apply (reach_holds (step ctx) begins (fun w => 0 ≤ backend w ∧ 0 ≤ connections w) (fun _ _ _ => True)
      ltac:(done)) in Hr; [by destruct Hr| |done|].
    - intros i e s pc s' pc' [Hg1 Hg2] _ (_ & _ & Hk1 & Hk2)%step_balanced. split; [|done]. split; [by apply Hk1|by apply Hk2].
    - by split. }
  split_and!; try (by apply Hnn).
  - apply (reach_conserves (step ctx) begins eq backend in_flight) in Hr; [|intros; lia|intros p Hp; apply (Hb p Hp)|].
    + rewrite Hr. cbn [shared procs]. by rewrite tally_empty.
    + by intros i e s p s' p' (? & _)%step_balanced.
  - apply (reach_conserves (step ctx) begins eq connections open_conns) in Hr; [|intros; lia|intros p Hp; apply (Hb p Hp)|].
    + rewrite Hr. cbn [shared procs]. by rewrite tally_empty.
    + by intros i e s p s' p' (_ & ? & _)%step_balanced.
  - intros i q w'. simpl. destruct (Z.ltb_spec 1 (backend (shared c))); intros [= <-]. simpl. lia.
Qed.

(** ** Where answers come from *)











(** ** The cache holds what came from upstream *)


Context `{!NameLaws} `{!FrontLaws}.






(** ** The invariant *)







(** Questions asked stay asked. *)
Definition grows (w w' : world) : Prop :=
  (∀ x, x ∈ recorded w → x ∈ recorded w') ∧ (∀ q, q ∈ refreshed w → q ∈ refreshed w').



Lemma grows_refl w : grows w w.
Proof. by split. Qed.




















End Server.

(** ** Witnesses *)

Section Witnesses.
#[local] Existing Instance sample_names.
#[local] Existing Instance sample_names_laws.
#[local] Existing Instance sample_order.

#[local] Existing Instance sample_front.

#[local] Existing Instance sample_front_laws.

#[local] Existing Instance two_packets.
#[local] Existing Instance Http.sample_httparse.

Definition sample_ctx : QueryCtx :=
  mkCtx [] [mkOverride (lit "*.org") (Dns sample_resolver)] ClientAcl.allowed_default.
Definition sample_look : look := mkLook (fun _ => None) 0 0.

(** A client asks over UDP; the override server answers after a forgery. *)
Definition sample_asks : list (move process event) :=
  [Spawn 0 (Udp []); Step 0 (OnUdp (Datagram (V4 2130706433) [1] sample_look))].

Definition sample_run (ms : list (move process event)) : config world process :=
  default (mkConfig (start ∅ []) ∅) (run_schedule (step sample_ctx) (mkConfig (start ∅ []) ∅) ms).

Lemma sample_asks_reach : reach (step sample_ctx) begins (mkConfig (start ∅ []) ∅) (sample_run sample_asks).
Proof. apply (run_reach _ _ _ sample_asks); [by repeat constructor|vm_compute; reflexivity]. Qed.


Lemma dns_permits_are_conserved_witness :
  backend (shared (sample_run sample_asks)) = 63 ∧
  backend (shared (sample_run sample_asks)) + tally in_flight (procs (sample_run sample_asks)) = MAX_DNS_CONCURRENT_QUERIES.
Proof.
  split; [vm_compute; reflexivity|]. apply (dns_permits_are_conserved sample_ctx ∅ [] _ sample_asks_reach).
Defined.



End Witnesses.
End DnsServer.
