(* ===== verification/DnsLifecycle.v ===== *)
(** * The DNS server's listeners and lifetime

    [packages/dns-server/src/server/server.rs]: binding a UDP and a TCP socket
    on one address, with retries for an ephemeral port, the listeners of all
    configured addresses and the endpoints they cover; and the lifetime of the
    server - periodic cache saves, and the order in which a stop ends
    networking, prefetch, statistics and cache. *)

From S2P Require Import Prelude Order Str Net NetText DnsOverrides.
Import DnsOverrides.
Open Scope Z_scope.

Module DnsLifecycle.

(** ** Binding *)

Definition EPHEMERAL_BIND_ATTEMPTS : nat := 32.
Definition DYNAMIC_PORT_START : Z := 49152.
Definition DYNAMIC_PORT_COUNT : Z := 16384.

Inductive ErrorKind : Type := AddrInUse | PermissionDenied | AddrNotAvailable | OtherKind.

(** A failed bind with its context, or a failed [local_addr]. *)
Inductive bind_error : Type :=
| UdpBind (kind : ErrorKind)
| TcpBind (kind : ErrorKind)
| Getter.

Definition port_collision (k : ErrorKind) : bool :=
  match k with AddrInUse | PermissionDenied => true | _ => false end.

(** [random] is a 64-bit hash. *)
Definition random_dynamic_port (random : Z) : Z := DYNAMIC_PORT_START + random mod DYNAMIC_PORT_COUNT.

(** What the system does at an attempt: binding a UDP socket, reading its
    address, binding a TCP listener on it, and the hash of the next port. *)
Record bind_env : Type := mkBind {
  bind_udp : str → result unit ErrorKind;
  bound_addr : option socket_addr;
  bind_tcp : socket_addr → result unit ErrorKind;
  random : Z;
}.

Definition retarget (requested : option socket_addr) (random : Z) (target : str) : str :=
  match requested with
  | Some a => socket_to_string (socket_new (ip a) (random_dynamic_port random))
  | None => target
  end.

(** The attempts from number [i] on, [left] of them; [None] is the
    [unreachable!] after the loop.  Also the number of attempts made. *)
Fixpoint bind_loop (left : nat) (i : nat) (requested : option socket_addr) (ephemeral : bool) (env : nat → bind_env)
  (target : str) : option (result socket_addr bind_error * nat) :=
  match left with
  | O => None
  | S left' =>
      let retry := ephemeral && (i <? EPHEMERAL_BIND_ATTEMPTS)%nat in
      let again := bind_loop left' (S i) requested ephemeral env (retarget requested (random (env i)) target) in
      match bind_udp (env i) target with
      | Err k => if retry && port_collision k then again else Some (Err (UdpBind k), i)
      | Ok _ =>
          match bound_addr (env i) with
          | None => Some (Err Getter, i)
          | Some bound =>
              match bind_tcp (env i) bound with
              | Ok _ => Some (Ok bound, i)
              | Err k => if retry && port_collision k then again else Some (Err (TcpBind k), i)
              end
          end
      end
  end.

Definition is_ephemeral (addr : str) : bool :=
  match socket_from_str addr with Some a => port a =? 0 | None => false end.

Definition bind_pair_with (addr : str) (env : nat → bind_env) : option (result socket_addr bind_error * nat) :=
  bind_loop EPHEMERAL_BIND_ATTEMPTS 1 (socket_from_str addr) (is_ephemeral addr) env addr.

(** The kind of a failure that only skips the address. *)
Definition skipped_bind_reason (e : bind_error) : option ErrorKind :=
  match e with
  | UdpBind OtherKind | TcpBind OtherKind | Getter => None
  | UdpBind k | TcpBind k => Some k
  end.

(** The endpoints of one socket: its address, and the IPv4 wildcard of a
    dual-stack IPv6 wildcard. *)
Definition listener_endpoint (bound : socket_addr) (only_v6 : bool) : list socket_addr :=
  bound :: (if negb (is_ipv4 (ip bound)) && is_unspecified (ip bound) && negb only_v6
            then [SockV4 0 (port bound)] else []).

Record BoundListeners : Type := mkBound { bound : list socket_addr; retry : list str }.

Inductive listen_error : Type :=
| NoAddresses
| Hard (e : bind_error)
| NothingBound
| NoResult.

(** [bind_listeners], given the outcome of [bind_pair] for each address. *)
Fixpoint bind_all (outcomes : list (str * option (result socket_addr bind_error))) (acc : BoundListeners)
  : result BoundListeners listen_error :=
  match outcomes with
  | [] => if is_empty (bound acc) then Err NothingBound else Ok acc
  | (addr, outcome) :: rest =>
      match outcome with
      | None => Err NoResult
      | Some (Ok b) => bind_all rest (mkBound (bound acc ++ [b]) (retry acc))
      | Some (Err e) =>
          match skipped_bind_reason e with
          | None => Err (Hard e)
          | Some AddrNotAvailable => bind_all rest (mkBound (bound acc) (retry acc ++ [addr]))
          | Some _ => bind_all rest acc
          end
      end
  end.

Definition bind_listeners (outcomes : list (str * option (result socket_addr bind_error)))
  : result BoundListeners listen_error :=
  if is_empty outcomes then Err NoAddresses else bind_all outcomes (mkBound [] []).

(** A collision at an attempt, on either protocol. *)
Definition collides (env : bind_env) (target : str) : Prop :=
  (∃ k, bind_udp env target = Err k ∧ port_collision k = true) ∨
  ∃ b k, bind_udp env target = Ok tt ∧ bound_addr env = Some b ∧ bind_tcp env b = Err k ∧ port_collision k = true.

Definition binds (env : bind_env) (target : str) (b : socket_addr) : Prop :=
  bind_udp env target = Ok tt ∧ bound_addr env = Some b ∧ bind_tcp env b = Ok tt.

Lemma bind_loop_spec left i requested ephemeral env target :
  (i + left = S EPHEMERAL_BIND_ATTEMPTS)%nat → (0 < left)%nat →
  ∃ r n, bind_loop left i requested ephemeral env target = Some (r, n) ∧ (i ≤ n ≤ EPHEMERAL_BIND_ATTEMPTS)%nat ∧
    (ephemeral = false → n = i) ∧
    (∀ b, r = Ok b → ∃ t, binds (env n) t b) ∧
    (∀ k, r = Err (UdpBind k) ∨ r = Err (TcpBind k) → ephemeral = true → port_collision k = true → n = EPHEMERAL_BIND_ATTEMPTS).
Proof.
  revert i target. induction left as [|left IH]; intros i target Hi Hpos; [lia|]. cbn [bind_loop].
  set (retry := ephemeral && (i <? EPHEMERAL_BIND_ATTEMPTS)%nat).
  set (again := bind_loop left (S i) requested ephemeral env _).
  assert (Hagain : retry = true → ∃ r n, again = Some (r, n) ∧ (i ≤ n ≤ EPHEMERAL_BIND_ATTEMPTS)%nat ∧
    (ephemeral = false → n = i) ∧ (∀ b, r = Ok b → ∃ t, binds (env n) t b) ∧
    (∀ k, r = Err (UdpBind k) ∨ r = Err (TcpBind k) → ephemeral = true → port_collision k = true → n = EPHEMERAL_BIND_ATTEMPTS)).
  { intros [-> Hlt%Nat.ltb_lt]%andb_true_iff.
    destruct (IH (S i) (retarget requested (random (env i)) target)) as (r & n & Hr & Hn & _ & Hok & Herr); [lia|lia|].
    exists r, n. split_and!; [done|lia|lia|done|done|done]. }
  assert (Hlast : ∀ r k, (r = Err (UdpBind k) ∨ r = Err (TcpBind k)) → retry && port_collision k = false →
    ∃ r' n, Some (r, i) = Some (r', n) ∧ (i ≤ n ≤ EPHEMERAL_BIND_ATTEMPTS)%nat ∧
    (ephemeral = false → n = i) ∧ (∀ b, r' = Ok b → ∃ t, binds (env n) t b) ∧
    (∀ k, r' = Err (UdpBind k) ∨ r' = Err (TcpBind k) → ephemeral = true → port_collision k = true → n = EPHEMERAL_BIND_ATTEMPTS)).
  { intros r k Hr Hno. exists r, i. split_and!; [done|lia|lia|done|intros b ->; by destruct Hr as [[=]|[=]]|].
    intros k' Hk' He Hc. assert (k' = k) as -> by (destruct Hr as [->| ->], Hk' as [[=]|[=]]; done).
    unfold retry in Hno. rewrite He, Hc in Hno. simpl in Hno. rewrite andb_true_r in Hno. apply Nat.ltb_ge in Hno. lia. }
  destruct (bind_udp (env i) target) as [[]|k] eqn:Hu.
  - destruct (bound_addr (env i)) as [b|] eqn:Hb.
    + destruct (bind_tcp (env i) b) as [[]|k] eqn:Ht.
      * exists (Ok b), i. split_and!; [done|lia|lia|done| |by intros k [|]]. intros b' [= <-]. by exists target.
      * destruct (retry && port_collision k) eqn:Hc; [apply Hagain; by destruct (andb_prop _ _ Hc)|].
        apply (Hlast _ k); [by right|done].
    + exists (Err Getter), i. split_and!; [done|lia|lia|done|done|by intros k [|]].
  - destruct (retry && port_collision k) eqn:Hc; [apply Hagain; by destruct (andb_prop _ _ Hc)|].
    apply (Hlast _ k); [by left|done].
Qed.

(** binding always settles within its 32 attempts, so that the panic
    after the loop is unreachable: success is a UDP socket and a TCP listener
    on one and the same address; a fixed port is tried once; and an ephemeral
    port fails for a collision only after the last attempt, every port tried
    after the first being one of the dynamic range. *)
Theorem bind_pair_settles addr env :
  (∃ r n, bind_pair_with addr env = Some (r, n) ∧ (1 ≤ n ≤ EPHEMERAL_BIND_ATTEMPTS)%nat ∧
    (is_ephemeral addr = false → n = 1%nat) ∧
    (∀ b, r = Ok b → ∃ t, binds (env n) t b) ∧
    (∀ k, r = Err (UdpBind k) ∨ r = Err (TcpBind k) → is_ephemeral addr = true → port_collision k = true →
      n = EPHEMERAL_BIND_ATTEMPTS)) ∧
  ∀ random, in_u u64_max random → DYNAMIC_PORT_START ≤ random_dynamic_port random ≤ u16_max.
Proof.
  split; [by apply bind_loop_spec; unfold EPHEMERAL_BIND_ATTEMPTS; lia|]. intros r Hr.
  unfold random_dynamic_port, DYNAMIC_PORT_START, DYNAMIC_PORT_COUNT, u16_max.
  pose proof (Z.mod_pos_bound r 16384 eq_refl). lia.
Qed.

(** ** All listeners *)

Definition bound_of (o : str * option (result socket_addr bind_error)) : option socket_addr :=
  match o.2 with Some (Ok b) => Some b | _ => None end.
Definition retried (o : str * option (result socket_addr bind_error)) : option str :=
  match o.2 with
  | Some (Err (UdpBind AddrNotAvailable)) | Some (Err (TcpBind AddrNotAvailable)) => Some o.1
  | _ => None
  end.
(** Neither missing nor a failure that is not skipped. *)
Definition tolerable (o : str * option (result socket_addr bind_error)) : Prop :=
  match o.2 with
  | None => False
  | Some (Ok _) => True
  | Some (Err e) => is_Some (skipped_bind_reason e)
  end.

Lemma bind_all_spec outcomes acc bl :
  bind_all outcomes acc = Ok bl ↔
  Forall tolerable outcomes ∧ bl = mkBound (bound acc ++ omap bound_of outcomes) (retry acc ++ omap retried outcomes) ∧
  bound bl ≠ [].
Proof.
  revert acc. induction outcomes as [|[addr o] outcomes IH]; intros acc; cbn [bind_all].
  - cbn [omap list_omap]. rewrite !app_nil_r. destruct acc as [b r]. simpl. split.
    + destruct b; [done|]. intros [= <-]. split; [constructor|done].
    + intros (_ & -> & Hne). simpl in Hne. by destruct b.
  - rewrite Forall_cons. cbn [omap list_omap]. unfold tolerable at 1, bound_of, retried. cbn [fst snd].
    destruct o as [[b|e]|]; [rewrite IH; simpl; rewrite <-app_assoc; tauto| |split; [done|by intros [[] _]]].
    destruct e as [[]|[]|]; cbn [skipped_bind_reason]; rewrite ?IH; simpl; rewrite <-?app_assoc;
      try (split; [done|by intros [[[]] _]]);
      split; intros; destruct_and?; split_and?; eauto.
Qed.

(** The server comes up exactly if no address fails hard and at least one is
    bound: on those addresses, in order, with a retry for exactly the ones the
    machine does not have yet. *)
Theorem listeners_come_up outcomes bl :
  bind_listeners outcomes = Ok bl ↔
  Forall tolerable outcomes ∧ bound bl = omap bound_of outcomes ∧ bound bl ≠ [] ∧ retry bl = omap retried outcomes.
Proof.
  unfold bind_listeners. destruct (is_empty outcomes) eqn:He.
  - destruct outcomes; [|done]. split; [done|]. intros (_ & Hb & Hne & _). by rewrite Hb in Hne.
  - rewrite bind_all_spec. simpl. destruct bl as [b r]. simpl. split.
    + intros (Ht & [= -> ->] & Hne). by split_and!.
    + intros (Ht & -> & Hne & ->). by split_and!.
Qed.

(** ** The lifetime *)

(** The server serves; on a stop it waits for the prefetch to join, for the
    statistics to drain, for an active save, and saves once more.  Until the
    statistics are drained the periodic saves go on; [saving] says that one is
    active, [joined] that the scheduler has already ended. *)
Inductive phase : Type :=
| Serving (saving joined : bool)
| Joining (saving : bool)
| Draining (saving : bool)
| Closing
| FinalSave
| Finished.

Inductive happening : Type := Shutdown | NetworkingEnds | SchedulerEnds | DrainEnds | SaveEnds | Tick.

Inductive action : Type :=
| SaveBegin
| SaveEnd
| NetworkingDropped
| PrefetchCancelled
| StatisticsDrained
| FinalBegin
| FinalEnd.

(** A save ends or a tick begins one, in a phase where the loop still runs. *)
Definition on_save (h : happening) (saving : bool) : option (bool * list action) :=
  match h with
  | SaveEnds => if saving then Some (false, [SaveEnd]) else None
  | Tick => if saving then Some (true, []) else Some (true, [SaveBegin])
  | _ => None
  end.

Definition live (h : happening) (p : phase) : option (phase * list action) :=
  match p, h with
  | Serving saving joined, (Shutdown | NetworkingEnds) =>
      Some (if joined then Draining saving else Joining saving, [NetworkingDropped; PrefetchCancelled])
  | Serving saving false, SchedulerEnds => Some (Serving saving true, [])
  | Serving saving joined, _ =>
      match on_save h saving with Some (s, l) => Some (Serving s joined, l) | None => None end
  | Joining saving, SchedulerEnds => Some (Draining saving, [])
  | Joining saving, _ => match on_save h saving with Some (s, l) => Some (Joining s, l) | None => None end
  | Draining saving, DrainEnds =>
      if saving then Some (Closing, [StatisticsDrained]) else Some (FinalSave, [StatisticsDrained; FinalBegin])
  | Draining saving, _ => match on_save h saving with Some (s, l) => Some (Draining s, l) | None => None end
  | Closing, SaveEnds => Some (FinalSave, [SaveEnd; FinalBegin])
  | FinalSave, SaveEnds => Some (Finished, [FinalEnd])
  | _, _ => None
  end.

Fixpoint lifetime (hs : list happening) (p : phase) : option (phase * list action) :=
  match hs with
  | [] => Some (p, [])
  | h :: hs' =>
      match live h p with
      | None => None
      | Some (p', l) => match lifetime hs' p' with Some (p'', l') => Some (p'', l ++ l') | None => None end
      end
  end.

(** The worker and its scheduler may be missing from the start. *)
Definition born (joined : bool) : phase := Serving false joined.

(** Saves one after the other, the first possibly already active. *)
Definition saves (saving : bool) (l : list action) : Prop :=
  ∃ n, l = (if saving then [SaveEnd] else []) ++ concat (replicate n [SaveBegin; SaveEnd]).

Lemma on_save_saves h s s' l x : on_save h s = Some (s', l) → saves s' x → saves s (l ++ x).
Proof.
  intros Hs [n ->]. destruct h; simpl in Hs; try done; destruct s; try done; injection Hs as <- <-.
  - by exists n.
  - by exists n.
  - by exists (S n).
Qed.

(** What is still to come of a lifetime that finishes. *)
Definition ending (p : phase) (tr : list action) : Prop :=
  match p with
  | Serving s _ => ∃ a b c, tr = a ++ [NetworkingDropped; PrefetchCancelled] ++ b ++ [StatisticsDrained] ++ c ++ [FinalBegin; FinalEnd] ∧
      saves s (a ++ b ++ c)
  | Joining s | Draining s => ∃ b c, tr = b ++ [StatisticsDrained] ++ c ++ [FinalBegin; FinalEnd] ∧ saves s (b ++ c)
  | Closing => tr = [SaveEnd; FinalBegin; FinalEnd]
  | FinalSave => tr = [FinalEnd]
  | Finished => tr = []
  end.

Lemma live_ending h p p' l tr : live h p = Some (p', l) → ending p' tr → ending p (l ++ tr).
Proof.
  assert (Hsv : ∀ s s' l', on_save h s = Some (s', l') → ∀ x, saves s' x → saves s (l' ++ x)) by eauto using on_save_saves.
  destruct p as [s j|s|s| | |].
  - assert (Hon : ∀ j', match on_save h s with Some (s1, l1) => Some (Serving s1 j', l1) | None => None end = Some (p', l) →
      ending p' tr → ending (Serving s j) (l ++ tr)).
    { intros j'. destruct (on_save h s) as [[s1 l1]|] eqn:Ho; [|done]. intros [= <- <-] (a & b & c & -> & Hs).
      exists (l1 ++ a), b, c. split; [by rewrite <-app_assoc|]. rewrite <-app_assoc. by eapply Hsv. }
    destruct j, h; simpl; try exact (Hon _); intros [= <- <-]; try done;
      intros (b & c & -> & Hs); by exists [], b, c.
  - assert (Hon : match on_save h s with Some (s1, l1) => Some (Joining s1, l1) | None => None end = Some (p', l) →
      ending p' tr → ending (Joining s) (l ++ tr)).
    { destruct (on_save h s) as [[s1 l1]|] eqn:Ho; [|done]. intros [= <- <-] (b & c & -> & Hs).
      exists (l1 ++ b), c. split; [by rewrite <-app_assoc|]. rewrite <-app_assoc. by eapply Hsv. }
    destruct h; simpl; try exact Hon. intros [= <- <-]. exact id.
  - assert (Hon : match on_save h s with Some (s1, l1) => Some (Draining s1, l1) | None => None end = Some (p', l) →
      ending p' tr → ending (Draining s) (l ++ tr)).
    { destruct (on_save h s) as [[s1 l1]|] eqn:Ho; [|done]. intros [= <- <-] (b & c & -> & Hs).
      exists (l1 ++ b), c. split; [by rewrite <-app_assoc|]. rewrite <-app_assoc. by eapply Hsv. }
    destruct h; simpl; try exact Hon. destruct s; intros [= <- <-] Ht; simpl in Ht; subst tr.
    + exists [], [SaveEnd]. split; [done|by exists O].
    + exists [], []. split; [done|by exists O].
  - destruct h; simpl; try done. intros [= <- <-] Ht. simpl in Ht. by subst tr.
  - destruct h; simpl; try done. intros [= <- <-] Ht. simpl in Ht. by subst tr.
  - by destruct h.
Qed.

Lemma lifetime_ending hs p tr : lifetime hs p = Some (Finished, tr) → ending p tr.
Proof.
  revert p tr. induction hs as [|h hs IH]; intros p tr; simpl; [by intros [= -> <-]|].
  destruct (live h p) as [[p' l]|] eqn:Hl; [|done]. destruct (lifetime hs p') as [[p'' l']|] eqn:Hr; [|done].
  intros [= -> <-]. eapply live_ending; [done|]. by apply IH.
Qed.

(** How many more of its operations have to end once the server is stopping. *)
Definition pending (p : phase) : nat :=
  match p with
  | Serving s j => 4 + (if s then 1 else 0) + (if j then 0 else 1)
  | Joining s => 4 + (if s then 1 else 0)
  | Draining s => 3 + (if s then 1 else 0)
  | Closing => 2
  | FinalSave => 1
  | Finished => 0
  end.

(** saves of the cache never overlap, and a lifetime ends in one order:
    periodic saves throughout; networking is dropped and the prefetch
    cancelled; only then are the statistics drained; then the active save is
    waited for; and one last save, begun after all of that, ends it.  Every
    operation that ends brings the end closer, and there is always one to
    wait for, so that a server that is stopped finishes. *)
Theorem lifetime_ends_in_order joined hs tr :
  lifetime hs (born joined) = Some (Finished, tr) →
  (∃ a b c n, tr = a ++ [NetworkingDropped; PrefetchCancelled] ++ b ++ [StatisticsDrained] ++ c ++ [FinalBegin; FinalEnd] ∧
    a ++ b ++ c = concat (replicate n [SaveBegin; SaveEnd])) ∧
  (∀ p h p' l, live h p = Some (p', l) → h ≠ Tick → (pending p' < pending p)%nat) ∧
  ∀ p, p ≠ Finished → ∃ h p' l, h ≠ Tick ∧ live h p = Some (p', l).
Proof.
  intros (a & b & c & -> & n & Hn)%lifetime_ending. split; [by exists a, b, c, n|]. split.
  - intros p h p' l Hl Hh. destruct p as [[] []|[]|[]| | |], h; simpl in Hl; try done; injection Hl as <- <-; simpl; lia.
  - intros [s j|s|s| | |] Hp; try done.
    + destruct j; eexists Shutdown, _, _; by split.
    + eexists SchedulerEnds, _, _; by split.
    + destruct s; eexists DrainEnds, _, _; by split.
    + eexists SaveEnds, _, _; by split.
    + eexists SaveEnds, _, _; by split.
Qed.

(** ** Witnesses *)

Definition sample_life : list happening := [Tick; SaveEnds; Tick; Shutdown; SchedulerEnds; DrainEnds; SaveEnds; SaveEnds].

Lemma lifetime_ends_in_order_witness :
  ∃ a b c n, [SaveBegin; SaveEnd; SaveBegin; NetworkingDropped; PrefetchCancelled; StatisticsDrained; SaveEnd; FinalBegin; FinalEnd] =
    a ++ [NetworkingDropped; PrefetchCancelled] ++ b ++ [StatisticsDrained] ++ c ++ [FinalBegin; FinalEnd] ∧
    a ++ b ++ c = concat (replicate n [SaveBegin; SaveEnd]).
Proof. apply (lifetime_ends_in_order false sample_life). reflexivity. Defined.
End DnsLifecycle.
