(* ===== verification/DnsStats.v ===== *)
(** * The ledger of DNS questions

    [packages/dns-server/src/statistics/query_statistics_store.rs] and the
    counters of [query_statistics.rs]: questions are counted per name, type,
    class and second in a database, in a window of thirty days that ends at
    the highest second seen; names asked more than a hundred times are popular.
    The tables are maps by their primary keys, in key order; what a statement
    does is read off its text.  A fallible call is named, and an environment
    says whether it fails and with which text. *)

From S2P Require Import Prelude Order OrdMap Str Utf8 DnsPacket DnsCache DnsWire.
Import DnsPacket.
Open Scope Z_scope.

(** More of [hickory_proto], of [time] and of the database: normal forms of
    names, the seconds that are dates and their text, and the text of a refusal
    of a value. *)
Class StatsCrate `{FrontCrate} : Type := {
  name_to_ascii : Name → str;
  name_to_lowercase : Name → Name;
  is_timestamp : Z → bool;
  rfc3339 : Z → result str str;
  library_error : str;
}.

(** A fully qualified name has at least its final dot. *)
Class StatsLaws `{StatsCrate} : Prop := {
  ascii_not_empty : ∀ n, name_to_ascii (set_fqdn n) ≠ [];
}.

Module DnsStats.
Open Scope result_scope.

Definition i64_max : Z := 2 ^ 63 - 1.
Definition i64_min : Z := - 2 ^ 63.
Definition BATCH_CAPACITY : nat := 256.
Definition WINDOW_SECONDS : Z := 2592000.
Definition PAGE_SIZE : nat := 128.

Definition i64_saturating_sub (x y : Z) : Z := Z.max i64_min (x - y).
Definition conversion_error : str := lit "out of range integral type conversion attempted".
Definition to_u64 (x : Z) : result Z str := if x <? 0 then Err conversion_error else Ok x.
Definition to_i64 (x : Z) : result Z str := if i64_max <? x then Err conversion_error else Ok x.

(** ** Telemetry *)

(** The counters of [Health]; [stopping] and [admission] belong to the
    protocol between the producers and the worker. *)
Record Health : Type := mkHealth {
  accepted : Z;
  saved : Z;
  expired : Z;
  dropped : Z;
  unsaved : Z;
  stopping : bool;
  admission : Z;
  error : option str;
}.

Definition health_default : Health := mkHealth 0 0 0 0 0 false 0 None.

(** Saturating at the range of the database's counters. *)
Definition add (n amount : Z) : Z := Z.min (saturating_add u64_max n amount) i64_max.

Definition add_accepted k h :=
  mkHealth (add (accepted h) k) (saved h) (expired h) (dropped h) (unsaved h) (stopping h) (admission h) (error h).
Definition add_saved k h :=
  mkHealth (accepted h) (add (saved h) k) (expired h) (dropped h) (unsaved h) (stopping h) (admission h) (error h).
Definition add_expired k h :=
  mkHealth (accepted h) (saved h) (add (expired h) k) (dropped h) (unsaved h) (stopping h) (admission h) (error h).
Definition add_dropped k h :=
  mkHealth (accepted h) (saved h) (expired h) (add (dropped h) k) (unsaved h) (stopping h) (admission h) (error h).
Definition add_unsaved k h :=
  mkHealth (accepted h) (saved h) (expired h) (dropped h) (add (unsaved h) k) (stopping h) (admission h) (error h).
Definition record_error (e : str) h :=
  mkHealth (accepted h) (saved h) (expired h) (dropped h) (unsaved h) (stopping h) (admission h) (Some (take 1024 e)).

Record StatisticsStatus : Type := mkStatus {
  s_accepted : Z;
  s_saved : Z;
  s_expired : Z;
  s_dropped_full : Z;
  s_unsaved : Z;
  pending : Z;
  s_last_error : option str;
}.

Definition status (h : Health) : StatisticsStatus :=
  mkStatus (accepted h) (saved h) (expired h) (dropped h) (unsaved h)
    (saturating_sub (saturating_sub (saturating_sub (accepted h) (saved h)) (expired h)) (unsaved h))
    (error h).

(** ** The database *)

(** A question, and a question in a second. *)
Definition target : Type := (str * Z * Z)%type.
Definition key : Type := (target * Z)%type.
Definition key_domain (k : key) : str := k.1.1.1.
Definition key_second (k : key) : Z := k.2.

Record Meta : Type := mkMetaRow {
  schema_version : Z;
  m_highwater : Z;
  m_generation : Z;
  refreshed_at : Z;
  m_accepted : Z;
  m_saved : Z;
  m_dropped_full : Z;
  m_unsaved : Z;
  invalid_restored : Z;
  last_error : option str;
  m_expired : Z;
}.

Record Summary : Type := mkSummary { sum_count : Z; sum_refreshed_at : Z; last_seen : Z }.

Record Database : Type := mkDb {
  meta : Meta;
  query_seconds : bmap key Z;
  domain_summary : bmap str Summary;
  popular_targets : bmap (Z * target) Z;
}.

(** The open store: its database, the trusted end of the window, the leased
    generations, the latched fault, and the published file. *)
Record Store : Type := mkStore {
  db : Database;
  highwater : Z;
  generation : Z;
  leases : list Z;
  fault : option str;
  snapshot_file : option str;
}.

(** The fallible calls. *)
Inductive call : Type :=
| CreateDir | AcquireLock | OpenConnection | BusyTimeout | Pragmas | Schema
| Begin | Commit
| Statement (n : nat)
| Upsert (n : nat)
| Row (n : nat)
| TempCreate | TempWrite (n : nat) | TempRename | TempSync.

Definition env : Type := call → option str.
Definition attempt (e : env) (c : call) : result unit str :=
  match e c with
  | None => Ok tt
  | Some text => Err text
  end.

Section Store.
Context `{StatsCrate}.

(** ** Receipts *)

Record Event : Type := mkEvent {
  domain : str;
  rr_type : Z;
  class : Z;
  second : Z;
}.

Definition normalized_name (n : Name) : str := name_to_ascii (set_fqdn (name_to_lowercase n)).

Definition event_of (q : Query) (second : Z) : Event :=
  mkEvent (normalized_name (q_name q)) (query_type q) (query_class q) second.

(** A spelling that normalisation leaves alone. *)
Definition canonical (d : str) : bool :=
  match name_from_ascii d with
  | Some n => str_eqb (normalized_name n) d
  | None => false
  end.

Definition valid (e : Event) : bool :=
  (0 <=? second e) && is_timestamp (second e) && (str_len (domain e) <=? 1024) && canonical (domain e).

Definition event_target (e : Event) : target := (domain e, rr_type e, class e).
Definition event_key (e : Event) : key := (event_target e, second e).

(** ** Batches *)

Record BatchClasses : Type := mkClasses { c_saved : Z; c_expired : Z; c_invalid : Z }.

(** Only valid receipts move the end of the window. *)
Definition batch_highwater (h now : Z) (events : list Event) : Z :=
  fold_left (fun acc e => Z.max acc (second e)) (List.filter valid events) (Z.max h now).

Definition classify (cutoff : Z) (acc : BatchClasses * bmap key Z) (e : Event) : BatchClasses * bmap key Z :=
  let '(c, counts) := acc in
  if negb (valid e) then (mkClasses (c_saved c) (c_expired c) (c_invalid c + 1), counts)
  else if second e <=? cutoff then (mkClasses (c_saved c) (c_expired c + 1) (c_invalid c), counts)
  else (mkClasses (c_saved c + 1) (c_expired c) (c_invalid c), bm_upsert (event_key e) 0 (fun n => n + 1) counts).

(** [DELETE FROM query_seconds WHERE second<=cutoff OR second>highwater]. *)
Definition prune_rows (cutoff h : Z) (rows : bmap key Z) : bmap key Z :=
  List.filter (fun kv => negb ((key_second kv.1 <=? cutoff) || (h <? key_second kv.1))) rows.

(** [INSERT ... ON CONFLICT DO UPDATE SET count=count+excluded.count]; a sum
    that leaves the integers violates the type check of the column. *)
Fixpoint upsert_all (e : env) (n : nat) (counts : list (key * Z)) (rows : bmap key Z) : result (bmap key Z) str :=
  match counts with
  | [] => Ok rows
  | (k, c) :: counts' =>
      let? _ := attempt e (Upsert n) in
      let total := default 0 (bm_get k rows) + c in
      if i64_max <? total then Err library_error
      else upsert_all e (S n) counts' (bm_insert k total rows)
  end.

(** Existing losses are part of what was accepted and not saved. *)
Definition restore_totals (a s x u : Z) : result (Z * Z) str :=
  let? completed := ok_or
    match checked_add u64_max s x with
    | Some n =>
        match checked_add u64_max n u with
        | Some n => if n <=? i64_max then Some n else None
        | None => None
        end
    | None => None
    end (lit "statistics restored telemetry exceeds signed counter range") in
  let a := Z.max a completed in
  Ok (a, a - s - x).

Definition save_batch (e : env) (events : list Event) (now : Z) (h : Health) (s : Store) :
  result (BatchClasses * Store) str :=
  if (BATCH_CAPACITY <? length events)%nat then Err (lit "statistics batch exceeds capacity")
  else
    let hw := batch_highwater (highwater s) now events in
    let cutoff := i64_saturating_sub hw WINDOW_SECONDS in
    let '(classes, counts) := fold_left (classify cutoff) events (mkClasses 0 0 0, []) in
    let m := meta (db s) in
    let? _ := attempt e Begin in
    let? _ := attempt e (Statement 0) in
    let? rows := upsert_all e 0 counts (prune_rows cutoff hw (query_seconds (db s))) in
    let st := status h in
    let? _ := attempt e (Statement 1) in
    let? msaved := to_u64 (m_saved m) in
    let? new_saved := ok_or (checked_add u64_max msaved (c_saved classes)) (lit "saved counter overflow") in
    let? mexpired := to_u64 (m_expired m) in
    let? new_expired := ok_or (checked_add u64_max mexpired (c_expired classes)) (lit "expired counter overflow") in
    let? new_unsaved :=
      ok_or (checked_add u64_max (s_unsaved st) (c_invalid classes)) (lit "unsaved counter overflow") in
    let? (new_accepted, _) := restore_totals (s_accepted st) new_saved new_expired new_unsaved in
    let? p2 := to_i64 new_saved in
    let? p3 := to_i64 new_expired in
    let? p4 := to_i64 new_accepted in
    let? p5 := to_i64 (s_dropped_full st) in
    let? p6 := to_i64 new_unsaved in
    let? p7 := to_i64 (c_invalid classes) in
    let? _ := attempt e (Statement 2) in
    let m' := mkMetaRow (schema_version m) hw (m_generation m) (refreshed_at m) p4 p2 p5 p6 (invalid_restored m)
      (if 0 <? p7 then Some (lit "discarded invalid live statistics receipts") else last_error m) p3 in
    let? _ := attempt e Commit in
    Ok (classes,
        mkStore (mkDb m' rows (domain_summary (db s)) (popular_targets (db s)))
          hw (generation s) (leases s) (fault s) (snapshot_file s)).

Definition set_fault (text : str) (s : Store) : Store :=
  mkStore (db s) (highwater s) (generation s) (leases s) (Some (take 1024 text)) (snapshot_file s).

(** A failure is latched: later receipts are counted as lost. *)
Definition batch (e : env) (events : list Event) (now : Z) (h : Health) (s : Store) :
  Health * Store * result unit str :=
  match events with
  | [] => (h, s, Ok tt)
  | _ =>
      let amount := Z.of_nat (length events) in
      match fault s with
      | Some text => (add_unsaved amount h, s, Err text)
      | None =>
          match save_batch e events now h s with
          | Ok (classes, s') =>
              let h := add_unsaved (c_invalid classes) (add_expired (c_expired classes) (add_saved (c_saved classes) h)) in
              (if c_invalid classes =? 0 then h
               else record_error (lit "discarded invalid live statistics receipts") h, s', Ok tt)
          | Err text => (add_unsaved amount h, set_fault text s, Err text)
          end
      end
  end.

(** ** Refreshing *)

Definition set_db d s := mkStore d (highwater s) (generation s) (leases s) (fault s) (snapshot_file s).
Definition set_highwater_meta hw m :=
  mkMetaRow (schema_version m) hw (m_generation m) (refreshed_at m) (m_accepted m) (m_saved m)
    (m_dropped_full m) (m_unsaved m) (invalid_restored m) (last_error m) (m_expired m).

Definition advance (e : env) (now : Z) (s : Store) : result Store str :=
  let hw := Z.max (highwater s) now in
  let? _ := attempt e Begin in
  let? _ := attempt e (Statement 10) in
  let? _ := attempt e (Statement 11) in
  let? _ := attempt e Commit in
  let d := db s in
  Ok (mkStore (mkDb (set_highwater_meta hw (meta d))
                 (prune_rows (i64_saturating_sub hw WINDOW_SECONDS) hw (query_seconds d))
                 (domain_summary d) (popular_targets d))
        hw (generation s) (leases s) (fault s) (snapshot_file s)).

(** [DELETE FROM popular_targets WHERE generation=g]. *)
Definition drop_generation (g : Z) (d : Database) : Database :=
  mkDb (meta d) (query_seconds d) (domain_summary d)
    (List.filter (fun kv => negb (kv.1.1 =? g)) (popular_targets d)).

(** The generations nobody holds any more are deleted, one statement each;
    [live] tells whose lease can still be upgraded. *)
Fixpoint prune_leases (e : env) (n : nat) (live : Z → bool) (ls : list Z) (d : Database) :
  Database * result (list Z) str :=
  match ls with
  | [] => (d, Ok [])
  | g :: ls' =>
      if live g then
        let '(d', r) := prune_leases e (S n) live ls' d in
        (d', let? retained := r in Ok (g :: retained))
      else
        match attempt e (Row n) with
        | Err text => (d, Err text)
        | Ok _ => prune_leases e (S n) live ls' (drop_generation g d)
        end
  end.

Definition prune_generations (e : env) (live : Z → bool) (s : Store) : Store * result unit str :=
  let '(d, r) := prune_leases e 0 live (leases s) (db s) in
  match r with
  | Ok retained => (mkStore d (highwater s) (generation s) retained (fault s) (snapshot_file s), Ok tt)
  | Err text => (set_db d s, Err text)
  end.

(** [SELECT domain,SUM(count),now,MAX(second) ... GROUP BY domain]. *)
Definition summarize (hw : Z) (rows : bmap key Z) : bmap str Summary :=
  fold_left (fun m kv => bm_upsert (key_domain kv.1) (mkSummary 0 hw i64_min)
      (fun v => mkSummary (sum_count v + kv.2) hw (Z.max (last_seen v) (key_second kv.1))) m) rows [].

Definition is_popular (summary : bmap str Summary) (d : str) : bool :=
  match bm_get d summary with
  | Some v => 100 <? sum_count v
  | None => false
  end.

(** The popular questions, [GROUP BY domain,rr_type,class], in a generation. *)
Definition group_targets (rows : list (key * Z)) : bmap target Z :=
  fold_left (fun m kv => bm_upsert kv.1.1 0 (fun n => n + kv.2) m) rows [].
Definition select_popular (g : Z) (summary : bmap str Summary) (rows : bmap key Z) : list (Z * target * Z) :=
  map (fun tc => ((g, tc.1), tc.2))
    (group_targets (List.filter (fun kv => is_popular summary (key_domain kv.1)) rows)).

(** [SUM] refuses to leave the integers. *)
Definition sums_fit (l : list Z) : result unit str :=
  if forallb (fun n => n <=? i64_max) l then Ok tt else Err library_error.

Definition completed_floor (m : Meta) (st : StatisticsStatus) : result Z str :=
  let? s := to_u64 (m_saved m) in
  let? x := to_u64 (m_expired m) in
  let? (a, _) := restore_totals (s_accepted st) s x (s_unsaved st) in
  Ok a.

(** The transaction of a refresh. *)
Definition refresh_tables (e : env) (g : Z) (h : Health) (final : bool) (s : Store) : result Database str :=
  let d := db s in
  let? _ := attempt e Begin in
  let? _ := attempt e (Statement 20) in
  let? _ := attempt e (Statement 21) in
  let summary := summarize (highwater s) (query_seconds d) in
  let? _ := sums_fit (map sum_count (bm_values summary)) in
  let? popular :=
    if final then Ok (popular_targets d)
    else
      let? _ := attempt e (Statement 22) in
      let rows := select_popular g summary (query_seconds d) in
      let? _ := sums_fit (map snd rows) in
      Ok (fold_left (fun m kv => bm_insert kv.1 kv.2 m) rows (popular_targets d)) in
  let st := status h in
  let? _ := attempt e (Statement 23) in
  let? a := completed_floor (meta d) st in
  let? p3 := to_i64 a in
  let? p4 := to_i64 (s_dropped_full st) in
  let? p5 := to_i64 (s_unsaved st) in
  let? _ := attempt e (Statement 24) in
  let? _ := attempt e Commit in
  let m := meta d in
  Ok (mkDb (mkMetaRow (schema_version m) (m_highwater m) g (highwater s) p3 (m_saved m) p4 p5
              (invalid_restored m) (s_last_error st) (m_expired m))
        (query_seconds d) summary popular).

(** *** The published file *)

Definition header_line : str := lit "domain" ++ [9] ++ lit "count" ++ [9] ++ lit "refreshed_at" ++ [10].
Definition snapshot_line (dv : str * Summary) (stamp : str) : str :=
  dv.1 ++ [9] ++ to_dec (sum_count dv.2) ++ [9] ++ stamp ++ [10].

Fixpoint write_rows (e : env) (n : nat) (rows : list (str * Summary)) (text : str) : result str str :=
  match rows with
  | [] => let? _ := attempt e (Row n) in Ok text
  | r :: rows' =>
      let? _ := attempt e (Row n) in
      let? stamp := rfc3339 (sum_refreshed_at r.2) in
      let? _ := attempt e (TempWrite (S n)) in
      write_rows e (S n) rows' (text ++ snapshot_line r stamp)
  end.

(** The file is replaced by the rename; a failed sync may follow it. *)
Definition publish (e : env) (s : Store) : option str * result unit str :=
  let text :=
    let? _ := to_u64 (generation s) in
    let? _ := attempt e TempCreate in
    let? _ := attempt e (TempWrite 0) in
    let? _ := attempt e (Statement 30) in
    let? _ := attempt e (Statement 31) in
    write_rows e 0 (List.filter (fun dv => 100 <? sum_count dv.2) (domain_summary (db s))) header_line in
  match (let? t := text in let? _ := attempt e TempRename in Ok t) with
  | Err err => (snapshot_file s, Err err)
  | Ok t => (Some t, attempt e TempSync)
  end.

(** [Some g] is the snapshot of generation [g] with a fresh lease;
    [owner_alive] says whether a sender is left to put into it. *)
Definition refresh (e : env) (now : Z) (live : Z → bool) (owner_alive : bool) (h : Health) (final : bool)
  (s : Store) : Store * result (option Z) str :=
  match fault s with
  | Some text => (s, Err text)
  | None =>
      let '(s, pruned) := prune_generations e live s in
      match pruned with
      | Err text => (s, Err text)
      | Ok _ =>
          if negb final && (2 <=? length (leases s))%nat then
            (s, Err (lit "two statistics generations still leased; release old snapshot before refresh"))
          else
            match advance e now s with
            | Err text => (s, Err text)
            | Ok s =>
                match checked_add i64_max (generation s) 1 with
                | None => (s, Err (lit "generation exhausted"))
                | Some g =>
                    match refresh_tables e g h final s with
                    | Err text => (s, Err text)
                    | Ok d =>
                        let s := mkStore d (highwater s) g (leases s) (fault s) (snapshot_file s) in
                        let '(file, published) := publish e s in
                        let s := mkStore d (highwater s) g (leases s) (fault s) file in
                        match published with
                        | Err text =>
                            match attempt e (Statement 40) with
                            | Ok _ => (set_db (drop_generation g d) s, Err text)
                            | Err text' => (s, Err text')
                            end
                        | Ok _ =>
                            if final then (s, Ok None)
                            else if owner_alive then
                              (mkStore d (highwater s) g (leases s ++ [g]) (fault s) file, Ok (Some g))
                            else (s, Err (lit "statistics owner closed"))
                        end
                    end
                end
            end
      end
  end.

(** ** Paging *)

Record PopularTarget : Type := mkTarget { question : Query; count : Z }.

Definition cursor (t : PopularTarget) : target :=
  (normalized_name (q_name (question t)), query_type (question t), query_class (question t)).

Definition after_cursor (c t : target) : bool :=
  match cmp c t with Lt => true | _ => false end.

Fixpoint read_targets (e : env) (n : nat) (rows : list (Z * target * Z)) : result (list PopularTarget) str :=
  match rows with
  | [] => let? _ := attempt e (Row n) in Ok []
  | ((_, (d, t, c)), k) :: rows' =>
      let? _ := attempt e (Row n) in
      let? name := ok_or (name_from_ascii d) library_error in
      let? k := to_u64 k in
      let? rest := read_targets e (S n) rows' in
      Ok (mkTarget (mkQuery name t c) k :: rest)
  end.

Definition page (e : env) (g : Z) (after : option target) (s : Store) : result (list PopularTarget) str :=
  let c := default ([], 0, 0) after in
  let? _ := attempt e (Statement 50) in
  let? _ := attempt e (Statement 51) in
  read_targets e 0
    (take PAGE_SIZE (List.filter (fun kv => (kv.1.1 =? g) && after_cursor c kv.1.2) (popular_targets (db s)))).

Definition persist_health (e : env) (h : Health) (s : Store) : result Store str :=
  let st := status h in
  let m := meta (db s) in
  let? _ := attempt e (Statement 60) in
  let? a := completed_floor m st in
  let? p1 := to_i64 a in
  let? p2 := to_i64 (s_dropped_full st) in
  let? p3 := to_i64 (s_unsaved st) in
  let? _ := attempt e (Statement 61) in
  Ok (set_db (mkDb (mkMetaRow (schema_version m) (m_highwater m) (m_generation m) (refreshed_at m) p1 (m_saved m)
                      p2 p3 (invalid_restored m) (s_last_error st) (m_expired m))
                (query_seconds (db s)) (domain_summary (db s)) (popular_targets (db s))) s).
(** ** Opening *)

(** A stored value may have any type, whatever its column declares. *)
Inductive value : Type := Null | Int (z : Z) | Real | Text (s : str) | Blob.

Record raw_row : Type := mkRaw {
  rowid : Z;
  raw_domain : value;
  raw_type : value;
  raw_class : value;
  raw_second : value;
  raw_count : value;
}.

(** What is found on disk; older layouts lack two of the columns. *)
Record disk : Type := mkDisk {
  disk_meta : option Meta;
  has_expired : bool;
  has_last_seen : bool;
  raw_rows : list raw_row;
  disk_summary : bmap str Summary;
  disk_popular : bmap (Z * target) Z;
  disk_file : option str;
}.

Definition initial_meta : Meta := mkMetaRow 1 0 0 0 0 0 0 0 0 None 0.

Definition set_meta m d :=
  mkDisk (Some m) (has_expired d) (has_last_seen d) (raw_rows d) (disk_summary d) (disk_popular d) (disk_file d).
Definition set_rows rows d :=
  mkDisk (disk_meta d) (has_expired d) (has_last_seen d) rows (disk_summary d) (disk_popular d) (disk_file d).
Definition set_last_error text m :=
  mkMetaRow (schema_version m) (m_highwater m) (m_generation m) (refreshed_at m) (m_accepted m) (m_saved m)
    (m_dropped_full m) (m_unsaved m) (invalid_restored m) (Some text) (m_expired m).

Definition bad_meta (m : Meta) : bool :=
  negb ((schema_version m =? 1) || (schema_version m =? 2)) || (m_highwater m <? 0) || (m_generation m <? 0) ||
  (refreshed_at m <? 0) || (m_highwater m <? refreshed_at m) || negb (is_timestamp (m_highwater m)).

Definition future_highwater : str :=
  lit "persisted statistics highwater is in the future; restore refused until UTC catches up".

(** The first schema has no column for expired receipts. *)
Definition migrate (e : env) (m : Meta) (d : disk) : result (Meta * disk) str :=
  if schema_version m =? 1 then
    let? _ := attempt e Begin in
    let? _ := attempt e (Statement 3) in
    let? _ := if has_expired d then Err library_error else Ok tt in
    let? _ := attempt e Commit in
    let m := mkMetaRow 2 (m_highwater m) (m_generation m) (refreshed_at m) (m_accepted m) (m_saved m)
      (m_dropped_full m) (m_unsaved m) (invalid_restored m) (last_error m) 0 in
    Ok (m, mkDisk (Some m) true (has_last_seen d) (raw_rows d) (disk_summary d) (disk_popular d) (disk_file d))
  else Ok (m, d).

Definition restored_health (e : env) (expired_column : bool) (m : Meta) : result Health str :=
  let? _ := attempt e (Statement 4) in
  let? _ := if expired_column then Ok tt else Err library_error in
  let? a := to_u64 (m_accepted m) in
  let? s := to_u64 (m_saved m) in
  let? dr := to_u64 (m_dropped_full m) in
  let? u := to_u64 (m_unsaved m) in
  let? x := to_u64 (m_expired m) in
  let? (a, u) := restore_totals a s x u in
  Ok (mkHealth a s x dr u false 0 (option_map (take 1024) (last_error m))).

(** What the first [DELETE] of a restore removes. *)
Definition unusable (cutoff upper : Z) (r : raw_row) : bool :=
  match raw_domain r, raw_type r, raw_class r, raw_second r, raw_count r with
  | Text d, Int t, Int c, Int s, Int n =>
      (1024 <? str_len d) || (s <=? cutoff) || (upper <? s) ||
      negb ((0 <=? t) && (t <=? 65535)) || negb ((0 <=? c) && (c <=? 65535)) || (n <=? 0)
  | _, _, _, _, _ => true
  end.

Definition row_domain (r : raw_row) : str := match raw_domain r with Text d => d | _ => [] end.

Definition next_rows (after : option Z) (rows : list raw_row) : list raw_row :=
  take 128 (List.filter (fun r => match after with None => true | Some a => a <? rowid r end) rows).

(** The rows of a page whose name is not in normal form are deleted. *)
Fixpoint check_rows (e : env) (page rows : list raw_row) (invalid : Z) : result (list raw_row * Z) str :=
  match page with
  | [] => Ok (rows, invalid)
  | r :: page' =>
      if canonical (row_domain r) then check_rows e page' rows invalid
      else
        let? _ := attempt e (Upsert (Z.to_nat (rowid r))) in
        let? n := ok_or (checked_add i64_max invalid 1) (lit "invalid count overflow") in
        check_rows e page' (List.filter (fun x => negb (rowid x =? rowid r)) rows) n
  end.

(** Pages of 128 rows in the order of their ids, until one is empty. *)
Fixpoint scan_rows (fuel : nat) (e : env) (after : option Z) (rows : list raw_row) (invalid : Z) :
  option (result (list raw_row * Z) str) :=
  match fuel with
  | O => None
  | S fuel' =>
      match attempt e (Row fuel') with
      | Err text => Some (Err text)
      | Ok _ =>
          let page := next_rows after rows in
          match List.last (map (@Some raw_row) page) None with
          | None => Some (Ok (rows, invalid))
          | Some r =>
              match check_rows e page rows invalid with
              | Err text => Some (Err text)
              | Ok (rows', n) => scan_rows fuel' e (Some (rowid r)) rows' n
              end
          end
      end
  end.

(** Every page but the last has a row, so one more than the rows is enough. *)
Definition validate_restore (e : env) (hw now : Z) (m : Meta) (rows : list raw_row) :
  result (list raw_row * Meta) str :=
  let cutoff := i64_saturating_sub hw WINDOW_SECONDS in
  let upper := Z.min hw now in
  let? _ := attempt e Begin in
  let? _ := attempt e (Statement 7) in
  let removed := List.filter (unusable cutoff upper) rows in
  let rows := List.filter (fun r => negb (unusable cutoff upper r)) rows in
  let? (rows, invalid) :=
    default (Ok (rows, 0)) (scan_rows (S (length rows)) e None rows (Z.of_nat (length removed))) in
  let? _ := attempt e (Statement 8) in
  let? _ := if i64_max <? invalid_restored m + invalid then Err library_error else Ok tt in
  let? _ := attempt e Commit in
  Ok (rows, mkMetaRow (schema_version m) (m_highwater m) (m_generation m) (refreshed_at m) (m_accepted m) (m_saved m)
    (m_dropped_full m) (m_unsaved m) (invalid_restored m + invalid)
    (if 0 <? invalid then Some (lit "discarded invalid/expired restored rows") else last_error m) (m_expired m)).

(** The ledger that the remaining rows are. *)
Definition typed_row (r : raw_row) : option (key * Z) :=
  match raw_domain r, raw_type r, raw_class r, raw_second r, raw_count r with
  | Text d, Int t, Int c, Int s, Int n => Some ((d, t, c, s), n)
  | _, _, _, _, _ => None
  end.

Definition ledger_of (rows : list raw_row) : bmap key Z :=
  fold_left (fun m kv => bm_insert kv.1 kv.2 m) (omap typed_row rows) [].

#[local] Notation "'or' d 'let?' x ':=' e 'in' k" :=
  match e with Ok x => k | Err text => (d, Err text) end
  (at level 10, d at level 9, x pattern, e at level 100, k at level 200).

(** The files and the schema, then the checks, the migrations, and the
    restored rows; a refusal leaves the disk as the statements before it did. *)
Definition open_files (e : env) : result unit str :=
  let? _ := attempt e CreateDir in
  let? _ := attempt e AcquireLock in
  let? _ := attempt e OpenConnection in
  let? _ := attempt e BusyTimeout in
  let? _ := attempt e Pragmas in
  attempt e Schema.

Definition restore (e : env) (now : Z) (m : Meta) (d : disk) : disk * result Store str :=
  or d let? _ := attempt e (Statement 5) in
  if invalid_restored m <? 0 then (d, Err (lit "negative restored invalid-row count")) else
  or d let? _ := attempt e (Statement 6) in
  or d let? _ := if has_last_seen d then Ok tt else attempt e (Statement 9) in
  let d := if has_last_seen d then d
           else mkDisk (disk_meta d) (has_expired d) true (raw_rows d) [] (disk_popular d) (disk_file d) in
  let hw := Z.max (m_highwater m) now in
  or d let? _ := attempt e (Statement 12) in
  let d := mkDisk (disk_meta d) (has_expired d) (has_last_seen d) (raw_rows d) (disk_summary d) [] (disk_file d) in
  or d let? (rows, m) := validate_restore e hw now m (raw_rows d) in
  let d := set_meta m (set_rows rows d) in
  let s := mkStore (mkDb m (ledger_of rows) (disk_summary d) []) hw (m_generation m) [] None (disk_file d) in
  or d let? s := advance (fun c => e (match c with Begin => Statement 13 | Commit => Statement 14 | c => c end)) now s in
  (d, Ok s).

Definition open (e : env) (now : Z) (d : disk) : disk * result Store str :=
  or d let? _ := open_files e in
  let m := default initial_meta (disk_meta d) in
  let d := set_meta m d in
  or d let? _ := attempt e (Statement 0) in
  if bad_meta m then (d, Err (lit "invalid statistics schema/highwater/generation; refusing restore")) else
  if now <? m_highwater m then
    or d let? _ := attempt e (Statement 1) in
    (set_meta (set_last_error future_highwater m) d, Err future_highwater)
  else
  or d let? (m, d) := migrate e m d in
  or d let? _ := restored_health e (has_expired d) m in
  restore e now m d.

(** ** The window *)

Definition in_window (hw : Z) (k : key) : bool := (hw - WINDOW_SECONDS <? key_second k) && (key_second k <=? hw).

(** How often a question was received in a second, by receipts that are valid. *)
Definition received (k : key) (e : Event) : Prop := valid e = true ∧ event_key e = k.
#[local] Instance received_dec k e : Decision (received k e).
Proof. unfold received. apply _. Defined.
Definition occurrences (k : key) (events : list Event) : Z := Z.of_nat (length (filter (received k) events)).

(** [s] holds, of everything in [base] and received in [history], exactly what
    lies in the window that ends at its highwater. *)
Record tracks (base : bmap key Z) (history : list Event) (s : Store) : Prop := {
  tracks_wf : bm_wf (query_seconds (db s));
  tracks_highwater : 0 ≤ highwater s;
  tracks_meta : m_highwater (meta (db s)) = highwater s;
  tracks_base : ∀ k n, bm_get k base = Some n → 0 < n ∧ key_second k ≤ highwater s;
  tracks_history : ∀ e, e ∈ history → valid e = true → second e ≤ highwater s;
  tracks_get : ∀ k, bm_get k (query_seconds (db s)) =
    let n := default 0 (bm_get k base) + occurrences k history in
    if in_window (highwater s) k && (0 <? n) then Some n else None;
}.

Lemma occurrences_app k a b : occurrences k (a ++ b) = occurrences k a + occurrences k b.
Proof. unfold occurrences. rewrite filter_app, length_app. lia. Qed.

Lemma occurrences_nonneg k l : 0 ≤ occurrences k l.
Proof. unfold occurrences. lia. Qed.

Lemma occurrences_pos k l : 0 < occurrences k l → ∃ e, e ∈ l ∧ received k e.
Proof.
  unfold occurrences. destruct (filter (received k) l) as [|e l'] eqn:Hf; simpl; [lia|]. intros _. exists e.
  assert (He : e ∈ filter (received k) l) by (rewrite Hf; by left). apply list_elem_of_filter in He as [? ?]. auto.
Qed.

Lemma cutoff_exact hw : 0 ≤ hw → i64_saturating_sub hw WINDOW_SECONDS = hw - WINDOW_SECONDS.
Proof. unfold i64_saturating_sub, i64_min, WINDOW_SECONDS. lia. Qed.

Lemma prune_rows_get hw rows k :
  0 ≤ hw → bm_get k (prune_rows (i64_saturating_sub hw WINDOW_SECONDS) hw rows) =
  if in_window hw k then bm_get k rows else None.
Proof.
  intros Hhw. unfold prune_rows, in_window. rewrite cutoff_exact by done.
  rewrite (bm_get_filter (fun k => negb ((key_second k <=? hw - WINDOW_SECONDS) || (hw <? key_second k)))).
  by rewrite negb_orb, <-Z.ltb_antisym, <-Z.leb_antisym.
Qed.

(** *** Classification *)

Definition kept (cutoff : Z) (e : Event) : Prop := valid e = true ∧ cutoff < second e.
#[local] Instance kept_dec c e : Decision (kept c e).
Proof. unfold kept. apply _. Defined.

Lemma batch_highwater_spec h now events :
  Z.max h now ≤ batch_highwater h now events ∧
  (∀ e, e ∈ events → valid e = true → second e ≤ batch_highwater h now events).
Proof.
  unfold batch_highwater. generalize (Z.max h now). intros z. clear h now. revert z.
  induction events as [|e l IH]; intros z; simpl; [split; [lia|intros e He; by apply elem_of_nil in He]|].
  destruct (valid e) eqn:Hv; simpl.
  - destruct (IH (Z.max z (second e))) as [Hz Hl]. split; [lia|]. intros e' [->|He']%elem_of_cons Hv'; [lia|auto].
  - destruct (IH z) as [Hz Hl]. split; [done|]. intros e' [->|He']%elem_of_cons Hv'; [congruence|auto].
Qed.

(** The classes add up to the batch, and the counts are those of the receipts
    that are kept. *)
Lemma classify_spec cutoff events c m :
  let '(c', m') := fold_left (classify cutoff) events (c, m) in
  m' = fold_left (group_step event_key (fun _ => 0) (fun _ n => n + 1)) (filter (kept cutoff) events) m ∧
  c_saved c ≤ c_saved c' ∧ c_expired c ≤ c_expired c' ∧ c_invalid c ≤ c_invalid c' ∧
  c_saved c' + c_expired c' + c_invalid c' =
    c_saved c + c_expired c + c_invalid c + Z.of_nat (length events).
Proof.
  revert c m. induction events as [|e l IH]; intros c m; [simpl; split_and!; (done || lia)|].
  cbn [fold_left]. rewrite filter_cons. unfold classify at 2. destruct (valid e) eqn:Hv; cbn [negb].
  - destruct (Z.leb_spec (second e) cutoff).
    + rewrite decide_False by (intros [_ ?]; lia).
      specialize (IH (mkClasses (c_saved c) (c_expired c + 1) (c_invalid c)) m).
      destruct (fold_left _ _ _) as [c' m']. simpl in *. destruct IH as (-> & ? & ? & ? & ?).
      split_and!; (done || lia).
    + rewrite decide_True by (split; [done|lia]). cbn [fold_left].
      specialize (IH (mkClasses (c_saved c + 1) (c_expired c) (c_invalid c))
                    (bm_upsert (event_key e) 0 (fun n => n + 1) m)).
      destruct (fold_left _ _ _) as [c' m']. simpl in *. destruct IH as (-> & ? & ? & ? & ?).
      split_and!; (done || lia).
  - rewrite decide_False by (intros [? _]; congruence).
    specialize (IH (mkClasses (c_saved c) (c_expired c) (c_invalid c + 1)) m).
    destruct (fold_left _ _ _) as [c' m']. simpl in *. destruct IH as (-> & ? & ? & ? & ?).
    split_and!; (done || lia).
Qed.

Lemma count_fold {A} (l : list A) (z : Z) :
  fold_left (fun v _ => v + 1) l z = z + Z.of_nat (length l).
Proof. revert z. induction l as [|x l IH]; intros z; simpl; [lia|]. rewrite IH. lia. Qed.

(** The count of a question in a batch. *)
Lemma counts_get cutoff events k :
  bm_get k (fold_left (group_step event_key (fun _ => 0) (fun _ n => n + 1)) (filter (kept cutoff) events) []) =
  if (cutoff <? key_second k) && (0 <? occurrences k events) then Some (occurrences k events) else None.
Proof.
  rewrite group_get. unfold group_value. cbn [bm_get].
  assert (Hf : filter (fun e => event_key e = k) (filter (kept cutoff) events) =
    if cutoff <? key_second k then filter (received k) events else []).
  { rewrite list_filter_filter. destruct (Z.ltb_spec cutoff (key_second k)) as [Hk|Hk].
    - apply list_filter_iff. intros e. unfold kept, received. split; [naive_solver|].
      intros [? <-]. split_and!; done.
    - induction events as [|e l IH]; [done|]. rewrite filter_cons, decide_False; [done|].
      unfold kept. intros [<- [_ ?]]. unfold key_second in Hk. simpl in Hk. lia. }
  rewrite Hf. unfold occurrences. destruct (cutoff <? key_second k); [|done]. simpl.
  destruct (filter (received k) events) as [|e l]; [done|].
  cbn [fold_left]. rewrite count_fold. cbn [length]. destruct (Z.ltb_spec 0 (Z.of_nat (S (length l)))); [|lia].
  simpl. f_equal. lia.
Qed.

(** *** Batches keep the window *)

Lemma upsert_all_spec e counts n rows rows' :
  bm_wf counts → bm_wf rows → upsert_all e n counts rows = Ok rows' →
  bm_wf rows' ∧ ∀ k, bm_get k rows' =
    match bm_get k counts with
    | Some c => Some (default 0 (bm_get k rows) + c)
    | None => bm_get k rows
    end.
Proof.
  revert n rows. induction counts as [|[k0 c] counts IH]; intros n rows Hc Hr; [by intros [= <-]|].
  cbn [upsert_all]. intros Hu. unbind Hu. destruct (i64_max <? _); [done|].
  apply IH in Hu as [Hw Hg]; [|by apply StronglySorted_inv in Hc as [? _]|by apply bm_insert_wf].
  split; [done|]. intros k. rewrite Hg, bm_get_insert, bm_get_cons. case_decide as Hk; [subst|done].
  by rewrite (bm_get_head_None k0 c counts).
Qed.

Lemma to_i64_Ok x y : to_i64 x = Ok y → y = x ∧ x ≤ i64_max.
Proof. unfold to_i64. destruct (Z.ltb_spec i64_max x); [done|]. by intros [= <-]. Qed.
Lemma to_u64_Ok x y : to_u64 x = Ok y → y = x ∧ 0 ≤ x.
Proof. unfold to_u64. destruct (Z.ltb_spec x 0); [done|]. by intros [= <-]. Qed.
Lemma checked_add_Ok {E} mx x y (e : E) z : ok_or (checked_add mx x y) e = Ok z → z = x + y ∧ x + y ≤ mx.
Proof. unfold checked_add. destruct (Z.leb_spec (x + y) mx); [|done]. by intros [= <-]. Qed.

(** Totals that do not fit are refused. *)
Lemma restore_totals_Ok a s x u r :
  restore_totals a s x u = Ok r →
  r = (Z.max a (s + x + u), Z.max a (s + x + u) - s - x) ∧ s + x + u ≤ i64_max.
Proof.
  unfold restore_totals, checked_add. intros Hr. unbind Hr.
  destruct (Z.leb_spec (s + x) u64_max); [|done]. destruct (Z.leb_spec (s + x + u) u64_max); [|done].
  destruct (Z.leb_spec (s + x + u) i64_max); [|done]. injection Ha as <-. by injection Hr as <-.
Qed.

Lemma save_batch_spec e events now h s classes s' :
  save_batch e events now h s = Ok (classes, s') →
  let hw := batch_highwater (highwater s) now events in
  let cutoff := i64_saturating_sub hw WINDOW_SECONDS in
  let rows := query_seconds (db s) in
  let counts := fold_left (group_step event_key (fun _ => 0) (fun _ n => n + 1)) (filter (kept cutoff) events) [] in
  (∃ m : BatchClasses, classes = m ∧ 0 ≤ c_saved m ∧ 0 ≤ c_expired m ∧ 0 ≤ c_invalid m ∧
     c_saved m + c_expired m + c_invalid m = Z.of_nat (length events)) ∧
  (∃ n, upsert_all e n counts (prune_rows cutoff hw rows) = Ok (query_seconds (db s'))) ∧
  highwater s' = hw ∧ m_highwater (meta (db s')) = hw ∧
  m_saved (meta (db s')) = m_saved (meta (db s)) + c_saved classes ∧
  m_expired (meta (db s')) = m_expired (meta (db s)) + c_expired classes ∧
  m_unsaved (meta (db s')) = unsaved h + c_invalid classes ∧
  (generation s' = generation s ∧ leases s' = leases s ∧ fault s' = fault s ∧
   popular_targets (db s') = popular_targets (db s) ∧ domain_summary (db s') = domain_summary (db s)).
Proof.
  unfold save_batch. destruct (_ <? _)%nat; [done|].
  pose proof (classify_spec (i64_saturating_sub (batch_highwater (highwater s) now events) WINDOW_SECONDS) events
    (mkClasses 0 0 0) []) as Hc.
  destruct (fold_left (classify _) events _) as [c m]. destruct Hc as (-> & Hs & Hx & Hi & Hsum). simpl in *.
  intros Hr. unbind Hr. destruct a8 as [ac u]. unbind Hr. injection Hr as <- <-. simpl.
  repeat match goal with
  | Hq : to_u64 _ = Ok _ |- _ => apply to_u64_Ok in Hq as [-> ?]
  | Hq : to_i64 _ = Ok _ |- _ => apply to_i64_Ok in Hq as [-> ?]
  | Hq : ok_or _ _ = Ok _ |- _ => apply checked_add_Ok in Hq as [-> ?]
  end.
  split_and!; try done; [exists c; split_and!; (done || lia)|eauto].
Qed.

(** Nothing after the highwater was ever received. *)
Lemma tracks_absent base history s k :
  tracks base history s → highwater s < key_second k → default 0 (bm_get k base) + occurrences k history = 0.
Proof.
  intros Ht Hk. destruct (bm_get k base) as [n|] eqn:Hb.
  { apply (tracks_base _ _ _ Ht) in Hb. lia. }
  simpl. destruct (Z.eq_dec (occurrences k history) 0) as [|Hne]; [lia|].
  pose proof (occurrences_nonneg k history).
  destruct (occurrences_pos k history ltac:(lia)) as (e & He & Hv & <-).
  apply (tracks_history _ _ _ Ht) in He; [|done]. unfold key_second in Hk. simpl in Hk. lia.
Qed.

Lemma save_batch_tracks base history e events now h s classes s' :
  tracks base history s → save_batch e events now h s = Ok (classes, s') → tracks base (history ++ events) s'.
Proof.
  intros Ht Hs. apply save_batch_spec in Hs as (_ & (n & Hu) & Hhw & Hmeta & _).
  destruct (batch_highwater_spec (highwater s) now events) as [Hge Hle].
  pose proof (tracks_highwater _ _ _ Ht). set (hw := batch_highwater _ _ _) in *.
  apply upsert_all_spec in Hu as [Hwf Hget]; [|apply group_wf; constructor|by apply bm_filter_wf, Ht].
  split; rewrite ?Hhw; try done; [lia| | |].
  - intros k c Hk. apply (tracks_base _ _ _ Ht) in Hk. lia.
  - intros ev [Hev|Hev]%elem_of_app Hv; [|by apply Hle]. apply (tracks_history _ _ _ Ht) in Hev; [lia|done].
  - intros k. rewrite Hget, counts_get, prune_rows_get by lia. rewrite (tracks_get _ _ _ Ht), occurrences_app.
    rewrite cutoff_exact by lia. cbn zeta. pose proof (occurrences_nonneg k events).
    pose proof (tracks_absent _ _ _ k Ht) as Habs.
    assert (Hlate : hw < key_second k → occurrences k events = 0).
    { intros Hk. destruct (Z.eq_dec (occurrences k events) 0) as [|Hne]; [done|].
      destruct (occurrences_pos k events ltac:(lia)) as (ev & Hev & Hv & <-).
      specialize (Hle _ Hev Hv). unfold key_second in Hk. simpl in Hk. lia. }
    set (old := default 0 (bm_get k base) + occurrences k history) in *.
    rewrite (Z.add_assoc (default 0 (bm_get k base))). fold old.
    assert (0 ≤ old).
    { unfold old. pose proof (occurrences_nonneg k history). destruct (bm_get k base) eqn:Hb; simpl; [|lia].
      apply (tracks_base _ _ _ Ht) in Hb. lia. }
    unfold in_window.
    destruct (Z.ltb_spec (hw - WINDOW_SECONDS) (key_second k)), (Z.leb_spec (key_second k) hw),
      (Z.ltb_spec (highwater s - WINDOW_SECONDS) (key_second k)), (Z.leb_spec (key_second k) (highwater s)),
      (Z.ltb_spec 0 (occurrences k events)), (Z.ltb_spec 0 old), (Z.ltb_spec 0 (old + occurrences k events));
      simpl; try done; try lia; try (f_equal; lia).
Qed.

(** What a refresh can do to the ledger. *)
Definition same_ledger (s s' : Store) : Prop :=
  query_seconds (db s') = query_seconds (db s) ∧ highwater s' = highwater s ∧
  m_highwater (meta (db s')) = m_highwater (meta (db s)).

#[local] Instance same_ledger_preorder : PreOrder same_ledger.
Proof. split; [done|]. intros ? ? ? (?&?&?) (?&?&?). split_and!; congruence. Qed.

Lemma same_ledger_tracks base history s s' : same_ledger s s' → tracks base history s → tracks base history s'.
Proof. intros (Hq & Hh & Hm) []. split; rewrite ?Hq, ?Hh, ?Hm; done. Qed.

(** Moving the end of the window forward and dropping what leaves it. *)
Lemma window_moves base history s s' :
  tracks base history s → highwater s ≤ highwater s' → m_highwater (meta (db s')) = highwater s' →
  bm_wf (query_seconds (db s')) →
  (∀ k, bm_get k (query_seconds (db s')) =
     if in_window (highwater s') k then bm_get k (query_seconds (db s)) else None) →
  tracks base history s'.
Proof.
  intros Ht Hle Hm Hw Hget. pose proof (tracks_highwater _ _ _ Ht). split; try done; [lia| | |].
  - intros k n Hk. apply (tracks_base _ _ _ Ht) in Hk. lia.
  - intros ev Hev Hv. apply (tracks_history _ _ _ Ht) in Hev; [lia|done].
  - intros k. rewrite Hget, (tracks_get _ _ _ Ht). cbn zeta.
    pose proof (tracks_absent _ _ _ k Ht) as Habs. set (n := default 0 _ + _) in *. unfold in_window.
    destruct (Z.ltb_spec (highwater s' - WINDOW_SECONDS) (key_second k)), (Z.leb_spec (key_second k) (highwater s')),
      (Z.ltb_spec (highwater s - WINDOW_SECONDS) (key_second k)), (Z.leb_spec (key_second k) (highwater s)),
      (Z.ltb_spec 0 n); simpl; try done; lia.
Qed.

Lemma advance_tracks base history e now s s' :
  tracks base history s → advance e now s = Ok s' → tracks base history s'.
Proof.
  intros Ht Ha. unfold advance in Ha. unbind Ha. injection Ha as <-. pose proof (tracks_highwater _ _ _ Ht).
  apply (window_moves _ _ _ _ Ht); simpl; [lia|done|by apply bm_filter_wf, Ht|].
  intros k. by rewrite prune_rows_get by lia.
Qed.

Lemma prune_leases_ledger e n live ls d :
  let d' := (prune_leases e n live ls d).1 in
  query_seconds d' = query_seconds d ∧ meta d' = meta d ∧ domain_summary d' = domain_summary d.
Proof.
  revert n d. induction ls as [|g ls IH]; intros n d; simpl; [done|]. destruct (live g).
  - specialize (IH (S n) d). destruct (prune_leases e (S n) live ls d). done.
  - destruct (attempt e (Row n)); [|done]. apply (IH (S n) (drop_generation g d)).
Qed.

Lemma prune_generations_ledger e live s : same_ledger s (prune_generations e live s).1.
Proof.
  unfold prune_generations, same_ledger. pose proof (prune_leases_ledger e 0 live (leases s) (db s)) as Hl.
  destruct (prune_leases _ _ _ _ _) as [d [r|t]]; simpl in *; destruct Hl as (? & ? & ?); split_and!; congruence.
Qed.

Lemma refresh_tables_ledger e g h final s d :
  refresh_tables e g h final s = Ok d →
  query_seconds d = query_seconds (db s) ∧ m_highwater (meta d) = m_highwater (meta (db s)).
Proof. unfold refresh_tables. intros Hr. unbind Hr. by injection Hr as <-. Qed.

Lemma refresh_tracks base history e now live alive h final s :
  tracks base history s → tracks base history (refresh e now live alive h final s).1.
Proof.
  intros Ht. unfold refresh. destruct (fault s); [done|].
  pose proof (prune_generations_ledger e live s) as Hp. destruct (prune_generations e live s) as [s1 p].
  simpl in Hp. apply (same_ledger_tracks _ _ _ s1) in Ht; [|done]. destruct p; [|done].
  destruct (negb final && _); [done|]. destruct (advance e now s1) as [s2|] eqn:Ha; [|done].
  apply (fun Ht => advance_tracks _ _ _ _ _ _ Ht Ha) in Ht. destruct (checked_add _ _ _) as [g|]; [|done].
  destruct (refresh_tables e g h final s2) as [d|] eqn:Hr; [|done].
  apply refresh_tables_ledger in Hr as [Hq Hm]. destruct (publish _ _) as [file [u|text]]; simpl.
  - destruct final, alive; simpl; by apply (same_ledger_tracks _ _ s2).
  - destruct (attempt e (Statement 40)); by apply (same_ledger_tracks _ _ s2).
Qed.

Lemma persist_health_tracks base history e h s s' :
  persist_health e h s = Ok s' → tracks base history s → tracks base history s'.
Proof. unfold persist_health. intros Hr. unbind Hr. injection Hr as <-. by apply same_ledger_tracks. Qed.

(** A batch is recorded as a whole or not at all. *)
Lemma batch_tracks base history e events now h s h' s' r :
  tracks base history s → batch e events now h s = (h', s', r) →
  tracks base (history ++ match r with Ok _ => events | Err _ => [] end) s'.
Proof.
  intros Ht. unfold batch. destruct events as [|ev evs]; [intros [= <- <- <-]; by rewrite app_nil_r|].
  destruct (fault s) as [t|]; [intros [= <- <- <-]; by rewrite app_nil_r|].
  destruct (save_batch _ _ _ _ _) as [[c s1]|t] eqn:Hs; intros [= <- <- <-].
  - by eapply save_batch_tracks.
  - rewrite app_nil_r. by apply (same_ledger_tracks _ _ s).
Qed.

(** *** Accounting *)

Definition health_ok (h : Health) : Prop :=
  in_u i64_max (accepted h) ∧ in_u i64_max (saved h) ∧ in_u i64_max (expired h) ∧
  in_u i64_max (dropped h) ∧ in_u i64_max (unsaved h).

Lemma add_min n a : add n a = Z.min i64_max (n + a).
Proof. unfold add, saturating_add, u64_max, i64_max. lia. Qed.

Lemma add_in n a : in_u i64_max n → 0 ≤ a → in_u i64_max (add n a).
Proof. rewrite add_min. unfold in_u, i64_max. lia. Qed.

Lemma add_0 n : in_u i64_max n → add n 0 = n.
Proof. rewrite add_min. unfold in_u. lia. Qed.

(** Every receipt of a batch ends up in exactly one class. *)
Lemma batch_accounts e events now h s h' s' r :
  health_ok h → batch e events now h s = (h', s', r) →
  ∃ a b c, 0 ≤ a ∧ 0 ≤ b ∧ 0 ≤ c ∧ a + b + c = Z.of_nat (length events) ∧
    saved h' = add (saved h) a ∧ expired h' = add (expired h) b ∧ unsaved h' = add (unsaved h) c ∧
    accepted h' = accepted h ∧ dropped h' = dropped h ∧ stopping h' = stopping h ∧ admission h' = admission h ∧
    m_saved (meta (db s')) = m_saved (meta (db s)) + a ∧
    m_expired (meta (db s')) = m_expired (meta (db s)) + b.
Proof.
  intros (_ & Hs0 & Hx0 & _ & Hu0) Hb. unfold batch in Hb. destruct events as [|ev evs].
  { injection Hb as <- <- <-. exists 0, 0, 0. rewrite !add_0 by done. split_and!; (done || lia). }
  destruct (fault s) as [t|].
  { injection Hb as <- <- <-. exists 0, 0, (Z.of_nat (length (ev :: evs))).
    rewrite !(add_0 (saved h)), !(add_0 (expired h)) by done. split_and!; (done || lia). }
  destruct (save_batch e (ev :: evs) now h s) as [[c s1]|t] eqn:Hs.
  - apply save_batch_spec in Hs as ((? & <- & ? & ? & ? & ?) & _ & _ & _ & ? & ? & _ & _).
    injection Hb as <- <- <-. exists (c_saved c), (c_expired c), (c_invalid c).
    destruct (c_invalid c =? 0); split_and!; (done || lia).
  - injection Hb as <- <- <-. exists 0, 0, (Z.of_nat (length (ev :: evs))).
    rewrite !(add_0 (saved h)), !(add_0 (expired h)) by done. split_and!; (done || (simpl; lia)).
Qed.

(** *** Popular questions *)

(** The sum of the counts of the rows whose key satisfies [P]. *)
Definition row_sum (P : key → bool) (rows : list (key * Z)) : Z :=
  foldr (fun kv acc => if P kv.1 then kv.2 + acc else acc) 0 rows.

Definition about_domain (d : str) (k : key) : bool := bool_decide (key_domain k = d).
Definition about_target (t : target) (k : key) : bool := bool_decide (k.1 = t).

(** The questions that deserve a prefetch, with their counts. *)
Definition popular_count (rows : bmap key Z) (t : target) : option Z :=
  let n := row_sum (about_target t) rows in
  if (100 <? row_sum (about_domain t.1.1) rows) && (0 <? n) then Some n else None.

Definition positive_rows (rows : list (key * Z)) : Prop := Forall (fun kv => 0 < kv.2) rows.

Lemma row_sum_nonneg P rows : positive_rows rows → 0 ≤ row_sum P rows.
Proof. induction 1 as [|kv rows Hk _ IH]; simpl; [lia|]. destruct (P kv.1); lia. Qed.

(** Grouping by a key and adding up. *)
Lemma group_sum {K V} `{Ord K, !EqDecision K} (kf : key * Z → K) (dflt : V) (upd : key * Z → V → V) (val : V → Z)
  rows k :
  val dflt = 0 → (∀ kv v, val (upd kv v) = val v + kv.2) → positive_rows rows →
  option_map val (bm_get k (fold_left (group_step kf (fun _ => dflt) upd) rows [])) =
  (let n := foldr (fun kv acc => if bool_decide (kf kv = k) then kv.2 + acc else acc) 0 rows in
   if 0 <? n then Some n else None).
Proof.
  intros Hd Hu Hp. rewrite group_get. unfold group_value. cbn [bm_get default].
  assert (Hfold : ∀ l v, val (fold_left (fun v kv => upd kv v) l v) = val v + foldr (fun kv acc => kv.2 + acc) 0 l).
  { induction l as [|kv l IH]; intros v; simpl; [lia|]. rewrite IH, Hu. lia. }
  assert (Hfilter : foldr (fun kv acc => if bool_decide (kf kv = k) then kv.2 + acc else acc) 0 rows =
    foldr (fun kv acc => kv.2 + acc) 0 (filter (fun x => kf x = k) rows)).
  { clear Hp. induction rows as [|kv rows IH]; [done|]. rewrite filter_cons. simpl.
    destruct (decide (kf kv = k)) as [Hk|Hk]; [rewrite bool_decide_eq_true_2 by done|rewrite bool_decide_eq_false_2 by done];
      simpl; lia. }
  rewrite Hfilter. assert (Hpos : positive_rows (filter (fun x => kf x = k) rows)).
  { unfold positive_rows in *. rewrite Forall_forall in *. intros x Hx. apply list_elem_of_filter in Hx as [_ Hx]. auto. }
  destruct (filter _ rows) as [|kv l]; [done|]. cbn zeta.
  assert (0 ≤ foldr (fun (kv : key * Z) acc => kv.2 + acc) 0 l).
  { apply Forall_cons in Hpos as [_ Hl]. clear -Hl. induction Hl; simpl in *; lia. }
  apply Forall_cons in Hpos as [? _]. cbn [foldr]. rewrite (proj2 (Z.ltb_lt _ _)) by lia.
  cbn [fold_left option_map]. f_equal. rewrite Hfold, Hu, Hd. lia.
Qed.

Lemma is_popular_spec hw rows d :
  positive_rows rows → is_popular (summarize hw rows) d = (100 <? row_sum (about_domain d) rows).
Proof.
  intros Hp.
  pose proof (group_sum (fun kv => key_domain kv.1) (mkSummary 0 hw i64_min)
    (fun kv v => mkSummary (sum_count v + kv.2) hw (Z.max (last_seen v) (key_second kv.1))) sum_count rows d
    eq_refl (fun _ _ => eq_refl) Hp) as Hg.
  unfold is_popular. change (fold_left _ rows []) with (summarize hw rows) in Hg.
  change (foldr _ 0 rows) with (row_sum (about_domain d) rows) in Hg. cbn zeta in Hg.
  destruct (bm_get d (summarize hw rows)) as [v|]; simpl in Hg; destruct (Z.ltb_spec 0 (row_sum (about_domain d) rows));
    try done; [by injection Hg as ->|]. symmetry. apply Z.ltb_ge. lia.
Qed.

Lemma filter_positive P rows : positive_rows rows → positive_rows (List.filter P rows).
Proof.
  unfold positive_rows. rewrite !Forall_forall. intros Hp kv Hk. apply Hp.
  apply list_elem_of_In in Hk. apply filter_In in Hk as [Hk _]. by apply list_elem_of_In.
Qed.

Lemma group_targets_get rows t :
  positive_rows rows →
  bm_get t (group_targets rows) = (let n := row_sum (about_target t) rows in if 0 <? n then Some n else None).
Proof.
  intros Hp.
  pose proof (group_sum (fun kv => kv.1.1) 0 (fun kv n => n + kv.2) (fun n => n) rows t eq_refl
    (fun _ _ => eq_refl) Hp) as Hg.
  change (fold_left _ rows []) with (group_targets rows) in Hg.
  change (foldr _ 0 rows) with (row_sum (about_target t) rows) in Hg. rewrite <-Hg.
  by destruct (bm_get t (group_targets rows)).
Qed.

Lemma row_sum_filter (P Q : key → bool) rows t :
  (∀ k, P k = true → Q k = t) →
  row_sum P (List.filter (fun kv => Q kv.1) rows) = if t then row_sum P rows else 0.
Proof.
  intros HP. induction rows as [|kv rows IH]; simpl; [by destruct t|]. destruct (P kv.1) eqn:Hk.
  - rewrite (HP _ Hk). destruct t; simpl; rewrite ?Hk; lia.
  - destruct (Q kv.1); simpl; rewrite ?Hk; done.
Qed.

Lemma group_targets_wf rows : bm_wf (group_targets rows).
Proof. apply (group_wf (fun kv : key * Z => kv.1.1) (fun _ => 0) (fun kv n => n + kv.2)). constructor. Qed.

(** The selection is what the ledger says is popular. *)
Lemma selection_spec hw rows t :
  positive_rows rows →
  bm_get t (group_targets (List.filter (fun kv => is_popular (summarize hw rows) (key_domain kv.1)) rows)) =
  popular_count rows t.
Proof.
  intros Hp. rewrite group_targets_get by by apply filter_positive. unfold popular_count.
  rewrite (row_sum_filter (about_target t) (fun k => is_popular (summarize hw rows) (key_domain k)) rows
    (is_popular (summarize hw rows) t.1.1)).
  - rewrite is_popular_spec by done. by destruct (100 <? _).
  - intros k Hk. apply bool_decide_eq_true in Hk as <-. done.
Qed.

Lemma fold_insert_spec {K V} `{Ord K, !EqDecision K} (l m : bmap K V) :
  bm_wf l → bm_wf m →
  let m' := fold_left (fun m kv => bm_insert kv.1 kv.2 m) l m in
  bm_wf m' ∧ ∀ k, bm_get k m' = match bm_get k l with Some v => Some v | None => bm_get k m end.
Proof.
  revert m. induction l as [|[k0 v0] l IH]; intros m Hl Hm; [done|]. cbn [fold_left fst snd].
  destruct (IH (bm_insert k0 v0 m)) as [Hw Hg]; [by apply StronglySorted_inv in Hl as [? _]|by apply bm_insert_wf|].
  split; [done|]. intros k. rewrite Hg, bm_get_insert, bm_get_cons. case_decide as Hk; [subst|done].
  by rewrite (bm_get_head_None k0 v0 l).
Qed.

Lemma tagged_get (g : Z) (l : bmap target Z) (g' : Z) t :
  bm_get (g', t) (map (fun tc => ((g, tc.1), tc.2)) l) = if decide (g' = g) then bm_get t l else None.
Proof.
  induction l as [|[t0 v] l IH]; [by case_decide|]. cbn [map fst snd]. rewrite !bm_get_cons, IH.
  destruct (decide (g' = g)), (decide (t = t0)), (decide ((g', t) = (g, t0))); congruence || done.
Qed.

Lemma cmp_pair_tag (g : Z) (a b : target) : cmp (g, a) (g, b) = cmp a b.
Proof. simpl. unfold cmp_lex, cmp_on. simpl. by rewrite Z.compare_refl. Qed.

Lemma tagged_wf (g : Z) (l : bmap target Z) : bm_wf l → bm_wf (map (fun tc => ((g, tc.1), tc.2)) l).
Proof.
  unfold bm_wf, bm_keys. induction l as [|[t v] l IH]; [constructor|]. cbn [map fst].
  intros [Hl Ht]%StronglySorted_inv. constructor; [by apply IH|]. rewrite map_map.
  apply Forall_forall. intros x Hx. apply list_elem_of_fmap in Hx as ([t' v'] & -> & Hin).
  refine (eq_trans (cmp_pair_tag g t t') _). rewrite Forall_forall in Ht. apply (Ht t').
  apply list_elem_of_fmap. by exists (t', v').
Qed.

(** *** Generations *)

Definition generation_row (d : Database) (g : Z) (t : target) : option Z := bm_get (g, t) (popular_targets d).

(** The generations on disk are old ones, their names are in normal form, and
    at most two are leased. *)
Record store_ok (s : Store) : Prop := {
  ok_ledger : ∀ k n, bm_get k (query_seconds (db s)) = Some n → canonical (key_domain k) = true ∧ 0 < n;
  ok_ledger_wf : bm_wf (query_seconds (db s));
  ok_popular_wf : bm_wf (popular_targets (db s));
  ok_popular : ∀ g t n, generation_row (db s) g t = Some n → g ≤ generation s ∧ canonical t.1.1 = true ∧ 0 < n;
  ok_leases : Forall (fun g => g ≤ generation s) (leases s) ∧ (length (leases s) ≤ 2)%nat;
}.

Lemma drop_generation_row g d g' t :
  generation_row (drop_generation g d) g' t = if g' =? g then None else generation_row d g' t.
Proof.
  unfold generation_row. simpl. rewrite (bm_get_filter (fun k : Z * target => negb (k.1 =? g))). simpl.
  by destruct (g' =? g).
Qed.

(** [d'] has lost some generations of [d] that [keep] does not protect. *)
Definition loses (keep : Z → Prop) (d d' : Database) : Prop :=
  (bm_wf (popular_targets d) → bm_wf (popular_targets d')) ∧
  ∀ g, (∀ t, generation_row d' g t = generation_row d g t) ∨ ¬ keep g ∧ ∀ t, generation_row d' g t = None.

Lemma loses_refl keep d : loses keep d d.
Proof. split; [done|]. auto. Qed.

Lemma drop_loses (keep : Z → Prop) g d : ¬ keep g → loses keep d (drop_generation g d).
Proof.
  intros Hg. split; [apply bm_filter_wf|]. intros g'. destruct (Z.eq_dec g' g) as [->|Hne].
  - right. split; [done|]. intros t. by rewrite drop_generation_row, Z.eqb_refl.
  - left. intros t. rewrite drop_generation_row. by apply Z.eqb_neq in Hne as ->.
Qed.

Lemma loses_trans keep d1 d2 d3 : loses keep d1 d2 → loses keep d2 d3 → loses keep d1 d3.
Proof.
  intros [Hw1 H12] [Hw2 H23]. split; [auto|]. intros g.
  destruct (H23 g) as [He|[? ?]]; [|auto]. destruct (H12 g) as [He'|[? ?]].
  - left. intros t. by rewrite He, He'.
  - right. split; [done|]. intros t. by rewrite He.
Qed.

Lemma prune_leases_loses e n live ls d :
  let r := prune_leases e n live ls d in
  loses (fun g => live g = true ∨ g ∉ ls) d r.1 ∧
  match r.2 with Ok retained => retained = List.filter live ls | Err _ => True end.
Proof.
  cbn zeta. assert (∀ ls', (∀ g, g ∈ ls' → g ∈ ls) →
    loses (fun g => live g = true ∨ g ∉ ls) d (prune_leases e n live ls' d).1 ∧
    match (prune_leases e n live ls' d).2 with Ok retained => retained = List.filter live ls' | Err _ => True end)
    as Hall; [|by apply Hall].
  intros ls'. revert n d. induction ls' as [|g ls' IH]; intros n d Hsub; simpl; [split; [apply loses_refl|done]|].
  destruct (live g) eqn:Hl.
  - destruct (IH (S n) d) as [Hd Hr]; [intros; apply Hsub; by right|].
    destruct (prune_leases e (S n) live ls' d) as [d' [r|]]; simpl in *; [subst|]; done.
  - destruct (attempt e (Row n)); simpl; [|split; [apply loses_refl|done]].
    destruct (IH (S n) (drop_generation g d)) as [Hd Hr]; [intros; apply Hsub; by right|].
    split; [|done]. eapply loses_trans; [|exact Hd]. apply drop_loses. intros [?|Hn]; [congruence|].
    apply Hn, Hsub. by left.
Qed.

Lemma ok_positive s : store_ok s → positive_rows (query_seconds (db s)).
Proof.
  intros Hs. apply Forall_forall. intros [k n] Hk. simpl.
  apply (ok_ledger _ Hs k). by apply bm_elem_get; [apply Hs|].
Qed.

(** Only the new generation of a refresh that is not the last one is written. *)
Lemma refresh_tables_rows e g h final s d :
  store_ok s → generation s < g → refresh_tables e g h final s = Ok d →
  bm_wf (popular_targets d) ∧ query_seconds d = query_seconds (db s) ∧
  ∀ g' t, generation_row d g' t =
    if negb final && (g' =? g) then popular_count (query_seconds d) t else generation_row (db s) g' t.
Proof.
  intros Hs Hg Hr. pose proof (ok_positive _ Hs) as Hp. unfold refresh_tables in Hr.
  destruct final; unbind Hr; injection Hr as <-; cbn [popular_targets query_seconds generation_row negb andb].
  { injection Ha3 as <-. split_and!; [apply Hs|done|done]. }
  unbind Ha3. injection Ha3 as <-. unfold select_popular.
  destruct (fold_insert_spec (select_popular g (summarize (highwater s) (query_seconds (db s))) (query_seconds (db s)))
    (popular_targets (db s))) as [Hw Hget]; [apply tagged_wf, group_targets_wf|apply Hs|].
  split_and!; [done|done|]. intros g' t. unfold generation_row. cbn [popular_targets].
  unfold select_popular in Hget. rewrite Hget, tagged_get, selection_spec by done.
  destruct (Z.eqb_spec g' g) as [->|Hne]; [rewrite decide_True by done|by rewrite decide_False].
  destruct (popular_count _ t); [done|]. fold (generation_row (db s) g t).
  destruct (generation_row (db s) g t) as [n|] eqn:Hrow; [|done]. apply (ok_popular _ Hs) in Hrow. lia.
Qed.

Lemma loses_ok keep s d :
  loses keep (db s) d → query_seconds d = query_seconds (db s) → store_ok s → store_ok (set_db d s).
Proof.
  intros [Hw Hl] Hq []. split; simpl; rewrite ?Hq; auto. intros g t n Hn.
  destruct (Hl g) as [He|[_ He]]; rewrite He in Hn; [eauto|done].
Qed.

Lemma prune_generations_ok e live s :
  store_ok s →
  let r := prune_generations e live s in
  store_ok r.1 ∧ generation r.1 = generation s ∧ fault r.1 = fault s ∧
  (r.2 = Ok tt → leases r.1 = List.filter live (leases s)) ∧
  ∀ g t, live g = true → generation_row (db r.1) g t = generation_row (db s) g t.
Proof.
  intros Hs. unfold prune_generations. pose proof (prune_leases_loses e 0 live (leases s) (db s)) as [Hl Hr].
  pose proof (prune_leases_ledger e 0 live (leases s) (db s)) as (Hq & _ & _).
  destruct (prune_leases e 0 live (leases s) (db s)) as [d r]. simpl in *.
  assert (Hkeep : ∀ g t, live g = true → generation_row d g t = generation_row (db s) g t).
  { intros g t Hg. destruct (proj2 Hl g) as [He|[Hn _]]; [done|]. by destruct Hn; left. }
  pose proof (loses_ok _ _ _ Hl Hq Hs) as Hok. destruct r as [retained|text]; simpl; [subst|done].
  split_and!; try done. destruct Hok as [? ? ? ? [Hlg Hlen]]. split; try done. simpl in *. split.
  - rewrite Forall_forall in *. intros g Hg. apply Hlg. apply list_elem_of_In in Hg.
    apply filter_In in Hg as [Hg _]. by apply list_elem_of_In.
  - pose proof (List.filter_length_le live (leases s)). lia.
Qed.

Lemma advance_ok e now s s' :
  store_ok s → advance e now s = Ok s' →
  store_ok s' ∧ popular_targets (db s') = popular_targets (db s) ∧ generation s' = generation s ∧
  leases s' = leases s ∧ fault s' = fault s.
Proof.
  intros Hs Ha. unfold advance in Ha. unbind Ha. injection Ha as <-. split_and!; try done.
  destruct Hs. split; simpl; try done; [|by apply bm_filter_wf].
  intros k n Hk. unfold prune_rows in Hk.
  rewrite (bm_get_filter (fun k => negb ((key_second k <=? i64_saturating_sub (Z.max (highwater s) now) WINDOW_SECONDS)
    || (Z.max (highwater s) now <? key_second k)))) in Hk. destruct (negb _); [eauto|done].
Qed.

(** A refresh, whatever becomes of it, keeps the leased generations; when it
    succeeds it leases a new one, which lists what is popular now. *)
Definition refreshed (live : Z → bool) (s : Store) (r : Store * result (option Z) str) : Prop :=
  store_ok r.1 ∧ generation s ≤ generation r.1 ∧
  (∀ g t, g ≤ generation s → live g = true → generation_row (db r.1) g t = generation_row (db s) g t) ∧
  (∀ g, r.2 = Ok (Some g) →
    g = generation s + 1 ∧ generation r.1 = g ∧ leases r.1 = List.filter live (leases s) ++ [g] ∧
    ∀ t, generation_row (db r.1) g t = popular_count (query_seconds (db r.1)) t).

(** The store between the commit and the publication. *)
Lemma committed_ok e g h final s d file ls :
  store_ok s → g = generation s + 1 → refresh_tables e g h final s = Ok d →
  (Forall (fun x => x ≤ g) ls ∧ (length ls ≤ 2)%nat) →
  store_ok (mkStore d (highwater s) g ls (fault s) file).
Proof.
  intros Hs Hg Hr Hls. destruct (refresh_tables_rows e g h final s d Hs ltac:(lia) Hr) as (Hw & Hq & Hrow).
  split; simpl; rewrite ?Hq; try apply Hs; try done. intros g' t n. rewrite Hrow.
  destruct (negb final && (g' =? g)) eqn:Hb.
  - apply andb_true_iff in Hb as [_ ->%Z.eqb_eq]. rewrite Hq. unfold popular_count.
    destruct (100 <? row_sum (about_domain t.1.1) (query_seconds (db s))) eqn:Hd; [|done].
    destruct (Z.ltb_spec 0 (row_sum (about_target t) (query_seconds (db s)))) as [Hpos|]; [|done]. intros [= <-].
    split_and!; [lia| |done]. clear Hd. pose proof (ok_ledger _ Hs) as Hl.
    assert (Hin : ∃ kv, kv ∈ query_seconds (db s) ∧ kv.1.1 = t).
    { clear -Hpos. induction (query_seconds (db s)) as [|kv rows IH]; simpl in Hpos; [lia|].
      destruct (about_target t kv.1) eqn:Hk; [|destruct (IH Hpos) as (kv' & ? & ?); exists kv'; split; [by right|done]].
      exists kv. split; [by left|]. by apply bool_decide_eq_true in Hk. }
    destruct Hin as ([k n] & Hk & <-). apply bm_elem_get in Hk; [|apply Hs]. by apply Hl in Hk as [? _].
  - intros Hn. apply (ok_popular _ Hs) in Hn as (? & ? & ?). split_and!; [lia|done|done].
Qed.

Lemma refresh_ok e now live alive h final s :
  store_ok s → refreshed live s (refresh e now live alive h final s).
Proof.
  intros Hs. unfold refresh. destruct (fault s); [split_and!; done|].
  pose proof (prune_generations_ok e live s Hs) as (Hs1 & Hg1 & _ & Hl1 & Hk1).
  destruct (prune_generations e live s) as [s1 p]. simpl in Hs1, Hg1, Hl1, Hk1.
  assert (Hearly : ∀ text, refreshed live s (s1, Err text)) by (intros text; split_and!; simpl; (done || lia || auto)).
  destruct p; [|apply Hearly]. destruct (negb final && _) eqn:Htwo; [apply Hearly|].
  destruct (advance e now s1) as [s2|] eqn:Ha; [|apply Hearly].
  destruct (advance_ok _ _ _ _ Hs1 Ha) as (Hs2 & Hp2 & Hg2 & Hl2 & Hf2). clear Hearly.
  assert (Hk2 : ∀ g t, live g = true → generation_row (db s2) g t = generation_row (db s) g t).
  { intros g t Hg. unfold generation_row at 1. rewrite Hp2. by apply Hk1. }
  destruct (checked_add i64_max (generation s2) 1) as [g|] eqn:Hg; [|split_and!; simpl; (done || lia || auto)].
  unfold checked_add in Hg. destruct (_ <=? _); [|done]. injection Hg as Hg.
  destruct (refresh_tables e g h final s2) as [d|] eqn:Hr; [|split_and!; simpl; (done || lia || auto)].
  destruct (refresh_tables_rows e g h final s2 d Hs2 ltac:(lia) Hr) as (Hw & Hq & Hrow).
  assert (Hlg : Forall (fun x => x ≤ g) (leases s2)).
  { eapply Forall_impl; [apply (ok_leases _ Hs2)|]. simpl. lia. }
  assert (Hok : ∀ file ls, (Forall (fun x => x ≤ g) ls ∧ (length ls ≤ 2)%nat) →
    store_ok (mkStore d (highwater s2) g ls (fault s2) file)) by (intros; by eapply committed_ok).
  assert (Hold : ∀ g' t, g' ≤ generation s → live g' = true → generation_row d g' t = generation_row (db s) g' t).
  { intros g' t Hg' Hlive. rewrite Hrow. destruct (Z.eqb_spec g' g); [lia|]. rewrite andb_false_r. by apply Hk2. }
  destruct (publish _ _) as [file [u|text]]; simpl.
  - destruct final; [|destruct alive].
    + split_and!; simpl; [apply Hok; split; [done|apply Hs2]|lia|done|done].
    + split_and!; simpl; [apply Hok|lia|done|].
      * rewrite Forall_app, length_app, Forall_singleton. cbn [negb andb] in Htwo. apply Nat.leb_gt in Htwo.
        rewrite Hl2 in *. simpl. split; [done|lia].
      * intros g' [= <-]. rewrite Hl2, Hl1 by by destruct a. split_and!; [lia|done|done|].
        intros t. by rewrite Hrow, Z.eqb_refl.
    + split_and!; simpl; [apply Hok; split; [done|apply Hs2]|lia|done|done].
  - assert (Hs3 := Hok file (leases s2) (conj Hlg (proj2 (ok_leases _ Hs2)))).
    destruct (attempt e (Statement 40)); split_and!; simpl; try done; try lia.
    + eapply (loses_ok (fun x => x ≠ g)) in Hs3; [exact Hs3| |done].
      by apply drop_loses; intros Hn.
    + intros g' t Hg' Hlive. rewrite drop_generation_row. destruct (Z.eqb_spec g' g); [lia|]. auto.
Qed.

(** *** Restoring *)

Definition by_rowid : relation raw_row := fun a b => rowid a < rowid b.
Definition row_canonical (r : raw_row) : bool := canonical (row_domain r).

Lemma sorted_split pre r rest x :
  StronglySorted by_rowid (pre ++ r :: rest) → x ∈ pre ++ rest → rowid x ≠ rowid r.
Proof.
  intros Hs Hx. induction pre as [|y pre IH]; simpl in *.
  - apply StronglySorted_inv in Hs as [_ Hr]. rewrite Forall_forall in Hr. apply Hr in Hx. unfold by_rowid in Hx. lia.
  - apply StronglySorted_inv in Hs as [Hs Hy]. apply elem_of_cons in Hx as [->|Hx]; [|by apply IH].
    rewrite Forall_forall in Hy. specialize (Hy r). unfold by_rowid in Hy.
    assert (rowid y < rowid r); [|lia]. apply Hy. apply elem_of_app. right. by left.
Qed.

Lemma delete_row pre r rest :
  StronglySorted by_rowid (pre ++ r :: rest) →
  List.filter (fun x => negb (rowid x =? rowid r)) (pre ++ r :: rest) = pre ++ rest.
Proof.
  intros Hs. rewrite List.filter_app. simpl. rewrite Z.eqb_refl. simpl. rewrite <-List.filter_app.
  apply List.forallb_filter_id, forallb_forall. intros x Hx%list_elem_of_In.
  apply negb_true_iff, Z.eqb_neq. by apply (sorted_split pre r rest).
Qed.

Lemma StronglySorted_cut {A} (R : relation A) a x b : StronglySorted R (a ++ x :: b) → StronglySorted R (a ++ b).
Proof.
  induction a as [|y a IH]; simpl; [by intros [? _]%StronglySorted_inv|].
  intros [Hs Hy]%StronglySorted_inv. constructor; [auto|].
  rewrite Forall_app, Forall_cons in *. tauto.
Qed.

Lemma check_rows_spec e page pre rest invalid rows n :
  StronglySorted by_rowid (pre ++ page ++ rest) →
  check_rows e page (pre ++ page ++ rest) invalid = Ok (rows, n) →
  rows = pre ++ List.filter row_canonical page ++ rest.
Proof.
  revert pre invalid. induction page as [|r page IH]; intros pre invalid Hs; simpl; [by intros [= <- _]|].
  unfold row_canonical at 1. destruct (canonical (row_domain r)) eqn:Hc.
  - intros Hk. rewrite (IH (pre ++ [r]) invalid); rewrite <-?app_assoc; done.
  - intros Hk. unbind Hk. simpl in Hs. rewrite delete_row in Hk by done.
    apply StronglySorted_cut in Hs. by rewrite (IH pre a0).
Qed.

Lemma sorted_app_inv_r {A} (R : relation A) a b : StronglySorted R (a ++ b) → StronglySorted R b.
Proof. induction a as [|x a IH]; [done|]. simpl. intros [Hs _]%StronglySorted_inv. auto. Qed.

(** What is left to scan after [after]. *)
Definition rest_after (after : option Z) (pre rest : list raw_row) : Prop :=
  match after with
  | None => pre = []
  | Some a => Forall (fun r => rowid r ≤ a) pre ∧ Forall (fun r => a < rowid r) rest
  end.

Lemma next_rows_rest after pre rest :
  rest_after after pre rest → next_rows after (pre ++ rest) = take 128 rest.
Proof.
  unfold next_rows, rest_after. destruct after as [a|].
  - intros [Hp Hr]. f_equal. rewrite List.filter_app.
    assert (List.filter (fun r => a <? rowid r) pre = []) as ->.
    { clear Hr. induction Hp as [|r pre Hr _ IH]; simpl; [done|]. by rewrite (proj2 (Z.ltb_ge _ _)). }
    simpl. apply List.forallb_filter_id, forallb_forall. intros x Hx%list_elem_of_In. rewrite Forall_forall in Hr.
    apply Z.ltb_lt. auto.
  - intros ->. simpl. f_equal. apply List.forallb_filter_id, forallb_forall. done.
Qed.

Lemma last_map_Some {A} (l : list A) x : List.last (map Some l) None = Some x → ∃ l', l = l' ++ [x].
Proof.
  destruct l as [|y l'] using rev_ind; [done|]. rewrite map_app. cbn [map]. rewrite List.last_last. intros [= ->]. eauto.
Qed.

Lemma last_map_None {A} (l : list A) : List.last (map Some l) None = None → l = [].
Proof. destruct l as [|y l'] using rev_ind; [done|]. rewrite map_app. cbn [map]. by rewrite List.last_last. Qed.

Lemma StronglySorted_sublist {A} (R : relation A) l l' : sublist l l' → StronglySorted R l' → StronglySorted R l.
Proof.
  induction 1 as [|x l l' Hl IH|x l l' Hl IH]; intros Hs; [done| |]; apply StronglySorted_inv in Hs as [Hs Hx]; [|auto].
  constructor; [auto|]. rewrite Forall_forall in *. intros y Hy. apply Hx. by eapply elem_of_submseteq, sublist_submseteq.
Qed.

(** The position of the last row of a page. *)
Lemma rest_after_page pre front r tail P :
  StronglySorted by_rowid (pre ++ (front ++ [r]) ++ tail) →
  rest_after (Some (rowid r)) (pre ++ List.filter P (front ++ [r])) tail.
Proof.
  intros Hs. rewrite <-app_assoc in Hs. simpl in Hs. rewrite app_assoc in Hs. split.
  - assert (Hall : Forall (fun x => rowid x ≤ rowid r) ((pre ++ front) ++ [r])).
    { rewrite Forall_app, Forall_singleton. split; [|lia]. induction (pre ++ front) as [|x l IH]; [done|].
      simpl in Hs. apply StronglySorted_inv in Hs as [Hs Hx]. constructor; [|auto].
      rewrite Forall_app, Forall_cons in Hx. destruct Hx as (_ & Hx & _). unfold by_rowid in Hx. lia. }
    rewrite Forall_forall in *. intros x Hx. apply Hall. rewrite <-app_assoc.
    eapply elem_of_submseteq; [exact Hx|]. apply sublist_submseteq, sublist_app; [done|]. apply filter_sublist.
  - apply sorted_app_inv_r, StronglySorted_inv in Hs as [_ Hr]. done.
Qed.

Lemma scan_rows_spec fuel e after pre rest invalid :
  StronglySorted by_rowid (pre ++ rest) → rest_after after pre rest → (length rest < fuel)%nat →
  ∃ r, scan_rows fuel e after (pre ++ rest) invalid = Some r ∧
    ∀ rows n, r = Ok (rows, n) → rows = pre ++ List.filter row_canonical rest.
Proof.
  revert after pre rest invalid. induction fuel as [|fuel IH]; intros after pre rest invalid Hs Ha Hf; [lia|].
  cbn [scan_rows]. destruct (attempt e (Row fuel)); [|eexists; split; [done|done]].
  rewrite next_rows_rest by done. destruct (List.last (map Some (take 128 rest)) None) as [r|] eqn:Hl.
  2: { apply last_map_None in Hl. eexists. split; [done|]. intros rows n [= <- _]. by destruct rest. }
  apply last_map_Some in Hl as [front Hfront].
  assert (Hrest : rest = (front ++ [r]) ++ drop 128 rest) by by rewrite <-Hfront, take_drop.
  destruct (check_rows e (take 128 rest) (pre ++ rest) invalid) as [[rows n]|] eqn:Hk; [|eexists; split; [done|done]].
  rewrite Hfront in Hk. clear Hfront. revert Hrest. generalize (drop 128 rest). intros tail ->.
  apply check_rows_spec in Hk; [subst rows|done].
  destruct (IH (Some (rowid r)) (pre ++ List.filter row_canonical (front ++ [r])) tail n) as (res & Hres & Hspec).
  - rewrite <-app_assoc. eapply StronglySorted_sublist; [|exact Hs].
    apply sublist_app; [done|]. apply sublist_app; [apply filter_sublist|done].
  - by apply rest_after_page.
  - rewrite !length_app in Hf. simpl in Hf. lia.
  - exists res. split; [by rewrite <-Hres, <-app_assoc|]. intros rows n' ->. rewrite (Hspec _ _ eq_refl).
    by rewrite (List.filter_app _ (front ++ [r]) tail), app_assoc.
Qed.

(** A row that can be restored at [now]. *)
Definition restorable (now : Z) (r : raw_row) (k : key) (n : Z) : Prop :=
  typed_row r = Some (k, n) ∧ canonical (key_domain k) = true ∧ str_len (key_domain k) ≤ 1024 ∧
  now - WINDOW_SECONDS < key_second k ≤ now ∧ in_u u16_max k.1.1.2 ∧ in_u u16_max k.1.2 ∧ 0 < n.

Ltac no_value := split; [intros [? _]; done|intros (? & ? & ? & _); done].

Lemma restorable_spec now r :
  0 ≤ now →
  negb (unusable (i64_saturating_sub now WINDOW_SECONDS) now r) = true ∧ row_canonical r = true ↔
  ∃ k n, restorable now r k n.
Proof.
  intros Hn. unfold restorable, unusable, row_canonical, row_domain, typed_row, in_u, u16_max.
  rewrite cutoff_exact by done.
  destruct (raw_domain r) as [|?| |d|]; try no_value. destruct (raw_type r) as [|t| |?|]; try no_value.
  destruct (raw_class r) as [|c| |?|]; try no_value. destruct (raw_second r) as [|sec| |?|]; try no_value.
  destruct (raw_count r) as [|n| |?|]; try no_value. split.
  - intros [Hu Hc]. exists (d, t, c, sec), n. unfold key_domain, key_second. simpl. boolprop. split_and!; (done || lia).
  - intros (k & m & [= <- <-] & Hc & Hlen & Hw & Ht & Hcl & Hpos). unfold key_domain, key_second in *. simpl in *.
    split; [|done]. apply negb_true_iff. rewrite !orb_false_iff, !negb_false_iff, !andb_true_iff.
    rewrite !Z.ltb_ge, !Z.leb_gt, !Z.leb_le. lia.
Qed.

Lemma fold_insert_NoDup {K V} `{Ord K, !EqDecision K} (l : list (K * V)) (m : bmap K V) k v :
  NoDup (map fst l) →
  bm_get k (fold_left (fun m kv => bm_insert kv.1 kv.2 m) l m) = Some v ↔
  (k, v) ∈ l ∨ (¬ k ∈ map fst l ∧ bm_get k m = Some v).
Proof.
  revert m. induction l as [|[k0 v0] l IH]; intros m Hnd; cbn [fold_left map fst snd] in *.
  { split; [intros ?; right; split; [apply not_elem_of_nil|done]|intros [[]%elem_of_nil|[_ ?]]; done]. }
  apply NoDup_cons in Hnd as [Hk0 Hnd]. rewrite IH by done. rewrite bm_get_insert, !elem_of_cons.
  assert (Hk : (k, v) ∈ l → k ∈ map fst l) by (intros Hin; apply list_elem_of_fmap; by exists (k, v)).
  case_decide as Hd; [subst|]; naive_solver.
Qed.

Lemma fold_insert_wf {K V} `{Ord K} (l : list (K * V)) (m : bmap K V) :
  bm_wf m → bm_wf (fold_left (fun m kv => bm_insert kv.1 kv.2 m) l m).
Proof. revert m. induction l as [|kv l IH]; intros m Hm; simpl; [done|]. by apply IH, bm_insert_wf. Qed.

(** A table on disk: rows by their ids, one per key. *)
Definition table_ok (rows : list raw_row) : Prop :=
  StronglySorted by_rowid rows ∧ NoDup (map fst (omap typed_row rows)).

Lemma omap_filter_NoDup P rows : NoDup (map fst (omap typed_row rows)) → NoDup (map fst (omap typed_row (List.filter P rows))).
Proof.
  induction rows as [|r rows IH]; simpl; [done|]. destruct (P r); simpl; destruct (typed_row r) as [[k n]|]; simpl; auto.
  - rewrite !NoDup_cons. intros [Hk Hn]. split; [|auto]. intros Hin. apply Hk.
    apply list_elem_of_fmap in Hin as (kn & -> & Hin). apply list_elem_of_fmap. exists kn. split; [done|].
    apply list_elem_of_omap in Hin as (r' & Hr' & Ht). apply list_elem_of_omap. exists r'. split; [|done].
    apply list_elem_of_In in Hr'. apply filter_In in Hr' as [Hr' _]. by apply list_elem_of_In.
  - intros [_ Hn]%NoDup_cons. auto.
Qed.

Lemma ledger_of_get rows k n :
  NoDup (map fst (omap typed_row rows)) →
  bm_get k (ledger_of rows) = Some n ↔ ∃ r, r ∈ rows ∧ typed_row r = Some (k, n).
Proof.
  intros Hn. unfold ledger_of. rewrite fold_insert_NoDup by done. rewrite list_elem_of_omap. cbn [bm_get]. naive_solver.
Qed.

(** The scan ends, and exactly the rows that can be restored are left. *)
Lemma validate_restore_spec e hw m rows rows' m' :
  0 ≤ hw → table_ok rows → validate_restore e hw hw m rows = Ok (rows', m') →
  table_ok rows' ∧
  (∀ k n, bm_get k (ledger_of rows') = Some n ↔ ∃ r, r ∈ rows ∧ restorable hw r k n) ∧
  m_saved m' = m_saved m ∧ m_expired m' = m_expired m ∧ m_generation m' = m_generation m.
Proof.
  intros Hhw [Hs Hn] Hv. unfold validate_restore in Hv. rewrite Z.min_id in Hv. unbind Hv.
  set (usable := List.filter _ rows) in *.
  assert (Hsort : StronglySorted by_rowid usable) by (eapply StronglySorted_sublist; [apply filter_sublist|done]).
  destruct (scan_rows_spec (S (length usable)) e None [] usable
    (Z.of_nat (length (List.filter (unusable (i64_saturating_sub hw WINDOW_SECONDS) hw) rows))))
    as (r & Hr & Hspec); [done|done|lia|]. simpl app in Hr. rewrite Hr in Ha1. cbn [default] in Ha1. destruct a1 as [rws inv].
  rewrite (Hspec _ _ Ha1) in *. unbind Hv. injection Hv as <- <-. simpl app.
  assert (Hok : table_ok (List.filter row_canonical usable)).
  { split; [eapply StronglySorted_sublist; [apply filter_sublist|done]|]. by do 2 apply omap_filter_NoDup. }
  split_and!; try done. intros k n. rewrite ledger_of_get by apply Hok.
  assert (Hin : ∀ x, x ∈ List.filter row_canonical usable ↔ x ∈ rows ∧ ∃ k n, restorable hw x k n).
  { intros x. rewrite <-restorable_spec by done. rewrite !list_elem_of_In. unfold usable. rewrite !filter_In. tauto. }
  split.
  - intros (x & Hx & Ht). apply Hin in Hx as [Hx (k' & n' & Hrest)]. exists x. split; [done|].
    destruct Hrest as [Ht' Hrest]. rewrite Ht in Ht'. injection Ht' as -> ->. done.
  - intros (x & Hx & Hrest). exists x. split; [|apply Hrest]. apply Hin. eauto.
Qed.

Lemma open_spec e now d d' s :
  table_ok (raw_rows d) → open e now d = (d', Ok s) →
  let m := default initial_meta (disk_meta d) in
  0 ≤ m_highwater m ≤ now ∧ highwater s = now ∧ m_highwater (meta (db s)) = now ∧
  generation s = m_generation m ∧ leases s = [] ∧ fault s = None ∧ popular_targets (db s) = [] ∧
  m_saved (meta (db s)) = m_saved m ∧
  bm_wf (query_seconds (db s)) ∧
  ∀ k n, bm_get k (query_seconds (db s)) = Some n ↔ ∃ r, r ∈ raw_rows d ∧ restorable now r k n.
Proof.
  intros Hd Ho m. unfold open in Ho. destruct (open_files e); [|done]. fold m in Ho.
  destruct (attempt e (Statement 0)); [|done]. destruct (bad_meta m) eqn:Hb; [done|].
  destruct (Z.ltb_spec now (m_highwater m)); [by destruct (attempt e (Statement 1))|].
  assert (0 ≤ m_highwater m) by (unfold bad_meta in Hb; boolprop; lia).
  destruct (migrate e m (set_meta m d)) as [[m1 d1]|] eqn:Hmig; [|done].
  assert (Hm1 : m_highwater m1 = m_highwater m ∧ m_generation m1 = m_generation m ∧ m_saved m1 = m_saved m ∧
    raw_rows d1 = raw_rows d).
  { unfold migrate in Hmig. destruct (_ =? 1); [unbind Hmig|]; by injection Hmig as <- <-. }
  destruct Hm1 as (Hhw & Hg & Hsv & Hrows). destruct (restored_health _ _ _); [|done].
  unfold restore in Ho. destruct (attempt e (Statement 5)); [|done]. destruct (_ <? 0); [done|].
  destruct (attempt e (Statement 6)); [|done]. destruct (if has_last_seen d1 then _ else _); [|done].
  destruct (attempt e (Statement 12)); [|done]. rewrite Hhw, Z.max_r in Ho by lia.
  destruct (validate_restore _ _ _ _ _) as [[rows m2]|] eqn:Hv; [|done].
  assert (Hraw : raw_rows (if has_last_seen d1 then d1 else
    mkDisk (disk_meta d1) (has_expired d1) true (raw_rows d1) [] (disk_popular d1) (disk_file d1)) = raw_rows d)
    by by destruct (has_last_seen d1).
  cbn [raw_rows] in Hv. rewrite Hraw in Hv.
  apply validate_restore_spec in Hv as (_ & Hget & Hs2 & _ & Hg2); [|lia|done].
  destruct (advance _ _ _) as [s1|] eqn:Ha; [|done]. injection Ho as _ <-.
  unfold advance in Ha. unbind Ha. injection Ha as <-. simpl. rewrite Z.max_id.
  split_and!; try done; try lia; try congruence; [apply bm_filter_wf, fold_insert_wf; constructor|].
  intros k n. rewrite prune_rows_get by lia. unfold in_window.
  destruct (Z.ltb_spec (now - WINDOW_SECONDS) (key_second k)), (Z.leb_spec (key_second k) now); simpl;
    try apply Hget; (split; [done|]; intros (r & _ & (_ & _ & _ & ? & _)); lia).
Qed.

(** What a row of the ledger must be like to survive a restart. *)
Definition storable (k : key) : Prop :=
  canonical (key_domain k) = true ∧ str_len (key_domain k) ≤ 1024 ∧ in_u u16_max k.1.1.2 ∧ in_u u16_max k.1.2.

Definition typed_event (e : Event) : Prop := in_u u16_max (rr_type e) ∧ in_u u16_max (class e).

Lemma tracks_storable base history s k n :
  (∀ k n, bm_get k base = Some n → storable k) → Forall typed_event history → tracks base history s →
  bm_get k (query_seconds (db s)) = Some n → storable k ∧ 0 < n.
Proof.
  intros Hb Hh Ht. rewrite (tracks_get _ _ _ Ht). cbn zeta. destruct (in_window _ _); [|done]. simpl.
  destruct (Z.ltb_spec 0 (default 0 (bm_get k base) + occurrences k history)); [|done]. intros [= <-]. split; [|done].
  destruct (bm_get k base) as [m|] eqn:Hk; [eauto|]. simpl in *.
  destruct (occurrences_pos k history) as (ev & Hev & Hv & <-); [lia|]. rewrite Forall_forall in Hh.
  destruct (Hh _ Hev) as [? ?]. unfold valid in Hv. boolprop. split_and!; done.
Qed.

(** A store with the window of receipts has names in normal form. *)
Lemma tracks_canonical base history s k n :
  (∀ k n, bm_get k base = Some n → canonical (key_domain k) = true) → tracks base history s →
  bm_get k (query_seconds (db s)) = Some n → canonical (key_domain k) = true ∧ 0 < n.
Proof.
  intros Hb Ht. rewrite (tracks_get _ _ _ Ht). cbn zeta. destruct (in_window _ _); [|done]. simpl.
  destruct (Z.ltb_spec 0 (default 0 (bm_get k base) + occurrences k history)); [|done]. intros [= <-]. split; [|done].
  destruct (bm_get k base) as [m|] eqn:Hk; [eauto|]. simpl in *.
  destruct (occurrences_pos k history) as (ev & _ & Hv & <-); [lia|]. unfold valid in Hv. boolprop. done.
Qed.

Lemma batch_ok base history e events now h s h' s' r :
  (∀ k n, bm_get k base = Some n → canonical (key_domain k) = true) → tracks base history s →
  store_ok s → batch e events now h s = (h', s', r) →
  store_ok s' ∧ popular_targets (db s') = popular_targets (db s) ∧ generation s' = generation s ∧ leases s' = leases s.
Proof.
  intros Hb Ht Hs Hbt. pose proof (batch_tracks _ _ _ _ _ _ _ _ _ _ Ht Hbt) as Ht'.
  assert (Hsame : popular_targets (db s') = popular_targets (db s) ∧ generation s' = generation s ∧ leases s' = leases s).
  { unfold batch in Hbt. destruct events; [by injection Hbt as <- <- <-|]. destruct (fault s); [by injection Hbt as <- <- <-|].
    destruct (save_batch _ _ _ _ _) as [[c s1]|] eqn:Hsb; injection Hbt as <- <- <-; [|done].
    apply save_batch_spec in Hsb as (_ & _ & _ & _ & _ & _ & _ & ? & ? & _ & ? & _). done. }
  split; [|done]. destruct Hsame as (Hp & Hg & Hl), Hs. split; unfold generation_row; rewrite ?Hp, ?Hg, ?Hl; try done.
  - intros k n. by eapply tracks_canonical.
  - apply Ht'.
Qed.

(** The database of [s], as a later process finds it. *)
Definition stored (s : Store) (d : disk) : Prop :=
  disk_meta d = Some (meta (db s)) ∧ table_ok (raw_rows d) ∧
  ∀ k n, bm_get k (query_seconds (db s)) = Some n ↔ ∃ r, r ∈ raw_rows d ∧ typed_row r = Some (k, n).

(** a restart loses nothing that is still in the window: when the
    database of a store that holds the window of [base] and [history] is opened
    again, the new store holds the window of the same receipts, ending now. *)
Theorem restart_keeps_the_window base history s e now d d' s' :
  (∀ k n, bm_get k base = Some n → storable k) → Forall typed_event history →
  tracks base history s → stored s d → open e now d = (d', Ok s') →
  tracks base history s' ∧ highwater s' = now ∧ store_ok s' ∧ leases s' = [].
Proof.
  intros Hb Hh Ht (Hm & Hd & Hrows) Ho.
  destruct (open_spec e now d d' s' Hd Ho) as (Hnow & Hhw & Hmeta & Hg & Hl & Hf & Hp & _ & Hwf & Hget).
  rewrite Hm in Hnow. change (0 ≤ m_highwater (meta (db s)) ≤ now) in Hnow. rewrite (tracks_meta _ _ _ Ht) in Hnow.
  assert (Ht' : tracks base history s').
  { apply (window_moves _ _ _ _ Ht); [lia|congruence|done|]. intros k. rewrite Hhw.
    destruct (in_window now k) eqn:Hw; unfold in_window in Hw.
    - apply option_eq. intros n. rewrite Hget, Hrows. split; intros (r & Hr & Hk); [exists r; split; [done|apply Hk]|].
      exists r. split; [done|]. pose proof (proj2 (Hrows k n) (ex_intro _ r (conj Hr Hk))) as Hkn.
      destruct (tracks_storable _ _ _ _ _ Hb Hh Ht Hkn) as [(? & ? & ? & ?) ?]. boolprop. split_and!; done.
    - apply eq_None_not_Some. intros [n Hn]. apply Hget in Hn as (r & _ & (_ & _ & _ & ? & _)).
      apply andb_false_iff in Hw as [?%Z.ltb_ge|?%Z.leb_gt]; lia. }
  split_and!; try done. split.
  - intros k n Hk. destruct (tracks_storable _ _ _ _ _ Hb Hh Ht' Hk) as [[? _] ?]. done.
  - done.
  - rewrite Hp. constructor.
  - intros g t n. unfold generation_row. by rewrite Hp.
  - rewrite Hl. split; [constructor|simpl; lia].
Qed.
End Store.

(** ** Witnesses *)

Section Witnesses.
#[local] Existing Instance sample_names.
#[local] Existing Instance DnsWire.sample_front.

(** Names as they are, and the dates of a calendar of four digits. *)
Definition sample_stats : StatsCrate := {|
  name_to_ascii n := match n.1 with [] => lit "." | s => s end;
  name_to_lowercase n := n;
  is_timestamp t := (0 <=? t) && (t <=? 253402300799);
  rfc3339 t := Ok (to_dec t);
  library_error := lit "refused";
|}.
#[local] Existing Instance sample_stats.

Lemma sample_stats_laws : StatsLaws.
Proof. split. intros [[|x s] b]; done. Qed.

(** One name asked a hundred and fifty times in one second. *)
Definition sample_key : key := ((lit "a.", 1, 1), 5).
Definition sample_ledger : bmap key Z := [(sample_key, 150)].
Definition sample_meta : Meta := mkMetaRow 2 10 0 0 150 150 0 0 0 None 0.
Definition sample_store : Store := mkStore (mkDb sample_meta sample_ledger [] []) 10 0 [] None None.

Lemma sample_ledger_get k : bm_get k sample_ledger = if decide (k = sample_key) then Some 150 else None.
Proof. unfold sample_ledger. by rewrite bm_get_cons. Qed.

Lemma sample_tracks : tracks sample_ledger [] sample_store.
Proof.
  split; try done.
  - repeat constructor.
  - intros k n. rewrite sample_ledger_get. case_decide as Hk; [subst|done]. by intros [= <-].
  - intros e He. by apply elem_of_nil in He.
  - intros k. cbn zeta. change (query_seconds (db sample_store)) with sample_ledger.
    rewrite sample_ledger_get. case_decide as Hk; [by subst|]. simpl. by rewrite andb_false_r.
Qed.

Lemma sample_storable k n : bm_get k sample_ledger = Some n → storable k.
Proof.
  rewrite sample_ledger_get. case_decide as Hk; [subst|done]. intros _. by repeat split; vm_compute.
Qed.

Lemma sample_store_ok : store_ok sample_store.
Proof.
  split; try done; simpl.
  - intros k n Hk. apply (tracks_canonical sample_ledger [] sample_store); [|apply sample_tracks|done].
    intros k' n' Hk'. by apply sample_storable in Hk' as [? _].
  - repeat constructor.
  - constructor.
  - split; [constructor|lia].
Qed.

(** Its database, with a damaged row beside the good one. *)
Definition sample_disk : disk :=
  mkDisk (Some sample_meta) true true
    [mkRaw 1 (Text (lit "a.")) (Int 1) (Int 1) (Int 5) (Int 150); mkRaw 2 Blob (Int 1) (Int 1) (Int 6) (Int 9)] [] [] None.

Lemma sample_stored : stored sample_store sample_disk.
Proof.
  split_and!; [done|split; simpl|].
  - repeat constructor.
  - apply NoDup_singleton.
  - intros k n. change (query_seconds (db sample_store)) with sample_ledger. rewrite sample_ledger_get. simpl. split.
    + case_decide as Hk; [|done]. intros [= <-]. eexists. split; [by left|]. by subst.
    + intros (r & Hr & Ht). apply elem_of_cons in Hr as [->|[->|[]%elem_of_nil]%elem_of_cons]; [|done].
      injection Ht as <- <-. by rewrite decide_True.
Qed.

Lemma restart_keeps_the_window_witness :
  ∃ d' s', open (fun _ => None) 20 sample_disk = (d', Ok s') ∧ query_seconds (db s') = sample_ledger ∧
    tracks sample_ledger [] s' ∧ highwater s' = 20.
Proof.
  eexists. eexists. split; [vm_compute; reflexivity|]. split; [reflexivity|].
  split; (eapply (restart_keeps_the_window sample_ledger [] sample_store (fun _ => None) 20 sample_disk);
    [apply sample_storable|constructor|apply sample_tracks|apply sample_stored|vm_compute; reflexivity]).
Defined.
End Witnesses.
End DnsStats.
