(* ===== verification/DnsStatsRun.v ===== *)
(** * Counting DNS questions while serving

    [packages/dns-server/src/statistics/query_statistics.rs] and the loop of
    [query_statistics_store.rs]: any number of producers record questions
    through a bounded channel, without waiting; one thread owns the store.
    Stopping closes admission in an atomic word that also counts the producers
    that are inside, so that nothing is accepted after the last drain. *)

From S2P Require Import Prelude Interleave Order OrdMap Str DnsPacket DnsCache DnsWire DnsStats.
Import DnsPacket DnsStats.
Open Scope Z_scope.

Module DnsStatsRun.
Section Run.
Context `{StatsCrate}.

Definition INGRESS_CAPACITY : nat := 4096.
Definition ADMISSION_STOP : Z := 2 ^ 63.

Inductive RecordOutcome : Type := Accepted | DroppedFull | Closed.

Inductive Command : Type :=
| Record_ (event : Event)
| Refresh
| Page (g : Z) (after : option target)
| Wake.

(** The channel, the counters and the store; the rest are histories: what
    entered the channel, how many of those were counted, what the worker took
    out in batches, and what of that was saved. *)
Record world : Type := mkWorld {
  health : Health;
  queue : list Command;
  rx_closed : bool;
  store : Store;
  sent : list Event;
  counted : nat;
  processed : list Event;
  committed : list Event;
}.

(** What happens around a step: failures and clock of the store, which leases
    are held, whether a sender is left for a new lease, whether a weak exchange
    fails for no reason, whether the opener went away. *)
Record tick : Type := mkTick {
  io : env;
  clock : Z;
  live : Z → bool;
  owner_alive : bool;
  spurious : bool;
  abandoned : bool;
}.

(** Where a recording producer is, the owner that stops the worker, a client
    of the worker, and the worker. *)
Inductive producer : Type :=
| CheckStopping (e : Event)
| LoadAdmission (e : Event)
| Exchange (e : Event) (value : Z)
| TrySend (e : Event)
| Count_ (o : RecordOutcome)
| Leave (o : RecordOutcome)
| Returned (o : RecordOutcome).

Inductive worker : Type :=
| Ready
| Top (next : option Command)
| AwaitProducers (next : option Command)
| CloseReceiver (next : option Command)
| Receive (next : option Command)
| Handle (c : Command)
| Fill (batch : list Event)
| Save (batch : list Event) (next : option Command)
| FinalRefresh
| FinalPersist (r : result unit str)
| Finished (r : result unit str).

Inductive process : Type :=
| Producer (p : producer)
| Asking (c : Command)
| Asked (delivered : bool)
| StopAdmission
| StopFlag
| StopWake
| Stopped
| Worker (w : worker).

Definition set_health h s :=
  mkWorld h (queue s) (rx_closed s) (store s) (sent s) (counted s) (processed s) (committed s).
Definition set_queue q s :=
  mkWorld (health s) q (rx_closed s) (store s) (sent s) (counted s) (processed s) (committed s).
Definition set_store st s :=
  mkWorld (health s) (queue s) (rx_closed s) st (sent s) (counted s) (processed s) (committed s).
Definition set_admission a h :=
  mkHealth (accepted h) (saved h) (expired h) (dropped h) (unsaved h) (stopping h) a (error h).
Definition set_stopping h :=
  mkHealth (accepted h) (saved h) (expired h) (dropped h) (unsaved h) true (admission h) (error h).

(** ** Producers *)

(** One round of the loop of [Admission::enter]: the stop bit, the exhausted
    count, or the value to exchange. *)
Definition next_admission (value : Z) : option Z :=
  if negb (Z.land value ADMISSION_STOP =? 0) then None
  else
    match checked_add u64_max value 1 with
    | Some n => if Z.land n ADMISSION_STOP =? 0 then Some n else None
    | None => None
    end.

(** [mpsc::Sender::try_send]. *)
Definition try_send (c : Command) (s : world) : world * RecordOutcome :=
  if rx_closed s then (s, Closed)
  else if (INGRESS_CAPACITY <=? length (queue s))%nat then (s, DroppedFull)
  else (set_queue (queue s ++ [c]) s, Accepted).

Definition log_sent (e : Event) (o : RecordOutcome) (s : world) : world :=
  match o with
  | Accepted => mkWorld (health s) (queue s) (rx_closed s) (store s) (sent s ++ [e]) (counted s) (processed s) (committed s)
  | _ => s
  end.

(** [record_at], with [Admission::enter] and the drop of its guard. *)
Definition record_step (t : tick) (s : world) (p : producer) : option (world * producer) :=
  let h := health s in
  match p with
  | CheckStopping e => Some (s, if stopping h then Returned Closed else LoadAdmission e)
  | LoadAdmission e => Some (s, Exchange e (admission h))
  | Exchange e value =>
      match next_admission value with
      | None => Some (s, Returned Closed)
      | Some n =>
          if (admission h =? value) && negb (spurious t) then Some (set_health (set_admission n h) s, TrySend e)
          else Some (s, Exchange e (admission h))
      end
  | TrySend e =>
      let '(s', o) := try_send (Record_ e) s in
      Some (log_sent e o s', Count_ o)
  | Count_ Accepted =>
      Some (mkWorld (add_accepted 1 h) (queue s) (rx_closed s) (store s) (sent s) (S (counted s)) (processed s)
              (committed s), Leave Accepted)
  | Count_ DroppedFull => Some (set_health (add_dropped 1 h) s, Leave DroppedFull)
  | Count_ Closed => Some (s, Leave Closed)
  | Leave o => Some (set_health (set_admission (fetch_add (admission h) (-1)) h) s, Returned o)
  | Returned _ => None
  end.

(** ** The worker *)

Definition is_ok {A E} (r : result A E) : bool := match r with Ok _ => true | Err _ => false end.
Definition record_failure {A} (r : result A str) (h : Health) : Health :=
  match r with Ok _ => h | Err text => record_error text h end.

(** A batch; the error of a fault that was already latched is not reported
    again. *)
Definition save_events (t : tick) (events : list Event) (s : world) : world :=
  let '(h, st, r) := batch (io t) events (clock t) (health s) (store s) in
  let h := match fault (store s) with None => record_failure r h | Some _ => h end in
  mkWorld h (queue s) (rx_closed s) st (sent s) (counted s) (processed s ++ events)
    (committed s ++ if is_ok r then events else []).

(** A requested refresh; its failure is written to the database once. *)
Definition serve_refresh (t : tick) (s : world) : world :=
  let '(st, r) := refresh (io t) (clock t) (live t) (owner_alive t) (health s) false (store s) in
  match r with
  | Ok _ => set_store st s
  | Err text =>
      let h := record_error text (health s) in
      match persist_health (io t) h st with
      | Ok st' => set_health h (set_store st' s)
      | Err text' => set_health (record_error text' h) (set_store st s)
      end
  end.

Definition serve_page (t : tick) (g : Z) (after : option target) (s : world) : world :=
  set_health (record_failure (page (io t) g after (store s)) (health s)) s.

(** The last write of the counters, and the result the thread leaves. *)
Definition final_persist (t : tick) (r : result unit str) (s : world) : world * result unit str :=
  match persist_health (io t) (health s) (store s) with
  | Ok st => (set_store st s, r)
  | Err text => (set_health (record_error text (health s)) s, match r with Ok _ => Err text | Err e => Err e end)
  end.

(** [run_with_clock] from the moment the store is open.  The channel closes in
    here only: a sender lives until it has signalled the stop, and a command is
    queued then. *)
Definition worker_step (t : tick) (s : world) (w : worker) : option (world * worker) :=
  let h := health s in
  match w with
  | Ready => Some (if abandoned t then set_health (set_stopping h) s else s, Top None)
  | Top next =>
      if stopping h then
        Some (set_health (set_admission (Z.lor (admission h) ADMISSION_STOP) h) s, AwaitProducers next)
      else Some (s, Receive next)
  | AwaitProducers next =>
      Some (s, if admission h =? ADMISSION_STOP then CloseReceiver next else AwaitProducers next)
  | CloseReceiver next =>
      Some (mkWorld h (queue s) true (store s) (sent s) (counted s) (processed s) (committed s), Receive next)
  | Receive (Some c) => Some (s, Handle c)
  | Receive None =>
      match queue s with
      | c :: q => Some (set_queue q s, Handle c)
      | [] => if rx_closed s then Some (s, FinalRefresh) else None
      end
  | Handle (Record_ e) => Some (s, Fill [e])
  | Handle Refresh => Some (serve_refresh t s, Top None)
  | Handle (Page g after) => Some (serve_page t g after s, Top None)
  | Handle Wake => Some (s, Top None)
  | Fill events =>
      if (length events <? BATCH_CAPACITY)%nat then
        match queue s with
        | Record_ e :: q => Some (set_queue q s, Fill (events ++ [e]))
        | c :: q => Some (set_queue q s, Save events (Some c))
        | [] => Some (s, Save events None)
        end
      else Some (s, Save events None)
  | Save events next => Some (save_events t events s, Top next)
  | FinalRefresh =>
      let '(st, r) := refresh (io t) (clock t) (live t) (owner_alive t) h true (store s) in
      Some (set_health (record_failure r h) (set_store st s),
            FinalPersist match r with Ok _ => Ok tt | Err text => Err text end)
  | FinalPersist r => let '(s', r') := final_persist t r s in Some (s', Finished r')
  | Finished _ => None
  end.

(** ** Everybody *)

(** A client waits for room in the channel; [signal_stop] is three steps. *)
Definition stats_step (i : nat) (t : tick) (s : world) (p : process) : option (world * process) :=
  let h := health s in
  match p with
  | Producer p => match record_step t s p with Some (s', p') => Some (s', Producer p') | None => None end
  | Asking c =>
      match try_send c s with
      | (s', Accepted) => Some (s', Asked true)
      | (_, DroppedFull) => None
      | (_, Closed) => Some (s, Asked false)
      end
  | StopAdmission => Some (set_health (set_admission (Z.lor (admission h) ADMISSION_STOP) h) s, StopFlag)
  | StopFlag => Some (set_health (set_stopping h) s, StopWake)
  | StopWake => Some ((try_send Wake s).1, Stopped)
  | Worker w => match worker_step t s w with Some (s', w') => Some (s', Worker w') | None => None end
  | Asked _ | Stopped => None
  end.

(** Producers, clients and owners come and go; there is one worker. *)
Definition begins (p : process) : Prop :=
  match p with
  | Producer (CheckStopping _) | StopAdmission | Asking Refresh | Asking (Page _ _) => True
  | _ => False
  end.

(** The worker as it is spawned, on an open store and restored counters. *)
Definition opened (h : Health) (st : Store) : config world process :=
  mkConfig (mkWorld h [] false st [] 0 [] []) {[ 0%nat := Worker Ready ]}.

(** ** Admission *)

Definition inside (p : process) : Z :=
  match p with
  | Producer (TrySend _) | Producer (Count_ _) | Producer (Leave _) => 1
  | _ => 0
  end.

(** The stop bit, and the count below it. *)
Definition eq63 : relation Z := fun a b => a mod 2 ^ 63 = b mod 2 ^ 63.

#[local] Instance eq63_preorder : PreOrder eq63.
Proof. split; [done|]. intros ? ? ? ? ?. unfold eq63 in *. congruence. Qed.

Lemma eq63_add a b k : eq63 a b → eq63 (a + k) (b + k).
Proof. unfold eq63. intros He. by rewrite <-Zplus_mod_idemp_l, He, Zplus_mod_idemp_l. Qed.

(** Bit 63 of a word is the stop bit. *)
Lemma land_stop v : (Z.land v ADMISSION_STOP =? 0) = negb (Z.testbit v 63).
Proof.
  unfold ADMISSION_STOP. destruct (Z.testbit v 63) eqn:Hb; simpl.
  - apply Z.eqb_neq. intros Hz. apply (f_equal (fun x => Z.testbit x 63)) in Hz.
    by rewrite Z.land_spec, Z.bits_0, Z.pow2_bits_true, Hb in Hz by lia.
  - apply Z.eqb_eq, Z.bits_inj'. intros n Hn. rewrite Z.land_spec, Z.bits_0, Z.pow2_bits_eqb by lia.
    destruct (Z.eqb_spec 63 n) as [<-|]; [by rewrite Hb|apply andb_false_r].
Qed.

Lemma stop_bit v : 0 ≤ v < 2 ^ 64 → Z.testbit v 63 = (ADMISSION_STOP <=? v).
Proof.
  intros Hv. unfold ADMISSION_STOP. destruct (Z.leb_spec (2 ^ 63) v) as [Hge|Hlt].
  - apply Z.testbit_true; [lia|]. assert (v / 2 ^ 63 = 1) as ->; [|done].
    symmetry. apply Z.div_unique with (v - 2 ^ 63); lia.
  - apply Z.testbit_false; [lia|]. by rewrite Z.div_small by lia.
Qed.

Lemma lor_stop v : Z.lor v ADMISSION_STOP = if Z.testbit v 63 then v else v + ADMISSION_STOP.
Proof.
  unfold ADMISSION_STOP. destruct (Z.testbit v 63) eqn:Hb.
  - apply Z.bits_inj'. intros n Hn. rewrite Z.lor_spec, Z.pow2_bits_eqb by lia.
    destruct (Z.eqb_spec 63 n) as [<-|]; [by rewrite Hb|apply orb_false_r].
  - assert (Hland : Z.land v (2 ^ 63) = 0) by (apply Z.eqb_eq; etrans; [apply (land_stop v)|by rewrite Hb]).
    rewrite Z.add_nocarry_lxor by done. symmetry. by apply Z.lxor_lor.
Qed.

Lemma lor_stop_eq63 v : eq63 (Z.lor v ADMISSION_STOP) v.
Proof.
  rewrite lor_stop. unfold eq63, ADMISSION_STOP. destruct (Z.testbit v 63); [done|].
  replace (v + 2 ^ 63) with (v + 1 * 2 ^ 63) by lia. by rewrite Z_mod_plus_full.
Qed.

Lemma lor_stop_range v : 0 ≤ v < 2 ^ 64 → ADMISSION_STOP ≤ Z.lor v ADMISSION_STOP < 2 ^ 64.
Proof.
  intros Hv. rewrite lor_stop, stop_bit by done. unfold ADMISSION_STOP. destruct (Z.leb_spec (2 ^ 63) v); lia.
Qed.

Lemma fetch_sub_eq63 v : eq63 (fetch_add v (-1)) (v - 1).
Proof.
  unfold eq63, fetch_add. change (2 ^ 64) with (2 * 2 ^ 63). rewrite (Z.mul_comm 2), Z.rem_mul_r by lia.
  rewrite Z.mul_comm, Z_mod_plus_full, Z.mod_mod by lia. f_equal.
Qed.

Lemma next_admission_succ v n : next_admission v = Some n → n = v + 1.
Proof.
  unfold next_admission, checked_add. destruct (negb _); [done|]. destruct (_ <=? _); [|done].
  destruct (_ =? 0); [|done]. by intros [= <-].
Qed.

Lemma next_admission_Some v n :
  0 ≤ v < 2 ^ 64 → next_admission v = Some n → n = v + 1 ∧ v + 1 < ADMISSION_STOP.
Proof.
  unfold next_admission. intros Hv. rewrite land_stop, stop_bit, negb_involutive by done.
  destruct (Z.leb_spec ADMISSION_STOP v); [done|]. unfold checked_add. destruct (_ <=? _); [|done].
  rewrite land_stop, stop_bit by (unfold ADMISSION_STOP in *; lia).
  destruct (Z.leb_spec ADMISSION_STOP (v + 1)); [done|]. by intros [= <-].
Qed.

(** What a step does to the counters that the protocol uses. *)
Definition same_protocol (h h' : Health) : Prop :=
  accepted h' = accepted h ∧ stopping h' = stopping h ∧ admission h' = admission h.

Lemma record_failure_protocol {A} (r : result A str) h : same_protocol h (record_failure r h).
Proof. by destruct r. Qed.

Lemma batch_protocol e events now h st : same_protocol h (batch e events now h st).1.1.
Proof.
  unfold batch. destruct events; [done|]. destruct (fault st); [done|].
  destruct (save_batch _ _ _ _ _) as [[c s']|]; [|done]. simpl. by destruct (c_invalid c =? 0).
Qed.

Lemma save_events_protocol t events s : same_protocol (health s) (health (save_events t events s)).
Proof.
  unfold save_events. pose proof (batch_protocol (io t) events (clock t) (health s) (store s)) as Hb.
  destruct (batch _ _ _ _ _) as [[h st] r]. simpl in *. by destruct (fault (store s)), r.
Qed.

Lemma serve_refresh_protocol t s : same_protocol (health s) (health (serve_refresh t s)).
Proof.
  unfold serve_refresh. destruct (refresh _ _ _ _ _ _ _) as [st [r|text]]; [done|].
  by destruct (persist_health _ _ _).
Qed.

(** The worker only ever sets the stop bit. *)
Lemma worker_admission t s w s' w' :
  worker_step t s w = Some (s', w') →
  admission (health s') = admission (health s) ∨
  admission (health s') = Z.lor (admission (health s)) ADMISSION_STOP.
Proof.
  destruct w as [|next|next|next|[c|]|[e| |g a|]|events|events next| |r|r]; simpl; intros Hst.
  - injection Hst as <- <-. destruct (abandoned t); auto.
  - destruct (stopping _); injection Hst as <- <-; auto.
  - injection Hst as <- <-. auto.
  - injection Hst as <- <-. auto.
  - injection Hst as <- <-. auto.
  - destruct (queue s); [destruct (rx_closed s); [|done]|]; injection Hst as <- <-; auto.
  - injection Hst as <- <-. auto.
  - injection Hst as <- <-. left. apply serve_refresh_protocol.
  - injection Hst as <- <-. left. apply record_failure_protocol.
  - injection Hst as <- <-. auto.
  - destruct (_ <? _)%nat; [destruct (queue s) as [|[] q]|]; injection Hst as <- <-; auto.
  - injection Hst as <- <-. left. apply save_events_protocol.
  - destruct (refresh _ _ _ _ _ _ _) as [st r]. injection Hst as <- <-. left. apply record_failure_protocol.
  - unfold final_persist in Hst. destruct (persist_health _ _ _); injection Hst as <- <-; auto.
  - done.
Qed.

Lemma try_send_health c s : health (try_send c s).1 = health s.
Proof. unfold try_send. destruct (rx_closed s); [done|]. by destruct (_ <=? _)%nat. Qed.

Lemma log_sent_health e o s : health (log_sent e o s) = health s.
Proof. by destruct o. Qed.

(** Below the stop bit the word counts the producers inside. *)
Lemma admission_step i t s p s' p' :
  stats_step i t s p = Some (s', p') →
  eq63 (admission (health s') + - inside p') (admission (health s) + - inside p).
Proof.
  destruct p as [p|c|d| | | | |w]; simpl; intros Hst; try done.
  - destruct p as [e|e|e v|e|[]|o|o]; simpl in Hst.
    + injection Hst as <- <-. by destruct (stopping _).
    + by injection Hst as <- <-.
    + destruct (next_admission v) as [n|] eqn:Hn; [|by injection Hst as <- <-].
      destruct (Z.eqb_spec (admission (health s)) v) as [<-|]; [|by injection Hst as <- <-].
      destruct (spurious t); [by injection Hst as <- <-|]. injection Hst as <- <-. simpl.
      apply next_admission_succ in Hn as ->. unfold eq63. f_equal. lia.
    + destruct (try_send (Record_ e) s) as [s1 o] eqn:Ht. injection Hst as <- <-. simpl.
      by rewrite log_sent_health, <-(try_send_health (Record_ e) s), Ht.
    + by injection Hst as <- <-.
    + by injection Hst as <- <-.
    + by injection Hst as <- <-.
    + injection Hst as <- <-. simpl. rewrite Z.add_0_r. apply fetch_sub_eq63.
    + done.
  - pose proof (try_send_health c s) as Hh. destruct (try_send c s) as [s1 []]; try done; injection Hst as <- <-;
      simpl in *; by rewrite ?Hh.
  - injection Hst as <- <-. simpl. rewrite !Z.add_0_r. apply lor_stop_eq63.
  - by injection Hst as <- <-.
  - injection Hst as <- <-. simpl. by rewrite try_send_health.
  - destruct (worker_step t s w) as [[s1 w1]|] eqn:Hw; [|done]. injection Hst as <- <-. simpl. rewrite !Z.add_0_r.
    apply worker_admission in Hw as [->| ->]; [done|apply lor_stop_eq63].
Qed.

(** ** Accounting and the window *)

Definition command_events (c : Command) : list Event := match c with Record_ e => [e] | _ => [] end.
Definition next_events (n : option Command) : list Event := match n with Some c => command_events c | None => [] end.

(** The receipts the worker has taken and not yet processed. *)
Definition hand (w : worker) : list Event :=
  match w with
  | Top n | AwaitProducers n | CloseReceiver n | Receive n => next_events n
  | Handle c => command_events c
  | Fill b => b
  | Save b n => b ++ next_events n
  | _ => []
  end.

Definition finishing (w : worker) : Prop :=
  match w with FinalRefresh | FinalPersist _ | Finished _ => True | _ => False end.

Section Invariant.
Context (base : bmap key Z) (h0 : Health).

(** The counters are the saturated sums of what happened, and the store holds
    the window of what was saved. *)
Record good (s : world) : Prop := {
  good_admission : 0 ≤ admission (health s) < 2 ^ 64;
  good_health : health_ok (health s);
  good_accepted : accepted (health s) = Z.min i64_max (accepted h0 + Z.of_nat (counted s));
  good_classes : ∃ a b c, 0 ≤ a ∧ 0 ≤ b ∧ 0 ≤ c ∧ a + b + c = Z.of_nat (length (processed s)) ∧
    saved (health s) = Z.min i64_max (saved h0 + a) ∧ expired (health s) = Z.min i64_max (expired h0 + b) ∧
    unsaved (health s) = Z.min i64_max (unsaved h0 + c);
  good_tracks : tracks base (committed s) (store s);
  good_commits : sublist (committed s) (processed s) ∧ (fault (store s) = None → committed s = processed s);
}.

(** What the worker relies on, and that only producers record. *)
Definition relies (i : nat) (p : process) (s : world) : Prop :=
  match p with
  | Worker w =>
      i = 0%nat ∧ sent s = processed s ++ hand w ++ flat_map command_events (queue s) ∧
      (finishing w → rx_closed s = true ∧ queue s = [])
  | Asking c => command_events c = []
  | _ => True
  end.

Lemma quiet_good s s' :
  good s → 0 ≤ admission (health s') < 2 ^ 64 → in_u i64_max (dropped (health s')) →
  (accepted (health s'), saved (health s'), expired (health s'), unsaved (health s')) =
    (accepted (health s), saved (health s), expired (health s), unsaved (health s)) →
  (store s', counted s', processed s', committed s') = (store s, counted s, processed s, committed s) →
  good s'.
Proof.
  intros [Ha Hh Hacc Hc Ht Hco] Ha' Hd [= E1 E2 E3 E4] [= E5 E6 E7 E8].
  split; rewrite ?E1, ?E2, ?E3, ?E4, ?E5, ?E6, ?E7, ?E8; try done.
  destruct Hh as (? & ? & ? & _ & ?). unfold health_ok. rewrite E1, E2, E3, E4. done.
Qed.

Lemma min_add m x y : 0 ≤ y → Z.min m (Z.min m x + y) = Z.min m (x + y).
Proof. lia. Qed.

Lemma save_events_good t events s : good s → good (save_events t events s).
Proof.
  intros Hg. pose proof (save_events_protocol t events s) as (Hpa & _ & Hpm). revert Hpa Hpm. unfold save_events.
  destruct (batch (io t) events (clock t) (health s) (store s)) as [[h st] r] eqn:Hb. cbn [health]. intros Hpa Hpm.
  destruct (batch_accounts _ _ _ _ _ _ _ _ (good_health _ Hg) Hb)
    as (a & b & c & Ha & Hbb & Hc & Hsum & Hs & Hx & Hu & Hac & Hdr & _).
  pose proof (batch_tracks _ _ _ _ _ _ _ _ _ _ (good_tracks _ Hg) Hb) as Ht.
  destruct (good_health _ Hg) as (? & ? & ? & ? & ?).
  assert (Hcnt : ∀ f : Health → Z, f = saved ∨ f = expired ∨ f = unsaved ∨ f = dropped →
    f (match fault (store s) with None => record_failure r h | Some _ => h end) = f h).
  { intros f Hf. destruct (fault (store s)), r; destruct_or! Hf; by subst. }
  split; cbn [health store counted processed committed].
  - rewrite Hpm. apply Hg.
  - unfold health_ok. rewrite Hpa, !Hcnt by auto. rewrite Hs, Hx, Hu, Hdr. split_and!; try done; by apply add_in.
  - rewrite Hpa. apply Hg.
  - destruct (good_classes _ Hg) as (a0 & b0 & c0 & ? & ? & ? & Hsum0 & Hs0 & Hx0 & Hu0).
    exists (a0 + a), (b0 + b), (c0 + c). rewrite length_app, !Hcnt by auto.
    rewrite Hs, Hx, Hu, !add_min, Hs0, Hx0, Hu0. rewrite !min_add by done. split_and!; try lia; f_equal; lia.
  - destruct r; done.
  - destruct (good_commits _ Hg) as [Hsub Heq]. split.
    + apply sublist_app; [done|]. destruct (is_ok r); [done|apply sublist_nil_l].
    + intros Hf. unfold batch in Hb. destruct events as [|ev evs].
      { injection Hb as <- <- <-. simpl. by rewrite !app_nil_r, Heq. }
      destruct (fault (store s)) as [tx|] eqn:Hfs; [injection Hb as <- <- <-; congruence|].
      destruct (save_batch _ _ _ _ _) as [[cl s1]|]; injection Hb as <- <- <-; [|done]. by rewrite Heq.
Qed.

Lemma refresh_fault e now lv al h final st : fault (refresh e now lv al h final st).1 = fault st.
Proof.
  unfold refresh, prune_generations. destruct (fault st) eqn:Hf; [done|].
  destruct (prune_leases _ _ _ _ _) as [d [ls|]]; [|done]. destruct (_ && _); [done|].
  destruct (advance _ _ _) as [s2|] eqn:Ha; [|done]. unfold advance in Ha. unbind Ha. injection Ha as <-. simpl.
  destruct (checked_add _ _ _); [|done]. destruct (refresh_tables _ _ _ _ _); [|done].
  destruct (publish _ _) as [file [u|]]; [destruct final, al|destruct (attempt e (Statement 40))]; done.
Qed.

Lemma serve_refresh_good t s : good s → good (serve_refresh t s).
Proof.
  intros Hg. unfold serve_refresh.
  pose proof (refresh_tracks base (committed s) (io t) (clock t) (live t) (owner_alive t) (health s) false (store s)
    (good_tracks _ Hg)) as Ht.
  pose proof (refresh_fault (io t) (clock t) (live t) (owner_alive t) (health s) false (store s)) as Hf.
  destruct (refresh _ _ _ _ _ _ _) as [st [r|text]]; simpl in Ht, Hf.
  - destruct Hg. split; simpl; try done. by rewrite Hf.
  - destruct (persist_health _ _ _) as [st'|] eqn:Hp; destruct Hg; split; simpl; try done; [| |by rewrite Hf].
    + by apply (persist_health_tracks _ _ _ _ _ _ Hp).
    + unfold persist_health in Hp. unbind Hp. injection Hp as <-. simpl. by rewrite Hf.
Qed.

Lemma flat_map_snoc (q : list Command) c :
  flat_map command_events (q ++ [c]) = flat_map command_events q ++ command_events c.
Proof. rewrite flat_map_app. simpl. by rewrite app_nil_r. Qed.

(** A command without a receipt, or a receipt together with its history, may
    be appended at any time. *)
Lemma try_send_spec c s :
  let '(s', o) := try_send c s in
  (o = Accepted ∧ rx_closed s = false ∧ s' = set_queue (queue s ++ [c]) s) ∨ (o ≠ Accepted ∧ s' = s).
Proof.
  unfold try_send. destruct (rx_closed s) eqn:Hc; [auto|]. destruct (_ <=? _)%nat; [auto|]. auto.
Qed.

Lemma set_queue_good q s : good s → good (set_queue q s).
Proof. intros Hg. apply (quiet_good s); try done; apply Hg. Qed.

Lemma record_good t s p s' p' : good s → record_step t s p = Some (s', p') → good s'.
Proof.
  intros Hg Hst. pose proof (good_admission _ Hg) as Ha. destruct (good_health _ Hg) as (Hacc & _ & _ & Hdr & _).
  destruct p as [e|e|e v|e|[]|o|o]; simpl in Hst; try done; try (by injection Hst as <- <-).
  - destruct (next_admission v) as [n|] eqn:Hn; [|by injection Hst as <- <-].
    destruct (Z.eqb_spec (admission (health s)) v) as [<-|]; [|by injection Hst as <- <-].
    destruct (spurious t); [by injection Hst as <- <-|]. injection Hst as <- <-.
    apply next_admission_Some in Hn as [-> ?]; [|done]. apply (quiet_good s); simpl; try done.
    unfold ADMISSION_STOP in *. lia.
  - pose proof (try_send_spec (Record_ e) s) as Hq. destruct (try_send (Record_ e) s) as [s1 o].
    injection Hst as <- <-. destruct Hq as [(-> & _ & ->)|[Ho ->]].
    + apply (set_queue_good (queue s ++ [Record_ e])) in Hg. by apply (quiet_good _ _ Hg).
    + by destruct o.
  - injection Hst as <- <-. destruct Hg. split; simpl; try done.
    + destruct good_health0 as (? & ? & ? & ? & ?). split_and!; try done. simpl. apply add_in; [done|lia].
    + rewrite add_min, good_accepted0, min_add by lia. f_equal. lia.
  - injection Hst as <- <-. apply (quiet_good s); simpl; try done. apply add_in; [done|lia].
  - injection Hst as <- <-. apply (quiet_good s); simpl; try done. unfold fetch_add. apply Z.mod_pos_bound. lia.
Qed.

Lemma worker_good t s w s' w' : good s → worker_step t s w = Some (s', w') → good s'.
Proof.
  intros Hg. pose proof (good_admission _ Hg) as Ha. destruct (good_health _ Hg) as (Hacc & _ & _ & Hdr & _).
  destruct w as [|next|next|next|[c|]|[e| |g a|]|events|events next| |r|r]; simpl; intros Hst; try done;
    try (by injection Hst as <- <-).
  - injection Hst as <- <-. destruct (abandoned t); [|done]. by apply (quiet_good s).
  - destruct (stopping _); injection Hst as <- <-; [|done]. apply (quiet_good s); simpl; try done.
    pose proof (lor_stop_range _ Ha). unfold ADMISSION_STOP in *. lia.
  - injection Hst as <- <-. by apply (quiet_good s).
  - destruct (queue s); [destruct (rx_closed s); [|done]|]; injection Hst as <- <-; [done|by apply set_queue_good].
  - injection Hst as <- <-. by apply serve_refresh_good.
  - injection Hst as <- <-. unfold serve_page. destruct (page _ _ _ _); by apply (quiet_good s).
  - destruct (_ <? _)%nat; [destruct (queue s) as [|[] q]|]; injection Hst as <- <-; (done || by apply set_queue_good).
  - injection Hst as <- <-. by apply save_events_good.
  - pose proof (refresh_tracks base (committed s) (io t) (clock t) (live t) (owner_alive t) (health s) true (store s)
      (good_tracks _ Hg)) as Ht.
    pose proof (refresh_fault (io t) (clock t) (live t) (owner_alive t) (health s) true (store s)) as Hf.
    destruct (refresh _ _ _ _ _ _ _) as [st r]. injection Hst as <- <-. simpl in *.
    destruct Hg; split; simpl; try done; try (by destruct r). by rewrite Hf.
  - unfold final_persist in Hst. destruct (persist_health _ _ _) as [st|] eqn:Hp; injection Hst as <- <-;
      [|by apply (quiet_good s)]. destruct Hg; split; simpl; try done.
    + by apply (persist_health_tracks _ _ _ _ _ _ Hp).
    + unfold persist_health in Hp. unbind Hp. by injection Hp as <-.
Qed.

Definition is_worker (p : process) : Prop := match p with Worker _ => True | _ => False end.

Definition pushed (s s' : world) : Prop :=
  processed s' = processed s ∧ rx_closed s' = rx_closed s ∧
  ((sent s' = sent s ∧ queue s' = queue s) ∨
   ∃ c, rx_closed s = false ∧ queue s' = queue s ++ [c] ∧ sent s' = sent s ++ command_events c).

(** Whoever is not the worker can only append to the channel, while it is open. *)
Lemma others_push i t s p s' p' :
  ¬ is_worker p → relies i p s → stats_step i t s p = Some (s', p') →
  ¬ is_worker p' ∧ pushed s s' ∧ (is_worker p' ∨ relies i p' s').
Proof.
  intros Hp Hr Hst. assert (Hquiet : pushed s s) by (split_and!; auto).
  destruct p as [p|c|d| | | | |w]; simpl in Hst, Hp; try done; try tauto.
  - destruct (record_step t s p) as [[s1 p1]|] eqn:Hs; [|done]. injection Hst as <- <-.
    split_and!; [simpl; tauto| |right; done].
    destruct p as [e|e|e v|e|[]|o|o]; simpl in Hs; try done; try (injection Hs as <- <-; split_and!; by auto).
    + destruct (next_admission v); [|by injection Hs as <- <-].
      destruct (_ && _); injection Hs as <- <-; split_and!; by auto.
    + pose proof (try_send_spec (Record_ e) s) as Hq. destruct (try_send (Record_ e) s) as [s2 o].
      injection Hs as <- <-. destruct Hq as [(-> & Hc & ->)|[Ho ->]].
      * split_and!; try done. right. exists (Record_ e). done.
      * by destruct o.
  - pose proof (try_send_spec c s) as Hq. destruct (try_send c s) as [s2 o].
    destruct Hq as [(-> & Hc & ->)|[Ho ->]].
    + injection Hst as <- <-. split_and!; [simpl; tauto| |right; done]. split_and!; try done. right. exists c.
      simpl in Hr. rewrite Hr, app_nil_r. done.
    + destruct o; try done. injection Hst as <- <-. split_and!; [simpl; tauto|done|right; done].
  - injection Hst as <- <-. split_and!; [simpl; tauto|split_and!; by auto|right; done].
  - injection Hst as <- <-. split_and!; [simpl; tauto|split_and!; by auto|right; done].
  - injection Hst as <- <-. split_and!; [simpl; tauto| |right; done].
    pose proof (try_send_spec Wake s) as Hq. destruct (try_send Wake s) as [s2 o]. simpl.
    destruct Hq as [(-> & Hc & ->)|[Ho ->]]; [|done]. split_and!; try done. right. exists Wake. simpl.
    by rewrite app_nil_r.
Qed.

Lemma pushed_relies j w s s' : pushed s s' → relies j (Worker w) s → relies j (Worker w) s'.
Proof.
  intros (Hp & Hc & Hq) (-> & Hf & Hd). split; [done|]. rewrite Hp, Hc.
  destruct Hq as [[-> ->]|(c & Hopen & -> & ->)]; [done|]. split.
  - by rewrite Hf, flat_map_app, <-!app_assoc; simpl; rewrite app_nil_r.
  - intros Hw. destruct (Hd Hw). congruence.
Qed.

(** The worker keeps the order of the receipts. *)
Lemma worker_relies t s w s' w' i :
  relies i (Worker w) s → worker_step t s w = Some (s', w') → relies i (Worker w') s'.
Proof.
  intros (-> & Hf & Hd). unfold relies.
  destruct w as [|next|next|next|[c|]|[e| |g a|]|events|events next| |r|r]; simpl in *; intros Hst; try done.
  - injection Hst as <- <-. by destruct (abandoned t).
  - destruct (stopping _); by injection Hst as <- <-.
  - injection Hst as <- <-. by destruct (_ =? _).
  - by injection Hst as <- <-.
  - by injection Hst as <- <-.
  - destruct (queue s) as [|c q] eqn:Hq; [destruct (rx_closed s) eqn:Hc; [|done]|]; injection Hst as <- <-; simpl.
    + by rewrite Hq.
    + split_and!; [done|by rewrite Hf|done].
  - by injection Hst as <- <-.
  - injection Hst as <- <-. unfold serve_refresh. destruct (refresh _ _ _ _ _ _ _) as [st [r|text]]; [done|].
    by destruct (persist_health _ _ _).
  - by injection Hst as <- <-.
  - by injection Hst as <- <-.
  - destruct (_ <? _)%nat; [destruct (queue s) as [|[e'| |g a|] q] eqn:Hq|]; injection Hst as <- <-; simpl;
      rewrite ?Hq, ?app_nil_r, <-?app_assoc in *; done.
  - injection Hst as <- <-. unfold save_events. destruct (batch _ _ _ _ _) as [[h st] r]. simpl.
    split_and!; [done|by rewrite <-!app_assoc in *|by destruct next].
  - destruct (refresh _ _ _ _ _ _ _) as [st r]. injection Hst as <- <-. done.
  - unfold final_persist in Hst. destruct (persist_health _ _ _); by injection Hst as <- <-.
Qed.

(** ** Reachable states *)

Abbreviation reachable := (reach stats_step begins).

Lemma good_step i t s p s' p' :
  good s → relies i p s → stats_step i t s p = Some (s', p') → good s' ∧ relies i p' s'.
Proof.
  intros Hg Hr Hst. destruct p as [p|c|d| | | | |w].
  8: { simpl in Hst. destruct (worker_step t s w) as [[s1 w1]|] eqn:Hw; [|done]. injection Hst as <- <-.
       split; [by eapply worker_good|by eapply worker_relies]. }
  all: pose proof Hst as Hp; apply others_push in Hp as (Hn & _ & [Hw|Hr']); [tauto| |simpl; tauto|done]; split; [|done].
  all: simpl in Hst; try done.
  - destruct (record_step t s p) as [[s1 p1]|] eqn:Hs; [|done]. injection Hst as <- <-. by eapply record_good.
  - pose proof (try_send_spec c s) as Hq. destruct (try_send c s) as [s2 o].
    destruct Hq as [(-> & Hc & ->)|[Ho ->]]; [|destruct o; try done]; injection Hst as <- <-;
      [by apply set_queue_good|done].
  - injection Hst as <- <-. pose proof (lor_stop_range _ (good_admission _ Hg)).
    destruct (good_health _ Hg) as (_ & _ & _ & ? & _). apply (quiet_good s); simpl; try done.
    unfold ADMISSION_STOP in *. lia.
  - injection Hst as <- <-. destruct (good_health _ Hg) as (_ & _ & _ & ? & _).
    apply (quiet_good s); simpl; try done. apply Hg.
  - injection Hst as <- <-. pose proof (try_send_spec Wake s) as Hq. destruct (try_send Wake s) as [s2 o]. simpl.
    destruct Hq as [(-> & Hc & ->)|[Ho ->]]; [by apply set_queue_good|done].
Qed.

Definition fresh (st : Store) : Prop := health_ok h0 ∧ admission h0 = 0 ∧ tracks base [] st.

Lemma reachable_good st c :
  fresh st → reachable (opened h0 st) c →
  good (shared c) ∧ ∀ i p, procs c !! i = Some p → relies i p (shared c).
Proof.
  intros (Hh & Ha & Ht) Hr. apply (reach_holds stats_step begins good relies) with (c0 := opened h0 st); [..|done].
  - intros i p s Hb _. destruct p as [|[]| | | | | |]; done.
  - intros i e s p s' p'. apply good_step.
  - intros i j e s p s' p' q Hij Hg Hp Hq Hst. destruct q as [|c'| | | | | |w]; try done.
    destruct p as [p|c'|d| | | | |w'].
    8: { destruct Hp as [-> _], Hq as [-> _]. done. }
    all: apply others_push in Hst as (_ & Hpush & _); [|simpl; tauto|done]; by apply (pushed_relies j w s).
  - split; simpl.
    + split; simpl; try done; [lia|destruct Hh as ([? ?] & _); lia|].
      exists 0, 0, 0. destruct Hh as (_ & [? ?] & [? ?] & _ & [? ?]). split_and!; (done || lia).
    + intros i p [<- <-]%lookup_singleton_Some. done.
Qed.

Definition uncounted (p : process) : Z := match p with Producer (Count_ Accepted) => 1 | _ => 0 end.

Lemma counted_step i t s p s' p' :
  stats_step i t s p = Some (s', p') →
  Z.of_nat (length (sent s')) - Z.of_nat (counted s') + - uncounted p' =
  Z.of_nat (length (sent s)) - Z.of_nat (counted s) + - uncounted p.
Proof.
  destruct p as [p|c|d| | | | |w]; simpl; intros Hst; try done; try (injection Hst as <- <-; done).
  - destruct (record_step t s p) as [[s1 p1]|] eqn:Hs; [|done]. injection Hst as <- <-.
    destruct p as [e|e|e v|e|[]|o|o]; simpl in Hs; try done; try (injection Hs as <- <-; simpl; (done || lia)).
    + injection Hs as <- <-. by destruct (stopping _).
    + destruct (next_admission v); [destruct (_ && _)|]; by injection Hs as <- <-.
    + pose proof (try_send_spec (Record_ e) s) as Hq. destruct (try_send (Record_ e) s) as [s2 o].
      injection Hs as <- <-. destruct Hq as [(-> & _ & ->)|[Ho ->]]; [|by destruct o].
      simpl. rewrite length_app. simpl. lia.
  - pose proof (try_send_spec c s) as Hq. destruct (try_send c s) as [s2 o].
    destruct Hq as [(-> & _ & ->)|[Ho ->]]; [|destruct o; try done]; by injection Hst as <- <-.
  - injection Hst as <- <-. pose proof (try_send_spec Wake s) as Hq. destruct (try_send Wake s) as [s2 o]. simpl.
    by destruct Hq as [(-> & _ & ->)|[Ho ->]].
  - destruct (worker_step t s w) as [[s1 w1]|] eqn:Hw; [|done]. injection Hst as <- <-. simpl.
    assert (Hs : sent s1 = sent s ∧ counted s1 = counted s); [|by destruct Hs as [-> ->]].
    destruct w as [|next|next|next|[c|]|[e| |g a|]|events|events next| |r|r]; simpl in Hw; try done;
      try (by injection Hw as <- <-).
    + injection Hw as <- <-. by destruct (abandoned t).
    + destruct (stopping _); by injection Hw as <- <-.
    + destruct (queue s); [destruct (rx_closed s); [|done]|]; by injection Hw as <- <-.
    + injection Hw as <- <-. unfold serve_refresh. destruct (refresh _ _ _ _ _ _ _) as [st [r|text]]; [done|].
      by destruct (persist_health _ _ _).
    + destruct (_ <? _)%nat; [destruct (queue s) as [|[] q]|]; by injection Hw as <- <-.
    + injection Hw as <- <-. unfold save_events. by destruct (batch _ _ _ _ _) as [[h st] r].
    + destruct (refresh _ _ _ _ _ _ _) as [st r]. by injection Hw as <- <-.
    + unfold final_persist in Hw. destruct (persist_health _ _ _); by injection Hw as <- <-.
Qed.

(** ** Sealing *)

Lemma tally_opp (f : process → Z) q : tally (fun p => - f p) q = - tally f q.
Proof.
  induction q as [|i p q Hi IH] using map_ind; [by rewrite !tally_empty|]. rewrite !tally_insert_fresh by done. lia.
Qed.

Lemma inside_nonneg p : 0 ≤ inside p.
Proof. destruct p as [[]| | | | | | |]; simpl; lia. Qed.

Lemma tally_member q i p : q !! i = Some p → inside p ≤ tally inside q.
Proof.
  intros Hi. rewrite <-(insert_id q i p Hi), <-(insert_delete_eq q i p).
  rewrite tally_insert_fresh by apply lookup_delete_eq.
  pose proof (tally_nonneg inside (delete i q) inside_nonneg). lia.
Qed.

Lemma tally_size q : tally inside q ≤ Z.of_nat (size q).
Proof.
  induction q as [|i p q Hi IH] using map_ind; [by rewrite tally_empty, map_size_empty|].
  rewrite tally_insert_fresh, map_size_insert_None by done.
  assert (inside p ≤ 1) by (destruct p as [[]| | | | | | |]; simpl; lia). lia.
Qed.

(** With the stop bit set nobody enters. *)
Lemma nobody_enters i t s p s' p' :
  ADMISSION_STOP ≤ admission (health s) < 2 ^ 64 → inside p = 0 → stats_step i t s p = Some (s', p') →
  inside p' = 0 ∧ ADMISSION_STOP ≤ admission (health s').
Proof.
  intros Ha Hp Hst. assert (0 ≤ admission (health s) < 2 ^ 64) as Hr by (unfold ADMISSION_STOP in *; lia).
  destruct p as [p|c|d| | | | |w]; simpl in Hst; try done.
  - destruct p as [e|e|e v|e|o|o|o]; simpl in Hst, Hp; try done.
    + injection Hst as <- <-. split; [by destruct (stopping _)|lia].
    + injection Hst as <- <-. split; [done|lia].
    + destruct (next_admission v) as [n|] eqn:Hn; [|injection Hst as <- <-; split; [done|lia]].
      destruct (Z.eqb_spec (admission (health s)) v) as [<-|]; simpl in Hst.
      * apply next_admission_Some in Hn as [_ ?]; [lia|done].
      * injection Hst as <- <-. split; [done|lia].
  - pose proof (try_send_health c s) as Hh. destruct (try_send c s) as [s2 []]; try done; injection Hst as <- <-;
      simpl in Hh; rewrite ?Hh; split; (done || lia).
  - injection Hst as <- <-. split; [done|]. simpl. apply lor_stop_range. done.
  - injection Hst as <- <-. split; [done|simpl; lia].
  - injection Hst as <- <-. rewrite try_send_health. split; [done|lia].
  - destruct (worker_step t s w) as [[s1 w1]|] eqn:Hw; [|done]. injection Hst as <- <-. split; [done|].
    apply worker_admission in Hw as [->| ->]; [lia|]. by apply lor_stop_range.
Qed.

(** The receiver is closed, or about to be. *)
Definition sealed (c : config world process) : Prop :=
  rx_closed (shared c) = true ∨ ∃ n, procs c !! 0%nat = Some (Worker (CloseReceiver n)).

(** Only the worker closes the receiver, after it saw nobody inside. *)
Lemma sealing i t s p s' p' :
  relies i p s → stats_step i t s p = Some (s', p') →
  rx_closed s' = true ∨ (∃ n, p' = Worker (CloseReceiver n)) →
  rx_closed s = true ∨ (∃ n, p = Worker (CloseReceiver n)) ∨
  (admission (health s) = ADMISSION_STOP ∧ s' = s ∧ ∃ n, p = Worker (AwaitProducers n)).
Proof.
  intros Hr Hst Hsealed. destruct p as [p|c|d| | | | |w].
  8: { simpl in Hst. destruct (worker_step t s w) as [[s1 w1]|] eqn:Hw; [|done]. injection Hst as <- <-.
    assert (Hkeep : rx_closed s1 = rx_closed s ∧ (∀ n, w1 ≠ CloseReceiver n) → rx_closed s = true).
    { intros [Hc Hn]. destruct Hsealed as [?|[n [= Hw1]]]; [congruence|]. by apply Hn in Hw1. }
    destruct w as [|next|next|next|[c|]|[e| |g a|]|events|events next| |r|r]; simpl in Hw; try done;
      try (left; apply Hkeep; by injection Hw as <- <-).
    - left. apply Hkeep. injection Hw as <- <-. by destruct (abandoned t).
    - left. apply Hkeep. destruct (stopping _); by injection Hw as <- <-.
    - injection Hw as <- <-. destruct (Z.eqb_spec (admission (health s)) ADMISSION_STOP) as [Ha|]; [|left; by apply Hkeep].
      right. right. eauto.
    - right. left. eauto.
    - left. apply Hkeep. destruct (queue s); [destruct (rx_closed s) eqn:?; [|done]|]; by injection Hw as <- <-.
    - left. apply Hkeep. injection Hw as <- <-. unfold serve_refresh.
      destruct (refresh _ _ _ _ _ _ _) as [st [r|text]]; [done|]. by destruct (persist_health _ _ _).
    - left. apply Hkeep. destruct (_ <? _)%nat; [destruct (queue s) as [|[] q]|]; by injection Hw as <- <-.
    - left. apply Hkeep. injection Hw as <- <-. unfold save_events. by destruct (batch _ _ _ _ _) as [[h st] r].
    - left. apply Hkeep. destruct (refresh _ _ _ _ _ _ _) as [st r]. by injection Hw as <- <-.
    - left. apply Hkeep. unfold final_persist in Hw. destruct (persist_health _ _ _); by injection Hw as <- <-. }
  all: left; apply others_push in Hst as (Hn & (_ & Hc & _) & _); [|simpl; tauto|done];
    destruct Hsealed as [?|[n ->]]; [congruence|]; simpl in Hn; tauto.
Qed.

Lemma reachable_admission st c :
  fresh st → reachable (opened h0 st) c → eq63 (admission (health (shared c))) (tally inside (procs c)).
Proof.
  intros (_ & Ha & _) Hr.
  assert (Hc := reach_conserves stats_step begins eq63 (fun s => admission (health s)) (fun p => - inside p)
    (opened h0 st) c eq63_add).
  specialize (Hc ltac:(intros p Hp; by destruct p as [[]|[]| | | | | |]) admission_step Hr).
  rewrite !tally_opp in Hc. simpl in Hc. rewrite Ha, <-insert_empty, tally_insert_fresh in Hc by done.
  rewrite tally_empty in Hc. simpl in Hc. apply (eq63_add _ _ (tally inside (procs c))) in Hc.
  by replace (admission (health (shared c)) + - tally inside (procs c) + tally inside (procs c))
    with (admission (health (shared c))) in Hc by lia.
Qed.

Lemma size_grows c m c' : move_step stats_step c m = Some c' → (size (procs c) ≤ size (procs c'))%nat.
Proof.
  destruct m as [i p|i e]; simpl.
  - destruct (procs c !! i) eqn:Hi; [done|]. intros [= <-]. simpl. rewrite map_size_insert_None by done. lia.
  - destruct (procs c !! i) as [p|] eqn:Hi; [|done]. destruct (stats_step _ _ _ _) as [[s' p']|]; [|done].
    intros [= <-]. simpl. rewrite map_size_insert_Some by done. lia.
Qed.

(** After the receiver is closed nobody is inside, and nobody will be. *)
Lemma sealed_empty st c :
  fresh st → reachable (opened h0 st) c → Z.of_nat (size (procs c)) < 2 ^ 63 → sealed c →
  ADMISSION_STOP ≤ admission (health (shared c)) ∧ tally inside (procs c) = 0.
Proof.
  intros Hfr Hr. induction Hr as [|c m c' Hr IH Hl Hm]; intros Hsz Hs.
  { destruct Hs as [?|[n Hn]]; [done|]. simpl in Hn. by rewrite lookup_singleton_eq in Hn. }
  pose proof (size_grows _ _ _ Hm) as Hgrow. specialize (IH ltac:(lia)).
  destruct (reachable_good _ _ Hfr Hr) as [Hg Hrel]. pose proof (good_admission _ Hg) as Ha.
  destruct m as [i p|i e]; simpl in Hm, Hl.
  - destruct (procs c !! i) eqn:Hi; [done|]. injection Hm as <-. simpl in *.
    destruct IH as [? Ht].
    { destruct Hs as [?|[n Hn]]; [by left|]. right. exists n. simpl in Hn.
      apply lookup_insert_Some in Hn as [[-> ->]|[_ ?]]; [done|done]. }
    split; [done|]. rewrite tally_insert_fresh, Ht by done. destruct p as [[]|[]| | | | | |]; done.
  - destruct (procs c !! i) as [p|] eqn:Hi; [|done].
    destruct (stats_step i e (shared c) p) as [[s' p']|] eqn:Hst; [|done]. injection Hm as <-. simpl in *.
    assert (Hcase : sealed c ∨ (admission (health (shared c)) = ADMISSION_STOP ∧ s' = shared c ∧
      ∃ n, p = Worker (AwaitProducers n))).
    { assert (Hpre : rx_closed s' = true ∨ (∃ n, p' = Worker (CloseReceiver n)) ∨ sealed c).
      { destruct Hs as [?|[n Hn]]; [by left|]. simpl in Hn.
        apply lookup_insert_Some in Hn as [[-> ->]|[_ ?]]; [right; left; eauto|right; right; right; eauto]. }
      assert (H' : sealed c ∨ rx_closed s' = true ∨ ∃ n, p' = Worker (CloseReceiver n)) by tauto.
      destruct H' as [?|H']; [by left|]. apply (sealing i e (shared c) p s' p') in H'; [|by apply Hrel|done].
      destruct H' as [?|[[n ->]|?]]; [left; by left| |by right]. left. right. exists n.
      destruct (Hrel _ _ Hi) as [-> _]. done. }
    rewrite (tally_insert _ _ _ _ _ Hi). destruct Hcase as [Hc|(Hstop & -> & n & ->)].
    + destruct (IH Hc) as [Hst' Ht]. pose proof (tally_member _ _ _ Hi). pose proof (inside_nonneg p).
      destruct (nobody_enters i e (shared c) p s' p') as [Hp' ?]; [lia|lia|done|]. split; [done|]. lia.
    + simpl in Hst. injection Hst as <-. rewrite Hstop. split; [done|].
      pose proof (reachable_admission _ _ Hfr Hr) as He. rewrite Hstop in He.
      pose proof (tally_nonneg inside (procs c) inside_nonneg). pose proof (tally_size (procs c)).
      unfold eq63, ADMISSION_STOP in He. rewrite Z_mod_same_full in He. rewrite Z.mod_small in He by lia. simpl. lia.
Qed.

Lemma worker_stays st c : reachable (opened h0 st) c → ∃ w, procs c !! 0%nat = Some (Worker w).
Proof.
  intros Hr. induction Hr as [|c m c' _ [w Hw] _ Hm]; [exists Ready; apply lookup_singleton_eq|].
  destruct m as [i p|i e]; simpl in Hm.
  - destruct (procs c !! i) eqn:Hi; [done|]. injection Hm as <-. exists w. simpl. rewrite lookup_insert_ne; [done|].
    intros ->. congruence.
  - destruct (procs c !! i) as [p|] eqn:Hi; [|done]. destruct (stats_step _ _ _ _) as [[s' p']|] eqn:Hst; [|done].
    injection Hm as <-. simpl. destruct (decide (i = 0%nat)) as [->|]; [|exists w; by rewrite lookup_insert_ne].
    rewrite lookup_insert_eq. rewrite Hi in Hw. injection Hw as ->. simpl in Hst.
    destruct (worker_step _ _ _) as [[s1 w1]|]; [|done]. injection Hst as <- <-. eauto.
Qed.

Lemma reachable_counted st c :
  reachable (opened h0 st) c →
  Z.of_nat (length (sent (shared c))) = Z.of_nat (counted (shared c)) + tally uncounted (procs c).
Proof.
  intros Hr. assert (Hc := reach_conserves stats_step begins eq
    (fun s => Z.of_nat (length (sent s)) - Z.of_nat (counted s)) (fun p => - uncounted p) (opened h0 st) c).
  specialize (Hc ltac:(intros; lia) ltac:(intros p Hp; by destruct p as [[]|[]| | | | | |]) counted_step Hr).
  rewrite !tally_opp in Hc. simpl in Hc. rewrite <-insert_empty, tally_insert_fresh, tally_empty in Hc by done.
  simpl in Hc. lia.
Qed.

Lemma uncounted_inside q : tally inside q = 0 → tally uncounted q = 0.
Proof.
  intros Hq. assert (Hle : 0 ≤ tally uncounted q ≤ tally inside q); [|lia]. clear Hq.
  induction q as [|i p q Hi IH] using map_ind; [by rewrite !tally_empty|]. rewrite !tally_insert_fresh by done.
  assert (0 ≤ uncounted p ≤ inside p) by (destruct p as [[| | | |[]| |]| | | | | | |]; simpl; lia). lia.
Qed.

(** C8: a finished worker leaves nothing behind: when the statistics
    thread is done, whatever the store, the producers, the clients and the
    owner did, the channel is empty, no producer is inside, every question that
    entered the channel was taken out in order, and every one is counted as
    accepted and as exactly one of saved, expired and unsaved, so that nothing
    is pending. *)
Theorem shutdown_accounts_for_every_question st c r :
  fresh st → accepted h0 = saved h0 + expired h0 + unsaved h0 →
  reachable (opened h0 st) c → Z.of_nat (size (procs c)) < 2 ^ 63 →
  accepted h0 + Z.of_nat (length (sent (shared c))) < i64_max →
  procs c !! 0%nat = Some (Worker (Finished r)) →
  let s := shared c in let h := health s in
  queue s = [] ∧ processed s = sent s ∧ (∀ i p, procs c !! i = Some p → inside p = 0) ∧
  accepted h = accepted h0 + Z.of_nat (length (sent s)) ∧ accepted h = saved h + expired h + unsaved h ∧
  pending (status h) = 0.
Proof.
  intros Hfr Hsum Hr Hsz Hroom Hw s h. destruct (reachable_good _ _ Hfr Hr) as [Hg Hrel].
  destruct (Hrel _ _ Hw) as (_ & Hfifo & Hd). destruct (Hd I) as [Hclosed Hq]. fold s in Hg, Hfifo, Hclosed, Hq.
  destruct (sealed_empty _ _ Hfr Hr Hsz (or_introl Hclosed)) as [_ Hin].
  pose proof (reachable_counted _ _ Hr) as Hcnt. rewrite (uncounted_inside _ Hin) in Hcnt. fold s in Hcnt, Hroom.
  rewrite Hq in Hfifo. simpl in Hfifo. rewrite app_nil_r in Hfifo.
  pose proof (good_accepted _ Hg) as Ha. fold h in Ha. rewrite Z.min_r in Ha by lia.
  destruct (good_classes _ Hg) as (a & b & c' & ? & ? & ? & Habc & Hs & Hx & Hu). fold h in Hs, Hx, Hu.
  rewrite <-Hfifo in Habc. destruct Hfr as (([? ?] & [? ?] & [? ?] & _ & [? ?]) & _ & _).
  rewrite Z.min_r in Hs, Hx, Hu by lia. split_and!; try done; try lia.
  - intros i p Hi. pose proof (tally_member _ _ _ Hi). pose proof (inside_nonneg p). lia.
  - unfold status, saturating_sub. simpl. lia.
Qed.

(** C6: at every moment, the ledger is the window of thirty days that
    ends at the highest second seen: a question in a second has a row exactly
    when the second is in the window and the question was saved, and the row
    counts what was restored and every receipt that was saved, however they
    were batched and pruned.  What is saved is a part of what entered the
    channel, in order, and all of it until the database fails. *)
Theorem ledger_is_the_rolling_window st c :
  fresh st → reachable (opened h0 st) c →
  let s := shared c in
  (∀ k, bm_get k (query_seconds (db (store s))) =
     let n := default 0 (bm_get k base) + occurrences k (committed s) in
     if in_window (highwater (store s)) k && (0 <? n) then Some n else None) ∧
  (∀ e, e ∈ committed s → valid e = true → second e ≤ highwater (store s)) ∧
  sublist (committed s) (sent s) ∧
  (fault (store s) = None → ∃ w, procs c !! 0%nat = Some (Worker w) ∧
     sent s = committed s ++ hand w ++ flat_map command_events (queue s)).
Proof.
  intros Hfr Hr s. destruct (reachable_good _ _ Hfr Hr) as [Hg Hrel]. destruct (worker_stays _ _ Hr) as [w Hw].
  destruct (Hrel _ _ Hw) as (_ & Hfifo & _). destruct (good_commits _ Hg) as [Hsub Heq].
  destruct (good_tracks _ Hg) as [_ _ _ _ Hhist Hget]. fold s in Hfifo, Hsub, Heq, Hhist, Hget. split_and!; try done.
  - rewrite Hfifo. etrans; [exact Hsub|]. by apply sublist_inserts_r.
  - intros Hf. exists w. by rewrite (Heq Hf).
Qed.
End Invariant.
End Run.

(** ** Witnesses *)

Section Witnesses.
#[local] Existing Instance sample_names.
#[local] Existing Instance DnsWire.sample_front.
#[local] Existing Instance sample_stats.

Definition sample_health : Health := mkHealth 150 150 0 0 0 false 0 None.
Definition sample_event : Event := mkEvent (lit "a.") 1 1 7.
Definition quiet : tick := mkTick (fun _ => None) 20 (fun _ => false) true false false.

(** One producer records a question, the owner stops the worker. *)
Definition sample_schedule : list (move process tick) :=
  [Spawn 1 (Producer (CheckStopping sample_event)); Spawn 2 StopAdmission] ++
  repeat (Step 0 quiet) 2 ++ repeat (Step 1 quiet) 6 ++ repeat (Step 0 quiet) 5 ++
  repeat (Step 2 quiet) 3 ++ repeat (Step 0 quiet) 8.

Definition sample_end : config world process :=
  default (opened sample_health sample_store)
    (run_schedule stats_step (opened sample_health sample_store) sample_schedule).

Lemma sample_fresh : fresh sample_ledger sample_health sample_store.
Proof.
  split_and!; [|reflexivity|apply sample_tracks]. unfold health_ok, in_u, i64_max. simpl. lia.
Qed.

Lemma sample_reached : reach stats_step begins (opened sample_health sample_store) sample_end.
Proof.
  apply (run_reach _ _ _ sample_schedule); [|vm_compute; reflexivity].
  unfold sample_schedule. cbn [app repeat]. repeat constructor.
Qed.

Lemma shutdown_accounts_for_every_question_witness :
  procs sample_end !! 0%nat = Some (Worker (Finished (Ok tt))) ∧
  saved (health (shared sample_end)) = 151 ∧ pending (status (health (shared sample_end))) = 0.
Proof.
  split; [vm_compute; reflexivity|]. split; [vm_compute; reflexivity|].
  eapply (shutdown_accounts_for_every_question sample_ledger sample_health sample_store sample_end);
    [apply sample_fresh|reflexivity|apply sample_reached|vm_compute; reflexivity..].
Defined.

Lemma ledger_is_the_rolling_window_witness :
  query_seconds (db (store (shared sample_end))) = sample_ledger ++ [((lit "a.", 1, 1, 7), 1)] ∧
  sublist (committed (shared sample_end)) (sent (shared sample_end)).
Proof.
  split; [vm_compute; reflexivity|].
  apply (ledger_is_the_rolling_window sample_ledger sample_health sample_store sample_end);
    [apply sample_fresh|apply sample_reached].
Defined.
End Witnesses.
End DnsStatsRun.
