(* ===== verification/DnsPrefetch.v ===== *)
(** * Prefetching popular questions

    [packages/dns-server/src/popular_prefetch/popular_prefetch.rs], together
    with the store it asks: one scheduler refreshes the list of popular
    questions at its ticks and walks through it page by page, one exchange at a
    time, while receipts keep arriving.  A cycle that is still running when the
    next list is ready is not restarted, and the list is dropped. *)

From S2P Require Import Prelude Order OrdMap Str DnsPacket DnsCache DnsWire DnsStats.
Import DnsPacket DnsStats.
Open Scope Z_scope.

Module DnsPrefetch.
Section Prefetch.
Context `{StatsCrate}.

(** Where the loop of [cycle] is: about to ask for a page, in the middle of
    one, or at its end, with or without a failed page. *)
Inductive progress : Type :=
| AskPage (after : option target)
| InPage (page : list PopularTarget) (after : option target)
| Over (complete : bool).

(** A running cycle: its generation and progress; [visited] are the targets it
    has refreshed so far, [ledger] what the store knew when the list was made. *)
Record cycle : Type := mkCycle {
  cycle_generation : Z;
  at_ : progress;
  visited : list PopularTarget;
  ledger : bmap key Z;
}.

(** The loop of [schedule] waits for a tick, for the worker to serve its
    refresh, or holds the answer to it. *)
Inductive phase : Type :=
| Waiting
| Requested
| Answered (snapshot : option (Z * bmap key Z))
| Returned.

Record system : Type := mkSystem {
  idle : bool;
  active : option cycle;
  now_at : phase;
  store : Store;
}.

Definition start (s : Store) : system := mkSystem true None Waiting s.

(** The leases that somebody holds. *)
Definition live (sys : system) (g : Z) : bool :=
  match active sys with Some c => cycle_generation c =? g | None => false end ||
  match now_at sys with Answered (Some (g', _)) => g' =? g | _ => false end.

(** [page.last().map(S::cursor)]. *)
Definition last_cursor (page : list PopularTarget) : option target :=
  option_map cursor (last page).

(** One step of [cycle]: a page, or one exchange, whose outcome changes nothing. *)
Definition cycle_step (e : env) (s : Store) (c : cycle) : option cycle :=
  match at_ c with
  | AskPage after =>
      match page e (cycle_generation c) after s with
      | Err _ => Some (mkCycle (cycle_generation c) (Over false) (visited c) (ledger c))
      | Ok [] => Some (mkCycle (cycle_generation c) (Over true) (visited c) (ledger c))
      | Ok p => Some (mkCycle (cycle_generation c) (InPage p (last_cursor p)) (visited c) (ledger c))
      end
  | InPage [] after => Some (mkCycle (cycle_generation c) (AskPage after) (visited c) (ledger c))
  | InPage (t :: p) after => Some (mkCycle (cycle_generation c) (InPage p after) (visited c ++ [t]) (ledger c))
  | Over _ => None
  end.

(** Everything that can happen; the store saves batches and serves the
    refresh, whose snapshot is leased from then on. *)
Inductive event : Type :=
| Shutdown
| Tick
| Serve (e : env) (now : Z) (h : Health)
| Publication
| CycleStep (e : env)
| CycleResult
| Receipts (e : env) (events : list Event) (now : Z) (h : Health)
| Persist (e : env) (h : Health).

Definition set_store s sys := mkSystem (idle sys) (active sys) (now_at sys) s.

Definition step (ev : event) (sys : system) : option system :=
  match ev, now_at sys with
  | _, Returned => None
  | Shutdown, _ => Some (mkSystem false None Returned (store sys))
  | Tick, Waiting => Some (mkSystem (idle sys) (active sys) Requested (store sys))
  | Serve e now h, Requested =>
      let '(s, r) := refresh e now (live sys) true h false (store sys) in
      Some (mkSystem (idle sys) (active sys)
              (Answered match r with Ok (Some g) => Some (g, query_seconds (db s)) | _ => None end) s)
  | Publication, Answered (Some (g, rows)) =>
      if idle sys then Some (mkSystem false (Some (mkCycle g (AskPage None) [] rows)) Waiting (store sys))
      else Some (mkSystem (idle sys) (active sys) Waiting (store sys))
  | Publication, Answered None => Some (mkSystem (idle sys) (active sys) Waiting (store sys))
  | CycleStep e, _ =>
      match active sys with
      | Some c =>
          match cycle_step e (store sys) c with
          | Some c' => Some (mkSystem (idle sys) (Some c') (now_at sys) (store sys))
          | None => None
          end
      | None => None
      end
  | CycleResult, _ =>
      match active sys with
      | Some (mkCycle _ (Over _) _ _) => Some (mkSystem true None (now_at sys) (store sys))
      | _ => None
      end
  | Receipts e events now h, _ => Some (set_store (batch e events now h (store sys)).1.2 sys)
  | Persist e h, _ =>
      match persist_health e h (store sys) with
      | Ok s => Some (set_store s sys)
      | Err _ => Some sys
      end
  | _, _ => None
  end.

Inductive reaches (sys0 : system) : system → Prop :=
| reaches_here : reaches sys0 sys0
| reaches_step sys ev sys' : reaches sys0 sys → step ev sys = Some sys' → reaches sys0 sys'.

Fixpoint run (evs : list event) (sys : system) : option system :=
  match evs with
  | [] => Some sys
  | ev :: evs' => match step ev sys with Some sys' => run evs' sys' | None => None end
  end.

(** ** Pages *)

Definition row_of (t : PopularTarget) : target * Z := (cursor t, count t).

(** The list of a generation, in the order of its pages. *)
Definition table (g : Z) (s : Store) : bmap target Z :=
  map (fun kv => (kv.1.2, kv.2)) (List.filter (fun kv => kv.1.1 =? g) (popular_targets (db s))).

Lemma untag_get g (l : bmap (Z * target) Z) t :
  (∀ kv, kv ∈ l → kv.1.1 = g) → bm_get t (map (fun kv => (kv.1.2, kv.2)) l) = bm_get (g, t) l.
Proof.
  induction l as [|[[g' t'] n] l IH]; intros Hl; [done|]. cbn [map fst snd]. rewrite !bm_get_cons.
  rewrite IH by (intros kv Hkv; apply Hl; by right). assert (g' = g) as -> by (apply (Hl ((g', t'), n)); by left).
  destruct (decide (t = t')), (decide ((g, t) = (g, t'))); congruence.
Qed.

Lemma untag_wf g (l : bmap (Z * target) Z) :
  (∀ kv, kv ∈ l → kv.1.1 = g) → bm_wf l → bm_wf (map (fun kv => (kv.1.2, kv.2)) l).
Proof.
  unfold bm_wf, bm_keys. induction l as [|[[g' t'] n] l IH]; [constructor|]. intros Hl. cbn [map fst snd].
  intros [Hs Hk]%StronglySorted_inv. assert (g' = g) as -> by (apply (Hl ((g', t'), n)); by left).
  constructor; [apply IH; [intros kv ?; apply Hl; by right|done]|]. rewrite map_map.
  apply Forall_forall. intros x Hx. apply list_elem_of_fmap in Hx as ([[g2 t2] n2] & -> & Hin).
  assert (g2 = g) as -> by (apply (Hl ((g2, t2), n2)); by right).
  refine (eq_trans (eq_sym (cmp_pair_tag g t' t2)) _). rewrite Forall_forall in Hk. apply (Hk (g, t2)).
  apply list_elem_of_fmap. by exists ((g, t2), n2).
Qed.

Lemma filtered_generation g (l : bmap (Z * target) Z) kv : kv ∈ List.filter (fun kv => kv.1.1 =? g) l → kv.1.1 = g ∧ kv ∈ l.
Proof. intros Hk. apply list_elem_of_In, filter_In in Hk as [? ?%Z.eqb_eq]. split; [done|]. by apply list_elem_of_In. Qed.

Lemma table_get g s t : bm_get t (table g s) = generation_row (db s) g t.
Proof.
  unfold table, generation_row. rewrite (untag_get g); [|intros kv Hk; by apply filtered_generation in Hk as [? _]].
  rewrite (bm_get_filter (fun k : Z * target => k.1 =? g)). simpl. by rewrite Z.eqb_refl.
Qed.

Lemma table_wf g s : bm_wf (popular_targets (db s)) → bm_wf (table g s).
Proof. intros Hw. apply (untag_wf g); [intros kv Hk; by apply filtered_generation in Hk as [? _]|by apply bm_filter_wf]. Qed.

Lemma table_same g s s' :
  bm_wf (popular_targets (db s)) → bm_wf (popular_targets (db s')) →
  (∀ t, generation_row (db s') g t = generation_row (db s) g t) → table g s' = table g s.
Proof. intros Hw Hw' He. apply bm_ext; [by apply table_wf..|]. intros t. rewrite !table_get. apply He. Qed.

(** The target a row is read as leads back to the row. *)
Lemma read_targets_spec e n rows ts :
  (∀ kv, kv ∈ rows → canonical kv.1.2.1.1 = true) → read_targets e n rows = Ok ts →
  map row_of ts = map (fun kv => (kv.1.2, kv.2)) rows.
Proof.
  revert n ts. induction rows as [|[[g [[d t] c]] k] rows IH]; intros n ts Hc; cbn [read_targets]; intros Hr; unbind Hr.
  { by injection Hr as <-. }
  injection Hr as <-. apply to_u64_Ok in Ha1 as [-> _]. cbn [map]. rewrite (IH _ _ (fun kv Hkv => Hc kv ltac:(by right)) Ha2).
  f_equal. unfold row_of, cursor. simpl. specialize (Hc ((g, (d, t, c)), k) ltac:(by left)). simpl in Hc.
  unfold canonical in Hc. destruct (name_from_ascii d) as [nm|]; [|done]. injection Ha0 as <-.
  apply bool_decide_eq_true in Hc. by rewrite Hc.
Qed.

Definition first_cursor : target := ([], 0, 0).

(** Rows after the last one that was handed out. *)
Lemma rows_after (T : bmap target Z) front (r : target * Z) rest :
  bm_wf T → T = (front ++ [r]) ++ rest → List.filter (fun kv => after_cursor r.1 kv.1) T = rest.
Proof.
  intros Hw ->. unfold bm_wf, bm_keys in Hw. rewrite <-app_assoc in *. simpl in *. rewrite map_app in Hw. simpl in Hw.
  rewrite List.filter_app.
  assert (Hfront : List.filter (fun kv => after_cursor r.1 kv.1) front = []).
  { induction front as [|x front IH]; [done|]. simpl in Hw. apply StronglySorted_inv in Hw as [Hw Hx]. simpl.
    rewrite Forall_app, Forall_cons in Hx. destruct Hx as (_ & Hx & _). unfold lt_by in Hx.
    unfold after_cursor at 1. rewrite (rank_opp cmp x.1 r.1), Hx. simpl. auto. }
  rewrite Hfront. simpl. unfold after_cursor at 1. rewrite (rank_refl cmp). 
  induction front as [|x front IH]; simpl in Hw.
  - apply StronglySorted_inv in Hw as [_ Hr]. apply List.forallb_filter_id, forallb_forall. intros x Hx%list_elem_of_In.
    rewrite Forall_forall in Hr. unfold after_cursor. assert (lt_by r.1 x.1) as Hlt.
    { apply Hr. apply list_elem_of_fmap. eauto. } unfold lt_by in Hlt. by rewrite Hlt.
  - apply StronglySorted_inv in Hw as [Hw _]. apply IH; [done|]. simpl in Hfront.
    by destruct (after_cursor r.1 x.1).
Qed.

Lemma cmp_first d t c : d ≠ [] → cmp first_cursor (d, t, c) = Lt.
Proof. intros Hd. destruct d; [done|]. reflexivity. Qed.

Lemma filter_map {A B} (f : A → B) (P : B → bool) l :
  List.filter P (map f l) = map f (List.filter (fun x => P (f x)) l).
Proof. induction l as [|x l IH]; [done|]. simpl. destruct (P (f x)); simpl; by rewrite IH. Qed.

Lemma filter_both {A} (P Q : A → bool) l : List.filter (fun x => P x && Q x) l = List.filter Q (List.filter P l).
Proof. induction l as [|x l IH]; [done|]. simpl. destruct (P x); simpl; [destruct (Q x)|]; by rewrite ?IH. Qed.

Context `{!StatsLaws}.

Lemma canonical_not_empty d : canonical d = true → d ≠ [].
Proof.
  unfold canonical, normalized_name. destruct (name_from_ascii d) as [n|]; [|done].
  intros Hc%bool_decide_eq_true ->. by apply ascii_not_empty in Hc.
Qed.

(** A page is the next hundred and twenty-eight rows. *)
Lemma page_spec e g after s ts done rest :
  store_ok s → table g s = done ++ rest → after = option_map fst (last done) → page e g after s = Ok ts →
  map row_of ts = take 128 rest.
Proof.
  intros Hs HT -> Hp. unfold page in Hp. unbind Hp. set (c := default ([], 0, 0) _) in Hp.
  assert (Hall : ∀ kv, kv ∈ popular_targets (db s) → canonical kv.1.2.1.1 = true).
  { intros [[g' t] n] Hk. apply bm_elem_get in Hk; [|apply Hs]. apply (ok_popular _ Hs g' t n Hk). }
  apply read_targets_spec in Hp.
  2: { intros kv Hk. apply Hall. eapply elem_of_submseteq; [exact Hk|].
       apply sublist_submseteq. etrans; [apply sublist_take|apply filter_sublist]. }
  rewrite Hp, <-firstn_map. f_equal. rewrite (filter_both (fun kv : Z * target * Z => kv.1.1 =? g)).
  rewrite <-(filter_map (fun kv : Z * target * Z => (kv.1.2, kv.2)) (fun r => after_cursor c r.1)).
  change (List.filter (fun r => after_cursor c r.1) (table g s) = rest).
  destruct done as [|r front _] using rev_ind.
  - simpl in HT. rewrite <-HT. apply List.forallb_filter_id, forallb_forall. intros [[[d t] cl] n] Hx. unfold after_cursor.
    simpl fst. unfold c. simpl default. rewrite cmp_first; [done|]. apply canonical_not_empty.
    apply in_map_iff in Hx as ([[g' t'] n'] & [= -> ->] & Hin). apply filter_In in Hin as [Hin _].
    apply list_elem_of_In in Hin. by apply Hall in Hin.
  - unfold c. rewrite last_snoc. simpl. apply (rows_after _ front r rest); [|done]. apply table_wf, Hs.
Qed.

(** ** Cycles *)

(** How far a cycle is in the list of its generation. *)
Definition in_order (T : bmap target Z) (c : cycle) : Prop :=
  let done := map row_of (visited c) in
  match at_ c with
  | AskPage after => ∃ rest, T = done ++ rest ∧ after = option_map fst (last done)
  | InPage p after =>
      ∃ rest, T = (done ++ map row_of p) ++ rest ∧ after = option_map fst (last (done ++ map row_of p))
  | Over true => T = done
  | Over false => ∃ rest, T = done ++ rest
  end.

Lemma last_cursor_row d p :
  p ≠ [] → last_cursor p = option_map fst (last (d ++ map row_of p)).
Proof.
  intros Hp. destruct p as [|t p _] using rev_ind; [done|].
  unfold last_cursor. rewrite map_app, app_assoc. cbn [map]. by rewrite !last_snoc.
Qed.

Lemma cycle_in_order e s c c' :
  store_ok s → in_order (table (cycle_generation c) s) c → cycle_step e s c = Some c' →
  in_order (table (cycle_generation c') s) c' ∧ cycle_generation c' = cycle_generation c ∧ ledger c' = ledger c.
Proof.
  intros Hs. unfold in_order, cycle_step. destruct (at_ c) as [after|[|t p] after|o] eqn:Hat; [| | |done].
  - intros (rest & HT & Ha). destruct (page e (cycle_generation c) after s) as [ts|] eqn:Hp.
    + pose proof (page_spec _ _ _ _ _ _ _ Hs HT Ha Hp) as Hrows.
      destruct ts as [|t ts]; intros [= <-]; simpl.
      * destruct rest; [|done]. by rewrite app_nil_r in HT.
      * split; [|done]. exists (drop 128 rest). rewrite <-app_assoc. split.
        { rewrite HT. f_equal. change (rest = map row_of (t :: ts) ++ drop 128 rest). by rewrite Hrows, take_drop. }
        by apply (last_cursor_row _ (t :: ts)).
    + intros [= <-]. simpl. split; [by exists rest|done].
  - intros (rest & HT & Ha) [= <-]. simpl in *. rewrite app_nil_r in *. split; [by exists rest|done].
  - intros (rest & HT & Ha) [= <-]. simpl. split; [|done]. exists rest. rewrite map_app.
    by rewrite <-!app_assoc in *.
Qed.

Context (base : bmap key Z).
Context (base_canonical : ∀ k n, bm_get k base = Some n → canonical (key_domain k) = true).

Definition cycle_ok (s : Store) (c : cycle) : Prop :=
  cycle_generation c ≤ generation s ∧ in_order (table (cycle_generation c) s) c ∧
  ∀ t, generation_row (db s) (cycle_generation c) t = popular_count (ledger c) t.

Definition phase_ok (s : Store) (p : phase) : Prop :=
  match p with
  | Answered (Some (g, rows)) => g ≤ generation s ∧ ∀ t, generation_row (db s) g t = popular_count rows t
  | _ => True
  end.

Record system_ok (sys : system) : Prop := {
  sys_tracks : ∃ history, tracks base history (store sys);
  sys_store : store_ok (store sys);
  sys_leases : NoDup (leases (store sys));
  sys_idle : active sys = None ∨ idle sys = false;
  sys_active : ∀ c, active sys = Some c → cycle_ok (store sys) c;
  sys_phase : phase_ok (store sys) (now_at sys);
}.

(** The store may change, as long as the leased generations stay. *)
Lemma store_changes sys s :
  system_ok sys → store_ok s → (∃ history, tracks base history s) → NoDup (leases s) →
  generation (store sys) ≤ generation s →
  (∀ g t, g ≤ generation (store sys) → live sys g = true → generation_row (db s) g t = generation_row (db (store sys)) g t) →
  system_ok (set_store s sys).
Proof.
  intros [Ht Hs Hl Hi Ha Hp] Hs' Ht' Hl' Hg Hsame. split; simpl; try done.
  - intros c Hc. destruct (Ha c Hc) as (Hgen & Hord & Hrow).
    assert (Hlive : live sys (cycle_generation c) = true) by (unfold live; by rewrite Hc, Z.eqb_refl).
    assert (Hrows : ∀ t, generation_row (db s) (cycle_generation c) t =
      generation_row (db (store sys)) (cycle_generation c) t) by (intros t; by apply Hsame).
    split_and!; [lia| |intros t; by rewrite Hrows].
    rewrite (table_same _ (store sys) s); [done|apply Hs|apply Hs'|done].
  - destruct (now_at sys) as [| |[[g rows]|]|] eqn:Hph; simpl in *; try done. destruct Hp as [Hgen Hrow].
    split; [lia|]. intros t. rewrite Hsame; [done|done|]. unfold live. rewrite Hph, Z.eqb_refl. apply orb_true_r.
Qed.

(** At most the running cycle holds a lease when a refresh is served. *)
Lemma leases_in_use sys :
  system_ok sys → now_at sys = Requested → (length (List.filter (live sys) (leases (store sys))) ≤ 1)%nat.
Proof.
  intros Hok Hph. pose proof (sys_leases _ Hok) as Hn. unfold live. rewrite Hph.
  destruct (active sys) as [c|]; [|by induction (leases (store sys)) as [|g l IH]; simpl; auto; inversion Hn; auto].
  induction (leases (store sys)) as [|g l IH]; simpl; [lia|]. apply NoDup_cons in Hn as [Hg Hn].
  specialize (IH Hn). destruct (Z.eqb_spec (cycle_generation c) g) as [He|]; simpl; [|done]. subst g.
  assert (Hnone : List.filter (fun g => (cycle_generation c =? g) || false) l = []); [|by rewrite Hnone].
  clear -Hg. induction l as [|g l IH]; simpl; [done|]. apply not_elem_of_cons in Hg as [Hne Hg].
  destruct (Z.eqb_spec (cycle_generation c) g); [done|]. by apply IH.
Qed.

Lemma refresh_leases e now lv al h final s :
  sublist (leases (refresh e now lv al h final s).1) (leases s ++ [generation s + 1]).
Proof.
  assert (Hsame : sublist (leases s) (leases s ++ [generation s + 1])) by by apply sublist_inserts_r.
  unfold refresh. destruct (fault s); [done|]. unfold prune_generations.
  pose proof (prune_leases_loses e 0 lv (leases s) (db s)) as [_ Hr].
  destruct (prune_leases _ _ _ _ _) as [d [ls|]]; simpl in Hr; [subst ls|done].
  assert (Hf : sublist (List.filter lv (leases s)) (leases s ++ [generation s + 1])).
  { etrans; [apply filter_sublist|done]. }
  destruct (negb final && _); [done|]. destruct (advance _ _ _) as [s2|] eqn:Ha; [|done].
  unfold advance in Ha. unbind Ha. injection Ha as <-. simpl.
  destruct (checked_add _ _ _) as [g|] eqn:Hg; [|done]. unfold checked_add in Hg. destruct (_ <=? _); [|done].
  injection Hg as <-. destruct (refresh_tables _ _ _ _ _); [|done].
  destruct (publish _ _) as [file [u|]]; [|destruct (attempt e (Statement 40)); done].
  destruct final; [done|]. destruct al; [|done]. simpl. apply sublist_app; [apply filter_sublist|done].
Qed.

Lemma serve_ok sys e now h :
  system_ok sys →
  let r := refresh e now (live sys) true h false (store sys) in
  system_ok (set_store r.1 sys) ∧
  phase_ok r.1 (Answered match r.2 with Ok (Some g) => Some (g, query_seconds (db r.1)) | _ => None end).
Proof.
  intros Hok r. destruct (refresh_ok e now (live sys) true h false (store sys) (sys_store _ Hok))
    as (Hs & Hg & Hkeep & Hnew). fold r in Hs, Hg, Hkeep, Hnew. split.
  - apply store_changes; try done.
    + destruct (sys_tracks _ Hok) as [history Ht]. exists history. by apply refresh_tracks.
    + eapply sublist_NoDup; [|apply refresh_leases]. apply NoDup_app. split_and!; [apply Hok| |apply NoDup_singleton].
      intros g Hin Hg'%list_elem_of_singleton. destruct (ok_leases _ (sys_store _ Hok)) as [Hle _].
      rewrite Forall_forall in Hle. apply Hle in Hin. lia.
  - destruct (r.2) as [[g|]|]; simpl; try done. destruct (Hnew g eq_refl) as (-> & Hgen & _ & Hrow). split; [lia|done].
Qed.

Lemma prefetch_step_ok ev sys sys' : system_ok sys → step ev sys = Some sys' → system_ok sys'.
Proof.
  intros Hok Hst. unfold step in Hst. destruct ev as [| |e now h| |e| |e evs now h|e h].
  - destruct (now_at sys); [..|done]; injection Hst as <-; destruct Hok; split; simpl; auto; done.
  - destruct (now_at sys) eqn:Hp; try done. injection Hst as <-. destruct Hok. by split.
  - destruct (now_at sys) eqn:Hp; try done. destruct (serve_ok sys e now h Hok) as [Hs Hph].
    destruct (refresh _ _ _ _ _ _ _) as [s r]. injection Hst as <-. destruct Hs. by split.
  - destruct (now_at sys) as [| |[[g rows]|]|] eqn:Hp; try done; [|injection Hst as <-; destruct Hok; by split].
    destruct (idle sys) eqn:Hi; injection Hst as <-; destruct Hok as [Ht Hs Hl Hidle Ha Hph]; split; simpl; auto; try done.
    rewrite Hp in Hph. destruct Hph as [Hg Hrow]. intros c [= <-]. split_and!; [done| |done]. simpl. by exists (table g (store sys)).
  - assert (Hc : ∃ c c', active sys = Some c ∧ cycle_step e (store sys) c = Some c' ∧
      sys' = mkSystem (idle sys) (Some c') (now_at sys) (store sys)).
    { destruct (active sys) as [c|]; [|by destruct (now_at sys)].
      destruct (cycle_step e (store sys) c) as [c'|] eqn:Hc; [|by destruct (now_at sys)].
      exists c, c'. destruct (now_at sys) as [| |[[]|]|]; try done; by injection Hst as <-. }
    destruct Hc as (c & c' & Hac & Hc & ->). destruct Hok as [Ht Hs Hl [Hidle|Hidle] Ha Hph]; [congruence|].
    split; simpl; auto. intros c0 [= <-]. destruct (Ha c Hac) as (Hg & Ho & Hrow).
    destruct (cycle_in_order _ _ _ _ Hs Ho Hc) as (Ho' & Hg' & Hl'). rewrite Hg' in Ho'. split_and!; rewrite ?Hg', ?Hl'; done.
  - assert (Hc : sys' = mkSystem true None (now_at sys) (store sys)).
    { destruct (active sys) as [[g [| |o] v l]|]; destruct (now_at sys) as [| |[[]|]|]; try done; by injection Hst as <-. }
    subst sys'. destruct Hok. split; simpl; auto; done.
  - assert (Hs : sys' = set_store (batch e evs now h (store sys)).1.2 sys).
    { destruct (now_at sys) as [| |[[]|]|]; try done; by injection Hst as <-. }
    subst sys'. destruct (batch e evs now h (store sys)) as [[h' s'] r] eqn:Hb. simpl.
    destruct (sys_tracks _ Hok) as [history Ht].
    destruct (batch_ok _ _ _ _ _ _ _ _ _ _ base_canonical Ht (sys_store _ Hok) Hb) as (Hs & Hp & Hg & Hl).
    apply store_changes; try done; [eexists; by eapply batch_tracks|rewrite Hl; apply Hok|lia|].
    intros g t _ _. unfold generation_row. by rewrite Hp.
  - assert (Hs : sys' = match persist_health e h (store sys) with Ok s => set_store s sys | Err _ => sys end).
    { destruct (persist_health e h (store sys)), (now_at sys) as [| |[[]|]|]; try done; by injection Hst as <-. }
    subst sys'. destruct (persist_health e h (store sys)) as [s|] eqn:Hp; [|done].
    destruct (sys_tracks _ Hok) as [history Ht].
    pose proof (persist_health_tracks base history _ _ _ _ Hp Ht) as Ht'. unfold persist_health in Hp. unbind Hp.
    injection Hp as <-. apply store_changes; try done; simpl; [destruct (sys_store _ Hok); by split|eauto|apply Hok].
Qed.

Lemma reaches_ok sys0 sys : system_ok sys0 → reaches sys0 sys → system_ok sys.
Proof. intros H0' Hr. induction Hr as [|sys ev sys' _ IH Hst]; [done|]. by eapply prefetch_step_ok. Qed.

Definition ready (s : Store) : Prop :=
  (∃ history, tracks base history s) ∧ store_ok s ∧ leases s = [].

Lemma start_ok s : ready s → system_ok (start s).
Proof. intros (Ht & Hs & Hl). split; simpl; try done; [rewrite Hl; constructor|by left]. Qed.

(** C14: the prefetch visits what is popular: a cycle that ends without a
    failed page has refreshed exactly the questions that were popular when its
    list was made, each once, in the order of the list, whatever was recorded,
    refreshed and pruned in the meantime; one that is still running, or was cut
    short by a failed page, has refreshed a front of that list. *)
Theorem popular_cycle_is_complete s sys c :
  ready s → reaches (start s) sys → active sys = Some c →
  ∃ rest : list (target * Z),
    let T := map row_of (visited c) ++ rest in
    bm_wf T ∧ (∀ t, bm_get t T = popular_count (ledger c) t) ∧ (at_ c = Over true → rest = []).
Proof.
  intros Hs Hr Hc. pose proof (reaches_ok _ _ (start_ok _ Hs) Hr) as Hok.
  destruct (sys_active _ Hok c Hc) as (Hg & Ho & Hrow).
  pose proof (table_wf (cycle_generation c) _ (ok_popular_wf _ (sys_store _ Hok))) as Hwf.
  assert (Hget : ∀ t, bm_get t (table (cycle_generation c) (store sys)) = popular_count (ledger c) t).
  { intros t. by rewrite table_get, Hrow. }
  unfold in_order in Ho. destruct (at_ c) as [after|p after|[]].
  - destruct Ho as (rest & HT & _). exists rest. by rewrite <-HT.
  - destruct Ho as (rest & HT & _). rewrite <-app_assoc in HT. exists (map row_of p ++ rest). by rewrite <-HT.
  - exists []. rewrite app_nil_r, <-Ho. done.
  - destruct Ho as (rest & HT). exists rest. by rewrite <-HT.
Qed.

(** maintenance never starves for leases: whenever the store serves a
    refresh of the scheduler, at most one generation is still held, so that the
    refusal for two leased generations is never the answer. *)
Theorem maintenance_has_a_lease s sys :
  ready s → reaches (start s) sys → now_at sys = Requested →
  (length (List.filter (live sys) (leases (store sys))) ≤ 1)%nat.
Proof. intros Hs Hr Hp. apply leases_in_use; [|done]. by eapply reaches_ok; [apply start_ok|]. Qed.


(** ** Cycles end *)

Fixpoint run_cycle (n : nat) (e : env) (s : Store) (c : cycle) : cycle :=
  match n with
  | O => c
  | S n' => match cycle_step e s c with Some c' => run_cycle n' e s c' | None => c end
  end.

Lemma read_targets_Ok n rows :
  (∀ kv, kv ∈ rows → canonical kv.1.2.1.1 = true ∧ 0 < kv.2) → ∃ ts, read_targets (fun _ => None) n rows = Ok ts.
Proof.
  revert n. induction rows as [|[[g [[d t] c]] k] rows IH]; intros n Hrows; [by eexists|].
  destruct (Hrows ((g, (d, t, c)), k) ltac:(by left)) as [Hc Hk]. simpl in Hc, Hk. unfold canonical in Hc.
  destruct (IH (S n)) as [ts Hts]; [intros kv ?; apply Hrows; by right|].
  cbn [read_targets attempt rbind]. destruct (name_from_ascii d) as [nm|]; [|done]. cbn [ok_or rbind].
  unfold to_u64. rewrite (proj2 (Z.ltb_ge _ _)) by lia. cbn [rbind]. rewrite Hts. by eexists.
Qed.

Lemma page_Ok g after s : store_ok s → ∃ ts, page (fun _ => None) g after s = Ok ts.
Proof.
  intros Hs. unfold page. cbn [attempt rbind]. apply read_targets_Ok. intros [[g' t] n] Hk.
  assert (Hin : ((g', t), n) ∈ popular_targets (db s)).
  { eapply elem_of_submseteq; [exact Hk|]. apply sublist_submseteq. etrans; [apply sublist_take|apply filter_sublist]. }
  apply bm_elem_get in Hin; [|apply Hs]. destruct (ok_popular _ Hs g' t n Hin) as (_ & ? & ?). done.
Qed.

(** The steps a cycle has left, at most. *)
Definition remaining (s : Store) (c : cycle) : nat :=
  let left := (length (table (cycle_generation c) s) - length (visited c))%nat in
  match at_ c with
  | AskPage _ => 3 * left + 1
  | InPage p _ => length p + 2 + 3 * (left - length p)
  | Over _ => 0
  end.

Lemma cycle_progress s c :
  store_ok s → in_order (table (cycle_generation c) s) c → at_ c ≠ Over false →
  at_ c = Over true ∨
  ∃ c', cycle_step (fun _ => None) s c = Some c' ∧ at_ c' ≠ Over false ∧ (remaining s c' < remaining s c)%nat.
Proof.
  intros Hs Ho Hne. unfold in_order in Ho. unfold cycle_step, remaining.
  destruct (at_ c) as [after|[|t p] after|[]] eqn:Hat; [| | |by left|done]; right.
  - destruct Ho as (rest & HT & Ha). destruct (page_Ok (cycle_generation c) after s Hs) as [ts Hp]. rewrite Hp.
    pose proof (page_spec _ _ _ _ _ _ _ Hs HT Ha Hp) as Hrows.
    destruct ts as [|t ts]; eexists; split_and!; try done; simpl; [lia|].
    apply (f_equal length) in Hrows. rewrite length_map, length_take in Hrows. cbn [length] in Hrows.
    rewrite HT, length_app, length_map. lia.
  - eexists. split_and!; try done. simpl. lia.
  - destruct Ho as (rest & HT & _). eexists. split_and!; try done. simpl.
    rewrite HT, !length_app, !length_map. simpl. lia.
Qed.

(** without failing pages a cycle ends, after at most three steps per
    row of its list and two more. *)
Theorem popular_cycle_ends s c :
  store_ok s → in_order (table (cycle_generation c) s) c → at_ c ≠ Over false →
  at_ (run_cycle (3 * length (table (cycle_generation c) s) + 2) (fun _ => None) s c) = Over true.
Proof.
  assert (Hrun : ∀ n c, store_ok s → in_order (table (cycle_generation c) s) c → at_ c ≠ Over false →
    (remaining s c ≤ n)%nat → at_ (run_cycle n (fun _ => None) s c) = Over true).
  { clear c. induction n as [|n IH]; intros c Hs Ho Hne Hle;
      (destruct (cycle_progress s c Hs Ho Hne) as [Hover|(c' & Hc & Hne' & Hlt)]; simpl).
    - done.
    - lia.
    - unfold cycle_step. by rewrite Hover.
    - rewrite Hc. destruct (cycle_in_order _ _ _ _ Hs Ho Hc) as (Ho' & _ & _). apply IH; try done. lia. }
  intros Hs Ho Hne. apply Hrun; try done. unfold remaining. unfold in_order in Ho.
  destruct (at_ c) as [after|p after|o]; [lia| |lia]. destruct Ho as (rest & HT & _).
  rewrite HT, !length_app, !length_map. lia.
Qed.
End Prefetch.

(** ** Witnesses *)

Section Witnesses.
#[local] Existing Instance sample_names.
#[local] Existing Instance DnsWire.sample_front.
#[local] Existing Instance sample_stats.
#[local] Existing Instance sample_stats_laws.

Definition calm : env := fun _ => None.

(** A refresh, and a cycle over its list of one question. *)
Definition sample_events : list event :=
  [Tick; Serve calm 20 health_default; Publication; Tick; CycleStep calm; CycleStep calm; CycleStep calm; CycleStep calm].
Definition sample_sys : system := default (start sample_store) (run sample_events (start sample_store)).

Lemma run_reaches evs sys0 sys sys' : reaches sys0 sys → run evs sys = Some sys' → reaches sys0 sys'.
Proof.
  revert sys. induction evs as [|ev evs IH]; intros sys Hr; simpl; [by intros [= <-]|].
  destruct (step ev sys) as [s1|] eqn:Hs; [|done]. apply IH. by econstructor.
Qed.

Lemma sample_reaches : reaches (start sample_store) sample_sys.
Proof. apply (run_reaches sample_events _ (start sample_store)); [constructor|vm_compute; reflexivity]. Qed.

Lemma sample_canonical k n : bm_get k sample_ledger = Some n → canonical (key_domain k) = true.
Proof. intros Hk. by apply sample_storable in Hk as [? _]. Qed.

Lemma sample_ready : ready sample_ledger sample_store.
Proof. split_and!; [exists []; apply sample_tracks|apply sample_store_ok|done]. Qed.

Definition sample_cycle : cycle :=
  default (mkCycle 0 (AskPage None) [] []) (active sample_sys).

Lemma popular_cycle_is_complete_witness :
  at_ sample_cycle = Over true ∧ map row_of (visited sample_cycle) = [((lit "a.", 1, 1), 150)] ∧
  ∃ rest : list (target * Z),
    let T := map row_of (visited sample_cycle) ++ rest in
    bm_wf T ∧ (∀ t, bm_get t T = popular_count (ledger sample_cycle) t) ∧ (at_ sample_cycle = Over true → rest = []).
Proof.
  split; [vm_compute; reflexivity|]. split; [vm_compute; reflexivity|].
  apply (popular_cycle_is_complete sample_ledger sample_canonical sample_store sample_sys);
    [apply sample_ready|apply sample_reaches|vm_compute; reflexivity].
Defined.

Lemma maintenance_has_a_lease_witness :
  now_at sample_sys = Requested ∧ (length (List.filter (live sample_sys) (leases (store sample_sys))) ≤ 1)%nat.
Proof.
  split; [vm_compute; reflexivity|].
  apply (maintenance_has_a_lease sample_ledger sample_canonical sample_store sample_sys);
    [apply sample_ready|apply sample_reaches|vm_compute; reflexivity].
Defined.

Lemma popular_cycle_ends_witness :
  at_ (run_cycle 2 calm sample_store (mkCycle 1 (AskPage None) [] [])) = Over true.
Proof.
  apply (popular_cycle_ends sample_store (mkCycle 1 (AskPage None) [] [])); [apply sample_store_ok| |done].
  exists []. done.
Defined.
End Witnesses.
End DnsPrefetch.
