(* ===== verification/ConfigSections.v ===== *)
(** * The sections of the configuration

    [packages/proxy-config/src/lib.rs] and [sections/]: the records of the
    main configuration with their built-in values, the expansion of listen
    addresses, the onion services and their validation, the log filter. *)

From S2P Require Import Prelude Order Str Utf8 Net NetText ClientAcl.
Open Scope Z_scope.

Module ConfigSections.
Open Scope result_scope.

(** ** Records and built-in values *)

Record DnsConfig : Type := mkDns { doh_enabled : bool; system_fallback : bool }.
Definition dns_default : DnsConfig := mkDns true false.

Record DohProviderConfig : Type := mkDoh { doh_ip : str; doh_hostname : str; doh_path : str }.

Inductive DnsOverrideKind : Type := System | Dns.

Record DnsOverrideConfig : Type := mkOverrideConfig {
  patterns : list str;
  resolver : DnsOverrideKind;
  server : str;
}.

Record DnsServerConfig : Type := mkDnsServer {
  dns_enabled : bool;
  dns_listen : list str;
  disable_builtin_providers : bool;
  custom_doh_providers : list DohProviderConfig;
  overrides : list DnsOverrideConfig;
  dns_client_access : ClientAcl.AllowedClients;
}.
Definition dns_server_default : DnsServerConfig :=
  mkDnsServer false [lit "127.0.0.1:15353"] false [] [] ClientAcl.allowed_default.

Record SecurityConfig : Type := mkSecurity { block_onion : bool; client_access : ClientAcl.AllowedClients }.
Definition security_default : SecurityConfig := mkSecurity true ClientAcl.allowed_default.

Record AuthConfig : Type := mkAuth { auth_enabled : bool; users_file : str }.
Definition auth_default : AuthConfig := mkAuth true [].

Record UpstreamConfig : Type := mkUpstream {
  upstream_enabled : bool;
  address : str;
  username : str;
  password : str;
}.
Definition upstream_default : UpstreamConfig := mkUpstream false [] [] [].

Record WatchdogConfig : Type := mkWatchdog {
  watchdog_enabled : bool;
  check_interval_secs : Z;
  stale_after_secs : Z;
  rebuild_cooldown_secs : Z;
  failover_min_circuit_fails : Z;
  failover_min_margin : Z;
  failover_signal_cooldown_secs : Z;
}.
Definition watchdog_default : WatchdogConfig := mkWatchdog true 45 180 300 3 2 600.

Record WarmPoolConfig : Type := mkWarmPool { warm_enabled : bool; pool_size : Z; refresh_interval_secs : Z }.
Definition warm_pool_default : WarmPoolConfig := mkWarmPool false 3 60.

Record ConnHealthConfig : Type := mkConnHealth { health_enabled : bool; interval_secs : Z }.
Definition conn_health_default : ConnHealthConfig := mkConnHealth true 60.

Record BridgeSource : Type := mkSource {
  label : str;
  url : str;
  headers : list str;
  cookies : list str;
  allow_credentials_cross_origin : bool;
}.

Record BridgesConfig : Type := mkBridges {
  lines : list str;
  sources : list BridgeSource;
  use_seeds : bool;
  auto_fetch : bool;
  min_alive : Z;
  max_body_mib : Z;
  max_fails : Z;
  fail_window_mins : Z;
  recheck_interval_mins : Z;
  max_circuit_fails : Z;
  circuit_observation_window_mins : Z;
  iat_mode : Z;
  transport : str;
}.

Definition github (path : string) : str := lit "https://raw.githubusercontent.com/" ++ lit path.

Definition default_bridge_sources : list (str * str) :=
  [(lit "scriptzteam-v2-webtunnel", github "scriptzteam/Tor-Bridges-Collector-v2/main/bridges/webtunnel.txt");
   (lit "scriptzteam-v2-webtunnel-tested", github "scriptzteam/Tor-Bridges-Collector-v2/main/bridges/webtunnel_tested.txt");
   (lit "scriptzteam-v2-obfs4", github "scriptzteam/Tor-Bridges-Collector-v2/main/bridges/obfs4.txt");
   (lit "delta-webtunnel", github "Delta-Kronecker/Tor-Bridges-Collector/main/bridge/webtunnel.txt");
   (lit "delta-webtunnel-tested", github "Delta-Kronecker/Tor-Bridges-Collector/main/bridge/webtunnel_tested.txt");
   (lit "delta-obfs4", github "Delta-Kronecker/Tor-Bridges-Collector/main/bridge/obfs4.txt");
   (lit "onionhop-webtunnel", github "center2055/OnionHop-Bridges-Collector/main/bridge/webtunnel.txt");
   (lit "onionhop-webtunnel-tested", github "center2055/OnionHop-Bridges-Collector/main/bridge/webtunnel_tested.txt");
   (lit "onionhop-obfs4", github "center2055/OnionHop-Bridges-Collector/main/bridge/obfs4.txt")].

Definition bridges_default : BridgesConfig :=
  mkBridges [] (map (fun lu => mkSource lu.1 lu.2 [] [] false) default_bridge_sources)
    true true 8 64 24 60 60 5 30 0 (lit "any").

(** *** Logging *)

Inductive LogOutput : Type := Stderr | Stdout | LogFile.

Record LogConfig : Type := mkLog {
  level : str;
  targets : list (str * str);
  output : LogOutput;
  file : str;
  ansi : bool;
}.
Definition log_default : LogConfig :=
  mkLog (lit "info")
    [(lit "socks5_proxy", lit "debug"); (lit "arti_wrapper", lit "debug"); (lit "bridge_line", lit "debug");
     (lit "tor_", lit "warn"); (lit "arti_", lit "warn")] Stderr [] true.

Definition to_filter (c : LogConfig) : str :=
  fold_left (fun out tl => out ++ [44] ++ tl.1 ++ [61] ++ tl.2) (targets c) (level c).

(** *** Circuits *)

Record TorConfig : Type := mkTor { circuit_hops : Z }.
Definition tor_default : TorConfig := mkTor 3.

(** A value that is no [u8] is [None]. *)
Definition circuit_hops_field (value : option Z) : result Z str :=
  match value with
  | None => Err (lit "tor.circuit_hops must be an integer; permitted values are 2 or 3")
  | Some v => if (v =? 2) || (v =? 3) then Ok v else Err (lit "tor.circuit_hops must be 2 or 3")
  end.

(** ** Listen addresses *)

Definition invalid_entry (entry reason : str) : str :=
  lit "invalid listen entry `" ++ entry ++ lit "`: " ++ reason.

Definition COMMA : Z := 44.
Definition COLON : Z := 58.

Definition expand_host (entry : str) (number : Z) (host : str) : result str str :=
  if is_empty host then Err (invalid_entry entry (lit "empty host in shorthand"))
  else
    let? _ :=
      if contains_char 91 host || contains_char 93 host then
        match strip_prefix [91] host with
        | Some h =>
            match strip_suffix [93] h with
            | Some literal =>
                match ipv6_from_str literal with
                | Some _ => Ok tt
                | None => Err (invalid_entry entry (lit "invalid bracketed IPv6 host"))
                end
            | None => Err (invalid_entry entry (lit "IPv6 hosts must be bracketed as [address]"))
            end
        | None => Err (invalid_entry entry (lit "IPv6 hosts must be bracketed as [address]"))
        end
      else if contains_char COLON host then
        Err (invalid_entry entry (lit "IPv6 hosts must be bracketed; shorthand hosts cannot include ports"))
      else if existsb is_whitespace host then Err (invalid_entry entry (lit "host cannot contain whitespace"))
      else Ok tt in
    Ok (host ++ [COLON] ++ to_dec number).

Definition expand_entry (entry : str) : result (list str) str :=
  if negb (contains_char COMMA entry) then Ok [entry]
  else
    let? (hosts, port) := ok_or (rsplit_once COLON entry) (invalid_entry entry (lit "missing shared port")) in
    let port := trim port in
    if is_empty port then Err (invalid_entry entry (lit "missing shared port"))
    else if negb (forallb is_ascii_digit (as_bytes port)) then
      Err (invalid_entry entry (lit "shared port must be numeric (decimal)"))
    else
      let? number := ok_or (parse_uint u16_max port) (invalid_entry entry (lit "shared port must be in 1..=65535")) in
      if number =? 0 then Err (invalid_entry entry (lit "shared port must be in 1..=65535 (not zero)"))
      else collect (expand_host entry number) (map trim (split_on COMMA hosts)).

(** What is not yet there, in order. *)
Definition push_new (addresses : list str) (a : str) : list str :=
  if existsb (str_eqb a) addresses then addresses else addresses ++ [a].

Definition append_entry (addresses : list str) (entry : str) : result (list str) str :=
  let? expanded := expand_entry entry in
  Ok (fold_left push_new expanded addresses).

Fixpoint append_entries (addresses : list str) (entries : list str) : result (list str) str :=
  match entries with
  | [] => Ok addresses
  | entry :: entries' => let? addresses := append_entry addresses entry in append_entries addresses entries'
  end.

(** A key that is one string or a list of strings. *)
Inductive one_or_many : Type := One (s : str) | Many (l : list str).

Definition listen_addresses (v : one_or_many) : result (list str) str :=
  match v with
  | One s => append_entry [] s
  | Many l => append_entries [] l
  end.

Definition override_patterns (v : one_or_many) : list str :=
  match v with
  | One s => [s]
  | Many l => l
  end.

(** ** Onion services *)

Definition MAX_NICKNAME_LEN : Z := 25.
Definition DEFAULT_CIRCUIT_HOPS : Z := 4.

Record OnionServicePort : Type := mkPort { onion_port : Z; port_target : str }.

Record OnionServiceEntry : Type := mkService {
  nickname : str;
  enabled : bool;
  service_hops : Z;
  ports : list OnionServicePort;
}.

Definition is_ascii_alphanumeric (c : Z) : bool := is_ascii_digit c || is_ascii_upper c || is_ascii_lower c.

Definition validate_nickname (n : str) : result unit str :=
  if is_empty n then Err (lit "nickname must not be empty")
  else if MAX_NICKNAME_LEN <? str_len n then
    Err (lit "nickname is " ++ to_dec (str_len n) ++ lit " bytes long (max 25)")
  else if negb (forallb (fun b => is_ascii_alphanumeric b || (b =? 95) || (b =? 45)) (as_bytes n)) then
    Err (lit "nickname must only contain A-Z a-z 0-9 _ -")
  else Ok tt.

Definition validate_target_host (host : str) : result unit str :=
  match strip_prefix [91] host with
  | Some inner =>
      match strip_suffix [93] inner with
      | None => Err (lit "bracketed IPv6 host must be [address]")
      | Some inner =>
          match ipv6_from_str inner with
          | Some _ => Ok tt
          | None => Err (lit "invalid bracketed IPv6 host")
          end
      end
  | None =>
      if is_empty host then Err (lit "target host must not be empty")
      else if contains_char COLON host then Err (lit "IPv6 hosts must be bracketed ([address]:port)")
      else if existsb (fun b => negb (is_ascii_alphanumeric b || (b =? 46) || (b =? 45) || (b =? 95))) (as_bytes host)
      then Err (lit "host must only contain A-Z a-z 0-9 . _ -")
      else Ok tt
  end.

Definition invalid_mapping (raw reason : str) : str :=
  lit "invalid port mapping `" ++ raw ++ lit "` (expected onion_port=host:port): " ++ reason.

Definition map_err {A} (f : str → str) (r : result A str) : result A str :=
  match r with Ok a => Ok a | Err e => Err (f e) end.

Definition parse_port_mapping (raw : str) : result OnionServicePort str :=
  let invalid := invalid_mapping raw in
  let? (onion, target) := ok_or (split_once 61 raw) (invalid (lit "missing `=`")) in
  let? p := ok_or (parse_uint u16_max onion) (invalid (lit "onion port must be a decimal port in 1..=65535")) in
  if p =? 0 then Err (invalid (lit "onion port must be in 1..=65535 (not zero)"))
  else
    let? (host, port) := ok_or (rsplit_once COLON target) (invalid (lit "target must be host:port")) in
    let? _ := map_err invalid (validate_target_host host) in
    let? q := ok_or (parse_uint u16_max port) (invalid (lit "target port must be a decimal port in 1..=65535")) in
    if q =? 0 then Err (invalid (lit "target port must be in 1..=65535 (not zero)"))
    else Ok (mkPort p target).

(** An entry as written; the ports are texts. *)
Record OnionServiceEntryRaw : Type := mkRawService {
  raw_nickname : str;
  raw_enabled : bool;
  raw_hops : Z;
  raw_ports : list str;
}.

Definition path_of (idx : nat) : str := lit "onion_services[" ++ to_dec (Z.of_nat idx) ++ lit "]".

Fixpoint validate_ports (path : str) (seen : list OnionServicePort) (raw : list str) :
  result (list OnionServicePort) str :=
  match raw with
  | [] => Ok seen
  | r :: raw' =>
      let? p := map_err (fun reason => path ++ lit ".ports: " ++ reason) (parse_port_mapping r) in
      if existsb (fun q => onion_port q =? onion_port p) seen then
        Err (path ++ lit ".ports: duplicate onion port " ++ to_dec (onion_port p))
      else validate_ports path (seen ++ [p]) raw'
  end.

Definition validate_entry (idx : nat) (entries : list OnionServiceEntry) (raw : OnionServiceEntryRaw) :
  result OnionServiceEntry str :=
  let path := path_of idx in
  let? _ := map_err (fun reason =>
      path ++ lit ".nickname: invalid nickname '" ++ raw_nickname raw ++ lit "' (" ++ reason ++ lit ")")
    (validate_nickname (raw_nickname raw)) in
  if existsb (fun e => str_eqb (nickname e) (raw_nickname raw)) entries then
    Err (lit "onion_services: duplicate nickname '" ++ raw_nickname raw ++ lit "'")
  else if negb ((2 <=? raw_hops raw) && (raw_hops raw <=? 4)) then
    Err (path ++ lit ".circuit_hops: circuit_hops must be 2, 3, or 4 (got " ++ to_dec (raw_hops raw) ++ lit ")")
  else if is_empty (raw_ports raw) then Err (path ++ lit ".ports: at least one port mapping is required")
  else
    let? ps := validate_ports path [] (raw_ports raw) in
    Ok (mkService (raw_nickname raw) (raw_enabled raw) (raw_hops raw) ps).

Fixpoint validate_each (idx : nat) (entries : list OnionServiceEntry) (raw : list OnionServiceEntryRaw) :
  result (list OnionServiceEntry) str :=
  match raw with
  | [] => Ok entries
  | r :: raw' =>
      let? e := validate_entry idx entries r in
      validate_each (S idx) (entries ++ [e]) raw'
  end.

(** All enabled services must agree with the first of them. *)
Fixpoint check_hops (idx : nat) (reference : option (nat * Z)) (entries : list OnionServiceEntry) : result unit str :=
  match entries with
  | [] => Ok tt
  | e :: entries' =>
      if negb (enabled e) then check_hops (S idx) reference entries'
      else
        match reference with
        | None => check_hops (S idx) (Some (idx, service_hops e)) entries'
        | Some (ref_idx, hops) =>
            if negb (hops =? service_hops e) then
              Err (lit "onion_services: all enabled services must use the same circuit_hops " ++
                lit "(one circuit length per process): " ++ path_of ref_idx ++ lit ".circuit_hops: " ++ to_dec hops ++
                lit " != " ++ path_of idx ++ lit ".circuit_hops: " ++ to_dec (service_hops e))
            else check_hops (S idx) reference entries'
        end
  end.

Definition validate_entries (raw : list OnionServiceEntryRaw) : result (list OnionServiceEntry) str :=
  let? entries := validate_each 0 [] raw in
  let? _ := check_hops 0 None entries in
  Ok entries.

(** As the entries are written back. *)
Definition port_to_string (p : OnionServicePort) : str := to_dec (onion_port p) ++ [61] ++ port_target p.
Definition to_raw (e : OnionServiceEntry) : OnionServiceEntryRaw :=
  mkRawService (nickname e) (enabled e) (service_hops e) (map port_to_string (ports e)).

(** ** The configuration *)

Record Config : Type := mkConfigFile {
  listen : list str;
  log : LogConfig;
  bridges : BridgesConfig;
  watchdog : WatchdogConfig;
  warm_pool : WarmPoolConfig;
  conn_health : ConnHealthConfig;
  upstream : UpstreamConfig;
  pre_socks5 : option ClientAcl.EndpointOverride;
  post_socks5 : option ClientAcl.EndpointOverride;
  auth : AuthConfig;
  security : SecurityConfig;
  dns : DnsConfig;
  tor : TorConfig;
  dns_server : DnsServerConfig;
  onion_services : list OnionServiceEntry;
}.

Definition config_default : Config :=
  mkConfigFile [lit "127.0.0.1:1080"] log_default bridges_default watchdog_default warm_pool_default
    conn_health_default upstream_default None None auth_default security_default dns_default tor_default
    dns_server_default [].

(** ** Listen addresses, expanded *)

(** The addresses an entry means, before duplicates are removed. *)
Definition means (entry : str) : list str := default [] (ok (expand_entry entry)).

Lemma collect_Forall2 {A B E} (f : A → result B E) l out :
  collect f l = Ok out → Forall2 (fun a b => f a = Ok b) l out.
Proof.
  revert out. induction l as [|x l IH]; intros out Hc; simpl in Hc; [by injection Hc as <-|].
  unbind Hc. injection Hc as <-. constructor; auto.
Qed.

(** An address of an entry with commas: one of its hosts and the shared
    port, which is a port number; a host with a colon is an IPv6 literal. *)
Definition shared (entry a : str) : Prop :=
  ∃ hosts port host number,
    rsplit_once COLON entry = Some (hosts, port) ∧ host ∈ map trim (split_on COMMA hosts) ∧
    parse_uint u16_max (trim port) = Some number ∧ number ≠ 0 ∧ a = host ++ [COLON] ++ to_dec number ∧
    (COLON ∈ host → ∃ literal v, host = [91] ++ literal ++ [93] ∧ ipv6_from_str literal = Some v).

Lemma expand_host_spec entry number host a :
  expand_host entry number host = Ok a →
  a = host ++ [COLON] ++ to_dec number ∧
  (COLON ∈ host → ∃ literal v, host = [91] ++ literal ++ [93] ∧ ipv6_from_str literal = Some v).
Proof.
  intros He. unfold expand_host in He. destruct (is_empty host); [done|]. unbind He.
  injection He as <-. split; [done|]. intros Hcol. destruct (contains_char 91 host || contains_char 93 host).
  - destruct (strip_prefix [91] host) as [h|] eqn:Hp; [|done]. destruct (strip_suffix [93] h) as [l|] eqn:Hs; [|done].
    destruct (ipv6_from_str l) as [v|] eqn:Hv; [|done]. apply strip_prefix_Some in Hp as ->.
    apply strip_suffix_Some in Hs as ->. eauto.
  - apply contains_char_spec in Hcol. by rewrite Hcol in Ha.
Qed.

Lemma trim_start_incl p s c : c ∈ trim_start_by p s → c ∈ s.
Proof. induction s as [|x s IH]; simpl; [done|]. destruct (p x); [|done]. intros Hc. right. auto. Qed.

Lemma trim_incl s c : c ∈ trim s → c ∈ s.
Proof.
  unfold trim, trim_end_by. intros Hc. rewrite <-elem_of_reverse, reverse_rev in Hc || idtac.
  apply list_elem_of_In, in_rev, list_elem_of_In, trim_start_incl, list_elem_of_In, in_rev, list_elem_of_In,
    trim_start_incl in Hc. done.
Qed.

Lemma split_no_sep c s w : w ∈ split_on c s → c ∉ w.
Proof.
  intros Hw Hc. apply split_by_parts in Hw. rewrite Forall_forall in Hw. apply Hw in Hc. by rewrite Z.eqb_refl in Hc.
Qed.

(** Every address of an entry stands for itself. *)
Lemma expand_entry_spec entry out a :
  expand_entry entry = Ok out → a ∈ out → COMMA ∉ a ∧ (a = entry ∨ shared entry a).
Proof.
  unfold expand_entry. destruct (contains_char COMMA entry) eqn:Hc; simpl.
  2: { intros [= <-] ->%list_elem_of_singleton. split; [|by left].
       intros Hin%contains_char_spec. congruence. }
  intros He. unbind He. destruct a0 as [hosts port]. destruct (is_empty (trim port)); [done|].
  destruct (negb _); [done|]. unbind He. destruct (Z.eqb_spec a0 0); [done|]. intros Hin.
  apply collect_Forall2 in He. apply list_elem_of_lookup in Hin as [i Hi].
  destruct (Forall2_lookup_r _ _ _ _ _ He Hi) as (host & Hh%list_elem_of_lookup_2 & Hok).
  destruct (rsplit_once COLON entry) as [[h' p']|] eqn:Hr; [|done]. injection Ha as -> ->.
  destruct (parse_uint u16_max (trim port)) as [n'|] eqn:Hp; [|done]. injection Ha0 as ->.
  apply expand_host_spec in Hok as [-> Hv6]. split; [|right; by exists hosts, port, host, a0].
  apply list_elem_of_fmap in Hh as (w & -> & Hw). apply parse_uint_bounds in Hp; [|done].
  intros [Hin%trim_incl|Hin]%elem_of_app; [by apply (split_no_sep _ _ _ Hw)|].
  apply elem_of_cons in Hin as [?|Hin]; [done|]. apply to_dec_chars in Hin; unfold COMMA in *; lia.
Qed.

Lemma expand_self a : COMMA ∉ a → expand_entry a = Ok [a].
Proof.
  intros Ha. unfold expand_entry. destruct (contains_char COMMA a) eqn:Hc; [|done].
  by apply contains_char_spec in Hc.
Qed.

Lemma push_new_in l a x : x ∈ push_new l a ↔ x ∈ l ∨ x = a.
Proof.
  unfold push_new. destruct (existsb (str_eqb a) l) eqn:He.
  - apply existsb_exists in He as (b & Hb & ->%bool_decide_eq_true). apply list_elem_of_In in Hb. naive_solver.
  - rewrite elem_of_app, list_elem_of_singleton. done.
Qed.

Lemma push_new_NoDup l a : NoDup l → NoDup (push_new l a).
Proof.
  intros Hl. unfold push_new. destruct (existsb (str_eqb a) l) eqn:He; [done|]. apply NoDup_app.
  split_and!; [done| |apply NoDup_singleton]. intros x Hx ->%list_elem_of_singleton.
  assert (existsb (str_eqb a) l = true); [|congruence]. apply existsb_exists. exists a.
  split; [by apply list_elem_of_In|by apply bool_decide_eq_true].
Qed.

Lemma push_all_spec l acc :
  let out := fold_left push_new l acc in
  (NoDup acc → NoDup out) ∧ (∀ x, x ∈ out ↔ x ∈ acc ∨ x ∈ l).
Proof.
  revert acc. induction l as [|a l IH]; intros acc; simpl.
  { split; [done|]. intros x. rewrite elem_of_nil. tauto. }
  destruct (IH (push_new acc a)) as [Hn Hin]. split.
  - intros Hacc. by apply Hn, push_new_NoDup.
  - intros x. rewrite Hin, push_new_in, elem_of_cons. tauto.
Qed.

Lemma append_entries_spec acc entries out :
  append_entries acc entries = Ok out →
  (NoDup acc → NoDup out) ∧ (∀ x, x ∈ out ↔ x ∈ acc ∨ ∃ e, e ∈ entries ∧ x ∈ means e) ∧
  Forall (fun e => is_Some (ok (expand_entry e))) entries.
Proof.
  revert acc. induction entries as [|e entries IH]; intros acc Ha; simpl in Ha.
  { injection Ha as <-. split_and!; [done| |done]. intros x. split; [tauto|]. intros [?|(? & ?%elem_of_nil & _)]; done. }
  unbind Ha. unfold append_entry in Ha0. unbind Ha0. injection Ha0 as <-.
  destruct (IH _ Ha) as (Hn & Hin & Hok). destruct (push_all_spec a0 acc) as [Hn' Hin']. split_and!.
  - auto.
  - intros x. rewrite Hin, Hin'. setoid_rewrite elem_of_cons.
    assert (x ∈ a0 ↔ x ∈ means e) as Hm by (unfold means; by rewrite Ha1). rewrite Hm. naive_solver.
  - constructor; [|done]. rewrite Ha1. simpl. eauto.
Qed.

Definition entries_of (v : one_or_many) : list str := match v with One s => [s] | Many l => l end.

Lemma listen_as_entries v : listen_addresses v = append_entries [] (entries_of v).
Proof. destruct v; simpl; [|done]. by destruct (append_entry [] s). Qed.

Lemma append_selves acc l :
  NoDup (acc ++ l) → Forall (fun a => COMMA ∉ a) l → append_entries acc l = Ok (acc ++ l).
Proof.
  revert acc. induction l as [|a l IH]; intros acc Hn Hl; simpl; [by rewrite app_nil_r|].
  apply Forall_cons in Hl as [Ha Hl]. unfold append_entry. rewrite expand_self by done. simpl.
  assert (push_new acc a = acc ++ [a]) as ->.
  { unfold push_new. destruct (existsb (str_eqb a) acc) eqn:He; [|done].
    apply existsb_exists in He as (b & Hb & ->%bool_decide_eq_true). apply list_elem_of_In in Hb.
    apply NoDup_app in Hn as (_ & Hd & _). destruct (Hd b Hb). by left. }
  rewrite IH; rewrite <-?app_assoc; done.
Qed.

(** the listen addresses are the expansion of the entries: no address
    twice, every address comes from an entry and every expanded address is
    there, an entry without a comma is kept as it is and one with commas gives
    hosts with its one port; and the list that is written back is read as
    itself. *)
Theorem listen_addresses_expand v out :
  listen_addresses v = Ok out →
  NoDup out ∧ (∀ a, a ∈ out ↔ ∃ e, e ∈ entries_of v ∧ a ∈ means e) ∧
  (∀ a, a ∈ out → ∃ e, e ∈ entries_of v ∧ (a = e ∨ shared e a)) ∧
  listen_addresses (Many out) = Ok out.
Proof.
  rewrite listen_as_entries. intros Hl. destruct (append_entries_spec _ _ _ Hl) as (Hn & Hin & Hok).
  assert (Hn' : NoDup out) by (apply Hn; constructor).
  assert (Hin' : ∀ a, a ∈ out ↔ ∃ e, e ∈ entries_of v ∧ a ∈ means e).
  { intros a. rewrite Hin, elem_of_nil. tauto. }
  assert (Hspec : ∀ a, a ∈ out → COMMA ∉ a ∧ ∃ e, e ∈ entries_of v ∧ (a = e ∨ shared e a)).
  { intros a (e & He & Ha)%Hin'. unfold means in Ha. destruct (expand_entry e) as [ex|] eqn:Hx; [|by apply elem_of_nil in Ha].
    destruct (expand_entry_spec e ex a Hx Ha) as [? ?]. eauto. }
  split_and!; [done|done|intros a Ha; by apply Hspec|]. simpl. apply append_selves; [done|].
  apply Forall_forall. intros a Ha. by apply Hspec.
Qed.
Lemma listen_addresses_expand_witness :
  let entry := lit "127.0.0.1, [::1],127.0.0.1:1080" in
  let out := [lit "127.0.0.1:1080"; lit "[::1]:1080"; lit "10.0.0.1:0"] in
  listen_addresses (Many [entry; lit "10.0.0.1:0"]) = Ok out ∧ NoDup out ∧ listen_addresses (Many out) = Ok out.
Proof.
  intros entry out. assert (Hl : listen_addresses (Many [entry; lit "10.0.0.1:0"]) = Ok out)
    by (vm_compute; reflexivity).
  destruct (listen_addresses_expand _ _ Hl) as (Hn & _ & _ & Hi). done.
Defined.

(** ** Onion services, validated *)

Definition valid_nickname (n : str) : Prop :=
  n ≠ [] ∧ str_len n ≤ 25 ∧
  Forall (fun b => is_ascii_alphanumeric b = true ∨ b = 95 ∨ b = 45) (as_bytes n).

Definition valid_port (p : OnionServicePort) : Prop :=
  0 < onion_port p ≤ u16_max ∧
  ∃ host port q, rsplit_once COLON (port_target p) = Some (host, port) ∧ validate_target_host host = Ok tt ∧
    parse_uint u16_max port = Some q ∧ q ≠ 0.

Record valid_service (e : OnionServiceEntry) : Prop := {
  vs_nickname : valid_nickname (nickname e);
  vs_hops : 2 ≤ service_hops e ≤ 4;
  vs_some : ports e ≠ [];
  vs_ports : Forall valid_port (ports e);
  vs_distinct : NoDup (map onion_port (ports e));
}.

(** One circuit length for the enabled services of a process. *)
Definition one_length (l : list OnionServiceEntry) : Prop :=
  ∀ e e', e ∈ l → e' ∈ l → enabled e = true → enabled e' = true → service_hops e = service_hops e'.

Definition valid_services (l : list OnionServiceEntry) : Prop :=
  Forall valid_service l ∧ NoDup (map nickname l) ∧ one_length l.

Lemma validate_nickname_spec n : validate_nickname n = Ok tt ↔ valid_nickname n.
Proof.
  unfold validate_nickname, valid_nickname, MAX_NICKNAME_LEN. destruct n as [|c n]; [naive_solver|]. cbn [is_empty].
  destruct (Z.ltb_spec 25 (str_len (c :: n))); [split; [done|lia]|].
  destruct (forallb _ _) eqn:Hf; cbn [negb].
  - split; [|done]. intros _. split_and!; [done|lia|]. apply Forall_forall. intros b Hb%list_elem_of_In.
    apply (proj1 (forallb_forall _ _) Hf) in Hb. apply orb_true_iff in Hb as [[]%orb_true_iff|]; lia || auto.
  - split; [done|]. intros (_ & _ & Hall). exfalso. apply not_true_iff_false in Hf. apply Hf, forallb_forall.
    intros b Hb%list_elem_of_In. rewrite Forall_forall in Hall. destruct (Hall b Hb) as [->|[->| ->]]; [done|..];
      by rewrite ?orb_true_r.
Qed.

Lemma map_err_Ok {A} g (r : result A str) a : map_err g r = Ok a ↔ r = Ok a.
Proof. destruct r; simpl; naive_solver. Qed.

Lemma parse_port_mapping_spec raw p :
  parse_port_mapping raw = Ok p → valid_port p.
Proof.
  unfold parse_port_mapping. intros Hp. unbind Hp. destruct a as [onion target]. unbind Hp.
  destruct (Z.eqb_spec a 0); [done|]. unbind Hp. destruct a0 as [host port]. unbind Hp.
  destruct (Z.eqb_spec a1 0); [done|]. injection Hp as <-. apply map_err_Ok in Ha2. destruct a0.
  destruct (parse_uint u16_max onion) as [v|] eqn:Hv; [|done]. injection Ha0 as ->.
  apply parse_uint_bounds in Hv; [|done]. split; [simpl; lia|]. exists host, port, a1. simpl.
  destruct (rsplit_once COLON target); [|done]. destruct (parse_uint u16_max port); [|done]. naive_solver.
Qed.

Lemma parse_port_to_string p : valid_port p → parse_port_mapping (port_to_string p) = Ok p.
Proof.
  intros [Hp (host & port & q & Hr & Hh & Hq & Hz)]. unfold parse_port_mapping, port_to_string.
  change ([61] ++ port_target p) with (61 :: port_target p). rewrite ClientAcl.split_once_app.
  2: { intros Hin. apply to_dec_chars in Hin; lia. }
  cbn [ok_or rbind]. rewrite parse_to_dec by lia. cbn [ok_or rbind]. destruct (Z.eqb_spec (onion_port p) 0); [lia|].
  rewrite Hr. cbn [ok_or rbind]. rewrite Hh. cbn [map_err rbind]. rewrite Hq. cbn [ok_or rbind].
  destruct (Z.eqb_spec q 0); [done|]. by destruct p.
Qed.

Lemma validate_ports_spec path seen raw out :
  validate_ports path seen raw = Ok out →
  Forall valid_port seen → NoDup (map onion_port seen) →
  Forall valid_port out ∧ NoDup (map onion_port out) ∧ length out = (length seen + length raw)%nat.
Proof.
  revert seen. induction raw as [|r raw IH]; intros seen Hv Hs Hn; simpl in Hv.
  { injection Hv as <-. split_and!; [done|done|]. simpl. lia. }
  unbind Hv. apply map_err_Ok, parse_port_mapping_spec in Ha.
  destruct (existsb _ seen) eqn:He; [done|]. apply IH in Hv as (? & ? & ->); [|by apply Forall_app; auto|].
  - split_and!; [done|done|]. rewrite length_app. simpl. lia.
  - rewrite map_app. apply NoDup_app. split_and!; [done| |apply NoDup_singleton].
    intros x (q & -> & Hq)%list_elem_of_fmap Hx%list_elem_of_singleton. apply not_true_iff_false in He. apply He.
    apply existsb_exists. exists q. split; [by apply list_elem_of_In|by apply Z.eqb_eq].
Qed.

Lemma validate_ports_print path seen ps :
  Forall valid_port ps → NoDup (map onion_port (seen ++ ps)) →
  validate_ports path seen (map port_to_string ps) = Ok (seen ++ ps).
Proof.
  revert seen. induction ps as [|p ps IH]; intros seen Hp Hn; simpl; [by rewrite app_nil_r|].
  apply Forall_cons in Hp as [Hp Hps]. rewrite parse_port_to_string by done. cbn [map_err rbind].
  destruct (existsb _ seen) eqn:He.
  - apply existsb_exists in He as (q & Hq & Heq%Z.eqb_eq). exfalso. rewrite map_app in Hn.
    apply NoDup_app in Hn as (_ & Hd & _). apply (Hd (onion_port p)); [|by left].
    rewrite <-Heq. apply list_elem_of_fmap_2. by apply list_elem_of_In.
  - rewrite IH; rewrite <-?app_assoc; done.
Qed.

Lemma validate_entry_spec idx entries raw e :
  validate_entry idx entries raw = Ok e →
  valid_service e ∧ nickname e ∉ map nickname entries ∧
  nickname e = raw_nickname raw ∧ enabled e = raw_enabled raw ∧ service_hops e = raw_hops raw ∧
  length (ports e) = length (raw_ports raw).
Proof.
  unfold validate_entry. intros Hv. unbind Hv. destruct a. apply map_err_Ok, validate_nickname_spec in Ha.
  destruct (existsb _ entries) eqn:He; [done|]. destruct (negb _) eqn:Hh; [done|]. boolprop.
  destruct (raw_ports raw) as [|p ps] eqn:Hps; [done|]. cbn [is_empty] in Hv. unbind Hv. injection Hv as <-. cbn.
  apply validate_ports_spec in Ha0 as (Hvp & Hnd & Hlen); [|constructor|constructor].
  split; [constructor; cbn; solve [done | lia | by intros ->]|]. split; [|done].
  intros (e & Hn & Hin)%list_elem_of_fmap. apply not_true_iff_false in He. apply He, existsb_exists.
  exists e. split; [by apply list_elem_of_In|]. apply bool_decide_eq_true. done.
Qed.

Lemma validate_entry_print idx entries e :
  valid_service e → nickname e ∉ map nickname entries → validate_entry idx entries (to_raw e) = Ok e.
Proof.
  intros [Hn Hh Hs Hp Hd] Hin. unfold validate_entry, to_raw. cbn [raw_nickname raw_enabled raw_hops raw_ports].
  rewrite (proj2 (validate_nickname_spec _) Hn). cbn [map_err rbind].
  destruct (existsb _ entries) eqn:He.
  { apply existsb_exists in He as (e' & He' & Heq%bool_decide_eq_true). destruct Hin. rewrite <-Heq.
    apply list_elem_of_fmap_2. by apply list_elem_of_In. }
  destruct (Z.leb_spec 2 (service_hops e)); [|lia]. destruct (Z.leb_spec (service_hops e) 4); [|lia]. cbn [andb negb].
  assert (is_empty (map port_to_string (ports e)) = false) as -> by by destruct (ports e).
  rewrite (validate_ports_print _ []) by done. by destruct e.
Qed.

(** What an entry keeps of the text. *)
Definition says (e : OnionServiceEntry) : str * bool * Z * nat := (nickname e, enabled e, service_hops e, length (ports e)).
Definition raw_says (r : OnionServiceEntryRaw) : str * bool * Z * nat :=
  (raw_nickname r, raw_enabled r, raw_hops r, length (raw_ports r)).

Lemma validate_each_spec idx entries raw out :
  validate_each idx entries raw = Ok out → Forall valid_service entries → NoDup (map nickname entries) →
  Forall valid_service out ∧ NoDup (map nickname out) ∧ map says out = map says entries ++ map raw_says raw.
Proof.
  revert idx entries. induction raw as [|r raw IH]; intros idx entries Hv Hs Hn; simpl in Hv.
  { injection Hv as <-. by rewrite app_nil_r. }
  unbind Hv. apply validate_entry_spec in Ha as (Hok & Hnew & Hnick & Hen & Hhops & Hlen).
  apply IH in Hv as (? & ? & ->); [|by apply Forall_app; auto|].
  - split_and!; [done|done|]. rewrite map_app, <-app_assoc. simpl. do 2 f_equal. unfold says, raw_says. congruence.
  - rewrite map_app. apply NoDup_app. split_and!; [done| |apply NoDup_singleton].
    by intros x Hx ->%list_elem_of_singleton.
Qed.

Lemma validate_each_print idx entries l :
  Forall valid_service l → NoDup (map nickname (entries ++ l)) →
  validate_each idx entries (map to_raw l) = Ok (entries ++ l).
Proof.
  revert idx entries. induction l as [|e l IH]; intros idx entries Hv Hn; simpl; [by rewrite app_nil_r|].
  apply Forall_cons in Hv as [He Hl]. rewrite validate_entry_print; [|done|].
  - cbn [rbind]. rewrite IH; rewrite <-?app_assoc; done.
  - rewrite map_app in Hn. apply NoDup_app in Hn as (_ & Hd & _). intros Hin. apply (Hd _ Hin). by left.
Qed.

(** The enabled services of a list have a given length. *)
Definition all_hops (l : list OnionServiceEntry) (hops : Z) : Prop :=
  ∀ e, e ∈ l → enabled e = true → service_hops e = hops.

Lemma all_hops_cons e l hops : all_hops (e :: l) hops ↔ (enabled e = true → service_hops e = hops) ∧ all_hops l hops.
Proof.
  split.
  - intros Ha. split; [by apply Ha; left|]. intros x Hx. apply Ha. by right.
  - intros [He Hl] x [->|Hx]%elem_of_cons; auto.
Qed.

Lemma one_length_cons e l : one_length (e :: l) ↔ (enabled e = true → all_hops l (service_hops e)) ∧ one_length l.
Proof.
  split.
  - intros Ho. split; [|intros x y Hx Hy; apply Ho; by right].
    intros He x Hx Ex. apply Ho; auto; [by right|by left].
  - intros [He Hl] x y [->|Hx]%elem_of_cons [->|Hy]%elem_of_cons Ex Ey; [done| | |by apply Hl].
    + symmetry. by apply He.
    + by apply He.
Qed.

Lemma check_hops_spec idx reference l :
  check_hops idx reference l = Ok tt ↔
  one_length l ∧ match reference with Some (_, hops) => all_hops l hops | None => True end.
Proof.
  revert idx reference. induction l as [|e l IH]; intros idx reference; simpl.
  { split; [|done]. intros _. split; [by intros e e' ?%elem_of_nil|].
    destruct reference as [[??]|]; [|done]. by intros e ?%elem_of_nil. }
  rewrite one_length_cons. destruct (enabled e) eqn:He; cbn [negb].
  2: { rewrite IH. destruct reference as [[i hops]|]; rewrite ?all_hops_cons, ?He; intuition congruence. }
  destruct reference as [[i hops]|]; [|rewrite IH; tauto]. rewrite all_hops_cons.
  destruct (Z.eqb_spec hops (service_hops e)) as [->|Hne]; cbn [negb]; [rewrite IH; tauto|].
  split; [done|]. intros (_ & Heq & _). by rewrite Heq in Hne.
Qed.

Lemma validate_entries_sound raw out :
  validate_entries raw = Ok out → valid_services out ∧ map says out = map raw_says raw.
Proof.
  intros Hv. unfold validate_entries in Hv. unbind Hv. injection Hv as <-. destruct a0.
  apply validate_each_spec in Ha as (Hs & Hn & Heq); [|constructor|constructor].
  apply check_hops_spec in Ha0 as [Hone _]. done.
Qed.

Lemma validate_entries_print l : valid_services l → validate_entries (map to_raw l) = Ok l.
Proof.
  intros (Hs & Hn & Hone). unfold validate_entries. rewrite (validate_each_print 0 []) by done. cbn [rbind app].
  assert (check_hops 0 None l = Ok tt) as -> by by apply check_hops_spec. done.
Qed.

(** the onion services a configuration gives are valid — nicknames that
    Tor accepts and that are distinct, circuits of two to four hops and of one
    length for all enabled services, at least one port, no port twice, every
    target a host with a port — and are the ones written, in order; and every
    valid list of services is written so that reading it gives it back. *)
Theorem onion_services_validated raw out :
  validate_entries raw = Ok out →
  valid_services out ∧ map says out = map raw_says raw ∧
  ∀ l, valid_services l ↔ validate_entries (map to_raw l) = Ok l.
Proof.
  intros [Hok Heq]%validate_entries_sound. split_and!; [done|done|]. intros l.
  split; [apply validate_entries_print|by intros []%validate_entries_sound].
Qed.

Definition sample_raw : list OnionServiceEntryRaw :=
  [mkRawService (lit "blog") true 4 [lit "80=127.0.0.1:8080"; lit "443=[::1]:8443"];
   mkRawService (lit "old_blog-2") false 3 [lit "80=localhost:81"]].

Lemma onion_services_validated_witness :
  ∃ out, validate_entries sample_raw = Ok out ∧ valid_services out ∧ validate_entries (map to_raw out) = Ok out.
Proof.
  eexists. split; [vm_compute; reflexivity|].
  edestruct (onion_services_validated sample_raw) as (Hok & _ & Hl); [vm_compute; reflexivity|].
  split; [exact Hok|]. by apply Hl.
Defined.

End ConfigSections.
