(* ===== verification/ConfigLayout.v ===== *)
(** * The files of the configuration

    [packages/proxy-config/src/lib.rs] (loading and writing) and [layout/]: the
    main file and the bridges file beside it, the detection of the old layout
    and its migration. The text format is a parameter ([Ktav]); what the
    fields of the configuration make of the decoded text is [ConfigSections]. *)

From S2P Require Import Prelude Order Str TempFile Net NetText ClientAcl ConfigSections.
Import ConfigSections.
Open Scope Z_scope.

Module ConfigLayout.
Open Scope result_scope.

(** ** Fields *)

(** A document of the configuration as its text gives it, before the fields
    with a grammar of their own are read. *)
Record RawOverride : Type := mkRawOverride {
  raw_patterns : one_or_many;
  raw_resolver : DnsOverrideKind;
  raw_server : str;
}.

Record RawDnsServer : Type := mkRawDnsServer {
  raw_dns_enabled : bool;
  raw_dns_listen : one_or_many;
  raw_disable_builtin : bool;
  raw_custom_doh : list DohProviderConfig;
  raw_overrides : list RawOverride;
  raw_dns_access : str;
}.

Record RawConfig : Type := mkRawConfig {
  raw_listen : one_or_many;
  raw_log : LogConfig;
  raw_watchdog : WatchdogConfig;
  raw_warm_pool : WarmPoolConfig;
  raw_conn_health : ConnHealthConfig;
  raw_upstream : UpstreamConfig;
  raw_pre_socks5 : option str;
  raw_post_socks5 : option str;
  raw_auth : AuthConfig;
  raw_block_onion : bool;
  raw_access : str;
  raw_dns : DnsConfig;
  raw_circuit_hops : option Z;
  raw_dns_server : RawDnsServer;
  raw_onion_services : list OnionServiceEntryRaw;
}.

Inductive FieldError : Type :=
| Listen (e : str)
| Endpoints (e : ClientAcl.EndpointError)
| Access (e : ClientAcl.AllowedClientsError)
| Hops (e : str)
| Services (e : str).

Definition in_field {A E} (f : E → FieldError) (r : result A E) : result A FieldError :=
  match r with Ok a => Ok a | Err e => Err (f e) end.

Definition decode_endpoint (v : option str) : result (option ClientAcl.EndpointOverride) FieldError :=
  match v with
  | None => Ok None
  | Some s => in_field Endpoints (ClientAcl.field_from_str s)
  end.

Definition decode_override (r : RawOverride) : DnsOverrideConfig :=
  mkOverrideConfig (override_patterns (raw_patterns r)) (raw_resolver r) (raw_server r).

Definition decode_dns_server (r : RawDnsServer) : result DnsServerConfig FieldError :=
  let? l := in_field Listen (listen_addresses (raw_dns_listen r)) in
  let? a := in_field Access (ClientAcl.allowed_from_str (raw_dns_access r)) in
  Ok (mkDnsServer (raw_dns_enabled r) l (raw_disable_builtin r) (raw_custom_doh r)
        (map decode_override (raw_overrides r)) a).

(** The fields in the order of the struct; of several faulty fields the first
    one is reported here, in the code the first one of the text. The bridge
    pool is not a field of the text. *)
Definition decode (r : RawConfig) : result Config FieldError :=
  let? l := in_field Listen (listen_addresses (raw_listen r)) in
  let? pre := decode_endpoint (raw_pre_socks5 r) in
  let? post := decode_endpoint (raw_post_socks5 r) in
  let? access := in_field Access (ClientAcl.allowed_from_str (raw_access r)) in
  let? hops := in_field Hops (circuit_hops_field (raw_circuit_hops r)) in
  let? server := decode_dns_server (raw_dns_server r) in
  let? services := in_field Services (validate_entries (raw_onion_services r)) in
  Ok (mkConfigFile l (raw_log r) bridges_default (raw_watchdog r) (raw_warm_pool r) (raw_conn_health r)
        (raw_upstream r) pre post (raw_auth r) (mkSecurity (raw_block_onion r) access) (raw_dns r)
        (mkTor hops) server services).

Definition encode_override (o : DnsOverrideConfig) : RawOverride :=
  mkRawOverride (Many (patterns o)) (resolver o) (server o).

Definition encode_dns_server (d : DnsServerConfig) : RawDnsServer :=
  mkRawDnsServer (dns_enabled d) (Many (dns_listen d)) (disable_builtin_providers d) (custom_doh_providers d)
    (map encode_override (overrides d)) (ClientAcl.as_str (dns_client_access d)).

(** An absent endpoint is left out of the text. *)
Definition encode (c : Config) : RawConfig :=
  mkRawConfig (Many (listen c)) (log c) (watchdog c) (warm_pool c) (conn_health c) (upstream c)
    (ClientAcl.override_to_string <$> pre_socks5 c) (ClientAcl.override_to_string <$> post_socks5 c) (auth c)
    (block_onion (security c)) (ClientAcl.as_str (client_access (security c))) (dns c)
    (Some (circuit_hops (tor c))) (encode_dns_server (dns_server c)) (map to_raw (onion_services c)).

Definition with_bridges (c : Config) (b : BridgesConfig) : Config :=
  mkConfigFile (listen c) (log c) b (watchdog c) (warm_pool c) (conn_health c) (upstream c) (pre_socks5 c)
    (post_socks5 c) (auth c) (security c) (dns c) (tor c) (dns_server c) (onion_services c).

(** ** The text format *)

(** The crate's document type: objects (insertion-ordered maps from keys),
    arrays, and values of other kinds, with the maps' operations, and its
    reader and writer for the two documents. *)
Class Ktav : Type := {
  Value : Type;
  ObjectMap : Type;
  as_object : Value → option ObjectMap;
  of_object : ObjectMap → Value;
  as_array : Value → option (list Value);
  of_array : list Value → Value;
  map_get : ObjectMap → str → option Value;
  map_remove : str → ObjectMap → ObjectMap;
  map_insert : str → Value → ObjectMap → ObjectMap;
  parse : str → result Value str;
  config_from_value : Value → result RawConfig str;
  bridges_from_value : Value → result BridgesConfig str;
  config_from_str : str → result RawConfig str;
  bridges_from_str : str → result BridgesConfig str;
  config_to_string : RawConfig → result str str;
  bridges_to_string : BridgesConfig → result str str;
}.

(** ** Files *)

(** A path that names a file: its directory and its last component. *)
Definition place : Type := str * str.

(** A file that is read as text, or one that is there and cannot be. *)
Inductive node : Type := Text (s : str) | Unreadable.

Notation disk := (gmap place node).

Inductive io_error : Type := NotFound | OtherError.

Definition read_to_string (d : disk) (p : place) : result str io_error :=
  match d !! p with
  | Some (Text s) => Ok s
  | Some Unreadable => Err OtherError
  | None => Err NotFound
  end.

Definition exists_file (d : disk) (p : place) : bool := bool_decide (is_Some (d !! p)).

(** [Path::file_stem] of a name: up to the last dot, unless that is its
    first character. *)
Definition file_stem (name : str) : str :=
  match rsplit_once 46 name with
  | None => name
  | Some (before, _) => if is_empty before then name else before
  end.

Definition bridges_path (p : place) : place := (p.1, file_stem p.2 ++ lit ".bridges.ktav").

(** *** Backup names *)

Definition backup_name (p : place) (n : nat) : place := (p.1, p.2 ++ lit ".bak-" ++ to_dec (Z.of_nat n)).

(** The first free number from [n] on; [backup_path_free] shows the search ends. *)
Fixpoint first_free (fuel : nat) (d : disk) (p : place) (n : nat) : place :=
  match fuel with
  | O => backup_name p n
  | S fuel' => if exists_file d (backup_name p n) then first_free fuel' d p (S n) else backup_name p n
  end.

Definition backup_path (d : disk) (p : place) : place := first_free (S (size d)) d p 1.

(** *** Atomic writes *)

(** Put the outcome of a save of the file [p] in the directory. *)
Definition set_file (d : disk) (p : place) (f : option node) : disk :=
  match f with Some n => <[p := n]> d | None => delete p d end.

Definition write_atomic (io : TempFile.save_io) (d : disk) (p : place) (body : str) : result unit unit * disk :=
  let '(r, f) := TempFile.save_file io (Some (Text body)) (d !! p) in
  (r, set_file d p f).

(** ** Loading and writing *)

Inductive Problem : Type :=
| InlineBridges
| OverridePattern (index : nat).

Inductive ConfigError : Type :=
| ReadConfig (e : io_error)
| OldLayout (message : str)
| Syntax (e : str)
| Field (e : FieldError)
| ReadBridges (e : io_error)
| SyntaxBridges (e : str)
| Serialise (e : str)
| WriteFailed
| NotObject
| BothMasks (index : nat)
| BridgesDiffer
| LockTimeout
| BackupFailed.

Definition fails {A E} (f : E → ConfigError) (r : result A E) : result A ConfigError :=
  match r with Ok a => Ok a | Err e => Err (f e) end.

Definition PATTERN : str := lit "pattern".
Definition PATTERNS : str := lit "patterns".
Definition BRIDGES : str := lit "bridges".
Definition DNS_SERVER : str := lit "dns_server".
Definition OVERRIDES : str := lit "overrides".

Definition HEADER : str :=
  lit "## Bridge pool of tor-socks5: lines, sources and health thresholds." ++ [10] ++
  lit "## The program rewrites this file as the pool changes; comments are not kept." ++ [10].

Definition display (p : place) : str := if is_empty p.1 then p.2 else p.1 ++ [47] ++ p.2.

Section Files.
Context `{K : Ktav}.

(** *** The old layout *)

Definition contains_key (m : ObjectMap) (k : str) : bool := bool_decide (is_Some (map_get m k)).

(** The entries of [dns_server.overrides], where the document has them. *)
Definition overrides_of (root : ObjectMap) : option (ObjectMap * list Value) :=
  ds ← map_get root DNS_SERVER ≫= as_object;
  l ← map_get ds OVERRIDES ≫= as_array;
  Some (ds, l).

Definition has_pattern (v : Value) : bool :=
  match as_object v with Some m => contains_key m PATTERN | None => false end.

Fixpoint pattern_problems (index : nat) (l : list Value) : list Problem :=
  match l with
  | [] => []
  | v :: l' => (if has_pattern v then [OverridePattern index] else []) ++ pattern_problems (S index) l'
  end.

Definition root_problems (root : ObjectMap) : list Problem :=
  (if contains_key root BRIDGES then [InlineBridges] else []) ++
  match overrides_of root with Some (_, l) => pattern_problems 0 l | None => [] end.

Definition problems (src : str) : list Problem :=
  match parse src with
  | Ok v => match as_object v with Some root => root_problems root | None => [] end
  | Err _ => []
  end.

Definition explain (p : place) (pr : Problem) : str :=
  match pr with
  | InlineBridges =>
      lit "  - the `bridges` section moved to its own file " ++ display (bridges_path p) ++ [10]
  | OverridePattern index =>
      lit "  - dns_server.overrides[" ++ to_dec (Z.of_nat index) ++
      lit "]: `pattern` was replaced by `patterns`, a list of masks" ++ [10]
  end.

Definition old_layout_message (p : place) (found : list Problem) : str :=
  lit "config " ++ display p ++ lit " uses the old layout and cannot be loaded:" ++ [10] ++
  concat (map (explain p) found) ++
  lit "convert it with: tor-socks5 config migrate --config " ++ display p ++ [10] ++
  lit "(stop the running service first; the old file is kept as a backup)".

Definition check (src : str) (p : place) : result unit ConfigError :=
  let found := problems src in
  if is_empty found then Ok tt else Err (OldLayout (old_layout_message p found)).

(** *** Reading *)

Definition config_of_value (v : Value) : result Config ConfigError :=
  let? r := fails Syntax (config_from_value v) in fails Field (decode r).

Definition config_of_str (src : str) : result Config ConfigError :=
  let? r := fails Syntax (config_from_str src) in fails Field (decode r).

(** [bridges_file::load]. *)
Definition load_bridges (d : disk) (p : place) : result BridgesConfig ConfigError :=
  match read_to_string d (bridges_path p) with
  | Ok src => fails SyntaxBridges (bridges_from_str src)
  | Err NotFound => Ok bridges_default
  | Err e => Err (ReadBridges e)
  end.

Definition from_file (d : disk) (p : place) : result Config ConfigError :=
  let? src := fails ReadConfig (read_to_string d p) in
  let? _ := check src p in
  let? cfg := config_of_str src in
  let? b := load_bridges d p in
  Ok (with_bridges cfg b).

(** *** Writing *)

Definition bridges_text (c : Config) : result str str :=
  let? body := bridges_to_string (bridges c) in Ok (HEADER ++ body).

Definition write_body (io : TempFile.save_io) (d : disk) (p : place) (text : result str str) :
  result unit ConfigError * disk :=
  match text with
  | Err e => (Err (Serialise e), d)
  | Ok body => let '(r, d') := write_atomic io d p body in (fails (fun _ => WriteFailed) r, d')
  end.

Definition write_bridges (io : TempFile.save_io) (d : disk) (c : Config) (p : place) :
  result unit ConfigError * disk :=
  write_body io d (bridges_path p) (bridges_text c).

Definition write_main (io : TempFile.save_io) (d : disk) (c : Config) (p : place) :
  result unit ConfigError * disk :=
  write_body io d p (config_to_string (encode c)).

Definition write (io io' : TempFile.save_io) (d : disk) (c : Config) (p : place) : result unit ConfigError * disk :=
  match write_bridges io d c p with
  | (Ok _, d') => write_main io' d' c p
  | (Err e, d') => (Err e, d')
  end.

(** *** Which file *)

Definition DEFAULT_FILE : place := ([], lit "tor-socks5.ktav").

Definition resolve_path (cli env : option place) : place :=
  default DEFAULT_FILE (match cli with Some p => Some p | None => env end).

Definition loaded (d : disk) (p : place) : result (place * Config) ConfigError :=
  let? c := from_file d p in Ok (p, c).

Definition load_with_override (io io' : TempFile.save_io) (d : disk) (cli env : option place) :
  result (place * Config) ConfigError * disk :=
  match cli with
  | Some p => (loaded d p, d)
  | None =>
      match env with
      | Some p => (loaded d p, d)
      | None =>
          if exists_file d DEFAULT_FILE then (loaded d DEFAULT_FILE, d)
          else
            match write io io' d config_default DEFAULT_FILE with
            | (Ok _, d') => (loaded d' DEFAULT_FILE, d')
            | (Err e, d') => (Err e, d')
            end
      end
  end.

(** ** Migration *)

Record MigrationReport : Type := mkReport {
  backup : place;
  bridges_file : option place;
  bridge_lines : nat;
  bridge_sources : nat;
  masks_converted : nat;
}.

Inductive MigrationOutcome : Type :=
| AlreadyCurrent
| Migrated (report : MigrationReport).

Definition convert_entry (index : nat) (v : Value) : result (Value * nat) ConfigError :=
  match as_object v with
  | None => Ok (v, 0%nat)
  | Some m =>
      match map_get m PATTERN with
      | None => Ok (v, 0%nat)
      | Some mask =>
          let m := map_remove PATTERN m in
          if contains_key m PATTERNS then Err (BothMasks index)
          else Ok (of_object (map_insert PATTERNS (of_array [mask]) m), 1%nat)
      end
  end.

Fixpoint convert_entries (index : nat) (l : list Value) : result (list Value * nat) ConfigError :=
  match l with
  | [] => Ok ([], 0%nat)
  | v :: l' =>
      let? (v', n) := convert_entry index v in
      let? (l'', m) := convert_entries (S index) l' in
      Ok (v' :: l'', (n + m)%nat)
  end.

Definition convert_patterns (root : ObjectMap) : result (ObjectMap * nat) ConfigError :=
  match overrides_of root with
  | None => Ok (root, 0%nat)
  | Some (ds, l) =>
      let? (l', n) := convert_entries 0 l in
      Ok (map_insert DNS_SERVER (of_object (map_insert OVERRIDES (of_array l') ds)) root, n)
  end.

(** How the backup copy ends: done, or stopped with part of the text or
    before the copy exists. *)
Inductive copy_io : Type := Copied | Torn (k : nat) | NotStarted.

Definition copy_file (io : copy_io) (d : disk) (text : str) (dest : place) : result unit ConfigError * disk :=
  match io with
  | Copied => (Ok tt, <[dest := Text text]> d)
  | Torn k => (Err BackupFailed, <[dest := Text (take k text)]> d)
  | NotStarted => (Err BackupFailed, d)
  end.

Record migrate_io : Type := mkMigrateIo {
  lock_ok : bool;
  copy_ends : copy_io;
  bridges_io : TempFile.save_io;
  main_io : TempFile.save_io;
}.

Definition no_failure : migrate_io := mkMigrateIo true Copied TempFile.all_ok TempFile.all_ok.

(** A run that stops anywhere leaves what a run with a failure there leaves. *)
Record conversion : Type := mkConversion { converted : Config; pool : option BridgesConfig; masks : nat }.

Definition ready (d : disk) (p : place) (c : Config) (pool : option BridgesConfig) : result unit ConfigError :=
  match pool with
  | None => Ok tt
  | Some _ =>
      let? wanted := fails Serialise (bridges_text c) in
      match read_to_string d (bridges_path p) with
      | Ok existing => if str_eqb existing wanted then Ok tt else Err BridgesDiffer
      | Err NotFound => Ok tt
      | Err e => Err (ReadBridges e)
      end
  end.

(** What is decided before anything is written: [None] when the file is current. *)
Definition prepare (d : disk) (p : place) (src : str) : result (option conversion) ConfigError :=
  let? root := fails Syntax (parse src) in
  match as_object root with
  | None => Err NotObject
  | Some map =>
      let inline := map_get map BRIDGES in
      let? (map, n) := convert_patterns (map_remove BRIDGES map) in
      if negb (bool_decide (is_Some inline)) && (n =? 0)%nat then Ok None
      else
        let? pool := match inline with
                     | None => Ok None
                     | Some v => let? b := fails SyntaxBridges (bridges_from_value v) in Ok (Some b)
                     end in
        let? config := config_of_value (of_object map) in
        let config := match pool with Some b => with_bridges config b | None => config end in
        let? _ := ready d p config pool in
        Ok (Some (mkConversion config pool n))
  end.

Definition commit (io : migrate_io) (d : disk) (p : place) (src : str) (cv : conversion) :
  result MigrationOutcome ConfigError * disk :=
  let dest := backup_path d p in
  match copy_file (copy_ends io) d src dest with
  | (Err e, d1) => (Err e, d1)
  | (Ok _, d1) =>
      match (match pool cv with
             | Some _ => write_bridges (bridges_io io) d1 (converted cv) p
             | None => (Ok tt, d1)
             end) with
      | (Err e, d2) => (Err e, d2)
      | (Ok _, d2) =>
          match write_main (main_io io) d2 (converted cv) p with
          | (Err e, d3) => (Err e, d3)
          | (Ok _, d3) =>
              (Ok (Migrated (mkReport dest (match pool cv with Some _ => Some (bridges_path p) | None => None end)
                    (match pool cv with Some b => length (lines b) | None => 0%nat end)
                    (match pool cv with Some b => length (sources b) | None => 0%nat end) (masks cv))), d3)
          end
      end
  end.

Definition migrate_config (io : migrate_io) (d : disk) (p : place) : result MigrationOutcome ConfigError * disk :=
  if negb (lock_ok io) then (Err LockTimeout, d)
  else
    match read_to_string d p with
    | Err e => (Err (ReadConfig e), d)
    | Ok src =>
        match prepare d p src with
        | Err e => (Err e, d)
        | Ok None => (Ok AlreadyCurrent, d)
        | Ok (Some cv) => commit io d p src cv
        end
    end.

End Files.

(** ** Fields that are written and read again *)

Definition addresses_ok (l : list str) : Prop := NoDup l ∧ Forall (fun a => COMMA ∉ a) l.
Definition access_ok (a : ClientAcl.AllowedClients) : Prop := ClientAcl.parse (ClientAcl.source a) = Ok (ClientAcl.rules a).
Definition endpoint_field_ok (o : option ClientAcl.EndpointOverride) : Prop :=
  match o with Some o => ClientAcl.override_ok o | None => True end.

(** What loading establishes of a configuration. *)
Record config_ok (c : Config) : Prop := {
  ok_listen : addresses_ok (listen c);
  ok_pre : endpoint_field_ok (pre_socks5 c);
  ok_post : endpoint_field_ok (post_socks5 c);
  ok_access : access_ok (client_access (security c));
  ok_hops : circuit_hops (tor c) = 2 ∨ circuit_hops (tor c) = 3;
  ok_dns_listen : addresses_ok (dns_listen (dns_server c));
  ok_dns_access : access_ok (dns_client_access (dns_server c));
  ok_services : valid_services (onion_services c);
}.

Lemma in_field_Ok {A E} (f : E → FieldError) (r : result A E) a : in_field f r = Ok a ↔ r = Ok a.
Proof. destruct r; simpl; naive_solver. Qed.

Lemma listen_ok v l : listen_addresses v = Ok l → addresses_ok l.
Proof.
  rewrite listen_as_entries. intros Hl. destruct (append_entries_spec _ _ _ Hl) as (Hn & Hin & _).
  split; [apply Hn; constructor|]. apply Forall_forall. intros a Ha. apply Hin in Ha as [?%elem_of_nil|(e & _ & Ha)]; [done|].
  unfold means in Ha. destruct (expand_entry e) as [ex|] eqn:Hx; [|by apply elem_of_nil in Ha].
  by destruct (expand_entry_spec e ex a Hx Ha).
Qed.

Lemma listen_again l : addresses_ok l → listen_addresses (Many l) = Ok l.
Proof. intros [Hn Hc]. by apply (append_selves []). Qed.

Lemma access_from_str_ok s a : ClientAcl.allowed_from_str s = Ok a → access_ok a.
Proof. unfold ClientAcl.allowed_from_str. intros Ha. unbind Ha. by injection Ha as <-. Qed.

Lemma access_again a : access_ok a → ClientAcl.allowed_from_str (ClientAcl.as_str a) = Ok a.
Proof. destruct a as [s rs]. unfold access_ok, ClientAcl.allowed_from_str. cbn. by intros ->. Qed.

Lemma decode_endpoint_ok v o : decode_endpoint v = Ok o → endpoint_field_ok o.
Proof.
  destruct v as [s|]; simpl; [|by intros [= <-]]. rewrite in_field_Ok. unfold ClientAcl.field_from_str.
  intros Ho. unbind Ho. injection Ho as <-. by apply ClientAcl.override_from_str_ok in Ha.
Qed.

Lemma endpoint_again o : endpoint_field_ok o → decode_endpoint (ClientAcl.override_to_string <$> o) = Ok o.
Proof.
  destruct o as [o|]; [|done]. simpl. intros Ho. unfold ClientAcl.field_from_str.
  by rewrite ClientAcl.override_round_trip.
Qed.

Lemma circuit_hops_field_ok v h : circuit_hops_field v = Ok h → h = 2 ∨ h = 3.
Proof.
  destruct v as [v|]; simpl; [|done]. destruct ((v =? 2) || (v =? 3)) eqn:Hv; [|done]. intros [= ->].
  apply orb_true_iff in Hv. lia.
Qed.

Lemma validate_entries_ok raw l : validate_entries raw = Ok l → valid_services l.
Proof. intros Hv. by apply validate_entries_sound in Hv as [? _]. Qed.

Lemma decode_ok r c : decode r = Ok c → config_ok c ∧ bridges c = bridges_default.
Proof.
  unfold decode, decode_dns_server. intros Hd. unbind Hd. unbind Ha4. injection Hd as <-. injection Ha4 as <-.
  repeat match goal with H : in_field _ _ = Ok _ |- _ => apply in_field_Ok in H end.
  split; [|done]. constructor; cbn;
    eauto using listen_ok, decode_endpoint_ok, access_from_str_ok, circuit_hops_field_ok, validate_entries_ok.
Qed.

Lemma decode_overrides l : map decode_override (map encode_override l) = l.
Proof. rewrite map_map. induction l as [|[] l IH]; simpl; [done|]. by rewrite IH. Qed.

Lemma config_decode_encode c : config_ok c → decode (encode c) = Ok (with_bridges c bridges_default).
Proof.
  intros [Hl Hpre Hpost Ha Hh Hdl Hda Hs]. unfold decode, decode_dns_server, encode, encode_dns_server.
  cbn [raw_listen raw_pre_socks5 raw_post_socks5 raw_access raw_circuit_hops raw_dns_server raw_onion_services
       raw_dns_listen raw_dns_access raw_overrides raw_dns_enabled raw_disable_builtin raw_custom_doh].
  rewrite !listen_again, !endpoint_again, !access_again by done. cbn [in_field rbind].
  assert (circuit_hops_field (Some (circuit_hops (tor c))) = Ok (circuit_hops (tor c))) as ->.
  { simpl. by destruct Hh as [-> | ->]. }
  rewrite validate_entries_print by done. cbn [in_field rbind]. rewrite decode_overrides. unfold with_bridges.
  by destruct c as [??????????[][][][]?].
Qed.

(** ** Names *)

Lemma rsplit_once_Some c s a b : rsplit_once c s = Some (a, b) → s = a ++ c :: b ∧ c ∉ b.
Proof.
  revert a b. induction s as [|x s IH]; intros a b; simpl; [done|].
  destruct (rsplit_once c s) as [[a' b']|] eqn:Hr.
  - intros [= <- <-]. by destruct (IH _ _ eq_refl) as [-> ?].
  - destruct (Z.eqb_spec x c) as [->|]; [|done]. intros [= <- <-]. split; [done|].
    clear IH. induction s as [|y s IH]; [set_solver|]. simpl in Hr. destruct (rsplit_once c s) as [[]|]; [done|].
    destruct (Z.eqb_spec y c); [done|]. set_solver.
Qed.

Lemma bridges_path_other p : bridges_path p ≠ p.
Proof.
  destruct p as [dir name]. unfold bridges_path, file_stem. cbn [fst snd]. intros [= Hn].
  destruct (rsplit_once 46 name) as [[a b]|] eqn:Hr.
  - destruct (is_empty a).
    + apply (f_equal length) in Hn. rewrite length_app in Hn. simpl in Hn. lia.
    + apply rsplit_once_Some in Hr as [-> Hb]. apply app_inv_head in Hn. injection Hn as <-. apply Hb. vm_compute. set_solver.
  - apply (f_equal length) in Hn. rewrite length_app in Hn. simpl in Hn. lia.
Qed.

Lemma backup_name_other p n : backup_name p n ≠ p.
Proof.
  destruct p as [dir name]. unfold backup_name. cbn [fst snd]. intros [= Hn].
  apply (f_equal length) in Hn. rewrite !length_app in Hn. simpl in Hn. lia.
Qed.

Lemma backup_not_bridges p n : backup_name p n ≠ bridges_path p.
Proof.
  unfold backup_name, bridges_path. intros Hn%(f_equal (fun q : place => last q.2)). cbn [snd] in Hn.
  rewrite app_assoc, !last_app in Hn. change (last (lit ".bridges.ktav")) with (Some 118) in Hn.
  destruct (last (to_dec (Z.of_nat n))) as [x|] eqn:Hx.
  - injection Hn as ->. apply last_Some_elem_of, to_dec_chars in Hx; lia.
  - apply last_None in Hx. by apply to_dec_nonempty in Hx.
Qed.

Lemma to_dec_inj n m : 0 ≤ n → 0 ≤ m → to_dec n = to_dec m → n = m.
Proof. intros Hn Hm He. rewrite <-(to_dec_value n), He, to_dec_value; done. Qed.

Lemma backup_name_inj p : Inj (=) (=) (backup_name p).
Proof.
  intros n m Hn%(f_equal snd). cbn [backup_name snd] in Hn. apply app_inv_head in Hn. injection Hn as Hn.
  apply to_dec_inj in Hn; lia.
Qed.

Lemma first_free_spec fuel d p n :
  ∃ k, first_free fuel d p n = backup_name p k ∧
    (d !! backup_name p k = None ∨ (k = n + fuel)%nat ∧ ∀ j, (n ≤ j < n + fuel)%nat → is_Some (d !! backup_name p j)).
Proof.
  revert n. induction fuel as [|fuel IH]; intros n; simpl.
  { exists n. split; [done|]. right. split; [lia|]. intros j Hj. lia. }
  unfold exists_file. case_bool_decide as He.
  - destruct (IH (S n)) as (k & Hk & Hor). exists k. split; [done|]. destruct Hor as [?|[-> Hall]]; [by left|]. right.
    split; [lia|]. intros j Hj. destruct (decide (j = n)) as [->|]; [done|]. apply Hall. lia.
  - exists n. split; [done|]. left. by apply eq_None_not_Some.
Qed.

(** The search finds a free name: a directory has only so many files. *)
Lemma backup_path_free d p : ∃ k, backup_path d p = backup_name p k ∧ d !! backup_path d p = None.
Proof.
  unfold backup_path. destruct (first_free_spec (S (size d)) d p 1) as (k & Hk & Hor). exists k. split; [done|].
  rewrite Hk. destruct Hor as [?|[_ Hall]]; [done|]. exfalso.
  set (l := map (backup_name p) (seq 1 (S (size d)))).
  assert (Hnd : NoDup l) by (apply NoDup_fmap_2; [apply backup_name_inj|apply NoDup_seq]).
  assert (Hsub : list_to_set l ⊆@{gset place} dom d).
  { intros q. rewrite elem_of_list_to_set. intros (j & -> & Hj)%list_elem_of_fmap. apply elem_of_dom, Hall.
    apply elem_of_seq in Hj. lia. }
  apply subseteq_size in Hsub. rewrite size_list_to_set in Hsub by done. rewrite size_dom in Hsub.
  unfold l in Hsub. rewrite length_map, length_seq in Hsub. lia.
Qed.

(** ** What the format promises *)

(** The keys of [Config] and of an entry of [dns_server.overrides]; both deny
    unknown fields. *)
Definition CONFIG_KEYS : list str :=
  map lit ["listen"; "log"; "watchdog"; "warm_pool"; "conn_health"; "upstream"; "pre_socks5"; "post_socks5"; "auth";
           "security"; "dns"; "tor"; "dns_server"; "onion_services"]%string.
Definition OVERRIDE_KEYS : list str := map lit ["patterns"; "resolver"; "server"]%string.

Lemma bridges_no_key : BRIDGES ∉ CONFIG_KEYS.
Proof. refine (bool_decide_eq_false_1 _ _). vm_compute. reflexivity. Qed.

Lemma pattern_no_key : PATTERN ∉ OVERRIDE_KEYS.
Proof. refine (bool_decide_eq_false_1 _ _). vm_compute. reflexivity. Qed.

Definition only_keys `{K : Ktav} (m : ObjectMap) (keys : list str) : Prop :=
  ∀ k, is_Some (map_get m k) → k ∈ keys.

(** Objects and arrays are what they are made of; removing and inserting are a
    map's; reading a text is reading its document; a document with a key that
    is no field is refused; a configuration is written as an object, and a text
    that was written is read as what was written, a comment before it or not. *)
Class KtavLaws `{K : Ktav} : Prop := {
  object_view m : as_object (of_object m) = Some m;
  array_view l : as_array (of_array l) = Some l;
  get_removed k m k' : map_get (map_remove k m) k' = if str_eqb k k' then None else map_get m k';
  get_inserted k v m k' : map_get (map_insert k v m) k' = if str_eqb k k' then Some v else map_get m k';
  config_read src r : config_from_str src = Ok r ↔ ∃ v, parse src = Ok v ∧ config_from_value v = Ok r;
  config_fields v r m : config_from_value v = Ok r → as_object v = Some m → only_keys m CONFIG_KEYS;
  override_fields v r m ds l e o :
    config_from_value v = Ok r → as_object v = Some m → overrides_of m = Some (ds, l) → e ∈ l →
    as_object e = Some o → only_keys o OVERRIDE_KEYS;
  config_text_read c src : config_to_string (encode c) = Ok src → config_from_str src = Ok (encode c);
  config_text_object c src v : config_to_string (encode c) = Ok src → parse src = Ok v → is_Some (as_object v);
  bridges_text_read b body : bridges_to_string b = Ok body → bridges_from_str (HEADER ++ body) = Ok b;
}.

Section Laws.
Context `{L : KtavLaws}.

Lemma fails_Ok {A E} (f : E → ConfigError) (r : result A E) a : fails f r = Ok a ↔ r = Ok a.
Proof. destruct r; simpl; naive_solver. Qed.

(** *** The old layout *)

Lemma pattern_problems_nil index l : pattern_problems index l = [] ↔ Forall (fun v => has_pattern v = false) l.
Proof.
  revert index. induction l as [|v l IH]; intros index; simpl; [done|]. rewrite Forall_cons, <-(IH (S index)).
  destruct (has_pattern v); simpl; naive_solver.
Qed.

Lemma contains_key_false m k : contains_key m k = false ↔ map_get m k = None.
Proof. unfold contains_key. rewrite bool_decide_eq_false. apply symmetry, eq_None_not_Some. Qed.

(** A text the typed schema accepts is in the current layout. *)
Lemma accepted_is_current src r : config_from_str src = Ok r → problems src = [].
Proof.
  intros (v & Hp & Hv)%config_read. unfold problems. rewrite Hp. destruct (as_object v) as [m|] eqn:Hm; [|done].
  unfold root_problems. assert (map_get m BRIDGES = None) as Hb.
  { apply eq_None_not_Some. intros Hk%(config_fields _ _ _ Hv Hm). by apply bridges_no_key. }
  rewrite (proj2 (contains_key_false _ _) Hb). cbn [app].
  destruct (overrides_of m) as [[ds l]|] eqn:Ho; [|done]. apply pattern_problems_nil, Forall_forall. intros e He.
  unfold has_pattern. destruct (as_object e) as [o|] eqn:Hoe; [|done]. apply contains_key_false, eq_None_not_Some.
  intros Hk%(override_fields _ _ _ _ _ _ _ Hv Hm Ho He Hoe). by apply pattern_no_key.
Qed.

Lemma check_current src p : problems src = [] → check src p = Ok tt.
Proof. unfold check. by intros ->. Qed.

(** *** Writing, then loading *)

Lemma main_text_read c src : config_ok c → config_to_string (encode c) = Ok src →
  config_of_str src = Ok (with_bridges c bridges_default) ∧ problems src = [].
Proof.
  intros Hc Hs%config_text_read. split; [|by eapply accepted_is_current]. unfold config_of_str. rewrite Hs. cbn [fails rbind].
  by rewrite config_decode_encode.
Qed.

Lemma from_file_main d p c src :
  config_ok c → config_to_string (encode c) = Ok src → d !! p = Some (Text src) →
  from_file d p = let? b := load_bridges d p in Ok (with_bridges c b).
Proof.
  intros Hc Hs Hp. destruct (main_text_read c src Hc Hs) as [Hr Hcur]. unfold from_file, read_to_string. rewrite Hp.
  cbn [fails rbind]. rewrite check_current by done. cbn [rbind]. rewrite Hr. done.
Qed.

Lemma load_bridges_text d p c body :
  bridges_text c = Ok body → d !! bridges_path p = Some (Text body) → load_bridges d p = Ok (bridges c).
Proof.
  intros Hb Hd. unfold bridges_text in Hb. unbind Hb. assert (HEADER ++ a = body) as <- by congruence.
  unfold load_bridges, read_to_string. rewrite Hd. by rewrite (bridges_text_read _ _ Ha).
Qed.

Lemma load_bridges_same d d' p : d !! bridges_path p = d' !! bridges_path p → load_bridges d p = load_bridges d' p.
Proof. intros He. unfold load_bridges, read_to_string. by rewrite He. Qed.

Lemma from_file_ok d p c : from_file d p = Ok c → config_ok c.
Proof.
  unfold from_file, config_of_str. intros Hf. unbind Hf. injection Hf as <-. unbind Ha1.
  apply fails_Ok, decode_ok in Ha1 as [[] _]. by constructor.
Qed.

Lemma with_own_bridges c : with_bridges c (bridges c) = c.
Proof. by destruct c. Qed.

Lemma set_file_lookup d p f q : set_file d p f !! q = if decide (q = p) then f else d !! q.
Proof.
  destruct f; cbn [set_file]; case_decide as Hq; subst.
  - by rewrite lookup_insert_eq.
  - by rewrite lookup_insert_ne by congruence.
  - by rewrite lookup_delete_eq.
  - by rewrite lookup_delete_ne by congruence.
Qed.

(** A save leaves the old file or the new one, and the new one when it succeeds. *)
Lemma write_body_cases io d p text r d' :
  write_body io d p text = (r, d') →
  (∀ q, q ≠ p → d' !! q = d !! q) ∧
  ((r ≠ Ok tt ∧ d' !! p = d !! p) ∨ ∃ body, text = Ok body ∧ d' !! p = Some (Text body)).
Proof.
  unfold write_body. destruct text as [body|e]; [|intros [= <- <-]; naive_solver]. unfold write_atomic.
  destruct (TempFile.save_file io (Some (Text body)) (d !! p)) as [w f] eqn:Hs. intros [= <- <-]. split.
  { intros q Hq. rewrite set_file_lookup. by case_decide. }
  rewrite set_file_lookup, decide_True by done.
  destruct (TempFile.save_file_cases io (Some (Text body)) (d !! p)) as [Hc|[Hc|[Hc _]]];
    rewrite Hs in Hc; injection Hc as -> ->; [by right; eauto|by left|by right; eauto].
Qed.

Lemma write_body_ok io d p text d' :
  write_body io d p text = (Ok tt, d') →
  ∃ body, text = Ok body ∧ d' !! p = Some (Text body) ∧ ∀ q, q ≠ p → d' !! q = d !! q.
Proof. intros (Ho & [[? _]|(body & -> & Hb)])%write_body_cases; [done|]. eauto. Qed.

Lemma write_body_succeeds d p body :
  write_body TempFile.all_ok d p (Ok body) = (Ok tt, <[p := Text body]> d).
Proof. done. Qed.

Lemma write_spec io io' d c p d' :
  write io io' d c p = (Ok tt, d') →
  ∃ pool main, bridges_text c = Ok pool ∧ config_to_string (encode c) = Ok main ∧
    d' !! bridges_path p = Some (Text pool) ∧ d' !! p = Some (Text main) ∧
    ∀ q, q ≠ p → q ≠ bridges_path p → d' !! q = d !! q.
Proof.
  unfold write, write_bridges, write_main. destruct (write_body io d _ _) as [[[]|] d1] eqn:Hb; [|done]. intros Hm.
  apply write_body_ok in Hb as (pool & Hp & Hd1 & Ho1). apply write_body_ok in Hm as (main & Hm & Hd2 & Ho2).
  exists pool, main. split_and!; try done.
  - rewrite Ho2 by apply bridges_path_other. done.
  - intros q Hq Hq'. rewrite Ho2, Ho1 by done. done.
Qed.

(** *** Conversion *)

(** An entry and what it becomes: the mask of the old key is the list of the
    new one, and every other key is kept. *)
Definition entry_converted (v v' : Value) : Prop :=
  (has_pattern v = false ∧ v' = v) ∨
  ∃ m m' mask, as_object v = Some m ∧ map_get m PATTERN = Some mask ∧ map_get m PATTERNS = None ∧
    as_object v' = Some m' ∧ map_get m' PATTERN = None ∧ map_get m' PATTERNS = Some (of_array [mask]) ∧
    ∀ k, k ≠ PATTERN → k ≠ PATTERNS → map_get m' k = map_get m k.

Lemma str_eqb_refl (k : str) : str_eqb k k = true.
Proof. by apply bool_decide_eq_true. Qed.

Lemma str_eqb_ne (k k' : str) : k ≠ k' → str_eqb k k' = false.
Proof. by apply bool_decide_eq_false. Qed.

Lemma pattern_ne : PATTERN ≠ PATTERNS ∧ BRIDGES ≠ DNS_SERVER.
Proof. split; intros He; vm_compute in He; discriminate He. Qed.

Lemma entry_converted_no_pattern v v' : entry_converted v v' → has_pattern v' = false.
Proof.
  intros [[? ->]|(m & m' & mask & _ & _ & _ & Hv' & Hp & _)]; [done|]. unfold has_pattern. rewrite Hv'.
  by apply contains_key_false.
Qed.

Lemma convert_entry_spec index v v' n :
  convert_entry index v = Ok (v', n) → entry_converted v v' ∧ n = if has_pattern v then 1%nat else 0%nat.
Proof.
  unfold convert_entry, entry_converted, has_pattern, contains_key. destruct pattern_ne as [Hne _].
  destruct (as_object v) as [m|] eqn:Hv; [|intros [= <- <-]; auto].
  destruct (map_get m PATTERN) as [mask|] eqn:Hm; [|intros [= <- <-]; auto].
  rewrite get_removed, (str_eqb_ne _ _ Hne). case_bool_decide as Hps; [done|]. intros [= <- <-]. split; [|done].
  right. exists m, (map_insert PATTERNS (of_array [mask]) (map_remove PATTERN m)), mask.
  apply eq_None_not_Some in Hps. split_and!; try done.
  - apply object_view.
  - by rewrite get_inserted, str_eqb_ne, get_removed, str_eqb_refl by done.
  - by rewrite get_inserted, str_eqb_refl.
  - intros k Hk Hk'. by rewrite get_inserted, str_eqb_ne, get_removed, str_eqb_ne by done.
Qed.

Lemma convert_entries_spec index l l' n :
  convert_entries index l = Ok (l', n) → Forall2 entry_converted l l' ∧ n = length (pattern_problems index l).
Proof.
  revert index l' n. induction l as [|v l IH]; intros index l' n; simpl; [by intros [= <- <-]|].
  intros Hc. unbind Hc. destruct a as [v' nv]. unbind Hc. destruct a as [l'' nl]. injection Hc as <- <-.
  apply convert_entry_spec in Ha as [Hv ->]. apply IH in Ha0 as [Hl ->]. split; [by constructor|].
  rewrite length_app. by destruct (has_pattern v).
Qed.

Lemma convert_nothing index l :
  pattern_problems index l = [] → convert_entries index l = Ok (l, 0%nat).
Proof.
  rewrite pattern_problems_nil. revert index. induction l as [|v l IH]; intros index Hl; simpl; [done|].
  apply Forall_cons in Hl as [Hv Hl]. unfold convert_entry, has_pattern in *. destruct (as_object v) as [m|].
  - apply contains_key_false in Hv. rewrite Hv. cbn [rbind]. by rewrite IH.
  - cbn [rbind]. by rewrite IH.
Qed.

Lemma overrides_without_bridges root : overrides_of (map_remove BRIDGES root) = overrides_of root.
Proof. unfold overrides_of. by rewrite get_removed, str_eqb_ne by apply pattern_ne. Qed.

(** What the conversion makes of a document. *)
Record document_converted (root root' : ObjectMap) (n : nat) : Prop := {
  dc_current : root_problems root' = [];
  dc_masks : n = length (match overrides_of root with Some (_, l) => pattern_problems 0 l | None => [] end);
  dc_keys : ∀ k, k ≠ BRIDGES → k ≠ DNS_SERVER → map_get root' k = map_get root k;
  dc_overrides :
    match overrides_of root with
    | None => map_get root' DNS_SERVER = map_get root DNS_SERVER
    | Some (ds, l) => ∃ ds' l', overrides_of root' = Some (ds', l') ∧ Forall2 entry_converted l l' ∧
        ∀ k, k ≠ OVERRIDES → map_get ds' k = map_get ds k
    end;
}.

Lemma overrides_inserted root ds l :
  overrides_of (map_insert DNS_SERVER (of_object (map_insert OVERRIDES (of_array l) ds)) root) =
    Some (map_insert OVERRIDES (of_array l) ds, l).
Proof.
  unfold overrides_of. rewrite get_inserted, str_eqb_refl. cbn [mbind option_bind]. rewrite object_view.
  cbn [mbind option_bind]. rewrite get_inserted, str_eqb_refl. cbn [mbind option_bind]. by rewrite array_view.
Qed.

Lemma convert_patterns_spec root root' n :
  convert_patterns (map_remove BRIDGES root) = Ok (root', n) → document_converted root root' n.
Proof.
  unfold convert_patterns. rewrite overrides_without_bridges. destruct pattern_ne as [_ Hne].
  destruct (overrides_of root) as [[ds l]|] eqn:Ho.
  - intros Hc. unbind Hc. destruct a as [l' m]. injection Hc as <- <-. apply convert_entries_spec in Ha as [Hl ->].
    constructor.
    + unfold root_problems. rewrite overrides_inserted. rewrite (proj2 (contains_key_false _ BRIDGES)).
      * apply pattern_problems_nil, Forall_forall. intros v' Hv'. apply list_elem_of_lookup in Hv' as [i Hi].
        destruct (Forall2_lookup_r _ _ _ _ _ Hl Hi) as (v & _ & Hc). by eapply entry_converted_no_pattern.
      * by rewrite get_inserted, str_eqb_ne, get_removed, str_eqb_refl by congruence.
    + by rewrite Ho.
    + intros k Hk Hk'. by rewrite get_inserted, str_eqb_ne, get_removed, str_eqb_ne by congruence.
    + rewrite Ho. eexists _, l'. split; [apply overrides_inserted|]. split; [done|].
      intros k Hk. by rewrite get_inserted, str_eqb_ne by congruence.
  - intros [= <- <-]. constructor.
    + unfold root_problems. rewrite overrides_without_bridges, Ho, (proj2 (contains_key_false _ BRIDGES)); [done|].
      by rewrite get_removed, str_eqb_refl.
    + by rewrite Ho.
    + intros k Hk _. by rewrite get_removed, str_eqb_ne by congruence.
    + rewrite Ho. by rewrite get_removed, str_eqb_ne by done.
Qed.

Lemma prepare_current d p src v root :
  parse src = Ok v → as_object v = Some root → problems src = [] → prepare d p src = Ok None.
Proof.
  intros Hp Hv. unfold problems, prepare, root_problems. rewrite Hp, Hv. cbn [fails rbind]. rewrite Hv.
  intros [Hb Hl]%app_nil. destruct (contains_key root BRIDGES) eqn:Hk; [done|]. apply contains_key_false in Hk.
  rewrite Hk. unfold convert_patterns. rewrite overrides_without_bridges.
  destruct (overrides_of root) as [[ds l]|]; [rewrite (convert_nothing 0 l Hl)|]; done.
Qed.

(** What is decided of a document that is converted. *)
Lemma prepare_spec d p src v root :
  parse src = Ok v → as_object v = Some root →
  match prepare d p src with
  | Ok None => problems src = []
  | Ok (Some cv) =>
      ∃ root' c, document_converted root root' (masks cv) ∧ config_of_value (of_object root') = Ok c ∧
        (match map_get root BRIDGES with
         | None => pool cv = None ∧ converted cv = c
         | Some b => ∃ bs, bridges_from_value b = Ok bs ∧ pool cv = Some bs ∧ converted cv = with_bridges c bs
         end) ∧ ready d p (converted cv) (pool cv) = Ok tt
  | Err _ => True
  end.
Proof.
  intros Hp Hv. unfold prepare. rewrite Hp. cbn [fails rbind]. rewrite Hv.
  destruct (convert_patterns (map_remove BRIDGES root)) as [[root' n]|] eqn:Hc; [|done]. cbn [rbind].
  apply convert_patterns_spec in Hc. case_bool_decide as Hi; cbn [negb andb].
  - destruct Hi as [b Hb]. rewrite Hb. destruct (bridges_from_value b) as [bs|] eqn:Hbs; [|done]. cbn [fails rbind].
    destruct (config_of_value (of_object root')) as [c|] eqn:Hcv; [|done]. cbn [rbind].
    destruct (ready d p _ _) as [[]|] eqn:Hr; [|done]. exists root', c. split_and!; try done. eauto.
  - apply eq_None_not_Some in Hi. rewrite Hi. destruct (Nat.eqb_spec n 0) as [->|Hn].
    + unfold problems, root_problems. rewrite Hp, Hv, (proj2 (contains_key_false _ _) Hi). cbn [app].
      pose proof (dc_masks _ _ _ Hc) as Hm. destruct (overrides_of root) as [[ds l]|]; [|done].
      by destruct (pattern_problems 0 l).
    + cbn [rbind]. destruct (config_of_value (of_object root')) as [c|] eqn:Hcv; [|done]. cbn [rbind ready].
      exists root', c. done.
Qed.

(** *** Runs of the migration *)

(** The bridges file as the conversion leaves it. *)
Definition pool_in (d d' : disk) (p : place) (cv : conversion) : Prop :=
  match pool cv with
  | None => d' !! bridges_path p = d !! bridges_path p
  | Some _ => ∃ text, bridges_text (converted cv) = Ok text ∧ d' !! bridges_path p = Some (Text text)
  end.

(** Every other file is kept. *)
Definition kept (d d' : disk) (p : place) : Prop := ∀ q n, q ≠ p → d !! q = Some n → d' !! q = Some n.

(** Nothing that matters happened yet: the main file is the old one. *)
Record pending (d d' : disk) (p : place) (cv : conversion) : Prop := {
  pe_main : d' !! p = d !! p;
  pe_pool : d' !! bridges_path p = d !! bridges_path p ∨ pool_in d d' p cv;
  pe_kept : kept d d' p;
}.

(** The main file is the new one, the pool is moved and the backup is there. *)
Record finished (d d' : disk) (p : place) (src : str) (cv : conversion) : Prop := {
  fi_main : ∃ text, config_to_string (encode (converted cv)) = Ok text ∧ d' !! p = Some (Text text);
  fi_pool : pool_in d d' p cv;
  fi_backup : d !! backup_path d p = None ∧ d' !! backup_path d p = Some (Text src);
  fi_kept : kept d d' p;
}.

(** An existing bridges file that the run may replace is the one it writes. *)
Lemma ready_spec d p c b :
  ready d p c (Some b) = Ok tt ↔
  ∃ text, bridges_text c = Ok text ∧ (d !! bridges_path p = None ∨ d !! bridges_path p = Some (Text text)).
Proof.
  unfold ready, read_to_string. destruct (bridges_text c) as [text|]; cbn [fails rbind]; [|naive_solver].
  destruct (d !! bridges_path p) as [[s|]|]; [|naive_solver..]. unfold str_eqb. case_bool_decide; naive_solver.
Qed.

Lemma ready_again d d' p cv :
  ready d p (converted cv) (pool cv) = Ok tt → d' !! bridges_path p = d !! bridges_path p ∨ pool_in d d' p cv →
  ready d' p (converted cv) (pool cv) = Ok tt.
Proof.
  unfold pool_in. destruct (pool cv) as [b|]; [|done]. rewrite !ready_spec. intros (text & Ht & Hd) [He|(t' & Ht' & He)].
  - exists text. by rewrite He.
  - exists t'. auto.
Qed.

Lemma prepare_again d d' p src cv :
  prepare d p src = Ok (Some cv) → d' !! bridges_path p = d !! bridges_path p ∨ pool_in d d' p cv →
  prepare d' p src = Ok (Some cv).
Proof.
  unfold prepare. intros Hp Hd. destruct (parse src) as [v|]; [|done]. cbn [fails rbind] in *.
  destruct (as_object v) as [root|]; [|done]. destruct (convert_patterns _) as [[root' n]|]; [|done]. cbn [rbind] in *.
  destruct (_ && _); [done|]. unbind Hp. rewrite Ha, Ha0. cbn [rbind]. injection Hp as <-. destruct a1.
  pose proof (ready_again d d' p (mkConversion _ _ n) Ha1 Hd) as Hr. cbn [converted pool] in Hr. by rewrite Hr.
Qed.

Lemma copy_file_cases io d src dest r d' :
  d !! dest = None → copy_file io d src dest = (r, d') →
  (∀ q, q ≠ dest → d' !! q = d !! q) ∧ (r = Ok tt → d' !! dest = Some (Text src)).
Proof.
  intros Hd. destruct io; intros [= <- <-]; split; try done; intros; by rewrite ?lookup_insert_eq, ?lookup_insert_ne by done.
Qed.

(** A save of the bridges file that is not the one there already creates it. *)
Lemma commit_pool io d p cv r d' :
  ready d p (converted cv) (pool cv) = Ok tt →
  (match pool cv with
   | Some _ => write_bridges io d (converted cv) p
   | None => (Ok tt, d)
   end) = (r, d') →
  (∀ q, q ≠ bridges_path p → d' !! q = d !! q) ∧
  (r ≠ Ok tt ∧ d' !! bridges_path p = d !! bridges_path p ∨ pool_in d d' p cv) ∧
  (∀ n, d !! bridges_path p = Some n → d' !! bridges_path p = Some n).
Proof.
  unfold pool_in. destruct (pool cv) as [b|]; [|intros _ [= <- <-]; auto].
  rewrite ready_spec. intros (text & Ht & Hd) (Ho & Hc)%write_body_cases. rewrite Ht in Hc. split; [done|].
  destruct Hc as [[? He]|(body & Hb & He)]; [rewrite He; auto|]. injection Hb as <-. split; [right; eauto|].
  intros n Hn. rewrite Hn in Hd. destruct Hd as [|Hd]; congruence.
Qed.

Lemma commit_cases io d p src cv r d' :
  d !! p = Some (Text src) → ready d p (converted cv) (pool cv) = Ok tt → commit io d p src cv = (r, d') →
  (pending d d' p cv ∧ (∀ o, r ≠ Ok o)) ∨ finished d d' p src cv.
Proof.
  intros Hp Hready Hc. unfold commit in Hc. destruct (backup_path_free d p) as (k & Hk & Hfree).
  pose proof (backup_name_other p k) as Hkp. pose proof (backup_not_bridges p k) as Hkb. rewrite <-Hk in Hkp, Hkb.
  pose proof (bridges_path_other p) as Hbp. set (dest := backup_path d p) in *.
  destruct (copy_file _ d src dest) as [r1 d1] eqn:H1. destruct (copy_file_cases _ _ _ _ _ _ Hfree H1) as [Ho1 Hb1].
  assert (Hk1 : ∀ q n, d !! q = Some n → d1 !! q = Some n) by (intros q n Hq; rewrite Ho1 by congruence; done).
  destruct r1 as [[]|e]; [|injection Hc as <- <-; left; split; [|done]].
  2: { constructor; [by rewrite Ho1 by done|left; by rewrite Ho1 by done|intros q n _; apply Hk1]. }
  specialize (Hb1 eq_refl). destruct (match pool cv with Some _ => _ | None => _ end) as [r2 d2] eqn:H2.
  assert (Hready1 : ready d1 p (converted cv) (pool cv) = Ok tt).
  { apply (ready_again d); [done|]. left. by rewrite Ho1 by done. }
  destruct (commit_pool _ _ _ _ _ _ Hready1 H2) as (Ho2 & Hp2 & Hbr2).
  assert (Hk2 : ∀ q n, d1 !! q = Some n → d2 !! q = Some n).
  { intros q n Hq. destruct (decide (q = bridges_path p)) as [->|]; [by apply Hbr2|by rewrite Ho2]. }
  assert (Hpool2 : d2 !! bridges_path p = d !! bridges_path p ∨ pool_in d d2 p cv).
  { destruct Hp2 as [[_ He]|Hin]; [left; by rewrite He, Ho1 by done|right]. unfold pool_in in *.
    destruct (pool cv); [done|]. by rewrite Hin, Ho1 by done. }
  assert (Hmain2 : d2 !! p = d !! p) by by rewrite Ho2, Ho1 by congruence.
  destruct r2 as [[]|e]; [|injection Hc as <- <-; left; split; [|done]; constructor; eauto; intros q n _ Hq; eauto].
  assert (Hpool2' : pool_in d d2 p cv) by (destruct Hp2 as [[? _]|Hin]; [done|]; unfold pool_in in *;
    destruct (pool cv); [done|]; by rewrite Hin, Ho1 by done).
  destruct (write_main _ d2 _ p) as [r3 d3] eqn:H3. destruct (write_body_cases _ _ _ _ _ _ H3) as [Ho3 Hm3].
  assert (Hk3 : kept d d3 p) by (intros q n Hq Hd; rewrite Ho3 by done; eauto).
  assert (Hpool3 : pool_in d d3 p cv).
  { unfold pool_in in *. by destruct (pool cv); rewrite Ho3 by done. }
  destruct Hm3 as [[Hr3 He]|(text & Ht & He)].
  - left. destruct r3 as [[]|]; [done|]. injection Hc as <- <-. split; [|done]. constructor; [by rewrite He|by right|done].
  - right. assert (d' = d3) as -> by (destruct r3 as [[]|]; congruence).
    constructor; [eauto|done| |done]. split; [done|]. rewrite Ho3, Ho2 by done. done.
Qed.

(** *** What a finished run leaves *)

Lemma with_bridges_ok c b : config_ok c → config_ok (with_bridges c b).
Proof. intros []. by constructor. Qed.

Lemma prepare_Some d p src cv :
  prepare d p src = Ok (Some cv) →
  config_ok (converted cv) ∧ ready d p (converted cv) (pool cv) = Ok tt ∧
  ∀ b, pool cv = Some b → bridges (converted cv) = b.
Proof.
  intros Hp. destruct (parse src) as [v|] eqn:Hv; [|by unfold prepare in Hp; rewrite Hv in Hp].
  destruct (as_object v) as [root|] eqn:Hr; [|by unfold prepare in Hp; rewrite Hv in Hp; cbn in Hp; rewrite Hr in Hp].
  pose proof (prepare_spec d p src v root Hv Hr) as Hs. rewrite Hp in Hs.
  destruct Hs as (root' & c & _ & Hc & Hb & Hready). unfold config_of_value in Hc. unbind Hc.
  apply fails_Ok, decode_ok in Hc as [Hok _]. destruct (map_get root BRIDGES).
  - destruct Hb as (bs & _ & Hpool & Heq). rewrite Heq in *. split_and!; [by apply with_bridges_ok|done|]. rewrite Hpool.
    by intros b [= ->].
  - destruct Hb as [Hpool Heq]. rewrite Heq in *. split_and!; [done|done|]. by rewrite Hpool.
Qed.

Lemma commit_succeeds d p src cv text :
  ready d p (converted cv) (pool cv) = Ok tt → config_to_string (encode (converted cv)) = Ok text →
  ∃ report d', commit no_failure d p src cv = (Ok (Migrated report), d') ∧ backup report = backup_path d p.
Proof.
  intros Hr Ht. unfold commit, no_failure. cbn [copy_ends copy_file bridges_io main_io].
  destruct (pool cv) as [b|] eqn:Hpool.
  - apply ready_spec in Hr as (wanted & Hw & _). unfold write_bridges, write_main. rewrite Hw, Ht.
    rewrite !write_body_succeeds. eexists _, _. split; reflexivity.
  - unfold write_main. rewrite Ht, write_body_succeeds. eexists _, _. split; reflexivity.
Qed.

Lemma finished_current d d' p src cv :
  config_ok (converted cv) → finished d d' p src cv → migrate_config no_failure d' p = (Ok AlreadyCurrent, d').
Proof.
  intros Hok [(text & Ht & Hm) _ _ _]. unfold migrate_config, no_failure, read_to_string. cbn [lock_ok negb]. rewrite Hm.
  pose proof (config_text_read _ _ Ht) as Hr. pose proof (accepted_is_current _ _ Hr) as Hcur.
  apply config_read in Hr as (v & Hv & _). destruct (config_text_object _ _ _ Ht Hv) as [root Hroot].
  by rewrite (prepare_current d' p text v root).
Qed.

Lemma finished_loads d d' p src cv :
  config_ok (converted cv) → (∀ b, pool cv = Some b → bridges (converted cv) = b) → finished d d' p src cv →
  from_file d' p = let? b := match pool cv with Some b => Ok b | None => load_bridges d p end in
                   Ok (with_bridges (converted cv) b).
Proof.
  intros Hok Hb [(text & Ht & Hm) Hpool _ _]. rewrite (from_file_main d' p _ text) by done. unfold pool_in in Hpool.
  destruct (pool cv) as [b|].
  - destruct Hpool as (body & Hbody & Hd). rewrite (load_bridges_text _ _ _ _ Hbody Hd). by rewrite (Hb b).
  - by rewrite (load_bridges_same d' d).
Qed.

Lemma migrate_Migrated d p report d' :
  migrate_config no_failure d p = (Ok (Migrated report), d') →
  ∃ src cv, d !! p = Some (Text src) ∧ prepare d p src = Ok (Some cv) ∧ commit no_failure d p src cv = (Ok (Migrated report), d').
Proof.
  unfold migrate_config, read_to_string. cbn [no_failure lock_ok negb]. destruct (d !! p) as [[src|]|] eqn:Hp; [|done..].
  destruct (prepare d p src) as [[cv|]|] eqn:Hc; [|done..]. intros Hm. exists src, cv. auto.
Qed.

Lemma commit_report io d p src cv report d' :
  commit io d p src cv = (Ok (Migrated report), d') → backup report = backup_path d p.
Proof. unfold commit. intros Hc. repeat case_match; by simplify_eq. Qed.

Lemma run_cases io d p src cv r d' :
  d !! p = Some (Text src) → prepare d p src = Ok (Some cv) → migrate_config io d p = (r, d') →
  pending d d' p cv ∨ finished d d' p src cv.
Proof.
  intros Hp Hc. unfold migrate_config, read_to_string. rewrite Hp, Hc. destruct (negb (lock_ok io)).
  { intros [= _ <-]. left. constructor; [done|by left|by intros q n _]. }
  intros Hm. apply prepare_Some in Hc as (_ & Hready & _). apply commit_cases in Hm; [|done|done].
  destruct Hm as [[? _]|?]; auto.
Qed.

(** A run after one that stopped finishes the work. *)
Lemma pending_resumes d d2 p src cv text :
  d !! p = Some (Text src) → prepare d p src = Ok (Some cv) → config_to_string (encode (converted cv)) = Ok text →
  pending d d2 p cv →
  ∃ o d3, migrate_config no_failure d2 p = (Ok o, d3) ∧ finished d2 d3 p src cv ∧
    ∀ q, pool cv = None → q = bridges_path p → d3 !! q = d !! q.
Proof.
  intros Hp Hc Ht [Hmain Hpool _]. pose proof (prepare_again d d2 p src cv Hc Hpool) as Hc2.
  destruct (prepare_Some _ _ _ _ Hc2) as (_ & Hready & _).
  destruct (commit_succeeds d2 p src cv text Hready Ht) as (report & d3 & Hm & _).
  rewrite Hp in Hmain. exists (Migrated report), d3. split.
  { unfold migrate_config, read_to_string. cbn [no_failure lock_ok negb]. by rewrite Hmain, Hc2. }
  destruct (commit_cases no_failure d2 p src cv _ _ Hmain Hready Hm) as [[_ Hne]|Hf]; [by destruct (Hne (Migrated report))|].
  split; [done|]. intros q Hnone ->. pose proof (fi_pool _ _ _ _ _ Hf) as Hin. unfold pool_in in *. rewrite Hnone in *.
  rewrite Hin. by destruct Hpool.
Qed.

(** ** Properties *)

(** the configuration that is written is the one that is loaded: for every
    configuration that loading can give, a successful write puts its two
    files, leaves every other file alone, and loading the path gives the same
    configuration, bridge pool included. *)
Theorem written_config_loads_back io io' d c p d' :
  config_ok c → write io io' d c p = (Ok tt, d') →
  from_file d' p = Ok c ∧ (∀ q, q ≠ p → q ≠ bridges_path p → d' !! q = d !! q) ∧
  ∀ d0 q c0, from_file d0 q = Ok c0 → config_ok c0.
Proof.
  intros Hc Hw. destruct (write_spec _ _ _ _ _ _ Hw) as (pool & main & Hpool & Hmain & Hdb & Hdm & Ho).
  split_and!; [|done|apply from_file_ok]. rewrite (from_file_main d' p c main) by done.
  rewrite (load_bridges_text d' p c pool) by done. cbn [rbind]. by rewrite with_own_bridges.
Qed.

(** a configuration in the old layout is refused by name and converted in
    whole: a document has differences exactly when the migration does not call
    it current, and loading it then fails naming each of them; the converted
    document has none, keeps every key that is not concerned, turns each old
    mask into a list of one and counts them; and after a migration that
    succeeds, loading gives the converted configuration with the pool of the
    old [bridges] section, or with the bridges file that was there. *)
Theorem old_layout_is_converted d p src v root :
  d !! p = Some (Text src) → parse src = Ok v → as_object v = Some root →
  (problems src = [] ↔ prepare d p src = Ok None) ∧
  (problems src ≠ [] → from_file d p = Err (OldLayout (old_layout_message p (problems src)))) ∧
  ∀ report d', migrate_config no_failure d p = (Ok (Migrated report), d') →
    ∃ root' c, document_converted root root' (masks_converted report) ∧ config_of_value (of_object root') = Ok c ∧
      from_file d' p =
        let? b := match map_get root BRIDGES with
                  | Some b => fails SyntaxBridges (bridges_from_value b)
                  | None => load_bridges d p
                  end in
        Ok (with_bridges c b).
Proof.
  intros Hp Hv Hr. pose proof (prepare_spec d p src v root Hv Hr) as Hs. split_and!.
  - split; [by eapply prepare_current|]. intros He. by rewrite He in Hs.
  - intros Hne. unfold from_file, read_to_string, check. rewrite Hp. cbn [fails rbind]. by destruct (problems src).
  - intros report d' Hm. destruct (migrate_Migrated _ _ _ _ Hm) as (src' & cv & Hp' & Hc & Hcm).
    rewrite Hp in Hp'. injection Hp' as <-. rewrite Hc in Hs. destruct Hs as (root' & c & Hdoc & Hcv & Hb & Hready).
    destruct (prepare_Some _ _ _ _ Hc) as (Hok & _ & Hbr).
    assert (masks cv = masks_converted report) as Hmasks by (unfold commit in Hcm; repeat case_match; by simplify_eq).
    destruct (commit_cases _ _ _ _ _ _ _ Hp Hready Hcm) as [[_ Hne]|Hf]; [by destruct (Hne (Migrated report))|].
    exists root', c. rewrite <-Hmasks. split_and!; [done|done|]. rewrite (finished_loads _ _ _ _ _ Hok Hbr Hf).
    destruct (map_get root BRIDGES) as [b|]; [|by destruct Hb as [-> ->]].
    by destruct Hb as (bs & -> & -> & ->).
Qed.

(** C21: a migration can be stopped anywhere and run again: the old text is in
    a backup under a name that was free, no other file is lost or changed and
    a second run finds the file current; and whatever fails or stops in a run —
    the lock, the copy, a save of either file, the sync after it — the main
    file is the old one or the migrated one, every other file is kept, and the
    next run succeeds and leaves the main file and what it loads as in the run
    without failures, with the old text still on disk. *)
Theorem migration_resumes p d report d1 :
  migrate_config no_failure d p = (Ok (Migrated report), d1) →
  (d !! backup report = None ∧ d1 !! backup report = d !! p ∧ kept d d1 p ∧
   migrate_config no_failure d1 p = (Ok AlreadyCurrent, d1)) ∧
  ∀ io r d2, migrate_config io d p = (r, d2) →
    kept d d2 p ∧ (d2 !! p = d !! p ∨ d2 !! p = d1 !! p) ∧
    ∃ o d3, migrate_config no_failure d2 p = (Ok o, d3) ∧ d3 !! p = d1 !! p ∧ from_file d3 p = from_file d1 p ∧
      ∃ q, q ≠ p ∧ d3 !! q = d !! p.
Proof.
  intros Hm. destruct (migrate_Migrated _ _ _ _ Hm) as (src & cv & Hp & Hc & Hcm).
  destruct (prepare_Some _ _ _ _ Hc) as (Hok & Hready & Hbr).
  destruct (commit_cases _ _ _ _ _ _ _ Hp Hready Hcm) as [[_ Hne]|Hf]; [by destruct (Hne (Migrated report))|].
  pose proof (commit_report _ _ _ _ _ _ _ Hcm) as Hrep. destruct (fi_main _ _ _ _ _ Hf) as (text & Ht & Hmain).
  split.
  { rewrite Hrep, Hp. destruct (fi_backup _ _ _ _ _ Hf) as [? ?]. split_and!; [done|done|by eapply fi_kept|].
    by eapply finished_current. }
  intros io r d2 Hrun. assert (Hother : ∀ dx, backup_path dx p ≠ p).
  { intros dx. destruct (backup_path_free dx p) as (k & -> & _). apply backup_name_other. }
  destruct (run_cases _ _ _ _ _ _ _ Hp Hc Hrun) as [Hpe|Hf2].
  - split; [apply Hpe|]. split; [left; apply Hpe|].
    destruct (pending_resumes d d2 p src cv text Hp Hc Ht Hpe) as (o & d3 & Hm3 & Hf3 & Hsame).
    exists o, d3. destruct (fi_main _ _ _ _ _ Hf3) as (text' & Ht' & Hmain3). split_and!; [done|congruence| |].
    + rewrite (finished_loads _ _ _ _ _ Hok Hbr Hf3), (finished_loads _ _ _ _ _ Hok Hbr Hf).
      destruct (pool cv) eqn:Hpool; [done|]. pose proof (fi_pool _ _ _ _ _ Hf3) as Hin. unfold pool_in in Hin.
      rewrite Hpool in Hin. by rewrite (load_bridges_same d2 d) by by rewrite <-Hin, Hsame.
    + exists (backup_path d2 p). split; [done|]. rewrite Hp. by destruct (fi_backup _ _ _ _ _ Hf3).
  - destruct (fi_main _ _ _ _ _ Hf2) as (text' & Ht' & Hmain2). split; [by eapply fi_kept|].
    assert (d2 !! p = d1 !! p) as He by congruence. split; [by right|]. exists AlreadyCurrent, d2.
    split_and!; [by eapply finished_current|done| |].
    + by rewrite (finished_loads _ _ _ _ _ Hok Hbr Hf2), (finished_loads _ _ _ _ _ Hok Hbr Hf).
    + exists (backup_path d p). split; [done|]. rewrite Hp. by destruct (fi_backup _ _ _ _ _ Hf2).
Qed.

Lemma access_default_ok : access_ok ClientAcl.allowed_default.
Proof. unfold access_ok. vm_compute. reflexivity. Qed.

Lemma config_default_ok : config_ok config_default.
Proof.
  assert (∀ a, COMMA ∉ a → addresses_ok [a]) as Ha.
  { intros a Ha. split; [apply NoDup_singleton|by repeat constructor]. }
  constructor; cbn; try done; try apply access_default_ok; try apply Ha, (bool_decide_eq_false_1 _); try (vm_compute; reflexivity).
  - by right.
  - split_and!; [constructor|constructor|]. by intros e e' ?%elem_of_nil.
Qed.

(** the file that is loaded is the one [resolve_path] names, the override
    before the environment before the default file; a load changes no file,
    except that a missing default file is created with the built-in values —
    and with it the bridges file beside it, whatever that held. *)
Theorem load_reads_the_resolved_file io io' d cli env q c d' :
  load_with_override io io' d cli env = (Ok (q, c), d') →
  q = resolve_path cli env ∧ from_file d' q = Ok c ∧
  (d' = d ∨
   cli = None ∧ env = None ∧ d !! q = None ∧ c = config_default ∧ load_bridges d' q = Ok bridges_default ∧
   ∀ x, x ≠ q → x ≠ bridges_path q → d' !! x = d !! x).
Proof.
  assert (Hl : ∀ d0 p, loaded d0 p = Ok (q, c) → q = p ∧ from_file d0 p = Ok c).
  { intros d0 p Hl. unfold loaded in Hl. unbind Hl. by injection Hl as <- <-. }
  unfold load_with_override, resolve_path. destruct cli as [p|]; [|destruct env as [p|]].
  1, 2: by intros [= [-> Hf]%Hl <-]; split_and!; auto.
  unfold exists_file. case_bool_decide as He; [by intros [= [-> Hf]%Hl <-]; split_and!; auto|].
  apply eq_None_not_Some in He. destruct (write _ _ _ _ _) as [[[]|] d1] eqn:Hw; [|done].
  intros [= [-> Hf]%Hl <-]. split_and!; [done|done|right].
  destruct (write_spec _ _ _ _ _ _ Hw) as (pool & main & Hpool & Hmain & Hdb & Hdm & Ho).
  rewrite (from_file_main d1 _ _ main config_default_ok Hmain Hdm), (load_bridges_text d1 _ _ pool Hpool Hdb) in Hf.
  injection Hf as <-. split_and!; try done. by rewrite (load_bridges_text d1 _ _ pool Hpool Hdb).
Qed.

End Laws.

(** ** A format for the witnesses *)

Section Sample.

Inductive sval : Type := SObject (m : list (str * sval)) | SArray (l : list sval) | SText (s : str).

Definition smap : Type := list (str * sval).
Definition sget (m : smap) (k : str) : option sval := snd <$> find (fun kv => str_eqb k kv.1) m.
Definition sremove (k : str) (m : smap) : smap := List.filter (fun kv => negb (str_eqb k kv.1)) m.
Definition sinsert (k : str) (v : sval) (m : smap) : smap := (k, v) :: sremove k m.
Definition sobject (v : sval) : option smap := match v with SObject m => Some m | _ => None end.
Definition sarray (v : sval) : option (list sval) := match v with SArray l => Some l | _ => None end.

Definition sample_override : DnsOverrideConfig := mkOverrideConfig [lit "*.ru"] System [].
Definition sample_pool : BridgesConfig :=
  mkBridges [lit "192.0.2.7:443"] [] true true 8 64 24 60 60 5 30 0 (lit "any").
Definition sample_config : Config :=
  mkConfigFile [lit "127.0.0.1:1080"; lit "[::1]:1080"] log_default bridges_default watchdog_default warm_pool_default
    conn_health_default upstream_default None (Some ClientAcl.Disabled) auth_default security_default dns_default
    tor_default (mkDnsServer true [lit "127.0.0.1:15353"] false [] [sample_override] ClientAcl.allowed_default) [].

Definition entry_with (key : str) (v : sval) : sval :=
  SObject [(key, v); (lit "resolver", SText (lit "system")); (lit "server", SText [])].
Definition server_with (entry : sval) : str * sval := (DNS_SERVER, SObject [(OVERRIDES, SArray [entry])]).

Definition old_text : str := lit "old".
Definition main_text : str := lit "main".
Definition default_text : str := lit "default".

Definition sparse (src : str) : result sval str :=
  if str_eqb src old_text then
    Ok (SObject [(BRIDGES, SText (lit "pool")); server_with (entry_with PATTERN (SText (lit "*.ru")))])
  else if str_eqb src main_text then
    Ok (SObject [server_with (entry_with PATTERNS (SArray [SText (lit "*.ru")]))])
  else if str_eqb src default_text then Ok (SObject [])
  else Err (lit "syntax").

Definition all_keys (keys : list str) (m : smap) : bool := forallb (fun kv => bool_decide (kv.1 ∈ keys)) m.

Definition entry_keys (v : sval) : bool :=
  match sobject v with Some o => all_keys OVERRIDE_KEYS o | None => true end.
Definition server_keys (m : smap) : bool :=
  match sget m DNS_SERVER ≫= sobject with
  | Some ds => match sget ds OVERRIDES ≫= sarray with Some l => forallb entry_keys l | None => true end
  | None => true
  end.

Definition sconfig (v : sval) : result RawConfig str :=
  match sobject v with
  | Some m =>
      if all_keys CONFIG_KEYS m && server_keys m then
        Ok (encode (if bool_decide (is_Some (sget m DNS_SERVER)) then sample_config else config_default))
      else Err (lit "unknown field")
  | None => Err (lit "no object")
  end.

#[local] Instance doh_eq_dec : EqDecision DohProviderConfig.
Proof. solve_decision. Defined.
#[local] Instance kind_eq_dec : EqDecision DnsOverrideKind.
Proof. solve_decision. Defined.
#[local] Instance many_eq_dec : EqDecision one_or_many.
Proof. solve_decision. Defined.
#[local] Instance raw_override_eq_dec : EqDecision RawOverride.
Proof. solve_decision. Defined.
#[local] Instance raw_server_eq_dec : EqDecision RawDnsServer.
Proof. solve_decision. Defined.
#[local] Instance output_eq_dec : EqDecision LogOutput.
Proof. solve_decision. Defined.
#[local] Instance log_eq_dec : EqDecision LogConfig.
Proof. solve_decision. Defined.
#[local] Instance watchdog_eq_dec : EqDecision WatchdogConfig.
Proof. solve_decision. Defined.
#[local] Instance warm_eq_dec : EqDecision WarmPoolConfig.
Proof. solve_decision. Defined.
#[local] Instance health_eq_dec : EqDecision ConnHealthConfig.
Proof. solve_decision. Defined.
#[local] Instance upstream_eq_dec : EqDecision UpstreamConfig.
Proof. solve_decision. Defined.
#[local] Instance auth_eq_dec : EqDecision AuthConfig.
Proof. solve_decision. Defined.
#[local] Instance dns_eq_dec : EqDecision DnsConfig.
Proof. solve_decision. Defined.
#[local] Instance raw_service_eq_dec : EqDecision OnionServiceEntryRaw.
Proof. solve_decision. Defined.
#[local] Instance raw_config_eq_dec : EqDecision RawConfig.
Proof. solve_decision. Defined.
#[local] Instance source_eq_dec : EqDecision BridgeSource.
Proof. solve_decision. Defined.
#[local] Instance bridges_eq_dec : EqDecision BridgesConfig.
Proof. solve_decision. Defined.

Definition sconfig_text (r : RawConfig) : result str str :=
  if bool_decide (r = encode sample_config) then Ok main_text
  else if bool_decide (r = encode config_default) then Ok default_text
  else Err (lit "unsupported").

Definition sbridges_text (b : BridgesConfig) : result str str :=
  if bool_decide (b = sample_pool) then Ok (lit "pool")
  else if bool_decide (b = bridges_default) then Ok (lit "seeds")
  else Err (lit "unsupported").

Definition sbridges_read (src : str) : result BridgesConfig str :=
  if str_eqb src (HEADER ++ lit "pool") then Ok sample_pool
  else if str_eqb src (HEADER ++ lit "seeds") then Ok bridges_default
  else Err (lit "syntax").

#[local] Instance sample_ktav : Ktav := {|
  Value := sval;
  ObjectMap := smap;
  as_object := sobject;
  of_object := SObject;
  as_array := sarray;
  of_array := SArray;
  map_get := sget;
  map_remove := sremove;
  map_insert := sinsert;
  parse := sparse;
  config_from_value := sconfig;
  bridges_from_value := fun _ => Ok sample_pool;
  config_from_str := fun src => let? v := sparse src in sconfig v;
  bridges_from_str := sbridges_read;
  config_to_string := sconfig_text;
  bridges_to_string := sbridges_text;
|}.

Lemma sget_removed k m k' : sget (sremove k m) k' = if str_eqb k k' then None else sget m k'.
Proof.
  unfold sget, sremove. induction m as [|[k0 v] m IH]; simpl; [by destruct (str_eqb k k')|].
  unfold str_eqb in *. repeat case_bool_decide; subst; simpl; unfold str_eqb in *;
    rewrite ?bool_decide_true by done; rewrite ?bool_decide_false by done; simpl; try done; by rewrite IH.
Qed.

Lemma sget_in m k v : sget m k = Some v → (k, v) ∈ m.
Proof.
  unfold sget. intros ([k0 v0] & Hf & ->)%fmap_Some. apply find_some in Hf as [Hin Hk].
  apply bool_decide_eq_true in Hk. simpl in *. subst. by apply list_elem_of_In.
Qed.

Lemma all_keys_only keys m k : all_keys keys m = true → is_Some (sget m k) → k ∈ keys.
Proof.
  unfold all_keys. rewrite forallb_forall. intros Ha [v Hv%sget_in].
  apply list_elem_of_In, Ha, bool_decide_eq_true in Hv. done.
Qed.

#[local] Instance sample_laws : KtavLaws.
Proof.
  split.
  - done.
  - done.
  - apply sget_removed.
  - intros k v m k'. unfold map_get, map_insert. simpl. unfold sinsert, sget. simpl. unfold str_eqb.
    destruct (decide (k = k')) as [->|Hne]; [by rewrite !bool_decide_true|]. rewrite !bool_decide_false by congruence.
    pose proof (sget_removed k m k') as Hg. unfold sget, str_eqb in Hg. by rewrite bool_decide_false in Hg.
  - intros src r. simpl. split; [intros Hr; unbind Hr; eauto|by intros (v & -> & Hr)].
  - intros v r m Hc Hm k. simpl in *. unfold sconfig in Hc. rewrite Hm in Hc.
    destruct (all_keys CONFIG_KEYS m) eqn:Hk; [|done]. by apply all_keys_only.
  - intros v r m ds l e o Hc Hm Ho He Hoe k. simpl in *. unfold sconfig in Hc. rewrite Hm in Hc.
    destruct (server_keys m) eqn:Hk; [|by rewrite andb_false_r in Hc]. unfold overrides_of in Ho. simpl in Ho.
    unfold server_keys in Hk. destruct (sget m DNS_SERVER ≫= sobject) as [ds'|]; [|done]. simpl in Ho.
    destruct (sget ds' OVERRIDES ≫= sarray) as [l'|]; [|done]. simplify_eq/=.
    apply list_elem_of_In in He. apply (proj1 (forallb_forall _ _) Hk) in He. unfold entry_keys in He.
    rewrite Hoe in He. by apply all_keys_only.
  - intros c src. simpl. unfold sconfig_text. case_bool_decide as H1; [intros [= <-]; rewrite H1; vm_compute; reflexivity|].
    case_bool_decide as H2; [|done]. intros [= <-]. rewrite H2. vm_compute. reflexivity.
  - intros c src v. simpl. unfold sconfig_text. case_bool_decide; [intros [= <-] [= <-]; by eexists|].
    case_bool_decide; [|done]. intros [= <-] [= <-]. by eexists.
  - intros b body. simpl. unfold sbridges_text. case_bool_decide as H1; [intros [= <-]; rewrite H1; vm_compute; reflexivity|].
    case_bool_decide as H2; [|done]. intros [= <-]. rewrite H2. vm_compute. reflexivity.
Qed.

Definition here : place := ([], lit "tor-socks5.ktav").
Definition old_disk : disk := {[here := Text old_text; ([], lit "tor-socks5.ktav.bak-1") := Text (lit "older")]}.

Lemma first_is {A B} (x : A * B) a : x.1 = a → x = (a, x.2).
Proof. destruct x. by intros <-. Qed.

Lemma written_config_loads_back_witness :
  let c := with_bridges sample_config sample_pool in
  let w := write TempFile.all_ok TempFile.all_ok ∅ c here in
  w.1 = Ok tt ∧ from_file w.2 here = Ok c.
Proof.
  intros c w. assert (Hw : w.1 = Ok tt) by (vm_compute; reflexivity). split; [exact Hw|].
  refine (proj1 (written_config_loads_back TempFile.all_ok TempFile.all_ok ∅ c here w.2 _ (first_is w _ Hw))).
  apply with_bridges_ok. refine (proj1 (decode_ok (encode sample_config) sample_config _)). vm_compute. reflexivity.
Defined.

Lemma old_layout_is_converted_witness :
  problems old_text = [InlineBridges; OverridePattern 0] ∧
  from_file old_disk here = Err (OldLayout (old_layout_message here [InlineBridges; OverridePattern 0])).
Proof.
  assert (Hp : problems old_text = [InlineBridges; OverridePattern 0]) by (vm_compute; reflexivity).
  split; [exact Hp|]. rewrite <-Hp. assert (Hd : old_disk !! here = Some (Text old_text)) by (vm_compute; reflexivity).
  edestruct (old_layout_is_converted old_disk here old_text) as (_ & Hr & _); [exact Hd|reflexivity|reflexivity|].
  apply Hr. by rewrite Hp.
Defined.

(** The save of the main file fails: the pool is moved, the old file is there. *)
Definition main_fails : migrate_io :=
  mkMigrateIo true Copied TempFile.all_ok (TempFile.mkSave true true true false true).

Definition sample_report : MigrationReport :=
  mkReport ([], lit "tor-socks5.ktav.bak-2") (Some ([], lit "tor-socks5.bridges.ktav")) 1 0 1.

Lemma migration_resumes_witness :
  let m := migrate_config main_fails old_disk here in
  m.1 = Err WriteFailed ∧ m.2 !! here = Some (Text old_text) ∧
  ∃ o d3, migrate_config no_failure m.2 here = (Ok o, d3) ∧ d3 !! here = Some (Text main_text).
Proof.
  intros m. assert (Hm : m.1 = Err WriteFailed) by (vm_compute; reflexivity). split; [exact Hm|].
  split; [vm_compute; reflexivity|]. set (run := migrate_config no_failure old_disk here).
  assert (Hr : run.1 = Ok (Migrated sample_report)) by (vm_compute; reflexivity).
  destruct (migration_resumes here old_disk sample_report run.2 (first_is run _ Hr)) as [_ Hio].
  destruct (Hio main_fails (Err WriteFailed) m.2 (first_is m _ Hm)) as (_ & _ & o & d3 & Hm3 & Hmain & _).
  exists o, d3. split; [exact Hm3|]. rewrite Hmain. vm_compute. reflexivity.
Defined.

Lemma load_reads_the_resolved_file_witness :
  let l := load_with_override TempFile.all_ok TempFile.all_ok ∅ None None in
  l.1 = Ok (here, config_default) ∧ from_file l.2 here = Ok config_default.
Proof.
  intros l. assert (Hl : l.1 = Ok (here, config_default)) by (vm_compute; reflexivity). split; [exact Hl|].
  destruct (load_reads_the_resolved_file TempFile.all_ok TempFile.all_ok ∅ None None here config_default l.2 (first_is l _ Hl))
    as (_ & Hf & _). exact Hf.
Defined.

End Sample.

End ConfigLayout.
