(* ===== verification/ProbeDns.v ===== *)
(** * The prober's resolver

    [packages/bridge-probe/src/dns.rs], [probe/dns_invalidation.rs] and the
    pure parts of [probe/dns_resolution.rs]: the cache of DNS-over-HTTPS
    answers with its network generation, the fallback below it, the scores of
    the providers and the order in which addresses are tried.  The clocks are
    arguments: [now] is an instant in nanoseconds, [wall] the Unix second. *)

From S2P Require Import Prelude Order Interleave Str Net NetText Crates DnsHints.
Import DnsHints.
Open Scope Z_scope.

Module ProbeDns.

(** ** The cache *)

Record CacheIdentity : Type := mkIdentity { ci_generation : Z; ci_version : Z }.
#[export] Instance identity_eq_dec : EqDecision CacheIdentity.
Proof. solve_decision. Defined.

Record CachedAnswer : Type := mkAnswer {
  ips : list ip_addr;
  expires_at : Z;
  resolved_at : Z;
  generation : Z;
  version : Z;
}.

Definition cache_identity (e : CachedAnswer) : CacheIdentity := mkIdentity (generation e) (version e).

Abbreviation doh_cache := (gmap str CachedAnswer).

Definition DNS_MIN_TTL : Z := from_secs 60.
Definition DNS_MAX_TTL : Z := from_secs (30 * 60).
Definition DNS_NEGATIVE_TTL : Z := from_secs 120.
Definition DNS_CACHE_CAP : nat := 2048.
Definition WINDOW : Z := from_secs DNS_STALE_FALLBACK_WINDOW.

Definition live_entry_is_usable (e : CachedAnswer) (now : Z) : bool :=
  (now <? expires_at e) || (now - expires_at e <=? WINDOW).

Definition cached_doh_answer_observed (c : doh_cache) (now : Z) (host : str) :
  option (list ip_addr * CacheIdentity) :=
  match c !! host with
  | None => None
  | Some e => if expires_at e <=? now then None else Some (ips e, cache_identity e)
  end.

Definition stale_fallback_answer_observed (c : doh_cache) (now : Z) (host : str) :
  option (list ip_addr * CacheIdentity) :=
  match c !! host with
  | None => None
  | Some e =>
      if is_empty (ips e) then None
      else if (now <? expires_at e) || (WINDOW <? now - expires_at e) then None
      else Some (ips e, cache_identity e)
  end.

Definition disk_fallback_answer (store : fallback) (wall : Z) (host : str) : option (list ip_addr) :=
  match store !! host with
  | None => None
  | Some e =>
      if DNS_STALE_FALLBACK_WINDOW <? saturating_sub wall (p_resolved_at_unix e) then None else Some (p_addrs e)
  end.

(** The orders in which the hash maps iterate. *)
Class CacheOrder : Type := {
  iter : doh_cache → list (str * CachedAnswer);
  iter_perm : ∀ c, iter c ≡ₚ map_to_list c;
  iter_store : fallback → list (str * PersistedAnswer);
  iter_store_perm : ∀ st, iter_store st ≡ₚ map_to_list st;
}.

Definition by_expiry : str * Z → str * Z → comparison := cmp_on snd Z.compare.

Section Cache.
Context `{CacheOrder}.

(** The quarter that expires first, in the order of the sort. *)
Definition shed (c : doh_cache) : list str :=
  map fst (firstn (DNS_CACHE_CAP / 4) (sort_by by_expiry (map (fun he => (he.1, expires_at he.2)) (iter c)))).

Definition make_room (c : doh_cache) (now : Z) : doh_cache :=
  if (DNS_CACHE_CAP <=? size c)%nat then
    let c := filter (fun he => now < expires_at he.2 + WINDOW) c in
    if (DNS_CACHE_CAP <=? size c)%nat then foldr (@delete _ _ _) c (shed c) else c
  else c.

(** The entry is stamped with the generation and a version of its own. *)
Definition insert_capped (c : doh_cache) (gen ver : Z) (now : Z) (host : str) (a : CachedAnswer) : doh_cache :=
  <[host := mkAnswer (ips a) (expires_at a) (resolved_at a) gen ver]> (make_room c now).
End Cache.

Definition clamp (lo hi x : Z) : Z := Z.max lo (Z.min hi x).

(** [CachedAnswer] of a lookup that succeeded and of one that failed. *)
Definition positive (addrs : list ip_addr) (valid_for now wall : Z) : CachedAnswer :=
  mkAnswer addrs (now + clamp DNS_MIN_TTL DNS_MAX_TTL valid_for) wall 0 0.
Definition negative (now wall : Z) : CachedAnswer := mkAnswer [] (now + DNS_NEGATIVE_TTL) wall 0 0.

(** A fresh answer of the same generation, which a failure does not replace. *)
Definition holds_fresh (c : doh_cache) (host : str) (gen now : Z) : bool :=
  match c !! host with
  | None => false
  | Some e => (generation e =? gen) && negb (is_empty (ips e)) && (now <? expires_at e)
  end.

Definition is_current (c : doh_cache) (host : str) (observed : CacheIdentity) (tried : list ip_addr) : bool :=
  match c !! host with
  | None => false
  | Some e =>
      bool_decide (cache_identity e = observed) && negb (is_empty (ips e)) && negb (is_empty tried) &&
      forallb (fun a => bool_decide (a ∈ ips e)) tried
  end.

(** What is kept of the cache when the network changes. *)
Definition preserved `{CacheOrder} (c : doh_cache) (now : Z) : list (str * PersistedAnswer) :=
  map (fun he => (he.1, mkPersisted (ips he.2) (resolved_at he.2)))
    (List.filter (fun he => negb (is_empty (ips he.2)) && live_entry_is_usable he.2 now) (iter c)).

(** [best_known_answer]. *)
Definition best_known_answer (c : doh_cache) (store : fallback) (now wall : Z) (host : str) : option DnsHint :=
  match c !! host with
  | Some e =>
      if negb (is_empty (ips e)) && live_entry_is_usable e now then Some (mkDnsHint host (ips e) (resolved_at e))
      else fallback_answer store wall host
  | None => fallback_answer store wall host
  end.

(** ** Providers *)

Definition DOH_SCORE_LIMIT : Z := 8.
Definition DOH_FANOUT : nat := 4.
Definition DOH_MAX_WAVES : nat := 2.
Definition DOH_PROVIDER_TIMEOUT : Z := from_secs 4.

Definition note_doh_result (scores : list Z) (index : nat) (answered : bool) : list Z :=
  match scores !! index with
  | None => scores
  | Some s => <[index := clamp (- DOH_SCORE_LIMIT) DOH_SCORE_LIMIT (s + if answered then 1 else -1)]> scores
  end.

(** [Reverse] of the score. *)
Definition by_score (scores : list Z) : nat → nat → comparison :=
  cmp_rev (cmp_on (fun i => default 0 (scores !! i)) Z.compare).

Definition doh_order (scores : list Z) : list nat := sort_by (by_score scores) (seq 0 (length scores)).

(** One provider of a wave: it is not asked when the race ends while it waits
    for a slot; its lookup fails or times out, or gives addresses, which may be
    none; it is scored when it was asked. *)
Inductive attempt : Type :=
| NotAdmitted
| Failed
| Answered (addrs : list ip_addr) (ttl : Z).

Definition usable (a : attempt) : option (list ip_addr * Z) :=
  match a with
  | Answered [] _ => None
  | Answered addrs ttl => Some (addrs, ttl)
  | _ => None
  end.

Definition score_attempt (scores : list Z) (index : nat) (a : attempt) : list Z :=
  match a with
  | NotAdmitted => scores
  | Failed => note_doh_result scores index false
  | Answered _ _ => note_doh_result scores index true
  end.

(** The reports of a wave in the order in which they arrive; the race returns
    at the first usable one, and the others still score. *)
Definition race_first_answer (arrivals : list (nat * attempt)) : option (list ip_addr * Z) :=
  head (omap (fun ia => usable ia.2) arrivals).

Fixpoint chunks {A} (fuel : nat) (n : nat) (l : list A) : list (list A) :=
  match fuel with
  | O => []
  | S fuel' => match l with [] => [] | _ => firstn n l :: chunks fuel' n (skipn n l) end
  end.

Definition waves (scores : list Z) : list (list nat) :=
  firstn DOH_MAX_WAVES (chunks (length scores) DOH_FANOUT (doh_order scores)).

(** A wave's providers that exist, with what the network makes of each, in
    the order of arrival. *)
Fixpoint search_waves (race : list nat → list (nat * attempt)) (ws : list (list nat)) :
  option (list ip_addr * Z) * list (nat * attempt) :=
  match ws with
  | [] => (None, [])
  | w :: ws' =>
      match race_first_answer (race w) with
      | Some answer => (Some answer, race w)
      | None => let '(r, asked) := search_waves race ws' in (r, race w ++ asked)
      end
  end.

Definition doh_wave_search (race : list nat → list (nat * attempt)) (scores : list Z) :
  option (list ip_addr * Z) * list (nat * attempt) :=
  search_waves race (waves scores).

(** ** Addresses to try *)

Definition MAX_PROBE_ADDRS : nat := 3.

Definition is_ipv6 (a : ip_addr) : bool := match a with V6 _ => true | V4 _ => false end.
Definition by_family : ip_addr → ip_addr → comparison := cmp_on (fun a => Z.b2z (is_ipv6 a)) Z.compare.

Definition socket_new (port : Z) (a : ip_addr) : socket_addr :=
  match a with V4 b => SockV4 b port | V6 b => SockV6 b port 0 0 end.

Fixpoint first_seen (seen : list ip_addr) (l : list ip_addr) : list ip_addr :=
  match l with
  | [] => []
  | a :: l' => if bool_decide (a ∈ seen) then first_seen seen l' else a :: first_seen (a :: seen) l'
  end.

Definition candidates (addrs : list ip_addr) (limit : nat) : list ip_addr :=
  let sorted := sort_by by_family (first_seen [] addrs) in
  let v4_count := length (List.filter (fun a => negb (is_ipv6 a)) sorted) in
  let v6_count := (length sorted - v4_count)%nat in
  if (limit <? 2)%nat || (v4_count =? 0)%nat || (v6_count =? 0)%nat then firstn limit sorted
  else
    let v4_take := Nat.min (limit - 1) v4_count in
    let v6_take := Nat.min (limit - v4_take) v6_count in
    firstn v4_take sorted ++ firstn v6_take (skipn v4_count sorted).

Definition order_candidates_with_limit (addrs : list ip_addr) (port : Z) (limit : nat) : list socket_addr :=
  map (socket_new port) (candidates addrs limit).

Definition order_candidates (addrs : list ip_addr) (port : Z) : list socket_addr :=
  order_candidates_with_limit addrs port MAX_PROBE_ADDRS.

#[export] Instance by_expiry_ranking : Ranking by_expiry.
Proof. apply cmp_on_ranking, Z_compare_ranking. Qed.

#[export] Instance by_score_ranking scores : Ranking (by_score scores).
Proof. apply cmp_rev_ranking, cmp_on_ranking, Z_compare_ranking. Qed.

(** ** Candidates *)

Lemma first_seen_spec seen l :
  NoDup (first_seen seen l) ∧ ∀ a, a ∈ first_seen seen l ↔ a ∈ l ∧ a ∉ seen.
Proof.
  revert seen. induction l as [|x l IH]; intros seen; simpl.
  { split; [constructor|]. intros a. rewrite elem_of_nil. tauto. }
  case_bool_decide as Hx; destruct (IH (x :: seen)) as [Hn Hin], (IH seen) as [Hn' Hin'].
  - split; [done|]. intros a. rewrite Hin', elem_of_cons. split; [tauto|]. intros [[->|?] ?]; [done|tauto].
  - split.
    + constructor; [|done]. rewrite Hin. set_solver.
    + intros a. rewrite elem_of_cons, Hin, !elem_of_cons. destruct (decide (a = x)) as [->|]; naive_solver.
Qed.

Abbreviation v4s := (List.filter (fun a => negb (is_ipv6 a))).
Abbreviation v6s := (List.filter is_ipv6).

(** A stable sort by the family: IPv4 before IPv6, each in its order. *)
Lemma sort_by_family l : sort_by by_family l = v4s l ++ v6s l.
Proof.
  assert (H4 : ∀ x l, is_ipv6 x = false → sort_insert by_family x l = x :: l).
  { intros x [|y k] Hx; [done|]. simpl. unfold by_family, cmp_on. rewrite Hx. by destruct (is_ipv6 y). }
  assert (H6 : ∀ x k r, is_ipv6 x = true → Forall (fun y => is_ipv6 y = false) k → Forall (fun y => is_ipv6 y = true) r →
    sort_insert by_family x (k ++ r) = k ++ x :: r).
  { intros x k r Hx Hk Hr. induction Hk as [|y k Hy _ IH]; simpl.
    - destruct Hr as [|y r Hy]; [done|]. simpl. unfold by_family, cmp_on. by rewrite Hx, Hy.
    - unfold by_family, cmp_on. rewrite Hx, Hy. simpl. f_equal. exact IH. }
  induction l as [|x l IH]; [done|]. cbn [sort_by List.filter]. rewrite IH. destruct (is_ipv6 x) eqn:Hx; cbn [negb].
  - apply H6; [done| |]; apply Forall_forall; intros y Hy%list_elem_of_In%filter_In; [|by destruct Hy].
    destruct Hy as [_ Hy]. by apply negb_true_iff.
  - by rewrite H4.
Qed.

Lemma families_app l r :
  Forall (fun a => is_ipv6 a = false) l → Forall (fun a => is_ipv6 a = true) r → v4s (l ++ r) = l ∧ v6s (l ++ r) = r.
Proof.
  intros Hl Hr. induction Hl as [|a l Ha _ [IH4 IH6]]; simpl.
  - induction Hr as [|a r Ha _ [IH4 IH6]]; simpl; [done|]. rewrite Ha. cbn [negb]. by rewrite IH4, IH6.
  - rewrite Ha. cbn [negb]. by rewrite IH4, IH6.
Qed.

Lemma families l : Forall (fun a => is_ipv6 a = false) (v4s l) ∧ Forall (fun a => is_ipv6 a = true) (v6s l).
Proof.
  split; apply Forall_forall; intros a Ha%list_elem_of_In%filter_In; destruct Ha as [_ Ha]; [by apply negb_true_iff|done].
Qed.

Lemma firstn_elem {A} n (l : list A) x : x ∈ firstn n l → x ∈ l.
Proof. intros Hx. rewrite <-(take_drop n l). apply elem_of_app. by left. Qed.

Lemma firstn_NoDup {A} n (l : list A) : NoDup l → NoDup (firstn n l).
Proof. intros Hl. rewrite <-(take_drop n l) in Hl. by apply NoDup_app in Hl as [? _]. Qed.

(** The two families and how many of each are tried. *)
Lemma candidates_split addrs limit :
  let A := v4s (first_seen [] addrs) in let B := v6s (first_seen [] addrs) in
  ∃ n4 n6, candidates addrs limit = firstn n4 A ++ firstn n6 B ∧
    length (candidates addrs limit) = Nat.min limit (length A + length B) ∧
    ((2 ≤ limit)%nat → A ≠ [] → B ≠ [] → (1 ≤ n4)%nat ∧ (1 ≤ n6)%nat).
Proof.
  intros A B. unfold candidates. rewrite sort_by_family. fold A B.
  destruct (families (first_seen [] addrs)) as [HA4 HB6]. fold A in HA4. fold B in HB6.
  rewrite (proj1 (families_app A B HA4 HB6)).
  rewrite length_app. replace (length A + length B - length A)%nat with (length B) by lia.
  destruct ((limit <? 2)%nat || (length A =? 0)%nat || (length B =? 0)%nat) eqn:Hc.
  - exists limit, (limit - length A)%nat. rewrite firstn_app, length_app, !length_firstn. split; [done|]. split; [lia|].
    intros Hl HA HB. destruct A, B; try done. simpl in Hc. destruct (Nat.ltb_spec limit 2); [lia|done].
  - apply orb_false_iff in Hc as [[Hl HA]%orb_false_iff HB]. apply Nat.ltb_ge in Hl. apply Nat.eqb_neq in HA, HB.
    set (n4 := Nat.min (limit - 1) (length A)). exists n4, (Nat.min (limit - n4) (length B)).
    rewrite firstn_app, skipn_app, Nat.sub_diag, skipn_all, drop_0. cbn [app].
    replace (n4 - length A)%nat with 0%nat by lia. cbn [firstn]. rewrite app_nil_r. split; [done|].
    rewrite length_app, !length_firstn. split; [lia|]. intros _ _ _. lia.
Qed.

(** at most three addresses of a host are tried, each once and all of them
    when there are no more; IPv4 comes before IPv6, and a host that has both
    families is tried in both, so that no family of a dual-stack host crowds
    out the other. *)
Theorem candidates_share_the_families (addrs : list ip_addr) (port : Z) (limit : nat) :
  let l := candidates addrs limit in
  let distinct := first_seen [] addrs in
  order_candidates_with_limit addrs port limit = map (socket_new port) l ∧
  NoDup l ∧ (∀ a, a ∈ l → a ∈ addrs) ∧ length l = Nat.min limit (length distinct) ∧
  l = v4s l ++ v6s l ∧
  ((2 ≤ limit)%nat → ∀ a, a ∈ addrs → ∃ b, b ∈ l ∧ is_ipv6 b = is_ipv6 a).
Proof.
  intros l distinct. destruct (candidates_split addrs limit) as (n4 & n6 & Hl & Hlen & Hboth). fold distinct l in Hl, Hlen, Hboth.
  destruct (first_seen_spec [] addrs) as [Hnd Hin]. fold distinct in Hnd, Hin.
  assert (Hd : v4s distinct ++ v6s distinct ≡ₚ distinct) by (rewrite <-sort_by_family; apply sort_by_perm).
  destruct (families distinct) as [H4 H6].
  assert (Hfam : Forall (fun a => is_ipv6 a = false) (firstn n4 (v4s distinct)) ∧
                 Forall (fun a => is_ipv6 a = true) (firstn n6 (v6s distinct))) by by split; apply Forall_take.
  assert (Hsub : ∀ a, a ∈ l → a ∈ distinct).
  { intros a Ha. rewrite Hl in Ha. rewrite <-Hd. apply elem_of_app in Ha as [Ha|Ha]; apply elem_of_app; [left|right];
      by eapply firstn_elem. }
  split_and!; [done| | | | |].
  - rewrite Hl. rewrite <-Hd in Hnd. apply NoDup_app in Hnd as (Hn4 & H46 & Hn6). apply NoDup_app.
    split_and!; [by apply firstn_NoDup| |by apply firstn_NoDup]. intros a Ha%firstn_elem Hb%firstn_elem. by apply (H46 a).
  - intros a Ha%Hsub. by apply Hin in Ha as [? _].
  - by rewrite Hlen, <-length_app, Hd.
  - destruct (families_app _ _ (proj1 Hfam) (proj2 Hfam)) as [E4 E6]. rewrite <-Hl in E4, E6. by rewrite E4, E6.
  - intros Hlim a Ha. assert (Had : a ∈ distinct) by (apply Hin; split; [done|apply not_elem_of_nil]).
    rewrite <-Hd, elem_of_app in Had. rewrite Hl in Hlen |- *. rewrite length_app in Hlen.
    setoid_rewrite elem_of_app. destruct Hfam as [F4 F6]. rewrite Forall_forall in F4, F6, H4, H6.
    assert (Hsome : ∀ n (k : list ip_addr), (1 ≤ length (firstn n k))%nat → ∃ b, b ∈ firstn n k).
    { intros n k Hk. destruct (firstn n k) as [|b ?]; [simpl in Hk; lia|]. exists b. by left. }
    assert (Hcount : ∀ k : list ip_addr, k ≠ [] → (1 ≤ length k)%nat) by (intros [] ?; simpl; [done|lia]).
    destruct Had as [Had|Had].
    + assert (HA : v4s distinct ≠ []) by (intros He; rewrite He in Had; by apply elem_of_nil in Had).
      assert (1 ≤ length (firstn n4 (v4s distinct)))%nat as (b & Hb)%Hsome.
      { destruct (decide (v6s distinct = [])) as [He|HB]; [rewrite He, firstn_nil in Hlen; simpl in Hlen|].
        - specialize (Hcount _ HA). lia.
        - destruct (Hboth Hlim HA HB). rewrite length_firstn. specialize (Hcount _ HA). lia. }
      exists b. split; [by left|]. by rewrite F4, H4.
    + assert (HB : v6s distinct ≠ []) by (intros He; rewrite He in Had; by apply elem_of_nil in Had).
      assert (1 ≤ length (firstn n6 (v6s distinct)))%nat as (b & Hb)%Hsome.
      { destruct (decide (v4s distinct = [])) as [He|HA]; [rewrite He, firstn_nil in Hlen; simpl in Hlen|].
        - specialize (Hcount _ HB). lia.
        - destruct (Hboth Hlim HA HB). rewrite length_firstn. specialize (Hcount _ HB). lia. }
      exists b. split; [by right|]. by rewrite F6, H6.
Qed.

(** ** Room in the cache *)

Lemma foldr_delete_lookup {V} (m : gmap str V) (l : list str) k :
  foldr (@delete _ _ _) m l !! k = if decide (k ∈ l) then None else m !! k.
Proof.
  induction l as [|x l IH]; cbn [foldr]; [case_decide as Hk; [by apply elem_of_nil in Hk|done]|].
  destruct (decide (k = x)) as [->|Hne].
  - rewrite lookup_delete_eq. clear IH. case_decide as Hk; [done|]. destruct Hk. by left.
  - rewrite lookup_delete_ne, IH by done. repeat case_decide; set_solver.
Qed.

Lemma foldr_delete_size {V} (m : gmap str V) (l : list str) :
  NoDup l → (∀ k, k ∈ l → is_Some (m !! k)) → (size (foldr (@delete _ _ _) m l) + length l = size m)%nat.
Proof.
  induction l as [|x l IH]; intros Hn Hin; simpl; [lia|]. apply NoDup_cons in Hn as [Hx Hn].
  rewrite <-(IH Hn) by (intros k Hk; apply Hin; by right).
  assert (is_Some (foldr (@delete _ _ _) m l !! x)) as [v Hv].
  { rewrite foldr_delete_lookup, decide_False by done. apply Hin. by left. }
  rewrite map_size_delete_Some by eauto. pose proof (map_size_non_empty_iff (foldr (@delete _ _ _) m l)) as Hs.
  assert (size (foldr (@delete _ _ _) m l) ≠ 0)%nat; [|lia]. apply Hs. intros He. by rewrite He, lookup_empty in Hv.
Qed.

Section Room.
Context `{CacheOrder}.

Definition expiries (c : doh_cache) : list (str * Z) := sort_by by_expiry (map (fun he => (he.1, expires_at he.2)) (iter c)).

Lemma expiries_perm c : expiries c ≡ₚ map (fun he => (he.1, expires_at he.2)) (map_to_list c).
Proof. unfold expiries. by rewrite sort_by_perm, iter_perm. Qed.

Lemma expiries_keys c : map fst (expiries c) ≡ₚ (map_to_list c).*1.
Proof. rewrite expiries_perm, map_map. done. Qed.

Lemma expiries_in c h x : (h, x) ∈ expiries c ↔ ∃ e, c !! h = Some e ∧ x = expires_at e.
Proof.
  rewrite expiries_perm, list_elem_of_fmap. split.
  - intros ([h' e] & [= -> ->] & He%elem_of_map_to_list). eauto.
  - intros (e & He & ->). exists (h, e). split; [done|]. by apply elem_of_map_to_list.
Qed.

Lemma shed_spec c :
  NoDup (shed c) ∧ length (shed c) = Nat.min (DNS_CACHE_CAP / 4) (size c) ∧ (∀ h, h ∈ shed c → is_Some (c !! h)) ∧
  ∀ h e h' e', h ∈ shed c → c !! h = Some e → h' ∉ shed c → c !! h' = Some e' → expires_at e ≤ expires_at e'.
Proof.
  unfold shed. fold (expiries c). set (n := (DNS_CACHE_CAP / 4)%nat). clearbody n.
  assert (Hk : NoDup (map fst (expiries c))) by (rewrite expiries_keys; apply NoDup_fst_map_to_list).
  rewrite <-firstn_map in *. assert (Hin : ∀ h, h ∈ firstn n (map fst (expiries c)) → ∃ x, (h, x) ∈ firstn n (expiries c)).
  { intros h. rewrite firstn_map. intros ([h' x] & -> & Hx)%list_elem_of_fmap. eauto. }
  split_and!; [by apply firstn_NoDup| | |].
  - rewrite length_firstn, length_map, expiries_perm, length_map, length_map_to_list. done.
  - intros h (x & Hx%firstn_elem%expiries_in)%Hin. destruct Hx as (e & -> & _). eauto.
  - intros h e h' e' (x & Hx)%Hin He Hn He'. pose proof (firstn_elem _ _ _ Hx) as (e0 & He0 & ->)%expiries_in.
    simplify_eq. assert (Hx' : (h', expires_at e') ∈ expiries c) by (apply expiries_in; eauto).
    rewrite <-(take_drop n (expiries c)), elem_of_app in Hx'. destruct Hx' as [Hx'|Hx'].
    { destruct Hn. rewrite firstn_map. apply list_elem_of_fmap. by exists (h', expires_at e'). }
    pose proof (sort_by_sorted by_expiry (map (fun he => (he.1, expires_at he.2)) (iter c))) as Hs. fold (expiries c) in Hs.
    rewrite <-(take_drop n (expiries c)) in Hs. pose proof (sorted_app_inv _ _ _ _ _ Hs Hx Hx') as Hle.
    unfold by_expiry, cmp_on in Hle. cbn [snd] in Hle. by apply Z.compare_le_iff.
Qed.

(** the cache keeps its bound: an insertion leaves at most 2048 answers,
    with the new one stamped and the others unchanged, and it drops another
    answer only from a full cache, and then one past its fallback window or,
    when all are within it, one that expires no later than any that stays. *)
Theorem cache_is_capped (c : doh_cache) (gen ver now : Z) (host : str) (a : CachedAnswer) :
  (size c ≤ DNS_CACHE_CAP)%nat →
  let c' := insert_capped c gen ver now host a in
  (size c' ≤ DNS_CACHE_CAP)%nat ∧ c' !! host = Some (mkAnswer (ips a) (expires_at a) (resolved_at a) gen ver) ∧
  ∀ h e, h ≠ host → c !! h = Some e →
    c' !! h = Some e ∨
    c' !! h = None ∧ size c = DNS_CACHE_CAP ∧
      (expires_at e + WINDOW ≤ now ∨ ∀ h' e', h' ≠ host → c' !! h' = Some e' → expires_at e ≤ expires_at e').
Proof.
  intros Hsize c'. assert (Hins : (size c' ≤ S (size (make_room c now)))%nat).
  { unfold c', insert_capped. destruct (make_room c now !! host) as [x|] eqn:Hx.
    - rewrite map_size_insert_Some by eauto. lia.
    - rewrite map_size_insert_None by done. lia. }
  assert (Hother : ∀ h, h ≠ host → c' !! h = make_room c now !! h).
  { intros h Hh. unfold c', insert_capped. by rewrite lookup_insert_ne. }
  split; [|split; [unfold c', insert_capped; by rewrite lookup_insert_eq|]].
  - enough (S (size (make_room c now)) ≤ DNS_CACHE_CAP)%nat by lia. unfold make_room.
    destruct (Nat.leb_spec DNS_CACHE_CAP (size c)); [|lia]. set (c1 := filter _ c).
    destruct (Nat.leb_spec DNS_CACHE_CAP (size c1)) as [Hc1|]; [|lia]. destruct (shed_spec c1) as (Hn & Hl & Hin & _).
    pose proof (foldr_delete_size c1 (shed c1) Hn Hin) as Hs. rewrite Hl in Hs.
    assert (size c1 ≤ size c)%nat by (apply map_subseteq_size, map_filter_subseteq).
    change (DNS_CACHE_CAP / 4)%nat with 512%nat in Hs. unfold DNS_CACHE_CAP in *. lia.
  - intros h e Hh He. rewrite (Hother h Hh). unfold make_room in *.
    destruct (Nat.leb_spec DNS_CACHE_CAP (size c)) as [Hfull|]; [|by left].
    assert (size c = DNS_CACHE_CAP) as Heq by lia. set (c1 := filter _ c) in *.
    destruct (decide (now < expires_at e + WINDOW)) as [Hlive|Hdead].
    + assert (Hc1 : c1 !! h = Some e) by (by apply map_lookup_filter_Some_2).
      destruct (Nat.leb_spec DNS_CACHE_CAP (size c1)); [|by left]. destruct (shed_spec c1) as (_ & _ & _ & Hord).
      rewrite foldr_delete_lookup. case_decide as Hs; [|by left]. right. split_and!; [done|done|]. right.
      intros h' e' Hh' He'. rewrite (Hother h' Hh'), foldr_delete_lookup in He'. case_decide; [done|]. eauto.
    + right. assert (c1 !! h = None) as Hc1 by (apply map_lookup_filter_None; right; intros x; naive_solver).
      split_and!; [|done|left; lia]. destruct (DNS_CACHE_CAP <=? size c1)%nat; [|done]. rewrite foldr_delete_lookup.
      by case_decide.
Qed.

(** An insertion adds its own entry and no other. *)
Lemma insert_capped_lookup c gen ver now host a h e :
  insert_capped c gen ver now host a !! h = Some e →
  (h = host ∧ e = mkAnswer (ips a) (expires_at a) (resolved_at a) gen ver) ∨ c !! h = Some e.
Proof.
  unfold insert_capped. intros [[<- <-]|[_ He]]%lookup_insert_Some; [by left|right]. unfold make_room in He.
  destruct (_ <=? _)%nat; [|done]. destruct (_ <=? _)%nat; [rewrite foldr_delete_lookup in He; case_decide; [done|]|];
    by apply map_lookup_filter_Some_1_1 in He.
Qed.
End Room.

(** ** Providers, ranked *)

Definition ranked (scores : list Z) : nat → nat → comparison := cmp_lex (by_score scores) Nat.compare.

Lemma ranked_lt scores i j : ranked scores i j = Lt ↔
  let s k := default 0 (scores !! k) in s j < s i ∨ s i = s j ∧ (i < j)%nat.
Proof.
  unfold ranked, cmp_lex, by_score, cmp_rev, cmp_on. cbn. set (x := default 0 (scores !! i)). set (y := default 0 (scores !! j)).
  destruct (Z.compare_spec y x) as [->|Hlt|Hgt]; simpl.
  - rewrite Nat.compare_lt_iff. split; [auto|]. intros [?|[_ ?]]; [lia|done].
  - split; [by left|done].
  - split; [done|]. intros [?|[? _]]; lia.
Qed.

(** Inserting an index before larger ones keeps the ranking. *)
Lemma ranked_insert scores i l :
  StronglySorted (fun x y => ranked scores x y = Lt) l → Forall (fun j => (i < j)%nat) l →
  StronglySorted (fun x y => ranked scores x y = Lt) (sort_insert (by_score scores) i l).
Proof.
  intros Hs Hi. induction Hs as [|j l Hl IH Hj]; simpl; [by repeat constructor|].
  apply Forall_cons in Hi as [Hij Hi]. specialize (IH Hi).
  assert (Hc : by_score scores i j ≠ Gt → ranked scores i j = Lt).
  { unfold ranked, cmp_lex. destruct (by_score scores i j); simpl; try done. intros _. by apply Nat.compare_lt_iff. }
  assert (Hfirst : by_score scores i j ≠ Gt → StronglySorted (fun x y => ranked scores x y = Lt) (i :: j :: l)).
  { intros Hne. constructor; [by constructor|]. constructor; [auto|]. rewrite Forall_forall in Hj |- *. intros k Hk.
    specialize (Hj k Hk). specialize (Hc Hne). rewrite ranked_lt in *. cbn in *. lia. }
  destruct (by_score scores i j) eqn:Hb; [by apply Hfirst..|]. constructor; [done|].
  rewrite sort_insert_perm. constructor; [|done]. unfold ranked, cmp_lex.
  rewrite (rank_opp (by_score scores) i j), Hb. done.
Qed.

Lemma doh_order_ranked scores : StronglySorted (fun x y => ranked scores x y = Lt) (doh_order scores).
Proof.
  unfold doh_order. generalize (length scores). intros n. generalize 0%nat. induction n as [|n IH]; intros k; simpl; [constructor|].
  apply ranked_insert; [apply IH|]. rewrite sort_by_perm. apply Forall_forall. intros j Hj%elem_of_seq. lia.
Qed.

Lemma chunks_concat {A} fuel n (l : list A) k :
  (0 < n)%nat → (length l ≤ fuel)%nat → concat (firstn k (chunks fuel n l)) = firstn (k * n) l.
Proof.
  intros Hn. revert l k. induction fuel as [|fuel IH]; intros l k Hl.
  { destruct l; [|simpl in Hl; lia]. cbn [chunks]. by rewrite !firstn_nil. }
  destruct k as [|k]; [done|]. destruct l as [|x l]; [cbn [chunks]; by rewrite !firstn_nil|].
  change (chunks (S fuel) n (x :: l)) with (firstn n (x :: l) :: chunks fuel n (skipn n (x :: l))).
  cbn [firstn concat]. rewrite IH.
  - rewrite <-(firstn_skipn n (x :: l)) at 3. rewrite firstn_app, firstn_firstn.
    replace (Nat.min (S k * n) n) with n by lia. f_equal. rewrite length_firstn.
    destruct (Nat.le_ge_cases n (length (x :: l))) as [Hle|Hge].
    + f_equal. lia.
    + rewrite skipn_all2 by done. by rewrite !firstn_nil.
  - rewrite length_skipn. simpl in *. lia.
Qed.

Definition bounded (scores : list Z) : Prop := Forall (fun s => - DOH_SCORE_LIMIT ≤ s ≤ DOH_SCORE_LIMIT) scores.

Lemma score_attempt_bounded scores i a :
  bounded scores → bounded (score_attempt scores i a) ∧ length (score_attempt scores i a) = length scores.
Proof.
  intros Hb. assert (∀ b, bounded (note_doh_result scores i b) ∧ length (note_doh_result scores i b) = length scores) as Hn.
  { intros b. unfold note_doh_result. destruct (scores !! i) as [s|] eqn:Hs; [|done]. rewrite length_insert. split; [|done].
    apply Forall_insert; [done|]. unfold clamp, DOH_SCORE_LIMIT. lia. }
  destruct a; simpl; auto.
Qed.

Lemma search_waves_spec race ws :
  let '(r, asked) := search_waves race ws in
  (∀ ia, ia ∈ asked → ∃ w, w ∈ ws ∧ ia ∈ race w) ∧
  match r with
  | Some (addrs, ttl) => addrs ≠ [] ∧ ∃ i, (i, Answered addrs ttl) ∈ asked
  | None => ∀ w ia, w ∈ ws → ia ∈ race w → usable ia.2 = None
  end.
Proof.
  induction ws as [|w ws IH]; simpl; [split; [by intros ia ?%elem_of_nil|by intros w ia ?%elem_of_nil]|].
  destruct (race_first_answer (race w)) as [[addrs ttl]|] eqn:Hr.
  - split; [intros ia Hia; exists w; split; [by left|done]|].
    apply head_Some_elem_of, list_elem_of_omap in Hr as ([i a] & Hi & Ha). destruct a as [| |[|x l] t]; simplify_eq/=.
    split; [done|eauto].
  - destruct (search_waves race ws) as [r asked]. destruct IH as [Hasked IH]. split.
    + intros ia [Hia|Hia]%elem_of_app; [exists w; split; [by left|done]|]. destruct (Hasked ia Hia) as (w' & ? & ?).
      exists w'. split; [by right|done].
    + assert (Hw : ∀ ia, ia ∈ race w → usable ia.2 = None).
      { intros ia Hia. unfold race_first_answer in Hr. apply head_None in Hr. destruct (usable ia.2) as [x|] eqn:Hu; [|done].
        assert (x ∈ omap (fun ia => usable ia.2) (race w)) as Hx by (apply list_elem_of_omap; eauto).
        rewrite Hr in Hx. by apply elem_of_nil in Hx. }
      destruct r as [[addrs ttl]|].
      * destruct IH as (? & i & Hi). split; [done|]. exists i. apply elem_of_app. by right.
      * intros w' ia [->|Hw']%elem_of_cons; [by apply Hw|by apply IH].
Qed.

Definition score_all (scores : list Z) (asked : list (nat * attempt)) : list Z :=
  fold_left (fun s ia => score_attempt s ia.1 ia.2) asked scores.

(** a search asks the best providers and learns from all it asked: the
    order is a permutation of the pool by score, ties as declared; only the
    first eight of it are asked, and a search that finds nothing has no usable
    answer from any of the providers it asked; an answer found is a provider's
    and not empty; the scores stay within eight of zero. *)
Theorem search_asks_the_best (race : list nat → list (nat * attempt)) (scores : list Z) :
  (∀ w ia, ia ∈ race w → ia.1 ∈ w) → bounded scores →
  let '(r, asked) := doh_wave_search race scores in
  doh_order scores ≡ₚ seq 0 (length scores) ∧
  StronglySorted (fun i j => ranked scores i j = Lt) (doh_order scores) ∧
  (∀ i a, (i, a) ∈ asked → i ∈ firstn (DOH_MAX_WAVES * DOH_FANOUT) (doh_order scores)) ∧
  match r with
  | Some (addrs, ttl) => addrs ≠ [] ∧ ∃ i, (i, Answered addrs ttl) ∈ asked
  | None => concat (waves scores) = firstn (DOH_MAX_WAVES * DOH_FANOUT) (doh_order scores) ∧
      ∀ w ia, w ∈ waves scores → ia ∈ race w → usable ia.2 = None
  end ∧
  bounded (score_all scores asked) ∧ length (score_all scores asked) = length scores.
Proof.
  intros Hrace Hb. assert (Hcat : concat (waves scores) = firstn (DOH_MAX_WAVES * DOH_FANOUT) (doh_order scores)).
  { apply chunks_concat; [unfold DOH_FANOUT; lia|]. unfold doh_order. by rewrite sort_by_perm, length_seq. }
  unfold doh_wave_search. pose proof (search_waves_spec race (waves scores)) as Hs.
  destruct (search_waves race (waves scores)) as [r asked]. destruct Hs as [Hasked Hr]. split_and!.
  - apply sort_by_perm.
  - apply doh_order_ranked.
  - intros i a (w & Hw & Hi)%Hasked. apply Hrace in Hi. rewrite <-Hcat. apply list_elem_of_In, in_concat.
    exists w. split; by apply list_elem_of_In.
  - destruct r as [[addrs ttl]|]; [done|]. done.
  - clear -Hb. revert scores Hb. induction asked as [|[i a] asked IH]; intros scores Hb; [done|]. simpl.
    apply IH, score_attempt_bounded, Hb.
  - clear -Hb. revert scores Hb. induction asked as [|[i a] asked IH]; intros scores Hb; [done|]. simpl.
    destruct (score_attempt_bounded scores i a Hb) as [Hb' Hl]. by rewrite IH.
Qed.

(** ** Witnesses *)

Definition sample_order : CacheOrder := 
  {| iter := map_to_list; iter_perm _ := reflexivity _; iter_store := map_to_list; iter_store_perm _ := reflexivity _ |}.

Lemma cache_is_capped_witness :
  (size (insert_capped (H := sample_order) ∅ 3 7 100 (lit "a.example") (positive [V4 1] 0 100 5)) ≤ DNS_CACHE_CAP)%nat.
Proof.
  apply (cache_is_capped (H := sample_order) ∅ 3 7 100 (lit "a.example") (positive [V4 1] 0 100 5)).
  rewrite map_size_empty. unfold DNS_CACHE_CAP. lia.
Defined.

(** The first wave fails, the second answers. *)
Definition sample_race (w : list nat) : list (nat * attempt) :=
  map (fun i => (i, if (i =? 5)%nat then Answered [V4 9] 60 else Failed)) w.

Lemma search_asks_the_best_witness :
  (doh_wave_search sample_race (repeat 0 20)).1 = Some ([V4 9], 60) ∧
  bounded (score_all (repeat 0 20) (doh_wave_search sample_race (repeat 0 20)).2).
Proof.
  split; [vm_compute; reflexivity|].
  pose proof (search_asks_the_best sample_race (repeat 0 20)) as Hs.
  destruct (doh_wave_search sample_race (repeat 0 20)) as [r asked]. apply Hs.
  - intros w ia (i & -> & Hi)%list_elem_of_fmap. exact Hi.
  - repeat (constructor; [unfold DOH_SCORE_LIMIT; lia|]). constructor.
Defined.

End ProbeDns.
