(* ===== verification/ProbeDnsRun.v ===== *)
(** * The prober's resolver, run concurrently

    [packages/bridge-probe/src/probe/dns_resolution.rs] and the shared half of
    [dns.rs]: lookups that join one search per host and network, the flush at
    a network change, saves of the answers to disk, loads and invalidations,
    one atomic step at a time.  A step of the code between two acquisitions of
    a lock is one step here. *)

From S2P Require Import Prelude Order Interleave Str Net NetText Crates TempFile DnsHints ProbeDns.
Import DnsHints ProbeDns.
Open Scope Z_scope.

Module ProbeDnsRun.

(** ** Shared state *)

(** The network generation is a 64-bit counter of the flushes. *)
Definition gen_of (flushes : nat) : Z := Z.of_nat flushes mod 2 ^ 64.

Abbreviation InflightKey := (str * Z)%type.

(** What the coalesced lookup gives: the addresses with the identity of the
    entry they were cached in, if they were. *)
Definition ObservedDohWaveResult : Type := option (list ip_addr * option CacheIdentity).

(** A cell of the registry: [holders] are its strong references, [owner] the
    caller that runs its initialization. *)
Record cell : Type := mkCell {
  c_key : InflightKey;
  holders : gset nat;
  owner : option nat;
  value : option ObservedDohWaveResult;
}.

Record InflightDohRegistry : Type := mkRegistry {
  entries : gmap InflightKey nat;
  sweep_queue : list InflightKey;
  queued_keys : gset InflightKey;
}.

Record PersistSnapshot : Type := mkSnapshot { s_host : str; s_addrs : list ip_addr; s_resolved_at_unix : Z }.

(** A save as it captured the stores. *)
Record capture : Type := mkCapture {
  cap_gen : Z;
  cap_live : list PersistSnapshot;
  cap_disk : list PersistSnapshot;
  cap_kept : list (str * PersistedAnswer);
  cap_wall : Z;
}.

(** One insertion of a lookup into the cache. *)
Record publication : Type := mkPub { pub_host : str; pub_ips : list ip_addr; pub_started : nat }.

Record net : Type := mkNet {
  cache : doh_cache;
  flushes : nat;
  next_version : Z;
  store : fallback;
  scores : list Z;
  gate : option nat;
  registry : InflightDohRegistry;
  cells : gmap nat cell;
  next_cell : nat;
  sweep_counter : Z;
  snapshot_lock : option nat;
  next_generation : Z;
  publish_lock : option nat;
  published_generation : Z;
  file : option (Z * str);
  (* history: insertions of lookups, answers kept by flushes, those of the
     running flush that are not merged yet, and the captures of saves *)
  log : list publication;
  kept : list (str * PersistedAnswer);
  limbo : list (str * PersistedAnswer);
  captures : list capture;
}.

Definition network (s : net) : Z := gen_of (flushes s).

(** ** The registry *)

Definition queue_key (k : InflightKey) (r : InflightDohRegistry) : InflightDohRegistry :=
  if bool_decide (k ∈ queued_keys r) then r
  else mkRegistry (entries r) (sweep_queue r ++ [k]) ({[k]} ∪ queued_keys r).

Definition clear_if_empty (r : InflightDohRegistry) : InflightDohRegistry :=
  if bool_decide (entries r = ∅) then mkRegistry ∅ [] ∅ else r.

Definition alive (cs : gmap nat cell) (c : nat) : bool :=
  match cs !! c with Some cl => bool_decide (holders cl ≠ ∅) | None => false end.

Definition INFLIGHT_SWEEP_INTERVAL : Z := 64.
Definition INFLIGHT_SWEEP_BUDGET : nat := 128.

(** One visit of the sweep. *)
Definition visit (cs : gmap nat cell) (r : InflightDohRegistry) : InflightDohRegistry :=
  match sweep_queue r with
  | [] => r
  | k :: queue =>
      let r := mkRegistry (entries r) queue (queued_keys r ∖ {[k]}) in
      match entries r !! k with
      | None => r
      | Some c =>
          if alive cs c then queue_key k r
          else mkRegistry (delete k (entries r)) (sweep_queue r) (queued_keys r)
      end
  end.

Definition sweep_inflight_dead_entries (cs : gmap nat cell) (r : InflightDohRegistry) : InflightDohRegistry :=
  Nat.iter (Nat.min INFLIGHT_SWEEP_BUDGET (length (sweep_queue r))) (visit cs) r.

(** The existing cell of the key, if it is still held. *)
Definition upgrade (s : net) (k : InflightKey) : option nat :=
  match entries (registry s) !! k with
  | Some c => if alive (cells s) c then Some c else None
  | None => None
  end.

Definition remove_entry (k : InflightKey) (c : nat) (r : InflightDohRegistry) : InflightDohRegistry :=
  if bool_decide (entries r !! k = Some c) then
    clear_if_empty (mkRegistry (delete k (entries r)) (sweep_queue r) (queued_keys r))
  else r.

(** ** Updates *)

Definition set_cells (f : gmap nat cell → gmap nat cell) (s : net) : net :=
  mkNet (cache s) (flushes s) (next_version s) (store s) (scores s) (gate s) (registry s) (f (cells s)) (next_cell s)
    (sweep_counter s) (snapshot_lock s) (next_generation s) (publish_lock s) (published_generation s) (file s) (log s)
    (kept s) (limbo s) (captures s).
Definition set_registry (r : InflightDohRegistry) (s : net) : net :=
  mkNet (cache s) (flushes s) (next_version s) (store s) (scores s) (gate s) r (cells s) (next_cell s)
    (sweep_counter s) (snapshot_lock s) (next_generation s) (publish_lock s) (published_generation s) (file s) (log s)
    (kept s) (limbo s) (captures s).
Definition set_cache (c : doh_cache) (ver : Z) (l : list publication) (s : net) : net :=
  mkNet c (flushes s) ver (store s) (scores s) (gate s) (registry s) (cells s) (next_cell s)
    (sweep_counter s) (snapshot_lock s) (next_generation s) (publish_lock s) (published_generation s) (file s) l
    (kept s) (limbo s) (captures s).
Definition set_scores (l : list Z) (s : net) : net :=
  mkNet (cache s) (flushes s) (next_version s) (store s) l (gate s) (registry s) (cells s) (next_cell s)
    (sweep_counter s) (snapshot_lock s) (next_generation s) (publish_lock s) (published_generation s) (file s) (log s)
    (kept s) (limbo s) (captures s).
Definition set_store (st : fallback) (lim : list (str * PersistedAnswer)) (s : net) : net :=
  mkNet (cache s) (flushes s) (next_version s) st (scores s) (gate s) (registry s) (cells s) (next_cell s)
    (sweep_counter s) (snapshot_lock s) (next_generation s) (publish_lock s) (published_generation s) (file s) (log s)
    (kept s) lim (captures s).
Definition set_gate (o : option nat) (s : net) : net :=
  mkNet (cache s) (flushes s) (next_version s) (store s) (scores s) o (registry s) (cells s) (next_cell s)
    (sweep_counter s) (snapshot_lock s) (next_generation s) (publish_lock s) (published_generation s) (file s) (log s)
    (kept s) (limbo s) (captures s).
Definition set_snapshot_lock (o : option nat) (s : net) : net :=
  mkNet (cache s) (flushes s) (next_version s) (store s) (scores s) (gate s) (registry s) (cells s) (next_cell s)
    (sweep_counter s) o (next_generation s) (publish_lock s) (published_generation s) (file s) (log s)
    (kept s) (limbo s) (captures s).
Definition set_publish (o : option nat) (g : Z) (f : option (Z * str)) (s : net) : net :=
  mkNet (cache s) (flushes s) (next_version s) (store s) (scores s) (gate s) (registry s) (cells s) (next_cell s)
    (sweep_counter s) (snapshot_lock s) (next_generation s) o g f (log s) (kept s) (limbo s) (captures s).

Definition drop_holder (i : nat) (cl : cell) : cell := mkCell (c_key cl) (holders cl ∖ {[i]}) (owner cl) (value cl).
Definition set_owner (o : option nat) (cl : cell) : cell := mkCell (c_key cl) (holders cl) o (value cl).
Definition set_value (v : ObservedDohWaveResult) (cl : cell) : cell := mkCell (c_key cl) (holders cl) None (Some v).

(** ** Programs *)

(** Where an answer came from. *)
Inductive source : Type :=
| FromCache (id : CacheIdentity)
| FromLookup (started : nat) (id : option CacheIdentity)
| FromStale (id : CacheIdentity)
| FromDisk
| FromSystem.

Record ResolverPolicy : Type := mkPolicy { doh_enabled : bool; system_fallback : bool }.

(** Points of a resolution of [q]; [f] and [f'] are the flushes seen at the
    two loads of the generation. *)
Inductive pc : Type :=
| RStart (q : str) (p : ResolverPolicy)
| RCache (q : str) (p : ResolverPolicy) (f : nat)
| RLoad (q : str) (p : ResolverPolicy) (f : nat)
| RJoin (q : str) (p : ResolverPolicy) (f f' : nat)
| RWait (q : str) (p : ResolverPolicy) (f f' c : nat)
| RSearch (q : str) (p : ResolverPolicy) (f f' c : nat)
| RPublish (q : str) (p : ResolverPolicy) (f f' c : nat) (addrs : list ip_addr) (ttl : Z)
| RFill (q : str) (p : ResolverPolicy) (f f' c : nat) (r : ObservedDohWaveResult)
| RRemove (q : str) (p : ResolverPolicy) (f f' c : nat) (r : ObservedDohWaveResult)
| RStale (q : str) (p : ResolverPolicy) (f : nat)
| RDisk (q : str) (p : ResolverPolicy) (f : nat)
| RFail (q : str) (p : ResolverPolicy) (f : nat)
| RSystem (q : str) (p : ResolverPolicy) (f : nat)
| RDone (q : str) (f : nat) (answer : option (source * list ip_addr))
| RGone
(* [flush_dns_cache] *)
| FStart | FClear | FMerge (l : list (str * PersistedAnswer)) | FScores (n : nat) | FDone
(* [save_persisted_dns_cache] *)
| SStart | SGate | SLive
| SDisk (live : list PersistSnapshot)
| SAlloc (cap : capture)
| SWrite (g : Z) (text : str)
| SPublish (g : Z) (text : str)
| SCheck (g : Z) (text : str)
| SRecord (g : Z)
| SDone (g : Z) (ok : bool)
(* [invalidate_if_current] *)
| IStart (host : str) (observed : CacheIdentity) (tried : list ip_addr)
| IRemove (host : str) (observed : CacheIdentity) (tried : list ip_addr)
| IDone (removed : bool)
(* a load of the file or an import of hints, and the score of one provider *)
| LMerge (l : list (str * PersistedAnswer))
| Scoring (index : nat) (a : attempt)
| Finished.

(** What the environment decides at a step, with the clocks it reads. *)
Inductive choice : Type :=
| Go
| Cancel
| Searched (race : list nat → list (nat * attempt))
| Resolved (addrs : list ip_addr)
| Io (io : TempFile.save_io).

Record env : Type := mkEnv { e_now : Z; e_wall : Z; e_does : choice }.

Section Run.
Context `{CacheOrder}.

Definition live_snapshot (s : net) (now : Z) : list PersistSnapshot :=
  map (fun he => mkSnapshot he.1 (ips he.2) (resolved_at he.2))
    (List.filter (fun he => negb (is_empty (ips he.2)) && live_entry_is_usable he.2 now) (iter (cache s))).

Definition disk_snapshot (s : net) (live : list PersistSnapshot) (wall : Z) : list PersistSnapshot :=
  map (fun he => mkSnapshot he.1 (p_addrs he.2) (p_resolved_at_unix he.2))
    (List.filter (fun he => negb (bool_decide (he.1 ∈ map s_host live)) &&
                            (saturating_sub wall (p_resolved_at_unix he.2) <=? DNS_STALE_FALLBACK_WINDOW))
       (iter_store (store s))).

Definition save_text (cap : capture) : str :=
  join [10] (map (fun sn => format_persisted_line (s_host sn) (mkPersisted (s_addrs sn) (s_resolved_at_unix sn)))
               (cap_live cap ++ cap_disk cap)).

(** A new cell under the key; every 64th one sweeps first. *)
Definition enter (i : nat) (s : net) (key : InflightKey) : net :=
  let r := if sweep_counter s mod INFLIGHT_SWEEP_INTERVAL =? INFLIGHT_SWEEP_INTERVAL - 1
           then sweep_inflight_dead_entries (cells s) (registry s) else registry s in
  let c := next_cell s in
  let r := queue_key key (mkRegistry (<[key := c]> (entries r)) (sweep_queue r) (queued_keys r)) in
  mkNet (cache s) (flushes s) (next_version s) (store s) (scores s) (gate s) r
    (<[c := mkCell key {[i]} None None]> (cells s)) (S c) (fetch_add (sweep_counter s) 1)
    (snapshot_lock s) (next_generation s) (publish_lock s) (published_generation s) (file s) (log s)
    (kept s) (limbo s) (captures s).

(** Insert under the cache lock. *)
Definition publish (s : net) (now : Z) (q : str) (a : CachedAnswer) (f : nat) : net :=
  set_cache (insert_capped (cache s) (network s) (next_version s) now q a) (fetch_add (next_version s) 1)
    (mkPub q (ips a) f :: log s) s.

Definition resolve_step (i : nat) (e : env) (s : net) (p : pc) : option (net * pc) :=
  match p with
  | RStart q po => Some (s, if doh_enabled po then RCache q po (flushes s) else RSystem q po (flushes s))
  | RCache q po f =>
      match cached_doh_answer_observed (cache s) (e_now e) q with
      | Some ([], _) => Some (s, RSystem q po f)
      | Some (addrs, id) => Some (s, RDone q f (Some (FromCache id, addrs)))
      | None => Some (s, RLoad q po f)
      end
  | RLoad q po f => Some (s, RJoin q po f (flushes s))
  | RJoin q po f f' =>
      let key := (q, gen_of f') in
      match upgrade s key with
      | Some c =>
          Some (set_cells (alter (fun cl => mkCell (c_key cl) ({[i]} ∪ holders cl) (owner cl) (value cl)) c) s,
                RWait q po f f' c)
      | None =>
          Some (enter i s key, RWait q po f f' (next_cell s))
      end
  | RWait q po f f' c =>
      match e_does e with
      | Cancel => Some (set_cells (alter (drop_holder i) c) s, RGone)
      | _ =>
          match cells s !! c with
          | Some cl =>
              match value cl, owner cl with
              | Some r, _ => Some (s, RRemove q po f f' c r)
              | None, None => Some (set_cells (alter (set_owner (Some i)) c) s, RSearch q po f f' c)
              | None, Some _ => None
              end
          | None => None
          end
      end
  | RSearch q po f f' c =>
      match e_does e with
      | Cancel => Some (set_cells (alter (fun cl => drop_holder i (set_owner None cl)) c) s, RGone)
      | Searched race =>
          match (doh_wave_search race (scores s)).1 with
          | Some (addrs, ttl) => Some (s, RPublish q po f f' c addrs ttl)
          | None => Some (s, RFill q po f f' c None)
          end
      | _ => None
      end
  | RPublish q po f f' c addrs ttl =>
      if network s =? gen_of f' then
        Some (publish s (e_now e) q (positive addrs ttl (e_now e) (e_wall e)) f',
              RFill q po f f' c (Some (addrs, Some (mkIdentity (network s) (next_version s)))))
      else Some (s, RFill q po f f' c (Some (addrs, None)))
  | RFill q po f f' c r => Some (set_cells (alter (set_value r) c) s, RRemove q po f f' c r)
  | RRemove q po f f' c r =>
      let s := set_registry (remove_entry (q, gen_of f') c (registry s)) s in
      Some (set_cells (alter (drop_holder i) c) s,
            match r with
            | Some (addrs, id) => RDone q f (Some (FromLookup f' id, addrs))
            | None => RStale q po f
            end)
  | RStale q po f =>
      match stale_fallback_answer_observed (cache s) (e_now e) q with
      | Some (addrs, id) => Some (s, RDone q f (Some (FromStale id, addrs)))
      | None => Some (s, RDisk q po f)
      end
  | RDisk q po f =>
      match disk_fallback_answer (store s) (e_wall e) q with
      | Some addrs => Some (s, RDone q f (Some (FromDisk, addrs)))
      | None => Some (s, RFail q po f)
      end
  | RFail q po f =>
      if negb (network s =? gen_of f) || holds_fresh (cache s) q (gen_of f) (e_now e) then Some (s, RSystem q po f)
      else Some (publish s (e_now e) q (negative (e_now e) (e_wall e)) f, RSystem q po f)
  | RSystem q po f =>
      if system_fallback po then
        match e_does e with
        | Resolved (a :: l) => Some (s, RDone q f (Some (FromSystem, a :: l)))
        | Cancel => Some (s, RGone)
        | _ => Some (s, RDone q f None)
        end
      else Some (s, RDone q f None)
  | _ => None
  end.

Definition flush_step (i : nat) (e : env) (s : net) (p : pc) : option (net * pc) :=
  match p with
  | FStart => match gate s with None => Some (set_gate (Some i) s, FClear) | Some _ => None end
  | FClear =>
      let l := preserved (cache s) (e_now e) in
      Some (mkNet ∅ (S (flushes s)) (next_version s) (store s) (scores s) (gate s) (registry s) (cells s) (next_cell s)
              (sweep_counter s) (snapshot_lock s) (next_generation s) (publish_lock s) (published_generation s) (file s)
              (log s) (l ++ kept s) l (captures s), FMerge l)
  | FMerge (he :: l) => Some (set_store (merge_disk_fallback_entry (store s) he.1 he.2) l s, FMerge l)
  | FMerge [] => Some (s, FScores 0)
  | FScores n =>
      if (n <? length (scores s))%nat then Some (set_scores (<[n := 0]> (scores s)) s, FScores (S n))
      else Some (set_gate None s, FDone)
  | _ => None
  end.

Definition save_step (i : nat) (e : env) (s : net) (p : pc) : option (net * pc) :=
  match p with
  | SStart => match snapshot_lock s with None => Some (set_snapshot_lock (Some i) s, SGate) | Some _ => None end
  | SGate => match gate s with None => Some (set_gate (Some i) s, SLive) | Some _ => None end
  | SLive => Some (s, SDisk (live_snapshot s (e_now e)))
  | SDisk live =>
      Some (s, SAlloc (mkCapture (fetch_add (next_generation s) 1) live (disk_snapshot s live (e_wall e)) (kept s) (e_wall e)))
  | SAlloc cap =>
      Some (mkNet (cache s) (flushes s) (next_version s) (store s) (scores s) None (registry s) (cells s) (next_cell s)
              (sweep_counter s) None (fetch_add (next_generation s) 1) (publish_lock s) (published_generation s) (file s)
              (log s) (kept s) (limbo s) (cap :: captures s), SWrite (cap_gen cap) (save_text cap))
  | SWrite g text =>
      match e_does e with
      | Io io =>
          if TempFile.create_ok io && TempFile.write_ok io && TempFile.fsync_ok io then Some (s, SPublish g text)
          else Some (s, SDone g false)
      | _ => None
      end
  | SPublish g text =>
      match publish_lock s with
      | None => Some (set_publish (Some i) (published_generation s) (file s) s, SCheck g text)
      | Some _ => None
      end
  | SCheck g text =>
      if g <=? published_generation s then Some (set_publish None (published_generation s) (file s) s, SDone g true)
      else
        match e_does e with
        | Io io =>
            match TempFile.rename_into_target io (Some (g, text)) (file s) with
            | (Ok _, f) => Some (set_publish (publish_lock s) (published_generation s) f s, SRecord g)
            | (Err _, f) => Some (set_publish None (published_generation s) f s, SDone g false)
            end
        | _ => None
        end
  | SRecord g => Some (set_publish None g (file s) s, SDone g true)
  | _ => None
  end.

Definition other_step (i : nat) (e : env) (s : net) (p : pc) : option (net * pc) :=
  match p with
  | IStart host observed tried =>
      Some (s, if network s =? ci_generation observed then IRemove host observed tried else IDone false)
  | IRemove host observed tried =>
      if is_current (cache s) host observed tried
      then Some (set_cache (delete host (cache s)) (next_version s) (log s) s, IDone true)
      else Some (s, IDone false)
  | LMerge (he :: l) => Some (set_store (merge_disk_fallback_entry (store s) he.1 he.2) (limbo s) s, LMerge l)
  | LMerge [] => Some (s, Finished)
  | Scoring index a => Some (set_scores (score_attempt (scores s) index a) s, Finished)
  | _ => None
  end.

Definition step (i : nat) (e : env) (s : net) (p : pc) : option (net * pc) :=
  match p with
  | FStart | FClear | FMerge _ | FScores _ | FDone => flush_step i e s p
  | SStart | SGate | SLive | SDisk _ | SAlloc _ | SWrite _ _ | SPublish _ _ | SCheck _ _ | SRecord _ | SDone _ _ =>
      save_step i e s p
  | IStart _ _ _ | IRemove _ _ _ | IDone _ | LMerge _ | Scoring _ _ | Finished => other_step i e s p
  | _ => resolve_step i e s p
  end.

Definition starts (p : pc) : Prop :=
  match p with
  | RStart _ _ | FStart | SStart | IStart _ _ _ | LMerge _ | Scoring _ _ => True
  | _ => False
  end.

Definition empty_registry : InflightDohRegistry := mkRegistry ∅ [] ∅.

(** A fresh process: nothing is cached, a file of an earlier run may exist. *)
Definition initial (previous : option str) (providers : nat) : net :=
  mkNet ∅ 0 1 ∅ (repeat 0 providers) None empty_registry ∅ 0 0 None 0 None 0 ((fun t => (0, t)) <$> previous) [] [] [] [].

Abbreviation system := (config net pc).
Definition reachable (previous : option str) (providers : nat) : system → Prop :=
  reach step starts (mkConfig (initial previous providers) ∅).

(** ** One search per host and network *)

Lemma queue_key_entries k r : entries (queue_key k r) = entries r.
Proof. unfold queue_key. by case_bool_decide. Qed.

(** A visit removes nothing that is held. *)
Lemma visit_entries cs r k c :
  (entries (visit cs r) !! k = Some c → entries r !! k = Some c) ∧
  (entries r !! k = Some c → alive cs c = true → entries (visit cs r) !! k = Some c).
Proof.
  unfold visit. destruct (sweep_queue r) as [|k0 queue]; [done|]. cbn [entries].
  destruct (entries r !! k0) as [c0|] eqn:Hk0; [|done]. destruct (alive cs c0) eqn:Ha.
  - by rewrite queue_key_entries.
  - cbn [entries]. destruct (decide (k = k0)) as [->|Hne]; [rewrite lookup_delete_eq|by rewrite lookup_delete_ne].
    split; [done|]. intros ? ?. congruence.
Qed.

Lemma sweep_entries cs r k c :
  (entries (sweep_inflight_dead_entries cs r) !! k = Some c → entries r !! k = Some c) ∧
  (entries r !! k = Some c → alive cs c = true → entries (sweep_inflight_dead_entries cs r) !! k = Some c).
Proof.
  unfold sweep_inflight_dead_entries. generalize (Nat.min INFLIGHT_SWEEP_BUDGET (length (sweep_queue r))). intros n.
  induction n as [|n [IH1 IH2]]; [done|]. cbn [Nat.iter nat_rect]. destruct (visit_entries cs (Nat.iter n (visit cs) r) k c) as [V1 V2].
  split; auto.
Qed.

Lemma remove_entry_other k c r k' c' :
  (entries (remove_entry k c r) !! k' = Some c' → entries r !! k' = Some c') ∧
  (entries r !! k' = Some c' → c' ≠ c → entries (remove_entry k c r) !! k' = Some c').
Proof.
  unfold remove_entry. case_bool_decide as Hk; [|done]. unfold clear_if_empty. cbn [entries].
  case_bool_decide as He.
  - cbn [entries]. split; [by rewrite lookup_empty|]. intros Hk' Hne. exfalso.
    assert (delete k (entries r) !! k' = Some c') as Hd by (rewrite lookup_delete_ne; [done|congruence]).
    by rewrite He, lookup_empty in Hd.
  - cbn [entries]. destruct (decide (k' = k)) as [->|Hne]; [rewrite lookup_delete_eq|by rewrite lookup_delete_ne].
    split; [done|]. congruence.
Qed.

Record registered (s : net) : Prop := mkRegistered {
  rg_fresh : ∀ c cl, cells s !! c = Some cl → (c < next_cell s)%nat;
  rg_key : ∀ k c, entries (registry s) !! k = Some c → ∃ cl, cells s !! c = Some cl ∧ c_key cl = k;
  rg_live : ∀ c cl, cells s !! c = Some cl → value cl = None → holders cl ≠ ∅ →
    entries (registry s) !! c_key cl = Some c;
}.

(** What a caller relies on of its cell. *)
Definition holds_cell (i : nat) (k : InflightKey) (c : nat) (s : net) (P : cell → Prop) : Prop :=
  ∃ cl, cells s !! c = Some cl ∧ c_key cl = k ∧ i ∈ holders cl ∧ P cl.

Definition owns (i : nat) (cl : cell) : Prop := owner cl = Some i ∧ value cl = None.

Definition relies (i : nat) (p : pc) (s : net) : Prop :=
  match p with
  | RWait q _ _ f' c => holds_cell i (q, gen_of f') c s (fun _ => True)
  | RSearch q _ _ f' c | RPublish q _ _ f' c _ _ | RFill q _ _ f' c _ => holds_cell i (q, gen_of f') c s (owns i)
  | RRemove q _ _ f' c _ => holds_cell i (q, gen_of f') c s (fun cl => value cl ≠ None)
  | _ => True
  end.

(** What a step of [i] leaves to the others. *)
Definition leaves (i : nat) (cs cs' : gmap nat cell) : Prop :=
  ∀ c cl, cs !! c = Some cl → ∃ cl', cs' !! c = Some cl' ∧ c_key cl' = c_key cl ∧
    (∀ j, j ≠ i → j ∈ holders cl → j ∈ holders cl') ∧
    (∀ j, j ≠ i → owns j cl → owns j cl') ∧ (value cl ≠ None → value cl' = value cl).

Lemma leaves_refl i cs : leaves i cs cs.
Proof. intros c cl Hc. by exists cl. Qed.

Lemma leaves_alter i cs c g :
  (∀ cl, cs !! c = Some cl → c_key (g cl) = c_key cl ∧ (∀ j, j ≠ i → j ∈ holders cl → j ∈ holders (g cl)) ∧
    (∀ j, j ≠ i → owns j cl → owns j (g cl)) ∧ (value cl ≠ None → value (g cl) = value cl)) →
  leaves i cs (alter g c cs).
Proof.
  intros Hg c0 cl Hc0. destruct (decide (c0 = c)) as [->|Hne].
  - exists (g cl). rewrite lookup_alter_eq, Hc0. split; [done|by apply Hg].
  - exists cl. by rewrite lookup_alter_ne.
Qed.

Lemma relies_leaves i j p s s' : i ≠ j → leaves i (cells s) (cells s') → relies j p s → relies j p s'.
Proof.
  intros Hne Hl. assert (Hh : ∀ k c (P : cell → Prop), (∀ cl cl', P cl → (owns j cl → owns j cl') →
      (value cl ≠ None → value cl' = value cl) → P cl') → holds_cell j k c s P → holds_cell j k c s' P).
  { intros k c P HP (cl & Hc & Hk & Hj & Hp). destruct (Hl c cl Hc) as (cl' & Hc' & Hk' & Hh & Ho & Hv).
    exists cl'. split_and!; [done|congruence|by apply Hh|]. eapply HP; eauto. }
  destruct p; simpl; try done; apply Hh; auto. intros cl cl' Hv _ Hsame. by rewrite Hsame.
Qed.

Lemma registered_same s s' :
  cells s' = cells s → registry s' = registry s → next_cell s' = next_cell s → registered s → registered s'.
Proof. intros Hc Hr Hn [? ? ?]. constructor; rewrite ?Hc, ?Hr, ?Hn; done. Qed.

Lemma registered_alter s c g :
  registered s →
  (∀ cl, cells s !! c = Some cl → c_key (g cl) = c_key cl ∧
     (value (g cl) = None → holders (g cl) ≠ ∅ → value cl = None ∧ holders cl ≠ ∅)) →
  registered (set_cells (alter g c) s).
Proof.
  intros [Hf Hk Hl] Hg. constructor; cbn.
  - intros c0 cl Hc0. destruct (decide (c0 = c)) as [->|Hne]; [|rewrite lookup_alter_ne in Hc0 by done; eauto].
    rewrite lookup_alter_eq in Hc0. destruct (cells s !! c) eqn:Hcl; [eauto|done].
  - intros k c0 Hc0. destruct (Hk _ _ Hc0) as (cl & Hcl & <-). destruct (decide (c0 = c)) as [->|Hne].
    + exists (g cl). rewrite lookup_alter_eq, Hcl. split; [done|by apply Hg].
    + exists cl. by rewrite lookup_alter_ne.
  - intros c0 cl Hc0 Hv Hh. destruct (decide (c0 = c)) as [->|Hne].
    + rewrite lookup_alter_eq in Hc0. destruct (cells s !! c) as [cl0|] eqn:Hcl; [|done]. injection Hc0 as <-.
      destruct (Hg cl0 eq_refl) as [-> Hold]. destruct (Hold Hv Hh). eauto.
    + rewrite lookup_alter_ne in Hc0 by done. eauto.
Qed.

Lemma alive_holders cs c : alive cs c = true ↔ ∃ cl, cs !! c = Some cl ∧ holders cl ≠ ∅.
Proof.
  unfold alive. destruct (cs !! c) as [cl|]; [|naive_solver]. rewrite bool_decide_eq_true. naive_solver.
Qed.

Lemma join_existing i s k c :
  registered s → upgrade s k = Some c →
  let g := fun cl => mkCell (c_key cl) ({[i]} ∪ holders cl) (owner cl) (value cl) in
  registered (set_cells (alter g c) s) ∧ holds_cell i k c (set_cells (alter g c) s) (fun _ => True) ∧
  leaves i (cells s) (alter g c (cells s)).
Proof.
  intros Hs Hu g. unfold upgrade in Hu. destruct (entries (registry s) !! k) as [c0|] eqn:Hk; [|done].
  destruct (alive (cells s) c0) eqn:Ha; [|done]. injection Hu as ->. apply alive_holders in Ha as (cl & Hcl & Hh).
  destruct (rg_key s Hs _ _ Hk) as (cl' & Hcl' & Hkey). simplify_eq. split_and!.
  - apply registered_alter; [done|]. intros cl0 Hc0. simplify_eq. done.
  - exists (g cl). cbn. rewrite lookup_alter_eq, Hcl. split_and!; [done|done|set_solver|done].
  - apply leaves_alter. intros cl0 Hc0. split_and!; [done|intros j _ Hj; set_solver|done|done].
Qed.

Lemma leaves_insert_fresh i s cl : registered s → leaves i (cells s) (<[next_cell s := cl]> (cells s)).
Proof.
  intros Hs c cl0 Hc. pose proof (rg_fresh s Hs _ _ Hc). exists cl0. rewrite lookup_insert_ne by lia. done.
Qed.

Lemma enter_registered i s k :
  registered s → upgrade s k = None →
  registered (enter i s k) ∧ holds_cell i k (next_cell s) (enter i s k) (fun _ => True).
Proof.
  intros Hs Hu. unfold enter. set (r := if _ =? _ then _ else _).
  assert (Hr : ∀ k' c, (entries r !! k' = Some c → entries (registry s) !! k' = Some c) ∧
    (entries (registry s) !! k' = Some c → alive (cells s) c = true → entries r !! k' = Some c)).
  { intros k' c. unfold r. destruct (_ =? _); [apply sweep_entries|done]. }
  clearbody r. destruct Hs as [Hf Hk Hl]. split.
  - constructor; cbn; rewrite ?queue_key_entries; cbn.
    + intros c cl [[<- _]|[_ Hc]]%lookup_insert_Some; [lia|]. specialize (Hf _ _ Hc). lia.
    + intros k' c [[<- <-]|[Hne Hc]]%lookup_insert_Some; [eexists; by rewrite lookup_insert_eq|].
      apply Hr, Hk in Hc as (cl & Hcl & ?). exists cl. specialize (Hf _ _ Hcl). rewrite lookup_insert_ne by lia. done.
    + intros c cl [[<- <-]|[Hne Hc]]%lookup_insert_Some Hv Hh; [cbn; by rewrite lookup_insert_eq|].
      specialize (Hl _ _ Hc Hv Hh). assert (alive (cells s) c = true) as Ha by (apply alive_holders; eauto).
      rewrite lookup_insert_ne; [by apply Hr|]. intros ->. unfold upgrade in Hu. by rewrite Hl, Ha in Hu.
  - exists (mkCell k {[i]} None None). cbn. rewrite lookup_insert_eq. split_and!; [done|done|set_solver|done].
Qed.

Lemma remove_registered s k c :
  registered s → (∀ cl, cells s !! c = Some cl → value cl ≠ None) →
  registered (set_registry (remove_entry k c (registry s)) s).
Proof.
  intros [Hf Hk Hl] Hv. constructor; cbn; [done| |].
  - intros k' c' Hc%remove_entry_other. eauto.
  - intros c' cl Hc' Hvn Hh. apply remove_entry_other; [by apply Hl|]. intros ->. by apply (Hv cl).
Qed.

(** What a step of [i] establishes. *)
Definition coalesces (i : nat) (s s' : net) (p' : pc) : Prop :=
  registered s' ∧ relies i p' s' ∧ leaves i (cells s) (cells s').

Lemma coalesces_same i s s' p' :
  registered s → cells s' = cells s → registry s' = registry s → next_cell s' = next_cell s → relies i p' s' →
  coalesces i s s' p'.
Proof.
  intros Hs Hc Hr Hn Hp. split_and!; [by eapply registered_same|done|]. rewrite Hc. apply leaves_refl.
Qed.

Lemma wait_coalesces i e s q po f f' c s' p' :
  registered s → relies i (RWait q po f f' c) s → step i e s (RWait q po f f' c) = Some (s', p') → coalesces i s s' p'.
Proof.
  intros Hs (cl & Hc & Hk & Hi & _) Hstep. cbn in Hstep. rewrite Hc in Hstep.
  assert (Hdrop : coalesces i s (set_cells (alter (drop_holder i) c) s) RGone).
  { split_and!; [|done|].
    - apply registered_alter; [done|]. cbn. set_solver.
    - apply leaves_alter. intros cl0 _. cbn. split_and!; [done|set_solver|done|done]. }
  assert (Hgo : match value cl, owner cl with
      | Some r, _ => Some (s, RRemove q po f f' c r)
      | None, None => Some (set_cells (alter (set_owner (Some i)) c) s, RSearch q po f f' c)
      | None, Some _ => None
      end = Some (s', p') → coalesces i s s' p').
  { clear Hstep Hdrop. destruct (value cl) as [r|] eqn:Hv; [|destruct (owner cl) eqn:Ho; [done|]]; intros [= <- <-].
    - apply coalesces_same; [done..|]. exists cl. by rewrite Hv.
    - split_and!.
      + by apply registered_alter.
      + exists (set_owner (Some i) cl). cbn. rewrite lookup_alter_eq, Hc. done.
      + apply leaves_alter. intros cl0 Hc0. simplify_eq. split_and!; [done|done| |done].
        intros j _ [Hj _]. congruence. }
  destruct (e_does e); auto. by injection Hstep as <- <-.
Qed.

Lemma fill_coalesces i s q po f f' c r :
  registered s → holds_cell i (q, gen_of f') c s (owns i) →
  coalesces i s (set_cells (alter (set_value r) c) s) (RRemove q po f f' c r).
Proof.
  intros Hs (cl & Hc & Hk & Hi & Ho & Hv). split_and!.
  - by apply registered_alter.
  - exists (set_value r cl). cbn. by rewrite lookup_alter_eq, Hc.
  - apply leaves_alter. intros cl0 Hc0. simplify_eq. split_and!; [done|done| |done].
    intros j Hj [Hoj _]. congruence.
Qed.

Lemma abandon_coalesces i s q f' c :
  registered s → holds_cell i (q, gen_of f') c s (owns i) →
  coalesces i s (set_cells (alter (fun cl => drop_holder i (set_owner None cl)) c) s) RGone.
Proof.
  intros Hs (cl & Hc & Hk & Hi & Ho & Hv). split_and!; [|done|].
  - apply registered_alter; [done|]. cbn. set_solver.
  - apply leaves_alter. intros cl0 Hc0. simplify_eq. cbn. split_and!; [done|set_solver| |done].
    intros j Hj [Hoj _]. congruence.
Qed.

Lemma remove_coalesces i s q f' c p' :
  registered s → holds_cell i (q, gen_of f') c s (fun cl => value cl ≠ None) → (∀ s, relies i p' s) →
  coalesces i s (set_cells (alter (drop_holder i) c) (set_registry (remove_entry (q, gen_of f') c (registry s)) s)) p'.
Proof.
  intros Hs (cl & Hc & Hk & Hi & Hv) Hp. split_and!; [|done|].
  - apply registered_alter; [|cbn; set_solver]. apply remove_registered; [done|]. intros cl0 Hc0. by simplify_eq.
  - apply (leaves_alter i (cells s)). intros cl0 _. cbn. split_and!; [done|set_solver|done|done].
Qed.

Lemma step_coalesces i e s p s' p' :
  registered s → relies i p s → step i e s p = Some (s', p') → coalesces i s s' p'.
Proof.
  intros Hs Hp Hstep. destruct p; try (exact (wait_coalesces _ _ _ _ _ _ _ _ _ _ Hs Hp Hstep)); cbn in Hstep;
    repeat case_match; simplify_eq; try (by apply coalesces_same);
    try (by apply fill_coalesces); try (by eapply abandon_coalesces); try (by eapply remove_coalesces).
  - destruct (join_existing i s (q, gen_of f') n) as (? & ? & ?); done.
  - destruct (enter_registered i s (q, gen_of f')) as [? ?]; [done..|]. split_and!; [done..|].
    by apply leaves_insert_fresh.
Qed.

Lemma initial_registered previous n : registered (initial previous n).
Proof. constructor; cbn; intros *; by rewrite lookup_empty. Qed.

Lemma reachable_registered previous n c :
  reachable previous n c →
  registered (shared c) ∧ ∀ i p, procs c !! i = Some p → relies i p (shared c).
Proof.
  intros Hr. apply (reach_holds step starts registered relies) in Hr; [exact Hr|..].
  - by intros i p s Hp _; destruct p.
  - intros i e s p s' p' Hs Hp Hstep. by destruct (step_coalesces i e s p s' p') as (? & ? & _).
  - intros i j e s p s' p' pj Hne Hs Hp Hj Hstep. destruct (step_coalesces i e s p s' p') as (_ & _ & Hl); [done..|].
    by eapply relies_leaves.
  - split; [apply initial_registered|]. intros i p Hp. cbn in Hp. by rewrite lookup_empty in Hp.
Qed.

Lemma owned_is_registered s i k c : registered s → holds_cell i k c s (owns i) → entries (registry s) !! k = Some c.
Proof. intros Hs (cl & Hc & <- & Hi & _ & Hv). apply (rg_live s Hs _ _ Hc Hv). set_solver. Qed.

(** The caller is asking the providers about [q] for the network of [f']. *)
Definition searching (p : pc) : option InflightKey :=
  match p with RSearch q _ _ f' _ => Some (q, gen_of f') | _ => None end.

(** At any moment of any interleaving at most one caller asks the DNS
    providers about a host on behalf of one network: the callers that miss
    the cache together join its search, also when that caller is cancelled
    and another takes the search over. *)
Theorem one_search_per_name previous n c i j p p' k :
  reachable previous n c → procs c !! i = Some p → procs c !! j = Some p' →
  searching p = Some k → searching p' = Some k → i = j.
Proof.
  intros Hr Hi Hj Hp Hp'. destruct (reachable_registered _ _ _ Hr) as [Hreg Hrel].
  apply Hrel in Hi, Hj. destruct p; try done; destruct p'; try done. cbn in Hp, Hp'. injection Hp as <-.
  injection Hp' as -> Hg. cbn in Hi, Hj. rewrite Hg in Hj.
  pose proof (owned_is_registered _ _ _ _ Hreg Hi) as He. rewrite (owned_is_registered _ _ _ _ Hreg Hj) in He.
  injection He as ->. destruct Hi as (cl & Hc & _ & _ & Ho & _), Hj as (cl' & Hc' & _ & _ & Ho' & _). congruence.
Qed.

(** ** Answers belong to a network *)

























(** ** Saves *)

Definition covered (st : fallback) (h : str) (a : PersistedAnswer) : Prop :=
  ∃ a', st !! h = Some a' ∧ p_resolved_at_unix a ≤ p_resolved_at_unix a'.

(** Every answer that a flush had kept is in the capture, unless it is older
    than the window. *)
Definition complete (cap : capture) : Prop :=
  ∀ h a, (h, a) ∈ cap_kept cap →
    saturating_sub (cap_wall cap) (p_resolved_at_unix a) ≤ DNS_STALE_FALLBACK_WINDOW →
    h ∈ map s_host (cap_live cap) ∨
    ∃ sn, sn ∈ cap_disk cap ∧ s_host sn = h ∧ p_resolved_at_unix a ≤ s_resolved_at_unix sn.

Definition newer (a b : capture) : Prop := cap_gen b < cap_gen a ∧ ∀ x, x ∈ cap_kept b → x ∈ cap_kept a.

Definition few_saves (s : net) : Prop := Z.of_nat (length (captures s)) < 2 ^ 64.

Definition captured (s : net) (g : Z) (text : str) : Prop :=
  ∃ cap, cap ∈ captures s ∧ cap_gen cap = g ∧ save_text cap = text.

Record saves_ok (s : net) : Prop := mkSavesOk {
  sv_kept : ∀ h a, (h, a) ∈ kept s → (h, a) ∈ limbo s ∨ covered (store s) h a;
  sv_limbo : gate s = None → limbo s = [];
  sv_next : next_generation s = Z.of_nat (length (captures s)) mod 2 ^ 64;
  sv_complete : Forall complete (captures s);
  sv_past : Forall (fun cap => ∀ x, x ∈ cap_kept cap → x ∈ kept s) (captures s);
  sv_order : few_saves s →
    StronglySorted newer (captures s) ∧ Forall (fun cap => 1 ≤ cap_gen cap ≤ next_generation s) (captures s);
  sv_published : 0 ≤ published_generation s;
  sv_file : match file s with
            | Some (g, text) => published_generation s ≤ g ∧ (g ≠ 0 → captured s g text)
            | None => published_generation s = 0
            end;
}.

(** What a process at [p] has locked, and what follows. *)
Definition locks (i : nat) (p : pc) (s : net) : Prop :=
  match p with
  | FClear | FScores _ => gate s = Some i ∧ limbo s = []
  | FMerge l => gate s = Some i ∧ limbo s = l
  | SGate => snapshot_lock s = Some i
  | SLive | SDisk _ => snapshot_lock s = Some i ∧ gate s = Some i ∧ limbo s = []
  | SAlloc cap =>
      snapshot_lock s = Some i ∧ gate s = Some i ∧ limbo s = [] ∧
      complete cap ∧ cap_gen cap = fetch_add (next_generation s) 1 ∧ cap_kept cap = kept s
  | SWrite g text | SPublish g text => captured s g text
  | SCheck g text => captured s g text ∧ publish_lock s = Some i
  | SRecord g => publish_lock s = Some i ∧ ∃ text, file s = Some (g, text) ∧ captured s g text
  | SDone g true => g ≤ published_generation s ∧ ∃ text, captured s g text
  | _ => True
  end.

(** What a step of [i] leaves to the others. *)
Record keeps (i : nat) (s s' : net) : Prop := mkKeeps {
  kp_gate : ∀ j, j ≠ i → gate s = Some j → gate s' = Some j ∧ limbo s' = limbo s ∧ kept s' = kept s;
  kp_snapshot : ∀ j, j ≠ i → snapshot_lock s = Some j →
    snapshot_lock s' = Some j ∧ next_generation s' = next_generation s;
  kp_publish : ∀ j, j ≠ i → publish_lock s = Some j → publish_lock s' = Some j ∧ file s' = file s;
  kp_captures : ∀ cap, cap ∈ captures s → cap ∈ captures s';
  kp_published : published_generation s ≤ published_generation s';
}.

Lemma captured_grows s s' g text : (∀ cap, cap ∈ captures s → cap ∈ captures s') → captured s g text → captured s' g text.
Proof. intros Hk (cap & ? & ? & ?). exists cap. auto. Qed.

Lemma locks_keeps i j p s s' : i ≠ j → keeps i s s' → locks j p s → locks j p s'.
Proof.
  intros Hne [Hg Hs Hp Hc Hpub]. specialize (Hg j (not_eq_sym Hne)). specialize (Hs j (not_eq_sym Hne)).
  specialize (Hp j (not_eq_sym Hne)). pose proof (captured_grows s s') as Hcap.
  destruct p; cbn; try done; try (by apply Hcap).
  - intros [? <-]. by destruct Hg as (? & ? & _).
  - intros [? <-]. by destruct Hg as (? & ? & _).
  - intros [? ?]. destruct Hg as (? & -> & _); done.
  - intros ?. by destruct Hs.
  - intros (? & ? & ?). destruct Hg as (? & -> & _), Hs; done.
  - intros (? & ? & ?). destruct Hg as (? & -> & _), Hs; done.
  - intros (H1 & H2 & ? & ? & ? & ?). destruct (Hg H2) as (? & -> & ->), (Hs H1) as [? ->]. done.
  - intros [? ?]. destruct Hp; [done|]. split; [by apply Hcap|done].
  - intros (? & text & ? & ?). destruct Hp as [? ->]; [done|]. split; [done|]. exists text. split; [done|by apply Hcap].
  - destruct ok; [|done]. intros [? [text ?]]. split; [lia|]. exists text. by apply Hcap.
Qed.

Lemma step_keeps i e s p s' p' : saves_ok s → locks i p s → step i e s p = Some (s', p') → keeps i s s'.
Proof.
  intros Hs Hp Hstep. pose proof (sv_file s Hs) as Hfile.
  destruct p; cbn in Hstep, Hp; repeat case_match; simplify_eq; constructor; cbn; intros; try done; try lia;
    destruct_and?; try (by right); try congruence.
  all: match goal with Hx : ∃ _, _ |- _ => destruct Hx as (? & ? & ?); by simplify_eq end.
Qed.

Lemma merge_covers st h a : covered (merge_disk_fallback_entry st h a) h a.
Proof.
  unfold covered, merge_disk_fallback_entry. destruct (st !! h) as [a'|] eqn:Hh.
  - destruct (Z.leb_spec (p_resolved_at_unix a) (p_resolved_at_unix a')); [by exists a'|].
    exists a. by rewrite lookup_insert_eq.
  - exists a. by rewrite lookup_insert_eq.
Qed.

Lemma covered_merge st h a h' a' : covered st h a → covered (merge_disk_fallback_entry st h' a') h a.
Proof.
  intros (b & Hb & Hle). destruct (decide (h = h')) as [->|Hne].
  - unfold covered, merge_disk_fallback_entry. rewrite Hb.
    destruct (Z.leb_spec (p_resolved_at_unix a') (p_resolved_at_unix b)); [by exists b|].
    exists a'. rewrite lookup_insert_eq. split; [done|lia].
  - exists b. unfold merge_disk_fallback_entry. split; [|done]. destruct (st !! h'); [destruct (_ <=? _); [done|]|];
      by rewrite lookup_insert_ne.
Qed.

Lemma disk_snapshot_complete s g live wall :
  saves_ok s → limbo s = [] → complete (mkCapture g live (disk_snapshot s live wall) (kept s) wall).
Proof.
  intros Hs Hl h a Ha Hw. cbn in *. destruct (sv_kept s Hs h a Ha) as [Hin|(a' & Ha' & Hle)]; [by rewrite Hl in Hin; set_solver|].
  destruct (decide (h ∈ map s_host live)) as [|Hn]; [by left|right].
  exists (mkSnapshot h (p_addrs a') (p_resolved_at_unix a')). split_and!; [|done|done].
  unfold disk_snapshot. apply list_elem_of_fmap. exists (h, a'). split; [done|].
  apply list_elem_of_In, filter_In. split.
  - apply list_elem_of_In. rewrite iter_store_perm. by apply elem_of_map_to_list.
  - cbn [fst snd]. rewrite bool_decide_eq_false_2 by done. cbn. unfold saturating_sub in *. lia.
Qed.

Lemma saves_ok_same s s' :
  (∀ h a, covered (store s) h a → covered (store s') h a) →
  (kept s', limbo s', next_generation s', captures s') = (kept s, limbo s, next_generation s, captures s) →
  (published_generation s', file s') = (published_generation s, file s) →
  (gate s' = None → gate s = None ∨ limbo s = []) → saves_ok s → saves_ok s'.
Proof.
  intros Hst [= Hk Hl Hn Hc] [= Hp Hf] Hg [H1 H2 H3 H4 H5 H6 H7 H8].
  constructor; unfold few_saves, captured in *; rewrite ?Hk, ?Hl, ?Hn, ?Hc, ?Hp, ?Hf; try done.
  - intros h a Ha. destruct (H1 h a Ha); auto.
  - intros Hgn. destruct (Hg Hgn); auto.
Qed.

Definition saving (i : nat) (s' : net) (p' : pc) : Prop := saves_ok s' ∧ locks i p' s'.

Lemma saving_same i s s' p' :
  saves_ok s → store s' = store s →
  (kept s', limbo s', next_generation s', captures s') = (kept s, limbo s, next_generation s, captures s) →
  (published_generation s', file s') = (published_generation s, file s) →
  (gate s' = None → gate s = None ∨ limbo s = []) → locks i p' s' → saving i s' p'.
Proof. intros Hs Hst Hk Hf Hg Hp. split; [|done]. apply (saves_ok_same s); [by rewrite Hst|done..]. Qed.

Lemma clear_saves i s l :
  saves_ok s → gate s = Some i → limbo s = [] →
  saving i (mkNet ∅ (S (flushes s)) (next_version s) (store s) (scores s) (gate s) (registry s) (cells s) (next_cell s)
              (sweep_counter s) (snapshot_lock s) (next_generation s) (publish_lock s) (published_generation s) (file s)
              (log s) (l ++ kept s) l (captures s)) (FMerge l).
Proof.
  intros [H1 H2 H3 H4 H5 H6 H7 H8] Hg Hl. split; [|done]. constructor; cbn; try done.
  - intros h a [Ha|Ha]%elem_of_app; [by left|right]. destruct (H1 h a Ha) as [Hin|]; [|done]. rewrite Hl in Hin. set_solver.
  - by rewrite Hg.
  - eapply Forall_impl; [apply H5|]. cbn. intros cap Hcap x Hx. apply elem_of_app. right. auto.
Qed.

Lemma merge_saves i s h a l :
  saves_ok s → gate s = Some i → limbo s = (h, a) :: l →
  saving i (set_store (merge_disk_fallback_entry (store s) h a) l s) (FMerge l).
Proof.
  intros [H1 H2 H3 H4 H5 H6 H7 H8] Hg Hl. split; [|done]. constructor; cbn; try done; [|by rewrite Hg].
  intros h0 a0 Ha. destruct (H1 h0 a0 Ha) as [Hin|]; [|right; by apply covered_merge].
  rewrite Hl in Hin. apply elem_of_cons in Hin as [[= -> ->]|]; [right; apply merge_covers|by left].
Qed.

Lemma alloc_saves i s cap :
  saves_ok s → locks i (SAlloc cap) s →
  saving i (mkNet (cache s) (flushes s) (next_version s) (store s) (scores s) None (registry s) (cells s) (next_cell s)
              (sweep_counter s) None (fetch_add (next_generation s) 1) (publish_lock s) (published_generation s) (file s)
              (log s) (kept s) (limbo s) (cap :: captures s)) (SWrite (cap_gen cap) (save_text cap)).
Proof.
  intros [H1 H2 H3 H4 H5 H6 H7 H8] (_ & Hg & Hl & Hc & Hgen & Hk). split; [|exists cap; cbn; set_solver].
  assert (Hnext : fetch_add (next_generation s) 1 = Z.of_nat (S (length (captures s))) mod 2 ^ 64).
  { unfold fetch_add. rewrite H3, Nat2Z.inj_succ, <-Z.add_1_r. by rewrite Zplus_mod_idemp_l. }
  constructor; cbn; try done.
  - by constructor.
  - constructor; [by rewrite Hk|done].
  - unfold few_saves. cbn [captures length]. intros Hfew. destruct H6 as [Hs Hb]; [unfold few_saves; lia|].
    rewrite Hnext in *. rewrite H3 in Hb. rewrite Z.mod_small in * by lia. split; constructor; [done| |lia|].
    + apply Forall_forall. intros b Hin. rewrite Forall_forall in Hb, H5. split; [specialize (Hb b Hin); lia|].
      intros x Hx. rewrite Hk. by apply (H5 b).
    + eapply Forall_impl; [apply Hb|]. cbn. lia.
  - destruct (file s) as [[g text]|]; [|done]. destruct H8 as [? Hcap]. split; [done|]. intros Hne.
    eapply captured_grows; [|by apply Hcap]. cbn. set_solver.
Qed.

Lemma file_saves s o g text :
  saves_ok s → captured s g text → published_generation s < g →
  saves_ok (set_publish o (published_generation s) (Some (g, text)) s).
Proof.
  intros [H1 H2 H3 H4 H5 H6 H7 H8] Hc Hg. constructor; cbn; try done. split; [lia|done].
Qed.

Lemma record_saves i s g :
  saves_ok s → locks i (SRecord g) s → saving i (set_publish None g (file s) s) (SDone g true).
Proof.
  intros [H1 H2 H3 H4 H5 H6 H7 H8] (_ & text & Hf & Hcap). split; [|split; [by cbn|by exists text]]. rewrite Hf in *. destruct H8 as [? Hc].
  constructor; cbn; try done; lia.
Qed.

Lemma check_saves i e s g text s' p' :
  saves_ok s → locks i (SCheck g text) s → step i e s (SCheck g text) = Some (s', p') → saving i s' p'.
Proof.
  intros Hs [Hc Hp] Hstep. cbn in Hstep. destruct (Z.leb_spec g (published_generation s)).
  { injection Hstep as <- <-. split; [|split; [done|by exists text]]. apply (saves_ok_same s); by auto. }
  destruct (e_does e) as [| | | |io]; try done. unfold TempFile.rename_into_target in Hstep.
  destruct (negb (TempFile.rename_ok io)); [|destruct (negb (TempFile.dir_sync_ok io))]; injection Hstep as <- <-.
  - split; [|done]. apply (saves_ok_same s); by auto.
  - split; [|done]. by apply file_saves.
  - split; [by apply file_saves|]. split; [done|]. by exists text.
Qed.

Lemma step_saves i e s p s' p' :
  saves_ok s → locks i p s → step i e s p = Some (s', p') → saving i s' p'.
Proof.
  intros Hs Hp Hstep.
  destruct p; try (exact (check_saves _ _ _ _ _ _ _ Hs Hp Hstep)); cbn in Hstep, Hp; repeat case_match; simplify_eq;
    destruct_and?; try (by split); try (by apply (saving_same i s); cbn; auto).
  - apply (saving_same i s); [done..|]. split; [done|by apply (sv_limbo s)].
  - by apply clear_saves.
  - destruct p as [h a]. by apply merge_saves.
  - apply (saving_same i s); [done..|]. split_and!; [done|done|by apply (sv_limbo s)].
  - split; [done|]. split_and!; [done|done|done|by apply disk_snapshot_complete|done|done].
  - by apply alloc_saves.
  - by apply record_saves.
  - split; [|done]. apply (saves_ok_same s); [intros; by apply covered_merge|by auto..].
Qed.

Lemma initial_saves previous n : saves_ok (initial previous n).
Proof.
  constructor; try done; try (by constructor); try (cbn; set_solver).
  - intros _. split; constructor.
  - destruct previous; cbn; [|done]. split; [lia|done].
Qed.

Lemma reachable_saves previous n c :
  reachable previous n c →
  saves_ok (shared c) ∧ ∀ i p, procs c !! i = Some p → locks i p (shared c).
Proof.
  intros Hr. apply (reach_holds step starts saves_ok locks) in Hr; [exact Hr|..].
  - by intros i p s Hp _; destruct p.
  - intros i e s p s' p' Hs Hp Hstep. by apply (step_saves i e s p).
  - intros i j e s p s' p' pj Hne Hs Hp Hj Hstep. by eapply locks_keeps, Hj; [|eapply step_keeps].
  - split; [apply initial_saves|]. intros i p Hp. cbn in Hp. by rewrite lookup_empty in Hp.
Qed.

(** A save never catches the network change between its two halves: every
    answer that any flush had taken out of the cache by the time the save
    read the stores is in what the save captured, under its host, as a live
    answer of the new network or as a fallback answer at least as recent,
    unless it is past the fallback window. *)
Theorem saves_keep_flushed_answers previous n c cap h a :
  reachable previous n c → cap ∈ captures (shared c) → (h, a) ∈ cap_kept cap →
  saturating_sub (cap_wall cap) (p_resolved_at_unix a) ≤ DNS_STALE_FALLBACK_WINDOW →
  h ∈ map s_host (cap_live cap) ∨
  ∃ sn, sn ∈ cap_disk cap ∧ s_host sn = h ∧ p_resolved_at_unix a ≤ s_resolved_at_unix sn.
Proof.
  intros Hr Hcap Ha Hw. destruct (reachable_saves _ _ _ Hr) as [Hs _].
  pose proof (sv_complete _ Hs) as Hc. rewrite Forall_forall in Hc. by apply (Hc cap Hcap).
Qed.

(** Overlapping saves never roll the file back: generations are given in
    the order of the captures, so a higher one holds every answer a lower one
    was to keep; the file is always the whole text of one capture, or what an
    earlier process left, and while a save that reported success has
    generation g, the file is of a capture of generation g or more. *)
Theorem saves_never_roll_back previous n c :
  reachable previous n c → few_saves (shared c) →
  StronglySorted newer (captures (shared c)) ∧
  (∀ g text, file (shared c) = Some (g, text) → g ≠ 0 → captured (shared c) g text) ∧
  (∀ i g, procs c !! i = Some (SDone g true) →
     1 ≤ g ∧ ∃ g' text, file (shared c) = Some (g', text) ∧ g ≤ g' ∧ captured (shared c) g' text).
Proof.
  intros Hr Hf. destruct (reachable_saves _ _ _ Hr) as [Hs Hp]. pose proof (sv_file _ Hs) as Hfile. split_and!.
  - by apply (sv_order _ Hs).
  - intros g text Heq Hg. rewrite Heq in Hfile. by apply Hfile.
  - intros i g Hi. apply Hp in Hi. destruct Hi as (Hle & text & cap & Hin & Hgen & _).
    destruct (sv_order _ Hs Hf) as [_ Hb]. rewrite Forall_forall in Hb. specialize (Hb cap Hin). split; [lia|].
    pose proof (sv_published _ Hs). destruct (file (shared c)) as [[g' text']|]; [|lia].
    exists g', text'. destruct Hfile as [? Hc]. split_and!; [done|lia|]. apply Hc. lia.
Qed.
End Run.

(** ** Witnesses *)

Section Witnesses.
#[local] Existing Instance sample_order.

Definition at_time (d : choice) : env := mkEnv 100 5000 d.
Definition go (i : nat) : move pc env := Step i (at_time Go).
Definition sample_host : str := lit "a.example".

(** Two callers ask about one host and the first searches. *)
Definition joined_schedule : list (move pc env) :=
  [Spawn 0 (RStart sample_host (mkPolicy true true)); Spawn 1 (RStart sample_host (mkPolicy true true))] ++
  [go 0; go 0; go 1; go 1; go 0; go 1; go 0; go 1; go 0].

(** The search answers, a third caller finds the answer, the network changes
    and the answers are saved. *)
Definition saved_schedule : list (move pc env) :=
  joined_schedule ++ [Step 0 (at_time (Searched sample_race))] ++ [go 0; go 0; go 1; go 0; go 1] ++
  [Spawn 2 (RStart sample_host (mkPolicy true true)); go 2; go 2] ++
  [Spawn 3 FStart] ++ repeat (go 3) 25 ++
  [Spawn 4 SStart; go 4; go 4; go 4; go 4; go 4] ++ repeat (Step 4 (at_time (Io TempFile.all_ok))) 4.

Definition sample_config : config net pc := mkConfig (initial None 20) ∅.
Definition joined : config net pc := default sample_config (run_schedule step sample_config joined_schedule).
Definition saved : config net pc := default sample_config (run_schedule step sample_config saved_schedule).

Lemma legal_reached ms :
  forallb (fun m => match m with Spawn _ (RStart _ _ | FStart | SStart) | Step _ _ => true | _ => false end) ms = true →
  match run_schedule step sample_config ms with Some _ => true | None => false end = true →
  reachable None 20 (default sample_config (run_schedule step sample_config ms)).
Proof.
  intros Hl Hr. apply (run_reach _ _ _ ms).
  - apply Forall_forall. intros m Hm. rewrite forallb_forall in Hl. specialize (Hl m (proj1 (list_elem_of_In _ _) Hm)).
    destruct m as [? []|]; done.
  - destruct (run_schedule step sample_config ms) eqn:E; [exact E|done].
Qed.

Lemma joined_reached : reachable None 20 joined.
Proof. apply (legal_reached joined_schedule); vm_compute; reflexivity. Qed.

Lemma saved_reached : reachable None 20 saved.
Proof. apply (legal_reached saved_schedule); vm_compute; reflexivity. Qed.

Lemma one_search_per_name_witness :
  (searching <$> procs joined !! 0%nat = Some (Some (sample_host, 0)) ∧
   (fun p => match p with RWait _ _ _ _ c => c | _ => 7%nat end) <$> procs joined !! 1%nat = Some 0%nat) ∧
  ∀ j p, procs joined !! j = Some p → searching p = Some (sample_host, 0) → 0%nat = j.
Proof.
  split; [split; vm_compute; reflexivity|]. intros j p Hj Hp.
  destruct (procs joined !! 0%nat) as [p0|] eqn:H0; [|by vm_compute in H0].
  eapply (one_search_per_name None 20 joined 0 j p0 p (sample_host, 0)); [apply joined_reached|done|done| |done].
  apply Some_inj. change (searching <$> Some p0 = Some (Some (sample_host, 0))). rewrite <-H0. vm_compute. reflexivity.
Defined.


Definition sample_kept : str * PersistedAnswer := (sample_host, mkPersisted [V4 9] 5000).
Definition sample_capture : capture := default (mkCapture 0 [] [] [] 0) (head (captures (shared saved))).

Lemma saves_keep_flushed_answers_witness :
  cap_kept sample_capture = [sample_kept] ∧
  (sample_host ∈ map s_host (cap_live sample_capture) ∨
   ∃ sn, sn ∈ cap_disk sample_capture ∧ s_host sn = sample_host ∧ 5000 ≤ s_resolved_at_unix sn).
Proof.
  assert (Hk : cap_kept sample_capture = [sample_kept]) by (vm_compute; reflexivity). split; [exact Hk|].
  apply (saves_keep_flushed_answers None 20 saved sample_capture sample_host (mkPersisted [V4 9] 5000) saved_reached).
  - assert (Hl : length (captures (shared saved)) = 1%nat) by (vm_compute; reflexivity). unfold sample_capture.
    destruct (captures (shared saved)) as [|cap l]; [done|]. left.
  - rewrite Hk. left.
  - vm_compute. congruence.
Defined.

Lemma saves_never_roll_back_witness :
  procs saved !! 4%nat = Some (SDone 1 true) ∧ ∃ g text, file (shared saved) = Some (g, text) ∧ 1 ≤ g.
Proof.
  split; [vm_compute; reflexivity|].
  assert (Hw : few_saves (shared saved)) by (unfold few_saves; vm_compute; reflexivity).
  destruct (saves_never_roll_back None 20 saved saved_reached Hw) as (_ & _ & Hd).
  destruct (Hd 4%nat 1) as [_ (g & text & Hf & Hg & _)]; [vm_compute; reflexivity|]. exists g, text. split; [exact Hf|exact Hg].
Defined.
End Witnesses.

End ProbeDnsRun.
