(* ===== verification/Probe.v ===== *)
(** * Probing bridges

    [packages/bridge-probe/src/probe]: the handshake probe and the webtunnel
    upgrade probe with their budgets, the probe of one bridge from its target
    to the invalidation of the DNS answer it used, and the batches.  A peer is
    given by what it does at each step and how long it takes; times are in
    nanoseconds. *)

From S2P Require Import Prelude Order OrdMap Str Net NetText Crates Samples Identity Http ProbeDns.
Import Identity ProbeDns.
Open Scope Z_scope.

Module Probe.

(** ** Messages *)

(** [{:?}] of a duration: seconds, or the largest smaller unit it reaches. *)
Definition decimals (width : Z) (whole part : Z) : str :=
  let digits := trim_end_by (Z.eqb 48) (skipn 1 (to_dec (width + part))) in
  to_dec whole ++ (if is_empty digits then [] else [46] ++ digits).

Definition debug_duration (d : Z) : str :=
  if 1000000000 <=? d then decimals 1000000000 (d / 1000000000) (d mod 1000000000) ++ lit "s"
  else if 1000000 <=? d then decimals 1000000 (d / 1000000) (d mod 1000000) ++ lit "ms"
  else if 1000 <=? d then decimals 1000 (d / 1000) (d mod 1000) ++ [181] ++ lit "s"
  else to_dec d ++ lit "ns".

(** Why an upgrade was not seen. *)
Inductive cause : Type :=
| ConnectTimedOut (budget : Z)
| ConnectFailed (error : str)
| UpgradeTimedOut (budget : Z)
| InvalidSni (error : str)
| TlsFailed (error : str)
| WriteFailed (error : str)
| FlushFailed (error : str)
| ReadFailed (error : str)
| ClosedEarly
| NotWebtunnel (code : Z)
| NoCode
| HeadTooLong
| MalformedResponse (error : str).

Definition say (c : cause) : str :=
  match c with
  | ConnectTimedOut b => lit "tcp connect timed out after " ++ debug_duration b
  | ConnectFailed e => lit "tcp connect: " ++ e
  | UpgradeTimedOut b => lit "upgrade timed out after " ++ debug_duration b
  | InvalidSni e => lit "invalid SNI " ++ e
  | TlsFailed e => lit "tls: " ++ e
  | WriteFailed e => lit "write request: " ++ e
  | FlushFailed e => lit "flush: " ++ e
  | ReadFailed e => lit "read response: " ++ e
  | ClosedEarly => lit "connection closed before a status line arrived"
  | NotWebtunnel code => lit "not a webtunnel endpoint (HTTP " ++ to_dec code ++ lit ")"
  | NoCode => lit "response had no status code"
  | HeadTooLong => lit "response head exceeded the probe limit"
  | MalformedResponse e => lit "malformed HTTP response: " ++ e
  end.

(** ** A peer *)

(** What an operation takes and gives; [None] never ends. *)
Abbreviation timed A := (option (Z * A)).

Definition timeout {A} (budget : Z) (r : timed A) : option (Z * A) :=
  match r with Some (took, a) => if took <=? budget then Some (took, a) else None | None => None end.

(** One call of [read]: the bytes it delivers, none at the end of the stream. *)
Record peer : Type := mkPeer {
  connects : timed (result unit str);
  handshakes : timed (result unit str);
  writes : timed (result unit str);
  flushes : timed (result unit str);
  reads : list (Z * result (list Z) str);
}.

(** The network of one probe: the peer behind an address, given the request. *)
Abbreviation network := (socket_addr → str → peer).

Inductive UpgradeFailure : Type :=
| Connection (c : cause)
| Protocol (c : cause).

Definition MIN_WEBTUNNEL_TIMEOUT : Z := from_secs 12.
Definition WEBTUNNEL_HEAD_LIMIT : nat := 8 * 1024.
Definition MIN_DNS_RESOLVE_TIMEOUT : Z := from_secs 15.

(** The text of [httparse]'s refusal and of [ServerName]'s, with the name. *)
Class ProbeText : Type := { httparse_error : list Z → str; sni_error : str → str }.

Section Upgrade.
Context `{TlsCrate, Http.HttparseCrate, ProbeText}.

(** The loop over the response head; [took] is the time so far. *)
Fixpoint read_status (took : Z) (buf : list Z) (rs : list (Z * result (list Z) str)) : timed (result unit cause) :=
  match rs with
  | [] => None
  | (t, Err e) :: _ => Some (took + t, Err (ReadFailed e))
  | (t, Ok []) :: _ => Some (took + t, Err ClosedEarly)
  | (t, Ok chunk) :: rs' =>
      let buf := buf ++ chunk in
      match Http.httparse buf with
      | Http.Complete _ (Some code) _ =>
          Some (took + t, if code =? 101 then Ok tt else Err (NotWebtunnel code))
      | Http.Complete _ None _ => Some (took + t, Err NoCode)
      | Http.Partial =>
          if (WEBTUNNEL_HEAD_LIMIT <=? length buf)%nat then Some (took + t, Err HeadTooLong)
          else read_status (took + t) buf rs'
      | Http.BadHead => Some (took + t, Err (MalformedResponse (httparse_error buf)))
      end
  end.

(** The request on the wire. *)
Definition upgrade_request (plan : PreparedTarget) : str :=
  let crlf := [13; 10] in
  lit "GET " ++ request_target plan ++ lit " HTTP/1.1" ++ crlf ++
  lit "Host: " ++ host_header plan ++ crlf ++
  lit "Connection: Upgrade" ++ crlf ++
  lit "Upgrade: websocket" ++ crlf ++
  lit "Sec-WebSocket-Version: 13" ++ crlf ++
  lit "Sec-WebSocket-Key: dGhlIHNhbXBsZSBub25jZQ==" ++ crlf ++
  lit "User-Agent: Mozilla/5.0" ++ crlf ++ crlf.

(** What a peer does may depend on the request it is sent. *)
Definition send_upgrade_request (took : Z) (p : peer) : timed (result unit cause) :=
  match writes p with
  | None => None
  | Some (t, Err e) => Some (took + t, Err (WriteFailed e))
  | Some (t, Ok _) =>
      match flushes p with
      | None => None
      | Some (t', Err e) => Some (took + t + t', Err (FlushFailed e))
      | Some (t', Ok _) => read_status (took + t + t') [] (reads p)
      end
  end.

Definition upgrade_after_connect (p : peer) (plan : PreparedTarget) : timed (result unit cause) :=
  if use_tls plan then
    if negb (server_name_ok (sni plan)) then Some (0, Err (InvalidSni (sni_error (sni plan))))
    else match handshakes p with
    | None => None
    | Some (t, Err e) => Some (t, Err (TlsFailed e))
    | Some (t, Ok _) => send_upgrade_request t p
    end
  else send_upgrade_request 0 p.

(** Both halves end by one deadline. *)
Definition webtunnel_upgrade_attempt (p : peer) (plan : PreparedTarget) (budget : Z) :
  Z * result unit UpgradeFailure :=
  match timeout budget (connects p) with
  | None => (budget, Err (Connection (ConnectTimedOut budget)))
  | Some (t, Err e) => (t, Err (Connection (ConnectFailed e)))
  | Some (t, Ok _) =>
      match timeout (budget - t) (upgrade_after_connect p plan) with
      | None => (budget, Err (Protocol (UpgradeTimedOut budget)))
      | Some (t', Err c) => (t + t', Err (Protocol c))
      | Some (t', Ok _) => (t + t', Ok tt)
      end
  end.

Definition no_address : str := lit "hostname resolved to no usable address".

(** The loop over the candidates. *)
Fixpoint upgrade_loop (net : network) (plan : PreparedTarget) (slice : Z) (took : Z) (last : str)
  (tried : list socket_addr) (saw_protocol_failure : bool) (addrs : list socket_addr) :
  Z * result unit (str * list socket_addr) :=
  match addrs with
  | [] => (took, Err (last, if saw_protocol_failure then [] else tried))
  | a :: addrs' =>
      let tried := tried ++ [a] in
      match webtunnel_upgrade_attempt (net a (upgrade_request plan)) plan slice with
      | (t, Ok _) => (took + t, Ok tt)
      | (t, Err (Connection c)) =>
          upgrade_loop net plan slice (took + t) (socket_to_string a ++ lit ": " ++ say c) tried
            saw_protocol_failure addrs'
      | (t, Err (Protocol c)) =>
          upgrade_loop net plan slice (took + t) (socket_to_string a ++ lit ": " ++ say c) tried true addrs'
      end
  end.

Definition per_addr_budget (budget : Z) (addrs : list socket_addr) : Z :=
  budget / Z.max (Z.of_nat (length addrs)) 1.

Definition webtunnel_upgrade_probe_observed (net : network) (addrs : list socket_addr) (plan : PreparedTarget)
  (budget : Z) : Outcome * list socket_addr :=
  match timeout budget (Some (upgrade_loop net plan (per_addr_budget budget addrs) 0 no_address [] false addrs)) with
  | Some (took, Ok _) => (Reachable took, [])
  | Some (_, Err (reason, failed)) => (Unreachable reason, failed)
  | None => (Unreachable (lit "webtunnel upgrade timed out after " ++ debug_duration budget), [])
  end.

Fixpoint tcp_loop (net : network) (budget : Z) (took : Z) (last : str) (tried addrs : list socket_addr) :
  Outcome * list socket_addr :=
  match addrs with
  | [] => (Unreachable last, tried)
  | a :: addrs' =>
      let tried := tried ++ [a] in
      match timeout budget (connects (net a [])) with
      | Some (t, Ok _) => (Reachable (took + t), [])
      | Some (t, Err e) => tcp_loop net budget (took + t) (socket_to_string a ++ lit ": " ++ e) tried addrs'
      | None =>
          tcp_loop net budget (took + budget)
            (socket_to_string a ++ lit ": timed out after " ++ debug_duration budget) tried addrs'
      end
  end.

Definition tcp_probe_observed (net : network) (addrs : list socket_addr) (per_bridge_timeout : Z) :
  Outcome * list socket_addr :=
  tcp_loop net per_bridge_timeout 0 no_address [] addrs.

(** ** One bridge *)

Record ResolvedAddrs : Type := mkResolved { r_addrs : list socket_addr; cache_identity : option CacheIdentity }.

(** [invalidate_if_current] as a probe asks for it. *)
Record invalidation : Type := mkInvalidation { i_host : str; i_observed : CacheIdentity; i_tried : list ip_addr }.

Context `{UrlCrate}.

(** The messages of a plan that could not be built. *)
Context (say_target : target_error → str).

(** [lookup] resolves a host name, [net] is the network during the probe. *)
Definition resolve_and_probe (lookup : str → Z → timed (result ResolvedAddrs str)) (net : network)
  (bridge : BridgeLine) (per_bridge_timeout : Z) : Outcome * option invalidation :=
  if negb (usable_for_tor bridge)
  then (Unreachable (lit "documentation or local-only bridge address"), None)
  else
  match (if bool_decide (transport bridge = Some (lit "webtunnel"))
         then match prepare (params bridge) with
              | Ok plan => Ok (Some plan)
              | Err e => Err e
              end
         else Ok None) with
  | Err e => (Unreachable (say_target e), None)
  | Ok plan =>
  match match plan with
        | Some plan => Ok (dial_host plan, dial_port plan)
        | None => resolve_probe_target bridge
        end with
  | Err e => (Unreachable (say_target e), None)
  | Ok (host, port) =>
  match match ip_from_str host with
        | Some ip => Ok (mkResolved [socket_new port ip] None)
        | None =>
            let dns_timeout := Z.max per_bridge_timeout MIN_DNS_RESOLVE_TIMEOUT in
            match timeout dns_timeout (lookup host port) with
            | Some (_, Ok a) => Ok a
            | Some (_, Err reason) => Err reason
            | None => Err (lit "DNS resolution timed out after " ++ debug_duration dns_timeout)
            end
        end with
  | Err reason => (Unmeasured reason, None)
  | Ok resolved =>
      let '(outcome, tried) :=
        match plan with
        | Some plan =>
            webtunnel_upgrade_probe_observed net (r_addrs resolved) plan
              (Z.max per_bridge_timeout MIN_WEBTUNNEL_TIMEOUT)
        | None => tcp_probe_observed net (r_addrs resolved) per_bridge_timeout
        end in
      (outcome,
       match ip_from_str host, cache_identity resolved with
       | None, Some id => Some (mkInvalidation (trim_end_by (Z.eqb 46) host) id (map ip tried))
       | _, _ => None
       end)
  end end end.
End Upgrade.

(** ** Batches *)

Record Report : Type := mkReport { bridge : BridgeLine; outcome : Outcome }.

Record ProbeRound : Type := mkRound { alive : list (BridgeLine * Z); unmeasured : list BridgeLine }.

Definition is_reachable (r : Report) : bool := match outcome r with Reachable _ => true | _ => false end.
Definition is_unmeasured (r : Report) : bool := match outcome r with Unmeasured _ => true | _ => false end.
Definition latency (r : Report) : option Z := match outcome r with Reachable l => Some l | _ => None end.

Definition by_latency : BridgeLine * Z → BridgeLine * Z → comparison := cmp_on snd Z.compare.

Definition place (round : ProbeRound) (r : Report) : ProbeRound :=
  match outcome r with
  | Reachable l => mkRound (alive round ++ [(bridge r, l)]) (unmeasured round)
  | Unmeasured _ => mkRound (alive round) (unmeasured round ++ [bridge r])
  | Unreachable _ => round
  end.

(** The reports arrive in any order. *)
Definition probe_round (reports : list Report) : ProbeRound :=
  let round := fold_left place reports (mkRound [] []) in
  mkRound (sort_by by_latency (alive round)) (unmeasured round).

Definition probe_one (o : Outcome) : option Z := match o with Reachable l => Some l | _ => None end.

Section Until.
(** What the probe of a line learns when it is the [n]th of the walk. *)
Context (probe : nat → BridgeLine → Outcome).

(** The sequential walk: what is live, and the number of attempts. *)
Fixpoint until_loop (target max_attempts : nat) (live : list (BridgeLine * Z)) (attempts : nat)
  (bridges : list BridgeLine) : list (BridgeLine * Z) * nat :=
  match bridges with
  | [] => (live, attempts)
  | b :: bridges' =>
      if (target <=? length live)%nat || (max_attempts <=? attempts)%nat then (live, attempts)
      else
        until_loop target max_attempts
          (match probe attempts b with Reachable l => live ++ [(b, l)] | _ => live end) (S attempts) bridges'
  end.

Definition probe_until (target max_attempts : nat) (bridges : list BridgeLine) : list (BridgeLine * Z) * nat :=
  if (target =? 0)%nat then ([], 0%nat) else until_loop target max_attempts [] 0 bridges.

(** ** What the walk finds *)

(** The live ones of [bridges] when the first of them is the [n]th. *)
Fixpoint live_from (n : nat) (bridges : list BridgeLine) : list (BridgeLine * Z) :=
  match bridges with
  | [] => []
  | b :: bridges' =>
      match probe n b with Reachable l => (b, l) :: live_from (S n) bridges' | _ => live_from (S n) bridges' end
  end.

Lemma until_loop_spec target m live k bridges live' n :
  (length live ≤ target)%nat → until_loop target m live k bridges = (live', n) →
  ∃ j, n = (k + j)%nat ∧ live' = live ++ live_from k (firstn j bridges) ∧
    (k ≤ m → k + j ≤ m)%nat ∧ (j ≤ length bridges)%nat ∧ (length live' ≤ target)%nat ∧
    (target ≤ length live' ∨ m ≤ n ∨ j = length bridges)%nat ∧
    (∀ i, (i < j)%nat → length (live ++ live_from k (firstn i bridges)) < target)%nat.
Proof.
  revert live k. induction bridges as [|b bridges IH]; intros live k Hl; simpl.
  { intros [= <- <-]. exists 0%nat. rewrite app_nil_r, Nat.add_0_r. split_and!; [done|done|done|lia|done|auto|lia]. }
  destruct (Nat.leb_spec target (length live)); simpl.
  { intros [= <- <-]. exists 0%nat. rewrite app_nil_r, Nat.add_0_r. split_and!; [done|done|done|lia|done|auto|lia]. }
  destruct (Nat.leb_spec m k).
  { intros [= <- <-]. exists 0%nat. rewrite app_nil_r, Nat.add_0_r. split_and!; [done|done|done|lia|done|auto|lia]. }
  set (live1 := match probe k b with Reachable l => live ++ [(b, l)] | _ => live end).
  assert (Hlive1 : ∀ i, live1 ++ live_from (S k) (firstn i bridges) = live ++ live_from k (firstn (S i) (b :: bridges))).
  { intros i. unfold live1. simpl. destruct (probe k b); rewrite <-?app_assoc; done. }
  intros Hloop. destruct (IH live1 (S k)) as (j & -> & -> & Hm & Hj & Hlen & Hstop & Hbefore); [|done|].
  { unfold live1. destruct (probe k b); rewrite ?length_app; simpl; lia. }
  exists (S j). rewrite <-Hlive1 in *. split_and!; [lia|done|lia|lia|done|destruct Hstop as [|[|]]; simpl; auto with lia|].
  intros [|i] Hi; [simpl; rewrite app_nil_r; lia|]. rewrite <-Hlive1. apply Hbefore. lia.
Qed.

(** The sequential probe reports exactly the live bridges among the ones
    it probed, in the order of the input; it probes the candidates from the
    front, at most [max_attempts] of them, goes on while the target is not
    met, and never probes another one once it is. *)
Theorem probe_until_is_bounded target max_attempts bridges :
  let '(live, n) := probe_until target max_attempts bridges in
  live = live_from 0 (firstn n bridges) ∧
  (n ≤ max_attempts ∧ n ≤ length bridges ∧ length live ≤ target)%nat ∧
  (length live = target ∨ n = max_attempts ∨ n = length bridges) ∧
  (∀ i, (i < n)%nat → (length (live_from 0 (firstn i bridges)) < target)%nat).
Proof.
  unfold probe_until. destruct (Nat.eqb_spec target 0) as [->|Hne].
  { simpl. split_and!; [done|lia|lia|lia|auto|lia]. }
  destruct (until_loop _ _ _ _ _) as [live n] eqn:Hloop.
  apply until_loop_spec in Hloop as (j & -> & -> & Hm & Hj & Hlen & Hstop & Hbefore); [|simpl; lia].
  simpl in *. split_and!; [done|lia|done|done|lia|done].
Qed.
End Until.

(** ** Rounds *)

#[export] Instance by_latency_ranking : Ranking by_latency.
Proof. apply cmp_on_ranking, Z_compare_ranking. Qed.

Definition live_reports : list Report → list (BridgeLine * Z) :=
  omap (fun r => match outcome r with Reachable l => Some (bridge r, l) | _ => None end).
Definition dead_reports : list Report → list Report :=
  List.filter (fun r => negb (is_reachable r) && negb (is_unmeasured r)).

Lemma place_all reports round :
  fold_left place reports round =
  mkRound (alive round ++ live_reports reports) (unmeasured round ++ map bridge (List.filter is_unmeasured reports)).
Proof.
  revert round. induction reports as [|[b []] reports IH]; intros round; simpl.
  - rewrite !app_nil_r. by destruct round.
  - rewrite IH. simpl. by rewrite <-app_assoc.
  - rewrite IH. done.
  - rewrite IH. simpl. by rewrite <-app_assoc.
Qed.

(** A probe round sorts every input into exactly one of three groups,
    whatever the order in which the reports arrive: measured alive, with its
    latency and fastest first; not measured; and measured dead. *)
Theorem round_separates_unmeasured reports :
  let round := probe_round reports in
  map fst (alive round) ++ unmeasured round ++ map bridge (dead_reports reports) ≡ₚ map bridge reports ∧
  (∀ b l, (b, l) ∈ alive round ↔ mkReport b (Reachable l) ∈ reports) ∧
  (∀ b, b ∈ unmeasured round ↔ ∃ r, mkReport b (Unmeasured r) ∈ reports) ∧
  sorted_by by_latency (alive round).
Proof.
  unfold probe_round. rewrite place_all. cbn [alive unmeasured app]. split_and!.
  - rewrite (Permutation_map fst (sort_by_perm by_latency _)).
    induction reports as [|[b []] reports IH]; simpl; [done|..].
    + by rewrite IH.
    + rewrite <-IH, app_assoc, (app_assoc (map fst (live_reports reports))). symmetry. apply Permutation_middle.
    + rewrite <-IH. symmetry. apply Permutation_middle.
  - intros b l. rewrite sort_by_perm. unfold live_reports. rewrite list_elem_of_omap. split.
    + intros ([b' []] & Hin & [= <- <-]). done.
    + intros Hin. eexists. split; [exact Hin|done].
  - intros b. rewrite list_elem_of_fmap. split.
    + intros ([b' o] & -> & Hin%list_elem_of_In). apply filter_In in Hin as [Hin Hu]. destruct o as [| |r]; try done.
      exists r. by apply list_elem_of_In.
    + intros [r Hin]. exists (mkReport b (Unmeasured r)). split; [done|].
      apply list_elem_of_In, filter_In. split; [by apply list_elem_of_In|done].
  - by apply (sort_by_sorted by_latency).
Qed.

(** ** Budgets and verdicts *)

Lemma timeout_bound {A} budget (r : timed A) t a : timeout budget r = Some (t, a) → r = Some (t, a) ∧ t ≤ budget.
Proof. destruct r as [[t' a']|]; [|done]. cbn. destruct (Z.leb_spec t' budget); [|done]. by intros [= -> ->]. Qed.

Section Verdicts.
Context `{TlsCrate, Http.HttparseCrate, ProbeText}.

Lemma attempt_in_budget p plan budget : (webtunnel_upgrade_attempt p plan budget).1 ≤ budget.
Proof.
  unfold webtunnel_upgrade_attempt. destruct (timeout budget (connects p)) as [[t [[]|e]]|] eqn:Hc; [| |done].
  - apply timeout_bound in Hc as [_ Hc].
    destruct (timeout (budget - t) _) as [[t' [[]|c]]|] eqn:Hu; [apply timeout_bound in Hu; cbn; lia..|done].
  - by apply timeout_bound in Hc as [_ Hc].
Qed.

(** One attempt at an address. *)
Definition tried_at (net : network) (plan : PreparedTarget) (slice : Z) (a : socket_addr) : result unit UpgradeFailure :=
  (webtunnel_upgrade_attempt (net a (upgrade_request plan)) plan slice).2.

Definition upgraded (r : result unit UpgradeFailure) : Prop := r = Ok tt.
Definition refused (r : result unit UpgradeFailure) : Prop := ∃ c, r = Err (Connection c).
Definition broke (r : result unit UpgradeFailure) : Prop := ∃ c, r = Err (Protocol c).

Lemma upgrade_loop_spec net plan slice took last tried saw addrs :
  0 ≤ slice →
  let '(t, r) := upgrade_loop net plan slice took last tried saw addrs in
  t ≤ took + Z.of_nat (length addrs) * slice ∧
  match r with
  | Ok _ => ∃ before a after, addrs = before ++ a :: after ∧ upgraded (tried_at net plan slice a) ∧
      Forall (fun b => ¬ upgraded (tried_at net plan slice b)) before
  | Err (_, failed) =>
      Forall (fun b => ¬ upgraded (tried_at net plan slice b)) addrs ∧
      (saw = false ∧ Forall (fun b => refused (tried_at net plan slice b)) addrs ∧ failed = tried ++ addrs ∨
       (saw = true ∨ Exists (fun b => broke (tried_at net plan slice b)) addrs) ∧ failed = [])
  end.
Proof.
  intros Hslice. revert took last tried saw. induction addrs as [|a addrs IH]; intros took last tried saw; simpl.
  { split; [lia|]. split; [done|]. destruct saw; [right; auto|left]. by rewrite app_nil_r. }
  pose proof (attempt_in_budget (net a (upgrade_request plan)) plan slice) as Hb.
  destruct (webtunnel_upgrade_attempt _ plan slice) as [t r] eqn:Ha. cbn in Hb.
  assert (Ht : tried_at net plan slice a = r) by (unfold tried_at; by rewrite Ha).
  destruct r as [[]|[c|c]].
  - split; [nia|]. exists [], a, addrs. done.
  - specialize (IH (took + t) (socket_to_string a ++ lit ": " ++ say c) (tried ++ [a]) saw).
    destruct (upgrade_loop _ _ _ _ _ _ _ _) as [t' r']. destruct IH as [Htime IH]. split; [nia|].
    destruct r' as [[]|[msg failed]].
    + destruct IH as (before & x & after & -> & Hx & Hall). exists (a :: before), x, after. split_and!; [done|done|].
      constructor; [|done]. by rewrite Ht.
    + destruct IH as [Hall Hwhy]. split; [constructor; [by rewrite Ht|done]|].
      destruct Hwhy as [(-> & Hr & ->)|[Hsaw ->]]; [left|right].
      * split_and!; [done| |by rewrite <-app_assoc]. constructor; [by exists c|done].
      * split; [|done]. destruct Hsaw; [by left|right; by right].
  - specialize (IH (took + t) (socket_to_string a ++ lit ": " ++ say c) (tried ++ [a]) true).
    destruct (upgrade_loop _ _ _ _ _ _ _ _) as [t' r']. destruct IH as [Htime IH]. split; [nia|].
    destruct r' as [[]|[msg failed]].
    + destruct IH as (before & x & after & -> & Hx & Hall). exists (a :: before), x, after. split_and!; [done|done|].
      constructor; [|done]. by rewrite Ht.
    + destruct IH as [Hall Hwhy]. split; [constructor; [by rewrite Ht|done]|].
      right. destruct Hwhy as [(? & _)|[_ ->]]; [done|]. split; [|done]. right. left. by exists c.
Qed.

Lemma slices_fit budget addrs : 0 ≤ budget → 0 + Z.of_nat (length addrs) * per_addr_budget budget addrs ≤ budget.
Proof.
  intros Hb. unfold per_addr_budget. destruct addrs as [|a addrs]; [simpl; lia|]. rewrite Z.max_l by (simpl; lia).
  pose proof (Z.mul_div_le budget (Z.of_nat (length (a :: addrs)))). simpl length in *. lia.
Qed.

(** The webtunnel probe gives every candidate its own slice of the budget,
    and the slices fit: it says reachable exactly when some candidate
    completes the upgrade in its slice, so one that accepts and hangs never
    hides a working one behind it, and it says so within the budget.  It
    blames the addresses (all of them) only when none even accepted a
    connection; a failure after the connection blames none. *)
Theorem upgrade_probe_tries_every_address net addrs plan budget :
  0 ≤ budget →
  let attempt := tried_at net plan (per_addr_budget budget addrs) in
  match webtunnel_upgrade_probe_observed net addrs plan budget with
  | (Reachable l, failed) => Exists (fun a => upgraded (attempt a)) addrs ∧ l ≤ budget ∧ failed = []
  | (Unreachable _, failed) =>
      Forall (fun a => ¬ upgraded (attempt a)) addrs ∧
      (Forall (fun a => refused (attempt a)) addrs ∧ failed = addrs ∨
       Exists (fun a => broke (attempt a)) addrs ∧ failed = [])
  | (Unmeasured _, _) => False
  end.
Proof.
  intros Hb attempt. unfold webtunnel_upgrade_probe_observed.
  pose proof (upgrade_loop_spec net plan (per_addr_budget budget addrs) 0 no_address [] false addrs) as Hs.
  specialize (Hs ltac:(apply Z.div_pos; lia)).
  pose proof (slices_fit budget addrs Hb). destruct (upgrade_loop _ _ _ _ _ _ _ _) as [t r]. destruct Hs as [Ht Hr].
  cbn [timeout]. destruct (Z.leb_spec t budget); [|lia]. destruct r as [[]|[reason failed]].
  - destruct Hr as (before & a & after & -> & Ha & _). split_and!; [|done|done]. apply Exists_app. right. by left.
  - destruct Hr as [Hall [(_ & Hr & ->)|[[|He] ->]]]; [|done|]; (split; [done|]); [left|right]; done.
Qed.

(** The bytes of the first [n] reads, all of which delivered some. *)
Fixpoint heard (n : nat) (rs : list (Z * result (list Z) str)) : option (list Z) :=
  match n, rs with
  | O, _ => Some []
  | S n', (_, Ok (b :: bs)) :: rs' => option_map (app (b :: bs)) (heard n' rs')
  | S _, _ => None
  end.

Lemma read_status_ok took buf rs t :
  read_status took buf rs = Some (t, Ok tt) →
  ∃ n bytes len hs, heard (S n) rs = Some bytes ∧ Http.httparse (buf ++ bytes) = Http.Complete len (Some 101) hs ∧
    ∀ k bytes', (0 < k ≤ n)%nat → heard k rs = Some bytes' →
      Http.httparse (buf ++ bytes') = Http.Partial ∧ (length (buf ++ bytes') < WEBTUNNEL_HEAD_LIMIT)%nat.
Proof.
  revert took buf. induction rs as [|[t0 [[|b bs]|e]] rs IH]; intros took buf; cbn [read_status]; try done.
  destruct (Http.httparse (buf ++ b :: bs)) as [len [code|] hs| |] eqn:Hp; try done.
  - destruct (Z.eqb_spec code 101) as [->|]; [|done]. intros _. exists 0%nat, (b :: bs), len, hs.
    cbn. rewrite app_nil_r. split_and!; [done|done|lia].
  - destruct (Nat.leb_spec WEBTUNNEL_HEAD_LIMIT (length (buf ++ b :: bs))); [done|]. intros Hr.
    apply IH in Hr as (n & bytes & len & hs & Hh & Hc & Hbefore). rewrite <-app_assoc in Hc.
    exists (S n), ((b :: bs) ++ bytes), len, hs. split_and!; [|done|].
    { change (option_map (app (b :: bs)) (heard (S n) rs) = Some ((b :: bs) ++ bytes)). by rewrite Hh. }
    intros [|k] bytes' Hk Hb; [lia|]. cbn [heard] in Hb. destruct (heard k rs) as [bytes1|] eqn:Hk1; [|done].
    injection Hb as <-. destruct k as [|k].
    + injection Hk1 as <-. change (b :: (bs ++ [])) with ((b :: bs) ++ []). by rewrite app_nil_r.
    + change (b :: (bs ++ bytes1)) with ((b :: bs) ++ bytes1). rewrite app_assoc. apply (Hbefore (S k)); [lia|done].
Qed.

(** An attempt counts as an upgrade only when the address accepted the
    connection, completed the TLS handshake for a valid server name if the
    plan is https, and the first complete response head it sent has status
    101, found while less than 8 KiB had been read: a website, a CDN's error
    page or a silent server behind the address is never taken for a bridge. *)
Theorem upgrade_means_switching_protocols p plan budget t :
  webtunnel_upgrade_attempt p plan budget = (t, Ok tt) →
  (∃ t0, connects p = Some (t0, Ok tt)) ∧
  (use_tls plan = true → server_name_ok (sni plan) = true ∧ ∃ t1, handshakes p = Some (t1, Ok tt)) ∧
  ∃ n bytes len hs, heard (S n) (reads p) = Some bytes ∧ Http.httparse bytes = Http.Complete len (Some 101) hs ∧
    ∀ k bytes', (0 < k ≤ n)%nat → heard k (reads p) = Some bytes' →
      Http.httparse bytes' = Http.Partial ∧ (length bytes' < WEBTUNNEL_HEAD_LIMIT)%nat.
Proof.
  unfold webtunnel_upgrade_attempt. intros Ha.
  destruct (timeout budget (connects p)) as [[t0 [[]|e]]|] eqn:Hc; [|done..]. apply timeout_bound in Hc as [Hc _].
  destruct (timeout (budget - t0) _) as [[t' [[]|c]]|] eqn:Hu; [|done..]. apply timeout_bound in Hu as [Hu _].
  assert (Hsent : ∀ t1, send_upgrade_request t1 p = Some (t', Ok tt) →
    ∃ n bytes len hs, heard (S n) (reads p) = Some bytes ∧ Http.httparse bytes = Http.Complete len (Some 101) hs ∧
    ∀ k bytes', (0 < k ≤ n)%nat → heard k (reads p) = Some bytes' →
      Http.httparse bytes' = Http.Partial ∧ (length bytes' < WEBTUNNEL_HEAD_LIMIT)%nat).
  { intros t1. unfold send_upgrade_request. destruct (writes p) as [[? []]|]; [|done..].
    destruct (flushes p) as [[? []]|]; [|done..]. apply read_status_ok. }
  split; [by exists t0|]. unfold upgrade_after_connect in Hu. destruct (use_tls plan); [|split; [done|by eapply Hsent]].
  destruct (server_name_ok (sni plan)); [|done]. destruct (handshakes p) as [[t1 [[]|]]|] eqn:Hh; [|done..].
  split; [intros _; split; [done|by exists t1]|exact (Hsent t1 Hu)].
Qed.

Lemma tcp_loop_spec net budget took last tried addrs :
  match tcp_loop net budget took last tried addrs with
  | (Reachable _, failed) => failed = [] ∧ Exists (fun a => ∃ t, timeout budget (connects (net a [])) = Some (t, Ok tt)) addrs
  | (Unreachable _, failed) => failed = tried ++ addrs ∧
      Forall (fun a => ∀ t, timeout budget (connects (net a [])) ≠ Some (t, Ok tt)) addrs
  | (Unmeasured _, _) => False
  end.
Proof.
  revert took last tried. induction addrs as [|a addrs IH]; intros took last tried; cbn [tcp_loop].
  { by rewrite app_nil_r. }
  destruct (timeout budget (connects (net a []))) as [[t [[]|e]]|] eqn:Ha.
  - split; [done|]. left. by exists t.
  - specialize (IH (took + t) (socket_to_string a ++ lit ": " ++ e) (tried ++ [a])).
    destruct (tcp_loop _ _ _ _ _ _) as [[] failed]; [|..|done].
    + destruct IH. split; [done|]. by right.
    + destruct IH as [-> Hall]. rewrite <-app_assoc. split; [done|]. constructor; [intros ?; rewrite Ha; congruence|done].
  - specialize (IH (took + budget) (socket_to_string a ++ lit ": timed out after " ++ debug_duration budget) (tried ++ [a])).
    destruct (tcp_loop _ _ _ _ _ _) as [[] failed]; [|..|done].
    + destruct IH. split; [done|]. by right.
    + destruct IH as [-> Hall]. rewrite <-app_assoc. split; [done|]. constructor; [intros ?; rewrite Ha; congruence|done].
Qed.

(** The address never accepted a connection while it was tried. *)
Definition unconnected (net : network) (a : socket_addr) : Prop :=
  ∃ request slice, ∀ t, timeout slice (connects (net a request)) ≠ Some (t, Ok tt).

Lemma refused_unconnected net plan slice a : refused (tried_at net plan slice a) → unconnected net a.
Proof.
  intros [c Hc]. exists (upgrade_request plan), slice. intros t Ht.
  unfold tried_at, webtunnel_upgrade_attempt in Hc. rewrite Ht in Hc. by destruct (timeout (slice - t) _) as [[? [[]|]]|].
Qed.

(** What is learned at the addresses: a bridge that is blamed on all of them
    connected to none. *)
Lemma dialled_spec net plan addrs budget :
  0 ≤ budget →
  match (match plan with
         | Some plan => webtunnel_upgrade_probe_observed net addrs plan budget
         | None => tcp_probe_observed net addrs budget
         end) with
  | (Reachable _, failed) => failed = []
  | (Unreachable _, failed) => failed ≠ [] → failed = addrs ∧ Forall (unconnected net) addrs
  | (Unmeasured _, _) => False
  end.
Proof.
  intros Hb. destruct plan as [plan|].
  - unfold webtunnel_upgrade_probe_observed.
    pose proof (upgrade_loop_spec net plan (per_addr_budget budget addrs) 0 no_address [] false addrs) as Hs.
    specialize (Hs ltac:(apply Z.div_pos; lia)). destruct (upgrade_loop _ _ _ _ _ _ _ _) as [t r].
    cbn [timeout]. destruct (Z.leb_spec t budget); [|done]. destruct r as [[]|[reason failed]]; [done|].
    destruct Hs as (_ & _ & [(_ & Hr & ->)|[_ ->]]); [|done]. intros _. split; [done|].
    eapply Forall_impl; [exact Hr|]. intros a. apply refused_unconnected.
  - pose proof (tcp_loop_spec net budget 0 no_address [] addrs) as Hs. unfold tcp_probe_observed.
    destruct (tcp_loop _ _ _ _ _ _) as [[] failed]; [by destruct Hs| |done]. destruct Hs as [-> Hall]. intros _.
    split; [done|]. eapply Forall_impl; [exact Hall|]. intros a Ha. by exists [], budget.
Qed.

Context `{UrlCrate}.
Context (say_target : target_error → str).

(** The steps of a probe before anything is dialled. *)
Lemma probe_cases lookup net b tmo :
  (∃ reason, resolve_and_probe say_target lookup net b tmo = (Unreachable reason, None)) ∨
  (∃ host port reason, resolve_probe_target b = Ok (host, port) ∧ ip_from_str host = None ∧
     (∀ t r, timeout (Z.max tmo MIN_DNS_RESOLVE_TIMEOUT) (lookup host port) ≠ Some (t, Ok r)) ∧
     resolve_and_probe say_target lookup net b tmo = (Unmeasured reason, None)) ∨
  (∃ host port resolved plan budget, resolve_probe_target b = Ok (host, port) ∧
     (∀ ip, ip_from_str host = Some ip → resolved = mkResolved [socket_new port ip] None) ∧
     (ip_from_str host = None → ∃ t, lookup host port = Some (t, Ok resolved)) ∧
     (0 ≤ tmo → 0 ≤ budget) ∧
     resolve_and_probe say_target lookup net b tmo =
       (let '(o, tried) := match plan with
                           | Some plan => webtunnel_upgrade_probe_observed net (r_addrs resolved) plan budget
                           | None => tcp_probe_observed net (r_addrs resolved) budget
                           end in
        (o, match ip_from_str host, cache_identity resolved with
            | None, Some id => Some (mkInvalidation (trim_end_by (Z.eqb 46) host) id (map ip tried))
            | _, _ => None
            end))).
Proof.
  unfold resolve_and_probe. destruct (usable_for_tor b); cbn [negb]; [|left; by eexists].
  set (plan := if bool_decide _ then _ else _).
  destruct plan as [plan'|e] eqn:Hplan; [|left; by eexists].
  assert (Htarget : match plan' with
      | Some plan => Ok (dial_host plan, dial_port plan)
      | None => resolve_probe_target b
      end = resolve_probe_target b).
  { unfold plan in Hplan. unfold resolve_probe_target, webtunnel_probe_target. case_bool_decide.
    - destruct (prepare (params b)); [|done]. by injection Hplan as <-.
    - by injection Hplan as <-. }
  rewrite Htarget. clear plan Hplan Htarget. destruct (resolve_probe_target b) as [[host port]|e]; [|left; by eexists].
  right. destruct (ip_from_str host) as [i|] eqn:Hip.
  { right. exists host, port, (mkResolved [socket_new port i] None), plan', (match plan' with Some _ => Z.max tmo MIN_WEBTUNNEL_TIMEOUT | None => tmo end).
    rewrite Hip. split_and!; [done|intros ? [= ->]; done|done|destruct plan'; lia|by destruct plan']. }
  destruct (timeout _ (lookup host port)) as [[t [resolved|reason]]|] eqn:Hl.
  - right. exists host, port, resolved, plan', (match plan' with Some _ => Z.max tmo MIN_WEBTUNNEL_TIMEOUT | None => tmo end).
    rewrite Hip. apply timeout_bound in Hl as [Hl _]. split_and!; [done|done|by exists t|destruct plan'; lia|by destruct plan'].
  - left. exists host, port, reason. rewrite Hl. by split_and!.
  - left. eexists host, port, _. rewrite Hl. split_and!; [done|done|done|reflexivity].
Qed.

(** A bridge is left unmeasured only by our own resolver: its target is a
    host name and the lookup failed or ran out of its time; nothing was
    dialled, nothing is invalidated.  Every other probe gives a verdict. *)
Theorem unmeasured_is_the_resolvers lookup net b tmo reason inv :
  0 ≤ tmo → resolve_and_probe say_target lookup net b tmo = (Unmeasured reason, inv) →
  inv = None ∧ ∃ host port, resolve_probe_target b = Ok (host, port) ∧ ip_from_str host = None ∧
    ∀ t r, timeout (Z.max tmo MIN_DNS_RESOLVE_TIMEOUT) (lookup host port) ≠ Some (t, Ok r).
Proof.
  intros Hb Hr. destruct (probe_cases lookup net b tmo) as [[? Hc]|[(host & port & ? & ? & ? & ? & Hc)|Hc]].
  - congruence.
  - rewrite Hc in Hr. injection Hr as -> <-. split; [done|]. by exists host, port.
  - destruct Hc as (host & port & resolved & plan & budget & _ & _ & _ & Hbud & Hc). rewrite Hr in Hc.
    pose proof (dialled_spec net plan (r_addrs resolved) budget (Hbud Hb)) as Hd.
    destruct (match plan with Some _ => _ | None => _ end) as [o failed]. injection Hc as <- _. done.
Qed.

(** A probe asks for a cached DNS answer to be dropped only on evidence
    against that very answer: the bridge was found unreachable, the addresses
    it names are all the ones that answer supplied, in the order they were
    tried, and none of them accepted a connection. *)
Theorem invalidation_is_earned lookup net b tmo o inv :
  0 ≤ tmo → resolve_and_probe say_target lookup net b tmo = (o, Some inv) → i_tried inv ≠ [] →
  (∃ reason, o = Unreachable reason) ∧
  ∃ host port t resolved, resolve_probe_target b = Ok (host, port) ∧ i_host inv = trim_end_by (Z.eqb 46) host ∧
    lookup host port = Some (t, Ok resolved) ∧ cache_identity resolved = Some (i_observed inv) ∧
    i_tried inv = map ip (r_addrs resolved) ∧ Forall (unconnected net) (r_addrs resolved).
Proof.
  intros Hb Hr Ht. destruct (probe_cases lookup net b tmo) as [[? Hc]|[(? & ? & ? & _ & _ & _ & Hc)|Hc]]; [congruence..|].
  destruct Hc as (host & port & resolved & plan & budget & Htarget & _ & Hl & Hbud & Hc). rewrite Hr in Hc.
  pose proof (dialled_spec net plan (r_addrs resolved) budget (Hbud Hb)) as Hd.
  destruct (match plan with Some _ => _ | None => _ end) as [o' failed]. injection Hc as -> Hi.
  destruct (ip_from_str host) eqn:Hip; [done|]. destruct (cache_identity resolved) as [id|] eqn:Hid; [|done].
  injection Hi as ->. cbn in Ht |- *. destruct (Hl eq_refl) as [t Hlook]. destruct o'; [by subst| |done].
  destruct Hd as [-> Hall]; [by intros ->|]. split; [by eexists|]. by exists host, port, t, resolved.
Qed.
End Verdicts.

(** ** Witnesses *)

Section Witnesses.
#[local] Existing Instance sample_url.
#[local] Existing Instance sample_tls.

(** [S] and a newline switches protocols, [O] and a newline is a page. *)
#[local] Instance switching : Http.HttparseCrate := {|
  Http.httparse buf :=
    if (length buf <? 2)%nat then Http.Partial else
    match buf with
    | 83 :: 10 :: _ => Http.Complete 2 (Some 101) []
    | 79 :: 10 :: _ => Http.Complete 2 (Some 200) []
    | _ => Http.BadHead
    end
|}.
#[local] Instance sample_text : ProbeText := {| httparse_error _ := []; sni_error s := s |}.

Definition plan : PreparedTarget :=
  mkPreparedTarget (lit "example.com") 443 (lit "example.com") (lit "example.com") (lit "/secret") true.
Definition done_in (t : Z) : timed (result unit str) := Some (t, Ok tt).
Definition first_addr : socket_addr := SockV4 1 443.
Definition second_addr : socket_addr := SockV4 2 443.

(** The first address accepts and hangs, the second is a bridge that sends its
    head in two pieces. *)
Definition two_peers : network := fun a _ =>
  if bool_decide (a = first_addr) then mkPeer (done_in 5) None None None []
  else mkPeer (done_in 5) (done_in 5) (done_in 1) (done_in 1) [(3, Ok [83]); (3, Ok [10])].

(** Nobody listens. *)
Definition nobody : network := fun _ _ => mkPeer None None None None [].

Lemma upgrade_probe_tries_every_address_witness :
  webtunnel_upgrade_probe_observed two_peers [first_addr; second_addr] plan 100 = (Reachable 68, []) ∧
  Exists (fun a => upgraded (tried_at two_peers plan 50 a)) [first_addr; second_addr].
Proof.
  assert (Hp : webtunnel_upgrade_probe_observed two_peers [first_addr; second_addr] plan 100 = (Reachable 68, []))
    by (vm_compute; reflexivity).
  split; [exact Hp|].
  pose proof (upgrade_probe_tries_every_address two_peers [first_addr; second_addr] plan 100 ltac:(lia)) as Hu.
  cbv zeta in Hu. rewrite Hp in Hu. exact (proj1 Hu).
Defined.

Lemma upgrade_means_switching_protocols_witness :
  webtunnel_upgrade_attempt (two_peers second_addr []) plan 50 = (18, Ok tt) ∧
  server_name_ok (sni plan) = true.
Proof.
  assert (Hp : webtunnel_upgrade_attempt (two_peers second_addr []) plan 50 = (18, Ok tt)) by (vm_compute; reflexivity).
  split; [exact Hp|].
  destruct (upgrade_means_switching_protocols (two_peers second_addr []) plan 50 18 Hp) as (_ & Htls & _).
  exact (proj1 (Htls eq_refl)).
Defined.

Definition no_lookup : str → Z → timed (result ResolvedAddrs str) := fun _ _ => None.
Definition cached_lookup : str → Z → timed (result ResolvedAddrs str) := fun _ _ =>
  Some (4, Ok (mkResolved [first_addr; second_addr] (Some (mkIdentity 0 7)))).

Lemma unmeasured_is_the_resolvers_witness :
  (resolve_and_probe (fun _ => []) no_lookup two_peers webtunnel_bridge 100).2 = None ∧
  ∃ host port, resolve_probe_target webtunnel_bridge = Ok (host, port) ∧ ip_from_str host = None.
Proof.
  destruct (resolve_and_probe (fun _ => []) no_lookup two_peers webtunnel_bridge 100) as [[l|r|r] inv] eqn:Hp;
    [by vm_compute in Hp..|].
  destruct (unmeasured_is_the_resolvers (fun _ => []) no_lookup two_peers webtunnel_bridge 100 r inv ltac:(lia) Hp)
    as (-> & host & port & Ht & Hi & _).
  split; [reflexivity|]. exists host, port. split; [exact Ht|exact Hi].
Defined.

Definition sample_invalidation : invalidation := mkInvalidation (lit "example.com") (mkIdentity 0 7) [V4 1; V4 2].

Lemma invalidation_is_earned_witness :
  (resolve_and_probe (fun _ => []) cached_lookup nobody webtunnel_bridge 100).2 = Some sample_invalidation ∧
  Forall (unconnected nobody) [first_addr; second_addr].
Proof.
  assert (Hi : (resolve_and_probe (fun _ => []) cached_lookup nobody webtunnel_bridge 100).2 = Some sample_invalidation)
    by (vm_compute; reflexivity).
  split; [exact Hi|].
  destruct (invalidation_is_earned (fun _ => []) cached_lookup nobody webtunnel_bridge 100
    (resolve_and_probe (fun _ => []) cached_lookup nobody webtunnel_bridge 100).1 sample_invalidation ltac:(lia))
    as (_ & host & port & t & resolved & _ & _ & Hl & _ & _ & Hall).
  - rewrite <-Hi. apply surjective_pairing.
  - discriminate.
  - injection Hl as _ <-. exact Hall.
Defined.
End Witnesses.

End Probe.
