(* ===== verification/Onion.v ===== *)
(** * Onion addresses and the vanity search

    [apps/socks5-proxy/src/commands/onion/address.rs] and [vanity.rs]: the
    address of a key and its parser, key generation, the bit pattern of a
    vanity prefix, and the search by worker threads as interleaved steps. *)

From S2P Require Import Prelude Order Interleave Str Utf8.
Open Scope Z_scope.

Module Onion.

(** ** Numbers in a base, most significant digit first *)

Definition of_base (b : Z) (l : list Z) : Z := fold_left (fun acc d => acc * b + d) l 0.

Fixpoint to_base (b : Z) (n : nat) (v : Z) : list Z :=
  match n with
  | O => []
  | S n' => to_base b n' (v / b) ++ [v mod b]
  end.

Definition below (b d : Z) : Prop := 0 ≤ d < b.
Abbreviation bytes := (Forall (below 256)).

Lemma of_base_snoc b l d : of_base b (l ++ [d]) = of_base b l * b + d.
Proof. unfold of_base. by rewrite fold_left_app. Qed.

Lemma of_base_bound b l : 0 < b → Forall (below b) l → 0 ≤ of_base b l < b ^ Z.of_nat (length l).
Proof.
  intros Hb. induction l as [|d l IH] using rev_ind; intros Hl; [simpl; unfold of_base; simpl; lia|].
  apply Forall_app in Hl as [Hl [Hd _]%Forall_cons]. specialize (IH Hl). rewrite of_base_snoc, length_app.
  replace (Z.of_nat (length l + length [d])) with (Z.succ (Z.of_nat (length l))) by (simpl; lia).
  rewrite Z.pow_succ_r by lia. unfold below in Hd.
  assert ((of_base b l + 1) * b ≤ b ^ Z.of_nat (length l) * b) by (apply Z.mul_le_mono_nonneg_r; lia). nia.
Qed.

Lemma to_base_length b n v : length (to_base b n v) = n.
Proof. revert v. induction n as [|n IH]; intros v; [done|]. simpl. rewrite length_app, IH. simpl. lia. Qed.

Lemma to_base_below b n v : 0 < b → Forall (below b) (to_base b n v).
Proof.
  intros Hb. revert v. induction n as [|n IH]; intros v; [constructor|]. simpl. apply Forall_app. split; [done|].
  apply Forall_singleton. unfold below. by apply Z.mod_pos_bound.
Qed.

Lemma to_of_base b l : 0 < b → Forall (below b) l → to_base b (length l) (of_base b l) = l.
Proof.
  intros Hb. induction l as [|d l IH] using rev_ind; intros Hl; [done|].
  apply Forall_app in Hl as [Hl [Hd _]%Forall_cons]. rewrite of_base_snoc, length_app, Nat.add_comm. simpl.
  unfold below in Hd. rewrite Z.div_add_l, Z.div_small, Z.add_0_r, IH by (done || lia).
  rewrite Z.add_comm, Z_mod_plus_full, Z.mod_small by lia. done.
Qed.

Lemma of_to_base b n v : 0 < b → 0 ≤ v < b ^ Z.of_nat n → of_base b (to_base b n v) = v.
Proof.
  intros Hb. revert v. induction n as [|n IH]; intros v Hv; [unfold of_base; simpl in *; lia|].
  simpl to_base. rewrite of_base_snoc, IH; [rewrite (Z.div_mod v b) at 3; lia|].
  rewrite Nat2Z.inj_succ, Z.pow_succ_r in Hv by lia. split; [apply Z.div_pos; lia|].
  apply Z.div_lt_upper_bound; lia.
Qed.

(** The first digits are those of the number without its last ones. *)
Lemma take_to_base b n m v : 0 < b → take n (to_base b (n + m) v) = to_base b n (v / b ^ Z.of_nat m).
Proof.
  intros Hb. revert v. induction m as [|m IH]; intros v.
  { rewrite Nat.add_0_r, Z.pow_0_r, Z.div_1_r. apply take_ge. by rewrite to_base_length. }
  rewrite Nat.add_succ_r. simpl. rewrite take_app_le by (rewrite to_base_length; lia). rewrite IH, Z.div_div by lia.
  rewrite Nat2Z.inj_succ, Z.pow_succ_r by lia. done.
Qed.

Lemma of_base_app b l r : of_base b (l ++ r) = of_base b l * b ^ Z.of_nat (length r) + of_base b r.
Proof.
  induction r as [|d r IH] using rev_ind; [simpl; rewrite app_nil_r; unfold of_base at 3; simpl; lia|].
  rewrite app_assoc, !of_base_snoc, IH, length_app.
  replace (Z.of_nat (length r + length [d])) with (Z.succ (Z.of_nat (length r))) by (simpl; lia).
  rewrite Z.pow_succ_r by lia. ring.
Qed.

(** ** Crates *)

Definition upper_digit (d : Z) : Z := if d <? 26 then 65 + d else 24 + d.

(** [data_encoding::BASE32_NOPAD]. *)
Class Base32 : Type := {
  b32_encode : list Z → str;
  b32_decode : str → option (list Z);
}.

(** RFC 4648: five bytes are eight digits of five bits; decoding inverts. *)
Class Base32Laws `{Base32} : Prop := {
  encode_blocks : ∀ bs k, bytes bs → length bs = (5 * k)%nat →
    b32_encode bs = map upper_digit (to_base 32 (8 * k) (of_base 256 bs));
  decode_blocks : ∀ s bs k, length s = (8 * k)%nat →
    b32_decode s = Some bs ↔ bytes bs ∧ length bs = (5 * k)%nat ∧ b32_encode bs = s;
}.

(** Hashes and the public key of an expanded secret key. *)
Class KeyCrates : Type := {
  sha3_256 : list Z → list Z;
  sha512 : list Z → list Z;
  verifying_key : list Z → list Z;
}.

Class KeyLaws `{KeyCrates} : Prop := {
  sha3_bytes : ∀ l, bytes (sha3_256 l) ∧ length (sha3_256 l) = 32%nat;
  sha512_bytes : ∀ l, bytes (sha512 l) ∧ length (sha512 l) = 64%nat;
  verifying_key_bytes : ∀ l, bytes (verifying_key l) ∧ length (verifying_key l) = 32%nat;
}.

(** ** Addresses *)

Definition CHECKSUM_PREFIX : list Z := lit ".onion checksum".
Definition VERSION : Z := 3.
Definition ADDRESS_LEN : Z := 56.
Definition ONION_SUFFIX : str := lit ".onion".

Inductive ParseError : Type :=
| BadLength (len : Z)
| BadCharacter (c : Z) (position : nat)
| UnsupportedVersion (v : Z)
| ChecksumMismatch.


Definition in_alphabet (c : Z) : bool := is_ascii_lower c || ((50 <=? c) && (c <=? 55)).

Fixpoint bad_character (i : nat) (s : str) : option (Z * nat) :=
  match s with
  | [] => None
  | c :: s' => if in_alphabet c then bad_character (S i) s' else Some (c, i)
  end.

Section Addresses.
Context `{Base32, KeyCrates}.

Definition checksum (pubkey : list Z) : list Z := firstn 2 (sha3_256 (CHECKSUM_PREFIX ++ pubkey ++ [VERSION])).

Definition onion_address (pubkey : list Z) : str :=
  to_ascii_lowercase (b32_encode (pubkey ++ checksum pubkey ++ [VERSION])) ++ ONION_SUFFIX.

Definition parse_onion_address (addr : str) : result (list Z) ParseError :=
  match match strip_suffix (lit ".onion") addr with
        | Some body => Some body
        | None => strip_suffix (lit ".ONION") addr
        end with
  | None => Err (BadLength (str_len addr))
  | Some body =>
      if negb (str_len body =? ADDRESS_LEN) then Err (BadLength (str_len body))
      else
        let body := to_ascii_lowercase body in
        match bad_character 0 body with
        | Some (c, i) => Err (BadCharacter c i)
        | None =>
            (* the length and the alphabet make the decoding succeed *)
            let raw := default [] (b32_decode (to_ascii_uppercase body)) in
            let pubkey := firstn 32 raw in
            let rest := skipn 32 raw in
            if negb (nth 2 rest 0 =? VERSION) then Err (UnsupportedVersion (nth 2 rest 0))
            else if negb (bool_decide (firstn 2 rest = checksum pubkey)) then Err ChecksumMismatch
            else Ok pubkey
        end
  end.

(** ** Keys *)

Record Keypair : Type := mkKeypair { pubkey : list Z; address : str; secret : list Z }.

Definition clamp_scalar (l : list Z) : list Z :=
  let l := alter (fun b => Z.land b 248) 0%nat l in
  alter (fun b => Z.lor (Z.land b 127) 64) 31%nat l.

Definition generate_from_seed (seed : list Z) : Keypair :=
  let expanded := clamp_scalar (sha512 seed) in
  let pk := verifying_key expanded in
  mkKeypair pk (onion_address pk) expanded.

Definition to_expanded_bytes (kp : Keypair) : list Z := secret kp.
End Addresses.

(** ** Vanity prefixes *)

Definition MAX_PREFIX_LEN : Z := 8.

Inductive VanityError : Type :=
| EmptyPrefix
| TooLong (len : Z)
| InvalidCharacter (c : Z).

Record VanityTarget : Type := mkTarget { prefix : str; bits : Z; pattern : Z }.

Definition digit_of (c : Z) : option Z :=
  if is_ascii_lower c then Some (c - 97)
  else if (50 <=? c) && (c <=? 55) then Some (c - 50 + 26)
  else None.

Fixpoint compile (acc : Z) (s : str) : result Z VanityError :=
  match s with
  | [] => Ok acc
  | c :: s' =>
      match digit_of c with
      | Some v => compile (Z.lor (Z.shiftl acc 5 mod 2 ^ 64) v) s'
      | None => Err (InvalidCharacter c)
      end
  end.

Definition vanity_new (p : str) : result VanityTarget VanityError :=
  let lower := to_ascii_lowercase p in
  if is_empty lower then Err EmptyPrefix
  else if MAX_PREFIX_LEN <? str_len lower then Err (TooLong (str_len lower))
  else
    match compile 0 lower with
    | Ok pat => Ok (mkTarget lower (str_len lower * 5) pat)
    | Err e => Err e
    end.

Definition matches (t : VanityTarget) (pk : list Z) : bool :=
  Z.shiftr (of_base 256 (firstn 8 pk)) (64 - bits t) =? pattern t.

Definition expected_attempts (len : Z) : option Z := if len <=? MAX_PREFIX_LEN then Some (32 ^ len) else None.

Definition worker_count (cores : option Z) (requested : Z) : Z :=
  if 0 <? requested then requested else Z.max (saturating_sub (default 1 cores) 1) 1.

(** ** The alphabet *)

Definition lower_digit (d : Z) : Z := ascii_lower (upper_digit d).

Ltac alphabet :=
  unfold lower_digit, upper_digit, ascii_lower, ascii_upper, in_alphabet, digit_of, below, is_ascii_lower, is_ascii_upper in *;
  repeat match goal with |- context [if ?b then _ else _] => destruct b eqn:? end;
  repeat match goal with H : context [if ?b then _ else _] |- _ => destruct b eqn:? end.

Lemma lower_digit_facts d :
  below 32 d →
  ascii_upper (lower_digit d) = upper_digit d ∧ in_alphabet (lower_digit d) = true ∧
  digit_of (lower_digit d) = Some d ∧ 0 ≤ lower_digit d < 128 ∧ ascii_lower (lower_digit d) = lower_digit d.
Proof. intros Hd. split_and!; alphabet; try lia; f_equal; lia. Qed.

Lemma digit_of_lower c d : digit_of c = Some d → below 32 d ∧ c = lower_digit d.
Proof. intros Hd. alphabet; simplify_eq; lia. Qed.

Lemma in_alphabet_digit c : in_alphabet c = true → ∃ d, digit_of c = Some d.
Proof. intros Hc. destruct (digit_of c) as [d|] eqn:Hd; [by exists d|]. alphabet; (done || lia). Qed.

Lemma lower_in_ascii c : in_alphabet (ascii_lower c) = true → 0 ≤ c < 128.
Proof. intros Hc. alphabet; lia. Qed.

Lemma map_lower_digit ds :
  Forall (below 32) ds →
  to_ascii_uppercase (map lower_digit ds) = map upper_digit ds ∧ to_ascii_lowercase (map upper_digit ds) = map lower_digit ds ∧
  (∀ i, bad_character i (map lower_digit ds) = None) ∧ to_ascii_lowercase (map lower_digit ds) = map lower_digit ds ∧
  str_len (map lower_digit ds) = Z.of_nat (length ds).
Proof.
  intros Hds. split_and!.
  - unfold to_ascii_uppercase. rewrite map_map. apply map_ext_in. intros d Hd.
    rewrite Forall_forall in Hds. apply lower_digit_facts, Hds. by apply list_elem_of_In.
  - unfold to_ascii_lowercase. by rewrite map_map.
  - induction Hds as [|d ds Hd Hds IH]; intros i; [done|]. simpl. destruct (lower_digit_facts d Hd) as (_ & -> & _). apply IH.
  - unfold to_ascii_lowercase. rewrite map_map. apply map_ext_in. intros d Hd.
    rewrite Forall_forall in Hds. apply lower_digit_facts, Hds. by apply list_elem_of_In.
  - rewrite str_len_ascii, length_map; [done|]. apply Forall_map. eapply Forall_impl; [exact Hds|].
    intros d Hd. by apply lower_digit_facts.
Qed.

Lemma alphabet_digits i s : bad_character i s = None → ∃ ds, Forall (below 32) ds ∧ s = map lower_digit ds.
Proof.
  revert i. induction s as [|c s IH]; intros i; simpl; [by exists []|].
  destruct (in_alphabet c) eqn:Hc; [|done]. intros (ds & Hds & ->)%IH. apply in_alphabet_digit in Hc as [d Hd].
  apply digit_of_lower in Hd as [Hd ->]. exists (d :: ds). split; [by constructor|done].
Qed.

Lemma upper_digit_inj d d' : below 32 d → below 32 d' → upper_digit d = upper_digit d' → d = d'.
Proof. intros. alphabet; lia. Qed.

Lemma map_lower_digit_inj l l' : Forall (below 32) l → Forall (below 32) l' → map lower_digit l = map lower_digit l' → l = l'.
Proof.
  intros Hl. revert l'. induction Hl as [|d l Hd Hl IH]; intros [|d' l'] Hl' Heq; try done. injection Heq as Hd' Heq.
  apply Forall_cons in Hl' as [Hb Hl']. f_equal; [|by apply IH].
  destruct (lower_digit_facts d Hd) as (H1 & _), (lower_digit_facts d' Hb) as (H2 & _).
  apply upper_digit_inj; [done..|]. congruence.
Qed.

(** ** Addresses and keys *)

Definition is_key (pk : list Z) : Prop := bytes pk ∧ length pk = 32%nat.

Section Laws.
Context `{Base32Laws, KeyLaws}.

Lemma checksum_bytes pk : bytes (checksum pk) ∧ length (checksum pk) = 2%nat.
Proof.
  unfold checksum. destruct (sha3_bytes (CHECKSUM_PREFIX ++ pk ++ [VERSION])) as [Hb Hl]. split.
  - by apply Forall_take.
  - rewrite length_take, Hl. done.
Qed.

Definition raw_of (pk : list Z) : list Z := pk ++ checksum pk ++ [VERSION].

Lemma raw_of_bytes pk : is_key pk → bytes (raw_of pk) ∧ length (raw_of pk) = 35%nat.
Proof.
  intros [Hb Hl]. destruct (checksum_bytes pk) as [Hcb Hcl]. unfold raw_of. split.
  - apply Forall_app. split; [done|]. apply Forall_app. split; [done|]. repeat constructor; unfold VERSION; lia.
  - rewrite !length_app, Hl, Hcl. done.
Qed.

(** The 56 digits of a key. *)
Definition digits (pk : list Z) : list Z := to_base 32 56 (of_base 256 (raw_of pk)).

Lemma digits_below pk : Forall (below 32) (digits pk).
Proof. apply to_base_below. lia. Qed.

Lemma onion_address_digits pk : is_key pk → onion_address pk = map lower_digit (digits pk) ++ ONION_SUFFIX.
Proof.
  intros Hk. destruct (raw_of_bytes pk Hk) as [Hb Hl]. unfold onion_address. fold (raw_of pk).
  rewrite (encode_blocks _ 7 Hb Hl). apply (f_equal (fun x => x ++ ONION_SUFFIX)).
  apply (map_lower_digit (digits pk) (digits_below pk)).
Qed.

(** The text of 56 digits decodes to the 35 bytes of the same number. *)
Lemma decode_digits ds :
  Forall (below 32) ds → length ds = 56%nat →
  ∃ raw, b32_decode (map upper_digit ds) = Some raw ∧ bytes raw ∧ length raw = 35%nat ∧
    of_base 256 raw = of_base 32 ds ∧ b32_encode raw = map upper_digit ds.
Proof.
  intros Hds Hl. exists (to_base 256 35 (of_base 32 ds)).
  assert (Hraw : bytes (to_base 256 35 (of_base 32 ds))) by (apply to_base_below; lia).
  pose proof (of_base_bound 32 ds ltac:(lia) Hds) as Hb. rewrite Hl in Hb.
  assert (Hof : of_base 256 (to_base 256 35 (of_base 32 ds)) = of_base 32 ds) by (apply of_to_base; lia).
  assert (Henc : b32_encode (to_base 256 35 (of_base 32 ds)) = map upper_digit ds).
  { rewrite (encode_blocks _ 7 Hraw (to_base_length _ _ _)), Hof. f_equal. rewrite <-(to_of_base 32 ds) at 2 by (done || lia).
    by rewrite Hl. }
  split_and!; [|done|apply to_base_length|done|done].
  apply (decode_blocks _ _ 7); [by rewrite length_map|]. split_and!; [done|apply to_base_length|done].
Qed.

Lemma parse_address pk : is_key pk → parse_onion_address (onion_address pk) = Ok pk.
Proof.
  intros Hk. rewrite onion_address_digits by done. unfold parse_onion_address.
  change (lit ".onion") with ONION_SUFFIX. rewrite strip_suffix_app.
  destruct (map_lower_digit (digits pk) (digits_below pk)) as (Hup & _ & Hbad & Hlow & Hlen).
  assert (Hl56 : length (digits pk) = 56%nat) by apply to_base_length. rewrite Hlen, Hl56. cbn [Z.of_nat].
  rewrite Hlow, Hbad, Hup.
  destruct (raw_of_bytes pk Hk) as [Hb Hl]. destruct (decode_digits (digits pk) (digits_below pk) Hl56) as (raw & -> & Hrb & Hrl & Hof & _).
  assert (raw = raw_of pk) as ->.
  { rewrite <-(to_of_base 256 raw), <-(to_of_base 256 (raw_of pk)), Hrl, Hl by (done || lia). f_equal. rewrite Hof.
    apply of_to_base; [lia|]. pose proof (of_base_bound 256 (raw_of pk) ltac:(lia) Hb) as Hbd. rewrite Hl in Hbd. lia. }
  unfold raw_of, id. cbn [from_option]. destruct Hk as [_ Hk]. destruct (checksum_bytes pk) as [_ Hc].
  rewrite take_app_length', drop_app_length' by done. rewrite (take_app_length' (checksum pk)) by done.
  rewrite app_nth2 by lia. rewrite Hc. cbn [Nat.sub nth]. rewrite bool_decide_eq_true_2 by done. done.
Qed.

Lemma parse_sound a pk : parse_onion_address a = Ok pk → is_key pk ∧ to_ascii_lowercase a = onion_address pk.
Proof.
  unfold parse_onion_address. intros Ha.
  assert (∃ body suffix, a = body ++ suffix ∧ to_ascii_lowercase suffix = ONION_SUFFIX ∧
    match strip_suffix (lit ".onion") a with Some b => Some b | None => strip_suffix (lit ".ONION") a end = Some body)
    as (body & suffix & -> & Hsuf & Hm).
  { destruct (strip_suffix (lit ".onion") a) as [b|] eqn:Hs1; [|destruct (strip_suffix (lit ".ONION") a) as [b|] eqn:Hs2; [|done]].
    - apply strip_suffix_Some in Hs1. exists b, (lit ".onion"). done.
    - apply strip_suffix_Some in Hs2. exists b, (lit ".ONION"). done. }
  rewrite Hm in Ha. clear Hm. destruct (Z.eqb_spec (str_len body) ADDRESS_LEN) as [Hlen|]; [|done]. cbn [negb] in Ha.
  destruct (bad_character 0 (to_ascii_lowercase body)) as [[]|] eqn:Hbad; [done|].
  destruct (alphabet_digits _ _ Hbad) as (ds & Hds & Hlow).
  destruct (map_lower_digit ds Hds) as (Hup & Hlo & _ & _ & Hsl).
  assert (Hl56 : length ds = 56%nat).
  { assert (Forall (fun c => 0 ≤ c < 128) body) as Hasc.
    { apply Forall_forall. intros c Hc. apply lower_in_ascii.
      assert (ascii_lower c ∈ map lower_digit ds) as Hin by (rewrite <-Hlow; by apply list_elem_of_fmap_2).
      apply list_elem_of_fmap in Hin as (d & -> & Hd). rewrite Forall_forall in Hds. by apply lower_digit_facts, Hds. }
    rewrite str_len_ascii in Hlen by done. assert (length ds = length body) as ->; [|unfold ADDRESS_LEN in Hlen; lia].
    apply (f_equal length) in Hlow. unfold to_ascii_lowercase in Hlow. by rewrite !length_map in Hlow. }
  rewrite Hlow, Hup in Ha. destruct (decode_digits ds Hds Hl56) as (raw & Hdec & Hrb & Hrl & _ & Henc).
  rewrite Hdec in Ha. unfold id in Ha. cbn [from_option] in Ha. destruct (Z.eqb_spec (nth 2 (drop 32 raw) 0) VERSION) as [Hv|]; [|done].
  cbn [negb] in Ha. case_bool_decide as Hck; [|done]. cbn [negb] in Ha. injection Ha as <-.
  assert (Hkey : is_key (take 32 raw)) by (split; [by apply Forall_take|rewrite length_take, Hrl; done]). split; [done|].
  assert (raw = raw_of (take 32 raw)) as Hraw.
  { rewrite <-(take_drop 32 raw) at 1. unfold raw_of. f_equal. rewrite <-Hck.
    destruct (drop 32 raw) as [|x [|y [|z [|]]]] eqn:Hd; apply (f_equal length) in Hd; rewrite length_drop, Hrl in Hd; try done.
    simpl in Hv |- *. by rewrite Hv. }
  unfold onion_address. fold (raw_of (take 32 raw)). rewrite <-Hraw, Henc, Hlo. unfold to_ascii_lowercase in *.
  by rewrite map_app, Hlow, Hsuf.
Qed.

(** Onion addresses and keys correspond: the address of a key parses back
    to it, and whatever text is accepted is the address of the key it gives,
    up to the case of its letters.  So no two keys share an address and no
    damaged address is taken for a key. *)
Theorem onion_address_round_trip pk :
  (is_key pk → parse_onion_address (onion_address pk) = Ok pk) ∧
  (∀ a, parse_onion_address a = Ok pk → is_key pk ∧ to_ascii_lowercase a = onion_address pk).
Proof.
  split; [intros Hk; by apply parse_address|]. intros a Ha. by apply parse_sound.
Qed.

(** The suffix is not read without regard to case, as the comment on the
    parser says: the address of any key with the suffix written [.Onion] is
    refused, although it differs from the address only by the case of a
    letter. *)
Theorem mixed_case_suffix_is_refused pk :
  is_key pk →
  let a := map lower_digit (digits pk) ++ lit ".Onion" in
  to_ascii_lowercase a = onion_address pk ∧ parse_onion_address a = Err (BadLength 62).
Proof.
  intros Hk a. destruct (map_lower_digit (digits pk) (digits_below pk)) as (_ & _ & _ & Hlow & _).
  assert (Hl56 : length (digits pk) = 56%nat) by apply to_base_length. split.
  - rewrite onion_address_digits by done. unfold a. unfold to_ascii_lowercase in *. by rewrite map_app, Hlow.
  - assert (Hno : ∀ suf, length suf = 6%nat → suf ≠ lit ".Onion" → strip_suffix suf a = None).
    { intros suf Hl Hne. destruct (strip_suffix suf a) as [r|] eqn:Hs; [|done]. apply strip_suffix_Some in Hs.
      unfold a in Hs. apply app_inj_2 in Hs as [_ ?]; [done|by rewrite Hl]. }
    unfold parse_onion_address. rewrite !Hno by done. f_equal. f_equal. rewrite str_len_ascii.
    + unfold a. by rewrite length_app, length_map, Hl56.
    + apply Forall_app. split; [|by repeat constructor]. apply Forall_map. eapply Forall_impl; [apply digits_below|].
      intros d Hd. by apply lower_digit_facts.
Qed.

(** ** Vanity prefixes *)

Lemma compile_spec acc s p :
  0 ≤ acc → acc * 32 ^ Z.of_nat (length s) + 32 ^ Z.of_nat (length s) ≤ 2 ^ 59 → compile acc s = Ok p →
  ∃ ds, Forall (below 32) ds ∧ s = map lower_digit ds ∧ p = acc * 32 ^ Z.of_nat (length s) + of_base 32 ds.
Proof.
  revert acc. induction s as [|c s IH]; intros acc Ha Hb; cbn [compile length].
  { intros [= <-]. exists []. split_and!; [done|done|]. unfold of_base. simpl. lia. }
  destruct (digit_of c) as [d|] eqn:Hd; [|done]. apply digit_of_lower in Hd as [Hd ->].
  cbn [length] in Hb. rewrite Nat2Z.inj_succ, Z.pow_succ_r in * by lia.
  assert (0 < 32 ^ Z.of_nat (length s)) by (apply Z.pow_pos_nonneg; lia). unfold below in Hd.
  assert (Hor : Z.lor (Z.shiftl acc 5 mod 2 ^ 64) d = acc * 32 + d).
  { rewrite Z.shiftl_mul_pow2, Z.mod_small by nia. change (2 ^ 5) with 32. rewrite <-Z.lxor_lor, <-Z.add_nocarry_lxor; [done|..].
    all: apply Z.bits_inj'; intros i Hi; rewrite Z.land_spec, Z.bits_0; change 32 with (2 ^ 5);
      destruct (Z.lt_ge_cases i 5); [by rewrite Z.mul_pow2_bits_low|];
      rewrite (Z.bits_above_log2 d), ?andb_false_r; [done|lia|];
      destruct (Z.eq_dec d 0) as [->|]; [simpl; lia|]; pose proof (Z.log2_lt_pow2 d 5); lia. }
  rewrite Hor. intros (ds & Hds & -> & ->)%IH; [|lia|nia]. exists (d :: ds). split_and!; [by constructor|done|].
  rewrite length_map. change (d :: ds) with ([d] ++ ds). rewrite of_base_app. unfold of_base at 2. simpl. lia.
Qed.

Lemma vanity_new_spec p t :
  vanity_new p = Ok t →
  ∃ ds, Forall (below 32) ds ∧ prefix t = map lower_digit ds ∧ (1 ≤ length ds ≤ 8)%nat ∧
    bits t = Z.of_nat (length ds) * 5 ∧ pattern t = of_base 32 ds ∧ prefix t = to_ascii_lowercase p.
Proof.
  unfold vanity_new. intros Hn. destruct (is_empty (to_ascii_lowercase p)) eqn:He; [done|].
  destruct (Z.ltb_spec MAX_PREFIX_LEN (str_len (to_ascii_lowercase p))) as [|Hlen]; [done|].
  destruct (compile 0 (to_ascii_lowercase p)) as [pat|] eqn:Hc; [|done]. injection Hn as <-. cbn [prefix bits pattern].
  pose proof (str_len_length (to_ascii_lowercase p)) as Hle. unfold MAX_PREFIX_LEN in Hlen.
  assert (Hpow : 32 ^ Z.of_nat (length (to_ascii_lowercase p)) ≤ 32 ^ 8) by (apply Z.pow_le_mono_r; lia).
  apply compile_spec in Hc as (ds & Hds & Hs & ->); [|lia|lia]. exists ds. rewrite Hs in *.
  destruct (map_lower_digit ds Hds) as (_ & _ & _ & _ & Hsl). rewrite Hsl in *. rewrite length_map in Hle.
  split_and!; [done|done|destruct ds; [done|simpl; lia]|lia|done|lia|done].
Qed.

(** The first digits of a key come from its first eight bytes. *)
Lemma head_digits pk n :
  is_key pk → (n ≤ 8)%nat →
  take n (digits pk) = to_base 32 n (Z.shiftr (of_base 256 (take 8 pk)) (64 - 5 * Z.of_nat n)).
Proof.
  intros Hk Hn. unfold digits. replace 56%nat with (n + (56 - n))%nat by lia. rewrite take_to_base by lia. f_equal.
  rewrite Z.shiftr_div_pow2 by lia. destruct (raw_of_bytes pk Hk) as [Hb Hl].
  assert (Hraw : raw_of pk = take 8 pk ++ drop 8 (raw_of pk)).
  { rewrite <-(take_drop 8 (raw_of pk)) at 1. f_equal. unfold raw_of. apply take_app_le. destruct Hk as [_ ->]. lia. }
  assert (Hrest : 0 ≤ of_base 256 (drop 8 (raw_of pk)) < 256 ^ 27).
  { pose proof (of_base_bound 256 (drop 8 (raw_of pk)) ltac:(lia) (Forall_drop _ _ _ Hb)) as Hd.
    by rewrite length_drop, Hl in Hd. }
  rewrite Hraw at 1. rewrite of_base_app, length_drop, Hl. change (Z.of_nat (35 - 8)) with 27.
  replace (32 ^ Z.of_nat (56 - n)) with (256 ^ 27 * 2 ^ (64 - 5 * Z.of_nat n)).
  - rewrite <-Z.div_div by lia. f_equal. rewrite Z.div_add_l, (Z.div_small (of_base 256 (drop 8 (raw_of pk)))) by lia. lia.
  - change 256 with (2 ^ 8). change 32 with (2 ^ 5). rewrite <-!Z.pow_mul_r, <-Z.pow_add_r by lia. f_equal. lia.
Qed.

(** The comparison of the leading bits is a comparison of the leading
    characters. *)
Lemma matches_prefix p t pk :
  vanity_new p = Ok t → is_key pk → matches t pk = starts_with (prefix t) (onion_address pk).
Proof.
  intros Ht Hk. apply vanity_new_spec in Ht as (ds & Hds & Hp & Hn & Hbits & Hpat & Hlow).
  unfold matches. rewrite Hbits, Hpat, (Z.mul_comm _ 5). set (x := Z.shiftr _ _).
  assert (Hx : 0 ≤ x < 32 ^ Z.of_nat (length ds)).
  { assert (Hh : 0 ≤ of_base 256 (take 8 pk) < 256 ^ 8).
    { pose proof (of_base_bound 256 (take 8 pk) ltac:(lia) (Forall_take _ _ _ (proj1 Hk))) as Hd.
      rewrite length_take, (proj2 Hk) in Hd. exact Hd. }
    unfold x. rewrite Z.shiftr_div_pow2 by lia. split; [apply Z.div_pos; lia|]. apply Z.div_lt_upper_bound; [lia|].
    change 32 with (2 ^ 5). rewrite <-Z.pow_mul_r, <-Z.pow_add_r by lia.
    replace (64 - 5 * Z.of_nat (length ds) + 5 * Z.of_nat (length ds)) with 64 by lia. lia. }
  pose proof (head_digits pk (length ds) Hk ltac:(lia)) as Hhead. fold x in Hhead.
  apply eq_bool_prop_intro. rewrite !Is_true_true, Z.eqb_eq, starts_with_spec, onion_address_digits, Hp by done. split.
  - intros Hxd. exists (map lower_digit (drop (length ds) (digits pk)) ++ ONION_SUFFIX).
    rewrite <-(take_drop (length ds) (digits pk)) at 1. rewrite map_app, <-app_assoc, Hhead, Hxd, to_of_base by (done || lia). done.
  - intros [r Hr]. assert (Ht : map lower_digit (take (length ds) (digits pk)) = map lower_digit ds).
    { apply (f_equal (take (length ds))) in Hr. rewrite take_app_le in Hr by (rewrite length_map; unfold digits; rewrite to_base_length; lia).
      rewrite (take_app_length' (map lower_digit ds)) in Hr by (by rewrite length_map). by rewrite firstn_map in Hr. }
    apply map_lower_digit_inj in Ht; [|apply Forall_take, digits_below|done]. rewrite Hhead in Ht.
    rewrite <-Ht. symmetry. by apply of_to_base.
Qed.

(** The bit comparison of the vanity search is exact: for a prefix it
    accepts, a key matches if and only if its onion address starts with the
    prefix in lower case. *)
Theorem vanity_match_is_the_prefix p t pk :
  vanity_new p = Ok t → is_key pk →
  prefix t = to_ascii_lowercase p ∧ matches t pk = starts_with (prefix t) (onion_address pk).
Proof.
  intros Ht Hk. split; [|by apply (matches_prefix p)]. by apply vanity_new_spec in Ht as (ds & _ & _ & _ & _ & _ & Hlow).
Qed.
End Laws.

(** ** Witnesses *)

(** RFC 4648 on whole blocks. *)
Definition value_of (c : Z) : Z := default 0 (digit_of (ascii_lower c)).

Definition sample_base32 : Base32 := {|
  b32_encode bs := map upper_digit (to_base 32 (8 * (length bs / 5)) (of_base 256 bs));
  b32_decode s :=
    if bool_decide (map upper_digit (map value_of s) = s) && forallb (fun c => (0 <=? value_of c) && (value_of c <? 32)) s
    then Some (to_base 256 (5 * (length s / 8)) (of_base 32 (map value_of s))) else None;
|}.

Lemma value_of_upper d : below 32 d → value_of (upper_digit d) = d.
Proof.
  intros Hd. unfold value_of. change (ascii_lower (upper_digit d)) with (lower_digit d).
  by destruct (lower_digit_facts d Hd) as (_ & _ & -> & _).
Qed.

Lemma block_size k : 32 ^ Z.of_nat (8 * k) = 256 ^ Z.of_nat (5 * k).
Proof.
  change 32 with (2 ^ 5). change 256 with (2 ^ 8). rewrite <-!Z.pow_mul_r by lia. f_equal. lia.
Qed.

Lemma div_block n k : (n ≠ 0 → (n * k) / n = k)%nat.
Proof. intros. rewrite Nat.mul_comm. by apply Nat.div_mul. Qed.

Lemma sample_base32_laws : @Base32Laws sample_base32.
Proof.
  split.
  - intros bs k Hb Hl. cbn [b32_encode sample_base32]. by rewrite Hl, div_block.
  - intros s bs k Hl. cbn [b32_encode b32_decode sample_base32]. rewrite Hl, div_block by done. split.
    + destruct (bool_decide _ && _) eqn:Hc; [|done]. apply andb_true_iff in Hc as [Hc%bool_decide_eq_true Hv].
      intros Hbs%(inj Some). subst bs. assert (Hds : Forall (below 32) (map value_of s)).
      { apply Forall_map, Forall_forall. intros c Hin. rewrite forallb_forall in Hv. apply list_elem_of_In, Hv in Hin.
        unfold below. lia. }
      pose proof (of_base_bound 32 _ ltac:(lia) Hds) as Hbd. rewrite length_map, Hl, block_size in Hbd.
      split_and!; [apply to_base_below; lia|apply to_base_length|]. rewrite to_base_length, div_block, of_to_base by (done || lia).
      rewrite <-Hc at 2. f_equal. rewrite <-(to_of_base 32 (map value_of s)) at 2 by (done || lia). by rewrite length_map, Hl.
    + intros (Hb & Hlb & <-). rewrite Hlb, div_block in * by done. set (ds := to_base 32 (8 * k) (of_base 256 bs)).
      assert (Hds : Forall (below 32) ds) by (apply to_base_below; lia).
      assert (Hval : map value_of (map upper_digit ds) = ds).
      { rewrite map_map, <-(map_id ds) at 1. rewrite map_id. rewrite <-(map_id ds) at 2. apply map_ext_in. intros d Hd.
        apply value_of_upper. rewrite Forall_forall in Hds. by apply Hds, list_elem_of_In. }
      rewrite Hval, bool_decide_eq_true_2 by done. rewrite (proj2 (forallb_forall _ _)).
      * cbn [andb]. f_equal. unfold ds. pose proof (of_base_bound 256 bs ltac:(lia) Hb) as Hbd. rewrite Hlb in Hbd.
        rewrite of_to_base by (rewrite ?block_size; lia). rewrite <-Hlb. apply to_of_base; [lia|done].
      * intros c (d & <- & Hd)%in_map_iff. rewrite Forall_forall in Hds. apply list_elem_of_In, Hds in Hd as Hb'.
        rewrite value_of_upper by done. unfold below in Hb'. lia.
Qed.

Definition pad (n : nat) (l : list Z) : list Z := firstn n (map (fun b => b mod 256) l ++ repeat 0 n).

Lemma pad_bytes n l : bytes (pad n l) ∧ length (pad n l) = n.
Proof.
  unfold pad. split.
  - apply Forall_take, Forall_app. split.
    + apply Forall_map, Forall_forall. intros b _. unfold below. apply Z.mod_pos_bound. lia.
    + apply Forall_forall. intros b Hb%list_elem_of_In%repeat_spec. subst. unfold below. lia.
  - rewrite length_take, length_app, length_map, repeat_length. lia.
Qed.

Definition sample_keys : KeyCrates := {|
  sha3_256 l := pad 32 [of_base 2 l; of_base 3 l];
  sha512 l := pad 64 l;
  verifying_key l := pad 32 l;
|}.

Lemma sample_keys_laws : @KeyLaws sample_keys.
Proof. split; intros l; apply pad_bytes. Qed.

Section Witnesses.
#[local] Existing Instance sample_base32.
#[local] Existing Instance sample_keys.
#[local] Existing Instance sample_base32_laws.
#[local] Existing Instance sample_keys_laws.

Definition sample_key : list Z := pad 32 [1; 2; 3; 200].

Lemma onion_address_round_trip_witness :
  parse_onion_address (onion_address sample_key) = Ok sample_key ∧
  (∀ a, parse_onion_address a = Ok sample_key → to_ascii_lowercase a = onion_address sample_key).
Proof.
  destruct (onion_address_round_trip sample_key) as [H1 H2]. split; [apply H1, pad_bytes|]. intros a Ha. by apply H2.
Defined.

Lemma mixed_case_suffix_is_refused_witness :
  parse_onion_address (map lower_digit (digits sample_key) ++ lit ".Onion") = Err (BadLength 62).
Proof. apply (mixed_case_suffix_is_refused sample_key). apply pad_bytes. Defined.

Definition sample_prefix : VanityTarget := mkTarget (lit "aeb") 15 (0 * 32 * 32 + 4 * 32 + 1).

Lemma vanity_match_is_the_prefix_witness :
  vanity_new (lit "AeB") = Ok sample_prefix ∧
  matches sample_prefix sample_key = starts_with (lit "aeb") (onion_address sample_key) ∧
  matches sample_prefix sample_key = true.
Proof.
  assert (Hn : vanity_new (lit "AeB") = Ok sample_prefix) by (vm_compute; reflexivity). split; [exact Hn|].
  destruct (vanity_match_is_the_prefix (lit "AeB") sample_prefix sample_key Hn (pad_bytes 32 [1; 2; 3; 200])) as [_ Hm].
  split; [exact Hm|vm_compute; reflexivity].
Defined.
End Witnesses.

End Onion.
