(* ===== verification/VanitySearch.v ===== *)
(** * The vanity search, run by its threads

    [search] of [apps/socks5-proxy/src/commands/onion/vanity.rs]: workers that
    share a stop flag, the caller's cancel flag and the counters of attempts,
    one atomic step at a time, and what the caller makes of their results. *)

From S2P Require Import Prelude Interleave Str Onion.
Import Onion.
Open Scope Z_scope.

Module VanitySearch.

(** ** State and steps *)

(** [generated] counts the keys of all workers. *)
Record flags : Type := mkFlags {
  stop : bool;
  cancel : bool;
  attempts : Z;
  progress : Z;
  generated : Z;
}.

(** Points of the worker closure; [local] is its own counter, [r] what it
    will return. *)
Inductive worker : Type :=
| WCheck (local : Z)
| WCancel (local : Z)
| WGenerate (local : Z)
| WDeadline (local : Z)
| WStop (r : option Keypair) (local : Z)
| WCount (r : option Keypair) (local : Z)
| WProgress (r : option Keypair) (local : Z)
| WDone (r : option Keypair)
| WPanicked (local : Z)
(* the thread that waits for Ctrl-C *)
| Interrupt
| Interrupted.

(** The seed the random number generator gives, [None] if it fails, and
    whether the clock is past the deadline. *)
Record tick : Type := mkTick { seed : option (list Z); late : bool }.

Record SearchOptions : Type := mkOptions { time_limit : bool; has_progress : bool }.

Inductive SearchOutcome : Type :=
| Found (kp : Keypair)
| TimedOut (attempts : Z)
| Cancelled (attempts : Z).

Definition outcome_attempts (o : SearchOutcome) : Z :=
  match o with Found _ => 0 | TimedOut a | Cancelled a => a end.

Section Search.
Context `{Base32, KeyCrates}.
Context (target : VanityTarget) (opts : SearchOptions).

Definition worker_step (i : nat) (e : tick) (s : flags) (p : worker) : option (flags * worker) :=
  match p with
  | WCheck l =>
      if l mod 64 =? 0 then Some (s, if stop s then WCount None l else WCancel l) else Some (s, WGenerate l)
  | WCancel l => Some (s, if cancel s then WCount None l else WGenerate l)
  | WGenerate l =>
      match seed e with
      | None => Some (s, WPanicked l)
      | Some sd =>
          let kp := generate_from_seed sd in
          let l := l + 1 in
          Some (mkFlags (stop s) (cancel s) (attempts s) (progress s) (generated s + 1),
                if matches target (pubkey kp) then WStop (Some kp) l else WDeadline l)
      end
  | WDeadline l => Some (s, if time_limit opts && late e then WStop None l else WCheck l)
  | WStop r l => Some (mkFlags true (cancel s) (attempts s) (progress s) (generated s), WCount r l)
  | WCount r l =>
      Some (mkFlags (stop s) (cancel s) (fetch_add (attempts s) l) (progress s) (generated s),
            if has_progress opts then WProgress r l else WDone r)
  | WProgress r l =>
      Some (mkFlags (stop s) (cancel s) (attempts s) (fetch_add (progress s) l) (generated s), WDone r)
  | WDone _ | WPanicked _ => None
  | Interrupt => Some (mkFlags (stop s) true (attempts s) (progress s) (generated s), Interrupted)
  | Interrupted => None
  end.

(** The stop flag starts as the cancel flag. *)
Definition initial (cancelled : bool) (threads : nat) : config flags worker :=
  mkConfig (mkFlags cancelled cancelled 0 0 0) (list_to_map (map (fun i => (i, WCheck 0)) (seq 0 threads))).

Definition starts (p : worker) : Prop := p = Interrupt.

Definition reachable (cancelled : bool) (threads : nat) : config flags worker → Prop :=
  reach worker_step starts (initial cancelled threads).

(** The joins, in the order of the handles; a panicked worker gives nothing. *)
Fixpoint join_all (c : config flags worker) (found : option Keypair) (handles : list nat) : option (option Keypair) :=
  match handles with
  | [] => Some found
  | i :: handles' =>
      match procs c !! i with
      | Some (WDone (Some kp)) => join_all c (Some kp) handles'
      | Some (WDone None) | Some (WPanicked _) => join_all c found handles'
      | _ => None
      end
  end.

Definition search (c : config flags worker) (threads : nat) : option SearchOutcome :=
  match join_all c None (seq 0 threads) with
  | None => None
  | Some (Some kp) => Some (Found kp)
  | Some None => Some (if cancel (shared c) then Cancelled (attempts (shared c)) else TimedOut (attempts (shared c)))
  end.

(** ** Workers stop *)

(** The attempts a worker makes before it looks at the flags again, and the
    steps it still makes once the stop flag is set. *)
Definition until_check (l : Z) : Z := (- l) mod 64.
Definition rounds (l : Z) : Z := if l mod 64 =? 0 then 64 else until_check l.

Definition remaining (p : worker) : Z :=
  match p with
  | WCheck l => 4 + 3 * until_check l
  | WCancel l => 4 + 3 * rounds l
  | WGenerate l => 3 + 3 * rounds l
  | WDeadline l => 5 + 3 * until_check l
  | WStop _ _ => 3
  | WCount _ _ => 2
  | WProgress _ _ | Interrupt => 1
  | WDone _ | WPanicked _ | Interrupted => 0
  end.

Lemma until_check_next l : until_check (l + 1) = rounds l - 1 ∧ 1 ≤ rounds l ≤ 64 ∧ 0 ≤ until_check l < 64.
Proof.
  unfold rounds, until_check. destruct (Z.eqb_spec (l mod 64) 0); Z.to_euclidean_division_equations; lia.
Qed.

Lemma rounds_zero l : (l mod 64 =? 0) = true → rounds l = 64 ∧ until_check l = 0.
Proof. intros Hl. unfold rounds, until_check. rewrite Hl. split; [done|]. Z.to_euclidean_division_equations; lia. Qed.

Lemma rounds_nonzero l : (l mod 64 =? 0) = false → rounds l = until_check l.
Proof. intros Hl. unfold rounds. by rewrite Hl. Qed.

(** Once the stop flag is set, by the worker that found a key or by one
    past the deadline, it stays set and every worker ends: each of its steps
    brings it closer to its end, at most 197 of them (64 attempts) away, and
    until then it can always make a step. *)
Theorem workers_stop i e s p :
  0 ≤ remaining p ≤ 197 ∧ (worker_step i e s p = None ↔ remaining p = 0) ∧
  (stop s = true → ∀ s' p', worker_step i e s p = Some (s', p') → stop s' = true ∧ remaining p' < remaining p).
Proof.
  split; [|split].
  - destruct p; cbn; try lia; pose proof (until_check_next local); lia.
  - destruct p; cbn; try (pose proof (until_check_next local)); split; try done; try lia;
      repeat case_match; done.
  - intros Hs s' p' Hstep. destruct p; cbn in Hstep; repeat case_match; simplify_eq; cbn; (split; [done|]);
      try lia; pose proof (until_check_next local);
      try match goal with Hl : (_ mod 64 =? 0) = true |- _ => apply rounds_zero in Hl end;
      try match goal with Hl : (_ mod 64 =? 0) = false |- _ => apply rounds_nonzero in Hl end; lia.
Qed.

(** ** What a search finds *)

Definition won (p : worker) : Prop :=
  match p with WCount (Some _) _ | WProgress (Some _) _ | WDone (Some _) => True | _ => False end.

(** What a worker has seen: the key it returns is one it made and matches; it
    returns nothing only after it saw a reason to end. *)
Definition reported (s : flags) (r : option Keypair) : Prop :=
  match r with
  | Some kp => matches target (pubkey kp) = true ∧ ∃ sd, kp = generate_from_seed sd
  | None => stop s = true ∨ cancel s = true
  end.

Definition seen (p : worker) (s : flags) : Prop :=
  match p with
  | WStop (Some kp) l => reported s (Some kp)
  | WStop None l => time_limit opts = true
  | WCount r _ | WProgress r _ | WDone r => reported s r
  | _ => True
  end.

Lemma reported_grows s s' r :
  (stop s = true → stop s' = true) → (cancel s = true → cancel s' = true) → reported s r → reported s' r.
Proof. intros Hs Hc. destruct r; cbn; [done|]. intros [|]; auto. Qed.

Lemma step_flags i e s p s' p' :
  worker_step i e s p = Some (s', p') → (stop s = true → stop s' = true) ∧ (cancel s = true → cancel s' = true).
Proof. intros Hs. destruct p; cbn in Hs; repeat case_match; simplify_eq; done. Qed.

Lemma worker_seen_grows p s s' :
  (stop s = true → stop s' = true) → (cancel s = true → cancel s' = true) → seen p s → seen p s'.
Proof.
  intros Hs Hc. pose proof (reported_grows s s') as Hr. destruct p as [| | | |[|]| | | | | |]; cbn; try done; by apply Hr.
Qed.

Lemma worker_step_seen i e s p s' p' : seen p s → worker_step i e s p = Some (s', p') → seen p' s'.
Proof.
  intros Hp Hstep. destruct (step_flags _ _ _ _ _ _ Hstep) as [Hs Hc].
  destruct p; cbn in Hstep; repeat case_match; simplify_eq; cbn in *; try done;
    try (by auto); try solve [eapply reported_grows; eauto].
  - split; [done|by eexists].
  - by apply andb_true_iff in H1 as [? _].
  - destruct r; [done|by left].
Qed.

Definition placed (threads i : nat) (p : worker) : Prop :=
  match p with Interrupt | Interrupted => True | _ => (i < threads)%nat end.

Lemma step_placed threads i e s p s' p' : placed threads i p → worker_step i e s p = Some (s', p') → placed threads i p'.
Proof. intros Hp Hs. destruct p; cbn in Hs; repeat case_match; simplify_eq; done. Qed.

Lemma initial_procs cancelled threads i p :
  procs (initial cancelled threads) !! i = Some p ↔ p = WCheck 0 ∧ (i < threads)%nat.
Proof.
  cbn. rewrite <-elem_of_list_to_map.
  - rewrite list_elem_of_fmap. setoid_rewrite elem_of_seq. split.
    + intros (j & [= -> ->] & Hj). split; [done|lia].
    + intros [-> Hi]. exists i. split; [done|lia].
  - rewrite map_map. cbn. rewrite map_id. apply NoDup_seq.
Qed.

Lemma reachable_seen cancelled threads c :
  reachable cancelled threads c → ∀ i p, procs c !! i = Some p → seen p (shared c) ∧ placed threads i p.
Proof.
  intros Hr. apply (reach_holds worker_step starts (fun _ => True) (fun i p s => seen p s ∧ placed threads i p)) in Hr;
    [apply Hr|..].
  - by intros i p s ->.
  - intros i e s p s' p' _ [Hs Hp] Hstep. split; [done|]. split; [by eapply worker_step_seen|by eapply step_placed].
  - intros i j e s p s' p' q _ _ _ [Hs Hp] Hstep. destruct (step_flags _ _ _ _ _ _ Hstep). split; [by eapply worker_seen_grows|done].
  - split; [done|]. intros i p [-> Hi]%initial_procs. done.
Qed.

(** Why the stop flag is set. *)
Definition explained (c : config flags worker) : Prop :=
  stop (shared c) = true →
  cancel (shared c) = true ∨ time_limit opts = true ∨ ∃ i p, procs c !! i = Some p ∧ won p.

Lemma step_explained i e s p s' p' :
  seen p s → worker_step i e s p = Some (s', p') →
  (won p → won p') ∧ (stop s' = true → stop s = true ∨ time_limit opts = true ∨ won p').
Proof.
  intros Hp Hs. destruct p; cbn in Hs; repeat case_match; simplify_eq; cbn in *; try done; try (by split; auto).
  - split; [done|congruence].
  - destruct r; split; auto.
Qed.

Lemma reachable_explained cancelled threads c : reachable cancelled threads c → explained c.
Proof.
  intros Hr. induction Hr as [|c m c' Hr IH Hl Hm]; [by left|]. destruct m as [i p|i e]; cbn in Hl, Hm.
  - destruct (procs c !! i) eqn:Hi; [done|]. injection Hm as <-. intros Hs. cbn in *.
    destruct (IH Hs) as [|[|(j & q & Hj & Hq)]]; [auto..|]. right; right. exists j, q.
    rewrite lookup_insert_ne by congruence. done.
  - destruct (procs c !! i) as [p|] eqn:Hi; [|done]. destruct (worker_step i e (shared c) p) as [[s' p']|] eqn:Hstep; [|done].
    injection Hm as <-. intros Hs. cbn in *. destruct (reachable_seen _ _ _ Hr i p Hi) as [Hp _].
    destruct (step_explained _ _ _ _ _ _ Hp Hstep) as [Hwon Hst]. destruct (step_flags _ _ _ _ _ _ Hstep) as [_ Hc].
    destruct (Hst Hs) as [Hold|[|Hw]]; [|auto|right; right; exists i, p'; by rewrite lookup_insert_eq].
    destruct (IH Hold) as [|[|(j & q & Hj & Hq)]]; [auto..|]. right; right.
    destruct (decide (i = j)) as [->|Hne]; [|by exists j, q; rewrite lookup_insert_ne].
    exists j, p'. rewrite lookup_insert_eq. split; [done|]. apply Hwon. congruence.
Qed.

(** The attempts a worker has made and not yet added to the shared counter. *)
Definition uncounted (p : worker) : Z :=
  match p with
  | WCheck l | WCancel l | WGenerate l | WDeadline l | WStop _ l | WCount _ l | WPanicked l => l
  | _ => 0
  end.

Lemma tally_zero (w : worker → Z) (q : gmap nat worker) : (∀ i p, q !! i = Some p → w p = 0) → tally w q = 0.
Proof.
  induction q as [|i p q Hi IH] using map_ind; intros Hz; [apply tally_empty|].
  rewrite tally_insert_fresh, (Hz i p), IH; [done| |by rewrite lookup_insert_eq|done].
  intros j p' Hj. apply (Hz j). rewrite lookup_insert_ne by congruence. done.
Qed.

Lemma attempts_conserved cancelled threads c :
  reachable cancelled threads c → eq64 (attempts (shared c) - generated (shared c) + tally uncounted (procs c)) 0.
Proof.
  intros Hr. assert (Hz : tally uncounted (procs (initial cancelled threads)) = 0).
  { apply tally_zero. intros i p Hp. by apply initial_procs in Hp as [-> _]. }
  pose proof (reach_conserves worker_step starts eq64 (fun s => attempts s - generated s) uncounted
    (initial cancelled threads) c) as Hc. rewrite Hz in Hc. apply Hc; [| | |exact Hr].
  - intros a b k Hab. unfold eq64 in *. by rewrite Zplus_mod, Hab, <-Zplus_mod.
  - by intros p ->.
  - intros i e s p s' p' Hs. destruct p; cbn in Hs; repeat case_match; simplify_eq; cbn; unfold eq64, fetch_add;
      try (f_equal; lia).
    all: rewrite ?Z.add_0_r, Zminus_mod_idemp_l; f_equal; lia.
Qed.

Definition panicked (c : config flags worker) : Prop := ∃ i l, procs c !! i = Some (WPanicked l).

Definition ended (c : config flags worker) (i : nat) : Prop :=
  (∃ o, procs c !! i = Some (WDone o)) ∨ ∃ l, procs c !! i = Some (WPanicked l).

Lemma join_all_spec c found handles r :
  join_all c found handles = Some r →
  Forall (ended c) handles ∧
  match r with
  | Some kp => found = Some kp ∨ Exists (fun i => procs c !! i = Some (WDone (Some kp))) handles
  | None => found = None ∧ Forall (fun i => ∀ kp, procs c !! i ≠ Some (WDone (Some kp))) handles
  end.
Proof.
  revert found. induction handles as [|i handles IH]; intros found; cbn [join_all].
  { intros [= ->]. split; [done|]. by destruct r; [left|]. }
  destruct (procs c !! i) as [p|] eqn:Hi; [|done]. destruct p as [| | | | | | |[kp|]|l| |]; try done;
    intros [He Hr]%IH; (split; [constructor; [unfold ended; rewrite Hi; eauto|done]|]); destruct r as [kp'|].
  - destruct Hr as [[= <-]|Hr]; right; [by left|by right].
  - by destruct Hr.
  - destruct Hr; [by left|right; by right].
  - destruct Hr. split; [done|]. constructor; [congruence|done].
  - destruct Hr; [by left|right; by right].
  - destruct Hr. split; [done|]. constructor; [congruence|done].
Qed.

Lemma counted_all cancelled threads c :
  reachable cancelled threads c → Forall (ended c) (seq 0 threads) → ¬ panicked c →
  eq64 (attempts (shared c)) (generated (shared c)).
Proof.
  intros Hr He Hp. pose proof (attempts_conserved _ _ _ Hr) as Hc. rewrite tally_zero in Hc.
  - unfold eq64 in *. rewrite Z.add_0_r in Hc. change (0 mod 2 ^ 64) with 0 in Hc. Z.to_euclidean_division_equations; lia.
  - intros i p Hi. destruct (reachable_seen _ _ _ Hr i p Hi) as [_ Hpl].
    destruct (decide (i < threads)%nat) as [Hlt|Hge]; [|by destruct p].
    rewrite Forall_forall in He. destruct (He i) as [[o Ho]|[l Ho]]; [apply elem_of_seq; lia|..]; rewrite Ho in Hi; simplify_eq.
    + done.
    + by destruct Hp; exists i, l.
Qed.

Lemma ended_reason cancelled threads c :
  (0 < threads)%nat → reachable cancelled threads c → Forall (ended c) (seq 0 threads) →
  Forall (fun i => ∀ kp, procs c !! i ≠ Some (WDone (Some kp))) (seq 0 threads) →
  cancel (shared c) = true ∨ time_limit opts = true ∨ panicked c.
Proof.
  intros Ht Hr He Hn. rewrite Forall_forall in He, Hn. pose proof (reachable_seen _ _ _ Hr) as Hseen.
  destruct (He 0%nat) as [[o Ho]|[l Ho]]; [apply elem_of_seq; lia| |right; right; by exists 0%nat, l].
  destruct o as [kp|]; [by destruct (Hn 0%nat ltac:(apply elem_of_seq; lia) kp)|].
  destruct (Hseen _ _ Ho) as [[Hs|] _]; [|by left].
  destruct (reachable_explained _ _ _ Hr Hs) as [|[|(i & p & Hi & Hw)]]; [auto..|]. destruct (Hseen i p Hi) as [_ Hpl].
  assert (i < threads)%nat as Hlt by (destruct p; done). assert (Hin : i ∈ seq 0 threads) by (apply elem_of_seq; lia).
  destruct (He i Hin) as [[o Hi']|[l Hi']]; rewrite Hi' in Hi; simplify_eq; [|done].
  destruct o as [kp|]; [|done]. by destruct (Hn i Hin kp).
Qed.

Context `{!Base32Laws, !KeyLaws}.

Lemma found_has_prefix p cancelled threads c kp :
  vanity_new p = Ok target → reachable cancelled threads c → search c threads = Some (Found kp) →
  (∃ sd, kp = generate_from_seed sd) ∧ starts_with (to_ascii_lowercase p) (address kp) = true.
Proof.
  intros Hp Hr Ho. unfold search in Ho. destruct (join_all c None (seq 0 threads)) as [[kp'|]|] eqn:Hj; try done.
  2: by destruct (cancel (shared c)).
  injection Ho as ->. apply join_all_spec in Hj as [_ [|Hj]]; [done|]. apply Exists_exists in Hj as (i & _ & Hi).
  apply (reachable_seen _ _ _ Hr) in Hi as [[Hm [sd ->]] _]. split; [by exists sd|].
  assert (Hk : is_key (pubkey (generate_from_seed sd))) by apply verifying_key_bytes.
  rewrite (matches_prefix p target _ Hp Hk) in Hm. by destruct (vanity_new_spec _ _ Hp) as (_ & _ & _ & _ & _ & _ & <-).
Qed.

(** When the vanity search returns a key, one of its workers made it and
    the key's onion address starts with the prefix that was asked for; when it
    says that the time is over, no worker found a key and there was a time
    limit (or a worker died), and when it says cancelled the user cancelled;
    the attempts it then reports are all the keys that were made. *)
Theorem search_outcome_is_justified p cancelled threads c o :
  vanity_new p = Ok target → (0 < threads)%nat → reachable cancelled threads c → search c threads = Some o →
  let total a := ¬ panicked c → a mod 2 ^ 64 = generated (shared c) mod 2 ^ 64 in
  match o with
  | Found kp => (∃ sd, kp = generate_from_seed sd) ∧ starts_with (to_ascii_lowercase p) (address kp) = true
  | TimedOut a =>
      (time_limit opts = true ∨ panicked c) ∧ (∀ i kp, procs c !! i ≠ Some (WDone (Some kp))) ∧ total a
  | Cancelled a => cancel (shared c) = true ∧ (∀ i kp, procs c !! i ≠ Some (WDone (Some kp))) ∧ total a
  end.
Proof.
  intros Hp Ht Hr Ho total. unfold search in Ho. destruct (join_all c None (seq 0 threads)) as [r|] eqn:Hj0; [|done].
  pose proof Hj0 as Hj. apply join_all_spec in Hj as [He Hj]. pose proof (reachable_seen _ _ _ Hr) as Hseen. destruct r as [kp|].
  - injection Ho as <-. apply (found_has_prefix p cancelled threads c); [done|done|]. unfold search. by rewrite Hj0.
  - destruct Hj as [_ Hn]. assert (Hnone : ∀ i kp, procs c !! i ≠ Some (WDone (Some kp))).
    { intros i kp Hi. destruct (Hseen _ _ Hi) as [_ Hpl]. rewrite Forall_forall in Hn.
      by apply (Hn i ltac:(apply elem_of_seq; cbn in Hpl; lia) kp). }
    pose proof (ended_reason _ _ _ Ht Hr He Hn) as Hwhy. pose proof (counted_all _ _ _ Hr He) as Hcount.
    destruct (cancel (shared c)) eqn:Hcan; injection Ho as <-.
    + split_and!; [done|done|exact Hcount].
    + split_and!; [by destruct Hwhy|done|exact Hcount].
Qed.
End Search.

(** ** Witnesses *)

Section Witnesses.
#[local] Existing Instance sample_base32.
#[local] Existing Instance sample_keys.
#[local] Existing Instance sample_base32_laws.
#[local] Existing Instance sample_keys_laws.

Definition go (i : nat) : move worker tick := Step i (mkTick (Some [8; 2; 3]) false).

Definition sample_target : VanityTarget := mkTarget (lit "b") 5 1.
Definition sample_options : SearchOptions := mkOptions false true.

(** Two workers; the first finds a key at its first attempt, the second sees
    the stop flag. *)
Definition sample_schedule : list (move worker tick) :=
  [go 0; go 0; go 0; go 0; go 0; go 0; go 1; go 1; go 1].

Definition sample_end : config flags worker :=
  default (initial false 2) (run_schedule (worker_step sample_target sample_options) (initial false 2) sample_schedule).

Lemma search_sample_reached : reachable sample_target sample_options false 2 sample_end.
Proof. apply (run_reach _ _ _ sample_schedule); [by repeat constructor|vm_compute; reflexivity]. Qed.

Lemma search_outcome_is_justified_witness :
  search sample_end 2 = Some (Found (generate_from_seed [8; 2; 3])) ∧
  starts_with (lit "b") (address (generate_from_seed [8; 2; 3])) = true.
Proof.
  assert (Hs : search sample_end 2 = Some (Found (generate_from_seed [8; 2; 3]))) by (vm_compute; reflexivity).
  split; [exact Hs|].
  destruct (search_outcome_is_justified sample_target sample_options (lit "b") false 2 sample_end
    (Found (generate_from_seed [8; 2; 3]))) as [_ Hp];
    [vm_compute; reflexivity|lia|apply search_sample_reached|exact Hs|]. exact Hp.
Defined.
End Witnesses.
End VanitySearch.
