(* ===== verification/OnionKeys.v ===== *)
(** * Onion key commands

    [apps/socks5-proxy/src/commands/onion/commands.rs] and [store.rs]: the
    commands new, list, show, export, import and remove over the keystore
    directory and the user's files. *)

From S2P Require Import Prelude Order Str Utf8 Crates Onion VanitySearch.
Import Onion.
Open Scope Z_scope.

Module OnionKeys.

(** ** The keystore crates *)

(** [tor-keymgr] and [tor-hscrypto]: identity keys, the text of their files,
    their addresses, and the nicknames that are valid. *)
Class KeyMgr : Type := {
  HsIdKeypair : Type;
  key_file_text : HsIdKeypair → list Z;
  parse_key_file : list Z → option HsIdKeypair;
  key_address : HsIdKeypair → str;
  key_of_expanded : list Z → option HsIdKeypair;
  nickname_ok : str → bool;
  (* the order in which a directory is read *)
  listing : gmap str (list Z) → list str;
}.

Class KeyMgrLaws `{KeyMgr} : Prop := {
  key_file_round_trip : ∀ k, parse_key_file (key_file_text k) = Some k;
  listing_perm : ∀ d, listing d ≡ₚ (map_to_list d).*1;
}.

(** ** Directories *)

Abbreviation service := (gmap str (list Z)).

(** The keystore directory, [hss] under it, and the user's own files. *)
Inductive keystore_dir : Type :=
| Absent
| NoServices
| Services (hss : gmap str service).

Record world : Type := mkWorld { keystore : keystore_dir; files : gmap str (list Z) }.

Definition IDENTITY_FILE_PREFIX : str := lit "ks_hs_id.".
Definition KEY_FILE : str := lit "ks_hs_id.ed25519_expanded_private".

Definition services (k : keystore_dir) : gmap str service := match k with Services m => m | _ => ∅ end.

Inductive failure : Type :=
| InvalidNickname
| LockBusy
| OpenFailed
| ReadIdentity
| AlreadyExists
| StoreFailed
| NoKeystore
| NoService
| NoIdentityFile
| OutputExists
| ReadFailed
| WriteFailed
| StageFailed
| NotAKey
| NotConfirmed
| NothingToRemove
| RemoveFailed
| RequiresVanity
| BadPrefix (e : VanityError)
| BadDuration
| TooSlow
| SearchTimedOut
| SearchInterrupted
| InvalidSecret
| AddressMismatch
| ListFailed.

(** What the system does during one command. *)
Record io : Type := mkIo {
  lock_ok : bool;
  open_ok : bool;
  store_ok : bool;
  read_ok : bool;
  (* the throwaway keystore in which an imported file is parsed *)
  stage_ok : bool;
  create_ok : bool;
  (* [None] if everything was written, else the part that was *)
  cut_short : option (list Z);
  (* [None] if the directory was removed, else the files that are left *)
  left_over : option (list str);
}.

(** ** Durations *)

Fixpoint leading_digits (s : str) : str * str :=
  match s with
  | c :: s' => if is_ascii_digit c then let '(a, b) := leading_digits s' in (c :: a, b) else ([], s)
  | [] => ([], [])
  end.

(** In seconds. *)
Definition parse_duration (s : str) : option Z :=
  let '(digits, unit_) := leading_digits s in
  if is_empty digits then None
  else match parse_uint u64_max digits with
  | None => None
  | Some value =>
      match (if is_empty unit_ || str_eqb unit_ (lit "s") then Some 1
             else if str_eqb unit_ (lit "m") then Some 60
             else if str_eqb unit_ (lit "h") then Some 3600 else None) with
      | None => None
      | Some mult => if u64_max <? value * mult then None else if value * mult =? 0 then None else Some (value * mult)
      end
  end.

Lemma leading_digits_spec a b :
  decimal a → (∀ c, head b = Some c → is_ascii_digit c = false) → leading_digits (a ++ b) = (a, b).
Proof.
  intros Ha Hb. induction Ha as [|c a Hc Ha IH]; cbn [app leading_digits].
  - destruct b as [|c b]; [done|]. cbn [leading_digits]. by rewrite (Hb c eq_refl).
  - by rewrite Hc, IH.
Qed.

(** A number with a unit is that many seconds, if they are positive and fit. *)
Lemma parse_duration_exact n unit_ mult :
  0 ≤ n ≤ u64_max → (unit_, mult) ∈ [([], 1); (lit "s", 1); (lit "m", 60); (lit "h", 3600)] →
  parse_duration (to_dec n ++ unit_) = if decide (0 < n * mult ≤ u64_max) then Some (n * mult) else None.
Proof.
  intros Hn Hu. assert (Hd : ∀ c, head unit_ = Some c → is_ascii_digit c = false).
  { rewrite !elem_of_cons in Hu. intros c. destruct_or? Hu; [..|by apply not_elem_of_nil in Hu]; injection Hu as -> ->; by intros [= <-]. }
  unfold parse_duration. rewrite leading_digits_spec by (done || (apply to_dec_decimal; lia)).
  pose proof (to_dec_nonempty n) as Hne. destruct (is_empty (to_dec n)) eqn:He; [by destruct (to_dec n)|].
  rewrite parse_to_dec by done.
  assert (Hm : (if is_empty unit_ || str_eqb unit_ (lit "s") then Some 1
             else if str_eqb unit_ (lit "m") then Some 60
             else if str_eqb unit_ (lit "h") then Some 3600 else None) = Some mult).
  { rewrite !elem_of_cons in Hu. destruct_or? Hu; [..|by apply not_elem_of_nil in Hu]; by injection Hu as -> ->. }
  rewrite Hm. assert (0 ≤ mult).
  { rewrite !elem_of_cons in Hu. destruct_or? Hu; [..|by apply not_elem_of_nil in Hu]; injection Hu as -> ->; lia. }
  destruct (Z.ltb_spec u64_max (n * mult)), (Z.eqb_spec (n * mult) 0); case_decide; done || nia.
Qed.

Section Commands.
Context `{KeyMgr, Base32, KeyCrates}.

(** ** The store *)

Definition service_dir (k : keystore_dir) (nick : str) : service := default ∅ (services k !! nick).

(** [KeyMgr::get] of the identity. *)
Definition get_identity (k : keystore_dir) (nick : str) : result (option HsIdKeypair) failure :=
  match service_dir k nick !! KEY_FILE with
  | None => Ok None
  | Some text => match parse_key_file text with Some key => Ok (Some key) | None => Err ReadIdentity end
  end.

Definition exists_key (k : keystore_dir) (nick : str) : result bool failure :=
  match get_identity k nick with Ok r => Ok (bool_decide (is_Some r)) | Err e => Err e end.

Definition address_of (k : keystore_dir) (nick : str) : result (option str) failure :=
  match get_identity k nick with Ok r => Ok (option_map key_address r) | Err e => Err e end.

(** [open]: the directory is created if it is absent. *)
Definition opened (k : keystore_dir) : keystore_dir := match k with Absent => NoServices | _ => k end.

Definition put (k : keystore_dir) (nick : str) (key : HsIdKeypair) : keystore_dir :=
  Services (<[nick := <[KEY_FILE := key_file_text key]> (service_dir k nick)]> (services k)).

(** [insert] and [generate] of the key manager refuse to replace unless asked. *)
Definition insert_key (e : io) (k : keystore_dir) (nick : str) (key : HsIdKeypair) (overwrite : bool) :
  result keystore_dir failure :=
  match service_dir k nick !! KEY_FILE with
  | Some _ => if negb overwrite then Err StoreFailed else if store_ok e then Ok (put k nick key) else Err StoreFailed
  | None => if store_ok e then Ok (put k nick key) else Err StoreFailed
  end.

Definition identity_file (k : keystore_dir) (nick : str) : option str :=
  match services k !! nick with
  | None => None
  | Some d => head (List.filter (starts_with IDENTITY_FILE_PREFIX) (listing d))
  end.

Definition set_keystore (k : keystore_dir) (w : world) : world := mkWorld k (files w).

(** ** The commands *)

(** What a command prints: the nickname and the address. *)
Abbreviation printed := (str * str)%type.

(** The end of [new]: the address and the file are read back. *)
Definition report (w : world) (nick : str) : result printed failure * world :=
  match address_of (keystore w) nick with
  | Err e => (Err e, w)
  | Ok None => (Err NoService, w)
  | Ok (Some a) => match identity_file (keystore w) nick with Some _ => (Ok (nick, a), w) | None => (Err NoIdentityFile, w) end
  end.

(** The checks that [new] and [import] share. *)
Definition checked (k : keystore_dir) (nick : str) (force : bool) : result unit failure :=
  match exists_key k nick with
  | Err e => Err e
  | Ok true => if force then Ok tt else Err AlreadyExists
  | Ok false => Ok tt
  end.

Definition cmd_new_random (e : io) (random : HsIdKeypair) (w : world) (nick : str) (force : bool) :
  result printed failure * world :=
  if negb (nickname_ok nick) then (Err InvalidNickname, w)
  else if negb (lock_ok e) then (Err LockBusy, w)
  else if negb (open_ok e) then (Err OpenFailed, w)
  else
    let w := set_keystore (opened (keystore w)) w in
    match checked (keystore w) nick force with
    | Err er => (Err er, w)
    | Ok _ =>
        match insert_key e (keystore w) nick random force with
        | Err er => (Err er, w)
        | Ok k => report (set_keystore k w) nick
        end
    end.

(** [searched] is the result of the search; [slow] says that the measured rate
    makes it longer than an hour. *)
Definition cmd_new_vanity (e : io) (slow : bool) (searched : VanityTarget → VanitySearch.SearchOutcome) (w : world)
  (nick : str) (force : bool) (vanity : str) (timeout : option str) : result printed failure * world :=
  if negb (nickname_ok nick) then (Err InvalidNickname, w)
  else if negb (lock_ok e) then (Err LockBusy, w)
  else if negb (open_ok e) then (Err OpenFailed, w)
  else
    let w := set_keystore (opened (keystore w)) w in
    match checked (keystore w) nick force with
    | Err er => (Err er, w)
    | Ok _ =>
    match vanity_new vanity with
    | Err er => (Err (BadPrefix er), w)
    | Ok target =>
    match match timeout with
          | Some s => match parse_duration s with Some d => Ok (Some d) | None => Err BadDuration end
          | None => if slow then Err TooSlow else Ok None
          end with
    | Err er => (Err er, w)
    | Ok _ =>
    match searched target with
    | VanitySearch.TimedOut _ => (Err SearchTimedOut, w)
    | VanitySearch.Cancelled _ => (Err SearchInterrupted, w)
    | VanitySearch.Found kp =>
        match key_of_expanded (to_expanded_bytes kp) with
        | None => (Err InvalidSecret, w)
        | Some key =>
            if negb (str_eqb (key_address key) (address kp)) then (Err AddressMismatch, w)
            else match insert_key e (keystore w) nick key force with
            | Err er => (Err er, w)
            | Ok k => report (set_keystore k w) nick
            end
        end
    end end end end.

Definition cmd_new (e : io) (random : HsIdKeypair) (slow : bool) (searched : VanityTarget → VanitySearch.SearchOutcome)
  (w : world) (nick : str) (force : bool) (vanity : option str) (threads : option Z) (timeout : option str) :
  result printed failure * world :=
  match vanity with
  | None =>
      if bool_decide (is_Some threads) || bool_decide (is_Some timeout) then (Err RequiresVanity, w)
      else cmd_new_random e random w nick force
  | Some v => cmd_new_vanity e slow searched w nick force v timeout
  end.

(** The rows of the table, sorted by name. *)
Definition cmd_list (e : io) (w : world) : result (list printed) failure * world :=
  match keystore w with
  | Absent => (Ok [], w)
  | k =>
      if negb (open_ok e) then (Err OpenFailed, w)
      else match k with
      | Services m =>
          if negb (read_ok e) then (Err ListFailed, w)
          else
          (Ok (omap (fun nick =>
                 if nickname_ok nick then
                   match address_of k nick with Ok (Some a) => Some (nick, a) | _ => None end
                 else None) (sort_by cmp (map_to_list m).*1)), w)
      | _ => (Err ListFailed, w)
      end
  end.

Definition cmd_show (e : io) (w : world) (nick : str) : result printed failure * world :=
  if negb (nickname_ok nick) then (Err InvalidNickname, w)
  else match keystore w with
  | Absent => (Err NoKeystore, w)
  | k =>
      if negb (open_ok e) then (Err OpenFailed, w)
      else match address_of k nick with
      | Err er => (Err er, w)
      | Ok None => (Err NoService, w)
      | Ok (Some a) => (Ok (nick, a), w)
      end
  end.

Definition write_secret_file (e : io) (w : world) (out : str) (text : list Z) : result unit failure * world :=
  if negb (create_ok e) then (Err WriteFailed, w)
  else match cut_short e with
  | Some part => (Err WriteFailed, mkWorld (keystore w) (<[out := part]> (files w)))
  | None => (Ok tt, mkWorld (keystore w) (<[out := text]> (files w)))
  end.

Definition cmd_export (e : io) (w : world) (nick : str) (out : str) (force : bool) : result unit failure * world :=
  if negb (nickname_ok nick) then (Err InvalidNickname, w)
  else match keystore w with
  | Absent => (Err NoKeystore, w)
  | k =>
      if negb (open_ok e) then (Err OpenFailed, w)
      else match exists_key k nick with
      | Err er => (Err er, w)
      | Ok false => (Err NoService, w)
      | Ok true =>
          match identity_file k nick with
          | None => (Err NoIdentityFile, w)
          | Some src =>
              if bool_decide (is_Some (files w !! out)) && negb force then (Err OutputExists, w)
              else match read_ok e, service_dir k nick !! src with
              | true, Some text => write_secret_file e w out text
              | _, _ => (Err ReadFailed, w)
              end
          end
      end
  end.

Definition parse_identity_file (e : io) (text : list Z) : result HsIdKeypair failure :=
  if negb (stage_ok e) then Err StageFailed
  else match parse_key_file text with Some key => Ok key | None => Err NotAKey end.

Definition cmd_import (e : io) (w : world) (nick : str) (file : str) (force : bool) : result printed failure * world :=
  if negb (nickname_ok nick) then (Err InvalidNickname, w)
  else if negb (lock_ok e) then (Err LockBusy, w)
  else match read_ok e, files w !! file with
  | true, Some text =>
      match parse_identity_file e text with
      | Err er => (Err er, w)
      | Ok key =>
          if negb (open_ok e) then (Err OpenFailed, w)
          else
            let w := set_keystore (opened (keystore w)) w in
            match checked (keystore w) nick force with
            | Err er => (Err er, w)
            | Ok _ =>
                match insert_key e (keystore w) nick key force with
                | Err er => (Err er, w)
                | Ok k =>
                    let w := set_keystore k w in
                    match address_of (keystore w) nick with
                    | Err er => (Err er, w)
                    | Ok None => (Err NoService, w)
                    | Ok (Some a) => (Ok (nick, a), w)
                    end
                end
            end
      end
  | _, _ => (Err ReadFailed, w)
  end.

Definition cmd_remove (e : io) (w : world) (nick : str) (yes : bool) : result unit failure * world :=
  if negb (nickname_ok nick) then (Err InvalidNickname, w)
  else if negb yes then (Err NotConfirmed, w)
  else if negb (lock_ok e) then (Err LockBusy, w)
  else match services (keystore w) !! nick with
  | None => (Err NothingToRemove, w)
  | Some d =>
      match left_over e with
      | None => (Ok tt, set_keystore (Services (delete nick (services (keystore w)))) w)
      | Some names =>
          (Err RemoveFailed,
           set_keystore (Services (<[nick := filter (fun f => f.1 ∈ names) d]> (services (keystore w)))) w)
      end
  end.

Inductive OnionAction : Type :=
| New (nick : str) (force : bool) (vanity : option str) (threads : option Z) (timeout : option str)
| List
| Show (nick : str)
| Export (nick : str) (out : str) (force : bool)
| Import (nick : str) (file : str) (force : bool)
| Remove (nick : str) (yes : bool).

Definition one {A} (f : A → list printed) (r : result A failure * world) : result (list printed) failure * world :=
  match r with (Ok a, w) => (Ok (f a), w) | (Err er, w) => (Err er, w) end.

Definition run (e : io) (random : HsIdKeypair) (slow : bool) (searched : VanityTarget → VanitySearch.SearchOutcome)
  (w : world) (action : OnionAction) : result (list printed) failure * world :=
  match action with
  | New nick force vanity threads timeout =>
      one (fun p => [p]) (cmd_new e random slow searched w nick force vanity threads timeout)
  | List => one id (cmd_list e w)
  | Show nick => one (fun p => [p]) (cmd_show e w nick)
  | Export nick out force => one (fun _ => []) (cmd_export e w nick out force)
  | Import nick file force => one (fun p => [p]) (cmd_import e w nick file force)
  | Remove nick yes => one (fun _ => []) (cmd_remove e w nick yes)
  end.

(** ** Identities *)

(** The file with the identity of [nick]. *)
Definition identity (w : world) (nick : str) : option (list Z) := service_dir (keystore w) nick !! KEY_FILE.

Lemma opened_services k : services (opened k) = services k.
Proof. by destruct k. Qed.

Lemma opened_identity w nick : identity (set_keystore (opened (keystore w)) w) nick = identity w nick.
Proof. unfold identity, service_dir. cbn. by rewrite opened_services. Qed.

Lemma put_identity w k nick key nick' :
  identity (set_keystore (put k nick key) w) nick' =
  if decide (nick' = nick) then Some (key_file_text key) else identity (set_keystore k w) nick'.
Proof.
  unfold identity, service_dir, put. cbn. case_decide as Hn.
  - subst. rewrite lookup_insert_eq. cbn. by rewrite lookup_insert_eq.
  - by rewrite lookup_insert_ne.
Qed.

(** What an insertion does to the identities. *)
Lemma insert_key_spec e k nick key force k' :
  insert_key e k nick key force = Ok k' →
  k' = put k nick key ∧ (service_dir k nick !! KEY_FILE = None ∨ force = true).
Proof.
  unfold insert_key. destruct (service_dir k nick !! KEY_FILE) as [text|]; [destruct force; cbn; [|done]|];
    destruct (store_ok e); try done; intros [= <-]; auto.
Qed.

Definition changes_only (w w' : world) (nick : str) (force : bool) : Prop :=
  ∀ n, identity w' n ≠ identity w n → n = nick ∧ (identity w n = None ∨ force = true).

Lemma changes_only_refl w w' nick force : (∀ n, identity w' n = identity w n) → changes_only w w' nick force.
Proof. intros Heq n Hn. by destruct Hn. Qed.

Lemma inserted_changes e w nick key force k' :
  insert_key e (opened (keystore w)) nick key force = Ok k' → changes_only w (set_keystore k' w) nick force.
Proof.
  intros (-> & Hold)%insert_key_spec n. rewrite put_identity, opened_identity. case_decide as Hn; [|done]. subst. intros _.
  split; [done|]. destruct Hold as [Hold|]; [left|by right]. by rewrite <-(opened_identity w).
Qed.

Context `{!KeyMgrLaws}.

Lemma put_get k nick key : get_identity (put k nick key) nick = Ok (Some key).
Proof.
  unfold get_identity, service_dir, put. cbn [services]. rewrite lookup_insert_eq. cbn [default from_option id].
  by rewrite lookup_insert_eq, key_file_round_trip.
Qed.

Lemma put_identity_file k nick key : is_Some (identity_file (put k nick key) nick).
Proof.
  unfold identity_file, put. cbn [services]. rewrite lookup_insert_eq.
  set (d := (<[KEY_FILE := key_file_text key]> (service_dir k nick) : service)).
  assert (Hin : KEY_FILE ∈ List.filter (starts_with IDENTITY_FILE_PREFIX) (listing d)).
  { apply list_elem_of_In, filter_In. split; [|vm_compute; reflexivity]. apply list_elem_of_In. rewrite listing_perm.
    apply list_elem_of_fmap. exists (KEY_FILE, key_file_text key). split; [done|]. apply elem_of_map_to_list.
    apply lookup_insert_eq. }
  destruct (List.filter _ (listing d)) as [|f l]; [by apply not_elem_of_nil in Hin|]. by exists f.
Qed.

Lemma report_stored w nick key k :
  report (set_keystore (put k nick key) (set_keystore (opened (keystore w)) w)) nick =
  (Ok (nick, key_address key), set_keystore (put k nick key) w).
Proof.
  unfold report, address_of. cbn [keystore set_keystore]. rewrite put_get. cbn [option_map].
  by destruct (put_identity_file k nick key) as [f ->].
Qed.

(** What [new] and [import] promise: they change no identity but the one
    named, and that one only if there was none or on demand; without the lock
    they change nothing; the key they print is one of [K] and is the one
    stored; when they fail they change no identity. *)
Definition keeps_promise (e : io) (w : world) (nick : str) (force : bool) (K : HsIdKeypair → Prop)
  (r : result printed failure * world) : Prop :=
  changes_only w r.2 nick force ∧ (lock_ok e = false → r.2 = w) ∧
  match r.1 with
  | Ok p => ∃ key, K key ∧ p = (nick, key_address key) ∧ get_identity (keystore r.2) nick = Ok (Some key)
  | Err _ => ∀ n, identity r.2 n = identity w n
  end.

Lemma unchanged_promise e w w' nick force K er :
  (∀ n, identity w' n = identity w n) → (lock_ok e = false → w' = w) → keeps_promise e w nick force K (Err er, w').
Proof. intros Hi Hw. split_and!; [by apply changes_only_refl|done|done]. Qed.

Lemma opened_promise e w nick force K er :
  lock_ok e = true → keeps_promise e w nick force K (Err er, set_keystore (opened (keystore w)) w).
Proof. intros Hl. apply unchanged_promise; [intros; apply opened_identity|by rewrite Hl]. Qed.

Lemma stored_promise e w nick force (K : HsIdKeypair → Prop) key k' r :
  lock_ok e = true → K key → insert_key e (opened (keystore w)) nick key force = Ok k' →
  (k' = put (opened (keystore w)) nick key → r = (Ok (nick, key_address key), set_keystore k' w)) →
  keeps_promise e w nick force K r.
Proof.
  intros Hl HK Hi Hr. pose proof (inserted_changes _ _ _ _ _ _ Hi) as Hc. apply insert_key_spec in Hi as [-> _].
  rewrite (Hr eq_refl). split_and!; [exact Hc|by rewrite Hl|]. exists key. split_and!; [done|done|apply put_get].
Qed.


(** The key the search found, as the key manager reads it. *)
Definition mined (searched : VanityTarget → VanitySearch.SearchOutcome) (vanity : str) (key : HsIdKeypair) : Prop :=
  ∃ target kp, vanity_new vanity = Ok target ∧ searched target = VanitySearch.Found kp ∧
    key_of_expanded (to_expanded_bytes kp) = Some key ∧ key_address key = address kp.

Lemma new_vanity_promise e slow searched w nick force vanity timeout :
  keeps_promise e w nick force (mined searched vanity) (cmd_new_vanity e slow searched w nick force vanity timeout).
Proof.
  unfold cmd_new_vanity. destruct (nickname_ok nick); cbn [negb]; [|by apply unchanged_promise].
  destruct (lock_ok e) eqn:Hl; cbn [negb]; [|by apply unchanged_promise].
  destruct (open_ok e); cbn [negb]; [|by apply unchanged_promise].
  destruct (checked _ nick force) as [[]|er]; [|by apply opened_promise].
  destruct (vanity_new vanity) as [target|er] eqn:Hv; [|by apply opened_promise].
  set (limit := match timeout with Some _ => _ | None => _ end). destruct limit; [|by apply opened_promise].
  destruct (searched target) as [kp| |] eqn:Hs; [|by apply opened_promise..].
  destruct (key_of_expanded _) as [key|] eqn:Hk; [|by apply opened_promise].
  destruct (str_eqb (key_address key) (address kp)) eqn:Ha; cbn [negb]; [|by apply opened_promise].
  destruct (insert_key _ _ _ _ _) as [k'|er] eqn:Hi; [|by apply opened_promise].
  eapply stored_promise; [done| |exact Hi|intros ->; apply report_stored].
  exists target, kp. split_and!; [done..|]. by apply bool_decide_eq_true in Ha.
Qed.

Lemma parse_identity_spec e text key :
  parse_identity_file e text = Ok key ↔ stage_ok e = true ∧ parse_key_file text = Some key.
Proof.
  unfold parse_identity_file. destruct (stage_ok e); cbn [negb]; [|split; [done|by intros [? _]]].
  destruct (parse_key_file text); split; [intros [= ->]|intros [_ [= ->]]|..]; naive_solver.
Qed.







(** ** Export and import *)

(** The identity is the only file of the service whose name has the prefix. *)
Definition sole_identity (k : keystore_dir) (nick : str) : Prop :=
  ∀ f, is_Some (service_dir k nick !! f) → starts_with IDENTITY_FILE_PREFIX f = true → f = KEY_FILE.

Lemma identity_file_sole k nick f : sole_identity k nick → identity_file k nick = Some f → f = KEY_FILE.
Proof.
  intros Hs. unfold identity_file. destruct (services k !! nick) as [d|] eqn:Hd; [|done]. intros Hh.
  assert (Hin : f ∈ List.filter (starts_with IDENTITY_FILE_PREFIX) (listing d)).
  { destruct (List.filter _ _); simplify_eq/=. apply list_elem_of_here. }
  apply list_elem_of_In, filter_In in Hin as [Hin Hp]. apply list_elem_of_In in Hin. rewrite listing_perm in Hin.
  apply list_elem_of_fmap in Hin as ([f' text] & -> & Hin). apply elem_of_map_to_list in Hin.
  apply Hs; [|done]. unfold service_dir. rewrite Hd. by exists text.
Qed.

Lemma export_spec e w nick out force w1 :
  sole_identity (keystore w) nick → cmd_export e w nick out force = (Ok tt, w1) →
  ∃ key text, get_identity (keystore w) nick = Ok (Some key) ∧ parse_key_file text = Some key ∧
    w1 = mkWorld (keystore w) (<[out := text]> (files w)) ∧ (is_Some (files w !! out) → force = true).
Proof.
  intros Hs. unfold cmd_export. destruct (nickname_ok nick); [cbn [negb]|done].
  destruct (keystore w) as [| |m] eqn:Hk; [done|..]; rewrite <-Hk in *.
  all: destruct (open_ok e); [cbn [negb]|done]; unfold exists_key.
  all: destruct (get_identity (keystore w) nick) as [[key|]|] eqn:Hg; cbn [bool_decide]; try done; rewrite ?bool_decide_false by (by intros []); try done.
  all: rewrite bool_decide_true by done; destruct (identity_file (keystore w) nick) as [f|] eqn:Hf; [|done].
  all: apply (identity_file_sole _ _ _ Hs) in Hf as ->; unfold get_identity in Hg.
  all: destruct (bool_decide (is_Some (files w !! out)) && negb force) eqn:Hex; [done|].
  all: destruct (read_ok e), (service_dir (keystore w) nick !! KEY_FILE) as [text|]; try done.
  all: destruct (parse_key_file text) as [key'|] eqn:Hp; [|done]; injection Hg as ->; unfold write_secret_file.
  all: destruct (create_ok e); [|done]; destruct (cut_short e); [done|]; intros [= <-]; exists key, text.
  all: split_and!; try done; intros Hsome; rewrite bool_decide_true in Hex by done; by destruct force.
Qed.

Lemma import_restores e w nick file force text key :
  nickname_ok nick = true → lock_ok e = true → read_ok e = true → stage_ok e = true → open_ok e = true → store_ok e = true →
  files w !! file = Some text → parse_key_file text = Some key → identity w nick = None →
  cmd_import e w nick file force = (Ok (nick, key_address key), set_keystore (put (opened (keystore w)) nick key) w).
Proof.
  intros Hn Hl Hrd Hst Ho Hs Hf Hp Hi. unfold cmd_import. rewrite Hn, Hl, Hrd, Hf. cbn [negb].
  rewrite (proj2 (parse_identity_spec e text key) (conj Hst Hp)), Ho. cbn [negb keystore set_keystore].
  rewrite <-(opened_identity w) in Hi. unfold identity in Hi. cbn [keystore set_keystore] in Hi.
  unfold checked, exists_key, get_identity at 1. rewrite Hi. rewrite bool_decide_false by (by intros []).
  unfold insert_key. rewrite Hi, Hs. unfold address_of. cbn [keystore set_keystore]. by rewrite put_get.
Qed.

(** An exported identity can be restored: a successful export writes only
    the output file, over an existing one only with [--force], and whenever
    that file is later imported, under any nickname without an identity and
    into any key store, the import prints the same address and stores the same
    key. *)
Theorem export_import_restores e w nick out force w1 :
  sole_identity (keystore w) nick → cmd_export e w nick out force = (Ok tt, w1) →
  ∃ key, get_identity (keystore w) nick = Ok (Some key) ∧ keystore w1 = keystore w ∧
    (∀ f, f ≠ out → files w1 !! f = files w !! f) ∧ (is_Some (files w !! out) → force = true) ∧
    ∀ e' w2 nick2 force2,
      files w2 !! out = files w1 !! out → identity w2 nick2 = None → nickname_ok nick2 = true →
      lock_ok e' = true → read_ok e' = true → stage_ok e' = true → open_ok e' = true → store_ok e' = true →
      ∃ w3, cmd_import e' w2 nick2 out force2 = (Ok (nick2, key_address key), w3) ∧
        get_identity (keystore w3) nick2 = Ok (Some key).
Proof.
  intros Hs (key & text & Hg & Hp & -> & Hforce)%export_spec; [|done]. exists key. cbn [keystore files].
  split_and!; [done|done|intros f Hf; by rewrite lookup_insert_ne|done|]. intros e' w2 nick2 force2. rewrite lookup_insert_eq.
  intros Hf Hi Hn Hl Hr Hst Ho Hstore. eexists. split; [by eapply import_restores|]. apply put_get.
Qed.

(** ** Vanity keys *)

(** The search ended with [o] in some run of its threads. *)
Definition search_returned (target : VanityTarget) (o : VanitySearch.SearchOutcome) : Prop :=
  ∃ opts cancelled threads c, VanitySearch.reachable target opts cancelled threads c ∧ VanitySearch.search c threads = Some o.

(** What [new --vanity] saves is what was asked for: if it succeeds, after
    whatever run of the search threads, the printed address starts with the
    prefix in lower case, it is the address of the key now stored under the
    nickname, and that key was generated from a seed by the search. *)
Theorem saved_vanity_key_has_the_prefix `{!Base32Laws, !KeyLaws} e slow searched w nick force vanity timeout p w' :
  (∀ target, vanity_new vanity = Ok target → search_returned target (searched target)) →
  cmd_new_vanity e slow searched w nick force vanity timeout = (Ok p, w') →
  ∃ sd key, p = (nick, key_address key) ∧ starts_with (to_ascii_lowercase vanity) (key_address key) = true ∧
    get_identity (keystore w') nick = Ok (Some key) ∧
    key_of_expanded (to_expanded_bytes (generate_from_seed sd)) = Some key.
Proof.
  intros Hsearch Hr. pose proof (new_vanity_promise e slow searched w nick force vanity timeout) as (_ & _ & Hok).
  rewrite Hr in Hok. destruct Hok as (key & (target & kp & Hv & Hfound & Hkey & Ha) & -> & Hg).
  destruct (Hsearch target Hv) as (opts & can & threads & c & Hreach & Hs). rewrite Hfound in Hs.
  destruct (VanitySearch.found_has_prefix _ _ _ _ _ _ _ Hv Hreach Hs) as [[sd ->] Hp].
  exists sd, key. split_and!; [done|by rewrite Ha|done|done].
Qed.

(** ** Listing *)

(** On a machine without a key store [list] reports no services, but after
    a [new --vanity] that was refused for its prefix it fails: opening the key
    store created the directory and nothing created [hss] in it. *)
Theorem refused_vanity_breaks_list e random slow searched w nick force vanity threads timeout er :
  keystore w = Absent → nickname_ok nick = true → lock_ok e = true → open_ok e = true →
  vanity_new vanity = Err er →
  (run e random slow searched w List).1 = Ok [] ∧
  let r := run e random slow searched w (New nick force (Some vanity) threads timeout) in
  r.1 = Err (BadPrefix er) ∧ (run e random slow searched r.2 List).1 = Err ListFailed.
Proof.
  intros Hk Hn Hl Ho Hv. unfold run at 1, cmd_list. rewrite Hk. split; [done|]. cbn [run cmd_new].
  unfold cmd_new_vanity. rewrite Hn, Hl, Ho. cbn [negb set_keystore keystore]. rewrite Hk. cbn [opened].
  change (checked NoServices nick force) with (Ok tt : result unit failure). cbv iota. rewrite Hv.
  split; [done|]. cbn [one snd]. unfold cmd_list. cbn [keystore set_keystore]. by rewrite Ho.
Qed.
End Commands.

(** ** Witnesses *)

Section Witnesses.
#[local] Existing Instance sample_base32.
#[local] Existing Instance sample_keys.
#[local] Existing Instance sample_base32_laws.
#[local] Existing Instance sample_keys_laws.

(** A key is its expanded secret; its file has a byte in front; a nickname is
    any text that is not empty. *)
Definition sample_keymgr : KeyMgr := {|
  HsIdKeypair := list Z;
  key_file_text k := 7 :: k;
  parse_key_file t := match t with 7 :: k => Some k | _ => None end;
  key_address k := onion_address (verifying_key k);
  key_of_expanded l := Some l;
  nickname_ok n := negb (is_empty n);
  listing d := (map_to_list d).*1;
|}.
#[local] Existing Instance sample_keymgr.

Lemma sample_keymgr_laws : KeyMgrLaws.
Proof. by split. Qed.
#[local] Existing Instance sample_keymgr_laws.

Definition fine : io := mkIo true true true true true true None None.
Definition empty_world : world := mkWorld Absent ∅.
Definition random_key : list Z := [8; 2; 3].
Definition no_search (t : VanityTarget) : VanitySearch.SearchOutcome := VanitySearch.TimedOut 0.
Definition one_service : world := mkWorld (put Absent (lit "svc") random_key) ∅.


Lemma export_import_restores_witness :
  ∃ w1 w3, cmd_export fine one_service (lit "svc") (lit "out") false = (Ok tt, w1) ∧
    cmd_import fine w1 (lit "copy") (lit "out") false = (Ok (lit "copy", key_address random_key), w3).
Proof.
  destruct (cmd_export fine one_service (lit "svc") (lit "out") false) as [r w1] eqn:Hx.
  assert (Hr : r = Ok tt) by (apply (f_equal fst) in Hx; cbn [fst] in Hx; rewrite <-Hx; vm_compute; reflexivity). subst r.
  assert (Hs : sole_identity (keystore one_service) (lit "svc")).
  { intros f Hf _. apply dec_stable. intros Hne. unfold one_service, service_dir, put in Hf. cbn [keystore services] in Hf.
    rewrite lookup_insert_eq in Hf. cbn [default from_option id] in Hf. rewrite lookup_insert_ne in Hf by congruence.
    vm_compute in Hf. by destruct Hf. }
  destruct (export_import_restores _ _ _ _ _ _ Hs Hx) as (key & Hg & Hk & _ & _ & Himp).
  assert (Hkey : key = random_key) by (vm_compute in Hg; injection Hg as <-; reflexivity). subst key.
  destruct (Himp fine w1 (lit "copy") false) as (w3 & Hi & _);
    try reflexivity; [unfold identity; rewrite Hk; vm_compute; reflexivity|].
  exists w1, w3. split; [reflexivity|exact Hi].
Defined.

(** The run of the search of [VanitySearch.sample_end]. *)
Definition searched_b (t : VanityTarget) : VanitySearch.SearchOutcome :=
  VanitySearch.Found (generate_from_seed [8; 2; 3]).

Lemma saved_vanity_key_has_the_prefix_witness :
  ∃ w' key, cmd_new_vanity fine false searched_b empty_world (lit "svc") false (lit "B") None =
      (Ok (lit "svc", key_address key), w') ∧ starts_with (lit "b") (key_address key) = true.
Proof.
  destruct (cmd_new_vanity fine false searched_b empty_world (lit "svc") false (lit "B") None) as [r w'] eqn:Hr.
  assert (Hp : ∃ p, r = Ok p).
  { apply (f_equal fst) in Hr. cbn [fst] in Hr. rewrite <-Hr. eexists. vm_compute. reflexivity. }
  destruct Hp as [p ->].
  destruct (saved_vanity_key_has_the_prefix fine false searched_b empty_world (lit "svc") false (lit "B") None p w')
    as (sd & key & -> & Hp & _ & _); [|exact Hr|].
  - intros target Ht. assert (Hb : target = VanitySearch.sample_target) by (vm_compute in Ht; injection Ht as <-; reflexivity). subst target.
    exists VanitySearch.sample_options, false, 2%nat, VanitySearch.sample_end.
    split; [exact VanitySearch.search_sample_reached|vm_compute; reflexivity].
  - exists w', key. split; [reflexivity|exact Hp].
Defined.

Lemma refused_vanity_breaks_list_witness :
  (run fine random_key false no_search
    (run fine random_key false no_search empty_world (New (lit "svc") false (Some (lit "b0")) None None)).2 List).1 = Err ListFailed.
Proof.
  refine (proj2 (proj2 (refused_vanity_breaks_list fine random_key false no_search empty_world (lit "svc") false (lit "b0")
    None None (InvalidCharacter 48) _ _ _ _ _))); vm_compute; reflexivity.
Defined.
End Witnesses.

End OnionKeys.
