(* ===== verification/OnionLife.v ===== *)
(** * The lifetime of published onion services

    [apps/socks5-proxy/src/commands/onion/service/mod.rs]: the producer task
    that holds the key store's lock, one manager per service with its retries
    and its serving and status tasks, and the [onion] commands of other
    processes that wait for the same lock
    ([packages/persist-lock/src/path_lock.rs]). *)

From S2P Require Import Prelude Str Utf8 Crates ConfigSections Onion OnionKeys.
Import ConfigSections.
Open Scope Z_scope.

Module OnionLife.

(** ** State *)

(** Milliseconds. *)
Definition RETRY_DELAY_INITIAL : Z := 30000.
Definition RETRY_DELAY_MAX : Z := 300000.
Definition ADDRESS_POLL_INTERVAL : Z := 1000.
Definition ADDRESS_WAIT_LIMIT : Z := 120000.
Definition POLL_INTERVAL : Z := 50.
Definition CLI_LOCK_WAIT : Z := 60000.

Inductive holder : Type :=
| Server
| Cli (j : nat).

(** Points of [PathLock::acquire_bounded]. *)
Inductive acquiring : Type :=
| TryLock (deadline : Z)
| Pause (deadline wake : Z).

Inductive producer_pc : Type :=
| Acquire (a : acquiring)
| SpawnManagers (k : nat)
| JoinManagers (k : nat)
| Release
| Over.

Inductive reason : Type :=
| InvalidNickname
| InvalidConfig
| ShuttingDown
| TorGone
| Rejected
| NoAddress
| Served.

(** Points of [service_manager]; [failed] counts the launches that failed. *)
Inductive manager_pc : Type :=
| NotSpawned
| Begin
| Tunnel (delay : Z) (failed : nat)
| Launch (delay : Z) (failed : nat)
| Sleep (delay wake : Z) (failed : nat)
| Address (deadline : Z)
| PollAddress (deadline wake : Z)
| StartTasks
| Serve
| JoinServing
| JoinStatus
| Stopped (why : reason).

#[export] Instance reason_eq_dec : EqDecision reason.
Proof. solve_decision. Defined.
#[export] Instance manager_pc_eq_dec : EqDecision manager_pc.
Proof. solve_decision. Defined.

Inductive task : Type :=
| NotStarted
| Running
| Finished.

Record manager : Type := mkManager { entry : OnionServiceEntry; pc : manager_pc; serving : task; status : task }.

Inductive command_pc : Type :=
| Waiting (a : acquiring)
| Mutate
| Exited.

Record state : Type := mkState {
  now : Z;
  token : bool;
  lock : option holder;
  producer : producer_pc;
  managers : list manager;
  commands : gmap nat command_pc;
}.

Inductive launched : Type :=
| LaunchOk
| LaunchRefused
| LaunchError.

(** What the environment decides at a step. *)
Record event : Type := mkEvent {
  lock_error : bool;
  config_ok : bool;
  (* [None] while the slot is locked, [Some false] when Tor is gone *)
  tunnel : option bool;
  launch : launched;
  address_known : bool;
  stream_ended : bool;
  elapsed : Z;
}.

Inductive actor : Type :=
| Producer
| Manager (k : nat)
| Serving (k : nat)
| Status (k : nat)
| Command (j : nat)
| Shutdown
| Clock.

(** ** Steps *)

Definition set_producer (p : producer_pc) (st : state) : state :=
  mkState (now st) (token st) (lock st) p (managers st) (commands st).
Definition set_lock (l : option holder) (st : state) : state :=
  mkState (now st) (token st) l (producer st) (managers st) (commands st).
Definition set_manager (k : nat) (m : manager) (st : state) : state :=
  mkState (now st) (token st) (lock st) (producer st) (<[k := m]> (managers st)) (commands st).
Definition set_command (j : nat) (c : command_pc) (st : state) : state :=
  mkState (now st) (token st) (lock st) (producer st) (managers st) (<[j := c]> (commands st)).
Definition set_pc (p : manager_pc) (m : manager) : manager := mkManager (entry m) p (serving m) (status m).

(** One round of the bounded wait: still waiting, or whether it got the lock. *)
Definition acquire_bounded (e : event) (st : state) (a : acquiring) : option (acquiring + bool) :=
  match a with
  | TryLock deadline =>
      if lock_error e then Some (inr false)
      else match lock st with
      | None => Some (inr true)
      | Some _ => if deadline <=? now st then Some (inr false) else Some (inl (Pause deadline (now st + POLL_INTERVAL)))
      end
  | Pause deadline wake => if wake <=? now st then Some (inl (TryLock deadline)) else None
  end.

Definition is_stopped (m : manager) : bool := match pc m with Stopped _ => true | _ => false end.

(** [run_services] *)
Definition producer_step (e : event) (st : state) : option state :=
  match producer st with
  | Acquire a =>
      match acquire_bounded e st a with
      | None => None
      | Some (inl a') => Some (set_producer (Acquire a') st)
      | Some (inr true) => Some (set_producer (SpawnManagers 0) (set_lock (Some Server) st))
      | Some (inr false) => Some (set_producer Over st)
      end
  | SpawnManagers k =>
      match managers st !! k with
      | Some m => Some (set_producer (SpawnManagers (S k)) (set_manager k (set_pc Begin m) st))
      | None => Some (set_producer (JoinManagers 0) st)
      end
  | JoinManagers k =>
      match managers st !! k with
      | Some m => if is_stopped m then Some (set_producer (JoinManagers (S k)) st) else None
      | None => Some (set_producer Release st)
      end
  | Release => Some (set_producer Over (set_lock None st))
  | Over => None
  end.

Definition next_delay (delay : Z) : Z := Z.min (delay * 2) RETRY_DELAY_MAX.

Section Steps.
Context `{OnionKeys.KeyMgr}.

(** [service_manager] with [wait_for_address] *)
Definition manager_step (e : event) (st : state) (m : manager) : option manager :=
  let goto p := Some (set_pc p m) in
  match pc m with
  | NotSpawned => None
  | Begin =>
      if negb (OnionKeys.nickname_ok (nickname (entry m))) then goto (Stopped InvalidNickname)
      else if negb (config_ok e) then goto (Stopped InvalidConfig)
      else goto (Tunnel RETRY_DELAY_INITIAL 0)
  | Tunnel d n =>
      if token st then goto (Stopped ShuttingDown)
      else match tunnel e with
      | None => None
      | Some false => goto (Stopped TorGone)
      | Some true => goto (Launch d n)
      end
  | Launch d n =>
      match launch e with
      | LaunchOk => goto (Address (now st + ADDRESS_WAIT_LIMIT))
      | LaunchRefused => goto (Stopped Rejected)
      | LaunchError => goto (Sleep d (now st + d) n)
      end
  | Sleep d wake n =>
      if token st then goto (Stopped ShuttingDown)
      else if wake <=? now st then goto (Tunnel (next_delay d) (S n)) else None
  | Address deadline =>
      if address_known e then goto StartTasks
      else if deadline <=? now st then goto (Stopped NoAddress)
      else goto (PollAddress deadline (now st + ADDRESS_POLL_INTERVAL))
  | PollAddress deadline wake =>
      if token st then goto (Stopped ShuttingDown) else if wake <=? now st then goto (Address deadline) else None
  | StartTasks => Some (mkManager (entry m) Serve Running Running)
  | Serve => if token st then goto JoinServing else None
  | JoinServing => match serving m with Finished => goto JoinStatus | _ => None end
  | JoinStatus => match status m with Finished => goto (Stopped Served) | _ => None end
  | Stopped _ => None
  end.

(** The loops of [serve_service] and [log_status_events] end on cancellation
    or with their stream. *)
Definition task_step (e : event) (st : state) (t : task) : option task :=
  match t with
  | Running => Some (if token st || stream_ended e then Finished else Running)
  | _ => None
  end.

(** A command that mutates the key store: it waits for the lock, works, and
    drops it. *)
Definition command_step (j : nat) (e : event) (st : state) : option state :=
  match commands st !! j with
  | None => Some (set_command j (Waiting (TryLock (now st + CLI_LOCK_WAIT))) st)
  | Some (Waiting a) =>
      match acquire_bounded e st a with
      | None => None
      | Some (inl a') => Some (set_command j (Waiting a') st)
      | Some (inr true) => Some (set_command j Mutate (set_lock (Some (Cli j)) st))
      | Some (inr false) => Some (set_command j Exited st)
      end
  | Some Mutate => Some (set_command j Exited (set_lock None st))
  | Some Exited => None
  end.

Definition with_manager (k : nat) (st : state) (f : manager → option manager) : option state :=
  match managers st !! k with
  | None => None
  | Some m => match f m with Some m' => Some (set_manager k m' st) | None => None end
  end.

Definition step (a : actor) (e : event) (st : state) : option state :=
  match a with
  | Producer => producer_step e st
  | Manager k => with_manager k st (manager_step e st)
  | Serving k =>
      with_manager k st (fun m => option_map (fun t => mkManager (entry m) (pc m) t (status m)) (task_step e st (serving m)))
  | Status k =>
      with_manager k st (fun m => option_map (fun t => mkManager (entry m) (pc m) (serving m) t) (task_step e st (status m)))
  | Command j => command_step j e st
  | Shutdown => Some (mkState (now st) true (lock st) (producer st) (managers st) (commands st))
  | Clock => Some (mkState (now st + Z.max 0 (elapsed e)) (token st) (lock st) (producer st) (managers st) (commands st))
  end.

(** [spawn_services]: nothing is started unless a service is enabled. *)
Definition spawn_services (start : Z) (holding : option nat) (entries : list OnionServiceEntry) : option state :=
  let enabled_entries := List.filter enabled entries in
  if is_empty enabled_entries then None
  else Some (mkState start false (Cli <$> holding) (Acquire (TryLock (start + CLI_LOCK_WAIT)))
    (map (fun en => mkManager en NotSpawned NotStarted NotStarted) enabled_entries)
    (match holding with Some j => {[ j := Mutate ]} | None => ∅ end)).

Inductive steps (st : state) : state → Prop :=
| steps_here : steps st st
| steps_next a e st1 st2 : steps st st1 → step a e st1 = Some st2 → steps st st2.

Definition reachable (entries : list OnionServiceEntry) (st : state) : Prop :=
  ∃ start holding st0, spawn_services start holding entries = Some st0 ∧ steps st0 st.

(** ** Published services *)

(** A clone of the [RunningOnionService] is alive in the manager or in the
    serving task. *)
Definition holds_service (p : manager_pc) : bool :=
  match p with Address _ | PollAddress _ _ | StartTasks | Serve | JoinServing | JoinStatus => true | _ => false end.

Definition published (m : manager) : Prop := holds_service (pc m) = true ∨ serving m = Running.

Definition server_holds (p : producer_pc) : bool :=
  match p with SpawnManagers _ | JoinManagers _ | Release => true | _ => false end.

(** The tasks a manager started run only while it waits for them. *)
Definition tasks_ok (m : manager) : Prop :=
  match pc m with
  | Serve | JoinServing => serving m ≠ NotStarted ∧ status m ≠ NotStarted
  | JoinStatus => serving m = Finished ∧ status m ≠ NotStarted
  | _ => serving m ≠ Running ∧ status m ≠ Running
  end.

(** Where manager [k] can be, as the producer goes. *)
Definition in_place (p : producer_pc) (k : nat) (m : manager) : Prop :=
  match p with
  | Acquire _ => pc m = NotSpawned
  | SpawnManagers n => (k < n)%nat ↔ pc m ≠ NotSpawned
  | JoinManagers n => pc m ≠ NotSpawned ∧ ((k < n)%nat → is_stopped m = true)
  | Release => is_stopped m = true
  | Over => pc m = NotSpawned ∨ is_stopped m = true
  end.

Definition lock_ok (st : state) : Prop :=
  (server_holds (producer st) = true ↔ lock st = Some Server) ∧
  (∀ j, commands st !! j = Some Mutate ↔ lock st = Some (Cli j)).

Definition good (st : state) : Prop :=
  lock_ok st ∧ ∀ k m, managers st !! k = Some m → tasks_ok m ∧ in_place (producer st) k m.

(** A manager that moves stays where its producer expects it. *)
Lemma manager_step_ok e st m m' p k :
  manager_step e st m = Some m' → tasks_ok m → in_place p k m → tasks_ok m' ∧ in_place p k m'.
Proof.
  unfold manager_step, tasks_ok, in_place, is_stopped. intros Hs Ht Hp. destruct m as [en pcm se sta]; cbn in *.
  destruct p, pcm; cbn in *; repeat case_match; simplify_eq/=; naive_solver.
Qed.

Lemma acquired_free e st a : acquire_bounded e st a = Some (inr true) → lock st = None.
Proof. unfold acquire_bounded. intros Hq. by repeat case_match; simplify_eq. Qed.

Lemma lock_ok_free st : lock_ok st → lock st = None → server_holds (producer st) = false ∧ ∀ j, commands st !! j ≠ Some Mutate.
Proof.
  intros [Hs Hc] Hn. split.
  - apply not_true_is_false. rewrite Hs. by rewrite Hn.
  - intros j Hj. apply Hc in Hj. by rewrite Hn in Hj.
Qed.

Lemma spawn_good st k :
  good st → producer st = SpawnManagers k →
  match managers st !! k with
  | Some m => good (set_producer (SpawnManagers (S k)) (set_manager k (set_pc Begin m) st))
  | None => good (set_producer (JoinManagers 0) st)
  end.
Proof.
  intros [[Hs Hc] Hm] Hp. rewrite Hp in *. destruct (managers st !! k) as [m|] eqn:Hk; (split; [by split|]); cbn.
  - intros j m'. destruct (Hm _ _ Hk) as [Ht Hpl]. cbn in Hpl.
    assert (Hpc : pc m = NotSpawned) by (apply dec_stable; intros ?%Hpl; lia). unfold tasks_ok in Ht. rewrite Hpc in Ht.
    rewrite list_lookup_insert_Some. intros [(<- & <- & _)|[Hne Hj]].
    + cbn. split; [exact Ht|]. split; [done|lia].
    + destruct (Hm _ _ Hj) as [Htj Hplj]. split; [done|]. cbn in *. rewrite <-Hplj. lia.
  - intros j m Hj. destruct (Hm _ _ Hj) as [Htj Hplj]. split; [done|]. cbn in *. split; [|lia]. apply Hplj.
    apply lookup_lt_Some in Hj. apply lookup_ge_None in Hk. lia.
Qed.

Lemma join_good st k :
  good st → producer st = JoinManagers k →
  match managers st !! k with
  | Some m => is_stopped m = true → good (set_producer (JoinManagers (S k)) st)
  | None => good (set_producer Release st)
  end.
Proof.
  intros [[Hs Hc] Hm] Hp. rewrite Hp in *. destruct (managers st !! k) as [m|] eqn:Hk; [intros Hst|]; (split; [by split|]); cbn.
  - intros j m' Hj. destruct (Hm _ _ Hj) as [Ht [Hn Hl]]. split; [done|]. split; [done|]. intros Hlt.
    destruct (decide (j = k)) as [->|]; [congruence|]. apply Hl. lia.
  - intros j m Hj. destruct (Hm _ _ Hj) as [Ht [Hn Hl]]. split; [done|]. apply Hl.
    apply lookup_lt_Some in Hj. apply lookup_ge_None in Hk. lia.
Qed.

Lemma producer_good e st st' : good st → producer_step e st = Some st' → good st'.
Proof.
  intros Hg. unfold producer_step. destruct (producer st) as [a|k|k| |] eqn:Hp; [..|done].
  - destruct (acquire_bounded e st a) as [[a'|[]]|] eqn:Ha; intros [= <-].
    + destruct Hg as [[Hs Hc] Hm]. rewrite Hp in *. by split; [split|].
    + destruct Hg as [Hl Hm]. apply acquired_free in Ha. destruct (lock_ok_free _ Hl Ha) as [_ Hc]. split; [split; [done|]|].
      * intros j. cbn. split; [by intros ?%Hc|done].
      * intros j m Hj. destruct (Hm _ _ Hj) as [Ht Hpl]. rewrite Hp in Hpl. cbn in *. split; [done|]. split; [lia|by rewrite Hpl].
    + destruct Hg as [[Hs Hc] Hm]. rewrite Hp in *. split; [by split|]. intros j m Hj. destruct (Hm _ _ Hj) as [Ht Hpl].
      split; [done|]. by left.
  - pose proof (spawn_good _ _ Hg Hp) as Hn. by destruct (managers st !! k); intros [= <-].
  - pose proof (join_good _ _ Hg Hp) as Hn. destruct (managers st !! k) as [m|]; [destruct (is_stopped m)|]; intros [= <-]; auto.
  - intros [= <-]. destruct Hg as [[Hs Hc] Hm]. rewrite Hp in *. split; [split|]; cbn.
    + done.
    + intros j. split; [|done]. intros Hj%Hc. by rewrite (proj1 Hs eq_refl) in Hj.
    + intros j m Hj. destruct (Hm _ _ Hj) as [Ht Hpl]. split; [done|]. by right.
Qed.

Lemma with_manager_good st k f st' :
  good st → with_manager k st f = Some st' →
  (∀ m m', managers st !! k = Some m → f m = Some m' → tasks_ok m → in_place (producer st) k m →
    tasks_ok m' ∧ in_place (producer st) k m') →
  good st'.
Proof.
  intros [Hl Hm] Hw Hf. unfold with_manager in Hw. destruct (managers st !! k) as [m|] eqn:Hk; [|done].
  destruct (f m) as [m'|] eqn:Hfm; [|done]. injection Hw as <-. split; [done|]. intros j mj. cbn.
  rewrite list_lookup_insert_Some. intros [(<- & <- & _)|[_ Hj]]; [|by apply Hm].
  destruct (Hm _ _ Hk) as [Ht Hp]. by apply (Hf m m').
Qed.

Lemma task_step_ok e st t t' : task_step e st t = Some t' → t = Running ∧ t' ≠ NotStarted.
Proof. destruct t; cbn; try done. intros [= <-]. by case_match. Qed.

Lemma command_good j e st st' : good st → command_step j e st = Some st' → good st'.
Proof.
  intros [Hl Hm]. unfold command_step. destruct (commands st !! j) as [[a| |]|] eqn:Hj; [..|done|].
  - destruct (acquire_bounded e st a) as [[a'|[]]|] eqn:Ha; intros [= <-]; (split; [|done]).
    + destruct Hl as [Hs Hc]. split; [done|]. intros i. cbn. rewrite <-Hc. destruct (decide (i = j)) as [->|].
      { rewrite lookup_insert_eq, Hj. done. } by rewrite lookup_insert_ne.
    + apply acquired_free in Ha. destruct (lock_ok_free _ Hl Ha) as [Hs Hc]. split; cbn; [by rewrite Hs|].
      intros i. destruct (decide (i = j)) as [->|]; [by rewrite lookup_insert_eq|]. rewrite lookup_insert_ne by done.
      split; [by intros ?%Hc|congruence].
    + destruct Hl as [Hs Hc]. split; [done|]. intros i. cbn. rewrite <-Hc. destruct (decide (i = j)) as [->|].
      { rewrite lookup_insert_eq, Hj. done. } by rewrite lookup_insert_ne.
  - intros [= <-]. split; [|done]. destruct Hl as [Hs Hc]. pose proof (proj1 (Hc j) Hj) as Hlk. split; cbn.
    + rewrite Hs, Hlk. done.
    + intros i. split; [|done]. destruct (decide (i = j)) as [->|]; [by rewrite lookup_insert_eq|].
      rewrite lookup_insert_ne, Hc, Hlk by done. congruence.
  - intros [= <-]. split; [|done]. destruct Hl as [Hs Hc]. split; [done|]. intros i. cbn. rewrite <-Hc.
    destruct (decide (i = j)) as [->|]; [by rewrite lookup_insert_eq, Hj|by rewrite lookup_insert_ne].
Qed.

Lemma step_good a e st st' : good st → step a e st = Some st' → good st'.
Proof.
  intros Hg. destruct a as [|k|k|k|j| |]; cbn [step].
  - by apply producer_good.
  - intros Hw. apply (with_manager_good _ _ _ _ Hg Hw). intros m m' _ Hs Ht Hp. by eapply manager_step_ok.
  - intros Hw. apply (with_manager_good _ _ _ _ Hg Hw). intros m m' _ Hs Ht Hp.
    destruct (task_step e st (serving m)) as [t|] eqn:Hk; [|done]. injection Hs as <-. apply task_step_ok in Hk as [Hk Hn].
    split; [unfold tasks_ok in *; cbn; rewrite Hk in Ht; by destruct (pc m); naive_solver|exact Hp].
  - intros Hw. apply (with_manager_good _ _ _ _ Hg Hw). intros m m' _ Hs Ht Hp.
    destruct (task_step e st (status m)) as [t|] eqn:Hk; [|done]. injection Hs as <-. apply task_step_ok in Hk as [Hk Hn].
    split; [unfold tasks_ok in *; cbn; rewrite Hk in Ht; by destruct (pc m); naive_solver|exact Hp].
  - by apply command_good.
  - by intros [= <-].
  - by intros [= <-].
Qed.

Lemma spawned_good start holding entries st : spawn_services start holding entries = Some st → good st.
Proof.
  unfold spawn_services. destruct (is_empty _); [done|]. intros [= <-]. split; [split; cbn|].
  - by destruct holding.
  - intros j. destruct holding as [i|]; cbn; [|by rewrite lookup_empty]. rewrite lookup_singleton_Some. naive_solver.
  - intros k m Hk. cbn in Hk. rewrite list_lookup_fmap in Hk. destruct (List.filter _ _ !! k); [|done].
    injection Hk as <-. done.
Qed.

Lemma steps_good st st' : good st → steps st st' → good st'.
Proof. intros Hg Hs. induction Hs; [done|]. by eapply step_good. Qed.

Lemma life_good entries st : reachable entries st → good st.
Proof. intros (start & holding & st0 & H0 & Hs). eapply steps_good; [|exact Hs]. by eapply spawned_good. Qed.

Lemma published_live m : tasks_ok m → published m → pc m ≠ NotSpawned ∧ is_stopped m = false.
Proof. unfold published, tasks_ok, is_stopped. destruct (pc m); cbn; naive_solver. Qed.

(** C31: The key store is locked for as long as a service is published:
    whenever a manager or its serving task holds a running service, the server
    holds the lock, so no [onion] command of another process is changing keys. *)
Theorem published_means_locked entries st k m :
  reachable entries st → managers st !! k = Some m → published m →
  lock st = Some Server ∧ ∀ j, commands st !! j ≠ Some Mutate.
Proof.
  intros Hr Hk Hp. destruct (life_good _ _ Hr) as [[Hs Hc] Hm]. destruct (Hm _ _ Hk) as [Ht Hpl].
  destruct (published_live _ Ht Hp) as [Hpc Hst]. assert (Hh : lock st = Some Server).
  { apply Hs. destruct (producer st); cbn in *; naive_solver congruence. }
  split; [done|]. intros j Hj%Hc. by rewrite Hh in Hj.
Qed.

(** ** Shutdown *)

Definition server_actor (a : actor) : bool :=
  match a with Producer | Manager _ | Serving _ | Status _ => true | _ => false end.

(** The steps each part still has to make once the token is cancelled. *)
Definition task_rank (t : task) : nat := match t with Finished => 0 | _ => 1 end.

Definition pc_rank (p : manager_pc) : nat :=
  match p with
  | Launch _ _ => 8
  | Address _ => 7
  | StartTasks => 6
  | Serve => 3
  | NotSpawned | Begin | JoinServing => 2
  | Tunnel _ _ | Sleep _ _ _ | PollAddress _ _ | JoinStatus => 1
  | Stopped _ => 0
  end.

Definition manager_rank (m : manager) : nat := (pc_rank (pc m) + task_rank (serving m) + task_rank (status m))%nat.

Definition producer_rank (n : nat) (p : producer_pc) : nat :=
  match p with
  | Acquire _ => 2 * n + 4
  | SpawnManagers k => (n - k) + n + 3
  | JoinManagers k => (n - k) + 2
  | Release => 1
  | Over => 0
  end.

Definition work (st : state) : nat :=
  (producer_rank (length (managers st)) (producer st) + sum_list_with manager_rank (managers st))%nat.

Lemma sum_list_insert (f : manager → nat) l k m m' :
  l !! k = Some m → (sum_list_with f (<[k := m']> l) + f m = sum_list_with f l + f m')%nat.
Proof.
  revert k. induction l as [|x l IH]; intros [|k] Hk; simplify_eq/=; [lia|]. specialize (IH _ Hk). lia.
Qed.

Lemma with_manager_work k st f st' :
  with_manager k st f = Some st' → (∀ m m', f m = Some m' → manager_rank m' < manager_rank m)%nat → (work st' < work st)%nat.
Proof.
  intros Hw Hf. unfold with_manager in Hw. destruct (managers st !! k) as [m|] eqn:Hk; [|done].
  destruct (f m) as [m'|] eqn:Hm; [|done]. injection Hw as <-. unfold work. cbn. rewrite length_insert.
  pose proof (sum_list_insert manager_rank _ _ _ m' Hk). apply Hf in Hm. lia.
Qed.

Lemma manager_step_rank e st m m' : token st = true → manager_step e st m = Some m' → (manager_rank m' < manager_rank m)%nat.
Proof.
  intros Ht. unfold manager_step, manager_rank. destruct m as [en p se sta]. cbn. rewrite Ht.
  destruct p, se, sta; cbn; intros Hs; repeat case_match; simplify_eq/=; lia.
Qed.

Lemma task_step_rank e st t t' : token st = true → task_step e st t = Some t' → (task_rank t' < task_rank t)%nat.
Proof. intros Ht. destruct t; cbn; rewrite ?Ht; [done| |done]. intros [= <-]. cbn. lia. Qed.

Lemma producer_step_work e st st' :
  (∀ a, producer st ≠ Acquire a) → good st → producer_step e st = Some st' → (work st' < work st)%nat.
Proof.
  intros Hna [_ Hm]. unfold producer_step, work. destruct (producer st) as [a|k|k| |]; [by destruct (Hna a)|..|done].
  - destruct (managers st !! k) as [m|] eqn:Hk; intros [= <-]; cbn.
    + rewrite length_insert. pose proof (sum_list_insert manager_rank _ _ _ (set_pc Begin m) Hk) as Hsum.
      destruct (Hm _ _ Hk) as [_ Hpl]. cbn in Hpl.
      assert (Hpc : pc m = NotSpawned) by (apply dec_stable; intros ?%Hpl; lia).
      unfold manager_rank at 2 4 in Hsum. cbn in Hsum. rewrite Hpc in Hsum. cbn in Hsum. apply lookup_lt_Some in Hk. lia.
    + apply lookup_ge_None in Hk. lia.
  - destruct (managers st !! k) as [m|] eqn:Hk; [destruct (is_stopped m); [|done]|]; intros [= <-]; cbn.
    + apply lookup_lt_Some in Hk. lia.
    + lia.
  - intros [= <-]. cbn. lia.
Qed.

Lemma server_step_work a e st st' :
  token st = true → (∀ q, producer st ≠ Acquire q) → good st → server_actor a = true → step a e st = Some st' →
  (work st' < work st)%nat.
Proof.
  intros Ht Hna Hg Ha. destruct a as [|k|k|k| | |]; try done; cbn [step].
  - by apply producer_step_work.
  - intros Hw. apply (with_manager_work _ _ _ _ Hw). intros m m'. by apply manager_step_rank.
  - intros Hw. apply (with_manager_work _ _ _ _ Hw). intros m m' Hs.
    destruct (task_step e st (serving m)) as [t|] eqn:Hk; [|done]. injection Hs as <-. apply task_step_rank in Hk; [|done].
    unfold manager_rank. cbn. lia.
  - intros Hw. apply (with_manager_work _ _ _ _ Hw). intros m m' Hs.
    destruct (task_step e st (status m)) as [t|] eqn:Hk; [|done]. injection Hs as <-. apply task_step_rank in Hk; [|done].
    unfold manager_rank. cbn. lia.
Qed.

Lemma other_step_work a e st st' : server_actor a = false → step a e st = Some st' → work st' = work st.
Proof.
  intros Ha. destruct a as [| | | |j| |]; try done; cbn [step]; [|by intros [= <-]..].
  unfold command_step. intros Hs. by repeat case_match; simplify_eq.
Qed.

(** A manager that has not stopped can move, or a task it waits for can. *)
Lemma manager_can_move st k m :
  token st = true → managers st !! k = Some m → pc m ≠ NotSpawned → is_stopped m = false → tasks_ok m →
  ∃ a, server_actor a = true ∧ ∀ e, ∃ st', step a e st = Some st'.
Proof.
  intros Ht Hk Hn Hst Hok.
  assert (Hcase : (∀ e, ∃ m', manager_step e st m = Some m') ∨ serving m = Running ∨ status m = Running).
  { unfold manager_step, is_stopped, tasks_ok in *. destruct m as [en p se sta]. cbn in *. rewrite Ht.
    destruct p; try done; try (by left; intros e; repeat case_match; eauto).
    - destruct se; [by destruct Hok|by right; left|left; eauto].
    - destruct sta; [by destruct Hok|by right; right|left; eauto]. }
  destruct Hcase as [Hm|[Hr|Hr]].
  - exists (Manager k). split; [done|]. intros e. destruct (Hm e) as [m' Hm']. cbn. unfold with_manager. rewrite Hk, Hm'. eauto.
  - exists (Serving k). split; [done|]. intros e. cbn. unfold with_manager. rewrite Hk, Hr. cbn. eauto.
  - exists (Status k). split; [done|]. intros e. cbn. unfold with_manager. rewrite Hk, Hr. cbn. eauto.
Qed.

Lemma producer_progress st :
  good st → token st = true → (∀ q, producer st ≠ Acquire q) → producer st ≠ Over →
  ∃ a, server_actor a = true ∧ ∀ e, ∃ st', step a e st = Some st'.
Proof.
  intros [_ Hm] Ht Hna Hno. assert (Hp : (∀ e, ∃ st', producer_step e st = Some st') ∨
    ∃ k m, producer st = JoinManagers k ∧ managers st !! k = Some m ∧ is_stopped m = false).
  { unfold producer_step. destruct (producer st) as [q|k|k| |]; [by destruct (Hna q)|..|done].
    - left. intros e. destruct (managers st !! k); eauto.
    - destruct (managers st !! k) as [m|] eqn:Hk; [destruct (is_stopped m) eqn:Hst|]; eauto 10.
    - left. eauto. }
  destruct Hp as [Hp|(k & m & Hp & Hk & Hst)]; [by exists Producer|].
  destruct (Hm _ _ Hk) as [Hok Hpl]. rewrite Hp in Hpl. destruct Hpl as [Hn _]. by apply (manager_can_move st k m).
Qed.

(** Once the token is cancelled the services shut down: as long as the
    producer has not ended some task of the server can make a step whatever
    the environment does, each step of the server's tasks brings the end
    nearer, no other step puts it off, and at the end no service is published
    and the server does not hold the lock. *)
Theorem cancelled_services_end entries st :
  reachable entries st → token st = true → (∀ q, producer st ≠ Acquire q) →
  (∀ a e st', step a e st = Some st' →
    if server_actor a then (work st' < work st)%nat else work st' = work st) ∧
  (producer st ≠ Over → ∃ a, server_actor a = true ∧ ∀ e, ∃ st', step a e st = Some st') ∧
  (producer st = Over → lock st ≠ Some Server ∧ ∀ k m, managers st !! k = Some m → ¬ published m).
Proof.
  intros Hr Ht Hna. pose proof (life_good _ _ Hr) as Hg. split; [|split].
  - intros a e st' Hs. destruct (server_actor a) eqn:Ha; [by eapply server_step_work|by eapply other_step_work].
  - by apply producer_progress.
  - intros Ho. destruct Hg as [[Hs _] Hm]. rewrite Ho in *. split; [by rewrite <-Hs|]. intros k m Hk.
    destruct (Hm _ _ Hk) as [Htk Hpl]. intros Hp. destruct (published_live _ Htk Hp). by destruct Hpl; congruence.
Qed.

(** ** Retries *)

(** The delay after [n] failed launches. *)
Definition backoff (n : nat) : Z := Z.min (RETRY_DELAY_INITIAL * 2 ^ Z.of_nat n) RETRY_DELAY_MAX.

Lemma backoff_next n : next_delay (backoff n) = backoff (S n).
Proof.
  unfold next_delay, backoff, RETRY_DELAY_MAX, RETRY_DELAY_INITIAL. rewrite Nat2Z.inj_succ, Z.pow_succ_r by lia.
  pose proof (Z.pow_pos_nonneg 2 (Z.of_nat n)). lia.
Qed.

Definition delay_ok (st : state) (p : manager_pc) : Prop :=
  match p with
  | Tunnel d n | Launch d n => d = backoff n
  | Sleep d wake n => d = backoff n ∧ wake ≤ now st + d
  | _ => True
  end.

Definition delays_ok (st : state) : Prop := ∀ k m, managers st !! k = Some m → delay_ok st (pc m).

Lemma manager_step_delay e st m m' : manager_step e st m = Some m' → delay_ok st (pc m) → delay_ok st (pc m').
Proof.
  unfold manager_step. destruct m as [en p se sta]. destruct p; cbn; intros Hs Hd; repeat case_match; simplify_eq/=; try done.
  destruct Hd as [-> _]. by apply backoff_next.
Qed.

Lemma delay_later st st' p : now st ≤ now st' → delay_ok st p → delay_ok st' p.
Proof. intros Hn. destruct p; cbn; try done. intros [-> Hw]. split; [done|]. lia. Qed.

Lemma step_delays a e st st' : delays_ok st → step a e st = Some st' → delays_ok st'.
Proof.
  intros Hd. assert (Hwith : ∀ k f, with_manager k st f = Some st' →
    (∀ m m', f m = Some m' → delay_ok st (pc m) → delay_ok st (pc m')) → delays_ok st').
  { intros k f Hw Hf. unfold with_manager in Hw. destruct (managers st !! k) as [m|] eqn:Hk; [|done].
    destruct (f m) as [m'|] eqn:Hfm; [|done]. injection Hw as <-. intros j mj. cbn. rewrite list_lookup_insert_Some.
    intros [(<- & <- & _)|[_ Hj]]; [by eapply (Hf m), Hd|by eapply Hd]. }
  destruct a as [|k|k|k|j| |]; cbn [step].
  - unfold producer_step. intros Hs. repeat case_match; simplify_eq; try done.
    intros j mj. cbn. rewrite list_lookup_insert_Some. intros [(_ & <- & _)|[_ Hj]]; [done|by eapply Hd].
  - intros Hs. apply (Hwith _ _ Hs). intros m m'. apply manager_step_delay.
  - intros Hs. apply (Hwith _ _ Hs). intros m m' Hm. destruct (task_step e st (serving m)); [|done]. by injection Hm as <-.
  - intros Hs. apply (Hwith _ _ Hs). intros m m' Hm. destruct (task_step e st (status m)); [|done]. by injection Hm as <-.
  - unfold command_step. intros Hs. by repeat case_match; simplify_eq.
  - by intros [= <-].
  - intros [= <-] k m Hk. apply (delay_later st); [cbn; lia|by eapply Hd].
Qed.

Lemma reachable_delays entries st : reachable entries st → delays_ok st.
Proof.
  intros (start & holding & st0 & H0 & Hs). induction Hs as [|a e st1 st2 _ IH Hstep]; [|by eapply step_delays].
  unfold spawn_services in H0. destruct (is_empty _); [done|]. injection H0 as <-. intros j mj Hj. cbn in Hj.
  rewrite list_lookup_fmap in Hj. destruct (List.filter _ _ !! j); [|done]. by injection Hj as <-.
Qed.

(** Launches that fail are retried with a bounded back-off: after the
    [n]-th failure in a row the manager sleeps for half a minute doubled [n]
    times but never for more than five minutes, and unless the token is
    cancelled it then tries again. *)
Theorem launches_back_off entries st k m d wake n :
  reachable entries st → managers st !! k = Some m → pc m = Sleep d wake n →
  d = Z.min (30000 * 2 ^ Z.of_nat n) 300000 ∧ wake ≤ now st + d ∧
  (token st = false → wake ≤ now st →
    ∀ e, step (Manager k) e st = Some (set_manager k (set_pc (Tunnel (Z.min (30000 * 2 ^ Z.of_nat (S n)) 300000) (S n)) m) st)).
Proof.
  intros Hr Hk Hp. pose proof (reachable_delays _ _ Hr) as Hd.
  specialize (Hd _ _ Hk). rewrite Hp in Hd. destruct Hd as [Hd Hw]. split; [exact Hd|]. split; [done|]. intros Ht Hn e.
  cbn [step]. unfold with_manager, manager_step. rewrite Hk, Hp, Ht. cbn [negb].
  destruct (Z.leb_spec wake (now st)); [|lia]. by rewrite Hd, backoff_next.
Qed.

Lemma with_manager_stays j f st st' k m why :
  with_manager j st f = Some st' → (∀ m1 m2, f m1 = Some m2 → pc m1 = Stopped why → pc m2 = Stopped why) →
  managers st !! k = Some m → pc m = Stopped why → ∃ m', managers st' !! k = Some m' ∧ pc m' = Stopped why.
Proof.
  intros Hw Hf Hk Hp. unfold with_manager in Hw. destruct (managers st !! j) as [mj|] eqn:Hj; [|done].
  destruct (f mj) as [mj'|] eqn:Hfm; [|done]. injection Hw as <-. cbn [managers set_manager].
  destruct (decide (j = k)) as [->|]; [|exists m; by rewrite list_lookup_insert_ne].
  exists mj'. split; [by apply list_lookup_insert_eq; eapply lookup_lt_Some|]. apply (Hf _ _ Hfm). congruence.
Qed.

(** A manager that stopped does not start again. *)
Lemma stopped_stays a e st st' k m why :
  good st → managers st !! k = Some m → pc m = Stopped why → step a e st = Some st' →
  ∃ m', managers st' !! k = Some m' ∧ pc m' = Stopped why.
Proof.
  intros [_ Hm] Hk Hp. destruct a as [|j|j|j|j| |]; cbn [step].
  - unfold producer_step. intros Hs. destruct (producer st) as [q|n|n| |] eqn:Hpr; [|destruct (managers st !! n) as [mn|] eqn:Hn|..].
    2: { injection Hs as <-. cbn [managers set_producer set_manager]. destruct (Hm _ _ Hn) as [_ Hpl]. cbn in Hpl.
      exists m. split; [|done]. rewrite list_lookup_insert_ne; [done|]. intros Heq.
      assert (n < n)%nat by (apply Hpl; congruence). lia. }
    all: exists m; split; [|done]; repeat case_match; simplify_eq; exact Hk.
  - intros Hs. apply (with_manager_stays _ _ _ _ k m why Hs); [|done..]. intros m1 m2 Hm1 Hpc. unfold manager_step in Hm1.
    by rewrite Hpc in Hm1.
  - intros Hs. apply (with_manager_stays _ _ _ _ k m why Hs); [|done..]. intros m1 m2 Hm1 Hpc.
    destruct (task_step _ _ _); [|done]. by injection Hm1 as <-.
  - intros Hs. apply (with_manager_stays _ _ _ _ k m why Hs); [|done..]. intros m1 m2 Hm1 Hpc.
    destruct (task_step _ _ _); [|done]. by injection Hm1 as <-.
  - unfold command_step. intros Hs. exists m. split; [|done]. repeat case_match; simplify_eq; exact Hk.
  - intros [= <-]. by exists m.
  - intros [= <-]. by exists m.
Qed.

(** A service whose address does not appear within the limit is given up:
    its manager stops although nothing is shutting down, the service is no
    longer published, and whatever happens later it is not launched again. *)
Theorem late_address_ends_the_service entries st k m deadline e :
  reachable entries st → managers st !! k = Some m → pc m = Address deadline → deadline ≤ now st → address_known e = false →
  ∃ st1 m1, step (Manager k) e st = Some st1 ∧ token st1 = token st ∧ managers st1 !! k = Some m1 ∧ ¬ published m1 ∧
    ∀ st2, steps st1 st2 → ∃ m2, managers st2 !! k = Some m2 ∧ pc m2 = Stopped NoAddress.
Proof.
  intros Hr Hk Hp Hd Ha. pose proof (life_good _ _ Hr) as Hg. destruct (proj2 Hg _ _ Hk) as [Ht _].
  set (m1 := set_pc (Stopped NoAddress) m). set (st1 := set_manager k m1 st).
  assert (Hs : step (Manager k) e st = Some st1).
  { cbn [step]. unfold with_manager, manager_step. rewrite Hk, Hp, Ha. destruct (Z.leb_spec deadline (now st)); [done|lia]. }
  assert (Hk1 : managers st1 !! k = Some m1) by (unfold st1; cbn; apply list_lookup_insert_eq; exact (lookup_lt_Some _ _ _ Hk)).
  exists st1, m1. split; [done|]. split; [done|]. split; [done|]. split.
  - unfold tasks_ok in Ht. rewrite Hp in Ht. intros [|Hrun]; [done|]. exact (proj1 Ht Hrun).
  - intros st2 H12. apply (step_good _ _ _ _ Hg) in Hs. clearbody st1.
    induction H12 as [|a e' s1 s2 H1 (m2 & Hm2 & Hpc2) Hstep]; [by exists m1|].
    by apply (stopped_stays a e' s1 s2 k m2); [eapply steps_good|..].
Qed.

(** ** Runs *)

Fixpoint run_steps (l : list (actor * event)) (st : state) : option state :=
  match l with
  | [] => Some st
  | (a, e) :: l' => match step a e st with Some st' => run_steps l' st' | None => None end
  end.

Lemma steps_first st a e st1 st2 : step a e st = Some st1 → steps st1 st2 → steps st st2.
Proof. intros H1 H2. induction H2; [by econstructor; [constructor|]|by econstructor]. Qed.

Lemma run_steps_steps l st st' : run_steps l st = Some st' → steps st st'.
Proof.
  revert st. induction l as [|[a e] l IH]; cbn; intros st; [intros [= <-]; constructor|].
  destruct (step a e st) as [st1|] eqn:Hs; [|done]. intros Hr. eapply steps_first; [exact Hs|by apply IH].
Qed.
End Steps.

(** ** Witnesses *)

Section Witnesses.
#[local] Existing Instance Onion.sample_base32.
#[local] Existing Instance Onion.sample_keys.
#[local] Existing Instance OnionKeys.sample_keymgr.

Definition calm : event := mkEvent false true (Some true) LaunchOk true false 0.
Definition failing : event := mkEvent false true (Some true) LaunchError false false 30000.
Definition late : event := mkEvent false true (Some true) LaunchOk false false 120000.

Definition one_entry : list OnionServiceEntry :=
  [mkService (lit "svc") true 4 [mkPort 80 (lit "127.0.0.1:8080")]; mkService (lit "off") false 4 []].

(** The state after a run from a fresh start. *)
Definition after (l : list (actor * event)) : state :=
  match spawn_services 0 None one_entry with
  | Some st0 => default st0 (run_steps l st0)
  | None => mkState 0 false None Over [] ∅
  end.

Lemma after_reachable l :
  bool_decide (is_Some (match spawn_services 0 None one_entry with Some st0 => run_steps l st0 | None => None end)) = true →
  reachable one_entry (after l).
Proof.
  intros Hb%bool_decide_eq_true. unfold after. destruct (spawn_services 0 None one_entry) as [st0|] eqn:H0; [|by destruct Hb].
  destruct Hb as [st Hst]. rewrite Hst. exists 0, None, st0. split; [done|]. by apply run_steps_steps in Hst.
Qed.

Definition started : list (actor * event) := [(Producer, calm); (Producer, calm); (Producer, calm); (Manager 0, calm); (Manager 0, calm)].
Definition serve_run : list (actor * event) := started ++ [(Manager 0, calm); (Manager 0, calm); (Manager 0, calm); (Command 7, calm)].
Definition cancelled_run : list (actor * event) := serve_run ++ [(Shutdown, calm); (Serving 0, calm)].
Definition failed_run : list (actor * event) := started ++ [(Manager 0, failing); (Clock, failing)].
Definition late_run : list (actor * event) := started ++ [(Manager 0, late); (Clock, late)].

Definition manager_of (st : state) : manager := default (mkManager (mkService [] false 0 []) NotSpawned NotStarted NotStarted) (managers st !! 0%nat).

Lemma published_means_locked_witness :
  pc (manager_of (after serve_run)) = Serve ∧ lock (after serve_run) = Some Server.
Proof.
  split; [vm_compute; reflexivity|].
  refine (proj1 (published_means_locked one_entry (after serve_run) 0 (manager_of (after serve_run)) _ _ _)).
  - apply after_reachable. vm_compute. reflexivity.
  - vm_compute. reflexivity.
  - left. vm_compute. reflexivity.
Defined.

Lemma cancelled_services_end_witness :
  producer (after cancelled_run) = JoinManagers 0 ∧
  ∃ a, server_actor a = true ∧ ∀ e, ∃ st', step a e (after cancelled_run) = Some st'.
Proof.
  assert (Hp : producer (after cancelled_run) = JoinManagers 0) by (vm_compute; reflexivity). split; [exact Hp|].
  refine (proj1 (proj2 (cancelled_services_end one_entry (after cancelled_run) _ _ _)) _).
  - apply after_reachable. vm_compute. reflexivity.
  - vm_compute. reflexivity.
  - intros q. rewrite Hp. discriminate.
  - rewrite Hp. discriminate.
Defined.

Lemma launches_back_off_witness : pc (manager_of (after failed_run)) = Sleep 30000 30000 0 ∧ 30000 = Z.min (30000 * 2 ^ 0) 300000.
Proof.
  assert (Hp : pc (manager_of (after failed_run)) = Sleep 30000 30000 0) by (vm_compute; reflexivity). split; [exact Hp|].
  refine (proj1 (launches_back_off one_entry (after failed_run) 0 (manager_of (after failed_run)) 30000 30000 0 _ _ Hp)).
  - apply after_reachable. vm_compute. reflexivity.
  - vm_compute. reflexivity.
Defined.

Lemma late_address_ends_the_service_witness :
  ∃ st1 m1, step (Manager 0) late (after late_run) = Some st1 ∧ token st1 = false ∧ managers st1 !! 0%nat = Some m1 ∧ ¬ published m1.
Proof.
  destruct (late_address_ends_the_service one_entry (after late_run) 0 (manager_of (after late_run)) 120000 late)
    as (st1 & m1 & Hs & Ht & Hm & Hp & _).
  - apply after_reachable. vm_compute. reflexivity.
  - vm_compute. reflexivity.
  - vm_compute. reflexivity.
  - vm_compute. discriminate.
  - reflexivity.
  - exists st1, m1. split; [exact Hs|]. split; [rewrite Ht; vm_compute; reflexivity|]. split; [exact Hm|exact Hp].
Defined.
End Witnesses.
End OnionLife.
