(* ===== verification/OnionServe.v ===== *)
(** * Serving the streams of an onion service

    [apps/socks5-proxy/src/commands/onion/service/serve.rs]: the loop over
    rendezvous requests, the loop over the stream requests of each circuit,
    the semaphore they share, the connection tasks and the status log. *)

From S2P Require Import Prelude Interleave Str Utf8 Crates ConfigSections.
Import ConfigSections(OnionServicePort, mkPort, onion_port, port_target).
Open Scope Z_scope.

Module OnionServe.

(** ** Ports *)

Definition MAX_CONCURRENT_STREAMS : Z := 256.

Inductive IncomingStreamRequest : Type :=
| BeginStream (port : Z)
| BeginDir
| Resolve.

Record stream_request : Type := mkRequest { sid : nat; request : IncomingStreamRequest }.

(** Collecting into a [HashMap]: a later entry replaces an earlier one. *)
Definition port_map (ports : list OnionServicePort) : gmap Z str :=
  fold_left (fun m p => <[onion_port p := port_target p]> m) ports ∅.

Definition requested_port (r : IncomingStreamRequest) : option Z :=
  match r with BeginStream p => Some p | _ => None end.

Definition target_for_port (m : gmap Z str) (port : option Z) : option str :=
  match port with None => None | Some p => m !! p end.

Lemma find_app {A} (f : A → bool) l k :
  List.find f (l ++ k) = match List.find f l with Some x => Some x | None => List.find f k end.
Proof. induction l as [|x l IH]; cbn; [done|]. by destruct (f x). Qed.

Lemma port_map_lookup ports (m : gmap Z str) p :
  fold_left (fun m p => <[onion_port p := port_target p]> m) ports m !! p =
  match List.find (fun q => onion_port q =? p) (rev ports) with Some q => Some (port_target q) | None => m !! p end.
Proof.
  revert m. induction ports as [|q ports IH]; intros m; [done|]. cbn [fold_left rev]. rewrite IH, find_app.
  destruct (List.find _ (rev ports)); [done|]. cbn. destruct (Z.eqb_spec (onion_port q) p) as [<-|].
  - by rewrite lookup_insert_eq.
  - by rewrite lookup_insert_ne.
Qed.

Lemma target_configured ports r t :
  target_for_port (port_map ports) (requested_port r) = Some t →
  ∃ q, q ∈ ports ∧ r = BeginStream (onion_port q) ∧ t = port_target q.
Proof.
  destruct r as [p| |]; cbn; try done. unfold port_map. rewrite port_map_lookup, lookup_empty.
  destruct (List.find _ (rev ports)) as [q|] eqn:Hf; [|done]. intros [= <-]. apply find_some in Hf as [Hin Heq].
  exists q. apply Z.eqb_eq in Heq as <-. split; [|done]. apply list_elem_of_In. by apply in_rev.
Qed.

Lemma target_absent ports r q :
  target_for_port (port_map ports) (requested_port r) = None → q ∈ ports → r ≠ BeginStream (onion_port q).
Proof.
  intros Ht Hq ->. cbn in Ht. unfold port_map in Ht. rewrite port_map_lookup, lookup_empty in Ht.
  destruct (List.find _ (rev ports)) eqn:Hf; [done|]. apply list_elem_of_In, in_rev in Hq.
  apply (find_none _ _ Hf) in Hq. lia.
Qed.

(** ** State and steps *)

Inductive action : Type :=
| Rejected (r : stream_request)
| Accepted (r : stream_request)
| Contacted (r : stream_request) (target : str).

(** [queue] holds the connection tasks that were spawned and not yet polled,
    each with its permit; [arrivals] the rendezvous tasks likewise. *)
Record streams : Type := mkStreams {
  token : bool;
  closed : bool;
  permits : Z;
  arrivals : nat;
  queue : list (stream_request * str);
  journal : list action;
}.

Inductive proc : Type :=
(* [serve_service] *)
| Listening
| ListenEnd
(* the task of one rendezvous, with [serve_stream_requests] *)
| Rendezvous
| Handshake
| Circuit
| Rejecting (r : stream_request)
| Acquiring (r : stream_request) (target : str)
| CircuitEnd
(* [handle_stream_request] *)
| TaskStart
| Accepting (r : stream_request) (target : str)
| Connecting (r : stream_request) (target : str)
| Forwarding (r : stream_request) (target : str)
| TaskEnd
(* the shutdown of the server *)
| Canceller
| CancelEnd.

Inductive connected : Type :=
| ConnectOk
| ConnectFailed
| ConnectTimedOut.

(** What the environment decides: [None] in a stream means that nothing is
    ready, [Some None] that it ended. *)
Record event : Type := mkEvent {
  rend : option (option unit);
  next : option (option stream_request);
  accept_ok : bool;
  connect : connected;
  pick : nat;
}.

Definition record (a : action) (s : streams) : streams :=
  mkStreams (token s) (closed s) (permits s) (arrivals s) (queue s) (journal s ++ [a]).
Definition release (s : streams) : streams :=
  mkStreams (token s) (closed s) (permits s + 1) (arrivals s) (queue s) (journal s).

Section Serve.
Context (ports : list OnionServicePort).

Definition serve_step (i : nat) (e : event) (s : streams) (p : proc) : option (streams * proc) :=
  match p with
  | Listening =>
      if token s then Some (s, ListenEnd)
      else match rend e with
      | None => None
      | Some None => Some (s, ListenEnd)
      | Some (Some _) => Some (mkStreams (token s) (closed s) (permits s) (S (arrivals s)) (queue s) (journal s), Listening)
      end
  | Rendezvous =>
      match arrivals s with
      | O => None
      | S n => Some (mkStreams (token s) (closed s) (permits s) n (queue s) (journal s), Handshake)
      end
  | Handshake => Some (s, if accept_ok e then Circuit else CircuitEnd)
  | Circuit =>
      if token s then Some (s, CircuitEnd)
      else match next e with
      | None => None
      | Some None => Some (s, CircuitEnd)
      | Some (Some r) =>
          match target_for_port (port_map ports) (requested_port (request r)) with
          | None => Some (s, Rejecting r)
          | Some target => Some (s, Acquiring r target)
          end
      end
  | Rejecting r => Some (record (Rejected r) s, Circuit)
  | Acquiring r target =>
      if closed s then Some (record (Rejected r) s, CircuitEnd)
      else if 0 <? permits s then
        Some (mkStreams (token s) (closed s) (permits s - 1) (arrivals s) (queue s ++ [(r, target)]) (journal s), Circuit)
      else None
  | TaskStart =>
      match queue s !! pick e with
      | None => None
      | Some (r, target) =>
          Some (mkStreams (token s) (closed s) (permits s) (arrivals s) (delete (pick e) (queue s)) (journal s), Accepting r target)
      end
  | Accepting r target => if accept_ok e then Some (record (Accepted r) s, Connecting r target) else Some (release s, TaskEnd)
  | Connecting r target =>
      let s := record (Contacted r target) s in
      match connect e with
      | ConnectOk => Some (s, Forwarding r target)
      | ConnectFailed | ConnectTimedOut => Some (release s, TaskEnd)
      end
  | Forwarding r target => Some (release s, TaskEnd)
  | Canceller => Some (mkStreams true (closed s) (permits s) (arrivals s) (queue s) (journal s), CancelEnd)
  | ListenEnd | CircuitEnd | TaskEnd | CancelEnd => None
  end.

Definition starts (p : proc) : Prop := p = Rendezvous ∨ p = TaskStart ∨ p = Canceller.

Definition initial : config streams proc :=
  mkConfig (mkStreams false false MAX_CONCURRENT_STREAMS 0 [] []) {[ 0%nat := Listening ]}.

Definition reachable : config streams proc → Prop := reach serve_step starts initial.

(** ** Targets *)

Definition routed (r : stream_request) (t : str) : Prop :=
  target_for_port (port_map ports) (requested_port (request r)) = Some t.

Definition action_ok (a : action) : Prop :=
  match a with
  | Rejected r => target_for_port (port_map ports) (requested_port (request r)) = None
  | Accepted r => ∃ t, routed r t
  | Contacted r t => routed r t
  end.

Definition shared_ok (s : streams) : Prop :=
  closed s = false ∧ 0 ≤ permits s ∧ Forall (fun q => routed q.1 q.2) (queue s) ∧ Forall action_ok (journal s) ∧
  ∀ r t, Contacted r t ∈ journal s → Accepted r ∈ journal s.

Definition proc_ok (p : proc) (s : streams) : Prop :=
  match p with
  | Rejecting r => target_for_port (port_map ports) (requested_port (request r)) = None
  | Acquiring r t | Accepting r t => routed r t
  | Connecting r t | Forwarding r t => routed r t ∧ Accepted r ∈ journal s
  | _ => True
  end.

Lemma record_ok a s :
  shared_ok s → action_ok a → (∀ r t, a = Contacted r t → Accepted r ∈ journal s) → shared_ok (record a s).
Proof.
  intros (Hc & Hp & Hq & Hj & Ha) Hok Hacc. split_and!; cbn; [done|done|done|by apply Forall_app_2; [|constructor]|].
  intros r t. rewrite !elem_of_app, list_elem_of_singleton. intros [Hin|<-]; left; [by eapply Ha|by eapply Hacc].
Qed.

Lemma release_ok s : shared_ok s → shared_ok (release s).
Proof. intros (Hc & Hp & Hrest). split_and!; try apply Hrest; cbn; [done|lia]. Qed.

Lemma own_ok i e s p s' p' :
  shared_ok s → proc_ok p s → serve_step i e s p = Some (s', p') → shared_ok s' ∧ proc_ok p' s'.
Proof.
  intros Hs Hp. pose proof Hs as (Hc & Hpm & Hq & Hj & Hac).
  destruct p as [| | | | |r|r t| | |r t|r t|r t| | |]; cbn [serve_step]; intros Hst; try done.
  - repeat case_match; simplify_eq; by split.
  - repeat case_match; simplify_eq; by split.
  - injection Hst as <- <-. by case_match.
  - repeat case_match; simplify_eq; by split.
  - injection Hst as <- <-. split; [|done]. by apply record_ok.
  - rewrite Hc in Hst. destruct (Z.ltb_spec 0 (permits s)); [|done]. injection Hst as <- <-. split; [|done].
    split_and!; cbn; [done|lia| |done|done]. apply Forall_app_2; [done|by constructor].
  - destruct (queue s !! pick e) as [[r t]|] eqn:Hk; [|done]. injection Hst as <- <-. split.
    + split_and!; cbn; try done. by apply Forall_delete.
    + by apply (Forall_lookup_1 _ _ _ _ Hq Hk).
  - destruct (accept_ok e); injection Hst as <- <-; [|split; [by apply release_ok|done]]. split; [apply record_ok; try done; by exists t|].
    split; [done|]. cbn. apply elem_of_app. right. by apply list_elem_of_singleton.
  - destruct Hp as [Hr Ha]. assert (Hs' : shared_ok (record (Contacted r t) s)) by (apply record_ok; [done..|by intros ? ? [= <- _]]).
    destruct (connect e); injection Hst as <- <-; (split; [done || by apply release_ok|try done]).
    split; [done|]. cbn. apply elem_of_app. by left.
  - injection Hst as <- <-. split; [by apply release_ok|done].
  - injection Hst as <- <-. by split.
Qed.

Lemma journal_grows i e s p s' p' a : serve_step i e s p = Some (s', p') → a ∈ journal s → a ∈ journal s'.
Proof.
  intros Hst Ha. assert (Hr : ∀ b, a ∈ journal (record b s)) by (intros b; cbn; apply elem_of_app; by left).
  destruct p; cbn [serve_step] in Hst; repeat case_match; simplify_eq; try done; try apply Hr.
Qed.

Lemma reachable_ok c : reachable c → shared_ok (shared c) ∧ ∀ i p, procs c !! i = Some p → proc_ok p (shared c).
Proof.
  intros Hr. apply (reach_holds serve_step starts shared_ok (fun _ => proc_ok)) in Hr; [exact Hr|..].
  - by intros i p s [->|[->| ->]] _.
  - intros i e s p s' p'. apply own_ok.
  - intros i j e s p s' p' q _ _ _ Hq Hst. destruct q; try done; cbn in *; (split; [apply Hq|]);
      eapply journal_grows; [exact Hst|apply Hq| exact Hst|apply Hq].
  - split; [|intros i p Hi; cbn in Hi; by apply lookup_singleton_Some in Hi as [<- <-]]. split_and!; cbn; try done. by intros r t ?%not_elem_of_nil.
Qed.

(** ** Permits *)

(** The permit a process holds. *)
Definition holding (p : proc) : Z :=
  match p with Accepting _ _ | Connecting _ _ | Forwarding _ _ => 1 | _ => 0 end.

Lemma length_delete_nth {A} (l : list A) k x : l !! k = Some x → Z.of_nat (length (delete k l)) = Z.of_nat (length l) - 1.
Proof. intros Hk. rewrite length_delete by (by rewrite Hk). apply lookup_lt_Some in Hk. lia. Qed.

Lemma permits_conserved c :
  reachable c → permits (shared c) + Z.of_nat (length (queue (shared c))) + tally holding (procs c) = MAX_CONCURRENT_STREAMS.
Proof.
  intros Hr. pose proof (reach_conserves serve_step starts eq (fun s => permits s + Z.of_nat (length (queue s))) holding initial c)
    as Hc. rewrite Hc; [|by intros ? ? ? ->|by intros p [->|[->| ->]]| |exact Hr].
  - cbn. unfold initial. cbn. rewrite <-insert_empty, tally_insert_fresh, tally_empty by done. done.
  - intros i e s p s' p' Hst. destruct p; cbn [serve_step] in Hst; repeat case_match; simplify_eq; cbn; try lia.
    + rewrite length_app. cbn. lia.
    + erewrite length_delete_nth by done. lia.
Qed.

(** C32: An onion service forwards only as configured: a local connection is
    made only for a BEGIN request, after it was accepted, and to the target
    that the configuration gives for its port; only requests for which there is
    no such port are rejected; and at most 256 connection tasks exist at any
    time, each with its own permit. *)
Theorem streams_go_to_their_targets c :
  reachable c →
  (∀ r t, Contacted r t ∈ journal (shared c) →
    Accepted r ∈ journal (shared c) ∧ ∃ q, q ∈ ports ∧ request r = BeginStream (onion_port q) ∧ t = port_target q) ∧
  (∀ r q, Rejected r ∈ journal (shared c) → q ∈ ports → request r ≠ BeginStream (onion_port q)) ∧
  0 ≤ permits (shared c) ∧
  Z.of_nat (length (queue (shared c))) + tally holding (procs c) = MAX_CONCURRENT_STREAMS - permits (shared c).
Proof.
  intros Hr. destruct (reachable_ok c Hr) as [(_ & Hp & _ & Hj & Ha) _]. rewrite Forall_forall in Hj. split_and!.
  - intros r t Hc. split; [by eapply Ha|]. apply Hj in Hc. by apply target_configured.
  - intros r q Hc Hq. apply Hj in Hc. by eapply target_absent.
  - done.
  - pose proof (permits_conserved c Hr). lia.
Qed.

(** The loop of a circuit does wait for a permit: while all permits are
    taken, a circuit whose request has a target makes no step, whether or not
    the token is cancelled, so it serves no other request either. *)
Theorem full_service_stalls_the_circuit c i r t e :
  reachable c → procs c !! i = Some (Acquiring r t) → permits (shared c) = 0 →
  serve_step i e (shared c) (Acquiring r t) = None.
Proof.
  intros Hr _ Hp. destruct (reachable_ok c Hr) as [(Hc & _) _]. cbn. by rewrite Hc, Hp.
Qed.
End Serve.

(** ** The status log *)

Inductive State : Type :=
| Running
| Broken
| DegradedReachable
| DegradedUnreachable
| Recovering
| Bootstrapping
| Shutdown
| Unknown (n : Z).

#[export] Instance State_eq_dec : EqDecision State.
Proof. solve_decision. Defined.

Inductive level : Type :=
| Debug
| Info
| Warn.

Definition level_of (st : State) : level :=
  match st with
  | Running | Bootstrapping | Shutdown => Info
  | Broken | DegradedReachable | DegradedUnreachable | Recovering => Warn
  | Unknown _ => Debug
  end.

(** The lines logged for the statuses that the stream yields. *)
Fixpoint log_status_events (last : option State) (events : list State) : list (level * State) :=
  match events with
  | [] => []
  | st :: events' =>
      let initial_shutdown := bool_decide (last = None) && bool_decide (st = Shutdown) in
      if bool_decide (last = Some st) || initial_shutdown then log_status_events (Some st) events'
      else (level_of st, st) :: log_status_events (Some st) events'
  end.

(** The changes of a sequence: each element that differs from the one before. *)
Fixpoint changes (last : option State) (l : list State) : list State :=
  match l with
  | [] => []
  | x :: l' => if bool_decide (last = Some x) then changes (Some x) l' else x :: changes (Some x) l'
  end.

Lemma log_after last events : last ≠ None → map snd (log_status_events last events) = changes last events.
Proof.
  revert last. induction events as [|st events IH]; intros last Hl; [done|]. cbn.
  rewrite (bool_decide_false (last = None)) by done. rewrite orb_false_r. case_bool_decide; cbn; rewrite IH; done.
Qed.

(** The log has one line for every change of status, from the first one that
    is not the shutdown a fresh service reports. *)
Lemma log_is_the_changes events :
  map snd (log_status_events None events) =
  match events with
  | Shutdown :: events' => changes (Some Shutdown) events'
  | _ => changes None events
  end.
Proof.
  destruct events as [|x events]; [done|]. cbn [log_status_events changes]. rewrite (bool_decide_false (None = Some x)) by done.
  rewrite (bool_decide_true (None = None)) by done. cbn [orb andb]. case_bool_decide as Hx.
  - subst. by apply log_after.
  - cbn. rewrite log_after by done. by destruct x.
Qed.

(** ** Witnesses *)

Section Witnesses.
Definition sample_ports : list OnionServicePort := [mkPort 80 (lit "127.0.0.1:8080")].
Definition wanted : stream_request := mkRequest 1 (BeginStream 80).
Definition unwanted : stream_request := mkRequest 2 (BeginStream 443).

Definition does (r : stream_request) : event := mkEvent (Some (Some tt)) (Some (Some r)) true ConnectOk 0.

Definition sample_schedule : list (move proc event) :=
  [Step 0 (does wanted); Spawn 1 Rendezvous; Step 1 (does wanted); Step 1 (does wanted); Step 1 (does wanted); Step 1 (does wanted);
   Spawn 2 TaskStart; Step 2 (does wanted); Step 2 (does wanted); Step 2 (does wanted);
   Step 1 (does unwanted); Step 1 (does unwanted)].

Definition sample_end : config streams proc :=
  default initial (run_schedule (serve_step sample_ports) initial sample_schedule).

Lemma serve_sample_reached : reachable sample_ports sample_end.
Proof.
  apply (run_reach _ _ _ sample_schedule); [|vm_compute; reflexivity].
  repeat (apply Forall_cons_2; [first [exact I|by left|by right; left]|]). apply Forall_nil_2.
Qed.

Lemma streams_go_to_their_targets_witness :
  journal (shared sample_end) = [Accepted wanted; Contacted wanted (lit "127.0.0.1:8080"); Rejected unwanted] ∧
  ∃ q, q ∈ sample_ports ∧ request wanted = BeginStream (onion_port q).
Proof.
  assert (Hj : journal (shared sample_end) = [Accepted wanted; Contacted wanted (lit "127.0.0.1:8080"); Rejected unwanted])
    by (vm_compute; reflexivity).
  split; [exact Hj|].
  destruct (proj1 (streams_go_to_their_targets sample_ports sample_end serve_sample_reached) wanted (lit "127.0.0.1:8080"))
    as [_ (q & Hq & Hr & _)]; [rewrite Hj; right; left|]. exists q. split; [exact Hq|exact Hr].
Defined.
End Witnesses.
End OnionServe.
