(* ===== verification/TorSetup.v ===== *)
(** * Choosing the bridges of the Tor client

    [apps/socks5-proxy/src/tor/tor_setup.rs]: from the configured bridges, the
    health store and a few probe rounds to the settings of the client, and the
    health update that goes with it. *)

From S2P Require Import Prelude Order OrdMap Str Net Crates Samples Identity BridgeStore StoreStats GuardObs BridgesConfig ConfigSections Probe.
Import Identity Store Stats.
Open Scope Z_scope.

Module TorSetup.

Definition BRIDGE_PROBE_TIMEOUT : Z := 5000.
Definition MAX_ACTIVE_BRIDGES : nat := 30.

Section Setup.
Context `{UrlCrate, TlsCrate, TimeCrate, BridgeLineCrate}.

(** The sections of the configuration that are read here. *)
Record Config : Type := mkConfig {
  cfg_bridges : ConfigSections.BridgesConfig;
  cfg_tor : ConfigSections.TorConfig;
  cfg_services : list ConfigSections.OnionServiceEntry;
}.
Abbreviation live_list := (list (BridgeLine * Z)).

Definition preference (cfg : Config) : option str := BridgesConfig.preferred_transport (ConfigSections.transport (cfg_bridges cfg)).

Definition uses (t : str) (b : BridgeLine) : bool := bool_decide (transport b = Some t).

(** ** Pools *)

(** The lines that the loaded store does not rule out. *)
Definition not_ruled_out (store : option BridgeStore) (cfg : Config) (bs : list BridgeLine) : list BridgeLine :=
  match store with
  | Some s => List.filter (fun b => negb (is_retired s b) && (get_circuit_fails s b <? ConfigSections.max_circuit_fails (cfg_bridges cfg))) bs
  | None => bs
  end.

Definition preferred_transport_bridges (configured : list BridgeLine) (cfg : Config) : list BridgeLine :=
  match preference cfg with
  | None => configured
  | Some preferred =>
      let matching := List.filter (uses preferred) configured in
      if is_empty matching then
        List.filter (fun b => negb (str_eqb preferred (lit "webtunnel")) || uses (lit "obfs4") b) configured
      else matching
  end.

(** [by_text]: of lines with the same text the last one is kept. *)
Definition by_text (configured : list BridgeLine) (text : str) : option BridgeLine :=
  List.find (fun b => str_eqb (bridge_to_string b) text) (rev configured).

Definition select_active_probe_bridges (configured : list BridgeLine) (store : option BridgeStore) : list BridgeLine :=
  if (length configured <=? MAX_ACTIVE_BRIDGES)%nat then configured
  else
    let ranked :=
      match store with
      | Some s => omap (fun b => by_text configured (bridge_to_string b)) (healthiest_among s configured MAX_ACTIVE_BRIDGES)
      | None => []
      end in
    if is_empty ranked then firstn MAX_ACTIVE_BRIDGES configured else ranked.

Definition fallback_probe_pool (active_slice_dead : bool) (preferred : list BridgeLine) (probing_all_preferred : bool) :
  option (list BridgeLine) :=
  if negb active_slice_dead || probing_all_preferred then None else Some preferred.

(** ** Probes *)

Definition filter_measured (bridges unmeasured : list BridgeLine) : list BridgeLine :=
  let unmeasured_keys := map bridge_identity unmeasured in
  List.filter (fun b => bool_decide (bridge_identity b ∉ unmeasured_keys)) bridges.

(** What the probes of a pool report. *)
Definition probe_measured (reports : list BridgeLine → list Probe.Report) (bridges : list BridgeLine) :
  list BridgeLine * live_list :=
  let round := Probe.probe_round (reports bridges) in
  (filter_measured bridges (Probe.unmeasured round), Probe.alive round).

Definition retain_probe_observations (probed live : list BridgeLine) (alive : live_list) : list BridgeLine :=
  let live_keys := map bridge_identity live in
  let alive_keys := map (fun bl => bridge_identity bl.1) alive in
  List.filter (fun b => bool_decide (bridge_identity b ∉ live_keys) || bool_decide (bridge_identity b ∈ alive_keys)) probed.

Definition retain_allowed_alive (alive : live_list) (allowed : list BridgeLine) : live_list :=
  let allowed_keys := map bridge_identity allowed in
  List.filter (fun bl => bool_decide (bridge_identity bl.1 ∈ allowed_keys)) alive.

(** The position of the first line with the identity. *)
Fixpoint rank_of (k : BridgeIdentity) (ranked : list BridgeLine) : option nat :=
  match ranked with
  | [] => None
  | b :: ranked' => if decide (bridge_identity b = k) then Some O else option_map S (rank_of k ranked')
  end.

Definition by_rank (ranked : list BridgeLine) : BridgeLine * Z → BridgeLine * Z → comparison :=
  cmp_on (fun bl => Z.of_nat (default 0%nat (rank_of (bridge_identity bl.1) ranked))) Z.compare.

Definition retain_and_rank_alive (alive : live_list) (ranked : list BridgeLine) : live_list :=
  sort_by (by_rank ranked) (List.filter (fun bl => bool_decide (is_Some (rank_of (bridge_identity bl.1) ranked))) alive).

(** ** Health *)

(** A number of minutes as a duration. *)
Definition minutes (m : Z) : Z := from_secs (Z.min (m * 60) u64_max).

(** The closure given to the writer: the store after it, what it pruned, and
    the ranking. *)
Definition health_update (cfg : Config) (sink : option GuardObs.ObservationSink) (now : OffsetDateTime) (probed : list BridgeLine) (alive : live_list)
  (candidates : list BridgeLine) (s : BridgeStore) : BridgeStore * list BridgeLine * list BridgeLine :=
  let '(s', pruned) :=
    note_probe_round s probed alive now (minutes (ConfigSections.fail_window_mins (cfg_bridges cfg))) (ConfigSections.max_fails (cfg_bridges cfg)) (ConfigSections.max_circuit_fails (cfg_bridges cfg)) in
  let s' :=
    match sink with
    | Some sink =>
        (GuardObs.drain_into_store sink s' probed now (minutes (ConfigSections.circuit_observation_window_mins (cfg_bridges cfg)))).1.1
    | None => s'
    end in
  (s', pruned, healthiest_among s' candidates MAX_ACTIVE_BRIDGES).

(** The lines left in the bridges file; one that does not parse stays. *)
Definition prune_bridges_from_config (lines : list str) (dead : list BridgeLine) : list str :=
  let dead_keys := map bridge_identity dead in
  List.filter (fun line =>
    match bridge_parse line with
    | Some b => bool_decide (bridge_identity b ∉ dead_keys)
    | None => true
    end) lines.

(** ** Settings *)

Record Settings : Type := mkSettings {
  s_bridges : list BridgeLine;
  s_pt_binary : bool;
  s_extra_pt_protocols : list str;
  s_obfs4_iat_mode : option Z;
  s_circuit_hops : Z;
  s_service_circuit_hops : Z;
}.

(** [settings_for_config]: the lengths of circuits. *)
Definition settings_for_config (cfg : Config) : Z * Z :=
  (ConfigSections.circuit_hops (cfg_tor cfg),
   match List.find ConfigSections.enabled (cfg_services cfg) with
   | Some svc => ConfigSections.service_hops svc
   | None => 4
   end).

Inductive setup_error : Type :=
| BadLine (idx : nat)
| NothingReachable
| NoPtBinary.

(** What one call is given: the store as each load finds it and as the writer
    has it, the seeds, the reports of each round of probes, the clock. *)
Record env : Type := mkEnv {
  seconds : Z;
  now : OffsetDateTime;
  first_load : option BridgeStore;
  second_load : option BridgeStore;
  writer : option BridgeStore;
  seeds : list BridgeLine;
  reports : nat → list BridgeLine → list Probe.Report;
  pt_override : bool;
  current_exe : bool;
}.

(** The rounds of probes: what to record, what is alive, and the pools that
    were probed. *)
Record rounds : Type := mkRounds { probed : list BridgeLine; alive : live_list; pools : list (nat * list BridgeLine) }.

Definition probe_pool (e : env) (n : nat) (pool : list BridgeLine) (r : rounds) : rounds :=
  let '(measured, found) := probe_measured (reports e n) pool in
  mkRounds (probed r ++ measured) found (pools r ++ [(n, pool)]).

Definition obfs4_fallback (parsed probed : list BridgeLine) : list BridgeLine :=
  let probed_keys := map bridge_identity probed in
  List.filter (fun b => uses (lit "obfs4") b && bool_decide (bridge_identity b ∉ probed_keys)) parsed.

Definition probe_rounds (e : env) (cfg : Config) (live parsed : list BridgeLine) : rounds :=
  let preferred := preferred_transport_bridges parsed cfg in
  let active := select_active_probe_bridges preferred (second_load e) in
  let r := if is_empty active then mkRounds [] [] [] else probe_pool e 0 active (mkRounds [] [] []) in
  let r :=
    match fallback_probe_pool (is_empty (alive r)) preferred (length active =? length preferred)%nat with
    | Some pool => probe_pool e 1 pool r
    | None => r
    end in
  let r :=
    if is_empty (alive r) && is_empty live && bool_decide (preference cfg = Some (lit "webtunnel")) then
      let fallback := obfs4_fallback parsed (probed r) in
      if is_empty fallback then r else probe_pool e 2 fallback r
    else r in
  if is_empty (alive r) && is_empty live && ConfigSections.use_seeds (cfg_bridges cfg) then
    if is_empty (seeds e) then r else probe_pool e 3 (seeds e) r
  else r.

(** The effects on the health store and the bridges file. *)
Record effects : Type := mkEffects { e_store : BridgeStore; e_pruned : list BridgeLine }.

Definition update_health_and_prune (e : env) (cfg : Config) (sink : option GuardObs.ObservationSink)
  (probed : list BridgeLine) (alive : live_list) (candidates : list BridgeLine) : option (list BridgeLine) * option effects :=
  match writer e with
  | None => (None, None)
  | Some s =>
      let '(s', pruned, ranked) := health_update cfg sink (now e) probed alive candidates s in
      (Some ranked, Some (mkEffects s' pruned))
  end.

Definition assemble (e : env) (cfg : Config) (bridges : list BridgeLine) : result Settings setup_error :=
  let needs_pt := existsb (fun b => bool_decide (transport b ≠ None)) bridges in
  if needs_pt && negb (pt_override e) && negb (current_exe e) then Err NoPtBinary
  else Ok (mkSettings bridges needs_pt
    (if negb (pt_override e) then [lit "obfs4"; lit "webtunnel"] else match preference cfg with Some t => [t] | None => [] end)
    (BridgesConfig.iat_mode_override (ConfigSections.iat_mode (cfg_bridges cfg)))
    (settings_for_config cfg).1 (settings_for_config cfg).2).

Definition build_tor_settings_preserving_live (e : env) (cfg : Config) (live : list BridgeLine) :
  result Settings setup_error * option effects :=
  match BridgesConfig.parsed (seconds e) (ConfigSections.lines (cfg_bridges cfg)) with
  | Err idx => (Err (BadLine idx), None)
  | Ok p =>
      let parsed := not_ruled_out (first_load e) cfg (BridgesConfig.bridges p) in
      let r := probe_rounds e cfg live parsed in
      let recorded := retain_probe_observations (probed r) live (alive r) in
      let allowed := preferred_transport_bridges (map fst (alive r)) cfg in
      let kept := retain_allowed_alive (alive r) allowed in
      let '(ranked, eff) := update_health_and_prune e cfg None recorded (alive r) (map fst kept) in
      let kept := match ranked with Some ranked => retain_and_rank_alive kept ranked | None => kept end in
      if is_empty kept then (Err NothingReachable, eff) else (assemble e cfg (map fst kept), eff)
  end.

Definition build_tor_settings (e : env) (cfg : Config) : result Settings setup_error * option effects :=
  build_tor_settings_preserving_live e cfg [].

(** ** What the rounds find *)

Definition found_by (e : env) (n : nat) (pool : list BridgeLine) : live_list :=
  Probe.alive (Probe.probe_round (reports e n pool)).

Lemma found_report e n pool b l : (b, l) ∈ found_by e n pool → Probe.mkReport b (Reachable l) ∈ reports e n pool.
Proof.
  unfold found_by, Probe.probe_round. rewrite Probe.place_all. cbn [Probe.alive app]. rewrite sort_by_perm.
  unfold Probe.live_reports. rewrite list_elem_of_omap. intros ([b' []] & Hin & [= <- <-]). done.
Qed.

(** Every probe but the last found nothing. *)
Definition rounds_ok (e : env) (r : rounds) : Prop :=
  (alive r = [] ∧ Forall (fun np => found_by e np.1 np.2 = []) (pools r)) ∨
  ∃ before n pool, pools r = before ++ [(n, pool)] ∧ alive r = found_by e n pool ∧
    Forall (fun np => found_by e np.1 np.2 = []) before.

Lemma probe_pool_ok e n pool r : rounds_ok e r → alive r = [] → rounds_ok e (probe_pool e n pool r).
Proof.
  intros Hr Ha. right. exists (pools r), n, pool. split; [done|]. split; [done|].
  destruct Hr as [[_ Hf]|(before & m & p & Hp & He & Hf)]; [done|]. rewrite Hp. apply Forall_app_2; [done|].
  constructor; [|done]. change (found_by e m p = []). congruence.
Qed.

Definition from_parsed (parsed : list BridgeLine) (np : nat * list BridgeLine) : Prop := ∀ b, b ∈ np.2 → b ∈ parsed.

Lemma filter_elem {A} (f : A → bool) l x : x ∈ List.filter f l ↔ x ∈ l ∧ f x = true.
Proof. by rewrite !list_elem_of_In, filter_In. Qed.

Lemma preferred_sub configured cfg b : b ∈ preferred_transport_bridges configured cfg → b ∈ configured.
Proof.
  unfold preferred_transport_bridges. destruct (preference cfg); [|done].
  destruct (is_empty _); intros Hb; by apply filter_elem in Hb as [? _].
Qed.

Lemma select_sub configured store b : b ∈ select_active_probe_bridges configured store → b ∈ configured.
Proof.
  unfold select_active_probe_bridges. destruct (_ <=? _)%nat; [done|]. set (ranked := match store with Some _ => _ | None => _ end).
  assert (Hr : ∀ x, x ∈ ranked → x ∈ configured).
  { intros x. unfold ranked. destruct store as [st|]; [|by intros ?%not_elem_of_nil].
    intros (y & _ & Hf)%list_elem_of_omap. unfold by_text in Hf. apply find_some in Hf as [Hin _].
    by apply list_elem_of_In, in_rev. }
  destruct (is_empty ranked); [|apply Hr]. intros Hb. by eapply elem_of_take_inv.
Qed.

Definition pool_ok (e : env) (cfg : Config) (live parsed : list BridgeLine) (np : nat * list BridgeLine) : Prop :=
  from_parsed parsed np ∨ (live = [] ∧ ConfigSections.use_seeds (cfg_bridges cfg) = true ∧ np.2 = seeds e).

Lemma is_empty_nil {A} (l : list A) : is_empty l = true → l = [].
Proof. by destruct l. Qed.

Lemma probe_rounds_ok e cfg live parsed :
  let r := probe_rounds e cfg live parsed in rounds_ok e r ∧ Forall (pool_ok e cfg live parsed) (pools r).
Proof.
  cbn. unfold probe_rounds. set (preferred := preferred_transport_bridges parsed cfg).
  set (active := select_active_probe_bridges preferred (second_load e)).
  set (r0 := if is_empty active then _ else _).
  assert (Hr0 : rounds_ok e r0 ∧ Forall (pool_ok e cfg live parsed) (pools r0)).
  { unfold r0. destruct (is_empty active); [split; [left; by split|constructor]|]. split; [apply probe_pool_ok; [left; by split|done]|].
    constructor; [|constructor]. left. intros b Hb. by eapply preferred_sub, select_sub. }
  clearbody r0. set (r1 := match fallback_probe_pool _ _ _ with Some _ => _ | None => _ end).
  assert (Hr1 : rounds_ok e r1 ∧ Forall (pool_ok e cfg live parsed) (pools r1)).
  { unfold r1, fallback_probe_pool. destruct (is_empty (alive r0)) eqn:He; cbn [negb orb]; [|done].
    destruct (length active =? length preferred)%nat; [done|]. destruct Hr0 as [Hr Hp]. apply is_empty_nil in He.
    split; [by apply probe_pool_ok|]. apply Forall_app_2; [done|]. constructor; [|done]. left. intros b Hb. by eapply preferred_sub. }
  clearbody r1. set (r2 := if is_empty (alive r1) && is_empty live && _ then _ else _).
  assert (Hr2 : rounds_ok e r2 ∧ Forall (pool_ok e cfg live parsed) (pools r2)).
  { unfold r2. destruct (is_empty (alive r1)) eqn:He; cbn [andb]; [|done]. apply is_empty_nil in He.
    destruct (_ && _); [|done]. destruct (is_empty (obfs4_fallback _ _)); [done|]. destruct Hr1 as [Hr Hp].
    split; [by apply probe_pool_ok|]. apply Forall_app_2; [done|]. constructor; [|done]. left. intros b Hb.
    by apply filter_elem in Hb as [? _]. }
  clearbody r2. destruct (is_empty (alive r2)) eqn:He; cbn [andb]; [|done]. apply is_empty_nil in He.
  destruct (is_empty live) eqn:Hl; cbn [andb]; [|done]. apply is_empty_nil in Hl.
  destruct (ConfigSections.use_seeds (cfg_bridges cfg)) eqn:Hu; [|done]. destruct (is_empty (seeds e)); [done|].
  destruct Hr2 as [Hr Hp]. split; [by apply probe_pool_ok|]. apply Forall_app_2; [done|]. constructor; [|done]. by right.
Qed.

(** ** Transports *)



Lemma ranked_sub alive ranked x : x ∈ retain_and_rank_alive alive ranked → x ∈ alive ∧ is_Some (rank_of (bridge_identity x.1) ranked).
Proof.
  unfold retain_and_rank_alive. rewrite sort_by_perm. intros [? Hr]%filter_elem. split; [done|]. by apply bool_decide_eq_true in Hr.
Qed.

(** The bridges that end up in the settings. *)
Lemma build_inv e cfg live st eff :
  build_tor_settings_preserving_live e cfg live = (Ok st, eff) →
  ∃ p, BridgesConfig.parsed (seconds e) (ConfigSections.lines (cfg_bridges cfg)) = Ok p ∧
  let parsed := not_ruled_out (first_load e) cfg (BridgesConfig.bridges p) in
  let r := probe_rounds e cfg live parsed in
  let kept := retain_allowed_alive (alive r) (preferred_transport_bridges (map fst (alive r)) cfg) in
  let up := update_health_and_prune e cfg None (retain_probe_observations (probed r) live (alive r)) (alive r) (map fst kept) in
  eff = up.2 ∧ s_bridges st ≠ [] ∧
  ∀ b, b ∈ s_bridges st → ∃ l, (b, l) ∈ kept ∧ match up.1 with Some ranked => is_Some (rank_of (bridge_identity b) ranked) | None => True end.
Proof.
  unfold build_tor_settings_preserving_live. destruct (BridgesConfig.parsed _ _) as [p|]; [|done]. intros Hb. exists p. split; [done|].
  cbn zeta in *. set (r := probe_rounds _ _ _ _) in *. set (kept := retain_allowed_alive _ _) in *.
  destruct (update_health_and_prune _ _ _ _ _ _) as [ranked eff']. cbn [fst snd].
  set (k2 := match ranked with Some _ => _ | None => _ end) in *. destruct (is_empty k2) eqn:He; [done|].
  injection Hb as Ha <-. unfold assemble in Ha. case_match; [done|]. injection Ha as <-. cbn [s_bridges]. split; [done|]. split.
  - intros Hn. apply map_eq_nil in Hn. by rewrite Hn in He.
  - intros b ([b' l] & -> & Hin)%list_elem_of_fmap. exists l. unfold k2 in Hin.
    destruct ranked as [ranked|]; [|by split]. by apply ranked_sub in Hin.
Qed.


(** ** Health *)

Lemma build_effects e cfg live f :
  (build_tor_settings_preserving_live e cfg live).2 = Some f →
  ∃ p s, BridgesConfig.parsed (seconds e) (ConfigSections.lines (cfg_bridges cfg)) = Ok p ∧ writer e = Some s ∧
  let r := probe_rounds e cfg live (not_ruled_out (first_load e) cfg (BridgesConfig.bridges p)) in
  (e_store f, e_pruned f) =
    note_probe_round s (retain_probe_observations (probed r) live (alive r)) (alive r) (now e)
      (minutes (ConfigSections.fail_window_mins (cfg_bridges cfg))) (ConfigSections.max_fails (cfg_bridges cfg))
      (ConfigSections.max_circuit_fails (cfg_bridges cfg)).
Proof.
  unfold build_tor_settings_preserving_live, update_health_and_prune, health_update.
  destruct (BridgesConfig.parsed _ _) as [p|]; [|done]. destruct (writer e) as [s|]; cbn zeta.
  2: { by destruct (is_empty _). }
  intros Hb. exists p, s. split; [done|]. split; [done|]. destruct (note_probe_round _ _ _ _ _ _ _) as [s' pruned].
  by destruct (is_empty _); injection Hb as <-.
Qed.

Lemma alive_found e cfg live parsed b l :
  (b, l) ∈ alive (probe_rounds e cfg live parsed) → ∃ n pool, (b, l) ∈ found_by e n pool.
Proof.
  destruct (probe_rounds_ok e cfg live parsed) as [Hr _]. cbn zeta in Hr. intros Hbl.
  destruct Hr as [[Hn _]|(before & n & pool & _ & Ha & _)]; [rewrite Hn in Hbl; by apply not_elem_of_nil in Hbl|].
  exists n, pool. by rewrite <-Ha.
Qed.

Definition latencies_ok (e : env) : Prop := ∀ n pool b l, Probe.mkReport b (Reachable l) ∈ reports e n pool → 0 ≤ l.

Lemma alive_latencies e cfg live parsed : latencies_ok e → Forall (fun bl => 0 ≤ bl.2) (alive (probe_rounds e cfg live parsed)).
Proof. intros Hl. apply Forall_forall. intros [b l] (n & pool & Hf)%alive_found. apply found_report in Hf. by eapply Hl. Qed.

(** A route that carries traffic is not penalised by the probes that look
    for a better one: the health of a live bridge that did not answer them is
    what it was, unless it was over the limits already. *)
Theorem live_route_is_not_penalised e cfg live s f k :
  writer e = Some s → store_wf s → latencies_ok e →
  (build_tor_settings_preserving_live e cfg live).2 = Some f →
  k ∈ map bridge_identity live → (∀ n pool b l, (b, l) ∈ found_by e n pool → bridge_identity b ≠ k) →
  bm_get k (entries (e_store f)) =
  match bm_get k (entries s) with
  | Some x =>
      if is_dead (ConfigSections.max_fails (cfg_bridges cfg)) (ConfigSections.max_circuit_fails (cfg_bridges cfg)) x then None else Some x
  | None => None
  end.
Proof.
  intros Hw Hs Hl (p & s' & Hp & Hw' & Hf)%build_effects Hk Hnot. rewrite Hw in Hw'. injection Hw' as <-. cbn zeta in Hf.
  set (r := probe_rounds _ _ _ _) in *. apply (f_equal fst) in Hf. cbn [fst] in Hf. rewrite Hf. unfold note_probe_round.
  assert (Hnone : ∀ bl, bl ∈ alive r → key_of bl.1 ≠ k). { intros [b l] (n & pool & Hfd)%alive_found. by eapply Hnot. }
  rewrite prune_get by (apply round_loops_wf; [by apply alive_latencies|done]). rewrite round_loops_get.
  assert (Ha : filter (fun bl => key_of bl.1 = k) (alive r) = []).
  { apply elem_of_nil_inv. intros bl [Hkb Hin]%list_elem_of_filter. by apply (Hnone bl). }
  rewrite Ha. assert (Hr : filter (fun b => key_of b = k) (retain_probe_observations (probed r) live (alive r)) = []).
  { apply elem_of_nil_inv. intros b [Hkb [_ Hor]%filter_elem]%list_elem_of_filter. unfold key_of in Hkb. rewrite Hkb in Hor.
    apply orb_true_iff in Hor as [Hn|Hn]; apply bool_decide_eq_true in Hn; [done|].
    apply list_elem_of_fmap in Hn as (bl & Hkl & Hin). by apply (Hnone bl Hin). }
  by rewrite Hr.
Qed.

Lemma rank_of_elem k ranked n : rank_of k ranked = Some n → ∃ b, b ∈ ranked ∧ bridge_identity b = k.
Proof.
  revert n. induction ranked as [|b ranked IH]; intros n; [done|]. cbn. destruct (decide (bridge_identity b = k)) as [Hk|].
  - intros _. exists b. split; [left|done].
  - destruct (rank_of k ranked) as [m|]; [|done]. intros _. destruct (IH m eq_refl) as (b' & Hb & Hk). exists b'. split; [by right|done].
Qed.

(** Every bridge of the settings is healthy by the store that the same call
    wrote: not retired, without failed probes, and proven reachable. *)
Theorem chosen_bridges_are_proven e cfg live s st f b :
  writer e = Some s → store_wf s → latencies_ok e →
  build_tor_settings_preserving_live e cfg live = (Ok st, Some f) → b ∈ s_bridges st →
  is_retired (e_store f) b = false ∧ tcp_fails (e_store f) b = 0 ∧ 0 < get_ok_count (e_store f) b.
Proof.
  intros Hw Hs Hl Hb Hin. pose proof (f_equal snd Hb) as Hf. apply build_effects in Hf as (p & s' & Hp & Hw' & Hf).
  rewrite Hw in Hw'. injection Hw' as <-. apply build_inv in Hb as (p' & Hp' & Heff & _ & Hsel). rewrite Hp in Hp'. injection Hp' as <-.
  cbn zeta in *. apply Hsel in Hin as (l & _ & Hrank). unfold update_health_and_prune, health_update in Hrank. rewrite Hw in Hrank.
  set (r := probe_rounds _ _ _ _) in *.
  assert (Hwf : store_wf (e_store f)).
  { apply (f_equal fst) in Hf. cbn [fst] in Hf. rewrite Hf. unfold note_probe_round.
    apply prune_wf, round_loops_wf; [by apply alive_latencies|done]. }
  rewrite <-Hf in Hrank. cbn [fst] in Hrank. destruct Hrank as [n Hn]. apply rank_of_elem in Hn as (b' & Hb' & Hk).
  apply healthiest_among_elem in Hb' as (_ & Hr & Ht & Ho); [|done].
  unfold is_retired, tcp_fails, get_ok_count, getter, key_of in *. by rewrite <-Hk.
Qed.
End Setup.

(** ** Witnesses *)

Section Witnesses.
#[local] Existing Instance sample_url.
#[local] Existing Instance sample_tls.
#[local] Existing Instance sample_time.
#[local] Existing Instance sample_lines.

Definition sample_bridges : ConfigSections.BridgesConfig :=
  ConfigSections.mkBridges [bridge_to_string obfs4_bridge] [] true true 8 64 24 60 60 5 30 0 (lit "webtunnel").
Definition sample_config : Config := mkConfig sample_bridges (ConfigSections.mkTor 3) [].

Definition all_reachable (n : nat) (pool : list BridgeLine) : list Probe.Report := map (fun b => Probe.mkReport b (Reachable 7)) pool.
Definition none_reachable (n : nat) (pool : list BridgeLine) : list Probe.Report := map (fun b => Probe.mkReport b (Unreachable [])) pool.

Definition empty_store : BridgeStore := mkStore [] [].
Definition good_env : env := mkEnv 0 (10 : @OffsetDateTime sample_time) None None (Some empty_store) [] all_reachable true true.
Definition bad_env : env := mkEnv 0 (10 : @OffsetDateTime sample_time) None None (Some sample_store) [] none_reachable true true.

Definition chosen : Settings := mkSettings [obfs4_bridge] true [lit "webtunnel"] None 3 4.

Definition has_effects (r : result Settings setup_error * option effects) : bool := match r.2 with Some _ => true | None => false end.

Lemma effects_of r : has_effects r = true → ∃ f, r.2 = Some f.
Proof. unfold has_effects. destruct r.2 as [f|]; [by exists f|done]. Qed.

Lemma good_result : (build_tor_settings_preserving_live good_env sample_config []).1 = Ok chosen.
Proof. vm_compute. reflexivity. Qed.

Lemma good_built : ∃ f, build_tor_settings_preserving_live good_env sample_config [] = (Ok chosen, Some f).
Proof.
  pose proof good_result as Hr.
  assert (Hs : has_effects (build_tor_settings_preserving_live good_env sample_config []) = true) by (vm_compute; reflexivity).
  apply effects_of in Hs as [f Hs]. exists f. rewrite <-Hr, <-Hs. apply surjective_pairing.
Qed.



Lemma good_latencies : latencies_ok good_env.
Proof. intros n pool b l (x & [= _ ->] & _)%list_elem_of_fmap. lia. Qed.

Lemma chosen_bridges_are_proven_witness : ∃ f, is_retired (e_store f) obfs4_bridge = false ∧ 0 < get_ok_count (e_store f) obfs4_bridge.
Proof.
  destruct good_built as [f Hf]. exists f.
  destruct (chosen_bridges_are_proven good_env sample_config [] empty_store chosen f obfs4_bridge) as (Hr & _ & Ho);
    [reflexivity|split; [constructor|done]|exact good_latencies|exact Hf|left|].
  split; [exact Hr|exact Ho].
Defined.

Lemma live_route_is_not_penalised_witness :
  ∃ f, (build_tor_settings_preserving_live bad_env sample_config [obfs4_bridge]).2 = Some f ∧
    bm_get (bridge_identity obfs4_bridge) (entries (e_store f)) = bm_get (bridge_identity obfs4_bridge) (entries sample_store).
Proof.
  assert (Hs : has_effects (build_tor_settings_preserving_live bad_env sample_config [obfs4_bridge]) = true) by (vm_compute; reflexivity).
  apply effects_of in Hs as [f Hf]. exists f. split; [exact Hf|].
  rewrite (live_route_is_not_penalised bad_env sample_config [obfs4_bridge] sample_store f (bridge_identity obfs4_bridge)).
  - reflexivity.
  - reflexivity.
  - exact sample_store_wf.
  - intros n pool b l (x & [= _ Hx] & _)%list_elem_of_fmap.
  - exact Hf.
  - left.
  - intros n pool b l Hin%found_report. apply list_elem_of_fmap in Hin as (x & [= _ Hx] & _).
Defined.
End Witnesses.
End TorSetup.
