(* ===== verification/Maintenance.v ===== *)
(** * Bridge maintenance

    [apps/socks5-proxy/src/bridges/bridge_maintenance.rs] and
    [bridge_maintenance/channel_probe.rs]: which route a refresh keeps, how it
    searches for an authenticated fallback, what it applies to the running
    client, and when it asks for discovery. *)

From S2P Require Import Prelude Order OrdMap Str Net Crates Samples Identity BridgeStore StoreStats GuardObs BridgesConfig TorHealth Verifier ConfigSections Probe TorSetup.
Import Identity Store Stats TorSetup.
Open Scope Z_scope.

Module Maintenance.

(** ** The search for channels *)

Definition PARALLEL_CHECKS : nat := 8.
Definition FALLBACK_POOL_SIZE : nat := 8.

(** How the check of a bridge ends: in time, with the three answers of the
    client ([None] for an error), or not. *)
Inductive outcome : Type :=
| Answered (disabled_before warmed disabled_after : option bool) (elapsed : Z)
| TimedOut.

Definition warm_bridge_proves_channel (r : option bool) : bool := bool_decide (r = Some true).

Definition check (disabled_before warmed disabled_after : option bool) : bool :=
  bool_decide (disabled_before = Some false) && warm_bridge_proves_channel warmed && bool_decide (disabled_after = Some false).

(** The latency of a proven channel. *)
Definition proof_of (o : outcome) : option Z :=
  match o with
  | Answered before warmed after l => if check before warmed after then Some l else None
  | TimedOut => None
  end.

(** What happens next in a round: the check of the bridge at a position ends,
    or the time of the round is over. *)
Inductive check_event : Type :=
| Checked (i : nat) (o : outcome)
| RoundOver.

Record search : Type := mkSearch { started : nat; in_flight : list nat; found : list (nat * Z) }.

(** The buffer is filled before the stream is polled. *)
Definition fill (count : nat) (s : search) : search :=
  let n := Nat.min (PARALLEL_CHECKS - length (in_flight s)) (count - started s) in
  mkSearch (started s + n) (in_flight s ++ seq (started s) n) (found s).

Definition without (i : nat) (l : list nat) : list nat := List.filter (fun j => negb (j =? i)%nat) l.

(** [None]: the events do not end the round. *)
Fixpoint search_loop (count : nat) (es : list check_event) (s : search) : option search :=
  let s := fill count s in
  match in_flight s with
  | [] => Some s
  | _ =>
      match es with
      | [] => None
      | RoundOver :: _ => Some s
      | Checked i o :: es' =>
          if bool_decide (i ∈ in_flight s) then
            let waiting := without i (in_flight s) in
            match proof_of o with
            | Some l =>
                let s := mkSearch (started s) waiting (found s ++ [(i, l)]) in
                if (length (found s) =? FALLBACK_POOL_SIZE)%nat then Some s else search_loop count es' s
            | None => search_loop count es' (mkSearch (started s) waiting (found s))
            end
          else None
      end
  end.

Definition rotate_left {A} (n : nat) (l : list A) : list A := drop n l ++ take n l.

(** What was found, and the cursor for the next round. *)
Definition ready_pool (bridges : list BridgeLine) (cursor : nat) (es : list check_event) : option (list (BridgeLine * Z) * nat) :=
  let count := length bridges in
  if (count =? 0)%nat then Some ([], cursor)
  else
    let rotated := rotate_left (cursor mod count) bridges in
    match search_loop count es (mkSearch 0 [] []) with
    | None => None
    | Some s =>
        Some (omap (fun il => match rotated !! il.1 with Some b => Some (b, il.2) | None => None end) (found s),
              ((cursor + started s) mod count)%nat)
    end.

Section Maintain.
Context `{UrlCrate, TlsCrate, TimeCrate, BridgeLineCrate, Verifier.JsonCrate}.

(** ** Pools *)

Definition preferred_missing (cfg : Config) (bs : list BridgeLine) : bool :=
  match preference cfg with
  | Some t => negb (existsb (uses t) bs)
  | None => false
  end.

Definition preferred_count (cfg : Config) (bs : list BridgeLine) : nat :=
  length (List.filter (fun b => match preference cfg with Some t => uses t b | None => true end) bs).

(** The sets of the texts are equal. *)
Definition same_bridges (a b : list BridgeLine) : bool :=
  bool_decide (list_to_set (map bridge_to_string a) =@{gset str} list_to_set (map bridge_to_string b)).

Definition contains (bs : list BridgeLine) (b : BridgeLine) : bool := bool_decide (b ∈ bs).

Definition can_keep_current (cfg : Config) (configured active : list BridgeLine) : bool :=
  negb (is_empty active) &&
  match preference cfg with Some t => forallb (uses t) active | None => true end &&
  forallb (contains configured) active.

(** The obfs4 lines, the selected ones first, each identity once. *)
Definition candidates (configured selected : list BridgeLine) : list BridgeLine :=
  (fold_left (fun acc b =>
     if bool_decide (key_of b ∈ acc.2) then acc else (acc.1 ++ [b], {[key_of b]} ∪ acc.2))
   (List.filter (uses (lit "obfs4")) (selected ++ configured)) ([], ∅ : gset Key)).1.

(** ** The state of the task

    [active] and [channel_cursor] are its own variables, [shown] the bridges of
    the handle, [accepted] the settings the running client took, the latest
    last. *)
Record maintainer : Type := mkMaintainer {
  active : Settings;
  channel_cursor : nat;
  shown : TorHealth.ActiveBridges;
  accepted : list Settings;
}.

Definition with_cursor (c : nat) (m : maintainer) : maintainer := mkMaintainer (active m) c (shown m) (accepted m).

Inductive maintenance_error : Type :=
| BadConfig (idx : nat)
| StoreUnreadable
| ReconfigureFailed
| LoadFailed
| DiscoveryFailed.

(** [apply]: whether the client takes the settings. *)
Definition apply_pool (apply : bool) (m : maintainer) (selected : Settings) : result (maintainer * bool) maintenance_error :=
  if is_empty (s_bridges selected) || same_bridges (s_bridges (active m)) (s_bridges selected) then Ok (m, false)
  else if apply then Ok (mkMaintainer selected (channel_cursor m) (shown m) (accepted m ++ [selected]), true)
  else Err ReconfigureFailed.

Definition activate (apply : bool) (now : Z) (m : maintainer) (selected : Settings) : result maintainer maintenance_error :=
  match apply_pool apply m selected with
  | Ok (m', true) =>
      Ok (mkMaintainer (active m') (channel_cursor m') (TorHealth.update now (s_bridges (active m')) (shown m')) (accepted m'))
  | Ok (m', false) => Ok m'
  | Err e => Err e
  end.

(** ** The fallback *)

(** The health store as it loads and as the writer has it, the clock, and the
    events of the rounds over the current route and over the others. *)
Record fallback_env : Type := mkFallbackEnv {
  fb_seconds : Z;
  fb_load : option BridgeStore;
  fb_writer : option BridgeStore;
  fb_now : OffsetDateTime;
  current_checks : list check_event;
  pool_checks : list check_event;
}.

(** The closure given to the writer. *)
Definition note_channels (found : list (BridgeLine * Z)) (now : OffsetDateTime) (s : BridgeStore) : BridgeStore :=
  let bridges := map fst found in
  fold_left (fun s b => note_channel_success_at s b now) bridges
    (note_probe_round s bridges found now 0 u32_max u32_max).1.

(** What a call ends with: whether a route may be applied, the selection, the
    cursor and the store after its update. *)
Record fallback : Type := mkFallback {
  granted : bool;
  selection : Settings;
  next_cursor : nat;
  fb_store : option BridgeStore;
}.

Definition with_bridges (bs : list BridgeLine) (s : Settings) : Settings :=
  mkSettings bs (s_pt_binary s) (s_extra_pt_protocols s) (s_obfs4_iat_mode s) (s_circuit_hops s) (s_service_circuit_hops s).

Definition current_in (pool : list BridgeLine) (active : Settings) : list BridgeLine := List.filter (contains pool) (s_bridges active).

Definition remaining_in (pool : list BridgeLine) (active : Settings) (prefer_current : bool) : list BridgeLine :=
  List.filter (fun b => negb prefer_current || negb (contains (current_in pool active) b)) pool.

(** [None]: the events do not end the rounds. *)
Definition authenticate_fallback (e : fallback_env) (cfg : Config) (active selected : Settings) (cursor : nat) (prefer_current : bool) :
  option (result fallback maintenance_error) :=
  if negb (forallb (uses (lit "obfs4")) (s_bridges selected)) then Some (Ok (mkFallback true selected cursor None))
  else
    match BridgesConfig.parsed (fb_seconds e) (ConfigSections.lines (cfg_bridges cfg)) with
    | Err idx => Some (Err (BadConfig idx))
    | Ok p =>
        let configured := not_ruled_out (fb_load e) cfg (BridgesConfig.bridges p) in
        let pool := candidates configured (s_bridges selected) in
        match (if prefer_current then ready_pool (current_in pool active) 0 (current_checks e) else Some ([], 0%nat)) with
        | None => None
        | Some (current_ready, _) =>
            match (if is_empty current_ready then ready_pool (remaining_in pool active prefer_current) cursor (pool_checks e)
                   else Some (current_ready, cursor)) with
            | None => None
            | Some (found, cursor') =>
                if is_empty found then Some (Ok (mkFallback false selected cursor' None))
                else
                  let bridges := map fst found in
                  let store :=
                    if same_bridges (s_bridges active) bridges then None
                    else option_map (note_channels found (fb_now e)) (fb_writer e) in
                  Some (Ok (mkFallback true (with_bridges bridges selected) cursor' store))
            end
        end
    end.

(** ** Routes *)

Definition CONNECTION_REFRESH_INTERVAL : Z := from_secs 60.
Definition RECOVERY_REFRESH_INTERVAL : Z := from_secs 15.

(** What one refresh of the routes is given. The health record is shared with
    the connections, so it is what each read finds. *)
Record route_env : Type := mkRouteEnv {
  re_seconds : Z;
  re_writer : option BridgeStore;
  re_sink : GuardObs.ObservationSink;
  re_clock : OffsetDateTime;
  re_now : Z;
  re_health : TorHealth.TorHealth;
  re_ready : bool;
  re_body : option str;
  re_setup : env;
  re_settle_now : Z;
  re_settle_success : option Z;
  re_fallback : fallback_env;
  re_apply : bool;
  re_applied_at : Z;
}.

(** Whether the route works, and whether a success is recorded. *)
Definition live_route_works (e : route_env) : bool * bool :=
  if TorHealth.successful_within (re_now e) RECOVERY_REFRESH_INTERVAL (re_health e) then (true, false)
  else if negb (re_ready e) then (false, false)
  else match re_body e with
       | Some body => if Verifier.confirms_tor body then (true, true) else (false, false)
       | None => (false, false)
       end.

(** The effects on the store, the queue of observations and the health. *)
Record route_effects : Type := mkRouteEffects {
  drained : option (BridgeStore * GuardObs.ObservationSink);
  set_up : option effects;
  channels : option BridgeStore;
  success_recorded : bool;
}.

Definition route_works (e : route_env) (configured : list BridgeLine) (m : maintainer) : bool * bool :=
  if negb (is_empty (s_bridges (active m))) && forallb (contains configured) (s_bridges (active m)) then live_route_works e
  else (false, false).

(** [None]: the events do not end the rounds of checks. *)
Definition refresh_routes (e : route_env) (cfg : Config) (m : maintainer) :
  option (result nat maintenance_error * maintainer * route_effects) :=
  match BridgesConfig.parsed (re_seconds e) (ConfigSections.lines (cfg_bridges cfg)) with
  | Err idx => Some (Err (BadConfig idx), m, mkRouteEffects None None None false)
  | Ok p =>
      let configured := BridgesConfig.bridges p in
      match re_writer e with
      | None => Some (Err StoreUnreadable, m, mkRouteEffects None None None false)
      | Some s =>
          let '(s', _, sink') :=
            GuardObs.drain_into_store (re_sink e) s configured (re_clock e)
              (minutes (ConfigSections.circuit_observation_window_mins (cfg_bridges cfg))) in
          let '(works, success) := route_works e configured m in
          let keep_current := works && can_keep_current cfg configured (s_bridges (active m)) in
          let live := if keep_current then s_bridges (active m) else [] in
          let '(built, eff) := build_tor_settings_preserving_live (re_setup e) cfg live in
          let effects := fun ch => mkRouteEffects (Some (s', sink')) eff ch success in
          match built with
          | Err _ => Some (Ok (if keep_current then 1%nat else 0%nat), m, effects None)
          | Ok selected =>
              if keep_current then Some (Ok (Nat.max (preferred_count cfg (s_bridges selected)) 1), m, effects None)
              else
                let settling := TorHealth.settling (re_settle_now e) (re_settle_success e) (shown m) in
                match authenticate_fallback (re_fallback e) cfg (active m) selected (channel_cursor m) (works || settling) with
                | None => None
                | Some (Err err) => Some (Err err, m, effects None)
                | Some (Ok f) =>
                    let m := with_cursor (next_cursor f) m in
                    if negb (granted f) then Some (Ok 0%nat, m, effects (fb_store f))
                    else
                      match activate (re_apply e) (re_applied_at e) m (selection f) with
                      | Err err => Some (Err err, m, effects (fb_store f))
                      | Ok m' => Some (Ok (preferred_count cfg (s_bridges (selection f))), m', effects (fb_store f))
                      end
                end
          end
      end
  end.

(** ** One cycle *)

(** The task with what it tells the connections, when it looks at recovery
    signals again, and the effects of its refreshes. *)
Record task : Type := mkTask {
  maint : maintainer;
  needed : bool;
  next_recovery : Z;
  log : list route_effects;
}.

Definition set_needed (cfg : Config) (usable : nat) (t : task) : task :=
  mkTask (maint t)
    (ConfigSections.auto_fetch (cfg_bridges cfg) && ((usable =? 0)%nat || preferred_missing cfg (s_bridges (active (maint t)))))
    (next_recovery t) (log t).

Definition set_next_recovery (now : Z) (t : task) : task :=
  mkTask (maint t) (needed t) (now + RECOVERY_REFRESH_INTERVAL) (log t).

Definition routes (e : route_env) (cfg : Config) (t : task) : option (result nat maintenance_error * task) :=
  match refresh_routes e cfg (maint t) with
  | Some (r, m, eff) => Some (r, mkTask m (needed t) (next_recovery t) (log t ++ [eff]))
  | None => None
  end.

Definition compute_deficit (min_alive tcp_alive circuit_healthy : nat) : nat :=
  (min_alive - Nat.min tcp_alive circuit_healthy)%nat.

(** While discovery runs: it ends, with the number of bridges it added, or a
    recovery signal is taken at an instant. *)
Inductive discovery_event : Type :=
| Finished (added : option nat)
| Recheck (taken : Z) (e : route_env) (over : Z).

Fixpoint discover (cfg : Config) (evs : list discovery_event) (usable : nat) (t : task) :
  option (result nat maintenance_error * nat * task) :=
  match evs with
  | [] => None
  | Finished (Some added) :: _ => Some (Ok added, usable, t)
  | Finished None :: _ => Some (Err DiscoveryFailed, usable, t)
  | Recheck taken e over :: evs' =>
      if taken <? next_recovery t then None
      else
        match routes e cfg t with
        | None => None
        | Some (r, t) =>
            let usable := match r with Ok count => count | Err _ => usable end in
            discover cfg evs' usable (set_next_recovery over (set_needed cfg usable t))
        end
  end.

(** What a cycle is given: the configuration as it loads, whether there is a
    client, and the refreshes and discovery in it. *)
Record cycle_env : Type := mkCycleEnv {
  cy_config : option Config;
  cy_tunnel : bool;
  cy_routes : route_env;
  cy_over : Z;
  cy_discovery : list discovery_event;
  cy_latest : option Config;
  cy_last : route_env;
}.

Definition discovers (cfg : Config) (usable : nat) : bool :=
  let minimum := Nat.max (Z.to_nat (ConfigSections.min_alive (cfg_bridges cfg))) (if bool_decide (is_Some (preference cfg)) then 1 else 0) in
  ConfigSections.auto_fetch (cfg_bridges cfg) && (0 <? compute_deficit minimum usable usable)%nat.

(** How many bridges discovery is asked for. *)
Definition discovery_target (cfg : Config) (usable : nat) (t : task) : nat :=
  let minimum := Nat.max (Z.to_nat (ConfigSections.min_alive (cfg_bridges cfg))) (if bool_decide (is_Some (preference cfg)) then 1 else 0) in
  if (usable =? 0)%nat || preferred_missing cfg (s_bridges (active (maint t))) then 1
  else Nat.min (compute_deficit minimum usable usable) 3.

Definition refresh (e : cycle_env) (t : task) : option (result unit maintenance_error * task) :=
  match cy_config e with
  | None => Some (Err LoadFailed, t)
  | Some cfg =>
      if negb (cy_tunnel e) then Some (Ok tt, t)
      else
        match routes (cy_routes e) cfg t with
        | None => None
        | Some (Err err, t) => Some (Err err, t)
        | Some (Ok usable, t) =>
            let t := set_needed cfg usable (set_next_recovery (cy_over e) t) in
            if discovers cfg usable then
              match discover cfg (cy_discovery e) usable t with
              | None => None
              | Some (Err err, _, t) => Some (Err err, t)
              | Some (Ok added, usable, t) =>
                  if (0 <? added)%nat then
                    match cy_latest e with
                    | None => Some (Err LoadFailed, t)
                    | Some latest =>
                        match routes (cy_last e) latest t with
                        | None => None
                        | Some (Err err, t) => Some (Err err, t)
                        | Some (Ok usable, t) => Some (Ok tt, set_needed cfg usable t)
                        end
                    end
                  else Some (Ok tt, set_needed cfg usable t)
              end
            else Some (Ok tt, set_needed cfg usable t)
        end
  end.

(** ** The loop of the task *)

Inductive trigger : Type := Startup | Recovery | Tick | Request.

(** What the select finds when it completes: the time, whether the token is
    cancelled and the ticker due, and the permits. *)
Record wake_env : Type := mkWakeEnv {
  w_now : Z;
  w_cancelled : bool;
  w_due : bool;
  w_recovery : bool;
  w_request : bool;
}.

Inductive wake_result : Type :=
| Break
| Woken (by_ : trigger).

Record loop_state : Type := mkLoop { first : bool; next_allowed : Z; the_task : task }.

(** The branches in their order; [None] while all of them are pending. *)
Definition wake (interval_mins : Z) (w : wake_env) (l : loop_state) : option wake_result :=
  if first l then Some (Woken Startup)
  else if w_cancelled w then Some Break
  else if (next_recovery (the_task l) <=? w_now w) && w_recovery w then Some (Woken Recovery)
  else if negb (interval_mins =? 0) && w_due w then Some (Woken Tick)
  else if (next_allowed l <=? w_now w) && w_request w then Some (Woken Request)
  else None.

(** A turn of the loop: what woke it, the result of the cycle, and the instant
    the cycle ended. *)
Definition turn (interval_mins : Z) (w : wake_env) (c : cycle_env) (over : Z) (l : loop_state) :
  option (wake_result * option (result unit maintenance_error) * loop_state) :=
  match wake interval_mins w l with
  | None => None
  | Some Break => Some (Break, None, l)
  | Some (Woken by_) =>
      match refresh c (the_task l) with
      | None => None
      | Some (r, t) => Some (Woken by_, Some r, mkLoop false (over + CONNECTION_REFRESH_INTERVAL) t)
      end
  end.

Definition spawn (m : maintainer) (now : Z) : loop_state := mkLoop true now (mkTask m false now []).

(** The turns of a task, up to its break. *)
Inductive turns (interval_mins : Z) : loop_state → loop_state → Prop :=
| turns_refl l : turns interval_mins l l
| turns_step l l' l'' w c over by_ r :
    turns interval_mins l l' → turn interval_mins w c over l' = Some (Woken by_, r, l'') → turns interval_mins l l''.
End Maintain.

(** ** A round of checks *)

Record search_ok (count : nat) (s : search) : Prop := mkSearchOk {
  so_started : (started s ≤ count)%nat;
  so_parallel : (length (in_flight s) ≤ PARALLEL_CHECKS)%nat;
  so_flight : Forall (fun i => (i < started s)%nat) (in_flight s);
  so_found : Forall (fun il => (il.1 < started s)%nat) (found s);
  so_distinct : NoDup (in_flight s ++ map fst (found s));
}.

Lemma fill_ok count s : search_ok count s → search_ok count (fill count s).
Proof.
  intros [H1 H2 H3 H4 H5]. unfold fill. set (n := Nat.min _ _).
  split; cbn [started in_flight found]; [lia| | | |].
  - rewrite length_app, length_seq. lia.
  - apply Forall_app_2; [eapply Forall_impl; [exact H3|cbn; lia]|]. apply Forall_forall. intros i Hi%elem_of_seq. lia.
  - eapply Forall_impl; [exact H4|cbn; lia].
  - rewrite <-app_assoc, (Permutation_app_comm (seq _ _)), app_assoc. apply NoDup_app. split; [done|]. split; [|apply NoDup_seq].
    intros i Hi Hs%elem_of_seq. apply elem_of_app in Hi as [Hi|Hi].
    + rewrite Forall_forall in H3. apply H3 in Hi. lia.
    + apply list_elem_of_fmap in Hi as (il & -> & Hi). rewrite Forall_forall in H4. apply H4 in Hi. lia.
Qed.

Lemma without_elem i j l : j ∈ without i l ↔ j ∈ l ∧ j ≠ i.
Proof. unfold without. rewrite filter_elem, negb_true_iff, Nat.eqb_neq. done. Qed.

Lemma without_sub i l : sublist (without i l) l.
Proof.
  unfold without. induction l as [|j l IH]; [constructor|]. cbn. destruct (negb _); by constructor.
Qed.

Lemma ended_ok count s i : search_ok count s → search_ok count (mkSearch (started s) (without i (in_flight s)) (found s)).
Proof.
  intros [H1 H2 H3 H4 H5]. pose proof (without_sub i (in_flight s)) as Hs. split; cbn [started in_flight found]; [done| | |done|].
  - apply sublist_length in Hs. lia.
  - rewrite Forall_forall in *. intros j [Hj _]%without_elem. by apply H3.
  - eapply sublist_NoDup; [exact H5|]. by apply sublist_app.
Qed.

Lemma proven_ok count s i l :
  search_ok count s → i ∈ in_flight s → search_ok count (mkSearch (started s) (without i (in_flight s)) (found s ++ [(i, l)])).
Proof.
  intros Hok Hi. destruct (ended_ok count s i Hok) as [H1 H2 H3 H4 H5]. cbn in *. split; cbn [started in_flight found]; [done..| |].
  - apply Forall_app_2; [done|]. constructor; [|constructor]. destruct Hok as [_ _ Hf _ _]. rewrite Forall_forall in Hf. by apply Hf.
  - rewrite map_app, app_assoc. apply NoDup_app. split; [done|]. split; [|apply NoDup_singleton].
    intros j Hj ->%list_elem_of_singleton. apply elem_of_app in Hj as [Hj|Hj]; [by apply without_elem in Hj as [_ ?]|].
    destruct Hok as [_ _ _ _ Hd]. apply NoDup_app in Hd as (_ & Hd & _). by apply (Hd i).
Qed.

(** What holds of the end of a round. *)
Record round_end (count : nat) (es : list check_event) (s s' : search) : Prop := mkRoundEnd {
  re_ok : search_ok count s';
  re_grows : (started (fill count s) ≤ started s')%nat;
  re_size : (length (found s') ≤ FALLBACK_POOL_SIZE)%nat;
  re_proven : ∀ i l, (i, l) ∈ found s' → (i, l) ∈ found s ∨ ∃ o, Checked i o ∈ es ∧ proof_of o = Some l;
  re_why : RoundOver ∈ es ∨ length (found s') = FALLBACK_POOL_SIZE ∨ started s' = count ∧ in_flight s' = [];
}.

Lemma fill_grows count s : (started s ≤ started (fill count s))%nat.
Proof. unfold fill. cbn. lia. Qed.

Lemma fill_idle count s : in_flight (fill count s) = [] → search_ok count s → started (fill count s) = count.
Proof.
  unfold fill. cbn [in_flight started]. intros [Hn Hs]%app_eq_nil [Hc _ _ _ _]. rewrite Hn in *.
  apply (f_equal length) in Hs. rewrite length_seq in Hs. unfold PARALLEL_CHECKS in *. cbn [length] in *. lia.
Qed.

Lemma round_end_step count e es s s' s1 :
  started s1 = started (fill count s) → round_end count es s1 s' →
  (∀ i l, (i, l) ∈ found s1 → (i, l) ∈ found s ∨ ∃ o, Checked i o = e ∧ proof_of o = Some l) →
  round_end count (e :: es) s s'.
Proof.
  intros Hst [H1 H2 H3 H4 H5] Hf. split; [done| |done| |].
  - pose proof (fill_grows count s1). lia.
  - intros i l [Hi|(o & Ho & Hp)]%H4.
    + destruct (Hf i l Hi) as [|(o & <- & Hp)]; [by left|]. right. exists o. split; [left|done].
    + right. exists o. split; [by right|done].
  - destruct H5 as [H5|H5]; [left; by right|by right].
Qed.

Lemma search_loop_end count es s s' :
  search_ok count s → (length (found s) < FALLBACK_POOL_SIZE)%nat → search_loop count es s = Some s' → round_end count es s s'.
Proof.
  revert s. induction es as [|e es IH]; intros s Hok Hlen; cbn [search_loop]; pose proof (fill_ok count s Hok) as Hf.
  - destruct (in_flight (fill count s)) as [|x xs] eqn:He; [|done]. intros [= <-]. split; [done|done|cbn; lia|by left|].
    right. right. split; [by apply fill_idle|done].
  - destruct (in_flight (fill count s)) as [|x xs] eqn:He.
    { intros [= <-]. split; [done|done|cbn; lia|by left|]. right. right. split; [by apply fill_idle|done]. }
    rewrite <-He. clear He x xs. destruct e as [i o|].
    2: { intros [= <-]. split; [done|done|cbn; lia|by left|left; left]. }
    case_bool_decide as Hi; [|done]. destruct (proof_of o) as [l|] eqn:Ho.
    + assert (Hnew : ∀ j l', (j, l') ∈ found s ++ [(i, l)] → (j, l') ∈ found s ∨ ∃ o', Checked j o' = Checked i o ∧ proof_of o' = Some l').
      { intros j l' [Hj|[= -> ->]%list_elem_of_singleton]%elem_of_app; [by left|]. right. by exists o. }
      change (found (fill count s)) with (found s).
      set (s1 := mkSearch (started (fill count s)) (without i (in_flight (fill count s))) (found s ++ [(i, l)])).
      assert (Hs1 : search_ok count s1) by exact (proven_ok count (fill count s) i l Hf Hi).
      assert (Hl1 : length (found s1) = S (length (found s))) by (cbn; rewrite length_app; cbn; lia).
      cbn zeta. destruct (Nat.eqb_spec (length (found s1)) FALLBACK_POOL_SIZE) as [Hl|Hl].
      * intros [= <-]. split; [done|done|lia| |by right; left]. intros j l' [|(o' & Ho' & Hp)]%Hnew; [by left|right].
        exists o'. split; [rewrite Ho'; left|done].
      * intros Hs. by eapply round_end_step; [|apply IH; [exact Hs1| |exact Hs]|exact Hnew]; [|lia].
    + intros Hs. eapply round_end_step; [|apply IH; [exact (ended_ok count (fill count s) i Hf)|exact Hlen|exact Hs]|]; [done|by left].
Qed.

(** ** Every bridge is reached *)

(** The bridges that a round starts to check. *)
Definition checked_in (bridges : list BridgeLine) (cursor : nat) (es : list check_event) : list BridgeLine :=
  match search_loop (length bridges) es (mkSearch 0 [] []) with
  | Some s => take (started s) (rotate_left (cursor mod length bridges) bridges)
  | None => []
  end.

(** Rounds over the same bridges, each with the cursor the one before left:
    what each of them checks. *)
Fixpoint rounds_over (bridges : list BridgeLine) (cursor : nat) (rounds : list (list check_event)) : option (list (list BridgeLine)) :=
  match rounds with
  | [] => Some []
  | es :: rounds' =>
      match ready_pool bridges cursor es with
      | Some (_, cursor') => option_map (cons (checked_in bridges cursor es)) (rounds_over bridges cursor' rounds')
      | None => None
      end
  end.

Lemma rotate_lookup {A} (l : list A) c d :
  (d < length l)%nat → rotate_left (c mod length l) l !! d = l !! ((c + d) mod length l)%nat.
Proof.
  intros Hd. unfold rotate_left. pose proof (Nat.mod_upper_bound c (length l)) as Hc. set (k := (c mod length l)%nat) in *.
  assert (Hm : ((c + d) mod length l)%nat = ((k + d) mod length l)%nat) by (unfold k; by rewrite Nat.Div0.add_mod_idemp_l).
  rewrite Hm. destruct (decide (k + d < length l)%nat) as [Hs|Hs].
  - rewrite Nat.mod_small by done. rewrite lookup_app_l by (rewrite length_drop; lia). by rewrite lookup_drop.
  - rewrite lookup_app_r by (rewrite length_drop; lia). rewrite length_drop, lookup_take_lt by lia.
    f_equal. rewrite <-(Nat.mod_small (d - (length l - k)) (length l)) by lia.
    rewrite <-(Nat.Div0.mod_add (d - (length l - k)) 1). f_equal. lia.
Qed.

Lemma empty_search_ok count : search_ok count (mkSearch 0 [] []).
Proof. split; cbn; [lia|lia|constructor|constructor|constructor]. Qed.

Lemma round_starts count es s' :
  search_loop count es (mkSearch 0 [] []) = Some s' →
  round_end count es (mkSearch 0 [] []) s' ∧ (Nat.min PARALLEL_CHECKS count ≤ started s' ≤ count)%nat.
Proof.
  intros Hs%search_loop_end; [|apply empty_search_ok|cbn; unfold FALLBACK_POOL_SIZE; lia]. split; [done|].
  destruct Hs as [[Hc _ _ _ _] Hg _ _ _]. unfold fill in Hg. cbn [started in_flight length] in Hg. lia.
Qed.

Lemma rounds_reach bridges cursor rounds checked d b :
  rounds_over bridges cursor rounds = Some checked → bridges !! ((cursor + d) mod length bridges)%nat = Some b →
  (d < length bridges)%nat → (d < PARALLEL_CHECKS * length rounds)%nat → ∃ round, round ∈ checked ∧ b ∈ round.
Proof.
  revert cursor d checked. induction rounds as [|es rounds IH]; intros cursor d checked; [cbn; lia|].
  cbn [rounds_over length]. unfold ready_pool. intros Hr Hb Hd Hlen.
  rewrite (proj2 (Nat.eqb_neq (length bridges) 0)) in Hr by lia.
  destruct (search_loop (length bridges) es (mkSearch 0 [] [])) as [s|] eqn:Hs; [|done].
  destruct (rounds_over _ _ rounds) as [rest|] eqn:Hrest; [|done]. injection Hr as <-.
  pose proof (round_starts _ _ _ Hs) as [_ [Hlo Hhi]].
  destruct (decide (d < started s)%nat) as [Hds|Hds].
  - exists (checked_in bridges cursor es). split; [left|]. unfold checked_in. rewrite Hs.
    apply (list_elem_of_lookup_2 _ d). rewrite lookup_take_lt by done. by rewrite rotate_lookup.
  - destruct (IH _ (d - started s)%nat rest Hrest) as (round & Hin & Hbr); [|lia| |exists round; split; [by right|done]].
    + rewrite Nat.Div0.add_mod_idemp_l, <-Hb. do 2 f_equal. lia.
    + unfold PARALLEL_CHECKS in *. lia.
Qed.

(** C18: The search for an authenticated fallback starves no candidate: as the
    cursor moves on by the checks a round started, n rounds over up to 8·n
    bridges check every one of them, wherever the cursor stood and however
    slow or dead the bridges before it are. *)
Theorem search_reaches_every_bridge bridges cursor rounds checked b :
  rounds_over bridges cursor rounds = Some checked → (length bridges ≤ PARALLEL_CHECKS * length rounds)%nat → b ∈ bridges →
  ∃ round, round ∈ checked ∧ b ∈ round.
Proof.
  intros Hr Hlen [j Hj]%list_elem_of_lookup. pose proof (lookup_lt_Some _ _ _ Hj) as Hjl. set (n := length bridges) in *.
  set (d := ((j + (n - cursor mod n)) mod n)%nat). assert (Hd : (d < n)%nat) by (apply Nat.mod_upper_bound; lia).
  eapply (rounds_reach bridges cursor rounds checked d); [done| |done|fold n; lia]. fold n. rewrite <-Hj. f_equal. unfold d.
  rewrite Nat.Div0.add_mod_idemp_r. rewrite <-(Nat.Div0.add_mod_idemp_l cursor).
  pose proof (Nat.mod_upper_bound cursor n). rewrite <-(Nat.mod_small j n) at 2 by done.
  rewrite <-(Nat.Div0.mod_add j 1 n). f_equal. lia.
Qed.

(** ** Routes *)

(** A check of a round over the bridges proved a channel to the bridge: the
    client opened it, and the bridge was disabled neither before nor after. *)
Definition proven_in (bridges : list BridgeLine) (cursor : nat) (es : list check_event) (b : BridgeLine) : Prop :=
  ∃ i l, Checked i (Answered (Some false) (Some true) (Some false) l) ∈ es ∧
    rotate_left (cursor mod length bridges) bridges !! i = Some b.

Lemma check_true before warmed after :
  check before warmed after = true → before = Some false ∧ warmed = Some true ∧ after = Some false.
Proof. unfold check, warm_bridge_proves_channel. rewrite !andb_true_iff, !bool_decide_eq_true. tauto. Qed.

Lemma ready_pool_proves bridges cursor es found cursor' b l :
  ready_pool bridges cursor es = Some (found, cursor') → (b, l) ∈ found → proven_in bridges cursor es b.
Proof.
  unfold ready_pool. destruct (_ =? 0)%nat; [intros [= <- <-] []%not_elem_of_nil|].
  destruct (search_loop _ _ _) as [s|] eqn:Hs; [|done]. intros [= <- _] ([i l'] & Hi & Hl)%list_elem_of_omap. cbn in Hl.
  case_match eqn:Hb; [|done]. injection Hl as <- <-. apply round_starts in Hs as [[_ _ _ Hp _] _].
  destruct (Hp i l' Hi) as [[]%not_elem_of_nil|(o & Hin & Ho)]. destruct o as [before warmed after l''|]; [|done]. cbn in Ho.
  destruct (check before warmed after) eqn:Hc; [|done]. apply check_true in Hc as (-> & -> & ->). by exists i, l''.
Qed.

Lemma rotate_elem {A} n (l : list A) x : x ∈ rotate_left n l → x ∈ l.
Proof. unfold rotate_left. intros Hx. rewrite <-(take_drop n l). set_solver. Qed.

Lemma proven_elem bridges cursor es b : proven_in bridges cursor es b → b ∈ bridges.
Proof. intros (i & _ & _ & Hb). eapply rotate_elem, list_elem_of_lookup_2, Hb. Qed.

Section Routes.
Context `{UrlCrate, TlsCrate, TimeCrate, BridgeLineCrate, Verifier.JsonCrate}.

Lemma candidates_obfs4 configured selected b :
  b ∈ candidates configured selected → uses (lit "obfs4") b = true ∧ (b ∈ selected ∨ b ∈ configured).
Proof.
  unfold candidates. set (l := List.filter _ _). assert (Hl : ∀ x, x ∈ l → uses (lit "obfs4") x = true ∧ (x ∈ selected ∨ x ∈ configured)).
  { intros x [Hx Hu]%filter_elem. split; [done|]. by apply elem_of_app. }
  clearbody l. assert (Hacc : ∀ acc : list BridgeLine * gset Key, b ∈ (fold_left (fun acc b =>
     if bool_decide (key_of b ∈ acc.2) then acc else (acc.1 ++ [b], {[key_of b]} ∪ acc.2)) l acc).1 → b ∈ acc.1 ∨ b ∈ l).
  { clear Hl. induction l as [|x l IH]; intros acc; cbn [fold_left]; [by left|]. intros [Hb|Hb]%IH; [|by right; right].
    case_bool_decide; [by left|]. cbn [fst] in Hb. apply elem_of_app in Hb as [Hb| ->%list_elem_of_singleton]; [by left|right; left]. }
  intros [[]%not_elem_of_nil|Hb]%Hacc. by apply Hl.
Qed.

(** The checks of a fallback proved a channel to the bridge. *)
Definition channel_proven (e : fallback_env) (cfg : Config) (active selected : Settings) (cursor : nat) (prefer_current : bool)
  (b : BridgeLine) : Prop :=
  ∃ p, BridgesConfig.parsed (fb_seconds e) (ConfigSections.lines (cfg_bridges cfg)) = Ok p ∧
  let pool := candidates (not_ruled_out (fb_load e) cfg (BridgesConfig.bridges p)) (s_bridges selected) in
  proven_in (current_in pool active) 0 (current_checks e) b ∨ proven_in (remaining_in pool active prefer_current) cursor (pool_checks e) b.

Lemma granted_inv e cfg active selected cursor prefer_current f :
  authenticate_fallback e cfg active selected cursor prefer_current = Some (Ok f) → granted f = true →
  (selection f = selected ∧ ∃ b, b ∈ s_bridges selected ∧ uses (lit "obfs4") b = false) ∨
  s_bridges (selection f) ≠ [] ∧
  ∀ b, b ∈ s_bridges (selection f) → uses (lit "obfs4") b = true ∧ channel_proven e cfg active selected cursor prefer_current b.
Proof.
  unfold authenticate_fallback. destruct (forallb _ _) eqn:Hall; cbn [negb].
  2: { intros [= <-] _. left. split; [done|]. cbn [selection] in *.
       induction (s_bridges selected) as [|b bs IH]; [done|]. cbn in Hall. apply andb_false_iff in Hall as [Hu|Hall]; [by exists b; split; [left|]|].
       destruct (IH Hall) as (b' & Hb & Hu). exists b'. split; [by right|done]. }
  destruct (BridgesConfig.parsed _ _) as [p|] eqn:Hp; [|done]. cbn zeta. set (pool := candidates _ _).
  assert (Hfinish : ∀ found b,
    (∀ b l, (b, l) ∈ found → proven_in (current_in pool active) 0 (current_checks e) b ∨
      proven_in (remaining_in pool active prefer_current) cursor (pool_checks e) b) →
    b ∈ map fst (found : list (BridgeLine * Z)) → uses (lit "obfs4") b = true ∧ channel_proven e cfg active selected cursor prefer_current b).
  { intros found b Hf ([b' l] & -> & Hin)%list_elem_of_fmap. cbn [fst]. specialize (Hf b' l Hin). split.
    - assert (Hb : b' ∈ pool).
      { destruct Hf as [Hf%proven_elem|Hf%proven_elem]; apply filter_elem in Hf as [Hx Hc]; [by apply bool_decide_eq_true in Hc|done]. }
      by apply candidates_obfs4 in Hb as [? _].
    - exists p. by split. }
  destruct (if prefer_current then _ else _) as [[ready c0]|] eqn:Hr; [|done].
  destruct (if is_empty ready then _ else _) as [[found cursor']|] eqn:Hf; [|done].
  destruct (is_empty found) eqn:He; [by intros [= <-]|]. intros [= <-] _. right. cbn [selection with_bridges s_bridges].
  split; [by destruct found|]. intros b Hb. eapply Hfinish; [|exact Hb]. intros b' l Hin.
  destruct (is_empty ready) eqn:Hre; [right; by eapply ready_pool_proves|left]. injection Hf as <- <-.
  destruct prefer_current; [by eapply ready_pool_proves|]. by injection Hr as <- _.
Qed.

Definition keeps_current (e : route_env) (cfg : Config) (configured : list BridgeLine) (m : maintainer) : bool :=
  (route_works e configured m).1 && can_keep_current cfg configured (s_bridges (active m)).

(** The current route is tried before others. *)
Definition prefers_current (e : route_env) (configured : list BridgeLine) (m : maintainer) : bool :=
  (route_works e configured m).1 || TorHealth.settling (re_settle_now e) (re_settle_success e) (shown m).

Lemma activate_inv apply now m selected m' :
  activate apply now m selected = Ok m' →
  m' = m ∨
  apply = true ∧ s_bridges selected ≠ [] ∧ active m' = selected ∧ channel_cursor m' = channel_cursor m ∧
  accepted m' = accepted m ++ [selected] ∧ TorHealth.bridges (shown m') = s_bridges selected.
Proof.
  unfold activate, apply_pool. destruct (is_empty (s_bridges selected)) eqn:He; cbn [orb]; [intros [= <-]; by left|].
  destruct (same_bridges _ _); [intros [= <-]; by left|]. destruct apply; [|done]. intros [= <-]. right.
  cbn [active channel_cursor accepted shown]. split; [done|]. split; [by destruct (s_bridges selected)|]. split; [done|].
  split; [done|]. split; [done|]. unfold TorHealth.update. by case_bool_decide.
Qed.

(** The cases of a refresh that changes more than the cursor. *)
Lemma refresh_routes_inv e cfg m r m' eff :
  refresh_routes e cfg m = Some (r, m', eff) →
  (∃ c, m' = with_cursor c m) ∨
  ∃ p selected f,
    BridgesConfig.parsed (re_seconds e) (ConfigSections.lines (cfg_bridges cfg)) = Ok p ∧
    let configured := BridgesConfig.bridges p in
    keeps_current e cfg configured m = false ∧
    (build_tor_settings_preserving_live (re_setup e) cfg []).1 = Ok selected ∧
    authenticate_fallback (re_fallback e) cfg (active m) selected (channel_cursor m) (prefers_current e configured m) = Some (Ok f) ∧
    granted f = true ∧ activate (re_apply e) (re_applied_at e) (with_cursor (next_cursor f) m) (selection f) = Ok m'.
Proof.
  assert (Hsame : ∃ c, m = with_cursor c m) by (exists (channel_cursor m); by destruct m).
  unfold refresh_routes, keeps_current, prefers_current. destruct (BridgesConfig.parsed _ _) as [p|] eqn:Hp; [|intros [= _ <- _]; left; exact Hsame].
  destruct (re_writer e); [|intros [= _ <- _]; left; exact Hsame]. cbn zeta. destruct (GuardObs.drain_into_store _ _ _ _ _) as [[s' tl] sink'].
  destruct (route_works e _ m) as [works success] eqn:Hw. cbn [fst].
  destruct (works && can_keep_current cfg _ _) eqn:Hk.
  { destruct (build_tor_settings_preserving_live _ _ _) as [[selected|] eff']; intros [= _ <- _]; left; exact Hsame. }
  destruct (build_tor_settings_preserving_live _ _ _) as [[selected|] eff'] eqn:Hb; [|intros [= _ <- _]; left; exact Hsame].
  destruct (authenticate_fallback _ _ _ _ _ _) as [[f|err]|] eqn:Hf; [|intros [= _ <- _]; left; exact Hsame|done].
  destruct (granted f) eqn:Hg; cbn [negb]; [|intros [= _ <- _]; left; by exists (next_cursor f)].
  destruct (activate _ _ _ _) as [m1|] eqn:Ha; [|intros [= _ <- _]; left; by exists (next_cursor f)].
  intros [= _ <- _]. right. exists p, selected, f. rewrite Hw. cbn [fst]. auto 10.
Qed.

(** C17: A route is proven before it is used. When a refresh changes the
    settings of the client, the current route was not one to keep, the client
    took the new settings, the handle shows their bridges, and they are either
    those that the set-up chose from its probes, or obfs4 bridges each of which
    proved an authenticated channel in this very refresh without being
    disabled. *)
Theorem routes_are_proven_before_use e cfg m r m' eff :
  refresh_routes e cfg m = Some (r, m', eff) → active m' ≠ active m →
  ∃ p selected,
    BridgesConfig.parsed (re_seconds e) (ConfigSections.lines (cfg_bridges cfg)) = Ok p ∧
    let configured := BridgesConfig.bridges p in
    keeps_current e cfg configured m = false ∧
    (build_tor_settings_preserving_live (re_setup e) cfg []).1 = Ok selected ∧
    re_apply e = true ∧ accepted m' = accepted m ++ [active m'] ∧
    TorHealth.bridges (shown m') = s_bridges (active m') ∧ s_bridges (active m') ≠ [] ∧
    (active m' = selected ∧ (∃ b, b ∈ s_bridges selected ∧ uses (lit "obfs4") b = false) ∨
     ∀ b, b ∈ s_bridges (active m') →
       uses (lit "obfs4") b = true ∧
       channel_proven (re_fallback e) cfg (active m) selected (channel_cursor m) (prefers_current e configured m) b).
Proof.
  intros [[c ->]|(p & selected & f & Hp & Hk & Hb & Hf & Hg & Ha)]%refresh_routes_inv Hne; [done|]. exists p, selected.
  split; [done|]. cbn zeta in *. apply activate_inv in Ha as [->|(Happly & Hn & Hact & _ & Hacc & Hs)]; [done|].
  rewrite Hact. repeat (split; [done|]). eapply granted_inv in Hf as [[Hsel Hx]|[_ Hall]]; [left; by split|by right|done].
Qed.

(** C23: A preferred route that still carries traffic is never given up: when
    the bridges in use are configured and of the preferred transport, and the
    client had a success in the last 15 seconds or fetches the check page over
    Tor now, the refresh ends, reports a usable bridge, and leaves the client
    and the handle as they were, whatever the probes of the set-up find. *)
Theorem working_route_is_kept e cfg m p s :
  BridgesConfig.parsed (re_seconds e) (ConfigSections.lines (cfg_bridges cfg)) = Ok p → re_writer e = Some s →
  s_bridges (active m) ≠ [] → (∀ b, b ∈ s_bridges (active m) → b ∈ BridgesConfig.bridges p) →
  (∀ t b, preference cfg = Some t → b ∈ s_bridges (active m) → uses t b = true) →
  TorHealth.successful_within (re_now e) RECOVERY_REFRESH_INTERVAL (re_health e) = true ∨
    (re_ready e = true ∧ ∃ body, re_body e = Some body ∧ Verifier.confirms_tor body = true) →
  ∃ n eff, refresh_routes e cfg m = Some (Ok n, m, eff) ∧ (1 ≤ n)%nat.
Proof.
  intros Hp Hs Hne Hconf Hpref Hlive. unfold refresh_routes. rewrite Hp, Hs. cbn zeta.
  destruct (GuardObs.drain_into_store _ _ _ _ _) as [[s' tl] sink'].
  assert (Hc : forallb (contains (BridgesConfig.bridges p)) (s_bridges (active m)) = true).
  { apply forallb_forall. intros b Hb%list_elem_of_In. apply bool_decide_eq_true. by apply Hconf. }
  assert (Hn : is_empty (s_bridges (active m)) = false) by (by destruct (s_bridges (active m))).
  assert (Hw : (live_route_works e).1 = true).
  { unfold live_route_works. destruct Hlive as [->|(-> & body & -> & ->)]; [done|]. by destruct (TorHealth.successful_within _ _ _). }
  assert (Hk : can_keep_current cfg (BridgesConfig.bridges p) (s_bridges (active m)) = true).
  { unfold can_keep_current. rewrite Hn, Hc. destruct (preference cfg) as [t|]; [|done]. cbn. rewrite andb_true_r.
    apply forallb_forall. intros b Hb%list_elem_of_In. by apply (Hpref t). }
  unfold route_works. rewrite Hn, Hc, Hk. cbn [negb andb]. destruct (live_route_works e) as [works success]. cbn in Hw. subst works.
  cbn [andb]. destruct (build_tor_settings_preserving_live _ _ _) as [[selected|] eff']; do 2 eexists; (split; [done|lia]).
Qed.

(** ** The whole task *)

(** From one state to a later one: what the client took on the way is not
    empty, and its latest is the active one, whose bridges the handle shows. *)
Record follows (m m' : maintainer) : Prop := mkFollows {
  fo_shown : TorHealth.bridges (shown m) = s_bridges (active m) → TorHealth.bridges (shown m') = s_bridges (active m');
  fo_accepted : ∃ new, accepted m' = accepted m ++ new ∧ active m' = default (active m) (last new) ∧
    Forall (fun s => s_bridges s ≠ []) new;
}.

#[global] Instance follows_refl : Reflexive follows.
Proof. intros m. split; [done|]. exists []. by rewrite app_nil_r. Qed.

#[global] Instance follows_trans : Transitive follows.
Proof.
  intros m1 m2 m3 [Hs1 (n1 & Ha1 & Hb1 & Hf1)] [Hs2 (n2 & Ha2 & Hb2 & Hf2)]. split; [by auto|]. exists (n1 ++ n2).
  rewrite Ha2, Ha1, app_assoc. split; [done|]. split; [|by apply Forall_app_2]. rewrite Hb2, Hb1, last_app.
  by destruct (last n2).
Qed.

Lemma refresh_routes_follows e cfg m r m' eff : refresh_routes e cfg m = Some (r, m', eff) → follows m m'.
Proof.
  intros [[c ->]|(p & selected & f & _ & _ & _ & _ & _ & Ha)]%refresh_routes_inv; [split; [done|]; exists []; by rewrite app_nil_r|].
  apply activate_inv in Ha as [->|(_ & Hn & Hact & _ & Hacc & Hs)]; [split; [done|]; exists []; by rewrite app_nil_r|].
  split; [by rewrite Hs, Hact|]. exists [selection f]. split; [done|]. split; [done|]. by repeat constructor.
Qed.

Lemma routes_follow e cfg t r t' : routes e cfg t = Some (r, t') → follows (maint t) (maint t').
Proof.
  unfold routes. destruct (refresh_routes _ _ _) as [[[r1 m1] eff]|] eqn:Hr; [|done]. intros [= <- <-]. by eapply refresh_routes_follows.
Qed.

Lemma discover_follows cfg evs usable t r usable' t' :
  discover cfg evs usable t = Some (r, usable', t') → follows (maint t) (maint t').
Proof.
  revert usable t. induction evs as [|ev evs IH]; intros usable t; [done|]. cbn [discover]. destruct ev as [[added|]|taken e over].
  - intros [= _ _ <-]. reflexivity.
  - intros [= _ _ <-]. reflexivity.
  - destruct (_ <? _); [done|]. destruct (routes e cfg t) as [[r1 t1]|] eqn:Hr; [|done]. intros Hd%IH.
    apply routes_follow in Hr. by etransitivity.
Qed.

Lemma refresh_follows e t r t' : refresh e t = Some (r, t') → follows (maint t) (maint t').
Proof.
  unfold refresh. destruct (cy_config e) as [cfg|]; [|intros [= _ <-]; reflexivity].
  destruct (cy_tunnel e); cbn [negb]; [|intros [= _ <-]; reflexivity].
  destruct (routes _ _ t) as [[[usable|err] t1]|] eqn:Hr; [|intros [= _ <-]; by eapply routes_follow|done].
  apply routes_follow in Hr. cbn zeta. destruct (discovers cfg usable); [|by intros [= _ <-]].
  destruct (discover _ _ _ _) as [[[[added|err] usable'] t2]|] eqn:Hd; [| |done]; apply discover_follows in Hd; cbn [maint] in Hd;
    (assert (H12 : follows (maint t) (maint t2)) by (by etransitivity)); [|by intros [= _ <-]].
  destruct (0 <? added)%nat; [|by intros [= _ <-]]. destruct (cy_latest e) as [latest|]; [|by intros [= _ <-]].
  destruct (routes (cy_last e) latest t2) as [[[u|err] t3]|] eqn:Hr2; [| |done]; apply routes_follow in Hr2; intros [= _ <-];
    by etransitivity.
Qed.

(** However its cycles are woken and end, errors and rechecks during
    discovery included, the maintenance task keeps the handle and the client in
    step: the handle always shows the bridges of the settings that the client
    took last, and a client that runs over bridges is never left without. *)
Theorem handle_shows_the_route_in_use interval m now l :
  TorHealth.bridges (shown m) = s_bridges (active m) → turns interval (spawn m now) l →
  let m' := maint (the_task l) in
  TorHealth.bridges (shown m') = s_bridges (active m') ∧
  (∃ new, accepted m' = accepted m ++ new ∧ active m' = default (active m) (last new)) ∧
  (s_bridges (active m) ≠ [] → s_bridges (active m') ≠ []).
Proof.
  intros Hsh Ht. cbn zeta. assert (Hf : follows m (maint (the_task l))).
  { remember (spawn m now) as l0 eqn:Hl0. induction Ht as [|l0 l1 l2 w c over by_ r Ht IH Hturn]; [by subst|].
    etransitivity; [by apply IH|]. unfold turn in Hturn. destruct (wake _ _ _) as [[|by_']|]; [done| |done].
    destruct (refresh c (the_task l1)) as [[r1 t1]|] eqn:Hr; [|done]. injection Hturn as _ _ <-. by eapply refresh_follows. }
  destruct Hf as [Hs (new & Ha & Hb & Hn)]. split; [by apply Hs|]. split; [by exists new|]. rewrite Hb.
  destruct (last new) as [x|] eqn:Hx; [|done]. intros _. cbn. apply last_Some_elem_of in Hx. rewrite Forall_forall in Hn. by apply Hn.
Qed.
End Routes.

(** ** Witnesses *)

Section Witnesses.
#[local] Existing Instance sample_url.
#[local] Existing Instance sample_tls.
#[local] Existing Instance sample_time.
#[local] Existing Instance sample_lines.
#[local] Existing Instance Verifier.sample_json.

Definition one_round : list (list check_event) := [[Checked 1 (Answered (Some false) (Some true) (Some false) 7); RoundOver]].

Lemma search_reaches_every_bridge_witness :
  ∃ checked, rounds_over [obfs4_bridge; plain_bridge] 1 one_round = Some checked ∧ ∃ round, round ∈ checked ∧ obfs4_bridge ∈ round.
Proof.
  eexists. split; [reflexivity|].
  apply (search_reaches_every_bridge [obfs4_bridge; plain_bridge] 1 one_round _ obfs4_bridge); [reflexivity|vm_compute; lia|left].
Defined.

(** A client without bridges; one that runs over the obfs4 bridge. *)
Definition no_route : maintainer := mkMaintainer (mkSettings [] false [] None 3 4) 0 TorHealth.active_default [].
Definition good_route : maintainer := mkMaintainer chosen 0 (TorHealth.mkActive [obfs4_bridge] (Some 0)) [].

Definition good_checks : list check_event := [Checked 0 (Answered (Some false) (Some true) (Some false) 7)].
Definition sample_fallback : fallback_env := mkFallbackEnv 0 None (Some empty_store) (10 : @OffsetDateTime sample_time) [] good_checks.
Definition sample_routes : route_env :=
  mkRouteEnv 0 (Some empty_store) (GuardObs.mkSink [] 0) (10 : @OffsetDateTime sample_time) 5 (TorHealth.mkTorHealth 0 (Some 5) 0 None 0 0 0)
    true None good_env 5 None sample_fallback true 6.

Definition obfs4_config : Config :=
  mkConfig (ConfigSections.mkBridges [bridge_to_string obfs4_bridge] [] true true 8 64 24 60 60 5 30 0 (lit "obfs4")) (ConfigSections.mkTor 3) [].

Definition active_after (r : option (result nat maintenance_error * maintainer * route_effects)) : option (list BridgeLine) :=
  match r with Some (_, m, _) => Some (s_bridges (active m)) | None => None end.

Lemma sample_refresh : active_after (refresh_routes sample_routes sample_config no_route) = Some [obfs4_bridge].
Proof. vm_compute. reflexivity. Qed.

Lemma refreshed : ∃ r m eff, refresh_routes sample_routes sample_config no_route = Some (r, m, eff) ∧ s_bridges (active m) = [obfs4_bridge].
Proof.
  pose proof sample_refresh as Hr. destruct (refresh_routes _ _ _) as [[[r m] eff]|]; [|discriminate].
  injection Hr as Hr. exists r, m, eff. split; [reflexivity|exact Hr].
Qed.

Lemma routes_are_proven_before_use_witness :
  ∃ r m eff, refresh_routes sample_routes sample_config no_route = Some (r, m, eff) ∧ TorHealth.bridges (shown m) = [obfs4_bridge].
Proof.
  destruct refreshed as (r & m & eff & Hr & Hm). exists r, m, eff. split; [exact Hr|].
  destruct (routes_are_proven_before_use sample_routes sample_config no_route r m eff Hr) as (p & sel & _ & _ & _ & _ & _ & Hs & _).
  - intros He. rewrite He in Hm. discriminate.
  - rewrite Hs. exact Hm.
Defined.

Lemma parsed_ok : ∃ p, BridgesConfig.parsed 0 (ConfigSections.lines (cfg_bridges obfs4_config)) = Ok p ∧ BridgesConfig.bridges p = [obfs4_bridge].
Proof. eexists. split; vm_compute; reflexivity. Qed.

Lemma working_route_is_kept_witness :
  ∃ n eff, refresh_routes sample_routes obfs4_config good_route = Some (Ok n, good_route, eff) ∧ (1 ≤ n)%nat.
Proof.
  destruct parsed_ok as (p & Hp & Hb).
  apply (working_route_is_kept sample_routes obfs4_config good_route p empty_store);
    [exact Hp|reflexivity|discriminate|rewrite Hb; intros b Hin; exact Hin| |left; reflexivity].
  intros t b [= <-] ->%list_elem_of_singleton. reflexivity.
Defined.

Definition sample_cycle : cycle_env := mkCycleEnv None true sample_routes 0 [] None sample_routes.
Definition after_cycle : loop_state := mkLoop false (from_secs 60) (mkTask good_route false 0 []).

Lemma handle_shows_the_route_in_use_witness : TorHealth.bridges (shown (maint (the_task after_cycle))) = s_bridges (active good_route).
Proof.
  apply (handle_shows_the_route_in_use 5 good_route 0 after_cycle); [reflexivity|].
  eapply (turns_step 5 _ (spawn good_route 0) after_cycle (mkWakeEnv 0 false false false false) sample_cycle 0); [constructor|reflexivity].
Defined.
End Witnesses.
End Maintenance.
