(* ===== verification/EngineSlot.v ===== *)
(** * The slot of the Android engine

    [packages/android-ffi/src/lib.rs], [jni/jni_engine.rs] and the life of the
    engine thread in [engine/engine.rs]: calls of [nativeStart] and
    [nativeStop] from any thread, engine threads with their runtime, the task
    that forwards bootstrap events and the one that warms bridges, one atomic
    step at a time over the process-wide slot, generation, status, tunnel and
    active-bridges file. *)

From S2P Require Import Prelude Interleave.
Open Scope Z_scope.

Module EngineSlot.

(** ** State *)

(** Why the status is an error; the wording of the messages is left out. *)
Inductive failure : Type :=
| AttachFailed
| EngineFailed
| EnginePanicked
| StartPanicked
| SpawnFailed
| StopTimedOut
| Abnormal.

Inductive EngineStatus : Type :=
| Off
| Starting (pct : Z)
| On (addr : Z)
| Stopping
| Error (why : failure).

(** A handle names its thread by the generation it was started with. *)
Inductive EngineSlot : Type :=
| Idle
| SlotRunning (g : nat)
| SlotStopping (h : option nat).

Inductive StopHandoff : Type :=
| HandoffIdle
| InProgress
| Checkout (g : nat).

(** How [engine_async] ends. *)
Inductive ending : Type :=
| Ended
| EndedInError
| EndedInPanic.

(** Points of [engine_main] and [engine_async]. *)
Inductive engine_pc : Type :=
| Attach
| AttachStatus
| Boot
| PublishActive (addr : Z)
| PublishOn (addr : Z)
| SetReady
| EmitReady
| ShareTunnel
| Accept
| ClearCheck (r : ending)
| ClearTunnel (r : ending)
| ClearActive (r : ending)
| DropRuntime (r : ending)
| FinalCheck (r : ending)
| FinalStatus (r : ending)
| SendDone
| Return
| Gone
| ThreadFinished.

(** Points of the callback that relays progress. *)
Inductive callback_pc : Type :=
| Quiet
| Loaded (pct : Z)
| Passed (pct : Z).

(** Points of the task that warms bridges in the background. *)
Inductive warm_pc : Type :=
| NotSpawned
| Warming
| Persisting
| Warmed.

Record engine : Type := mkEngine {
  pc : engine_pc;
  stop_flag : bool;
  done_message : bool;
  runtime : bool;
  reached_ready : bool;
  last_progress : Z;
  callback : callback_pc;
  warm : warm_pc;
  told_ready : bool;
}.

(** Points of a call; a start holds the lock of the slot from its check to its
    return. *)
Inductive call_pc : Type :=
| StartLock
| StartCheck
| StartLoad
| StartStatus
| StartGeneration
| StartSpawn (g : nat)
| StartStore (g : nat)
| StartNoThread
| StartPanic
| StopLock
| StopBegin
| StopOff
| StopStatus (g : nat)
| StopSignal (g : nat)
| StopWait (g : nat)
| StopJoin (g : nat) (normal : bool)
| StopLockAgain (normal : bool)
| StopIdle (normal : bool)
| StopFinal (normal : bool)
| StopParkLock (g : nat)
| StopPark (g : nat)
| StopTimeout
| Returned.

Record state : Type := mkState {
  slot : EngineSlot;
  slot_lock : option nat;
  generation : nat;
  status : EngineStatus;
  current_tunnel : option nat;
  active_bridges : option nat;
  engines : gmap nat engine;
  calls : gmap nat call_pc;
}.

Definition init : state := mkState Idle None 0 Off None None ∅ ∅.

(** What the environment decides at a step. *)
Inductive loaded : Type := LoadOk | LoadError | LoadPanic.
Inductive booted : Type := BootReady (addr : Z) | BootStopped | BootFailed | BootPanicked.

Record event : Type := mkEvent {
  ev_load : loaded;
  ev_spawned : bool;
  ev_attached : bool;
  ev_boot : booted;
  ev_accept_failed : bool;
  ev_panic : bool;
  ev_percent : Z;
  ev_timeout : bool;
  ev_warmed : bool;
}.

(** Who makes the next step: a caller that enters the library, a call, or one of
    the parts of an engine. *)
Inductive actor : Type :=
| EnterStart (j : nat)
| EnterStop (j : nat)
| Call (j : nat)
| Engine (g : nat)
| Callback (g : nat)
| Warm (g : nat).

(** ** The transitions of the slot *)

Definition begin_engine_stop (s : EngineSlot) : EngineSlot * StopHandoff :=
  match s with
  | SlotStopping None => (s, InProgress)
  | Idle => (Idle, HandoffIdle)
  | SlotRunning g | SlotStopping (Some g) => (SlotStopping None, Checkout g)
  end.

(** Whether a start may proceed, and the slot after joining a finished thread. *)
Definition acquire_engine_slot_for_start (finished : nat → bool) (s : EngineSlot) : EngineSlot * bool :=
  match s with
  | Idle => (Idle, true)
  | SlotRunning g => if finished g then (Idle, true) else (s, false)
  | SlotStopping _ => (s, false)
  end.

(** The drop of [StoppingParker]: [None] for the branch that joins the thread. *)
Definition park (g : nat) (s : EngineSlot) : option EngineSlot :=
  match s with
  | SlotStopping None => Some (SlotStopping (Some g))
  | _ => None
  end.

(** ** Steps *)

Definition with_slot (x : EngineSlot) (st : state) : state :=
  mkState x (slot_lock st) (generation st) (status st) (current_tunnel st) (active_bridges st) (engines st) (calls st).
Definition with_lock (l : option nat) (st : state) : state :=
  mkState (slot st) l (generation st) (status st) (current_tunnel st) (active_bridges st) (engines st) (calls st).
Definition with_generation (g : nat) (st : state) : state :=
  mkState (slot st) (slot_lock st) g (status st) (current_tunnel st) (active_bridges st) (engines st) (calls st).
Definition set_status (x : EngineStatus) (st : state) : state :=
  mkState (slot st) (slot_lock st) (generation st) x (current_tunnel st) (active_bridges st) (engines st) (calls st).
Definition set_current_tunnel (t : option nat) (st : state) : state :=
  mkState (slot st) (slot_lock st) (generation st) (status st) t (active_bridges st) (engines st) (calls st).
Definition set_active_bridges (a : option nat) (st : state) : state :=
  mkState (slot st) (slot_lock st) (generation st) (status st) (current_tunnel st) a (engines st) (calls st).
Definition set_engine (g : nat) (e : engine) (st : state) : state :=
  mkState (slot st) (slot_lock st) (generation st) (status st) (current_tunnel st) (active_bridges st) (<[g := e]> (engines st)) (calls st).
Definition set_call (j : nat) (p : call_pc) (st : state) : state :=
  mkState (slot st) (slot_lock st) (generation st) (status st) (current_tunnel st) (active_bridges st) (engines st) (<[j := p]> (calls st)).

Definition at_pc (p : engine_pc) (e : engine) : engine :=
  mkEngine p (stop_flag e) (done_message e) (runtime e) (reached_ready e) (last_progress e) (callback e) (warm e) (told_ready e).
Definition at_callback (c : callback_pc) (e : engine) : engine :=
  mkEngine (pc e) (stop_flag e) (done_message e) (runtime e) (reached_ready e) (last_progress e) c (warm e) (told_ready e).
Definition at_warm (w : warm_pc) (e : engine) : engine :=
  mkEngine (pc e) (stop_flag e) (done_message e) (runtime e) (reached_ready e) (last_progress e) (callback e) w (told_ready e).
Definition with_stop (e : engine) : engine :=
  mkEngine (pc e) true (done_message e) (runtime e) (reached_ready e) (last_progress e) (callback e) (warm e) (told_ready e).
Definition with_done (b : bool) (e : engine) : engine :=
  mkEngine (pc e) (stop_flag e) b (runtime e) (reached_ready e) (last_progress e) (callback e) (warm e) (told_ready e).
Definition with_runtime (b : bool) (e : engine) : engine :=
  mkEngine (pc e) (stop_flag e) (done_message e) b (reached_ready e) (last_progress e) (callback e) (warm e) (told_ready e).
Definition with_ready (e : engine) : engine :=
  mkEngine (pc e) (stop_flag e) (done_message e) (runtime e) true (last_progress e) (callback e) (warm e) (told_ready e).
Definition with_progress (x : Z) (e : engine) : engine :=
  mkEngine (pc e) (stop_flag e) (done_message e) (runtime e) (reached_ready e) x (callback e) (warm e) (told_ready e).
Definition with_told (e : engine) : engine :=
  mkEngine (pc e) (stop_flag e) (done_message e) (runtime e) (reached_ready e) (last_progress e) (callback e) (warm e) true.

Definition new_engine : engine := mkEngine Attach false false false false 0 Quiet NotSpawned false.

Definition is_finished (st : state) (g : nat) : bool :=
  match engines st !! g with
  | Some e => match pc e with ThreadFinished => true | _ => false end
  | None => true
  end.

(** The sender of the done channel is dropped. *)
Definition disconnected (e : engine) : bool :=
  match pc e with Gone | ThreadFinished => true | _ => false end.

Definition next (j : nat) (p : call_pc) (st : state) : option state := Some (set_call j p st).
Definition lock_slot (j : nat) (p : call_pc) (st : state) : option state :=
  match slot_lock st with
  | None => next j p (with_lock (Some j) st)
  | Some _ => None
  end.
Definition unlock_slot (j : nat) (p : call_pc) (st : state) : option state := next j p (with_lock None st).

Definition call_step (j : nat) (ev : event) (st : state) (p : call_pc) : option state :=
  match p with
  | StartLock => lock_slot j StartCheck st
  | StartCheck =>
      let '(s, ok) := acquire_engine_slot_for_start (is_finished st) (slot st) in
      if ok then next j StartLoad (with_slot s st) else unlock_slot j Returned st
  | StartLoad =>
      match ev_load ev with
      | LoadOk => next j StartStatus st
      | LoadError => unlock_slot j Returned st
      | LoadPanic => unlock_slot j StartPanic st
      end
  | StartStatus => next j StartGeneration (set_status (Starting 0) st)
  | StartGeneration => next j (StartSpawn (S (generation st))) (with_generation (S (generation st)) st)
  | StartSpawn g =>
      if ev_spawned ev then next j (StartStore g) (set_engine g new_engine st) else next j StartNoThread st
  | StartStore g => unlock_slot j Returned (with_slot (SlotRunning g) st)
  | StartNoThread => unlock_slot j Returned (set_status (Error SpawnFailed) st)
  | StartPanic => next j Returned (set_status (Error StartPanicked) st)
  | StopLock => lock_slot j StopBegin st
  | StopBegin =>
      let '(s, handoff) := begin_engine_stop (slot st) in
      unlock_slot j (match handoff with HandoffIdle => StopOff | InProgress => Returned | Checkout g => StopStatus g end) (with_slot s st)
  | StopOff => next j Returned (set_status Off st)
  | StopStatus g => next j (StopSignal g) (set_status Stopping st)
  | StopSignal g =>
      match engines st !! g with
      | Some e => next j (StopWait g) (set_engine g (with_stop e) st)
      | None => None
      end
  | StopWait g =>
      match engines st !! g with
      | Some e =>
          if done_message e then next j (StopJoin g true) (set_engine g (with_done false e) st)
          else if disconnected e then next j (StopJoin g false) st
          else if ev_timeout ev then next j (StopParkLock g) st
          else None
      | None => None
      end
  | StopJoin g normal => if is_finished st g then next j (StopLockAgain normal) st else None
  | StopLockAgain normal => lock_slot j (StopIdle normal) st
  | StopIdle normal => next j (StopFinal normal) (with_slot Idle st)
  | StopFinal normal => unlock_slot j Returned (set_status (if normal then Off else Error Abnormal) st)
  | StopParkLock g => lock_slot j (StopPark g) st
  | StopPark g =>
      match park g (slot st) with
      | Some s => unlock_slot j StopTimeout (with_slot s st)
      | None => if is_finished st g then unlock_slot j StopTimeout st else None
      end
  | StopTimeout => next j Returned (set_status (Error StopTimedOut) st)
  | Returned => None
  end.

Definition final_status (r : ending) : EngineStatus :=
  match r with Ended => Off | EndedInError => Error EngineFailed | EndedInPanic => Error EnginePanicked end.

(** An error is reported to Java before the status is published; the report may
    panic outside of [catch_unwind]. *)
Definition reports (r : ending) : bool := match r with Ended => false | _ => true end.

Definition engine_step (g : nat) (ev : event) (st : state) (e : engine) : option state :=
  let go p st := Some (set_engine g (at_pc p e) st) in
  match pc e with
  | Attach => if ev_attached ev then Some (set_engine g (at_pc Boot (with_runtime true e)) st) else go AttachStatus st
  | AttachStatus => go SendDone (set_status (Error AttachFailed) st)
  | Boot =>
      match ev_boot ev with
      | BootReady addr => go (PublishActive addr) st
      | BootStopped => if stop_flag e then go (DropRuntime Ended) st else None
      | BootFailed => go (DropRuntime EndedInError) st
      | BootPanicked => go (DropRuntime EndedInPanic) st
      end
  | PublishActive addr => go (PublishOn addr) (set_active_bridges (Some g) st)
  | PublishOn addr => go SetReady (set_status (On addr) st)
  | SetReady => Some (set_engine g (at_pc EmitReady (with_ready e)) st)
  | EmitReady => Some (set_engine g (at_pc ShareTunnel (with_told e)) st)
  | ShareTunnel => Some (set_engine g (at_pc Accept (at_warm Warming e)) (set_current_tunnel (Some g) st))
  | Accept =>
      if stop_flag e then go (ClearCheck Ended) st
      else if ev_accept_failed ev then go (ClearCheck EndedInError) st
      else None
  | ClearCheck r => if (generation st =? g)%nat then go (ClearTunnel r) st else go (DropRuntime r) st
  | ClearTunnel r => go (ClearActive r) (set_current_tunnel None st)
  | ClearActive r => go (DropRuntime r) (set_active_bridges None st)
  | DropRuntime r =>
      match callback e with
      | Quiet => Some (set_engine g (at_pc (FinalCheck r) (with_runtime false e)) st)
      | _ => None
      end
  | FinalCheck r =>
      if ev_panic ev && reports r then go Gone st
      else if (generation st =? g)%nat then go (FinalStatus r) st else go SendDone st
  | FinalStatus r => go SendDone (set_status (final_status r) st)
  | SendDone => Some (set_engine g (at_pc Return (with_done true e)) st)
  | Return => go Gone st
  | Gone => go ThreadFinished st
  | ThreadFinished => None
  end.

(** The callback of bootstrap events, for progress. *)
Definition callback_step (g : nat) (ev : event) (st : state) (e : engine) : option state :=
  if negb (runtime e) then None
  else
    match callback e with
    | Quiet => Some (set_engine g (if reached_ready e then e else at_callback (Loaded (ev_percent ev)) e) st)
    | Loaded pct =>
        let previous := last_progress e in
        let e := with_progress (Z.max previous pct) e in
        Some (set_engine g (at_callback (if pct <? previous then Quiet else Passed pct) e) st)
    | Passed pct => Some (set_engine g (at_callback Quiet e) (set_status (Starting pct) st))
    end.

Definition warm_step (g : nat) (ev : event) (st : state) (e : engine) : option state :=
  if negb (runtime e) then None
  else
    match warm e with
    | Warming => Some (set_engine g (at_warm (if stop_flag e then Warmed else Persisting) e) st)
    | Persisting => Some (set_engine g (at_warm Warmed e) (if ev_warmed ev then set_active_bridges (Some g) st else st))
    | _ => None
    end.

Definition on_engine (g : nat) (f : engine → option state) (st : state) : option state :=
  match engines st !! g with Some e => f e | None => None end.

Definition step (a : actor) (ev : event) (st : state) : option state :=
  match a with
  | EnterStart j => match calls st !! j with None => next j StartLock st | Some _ => None end
  | EnterStop j => match calls st !! j with None => next j StopLock st | Some _ => None end
  | Call j => match calls st !! j with Some p => call_step j ev st p | None => None end
  | Engine g => on_engine g (engine_step g ev st) st
  | Callback g => on_engine g (callback_step g ev st) st
  | Warm g => on_engine g (warm_step g ev st) st
  end.

Inductive reachable : state → Prop :=
| reachable_init : reachable init
| reachable_step a ev st st' : reachable st → step a ev st = Some st' → reachable st'.

(** A schedule. *)
Fixpoint run (sched : list (actor * event)) (st : state) : option state :=
  match sched with
  | [] => Some st
  | (a, ev) :: sched' => match step a ev st with Some st' => run sched' st' | None => None end
  end.

Lemma run_reachable sched st st' : reachable st → run sched st = Some st' → reachable st'.
Proof.
  revert st. induction sched as [|[a ev] sched IH]; intros st Hr; cbn; [by intros [= <-]|].
  destruct (step a ev st) as [st1|] eqn:Hs; [|done]. apply IH. by eapply reachable_step.
Qed.

(** ** One engine at a time *)

Definition holds_lock (p : call_pc) : bool :=
  match p with
  | StartCheck | StartLoad | StartStatus | StartGeneration | StartSpawn _ | StartStore _ | StartNoThread
  | StopBegin | StopIdle _ | StopFinal _ | StopPark _ => true
  | _ => false
  end.

(** Points of a start after its check. *)
Definition starts (p : call_pc) : bool :=
  match p with
  | StartLoad | StartStatus | StartGeneration | StartSpawn _ | StartStore _ | StartNoThread => true
  | _ => false
  end.

(** Points of the stop that took the handle out of the slot. *)
Definition stops (p : call_pc) : bool :=
  match p with
  | StopStatus _ | StopSignal _ | StopWait _ | StopJoin _ _ | StopLockAgain _ | StopIdle _ | StopParkLock _ | StopPark _ => true
  | _ => false
  end.

Definition carries (p : call_pc) : option nat :=
  match p with
  | StopStatus g | StopSignal g | StopWait g | StopJoin g _ | StopParkLock g | StopPark g | StartStore g => Some g
  | _ => None
  end.

(** Points where no engine lives. *)
Definition quiet (p : call_pc) : bool :=
  match p with
  | StartLoad | StartStatus | StartGeneration | StartNoThread | StopLockAgain _ | StopIdle _ => true
  | _ => false
  end.

(** The engine is past its last message. *)
Definition sent (e : engine) : bool := match pc e with Return | Gone | ThreadFinished => true | _ => false end.

Record call_ok (st : state) (j : nat) (p : call_pc) : Prop := mkCallOk {
  co_lock : holds_lock p = true → slot_lock st = Some j;
  co_starts : starts p = true → slot st = Idle;
  co_stops : stops p = true → slot st = SlotStopping None;
  co_carries : ∀ g, carries p = Some g → g = generation st ∧ is_Some (engines st !! g);
  co_quiet : quiet p = true → is_finished st (generation st) = true;
  co_spawn : ∀ g, p = StartSpawn g → g = generation st ∧ engines st !! g = None;
  co_join : ∀ g n e, p = StopJoin g n → engines st !! g = Some e → sent e = true;
}.

Record inv (st : state) : Prop := mkInv {
  i_dom : ∀ g, is_Some (engines st !! g) → (g ≤ generation st)%nat;
  i_live : ∀ g, is_finished st g = false → g = generation st;
  i_slot : ∀ g, slot st = SlotRunning g ∨ slot st = SlotStopping (Some g) → g = generation st ∧ is_Some (engines st !! g);
  i_idle : slot st = Idle → (∀ j g, calls st !! j ≠ Some (StartStore g)) → is_finished st (generation st) = true;
  i_one : ∀ j j' p p', calls st !! j = Some p → calls st !! j' = Some p' → stops p = true → stops p' = true → j = j';
  i_message : ∀ g e, engines st !! g = Some e → done_message e = true → sent e = true;
  i_holder : ∀ j, slot_lock st = Some j → ∃ p, calls st !! j = Some p ∧ holds_lock p = true;
  i_calls : ∀ j p, calls st !! j = Some p → call_ok st j p;
}.

Lemma call_ok_vacuous st j p : holds_lock p = false → stops p = false → call_ok st j p.
Proof. by destruct p; split. Qed.

Lemma init_inv : inv init.
Proof.
  split; cbn.
  - by intros g [e He].
  - done.
  - by intros g [|].
  - done.
  - done.
  - done.
  - done.
  - done.
Qed.

(** *** Engines *)

Lemma finished_insert st g e x :
  is_finished (set_engine g e st) x = if decide (g = x) then match pc e with ThreadFinished => true | _ => false end else is_finished st x.
Proof.
  unfold is_finished. cbn. destruct (decide (g = x)) as [->|Hne]; [by rewrite lookup_insert_eq|by rewrite lookup_insert_ne].
Qed.

(** The steps that only move an engine on. *)
Lemma engine_inv st st' g e e' :
  engines st !! g = Some e → engines st' = <[g := e']> (engines st) →
  slot st' = slot st → slot_lock st' = slot_lock st → generation st' = generation st → calls st' = calls st →
  (pc e = ThreadFinished → pc e' = ThreadFinished) → (sent e = true → sent e' = true) →
  (done_message e' = true → sent e' = true) → inv st → inv st'.
Proof.
  intros He He' Hs Hl Hg Hc Hfin Hsent Hmsg [I1 I2 I3 I4 I5 I6 I7 I8].
  assert (Hdom : ∀ x, is_Some (engines st' !! x) ↔ is_Some (engines st !! x)).
  { intros x. rewrite He'. destruct (decide (g = x)) as [->|Hne]; [rewrite lookup_insert_eq, He; by split; eauto|by rewrite lookup_insert_ne]. }
  assert (Hmono : ∀ x, is_finished st x = true → is_finished st' x = true).
  { intros x. unfold is_finished. rewrite He'. destruct (decide (g = x)) as [->|Hne]; [|by rewrite lookup_insert_ne].
    rewrite lookup_insert_eq, He. destruct (pc e) eqn:Hpc; try done. by rewrite Hfin. }
  split; rewrite ?Hs, ?Hl, ?Hg, ?Hc.
  - intros x Hx%Hdom. by apply I1.
  - intros x Hx. apply I2. destruct (is_finished st x) eqn:Hf; [|done]. by rewrite (Hmono x Hf) in Hx.
  - intros x Hx. rewrite Hdom. by apply I3.
  - intros Hi Hn. by apply Hmono, I4.
  - done.
  - intros x ex. rewrite He'. intros [[<- <-]|[Hne Hx]]%lookup_insert_Some; [done|]. by eapply I6.
  - done.
  - intros j p Hp. destruct (I8 j p Hp) as [C1 C2 C3 C4 C5 C6 C7]. split; rewrite ?Hs, ?Hl, ?Hg; [done..| | | |].
    + intros x Hx. rewrite Hdom. by apply C4.
    + intros Hq. by apply Hmono, C5.
    + intros x Hx. destruct (C6 x Hx) as [-> Hnone]. split; [done|]. rewrite He'. rewrite lookup_insert_ne; [done|]. intros ->. by rewrite He in Hnone.
    + intros x n ex Hx. rewrite He'. intros [[<- <-]|[Hne Hex]]%lookup_insert_Some; [|by eapply C7]. apply Hsent. by eapply C7.
Qed.

Lemma engine_step_inv g ev st st' : step (Engine g) ev st = Some st' → inv st → inv st'.
Proof.
  cbn. unfold on_engine. destruct (engines st !! g) as [e|] eqn:He; [|done]. unfold engine_step. intros Hs Hi.
  pose proof (i_message st Hi g e He) as Hm.
  destruct (pc e) eqn:Hpc; repeat case_match; simplify_eq; (eapply engine_inv; [exact He|reflexivity..| | | |exact Hi]); cbn;
    unfold sent in *; cbn; rewrite ?Hpc in *; try done; try (intros Hd; specialize (Hm Hd); done).
Qed.

Lemma part_step_inv g ev st st' : step (Callback g) ev st = Some st' ∨ step (Warm g) ev st = Some st' → inv st → inv st'.
Proof.
  cbn. unfold on_engine. destruct (engines st !! g) as [e|] eqn:He; [|by intros [?|?]]. unfold callback_step, warm_step. intros Hs Hi.
  pose proof (i_message st Hi g e He) as Hm.
  destruct Hs as [Hs|Hs]; destruct (runtime e); try done; repeat case_match; simplify_eq;
    (eapply engine_inv; [exact He|reflexivity..| | | |exact Hi]); cbn; unfold sent in *; cbn; done.
Qed.

(** *** Calls *)

Definition was (st : state) (j : nat) (p : call_pc) : Prop :=
  calls st !! j = Some p ∨ calls st !! j = None ∧ p = Returned.

Lemma call_ok_same st st' j p :
  slot st' = slot st → generation st' = generation st → engines st' = engines st →
  (holds_lock p = true → slot_lock st' = slot_lock st) → call_ok st j p → call_ok st' j p.
Proof.
  intros Hs Hg He Hl [C1 C2 C3 C4 C5 C6 C7]. unfold is_finished in *.
  split; rewrite ?Hs, ?Hg, ?He; try done; [|unfold is_finished; by rewrite He]. intros Hh. rewrite Hl by done. by apply C1.
Qed.

(** The steps of a call that leave the engines and the generation alone. *)
Lemma call_inv st st' j p p' :
  inv st → was st j p → calls st' = <[j := p']> (calls st) → engines st' = engines st → generation st' = generation st →
  (slot_lock st' = slot_lock st ∧ holds_lock p' = holds_lock p ∨
   slot_lock st = None ∧ slot_lock st' = Some j ∧ holds_lock p' = true ∨
   slot_lock st = Some j ∧ slot_lock st' = None ∧ holds_lock p' = false) →
  (slot st' = slot st ∧ (stops p' = true → stops p = true) ∧ (∀ g, p ≠ StartStore g) ∨
   slot_lock st = Some j ∧ (stops p = true ∨ slot st ≠ SlotStopping None) ∧
   (slot st' = Idle → is_finished st (generation st) = true) ∧
   (∀ g, slot st' = SlotRunning g ∨ slot st' = SlotStopping (Some g) → g = generation st ∧ is_Some (engines st !! g))) →
  call_ok st' j p' → inv st'.
Proof.
  intros Hi Hp Hc He Hg Hl Hs Hok. pose proof Hi as [I1 I2 I3 I4 I5 I6 I7 I8].
  assert (Hfin : ∀ x, is_finished st' x = is_finished st x) by (intros x; unfold is_finished; by rewrite He).
  assert (Hnostop : ∀ j' q, j' ≠ j → calls st !! j' = Some q → stops q = true → stops p = true → False).
  { intros j' q Hne Hq Hsq Hsp. destruct Hp as [Hp|[_ ->]]; [|done]. by apply Hne, (I5 j' j q p). }
  assert (Hothers : slot_lock st = Some j → (stops p = true ∨ slot st ≠ SlotStopping None) →
    ∀ j' q, j' ≠ j → calls st !! j' = Some q → holds_lock q = false ∧ stops q = false).
  { intros Hlj Hst j' q Hne Hq. destruct (I8 j' q Hq) as [C1 _ C3 _ _ _ _]. split; apply not_true_is_false; intros Hx.
    - apply C1 in Hx. congruence.
    - destruct Hst as [Hst|Hst]; [by eapply Hnostop|]. by apply C3 in Hx. }
  assert (Hlo : ∀ j' q, j' ≠ j → calls st !! j' = Some q → holds_lock q = true → slot_lock st' = slot_lock st).
  { intros j' q Hne Hq Hh. apply (co_lock st j' q (I8 j' q Hq)) in Hh. destruct Hl as [[? _]|[[? _]|[? _]]]; congruence. }
  split; rewrite ?Hg, ?He.
  - done.
  - intros x. rewrite Hfin. apply I2.
  - intros x Hx. destruct Hs as [[Hs _]|(_ & _ & _ & Hslot)]; [rewrite Hs in Hx; by apply I3|by apply Hslot].
  - intros Hid Hno. rewrite Hfin. destruct Hs as [(Hs & _ & Hns)|(_ & _ & Hidle & _)]; [|by apply Hidle]. rewrite Hs in Hid. apply I4; [done|].
    intros j' x Hx. destruct (decide (j' = j)) as [->|Hne]; [destruct Hp as [Hp|[Hp _]]; [|congruence]; apply (Hns x); congruence|].
    apply (Hno j' x). rewrite Hc. by rewrite lookup_insert_ne.
  - assert (Hnew : ∀ j' q, j' ≠ j → calls st !! j' = Some q → stops q = true → stops p' = true → False).
    { intros j' q Hne Hq Hsq Hsp. destruct Hs as [(_ & Hs & _)|(Hlj & Hst & _)]; [by eapply Hnostop; [..|by apply Hs]|].
      destruct (Hothers Hlj Hst j' q Hne Hq) as [_ Hf]. congruence. }
    intros j1 j2 q1 q2. rewrite Hc. intros [[<- <-]|[Hn1 H1]]%lookup_insert_Some [[<- <-]|[Hn2 H2]]%lookup_insert_Some S1 S2; [done| | |by eapply I5].
    + exfalso. by eapply (Hnew j2 q2).
    + exfalso. by eapply (Hnew j1 q1).
  - done.
  - intros j' Hj'. rewrite Hc. destruct (decide (j' = j)) as [->|Hne].
    + exists p'. rewrite lookup_insert_eq. split; [done|]. destruct Hl as [[Hl Hh]|[(_ & _ & Hh)|(_ & Hn & _)]]; [|done|congruence].
      rewrite Hl in Hj'. destruct (I7 j Hj') as (q & Hq & Hhq). destruct Hp as [Hp|[Hp _]]; [|congruence]. congruence.
    + rewrite lookup_insert_ne by done. apply I7. destruct Hl as [[Hl _]|[(_ & Hl & _)|(_ & Hl & _)]]; congruence.
  - intros j' q. rewrite Hc. intros [[<- <-]|[Hne Hq]]%lookup_insert_Some; [done|].
    destruct Hs as [(Hs & _)|(Hlj & Hst & _)].
    + eapply call_ok_same; [done..| |by apply I8]. by eapply Hlo.
    + destruct (Hothers Hlj Hst j' q (not_eq_sym Hne) Hq). by apply call_ok_vacuous.
Qed.

Lemma no_other_store st j p :
  inv st → calls st !! j = Some p → holds_lock p = true → (∀ g, p ≠ StartStore g) → ∀ j' g, calls st !! j' ≠ Some (StartStore g).
Proof.
  intros Hi Hp Hh Hn j' g Hj'. pose proof (co_lock st j p (i_calls st Hi j p Hp) Hh) as Hl.
  pose proof (co_lock st j' _ (i_calls st Hi j' _ Hj') eq_refl) as Hl'. rewrite Hl in Hl'. injection Hl' as <-.
  rewrite Hp in Hj'. injection Hj' as ->. by eapply Hn.
Qed.

Lemma idle_finished st j p :
  inv st → calls st !! j = Some p → holds_lock p = true → (∀ g, p ≠ StartStore g) → slot st = Idle →
  is_finished st (generation st) = true.
Proof. intros Hi Hp Hh Hn Hs. apply (i_idle st Hi Hs). by eapply no_other_store. Qed.

(** A start that issues a generation or spawns its thread. *)
Lemma generation_inv st j :
  inv st → calls st !! j = Some StartGeneration →
  inv (set_call j (StartSpawn (S (generation st))) (with_generation (S (generation st)) st)).
Proof.
  intros Hi Hp. pose proof Hi as [I1 I2 I3 I4 I5 I6 I7 I8]. pose proof (I8 j _ Hp) as [C1 C2 _ _ C5 _ _].
  specialize (C1 eq_refl). specialize (C2 eq_refl). specialize (C5 eq_refl).
  assert (Hnone : engines st !! S (generation st) = None).
  { destruct (engines st !! S (generation st)) eqn:He; [|done]. assert (S (generation st) ≤ generation st)%nat by (apply I1; by eexists). lia. }
  split; cbn [slot slot_lock generation status engines calls set_call with_generation].
  - intros g Hg. specialize (I1 g Hg). lia.
  - intros g Hg. change (is_finished st g = false) in Hg. pose proof Hg as ->%I2. congruence.
  - intros g [Hg|Hg]; congruence.
  - intros _ _. unfold is_finished. cbn. by rewrite Hnone.
  - intros j1 j2 q1 q2 [[<- <-]|[_ H1]]%lookup_insert_Some [[<- <-]|[_ H2]]%lookup_insert_Some; [done..|]. by apply I5.
  - done.
  - intros j' Hj'. rewrite C1 in Hj'. injection Hj' as <-. exists (StartSpawn (S (generation st))). by rewrite lookup_insert_eq.
  - intros j' q [[<- <-]|[Hne Hq]]%lookup_insert_Some.
    + split; cbn; try done. intros g [= <-]. done.
    + destruct (I8 j' q Hq) as [D1 _ D3 _ _ _ _]. apply call_ok_vacuous; apply not_true_is_false; intros Hx.
      * apply D1 in Hx. congruence.
      * apply D3 in Hx. congruence.
Qed.

Lemma spawn_inv st j g :
  inv st → calls st !! j = Some (StartSpawn g) → inv (set_call j (StartStore g) (set_engine g new_engine st)).
Proof.
  intros Hi Hp. pose proof Hi as [I1 I2 I3 I4 I5 I6 I7 I8]. pose proof (I8 j _ Hp) as [C1 C2 _ _ _ C6 _].
  specialize (C1 eq_refl). specialize (C2 eq_refl). destruct (C6 g eq_refl) as [-> Hnone].
  assert (Hall : ∀ x, is_finished st x = true).
  { intros x. destruct (is_finished st x) eqn:Hf; [done|]. pose proof Hf as ->%I2. unfold is_finished in Hf. by rewrite Hnone in Hf. }
  split; cbn [slot slot_lock generation status engines calls set_call set_engine].
  - intros x [e [[<- _]|[_ Hx]]%lookup_insert_Some]; [done|]. apply I1. by eexists.
  - intros x. change (is_finished (set_engine (generation st) new_engine st) x = false → x = generation st). rewrite finished_insert.
    case_decide; [done|]. by rewrite Hall.
  - intros x [Hx|Hx]; congruence.
  - intros _ Hn. exfalso. apply (Hn j (generation st)). by rewrite lookup_insert_eq.
  - intros j1 j2 q1 q2 [[<- <-]|[_ H1]]%lookup_insert_Some [[<- <-]|[_ H2]]%lookup_insert_Some; [done..|]. by apply I5.
  - intros x e [[<- <-]|[_ Hx]]%lookup_insert_Some; [done|]. by apply (I6 x).
  - intros j' Hj'. rewrite C1 in Hj'. injection Hj' as <-. exists (StartStore (generation st)). by rewrite lookup_insert_eq.
  - intros j' q [[<- <-]|[Hne Hq]]%lookup_insert_Some.
    + split; cbn; try done. intros g [= <-]. split; [done|]. rewrite lookup_insert_eq. by eexists.
    + destruct (I8 j' q Hq) as [D1 _ D3 _ _ _ _]. apply call_ok_vacuous; apply not_true_is_false; intros Hx.
      * apply D1 in Hx. congruence.
      * apply D3 in Hx. congruence.
Qed.

(** The point of a call is all that changes, or the status with it. *)
Ltac moves := eapply call_inv; [eassumption|left; eassumption|reflexivity..|left; by split|left; by split_and!|].
Ltac locks := eapply call_inv; [eassumption|left; eassumption|reflexivity..|right; left; by split_and!|left; by split_and!|].

Lemma start_inv j ev st st' p :
  inv st → calls st !! j = Some p → call_step j ev st p = Some st' →
  match p with StartLock | StartCheck | StartLoad | StartStatus | StartStore _ | StartNoThread | StartPanic => true | _ => false end = true →
  inv st'.
Proof.
  intros Hi Hp Hs Hk. pose proof (i_calls st Hi j p Hp) as [C1 C2 C3 C4 C5 C6 C7].
  destruct p; try done; cbn in *; unfold lock_slot, unlock_slot, next in Hs.
  - destruct (slot_lock st) eqn:Hl; [done|]. injection Hs as <-. locks. by split.
  - specialize (C1 eq_refl). pose proof (idle_finished st j _ Hi Hp eq_refl) as Hif.
    destruct (acquire_engine_slot_for_start (is_finished st) (slot st)) as [s ok] eqn:Ha. destruct ok; injection Hs as <-.
    + assert (Hs : s = Idle ∧ slot st ≠ SlotStopping None ∧ is_finished st (generation st) = true).
      { unfold acquire_engine_slot_for_start in Ha. destruct (slot st) as [|g|h] eqn:Hsl; [|destruct (is_finished st g) eqn:Hf|]; simplify_eq.
        - split; [done|]. split; [done|]. by apply Hif.
        - split; [done|]. split; [done|]. destruct (i_slot st Hi g) as [<- _]; [by left|done]. }
      destruct Hs as (-> & Hns & Hf). eapply call_inv; [eassumption|left; eassumption|reflexivity..|left; by split| |by split].
      right. split_and!; [done|by right|done|by intros g [|]].
    + eapply call_inv; [eassumption|left; eassumption|reflexivity..|right; right; by split_and!|left; by split_and!|by split].
  - specialize (C1 eq_refl). destruct (ev_load ev); injection Hs as <-.
    + moves. by split.
    + eapply call_inv; [eassumption|left; eassumption|reflexivity..|right; right; by split_and!|left; by split_and!|by split].
    + eapply call_inv; [eassumption|left; eassumption|reflexivity..|right; right; by split_and!|left; by split_and!|by split].
  - injection Hs as <-. moves. by split.
  - injection Hs as <-. specialize (C1 eq_refl). specialize (C2 eq_refl).
    eapply call_inv; [eassumption|left; eassumption|reflexivity..|right; right; by split_and!| |by split].
    right. split_and!; [done|right; congruence|done|]. intros x [[= <-]|]; [by apply C4|done].
  - injection Hs as <-. specialize (C1 eq_refl).
    eapply call_inv; [eassumption|left; eassumption|reflexivity..|right; right; by split_and!|left; by split_and!|by split].
  - injection Hs as <-. moves. by split.
Qed.

Lemma stop_inv j ev st st' p :
  inv st → calls st !! j = Some p → call_step j ev st p = Some st' →
  match p with StopLock | StopBegin | StopOff | StopStatus _ | StopJoin _ _ | StopTimeout => true | _ => false end = true → inv st'.
Proof.
  intros Hi Hp Hs Hk. pose proof (i_calls st Hi j p Hp) as [C1 C2 C3 C4 C5 C6 C7].
  destruct p; try done; cbn in *; unfold lock_slot, unlock_slot, next in Hs.
  - destruct (slot_lock st) eqn:Hl; [done|]. injection Hs as <-. locks. by split.
  - specialize (C1 eq_refl). pose proof (i_slot st Hi) as Hslot.
    destruct (slot st) as [|g|[g|]] eqn:Hsl; cbn in Hs; injection Hs as <-.
    + eapply call_inv; [eassumption|left; eassumption|reflexivity..|right; right; by split_and!|left; by rewrite Hsl|by split].
    + eapply call_inv; [eassumption|left; eassumption|reflexivity..|right; right; by split_and!| |].
      * right. split_and!; [done|right; congruence|done|by intros x [|]].
      * split; cbn; try done. intros x [= <-]. apply Hslot. by left.
    + eapply call_inv; [eassumption|left; eassumption|reflexivity..|right; right; by split_and!| |].
      * right. split_and!; [done|right; congruence|done|by intros x [|]].
      * split; cbn; try done. intros x [= <-]. apply Hslot. by right.
    + eapply call_inv; [eassumption|left; eassumption|reflexivity..|right; right; by split_and!|left; by rewrite Hsl|by split].
  - injection Hs as <-. moves. by split.
  - injection Hs as <-. moves. by split.
  - destruct (is_finished st g) eqn:Hf; [|done]. injection Hs as <-. moves. split; cbn; try done. intros _.
    destruct (C4 g eq_refl) as [<- _]. exact Hf.
  - injection Hs as <-. moves. by split.
Qed.

(** A stop that touches the engine: it signals it, or takes its last message. *)
Lemma touch_inv st g e e' : inv st → engines st !! g = Some e → pc e' = pc e → (done_message e' = true → sent e = true) → inv (set_engine g e' st).
Proof.
  intros Hi He Hpc Hm. eapply engine_inv; [exact He|reflexivity..| | | |exact Hi]; unfold sent; rewrite Hpc; [done|done|exact Hm].
Qed.

Lemma wait_inv j ev st st' p :
  inv st → calls st !! j = Some p → call_step j ev st p = Some st' →
  match p with StopSignal _ | StopWait _ => true | _ => false end = true → inv st'.
Proof.
  intros Hi Hp Hs Hk. pose proof (i_calls st Hi j p Hp) as [C1 C2 C3 C4 C5 C6 C7].
  destruct p; try done; cbn in *; unfold next in Hs; destruct (C4 g eq_refl) as [-> _]; specialize (C3 eq_refl);
    (destruct (engines st !! generation st) as [e|] eqn:He; [|done]).
  - injection Hs as <-. assert (Hi' : inv (set_engine (generation st) (with_stop e) st)) by exact (touch_inv st _ e (with_stop e) Hi He eq_refl (i_message st Hi _ e He)).
    eapply (call_inv _ _ j (StopSignal (generation st))); [exact Hi'|by left|reflexivity..|left; by split|left; by split_and!|].
    split; cbn; try done. intros g [= <-]. by rewrite lookup_insert_eq.
  - destruct (done_message e) eqn:Hd; [|destruct (disconnected e) eqn:Hdis; [|destruct (ev_timeout ev); [|done]]]; injection Hs as <-.
    + assert (Hi' : inv (set_engine (generation st) (with_done false e) st)) by (by apply (touch_inv st _ e)).
      eapply (call_inv _ _ j (StopWait (generation st))); [exact Hi'|by left|reflexivity..|left; by split|left; by split_and!|].
      split; cbn; try done; [intros g [= <-]; by rewrite lookup_insert_eq|].
      intros g n e' [= <- <-]. rewrite lookup_insert_eq. intros [= <-]. exact (i_message st Hi _ e He Hd).
    + moves. split; cbn; try done. intros g n e' [= <- <-]. rewrite He. intros [= <-].
      unfold disconnected in Hdis. unfold sent. by destruct (pc e).
    + moves. by split.
Qed.

Lemma park_inv j ev st st' p :
  inv st → calls st !! j = Some p → call_step j ev st p = Some st' →
  match p with StopLockAgain _ | StopIdle _ | StopFinal _ | StopParkLock _ | StopPark _ => true | _ => false end = true → inv st'.
Proof.
  intros Hi Hp Hs Hk. pose proof (i_calls st Hi j p Hp) as [C1 C2 C3 C4 C5 C6 C7].
  destruct p; try done; cbn in *; unfold lock_slot, unlock_slot, next in Hs.
  - destruct (slot_lock st) eqn:Hl; [done|]. injection Hs as <-. locks. by split.
  - injection Hs as <-. eapply call_inv; [eassumption|left; eassumption|reflexivity..|left; by split| |by split].
    right. split_and!; [by apply C1|by left|by intros _; apply C5|by intros g [|]].
  - injection Hs as <-. eapply call_inv; [eassumption|left; eassumption|reflexivity..|right; right; split_and!; [by apply C1|done..]|left; by split_and!|by split].
  - destruct (slot_lock st) eqn:Hl; [done|]. injection Hs as <-. locks. by split.
  - rewrite (C3 eq_refl) in Hs. cbn in Hs. injection Hs as <-.
    eapply call_inv; [eassumption|left; eassumption|reflexivity..|right; right; split_and!; [by apply C1|done..]| |by split].
    right. split_and!; [by apply C1|by left|done|]. intros x [|[= <-]]; [done|by apply C4].
Qed.

Lemma step_inv a ev st st' : step a ev st = Some st' → inv st → inv st'.
Proof.
  intros Hs Hi. destruct a as [j|j|j|g|g|g].
  - cbn in Hs. destruct (calls st !! j) eqn:Hj; [done|]. injection Hs as <-.
    eapply (call_inv _ _ j Returned); [exact Hi|by right|reflexivity..|left; by split|left; by split_and!|by split].
  - cbn in Hs. destruct (calls st !! j) eqn:Hj; [done|]. injection Hs as <-.
    eapply (call_inv _ _ j Returned); [exact Hi|by right|reflexivity..|left; by split|left; by split_and!|by split].
  - cbn in Hs. destruct (calls st !! j) as [p|] eqn:Hj; [|done].
    destruct p; try (by eapply start_inv); try (by eapply stop_inv); try (by eapply wait_inv); try (by eapply park_inv).
    + injection Hs as <-. by apply generation_inv.
    + cbn in Hs. destruct (ev_spawned ev); injection Hs as <-; [by apply spawn_inv|].
      pose proof (i_calls st Hi j _ Hj) as [C1 C2 _ _ _ C6 _]. destruct (C6 g eq_refl) as [-> Hn]. moves. split; cbn; try done.
      intros _. unfold is_finished. cbn. by rewrite Hn.
  - by eapply engine_step_inv.
  - by eapply part_step_inv; [left|].
  - by eapply part_step_inv; [right|].
Qed.

Lemma reachable_inv st : reachable st → inv st.
Proof. induction 1 as [|a ev st st' _ IH Hs]; [apply init_inv|]. by eapply step_inv. Qed.

(** C24: However calls of [nativeStart] and [nativeStop] from any threads, time
    outs, failures and panics interleave: a thread that has not ended is that
    of the latest generation, so there is at most one engine, it never finds
    itself stale where it publishes its last status or clears the shared state,
    no start spawns a thread while another lives, and a stop that timed out
    always gives its handle back to the slot. *)
Theorem one_engine_at_a_time st :
  reachable st →
  (∀ g, is_finished st g = false → g = generation st) ∧
  (∀ j g, calls st !! j = Some (StartSpawn g) → ∀ x, is_finished st x = true) ∧
  (∀ j g, calls st !! j = Some (StopPark g) → park g (slot st) = Some (SlotStopping (Some g))) ∧
  (slot st = Idle → slot_lock st = None → ∀ x, is_finished st x = true).
Proof.
  intros Hi%reachable_inv. pose proof Hi as [I1 I2 I3 I4 I5 I6 I7 I8].
  assert (Hall : is_finished st (generation st) = true → ∀ x, is_finished st x = true).
  { intros Hg x. destruct (is_finished st x) eqn:Hx; [done|]. pose proof Hx as ->%I2. congruence. }
  split; [done|]. split_and!.
  - intros j g Hj. destruct (I8 j _ Hj) as [_ _ _ _ _ C6 _]. destruct (C6 g eq_refl) as [-> Hn]. apply Hall. unfold is_finished. by rewrite Hn.
  - intros j g Hj. destruct (I8 j _ Hj) as [_ _ C3 _ _ _ _]. by rewrite C3.
  - intros Hs Hl. apply Hall, I4; [done|]. intros j g Hj. destruct (I8 j _ Hj) as [C1 _ _ _ _ _ _]. by rewrite (C1 eq_refl) in Hl.
Qed.

(** ** Calls end *)

(** The steps left to a call, and to an engine after its last message. *)
Definition rank (p : call_pc) : Z :=
  match p with
  | StartLock => 11 | StartCheck => 10 | StartLoad => 9 | StartStatus => 8 | StartGeneration => 7 | StartSpawn _ => 6
  | StartStore _ => 1 | StartNoThread => 1 | StartPanic => 1
  | StopLock => 9 | StopBegin => 8 | StopOff => 1 | StopStatus _ => 7 | StopSignal _ => 6 | StopWait _ => 5
  | StopJoin _ _ => 4 | StopLockAgain _ => 3 | StopIdle _ => 2 | StopFinal _ => 1
  | StopParkLock _ => 3 | StopPark _ => 2 | StopTimeout => 1
  | Returned => 0
  end.

Definition tail (e : engine) : Z := match pc e with ThreadFinished => 0 | Gone => 1 | Return => 2 | _ => 3 end.

Definition remaining (st : state) : Z := tally rank (calls st) + tally tail (engines st).

Lemma rank_nonneg p : 0 ≤ rank p.
Proof. destruct p; cbn; lia. Qed.
Lemma tail_nonneg e : 0 ≤ tail e.
Proof. unfold tail. destruct (pc e); lia. Qed.

Lemma remaining_nonneg st : 0 ≤ remaining st.
Proof. pose proof (tally_nonneg rank (calls st) rank_nonneg). pose proof (tally_nonneg tail (engines st) tail_nonneg). unfold remaining. lia. Qed.

Lemma remaining_call st st' j p p' :
  calls st !! j = Some p → calls st' = <[j := p']> (calls st) → engines st' = engines st → rank p' < rank p → remaining st' < remaining st.
Proof. intros Hp Hc He Hr. unfold remaining. rewrite Hc, He, (tally_insert rank _ j p p' Hp). lia. Qed.

Lemma remaining_engine st st' g e e' :
  engines st !! g = Some e → engines st' = <[g := e']> (engines st) → calls st' = calls st →
  remaining st' = remaining st + (tail e' - tail e).
Proof. intros Hg He Hc. unfold remaining. rewrite Hc, He, (tally_insert tail _ g e e' Hg). lia. Qed.

Lemma call_remaining j ev st st' : inv st → step (Call j) ev st = Some st' → remaining st' < remaining st.
Proof.
  intros Hi. cbn. destruct (calls st !! j) as [p|] eqn:Hp; [|done]. pose proof (i_calls st Hi j p Hp) as [_ _ _ _ _ C6 _].
  assert (Htouch : ∀ g e e' p', engines st !! g = Some e → tail e' = tail e → rank p' < rank p →
    remaining (set_call j p' (set_engine g e' st)) < remaining st).
  { intros g e e' p' He Ht Hr. eapply Z.lt_le_trans; [by eapply (remaining_call (set_engine g e' st))|].
    rewrite (remaining_engine st (set_engine g e' st) g e e') by done. lia. }
  destruct p; cbn; unfold lock_slot, unlock_slot, next; intros Hs.
  all: try (repeat case_match; simplify_eq; (eapply remaining_call; [exact Hp|reflexivity..|cbn; lia])).
  - destruct (ev_spawned ev); injection Hs as <-; [|eapply remaining_call; [exact Hp|reflexivity..|cbn; lia]].
    destruct (C6 g eq_refl) as [_ Hn]. unfold remaining. cbn [calls engines set_call set_engine].
    rewrite (tally_insert rank _ j _ _ Hp), (tally_insert_fresh tail _ g _ Hn). cbn. lia.
  - destruct (engines st !! g) as [e|] eqn:He; [|done]. injection Hs as <-. by eapply Htouch; [exact He| |cbn; lia].
  - destruct (engines st !! g) as [e|] eqn:He; [|done]. destruct (done_message e); [injection Hs as <-; by eapply Htouch; [exact He| |cbn; lia]|].
    destruct (disconnected e); [|destruct (ev_timeout ev); [|done]]; injection Hs as <-; (eapply remaining_call; [exact Hp|reflexivity..|cbn; lia]).
Qed.

Lemma engine_remaining g ev st st' : step (Engine g) ev st = Some st' → remaining st' ≤ remaining st.
Proof.
  cbn. unfold on_engine. destruct (engines st !! g) as [e|] eqn:He; [|done]. unfold engine_step. intros Hs.
  destruct (pc e) eqn:Hpc; repeat case_match; simplify_eq; (erewrite remaining_engine; [|exact He|reflexivity|reflexivity]);
    unfold tail; rewrite Hpc; cbn; lia.
Qed.

Lemma part_remaining g ev st st' : step (Callback g) ev st = Some st' ∨ step (Warm g) ev st = Some st' → remaining st' ≤ remaining st.
Proof.
  cbn. unfold on_engine. destruct (engines st !! g) as [e|] eqn:He; [|by intros [?|?]]. unfold callback_step, warm_step. intros Hs.
  destruct Hs as [Hs|Hs]; destruct (runtime e); try done; repeat case_match; simplify_eq;
    (erewrite remaining_engine; [|exact He|reflexivity|reflexivity]); unfold tail; cbn; lia.
Qed.

(** An event under which every wait is over. *)
Definition impatient : event := mkEvent LoadOk true true BootStopped false false 0 true false.

Lemma holder_steps st j p :
  inv st → calls st !! j = Some p → holds_lock p = true → ∃ st', step (Call j) impatient st = Some st'.
Proof.
  intros Hi Hp Hh. pose proof (i_calls st Hi j p Hp) as [_ _ C3 _ _ _ _]. cbn. rewrite Hp. destruct p; try done; cbn; unfold unlock_slot, next; try by eexists.
  - destruct (acquire_engine_slot_for_start _ _) as [s []]; by eexists.
  - destruct (begin_engine_stop (slot st)) as [s handoff]. by eexists.
  - rewrite (C3 eq_refl). by eexists.
Qed.

Lemma locker_steps st j p q :
  inv st → calls st !! j = Some p → call_step j impatient st p = lock_slot j q st → ∃ j' st', step (Call j') impatient st = Some st'.
Proof.
  intros Hi Hp Hs. destruct (slot_lock st) as [j'|] eqn:Hl.
  - destruct (i_holder st Hi j' Hl) as (p' & Hp' & Hh). exists j'. by eapply holder_steps.
  - exists j. cbn. rewrite Hp, Hs. unfold lock_slot. rewrite Hl. by eexists.
Qed.

Lemma some_step st j p :
  inv st → calls st !! j = Some p → p ≠ Returned → ∃ a st', step a impatient st = Some st' ∧ remaining st' < remaining st.
Proof.
  intros Hi Hp Hne. pose proof (i_calls st Hi j p Hp) as [_ _ _ C4 _ _ C7].
  assert (Hcall : (∃ j' st', step (Call j') impatient st = Some st') → ∃ a st', step a impatient st = Some st' ∧ remaining st' < remaining st).
  { intros (j' & st' & Hs). exists (Call j'), st'. split; [done|]. by eapply call_remaining. }
  destruct (holds_lock p) eqn:Hh; [apply Hcall; exists j; by eapply holder_steps|].
  destruct p; try done; try (apply Hcall; by eapply locker_steps); try (apply Hcall; exists j; cbn; rewrite Hp; by eexists).
  - apply Hcall. exists j. cbn. rewrite Hp. destruct (C4 g eq_refl) as [-> [e He]]. cbn. rewrite He. by eexists.
  - apply Hcall. exists j. cbn. rewrite Hp. destruct (C4 g eq_refl) as [-> [e He]]. cbn. rewrite He.
    destruct (done_message e); [by eexists|]. destruct (disconnected e); by eexists.
  - destruct (is_finished st g) eqn:Hf; [apply Hcall; exists j; cbn; rewrite Hp; cbn; rewrite Hf; by eexists|].
    destruct (C4 g eq_refl) as [_ [e He]]. specialize (C7 g normal e eq_refl He). unfold is_finished in Hf. rewrite He in Hf.
    unfold sent in C7. destruct (pc e) eqn:Hpc; try done; eexists (Engine g), _; cbn; unfold on_engine, engine_step; rewrite He, Hpc;
      (split; [reflexivity|]); (erewrite remaining_engine; [|exact He|reflexivity|reflexivity]); unfold tail; rewrite Hpc; cbn; lia.
Qed.

(** No call of [nativeStart] or [nativeStop] hangs. While one has not
    returned some step can be made that brings the end of all calls nearer,
    where a wait for the engine ends by its time out at the latest, and no step
    other than a new call puts it off. *)
Theorem calls_return st :
  reachable st →
  (∀ j p, calls st !! j = Some p → p ≠ Returned → ∃ a st', step a impatient st = Some st' ∧ 0 ≤ remaining st' < remaining st) ∧
  (∀ a ev st', step a ev st = Some st' → (∀ j, a ≠ EnterStart j ∧ a ≠ EnterStop j) → remaining st' ≤ remaining st).
Proof.
  intros Hi%reachable_inv. split.
  - intros j p Hp Hne. destruct (some_step st j p Hi Hp Hne) as (a & st' & Hs & Hr). exists a, st'. pose proof (remaining_nonneg st'). by split.
  - intros a ev st' Hs Ha. destruct a as [j|j|j|g|g|g]; [by destruct (Ha j)|by destruct (Ha j)| | | |].
    + apply (call_remaining j ev st st') in Hs; [lia|done].
    + by eapply engine_remaining.
    + eapply part_remaining. by left.
    + eapply part_remaining. by right.
Qed.

(** ** What is published may be out of date *)

(** Everything goes well, and every wait is over. *)
Definition fine : event := mkEvent LoadOk true true (BootReady 1080) false false 100 true true.

Definition steps (a : actor) (n : nat) : list (actor * event) := repeat (a, fine) n.

(** A start and the engine it spawns, up to its accept loop; the end of an
    engine that was told to stop. *)
Definition start_up (j g : nat) : list (actor * event) := steps (EnterStart j) 1 ++ steps (Call j) 7 ++ steps (Engine g) 7.
Definition tear_down (g : nat) : list (actor * event) := steps (Engine g) 10.

Definition all_returned (st : state) : bool := forallb (fun jp => match jp.2 with Returned => true | _ => false end) (map_to_list (calls st)).

(** An engine that serves and told Java so. *)
Definition serves (st : state) (g : nat) : bool :=
  match engines st !! g with
  | Some e => match pc e with Accept => told_ready e && negb (stop_flag e) && match callback e with Quiet => true | _ => false end | _ => false end
  | None => false
  end.

Definition shows (sched : list (actor * event)) (f : state → bool) : bool :=
  match run sched init with Some st => all_returned st && f st | None => false end.

Lemma shows_reachable sched f : shows sched f = true → ∃ st, reachable st ∧ all_returned st = true ∧ f st = true.
Proof.
  unfold shows. destruct (run sched init) as [st|] eqn:Hr; [|done]. intros [Ha Hf]%andb_true_iff. exists st.
  split; [|done]. by eapply run_reachable; [constructor|].
Qed.

Definition status_is (x : EngineStatus) (st : state) : bool :=
  match x, status st with
  | Off, Off => true
  | Starting a, Starting b => a =? b
  | Error StopTimedOut, Error StopTimedOut => true
  | _, _ => false
  end.

(** A stop that finds the slot empty publishes only after a later start. *)
Definition late_off : list (actor * event) :=
  steps (EnterStop 0) 1 ++ steps (Call 0) 2 ++ start_up 1 1 ++ steps (Call 0) 1.
(** A stop that timed out publishes after another stop and a later start. *)
Definition late_timeout : list (actor * event) :=
  start_up 0 1 ++ steps (EnterStop 1) 1 ++ steps (Call 1) 7 ++ steps (EnterStop 2) 1 ++ steps (Call 2) 4 ++ tear_down 1 ++
  steps (Call 2) 5 ++ start_up 3 2 ++ steps (Call 1) 1.
(** A report of progress passed its check before the engine was ready. *)
Definition late_progress : list (actor * event) :=
  steps (EnterStart 0) 1 ++ steps (Call 0) 7 ++ steps (Engine 1) 1 ++ steps (Callback 1) 2 ++ steps (Engine 1) 6 ++ steps (Callback 1) 1.
(** The warm-up publishes after the teardown cleared the active bridges. *)
Definition late_warm : list (actor * event) :=
  start_up 0 1 ++ steps (Warm 1) 1 ++ steps (EnterStop 1) 1 ++ steps (Call 1) 4 ++ steps (Engine 1) 4 ++ steps (Warm 1) 1 ++
  steps (Engine 1) 6 ++ steps (Call 1) 5.

(** C40: What the library publishes can stay out of date after every call has
    returned. While an engine serves, and has told Java so, the status can be
    Off, for a stop that found the slot empty before the start; an error, for
    an earlier stop that timed out; or still Starting, for a report of progress
    that passed its check before the engine was ready. And after the engine has
    ended its bridges can still be listed as active. *)
Theorem published_state_can_be_stale :
  (∃ st, reachable st ∧ all_returned st = true ∧ serves st 1 && status_is Off st = true) ∧
  (∃ st, reachable st ∧ all_returned st = true ∧ serves st 2 && status_is (Error StopTimedOut) st = true) ∧
  (∃ st, reachable st ∧ all_returned st = true ∧ serves st 1 && status_is (Starting 100) st = true) ∧
  (∃ st, reachable st ∧ all_returned st = true ∧
    is_finished st 1 && bool_decide (slot_lock st = None) && match slot st, active_bridges st with Idle, Some 1%nat => true | _, _ => false end = true).
Proof.
  split_and!.
  - apply (shows_reachable late_off). vm_compute. reflexivity.
  - apply (shows_reachable late_timeout). vm_compute. reflexivity.
  - apply (shows_reachable late_progress). vm_compute. reflexivity.
  - apply (shows_reachable late_warm). vm_compute. reflexivity.
Qed.

(** ** Witnesses *)

Definition serving_state : state := match run (start_up 0 1) init with Some st => st | None => init end.

Lemma serving_reachable : reachable serving_state.
Proof. apply (run_reachable (start_up 0 1) init); [constructor|vm_compute; reflexivity]. Qed.

Lemma one_engine_at_a_time_witness :
  is_finished serving_state 1 = false ∧ ∀ g, is_finished serving_state g = false → g = 1%nat.
Proof.
  split; [vm_compute; reflexivity|]. exact (proj1 (one_engine_at_a_time serving_state serving_reachable)).
Defined.

Definition waiting_state : state :=
  match run (start_up 0 1 ++ steps (EnterStop 1) 1 ++ steps (Call 1) 4) init with Some st => st | None => init end.

Lemma waiting_reachable : reachable waiting_state.
Proof.
  apply (run_reachable (start_up 0 1 ++ steps (EnterStop 1) 1 ++ steps (Call 1) 4) init); [constructor|vm_compute; reflexivity].
Qed.

Lemma calls_return_witness : ∃ a st', step a impatient waiting_state = Some st' ∧ 0 ≤ remaining st' < remaining waiting_state.
Proof.
  apply (proj1 (calls_return waiting_state waiting_reachable) 1%nat (StopWait 1)); [vm_compute; reflexivity|discriminate].
Defined.
End EngineSlot.
