(* ===== verification/EngineWatch.v ===== *)
(** * The Android engine: probes, warm pool and watchdogs

    [packages/android-ffi/src/engine/engine_bootstrap.rs] and the selections
    and updates of the health store in [engine_bridges.rs]: the check of a live
    circuit before the engine reports that it is on, the parallel warm-up of
    bridges, the watchdog of a stalled bootstrap, and the watchdog of a running
    engine with its rotation pool, re-probes and channel resets. *)

From S2P Require Import Prelude Order OrdMap Str Net Crates Samples Identity BridgeStore StoreStats BridgesConfig ConfigSections Probe.
Import Identity Store Stats.
Open Scope Z_scope.

Module EngineWatch.

(** ** The live circuit *)

Definition LIVE_PROBE_ATTEMPTS : nat := 3.

(** What an attempt or the pause after it sees first: a change of the stop
    signal ([true] also when its sender is gone), a stream, a failure or time
    out, or the end of the pause. *)
Inductive live_event : Type :=
| Changed (stop : bool)
| Opened
| Refused
| Slept.

Inductive live_action : Type :=
| ReportBlocked
| RotateChannels.

Fixpoint attempts (left : nat) (evs : list live_event) : option (result bool unit * list live_action) :=
  match left with
  | O => Some (Err tt, [])
  | S left' =>
      match evs with
      | Changed true :: _ => Some (Ok false, [])
      | Changed false :: evs' => attempts left' evs'
      | Opened :: _ => Some (Ok true, [])
      | Refused :: evs' =>
          if (left' =? 0)%nat then Some (Err tt, [ReportBlocked])
          else
            match evs' with
            | Changed true :: _ => Some (Ok false, [ReportBlocked; RotateChannels])
            | Changed false :: evs'' | Slept :: evs'' =>
                match attempts left' evs'' with
                | Some (r, acts) => Some (r, ReportBlocked :: RotateChannels :: acts)
                | None => None
                end
            | _ => None
            end
      | _ => None
      end
  end.

(** [None] while it waits. *)
Definition verify_live_circuit (stopped : bool) (evs : list live_event) : option (result bool unit * list live_action) :=
  if stopped then Some (Ok false, []) else attempts LIVE_PROBE_ATTEMPTS evs.

(** ** The watchdog of the bootstrap *)

Definition BOOTSTRAP_STALL_TIMEOUT : Z := from_secs 120.

(** A look at the status: its instant, and the percentage while the engine
    starts. *)
Record stall_state : Type := mkStall { last_percent : option Z; last_change : Z }.

(** [None]: the task ends; else the next state and whether channels are reset. *)
Definition stall_check (now : Z) (percent : option Z) (s : stall_state) : option (stall_state * bool) :=
  match percent with
  | None => None
  | Some p =>
      if negb (bool_decide (last_percent s = Some p)) then Some (mkStall (Some p) now, false)
      else if now - last_change s <? BOOTSTRAP_STALL_TIMEOUT then Some (s, false)
      else Some (mkStall (last_percent s) now, true)
  end.

(** The instants at which channels are reset. *)
Fixpoint bootstrap_stall_watchdog (looks : list (Z * option Z)) (s : stall_state) : list Z :=
  match looks with
  | [] => []
  | (now, percent) :: looks' =>
      match stall_check now percent s with
      | None => []
      | Some (s', reset) => (if reset then [now] else []) ++ bootstrap_stall_watchdog looks' s'
      end
  end.

(** ** Warming *)

Definition MAX_WARM_BRIDGES : nat := 16.
Definition MAX_ACTIVE_BRIDGES : nat := 30.
Definition TARGET_WARM_POOL_SIZE : nat := 30.
Definition WARM_TOPUP_BATCH : nat := 10.
Definition WARM_REFRESH_BATCH : nat := 2.
Definition WARM_TOPUP_INTERVAL : Z := from_secs (2 * 60).
Definition CIRCUIT_VERIFY_INTERVAL : Z := from_secs (30 * 60).
Definition CIRCUIT_VERIFY_BATCH : nat := 2.
Definition CIRCUIT_VERIFY_MAX_AGE : Z := from_secs (24 * 60 * 60).
Definition WATCHDOG_FAILURES_BEFORE_RESET : Z := 3.
Definition WATCHDOG_RESET_COOLDOWN : Z := from_secs (5 * 60).
Definition SOURCE_MIN_SAMPLE : nat := 40.
Definition BARREN_SOURCE_RETRY_EVERY : Z := 6.

(** How the warm-up of a bridge ends. *)
Inductive warm_answer : Type :=
| OwnChannel (elapsed : Z)
| SharedChannel
| WarmError (rendered : str)
| WarmTimedOut
| TaskDied.

Inductive WarmOutcome : Type :=
| Warm (b : BridgeLine) (l : Z)
| Retired (b : BridgeLine)
| Failed.

Definition is_permanent_bridge_failure (rendered : str) : bool :=
  bool_decide (is_Some (split_once_str (lit "does not match target") rendered)).

Definition warm_outcome (b : BridgeLine) (a : warm_answer) : WarmOutcome :=
  match a with
  | OwnChannel l => Warm b l
  | WarmError rendered => if is_permanent_bridge_failure rendered then Retired b else Failed
  | SharedChannel | WarmTimedOut | TaskDied => Failed
  end.

Record WarmPool : Type := mkPool { warmed : list (BridgeLine * Z); retired : list BridgeLine }.

Definition by_latency : BridgeLine * Z → BridgeLine * Z → comparison := cmp_on snd Z.compare.

#[export] Instance by_latency_ranking : Ranking by_latency.
Proof. apply cmp_on_ranking, Z_compare_ranking. Qed.

(** The tasks in the order they are joined. *)
Definition warm_bridge_pool (join : list BridgeLine → list (BridgeLine * warm_answer)) (bridges : list BridgeLine) : WarmPool :=
  let outcomes := map (fun ba => warm_outcome ba.1 ba.2) (join (firstn MAX_WARM_BRIDGES bridges)) in
  mkPool (sort_by by_latency (omap (fun o => match o with Warm b l => Some (b, l) | _ => None end) outcomes))
    (omap (fun o => match o with Retired b => Some b | _ => None end) outcomes).

Section Watch.
Context `{UrlCrate, TlsCrate, TimeCrate, BridgeLineCrate}.

(** ** Selections and updates of the store *)

Definition uses (t : str) (b : BridgeLine) : bool := bool_decide (transport b = Some t).

Definition preferred_transport_bridges (cfg : ConfigSections.BridgesConfig) (configured : list BridgeLine) : list BridgeLine :=
  match BridgesConfig.preferred_transport (ConfigSections.transport cfg) with
  | None => configured
  | Some preferred =>
      let matching := List.filter (uses preferred) configured in
      if is_empty matching then configured else matching
  end.

(** The lines that are not retired, or all when that leaves none. *)
Definition usable (store : option BridgeStore) (configured : list BridgeLine) : list BridgeLine :=
  match store with
  | Some s =>
      let live := List.filter (fun b => negb (is_retired s b)) configured in
      if is_empty live then configured else live
  | None => configured
  end.

Definition select_active_probe_bridges (store : option BridgeStore) (configured : list BridgeLine) : list BridgeLine :=
  let us := usable store configured in
  if (length us <=? MAX_ACTIVE_BRIDGES)%nat then us
  else
    match store with
    | Some s =>
        let ranked := healthiest_among s us MAX_ACTIVE_BRIDGES in
        if is_empty ranked then firstn MAX_ACTIVE_BRIDGES us else ranked
    | None => firstn MAX_ACTIVE_BRIDGES us
    end.

(** [None]: the blocking task failed. *)
Definition select_active_probe_bridges_async (loaded : option (option BridgeStore)) (configured : list BridgeLine) : list BridgeLine :=
  match loaded with
  | Some store => select_active_probe_bridges store configured
  | None => firstn MAX_ACTIVE_BRIDGES configured
  end.

Definition texts (bs : list BridgeLine) : list str := map bridge_to_string bs.
Definition without (skip bs : list BridgeLine) : list BridgeLine :=
  List.filter (fun b => bool_decide (bridge_to_string b ∉ texts skip)) bs.

Definition minutes (m : Z) : Z := from_secs (Z.min (m * 60) u64_max).

(** The store that is saved, what it pruned, and the round in its ranking. *)
Definition persist_and_rank_probe (cfg : ConfigSections.BridgesConfig) (now : OffsetDateTime) (all : list BridgeLine)
  (round : Probe.ProbeRound) (store : option BridgeStore) : option (BridgeStore * list BridgeLine) * list (BridgeLine * Z) :=
  match store with
  | None => (None, Probe.alive round)
  | Some s =>
      let measured := if is_empty (Probe.unmeasured round) then all else without (Probe.unmeasured round) all in
      let '(s', pruned) :=
        note_probe_round s measured (Probe.alive round) now (minutes (ConfigSections.fail_window_mins cfg))
          (ConfigSections.max_fails cfg) (ConfigSections.max_circuit_fails cfg) in
      (Some (s', pruned), rank_probe_round s' (Probe.alive round))
  end.

(** The sources that are left out of a round. *)
Definition barren_sources (store : option BridgeStore) (round : Z) : list str :=
  if round mod BARREN_SOURCE_RETRY_EVERY =? 0 then []
  else match store with
       | None => []
       | Some s => map label (List.filter (fun st => is_barren st SOURCE_MIN_SAMPLE) (source_summary s))
       end.

Definition needing_circuit_verification_async (store : option BridgeStore) (now : OffsetDateTime) : list BridgeLine :=
  match store with
  | Some s => needing_circuit_verification s now CIRCUIT_VERIFY_MAX_AGE CIRCUIT_VERIFY_BATCH (fun _ => true)
  | None => []
  end.

Definition persist_bridge_sources (now : OffsetDateTime) (outcomes : list (str * list BridgeLine)) (store : option BridgeStore) : option BridgeStore :=
  if forallb (fun o => is_empty o.2) outcomes then None
  else option_map (fun s => fold_left (fun s o => fold_left (fun s b => note_source_at s b o.1 now) o.2 s) outcomes s) store.

Definition persist_warm_results (now : OffsetDateTime) (pool : WarmPool) (store : option BridgeStore) : option BridgeStore :=
  if is_empty (warmed pool) && is_empty (retired pool) then None
  else
    option_map (fun s =>
      let s := fold_left (fun s bl => note_channel_success_at s bl.1 now) (warmed pool) s in
      fold_left (fun s b => note_permanent_failure_at s b now) (retired pool) s) store.

Definition persist_circuit_verify_results (now : OffsetDateTime) (results : list (BridgeLine * bool)) (store : option BridgeStore) : option BridgeStore :=
  if is_empty results then None
  else
    option_map (fun s => fold_left (fun (s : BridgeStore) (bo : BridgeLine * bool) =>
      let s := note_verification_attempt_at s bo.1 now in
      if bo.2 then note_circuit_verified_at s bo.1 now else s) results s) store.

(** ** The watchdog of a running engine *)

Record watch : Type := mkWatch {
  consecutive_failures : Z;
  last_reset : option Z;
  first_bridge_reprobe : bool;
  last_bridge_reprobe : Z;
  auto_fetch_round : Z;
  rotation_bridges : list (BridgeLine * Z);
  warm_session_failed : gset str;
  last_topup : Z;
  last_circuit_verify : Z;
}.

(** The instants that are read, what loads and tasks give, and where a stop is
    seen. *)
Record tick_env : Type := mkTick {
  t_stop : bool;
  t_topup : Z;
  t_loaded : option (option BridgeStore);
  t_join : list BridgeLine → list (BridgeLine * warm_answer);
  t_stop_warming : bool;
  t_verify : Z;
  t_due : option BridgeStore;
  t_clock : OffsetDateTime;
  t_reprobe : Z;
  t_connected : bool;
  t_reset : Z;
  t_terminated : bool;
  t_rejoin : list BridgeLine → list (BridgeLine * warm_answer);
  t_stop_rebuild : bool;
}.

Inductive action : Type :=
| SaveDnsCache
| WarmUp (batch : list BridgeLine)
| PersistWarm (pool : WarmPool)
| PublishActive (bs : list BridgeLine)
| SpawnVerify (due : list BridgeLine)
| SpawnReprobe (round : Z)
| FlushDns
| TerminateChannels.

Definition start (now : Z) (topup verify : Z) : watch := mkWatch 0 None true now 0 [] ∅ topup verify.

Definition with_rotation (r : list (BridgeLine * Z)) (f : gset str) (w : watch) : watch :=
  mkWatch (consecutive_failures w) (last_reset w) (first_bridge_reprobe w) (last_bridge_reprobe w) (auto_fetch_round w) r f
    (last_topup w) (last_circuit_verify w).
Definition with_failures (n : Z) (reset : option Z) (w : watch) : watch :=
  mkWatch n reset (first_bridge_reprobe w) (last_bridge_reprobe w) (auto_fetch_round w) (rotation_bridges w) (warm_session_failed w)
    (last_topup w) (last_circuit_verify w).
Definition with_topup (t : Z) (w : watch) : watch :=
  mkWatch (consecutive_failures w) (last_reset w) (first_bridge_reprobe w) (last_bridge_reprobe w) (auto_fetch_round w)
    (rotation_bridges w) (warm_session_failed w) t (last_circuit_verify w).
Definition with_verify (t : Z) (w : watch) : watch :=
  mkWatch (consecutive_failures w) (last_reset w) (first_bridge_reprobe w) (last_bridge_reprobe w) (auto_fetch_round w)
    (rotation_bridges w) (warm_session_failed w) (last_topup w) t.
Definition with_reprobe (t round : Z) (w : watch) : watch :=
  mkWatch (consecutive_failures w) (last_reset w) false t round (rotation_bridges w) (warm_session_failed w) (last_topup w)
    (last_circuit_verify w).

(** The candidates of a top-up round. *)
Definition topup_batch (cfg : ConfigSections.BridgesConfig) (bridges : list BridgeLine) (e : tick_env) (w : watch) : list BridgeLine :=
  let batch_size := if (length (rotation_bridges w) <? TARGET_WARM_POOL_SIZE)%nat then WARM_TOPUP_BATCH else WARM_REFRESH_BATCH in
  firstn batch_size
    (List.filter (fun b =>
       bool_decide (bridge_to_string b ∉ texts (map fst (rotation_bridges w))) &&
       bool_decide (bridge_to_string b ∉ warm_session_failed w))
     (select_active_probe_bridges_async (t_loaded e) (preferred_transport_bridges cfg bridges))).

Definition keep_unretired (pool : WarmPool) (r : list (BridgeLine * Z)) : list (BridgeLine * Z) :=
  List.filter (fun bl => bool_decide (bridge_to_string bl.1 ∉ texts (retired pool))) r.

(** The rotation after a round, and the bridges that did not warm. *)
Definition merge_pool (batch : list BridgeLine) (pool : WarmPool) (w : watch) : watch :=
  with_rotation
    (firstn TARGET_WARM_POOL_SIZE (sort_by by_latency (keep_unretired pool (rotation_bridges w) ++ warmed pool)))
    (list_to_set (texts (without (map fst (warmed pool)) batch)) ∪ warm_session_failed w) w.

(** [None]: the task returned. *)
Definition topup (cfg : ConfigSections.BridgesConfig) (bridges : list BridgeLine) (e : tick_env) (w : watch) : option watch * list action :=
  if t_topup e - last_topup w <? WARM_TOPUP_INTERVAL then (Some w, [])
  else
    let w := with_topup (t_topup e) w in
    let batch := topup_batch cfg bridges e w in
    if is_empty batch then (Some w, [])
    else if t_stop_warming e then (None, [WarmUp batch])
    else
      let pool := warm_bridge_pool (t_join e) batch in
      let w := merge_pool batch pool w in
      (Some w, [WarmUp batch; PersistWarm pool; PublishActive (map fst (rotation_bridges w))]).

Definition circuit_verify (e : tick_env) (w : watch) : watch * list action :=
  if t_verify e - last_circuit_verify w <? CIRCUIT_VERIFY_INTERVAL then (w, [])
  else
    let due := needing_circuit_verification_async (t_due e) (t_clock e) in
    (with_verify (t_verify e) w, if is_empty due then [] else [SpawnVerify due]).

Definition reprobe (cfg : ConfigSections.BridgesConfig) (bridges : list BridgeLine) (e : tick_env) (w : watch) : watch * list action :=
  let reprobe_interval := minutes (ConfigSections.recheck_interval_mins cfg) in
  let should := negb (reprobe_interval =? 0) && (first_bridge_reprobe w || (reprobe_interval <=? t_reprobe e - last_bridge_reprobe w)) in
  if negb (is_empty bridges) && should then
    let round := (auto_fetch_round w + 1) mod 2 ^ 32 in
    (with_reprobe (t_reprobe e) round w, [SpawnReprobe round])
  else (w, []).

Definition cooled_down (now : Z) (reset : option Z) : bool :=
  match reset with Some t => WATCHDOG_RESET_COOLDOWN <=? now - t | None => true end.

(** The rotation after channels were reset. *)
Definition rebuild (bridges : list BridgeLine) (e : tick_env) (w : watch) : option watch * list action :=
  if negb (t_terminated e) then (Some w, [FlushDns; TerminateChannels])
  else
    let candidates := if is_empty (rotation_bridges w) then bridges else map fst (rotation_bridges w) in
    if t_stop_rebuild e then (None, [FlushDns; TerminateChannels; WarmUp candidates])
    else
      let pool := warm_bridge_pool (t_rejoin e) candidates in
      let kept := if is_empty (retired pool) then rotation_bridges w else keep_unretired pool (rotation_bridges w) in
      let rotation := if is_empty (warmed pool) then kept else warmed pool in
      (Some (with_rotation rotation (warm_session_failed w) w),
       [FlushDns; TerminateChannels; WarmUp candidates; PersistWarm pool] ++
       (if is_empty (warmed pool) then [] else [PublishActive (map fst rotation)])).

Definition liveness (bridges : list BridgeLine) (e : tick_env) (w : watch) : option watch * list action :=
  if t_connected e then (Some (with_failures 0 (last_reset w) w), [])
  else
    let n := consecutive_failures w + 1 in
    let w := with_failures n (last_reset w) w in
    if n <? WATCHDOG_FAILURES_BEFORE_RESET then (Some w, [])
    else if negb (cooled_down (t_reset e) (last_reset w)) then (Some w, [])
    else
      let w := with_rotation (rotation_bridges w) ∅ w in
      match rebuild bridges e w with
      | (Some w, acts) => (Some (with_failures 0 (Some (t_reset e)) w), acts)
      | (None, acts) => (None, acts)
      end.

Definition tick (cfg : ConfigSections.BridgesConfig) (bridges : list BridgeLine) (e : tick_env) (w : watch) : option watch * list action :=
  if t_stop e then (None, [])
  else
    match topup cfg bridges e w with
    | (None, acts) => (None, SaveDnsCache :: acts)
    | (Some w, acts1) =>
        let '(w, acts2) := circuit_verify e w in
        let '(w, acts3) := reprobe cfg bridges e w in
        let '(w', acts4) := liveness bridges e w in
        (w', SaveDnsCache :: acts1 ++ acts2 ++ acts3 ++ acts4)
    end.

(** The ticks of a task and what it did, up to its return. *)
Fixpoint stall_watchdog (cfg : ConfigSections.BridgesConfig) (bridges : list BridgeLine) (es : list tick_env) (w : watch) :
  option watch * list (list action) :=
  match es with
  | [] => (Some w, [])
  | e :: es' =>
      match tick cfg bridges e w with
      | (None, acts) => (None, [acts])
      | (Some w', acts) => let '(r, rest) := stall_watchdog cfg bridges es' w' in (r, acts :: rest)
      end
  end.

(** ** The rotation pool *)

(** A history: ticks that went on, with what they did, the latest last. *)
Inductive history (cfg : ConfigSections.BridgesConfig) (bridges : list BridgeLine) (w0 : watch) : list (tick_env * list action) → watch → Prop :=
| history_nil : history cfg bridges w0 [] w0
| history_snoc h w e acts w' :
    history cfg bridges w0 h w → tick cfg bridges e w = (Some w', acts) → history cfg bridges w0 (h ++ [(e, acts)]) w'.

(** Every task that was spawned is joined once. *)
Definition joins (join : list BridgeLine → list (BridgeLine * warm_answer)) : Prop := ∀ l, map fst (join l) ≡ₚ l.

Lemma warmed_elem join bs b l :
  (b, l) ∈ warmed (warm_bridge_pool join bs) ↔ (b, OwnChannel l) ∈ join (firstn MAX_WARM_BRIDGES bs).
Proof.
  unfold warm_bridge_pool. cbn [warmed]. rewrite sort_by_perm, list_elem_of_omap. split.
  - intros (o & ([b' a] & -> & Hin)%list_elem_of_fmap & Ho). destruct a; cbn in Ho; try done; [by simplify_eq|].
    by destruct (is_permanent_bridge_failure rendered).
  - intros Hin. exists (Warm b l). split; [|done]. apply list_elem_of_fmap. by exists (b, OwnChannel l).
Qed.

Lemma warmed_sub join bs b l : joins join → (b, l) ∈ warmed (warm_bridge_pool join bs) → b ∈ firstn MAX_WARM_BRIDGES bs.
Proof. intros Hj Hb%warmed_elem. rewrite <-(Hj (firstn _ bs)). apply list_elem_of_fmap. by eexists (b, _). Qed.

Lemma omap_warm_sublist answers :
  sublist (map fst (omap (fun o => match o with Warm b l => Some (b, l) | _ => None end) (map (fun ba => warm_outcome ba.1 ba.2) answers)))
    (map fst answers).
Proof.
  induction answers as [|[b a] answers IH]; cbn; [constructor|]. destruct a; cbn; try (by constructor).
  destruct (is_permanent_bridge_failure rendered); by constructor.
Qed.

Lemma warmed_nodup join bs : joins join → NoDup (texts bs) → NoDup (texts (map fst (warmed (warm_bridge_pool join bs)))).
Proof.
  intros Hj Hn. unfold texts in *. unfold warm_bridge_pool. cbn [warmed]. rewrite sort_by_perm.
  eapply sublist_NoDup; [|apply (fmap_sublist bridge_to_string), omap_warm_sublist].
  change (NoDup (map bridge_to_string (map fst (join (firstn MAX_WARM_BRIDGES bs))))). rewrite (Hj _).
  eapply sublist_NoDup; [exact Hn|]. apply (fmap_sublist bridge_to_string), sublist_take.
Qed.

Lemma warmed_size join bs : joins join → (length (warmed (warm_bridge_pool join bs)) ≤ MAX_WARM_BRIDGES)%nat.
Proof.
  intros Hj. unfold warm_bridge_pool. cbn [warmed]. rewrite sort_by_perm.
  pose proof (sublist_length _ _ (omap_warm_sublist (join (firstn MAX_WARM_BRIDGES bs)))) as Hl. rewrite !length_map in Hl.
  pose proof (Permutation_length (Hj (firstn MAX_WARM_BRIDGES bs))) as Hp. rewrite length_map, length_take in Hp. lia.
Qed.

Lemma healthiest_keys s candidates limit : store_wf s → NoDup (map key_of (healthiest_among s candidates limit)).
Proof.
  intros [Hwf He]. unfold healthiest_among. rewrite rank_and_take_sorted. set (P := fun ke : Key * Entry => _).
  rewrite map_map. eapply sublist_NoDup; [|apply (fmap_sublist (fun e => key_of (bridge e))), sublist_take].
  change (NoDup (map (fun e => key_of (bridge e)) (sort_by rank_cmp (map snd (List.filter P (entries s)))))). rewrite sort_by_perm, map_map.
  pose proof (filter_keys_NoDup P (entries s) Hwf) as Hn. rewrite (map_ext_in _ fst); [exact Hn|].
  intros [k e] Hin%filter_In. destruct Hin as [Hin _]. apply wf_key, He, bm_elem_get; [done|]. by apply list_elem_of_In.
Qed.

Lemma healthiest_lines s candidates limit b : b ∈ healthiest_among s candidates limit → ∃ e, e ∈ bm_values (entries s) ∧ b = bridge e.
Proof.
  unfold healthiest_among. rewrite rank_and_take_sorted. intros (e & -> & He%elem_of_take_inv)%list_elem_of_fmap. rewrite sort_by_perm in He.
  exists e. split; [|done]. apply list_elem_of_fmap in He as (ke & -> & Hin). apply list_elem_of_In, filter_In in Hin as [Hin _].
  apply list_elem_of_fmap. exists ke. by rewrite list_elem_of_In.
Qed.

Section Rotation.
Context (valid : BridgeLine → Prop) `{!BridgeLineLaws valid}.

Lemma texts_nodup bs : Forall valid bs → NoDup (map key_of bs) → NoDup (texts bs).
Proof.
  intros Hv Hn. induction bs as [|b bs IH]; cbn in *; [constructor|]. apply Forall_cons in Hv as [Hb Hv]. apply NoDup_cons in Hn as [Hk Hn].
  constructor; [|by apply IH]. intros (b' & Ht & Hin)%list_elem_of_fmap. apply Hk.
  rewrite Forall_forall in Hv. pose proof (bridge_parse_print b Hb) as Hp. rewrite Ht, (bridge_parse_print b' (Hv b' Hin)) in Hp.
  injection Hp as <-. apply list_elem_of_fmap. by exists b'.
Qed.

Definition tick_ok (e : tick_env) : Prop :=
  joins (t_join e) ∧ joins (t_rejoin e) ∧
  match t_loaded e with Some (Some s) => store_wf s ∧ ∀ x, x ∈ bm_values (entries s) → valid (bridge x) | _ => True end.

Definition distinct (bs : list BridgeLine) : Prop := Forall valid bs ∧ NoDup (map key_of bs).

Lemma distinct_sublist bs bs' : sublist bs' bs → distinct bs → distinct bs'.
Proof.
  intros Hs [Hv Hn]. split.
  - rewrite Forall_forall in *. intros b Hb. apply Hv. by eapply sublist_subseteq.
  - eapply sublist_NoDup; [exact Hn|]. by apply (fmap_sublist key_of).
Qed.

Lemma usable_sublist store configured : sublist (usable store configured) configured.
Proof. unfold usable. destruct store; [|done]. destruct (is_empty _); [done|apply filter_sublist]. Qed.

Lemma preferred_sublist cfg configured : sublist (preferred_transport_bridges cfg configured) configured.
Proof. unfold preferred_transport_bridges. destruct (BridgesConfig.preferred_transport _); [|done]. destruct (is_empty _); [done|apply filter_sublist]. Qed.

Lemma select_distinct e cfg bridges :
  tick_ok e → distinct bridges → distinct (select_active_probe_bridges_async (t_loaded e) (preferred_transport_bridges cfg bridges)).
Proof.
  intros (_ & _ & Hs) Hd%(distinct_sublist _ _ (preferred_sublist cfg bridges)). unfold select_active_probe_bridges_async.
  destruct (t_loaded e) as [store|]; [|eapply distinct_sublist; [apply sublist_take|exact Hd]].
  pose proof (distinct_sublist _ _ (usable_sublist store _) Hd) as Hu. unfold select_active_probe_bridges.
  destruct (_ <=? _)%nat; [exact Hu|]. destruct store as [s|]; [|eapply distinct_sublist; [apply sublist_take|exact Hu]].
  destruct (is_empty _); [eapply distinct_sublist; [apply sublist_take|exact Hu]|]. destruct Hs as [Hwf Hval]. split.
  - apply Forall_forall. intros b (x & Hx & ->)%healthiest_lines. by apply Hval.
  - by apply healthiest_keys.
Qed.

(** *** Order and size *)

Definition rotation_ok (r : list (BridgeLine * Z)) : Prop :=
  (length r ≤ TARGET_WARM_POOL_SIZE)%nat ∧ sorted_by by_latency r ∧ NoDup (texts (map fst r)).

Lemma sorted_sublist (r r' : list (BridgeLine * Z)) : sublist r' r → sorted_by by_latency r → sorted_by by_latency r'.
Proof.
  intros Hs. induction Hs as [|x r' r Hs IH|x r' r Hs IH]; intros Hr; [constructor| |]; inversion_clear Hr as [|? ? Hr' Hx].
  - constructor; [by apply IH|]. rewrite Forall_forall in *. intros y Hy. apply Hx. by eapply sublist_subseteq.
  - by apply IH.
Qed.

Lemma rotation_sublist r r' : sublist r' r → rotation_ok r → rotation_ok r'.
Proof.
  intros Hs (Hl & Ho & Hn). split_and!.
  - apply sublist_length in Hs. lia.
  - by eapply sorted_sublist.
  - eapply sublist_NoDup; [exact Hn|]. by apply (fmap_sublist bridge_to_string), (fmap_sublist fst).
Qed.

(** A warm-up of the tick opened a channel of the bridge's own. *)
Definition proven (e : tick_env) (bl : BridgeLine * Z) : Prop :=
  ∃ bs, (bl.1, OwnChannel bl.2) ∈ t_join e bs ∨ (bl.1, OwnChannel bl.2) ∈ t_rejoin e bs.

Lemma batch_distinct cfg bridges e w : tick_ok e → distinct bridges → NoDup (texts (topup_batch cfg bridges e w)).
Proof.
  intros He Hd. apply texts_nodup; eapply (distinct_sublist _ (topup_batch cfg bridges e w)); try exact (select_distinct e cfg bridges He Hd);
    unfold topup_batch; (etrans; [apply sublist_take|apply filter_sublist]).
Qed.

Lemma batch_fresh cfg bridges e w b :
  b ∈ topup_batch cfg bridges e w →
  (bridge_to_string b ∉ texts (map fst (rotation_bridges w))) ∧ (bridge_to_string b ∉ warm_session_failed w).
Proof.
  unfold topup_batch. intros Hb%elem_of_take_inv. apply list_elem_of_In, filter_In in Hb as [_ [Hx%bool_decide_eq_true Hy%bool_decide_eq_true]%andb_true_iff].
  by split.
Qed.

Lemma merge_rotation cfg bridges e w :
  tick_ok e → distinct bridges → rotation_ok (rotation_bridges w) →
  let batch := topup_batch cfg bridges e w in
  let w' := merge_pool batch (warm_bridge_pool (t_join e) batch) w in
  rotation_ok (rotation_bridges w') ∧ ∀ bl, bl ∈ rotation_bridges w' → bl ∈ rotation_bridges w ∨ proven e bl.
Proof.
  intros He Hd Hr. unfold merge_pool. cbn [rotation_bridges with_rotation]. cbn zeta. set (batch := topup_batch cfg bridges e w). set (pool := warm_bridge_pool (t_join e) batch).
  set (all := keep_unretired pool (rotation_bridges w) ++ warmed pool). destruct He as (Hj & Hj2 & Hst).
  assert (Hkeep : sublist (keep_unretired pool (rotation_bridges w)) (rotation_bridges w)) by apply filter_sublist.
  assert (Hn : NoDup (texts (map fst all))).
  { unfold all, texts. rewrite !map_app. apply NoDup_app. split_and!.
    - apply (rotation_sublist _ _ Hkeep Hr).
    - intros t (b & -> & ([b' l] & -> & Hin)%list_elem_of_fmap)%list_elem_of_fmap Hw.
      apply list_elem_of_fmap in Hw as (b2 & Ht & ([b3 l2] & -> & Hin2)%list_elem_of_fmap). cbn in *.
      apply (warmed_sub _ _ _ _ Hj) in Hin2. apply elem_of_take_inv in Hin2. apply batch_fresh in Hin2 as [Hf _]. apply Hf. rewrite <-Ht.
      apply list_elem_of_fmap. exists b'. split; [done|]. apply list_elem_of_fmap. exists (b', l). split; [done|]. by eapply sublist_subseteq.
    - apply warmed_nodup; [exact Hj|]. by apply batch_distinct. }
  split.
  - split_and!.
    + rewrite length_take. apply Nat.le_min_l.
    + eapply sorted_sublist; [apply sublist_take|apply (sort_by_sorted by_latency)].
    + eapply sublist_NoDup; [|apply (fmap_sublist bridge_to_string), (fmap_sublist fst), sublist_take].
      change (NoDup (texts (map fst (sort_by by_latency all)))). unfold texts. by rewrite sort_by_perm.
  - intros bl Hin%elem_of_take_inv. rewrite sort_by_perm in Hin. apply elem_of_app in Hin as [Hin|Hin].
    + left. by eapply sublist_subseteq.
    + right. destruct bl as [b l]. apply warmed_elem in Hin. eexists. left. exact Hin.
Qed.

Lemma topup_rotation cfg bridges e w w' acts :
  tick_ok e → distinct bridges → rotation_ok (rotation_bridges w) → topup cfg bridges e w = (Some w', acts) →
  rotation_ok (rotation_bridges w') ∧ ∀ bl, bl ∈ rotation_bridges w' → bl ∈ rotation_bridges w ∨ proven e bl.
Proof.
  intros He Hd Hr. unfold topup. destruct (_ <? _); [intros [= <- _]; (split; [exact Hr|by left])|].
  destruct (is_empty _); [intros [= <- _]; (split; [exact Hr|by left])|]. destruct (t_stop_warming e); [done|]. intros [= <- _].
  by apply (merge_rotation cfg bridges e (with_topup (t_topup e) w)).
Qed.

Lemma rebuild_rotation bridges e w w' acts :
  tick_ok e → distinct bridges → rotation_ok (rotation_bridges w) → rebuild bridges e w = (Some w', acts) →
  rotation_ok (rotation_bridges w') ∧ ∀ bl, bl ∈ rotation_bridges w' → bl ∈ rotation_bridges w ∨ proven e bl.
Proof.
  intros (_ & Hj & _) Hd Hr. unfold rebuild. destruct (t_terminated e); cbn [negb]; [|intros [= <- _]; (split; [exact Hr|by left])].
  destruct (t_stop_rebuild e); [done|]. cbn zeta. set (cands := if is_empty (rotation_bridges w) then _ else _).
  set (pool := warm_bridge_pool (t_rejoin e) cands). intros Hx%(f_equal fst). apply (inj Some) in Hx. subst w'. cbn [rotation_bridges with_rotation].
  destruct (is_empty (warmed pool)) eqn:Hw.
  - destruct (is_empty (retired pool)); [(split; [exact Hr|by left])|]. assert (Hs := filter_sublist (fun bl : BridgeLine * Z => bool_decide (bridge_to_string bl.1 ∉ texts (retired pool))) (rotation_bridges w)).
    split; [by eapply rotation_sublist|]. intros bl Hin. left. by eapply sublist_subseteq.
  - split; [split_and!|].
    + pose proof (warmed_size (t_rejoin e) cands Hj) as Hsz. fold pool in Hsz. unfold MAX_WARM_BRIDGES, TARGET_WARM_POOL_SIZE in *. lia.
    + apply (sort_by_sorted by_latency).
    + apply warmed_nodup; [exact Hj|]. unfold cands. destruct (is_empty (rotation_bridges w)); [by apply texts_nodup; apply Hd|apply Hr].
    + intros [b l] Hin%warmed_elem. right. eexists. right. exact Hin.
Qed.

Lemma liveness_rotation bridges e w w' acts :
  tick_ok e → distinct bridges → rotation_ok (rotation_bridges w) → liveness bridges e w = (Some w', acts) →
  rotation_ok (rotation_bridges w') ∧ ∀ bl, bl ∈ rotation_bridges w' → bl ∈ rotation_bridges w ∨ proven e bl.
Proof.
  intros He Hd Hr. unfold liveness. destruct (t_connected e); [intros [= <- _]; (split; [exact Hr|by left])|]. cbn zeta.
  destruct (_ <? _); [intros [= <- _]; (split; [exact Hr|by left])|]. destruct (negb _); [intros [= <- _]; (split; [exact Hr|by left])|].
  destruct (rebuild _ _ _) as [[w1|] acts1] eqn:Hb; [|done]. intros [= <- _]. cbn [rotation_bridges with_failures].
  by eapply rebuild_rotation in Hb.
Qed.

Lemma spawns_keep cfg bridges e w :
  let w' := (reprobe cfg bridges e (circuit_verify e w).1).1 in
  rotation_bridges w' = rotation_bridges w ∧ consecutive_failures w' = consecutive_failures w ∧ last_reset w' = last_reset w ∧
  warm_session_failed w' = warm_session_failed w.
Proof. cbn. unfold reprobe, circuit_verify. repeat case_match; done. Qed.

(** The parts of a tick that went on. *)
Lemma tick_inv cfg bridges e w w' acts :
  tick cfg bridges e w = (Some w', acts) →
  ∃ w1 acts1 acts2 acts4, topup cfg bridges e w = (Some w1, acts1) ∧
  let w2 := (reprobe cfg bridges e (circuit_verify e w1).1).1 in
  liveness bridges e w2 = (Some w', acts4) ∧ acts = SaveDnsCache :: acts1 ++ acts2 ++ acts4.
Proof.
  unfold tick. destruct (t_stop e); [done|]. destruct (topup cfg bridges e w) as [[w1|] acts1]; [|done].
  destruct (circuit_verify e w1) as [w2 acts2] eqn:Hcv. destruct (reprobe cfg bridges e w2) as [w3 acts3] eqn:Hrp.
  destruct (liveness bridges e w3) as [w4 acts4] eqn:Hlv. intros [= -> <-]. exists w1, acts1, (acts2 ++ acts3), acts4. split; [done|].
  cbn zeta. rewrite Hcv. cbn [fst]. rewrite Hrp. cbn [fst]. split; [done|]. by rewrite <-!app_assoc.
Qed.

(** C25: The bridges the watchdog rotates over are at most 30, fastest first,
    each once, and each opened a channel of its own in a warm-up of this
    session with the latency it is ranked by. *)
Theorem rotation_is_proven cfg bridges now topup verify h w :
  distinct bridges → Forall (fun ea => tick_ok ea.1) h → history cfg bridges (start now topup verify) h w →
  (length (rotation_bridges w) ≤ TARGET_WARM_POOL_SIZE)%nat ∧ sorted_by by_latency (rotation_bridges w) ∧
  NoDup (texts (map fst (rotation_bridges w))) ∧
  ∀ bl, bl ∈ rotation_bridges w → ∃ e acts, (e, acts) ∈ h ∧ proven e bl.
Proof.
  intros Hd Hh Hist. assert (rotation_ok (rotation_bridges w) ∧ ∀ bl, bl ∈ rotation_bridges w → ∃ e acts, (e, acts) ∈ h ∧ proven e bl) as [(? & ? & ?) ?]; [|done].
  induction Hist as [|h w e acts w' Hist IH Ht].
  { split; [|by intros bl ?%not_elem_of_nil]. split_and!; cbn; [lia|constructor|constructor]. }
  apply Forall_app in Hh as [Hh He]. apply Forall_cons in He as [He _]. cbn in He. destruct (IH Hh) as [Hr Hp].
  apply tick_inv in Ht as (w1 & acts1 & acts2 & acts4 & Ht & Hl & _). cbn zeta in Hl.
  destruct (topup_rotation _ _ _ _ _ _ He Hd Hr Ht) as [Hr1 Hp1]. destruct (spawns_keep cfg bridges e w1) as (Hk & _). cbn zeta in Hk.
  eapply liveness_rotation in Hl as [Hr2 Hp2]; [|done|done|by rewrite Hk]. split; [done|]. intros bl [Hb|Hb]%Hp2.
  - rewrite Hk in Hb. apply Hp1 in Hb as [Hb|Hb]; [|exists e, acts; split; [apply elem_of_app; right; left|done]].
    destruct (Hp bl Hb) as (e' & acts' & Hin & Hpr). exists e', acts'. split; [apply elem_of_app; by left|done].
  - exists e, acts. split; [apply elem_of_app; right; left|done].
Qed.
End Rotation.

(** ** Resets *)

Definition resets (acts : list action) : bool := existsb (fun a => match a with TerminateChannels => true | _ => false end) acts.

Lemma topup_resets cfg bridges e w : resets (topup cfg bridges e w).2 = false.
Proof. unfold topup. by repeat case_match. Qed.

Lemma spawns_resets cfg bridges e w w' : resets ((circuit_verify e w).2 ++ (reprobe cfg bridges e w').2) = false.
Proof. unfold circuit_verify, reprobe. by repeat case_match. Qed.

(** What the check of the connection does with its counters. *)
Lemma liveness_resets bridges e w :
  let '(r, acts) := liveness bridges e w in
  if resets acts
  then t_connected e = false ∧ WATCHDOG_FAILURES_BEFORE_RESET ≤ consecutive_failures w + 1 ∧ cooled_down (t_reset e) (last_reset w) = true ∧
    ∀ w', r = Some w' → consecutive_failures w' = 0 ∧ last_reset w' = Some (t_reset e)
  else ∃ w', r = Some w' ∧ last_reset w' = last_reset w ∧ warm_session_failed w' = warm_session_failed w ∧
    consecutive_failures w' = if t_connected e then 0 else consecutive_failures w + 1.
Proof.
  unfold liveness. destruct (t_connected e); [by eexists|]. cbn zeta. destruct (Z.ltb_spec (consecutive_failures w + 1) WATCHDOG_FAILURES_BEFORE_RESET) as [Hn|Hn]; [by eexists|].
  cbn [last_reset with_failures]. destruct (cooled_down (t_reset e) (last_reset w)) eqn:Hc; cbn [negb]; [|by eexists].
  unfold rebuild. destruct (t_terminated e); cbn [negb]; [destruct (t_stop_rebuild e)|]; cbn;
    (split; [done|]; split; [done|]; split; [done|]; by intros w' [= <-]).
Qed.

Lemma tick_resets cfg bridges e w :
  let '(r, acts) := tick cfg bridges e w in
  if resets acts
  then t_connected e = false ∧ WATCHDOG_FAILURES_BEFORE_RESET ≤ consecutive_failures w + 1 ∧ cooled_down (t_reset e) (last_reset w) = true ∧
    ∀ w', r = Some w' → consecutive_failures w' = 0 ∧ last_reset w' = Some (t_reset e)
  else ∀ w', r = Some w' → last_reset w' = last_reset w ∧ consecutive_failures w' = if t_connected e then 0 else consecutive_failures w + 1.
Proof.
  unfold tick. destruct (t_stop e); [done|]. pose proof (topup_resets cfg bridges e w) as Ht.
  destruct (topup cfg bridges e w) as [[w1|] acts1] eqn:Htop; cbn [snd] in Ht; [|unfold resets in *; cbn [existsb orb]; by rewrite Ht].
  assert (Hw1 : consecutive_failures w1 = consecutive_failures w ∧ last_reset w1 = last_reset w).
  { unfold topup in Htop. repeat case_match; simplify_eq; done. }
  destruct (circuit_verify e w1) as [w2 acts2] eqn:Hcv. destruct (reprobe cfg bridges e w2) as [w3 acts3] eqn:Hrp.
  pose proof (spawns_resets cfg bridges e w1 w2) as Hsp. rewrite Hcv, Hrp in Hsp. cbn [snd] in Hsp.
  pose proof (spawns_keep cfg bridges e w1) as Hk. rewrite Hcv in Hk. cbn [fst] in Hk. rewrite Hrp in Hk. cbn zeta in Hk. cbn [fst] in Hk.
  destruct Hk as (_ & Hf & Hl & _). pose proof (liveness_resets bridges e w3) as Hv. destruct (liveness bridges e w3) as [r acts4].
  assert (Hr : resets (SaveDnsCache :: acts1 ++ acts2 ++ acts3 ++ acts4) = resets acts4).
  { unfold resets in *. cbn. rewrite existsb_app in *. rewrite !existsb_app, Ht. cbn. by rewrite orb_assoc, Hsp. }
  rewrite Hr. rewrite Hf, Hl in Hv. destruct Hw1 as [-> ->] in Hv. destruct (resets acts4); [done|].
  destruct Hv as (w' & -> & Hlr & _ & Hc). by intros w'' [= <-].
Qed.

(** The last ticks had no connection, and the reset is not too early. *)
Definition counted (h : list (tick_env * list action)) (w : watch) : Prop :=
  (∃ p t, h = p ++ t ∧ Z.of_nat (length t) = consecutive_failures w ∧ Forall (fun ea => t_connected ea.1 = false) t) ∧
  ∀ e acts, (e, acts) ∈ h → resets acts = true → ∃ r, last_reset w = Some r ∧ t_reset e ≤ r.

Lemma cooled_later now r t : cooled_down now (Some r) = true → t ≤ r → WATCHDOG_RESET_COOLDOWN ≤ now - t.
Proof. cbn. intros Hc%Z.leb_le Ht. lia. Qed.

Lemma history_counted cfg bridges now topup verify h w : history cfg bridges (start now topup verify) h w → counted h w.
Proof.
  induction 1 as [|h w e acts w' Hist IH Ht].
  { split; [by exists [], []|]. by intros e acts ?%not_elem_of_nil. }
  destruct IH as [(p & t & -> & Hn & Hf) Hr]. pose proof (tick_resets cfg bridges e w) as Hv. rewrite Ht in Hv. destruct (resets acts) eqn:Ha.
  - destruct Hv as (_ & _ & Hc & Hw). destruct (Hw w' eq_refl) as [Hz Hl]. split.
    + exists ((p ++ t) ++ [(e, acts)]), []. by rewrite app_nil_r, Hz.
    + intros e' acts' [Hin|[= -> ->]%list_elem_of_singleton]%elem_of_app Hres; exists (t_reset e); (split; [done|]); [|lia].
      destruct (Hr e' acts' Hin Hres) as (r & Hlr & Hle). rewrite Hlr in Hc. pose proof (cooled_later _ _ _ Hc Hle) as Hcd.
      unfold WATCHDOG_RESET_COOLDOWN, from_secs in Hcd. lia.
  - destruct (Hv w' eq_refl) as [Hl Hc]. split.
    + destruct (t_connected e) eqn:Hcon.
      * exists ((p ++ t) ++ [(e, acts)]), []. by rewrite app_nil_r, Hc.
      * exists p, (t ++ [(e, acts)]). rewrite app_assoc, length_app, Hc. cbn. split; [done|]. split; [lia|]. apply Forall_app_2; [done|]. by repeat constructor.
    + intros e' acts' [Hin|[= -> ->]%list_elem_of_singleton]%elem_of_app Hres; [|congruence]. rewrite Hl. by eapply Hr.
Qed.

(** The watchdog resets the channels only when it should: the probe of this
    tick and of the two before it had no connection, and every earlier reset
    lies at least five minutes back. *)
Theorem resets_are_justified cfg bridges now topup verify h w e r acts :
  history cfg bridges (start now topup verify) h w → tick cfg bridges e w = (r, acts) → TerminateChannels ∈ acts →
  t_connected e = false ∧
  (∃ p a b, h = p ++ [a; b] ∧ t_connected a.1 = false ∧ t_connected b.1 = false) ∧
  ∀ e' acts', (e', acts') ∈ h → TerminateChannels ∈ acts' → WATCHDOG_RESET_COOLDOWN ≤ t_reset e - t_reset e'.
Proof.
  intros Hist Ht Hin. assert (Hres : ∀ l, TerminateChannels ∈ l → resets l = true).
  { intros l Hl. apply existsb_exists. exists TerminateChannels. by rewrite <-list_elem_of_In. }
  pose proof (tick_resets cfg bridges e w) as Hv. rewrite Ht, (Hres acts Hin) in Hv. destruct Hv as (Hcon & Hn & Hc & _).
  destruct (history_counted _ _ _ _ _ _ _ Hist) as [(p & t & -> & Hlen & Hf) Hr]. split; [done|]. split.
  - destruct (rev t) as [|b [|a rest]] eqn:Hrev; apply (f_equal (@rev _)) in Hrev; rewrite rev_involutive in Hrev; subst t;
      unfold WATCHDOG_FAILURES_BEFORE_RESET in Hn; cbn in Hlen; try lia.
    exists (p ++ rev rest), a, b. cbn in *. rewrite !Forall_app in Hf. destruct Hf as [[_ Ha] Hb]. rewrite <-!app_assoc. split; [done|].
    by apply Forall_cons in Ha as [? _]; apply Forall_cons in Hb as [? _].
  - intros e' acts' Hin' Ht'. destruct (Hr e' acts' Hin' (Hres acts' Ht')) as (r' & Hlr & Hle). rewrite Hlr in Hc. by eapply cooled_later.
Qed.

(** ** Failed warm-ups *)

Lemma elem_of_without skip bs b : b ∈ without skip bs ↔ b ∈ bs ∧ (bridge_to_string b ∉ texts skip).
Proof. unfold without. by rewrite list_elem_of_In, filter_In, <-list_elem_of_In, bool_decide_eq_true. Qed.

Lemma tick_failed cfg bridges e w w' acts :
  tick cfg bridges e w = (Some w', acts) → resets acts = false →
  warm_session_failed w ⊆ warm_session_failed w' ∧
  ∀ batch pool b, WarmUp batch ∈ acts → PersistWarm pool ∈ acts → b ∈ without (map fst (warmed pool)) batch →
    bridge_to_string b ∈ warm_session_failed w'.
Proof.
  unfold tick. destruct (t_stop e); [done|]. destruct (topup cfg bridges e w) as [[w1|] acts1] eqn:Htop; [|done].
  destruct (circuit_verify e w1) as [w2 acts2] eqn:Hcv. destruct (reprobe cfg bridges e w2) as [w3 acts3] eqn:Hrp.
  destruct (spawns_keep cfg bridges e w1) as (_ & _ & _ & Hk). rewrite Hcv in Hk. cbn [fst] in Hk. rewrite Hrp in Hk. cbn [fst] in Hk.
  pose proof (liveness_resets bridges e w3) as Hv. destruct (liveness bridges e w3) as [r acts4] eqn:Hlv. intros [= -> <-] Hr.
  assert (Hr4 : resets acts4 = false).
  { unfold resets in *. cbn in Hr. rewrite !existsb_app in Hr. by apply orb_false_iff in Hr as [_ [_ [_ ?]%orb_false_iff]%orb_false_iff]. }
  rewrite Hr4 in Hv. destruct Hv as (w'' & [= <-] & _ & Hs & _). rewrite Hs, Hk.
  assert (H4 : acts4 = []).
  { unfold liveness, rebuild in Hlv. repeat case_match; simplify_eq; done. }
  assert (H23 : ∀ a, a ∈ acts2 ++ acts3 → (∀ x, a ≠ WarmUp x) ∧ (∀ x, a ≠ PersistWarm x)).
  { unfold circuit_verify, reprobe in *. intros a Ha. repeat case_match; simplify_eq; set_solver. }
  assert (Hin : ∀ a, a ∈ SaveDnsCache :: acts1 ++ acts2 ++ acts3 ++ acts4 → a = SaveDnsCache ∨ a ∈ acts1 ∨ a ∈ acts2 ++ acts3).
  { intros a. rewrite H4. set_solver. }
  unfold topup in Htop. destruct (_ <? _); [injection Htop as <- <-|destruct (is_empty _); [injection Htop as <- <-|destruct (t_stop_warming e); [done|]]].
  - split; [done|]. intros batch pool b [|[Hn|Hb]]%Hin; [done|by apply not_elem_of_nil in Hn|]. by destruct (proj1 (H23 _ Hb) batch).
  - split; [done|]. intros batch pool b [|[Hn|Hb]]%Hin; [done|by apply not_elem_of_nil in Hn|]. by destruct (proj1 (H23 _ Hb) batch).
  - set (batch0 := topup_batch cfg bridges e _) in *. set (pool0 := warm_bridge_pool (t_join e) batch0) in *.
    injection Htop as <- <-. split; [cbn; set_solver|].
    intros batch pool b Hb Hp Hw. apply Hin in Hb as [|[Hb|Hb]]; [done| |by destruct (proj1 (H23 _ Hb) batch)].
    apply Hin in Hp as [|[Hp|Hp]]; [done| |by destruct (proj2 (H23 _ Hp) pool)].
    assert (batch = batch0) as -> by set_solver. assert (pool = pool0) as -> by set_solver.
    cbn. apply elem_of_union. left. apply elem_of_list_to_set, list_elem_of_fmap. by exists b.
Qed.

(** A bridge that did not open a channel in a top-up round is not tried
    again by later rounds until the watchdog resets the channels, so that it
    does not take the place of bridges that were not tried. *)
Theorem failed_warmups_wait cfg bridges w0 p e0 acts0 q w batch pool b :
  history cfg bridges w0 (p ++ (e0, acts0) :: q) w → Forall (fun ea => TerminateChannels ∉ ea.2) ((e0, acts0) :: q) →
  WarmUp batch ∈ acts0 → PersistWarm pool ∈ acts0 → b ∈ batch → bridge_to_string b ∉ texts (map fst (warmed pool)) →
  ∀ e b', b' ∈ topup_batch cfg bridges e w → bridge_to_string b' ≠ bridge_to_string b.
Proof.
  intros Hist Hno Hb Hp Hin Hw. assert (Hres : ∀ l, TerminateChannels ∉ l → resets l = false).
  { intros l Hl. apply not_true_is_false. intros (a & Ha & Ht)%existsb_exists. apply Hl. rewrite list_elem_of_In. by destruct a. }
  assert (Hs : bridge_to_string b ∈ warm_session_failed w).
  { remember (p ++ (e0, acts0) :: q) as h eqn:Hh. revert q Hh Hno. induction Hist as [|h w e acts w' Hist IH Ht]; intros q Hh Hno.
    - by destruct p.
    - destruct q as [|x q] using rev_ind.
      + apply app_inj_tail in Hh as [_ [= -> ->]]. apply Forall_cons in Hno as [Hno _]. apply Hres in Hno.
        destruct (tick_failed _ _ _ _ _ _ Ht Hno) as [_ Hf]. by eapply (Hf batch pool); [..|apply elem_of_without].
      + clear IHq. rewrite app_comm_cons, app_assoc in Hh. apply app_inj_tail in Hh as [-> <-].
        rewrite app_comm_cons in Hno. apply Forall_app in Hno as [Hno Hx]. apply Forall_cons in Hx as [Hx _]. apply Hres in Hx.
        destruct (tick_failed _ _ _ _ _ _ Ht Hx) as [Hsub _]. apply Hsub. by eapply IH. }
  intros e b' [_ Hf]%batch_fresh Ht. by rewrite Ht in Hf.
Qed.
End Watch.

(** ** The other checks *)

Definition rotations (acts : list live_action) : nat := length (List.filter (fun a => match a with RotateChannels => true | _ => false end) acts).

Lemma attempts_spec left evs r acts :
  attempts left evs = Some (r, acts) →
  (r = Ok true → Opened ∈ evs) ∧ (r = Ok false → Changed true ∈ evs) ∧ (S (rotations acts) ≤ Nat.max 1 left)%nat.
Proof.
  revert evs acts. induction left as [|left IH]; intros evs acts; cbn [attempts]; [intros [= <- <-]; split_and!; [done|done|cbn; lia]|].
  destruct evs as [|[[]| | |] evs]; [done| | | | |done].
  - intros [= <- <-]. split_and!; [done|by left|cbn; lia].
  - intros (Ho & Hc & Hr)%IH. split_and!; [by right; apply Ho|by right; apply Hc|lia].
  - intros [= <- <-]. split_and!; [by left|done|cbn; lia].
  - destruct (Nat.eqb_spec left 0) as [->|Hl]; [intros [= <- <-]; split_and!; [done|done|cbn; lia]|].
    destruct evs as [|[[]| | |] evs]; [done| | |done|done|].
    + intros [= <- <-]. split_and!; [done|by right; left|cbn; lia].
    + destruct (attempts left evs) as [[r' acts']|] eqn:Ha; [|done]. intros [= <- <-]. apply IH in Ha as (Ho & Hc & Hr).
      split_and!; [by right; right; apply Ho|by right; right; apply Hc|]. change (rotations (_ :: _ :: acts')) with (S (rotations acts')). lia.
    + destruct (attempts left evs) as [[r' acts']|] eqn:Ha; [|done]. intros [= <- <-]. apply IH in Ha as (Ho & Hc & Hr).
      split_and!; [by right; right; apply Ho|by right; right; apply Hc|]. change (rotations (_ :: _ :: acts')) with (S (rotations acts')). lia.
Qed.

(** The engine reports that it is on only after a stream was opened through
    Tor; it gives up quietly only on a stop, and rotates the channels at most
    twice. *)
Theorem live_circuit_is_proven stopped evs r acts :
  verify_live_circuit stopped evs = Some (r, acts) →
  (r = Ok true → stopped = false ∧ Opened ∈ evs) ∧ (r = Ok false → stopped = true ∨ Changed true ∈ evs) ∧ (rotations acts ≤ 2)%nat.
Proof.
  unfold verify_live_circuit. destruct stopped; [intros [= <- <-]; split_and!; [done|by left|cbn; lia]|].
  intros (Ho & Hc & Hr)%attempts_spec. unfold LIVE_PROBE_ATTEMPTS in Hr. split_and!; [intros Hx; by split; [|apply Ho]|intros Hx; right; by apply Hc|lia].
Qed.

Lemma stall_later looks s :
  StronglySorted (fun a b => a.1 ≤ b.1) looks → Forall (fun l => last_change s ≤ l.1) looks →
  Forall (fun t => last_change s + BOOTSTRAP_STALL_TIMEOUT ≤ t) (bootstrap_stall_watchdog looks s) ∧
  StronglySorted (fun a b => a + BOOTSTRAP_STALL_TIMEOUT ≤ b) (bootstrap_stall_watchdog looks s).
Proof.
  revert s. induction looks as [|[now percent] looks IH]; intros s Hs Hl; cbn [bootstrap_stall_watchdog]; [by split; constructor|].
  inversion_clear Hs as [|? ? Hs' Hn]. apply Forall_cons in Hl as [Hnow Hl]. cbn in Hnow, Hn.
  unfold stall_check. destruct percent as [pc|]; [|by split; constructor].
  destruct (negb _); cbn [app].
  - destruct (IH (mkStall (Some pc) now) Hs' Hn) as [Hf Hg]. split; [|done]. eapply Forall_impl; [exact Hf|]. cbn. lia.
  - destruct (Z.ltb_spec (now - last_change s) BOOTSTRAP_STALL_TIMEOUT) as [|Ht]; [by apply IH|]. cbn [app].
    destruct (IH (mkStall (last_percent s) now) Hs' Hn) as [Hf Hg]. cbn [last_change] in Hf.
    assert (0 ≤ BOOTSTRAP_STALL_TIMEOUT) by (unfold BOOTSTRAP_STALL_TIMEOUT, from_secs; lia). split.
    + constructor; [lia|]. eapply Forall_impl; [exact Hf|]. cbn. lia.
    + by constructor.
Qed.

(** While the bootstrap makes no progress its channels are reset at most
    once in two minutes. *)
Theorem stall_resets_are_spaced looks s :
  StronglySorted (fun a b => a.1 ≤ b.1) looks → Forall (fun l => last_change s ≤ l.1) looks →
  StronglySorted (fun a b => a + BOOTSTRAP_STALL_TIMEOUT ≤ b) (bootstrap_stall_watchdog looks s).
Proof. intros Hs Hl. by apply stall_later. Qed.

(** ** Witnesses *)

Section Witnesses.
#[local] Existing Instance sample_url.
#[local] Existing Instance sample_tls.
#[local] Existing Instance sample_time.
#[local] Existing Instance sample_lines.

Definition any_transport : ConfigSections.BridgesConfig :=
  ConfigSections.mkBridges [] [] true true 8 64 24 60 0 5 30 0 (lit "auto").
Definition two_bridges : list BridgeLine := [webtunnel_bridge; obfs4_bridge].
Definition obfs4_warms (l : list BridgeLine) : list (BridgeLine * warm_answer) :=
  map (fun b => (b, if uses (lit "obfs4") b then OwnChannel 7 else WarmTimedOut)) l.

Definition round_at (t : Z) (connected : bool) : tick_env :=
  mkTick false t None obfs4_warms false t None (10 : @OffsetDateTime sample_time) t connected t true obfs4_warms false.
Definition good_round : tick_env := round_at (from_secs 200) true.
Definition first_watch : watch := start 0 0 0.

Definition next (e : tick_env) (w : watch) : watch := default w (tick any_transport two_bridges e w).1.
Definition done_by (e : tick_env) (w : watch) : list action := (tick any_transport two_bridges e w).2.
Definition goes_on (e : tick_env) (w : watch) : bool := match (tick any_transport two_bridges e w).1 with Some _ => true | None => false end.

Lemma next_tick e w : goes_on e w = true → tick any_transport two_bridges e w = (Some (next e w), done_by e w).
Proof. unfold goes_on, next, done_by. destruct (tick any_transport two_bridges e w) as [[w'|] acts]; [done|done]. Qed.

Lemma obfs4_warms_joins : joins obfs4_warms.
Proof. intros l. unfold obfs4_warms. rewrite map_map, map_id. done. Qed.

Lemma good_history : history any_transport two_bridges first_watch [(good_round, done_by good_round first_watch)] (next good_round first_watch).
Proof. apply (history_snoc _ _ _ [] first_watch); [constructor|]. apply next_tick. vm_compute. reflexivity. Qed.

Lemma two_bridges_distinct : distinct (fun b => b ∈ [plain_bridge; obfs4_bridge; webtunnel_bridge]) two_bridges.
Proof.
  split; [apply Forall_forall; intros b; unfold two_bridges; set_solver|].
  constructor; [|constructor; [by apply not_elem_of_nil|constructor]]. by intros [=]%list_elem_of_singleton.
Qed.

Lemma rotation_is_proven_witness :
  rotation_bridges (next good_round first_watch) = [(obfs4_bridge, 7)] ∧
  ∃ e acts, (e, acts) ∈ [(good_round, done_by good_round first_watch)] ∧ proven e (obfs4_bridge, 7).
Proof.
  assert (rotation_bridges (next good_round first_watch) = [(obfs4_bridge, 7)]) as Hr by (vm_compute; reflexivity). split; [done|].
  eapply (rotation_is_proven _ (BridgeLineLaws0 := sample_lines_laws)); [exact two_bridges_distinct| |exact good_history|rewrite Hr; left].
  repeat constructor; apply obfs4_warms_joins.
Defined.

Definition bad_round (t : Z) : tick_env := round_at (from_secs t) false.
Definition second_watch : watch := next (bad_round 30) first_watch.
Definition third_watch : watch := next (bad_round 60) second_watch.

Lemma resets_are_justified_witness :
  TerminateChannels ∈ done_by (bad_round 90) third_watch ∧ t_connected (bad_round 90) = false.
Proof.
  assert (TerminateChannels ∈ done_by (bad_round 90) third_watch) as Hin.
  { apply list_elem_of_In. assert (done_by (bad_round 90) third_watch =
      [SaveDnsCache; FlushDns; TerminateChannels; WarmUp two_bridges; PersistWarm (mkPool [(obfs4_bridge, 7)] []); PublishActive [obfs4_bridge]]) as ->
      by (vm_compute; reflexivity). by right; right; left. }
  split; [exact Hin|].
  refine (proj1 (resets_are_justified any_transport two_bridges 0 0 0 ([(bad_round 30, done_by (bad_round 30) first_watch)] ++ [(bad_round 60, done_by (bad_round 60) second_watch)])
    third_watch (bad_round 90) (Some (next (bad_round 90) third_watch)) (done_by (bad_round 90) third_watch) _ _ Hin)).
  - eapply history_snoc; [eapply (history_snoc _ _ _ []); [constructor|]|]; apply next_tick; vm_compute; reflexivity.
  - apply next_tick. vm_compute. reflexivity.
Defined.

Definition good_pool : WarmPool := mkPool [(obfs4_bridge, 7)] [].

Lemma failed_warmups_wait_witness :
  warmed good_pool = [(obfs4_bridge, 7)] ∧ ∀ e b', b' ∈ topup_batch any_transport two_bridges e (next good_round first_watch) → bridge_to_string b' ≠ bridge_to_string webtunnel_bridge.
Proof.
  assert (done_by good_round first_watch = [SaveDnsCache; WarmUp two_bridges; PersistWarm good_pool; PublishActive [obfs4_bridge]]) as Hd
    by (vm_compute; reflexivity).
  split; [reflexivity|]. apply (failed_warmups_wait _ _ _ [] _ _ [] _ two_bridges good_pool webtunnel_bridge good_history).
  - constructor; [|constructor]. cbn [snd]. rewrite Hd. rewrite list_elem_of_In. by intros [|[|[|[|[]]]]].
  - rewrite Hd. right. left.
  - rewrite Hd. right. right. left.
  - left.
  - by intros [=]%list_elem_of_singleton.
Defined.

Lemma live_circuit_is_proven_witness :
  verify_live_circuit false [Refused; Slept; Opened] = Some (Ok true, [ReportBlocked; RotateChannels]) ∧ Opened ∈ [Refused; Slept; Opened].
Proof.
  split; [reflexivity|].
  by apply (live_circuit_is_proven false [Refused; Slept; Opened] (Ok true) [ReportBlocked; RotateChannels]).
Defined.

Definition stuck : list (Z * option Z) := map (fun t => (from_secs t, Some 50)) [30; 150; 180; 300].

Lemma stall_resets_are_spaced_witness :
  bootstrap_stall_watchdog stuck (mkStall (Some 50) 0) = [from_secs 150; from_secs 300] ∧
  StronglySorted (fun a b => a + BOOTSTRAP_STALL_TIMEOUT ≤ b) (bootstrap_stall_watchdog stuck (mkStall (Some 50) 0)).
Proof.
  split; [vm_compute; reflexivity|]. apply stall_resets_are_spaced.
  - unfold stuck. cbn [map]. repeat constructor; cbn [fst]; unfold from_secs; lia.
  - unfold stuck. cbn [map]. repeat constructor; cbn [fst last_change]; unfold from_secs; lia.
Defined.
End Witnesses.
End EngineWatch.
